(* ===== verification/_CoqProject ===== *)
-Q . S2P
Prelude.v
Bytes.v
Fe.v
FeMul.v
FeBytes.v
Primes.v
FePow.v
ScLimbs.v
ScReduce.v
Sc.v
Curve.v
Ge.v
GeBytes.v
GeScalar.v
GeTable.v
GeBase.v
Keccak.v
TreeHash.v
Slide.v
GeDouble.v
GeHash.v
Order.v
Varint.v
Random.v
Encode.v
KeyOps.v
Signature.v
RingSig.v
IntUtil.v
ChaCha.v
Blake.v
Base58.v
Difficulty.v
HexStr.v
Address.v
Token.v
TokenExtra.v
HardFork.v
RctTypes.v
RctTable.v
RctOps.v
Borromean.v
Mlsag.v
Linear.v
Subaddress.v
MultisigKeys.v
Bulletproofs.v
BpCorrect.v
BpProve.v
RctSigs.v
RctCorrect.v
RctFull.v
RctMultisig.v
