(* ===== verification/Prelude.v ===== *)
(** * Electronero: cryptography, accounts, RingCT, tokens and hard forks

    A shallow embedding of the parts of Electronero that decide which keys, signatures, amounts,
    tokens and blocks are valid, with the theorems that make them correct. This file holds what
    all others share: the monad of C computations, exceptions, loops, and generic lemmas.

    ** The program and its parts

    The program is a node and a wallet for a CryptoNote chain. At the bottom, crypto-ops.c computes
    in the field of 2^255 - 19 elements, in the integers modulo the group order and on the curve;
    keccak.c, tree-hash.c, random.c, blake256.c and chacha.c are the hashes, the generator of
    random bytes and the cipher. crypto.cpp builds keys, one-time addresses, signatures and ring
    signatures on them; device_default.cpp and cryptonote_format_utils.cpp use these to find
    and spend the outputs of an account and of its subaddresses, multisig.cpp to share an account
    between signers. The files of ringct build commitments, range proofs, multilayered ring
    signatures and, from these, the signature of a transaction. Base58, variable-length integers
    and hexadecimal strings carry addresses and signatures as text. token.cpp keeps a ledger of
    tokens, whose operations travel in transactions as signed text, and hardfork.cpp and difficulty.cpp
    hold the rules of the chain: the version in force, and the work that a block must show.

    ** Which file models what (paths under src/src unless said otherwise)

    - Bytes, Fe, FeMul, FeBytes, FePow: the type [fe] and the fe_ functions of crypto/crypto-ops.c.
      Primes: the characteristic is a prime.
    - ScLimbs, ScReduce, Sc: the sc_ functions of crypto/crypto-ops.c, with their 64-bit limbs.
    - Curve: the group as mathematics. Ge, GeBytes, GeScalar, GeBase, Slide, GeDouble, GeHash: the
      ge_ types and functions of crypto/crypto-ops.c. GeTable: crypto/crypto-ops-data.c. Order: the
      order of the base point and of the group.
    - Keccak: crypto/keccak.c, crypto/hash.c. TreeHash: crypto/tree-hash.c. Random: crypto/random.c.
      ChaCha: crypto/chacha.c. Blake: crypto/blake256.c, crypto/hash-extra-blake.c.
    - Varint: common/varint.h. IntUtil: common/int-util.h. Base58: common/base58.cpp. HexStr: hex.cpp
      and string_tools.h of contrib/epee.
    - Encode, KeyOps, Signature, RingSig: crypto/crypto.cpp.
    - Address: the addresses of cryptonote_basic/cryptonote_basic_impl.cpp. Subaddress:
      the account functions of device/device_default.cpp and cryptonote_basic/cryptonote_format_utils.cpp.
      MultisigKeys: multisig/multisig.cpp.
    - Difficulty: cryptonote_basic/difficulty.cpp. HardFork: cryptonote_basic/hardfork.cpp.
    - Token, TokenExtra: token/token.cpp.
    - RctTypes, RctTable, RctOps: ringct/rctTypes.cpp, rctTypes.h, rctOps.cpp, rctCryptoOps.c. Borromean, Mlsag,
      RctSigs: ringct/rctSigs.cpp. Bulletproofs: ringct/bulletproofs.cc. Linear: linear combinations of points.
      BpCorrect, BpProve, RctCorrect, RctFull, RctMultisig: the theorems about them.

    The doc comment of each file says how its data and operations correspond to the code.

    ** How code is represented

    - A C function is a function into [option]: [None] is undefined behaviour (signed overflow, an
      access outside an array, a division by zero), a failed assertion or an abort. An equation
      with [Some] thus says that none of these happens. [let!] composes such functions.
    - A function that returns [false] and writes no output gives [None] inside; an exception is a
      value of [outcome] ([Returns] or [Throws]), composed by [let?].
    - Machine words are integers with the wrap-around written out ([u32], [u64]); signed
      intermediates are checked to be in range. Arrays and vectors are lists, keys and
      strings lists of bytes, unordered maps finite maps; where the code iterates over such a
      map, the order is an argument.
    - Loops are [foldM] and [ofold] over the indices of the loop, or recursion on a list. Where the number
      of rounds is computed, a bound is the first argument, and the theorems show that the bound is
      enough, since they state the result: [mlsag_loop] takes as many steps as there are columns, [chacha_loop]
      one per started block of 64 bytes, [update_blocks] of BLAKE one per full
      block, [write_varint] one per seven bits, [prove_rounds] one per halving of the vectors.
    - Uninitialised memory and results that are not tested are arguments ([junk]).

    ** Interfaces

    Components meet in classes: [FastHash] (a total hash on bytes; Keccak.v discharges it, and
    soundness theorems are stated for any), [RandomBytes] (the generator; Random.v discharges it),
    [Build] (with or without assertions), [Addend] (tables of multiples in double scalar
    multiplication) and [BigNum] (the four functions of OpenSSL that bulletproofs.cc calls, with
    their documented behaviour; [reference_numbers] is an instance). Encode.v is the
    interface between points and scalars and their encodings as 32 bytes: files above it do not see limbs.

    ** What the theorems show

    - Arithmetic: every fe_, sc_ and ge_ function computes the mathematical operation, for all
      inputs in the documented ranges, without overflow; decoding accepts exactly the canonical
      encodings; the number that the scalar functions reduce by is proved to be the prime order of
      the base point.
    - Hashes and cipher: Keccak, BLAKE-256 and ChaCha refine specifications written from
      their standards, for messages of every length (for BLAKE-256 parts below 2^61 bytes, whose
      number of bits fits its argument), and incremental use of BLAKE-256 equals one call.
    - Keys and signatures: sender and recipient derive the same keys; what is generated is
      accepted (completeness); what exactly is accepted; two accepted answers to different challenges
      determine the secret (special soundness), with the key image tied to it. Soundness is stated
      for two runs of the verifier that hash the same bytes and get different answers, under two hash
      functions; the secret, or the opening of a range proof, is computed from the two signatures.
    - Accounts: what is sent to a subaddress is found and spent by its owner with
      the right secret; signers of a shared account compute the same keys and the right key images.
    - RingCT: for every spendable input and balanced amounts the generated signature verifies and
      decodes, for simple, full and multisignature transactions, with both kinds of range
      proofs; a verified transaction whose commitments are opened is balanced, or the
      openings give the discrete logarithm of the second base point.
    - Text formats: printing and parsing are inverse to each other.
    - Tokens: the supply of a token is the sum of its balances as a 64-bit word when no name is created
      twice, and exactly when no mint exceeds a word; balances change only by authorised operations,
      or when a name is created again or a sum wraps around, cases that the theorem lists, and as the
      history records. Hard forks: the incremental state
      equals the one that the whole chain determines, after blocks, reorganisations and restarts.
      Difficulty: the proof of work test and bounds of the computed difficulty.

    ** Not modelled

    - CryptoNight (slow-hash.c with AES, Groestl, JH and Skein): vector instructions and a
      scratchpad of two megabytes that no kernel evaluates; [next_difficulty_v3] and the block
      reward, which compute with binary floating point.
    - The block chain, the transaction pool, the construction of transactions and the wallet: their
      state is in a database (LMDB), in files and in serialised structures behind templates.
    - Network, RPC, daemon, command line tools, hardware devices, mnemonic seeds (string
      functions of Boost over word lists), epee and vendored libraries.
    - Threads: jobs of the thread pool run in order, locks have no effect; side channels. *)

From Stdlib Require Import ZArith Lia List Bool.
Import ListNotations.

#[local] Open Scope Z_scope.

(** ** C computations

    A C function is a function into [option]: [None] stands for undefined
    behaviour (signed overflow, an access outside an array), for a failed
    [assert] and for an abort; [Some v] for a normal return of [v]. *)

Definition bind {A B : Type} (m : option A) (k : A -> option B) : option B :=
  match m with
  | Some v => k v
  | None => None
  end.

Declare Scope c_scope.
Delimit Scope c_scope with c.

Notation "'let!' x ':=' m 'in' k" := (bind m (fun x => k))
  (at level 10, x name, m at level 100, k at level 200,
   format "'[v' 'let!'  x  ':='  m  'in' '//' k ']'") : c_scope.
Notation "'let!' ' p ':=' m 'in' k" := (bind m (fun x => match x with p => k end))
  (at level 10, p strict pattern, m at level 100, k at level 200,
   format "'[v' 'let!'  ' p  ':='  m  'in' '//' k ']'") : c_scope.
#[global] Open Scope c_scope.

Lemma some_inj {A} (u v : A) : Some u = Some v -> u = v.
Proof. congruence. Qed.

(** [returns m Q]: the computation is defined, and its result satisfies [Q]. *)
Definition returns {A : Type} (m : option A) (Q : A -> Prop) : Prop :=
  match m with
  | Some v => Q v
  | None => False
  end.

Lemma returns_some {A} (m : option A) (Q : A -> Prop) :
  returns m Q <-> exists v, m = Some v /\ Q v.
Proof. destruct m as [v|]; cbn; [split; [eauto | intros (? & [= ->] & ?); auto] | firstorder congruence]. Qed.

Lemma returns_eq {A} (m : option A) v : returns m (fun x => x = v) -> m = Some v.
Proof. destruct m; cbn; [now intros -> | contradiction]. Qed.

Lemma returns_bind {A B} (m : option A) (k : A -> option B) (P : A -> Prop) (Q : B -> Prop) :
  returns m P -> (forall v, P v -> returns (k v) Q) -> returns (bind m k) Q.
Proof. destruct m; cbn; auto; contradiction. Qed.

Lemma returns_weaken {A} (m : option A) (P Q : A -> Prop) :
  returns m P -> (forall v, P v -> Q v) -> returns m Q.
Proof. destruct m; cbn; auto. Qed.

(** Repetition of a statement ([for (i = 0; i < n; ++i) x = f(x);]). *)
Fixpoint repeatM {A : Type} (n : nat) (f : A -> option A) (x : A) : option A :=
  match n with
  | O => Some x
  | S n => let! y := f x in repeatM n f y
  end.

Lemma repeatM_inv {A} (I : nat -> A -> Prop) (f : A -> option A) n x :
  I O x ->
  (forall i y, I i y -> returns (f y) (I (S i))) ->
  returns (repeatM n f x) (I n).
Proof.
  revert I x; induction n as [|n IH]; intros I x H0 Hs; cbn; [exact H0|].
  apply (returns_bind _ _ (I 1%nat)); [apply Hs, H0|].
  intros y Hy. apply (IH (fun i => I (S i))); auto.
Qed.

(** [for (x : l) y = f(y, x);] *)
Fixpoint foldM {A B : Type} (f : A -> B -> option A) (l : list B) (y : A) : option A :=
  match l with
  | [] => Some y
  | x :: l => let! y := f y x in foldM f l y
  end.

Lemma foldM_inv {A B} (I : list B -> A -> Prop) (f : A -> B -> option A) l done y :
  I done y ->
  (forall done x y, In x l -> I done y -> returns (f y x) (I (done ++ [x]))) ->
  returns (foldM f l y) (I (done ++ l)).
Proof.
  revert done y; induction l as [|x l IH]; intros done y H0 Hs; cbn; [now rewrite app_nil_r|].
  apply (returns_bind _ _ (I (done ++ [x]))); [apply Hs; [now left | exact H0]|].
  intros z Hz. replace (done ++ x :: l) with ((done ++ [x]) ++ l) by now rewrite <- app_assoc.
  apply IH; [exact Hz|]. intros done' x' y' Hin. apply Hs. now right.
Qed.

(** [for (i = k; i < k + n; ++i) y = f(y, i);] *)
Lemma foldM_seq {A} (I : nat -> A -> Prop) (f : A -> nat -> option A) k n y :
  I k y ->
  (forall i y, (k <= i < k + n)%nat -> I i y -> returns (f y i) (I (S i))) ->
  returns (foldM f (seq k n) y) (I (k + n)%nat).
Proof.
  revert k y; induction n as [|n IH]; intros k y H0 Hs; cbn [seq foldM]; [now rewrite Nat.add_0_r|].
  apply (returns_bind _ _ (I (S k))); [apply Hs; [lia | exact H0]|].
  intros z Hz. rewrite Nat.add_succ_r. apply (IH (S k)); [exact Hz|]. intros; apply Hs; trivial; lia.
Qed.

(** [for (i : l) r[i] = f(i);] into a fresh array. *)
Fixpoint mapM {A B : Type} (f : A -> option B) (l : list A) : option (list B) :=
  match l with
  | [] => Some []
  | x :: l => let! y := f x in let! ys := mapM f l in Some (y :: ys)
  end.

Lemma mapM_map {A B} (f : A -> option B) (g : A -> B) l :
  (forall x, In x l -> f x = Some (g x)) -> mapM f l = Some (map g l).
Proof.
  induction l as [|x l IH]; intros H; cbn [mapM map]; [reflexivity|].
  rewrite H by now left. cbn [bind]. rewrite IH; [reflexivity|]. intros; apply H; now right.
Qed.

(** Arrays given by their entries. *)
Lemma nth_map_seq {A} (f : nat -> A) n j d : (j < n)%nat -> nth j (map f (seq 0 n)) d = f j.
Proof.
  intros Hj. rewrite (nth_indep _ d (f 0%nat)) by (rewrite length_map, length_seq; exact Hj).
  rewrite map_nth, seq_nth by exact Hj. reflexivity.
Qed.

Lemma seq_plus n m : seq n m = map (fun i => (n + i)%nat) (seq 0 m).
Proof. induction m as [|m IH]; [reflexivity|]. now rewrite !seq_S, map_app, <- IH. Qed.

(** [l[i] = v;], undefined outside the array. *)
Fixpoint aset {A : Type} (l : list A) (i : nat) (v : A) : option (list A) :=
  match l, i with
  | [], _ => None
  | _ :: l, O => Some (v :: l)
  | x :: l, S i => let! l := aset l i v in Some (x :: l)
  end.

Lemma aset_spec {A} (l : list A) i v (d : A) :
  (i < length l)%nat ->
  returns (aset l i v) (fun l' => length l' = length l /\
    forall k, nth k l' d = if (k =? i)%nat then v else nth k l d).
Proof.
  revert i. induction l as [|x l IH]; cbn [length]; intros i Hi; [lia|].
  destruct i as [|i]; cbn [aset].
  - cbn. split; [reflexivity|]. now intros [|k].
  - eapply returns_bind; [apply IH; lia|]. cbn beta. intros l' [Hl Hk]. cbn. split; [lia|].
    intros [|k]; [reflexivity|]. apply Hk.
Qed.

Lemma aset_middle {A} (z : list A) y t v : aset (z ++ y :: t) (length z) v = Some (z ++ v :: t).
Proof. induction z as [|a z IH]; cbn [app length aset]; [reflexivity | now rewrite IH]. Qed.

Lemma aset_in {A} (P : A -> Prop) (l : list A) i v :
  (i < length l)%nat -> Forall P l -> P v -> returns (aset l i v) (Forall P).
Proof.
  revert i. induction l as [|x l IH]; cbn [length]; intros i Hi Hl Hv; [lia|].
  inversion Hl; subst. destruct i as [|i]; cbn [aset]; [cbn; now constructor|].
  eapply returns_bind; [apply IH; trivial; lia|]. intros l' Hl'. now constructor.
Qed.

Lemma app_inj_length {A} (a b a' b' : list A) :
  length a = length a' -> a ++ b = a' ++ b' -> a = a' /\ b = b'.
Proof.
  revert a'. induction a as [|x a IH]; intros [|y a'] Hl E; try discriminate Hl; [now split|].
  injection E as <- E. injection Hl as Hl. destruct (IH a' Hl E) as [<- <-]. now split.
Qed.

(** ** Positional notation *)

(** The integer with digits [ds] in base [B]. *)
Fixpoint horner (B : Z) (ds : list Z) : Z :=
  match ds with
  | [] => 0
  | d :: ds => d + B * horner B ds
  end.

(** ** Machine integers

    [cint] is the value of a C integer expression. In the scopes [i32] and
    [i64] the operators are those of [int32_t] and [int64_t]: each
    intermediate result outside the type makes the expression undefined. *)

Inductive ity := I32 | I64.

Definition imax (t : ity) : Z :=
  match t with
  | I32 => 2147483647
  | I64 => 9223372036854775807
  end.

Definition cint := option Z.
Definition val (x : Z) : cint := Some x.
Coercion val : Z >-> cint.

Definition chk (t : ity) (x : Z) : cint :=
  if (- imax t - 1 <=? x) && (x <=? imax t) then Some x else None.

Definition iop (t : ity) (f : Z -> Z -> Z) (a b : cint) : cint :=
  let! x := a in let! y := b in chk t (f x y).

(** A failed [assert] aborts the computation. *)
Definition cassert (b : bool) : option unit := if b then Some tt else None.

(** Conversions to an unsigned type reduce modulo a power of two. *)
Definition u8 (x : Z) : Z := x mod 2 ^ 8.
Definition u32 (x : Z) : Z := x mod 2 ^ 32.
Definition u64 (x : Z) : Z := x mod 2 ^ 64.

(** Conversions to a signed type keep the low bits. *)
Definition to_i8 (x : Z) : Z := (x + 2 ^ 7) mod 2 ^ 8 - 2 ^ 7.
Definition to_i32 (x : Z) : Z := (x + 2 ^ 31) mod 2 ^ 32 - 2 ^ 31.
Definition to_i64 (x : Z) : Z := (x + 2 ^ 63) mod 2 ^ 64 - 2 ^ 63.

Definition to_signed (t : ity) : Z -> Z :=
  match t with
  | I32 => to_i32
  | I64 => to_i64
  end.

(** Shifts of signed values follow the compilers the project builds with: [>>]
    is arithmetic, [<<] keeps the low bits of the result whatever the sign. *)
Definition ishl (t : ity) (a b : cint) : cint :=
  let! x := a in let! k := b in Some (to_signed t (Z.shiftl x k)).

Definition ishr (a b : cint) : cint :=
  let! x := a in let! k := b in Some (Z.shiftr x k).

Definition iopp (t : ity) (a : cint) : cint :=
  let! x := a in chk t (- x).

Declare Scope i32_scope.
Delimit Scope i32_scope with i32.
Notation "a + b" := (iop I32 Z.add a b) : i32_scope.
Notation "a - b" := (iop I32 Z.sub a b) : i32_scope.
Notation "a * b" := (iop I32 Z.mul a b) : i32_scope.
Notation "- a" := (iopp I32 a) : i32_scope.
Notation "a << b" := (ishl I32 a b) (at level 52, left associativity) : i32_scope.
Notation "a >> b" := (ishr a b) (at level 52, left associativity) : i32_scope.

Declare Scope i64_scope.
Delimit Scope i64_scope with i64.
Notation "a + b" := (iop I64 Z.add a b) : i64_scope.
Notation "a - b" := (iop I64 Z.sub a b) : i64_scope.
Notation "a * b" := (iop I64 Z.mul a b) : i64_scope.
Notation "- a" := (iopp I64 a) : i64_scope.
Notation "a << b" := (ishl I64 a b) (at level 52, left associativity) : i64_scope.
Notation "a >> b" := (ishr a b) (at level 52, left associativity) : i64_scope.

Lemma to_i32_id x : Z.abs x <= imax I32 -> to_i32 x = x.
Proof. unfold to_i32; cbn [imax]; intros. rewrite Z.mod_small; lia. Qed.

Lemma to_i64_id x : Z.abs x <= imax I64 -> to_i64 x = x.
Proof. unfold to_i64; cbn [imax]; intros. rewrite Z.mod_small; lia. Qed.

Lemma to_i8_small x : - 2 ^ 7 <= x < 2 ^ 7 -> to_i8 x = x.
Proof. unfold to_i8; intros. rewrite Z.mod_small; lia. Qed.

Lemma to_i32_small x : - 2 ^ 31 <= x < 2 ^ 31 -> to_i32 x = x.
Proof. unfold to_i32; intros. rewrite Z.mod_small; lia. Qed.

Lemma to_i32_u32 x : to_i32 (u32 x) = to_i32 x.
Proof. unfold to_i32, u32. now rewrite Zplus_mod_idemp_l. Qed.

(** A value is in the range of a signed [k]-bit type when only sign bits are left
    above bit [k-1]; bitwise operations keep that range. *)
Lemma signed_range_shiftr x k :
  0 <= k -> (- 2 ^ k <= x < 2 ^ k <-> Z.shiftr x k = 0 \/ Z.shiftr x k = -1).
Proof.
  intros Hk. rewrite Z.shiftr_div_pow2 by exact Hk.
  pose proof (Z.pow_pos_nonneg 2 k ltac:(lia) Hk).
  pose proof (Z.div_mod x (2 ^ k) ltac:(lia)). pose proof (Z.mod_pos_bound x (2 ^ k) ltac:(lia)).
  split; intros; [|nia].
  destruct (Z.lt_ge_cases x 0); [right | left]; nia.
Qed.

Lemma lxor_signed_range x y k :
  0 <= k -> - 2 ^ k <= x < 2 ^ k -> - 2 ^ k <= y < 2 ^ k -> - 2 ^ k <= Z.lxor x y < 2 ^ k.
Proof.
  intros Hk Hx Hy. rewrite signed_range_shiftr in * by exact Hk.
  rewrite Z.shiftr_lxor. destruct Hx as [-> | ->], Hy as [-> | ->]; cbn; auto.
Qed.

(** *** Interval evaluation of expressions *)

Definition evb (e : cint) (v B : Z) : Prop := e = Some v /\ Z.abs v <= B.

Lemma chk_ok t x : Z.abs x <= imax t -> chk t x = Some x.
Proof.
  unfold chk; intros H.
  replace (_ && _) with true; [reflexivity|].
  symmetry; apply andb_true_intro; split; apply Z.leb_le; lia.
Qed.

Lemma evb_iop t f a b x y A B C :
  evb a x A -> evb b y B -> Z.abs (f x y) <= C -> C <= imax t -> evb (iop t f a b) (f x y) C.
Proof.
  intros [-> Hx] [-> Hy] Hf HC. split; [cbn; apply chk_ok; lia | exact Hf].
Qed.

Lemma evb_var x B : Z.abs x <= B -> evb (val x) x B.
Proof. split; [reflexivity | assumption]. Qed.

Lemma evb_const x : evb (val x) x (Z.abs x).
Proof. split; [reflexivity | lia]. Qed.

Lemma evb_add t a b x y A B :
  evb a x A -> evb b y B -> (A + B <=? imax t) = true -> evb (iop t Z.add a b) (x + y) (A + B).
Proof. intros HA HB E. apply Z.leb_le in E. eapply evb_iop; eauto. destruct HA, HB; lia. Qed.

Lemma evb_sub t a b x y A B :
  evb a x A -> evb b y B -> (A + B <=? imax t) = true -> evb (iop t Z.sub a b) (x - y) (A + B).
Proof. intros HA HB E. apply Z.leb_le in E. eapply evb_iop; eauto. destruct HA, HB; lia. Qed.

Lemma evb_mul t a b x y A B :
  evb a x A -> evb b y B -> (A * B <=? imax t) = true -> evb (iop t Z.mul a b) (x * y) (A * B).
Proof.
  intros HA HB E. apply Z.leb_le in E. eapply evb_iop; eauto.
  destruct HA, HB. rewrite Z.abs_mul. apply Z.mul_le_mono_nonneg; lia.
Qed.

Lemma evb_opp t a x A :
  evb a x A -> (A <=? imax t) = true -> evb (iopp t a) (- x) A.
Proof.
  intros [-> H] E. apply Z.leb_le in E. split; [cbn; apply chk_ok|]; lia.
Qed.

Lemma to_signed_id t x : Z.abs x <= imax t -> to_signed t x = x.
Proof. destruct t; [apply to_i32_id | apply to_i64_id]. Qed.

Lemma evb_shl t a x A k :
  evb a x A -> (0 <=? k) = true -> (A * 2 ^ k <=? imax t) = true ->
  evb (ishl t a (val k)) (x * 2 ^ k) (A * 2 ^ k).
Proof.
  intros [-> HA] Hk E. apply Z.leb_le in E, Hk.
  pose proof (Z.pow_pos_nonneg 2 k ltac:(lia) Hk).
  assert (Z.abs (x * 2 ^ k) <= A * 2 ^ k).
  { rewrite Z.abs_mul, (Z.abs_eq (2 ^ k)) by lia. apply Z.mul_le_mono_nonneg_r; lia. }
  split; [cbn | assumption]. rewrite Z.shiftl_mul_pow2 by exact Hk.
  now rewrite to_signed_id by lia.
Qed.

Lemma evb_shr a x A k :
  evb a x A -> (0 <=? k) = true -> evb (ishr a (val k)) (x / 2 ^ k) (A / 2 ^ k + 1).
Proof.
  intros [-> HA] Hk. apply Z.leb_le in Hk.
  split; [cbn; now rewrite Z.shiftr_div_pow2 by exact Hk |].
  pose proof (Z.pow_pos_nonneg 2 k ltac:(lia) Hk).
  pose proof (Z.div_le_mono x A (2 ^ k) ltac:(lia) ltac:(lia)).
  pose proof (Z.div_le_mono (- A) x (2 ^ k) ltac:(lia) ltac:(lia)).
  pose proof (Z.div_opp_l_nz A (2 ^ k) ltac:(lia)) as Hn.
  pose proof (Z.div_opp_l_z A (2 ^ k) ltac:(lia)) as Hz.
  destruct (Z.eq_dec (A mod 2 ^ k) 0) as [e|e]; [specialize (Hz e) | specialize (Hn e)]; lia.
Qed.

Ltac bound_side := first [assumption | vm_compute; reflexivity].

Ltac evb_solve :=
  lazymatch goal with
  | |- evb (iop _ Z.add _ _) _ _ => eapply evb_add; [evb_solve | evb_solve | bound_side]
  | |- evb (iop _ Z.sub _ _) _ _ => eapply evb_sub; [evb_solve | evb_solve | bound_side]
  | |- evb (iop _ Z.mul _ _) _ _ => eapply evb_mul; [evb_solve | evb_solve | bound_side]
  | |- evb (iopp _ _) _ _ => eapply evb_opp; [evb_solve | bound_side]
  | |- evb (ishl _ _ _) _ _ => eapply evb_shl; [evb_solve | reflexivity | bound_side]
  | |- evb (ishr _ _) _ _ => eapply evb_shr; [evb_solve | reflexivity]
  | H : Z.abs ?x <= ?B |- evb (val ?x) _ _ => exact (evb_var x B H)
  | |- evb (val _) _ _ => apply evb_const
  end.

Lemma returns_let {A} (e : cint) v B (K : Z -> option A) Q :
  evb e v B -> (forall x, x = v -> Z.abs x <= B -> returns (K x) Q) -> returns (bind e K) Q.
Proof. intros [-> H] HK. cbn. now apply HK. Qed.

Lemma returns_cassert {A} b (K : unit -> option A) Q :
  b = true -> returns (K tt) Q -> returns (bind (cassert b) K) Q.
Proof. intros ->. auto. Qed.

(** Replaces a closed bound by its numeral. *)
Ltac norm_bound H :=
  match type of H with
  | Z.abs ?x <= ?B =>
      let B' := eval vm_compute in B in
      lazymatch B' with
      | Z0 => change (Z.abs x <= B') in H
      | Zpos _ => change (Z.abs x <= B') in H
      | _ => idtac
      end
  end.

(** ** Carries

    [carry = (lo + (1 << (k-1))) >> k; hi += carry; lo -= carry << k;], the line
    that the limb arithmetic of crypto-ops.c repeats, rounds [lo] into
    [-2^(k-1), 2^(k-1)]; [carry_floor] is its variant without the rounding
    term, which leaves [lo] in [0, 2^k) and which the code has in both widths. *)

Definition carry_round (k lo hi : Z) : option (Z * Z) :=
  let! carry := ((lo + (1 << (k - 1)%Z)) >> k)%i64 in
  let! hi' := (hi + carry)%i64 in
  let! lo' := (lo - (carry << k))%i64 in
  Some (lo', hi').

Definition carry_floor (t : ity) (k lo hi : Z) : option (Z * Z) :=
  let! carry := ishr lo k in
  let! hi' := iop t Z.add hi carry in
  let! lo' := iop t Z.sub lo (ishl t carry k) in
  Some (lo', hi').

Section Carry.
  Variables k lo hi A B : Z.
  Hypothesis Hk : (0 <? k) = true.
  Hypothesis Hlo : Z.abs lo <= A.
  Hypothesis Hhi : Z.abs hi <= B.

Lemma carry_round_spec {T} (K : Z * Z -> option T) Q :
    (1 * 2 ^ (k - 1) <=? imax I64) = true ->
    (A + 1 * 2 ^ (k - 1) <=? imax I64) = true ->
    (B + ((A + 1 * 2 ^ (k - 1)) / 2 ^ k + 1) <=? imax I64) = true ->
    (((A + 1 * 2 ^ (k - 1)) / 2 ^ k + 1) * 2 ^ k <=? imax I64) = true ->
    (A + ((A + 1 * 2 ^ (k - 1)) / 2 ^ k + 1) * 2 ^ k <=? imax I64) = true ->
    (forall lo' hi' c, lo' = lo - 2 ^ k * c -> hi' = hi + c ->
       - 2 ^ (k - 1) <= lo' < 2 ^ (k - 1) ->
       Z.abs hi' <= B + ((A + 1 * 2 ^ (k - 1)) / 2 ^ k + 1) ->
       returns (K (lo', hi')) Q) ->
    returns (bind (carry_round k lo hi) K) Q.
  Proof.
    intros E1 E2 E4 E5 E6 HK. apply Z.ltb_lt in Hk.
    apply (returns_bind _ _ (fun r => let '(lo', hi') := r in exists c,
       lo' = lo - 2 ^ k * c /\ hi' = hi + c /\ - 2 ^ (k - 1) <= lo' < 2 ^ (k - 1) /\
       Z.abs hi' <= B + ((A + 1 * 2 ^ (k - 1)) / 2 ^ k + 1))).
    - assert ((0 <=? k) = true) by (apply Z.leb_le; lia).
      assert ((0 <=? k - 1) = true) by (apply Z.leb_le; lia).
      unfold carry_round.
      eapply returns_let.
      { eapply evb_shr; [eapply evb_add; [apply evb_var, Hlo | | exact E2] | assumption].
        eapply evb_shl; [apply (evb_const 1) | assumption | exact E1]. }
      intros c Ec Hc. cbn beta in *.
      eapply returns_let; [eapply evb_add; [apply evb_var, Hhi | apply evb_var, Hc | exact E4] |].
      intros h Eh Hh.
      eapply returns_let; [eapply evb_sub; [apply evb_var, Hlo | | exact E6] |].
      { eapply evb_shl; [apply evb_var, Hc | assumption | exact E5]. }
      intros l El Hl. cbn [returns].
      assert (2 ^ k = 2 * 2 ^ (k - 1)) as Ek
        by (rewrite <- Z.pow_succ_r by lia; f_equal; lia).
      pose proof (Z.pow_pos_nonneg 2 (k - 1) ltac:(lia) ltac:(lia)).
      pose proof (Z.div_mod (lo + 1 * 2 ^ (k - 1)) (2 ^ k) ltac:(lia)) as D.
      pose proof (Z.mod_pos_bound (lo + 1 * 2 ^ (k - 1)) (2 ^ k) ltac:(lia)).
      rewrite <- Ec in D. exists c. subst l h. repeat split; lia || exact Hh.
    - intros [lo' hi'] (c & H1 & H2 & H3 & H4). eauto.
  Qed.

Lemma carry_floor_spec {T} t (K : Z * Z -> option T) Q :
    (B + (A / 2 ^ k + 1) <=? imax t) = true ->
    ((A / 2 ^ k + 1) * 2 ^ k <=? imax t) = true ->
    (A + (A / 2 ^ k + 1) * 2 ^ k <=? imax t) = true ->
    (forall lo' hi' c, lo' = lo - 2 ^ k * c -> hi' = hi + c ->
       0 <= lo' < 2 ^ k ->
       Z.abs hi' <= B + (A / 2 ^ k + 1) ->
       returns (K (lo', hi')) Q) ->
    returns (bind (carry_floor t k lo hi) K) Q.
  Proof.
    intros E4 E5 E6 HK. apply Z.ltb_lt in Hk.
    apply (returns_bind _ _ (fun r => let '(lo', hi') := r in exists c,
       lo' = lo - 2 ^ k * c /\ hi' = hi + c /\ 0 <= lo' < 2 ^ k /\
       Z.abs hi' <= B + (A / 2 ^ k + 1))).
    - assert ((0 <=? k) = true) by (apply Z.leb_le; lia).
      unfold carry_floor.
      eapply returns_let; [eapply evb_shr; [apply evb_var, Hlo | assumption] |].
      intros c Ec Hc.
      eapply returns_let; [eapply evb_add; [apply evb_var, Hhi | apply evb_var, Hc | exact E4] |].
      intros h Eh Hh.
      eapply returns_let; [eapply evb_sub; [apply evb_var, Hlo | | exact E6] |].
      { eapply evb_shl; [apply evb_var, Hc | assumption | exact E5]. }
      intros l El Hl. cbn [returns].
      pose proof (Z.pow_pos_nonneg 2 k ltac:(lia) ltac:(lia)).
      pose proof (Z.div_mod lo (2 ^ k) ltac:(lia)) as D.
      pose proof (Z.mod_pos_bound lo (2 ^ k) ltac:(lia)).
      rewrite <- Ec in D. exists c. subst l h. repeat split; lia || exact Hh.
    - intros [lo' hi'] (c & H1 & H2 & H3 & H4). eauto.
  Qed.
End Carry.

(** ** Symbolic execution

    [cstep] executes one [let!] whose right-hand side is an expression or a
    carry; [cexec] all of them. Every value gets a name, an equation and a
    numeric bound on its absolute value. *)

Lemma abs_range x m : - m <= x < m -> Z.abs x <= m.
Proof. lia. Qed.

Lemma abs_range0 x m : 0 <= x < m -> Z.abs x <= m.
Proof. lia. Qed.

Ltac cstep_expr :=
  eapply returns_let; [evb_solve |];
  let x := fresh "x" in let E := fresh "E" in let H := fresh "H" in
  intros x E H; norm_bound H.

Ltac known_bound x :=
  match goal with H : Z.abs x <= ?B |- _ => constr:(H) end.

Ltac cstep_carry :=
  lazymatch goal with
  | |- returns (bind (carry_round ?k ?lo ?hi) _) _ =>
      let Hl := known_bound lo in let Hh := known_bound hi in
      eapply (carry_round_spec k lo hi _ _ eq_refl Hl Hh); [bound_side.. |]
  | |- returns (bind (carry_floor ?t ?k ?lo ?hi) _) _ =>
      let Hl := known_bound lo in let Hh := known_bound hi in
      eapply (carry_floor_spec k lo hi _ _ eq_refl Hl Hh t); [bound_side.. |]
  end;
  let l := fresh "l" in let h := fresh "h" in let c := fresh "c" in
  let E := fresh "E" in let E' := fresh "E" in let R := fresh "R" in let H := fresh "H" in
  intros l h c E E' R H; norm_bound H;
  let L := fresh "L" in
  first [pose proof (abs_range _ _ R) as L | pose proof (abs_range0 _ _ R) as L];
  norm_bound L; cbv beta iota.

Ltac cstep := first [cstep_carry | cstep_expr].

Ltac cexec := repeat cstep; cbn [returns].

(** Closes [Z.abs x <= B] from a smaller numeric bound in the context. *)
Ltac abs_le := eapply Z.le_trans; [eassumption | vm_compute; discriminate].

(** Bounds of linear combinations, by structure: [abs_lin] proves
    [Z.abs e <= ?B] and [range_lin] proves [0 <= e <= ?B], with [?B] computed from
    the bounds of the variables in the context. *)
Lemma abs_add_le a b A B : Z.abs a <= A -> Z.abs b <= B -> Z.abs (a + b) <= A + B.
Proof. lia. Qed.

Lemma abs_scale_le c x B : (0 <=? c) = true -> Z.abs x <= B -> Z.abs (c * x) <= c * B.
Proof.
  intros Hc%Z.leb_le H. rewrite Z.abs_mul, (Z.abs_eq c) by exact Hc.
  now apply Z.mul_le_mono_nonneg_l.
Qed.

Lemma range_var x B : 0 <= x < B -> 0 <= x <= B - 1.
Proof. lia. Qed.

Lemma range_add_le a b A B : 0 <= a <= A -> 0 <= b <= B -> 0 <= a + b <= A + B.
Proof. lia. Qed.

Lemma range_scale_le c x B : (0 <=? c) = true -> 0 <= x <= B -> 0 <= c * x <= c * B.
Proof. intros Hc%Z.leb_le H. nia. Qed.

Ltac abs_lin :=
  lazymatch goal with
  | |- Z.abs (_ + _) <= _ => eapply abs_add_le; abs_lin
  | |- Z.abs (_ * _) <= _ => eapply abs_scale_le; [reflexivity | abs_lin]
  | |- _ => eassumption
  end.

Ltac range_lin :=
  lazymatch goal with
  | |- 0 <= _ + _ <= _ => eapply range_add_le; range_lin
  | |- 0 <= _ * _ <= _ => eapply range_scale_le; [reflexivity | range_lin]
  | |- _ => apply range_var; eassumption
  end.

Lemma abs_le_range x B m : Z.abs x <= B -> (B <? m) = true -> - m <= x < m.
Proof. intros H E%Z.ltb_lt. lia. Qed.

Lemma range_le_range x B m : 0 <= x <= B -> (B <? m) = true -> 0 <= x < m.
Proof. intros H E%Z.ltb_lt. lia. Qed.

(** Quotients as equations. *)
Lemma floor_step a q k :
  (0 <=? k) = true -> q = a / 2 ^ k -> exists r, a = 2 ^ k * q + r /\ 0 <= r < 2 ^ k.
Proof.
  intros Hk%Z.leb_le ->. exists (a mod 2 ^ k).
  split; [apply Z.div_mod | apply Z.mod_pos_bound]; lia.
Qed.

Ltac floor_eq E :=
  let r := fresh "r" in let E' := fresh "D" in let R := fresh "R" in
  apply floor_step in E; [destruct E as (r & E' & R) | reflexivity].

Ltac floor_eqs := repeat match goal with E : _ = _ / _ |- _ => floor_eq E end.
