(* ===== verification/Bytes.v ===== *)
(** * Byte arrays and little-endian loads

    Models [load_3] and [load_4] of crypto-ops.c. An array of [unsigned char] is
    a list of integers; [s + k] is [skipn k s], and reading past the end of the
    array is undefined. [le_val] is the integer that an array denotes, and the
    loads are windows of its bits. *)

From Stdlib Require Import ZArith Lia List Bool.
From S2P Require Import Prelude.
Import ListNotations.

#[local] Open Scope Z_scope.

(** ** Arrays of bytes *)

Definition is_byte (b : Z) : Prop := 0 <= b < 256.

Definition bytes (s : list Z) : Prop := Forall is_byte s.

(** [s[0] + 256*s[1] + ... ] *)
Fixpoint le_val (s : list Z) : Z :=
  match s with
  | [] => 0
  | b :: s => b + 256 * le_val s
  end.

(** [load_3], [load_4]: three or four bytes at a pointer, in [uint64_t]. *)
Definition load_3 (inp : list Z) : option Z :=
  match inp with
  | b0 :: b1 :: b2 :: _ =>
      let result := u64 b0 in
      let result := Z.lor result (u64 (Z.shiftl (u64 b1) 8)) in
      let result := Z.lor result (u64 (Z.shiftl (u64 b2) 16)) in
      Some result
  | _ => None
  end.

Definition load_4 (inp : list Z) : option Z :=
  match inp with
  | b0 :: b1 :: b2 :: b3 :: _ =>
      let result := u64 b0 in
      let result := Z.lor result (u64 (Z.shiftl (u64 b1) 8)) in
      let result := Z.lor result (u64 (Z.shiftl (u64 b2) 16)) in
      let result := Z.lor result (u64 (Z.shiftl (u64 b3) 24)) in
      Some result
  | _ => None
  end.

(** [s[0] | s[1] | ... | s[n-1]]. *)
Fixpoint or_bytes (n : nat) (s : list Z) : option Z :=
  match n, s with
  | O, _ => Some 0
  | S n, b :: s => let! x := or_bytes n s in Some (Z.lor b x)
  | S _, [] => None
  end.

(** The [n] bytes of an integer in memory. *)
Fixpoint le_bytes (n : nat) (x : Z) : list Z :=
  match n with
  | O => []
  | S n => x mod 256 :: le_bytes n (x / 256)
  end.

(** ** Lemmas on [le_val] *)

Lemma le_val_bound s : bytes s -> 0 <= le_val s < 256 ^ Z.of_nat (length s).
Proof.
  induction 1 as [|b s Hb Hs IH]; cbn [le_val length]; [lia|].
  rewrite Nat2Z.inj_succ, Z.pow_succ_r by lia. unfold is_byte in Hb. lia.
Qed.

Lemma bytes_skipn k s : bytes s -> bytes (skipn k s).
Proof.
  intros H. rewrite <- (firstn_skipn k s) in H. now apply Forall_app in H.
Qed.

Lemma le_val_skipn k s :
  bytes s -> le_val s / 256 ^ Z.of_nat k = le_val (skipn k s).
Proof.
  intros H. revert s H. induction k as [|k IH]; intros s H.
  - cbn. apply Z.div_1_r.
  - destruct H as [|b s Hb Hs]; [cbn [skipn le_val]; apply Z.div_0_l; lia|].
    cbn [skipn le_val]. rewrite <- IH by exact Hs.
    rewrite Nat2Z.inj_succ, Z.pow_succ_r, <- Z.div_div by lia. f_equal.
    unfold is_byte in Hb. rewrite Z.mul_comm, Z.div_add by lia. rewrite Z.div_small; lia.
Qed.

Lemma le_val_app s t : le_val (s ++ t) = le_val s + 256 ^ Z.of_nat (length s) * le_val t.
Proof.
  induction s as [|b s IH]; cbn [app le_val length]; [rewrite Z.pow_0_r; lia|].
  rewrite IH, Nat2Z.inj_succ, Z.pow_succ_r by lia. ring.
Qed.

(** An array is determined by its length and its value. *)
Lemma le_val_inj s t : bytes s -> bytes t -> length s = length t -> le_val s = le_val t -> s = t.
Proof.
  intros Hs. revert t. induction Hs as [|b s Hb Hs IH]; intros t Ht Hl E.
  - now destruct t.
  - destruct Ht as [|c t Hc Ht]; [discriminate|]. cbn [le_val length] in *.
    unfold is_byte in *. assert (b = c) as <- by lia. f_equal. apply IH; trivial; lia.
Qed.

Lemma bytes_app s t : bytes s -> bytes t -> bytes (s ++ t).
Proof. intros. now apply Forall_app. Qed.

Lemma bytes_firstn k s : bytes s -> bytes (firstn k s).
Proof. intros H. rewrite <- (firstn_skipn k s) in H. now apply Forall_app in H. Qed.

Lemma le_val_firstn k s :
  bytes s -> (k <= length s)%nat -> le_val (firstn k s) = le_val s mod 256 ^ Z.of_nat k.
Proof.
  intros Hs Hk. pose proof (le_val_bound (firstn k s) (bytes_firstn k s Hs)) as Hb.
  rewrite length_firstn, Nat.min_l in Hb by exact Hk.
  apply (Z.mod_unique_pos _ _ (le_val (skipn k s))); [lia|].
  rewrite <- (firstn_skipn k s) at 1. rewrite le_val_app, length_firstn, Nat.min_l by exact Hk. lia.
Qed.

Lemma length_le_bytes n x : length (le_bytes n x) = n.
Proof. revert x; induction n; intros; cbn [le_bytes length]; [|f_equal]; auto. Qed.

Lemma bytes_le_bytes n x : bytes (le_bytes n x).
Proof.
  revert x; induction n; intros; cbn [le_bytes]; constructor; [|apply IHn].
  apply Z.mod_pos_bound. lia.
Qed.

Lemma le_val_le_bytes n x : le_val (le_bytes n x) = x mod 256 ^ Z.of_nat n.
Proof.
  revert x; induction n as [|n IH]; intros; cbn [le_bytes le_val]; [now rewrite Z.mod_1_r|].
  rewrite IH, Nat2Z.inj_succ, Z.pow_succ_r by lia.
  pose proof (Z.pow_pos_nonneg 256 (Z.of_nat n) ltac:(lia) ltac:(lia)).
  rewrite Z.rem_mul_r by lia. ring.
Qed.

Lemma le_bytes_le_val s : bytes s -> le_bytes (length s) (le_val s) = s.
Proof.
  intros Hs. apply le_val_inj; [apply bytes_le_bytes | exact Hs | apply length_le_bytes|].
  rewrite le_val_le_bytes. apply Z.mod_small, le_val_bound, Hs.
Qed.

Lemma nth_le_bytes n x k : (k < n)%nat -> nth k (le_bytes n x) 0 = (x / 256 ^ Z.of_nat k) mod 256.
Proof.
  revert x k. induction n as [|n IH]; intros x [|k] Hk; try lia; cbn [le_bytes nth].
  - now rewrite Z.div_1_r.
  - rewrite IH by lia. rewrite Z.div_div by lia. rewrite <- Z.pow_succ_r by lia. now rewrite Nat2Z.inj_succ.
Qed.

Lemma testbit_mod_pow2 a n i :
  0 <= n -> Z.testbit (a mod 2 ^ n) i = (i <? n) && Z.testbit a i.
Proof.
  intros Hn. destruct (Z.ltb_spec i n).
  - now apply Z.mod_pow2_bits_low.
  - now apply Z.mod_pow2_bits_high; lia.
Qed.

Lemma testbit_mod_low a n i : 0 <= n -> i < n -> Z.testbit (a mod 2 ^ n) i = Z.testbit a i.
Proof. intros Hn Hi. now rewrite testbit_mod_pow2, (proj2 (Z.ltb_lt _ _) Hi). Qed.

Lemma testbit_div_pow2 a n i : 0 <= n -> 0 <= i -> Z.testbit (a / 2 ^ n) i = Z.testbit a (n + i).
Proof. intros. rewrite <- Z.shiftr_div_pow2, Z.shiftr_spec by lia. f_equal. lia. Qed.

(** Disjoint bits: [or] is addition. *)
Lemma lor_shiftl_add a b k : 0 <= k -> 0 <= a < 2 ^ k -> Z.lor a (Z.shiftl b k) = a + 2 ^ k * b.
Proof.
  intros Hk Ha. pose proof (Z.add_lor_land a (Z.shiftl b k)) as E.
  assert (Z.land a (Z.shiftl b k) = 0) as Hz.
  { apply Z.bits_inj'. intros i Hi. rewrite Z.land_spec, Z.bits_0.
    destruct (Z.lt_ge_cases i k).
    - rewrite Z.shiftl_spec_low by lia. apply Bool.andb_false_r.
    - replace (Z.testbit a i) with false; [reflexivity|].
      rewrite <- (Z.mod_small a (2 ^ k) Ha). symmetry. apply Z.mod_pow2_bits_high. lia. }
  rewrite Hz in E. rewrite Z.shiftl_mul_pow2 in * by lia. lia.
Qed.

Lemma u64_small x : 0 <= x < 2 ^ 64 -> u64 x = x.
Proof. apply Z.mod_small. Qed.

Lemma load_3_spec k s :
  bytes s -> (k + 3 <= length s)%nat ->
  load_3 (skipn k s) = Some ((le_val s / 256 ^ Z.of_nat k) mod 2 ^ 24).
Proof.
  intros Hs Hl. rewrite le_val_skipn by exact Hs.
  assert (3 <= length (skipn k s))%nat as Hl' by (rewrite length_skipn; lia).
  pose proof (bytes_skipn k s Hs) as Hb. clear Hl Hs.
  destruct Hb as [|b0 t H0 [|b1 t' H1 [|b2 t2 H2 _]]]; cbn [length] in Hl'; try lia.
  unfold is_byte in *. cbn [load_3 le_val].
  rewrite (u64_small b0), (u64_small b1), (u64_small b2) by lia.
  rewrite !u64_small by (rewrite Z.shiftl_mul_pow2; lia).
  rewrite (lor_shiftl_add b0), (lor_shiftl_add (b0 + _)) by lia. f_equal.
  apply (Z.mod_unique_pos _ _ (le_val t2)); lia.
Qed.

Lemma load_4_spec k s :
  bytes s -> (k + 4 <= length s)%nat ->
  load_4 (skipn k s) = Some ((le_val s / 256 ^ Z.of_nat k) mod 2 ^ 32).
Proof.
  intros Hs Hl. rewrite le_val_skipn by exact Hs.
  assert (4 <= length (skipn k s))%nat as Hl' by (rewrite length_skipn; lia).
  pose proof (bytes_skipn k s Hs) as Hb. clear Hl Hs.
  destruct Hb as [|b0 t H0 [|b1 t' H1 [|b2 t2 H2 [|b3 t3 H3 _]]]]; cbn [length] in Hl'; try lia.
  unfold is_byte in *. cbn [load_4 le_val].
  rewrite (u64_small b0), (u64_small b1), (u64_small b2), (u64_small b3) by lia.
  rewrite !u64_small by (rewrite Z.shiftl_mul_pow2; lia).
  rewrite (lor_shiftl_add b0), (lor_shiftl_add (b0 + _)), (lor_shiftl_add (_ + 2 ^ 16 * _)) by lia. f_equal.
  apply (Z.mod_unique_pos _ _ (le_val t3)); lia.
Qed.

(** A bit field of a bit field. *)
Lemma slice_slice x i j n k :
  0 <= i -> 0 <= j -> 0 <= k -> j + k <= n ->
  ((x / 2 ^ i) mod 2 ^ n / 2 ^ j) mod 2 ^ k = (x / 2 ^ (i + j)) mod 2 ^ k.
Proof.
  intros. rewrite <- !Z.shiftr_div_pow2, <- !Z.land_ones by lia.
  rewrite Z.shiftr_land, Z.shiftr_shiftr, <- Z.land_assoc by lia. f_equal.
  apply Z.bits_inj'. intros b Hb. rewrite Z.land_spec, Z.shiftr_spec by exact Hb.
  destruct (Z.lt_ge_cases b k).
  - rewrite !Z.ones_spec_low by lia. reflexivity.
  - rewrite (Z.ones_spec_high k) by lia. apply Bool.andb_false_r.
Qed.

(** Bitwise operations keep the width. *)
Lemma lor_range a b k : 0 <= k -> 0 <= a < 2 ^ k -> 0 <= b < 2 ^ k -> 0 <= Z.lor a b < 2 ^ k.
Proof.
  intros Hk Ha Hb. replace (Z.lor a b) with ((Z.lor a b) mod 2 ^ k); [apply Z.mod_pos_bound; lia|].
  now rewrite <- Z.land_ones, Z.land_lor_distr_l, !Z.land_ones, !Z.mod_small by lia.
Qed.

(** ** Bit fields *)

Lemma div_split v k n : 0 <= k -> 0 <= n -> v / 2 ^ k = (v / 2 ^ k) mod 2 ^ n + 2 ^ n * (v / 2 ^ (k + n)).
Proof.
  intros. rewrite Z.pow_add_r, <- Z.div_div by lia.
  rewrite (Z.div_mod (v / 2 ^ k) (2 ^ n)) at 1 by lia. lia.
Qed.

Lemma div_pow_range v k n : 0 <= k -> 0 <= n -> 0 <= v < 2 ^ (k + n) -> 0 <= v / 2 ^ k < 2 ^ n.
Proof.
  intros. rewrite Z.pow_add_r in * by lia.
  pose proof (Z.pow_pos_nonneg 2 k ltac:(lia) ltac:(lia)).
  split; [apply Z.div_pos; lia | apply Z.div_lt_upper_bound; lia].
Qed.

(** Evaluates the bit positions [8 * Z.of_nat k + j]. *)
Ltac norm_index := cbn [Z.of_nat Pos.of_succ_nat Z.mul Z.add Pos.succ Pos.mul Pos.add].

(** Names the [n]-bit field of [v] at bit [k] and the quotient above it. *)
Ltac split_limb v k n :=
  let E := fresh "E" in let m := fresh "m" in let R := fresh "R" in
  pose proof (div_split v k n ltac:(lia) ltac:(lia)) as E;
  pose proof (Z.mod_pos_bound (v / 2 ^ k) (2 ^ n) ltac:(lia)) as R;
  let k' := eval vm_compute in (k + n) in
  change (k + n) with k' in E;
  generalize dependent ((v / 2 ^ k) mod 2 ^ n); intros m; intros.

(** Loads of 32 bits, as [int64_t]. *)
Lemma to_i64_small x : 0 <= x < 2 ^ 63 -> to_i64 x = x.
Proof. intros. apply to_i64_id. cbn [imax]. lia. Qed.

Lemma to_i64_mod x k : 0 <= k <= 62 -> to_i64 (x mod 2 ^ k) = x mod 2 ^ k.
Proof.
  intros. apply to_i64_small. pose proof (Z.mod_pos_bound x (2 ^ k) ltac:(lia)).
  pose proof (Z.pow_le_mono_r 2 k 62 ltac:(lia) ltac:(lia)). lia.
Qed.

Lemma word_4 v k :
  to_i64 ((v / 256 ^ Z.of_nat k) mod 2 ^ 32) = (v / 2 ^ (8 * Z.of_nat k)) mod 2 ^ 32.
Proof. change 256 with (2 ^ 8). now rewrite to_i64_mod, <- Z.pow_mul_r by lia. Qed.

(** ** Stores

    The stores of crypto-ops.c assign an [int32_t] or [int64_t] expression to an
    [unsigned char]: the low eight bits. *)

Lemma u8_lor a b : u8 (Z.lor a b) = Z.lor (u8 a) (u8 b).
Proof.
  unfold u8. rewrite <- !Z.land_ones by lia. apply Z.land_lor_distr_l.
Qed.

Lemma u8_to_signed t x : u8 (to_signed t x) = u8 x.
Proof.
  destruct t; unfold to_signed, to_i32, to_i64, u8.
  - replace x with ((x + 2 ^ 31) - 2 ^ 31) at 2 by lia. generalize (x + 2 ^ 31). intros y.
    rewrite (Z.div_mod y (2 ^ 32)) at 2 by lia.
    rewrite <- (Z_mod_plus_full (y mod 2 ^ 32 - 2 ^ 31) (2 ^ 24 * (y / 2 ^ 32))). f_equal. lia.
  - replace x with ((x + 2 ^ 63) - 2 ^ 63) at 2 by lia. generalize (x + 2 ^ 63). intros y.
    rewrite (Z.div_mod y (2 ^ 64)) at 2 by lia.
    rewrite <- (Z_mod_plus_full (y mod 2 ^ 64 - 2 ^ 63) (2 ^ 56 * (y / 2 ^ 64))). f_equal. lia.
Qed.

(** A byte across two limbs: the high bits of [a], then the low bits of [b]. *)
Lemma store_or t a b k n :
  0 <= n <= 8 -> 0 <= k -> 0 <= a < 2 ^ (k + n) ->
  u8 (Z.lor (Z.shiftr a k) (to_signed t (Z.shiftl b n))) = a / 2 ^ k + 2 ^ n * ((b / 2 ^ 0) mod 2 ^ (8 - n)).
Proof.
  intros Hn Hk Ha. rewrite Z.div_1_r. pose proof (div_pow_range a k n Hk ltac:(lia) Ha).
  assert (0 < 2 ^ n <= 2 ^ 8) by (split; [|apply Z.pow_le_mono_r]; lia).
  rewrite u8_lor, u8_to_signed, <- u8_lor.
  rewrite Z.shiftr_div_pow2, lor_shiftl_add by lia. unfold u8.
  assert (2 ^ 8 = 2 ^ n * 2 ^ (8 - n)) as -> by (rewrite <- Z.pow_add_r; f_equal; lia).
  assert (0 < 2 ^ (8 - n)) by lia.
  pose proof (Z.mod_pos_bound b (2 ^ (8 - n)) ltac:(lia)).
  symmetry. apply (Z.mod_unique_pos _ _ (b / 2 ^ (8 - n))); [nia|].
  rewrite (Z.div_mod b (2 ^ (8 - n))) at 1 by lia. ring.
Qed.

Lemma store_or32 a b k n :
  0 <= n <= 8 -> 0 <= k -> 0 <= a < 2 ^ (k + n) ->
  u8 (Z.lor (Z.shiftr a k) (to_i32 (Z.shiftl b n))) = a / 2 ^ k + 2 ^ n * ((b / 2 ^ 0) mod 2 ^ (8 - n)).
Proof. exact (store_or I32 a b k n). Qed.

Lemma store_or64 a b k n :
  0 <= n <= 8 -> 0 <= k -> 0 <= a < 2 ^ (k + n) ->
  u8 (Z.lor (Z.shiftr a k) (to_i64 (Z.shiftl b n))) = a / 2 ^ k + 2 ^ n * ((b / 2 ^ 0) mod 2 ^ (8 - n)).
Proof. exact (store_or I64 a b k n). Qed.

Lemma store_mid a k : 0 <= k -> u8 (Z.shiftr a k) = (a / 2 ^ k) mod 2 ^ 8.
Proof. intros. now rewrite Z.shiftr_div_pow2. Qed.

Lemma store_top a k : 0 <= k -> 0 <= a < 2 ^ (k + 8) -> u8 (Z.shiftr a k) = a / 2 ^ k.
Proof.
  intros Hk Ha. rewrite store_mid by exact Hk. apply Z.mod_small.
  now apply div_pow_range.
Qed.

Lemma is_byte_u8 x : is_byte (u8 x).
Proof. unfold is_byte, u8. apply Z.mod_pos_bound. lia. Qed.

(** Splits limb [s] where the bytes do: [c] bits, then one or two bytes, and
    rewrites it as the sum of its fields. *)
Ltac limb_fields1 s c :=
  split_limb s 0 c; split_limb s c 8;
  repeat match goal with E : s / _ = _ |- _ => rewrite E; clear E end.

Ltac limb_fields2 s c :=
  let c' := eval vm_compute in (c + 8) in
  split_limb s 0 c; split_limb s c 8; split_limb s c' 8;
  repeat match goal with E : s / _ = _ |- _ => rewrite !E; clear E end.


(** ** The test for a zero array *)

Lemma or_bytes_spec n s :
  bytes s -> length s = n ->
  returns (or_bytes n s) (fun x => is_byte x /\ (x = 0 <-> le_val s = 0)).
Proof.
  intros Hs. revert n. induction Hs as [|b s Hb Hs IH]; intros n <-; cbn [or_bytes le_val length]; [cbn; unfold is_byte; lia|].
  eapply returns_bind; [now apply IH | cbn beta; intros x [Hx E]]. cbn [returns].
  pose proof (le_val_bound s Hs). unfold is_byte in *. split.
  - now apply (lor_range _ _ 8).
  - rewrite Z.lor_eq_0_iff, E. lia.
Qed.


(** [((x - 1) >> 8) + 1] is 0 on the byte 0 and 1 on the others. *)
Lemma nonzero_byte x v :
  is_byte x -> (x = 0 <-> v = 0) ->
  returns (((x - 1) >> 8) + 1)%i32 (fun r => r = if v =? 0 then 0 else 1).
Proof.
  unfold is_byte. intros Hx E.
  unfold iop, ishr. cbn [bind val]. rewrite chk_ok by (cbn [imax]; lia). cbn [bind].
  rewrite Z.shiftr_div_pow2 by lia. destruct (Z.eqb_spec v 0) as [e|n].
  - apply E in e. subst x. reflexivity.
  - rewrite Z.div_small by lia. reflexivity.
Qed.
