(* ===== verification/Fe.v ===== *)
(** * Field elements: representation, constants, linear operations

    Models the type [fe] of crypto-ops.h and the functions [fe_0], [fe_1],
    [fe_add], [fe_sub], [fe_neg], [fe_copy] and [fe_cmov] of crypto-ops.c. A
    field element is ten signed 32-bit limbs in radix 2^25.5; [fe_val] is the
    integer it denotes and [fe_F] its class modulo 2^255 - 19. *)

From Stdlib Require Import ZArith Lia Bool Btauto Zmod.
From S2P Require Import Prelude.

#[local] Open Scope Z_scope.

(** ** The prime field *)

Definition p25519 : Z := 2 ^ 255 - 19.

Abbreviation F := (Zmod p25519).

(** ** Representation ([typedef int32_t fe[10]]) *)

Record fe := Fe {
  fe0 : Z; fe1 : Z; fe2 : Z; fe3 : Z; fe4 : Z;
  fe5 : Z; fe6 : Z; fe7 : Z; fe8 : Z; fe9 : Z
}.

Definition fe_val (f : fe) : Z :=
  let '(Fe f0 f1 f2 f3 f4 f5 f6 f7 f8 f9) := f in
  f0 + 2 ^ 26 * f1 + 2 ^ 51 * f2 + 2 ^ 77 * f3 + 2 ^ 102 * f4
  + 2 ^ 128 * f5 + 2 ^ 153 * f6 + 2 ^ 179 * f7 + 2 ^ 204 * f8 + 2 ^ 230 * f9.

Definition fe_F (f : fe) : F := Zmod.of_Z p25519 (fe_val f).

(** [fe_le E O f]: even limbs are at most [E] in absolute value, odd ones [O]. *)
Definition fe_le (E O : Z) (f : fe) : Prop :=
  let '(Fe f0 f1 f2 f3 f4 f5 f6 f7 f8 f9) := f in
  (Z.abs f0 <= E /\ Z.abs f2 <= E /\ Z.abs f4 <= E /\ Z.abs f6 <= E /\ Z.abs f8 <= E) /\
  (Z.abs f1 <= O /\ Z.abs f3 <= O /\ Z.abs f5 <= O /\ Z.abs f7 <= O /\ Z.abs f9 <= O).

(** The bounds that the comments of crypto-ops.c name: 1.01*2^25, 1.1*2^25,
    1.1*2^26 and 1.65*2^26 for even limbs, half of that for odd limbs. *)
Definition fe_101 : fe -> Prop := fe_le 33889976 16944988.
Definition fe_110 : fe -> Prop := fe_le 36909875 18454937.
Definition fe_220 : fe -> Prop := fe_le 73819750 36909875.
Definition fe_165 : fe -> Prop := fe_le 110729625 55364812.

(** ** Operations *)

Definition fe_0 : fe := Fe 0 0 0 0 0 0 0 0 0 0.

Definition fe_1 : fe := Fe 1 0 0 0 0 0 0 0 0 0.

Definition fe_copy (f : fe) : fe :=
  let '(Fe f0 f1 f2 f3 f4 f5 f6 f7 f8 f9) := f in
  Fe f0 f1 f2 f3 f4 f5 f6 f7 f8 f9.

(** [fe_add]: limb-wise sum in [int32_t]. *)
Definition fe_add (f g : fe) : option fe :=
  let '(Fe f0 f1 f2 f3 f4 f5 f6 f7 f8 f9) := f in
  let '(Fe g0 g1 g2 g3 g4 g5 g6 g7 g8 g9) := g in
  let! h0 := (f0 + g0)%i32 in
  let! h1 := (f1 + g1)%i32 in
  let! h2 := (f2 + g2)%i32 in
  let! h3 := (f3 + g3)%i32 in
  let! h4 := (f4 + g4)%i32 in
  let! h5 := (f5 + g5)%i32 in
  let! h6 := (f6 + g6)%i32 in
  let! h7 := (f7 + g7)%i32 in
  let! h8 := (f8 + g8)%i32 in
  let! h9 := (f9 + g9)%i32 in
  Some (Fe h0 h1 h2 h3 h4 h5 h6 h7 h8 h9).

(** [fe_sub]: limb-wise difference in [int32_t]. *)
Definition fe_sub (f g : fe) : option fe :=
  let '(Fe f0 f1 f2 f3 f4 f5 f6 f7 f8 f9) := f in
  let '(Fe g0 g1 g2 g3 g4 g5 g6 g7 g8 g9) := g in
  let! h0 := (f0 - g0)%i32 in
  let! h1 := (f1 - g1)%i32 in
  let! h2 := (f2 - g2)%i32 in
  let! h3 := (f3 - g3)%i32 in
  let! h4 := (f4 - g4)%i32 in
  let! h5 := (f5 - g5)%i32 in
  let! h6 := (f6 - g6)%i32 in
  let! h7 := (f7 - g7)%i32 in
  let! h8 := (f8 - g8)%i32 in
  let! h9 := (f9 - g9)%i32 in
  Some (Fe h0 h1 h2 h3 h4 h5 h6 h7 h8 h9).

(** [fe_neg]: limb-wise negation in [int32_t]. *)
Definition fe_neg (f : fe) : option fe :=
  let '(Fe f0 f1 f2 f3 f4 f5 f6 f7 f8 f9) := f in
  let! h0 := (- f0)%i32 in
  let! h1 := (- f1)%i32 in
  let! h2 := (- f2)%i32 in
  let! h3 := (- f3)%i32 in
  let! h4 := (- f4)%i32 in
  let! h5 := (- f5)%i32 in
  let! h6 := (- f6)%i32 in
  let! h7 := (- f7)%i32 in
  let! h8 := (- f8)%i32 in
  let! h9 := (- f9)%i32 in
  Some (Fe h0 h1 h2 h3 h4 h5 h6 h7 h8 h9).

(** [fe_cmov]: [f] becomes [g] when [b] is 1 and is kept when [b] is 0; any other
    [b] fails the assertion. [b] is an [unsigned int]; [x0 &= b] converts [x0] to
    unsigned and the result back to [int32_t]. *)
Definition fe_cmov (f g : fe) (b : Z) : option fe :=
  let '(Fe f0 f1 f2 f3 f4 f5 f6 f7 f8 f9) := f in
  let '(Fe g0 g1 g2 g3 g4 g5 g6 g7 g8 g9) := g in
  let x0 := Z.lxor f0 g0 in
  let x1 := Z.lxor f1 g1 in
  let x2 := Z.lxor f2 g2 in
  let x3 := Z.lxor f3 g3 in
  let x4 := Z.lxor f4 g4 in
  let x5 := Z.lxor f5 g5 in
  let x6 := Z.lxor f6 g6 in
  let x7 := Z.lxor f7 g7 in
  let x8 := Z.lxor f8 g8 in
  let x9 := Z.lxor f9 g9 in
  let! _ := cassert (Z.lor (Z.land (u32 (b - 1)) (u32 (Z.lnot b)))
                           (Z.land (u32 (b - 2)) (u32 (Z.lnot (b - 1)))) =? u32 (-1)) in
  let b := u32 (- b) in
  let x0 := to_i32 (Z.land (u32 x0) b) in
  let x1 := to_i32 (Z.land (u32 x1) b) in
  let x2 := to_i32 (Z.land (u32 x2) b) in
  let x3 := to_i32 (Z.land (u32 x3) b) in
  let x4 := to_i32 (Z.land (u32 x4) b) in
  let x5 := to_i32 (Z.land (u32 x5) b) in
  let x6 := to_i32 (Z.land (u32 x6) b) in
  let x7 := to_i32 (Z.land (u32 x7) b) in
  let x8 := to_i32 (Z.land (u32 x8) b) in
  let x9 := to_i32 (Z.land (u32 x9) b) in
  Some (Fe (Z.lxor f0 x0) (Z.lxor f1 x1) (Z.lxor f2 x2) (Z.lxor f3 x3) (Z.lxor f4 x4)
           (Z.lxor f5 x5) (Z.lxor f6 x6) (Z.lxor f7 x7) (Z.lxor f8 x8) (Z.lxor f9 x9)).

(** ** Lemmas *)

Ltac fe_destruct :=
  repeat match goal with
  | f : fe |- _ => destruct f
  | H : fe_le _ _ (Fe _ _ _ _ _ _ _ _ _ _) |- _ => destruct H as [(?&?&?&?&?) (?&?&?&?&?)]
  end.

Lemma fe_le_weaken E O E' O' f :
  fe_le E O f -> (E <=? E') && (O <=? O') = true -> fe_le E' O' f.
Proof.
  intros H [HE HO]%andb_prop. apply Z.leb_le in HE, HO.
  fe_destruct. cbn. repeat split; eapply Z.le_trans; eassumption.
Qed.

Lemma fe_copy_id f : fe_copy f = f.
Proof. now destruct f. Qed.

Lemma fe_F_0 : fe_F fe_0 = Zmod.zero.
Proof. reflexivity. Qed.

Lemma fe_F_1 : fe_F fe_1 = Zmod.one.
Proof. reflexivity. Qed.

(** Every limb is a value of [int32_t]. *)
Definition fe_i32 (f : fe) : Prop :=
  let '(Fe f0 f1 f2 f3 f4 f5 f6 f7 f8 f9) := f in
  let ok x := - 2 ^ 31 <= x < 2 ^ 31 in
  ok f0 /\ ok f1 /\ ok f2 /\ ok f3 /\ ok f4 /\ ok f5 /\ ok f6 /\ ok f7 /\ ok f8 /\ ok f9.

Lemma abs_i32 x B : Z.abs x <= B -> B <= imax I32 -> - 2 ^ 31 <= x < 2 ^ 31.
Proof. cbn [imax]. lia. Qed.

Lemma fe_le_i32 E O f : fe_le E O f -> E <= imax I32 -> O <= imax I32 -> fe_i32 f.
Proof.
  intros Hf HE HO. fe_destruct. cbn [fe_i32]. repeat (split; [eapply abs_i32; eassumption|]).
  eapply abs_i32; eassumption.
Qed.

(** A sum of bounds that fits [int32_t] is all that [fe_add] and [fe_sub] need. *)
Lemma fe_add_val E1 O1 E2 O2 f g :
  fe_le E1 O1 f -> fe_le E2 O2 g -> (E1 + E2 <=? imax I32) && (O1 + O2 <=? imax I32) = true ->
  returns (fe_add f g) (fun h => fe_val h = fe_val f + fe_val g /\ fe_le (E1 + E2) (O1 + O2) h).
Proof.
  intros Hf Hg [HE HO]%andb_prop. fe_destruct. unfold fe_add. cexec.
  split; [subst; cbn [fe_val]; ring | cbn; tauto].
Qed.

Lemma fe_sub_val E1 O1 E2 O2 f g :
  fe_le E1 O1 f -> fe_le E2 O2 g -> (E1 + E2 <=? imax I32) && (O1 + O2 <=? imax I32) = true ->
  returns (fe_sub f g) (fun h => fe_val h = fe_val f - fe_val g /\ fe_le (E1 + E2) (O1 + O2) h).
Proof.
  intros Hf Hg [HE HO]%andb_prop. fe_destruct. unfold fe_sub. cexec.
  split; [subst; cbn [fe_val]; ring | cbn; tauto].
Qed.

Lemma fe_neg_val E O f :
  fe_le E O f -> (E <=? imax I32) && (O <=? imax I32) = true ->
  returns (fe_neg f) (fun h => fe_val h = - fe_val f /\ fe_le E O h).
Proof.
  intros Hf [HE HO]%andb_prop. fe_destruct. unfold fe_neg. cexec.
  split; [subst; cbn [fe_val]; ring | cbn; tauto].
Qed.

(** The same in the field. *)
Lemma fe_add_spec E1 O1 E2 O2 f g :
  fe_le E1 O1 f -> fe_le E2 O2 g -> (E1 + E2 <=? imax I32) && (O1 + O2 <=? imax I32) = true ->
  returns (fe_add f g) (fun h =>
    fe_F h = Zmod.add (fe_F f) (fe_F g) /\ fe_le (E1 + E2) (O1 + O2) h).
Proof.
  intros. eapply returns_weaken; [eapply fe_add_val; eassumption|].
  intros h [Hv Hb]. split; [|exact Hb]. unfold fe_F. now rewrite Hv, Zmod.of_Z_add.
Qed.

Lemma fe_sub_spec E1 O1 E2 O2 f g :
  fe_le E1 O1 f -> fe_le E2 O2 g -> (E1 + E2 <=? imax I32) && (O1 + O2 <=? imax I32) = true ->
  returns (fe_sub f g) (fun h =>
    fe_F h = Zmod.sub (fe_F f) (fe_F g) /\ fe_le (E1 + E2) (O1 + O2) h).
Proof.
  intros. eapply returns_weaken; [eapply fe_sub_val; eassumption|].
  intros h [Hv Hb]. split; [|exact Hb]. unfold fe_F. now rewrite Hv, Zmod.of_Z_sub.
Qed.

Lemma fe_neg_spec E O f :
  fe_le E O f -> (E <=? imax I32) && (O <=? imax I32) = true ->
  returns (fe_neg f) (fun h => fe_F h = Zmod.opp (fe_F f) /\ fe_le E O h).
Proof.
  intros. eapply returns_weaken; [eapply fe_neg_val; eassumption|].
  intros h [Hv Hb]. split; [|exact Hb]. unfold fe_F. now rewrite Hv, Zmod.of_Z_opp.
Qed.

(** One limb of [fe_cmov] with [b] = 1. *)
Lemma cmov_limb x y :
  - 2 ^ 31 <= x < 2 ^ 31 -> - 2 ^ 31 <= y < 2 ^ 31 ->
  Z.lxor x (to_i32 (Z.land (u32 (Z.lxor x y)) (u32 (- (1))))) = y.
Proof.
  intros Hx Hy. change (u32 (- (1))) with (Z.ones 32).
  rewrite Z.land_ones by lia. unfold u32. rewrite Zmod_mod. fold (u32 (Z.lxor x y)).
  rewrite to_i32_u32, to_i32_small by (apply lxor_signed_range; lia).
  now rewrite <- Z.lxor_assoc, Z.lxor_nilpotent, Z.lxor_0_l.
Qed.

Lemma fe_cmov_1 f g : fe_i32 f -> fe_i32 g -> fe_cmov f g 1 = Some g.
Proof.
  intros Hf Hg. destruct f, g. cbn in Hf, Hg. unfold fe_cmov.
  change (cassert _) with (Some tt). cbn [bind].
  now rewrite !cmov_limb by tauto.
Qed.

Lemma fe_cmov_0 f g : fe_cmov f g 0 = Some f.
Proof.
  destruct f, g. unfold fe_cmov. change (cassert _) with (Some tt). cbn [bind].
  change (u32 (- 0)) with 0. now rewrite !Z.land_0_r, !Z.lxor_0_r.
Qed.

(** ** The assertion of [fe_cmov] *)

Lemma ldiff_pred_odd b : Z.odd b = true -> Z.ldiff (b - 1) b = 0.
Proof.
  intros Ho. apply Z.odd_spec in Ho as [k ->]. replace (2 * k + 1 - 1) with (2 * k) by lia.
  apply Z.bits_inj'. intros i Hi. rewrite Z.ldiff_spec, Z.bits_0.
  destruct (Z.eq_dec i 0) as [->|Hn]; [now rewrite Z.testbit_even_0|].
  replace i with (Z.succ (Z.pred i)) by lia.
  rewrite Z.testbit_even_succ, Z.testbit_odd_succ by lia. apply andb_negb_r.
Qed.

Lemma lor_ldiff_pred b :
  2 <= b < 2 ^ 32 -> exists i, 0 <= i < 32 /\
    Z.testbit (Z.lor (Z.ldiff (b - 1) b) (Z.ldiff (b - 2) (b - 1))) i = false.
Proof.
  intros Hb. destruct (Z.odd b) eqn:Ho.
  - exists (Z.log2 (b - 1)). split; [split; [apply Z.log2_nonneg | apply Z.log2_lt_pow2; lia]|].
    rewrite (ldiff_pred_odd b Ho), Z.lor_0_l, Z.ldiff_spec, Z.bit_log2 by lia. apply andb_false_r.
  - exists (Z.log2 b). split; [split; [apply Z.log2_nonneg | apply Z.log2_lt_pow2; lia]|].
    replace (b - 2) with (b - 1 - 1) by lia.
    rewrite (ldiff_pred_odd (b - 1)), Z.lor_0_r, Z.ldiff_spec, Z.bit_log2
      by (rewrite ?Z.odd_sub, ?Ho; lia || reflexivity).
    apply andb_false_r.
Qed.

Lemma u32_land_lnot x y : Z.land (u32 x) (u32 (Z.lnot y)) = u32 (Z.ldiff x y).
Proof.
  unfold u32. rewrite <- !Z.land_ones by lia. apply Z.bits_inj'. intros i Hi.
  rewrite !Z.land_spec, Z.lnot_spec, Z.ldiff_spec by exact Hi. btauto.
Qed.

Lemma fe_cmov_abort f g b : 2 <= b < 2 ^ 32 -> fe_cmov f g b = None.
Proof.
  intros Hb. destruct f, g. unfold fe_cmov. rewrite !u32_land_lnot.
  destruct (lor_ldiff_pred b Hb) as (i & Hi & Hbit).
  replace (Z.eqb _ _) with false; [reflexivity|].
  symmetry. apply Z.eqb_neq. intros E. apply (f_equal (fun x => Z.testbit x i)) in E.
  revert E. change (u32 (-1)) with (Z.ones 32). unfold u32.
  rewrite Z.ones_spec_low, Z.lor_spec, !Z.mod_pow2_bits_low, <- Z.lor_spec, Hbit by lia.
  discriminate.
Qed.

(** ** Theorems *)

(** On limbs within the documented bound 1.1*2^25 (1.1*2^24 for odd limbs),
    [fe_add], [fe_sub] and [fe_neg] overflow nowhere, compute the sum, the
    difference and the opposite in the field, and the result of the first two
    stays within 1.1*2^26, that of [fe_neg] within its own bound. *)
Theorem fe_linear_correct f g :
  fe_110 f -> fe_110 g ->
  (exists h, fe_add f g = Some h /\ fe_F h = Zmod.add (fe_F f) (fe_F g) /\ fe_220 h) /\
  (exists h, fe_sub f g = Some h /\ fe_F h = Zmod.sub (fe_F f) (fe_F g) /\ fe_220 h) /\
  (exists h, fe_neg f = Some h /\ fe_F h = Zmod.opp (fe_F f) /\ fe_110 h).
Proof.
  intros Hf Hg. rewrite <- !returns_some. unfold fe_110 in *.
  split; [|split]; (eapply returns_weaken;
    [first [eapply fe_add_spec | eapply fe_sub_spec | eapply fe_neg_spec];
     [eassumption.. | reflexivity] |]);
    intros h [Hv Hb]; (split; [exact Hv | eapply fe_le_weaken; [exact Hb | reflexivity]]).
Qed.

Definition fe_110_max : fe :=
  Fe 36909875 (-18454937) 36909875 (-18454937) 36909875 18454937 (-36909875) 18454937 0 1.

Lemma fe_linear_correct_witness :
  exists h, fe_add fe_110_max fe_110_max = Some h /\
            fe_F h = Zmod.add (fe_F fe_110_max) (fe_F fe_110_max) /\ fe_220 h.
Proof.
  refine (proj1 (fe_linear_correct fe_110_max fe_110_max _ _)); cbn; lia.
Defined.

(** [fe_cmov] keeps [f] when [b] is 0, replaces it by [g] when [b] is 1, and
    its assertion fails for every other [unsigned int]. *)
Theorem fe_cmov_correct f g b :
  fe_i32 f -> fe_i32 g -> 0 <= b < 2 ^ 32 ->
  fe_cmov f g b = if b =? 0 then Some f else if b =? 1 then Some g else None.
Proof.
  intros Hf Hg Hb.
  destruct (Z.eqb_spec b 0) as [->|H0]; [apply fe_cmov_0|].
  destruct (Z.eqb_spec b 1) as [->|H1]; [now apply fe_cmov_1|].
  apply fe_cmov_abort; lia.
Qed.

Lemma fe_cmov_correct_witness :
  fe_cmov fe_0 fe_110_max 1 = Some fe_110_max /\ fe_cmov fe_0 fe_110_max 6 = None.
Proof.
  split; refine (fe_cmov_correct fe_0 fe_110_max _ _ _ _); cbn; lia.
Defined.
