(* ===== verification/FeMul.v ===== *)
(** * Field multiplication and squaring

    Models [fe_mul], [fe_sq] and [fe_sq2] of crypto-ops.c with every 32-bit and
    64-bit intermediate result, and shows that on the limb bounds that the code
    documents nothing overflows, the result is the product modulo 2^255 - 19
    and its limbs obey the documented bound. *)

From Stdlib Require Import ZArith Lia Bool Zmod.
From S2P Require Import Prelude Fe.

#[local] Open Scope Z_scope.

(** ** Operations *)

(** [carry9 = (h9 + (1 << 24)) >> 25; h0 += carry9 * 19; h9 -= carry9 << 25;]:
    the carry out of the top limb wraps around with weight 2^255 = 19. *)
Definition carry_wrap (h9 h0 : Z) : option (Z * Z) :=
  let! carry9 := ((h9 + (1 << 24)) >> 25)%i64 in
  let! h0 := (h0 + carry9 * 19)%i64 in
  let! h9 := (h9 - (carry9 << 25))%i64 in
  Some (h9, h0).

(** The 100 limb products of [fe_mul] and the ten sums of them, up to the
    declaration of the carries. *)
Definition fe_mul_products (f g : fe) : option fe :=
  let '(Fe f0 f1 f2 f3 f4 f5 f6 f7 f8 f9) := f in
  let '(Fe g0 g1 g2 g3 g4 g5 g6 g7 g8 g9) := g in
  let! g1_19 := (19 * g1)%i32 in
  let! g2_19 := (19 * g2)%i32 in
  let! g3_19 := (19 * g3)%i32 in
  let! g4_19 := (19 * g4)%i32 in
  let! g5_19 := (19 * g5)%i32 in
  let! g6_19 := (19 * g6)%i32 in
  let! g7_19 := (19 * g7)%i32 in
  let! g8_19 := (19 * g8)%i32 in
  let! g9_19 := (19 * g9)%i32 in
  let! f1_2 := (2 * f1)%i32 in
  let! f3_2 := (2 * f3)%i32 in
  let! f5_2 := (2 * f5)%i32 in
  let! f7_2 := (2 * f7)%i32 in
  let! f9_2 := (2 * f9)%i32 in
  let! f0g0 := (f0 * g0)%i64 in
  let! f0g1 := (f0 * g1)%i64 in
  let! f0g2 := (f0 * g2)%i64 in
  let! f0g3 := (f0 * g3)%i64 in
  let! f0g4 := (f0 * g4)%i64 in
  let! f0g5 := (f0 * g5)%i64 in
  let! f0g6 := (f0 * g6)%i64 in
  let! f0g7 := (f0 * g7)%i64 in
  let! f0g8 := (f0 * g8)%i64 in
  let! f0g9 := (f0 * g9)%i64 in
  let! f1g0 := (f1 * g0)%i64 in
  let! f1g1_2 := (f1_2 * g1)%i64 in
  let! f1g2 := (f1 * g2)%i64 in
  let! f1g3_2 := (f1_2 * g3)%i64 in
  let! f1g4 := (f1 * g4)%i64 in
  let! f1g5_2 := (f1_2 * g5)%i64 in
  let! f1g6 := (f1 * g6)%i64 in
  let! f1g7_2 := (f1_2 * g7)%i64 in
  let! f1g8 := (f1 * g8)%i64 in
  let! f1g9_38 := (f1_2 * g9_19)%i64 in
  let! f2g0 := (f2 * g0)%i64 in
  let! f2g1 := (f2 * g1)%i64 in
  let! f2g2 := (f2 * g2)%i64 in
  let! f2g3 := (f2 * g3)%i64 in
  let! f2g4 := (f2 * g4)%i64 in
  let! f2g5 := (f2 * g5)%i64 in
  let! f2g6 := (f2 * g6)%i64 in
  let! f2g7 := (f2 * g7)%i64 in
  let! f2g8_19 := (f2 * g8_19)%i64 in
  let! f2g9_19 := (f2 * g9_19)%i64 in
  let! f3g0 := (f3 * g0)%i64 in
  let! f3g1_2 := (f3_2 * g1)%i64 in
  let! f3g2 := (f3 * g2)%i64 in
  let! f3g3_2 := (f3_2 * g3)%i64 in
  let! f3g4 := (f3 * g4)%i64 in
  let! f3g5_2 := (f3_2 * g5)%i64 in
  let! f3g6 := (f3 * g6)%i64 in
  let! f3g7_38 := (f3_2 * g7_19)%i64 in
  let! f3g8_19 := (f3 * g8_19)%i64 in
  let! f3g9_38 := (f3_2 * g9_19)%i64 in
  let! f4g0 := (f4 * g0)%i64 in
  let! f4g1 := (f4 * g1)%i64 in
  let! f4g2 := (f4 * g2)%i64 in
  let! f4g3 := (f4 * g3)%i64 in
  let! f4g4 := (f4 * g4)%i64 in
  let! f4g5 := (f4 * g5)%i64 in
  let! f4g6_19 := (f4 * g6_19)%i64 in
  let! f4g7_19 := (f4 * g7_19)%i64 in
  let! f4g8_19 := (f4 * g8_19)%i64 in
  let! f4g9_19 := (f4 * g9_19)%i64 in
  let! f5g0 := (f5 * g0)%i64 in
  let! f5g1_2 := (f5_2 * g1)%i64 in
  let! f5g2 := (f5 * g2)%i64 in
  let! f5g3_2 := (f5_2 * g3)%i64 in
  let! f5g4 := (f5 * g4)%i64 in
  let! f5g5_38 := (f5_2 * g5_19)%i64 in
  let! f5g6_19 := (f5 * g6_19)%i64 in
  let! f5g7_38 := (f5_2 * g7_19)%i64 in
  let! f5g8_19 := (f5 * g8_19)%i64 in
  let! f5g9_38 := (f5_2 * g9_19)%i64 in
  let! f6g0 := (f6 * g0)%i64 in
  let! f6g1 := (f6 * g1)%i64 in
  let! f6g2 := (f6 * g2)%i64 in
  let! f6g3 := (f6 * g3)%i64 in
  let! f6g4_19 := (f6 * g4_19)%i64 in
  let! f6g5_19 := (f6 * g5_19)%i64 in
  let! f6g6_19 := (f6 * g6_19)%i64 in
  let! f6g7_19 := (f6 * g7_19)%i64 in
  let! f6g8_19 := (f6 * g8_19)%i64 in
  let! f6g9_19 := (f6 * g9_19)%i64 in
  let! f7g0 := (f7 * g0)%i64 in
  let! f7g1_2 := (f7_2 * g1)%i64 in
  let! f7g2 := (f7 * g2)%i64 in
  let! f7g3_38 := (f7_2 * g3_19)%i64 in
  let! f7g4_19 := (f7 * g4_19)%i64 in
  let! f7g5_38 := (f7_2 * g5_19)%i64 in
  let! f7g6_19 := (f7 * g6_19)%i64 in
  let! f7g7_38 := (f7_2 * g7_19)%i64 in
  let! f7g8_19 := (f7 * g8_19)%i64 in
  let! f7g9_38 := (f7_2 * g9_19)%i64 in
  let! f8g0 := (f8 * g0)%i64 in
  let! f8g1 := (f8 * g1)%i64 in
  let! f8g2_19 := (f8 * g2_19)%i64 in
  let! f8g3_19 := (f8 * g3_19)%i64 in
  let! f8g4_19 := (f8 * g4_19)%i64 in
  let! f8g5_19 := (f8 * g5_19)%i64 in
  let! f8g6_19 := (f8 * g6_19)%i64 in
  let! f8g7_19 := (f8 * g7_19)%i64 in
  let! f8g8_19 := (f8 * g8_19)%i64 in
  let! f8g9_19 := (f8 * g9_19)%i64 in
  let! f9g0 := (f9 * g0)%i64 in
  let! f9g1_38 := (f9_2 * g1_19)%i64 in
  let! f9g2_19 := (f9 * g2_19)%i64 in
  let! f9g3_38 := (f9_2 * g3_19)%i64 in
  let! f9g4_19 := (f9 * g4_19)%i64 in
  let! f9g5_38 := (f9_2 * g5_19)%i64 in
  let! f9g6_19 := (f9 * g6_19)%i64 in
  let! f9g7_38 := (f9_2 * g7_19)%i64 in
  let! f9g8_19 := (f9 * g8_19)%i64 in
  let! f9g9_38 := (f9_2 * g9_19)%i64 in
  let! h0 := (f0g0 + f1g9_38 + f2g8_19 + f3g7_38 + f4g6_19 + f5g5_38 + f6g4_19
            + f7g3_38 + f8g2_19 + f9g1_38)%i64 in
  let! h1 := (f0g1 + f1g0 + f2g9_19 + f3g8_19 + f4g7_19 + f5g6_19 + f6g5_19
            + f7g4_19 + f8g3_19 + f9g2_19)%i64 in
  let! h2 := (f0g2 + f1g1_2 + f2g0 + f3g9_38 + f4g8_19 + f5g7_38 + f6g6_19
            + f7g5_38 + f8g4_19 + f9g3_38)%i64 in
  let! h3 := (f0g3 + f1g2 + f2g1 + f3g0 + f4g9_19 + f5g8_19 + f6g7_19 + f7g6_19
            + f8g5_19 + f9g4_19)%i64 in
  let! h4 := (f0g4 + f1g3_2 + f2g2 + f3g1_2 + f4g0 + f5g9_38 + f6g8_19
            + f7g7_38 + f8g6_19 + f9g5_38)%i64 in
  let! h5 := (f0g5 + f1g4 + f2g3 + f3g2 + f4g1 + f5g0 + f6g9_19 + f7g8_19
            + f8g7_19 + f9g6_19)%i64 in
  let! h6 := (f0g6 + f1g5_2 + f2g4 + f3g3_2 + f4g2 + f5g1_2 + f6g0 + f7g9_38
            + f8g8_19 + f9g7_38)%i64 in
  let! h7 := (f0g7 + f1g6 + f2g5 + f3g4 + f4g3 + f5g2 + f6g1 + f7g0 + f8g9_19 + f9g8_19)%i64 in
  let! h8 := (f0g8 + f1g7_2 + f2g6 + f3g5_2 + f4g4 + f5g3_2 + f6g2 + f7g1_2
            + f8g0 + f9g9_38)%i64 in
  let! h9 := (f0g9 + f1g8 + f2g7 + f3g6 + f4g5 + f5g4 + f6g3 + f7g2 + f8g1 + f9g0)%i64 in
  Some (Fe h0 h1 h2 h3 h4 h5 h6 h7 h8 h9).

(** The carry chain of [fe_mul] and the ten stores to [h]; [fe_sq] and [fe_sq2]
    end with the same statements. *)
Definition fe_mul_carries (h : fe) : option fe :=
  let '(Fe h0 h1 h2 h3 h4 h5 h6 h7 h8 h9) := h in
  let! '(h0, h1) := carry_round 26 h0 h1 in
  let! '(h4, h5) := carry_round 26 h4 h5 in
  let! '(h1, h2) := carry_round 25 h1 h2 in
  let! '(h5, h6) := carry_round 25 h5 h6 in
  let! '(h2, h3) := carry_round 26 h2 h3 in
  let! '(h6, h7) := carry_round 26 h6 h7 in
  let! '(h3, h4) := carry_round 25 h3 h4 in
  let! '(h7, h8) := carry_round 25 h7 h8 in
  let! '(h4, h5) := carry_round 26 h4 h5 in
  let! '(h8, h9) := carry_round 26 h8 h9 in
  let! '(h9, h0) := carry_wrap h9 h0 in
  let! '(h0, h1) := carry_round 26 h0 h1 in
  Some (Fe (to_i32 h0) (to_i32 h1) (to_i32 h2) (to_i32 h3) (to_i32 h4)
           (to_i32 h5) (to_i32 h6) (to_i32 h7) (to_i32 h8) (to_i32 h9)).

(** [fe_mul]. *)
Definition fe_mul (f g : fe) : option fe :=
  let! h := fe_mul_products f g in
  fe_mul_carries h.

(** The products and sums of [fe_sq]. *)
Definition fe_sq_products (f : fe) : option fe :=
  let '(Fe f0 f1 f2 f3 f4 f5 f6 f7 f8 f9) := f in
  let! f0_2 := (2 * f0)%i32 in
  let! f1_2 := (2 * f1)%i32 in
  let! f2_2 := (2 * f2)%i32 in
  let! f3_2 := (2 * f3)%i32 in
  let! f4_2 := (2 * f4)%i32 in
  let! f5_2 := (2 * f5)%i32 in
  let! f6_2 := (2 * f6)%i32 in
  let! f7_2 := (2 * f7)%i32 in
  let! f5_38 := (38 * f5)%i32 in
  let! f6_19 := (19 * f6)%i32 in
  let! f7_38 := (38 * f7)%i32 in
  let! f8_19 := (19 * f8)%i32 in
  let! f9_38 := (38 * f9)%i32 in
  let! f0f0 := (f0 * f0)%i64 in
  let! f0f1_2 := (f0_2 * f1)%i64 in
  let! f0f2_2 := (f0_2 * f2)%i64 in
  let! f0f3_2 := (f0_2 * f3)%i64 in
  let! f0f4_2 := (f0_2 * f4)%i64 in
  let! f0f5_2 := (f0_2 * f5)%i64 in
  let! f0f6_2 := (f0_2 * f6)%i64 in
  let! f0f7_2 := (f0_2 * f7)%i64 in
  let! f0f8_2 := (f0_2 * f8)%i64 in
  let! f0f9_2 := (f0_2 * f9)%i64 in
  let! f1f1_2 := (f1_2 * f1)%i64 in
  let! f1f2_2 := (f1_2 * f2)%i64 in
  let! f1f3_4 := (f1_2 * f3_2)%i64 in
  let! f1f4_2 := (f1_2 * f4)%i64 in
  let! f1f5_4 := (f1_2 * f5_2)%i64 in
  let! f1f6_2 := (f1_2 * f6)%i64 in
  let! f1f7_4 := (f1_2 * f7_2)%i64 in
  let! f1f8_2 := (f1_2 * f8)%i64 in
  let! f1f9_76 := (f1_2 * f9_38)%i64 in
  let! f2f2 := (f2 * f2)%i64 in
  let! f2f3_2 := (f2_2 * f3)%i64 in
  let! f2f4_2 := (f2_2 * f4)%i64 in
  let! f2f5_2 := (f2_2 * f5)%i64 in
  let! f2f6_2 := (f2_2 * f6)%i64 in
  let! f2f7_2 := (f2_2 * f7)%i64 in
  let! f2f8_38 := (f2_2 * f8_19)%i64 in
  let! f2f9_38 := (f2 * f9_38)%i64 in
  let! f3f3_2 := (f3_2 * f3)%i64 in
  let! f3f4_2 := (f3_2 * f4)%i64 in
  let! f3f5_4 := (f3_2 * f5_2)%i64 in
  let! f3f6_2 := (f3_2 * f6)%i64 in
  let! f3f7_76 := (f3_2 * f7_38)%i64 in
  let! f3f8_38 := (f3_2 * f8_19)%i64 in
  let! f3f9_76 := (f3_2 * f9_38)%i64 in
  let! f4f4 := (f4 * f4)%i64 in
  let! f4f5_2 := (f4_2 * f5)%i64 in
  let! f4f6_38 := (f4_2 * f6_19)%i64 in
  let! f4f7_38 := (f4 * f7_38)%i64 in
  let! f4f8_38 := (f4_2 * f8_19)%i64 in
  let! f4f9_38 := (f4 * f9_38)%i64 in
  let! f5f5_38 := (f5 * f5_38)%i64 in
  let! f5f6_38 := (f5_2 * f6_19)%i64 in
  let! f5f7_76 := (f5_2 * f7_38)%i64 in
  let! f5f8_38 := (f5_2 * f8_19)%i64 in
  let! f5f9_76 := (f5_2 * f9_38)%i64 in
  let! f6f6_19 := (f6 * f6_19)%i64 in
  let! f6f7_38 := (f6 * f7_38)%i64 in
  let! f6f8_38 := (f6_2 * f8_19)%i64 in
  let! f6f9_38 := (f6 * f9_38)%i64 in
  let! f7f7_38 := (f7 * f7_38)%i64 in
  let! f7f8_38 := (f7_2 * f8_19)%i64 in
  let! f7f9_76 := (f7_2 * f9_38)%i64 in
  let! f8f8_19 := (f8 * f8_19)%i64 in
  let! f8f9_38 := (f8 * f9_38)%i64 in
  let! f9f9_38 := (f9 * f9_38)%i64 in
  let! h0 := (f0f0 + f1f9_76 + f2f8_38 + f3f7_76 + f4f6_38 + f5f5_38)%i64 in
  let! h1 := (f0f1_2 + f2f9_38 + f3f8_38 + f4f7_38 + f5f6_38)%i64 in
  let! h2 := (f0f2_2 + f1f1_2 + f3f9_76 + f4f8_38 + f5f7_76 + f6f6_19)%i64 in
  let! h3 := (f0f3_2 + f1f2_2 + f4f9_38 + f5f8_38 + f6f7_38)%i64 in
  let! h4 := (f0f4_2 + f1f3_4 + f2f2 + f5f9_76 + f6f8_38 + f7f7_38)%i64 in
  let! h5 := (f0f5_2 + f1f4_2 + f2f3_2 + f6f9_38 + f7f8_38)%i64 in
  let! h6 := (f0f6_2 + f1f5_4 + f2f4_2 + f3f3_2 + f7f9_76 + f8f8_19)%i64 in
  let! h7 := (f0f7_2 + f1f6_2 + f2f5_2 + f3f4_2 + f8f9_38)%i64 in
  let! h8 := (f0f8_2 + f1f7_4 + f2f6_2 + f3f5_4 + f4f4 + f9f9_38)%i64 in
  let! h9 := (f0f9_2 + f1f8_2 + f2f7_2 + f3f6_2 + f4f5_2)%i64 in
  Some (Fe h0 h1 h2 h3 h4 h5 h6 h7 h8 h9).

(** [fe_sq]. *)
Definition fe_sq (f : fe) : option fe :=
  let! h := fe_sq_products f in
  fe_mul_carries h.

(** The products and sums of [fe_sq2], which are doubled before the carries. *)
Definition fe_sq2_products (f : fe) : option fe :=
  let '(Fe f0 f1 f2 f3 f4 f5 f6 f7 f8 f9) := f in
  let! f0_2 := (2 * f0)%i32 in
  let! f1_2 := (2 * f1)%i32 in
  let! f2_2 := (2 * f2)%i32 in
  let! f3_2 := (2 * f3)%i32 in
  let! f4_2 := (2 * f4)%i32 in
  let! f5_2 := (2 * f5)%i32 in
  let! f6_2 := (2 * f6)%i32 in
  let! f7_2 := (2 * f7)%i32 in
  let! f5_38 := (38 * f5)%i32 in
  let! f6_19 := (19 * f6)%i32 in
  let! f7_38 := (38 * f7)%i32 in
  let! f8_19 := (19 * f8)%i32 in
  let! f9_38 := (38 * f9)%i32 in
  let! f0f0 := (f0 * f0)%i64 in
  let! f0f1_2 := (f0_2 * f1)%i64 in
  let! f0f2_2 := (f0_2 * f2)%i64 in
  let! f0f3_2 := (f0_2 * f3)%i64 in
  let! f0f4_2 := (f0_2 * f4)%i64 in
  let! f0f5_2 := (f0_2 * f5)%i64 in
  let! f0f6_2 := (f0_2 * f6)%i64 in
  let! f0f7_2 := (f0_2 * f7)%i64 in
  let! f0f8_2 := (f0_2 * f8)%i64 in
  let! f0f9_2 := (f0_2 * f9)%i64 in
  let! f1f1_2 := (f1_2 * f1)%i64 in
  let! f1f2_2 := (f1_2 * f2)%i64 in
  let! f1f3_4 := (f1_2 * f3_2)%i64 in
  let! f1f4_2 := (f1_2 * f4)%i64 in
  let! f1f5_4 := (f1_2 * f5_2)%i64 in
  let! f1f6_2 := (f1_2 * f6)%i64 in
  let! f1f7_4 := (f1_2 * f7_2)%i64 in
  let! f1f8_2 := (f1_2 * f8)%i64 in
  let! f1f9_76 := (f1_2 * f9_38)%i64 in
  let! f2f2 := (f2 * f2)%i64 in
  let! f2f3_2 := (f2_2 * f3)%i64 in
  let! f2f4_2 := (f2_2 * f4)%i64 in
  let! f2f5_2 := (f2_2 * f5)%i64 in
  let! f2f6_2 := (f2_2 * f6)%i64 in
  let! f2f7_2 := (f2_2 * f7)%i64 in
  let! f2f8_38 := (f2_2 * f8_19)%i64 in
  let! f2f9_38 := (f2 * f9_38)%i64 in
  let! f3f3_2 := (f3_2 * f3)%i64 in
  let! f3f4_2 := (f3_2 * f4)%i64 in
  let! f3f5_4 := (f3_2 * f5_2)%i64 in
  let! f3f6_2 := (f3_2 * f6)%i64 in
  let! f3f7_76 := (f3_2 * f7_38)%i64 in
  let! f3f8_38 := (f3_2 * f8_19)%i64 in
  let! f3f9_76 := (f3_2 * f9_38)%i64 in
  let! f4f4 := (f4 * f4)%i64 in
  let! f4f5_2 := (f4_2 * f5)%i64 in
  let! f4f6_38 := (f4_2 * f6_19)%i64 in
  let! f4f7_38 := (f4 * f7_38)%i64 in
  let! f4f8_38 := (f4_2 * f8_19)%i64 in
  let! f4f9_38 := (f4 * f9_38)%i64 in
  let! f5f5_38 := (f5 * f5_38)%i64 in
  let! f5f6_38 := (f5_2 * f6_19)%i64 in
  let! f5f7_76 := (f5_2 * f7_38)%i64 in
  let! f5f8_38 := (f5_2 * f8_19)%i64 in
  let! f5f9_76 := (f5_2 * f9_38)%i64 in
  let! f6f6_19 := (f6 * f6_19)%i64 in
  let! f6f7_38 := (f6 * f7_38)%i64 in
  let! f6f8_38 := (f6_2 * f8_19)%i64 in
  let! f6f9_38 := (f6 * f9_38)%i64 in
  let! f7f7_38 := (f7 * f7_38)%i64 in
  let! f7f8_38 := (f7_2 * f8_19)%i64 in
  let! f7f9_76 := (f7_2 * f9_38)%i64 in
  let! f8f8_19 := (f8 * f8_19)%i64 in
  let! f8f9_38 := (f8 * f9_38)%i64 in
  let! f9f9_38 := (f9 * f9_38)%i64 in
  let! h0 := (f0f0 + f1f9_76 + f2f8_38 + f3f7_76 + f4f6_38 + f5f5_38)%i64 in
  let! h1 := (f0f1_2 + f2f9_38 + f3f8_38 + f4f7_38 + f5f6_38)%i64 in
  let! h2 := (f0f2_2 + f1f1_2 + f3f9_76 + f4f8_38 + f5f7_76 + f6f6_19)%i64 in
  let! h3 := (f0f3_2 + f1f2_2 + f4f9_38 + f5f8_38 + f6f7_38)%i64 in
  let! h4 := (f0f4_2 + f1f3_4 + f2f2 + f5f9_76 + f6f8_38 + f7f7_38)%i64 in
  let! h5 := (f0f5_2 + f1f4_2 + f2f3_2 + f6f9_38 + f7f8_38)%i64 in
  let! h6 := (f0f6_2 + f1f5_4 + f2f4_2 + f3f3_2 + f7f9_76 + f8f8_19)%i64 in
  let! h7 := (f0f7_2 + f1f6_2 + f2f5_2 + f3f4_2 + f8f9_38)%i64 in
  let! h8 := (f0f8_2 + f1f7_4 + f2f6_2 + f3f5_4 + f4f4 + f9f9_38)%i64 in
  let! h9 := (f0f9_2 + f1f8_2 + f2f7_2 + f3f6_2 + f4f5_2)%i64 in
  let! h0 := (h0 + h0)%i64 in
  let! h1 := (h1 + h1)%i64 in
  let! h2 := (h2 + h2)%i64 in
  let! h3 := (h3 + h3)%i64 in
  let! h4 := (h4 + h4)%i64 in
  let! h5 := (h5 + h5)%i64 in
  let! h6 := (h6 + h6)%i64 in
  let! h7 := (h7 + h7)%i64 in
  let! h8 := (h8 + h8)%i64 in
  let! h9 := (h9 + h9)%i64 in
  Some (Fe h0 h1 h2 h3 h4 h5 h6 h7 h8 h9).

(** [fe_sq2]. *)
Definition fe_sq2 (f : fe) : option fe :=
  let! h := fe_sq2_products f in
  fe_mul_carries h.


(** ** The carry chain *)

Lemma carry_wrap_spec h9 h0 A B {T} (K : Z * Z -> option T) Q :
  Z.abs h9 <= A -> Z.abs h0 <= B -> (A <=? 2 ^ 62 - 2 ^ 25) && (B <=? 2 ^ 62) = true ->
  (forall h9' h0' c, h9' = h9 - 2 ^ 25 * c -> h0' = h0 + 19 * c ->
     - 2 ^ 24 <= h9' < 2 ^ 24 -> Z.abs h0' <= B + 19 * (A / 2 ^ 25 + 2) ->
     returns (K (h9', h0')) Q) ->
  returns (bind (carry_wrap h9 h0) K) Q.
Proof.
  intros H9 H0 [HA HB]%andb_prop HK. apply Z.leb_le in HA, HB.
  assert (Z.abs h9 <= 2 ^ 62 - 2 ^ 25) as H9' by lia.
  assert (Z.abs h0 <= 2 ^ 62) as H0' by lia.
  apply (returns_bind _ _ (fun r => let '(h9', h0') := r in exists c,
    h9' = h9 - 2 ^ 25 * c /\ h0' = h0 + 19 * c /\
    - 2 ^ 24 <= h9' < 2 ^ 24 /\ Z.abs h0' <= B + 19 * (A / 2 ^ 25 + 2))).
  - clear HK. unfold carry_wrap. norm_bound H9'. norm_bound H0'. clear HA HB.
    cexec. exists x. clear - E E0 E1 H9 H0. subst x0 x1.
    change (2 ^ 24) with 16777216 in *. change (2 ^ 25) with 33554432 in *.
    repeat split; Z.to_euclidean_division_equations; lia.
  - intros [h9' h0'] (c & ? & ? & ? & ?). eauto.
Qed.

(** The part of the schoolbook product with weight at least 2^255. *)
Definition fe_high (f g : fe) : Z :=
  let '(Fe f0 f1 f2 f3 f4 f5 f6 f7 f8 f9) := f in
  let '(Fe g0 g1 g2 g3 g4 g5 g6 g7 g8 g9) := g in
  2 ^ 0 * (2 * f1 * g9 + f2 * g8 + 2 * f3 * g7 + f4 * g6 + 2 * f5 * g5 + f6 * g4
      + 2 * f7 * g3 + f8 * g2 + 2 * f9 * g1)
  + 2 ^ 26 * (f2 * g9 + f3 * g8 + f4 * g7 + f5 * g6 + f6 * g5 + f7 * g4 + f8 * g3 + f9 * g2)
  + 2 ^ 51 * (2 * f3 * g9 + f4 * g8 + 2 * f5 * g7 + f6 * g6 + 2 * f7 * g5 + f8 * g4 + 2 * f9 * g3)
  + 2 ^ 77 * (f4 * g9 + f5 * g8 + f6 * g7 + f7 * g6 + f8 * g5 + f9 * g4)
  + 2 ^ 102 * (2 * f5 * g9 + f6 * g8 + 2 * f7 * g7 + f8 * g6 + 2 * f9 * g5)
  + 2 ^ 128 * (f6 * g9 + f7 * g8 + f8 * g7 + f9 * g6)
  + 2 ^ 153 * (2 * f7 * g9 + f8 * g8 + 2 * f9 * g7)
  + 2 ^ 179 * (f8 * g9 + f9 * g8)
  + 2 ^ 204 * (2 * f9 * g9).

Ltac cstep_wrap :=
  lazymatch goal with
  | |- returns (bind (carry_wrap ?a ?b) _) _ =>
      let Ha := known_bound a in let Hb := known_bound b in
      eapply (carry_wrap_spec a b _ _ _ _ Ha Hb eq_refl)
  end;
  let l := fresh "l" in let h := fresh "h" in let c := fresh "c" in
  let E := fresh "E" in let E' := fresh "E" in let R := fresh "R" in let H := fresh "H" in
  intros l h c E E' R H; norm_bound H;
  let L := fresh "L" in pose proof (abs_range _ _ R) as L; norm_bound L; cbv beta iota.

(** The carry chain changes the value by a multiple of the modulus only, and
    leaves limbs within 1.01 * 2^25 and 1.01 * 2^24. *)
Lemma fe_mul_carries_spec h :
  fe_le (3 * 2 ^ 60) (3 * 2 ^ 60) h ->
  returns (fe_mul_carries h) (fun r => (exists c, fe_val r = fe_val h - p25519 * c) /\ fe_101 r).
Proof.
  intros H. fe_destruct.
  repeat match goal with H : Z.abs _ <= _ |- _ => progress norm_bound H end.
  unfold fe_mul_carries. repeat first [cstep_wrap | cstep]. cbn [returns].
  rewrite !to_i32_id by (cbn [imax]; lia).
  split.
  - exists c9. subst. unfold p25519; cbn [fe_val]. ring.
  - cbn. lia.
Qed.

(** ** Products *)

Ltac products_spec :=
  cexec; split;
  [subst; unfold p25519; cbn [fe_val fe_high]; ring | cbn; repeat split; abs_le].

Lemma fe_mul_products_spec f g :
  fe_165 f -> fe_165 g ->
  returns (fe_mul_products f g) (fun h =>
    fe_val h = fe_val f * fe_val g - p25519 * fe_high f g /\
    fe_le (3 * 2 ^ 60) (3 * 2 ^ 60) h).
Proof. intros Hf Hg. unfold fe_165 in *. fe_destruct. unfold fe_mul_products. products_spec. Qed.

Lemma fe_sq_products_spec f :
  fe_165 f ->
  returns (fe_sq_products f) (fun h =>
    fe_val h = fe_val f * fe_val f - p25519 * fe_high f f /\
    fe_le (3 * 2 ^ 60) (3 * 2 ^ 60) h).
Proof. intros Hf. unfold fe_165 in *. fe_destruct. unfold fe_sq_products. products_spec. Qed.

Lemma fe_sq2_products_spec f :
  fe_165 f ->
  returns (fe_sq2_products f) (fun h =>
    fe_val h = 2 * (fe_val f * fe_val f) - p25519 * (2 * fe_high f f) /\
    fe_le (3 * 2 ^ 60) (3 * 2 ^ 60) h).
Proof. intros Hf. unfold fe_165 in *. fe_destruct. unfold fe_sq2_products. products_spec. Qed.

(** ** Results in the field *)

Lemma of_Z_sub_p x c : Zmod.of_Z p25519 (x - p25519 * c) = Zmod.of_Z p25519 x.
Proof. apply Zmod.of_Z_inj. rewrite <- (Z_mod_plus_full x (- c)). f_equal. ring. Qed.

(** Products equal to [x] modulo the prime give, after the carries, a tight
    representation of [x]. *)
Lemma fe_reduce_spec (m : option fe) x k :
  returns m (fun h => fe_val h = x - p25519 * k /\ fe_le (3 * 2 ^ 60) (3 * 2 ^ 60) h) ->
  returns (let! h := m in fe_mul_carries h) (fun h => fe_F h = Zmod.of_Z p25519 x /\ fe_101 h).
Proof.
  intros H. eapply returns_bind; [exact H | cbv beta; intros h [Hv Hb]].
  eapply returns_weaken; [apply fe_mul_carries_spec, Hb | cbv beta; intros r [[c Hc] Hr]].
  split; [|exact Hr]. unfold fe_F. rewrite Hc, of_Z_sub_p, Hv. apply of_Z_sub_p.
Qed.

Lemma fe_mul_spec f g :
  fe_165 f -> fe_165 g ->
  returns (fe_mul f g) (fun h => fe_F h = Zmod.mul (fe_F f) (fe_F g) /\ fe_101 h).
Proof.
  intros Hf Hg. unfold fe_F at 2 3. rewrite <- Zmod.of_Z_mul.
  eapply fe_reduce_spec, fe_mul_products_spec; assumption.
Qed.

Lemma fe_sq_spec f :
  fe_165 f ->
  returns (fe_sq f) (fun h => fe_F h = Zmod.mul (fe_F f) (fe_F f) /\ fe_101 h).
Proof.
  intros Hf. unfold fe_F at 2 3. rewrite <- Zmod.of_Z_mul.
  eapply fe_reduce_spec, fe_sq_products_spec; assumption.
Qed.

Lemma fe_sq2_spec f :
  fe_165 f ->
  returns (fe_sq2 f) (fun h =>
    fe_F h = Zmod.add (Zmod.mul (fe_F f) (fe_F f)) (Zmod.mul (fe_F f) (fe_F f)) /\ fe_101 h).
Proof.
  intros Hf. unfold fe_F at 2 3 4 5. rewrite <- Zmod.of_Z_mul, <- Zmod.of_Z_add, Z.add_diag.
  eapply fe_reduce_spec, fe_sq2_products_spec; assumption.
Qed.

(** ** Theorems *)

(** On inputs within the documented bound 1.65*2^26 (1.65*2^25 for odd limbs),
    no 32-bit or 64-bit intermediate of [fe_mul] overflows; the result is the
    product modulo 2^255-19 and is within the documented 1.01*2^25, 1.01*2^24. *)
Theorem fe_mul_correct f g :
  fe_165 f -> fe_165 g ->
  exists h, fe_mul f g = Some h /\ fe_F h = Zmod.mul (fe_F f) (fe_F g) /\ fe_101 h.
Proof. intros Hf Hg. now apply returns_some, fe_mul_spec. Qed.

Definition fe_165_max : fe :=
  Fe 110729625 55364812 (-110729625) 55364812 110729625 (-55364812) 110729625 55364812 110729625 55364812.

Lemma fe_mul_correct_witness :
  exists h, fe_mul fe_165_max fe_165_max = Some h /\
            fe_F h = Zmod.mul (fe_F fe_165_max) (fe_F fe_165_max) /\ fe_101 h.
Proof. apply (fe_mul_correct fe_165_max fe_165_max); cbn; lia. Defined.

(** [fe_sq] is an optimised [fe_mul]: on the documented input bound it returns,
    without overflow, the same field element as [fe_mul f f], with tight limbs. *)
Theorem fe_sq_correct f :
  fe_165 f ->
  exists h, fe_sq f = Some h /\ fe_101 h /\
            exists m, fe_mul f f = Some m /\ fe_F h = fe_F m.
Proof.
  intros Hf. pose proof (fe_sq_spec f Hf) as S. pose proof (fe_mul_spec f f Hf Hf) as M.
  apply returns_some in S as (h & -> & Hh & ?), M as (m & -> & Hm & ?).
  exists h. rewrite Hh, <- Hm. eauto.
Qed.

Lemma fe_sq_correct_witness :
  exists h, fe_sq fe_165_max = Some h /\ fe_101 h /\
            exists m, fe_mul fe_165_max fe_165_max = Some m /\ fe_F h = fe_F m.
Proof. apply (fe_sq_correct fe_165_max); cbn; lia. Defined.

(** [fe_sq2] returns, without overflow on the documented input bound, twice the
    square of its argument in the field, with tight limbs. *)
Theorem fe_sq2_correct f :
  fe_165 f ->
  exists h, fe_sq2 f = Some h /\
            fe_F h = Zmod.add (Zmod.mul (fe_F f) (fe_F f)) (Zmod.mul (fe_F f) (fe_F f)) /\
            fe_101 h.
Proof. intros Hf. now apply returns_some, fe_sq2_spec. Qed.

Lemma fe_sq2_correct_witness :
  exists h, fe_sq2 fe_165_max = Some h /\
            fe_F h = Zmod.add (Zmod.mul (fe_F fe_165_max) (fe_F fe_165_max))
                              (Zmod.mul (fe_F fe_165_max) (fe_F fe_165_max)) /\ fe_101 h.
Proof. apply (fe_sq2_correct fe_165_max); cbn; lia. Defined.
