(* ===== verification/FeBytes.v ===== *)
(** * Field elements as bytes

    Models [fe_tobytes], [fe_isnegative] and [fe_isnonzero] of crypto-ops.c, and the
    section "From fe_frombytes.c" that [ge_frombytes_vartime] and
    [ge_fromfe_frombytes_vartime] inline. [fe_tobytes] writes the least nonnegative
    representative; reading accepts exactly the canonical encodings. *)

From Stdlib Require Import ZArith Lia List Bool Zmod.
From S2P Require Import Prelude Bytes Fe FeMul.
Import ListNotations.

#[local] Open Scope Z_scope.

(** ** [fe_tobytes] *)

(** [q], the quotient of the value by 2^255 - 19. *)
Definition fe_tobytes_q (h : fe) : option Z :=
  let '(Fe h0 h1 h2 h3 h4 h5 h6 h7 h8 h9) := h in
  let! q := ((19 * h9 + (1 << 24)) >> 25)%i32 in
  let! q := ((h0 + q) >> 26)%i32 in
  let! q := ((h1 + q) >> 25)%i32 in
  let! q := ((h2 + q) >> 26)%i32 in
  let! q := ((h3 + q) >> 25)%i32 in
  let! q := ((h4 + q) >> 26)%i32 in
  let! q := ((h5 + q) >> 25)%i32 in
  let! q := ((h6 + q) >> 26)%i32 in
  let! q := ((h7 + q) >> 25)%i32 in
  let! q := ((h8 + q) >> 26)%i32 in
  let! q := ((h9 + q) >> 25)%i32 in
  Some q.

(** [h0 += 19 * q] and the carries; the carry out of [h9] is dropped. *)
Definition fe_tobytes_carries (h : fe) (q : Z) : option fe :=
  let '(Fe h0 h1 h2 h3 h4 h5 h6 h7 h8 h9) := h in
  let! h0 := (h0 + 19 * q)%i32 in
  let! '(h0, h1) := carry_floor I32 26 h0 h1 in
  let! '(h1, h2) := carry_floor I32 25 h1 h2 in
  let! '(h2, h3) := carry_floor I32 26 h2 h3 in
  let! '(h3, h4) := carry_floor I32 25 h3 h4 in
  let! '(h4, h5) := carry_floor I32 26 h4 h5 in
  let! '(h5, h6) := carry_floor I32 25 h5 h6 in
  let! '(h6, h7) := carry_floor I32 26 h6 h7 in
  let! '(h7, h8) := carry_floor I32 25 h7 h8 in
  let! '(h8, h9) := carry_floor I32 26 h8 h9 in
  let! carry9 := (h9 >> 25)%i32 in
  let! h9 := (h9 - (carry9 << 25))%i32 in
  Some (Fe h0 h1 h2 h3 h4 h5 h6 h7 h8 h9).

Definition fe_tobytes_store (h : fe) : list Z :=
  let '(Fe h0 h1 h2 h3 h4 h5 h6 h7 h8 h9) := h in
  [u8 (Z.shiftr h0 0);
   u8 (Z.shiftr h0 8);
   u8 (Z.shiftr h0 16);
   u8 (Z.lor (Z.shiftr h0 24) (to_i32 (Z.shiftl h1 2)));
   u8 (Z.shiftr h1 6);
   u8 (Z.shiftr h1 14);
   u8 (Z.lor (Z.shiftr h1 22) (to_i32 (Z.shiftl h2 3)));
   u8 (Z.shiftr h2 5);
   u8 (Z.shiftr h2 13);
   u8 (Z.lor (Z.shiftr h2 21) (to_i32 (Z.shiftl h3 5)));
   u8 (Z.shiftr h3 3);
   u8 (Z.shiftr h3 11);
   u8 (Z.lor (Z.shiftr h3 19) (to_i32 (Z.shiftl h4 6)));
   u8 (Z.shiftr h4 2);
   u8 (Z.shiftr h4 10);
   u8 (Z.shiftr h4 18);
   u8 (Z.shiftr h5 0);
   u8 (Z.shiftr h5 8);
   u8 (Z.shiftr h5 16);
   u8 (Z.lor (Z.shiftr h5 24) (to_i32 (Z.shiftl h6 1)));
   u8 (Z.shiftr h6 7);
   u8 (Z.shiftr h6 15);
   u8 (Z.lor (Z.shiftr h6 23) (to_i32 (Z.shiftl h7 3)));
   u8 (Z.shiftr h7 5);
   u8 (Z.shiftr h7 13);
   u8 (Z.lor (Z.shiftr h7 21) (to_i32 (Z.shiftl h8 4)));
   u8 (Z.shiftr h8 4);
   u8 (Z.shiftr h8 12);
   u8 (Z.lor (Z.shiftr h8 20) (to_i32 (Z.shiftl h9 6)));
   u8 (Z.shiftr h9 2);
   u8 (Z.shiftr h9 10);
   u8 (Z.shiftr h9 18)].

Definition fe_tobytes (h : fe) : option (list Z) :=
  let! q := fe_tobytes_q h in
  let! h := fe_tobytes_carries h q in
  Some (fe_tobytes_store h).

(** [s[0] & 1] of the canonical encoding. *)
Definition fe_isnegative (f : fe) : option Z :=
  let! s := fe_tobytes f in
  let! b := nth_error s 0 in
  Some (Z.land b 1).

Definition fe_isnonzero (f : fe) : option Z :=
  let! s := fe_tobytes f in
  let! x := or_bytes 32 s in
  (((x - 1) >> 8) + 1)%i32.

(** ** fe_frombytes *)

(** The ten [int64_t] limbs of 32 bytes; [mask9] is the treatment of the last load,
    which [ge_frombytes_vartime] masks and [ge_fromfe_frombytes_vartime] does not. *)
Definition fe_load (mask9 : Z -> Z) (s : list Z) : option fe :=
  let! x := load_4 s in let h0 := to_i64 x in
  let! x := load_3 (skipn 4 s) in let h1 := to_i64 (u64 (Z.shiftl x 6)) in
  let! x := load_3 (skipn 7 s) in let h2 := to_i64 (u64 (Z.shiftl x 5)) in
  let! x := load_3 (skipn 10 s) in let h3 := to_i64 (u64 (Z.shiftl x 3)) in
  let! x := load_3 (skipn 13 s) in let h4 := to_i64 (u64 (Z.shiftl x 2)) in
  let! x := load_4 (skipn 16 s) in let h5 := to_i64 x in
  let! x := load_3 (skipn 20 s) in let h6 := to_i64 (u64 (Z.shiftl x 7)) in
  let! x := load_3 (skipn 23 s) in let h7 := to_i64 (u64 (Z.shiftl x 5)) in
  let! x := load_3 (skipn 26 s) in let h8 := to_i64 (u64 (Z.shiftl x 4)) in
  let! x := load_3 (skipn 29 s) in let h9 := to_i64 (u64 (Z.shiftl (mask9 x) 2)) in
  Some (Fe h0 h1 h2 h3 h4 h5 h6 h7 h8 h9).

(** "Validate the number to be canonical": [true] when the limbs are those of a value
    of 2^255 - 19 or more. *)
Definition fe_noncanonical (h : fe) : bool :=
  let '(Fe h0 h1 h2 h3 h4 h5 h6 h7 h8 h9) := h in
  (h9 =? 33554428) && (h8 =? 268435440) && (h7 =? 536870880) && (h6 =? 2147483520) &&
  (h5 =? 4294967295) && (h4 =? 67108860) && (h3 =? 134217720) && (h2 =? 536870880) &&
  (h1 =? 1073741760) && (h0 >=? 4294967277).

(** The carries, and the assignment to [int32_t] limbs. *)
Definition fe_load_carries (h : fe) : option fe :=
  let '(Fe h0 h1 h2 h3 h4 h5 h6 h7 h8 h9) := h in
  let! '(h9, h0) := carry_wrap h9 h0 in
  let! '(h1, h2) := carry_round 25 h1 h2 in
  let! '(h3, h4) := carry_round 25 h3 h4 in
  let! '(h5, h6) := carry_round 25 h5 h6 in
  let! '(h7, h8) := carry_round 25 h7 h8 in
  let! '(h0, h1) := carry_round 26 h0 h1 in
  let! '(h2, h3) := carry_round 26 h2 h3 in
  let! '(h4, h5) := carry_round 26 h4 h5 in
  let! '(h6, h7) := carry_round 26 h6 h7 in
  let! '(h8, h9) := carry_round 26 h8 h9 in
  Some (Fe (to_i32 h0) (to_i32 h1) (to_i32 h2) (to_i32 h3) (to_i32 h4)
           (to_i32 h5) (to_i32 h6) (to_i32 h7) (to_i32 h8) (to_i32 h9)).

(** The part of [ge_frombytes_vartime] that reads the coordinate: [Some None] is the
    return of -1 on a non-canonical encoding. *)
Definition fe_frombytes (s : list Z) : option (option fe) :=
  let! h := fe_load (fun x => Z.land x 8388607) s in
  if fe_noncanonical h then Some None
  else let! y := fe_load_carries h in Some (Some y).

(** ** Correctness of [fe_tobytes] *)

(** The claim of the comment above [fe_tobytes]: the rounded estimate is the quotient.
    [V] is the value, [L] the part below limb 9, [q0] the first [q]. *)
Lemma tobytes_quotient V L h9 q0 r0 q R :
  V = L + 2 ^ 230 * h9 -> Z.abs L <= 2 ^ 232 -> Z.abs h9 <= 2 ^ 26 ->
  19 * h9 + 2 ^ 24 = 2 ^ 25 * q0 + r0 -> 0 <= r0 < 2 ^ 25 ->
  V + q0 = 2 ^ 255 * q + R -> 0 <= R < 2 ^ 255 ->
  q = V / p25519.
Proof.
  intros HV HL H9 H0 Hr0 HR RR.
  pose proof (Z.div_mod V p25519 ltac:(discriminate)) as D.
  pose proof (Z.mod_pos_bound V p25519 ltac:(reflexivity)) as M.
  revert D M. generalize (V / p25519), (V mod p25519). intros q' r D M.
  unfold p25519 in *.
  assert (0 <= V + q0 - 2 ^ 255 * q' < 2 ^ 255) by lia. lia.
Qed.

Lemma fe_tobytes_q_spec h :
  fe_165 h -> returns (fe_tobytes_q h) (fun q => q = fe_val h / p25519 /\ Z.abs q <= 3).
Proof.
  intros H. unfold fe_165 in H. fe_destruct. unfold fe_tobytes_q. cexec.
  split; [|abs_le].
  repeat match goal with E : _ = _ / _ |- _ => floor_eq E end.
  eapply (tobytes_quotient _ (fe0 + 2 ^ 26 * fe1 + 2 ^ 51 * fe2 + 2 ^ 77 * fe3 + 2 ^ 102 * fe4
    + 2 ^ 128 * fe5 + 2 ^ 153 * fe6 + 2 ^ 179 * fe7 + 2 ^ 204 * fe8) fe9 x r9 x9
    (r8 + 2 ^ 26 * r7 + 2 ^ 51 * r6 + 2 ^ 77 * r5 + 2 ^ 102 * r4 + 2 ^ 128 * r3 + 2 ^ 153 * r2
     + 2 ^ 179 * r1 + 2 ^ 204 * r0 + 2 ^ 230 * r)); trivial.
  - eapply Z.le_trans; [abs_lin | vm_compute; discriminate].
  - abs_le.
  - apply Z.add_move_r in D, D0, D1, D2, D3, D4, D5, D6, D7, D8.
    cbn [fe_val]. rewrite D, D0, D1, D2, D3, D4, D5, D6, D7, D8. ring.
  - eapply range_le_range; [range_lin | reflexivity].
Qed.

(** Limbs in the ranges of the stores. *)
Definition fe_digits (h : fe) : Prop :=
  let '(Fe h0 h1 h2 h3 h4 h5 h6 h7 h8 h9) := h in
  0 <= h0 < 2 ^ 26 /\ 0 <= h1 < 2 ^ 25 /\ 0 <= h2 < 2 ^ 26 /\ 0 <= h3 < 2 ^ 25 /\ 0 <= h4 < 2 ^ 26 /\
  0 <= h5 < 2 ^ 25 /\ 0 <= h6 < 2 ^ 26 /\ 0 <= h7 < 2 ^ 25 /\ 0 <= h8 < 2 ^ 26 /\ 0 <= h9 < 2 ^ 25.

Lemma fe_tobytes_carries_spec h q :
  fe_165 h -> Z.abs q <= 3 -> q = fe_val h / p25519 ->
  returns (fe_tobytes_carries h q) (fun r => fe_val r = fe_val h mod p25519 /\ fe_digits r).
Proof.
  intros H Hq Eq. unfold fe_165 in H. fe_destruct. unfold fe_tobytes_carries. cexec.
  assert (0 <= x1 < 2 ^ 25) as R8.
  { subst x1 x0. rewrite Z.mul_comm, <- Z.mod_eq by lia. apply Z.mod_pos_bound. lia. }
  split; [|cbn [fe_digits]; tauto].
  pose proof (Z.div_mod (fe_val (Fe fe0 fe1 fe2 fe3 fe4 fe5 fe6 fe7 fe8 fe9)) p25519 ltac:(discriminate)) as D.
  pose proof (Z.mod_pos_bound (fe_val (Fe fe0 fe1 fe2 fe3 fe4 fe5 fe6 fe7 fe8 fe9)) p25519 ltac:(reflexivity)) as M.
  rewrite <- Eq in D. clear Eq E18.
  assert (fe_val (Fe l l0 l1 l2 l3 l4 l5 l6 l7 x1)
          = fe_val (Fe fe0 fe1 fe2 fe3 fe4 fe5 fe6 fe7 fe8 fe9) + 19 * q - 2 ^ 255 * x0) as Ev
    by (subst; cbn [fe_val]; ring).
  assert (0 <= fe_val (Fe l l0 l1 l2 l3 l4 l5 l6 l7 x1) < 2 ^ 255) as Rv
    by (cbn [fe_val]; eapply range_le_range; [range_lin | reflexivity]).
  revert D M Ev Rv. clear. unfold p25519.
  generalize (fe_val (Fe fe0 fe1 fe2 fe3 fe4 fe5 fe6 fe7 fe8 fe9)). intros V.
  generalize (V mod (2 ^ 255 - 19)), (fe_val (Fe l l0 l1 l2 l3 l4 l5 l6 l7 x1)). lia.
Qed.

Lemma fe_tobytes_store_spec h :
  fe_digits h ->
  le_val (fe_tobytes_store h) = fe_val h /\ bytes (fe_tobytes_store h) /\
  length (fe_tobytes_store h) = 32%nat.
Proof.
  intros H. split; [|split; [|now destruct h]].
  2: { destruct h. cbn [fe_tobytes_store]. repeat constructor; apply is_byte_u8. }
  destruct h. cbn [fe_digits fe_tobytes_store] in *. decompose [and] H. clear H.
  rewrite !store_or32 by lia. rewrite (store_top fe4 18), (store_top fe9 18) by lia.
  rewrite !store_mid by lia.
  cbn [Z.sub Z.add Z.opp Z.pos_sub Pos.pred_double Z.succ_double Z.pred_double Z.double].
  replace (fe_val _) with
    (fe_val (Fe (fe0 / 2 ^ 0) (fe1 / 2 ^ 0) (fe2 / 2 ^ 0) (fe3 / 2 ^ 0) (fe4 / 2 ^ 0)
       (fe5 / 2 ^ 0) (fe6 / 2 ^ 0) (fe7 / 2 ^ 0) (fe8 / 2 ^ 0) (fe9 / 2 ^ 0)))
    by now rewrite !Z.div_1_r.
  limb_fields2 fe0 8. limb_fields2 fe1 6. limb_fields2 fe2 5. limb_fields2 fe3 3.
  limb_fields2 fe4 2. limb_fields2 fe5 8. limb_fields2 fe6 7. limb_fields2 fe7 5.
  limb_fields2 fe8 4. limb_fields2 fe9 2.
  cbn [le_val fe_val]. ring.
Qed.

Lemma fe_tobytes_spec h :
  fe_165 h ->
  returns (fe_tobytes h) (fun s => le_val s = fe_val h mod p25519 /\ bytes s /\ length s = 32%nat).
Proof.
  intros H. unfold fe_tobytes.
  eapply returns_bind; [apply fe_tobytes_q_spec, H | intros q [Eq Hq]].
  eapply returns_bind; [now apply fe_tobytes_carries_spec | intros r [<- Hd]].
  now apply fe_tobytes_store_spec.
Qed.

(** The least nonnegative representative is that of the class. *)
Lemma fe_F_unsigned h : Zmod.to_Z (fe_F h) = fe_val h mod p25519.
Proof. apply Zmod.to_Z_of_Z. Qed.

Lemma fe_isnegative_spec f :
  fe_165 f -> fe_isnegative f = Some (Zmod.to_Z (fe_F f) mod 2).
Proof.
  intros H. apply returns_eq. unfold fe_isnegative.
  eapply returns_bind; [apply fe_tobytes_spec, H | intros s (E & Hs & Hl)].
  rewrite fe_F_unsigned, <- E. destruct Hs as [|b s Hb Hs]; [discriminate|].
  cbn [nth_error bind returns le_val]. change 1 with (Z.ones 1).
  rewrite Z.land_ones by lia. change (2 ^ 1) with 2.
  replace (b + 256 * le_val s) with (b + 128 * le_val s * 2) by ring. now rewrite Z.mod_add.
Qed.

Lemma fe_isnonzero_spec f :
  fe_165 f -> fe_isnonzero f = Some (if Zmod.eqb (fe_F f) Zmod.zero then 0 else 1).
Proof.
  intros H. apply returns_eq. unfold fe_isnonzero.
  eapply returns_bind; [apply fe_tobytes_spec, H | intros s (E & Hs & Hl)].
  eapply returns_bind; [now apply or_bytes_spec | intros x [Hx Ex]].
  eapply returns_weaken; [now apply (nonzero_byte x (le_val s)) | intros r ->].
  rewrite E, <- fe_F_unsigned. reflexivity.
Qed.

(** ** Correctness of fe_frombytes *)

Lemma land_23 x : Z.land (x mod 2 ^ 24) 8388607 = x mod 2 ^ 23.
Proof.
  change 8388607 with (Z.ones 23). rewrite Z.land_ones by lia.
  apply Z.mod_mod_divide. now exists 2.
Qed.

Lemma load_shift v k n w :
  0 <= n <= 30 -> 0 <= w <= 32 ->
  to_i64 (u64 (Z.shiftl ((v / 256 ^ Z.of_nat k) mod 2 ^ w) n)) = 2 ^ n * ((v / 2 ^ (8 * Z.of_nat k)) mod 2 ^ w).
Proof.
  intros Hn Hw. change 256 with (2 ^ 8). rewrite <- Z.pow_mul_r by lia.
  rewrite Z.shiftl_mul_pow2, Z.mul_comm by lia.
  pose proof (Z.mod_pos_bound (v / 2 ^ (8 * Z.of_nat k)) (2 ^ w) ltac:(lia)).
  pose proof (Z.pow_le_mono_r 2 n 30 ltac:(lia) ltac:(lia)).
  pose proof (Z.pow_le_mono_r 2 w 32 ltac:(lia) ltac:(lia)).
  assert (0 <= 2 ^ n * ((v / 2 ^ (8 * Z.of_nat k)) mod 2 ^ w) < 2 ^ 62) by nia.
  rewrite u64_small by lia. apply to_i64_id. cbn [imax]. lia.
Qed.

(** The value of 32 bytes cut where the loads cut it. *)
Lemma fe_load_fields v m m0 m1 m2 m3 m4 m5 m6 m7 m8 :
  v = m + 2 ^ 32 * m0 + 2 ^ 56 * m1 + 2 ^ 80 * m2 + 2 ^ 104 * m3 + 2 ^ 128 * m4 + 2 ^ 160 * m5
      + 2 ^ 184 * m6 + 2 ^ 208 * m7 + 2 ^ 232 * m8 ->
  fe_val (Fe m (2 ^ 6 * m0) (2 ^ 5 * m1) (2 ^ 3 * m2) (2 ^ 2 * m3) m4
             (2 ^ 7 * m5) (2 ^ 5 * m6) (2 ^ 4 * m7) (2 ^ 2 * m8)) = v.
Proof. intros ->. cbn [fe_val]. ring. Qed.

(** A sum of digits is within 19 of the top only when all of them but the lowest are
    maximal. *)
Lemma noncanonical_fields m m0 m1 m2 m3 m4 m5 m6 m7 m8 :
  0 <= m < 2 ^ 32 -> 0 <= m0 < 2 ^ 24 -> 0 <= m1 < 2 ^ 24 -> 0 <= m2 < 2 ^ 24 -> 0 <= m3 < 2 ^ 24 ->
  0 <= m4 < 2 ^ 32 -> 0 <= m5 < 2 ^ 24 -> 0 <= m6 < 2 ^ 24 -> 0 <= m7 < 2 ^ 24 -> 0 <= m8 < 2 ^ 23 ->
  fe_noncanonical (Fe m (2 ^ 6 * m0) (2 ^ 5 * m1) (2 ^ 3 * m2) (2 ^ 2 * m3) m4
             (2 ^ 7 * m5) (2 ^ 5 * m6) (2 ^ 4 * m7) (2 ^ 2 * m8)) =
  (p25519 <=? m + 2 ^ 32 * m0 + 2 ^ 56 * m1 + 2 ^ 80 * m2 + 2 ^ 104 * m3 + 2 ^ 128 * m4
      + 2 ^ 160 * m5 + 2 ^ 184 * m6 + 2 ^ 208 * m7 + 2 ^ 232 * m8).
Proof.
  intros. unfold fe_noncanonical, p25519. apply eq_true_iff_eq.
  rewrite !andb_true_iff, !Z.eqb_eq, Z.geb_le, Z.leb_le. split; intros HH.
  - lia.
  - repeat split; lia.
Qed.

Lemma fe_load_masked_spec s :
  bytes s -> length s = 32%nat ->
  returns (fe_load (fun x => Z.land x 8388607) s) (fun h =>
    fe_val h = le_val s mod 2 ^ 255 /\ fe_le (2 ^ 32) (2 ^ 32) h /\
    fe_noncanonical h = (p25519 <=? le_val s mod 2 ^ 255)).
Proof.
  intros Hs Hl. unfold fe_load. change (load_4 s) with (load_4 (skipn 0 s)).
  rewrite !load_3_spec, !load_4_spec by (assumption || lia). cbn [bind returns].
  rewrite land_23, !word_4, !load_shift by lia.
  norm_index.
  generalize (le_val s). intros v.
  pose proof (Z.div_mod v (2 ^ 255) ltac:(lia)) as Dv.
  split_limb v 0 32. split_limb v 32 24. split_limb v 56 24. split_limb v 80 24.
  split_limb v 104 24. split_limb v 128 32. split_limb v 160 24. split_limb v 184 24.
  split_limb v 208 24. split_limb v 232 23.
  pose proof (fe_load_fields _ m m0 m1 m2 m3 m4 m5 m6 m7 m8 eq_refl) as Ev.
  assert (v mod 2 ^ 255 = m + 2 ^ 32 * m0 + 2 ^ 56 * m1 + 2 ^ 80 * m2 + 2 ^ 104 * m3 + 2 ^ 128 * m4
    + 2 ^ 160 * m5 + 2 ^ 184 * m6 + 2 ^ 208 * m7 + 2 ^ 232 * m8) as Em.
  { symmetry. apply (Z.mod_unique_pos _ _ (v / 2 ^ 255)).
    - eapply range_le_range; [range_lin | reflexivity].
    - rewrite <- (Z.div_1_r v) at 1. change (v / 1) with (v / 2 ^ 0).
      rewrite E, E0, E1, E2, E3, E4, E5, E6, E7, E8. ring. }
  rewrite Em. split; [exact Ev | split].
  - clear - R R0 R1 R2 R3 R4 R5 R6 R7 R8. cbn [fe_le]. repeat split; lia.
  - now apply noncanonical_fields.
Qed.

Lemma fe_load_carries_spec h :
  fe_le (2 ^ 32) (2 ^ 32) h ->
  returns (fe_load_carries h) (fun r => fe_F r = Zmod.of_Z p25519 (fe_val h) /\ fe_101 r).
Proof.
  intros H. fe_destruct.
  repeat match goal with H : Z.abs _ <= _ |- _ => progress norm_bound H end.
  unfold fe_load_carries. repeat first [cstep_wrap | cstep]. cbn [returns].
  rewrite !to_i32_id by (eapply Z.le_trans; [eassumption | vm_compute; discriminate]).
  split; [|cbn; repeat split; abs_le].
  unfold fe_F. rewrite <- (of_Z_sub_p (fe_val (Fe fe0 fe1 fe2 fe3 fe4 fe5 fe6 fe7 fe8 fe9)) c). f_equal. subst. unfold p25519; cbn [fe_val]. ring.
Qed.

(** Reading is total: non-canonical encodings are refused and all others are read. *)
Lemma fe_frombytes_spec s :
  bytes s -> length s = 32%nat ->
  returns (fe_frombytes s) (fun r =>
    let v := le_val s mod 2 ^ 255 in
    match r with
    | None => p25519 <= v
    | Some h => v < p25519 /\ fe_F h = Zmod.of_Z p25519 v /\ fe_101 h
    end).
Proof.
  intros Hs Hl. unfold fe_frombytes.
  eapply returns_bind; [now apply fe_load_masked_spec | intros h (E & B & ->)].
  rewrite <- E. destruct (Z.leb_spec p25519 (fe_val h)) as [H|H]; [exact H|].
  eapply returns_bind; [apply fe_load_carries_spec, B | intros r [Er Hr]]. now cbn.
Qed.

Lemma fe_load_full_spec s :
  bytes s -> length s = 32%nat ->
  returns (fe_load (fun x => x) s) (fun h => fe_val h = le_val s /\ fe_le (2 ^ 32) (2 ^ 32) h).
Proof.
  intros Hs Hl. unfold fe_load. change (load_4 s) with (load_4 (skipn 0 s)).
  rewrite !load_3_spec, !load_4_spec by (assumption || lia). cbn [bind returns].
  rewrite !word_4, !load_shift by lia. norm_index.
  pose proof (le_val_bound s Hs) as Hb. rewrite Hl in Hb. clear Hs Hl.
  generalize dependent (le_val s). intros v Hb.
  pose proof (div_pow_range v 256 0 ltac:(lia) ltac:(lia) Hb) as Ht.
  split_limb v 0 32. split_limb v 32 24. split_limb v 56 24. split_limb v 80 24.
  split_limb v 104 24. split_limb v 128 32. split_limb v 160 24. split_limb v 184 24.
  split_limb v 208 24. split_limb v 232 24.
  assert (v / 2 ^ 256 = 0) as Ez by lia.
  split.
  - apply fe_load_fields. rewrite <- (Z.div_1_r v). change (v / 1) with (v / 2 ^ 0).
    rewrite E, E0, E1, E2, E3, E4, E5, E6, E7, E8, Ez. ring.
  - clear - R R0 R1 R2 R3 R4 R5 R6 R7 R8. cbn [fe_le]. repeat split; lia.
Qed.

(** ** Claims *)

(** [fe_tobytes] writes 32 bytes of the least nonnegative representative of the field
    element, without overflow, for all limbs within (1.65*2^26, 1.65*2^25), which is wider
    than the documented precondition (1.1*2^26, 1.1*2^25) and which the check at the end of
    [ge_fromfe_frombytes_vartime] needs: two representations of one element give the same
    bytes. *)
Theorem fe_tobytes_correct h :
  fe_165 h ->
  exists s, fe_tobytes h = Some s /\ bytes s /\ length s = 32%nat /\
    le_val s = fe_val h mod p25519 /\ le_val s < p25519.
Proof.
  intros H. apply returns_some.
  eapply returns_weaken; [apply fe_tobytes_spec, H | intros s (E & Hs & Hl)].
  repeat split; trivial. rewrite E. now apply Z.mod_pos_bound.
Qed.

(** Limbs at the edge of the documented precondition. *)
Definition fe_220_edge : fe :=
  Fe 73819750 (-36909875) 73819750 (-36909875) 73819750 (-36909875) 73819750 (-36909875) 73819750 (-36909875).

Lemma fe_220_edge_ok : fe_165 fe_220_edge.
Proof. cbn. lia. Qed.

Lemma fe_tobytes_correct_witness :
  exists s, fe_tobytes fe_220_edge = Some s /\ bytes s /\ length s = 32%nat /\
    le_val s = fe_val fe_220_edge mod p25519 /\ le_val s < p25519.
Proof. exact (fe_tobytes_correct fe_220_edge fe_220_edge_ok). Defined.

(** Round trip: reading back what [fe_tobytes] wrote is accepted as canonical and gives
    the same field element, within the bounds of a reduced element. *)
Theorem fe_bytes_roundtrip h :
  fe_165 h ->
  exists s r, fe_tobytes h = Some s /\ fe_frombytes s = Some (Some r) /\ fe_F r = fe_F h /\ fe_101 r.
Proof.
  intros H. pose proof (fe_tobytes_spec h H) as [s (Es & E & Hs & Hl)]%returns_some.
  pose proof (Z.mod_pos_bound (fe_val h) p25519 ltac:(reflexivity)) as M.
  pose proof (fe_frombytes_spec s Hs Hl) as [r (Er & Hr)]%returns_some.
  rewrite E, (Z.mod_small _ (2 ^ 255)) in Hr by (split; [apply M | eapply Z.lt_trans; [apply M | reflexivity]]).
  exists s. destruct r as [r|]; [|cbn beta iota zeta in Hr; lia].
  exists r. destruct Hr as (_ & EF & B). repeat split; trivial.
  rewrite EF. apply Zmod.of_Z_mod.
Qed.

Lemma fe_bytes_roundtrip_witness :
  exists s r, fe_tobytes fe_220_edge = Some s /\ fe_frombytes s = Some (Some r) /\
    fe_F r = fe_F fe_220_edge /\ fe_101 r.
Proof. exact (fe_bytes_roundtrip fe_220_edge fe_220_edge_ok). Defined.

(** Reading is decided by canonicity: bit 255 is ignored, a value of 2^255 - 19 or
    more is refused, and any smaller value is read as its class. *)
Theorem fe_frombytes_correct s :
  bytes s -> length s = 32%nat ->
  let v := le_val s mod 2 ^ 255 in
  (p25519 <= v -> fe_frombytes s = Some None) /\
  (v < p25519 -> exists h, fe_frombytes s = Some (Some h) /\ fe_F h = Zmod.of_Z p25519 v /\ fe_101 h).
Proof.
  intros Hs Hl v. pose proof (fe_frombytes_spec s Hs Hl) as [r (Er & Hr)]%returns_some.
  cbn beta zeta in Hr. fold v in Hr. rewrite Er. destruct r as [r|].
  - split; intros; [lia|]. exists r. tauto.
  - split; intros; [reflexivity | lia].
Qed.

Lemma fe_frombytes_correct_witness :
  fe_frombytes (repeat 255 32) = Some None /\
  exists h, fe_frombytes (repeat 0 32) = Some (Some h) /\ fe_F h = Zmod.of_Z p25519 0 /\ fe_101 h.
Proof.
  assert (forall b, is_byte b -> bytes (repeat b 32)) as R
    by (intros b Hb; apply Forall_forall; intros x Hx%repeat_spec; now subst).
  split.
  - apply (proj1 (fe_frombytes_correct (repeat 255 32) (R 255 ltac:(unfold is_byte; lia)) eq_refl)).
    vm_compute. discriminate.
  - apply (proj2 (fe_frombytes_correct (repeat 0 32) (R 0 ltac:(unfold is_byte; lia)) eq_refl)).
    reflexivity.
Defined.

(** [fe_isnonzero] and [fe_isnegative] are functions of the field element: they return
    whether it is nonzero and the parity of its least nonnegative representative, whatever
    the limbs within the precondition. *)
Theorem fe_predicates_correct f :
  fe_165 f ->
  fe_isnonzero f = Some (if Zmod.eqb (fe_F f) Zmod.zero then 0 else 1) /\
  fe_isnegative f = Some (Zmod.to_Z (fe_F f) mod 2).
Proof. intros H. split; [now apply fe_isnonzero_spec | now apply fe_isnegative_spec]. Qed.

Lemma fe_predicates_correct_witness :
  fe_isnonzero fe_220_edge = Some 1 /\ fe_isnegative fe_220_edge = Some (Zmod.to_Z (fe_F fe_220_edge) mod 2).
Proof. exact (fe_predicates_correct fe_220_edge fe_220_edge_ok). Defined.
