(* ===== verification/Primes.v ===== *)
(** * Primality of the field characteristic

    2^255 - 19 is prime, by a chain of Pocklington certificates. The modular powers are
    evaluated in machine integers (Bignums), so that checking the chain takes seconds. *)

From Stdlib Require Import ZArith Lia List Bool Zmod Znumtheory.
From Bignums Require Import BigN.
From S2P Require Import Prelude Fe.
Import ListNotations.

#[local] Open Scope Z_scope.

(** ** Modular exponentiation *)

Fixpoint powmod (m a : BigN.t) (e : positive) : BigN.t :=
  match e with
  | xH => BigN.modulo a m
  | xO e => BigN.modulo (BigN.square (powmod m a e)) m
  | xI e => BigN.modulo (BigN.mul (BigN.square (powmod m a e)) a) m
  end.

Lemma powmod_spec m a e :
  BigN.to_Z (powmod m a e) = BigN.to_Z a ^ Z.pos e mod BigN.to_Z m.
Proof.
  induction e as [e IH|e IH|]; cbn [powmod];
    rewrite BigN.spec_modulo, ?BigN.spec_mul, ?BigN.spec_square, ?IH.
  - rewrite Pos2Z.inj_xI, Z.add_comm, Z.pow_add_r, Z.pow_twice_r, Z.pow_1_r by lia.
    rewrite Z.mul_comm. rewrite <- Zmult_mod_idemp_r, <- Zmult_mod, Zmult_mod_idemp_r. reflexivity.
  - rewrite Pos2Z.inj_xO, Z.pow_twice_r. now rewrite <- Zmult_mod.
  - now rewrite Z.pow_1_r.
Qed.

Definition bigN (x : Z) : BigN.t := BigN.of_N (Z.to_N x).

Lemma bigN_spec x : 0 <= x -> BigN.to_Z (bigN x) = x.
Proof. intros. unfold bigN. now rewrite BigN.spec_of_N, Z2N.id. Qed.

(** [a ^ e mod m]. *)
Definition zpowmod (m a e : Z) : Z := BigN.to_Z (powmod (bigN m) (bigN a) (Z.to_pos e)).

Lemma zpowmod_spec m a e : 0 <= m -> 0 <= a -> 0 < e -> zpowmod m a e = a ^ e mod m.
Proof. intros. unfold zpowmod. now rewrite powmod_spec, !bigN_spec, Z2Pos.id. Qed.

(** ** Pocklington's criterion *)

Lemma prime_divisor n : 1 < n -> exists r, Z.prime r /\ (r | n).
Proof.
  intros Hn. assert (0 <= n) as H0 by lia. revert n H0 Hn.
  apply (Z_lt_induction (fun n => 1 < n -> exists r, Z.prime r /\ (r | n))).
  intros n IH Hn. destruct (prime_dec n) as [P|P].
  - exists n. split; [now apply prime_alt | apply Z.divide_refl].
  - destruct (not_prime_divide n Hn P) as (d & Hd & D).
    destruct (IH d ltac:(lia) ltac:(lia)) as (r & Hr & Dr).
    exists r. split; [exact Hr | now apply (Z.divide_trans _ d)].
Qed.

Lemma composite_small_divisor n :
  1 < n -> ~ Znumtheory.prime n -> exists r, Z.prime r /\ (r | n) /\ r * r <= n.
Proof.
  intros Hn P. destruct (not_prime_divide n Hn P) as (d & Hd & [e E]).
  assert (exists c, 1 < c /\ (c | n) /\ c * c <= n) as (c & Hc & D & L).
  { destruct (Z.le_ge_cases d e); [exists d | exists e]; repeat split; try nia;
      [exists e | exists d]; lia. }
  destruct (prime_divisor c Hc) as (r & Hr & Dr).
  exists r. split; [exact Hr|]. split; [now apply (Z.divide_trans _ c)|].
  apply Z.divide_pos_le in Dr; [|lia]. pose proof (Z.prime_ge_2 _ Hr). nia.
Qed.

(** A prime factor of [n] is 1 modulo [q]. *)
Lemma pocklington_factor n a q k r :
  Z.prime q -> n - 1 = q * k -> 0 <= k -> a ^ (n - 1) mod n = 1 ->
  Z.gcd (a ^ k - 1) n = 1 -> Z.prime r -> (r | n) -> (q | r - 1).
Proof.
  intros Hq E Hk Ha Hg Hr [c Hc]. pose proof (Z.prime_ge_2 _ Hr). pose proof (Z.prime_ge_2 _ Hq).
  destruct (Z.BoolSpec_divide q (r - 1)) as [D|D]; [exact D | exfalso].
  set (b := Zmod.pow (Zmod.of_Z r a) k).
  assert (Zmod.pow b q = Zmod.one) as Hbq.
  { unfold b. rewrite <- Zmod.pow_mul_r_nonneg, Z.mul_comm, <- E, <- Zmod.of_Z_pow by nia.
    rewrite (Z.div_mod (a ^ (n - 1)) n), Ha by nia. apply Zmod.unsigned_inj.
    rewrite Zmod.unsigned_of_Z, Hc. unfold Zmod.one. rewrite Zmod.unsigned_of_Z.
    rewrite <- (Z_mod_plus_full 1 (c * (a ^ (c * r - 1) / (c * r))) r). f_equal. ring. }
  assert (b <> Zmod.zero) as Hb0.
  { intros Hb. rewrite Hb, Zmod.pow_0_l in Hbq by lia.
    apply (f_equal Zmod.to_Z) in Hbq. rewrite Zmod.to_Z_0 in Hbq.
    unfold Zmod.one in Hbq. rewrite Zmod.unsigned_of_Z, Z.mod_small in Hbq by lia. discriminate. }
  assert (Z.gcd (Zmod.to_Z b) r = 1) as Hgb.
  { rewrite Z.gcd_comm. apply Z.coprime_prime_l; [exact Hr|]. intros Dv. apply Hb0.
    apply Zmod.unsigned_inj. rewrite Zmod.to_Z_0. apply Z.mod_divide in Dv; [|lia].
    now rewrite Zmod.mod_unsigned in Dv. }
  assert (Zmod.pow b (r - 1) = Zmod.one) as Hbr.
  { replace (r - 1) with (Z.pred r) by lia. now apply Zmod.fermat_nz. }
  assert (b = Zmod.one) as Hb1.
  { apply Z.coprime_prime_l in D; [|exact Hq]. apply Z.Bezout_coprime in D as (u & v & B).
    rewrite <- (Zmod.pow_1_r b), <- B, Zmod.pow_add_r_coprime by exact Hgb.
    rewrite (Z.mul_comm u), (Z.mul_comm v), !Zmod.pow_mul_r_coprime by exact Hgb.
    now rewrite Hbq, Hbr, !Zmod.pow_1_l, Zmod.mul_1_l. }
  assert ((r | a ^ k - 1)) as Dr.
  { unfold b in Hb1. rewrite <- Zmod.of_Z_pow in Hb1 by lia.
    apply (f_equal Zmod.to_Z) in Hb1. unfold Zmod.one in Hb1. rewrite !Zmod.unsigned_of_Z in Hb1.
    apply Z.mod_divide; [lia|]. rewrite Zminus_mod, Hb1, <- Zminus_mod. apply Z.mod_0_l. lia. }
  assert ((r | 1)) as D1 by (rewrite <- Hg; apply Z.gcd_greatest; [exact Dr | now exists c]).
  apply Z.divide_pos_le in D1; lia.
Qed.

Lemma coprime_product_divides q F x :
  Z.prime q -> ~ (q | F) -> (q | x) -> (F | x) -> (q * F | x).
Proof.
  intros Hq Hn [u ->] D. apply Z.coprime_prime_l in Hn; [|exact Hq].
  rewrite (Z.mul_comm u). apply Z.mul_divide_mono_l. apply Z.gauss with q.
  - now rewrite Z.mul_comm.
  - unfold Z.coprime in Hn. now rewrite Z.gcd_comm.
Qed.

(** A certificate for [n] in base [a]: distinct primes [qs] that divide [n - 1], with product
    above the square root of [n]. *)
Fixpoint pock_factors (n a : Z) (qs : list Z) : bool :=
  match qs with
  | [] => true
  | q :: qs =>
      let k := (n - 1) / q in
      (n - 1 =? q * k) && (0 <? k) && (Z.gcd (zpowmod n a k - 1) n =? 1)
      && negb (fold_right Z.mul 1 qs mod q =? 0) && pock_factors n a qs
  end.

Definition pock (n a : Z) (qs : list Z) : bool :=
  let F := fold_right Z.mul 1 qs in
  (1 <? n) && (0 <=? a) && (zpowmod n a (n - 1) =? 1) && (0 <? F) && (n <? F * F) && pock_factors n a qs.

Lemma gcd_sub_mod x n : Z.gcd (x mod n - 1) n = Z.gcd (x - 1) n.
Proof.
  destruct (Z.eq_dec n 0) as [->|Hn]; [now rewrite Z.mod_0_r|].
  rewrite (Z.div_mod x n) at 2 by exact Hn.
  replace (n * (x / n) + x mod n - 1) with (x mod n - 1 + x / n * n) by ring.
  now rewrite Z.gcd_comm, <- (Z.gcd_add_mult_diag_r n (x mod n - 1) (x / n)), Z.gcd_comm.
Qed.

Lemma pock_factors_divide n a qs r :
  1 < n -> 0 <= a -> a ^ (n - 1) mod n = 1 -> Forall Z.prime qs -> pock_factors n a qs = true ->
  Z.prime r -> (r | n) -> (fold_right Z.mul 1 qs | r - 1).
Proof.
  intros Hn Ha He Hq. induction Hq as [|q qs Hq _ IH]; intros Hp Hr Hd; [apply Z.divide_1_l|].
  cbn [pock_factors] in Hp. rewrite !andb_true_iff, negb_true_iff in Hp.
  destruct Hp as [[[[E K] G] D] Hp]. apply Z.eqb_eq in E, G. apply Z.ltb_lt in K. apply Z.eqb_neq in D.
  rewrite zpowmod_spec, gcd_sub_mod in G by lia.
  cbn [fold_right]. apply coprime_product_divides; auto.
  - pose proof (Z.prime_ge_2 _ Hq). intros Dv. apply D, Z.mod_divide; [lia | exact Dv].
  - eapply pocklington_factor; eauto. lia.
Qed.

Lemma pocklington n a qs : Forall Z.prime qs -> pock n a qs = true -> Z.prime n.
Proof.
  intros Hq Hp. unfold pock in Hp. rewrite !andb_true_iff, !Z.ltb_lt, Z.leb_le, Z.eqb_eq in Hp.
  destruct Hp as [[[[[Hn Ha] He] HF] HL] Hf]. rewrite zpowmod_spec in He by lia.
  apply prime_alt. destruct (prime_dec n) as [P|P]; [exact P | exfalso].
  destruct (composite_small_divisor n Hn P) as (r & Hr & Dr & Lr).
  pose proof (pock_factors_divide n a qs r Hn Ha He Hq Hf Hr Dr) as D.
  pose proof (Z.prime_ge_2 _ Hr). apply Z.divide_pos_le in D; [|lia]. nia.
Qed.

(** ** Small primes by trial division *)

Fixpoint no_divisor (fuel : nat) (n d : Z) : bool :=
  match fuel with
  | O => false
  | S fuel => (n <? d * d) || (negb (n mod d =? 0) && no_divisor fuel n (d + 1))
  end.

Lemma no_divisor_spec fuel n d :
  2 <= d -> no_divisor fuel n d = true ->
  exists e, n < e * e /\ d <= e /\ forall x, d <= x < e -> ~ (x | n).
Proof.
  revert d. induction fuel as [|fuel IH]; intros d Hd H; [discriminate|].
  cbn [no_divisor] in H. rewrite orb_true_iff, andb_true_iff, negb_true_iff, Z.ltb_lt, Z.eqb_neq in H.
  destruct H as [H | [Hm H]]; [exists d; repeat split; lia|].
  destruct (IH (d + 1) ltac:(lia) H) as (e & He & Hde & Hx).
  exists e. repeat split; [exact He | lia |]. intros x Hx' D.
  destruct (Z.eq_dec x d) as [->|]; [apply Hm, Z.mod_divide; [lia | exact D] | apply (Hx x); [lia | exact D]].
Qed.

Lemma trial_division n : 1 < n -> no_divisor (Z.to_nat (Z.sqrt n + 2)) n 2 = true -> Z.prime n.
Proof.
  intros Hn H. apply prime_alt. destruct (prime_dec n) as [P|P]; [exact P | exfalso].
  apply no_divisor_spec in H as (e & He & Hde & Hx); [|lia].
  destruct (composite_small_divisor n Hn P) as (r & Hr & Dr & Lr).
  pose proof (Z.prime_ge_2 _ Hr). apply (Hx r); [nia | exact Dr].
Qed.

Ltac prime_small := apply trial_division; [reflexivity | vm_compute; reflexivity].
Ltac prime_pock a qs :=
  apply (pocklington _ a qs);
  [repeat (apply Forall_cons; [first [assumption | prime_small] |]); apply Forall_nil
  | vm_compute; reflexivity].

(** ** The field is a field *)

Lemma p25519_prime : Z.prime p25519.
Proof.
  assert (Z.prime 1919519569386763) by prime_pock 2 [8574133; 127].
  assert (Z.prime 2773320623) by prime_pock 2 [569003].
  assert (Z.prime 72106336199) by prime_pock 2 [2773320623].
  assert (Z.prime 75445702479781427272750846543864801) by prime_pock 2 [1919519569386763; 72106336199].
  assert (Z.prime 31757755568855353) by prime_pock 2 [430751; 4153].
  assert (Z.prime 74058212732561358302231226437062788676166966415465897661863160754340907)
    by prime_pock 2 [75445702479781427272750846543864801; 31757755568855353].
  prime_pock 2 [74058212732561358302231226437062788676166966415465897661863160754340907].
Qed.
