(* ===== verification/FePow.v ===== *)
(** * Inversion and square-root powers

    Models [fe_invert] and [fe_divpowm1] of crypto-ops.c, statement by statement. Both are
    addition chains of [fe_sq] and [fe_mul]; the theorems give the exponent each computes,
    and, since 2^255 - 19 is prime, that [fe_invert] is inversion in the field. *)

From Stdlib Require Import ZArith Lia List Bool Zmod.
From S2P Require Import Prelude Fe FeMul Primes.
Import ListNotations.

#[local] Open Scope Z_scope.

(** ** Functions *)

Definition fe_invert (z : fe) : option fe :=
  let! t0 := fe_sq z in
  let! t1 := fe_sq t0 in
  let! t1 := fe_sq t1 in
  let! t1 := fe_mul z t1 in
  let! t0 := fe_mul t0 t1 in
  let! t2 := fe_sq t0 in
  let! t1 := fe_mul t1 t2 in
  let! t2 := fe_sq t1 in
  let! t2 := repeatM 4 fe_sq t2 in
  let! t1 := fe_mul t2 t1 in
  let! t2 := fe_sq t1 in
  let! t2 := repeatM 9 fe_sq t2 in
  let! t2 := fe_mul t2 t1 in
  let! t3 := fe_sq t2 in
  let! t3 := repeatM 19 fe_sq t3 in
  let! t2 := fe_mul t3 t2 in
  let! t2 := fe_sq t2 in
  let! t2 := repeatM 9 fe_sq t2 in
  let! t1 := fe_mul t2 t1 in
  let! t2 := fe_sq t1 in
  let! t2 := repeatM 49 fe_sq t2 in
  let! t2 := fe_mul t2 t1 in
  let! t3 := fe_sq t2 in
  let! t3 := repeatM 99 fe_sq t3 in
  let! t2 := fe_mul t3 t2 in
  let! t2 := fe_sq t2 in
  let! t2 := repeatM 49 fe_sq t2 in
  let! t1 := fe_mul t2 t1 in
  let! t1 := fe_sq t1 in
  let! t1 := repeatM 4 fe_sq t1 in
  fe_mul t1 t0.

(** The section "From fe_pow22523.c" of [fe_divpowm1]. *)
Definition fe_pow22523 (uv7 : fe) : option fe :=
  let! t0 := fe_sq uv7 in
  let! t1 := fe_sq t0 in
  let! t1 := fe_sq t1 in
  let! t1 := fe_mul uv7 t1 in
  let! t0 := fe_mul t0 t1 in
  let! t0 := fe_sq t0 in
  let! t0 := fe_mul t1 t0 in
  let! t1 := fe_sq t0 in
  let! t1 := repeatM 4 fe_sq t1 in
  let! t0 := fe_mul t1 t0 in
  let! t1 := fe_sq t0 in
  let! t1 := repeatM 9 fe_sq t1 in
  let! t1 := fe_mul t1 t0 in
  let! t2 := fe_sq t1 in
  let! t2 := repeatM 19 fe_sq t2 in
  let! t1 := fe_mul t2 t1 in
  let! t1 := repeatM 10 fe_sq t1 in
  let! t0 := fe_mul t1 t0 in
  let! t1 := fe_sq t0 in
  let! t1 := repeatM 49 fe_sq t1 in
  let! t1 := fe_mul t1 t0 in
  let! t2 := fe_sq t1 in
  let! t2 := repeatM 99 fe_sq t2 in
  let! t1 := fe_mul t2 t1 in
  let! t1 := repeatM 50 fe_sq t1 in
  let! t0 := fe_mul t1 t0 in
  let! t0 := fe_sq t0 in
  let! t0 := fe_sq t0 in
  fe_mul t0 uv7.

Definition fe_divpowm1 (u v : fe) : option fe :=
  let! v3 := fe_sq v in
  let! v3 := fe_mul v3 v in
  let! uv7 := fe_sq v3 in
  let! uv7 := fe_mul uv7 v in
  let! uv7 := fe_mul uv7 u in
  let! t0 := fe_pow22523 uv7 in
  let! t0 := fe_mul t0 v3 in
  fe_mul t0 u.

(** ** Addition chains *)

(** [f] is the [e]-th power of [x], in the range of the multiplication. *)
Definition pw (x : F) (e : Z) (f : fe) : Prop := fe_F f = Zmod.pow x e /\ fe_165 f.

Lemma fe_101_165 f : fe_101 f -> fe_165 f.
Proof. intros H. eapply fe_le_weaken; [exact H | reflexivity]. Qed.

Section Chain.
Variable x : F.

Lemma fe_mul_pow a b e f g :
  pw x a f -> pw x b g -> (0 <=? a) && (0 <=? b) && (e =? a + b) = true ->
  returns (fe_mul f g) (fun h => fe_F h = Zmod.pow x e /\ fe_101 h).
Proof.
  intros [Ef Bf] [Eg Bg] [[Ha Hb]%andb_prop ->%Z.eqb_eq]%andb_prop. apply Z.leb_le in Ha, Hb.
  eapply returns_weaken; [now apply fe_mul_spec | intros h [E B]].
  split; [|exact B]. now rewrite E, Ef, Eg, Zmod.pow_add_r_nonneg.
Qed.

Lemma pw_mul a b f g :
  (0 <=? a) && (0 <=? b) = true -> pw x a f -> pw x b g -> returns (fe_mul f g) (pw x (a + b)).
Proof.
  intros H Hf Hg. eapply returns_weaken; [apply (fe_mul_pow a b (a + b)); trivial; now rewrite H, Z.eqb_refl | intros h [E B]].
  split; [exact E | now apply fe_101_165].
Qed.

Lemma pw_sq a f : (0 <=? a) = true -> pw x a f -> returns (fe_sq f) (pw x (a + a)).
Proof.
  intros H [Ef Bf]. apply Z.leb_le in H.
  eapply returns_weaken; [now apply fe_sq_spec | intros h [E B]].
  split; [|now apply fe_101_165]. now rewrite E, Ef, Zmod.pow_add_r_nonneg.
Qed.

Lemma pw_repeat n a f :
  (0 <=? a) = true -> pw x a f -> returns (repeatM n fe_sq f) (pw x (a * 2 ^ Z.of_nat n)).
Proof.
  intros H Hf. apply (repeatM_inv (fun i => pw x (a * 2 ^ Z.of_nat i))).
  - now rewrite Z.mul_1_r.
  - intros i y Hy. apply Z.leb_le in H.
    replace (a * 2 ^ Z.of_nat (S i)) with (a * 2 ^ Z.of_nat i + a * 2 ^ Z.of_nat i)
      by (rewrite Nat2Z.inj_succ, Z.pow_succ_r; lia).
    apply pw_sq; [apply Z.leb_le; lia | exact Hy].
Qed.
End Chain.

(** One statement of a chain: the exponent of the result is computed. *)
Ltac chain_step x :=
  first
  [ eapply returns_bind; [eapply (pw_mul x); [shelve | eassumption | eassumption] |]
  | eapply returns_bind; [eapply (pw_sq x); [shelve | eassumption] |]
  | eapply returns_bind; [eapply (pw_repeat x); [shelve | eassumption] |] ];
  let f := fresh "f" in let H := fresh "H" in
  intros f H;
  match type of H with
  | pw _ ?e f => let e' := eval vm_compute in e in change (pw x e' f) in H
  end.

Ltac chain x := unshelve (repeat chain_step x); [reflexivity.. |].

(** The exponent of [fe_invert] is p - 2. *)
Lemma fe_invert_pow z :
  fe_165 z ->
  returns (fe_invert z) (fun r => fe_F r = Zmod.pow (fe_F z) (p25519 - 2) /\ fe_101 r).
Proof.
  intros Hz. assert (pw (fe_F z) 1 z) by (split; [now rewrite Zmod.pow_1_r | exact Hz]).
  unfold fe_invert. chain (fe_F z).
  eapply (fe_mul_pow (fe_F z)); [eassumption | eassumption | reflexivity].
Qed.

(** The exponent of the power in [fe_divpowm1] is (p - 5) / 8. *)
Lemma fe_pow22523_pow z :
  fe_165 z ->
  returns (fe_pow22523 z) (fun r => fe_F r = Zmod.pow (fe_F z) ((p25519 - 5) / 8) /\ fe_101 r).
Proof.
  intros Hz. assert (pw (fe_F z) 1 z) by (split; [now rewrite Zmod.pow_1_r | exact Hz]).
  unfold fe_pow22523. chain (fe_F z).
  eapply (fe_mul_pow (fe_F z)); [eassumption | eassumption | reflexivity].
Qed.

Lemma fe_invert_spec z :
  fe_165 z -> returns (fe_invert z) (fun r => fe_F r = Zmod.inv (fe_F z) /\ fe_101 r).
Proof.
  intros Hz. eapply returns_weaken; [apply fe_invert_pow, Hz | intros r [E B]].
  split; [|exact B]. rewrite E. destruct (Zmod.eqb_spec (fe_F z) Zmod.zero) as [E0|Hn].
  - rewrite E0, Zmod.pow_0_l by (unfold p25519; lia). symmetry. apply Zmod.inv_0.
  - apply Zmod.fermat_inv; [exact Hn | apply p25519_prime].
Qed.

Lemma fe_divpowm1_spec u v :
  fe_165 u -> fe_165 v ->
  returns (fe_divpowm1 u v) (fun r =>
    fe_F r = Zmod.mul (fe_F u) (Zmod.mul (Zmod.pow (fe_F v) 3)
      (Zmod.pow (Zmod.mul (fe_F u) (Zmod.pow (fe_F v) 7)) ((p25519 - 5) / 8))) /\ fe_101 r).
Proof.
  intros Hu Hv. assert (pw (fe_F v) 1 v) by (split; [now rewrite Zmod.pow_1_r | exact Hv]).
  unfold fe_divpowm1. do 4 chain_step (fe_F v).
  destruct H1 as [E3 B3], H3 as [E7 B7].
  eapply returns_bind; [now apply fe_mul_spec | cbv beta; intros uv7 [E B]].
  eapply returns_bind; [now apply fe_pow22523_pow, fe_101_165 | cbv beta; intros t0 [E0 B0]].
  eapply returns_bind; [apply fe_mul_spec; [apply fe_101_165, B0 | exact B3] | cbv beta; intros t1 [E1 B1]].
  eapply returns_weaken; [apply fe_mul_spec; [apply fe_101_165, B1 | exact Hu] | cbv beta; intros r [Er Br]].
  split; [|exact Br]. rewrite Er, E1, E0, E, E3, E7.
  rewrite (Zmod.mul_comm (Zmod.pow (fe_F v) 7)). generalize ((p25519 - 5) / 8). intros.
  rewrite (Zmod.mul_comm _ (fe_F u)), (Zmod.mul_comm _ (Zmod.pow (fe_F v) 3)). reflexivity.
  Unshelve. all: reflexivity.
Qed.

(** ** Claims *)

(** [fe_invert] computes the inverse in the field of 2^255 - 19 elements for every input
    in the range of [fe_mul] (zero is sent to zero), with no overflow in any of its 254
    squarings and 11 products. *)
Theorem fe_invert_correct z :
  fe_165 z ->
  exists r, fe_invert z = Some r /\ fe_101 r /\ fe_F r = Zmod.inv (fe_F z) /\
    (fe_F z <> Zmod.zero -> Zmod.mul (fe_F z) (fe_F r) = Zmod.one).
Proof.
  intros Hz. apply returns_some.
  eapply returns_weaken; [apply fe_invert_spec, Hz | intros r [E B]].
  repeat split; trivial. intros Hn. rewrite E. apply Zmod.mul_inv_same_r_prime; [|exact Hn].
  apply p25519_prime.
Qed.

Lemma fe_invert_correct_witness :
  exists r, fe_invert fe_1 = Some r /\ fe_101 r /\ fe_F r = Zmod.inv (fe_F fe_1) /\
    (fe_F fe_1 <> Zmod.zero -> Zmod.mul (fe_F fe_1) (fe_F r) = Zmod.one).
Proof. apply (fe_invert_correct fe_1). cbn. lia. Defined.
