(* ===== verification/ScLimbs.v ===== *)
(** * Scalars modulo the group order: limbs, loads and stores

    The [sc_] functions of crypto-ops.c split a 32-byte (or 64-byte) integer into
    signed 64-bit limbs of 21 bits and write twelve limbs back as 32 bytes. This
    file models those loads and stores and shows that they are exact. *)

From Stdlib Require Import ZArith Lia List Bool.
From S2P Require Import Prelude Bytes.
Import ListNotations.

#[local] Open Scope Z_scope.

(** ** Limbs *)

Variant limbs12 := L12 (s0 s1 s2 s3 s4 s5 s6 s7 s8 s9 s10 s11 : Z).

Variant limbs18 := L18 (s0 s1 s2 s3 s4 s5 s6 s7 s8 s9 s10 s11
  s12 s13 s14 s15 s16 s17 : Z).

Variant limbs24 := L24 (s0 s1 s2 s3 s4 s5 s6 s7 s8 s9 s10 s11
  s12 s13 s14 s15 s16 s17 s18 s19 s20 s21 s22 s23 : Z).

Definition val12 (s : limbs12) : Z :=
  let '(L12 s0 s1 s2 s3 s4 s5 s6 s7 s8 s9 s10 s11) := s in
  s0 + 2 ^ 21 * s1 + 2 ^ 42 * s2 + 2 ^ 63 * s3 + 2 ^ 84 * s4 + 2 ^ 105 * s5 + 2 ^ 126 * s6 + 2
  ^ 147 * s7 + 2 ^ 168 * s8 + 2 ^ 189 * s9 + 2 ^ 210 * s10 + 2 ^ 231 * s11.

Definition val18 (s : limbs18) : Z :=
  let '(L18 s0 s1 s2 s3 s4 s5 s6 s7 s8 s9 s10 s11
            s12 s13 s14 s15 s16 s17) := s in
  s0 + 2 ^ 21 * s1 + 2 ^ 42 * s2 + 2 ^ 63 * s3 + 2 ^ 84 * s4 + 2 ^ 105 * s5 + 2 ^ 126 * s6 + 2
  ^ 147 * s7 + 2 ^ 168 * s8 + 2 ^ 189 * s9 + 2 ^ 210 * s10 + 2 ^ 231 * s11 + 2 ^ 252 * s12 + 2
  ^ 273 * s13 + 2 ^ 294 * s14 + 2 ^ 315 * s15 + 2 ^ 336 * s16 + 2 ^ 357 * s17.

Definition val24 (s : limbs24) : Z :=
  let '(L24 s0 s1 s2 s3 s4 s5 s6 s7 s8 s9 s10 s11
            s12 s13 s14 s15 s16 s17 s18 s19 s20 s21 s22 s23) := s in
  s0 + 2 ^ 21 * s1 + 2 ^ 42 * s2 + 2 ^ 63 * s3 + 2 ^ 84 * s4 + 2 ^ 105 * s5 + 2 ^ 126 * s6 + 2
  ^ 147 * s7 + 2 ^ 168 * s8 + 2 ^ 189 * s9 + 2 ^ 210 * s10 + 2 ^ 231 * s11 + 2 ^ 252 * s12 + 2
  ^ 273 * s13 + 2 ^ 294 * s14 + 2 ^ 315 * s15 + 2 ^ 336 * s16 + 2 ^ 357 * s17 + 2 ^ 378 * s18 +
  2 ^ 399 * s19 + 2 ^ 420 * s20 + 2 ^ 441 * s21 + 2 ^ 462 * s22 + 2 ^ 483 * s23.

(** ** Loads and stores *)

(** Twelve 21-bit limbs of a 32-byte scalar; the last one takes the rest. *)
Definition sc_load (a : list Z) : option limbs12 :=
  let! x := load_3 a in let a0 := to_i64 (Z.land 2097151 x) in
  let! x := load_4 (skipn 2 a) in let a1 := to_i64 (Z.land 2097151 (Z.shiftr x 5)) in
  let! x := load_3 (skipn 5 a) in let a2 := to_i64 (Z.land 2097151 (Z.shiftr x 2)) in
  let! x := load_4 (skipn 7 a) in let a3 := to_i64 (Z.land 2097151 (Z.shiftr x 7)) in
  let! x := load_4 (skipn 10 a) in let a4 := to_i64 (Z.land 2097151 (Z.shiftr x 4)) in
  let! x := load_3 (skipn 13 a) in let a5 := to_i64 (Z.land 2097151 (Z.shiftr x 1)) in
  let! x := load_4 (skipn 15 a) in let a6 := to_i64 (Z.land 2097151 (Z.shiftr x 6)) in
  let! x := load_3 (skipn 18 a) in let a7 := to_i64 (Z.land 2097151 (Z.shiftr x 3)) in
  let! x := load_3 (skipn 21 a) in let a8 := to_i64 (Z.land 2097151 x) in
  let! x := load_4 (skipn 23 a) in let a9 := to_i64 (Z.land 2097151 (Z.shiftr x 5)) in
  let! x := load_3 (skipn 26 a) in let a10 := to_i64 (Z.land 2097151 (Z.shiftr x 2)) in
  let! x := load_4 (skipn 28 a) in let a11 := to_i64 (Z.shiftr x 7) in
  Some (L12 a0 a1 a2 a3 a4 a5 a6 a7 a8 a9 a10 a11).

(** The 24 limbs of the 64-byte argument of [sc_reduce]. *)
Definition sc_load24 (s : list Z) : option limbs24 :=
  let! x := load_3 s in let s0 := to_i64 (Z.land 2097151 x) in
  let! x := load_4 (skipn 2 s) in let s1 := to_i64 (Z.land 2097151 (Z.shiftr x 5)) in
  let! x := load_3 (skipn 5 s) in let s2 := to_i64 (Z.land 2097151 (Z.shiftr x 2)) in
  let! x := load_4 (skipn 7 s) in let s3 := to_i64 (Z.land 2097151 (Z.shiftr x 7)) in
  let! x := load_4 (skipn 10 s) in let s4 := to_i64 (Z.land 2097151 (Z.shiftr x 4)) in
  let! x := load_3 (skipn 13 s) in let s5 := to_i64 (Z.land 2097151 (Z.shiftr x 1)) in
  let! x := load_4 (skipn 15 s) in let s6 := to_i64 (Z.land 2097151 (Z.shiftr x 6)) in
  let! x := load_3 (skipn 18 s) in let s7 := to_i64 (Z.land 2097151 (Z.shiftr x 3)) in
  let! x := load_3 (skipn 21 s) in let s8 := to_i64 (Z.land 2097151 x) in
  let! x := load_4 (skipn 23 s) in let s9 := to_i64 (Z.land 2097151 (Z.shiftr x 5)) in
  let! x := load_3 (skipn 26 s) in let s10 := to_i64 (Z.land 2097151 (Z.shiftr x 2)) in
  let! x := load_4 (skipn 28 s) in let s11 := to_i64 (Z.land 2097151 (Z.shiftr x 7)) in
  let! x := load_4 (skipn 31 s) in let s12 := to_i64 (Z.land 2097151 (Z.shiftr x 4)) in
  let! x := load_3 (skipn 34 s) in let s13 := to_i64 (Z.land 2097151 (Z.shiftr x 1)) in
  let! x := load_4 (skipn 36 s) in let s14 := to_i64 (Z.land 2097151 (Z.shiftr x 6)) in
  let! x := load_3 (skipn 39 s) in let s15 := to_i64 (Z.land 2097151 (Z.shiftr x 3)) in
  let! x := load_3 (skipn 42 s) in let s16 := to_i64 (Z.land 2097151 x) in
  let! x := load_4 (skipn 44 s) in let s17 := to_i64 (Z.land 2097151 (Z.shiftr x 5)) in
  let! x := load_3 (skipn 47 s) in let s18 := to_i64 (Z.land 2097151 (Z.shiftr x 2)) in
  let! x := load_4 (skipn 49 s) in let s19 := to_i64 (Z.land 2097151 (Z.shiftr x 7)) in
  let! x := load_4 (skipn 52 s) in let s20 := to_i64 (Z.land 2097151 (Z.shiftr x 4)) in
  let! x := load_3 (skipn 55 s) in let s21 := to_i64 (Z.land 2097151 (Z.shiftr x 1)) in
  let! x := load_4 (skipn 57 s) in let s22 := to_i64 (Z.land 2097151 (Z.shiftr x 6)) in
  let! x := load_4 (skipn 60 s) in let s23 := to_i64 (Z.shiftr x 3) in
  Some (L24 s0 s1 s2 s3 s4 s5 s6 s7 s8 s9 s10 s11
            s12 s13 s14 s15 s16 s17 s18 s19 s20 s21 s22 s23).

(** The 32 stores at the end of every [sc_] function. *)
Definition sc_store (s : limbs12) : list Z :=
  let '(L12 s0 s1 s2 s3 s4 s5 s6 s7 s8 s9 s10 s11) := s in
  [u8 (Z.shiftr s0 0);
   u8 (Z.shiftr s0 8);
   u8 (Z.lor (Z.shiftr s0 16) (to_i64 (Z.shiftl s1 5)));
   u8 (Z.shiftr s1 3);
   u8 (Z.shiftr s1 11);
   u8 (Z.lor (Z.shiftr s1 19) (to_i64 (Z.shiftl s2 2)));
   u8 (Z.shiftr s2 6);
   u8 (Z.lor (Z.shiftr s2 14) (to_i64 (Z.shiftl s3 7)));
   u8 (Z.shiftr s3 1);
   u8 (Z.shiftr s3 9);
   u8 (Z.lor (Z.shiftr s3 17) (to_i64 (Z.shiftl s4 4)));
   u8 (Z.shiftr s4 4);
   u8 (Z.shiftr s4 12);
   u8 (Z.lor (Z.shiftr s4 20) (to_i64 (Z.shiftl s5 1)));
   u8 (Z.shiftr s5 7);
   u8 (Z.lor (Z.shiftr s5 15) (to_i64 (Z.shiftl s6 6)));
   u8 (Z.shiftr s6 2);
   u8 (Z.shiftr s6 10);
   u8 (Z.lor (Z.shiftr s6 18) (to_i64 (Z.shiftl s7 3)));
   u8 (Z.shiftr s7 5);
   u8 (Z.shiftr s7 13);
   u8 (Z.shiftr s8 0);
   u8 (Z.shiftr s8 8);
   u8 (Z.lor (Z.shiftr s8 16) (to_i64 (Z.shiftl s9 5)));
   u8 (Z.shiftr s9 3);
   u8 (Z.shiftr s9 11);
   u8 (Z.lor (Z.shiftr s9 19) (to_i64 (Z.shiftl s10 2)));
   u8 (Z.shiftr s10 6);
   u8 (Z.lor (Z.shiftr s10 14) (to_i64 (Z.shiftl s11 7)));
   u8 (Z.shiftr s11 1);
   u8 (Z.shiftr s11 9);
   u8 (Z.shiftr s11 17)].

(** ** Bounds on limbs *)

Definition le12 (B : Z) (s : limbs12) : Prop :=
  let '(L12 s0 s1 s2 s3 s4 s5 s6 s7 s8 s9 s10 s11) := s in
  Z.abs s0 <= B /\ Z.abs s1 <= B /\ Z.abs s2 <= B /\ Z.abs s3 <= B /\ Z.abs s4 <= B /\
  Z.abs s5 <= B /\ Z.abs s6 <= B /\ Z.abs s7 <= B /\ Z.abs s8 <= B /\ Z.abs s9 <= B /\
  Z.abs s10 <= B /\ Z.abs s11 <= B.

Definition le24 (B : Z) (s : limbs24) : Prop :=
  let '(L24 s0 s1 s2 s3 s4 s5 s6 s7 s8 s9 s10 s11
            s12 s13 s14 s15 s16 s17 s18 s19 s20 s21 s22 s23) := s in
  le12 B (L12 s0 s1 s2 s3 s4 s5 s6 s7 s8 s9 s10 s11) /\
  le12 B (L12 s12 s13 s14 s15 s16 s17 s18 s19 s20 s21 s22 s23).

(** Limbs ready to be stored. *)
Definition digits12 (s : limbs12) : Prop :=
  let '(L12 s0 s1 s2 s3 s4 s5 s6 s7 s8 s9 s10 s11) := s in
  let dg x := 0 <= x < 2 ^ 21 in
  dg s0 /\ dg s1 /\ dg s2 /\ dg s3 /\ dg s4 /\ dg s5 /\ dg s6 /\ dg s7 /\ dg s8 /\ dg s9 /\
  dg s10 /\ 0 <= s11 < 2 ^ 25.

(** ** Loads are exact *)

(** One limb: [2097151 & (load_n(s + k) >> j)]. *)
Lemma limb_3 v k j :
  0 <= j <= 3 ->
  to_i64 (Z.land 2097151 (Z.shiftr ((v / 256 ^ Z.of_nat k) mod 2 ^ 24) j))
  = (v / 2 ^ (8 * Z.of_nat k + j)) mod 2 ^ 21.
Proof.
  intros. change 2097151 with (Z.ones 21). change 256 with (2 ^ 8).
  rewrite Z.land_comm, Z.land_ones, Z.shiftr_div_pow2, <- Z.pow_mul_r by lia.
  rewrite slice_slice by lia. apply to_i64_mod. lia.
Qed.

Lemma limb_4 v k j :
  0 <= j <= 11 ->
  to_i64 (Z.land 2097151 (Z.shiftr ((v / 256 ^ Z.of_nat k) mod 2 ^ 32) j))
  = (v / 2 ^ (8 * Z.of_nat k + j)) mod 2 ^ 21.
Proof.
  intros. change 2097151 with (Z.ones 21). change 256 with (2 ^ 8).
  rewrite Z.land_comm, Z.land_ones, Z.shiftr_div_pow2, <- Z.pow_mul_r by lia.
  rewrite slice_slice by lia. apply to_i64_mod. lia.
Qed.

Lemma limb_3_0 v k :
  to_i64 (Z.land 2097151 ((v / 256 ^ Z.of_nat k) mod 2 ^ 24)) = (v / 2 ^ (8 * Z.of_nat k + 0)) mod 2 ^ 21.
Proof. now rewrite <- limb_3, Z.shiftr_0_r by lia. Qed.

(** The last limb is not masked: the load ends the array. *)
Lemma limb_top s k j :
  bytes s -> length s = (k + 4)%nat -> 0 <= j ->
  to_i64 (Z.shiftr ((le_val s / 256 ^ Z.of_nat k) mod 2 ^ 32) j) = le_val s / 2 ^ (8 * Z.of_nat k + j).
Proof.
  intros Hs Hl Hj. pose proof (le_val_bound s Hs) as Hb. rewrite Hl in Hb.
  change 256 with (2 ^ 8) in *. rewrite <- Z.pow_mul_r in * by lia.
  set (v := le_val s) in *. clearbody v.
  pose proof (Z.pow_pos_nonneg 2 (8 * Z.of_nat k) ltac:(lia) ltac:(lia)).
  pose proof (Z.pow_pos_nonneg 2 j ltac:(lia) ltac:(lia)).
  assert (0 <= v / 2 ^ (8 * Z.of_nat k) < 2 ^ 32) as Hq.
  { split; [apply Z.div_pos; lia | apply Z.div_lt_upper_bound; [lia|]].
    rewrite <- Z.pow_add_r by lia. replace (_ + 32) with (8 * Z.of_nat (k + 4)) by lia. lia. }
  rewrite (Z.mod_small _ (2 ^ 32)), Z.shiftr_div_pow2 by lia.
  rewrite (Z.pow_add_r 2 _ j), <- Z.div_div by lia.
  apply to_i64_small. split; [apply Z.div_pos; lia|].
  eapply Z.le_lt_trans; [apply Z.div_le_upper_bound with (q := v / 2 ^ (8 * Z.of_nat k)); nia | lia].
Qed.

(** Executes the loads and names the integer they read. *)
Ltac load_exec s :=
  change (load_3 s) with (load_3 (skipn 0 s));
  rewrite ?load_3_spec, ?load_4_spec by (assumption || lia); cbn [bind returns];
  rewrite ?limb_3, ?limb_4, ?limb_3_0, ?limb_top by (assumption || lia).

Lemma sc_load_spec a :
  bytes a -> length a = 32%nat ->
  returns (sc_load a) (fun l => val12 l = le_val a /\ digits12 l).
Proof.
  intros Ha Hl. unfold sc_load. load_exec a.
  pose proof (le_val_bound a Ha) as Hb. rewrite Hl in Hb. clear Ha Hl.
  generalize dependent (le_val a). intros v Hv. norm_index.
  pose proof (div_pow_range v 231 25 ltac:(lia) ltac:(lia) Hv).
  split_limb v 0 21. split_limb v 21 21. split_limb v 42 21. split_limb v 63 21.
  split_limb v 84 21. split_limb v 105 21. split_limb v 126 21. split_limb v 147 21.
  split_limb v 168 21. split_limb v 189 21. split_limb v 210 21.
  split; [|cbn [digits12]; tauto].
  rewrite <- (Z.div_1_r v) at 2. change 1 with (2 ^ 0).
  rewrite E, E0, E1, E2, E3, E4, E5, E6, E7, E8, E9. cbn [val12]. ring.
Qed.

Lemma sc_load24_spec s :
  bytes s -> length s = 64%nat ->
  returns (sc_load24 s) (fun l => val24 l = le_val s /\ le24 (2 ^ 29) l).
Proof.
  intros Ha Hl. unfold sc_load24. load_exec s.
  pose proof (le_val_bound s Ha) as Hb. rewrite Hl in Hb. clear Ha Hl.
  generalize dependent (le_val s). intros v Hv. norm_index.
  pose proof (div_pow_range v 483 29 ltac:(lia) ltac:(lia) Hv).
  split_limb v 0 21. split_limb v 21 21. split_limb v 42 21. split_limb v 63 21.
  split_limb v 84 21. split_limb v 105 21. split_limb v 126 21. split_limb v 147 21.
  split_limb v 168 21. split_limb v 189 21. split_limb v 210 21. split_limb v 231 21.
  split_limb v 252 21. split_limb v 273 21. split_limb v 294 21. split_limb v 315 21.
  split_limb v 336 21. split_limb v 357 21. split_limb v 378 21. split_limb v 399 21.
  split_limb v 420 21. split_limb v 441 21. split_limb v 462 21.
  split; [|cbn [le24 le12]; clear - R R0 R1 R2 R3 R4 R5 R6 R7 R8 R9 R10 R11 R12 R13 R14 R15 R16
             R17 R18 R19 R20 R21 H; repeat split; lia].
  rewrite <- (Z.div_1_r v) at 2. change 1 with (2 ^ 0).
  rewrite E, E0, E1, E2, E3, E4, E5, E6, E7, E8, E9, E10, E11, E12, E13, E14, E15, E16, E17,
    E18, E19, E20, E21. cbn [val24]. ring.
Qed.

(** ** Stores are exact *)

Lemma sc_store_bytes s : bytes (sc_store s) /\ length (sc_store s) = 32%nat.
Proof.
  destruct s. split; [|reflexivity]. cbn [sc_store].
  repeat constructor; apply is_byte_u8.
Qed.

Lemma sc_store_spec s : digits12 s -> le_val (sc_store s) = val12 s.
Proof.
  destruct s. cbn [digits12 sc_store]. intros H. decompose [and] H. clear H.
  rewrite !store_or64 by lia.
  rewrite (store_top s7 13), (store_top s11 17) by lia.
  rewrite !store_mid by lia. cbn [Z.sub Z.add Z.opp Z.pos_sub Pos.pred_double Z.succ_double Z.pred_double Z.double].
  replace (val12 _) with
    (val12 (L12 (s0 / 2 ^ 0) (s1 / 2 ^ 0) (s2 / 2 ^ 0) (s3 / 2 ^ 0) (s4 / 2 ^ 0) (s5 / 2 ^ 0)
       (s6 / 2 ^ 0) (s7 / 2 ^ 0) (s8 / 2 ^ 0) (s9 / 2 ^ 0) (s10 / 2 ^ 0) (s11 / 2 ^ 0)))
    by now rewrite !Z.div_1_r.
  limb_fields1 s0 8. limb_fields2 s1 3. limb_fields1 s2 6. limb_fields2 s3 1. limb_fields2 s4 4.
  limb_fields1 s5 7. limb_fields2 s6 2. limb_fields1 s7 5. limb_fields1 s8 8. limb_fields2 s9 3.
  limb_fields1 s10 6. limb_fields2 s11 1.
  cbn [le_val val12]. ring.
Qed.
