(* ===== verification/ScReduce.v ===== *)
(** * Scalars modulo the group order: reduction

    The folding and carry steps that the [sc_] functions share, with every 64-bit
    intermediate. [ell] is the group order 2^252 + 27742317777372353535851937790883648493. *)

From Stdlib Require Import ZArith Lia Bool.
From S2P Require Import Prelude ScLimbs.

#[local] Open Scope Z_scope.

Definition ell : Z := 2 ^ 252 + 27742317777372353535851937790883648493.

(** ** Steps *)

(** [s11 += s23 * 666643; ... s16 -= s23 * 683901;]: a limb [x] of weight
    2^(21 (i+12)) is folded into the six limbs from weight 2^(21 i) on. *)
Definition sc_fold (x t0 t1 t2 t3 t4 t5 : Z) : option (Z * Z * Z * Z * Z * Z) :=
  let! t0 := (t0 + x * 666643)%i64 in
  let! t1 := (t1 + x * 470296)%i64 in
  let! t2 := (t2 + x * 654183)%i64 in
  let! t3 := (t3 - x * 997805)%i64 in
  let! t4 := (t4 + x * 136657)%i64 in
  let! t5 := (t5 - x * 683901)%i64 in
  Some (t0, t1, t2, t3, t4, t5).

(** The first two rows of carries of [sc_mul], [sc_muladd] and [sc_mulsub]. *)
Definition sc_carry24 (s : limbs24) : option limbs24 :=
  let '(L24 s0 s1 s2 s3 s4 s5 s6 s7 s8 s9 s10 s11
           s12 s13 s14 s15 s16 s17 s18 s19 s20 s21 s22 s23) := s in
  let! '(s0, s1) := carry_round 21 s0 s1 in
  let! '(s2, s3) := carry_round 21 s2 s3 in
  let! '(s4, s5) := carry_round 21 s4 s5 in
  let! '(s6, s7) := carry_round 21 s6 s7 in
  let! '(s8, s9) := carry_round 21 s8 s9 in
  let! '(s10, s11) := carry_round 21 s10 s11 in
  let! '(s12, s13) := carry_round 21 s12 s13 in
  let! '(s14, s15) := carry_round 21 s14 s15 in
  let! '(s16, s17) := carry_round 21 s16 s17 in
  let! '(s18, s19) := carry_round 21 s18 s19 in
  let! '(s20, s21) := carry_round 21 s20 s21 in
  let! '(s22, s23) := carry_round 21 s22 s23 in
  let! '(s1, s2) := carry_round 21 s1 s2 in
  let! '(s3, s4) := carry_round 21 s3 s4 in
  let! '(s5, s6) := carry_round 21 s5 s6 in
  let! '(s7, s8) := carry_round 21 s7 s8 in
  let! '(s9, s10) := carry_round 21 s9 s10 in
  let! '(s11, s12) := carry_round 21 s11 s12 in
  let! '(s13, s14) := carry_round 21 s13 s14 in
  let! '(s15, s16) := carry_round 21 s15 s16 in
  let! '(s17, s18) := carry_round 21 s17 s18 in
  let! '(s19, s20) := carry_round 21 s19 s20 in
  let! '(s21, s22) := carry_round 21 s21 s22 in
  Some (L24 s0 s1 s2 s3 s4 s5 s6 s7 s8 s9 s10 s11
           s12 s13 s14 s15 s16 s17 s18 s19 s20 s21 s22 s23).

(** [s23] .. [s18] are folded into [s6] .. [s16]. *)
Definition sc_fold_high (s : limbs24) : option limbs18 :=
  let '(L24 s0 s1 s2 s3 s4 s5 s6 s7 s8 s9 s10 s11
           s12 s13 s14 s15 s16 s17 s18 s19 s20 s21 s22 s23) := s in
  let! '(s11, s12, s13, s14, s15, s16) := sc_fold s23 s11 s12 s13 s14 s15 s16 in
  let! '(s10, s11, s12, s13, s14, s15) := sc_fold s22 s10 s11 s12 s13 s14 s15 in
  let! '(s9, s10, s11, s12, s13, s14) := sc_fold s21 s9 s10 s11 s12 s13 s14 in
  let! '(s8, s9, s10, s11, s12, s13) := sc_fold s20 s8 s9 s10 s11 s12 s13 in
  let! '(s7, s8, s9, s10, s11, s12) := sc_fold s19 s7 s8 s9 s10 s11 s12 in
  let! '(s6, s7, s8, s9, s10, s11) := sc_fold s18 s6 s7 s8 s9 s10 s11 in
  Some (L18 s0 s1 s2 s3 s4 s5 s6 s7 s8 s9 s10 s11
           s12 s13 s14 s15 s16 s17).

(** Carries of [s6] .. [s16]. *)
Definition sc_carry18 (s : limbs18) : option limbs18 :=
  let '(L18 s0 s1 s2 s3 s4 s5 s6 s7 s8 s9 s10 s11
           s12 s13 s14 s15 s16 s17) := s in
  let! '(s6, s7) := carry_round 21 s6 s7 in
  let! '(s8, s9) := carry_round 21 s8 s9 in
  let! '(s10, s11) := carry_round 21 s10 s11 in
  let! '(s12, s13) := carry_round 21 s12 s13 in
  let! '(s14, s15) := carry_round 21 s14 s15 in
  let! '(s16, s17) := carry_round 21 s16 s17 in
  let! '(s7, s8) := carry_round 21 s7 s8 in
  let! '(s9, s10) := carry_round 21 s9 s10 in
  let! '(s11, s12) := carry_round 21 s11 s12 in
  let! '(s13, s14) := carry_round 21 s13 s14 in
  let! '(s15, s16) := carry_round 21 s15 s16 in
  Some (L18 s0 s1 s2 s3 s4 s5 s6 s7 s8 s9 s10 s11
           s12 s13 s14 s15 s16 s17).

(** [s17] .. [s12] are folded into [s0] .. [s10]. *)
Definition sc_fold_mid (s : limbs18) : option limbs12 :=
  let '(L18 s0 s1 s2 s3 s4 s5 s6 s7 s8 s9 s10 s11
           s12 s13 s14 s15 s16 s17) := s in
  let! '(s5, s6, s7, s8, s9, s10) := sc_fold s17 s5 s6 s7 s8 s9 s10 in
  let! '(s4, s5, s6, s7, s8, s9) := sc_fold s16 s4 s5 s6 s7 s8 s9 in
  let! '(s3, s4, s5, s6, s7, s8) := sc_fold s15 s3 s4 s5 s6 s7 s8 in
  let! '(s2, s3, s4, s5, s6, s7) := sc_fold s14 s2 s3 s4 s5 s6 s7 in
  let! '(s1, s2, s3, s4, s5, s6) := sc_fold s13 s1 s2 s3 s4 s5 s6 in
  let! '(s0, s1, s2, s3, s4, s5) := sc_fold s12 s0 s1 s2 s3 s4 s5 in
  Some (L12 s0 s1 s2 s3 s4 s5 s6 s7 s8 s9 s10 s11).

(** The end of every [sc_] function, from [s12 = 0] on: carries into [s12] and
    fold, ... *)
Definition sc_carry12 (s : limbs12) : option limbs12 :=
  let '(L12 s0 s1 s2 s3 s4 s5 s6 s7 s8 s9 s10 s11) := s in
  let s12 := 0 in
  let! '(s0, s1) := carry_round 21 s0 s1 in
  let! '(s2, s3) := carry_round 21 s2 s3 in
  let! '(s4, s5) := carry_round 21 s4 s5 in
  let! '(s6, s7) := carry_round 21 s6 s7 in
  let! '(s8, s9) := carry_round 21 s8 s9 in
  let! '(s10, s11) := carry_round 21 s10 s11 in
  let! '(s1, s2) := carry_round 21 s1 s2 in
  let! '(s3, s4) := carry_round 21 s3 s4 in
  let! '(s5, s6) := carry_round 21 s5 s6 in
  let! '(s7, s8) := carry_round 21 s7 s8 in
  let! '(s9, s10) := carry_round 21 s9 s10 in
  let! '(s11, s12) := carry_round 21 s11 s12 in
  let! '(s0, s1, s2, s3, s4, s5) := sc_fold s12 s0 s1 s2 s3 s4 s5 in
  Some (L12 s0 s1 s2 s3 s4 s5 s6 s7 s8 s9 s10 s11).

(** ... exact carries into [s12] and fold, ... *)
Definition sc_floor12 (s : limbs12) : option limbs12 :=
  let '(L12 s0 s1 s2 s3 s4 s5 s6 s7 s8 s9 s10 s11) := s in
  let s12 := 0 in
  let! '(s0, s1) := carry_floor I64 21 s0 s1 in
  let! '(s1, s2) := carry_floor I64 21 s1 s2 in
  let! '(s2, s3) := carry_floor I64 21 s2 s3 in
  let! '(s3, s4) := carry_floor I64 21 s3 s4 in
  let! '(s4, s5) := carry_floor I64 21 s4 s5 in
  let! '(s5, s6) := carry_floor I64 21 s5 s6 in
  let! '(s6, s7) := carry_floor I64 21 s6 s7 in
  let! '(s7, s8) := carry_floor I64 21 s7 s8 in
  let! '(s8, s9) := carry_floor I64 21 s8 s9 in
  let! '(s9, s10) := carry_floor I64 21 s9 s10 in
  let! '(s10, s11) := carry_floor I64 21 s10 s11 in
  let! '(s11, s12) := carry_floor I64 21 s11 s12 in
  let! '(s0, s1, s2, s3, s4, s5) := sc_fold s12 s0 s1 s2 s3 s4 s5 in
  Some (L12 s0 s1 s2 s3 s4 s5 s6 s7 s8 s9 s10 s11).

(** ... exact carries into [s11]. *)
Definition sc_floor11 (s : limbs12) : option limbs12 :=
  let '(L12 s0 s1 s2 s3 s4 s5 s6 s7 s8 s9 s10 s11) := s in
  let! '(s0, s1) := carry_floor I64 21 s0 s1 in
  let! '(s1, s2) := carry_floor I64 21 s1 s2 in
  let! '(s2, s3) := carry_floor I64 21 s2 s3 in
  let! '(s3, s4) := carry_floor I64 21 s3 s4 in
  let! '(s4, s5) := carry_floor I64 21 s4 s5 in
  let! '(s5, s6) := carry_floor I64 21 s5 s6 in
  let! '(s6, s7) := carry_floor I64 21 s6 s7 in
  let! '(s7, s8) := carry_floor I64 21 s7 s8 in
  let! '(s8, s9) := carry_floor I64 21 s8 s9 in
  let! '(s9, s10) := carry_floor I64 21 s9 s10 in
  let! '(s10, s11) := carry_floor I64 21 s10 s11 in
  Some (L12 s0 s1 s2 s3 s4 s5 s6 s7 s8 s9 s10 s11).

Definition sc_reduce12 (s : limbs12) : option limbs12 :=
  let! s := sc_carry12 s in
  let! s := sc_floor12 s in
  sc_floor11 s.

(** The reduction of 24 limbs, shared by [sc_reduce] and the products. *)
Definition sc_reduce24 (s : limbs24) : option limbs12 :=
  let! s := sc_fold_high s in
  let! s := sc_carry18 s in
  let! s := sc_fold_mid s in
  sc_reduce12 s.

(** ** The fold constant and limb bounds *)

Definition fold_const : Z :=
  666643 + 470296 * 2 ^ 21 + 654183 * 2 ^ 42 - 997805 * 2 ^ 63 + 136657 * 2 ^ 84 - 683901 * 2 ^ 105.

(** The six constants are 2^252 modulo the group order. *)
Lemma fold_const_eq : fold_const = 2 ^ 252 - ell.
Proof. reflexivity. Qed.

(** [s0] .. [s11] within [B], [s12] .. [s16] within [C], [s17] within [D]. *)
Definition le18 (B C D : Z) (s : limbs18) : Prop :=
  let '(L18 s0 s1 s2 s3 s4 s5 s6 s7 s8 s9 s10 s11 s12 s13 s14 s15 s16 s17) := s in
  le12 B (L12 s0 s1 s2 s3 s4 s5 s6 s7 s8 s9 s10 s11) /\
  Z.abs s12 <= C /\ Z.abs s13 <= C /\ Z.abs s14 <= C /\ Z.abs s15 <= C /\ Z.abs s16 <= C /\
  Z.abs s17 <= D.

(** ** Symbolic execution of folds *)

Section Fold.
Variables x t0 t1 t2 t3 t4 t5 X T0 T1 T2 T3 T4 T5 : Z.
Hypothesis Hx : Z.abs x <= X.
Hypothesis H0 : Z.abs t0 <= T0.
Hypothesis H1 : Z.abs t1 <= T1.
Hypothesis H2 : Z.abs t2 <= T2.
Hypothesis H3 : Z.abs t3 <= T3.
Hypothesis H4 : Z.abs t4 <= T4.
Hypothesis H5 : Z.abs t5 <= T5.

Lemma sc_fold_spec {T} (K : Z * Z * Z * Z * Z * Z -> option T) Q :
  (T0 + 666643 * X <=? imax I64) && (T1 + 470296 * X <=? imax I64) &&
  (T2 + 654183 * X <=? imax I64) && (T3 + 997805 * X <=? imax I64) &&
  (T4 + 136657 * X <=? imax I64) && (T5 + 683901 * X <=? imax I64) = true ->
  (forall r0 r1 r2 r3 r4 r5,
     r0 = t0 + x * 666643 -> r1 = t1 + x * 470296 -> r2 = t2 + x * 654183 ->
     r3 = t3 - x * 997805 -> r4 = t4 + x * 136657 -> r5 = t5 - x * 683901 ->
     Z.abs r0 <= T0 + 666643 * X -> Z.abs r1 <= T1 + 470296 * X ->
     Z.abs r2 <= T2 + 654183 * X -> Z.abs r3 <= T3 + 997805 * X ->
     Z.abs r4 <= T4 + 136657 * X -> Z.abs r5 <= T5 + 683901 * X ->
     returns (K (r0, r1, r2, r3, r4, r5)) Q) ->
  returns (bind (sc_fold x t0 t1 t2 t3 t4 t5) K) Q.
Proof.
  intros Hm HK. rewrite !andb_true_iff, !Z.leb_le in Hm. cbn [imax] in Hm.
  unfold sc_fold, iop. cbn [bind val].
  repeat (rewrite chk_ok by (cbn [imax]; lia); cbn [bind]).
  apply HK; lia.
Qed.
End Fold.

Ltac cstep_fold :=
  lazymatch goal with
  | |- returns (bind (sc_fold ?x ?t0 ?t1 ?t2 ?t3 ?t4 ?t5) _) _ =>
      let Hx := known_bound x in
      let H0 := known_bound t0 in let H1 := known_bound t1 in let H2 := known_bound t2 in
      let H3 := known_bound t3 in let H4 := known_bound t4 in let H5 := known_bound t5 in
      eapply (sc_fold_spec x t0 t1 t2 t3 t4 t5 _ _ _ _ _ _ _ Hx H0 H1 H2 H3 H4 H5);
      [vm_compute; reflexivity |]
  end;
  do 6 (let r := fresh "r" in intros r);
  do 6 (let E := fresh "E" in intros E);
  do 6 (let H := fresh "H" in intros H; norm_bound H);
  cbv beta iota.

Ltac sc_exec := repeat first [cstep_fold | cstep_carry]; cbn [returns].

(** Names the limbs and normalises their bounds. *)
Ltac limbs_destruct H :=
  cbn in H;
  repeat match goal with
  | H : (Z.abs _ <= _) /\ _ |- _ => destruct H
  | H : ((Z.abs _ <= _) /\ _) /\ _ |- _ => destruct H
  end;
  repeat match goal with H : Z.abs _ <= _ |- _ => progress norm_bound H end.

Ltac limbs_le := cbn; repeat split; abs_le.

Ltac clear_eqs := repeat match goal with E : @eq Z _ _ |- _ => clear E end.

(** ** The steps *)

Definition top24 (s : limbs24) : Z :=
  let '(L24 _ _ _ _ _ _ _ _ _ _ _ _ _ _ _ _ _ _ _ _ _ _ _ s23) := s in s23.

Lemma sc_carry24_spec s :
  le24 (2 ^ 51) s -> top24 s = 0 ->
  returns (sc_carry24 s) (fun r => val24 r = val24 s /\ le24 (2 ^ 31) r).
Proof.
  intros H Ht. destruct s. limbs_destruct H. cbn in Ht. subst.
  assert (Z.abs 0 <= 0) by lia. unfold sc_carry24. sc_exec.
  split; [subst; cbn [val24]; ring | limbs_le].
Qed.

Lemma sc_fold_high_spec s :
  le24 (2 ^ 31) s ->
  returns (sc_fold_high s) (fun r => (exists k, val18 r = val24 s - ell * k) /\ le18 (2 ^ 54) (2 ^ 54) (2 ^ 31) r).
Proof.
  intros H. destruct s. limbs_destruct H. unfold sc_fold_high. sc_exec.
  split; [|limbs_le].
  exists (2 ^ 126 * s18 + 2 ^ 147 * s19 + 2 ^ 168 * s20 + 2 ^ 189 * s21 + 2 ^ 210 * s22 + 2 ^ 231 * s23).
  subst. unfold ell; cbn [val24 val18]. ring.
Qed.

Lemma sc_carry18_spec s :
  le18 (2 ^ 54) (2 ^ 54) (2 ^ 31) s ->
  returns (sc_carry18 s) (fun r => val18 r = val18 s /\ le18 (2 ^ 55) (2 ^ 34) (2 ^ 34) r).
Proof.
  intros H. destruct s. limbs_destruct H. unfold sc_carry18. sc_exec.
  split; [subst; cbn [val18]; ring | limbs_le].
Qed.

Lemma sc_fold_mid_spec s :
  le18 (2 ^ 55) (2 ^ 34) (2 ^ 34) s ->
  returns (sc_fold_mid s) (fun r => (exists k, val12 r = val18 s - ell * k) /\ le12 (2 ^ 58) r).
Proof.
  intros H. destruct s. limbs_destruct H. unfold sc_fold_mid. sc_exec.
  split; [|limbs_le].
  exists (s12 + 2 ^ 21 * s13 + 2 ^ 42 * s14 + 2 ^ 63 * s15 + 2 ^ 84 * s16 + 2 ^ 105 * s17).
  subst. unfold ell; cbn [val18 val12]. ring.
Qed.

Lemma sc_carry12_spec s :
  le12 (2 ^ 58) s ->
  returns (sc_carry12 s) (fun r =>
    (exists k, val12 r = val12 s - ell * k) /\ le12 (2 ^ 58) r /\ - 2 ^ 252 <= val12 r < 2 ^ 252).
Proof.
  intros H. destruct s. limbs_destruct H. assert (Z.abs 0 <= 0) by lia.
  unfold sc_carry12. sc_exec. split; [|split; [limbs_le|]].
  - match goal with H : ?c12 = 0 + ?c |- _ => exists c end.
    subst. unfold ell; cbn [val12]. ring.
  - cbn [val12]. eapply abs_le_range; [abs_lin | reflexivity].
Qed.

Lemma sc_floor12_spec s :
  le12 (2 ^ 58) s -> - 2 ^ 252 <= val12 s < 2 ^ 252 ->
  returns (sc_floor12 s) (fun r =>
    (exists k, val12 r = val12 s - ell * k) /\ le12 (2 ^ 59) r /\ 0 <= val12 r < ell).
Proof.
  intros H Hv. destruct s. limbs_destruct H. assert (Z.abs 0 <= 0) by lia.
  unfold sc_floor12. sc_exec.
  match goal with H : ?s12 = 0 + ?c |- _ => rename s12 into q; rename c into q' end.
  match goal with |- (exists k, ?v = ?w - _) /\ _ => assert (v = w - ell * q) as Ev end.
  { subst. unfold ell; cbn [val12]. ring. }
  assert (0 <= val12 (L12 r r0 r1 r2 r3 r4 l5 l6 l7 l8 l9 l10) - q * fold_const < 2 ^ 252) as Hw.
  { replace (_ - _) with (val12 (L12 l l0 l1 l2 l3 l4 l5 l6 l7 l8 l9 l10)).
    - cbn [val12]. eapply range_le_range; [range_lin | reflexivity].
    - subst r r0 r1 r2 r3 r4. unfold fold_const; cbn [val12]. ring. }
  rewrite fold_const_eq in Hw.
  split; [exists q; exact Ev | split; [limbs_le|]].
  revert Hw Ev Hv. clear.
  generalize (val12 (L12 r r0 r1 r2 r3 r4 l5 l6 l7 l8 l9 l10)).
  generalize (val12 (L12 s0 s1 s2 s3 s4 s5 s6 s7 s8 s9 s10 s11)).
  unfold ell. lia.
Qed.

Lemma sc_floor11_spec s :
  le12 (2 ^ 59) s -> 0 <= val12 s < ell ->
  returns (sc_floor11 s) (fun r => val12 r = val12 s /\ digits12 r).
Proof.
  intros H Hv. destruct s. limbs_destruct H. unfold sc_floor11. sc_exec.
  match goal with |- val12 ?r = ?v /\ _ => assert (val12 r = v) as Ev end.
  { subst. cbn [val12]. ring. }
  split; [exact Ev|]. cbn [digits12]. repeat (split; [assumption|]).
  rewrite <- Ev in Hv. revert Hv. unfold ell; cbn [val12].
  match goal with |- 0 <= ?lo + 2 ^ 231 * _ < _ -> _ =>
    assert (0 <= lo < 2 ^ 231) by (eapply range_le_range; [range_lin | reflexivity]);
    generalize dependent lo end.
  clear. lia.
Qed.

(** The reduction of twelve limbs is exact: the limbs of the residue in [0, ell). *)
Lemma sc_reduce12_spec s :
  le12 (2 ^ 58) s ->
  returns (sc_reduce12 s) (fun r => val12 r = val12 s mod ell /\ digits12 r).
Proof.
  intros H. unfold sc_reduce12.
  eapply returns_bind; [apply sc_carry12_spec, H | intros r1 ([k1 E1] & B1 & V1)].
  eapply returns_bind; [now apply sc_floor12_spec | intros r2 ([k2 E2] & B2 & V2)].
  eapply returns_weaken; [now apply sc_floor11_spec | intros r3 [E3 D3]].
  split; [|exact D3]. rewrite E3.
  apply (Z.mod_unique_pos _ _ (k1 + k2)); lia.
Qed.

(** Digits of the residue of [v]. *)
Definition reduced (v : Z) (r : limbs12) : Prop := val12 r = v mod ell /\ digits12 r.

Lemma sub_ell_mod v k : (v - ell * k) mod ell = v mod ell.
Proof. rewrite <- (Z_mod_plus_full v (- k) ell). f_equal. ring. Qed.

Lemma sc_reduce24_spec s :
  le24 (2 ^ 31) s -> returns (sc_reduce24 s) (reduced (val24 s)).
Proof.
  intros H. unfold sc_reduce24.
  eapply returns_bind; [apply sc_fold_high_spec, H | intros r1 [[k1 E1] B1]].
  eapply returns_bind; [apply sc_carry18_spec, B1 | intros r2 [E2 B2]].
  eapply returns_bind; [apply sc_fold_mid_spec, B2 | intros r3 [[k3 E3] B3]].
  eapply returns_weaken; [apply sc_reduce12_spec, B3 | intros r [Er Dr]].
  split; [|exact Dr]. rewrite Er, E3, E2, E1. now rewrite !sub_ell_mod.
Qed.
