(* ===== verification/Sc.v ===== *)
(** * Scalars modulo the group order

    The exported [sc_] functions of crypto-ops.c on 32-byte scalars, in the order
    of the file, composed from the loads, reduction steps and stores of ScLimbs
    and ScReduce. Each computes exactly in the integers modulo the group order, for
    every input array, and returns the unique representative below the order. *)

From Stdlib Require Import ZArith Lia List Bool.
From S2P Require Import Prelude Bytes ScLimbs ScReduce.
Import ListNotations.

#[local] Open Scope Z_scope.

(** ** Functions *)

(** [sc_reduce]: 64 bytes in, the first 32 are overwritten with the residue. *)
Definition sc_reduce (s : list Z) : option (list Z) :=
  let! l := sc_load24 s in
  let! r := sc_reduce24 l in
  Some (sc_store r ++ skipn 32 s).

Definition sc_0 : list Z := repeat 0 32.

Definition sc_reduce32 (s : list Z) : option (list Z) :=
  let! l := sc_load s in
  let! r := sc_reduce12 l in
  Some (sc_store r ++ skipn 32 s).

(** [sc_reduce32copy] of rctCryptoOps.c writes the result to another array. *)
Definition sc_reduce32copy (s : list Z) : option (list Z) :=
  let! l := sc_load s in
  let! r := sc_reduce12 l in
  Some (sc_store r).

Definition sc_add (a b : list Z) : option (list Z) :=
  let! '(L12 a0 a1 a2 a3 a4 a5 a6 a7 a8 a9 a10 a11) := sc_load a in
  let! '(L12 b0 b1 b2 b3 b4 b5 b6 b7 b8 b9 b10 b11) := sc_load b in
  let! s0 := (a0 + b0)%i64 in
  let! s1 := (a1 + b1)%i64 in
  let! s2 := (a2 + b2)%i64 in
  let! s3 := (a3 + b3)%i64 in
  let! s4 := (a4 + b4)%i64 in
  let! s5 := (a5 + b5)%i64 in
  let! s6 := (a6 + b6)%i64 in
  let! s7 := (a7 + b7)%i64 in
  let! s8 := (a8 + b8)%i64 in
  let! s9 := (a9 + b9)%i64 in
  let! s10 := (a10 + b10)%i64 in
  let! s11 := (a11 + b11)%i64 in
  let! r := sc_reduce12 (L12 s0 s1 s2 s3 s4 s5 s6 s7 s8 s9 s10 s11) in
  Some (sc_store r).

Definition sc_sub (a b : list Z) : option (list Z) :=
  let! '(L12 a0 a1 a2 a3 a4 a5 a6 a7 a8 a9 a10 a11) := sc_load a in
  let! '(L12 b0 b1 b2 b3 b4 b5 b6 b7 b8 b9 b10 b11) := sc_load b in
  let! s0 := (a0 - b0)%i64 in
  let! s1 := (a1 - b1)%i64 in
  let! s2 := (a2 - b2)%i64 in
  let! s3 := (a3 - b3)%i64 in
  let! s4 := (a4 - b4)%i64 in
  let! s5 := (a5 - b5)%i64 in
  let! s6 := (a6 - b6)%i64 in
  let! s7 := (a7 - b7)%i64 in
  let! s8 := (a8 - b8)%i64 in
  let! s9 := (a9 - b9)%i64 in
  let! s10 := (a10 - b10)%i64 in
  let! s11 := (a11 - b11)%i64 in
  let! r := sc_reduce12 (L12 s0 s1 s2 s3 s4 s5 s6 s7 s8 s9 s10 s11) in
  Some (sc_store r).

(** The limb products of [sc_mulsub]: [c - a b]. *)
Definition sc_mulsub_products (a b c : limbs12) : option limbs24 :=
  let '(L12 a0 a1 a2 a3 a4 a5 a6 a7 a8 a9 a10 a11) := a in
  let '(L12 b0 b1 b2 b3 b4 b5 b6 b7 b8 b9 b10 b11) := b in
  let '(L12 c0 c1 c2 c3 c4 c5 c6 c7 c8 c9 c10 c11) := c in
  let! s0 := (c0 - a0 * b0)%i64 in
  let! s1 := (c1 - (a0 * b1 + a1 * b0))%i64 in
  let! s2 := (c2 - (a0 * b2 + a1 * b1 + a2 * b0))%i64 in
  let! s3 := (c3 - (a0 * b3 + a1 * b2 + a2 * b1 + a3 * b0))%i64 in
  let! s4 := (c4 - (a0 * b4 + a1 * b3 + a2 * b2 + a3 * b1 + a4 * b0))%i64 in
  let! s5 := (c5 - (a0 * b5 + a1 * b4 + a2 * b3 + a3 * b2 + a4 * b1 + a5 * b0))%i64 in
  let! s6 := (c6 - (a0 * b6 + a1 * b5 + a2 * b4 + a3 * b3 + a4 * b2 + a5 * b1 + a6 * b0))%i64 in
  let! s7 := (c7 - (a0 * b7 + a1 * b6 + a2 * b5 + a3 * b4 + a4 * b3 + a5 * b2 + a6 * b1 + a7 *
      b0))%i64 in
  let! s8 := (c8 - (a0 * b8 + a1 * b7 + a2 * b6 + a3 * b5 + a4 * b4 + a5 * b3 + a6 * b2 + a7 *
      b1 + a8 * b0))%i64 in
  let! s9 := (c9 - (a0 * b9 + a1 * b8 + a2 * b7 + a3 * b6 + a4 * b5 + a5 * b4 + a6 * b3 + a7 *
      b2 + a8 * b1 + a9 * b0))%i64 in
  let! s10 := (c10 - (a0 * b10 + a1 * b9 + a2 * b8 + a3 * b7 + a4 * b6 + a5 * b5 + a6 * b4 + a7
      * b3 + a8 * b2 + a9 * b1 + a10 * b0))%i64 in
  let! s11 := (c11 - (a0 * b11 + a1 * b10 + a2 * b9 + a3 * b8 + a4 * b7 + a5 * b6 + a6 * b5 +
      a7 * b4 + a8 * b3 + a9 * b2 + a10 * b1 + a11 * b0))%i64 in
  let! s12 := (-(a1 * b11 + a2 * b10 + a3 * b9 + a4 * b8 + a5 * b7 + a6 * b6 + a7 * b5 + a8 *
      b4 + a9 * b3 + a10 * b2 + a11 * b1))%i64 in
  let! s13 := (-(a2 * b11 + a3 * b10 + a4 * b9 + a5 * b8 + a6 * b7 + a7 * b6 + a8 * b5 + a9 *
      b4 + a10 * b3 + a11 * b2))%i64 in
  let! s14 := (-(a3 * b11 + a4 * b10 + a5 * b9 + a6 * b8 + a7 * b7 + a8 * b6 + a9 * b5 + a10 *
      b4 + a11 * b3))%i64 in
  let! s15 := (-(a4 * b11 + a5 * b10 + a6 * b9 + a7 * b8 + a8 * b7 + a9 * b6 + a10 * b5 + a11 *
      b4))%i64 in
  let! s16 := (-(a5 * b11 + a6 * b10 + a7 * b9 + a8 * b8 + a9 * b7 + a10 * b6 + a11 * b5))%i64
      in
  let! s17 := (-(a6 * b11 + a7 * b10 + a8 * b9 + a9 * b8 + a10 * b7 + a11 * b6))%i64 in
  let! s18 := (-(a7 * b11 + a8 * b10 + a9 * b9 + a10 * b8 + a11 * b7))%i64 in
  let! s19 := (-(a8 * b11 + a9 * b10 + a10 * b9 + a11 * b8))%i64 in
  let! s20 := (-(a9 * b11 + a10 * b10 + a11 * b9))%i64 in
  let! s21 := (-(a10 * b11 + a11 * b10))%i64 in
  let! s22 := (-a11 * b11)%i64 in
  let s23 := 0 in
  Some (L24 s0 s1 s2 s3 s4 s5 s6 s7 s8 s9 s10 s11
         s12 s13 s14 s15 s16 s17 s18 s19 s20 s21 s22 s23).

Definition sc_mulsub (a b c : list Z) : option (list Z) :=
  let! a := sc_load a in
  let! b := sc_load b in
  let! c := sc_load c in
  let! s := sc_mulsub_products a b c in
  let! s := sc_carry24 s in
  let! r := sc_reduce24 s in
  Some (sc_store r).

(** The limb products of [sc_mul]: [a b]. *)
Definition sc_mul_products (a b : limbs12) : option limbs24 :=
  let '(L12 a0 a1 a2 a3 a4 a5 a6 a7 a8 a9 a10 a11) := a in
  let '(L12 b0 b1 b2 b3 b4 b5 b6 b7 b8 b9 b10 b11) := b in
  let! s0 := (a0 * b0)%i64 in
  let! s1 := (a0 * b1 + a1 * b0)%i64 in
  let! s2 := (a0 * b2 + a1 * b1 + a2 * b0)%i64 in
  let! s3 := (a0 * b3 + a1 * b2 + a2 * b1 + a3 * b0)%i64 in
  let! s4 := (a0 * b4 + a1 * b3 + a2 * b2 + a3 * b1 + a4 * b0)%i64 in
  let! s5 := (a0 * b5 + a1 * b4 + a2 * b3 + a3 * b2 + a4 * b1 + a5 * b0)%i64 in
  let! s6 := (a0 * b6 + a1 * b5 + a2 * b4 + a3 * b3 + a4 * b2 + a5 * b1 + a6 * b0)%i64 in
  let! s7 := (a0 * b7 + a1 * b6 + a2 * b5 + a3 * b4 + a4 * b3 + a5 * b2 + a6 * b1 + a7 *
      b0)%i64 in
  let! s8 := (a0 * b8 + a1 * b7 + a2 * b6 + a3 * b5 + a4 * b4 + a5 * b3 + a6 * b2 + a7 * b1 +
      a8 * b0)%i64 in
  let! s9 := (a0 * b9 + a1 * b8 + a2 * b7 + a3 * b6 + a4 * b5 + a5 * b4 + a6 * b3 + a7 * b2 +
      a8 * b1 + a9 * b0)%i64 in
  let! s10 := (a0 * b10 + a1 * b9 + a2 * b8 + a3 * b7 + a4 * b6 + a5 * b5 + a6 * b4 + a7 * b3 +
      a8 * b2 + a9 * b1 + a10 * b0)%i64 in
  let! s11 := (a0 * b11 + a1 * b10 + a2 * b9 + a3 * b8 + a4 * b7 + a5 * b6 + a6 * b5 + a7 * b4
      + a8 * b3 + a9 * b2 + a10 * b1 + a11 * b0)%i64 in
  let! s12 := (a1 * b11 + a2 * b10 + a3 * b9 + a4 * b8 + a5 * b7 + a6 * b6 + a7 * b5 + a8 * b4
      + a9 * b3 + a10 * b2 + a11 * b1)%i64 in
  let! s13 := (a2 * b11 + a3 * b10 + a4 * b9 + a5 * b8 + a6 * b7 + a7 * b6 + a8 * b5 + a9 * b4
      + a10 * b3 + a11 * b2)%i64 in
  let! s14 := (a3 * b11 + a4 * b10 + a5 * b9 + a6 * b8 + a7 * b7 + a8 * b6 + a9 * b5 + a10 * b4
      + a11 * b3)%i64 in
  let! s15 := (a4 * b11 + a5 * b10 + a6 * b9 + a7 * b8 + a8 * b7 + a9 * b6 + a10 * b5 + a11 *
      b4)%i64 in
  let! s16 := (a5 * b11 + a6 * b10 + a7 * b9 + a8 * b8 + a9 * b7 + a10 * b6 + a11 * b5)%i64 in
  let! s17 := (a6 * b11 + a7 * b10 + a8 * b9 + a9 * b8 + a10 * b7 + a11 * b6)%i64 in
  let! s18 := (a7 * b11 + a8 * b10 + a9 * b9 + a10 * b8 + a11 * b7)%i64 in
  let! s19 := (a8 * b11 + a9 * b10 + a10 * b9 + a11 * b8)%i64 in
  let! s20 := (a9 * b11 + a10 * b10 + a11 * b9)%i64 in
  let! s21 := (a10 * b11 + a11 * b10)%i64 in
  let! s22 := (a11 * b11)%i64 in
  let s23 := 0 in
  Some (L24 s0 s1 s2 s3 s4 s5 s6 s7 s8 s9 s10 s11
         s12 s13 s14 s15 s16 s17 s18 s19 s20 s21 s22 s23).

Definition sc_mul (a b : list Z) : option (list Z) :=
  let! a := sc_load a in
  let! b := sc_load b in
  let! s := sc_mul_products a b in
  let! s := sc_carry24 s in
  let! r := sc_reduce24 s in
  Some (sc_store r).

(** The limb products of [sc_muladd]: [c + a b]. *)
Definition sc_muladd_products (a b c : limbs12) : option limbs24 :=
  let '(L12 a0 a1 a2 a3 a4 a5 a6 a7 a8 a9 a10 a11) := a in
  let '(L12 b0 b1 b2 b3 b4 b5 b6 b7 b8 b9 b10 b11) := b in
  let '(L12 c0 c1 c2 c3 c4 c5 c6 c7 c8 c9 c10 c11) := c in
  let! s0 := (c0 + a0 * b0)%i64 in
  let! s1 := (c1 + (a0 * b1 + a1 * b0))%i64 in
  let! s2 := (c2 + (a0 * b2 + a1 * b1 + a2 * b0))%i64 in
  let! s3 := (c3 + (a0 * b3 + a1 * b2 + a2 * b1 + a3 * b0))%i64 in
  let! s4 := (c4 + (a0 * b4 + a1 * b3 + a2 * b2 + a3 * b1 + a4 * b0))%i64 in
  let! s5 := (c5 + (a0 * b5 + a1 * b4 + a2 * b3 + a3 * b2 + a4 * b1 + a5 * b0))%i64 in
  let! s6 := (c6 + (a0 * b6 + a1 * b5 + a2 * b4 + a3 * b3 + a4 * b2 + a5 * b1 + a6 * b0))%i64 in
  let! s7 := (c7 + (a0 * b7 + a1 * b6 + a2 * b5 + a3 * b4 + a4 * b3 + a5 * b2 + a6 * b1 + a7 *
      b0))%i64 in
  let! s8 := (c8 + (a0 * b8 + a1 * b7 + a2 * b6 + a3 * b5 + a4 * b4 + a5 * b3 + a6 * b2 + a7 *
      b1 + a8 * b0))%i64 in
  let! s9 := (c9 + (a0 * b9 + a1 * b8 + a2 * b7 + a3 * b6 + a4 * b5 + a5 * b4 + a6 * b3 + a7 *
      b2 + a8 * b1 + a9 * b0))%i64 in
  let! s10 := (c10 + (a0 * b10 + a1 * b9 + a2 * b8 + a3 * b7 + a4 * b6 + a5 * b5 + a6 * b4 + a7
      * b3 + a8 * b2 + a9 * b1 + a10 * b0))%i64 in
  let! s11 := (c11 + (a0 * b11 + a1 * b10 + a2 * b9 + a3 * b8 + a4 * b7 + a5 * b6 + a6 * b5 +
      a7 * b4 + a8 * b3 + a9 * b2 + a10 * b1 + a11 * b0))%i64 in
  let! s12 := (a1 * b11 + a2 * b10 + a3 * b9 + a4 * b8 + a5 * b7 + a6 * b6 + a7 * b5 + a8 * b4
      + a9 * b3 + a10 * b2 + a11 * b1)%i64 in
  let! s13 := (a2 * b11 + a3 * b10 + a4 * b9 + a5 * b8 + a6 * b7 + a7 * b6 + a8 * b5 + a9 * b4
      + a10 * b3 + a11 * b2)%i64 in
  let! s14 := (a3 * b11 + a4 * b10 + a5 * b9 + a6 * b8 + a7 * b7 + a8 * b6 + a9 * b5 + a10 * b4
      + a11 * b3)%i64 in
  let! s15 := (a4 * b11 + a5 * b10 + a6 * b9 + a7 * b8 + a8 * b7 + a9 * b6 + a10 * b5 + a11 *
      b4)%i64 in
  let! s16 := (a5 * b11 + a6 * b10 + a7 * b9 + a8 * b8 + a9 * b7 + a10 * b6 + a11 * b5)%i64 in
  let! s17 := (a6 * b11 + a7 * b10 + a8 * b9 + a9 * b8 + a10 * b7 + a11 * b6)%i64 in
  let! s18 := (a7 * b11 + a8 * b10 + a9 * b9 + a10 * b8 + a11 * b7)%i64 in
  let! s19 := (a8 * b11 + a9 * b10 + a10 * b9 + a11 * b8)%i64 in
  let! s20 := (a9 * b11 + a10 * b10 + a11 * b9)%i64 in
  let! s21 := (a10 * b11 + a11 * b10)%i64 in
  let! s22 := (a11 * b11)%i64 in
  let s23 := 0 in
  Some (L24 s0 s1 s2 s3 s4 s5 s6 s7 s8 s9 s10 s11
         s12 s13 s14 s15 s16 s17 s18 s19 s20 s21 s22 s23).

Definition sc_muladd (a b c : list Z) : option (list Z) :=
  let! a := sc_load a in
  let! b := sc_load b in
  let! c := sc_load c in
  let! s := sc_muladd_products a b c in
  let! s := sc_carry24 s in
  let! r := sc_reduce24 s in
  Some (sc_store r).

(** [-1], [0] or [1]; undefined on [INT64_MIN], as its comment says. *)
Definition signum (a : Z) : cint := ((a >> 63) - ((- a) >> 63))%i64.

(** [0] when the scalar is below the group order, [-1] otherwise. *)
Definition sc_check (s : list Z) : option Z :=
  let! x := load_4 s in let s0 := to_i64 x in
  let! x := load_4 (skipn 4 s) in let s1 := to_i64 x in
  let! x := load_4 (skipn 8 s) in let s2 := to_i64 x in
  let! x := load_4 (skipn 12 s) in let s3 := to_i64 x in
  let! x := load_4 (skipn 16 s) in let s4 := to_i64 x in
  let! x := load_4 (skipn 20 s) in let s5 := to_i64 x in
  let! x := load_4 (skipn 24 s) in let s6 := to_i64 x in
  let! x := load_4 (skipn 28 s) in let s7 := to_i64 x in
  let! g0 := (1559614444 - s0)%i64 in let! g0 := signum g0 in
  let! g1 := (1477600026 - s1)%i64 in let! g1 := signum g1 in
  let! g2 := (2734136534 - s2)%i64 in let! g2 := signum g2 in
  let! g3 := (350157278 - s3)%i64 in let! g3 := signum g3 in
  let! g4 := (- s4)%i64 in let! g4 := signum g4 in
  let! g5 := (- s5)%i64 in let! g5 := signum g5 in
  let! g6 := (- s6)%i64 in let! g6 := signum g6 in
  let! g7 := (268435456 - s7)%i64 in let! g7 := signum g7 in
  let! r := ((g0 + (g1 << 1) + (g2 << 2) + (g3 << 3) + (g4 << 4) + (g5 << 5) + (g6 << 6)
              + (g7 << 7)) >> 8)%i64 in
  Some (to_i32 r).

Definition sc_isnonzero (s : list Z) : option Z :=
  let! x := or_bytes 32 s in
  (((x - 1) >> 8) + 1)%i32.

(** ** Correctness *)

(** A 32-byte array. *)
Definition scalar (s : list Z) : Prop := bytes s /\ length s = 32%nat.

(** [r] is the canonical scalar of the integer [v]: its bytes are those of the residue
    of [v] in [0, ell). *)
Definition canonical (v : Z) (r : list Z) : Prop := scalar r /\ le_val r = v mod ell.

Lemma ell_pos : 0 < ell.
Proof. reflexivity. Qed.

Lemma canonical_range v r : canonical v r -> 0 <= le_val r < ell.
Proof. intros [_ ->]. apply Z.mod_pos_bound, ell_pos. Qed.

Lemma sc_store_canonical v r : reduced v r -> canonical v (sc_store r).
Proof.
  intros [E D]. split; [apply sc_store_bytes|]. now rewrite sc_store_spec.
Qed.

(** The names of the limbs with their bounds. *)
Ltac digits_destruct H :=
  cbn [digits12] in H; decompose [and] H; clear H;
  repeat match goal with
  | H1 : 0 <= ?x, H2 : ?x < ?m |- _ =>
      let H := fresh "L" in
      pose proof (abs_range0 x m (conj H1 H2)) as H; norm_bound H; clear H1 H2
  end.

Lemma digits12_le s : digits12 s -> le12 (2 ^ 25) s.
Proof. destruct s. intros H. digits_destruct H. cbn [le12]. repeat split; abs_le. Qed.

(** The loads of two scalars, a combination of their limbs that stays in bounds,
    and the reduction. *)
Lemma sc_reduce12_canonical l v :
  le12 (2 ^ 58) l -> val12 l = v ->
  returns (let! r := sc_reduce12 l in Some (sc_store r)) (canonical v).
Proof.
  intros H <-. eapply returns_bind; [apply sc_reduce12_spec, H | intros r [E D]].
  now apply sc_store_canonical.
Qed.

Lemma sc_reduce24_canonical l v :
  le24 (2 ^ 51) l -> top24 l = 0 -> val24 l = v ->
  returns (let! s := sc_carry24 l in let! r := sc_reduce24 s in Some (sc_store r)) (canonical v).
Proof.
  intros H Ht <-. eapply returns_bind; [now apply sc_carry24_spec | intros s [E B]].
  eapply returns_bind; [apply sc_reduce24_spec, B | intros r Hr].
  rewrite E in Hr. now apply sc_store_canonical.
Qed.

Lemma sc_add_spec a b :
  scalar a -> scalar b -> returns (sc_add a b) (canonical (le_val a + le_val b)).
Proof.
  intros [Ha La] [Hb Lb]. unfold sc_add.
  eapply returns_bind; [now apply sc_load_spec | intros [] [Ea Da]; digits_destruct Da].
  eapply returns_bind; [now apply sc_load_spec | intros [] [Eb Db]; digits_destruct Db].
  repeat cstep_expr. apply sc_reduce12_canonical; [cbn [le12]; repeat split; abs_le|].
  rewrite <- Ea, <- Eb. subst. cbn [val12]. ring.
Qed.

Lemma sc_sub_spec a b :
  scalar a -> scalar b -> returns (sc_sub a b) (canonical (le_val a - le_val b)).
Proof.
  intros [Ha La] [Hb Lb]. unfold sc_sub.
  eapply returns_bind; [now apply sc_load_spec | intros [] [Ea Da]; digits_destruct Da].
  eapply returns_bind; [now apply sc_load_spec | intros [] [Eb Db]; digits_destruct Db].
  repeat cstep_expr. apply sc_reduce12_canonical; [cbn [le12]; repeat split; abs_le|].
  rewrite <- Ea, <- Eb. subst. cbn [val12]. ring.
Qed.

(** What the reductions need of a sum of products. *)
Definition products (v : Z) (s : limbs24) : Prop :=
  val24 s = v /\ le24 (2 ^ 51) s /\ top24 s = 0.

Lemma sc_mul_products_spec a b :
  digits12 a -> digits12 b -> returns (sc_mul_products a b) (products (val12 a * val12 b)).
Proof.
  intros Da Db. destruct a, b. digits_destruct Da. digits_destruct Db.
  unfold sc_mul_products. repeat cstep_expr. assert (Z.abs 0 <= 0) by lia. cbn [returns].
  split; [subst; cbn [val12 val24]; ring | split; [|reflexivity]].
  cbn [le24 le12]. repeat split; abs_le.
Qed.

Lemma sc_muladd_products_spec a b c :
  digits12 a -> digits12 b -> digits12 c ->
  returns (sc_muladd_products a b c) (products (val12 c + val12 a * val12 b)).
Proof.
  intros Da Db Dc. destruct a, b, c. digits_destruct Da. digits_destruct Db. digits_destruct Dc.
  unfold sc_muladd_products. repeat cstep_expr. assert (Z.abs 0 <= 0) by lia. cbn [returns].
  split; [subst; cbn [val12 val24]; ring | split; [|reflexivity]].
  cbn [le24 le12]. repeat split; abs_le.
Qed.

Lemma sc_mulsub_products_spec a b c :
  digits12 a -> digits12 b -> digits12 c ->
  returns (sc_mulsub_products a b c) (products (val12 c - val12 a * val12 b)).
Proof.
  intros Da Db Dc. destruct a, b, c. digits_destruct Da. digits_destruct Db. digits_destruct Dc.
  unfold sc_mulsub_products. repeat cstep_expr. assert (Z.abs 0 <= 0) by lia. cbn [returns].
  split; [subst; cbn [val12 val24]; ring | split; [|reflexivity]].
  cbn [le24 le12]. repeat split; abs_le.
Qed.

Lemma sc_mul_spec a b :
  scalar a -> scalar b -> returns (sc_mul a b) (canonical (le_val a * le_val b)).
Proof.
  intros [Ha La] [Hb Lb]. unfold sc_mul.
  eapply returns_bind; [now apply sc_load_spec | intros la [<- Da]].
  eapply returns_bind; [now apply sc_load_spec | intros lb [<- Db]].
  eapply returns_bind; [now apply sc_mul_products_spec | intros s (E & B & T)].
  now apply sc_reduce24_canonical.
Qed.

Lemma sc_muladd_spec a b c :
  scalar a -> scalar b -> scalar c ->
  returns (sc_muladd a b c) (canonical (le_val c + le_val a * le_val b)).
Proof.
  intros [Ha La] [Hb Lb] [Hc Lc]. unfold sc_muladd.
  eapply returns_bind; [now apply sc_load_spec | intros la [<- Da]].
  eapply returns_bind; [now apply sc_load_spec | intros lb [<- Db]].
  eapply returns_bind; [now apply sc_load_spec | intros lc [<- Dc]].
  eapply returns_bind; [now apply sc_muladd_products_spec | intros s (E & B & T)].
  now apply sc_reduce24_canonical.
Qed.

Lemma sc_mulsub_spec a b c :
  scalar a -> scalar b -> scalar c ->
  returns (sc_mulsub a b c) (canonical (le_val c - le_val a * le_val b)).
Proof.
  intros [Ha La] [Hb Lb] [Hc Lc]. unfold sc_mulsub.
  eapply returns_bind; [now apply sc_load_spec | intros la [<- Da]].
  eapply returns_bind; [now apply sc_load_spec | intros lb [<- Db]].
  eapply returns_bind; [now apply sc_load_spec | intros lc [<- Dc]].
  eapply returns_bind; [now apply sc_mulsub_products_spec | intros s (E & B & T)].
  now apply sc_reduce24_canonical.
Qed.

Lemma le12_weaken B C s : B <= C -> le12 B s -> le12 C s.
Proof. destruct s. cbn [le12]. intros H Hs. decompose [and] Hs. repeat split; eapply Z.le_trans; eassumption. Qed.

Lemma le24_weaken B C s : B <= C -> le24 B s -> le24 C s.
Proof. destruct s. intros H [H1 H2]. split; now apply (le12_weaken B C). Qed.

Lemma sc_reduce_spec s :
  bytes s -> length s = 64%nat ->
  returns (sc_reduce s) (fun r => canonical (le_val s) (firstn 32 r) /\ skipn 32 r = skipn 32 s).
Proof.
  intros Hs Hl. unfold sc_reduce.
  eapply returns_bind; [now apply sc_load24_spec | intros l [<- B]].
  eapply returns_bind; [apply sc_reduce24_spec, (le24_weaken (2 ^ 29)); [lia | exact B] | intros r Hr].
  cbn [returns]. apply sc_store_canonical in Hr. pose proof (proj2 (proj1 Hr)) as Hn.
  rewrite firstn_app, skipn_app, Hn, Nat.sub_diag, firstn_all2, (skipn_all2 (sc_store r)) by lia.
  cbn [firstn app]. now rewrite app_nil_r.
Qed.

Lemma sc_reduce32_spec s :
  scalar s -> returns (sc_reduce32 s) (canonical (le_val s)).
Proof.
  intros [Hs Hl]. unfold sc_reduce32.
  eapply returns_bind; [now apply sc_load_spec | intros l [<- D]].
  eapply returns_bind; [apply sc_reduce12_spec, (le12_weaken (2 ^ 25)); [lia | now apply digits12_le] | intros r Hr].
  cbn [returns]. rewrite skipn_all2, app_nil_r by lia. now apply sc_store_canonical.
Qed.

Lemma sc_reduce32copy_spec s :
  scalar s -> returns (sc_reduce32copy s) (canonical (le_val s)).
Proof.
  intros [Hs Hl]. unfold sc_reduce32copy.
  eapply returns_bind; [now apply sc_load_spec | intros l [<- D]].
  eapply returns_bind; [apply sc_reduce12_spec, (le12_weaken (2 ^ 25)); [lia | now apply digits12_le] | intros r Hr].
  now apply sc_store_canonical.
Qed.

(** *** [sc_check] *)

(** The sign of a number with signed digits is that of its leading digit, in every
    base above the digits. *)
Lemma sgn_horner B ds :
  Forall (fun d => Z.abs d < B) ds ->
  Z.sgn (horner B ds) = Z.sgn (horner 2 (map Z.sgn ds)).
Proof.
  induction 1 as [|d ds Hd _ IH]; [reflexivity|]. cbn [horner map].
  revert IH. generalize (horner B ds), (horner 2 (map Z.sgn ds)). intros x y E.
  assert (forall C e u, Z.abs e < C -> Z.sgn (e + C * u) = if u =? 0 then Z.sgn e else Z.sgn u) as S.
  { intros C e u He. destruct (Z.eqb_spec u 0); [subst; f_equal; lia|].
    destruct (Z.lt_ge_cases u 0); [rewrite !Z.sgn_neg | rewrite !Z.sgn_pos]; nia. }
  rewrite !S by lia. destruct (Z.eqb_spec x 0), (Z.eqb_spec y 0); subst; lia.
Qed.

Lemma signum_spec x : Z.abs x <= imax I64 -> signum x = Some (Z.sgn x).
Proof.
  intros H. unfold signum, ishr, iopp, iop. cbn [bind val].
  rewrite chk_ok by lia. cbn [bind].
  rewrite !Z.shiftr_div_pow2 by lia. cbn [imax] in H.
  destruct (Z.sgn_spec x) as [[? ->]|[[<- ->]|[? ->]]].
  - rewrite (Z.div_small x), <- (Z.div_unique_pos (- x) (2 ^ 63) (-1) (2 ^ 63 - x)) by lia. reflexivity.
  - reflexivity.
  - rewrite (Z.div_small (- x)), <- (Z.div_unique_pos x (2 ^ 63) (-1) (2 ^ 63 + x)) by lia. reflexivity.
Qed.

Lemma signum_step {A} x B (K : Z -> option A) Q :
  Z.abs x <= B -> (B <=? imax I64) = true ->
  (forall g, g = Z.sgn x -> Z.abs g <= 1 -> returns (K g) Q) -> returns (bind (signum x) K) Q.
Proof.
  intros H E%Z.leb_le HK. rewrite signum_spec by lia. cbn [bind]. apply HK; lia.
Qed.

Ltac cstep_signum :=
  match goal with
  | |- returns (bind (signum ?x) _) _ =>
      let H := known_bound x in eapply (signum_step x _ _ _ H); [reflexivity |]
  end;
  let g := fresh "g" in let E := fresh "G" in let H := fresh "H" in intros g E H.

(** The weighted sum of signs decides the comparison of the eight words. *)
Lemma sign_sum_check ds v :
  horner (2 ^ 32) ds = ell - 1 - v -> Forall (fun d => Z.abs d < 2 ^ 32) ds ->
  Z.abs (horner 2 (map Z.sgn ds)) < 2 ^ 8 ->
  to_i32 (horner 2 (map Z.sgn ds) / 2 ^ 8) = if v <? ell then 0 else -1.
Proof.
  intros E H B. apply sgn_horner in H. rewrite E in H.
  revert H B. generalize (horner 2 (map Z.sgn ds)). intros x H B.
  destruct (Z.ltb_spec v ell).
  - rewrite Z.div_small by lia. reflexivity.
  - rewrite <- (Z.div_unique_pos x (2 ^ 8) (-1) (2 ^ 8 + x)) by lia. reflexivity.
Qed.

Lemma sc_check_spec s :
  scalar s -> sc_check s = Some (if le_val s <? ell then 0 else -1).
Proof.
  intros [Hs Hl]. apply returns_eq. unfold sc_check.
  change (load_4 s) with (load_4 (skipn 0 s)).
  rewrite !load_4_spec by (assumption || lia). cbn [bind]. rewrite !word_4. norm_index.
  pose proof (le_val_bound s Hs) as Hb. rewrite Hl in Hb. clear Hs Hl.
  generalize dependent (le_val s). intros v Hv.
  pose proof (div_pow_range v 256 0 ltac:(lia) ltac:(lia) Hv) as Ht.
  split_limb v 0 32. split_limb v 32 32. split_limb v 64 32. split_limb v 96 32.
  split_limb v 128 32. split_limb v 160 32. split_limb v 192 32. split_limb v 224 32.
  repeat match goal with R : 0 <= _ < 2 ^ 32 |- _ =>
    let L := fresh "L" in pose proof (abs_range0 _ _ R) as L; norm_bound L; revert R end.
  intros. repeat first [cstep_signum | cstep_expr]. cbn [returns].
  assert (horner 2 (map Z.sgn [x; x0; x1; x2; x3; x4; x5; x6])
          = g + g0 * 2 ^ 1 + g1 * 2 ^ 2 + g2 * 2 ^ 3 + g3 * 2 ^ 4 + g4 * 2 ^ 5 + g5 * 2 ^ 6 + g6 * 2 ^ 7)
    as Eh by (subst g g0 g1 g2 g3 g4 g5 g6; cbn [horner map]; ring).
  rewrite E15, <- Eh. apply sign_sum_check.
  - rewrite <- (Z.div_1_r v). change (v / 1) with (v / 2 ^ 0).
    assert (v / 2 ^ 256 = 0) as Ez by lia.
    rewrite E, E0, E1, E2, E3, E4, E5, E6, Ez. subst x x0 x1 x2 x3 x4 x5 x6.
    unfold ell. cbn [horner]. ring.
  - subst x x0 x1 x2 x3 x4 x5 x6. clear - R R0 R1 R2 R3 R4 R5 R6.
    repeat constructor; lia.
  - rewrite Eh. clear - H0 H2 H4 H6 H8 H10 H12 H14. lia.
Qed.

(** *** [sc_isnonzero] *)

Lemma sc_isnonzero_spec s :
  scalar s -> sc_isnonzero s = Some (if le_val s =? 0 then 0 else 1).
Proof.
  intros [Hs Hl]. apply returns_eq. unfold sc_isnonzero.
  eapply returns_bind; [now apply or_bytes_spec | intros x [Hx E]].
  now apply nonzero_byte.
Qed.

(** ** Claims *)

(** A non-canonical scalar of all ones, the largest array. *)
Definition ones32 : list Z := repeat 255 32.

Lemma ones32_scalar : scalar ones32.
Proof. split; [|reflexivity]. apply Forall_forall. intros b Hb%repeat_spec. subst. unfold is_byte. lia. Qed.

(** C33: [sc_muladd] of crypto-ops.c computes (a b + c) modulo the group order for all
    32-byte arrays: no 64-bit intermediate overflows, and the 32 bytes it stores are
    those of the residue in [0, ell). *)
Theorem sc_muladd_correct a b c :
  scalar a -> scalar b -> scalar c ->
  exists s, sc_muladd a b c = Some s /\ scalar s /\
    le_val s = (le_val a * le_val b + le_val c) mod ell.
Proof.
  intros Ha Hb Hc. apply returns_some.
  eapply returns_weaken; [now apply sc_muladd_spec | intros s [Hs E]].
  split; [exact Hs|]. rewrite E. f_equal. ring.
Qed.

Lemma sc_muladd_correct_witness :
  scalar ones32 /\
  exists s, sc_muladd ones32 ones32 ones32 = Some s /\ scalar s /\
    le_val s = (le_val ones32 * le_val ones32 + le_val ones32) mod ell.
Proof.
  split; [apply ones32_scalar|].
  apply (sc_muladd_correct ones32 ones32 ones32); apply ones32_scalar.
Defined.

(** [sc_mulsub] computes (c - a b) modulo the group order for all 32-byte arrays,
    without overflow, with a canonical result. *)
Theorem sc_mulsub_correct a b c :
  scalar a -> scalar b -> scalar c ->
  exists s, sc_mulsub a b c = Some s /\ scalar s /\
    le_val s = (le_val c - le_val a * le_val b) mod ell.
Proof.
  intros Ha Hb Hc. apply returns_some. now apply sc_mulsub_spec.
Qed.

Lemma sc_mulsub_correct_witness :
  exists s, sc_mulsub ones32 ones32 sc_0 = Some s /\ scalar s /\
    le_val s = (le_val sc_0 - le_val ones32 * le_val ones32) mod ell.
Proof.
  apply (sc_mulsub_correct ones32 ones32 sc_0); try apply ones32_scalar.
  split; [|reflexivity]. apply Forall_forall. intros b Hb%repeat_spec. subst. unfold is_byte. lia.
Defined.

(** [sc_mul], [sc_add] and [sc_sub] compute the product, the sum and the difference
    modulo the group order for all 32-byte arrays, without overflow, with a canonical
    result: the 32-byte scalars with these operations are the ring of integers
    modulo [ell]. *)
Theorem sc_ring_correct a b :
  scalar a -> scalar b ->
  (exists s, sc_mul a b = Some s /\ scalar s /\ le_val s = (le_val a * le_val b) mod ell) /\
  (exists s, sc_add a b = Some s /\ scalar s /\ le_val s = (le_val a + le_val b) mod ell) /\
  (exists s, sc_sub a b = Some s /\ scalar s /\ le_val s = (le_val a - le_val b) mod ell).
Proof.
  intros Ha Hb. repeat split; apply returns_some;
    [now apply sc_mul_spec | now apply sc_add_spec | now apply sc_sub_spec].
Qed.

Lemma sc_ring_correct_witness :
  (exists s, sc_mul ones32 ones32 = Some s /\ scalar s /\ le_val s = (le_val ones32 * le_val ones32) mod ell) /\
  (exists s, sc_add ones32 ones32 = Some s /\ scalar s /\ le_val s = (le_val ones32 + le_val ones32) mod ell) /\
  (exists s, sc_sub ones32 ones32 = Some s /\ scalar s /\ le_val s = (le_val ones32 - le_val ones32) mod ell).
Proof. apply (sc_ring_correct ones32 ones32); apply ones32_scalar. Defined.

(** [sc_reduce] replaces the first 32 bytes of any 64-byte array by the residue of the
    512-bit integer modulo the group order and leaves the other bytes alone;
    [sc_reduce32] reduces any 32-byte array in place, and [sc_reduce32copy], the copy of it
    that the ring signatures use, writes the same residue elsewhere; none overflows. *)
Theorem sc_reduce_correct s t :
  bytes s -> length s = 64%nat -> scalar t ->
  (exists r, sc_reduce s = Some r /\ le_val (firstn 32 r) = le_val s mod ell /\
     scalar (firstn 32 r) /\ skipn 32 r = skipn 32 s) /\
  (exists r, sc_reduce32 t = Some r /\ scalar r /\ le_val r = le_val t mod ell) /\
  (exists r, sc_reduce32copy t = Some r /\ scalar r /\ le_val r = le_val t mod ell).
Proof.
  intros Hs Hl Ht.
  repeat match goal with |- _ /\ _ => split end; apply returns_some;
    [|now apply sc_reduce32_spec | now apply sc_reduce32copy_spec].
  eapply returns_weaken; [now apply sc_reduce_spec | intros r [[Hr E] Hk]; auto].
Qed.

Lemma sc_reduce_correct_witness :
  (exists r, sc_reduce (ones32 ++ ones32) = Some r /\
     le_val (firstn 32 r) = le_val (ones32 ++ ones32) mod ell /\
     scalar (firstn 32 r) /\ skipn 32 r = skipn 32 (ones32 ++ ones32)) /\
  (exists r, sc_reduce32 ones32 = Some r /\ scalar r /\ le_val r = le_val ones32 mod ell) /\
  (exists r, sc_reduce32copy ones32 = Some r /\ scalar r /\ le_val r = le_val ones32 mod ell).
Proof.
  apply (sc_reduce_correct (ones32 ++ ones32) ones32);
    [apply Forall_app; split; apply ones32_scalar | reflexivity | apply ones32_scalar].
Defined.

(** [sc_check] returns 0 exactly on the canonical 32-byte scalars, those below the group
    order, and -1 on all others; [sc_isnonzero] returns 0 on the zero array and 1 on
    all others. *)
Theorem sc_check_correct s :
  scalar s ->
  sc_check s = Some (if le_val s <? ell then 0 else -1) /\
  sc_isnonzero s = Some (if le_val s =? 0 then 0 else 1).
Proof. intros Hs. split; [now apply sc_check_spec | now apply sc_isnonzero_spec]. Qed.

Lemma sc_check_correct_witness : sc_check ones32 = Some (-1) /\ sc_isnonzero ones32 = Some 1.
Proof. exact (sc_check_correct ones32 ones32_scalar). Defined.

(** The outputs of the [sc_] operations pass [sc_check]: what the library computes, its
    own validity test accepts. *)
Theorem sc_outputs_check a b c :
  scalar a -> scalar b -> scalar c ->
  (let! s := sc_muladd a b c in sc_check s) = Some 0 /\
  (let! s := sc_mulsub a b c in sc_check s) = Some 0 /\
  (let! s := sc_mul a b in sc_check s) = Some 0 /\
  (let! s := sc_add a b in sc_check s) = Some 0 /\
  (let! s := sc_sub a b in sc_check s) = Some 0 /\
  (let! s := sc_reduce32 a in sc_check s) = Some 0.
Proof.
  intros Ha Hb Hc.
  assert (forall m v, returns m (canonical v) -> (let! s := m in sc_check s) = Some 0) as K.
  { intros m v [s [-> Hs]]%returns_some. cbn [bind]. pose proof (canonical_range v s Hs).
    rewrite sc_check_spec by apply Hs. destruct (Z.ltb_spec (le_val s) ell); [reflexivity | lia]. }
  repeat split; eapply K;
    [now apply sc_muladd_spec | now apply sc_mulsub_spec | now apply sc_mul_spec
    | now apply sc_add_spec | now apply sc_sub_spec | now apply sc_reduce32_spec].
Qed.

Lemma sc_outputs_check_witness :
  (let! s := sc_muladd ones32 ones32 ones32 in sc_check s) = Some 0.
Proof. apply (sc_outputs_check ones32 ones32 ones32); apply ones32_scalar. Defined.
