(* ===== verification/Curve.v ===== *)
(** * The twisted Edwards curve

    The group that the [ge_] functions of crypto-ops.c compute in: the affine points of
    -x^2 + y^2 = 1 + d x^2 y^2 over the field of 2^255 - 19 elements, with the constants
    [fe_d], [fe_d2] and [fe_sqrtm1] of crypto-ops-data.c. Since -1 is a square and [d] is
    not, the addition law has no exceptional case, and the points form a commutative
    group. *)

From Stdlib Require Import ZArith Lia List Bool Zmod Field.
From S2P Require Import Prelude Fe FeMul Primes.
Import ListNotations.

(** ** Constants *)

Definition fe_d : fe :=
  Fe (-10913610) 13857413 (-15372611) 6949391 114729
     (-8787816) (-6275908) (-3247719) (-18696448) (-12055116).

Definition fe_sqrtm1 : fe :=
  Fe (-32595792) (-7943725) 9377950 3500415 12389472
     (-272473) (-25146209) (-2005654) 326686 11406482.

Definition fe_d2 : fe :=
  Fe (-21827239) (-5839606) (-30745221) 13898782 229458
     15978800 (-12551817) (-6495438) 29715968 9444199.

(** ** The field *)

Add Field F_field : (Zmod.field_theory p25519 p25519_prime).

#[local] Open Scope Zmod_scope.
#[local] Notation "a / b" := (Zmod.mdiv a b) : Zmod_scope.

Definition d : F := fe_F fe_d.
Definition sqrtm1 : F := fe_F fe_sqrtm1.

Lemma fe_F_d : fe_F fe_d = d.
Proof. reflexivity. Qed.

Lemma fe_F_sqrtm1 : fe_F fe_sqrtm1 = sqrtm1.
Proof. reflexivity. Qed.

Lemma mul_0_iff (a b : F) : a * b = 0 <-> a = 0 \/ b = 0.
Proof. apply Zmod.mul_0_iff_prime, p25519_prime. Qed.

Lemma of_Z_eq (a b : Z) : (a mod p25519 =? b mod p25519)%Z = true -> Zmod.of_Z p25519 a = Zmod.of_Z p25519 b.
Proof. intros H%Z.eqb_eq. now apply Zmod.of_Z_inj. Qed.

(** [d = -121665 / 121666], as the comment of crypto-ops-data.c says. *)
Lemma d_spec : d * Zmod.of_Z p25519 121666 = - Zmod.of_Z p25519 121665.
Proof.
  unfold d, fe_F. rewrite <- Zmod.of_Z_mul, <- Zmod.of_Z_opp. apply of_Z_eq. reflexivity.
Qed.

Lemma d2_spec : fe_F fe_d2 = d + d.
Proof. unfold d, fe_F. rewrite <- Zmod.of_Z_add. apply of_Z_eq. reflexivity. Qed.

Lemma sqrtm1_spec : sqrtm1 * sqrtm1 = - (1).
Proof.
  unfold sqrtm1, fe_F, Zmod.one. rewrite <- Zmod.of_Z_mul, <- Zmod.of_Z_opp. apply of_Z_eq. reflexivity.
Qed.

Lemma two_neq_0 : (1 + 1 : F) <> 0.
Proof.
  intros H. apply (f_equal Zmod.to_Z) in H. unfold Zmod.one in H.
  rewrite <- Zmod.of_Z_add, Zmod.to_Z_of_Z, Zmod.to_Z_0 in H. discriminate.
Qed.

Lemma one_neq_0 : (1 : F) <> 0.
Proof. apply Zmod.one_neq_zero. discriminate. Qed.

(** ** Polynomial identities behind the group law

    [e x y] vanishes on the curve; the identities write each cross-multiplied difference in
    the ideal of the curve equations. *)

Definition curve_eq (x y : F) : F := d * x * x * y * y - y * y + x * x + 1.

Section Identities.
Variables x1 y1 x2 y2 x3 y3 : F.

Lemma closure_identity :
  let A := x1 * y2 + y1 * x2 in let B := 1 + d * x1 * x2 * y1 * y2 in
  let C := y1 * y2 + x1 * x2 in let D := 1 - d * x1 * x2 * y1 * y2 in
  C * C * (B * B) - A * A * (D * D) - B * B * (D * D) - d * (A * A) * (C * C) =
    (0 - y2 * y2 * y2 * y2 + (1 + 1) * (1 + 1) * x2 * x2 * y2 * y2 - x2 * x2 * x2 * x2 + (1 +
     1) * d * x2 * x2 * y2 * y2 - (1 + 1) * x2 * x2 * y2 * y2 * y2 * y2 + (1 + 1) * x2 * x2 *
     x2 * x2 * y2 * y2 + (1 + 1) * d * x2 * x2 * x2 * x2 * y2 * y2 * y2 * y2 + d * y1 * y1 *
     x2 * x2 * y2 * y2 * y2 * y2 - d * y1 * y1 * x2 * x2 * x2 * x2 * y2 * y2 - d * x1 * x1 *
     x2 * x2 * y2 * y2 * y2 * y2 + d * x1 * x1 * x2 * x2 * x2 * x2 * y2 * y2 + d * d * x2 * x2
     * x2 * x2 * y2 * y2 * y2 * y2 - d * d * y1 * y1 * x2 * x2 * x2 * x2 * y2 * y2 * y2 * y2 +
     d * d * x1 * x1 * x2 * x2 * x2 * x2 * y2 * y2 * y2 * y2 - d * d * d * x1 * x1 * y1 * y1 *
     x2 * x2 * x2 * x2 * y2 * y2 * y2 * y2) * curve_eq x1 y1
    + (0 - 1 - y2 * y2 + x2 * x2 - (1 + 1) * x2 * x2 * y2 * y2 + y1 * y1 * y2 * y2 - y1 * y1 *
     x2 * x2 - x1 * x1 * y2 * y2 + x1 * x1 * x2 * x2 - d * x2 * x2 * y2 * y2 + (1 + 1) * y1 *
     y1 * x2 * x2 * y2 * y2 - (1 + 1) * x1 * x1 * x2 * x2 * y2 * y2 + (1 + 1) * d * y1 * y1 *
     x2 * x2 * y2 * y2 - (1 + 1) * d * x1 * x1 * x2 * x2 * y2 * y2 - d * y1 * y1 * y1 * y1 *
     x2 * x2 * y2 * y2 - d * x1 * x1 * x1 * x1 * x2 * x2 * y2 * y2) * curve_eq x2 y2.
Proof. cbv zeta. unfold curve_eq. ring. Qed.

Lemma assoc_identity_x :
  let A := x1 * y2 + y1 * x2 in let B := 1 + d * x1 * x2 * y1 * y2 in
  let C := y1 * y2 + x1 * x2 in let D := 1 - d * x1 * x2 * y1 * y2 in
  let A' := x2 * y3 + y2 * x3 in let B' := 1 + d * x2 * x3 * y2 * y3 in
  let C' := y2 * y3 + x2 * x3 in let D' := 1 - d * x2 * x3 * y2 * y3 in
  (A * D * y3 + C * B * x3) * (B' * D' + d * x1 * y1 * A' * C')
  - (x1 * C' * B' + y1 * A' * D') * (B * D + d * A * C * x3 * y3) =
    (d * y1 * x2 * x2 * y2 * y2 * y2 * x3 + d * y1 * x2 * x2 * x2 * y2 * y2 * y3 + d * x1 * x2
     * x2 * y2 * y2 * y2 * y3 + d * x1 * x2 * x2 * x2 * y2 * y2 * x3 + d * y1 * x2 * y2 * y2 *
     y2 * y2 * x3 * x3 * y3 + d * y1 * x2 * x2 * y2 * y2 * y2 * x3 * x3 * x3 - d * y1 * x2 *
     x2 * x2 * y2 * y2 * y3 * y3 * y3 - d * y1 * x2 * x2 * x2 * x2 * y2 * x3 * y3 * y3 - d *
     x1 * x2 * y2 * y2 * y2 * y2 * x3 * y3 * y3 - d * x1 * x2 * x2 * y2 * y2 * y2 * y3 * y3 *
     y3 + d * x1 * x2 * x2 * x2 * y2 * y2 * x3 * x3 * x3 + d * x1 * x2 * x2 * x2 * x2 * y2 *
     x3 * x3 * y3 - d * d * y1 * x2 * x2 * x2 * y2 * y2 * y2 * y2 * x3 * x3 * y3 - d * d * y1
     * x2 * x2 * x2 * x2 * y2 * y2 * y2 * x3 * y3 * y3 + d * d * x1 * x2 * x2 * x2 * y2 * y2 *
     y2 * y2 * x3 * y3 * y3 + d * d * x1 * x2 * x2 * x2 * x2 * y2 * y2 * y2 * x3 * x3 * y3) * curve_eq x1 y1
    + (d * y1 * x2 * y2 * y2 * x3 * x3 * y3 + d * y1 * x2 * x2 * y2 * x3 * y3 * y3 - d * x1 * x2
     * y2 * y2 * x3 * y3 * y3 - d * x1 * x2 * x2 * y2 * x3 * x3 * y3 + d * x1 * y1 * y1 * x2 *
     y2 * y2 * x3 - d * x1 * y1 * y1 * x2 * x2 * y2 * y3 - d * x1 * x1 * y1 * x2 * y2 * y2 *
     y3 + d * x1 * x1 * y1 * x2 * x2 * y2 * x3 - d * y1 * y1 * y1 * x2 * y2 * y2 * x3 * x3 *
     y3 - d * y1 * y1 * y1 * x2 * x2 * y2 * x3 * y3 * y3 + d * x1 * y1 * y1 * x2 * y2 * y2 *
     x3 * x3 * x3 + d * x1 * y1 * y1 * x2 * x2 * y2 * y3 * y3 * y3 + d * x1 * x1 * y1 * x2 *
     y2 * y2 * y3 * y3 * y3 + d * x1 * x1 * y1 * x2 * x2 * y2 * x3 * x3 * x3 - d * x1 * x1 *
     x1 * x2 * y2 * y2 * x3 * y3 * y3 - d * x1 * x1 * x1 * x2 * x2 * y2 * x3 * x3 * y3) * curve_eq x2 y2
    + (0 - d * y1 * x2 * x2 * y2 * y2 * y2 * x3 - d * y1 * x2 * x2 * x2 * y2 * y2 * y3 - d * x1
     * x2 * x2 * y2 * y2 * y2 * y3 - d * x1 * x2 * x2 * x2 * y2 * y2 * x3 + d * y1 * y1 * y1 *
     x2 * x2 * y2 * y2 * y2 * x3 + d * y1 * y1 * y1 * x2 * x2 * x2 * y2 * y2 * y3 + d * x1 *
     y1 * y1 * x2 * y2 * y2 * y2 * y2 * x3 + d * x1 * y1 * y1 * x2 * x2 * x2 * x2 * y2 * y3 -
     d * x1 * x1 * y1 * x2 * y2 * y2 * y2 * y2 * y3 - d * x1 * x1 * y1 * x2 * x2 * x2 * x2 *
     y2 * x3 - d * x1 * x1 * x1 * x2 * x2 * y2 * y2 * y2 * y3 - d * x1 * x1 * x1 * x2 * x2 *
     x2 * y2 * y2 * x3 - d * d * x1 * y1 * y1 * x2 * x2 * x2 * y2 * y2 * y2 * y2 * x3 + d * d
     * x1 * y1 * y1 * x2 * x2 * x2 * x2 * y2 * y2 * y2 * y3 + d * d * x1 * x1 * y1 * x2 * x2 *
     x2 * y2 * y2 * y2 * y2 * y3 - d * d * x1 * x1 * y1 * x2 * x2 * x2 * x2 * y2 * y2 * y2 *
     x3) * curve_eq x3 y3.
Proof. cbv zeta. unfold curve_eq. ring. Qed.

Lemma assoc_identity_y :
  let A := x1 * y2 + y1 * x2 in let B := 1 + d * x1 * x2 * y1 * y2 in
  let C := y1 * y2 + x1 * x2 in let D := 1 - d * x1 * x2 * y1 * y2 in
  let A' := x2 * y3 + y2 * x3 in let B' := 1 + d * x2 * x3 * y2 * y3 in
  let C' := y2 * y3 + x2 * x3 in let D' := 1 - d * x2 * x3 * y2 * y3 in
  (C * B * y3 + A * D * x3) * (B' * D' - d * x1 * y1 * A' * C')
  - (y1 * C' * B' + x1 * A' * D') * (B * D - d * A * C * x3 * y3) =
    (d * y1 * x2 * x2 * y2 * y2 * y2 * y3 + d * y1 * x2 * x2 * x2 * y2 * y2 * x3 + d * x1 * x2
     * x2 * y2 * y2 * y2 * x3 + d * x1 * x2 * x2 * x2 * y2 * y2 * y3 - d * y1 * x2 * y2 * y2 *
     y2 * y2 * x3 * y3 * y3 - d * y1 * x2 * x2 * y2 * y2 * y2 * y3 * y3 * y3 + d * y1 * x2 *
     x2 * x2 * y2 * y2 * x3 * x3 * x3 + d * y1 * x2 * x2 * x2 * x2 * y2 * x3 * x3 * y3 + d *
     x1 * x2 * y2 * y2 * y2 * y2 * x3 * x3 * y3 + d * x1 * x2 * x2 * y2 * y2 * y2 * x3 * x3 *
     x3 - d * x1 * x2 * x2 * x2 * y2 * y2 * y3 * y3 * y3 - d * x1 * x2 * x2 * x2 * x2 * y2 *
     x3 * y3 * y3 + d * d * y1 * x2 * x2 * x2 * y2 * y2 * y2 * y2 * x3 * y3 * y3 + d * d * y1
     * x2 * x2 * x2 * x2 * y2 * y2 * y2 * x3 * x3 * y3 - d * d * x1 * x2 * x2 * x2 * y2 * y2 *
     y2 * y2 * x3 * x3 * y3 - d * d * x1 * x2 * x2 * x2 * x2 * y2 * y2 * y2 * x3 * y3 * y3) * curve_eq x1 y1
    + (0 - d * y1 * x2 * y2 * y2 * x3 * y3 * y3 - d * y1 * x2 * x2 * y2 * x3 * x3 * y3 + d * x1
     * x2 * y2 * y2 * x3 * x3 * y3 + d * x1 * x2 * x2 * y2 * x3 * y3 * y3 + d * x1 * y1 * y1 *
     x2 * y2 * y2 * y3 - d * x1 * y1 * y1 * x2 * x2 * y2 * x3 - d * x1 * x1 * y1 * x2 * y2 *
     y2 * x3 + d * x1 * x1 * y1 * x2 * x2 * y2 * y3 + d * y1 * y1 * y1 * x2 * y2 * y2 * x3 *
     y3 * y3 + d * y1 * y1 * y1 * x2 * x2 * y2 * x3 * x3 * y3 - d * x1 * y1 * y1 * x2 * y2 *
     y2 * y3 * y3 * y3 - d * x1 * y1 * y1 * x2 * x2 * y2 * x3 * x3 * x3 - d * x1 * x1 * y1 *
     x2 * y2 * y2 * x3 * x3 * x3 - d * x1 * x1 * y1 * x2 * x2 * y2 * y3 * y3 * y3 + d * x1 *
     x1 * x1 * x2 * y2 * y2 * x3 * x3 * y3 + d * x1 * x1 * x1 * x2 * x2 * y2 * x3 * y3 * y3) * curve_eq x2 y2
    + (0 - d * y1 * x2 * x2 * y2 * y2 * y2 * y3 - d * y1 * x2 * x2 * x2 * y2 * y2 * x3 - d * x1
     * x2 * x2 * y2 * y2 * y2 * x3 - d * x1 * x2 * x2 * x2 * y2 * y2 * y3 + d * y1 * y1 * y1 *
     x2 * x2 * y2 * y2 * y2 * y3 + d * y1 * y1 * y1 * x2 * x2 * x2 * y2 * y2 * x3 + d * x1 *
     y1 * y1 * x2 * y2 * y2 * y2 * y2 * y3 + d * x1 * y1 * y1 * x2 * x2 * x2 * x2 * y2 * x3 -
     d * x1 * x1 * y1 * x2 * y2 * y2 * y2 * y2 * x3 - d * x1 * x1 * y1 * x2 * x2 * x2 * x2 *
     y2 * y3 - d * x1 * x1 * x1 * x2 * x2 * y2 * y2 * y2 * x3 - d * x1 * x1 * x1 * x2 * x2 *
     x2 * y2 * y2 * y3 - d * d * x1 * y1 * y1 * x2 * x2 * x2 * y2 * y2 * y2 * y2 * y3 + d * d
     * x1 * y1 * y1 * x2 * x2 * x2 * x2 * y2 * y2 * y2 * x3 + d * d * x1 * x1 * y1 * x2 * x2 *
     x2 * y2 * y2 * y2 * y2 * x3 - d * d * x1 * x1 * y1 * x2 * x2 * x2 * x2 * y2 * y2 * y2 *
     y3) * curve_eq x3 y3.
Proof. cbv zeta. unfold curve_eq. ring. Qed.
End Identities.

(** ** [d] is not a square *)

Definition half : Z := ((p25519 - 1) / 2)%Z.

Lemma half_pos : (0 < half)%Z.
Proof. vm_compute. reflexivity. Qed.

Lemma d_euler : Zmod.pow d half = - (1).
Proof.
  unfold d, fe_F. pose proof half_pos. rewrite <- Zmod.of_Z_mod, <- Zmod.of_Z_pow by lia.
  rewrite <- Zmod.of_Z_mod, <- zpowmod_spec by (exact half_pos || (vm_compute; discriminate)).
  unfold Zmod.one. rewrite <- Zmod.of_Z_opp. apply of_Z_eq. vm_compute. reflexivity.
Qed.

Lemma pow_half_square (s : F) : s <> 0 -> Zmod.pow (s * s) half = 1.
Proof.
  intros Hs. pose proof half_pos. rewrite <- Zmod.pow_2_r, <- Zmod.pow_mul_r_nonneg by lia.
  change (2 * half)%Z with (p25519 - 1)%Z.
  replace (p25519 - 1)%Z with (Z.pred p25519) by reflexivity.
  apply Zmod.fermat_nz; [exact Hs | apply p25519_prime].
Qed.

(** Euler's criterion. *)
Lemma euler_nonsquare (n u w : F) : Zmod.pow n half = - (1) -> n * (u * u) = w * w -> u = 0.
Proof.
  intros En H. destruct (Zmod.eqb_spec u 0) as [E|Hu]; [exact E | exfalso].
  assert (w <> 0) as Hw.
  { intros ->. rewrite Zmod.mul_0_l, !mul_0_iff in H. destruct H as [H|[H|H]]; [|auto..].
    pose proof half_pos. rewrite H, Zmod.pow_0_l in En by lia.
    apply one_neq_0. transitivity (- (- (1) : F)); [ring | rewrite <- En; ring]. }
  assert (n = (w / u) * (w / u)) as Ed.
  { transitivity (n * (u * u) / (u * u)); [field; exact Hu | rewrite H; field; exact Hu]. }
  assert (w / u <> 0) as Hq.
  { intros E. apply Hw. transitivity (w / u * u); [field; exact Hu | rewrite E; ring]. }
  rewrite Ed, pow_half_square in En by exact Hq.
  apply two_neq_0. rewrite En at 1. ring.
Qed.

Lemma d_nonsquare (u w : F) : d * (u * u) = w * w -> u = 0.
Proof. exact (euler_nonsquare d u w d_euler). Qed.

(** ** Completeness *)

Definition point : Type := F * F.

Definition on_curve (P : point) : Prop := let '(x, y) := P in y * y - x * x = 1 + d * x * x * y * y.

Lemma on_curve_eq x y : on_curve (x, y) <-> curve_eq x y = 0.
Proof.
  unfold on_curve, curve_eq. split; intros H.
  - transitivity (1 + d * x * x * y * y - (y * y - x * x)); [ring | rewrite H; ring].
  - transitivity (1 + d * x * x * y * y - (d * x * x * y * y - y * y + x * x + 1)); [ring | rewrite H; ring].
Qed.

(** [d x1 x2 y1 y2] is never 1 nor -1. *)
Lemma complete_sq x1 y1 x2 y2 :
  on_curve (x1, y1) -> on_curve (x2, y2) ->
  let e := d * x1 * x2 * y1 * y2 in e * e <> 1.
Proof.
  intros H1 H2 e He. unfold on_curve in H1, H2.
  assert (forall s : F, s * s = 1 ->
    (sqrtm1 * x1 + s * e * y1) * (sqrtm1 * x1 + s * e * y1)
    = d * (x1 * y1 * (sqrtm1 * x2 + s * y2) * (x1 * y1 * (sqrtm1 * x2 + s * y2)))) as K.
  { intros s Hs.
    transitivity (sqrtm1 * sqrtm1 * (x1 * x1) + s * s * (e * e) * (y1 * y1) + (1 + 1) * s * sqrtm1 * x1 * y1 * e); [ring|].
    transitivity (d * x1 * x1 * y1 * y1 * (sqrtm1 * sqrtm1 * (x2 * x2) + s * s * (y2 * y2))
                  + (1 + 1) * s * sqrtm1 * x1 * y1 * e); [|unfold e; ring].
    rewrite sqrtm1_spec, Hs, He.
    transitivity (y1 * y1 - x1 * x1 + (1 + 1) * s * sqrtm1 * x1 * y1 * e); [ring|].
    transitivity (d * x1 * x1 * y1 * y1 * (y2 * y2 - x2 * x2) + (1 + 1) * s * sqrtm1 * x1 * y1 * e); [|ring].
    rewrite H1, H2. rewrite <- He at 1. unfold e. ring. }
  assert (x1 * y1 <> 0) as Hxy.
  { intros E. apply one_neq_0. rewrite <- He. unfold e.
    transitivity ((x1 * y1) * (d * x2 * y2) * (d * x1 * x2 * y1 * y2)); [ring | rewrite E; ring]. }
  assert (forall s : F, s * s = 1 -> sqrtm1 * x2 + s * y2 = 0) as Z.
  { intros s Hs. pose proof (d_nonsquare _ _ (eq_sym (K s Hs))) as E.
    apply mul_0_iff in E as [E|E]; [contradiction | exact E]. }
  pose proof (Z 1 ltac:(ring)) as Z1. pose proof (Z (- (1)) ltac:(ring)) as Z2.
  assert (y2 = 0) as Ey.
  { assert ((1 + 1) * y2 = 0) as E.
    { transitivity ((sqrtm1 * x2 + 1 * y2) - (sqrtm1 * x2 + - (1) * y2)); [ring | rewrite Z1, Z2; ring]. }
    apply mul_0_iff in E as [E|E]; [now apply two_neq_0 in E | exact E]. }
  apply one_neq_0. rewrite <- He. unfold e. rewrite Ey. ring.
Qed.

Lemma complete x1 y1 x2 y2 :
  on_curve (x1, y1) -> on_curve (x2, y2) ->
  1 + d * x1 * x2 * y1 * y2 <> 0 /\ 1 - d * x1 * x2 * y1 * y2 <> 0.
Proof.
  intros H1 H2. pose proof (complete_sq x1 y1 x2 y2 H1 H2) as H. cbv zeta in H.
  split; intros E; apply H; set (e := d * x1 * x2 * y1 * y2) in *.
  - transitivity (1 - (1 + e) * (1 - e)); [ring | rewrite E; ring].
  - transitivity (1 - (1 + e) * (1 - e)); [ring | rewrite E; ring].
Qed.

(** ** The group law *)

Definition ed_0 : point := (0, 1).

Definition ed_opp (P : point) : point := let '(x, y) := P in (- x, y).

Definition ed_add (P Q : point) : point :=
  let '(x1, y1) := P in let '(x2, y2) := Q in
  ((x1 * y2 + y1 * x2) / (1 + d * x1 * x2 * y1 * y2),
   (y1 * y2 + x1 * x2) / (1 - d * x1 * x2 * y1 * y2)).

Lemma ed_0_on_curve : on_curve ed_0.
Proof. unfold on_curve, ed_0. ring. Qed.

Lemma ed_opp_on_curve P : on_curve P -> on_curve (ed_opp P).
Proof. destruct P as [x y]. unfold on_curve, ed_opp. intros H. transitivity (y * y - x * x); [ring | rewrite H; ring]. Qed.

Lemma ed_add_on_curve P Q : on_curve P -> on_curve Q -> on_curve (ed_add P Q).
Proof.
  destruct P as [x1 y1], Q as [x2 y2]. intros H1 H2.
  destruct (complete x1 y1 x2 y2 H1 H2) as [HB HD].
  pose proof (closure_identity x1 y1 x2 y2) as E. cbv zeta in E.
  rewrite on_curve_eq in H1, H2. rewrite H1, H2 in E.
  unfold on_curve, ed_add. revert HB HD E.
  generalize (x1 * y2 + y1 * x2), (y1 * y2 + x1 * x2),
    (1 + d * x1 * x2 * y1 * y2), (1 - d * x1 * x2 * y1 * y2). clear. intros A C B D HB HD E.
  assert (C * C * (B * B) - A * A * (D * D) = B * B * (D * D) + d * (A * A) * (C * C)) as E'.
  { transitivity (C * C * (B * B) - A * A * (D * D) - B * B * (D * D) - d * (A * A) * (C * C)
                  + (B * B * (D * D) + d * (A * A) * (C * C))); [ring | rewrite E; ring]. }
  transitivity ((C * C * (B * B) - A * A * (D * D)) / (B * B * (D * D))); [field; auto|].
  rewrite E'. field. auto.
Qed.

Lemma ed_add_comm P Q : ed_add P Q = ed_add Q P.
Proof.
  destruct P as [x1 y1], Q as [x2 y2]. unfold ed_add. f_equal; f_equal; ring.
Qed.

Lemma ed_add_0_l P : ed_add ed_0 P = P.
Proof.
  destruct P as [x y]. unfold ed_add, ed_0. f_equal.
  - transitivity (x / 1); [f_equal; ring | apply Zmod.div_1_r].
  - transitivity (y / 1); [f_equal; ring | apply Zmod.div_1_r].
Qed.

Lemma div_eq (a b c e : F) : b <> 0 -> e <> 0 -> a * e = c * b -> a / b = c / e.
Proof.
  intros Hb He H. transitivity (a * e / (b * e)); [field; auto | rewrite H; field; auto].
Qed.

Lemma ed_add_opp_l P : on_curve P -> ed_add (ed_opp P) P = ed_0.
Proof.
  destruct P as [x y]. intros H.
  destruct (complete _ _ _ _ (ed_opp_on_curve _ H) H) as [HB HD]. unfold ed_opp, ed_add, ed_0 in *.
  unfold on_curve in H. f_equal.
  - transitivity (0 / (1 + d * - x * x * y * y)); [f_equal; ring | field; exact HB].
  - transitivity ((1 - d * - x * x * y * y) / (1 - d * - x * x * y * y)); [f_equal | field; exact HD].
    transitivity (y * y - x * x); [ring | rewrite H; ring].
Qed.

Lemma sub_0_eq (a b : F) : a - b = 0 -> a = b.
Proof. intros H. transitivity (a - b + b); [ring | rewrite H; ring]. Qed.

Lemma ed_add_assoc P Q R :
  on_curve P -> on_curve Q -> on_curve R -> ed_add (ed_add P Q) R = ed_add P (ed_add Q R).
Proof.
  intros HP HQ HR.
  pose proof (ed_add_on_curve _ _ HP HQ) as HPQ. pose proof (ed_add_on_curve _ _ HQ HR) as HQR.
  destruct P as [x1 y1], Q as [x2 y2], R as [x3 y3].
  destruct (complete _ _ _ _ HP HQ) as [HB HD]. destruct (complete _ _ _ _ HQ HR) as [HB' HD'].
  destruct (complete _ _ _ _ HPQ HR) as [H1 H2]. destruct (complete _ _ _ _ HP HQR) as [H3 H4].
  clear HPQ HQR. rewrite on_curve_eq in HP, HQ, HR.
  pose proof (assoc_identity_x x1 y1 x2 y2 x3 y3) as Ex.
  pose proof (assoc_identity_y x1 y1 x2 y2 x3 y3) as Ey.
  cbv zeta in Ex, Ey. rewrite HP, HQ, HR, !Zmod.mul_0_r, !Zmod.add_0_r in Ex, Ey. clear HP HQ HR.
  unfold ed_add.
  revert HB HD HB' HD' H1 H2 H3 H4 Ex Ey.
  generalize (x1 * y2 + y1 * x2), (y1 * y2 + x1 * x2),
    (1 + d * x1 * x2 * y1 * y2), (1 - d * x1 * x2 * y1 * y2). intros A C B D.
  generalize (x2 * y3 + y2 * x3), (y2 * y3 + x2 * x3),
    (1 + d * x2 * x3 * y2 * y3), (1 - d * x2 * x3 * y2 * y3). intros A' C' B' D'.
  clear. intros HB HD HB' HD' H1 H2 H3 H4 Ex Ey.
  f_equal; apply div_eq; trivial; apply sub_0_eq.
  - match type of Ex with ?a = _ => transitivity (a / (B * D * B' * D')); [field; auto|] end.
    rewrite Ex. field. auto.
  - match type of Ey with ?a = _ => transitivity (a / (B * D * B' * D')); [field; auto|] end.
    rewrite Ey. field. auto.
Qed.

(** ** Multiples *)

(** [n P]. *)
Fixpoint ed_mul_nat (n : nat) (P : point) : point :=
  match n with
  | O => ed_0
  | S n => ed_add P (ed_mul_nat n P)
  end.

Definition ed_mul (n : Z) (P : point) : point :=
  if (n <? 0)%Z then ed_opp (ed_mul_nat (Z.to_nat (- n)) P) else ed_mul_nat (Z.to_nat n) P.

Section Multiples.
Variable P : point.
Hypothesis HP : on_curve P.

Lemma ed_mul_nat_on_curve n : on_curve (ed_mul_nat n P).
Proof. induction n; [apply ed_0_on_curve | now apply ed_add_on_curve]. Qed.

Lemma ed_mul_on_curve n : on_curve (ed_mul n P).
Proof. unfold ed_mul. destruct (n <? 0)%Z; [apply ed_opp_on_curve|]; apply ed_mul_nat_on_curve. Qed.

Lemma ed_add_cancel Q R S : on_curve Q -> on_curve R -> on_curve S -> ed_add Q R = ed_add Q S -> R = S.
Proof.
  intros HQ HR HS E. rewrite <- (ed_add_0_l R), <- (ed_add_0_l S), <- (ed_add_opp_l Q HQ).
  pose proof (ed_opp_on_curve Q HQ). now rewrite !ed_add_assoc, E.
Qed.

Lemma ed_mul_nat_opp n : ed_add P (ed_opp (ed_mul_nat (S n) P)) = ed_opp (ed_mul_nat n P).
Proof.
  pose proof (ed_mul_nat_on_curve n) as Hn. pose proof (ed_mul_nat_on_curve (S n)) as Hs.
  pose proof (ed_opp_on_curve _ Hn). pose proof (ed_opp_on_curve _ Hs).
  apply (ed_add_cancel (ed_mul_nat n P)); trivial; [now apply ed_add_on_curve|].
  rewrite <- ed_add_assoc by trivial. rewrite (ed_add_comm _ P).
  change (ed_add P (ed_mul_nat n P)) with (ed_mul_nat (S n) P).
  rewrite !(ed_add_comm _ (ed_opp _)). now rewrite !ed_add_opp_l.
Qed.

(** One more, in either direction. *)
Lemma ed_mul_succ n : ed_mul (n + 1) P = ed_add P (ed_mul n P).
Proof.
  unfold ed_mul. destruct (Z.ltb_spec n 0), (Z.ltb_spec (n + 1) 0); try lia.
  - replace (Z.to_nat (- n)) with (S (Z.to_nat (- (n + 1)))) by lia. symmetry. apply ed_mul_nat_opp.
  - replace n with (-1)%Z by lia. change (Z.to_nat (-1 + 1)) with 0%nat.
    change (Z.to_nat (- -1)) with 1%nat. rewrite ed_mul_nat_opp. unfold ed_mul_nat, ed_opp, ed_0.
    f_equal; ring.
  - replace (Z.to_nat (n + 1)) with (S (Z.to_nat n)) by lia. reflexivity.
Qed.

Lemma ed_mul_0 : ed_mul 0 P = ed_0.
Proof. reflexivity. Qed.

Lemma ed_mul_1 : ed_mul 1 P = P.
Proof. change (ed_add P ed_0 = P). rewrite ed_add_comm. apply ed_add_0_l. Qed.

Lemma ed_mul_add m n : ed_mul (m + n) P = ed_add (ed_mul m P) (ed_mul n P).
Proof.
  pose proof ed_mul_on_curve.
  induction m as [|m IH|m IH] using Z.peano_ind.
  - now rewrite ed_mul_0, ed_add_0_l.
  - unfold Z.succ. replace (m + 1 + n)%Z with (m + n + 1)%Z by lia.
    now rewrite !ed_mul_succ, IH, ed_add_assoc.
  - apply (ed_add_cancel P); auto using ed_add_on_curve.
    rewrite <- ed_add_assoc, <- !ed_mul_succ by auto.
    replace (Z.pred m + n + 1)%Z with (m + n)%Z by lia.
    now replace (Z.pred m + 1)%Z with m by lia.
Qed.

Lemma ed_mul_opp n : ed_mul (- n) P = ed_opp (ed_mul n P).
Proof.
  pose proof ed_mul_on_curve. pose proof (ed_opp_on_curve (ed_mul n P)).
  apply (ed_add_cancel (ed_mul n P)); auto.
  rewrite <- ed_mul_add, Z.add_opp_diag_r, ed_mul_0, ed_add_comm. symmetry. now apply ed_add_opp_l.
Qed.
End Multiples.

Lemma ed_mul_mul m n P : on_curve P -> ed_mul (m * n) P = ed_mul m (ed_mul n P).
Proof.
  intros HP. pose proof (ed_mul_on_curve P HP) as Hc.
  induction m as [|m IH|m IH] using Z.peano_ind; [reflexivity | |].
  - unfold Z.succ. rewrite Z.mul_add_distr_r, Z.mul_1_l, Z.add_comm, ed_mul_add, IH by exact HP.
    now rewrite <- ed_mul_succ by auto.
  - unfold Z.pred. rewrite Z.mul_add_distr_r. 
    rewrite !ed_mul_add, IH by auto. f_equal. 
    replace (-1 * n)%Z with (- n)%Z by lia. rewrite ed_mul_opp by auto.
    change (-1)%Z with (- (1))%Z. now rewrite ed_mul_opp, ed_mul_1 by auto.
Qed.

(** ** Claims *)

(** The constants of crypto-ops-data.c are what their comments say: [fe_d] is
    -121665/121666, [fe_d2] is 2 d, [fe_sqrtm1] is a square root of -1 (the even one, below
    the prime), and [fe_d] is not a square. *)
Theorem curve_constants :
  d * Zmod.of_Z p25519 121666 = - Zmod.of_Z p25519 121665 /\
  fe_F fe_d2 = d + d /\
  fe_F fe_sqrtm1 * fe_F fe_sqrtm1 = - (1) /\ (Zmod.to_Z (fe_F fe_sqrtm1) mod 2 = 0)%Z /\
  (forall s, s * s <> fe_F fe_d).
Proof.
  split; [apply d_spec|]. split; [apply d2_spec|]. split; [apply sqrtm1_spec|].
  split; [vm_compute; reflexivity|]. intros s E. apply one_neq_0.
  apply (d_nonsquare 1 s). rewrite E, fe_F_d. ring.
Qed.

(** With the constant [fe_d] of the code the addition law is complete and makes the
    points of the curve a commutative group: closed, associative, commutative, with
    neutral element (0, 1) and inverse (-x, y). *)
Theorem edwards_group P Q R :
  on_curve P -> on_curve Q -> on_curve R ->
  on_curve (ed_add P Q) /\ ed_add (ed_add P Q) R = ed_add P (ed_add Q R) /\
  ed_add P Q = ed_add Q P /\ ed_add ed_0 P = P /\ ed_add (ed_opp P) P = ed_0 /\
  on_curve ed_0 /\ on_curve (ed_opp P).
Proof.
  intros HP HQ HR. split; [now apply ed_add_on_curve|]. split; [now apply ed_add_assoc|].
  split; [apply ed_add_comm|]. split; [apply ed_add_0_l|]. split; [now apply ed_add_opp_l|].
  split; [apply ed_0_on_curve | now apply ed_opp_on_curve].
Qed.

Lemma edwards_group_witness :
  on_curve ed_0 /\ ed_add (ed_add ed_0 ed_0) ed_0 = ed_add ed_0 (ed_add ed_0 ed_0).
Proof. split; apply (edwards_group ed_0 ed_0 ed_0 ed_0_on_curve ed_0_on_curve ed_0_on_curve). Defined.
