(* ===== verification/Ge.v ===== *)
(** * Group elements

    Models the five coordinate systems of crypto-ops.h ([ge_p2], [ge_p3], [ge_p1p1],
    [ge_precomp], [ge_cached]) and the group functions of crypto-ops.c that work on them,
    statement by statement. [p ~> P] says that the coordinates [p] represent the affine
    point [P] of the curve, with limbs in the ranges the field operations need; every
    operation maps representations to representations of the right point. *)

From Stdlib Require Import ZArith Lia List Bool Zmod Field.
From S2P Require Import Prelude Fe FeMul Primes Curve.
Import ListNotations.

(** ** Coordinates *)

Record ge_p2 := P2 { p2_X : fe; p2_Y : fe; p2_Z : fe }.

Record ge_p3 := P3 { p3_X : fe; p3_Y : fe; p3_Z : fe; p3_T : fe }.

Record ge_p1p1 := P1p1 { p1_X : fe; p1_Y : fe; p1_Z : fe; p1_T : fe }.

Record ge_precomp := Precomp { yplusx : fe; yminusx : fe; xy2d : fe }.

Record ge_cached := Cached { YplusX : fe; YminusX : fe; c_Z : fe; T2d : fe }.

(** ** Functions *)

Definition ge_add (p : ge_p3) (q : ge_cached) : option ge_p1p1 :=
  let! rX := fe_add (p3_Y p) (p3_X p) in
  let! rY := fe_sub (p3_Y p) (p3_X p) in
  let! rZ := fe_mul rX (YplusX q) in
  let! rY := fe_mul rY (YminusX q) in
  let! rT := fe_mul (T2d q) (p3_T p) in
  let! rX := fe_mul (p3_Z p) (c_Z q) in
  let! t0 := fe_add rX rX in
  let! rX := fe_sub rZ rY in
  let! rY := fe_add rZ rY in
  let! rZ := fe_add t0 rT in
  let! rT := fe_sub t0 rT in
  Some (P1p1 rX rY rZ rT).

Definition ge_sub (p : ge_p3) (q : ge_cached) : option ge_p1p1 :=
  let! rX := fe_add (p3_Y p) (p3_X p) in
  let! rY := fe_sub (p3_Y p) (p3_X p) in
  let! rZ := fe_mul rX (YminusX q) in
  let! rY := fe_mul rY (YplusX q) in
  let! rT := fe_mul (T2d q) (p3_T p) in
  let! rX := fe_mul (p3_Z p) (c_Z q) in
  let! t0 := fe_add rX rX in
  let! rX := fe_sub rZ rY in
  let! rY := fe_add rZ rY in
  let! rZ := fe_sub t0 rT in
  let! rT := fe_add t0 rT in
  Some (P1p1 rX rY rZ rT).

Definition ge_madd (p : ge_p3) (q : ge_precomp) : option ge_p1p1 :=
  let! rX := fe_add (p3_Y p) (p3_X p) in
  let! rY := fe_sub (p3_Y p) (p3_X p) in
  let! rZ := fe_mul rX (yplusx q) in
  let! rY := fe_mul rY (yminusx q) in
  let! rT := fe_mul (xy2d q) (p3_T p) in
  let! t0 := fe_add (p3_Z p) (p3_Z p) in
  let! rX := fe_sub rZ rY in
  let! rY := fe_add rZ rY in
  let! rZ := fe_add t0 rT in
  let! rT := fe_sub t0 rT in
  Some (P1p1 rX rY rZ rT).

Definition ge_msub (p : ge_p3) (q : ge_precomp) : option ge_p1p1 :=
  let! rX := fe_add (p3_Y p) (p3_X p) in
  let! rY := fe_sub (p3_Y p) (p3_X p) in
  let! rZ := fe_mul rX (yminusx q) in
  let! rY := fe_mul rY (yplusx q) in
  let! rT := fe_mul (xy2d q) (p3_T p) in
  let! t0 := fe_add (p3_Z p) (p3_Z p) in
  let! rX := fe_sub rZ rY in
  let! rY := fe_add rZ rY in
  let! rZ := fe_sub t0 rT in
  let! rT := fe_add t0 rT in
  Some (P1p1 rX rY rZ rT).

Definition ge_p1p1_to_p2 (p : ge_p1p1) : option ge_p2 :=
  let! rX := fe_mul (p1_X p) (p1_T p) in
  let! rY := fe_mul (p1_Y p) (p1_Z p) in
  let! rZ := fe_mul (p1_Z p) (p1_T p) in
  Some (P2 rX rY rZ).

Definition ge_p1p1_to_p3 (p : ge_p1p1) : option ge_p3 :=
  let! rX := fe_mul (p1_X p) (p1_T p) in
  let! rY := fe_mul (p1_Y p) (p1_Z p) in
  let! rZ := fe_mul (p1_Z p) (p1_T p) in
  let! rT := fe_mul (p1_X p) (p1_Y p) in
  Some (P3 rX rY rZ rT).

Definition ge_p2_0 : ge_p2 := P2 fe_0 fe_1 fe_1.

Definition ge_p2_dbl (p : ge_p2) : option ge_p1p1 :=
  let! rX := fe_sq (p2_X p) in
  let! rZ := fe_sq (p2_Y p) in
  let! rT := fe_sq2 (p2_Z p) in
  let! rY := fe_add (p2_X p) (p2_Y p) in
  let! t0 := fe_sq rY in
  let! rY := fe_add rZ rX in
  let! rZ := fe_sub rZ rX in
  let! rX := fe_sub t0 rY in
  let! rT := fe_sub rT rZ in
  Some (P1p1 rX rY rZ rT).

Definition ge_p3_0 : ge_p3 := P3 fe_0 fe_1 fe_1 fe_0.

Definition ge_p3_to_p2 (p : ge_p3) : ge_p2 :=
  P2 (fe_copy (p3_X p)) (fe_copy (p3_Y p)) (fe_copy (p3_Z p)).

Definition ge_p3_dbl (p : ge_p3) : option ge_p1p1 :=
  let q := ge_p3_to_p2 p in
  ge_p2_dbl q.

Definition ge_p3_to_cached (p : ge_p3) : option ge_cached :=
  let! yp := fe_add (p3_Y p) (p3_X p) in
  let! ym := fe_sub (p3_Y p) (p3_X p) in
  let z := fe_copy (p3_Z p) in
  let! t := fe_mul (p3_T p) fe_d2 in
  Some (Cached yp ym z t).

Definition ge_precomp_0 : ge_precomp := Precomp fe_1 fe_1 fe_0.

Definition ge_precomp_cmov (t u : ge_precomp) (b : Z) : option ge_precomp :=
  let! yp := fe_cmov (yplusx t) (yplusx u) b in
  let! ym := fe_cmov (yminusx t) (yminusx u) b in
  let! xy := fe_cmov (xy2d t) (xy2d u) b in
  Some (Precomp yp ym xy).

Definition ge_cached_0 : ge_cached := Cached fe_1 fe_1 fe_1 fe_0.

Definition ge_cached_cmov (t u : ge_cached) (b : Z) : option ge_cached :=
  let! yp := fe_cmov (YplusX t) (YplusX u) b in
  let! ym := fe_cmov (YminusX t) (YminusX u) b in
  let! z := fe_cmov (c_Z t) (c_Z u) b in
  let! t2 := fe_cmov (T2d t) (T2d u) b in
  Some (Cached yp ym z t2).

(** [ge_mul8]: 8 times a point. *)
Definition ge_mul8 (t : ge_p2) : option ge_p1p1 :=
  let! r := ge_p2_dbl t in
  let! u := ge_p1p1_to_p2 r in
  let! r := ge_p2_dbl u in
  let! u := ge_p1p1_to_p2 r in
  ge_p2_dbl u.

(** ** Representation *)

#[local] Open Scope Zmod_scope.
#[local] Notation "a / b" := (Zmod.mdiv a b) : Zmod_scope.

#[local] Opaque fe_F d Zmod.mul Zmod.add Zmod.sub Zmod.opp Zmod.mdiv Zmod.one Zmod.zero.

(** Coordinates of type [A] represent points. *)
Class Represents (A : Type) := repr : A -> point -> Prop.

Notation "p ~> P" := (repr p P) (at level 70, no associativity) : c_scope.

#[export] Instance repr_p2 : Represents ge_p2 := fun p P =>
  let '(x, y) := P in
  let '(P2 X Y Z) := p in
  on_curve P /\ (fe_101 X /\ fe_101 Y /\ fe_101 Z) /\
  fe_F Z <> 0 /\ fe_F X = x * fe_F Z /\ fe_F Y = y * fe_F Z.

#[export] Instance repr_p3 : Represents ge_p3 := fun p P =>
  let '(x, y) := P in
  let '(P3 X Y Z T) := p in
  on_curve P /\ (fe_101 X /\ fe_101 Y /\ fe_101 Z /\ fe_101 T) /\
  fe_F Z <> 0 /\ fe_F X = x * fe_F Z /\ fe_F Y = y * fe_F Z /\ fe_F T = x * y * fe_F Z.

#[export] Instance repr_p1p1 : Represents ge_p1p1 := fun p P =>
  let '(x, y) := P in
  let '(P1p1 X Y Z T) := p in
  on_curve P /\ (fe_165 X /\ fe_165 Y /\ fe_165 Z /\ fe_165 T) /\
  fe_F Z <> 0 /\ fe_F T <> 0 /\ fe_F X = x * fe_F Z /\ fe_F Y = y * fe_F T.

#[export] Instance repr_precomp : Represents ge_precomp := fun p P =>
  let '(x, y) := P in
  let '(Precomp yp ym xy) := p in
  on_curve P /\ (fe_101 yp /\ fe_101 ym /\ fe_101 xy) /\
  fe_F yp = y + x /\ fe_F ym = y - x /\ fe_F xy = (d + d) * x * y.

#[export] Instance repr_cached : Represents ge_cached := fun p P =>
  let '(x, y) := P in
  let '(Cached yp ym Z t) := p in
  on_curve P /\ (fe_220 yp /\ fe_220 ym /\ fe_101 Z /\ fe_101 t) /\
  fe_F Z <> 0 /\ fe_F yp = (y + x) * fe_F Z /\ fe_F ym = (y - x) * fe_F Z /\
  fe_F t = (d + d) * x * y * fe_F Z.

Lemma repr_on_curve_p2 (p : ge_p2) P : p ~> P -> on_curve P.
Proof. destruct p, P. now intros [H _]. Qed.

Lemma repr_on_curve_p3 (p : ge_p3) P : p ~> P -> on_curve P.
Proof. destruct p, P. now intros [H _]. Qed.

(** ** Symbolic execution of field operations

    [fe_exec] runs the field operations of a goal; each result gets its class and its
    bounds. *)

Ltac fe_unfold :=
  unfold fe_101, fe_165, fe_220 in *.

Ltac known_fe f :=
  match goal with H : fe_le _ _ f |- _ => constr:(H) end.

Ltac fe_weak := eapply fe_le_weaken; [eassumption | reflexivity].

Ltac fe_norm H :=
  match type of H with
  | fe_le ?a ?b ?h =>
      let a' := eval vm_compute in a in let b' := eval vm_compute in b in
      change (fe_le a' b' h) in H
  end.

Ltac fe_step :=
  lazymatch goal with
  | |- returns (bind (fe_add ?f ?g) _) _ =>
      let Hf := known_fe f in let Hg := known_fe g in
      eapply returns_bind; [eapply (fe_add_spec _ _ _ _ f g Hf Hg); reflexivity |]
  | |- returns (bind (fe_sub ?f ?g) _) _ =>
      let Hf := known_fe f in let Hg := known_fe g in
      eapply returns_bind; [eapply (fe_sub_spec _ _ _ _ f g Hf Hg); reflexivity |]
  | |- returns (bind (fe_neg ?f) _) _ =>
      let Hf := known_fe f in
      eapply returns_bind; [eapply (fe_neg_spec _ _ f Hf); reflexivity |]
  | |- returns (bind (fe_mul ?f ?g) _) _ =>
      eapply returns_bind; [apply (fe_mul_spec f g); fe_weak |]
  | |- returns (bind (fe_sq ?f) _) _ =>
      eapply returns_bind; [apply (fe_sq_spec f); fe_weak |]
  | |- returns (bind (fe_sq2 ?f) _) _ =>
      eapply returns_bind; [apply (fe_sq2_spec f); fe_weak |]
  end;
  let h := fresh "h" in let E := fresh "E" in let B := fresh "B" in
  cbv beta; intros h [E B]; fe_unfold; fe_norm B.

Ltac fe_exec := repeat fe_step.

(** Replaces the classes of results by their expressions. *)
Ltac fe_rewrite :=
  repeat match goal with
  | E : fe_F ?h = _ |- context [fe_F ?h] => rewrite E
  end.

Lemma fe_d2_bound : fe_101 fe_d2.
Proof. cbn. lia. Qed.

(** Products of nonzero factors. *)
Lemma mul_neq_0 (a b : F) : a <> 0 -> b <> 0 -> a * b <> 0.
Proof. intros Ha Hb H. apply mul_0_iff in H. tauto. Qed.

Lemma double_neq_0 (a : F) : a <> 0 -> a + a <> 0.
Proof.
  intros Ha H. apply (mul_neq_0 (1 + 1) a two_neq_0 Ha). rewrite <- H. ring.
Qed.

(** ** Conversions *)

Lemma ge_p1p1_to_p2_spec p P : p ~> P -> returns (ge_p1p1_to_p2 p) (fun r => r ~> P).
Proof.
  destruct p as [X Y Z T], P as [x y]. intros (Hc & (BX & BY & BZ & BT) & NZ & NT & EX & EY).
  unfold ge_p1p1_to_p2. cbn [p1_X p1_Y p1_Z p1_T]. fe_unfold. fe_exec. cbn [returns].
  split; [exact Hc|]. split; [repeat split; assumption|]. fe_rewrite.
  split; [now apply mul_neq_0|]. split; ring.
Qed.

Lemma ge_p1p1_to_p3_spec p P : p ~> P -> returns (ge_p1p1_to_p3 p) (fun r => r ~> P).
Proof.
  destruct p as [X Y Z T], P as [x y]. intros (Hc & (BX & BY & BZ & BT) & NZ & NT & EX & EY).
  unfold ge_p1p1_to_p3. cbn [p1_X p1_Y p1_Z p1_T]. fe_unfold. fe_exec. cbn [returns].
  split; [exact Hc|]. split; [repeat split; assumption|]. fe_rewrite.
  split; [now apply mul_neq_0|]. repeat split; ring.
Qed.

Lemma ge_p3_to_p2_spec p P : p ~> P -> ge_p3_to_p2 p ~> P.
Proof.
  destruct p as [X Y Z T], P as [x y]. intros (Hc & (BX & BY & BZ & BT) & NZ & EX & EY & ET).
  unfold ge_p3_to_p2. cbn [p3_X p3_Y p3_Z]. rewrite !fe_copy_id.
  exact (conj Hc (conj (conj BX (conj BY BZ)) (conj NZ (conj EX EY)))).
Qed.

Lemma ge_p3_to_cached_spec p P : p ~> P -> returns (ge_p3_to_cached p) (fun r => r ~> P).
Proof.
  destruct p as [X Y Z T], P as [x y]. intros (Hc & (BX & BY & BZ & BT) & NZ & EX & EY & ET).
  unfold ge_p3_to_cached. cbn [p3_X p3_Y p3_Z p3_T]. pose proof fe_d2_bound.
  rewrite fe_copy_id. fe_unfold. fe_exec. cbn [returns].
  split; [exact Hc|]. split; [fe_unfold; repeat split; trivial; fe_weak|].
  fe_rewrite. rewrite d2_spec. repeat split; trivial; ring.
Qed.

Lemma ge_p2_0_spec : ge_p2_0 ~> ed_0.
Proof.
  split; [apply ed_0_on_curve|]. split; [cbn; lia|]. rewrite fe_F_0, fe_F_1.
  split; [apply one_neq_0 | split; ring].
Qed.

Lemma ge_p3_0_spec : ge_p3_0 ~> ed_0.
Proof.
  split; [apply ed_0_on_curve|]. split; [cbn; lia|]. rewrite fe_F_0, fe_F_1.
  split; [apply one_neq_0 | repeat split; ring].
Qed.

Lemma ge_precomp_0_spec : ge_precomp_0 ~> ed_0.
Proof.
  split; [apply ed_0_on_curve|]. split; [cbn; lia|]. rewrite fe_F_0, fe_F_1. repeat split; ring.
Qed.

Lemma ge_cached_0_spec : ge_cached_0 ~> ed_0.
Proof.
  split; [apply ed_0_on_curve|]. split; [cbn; lia|]. rewrite fe_F_0, fe_F_1.
  split; [apply one_neq_0 | repeat split; ring].
Qed.

(** ** Addition *)

(** Coordinates over the denominators of the addition law. *)
Lemma repr_sum X Y Z T P Q (c : F) :
  let '(x1, y1) := P in let '(x2, y2) := Q in
  on_curve P -> on_curve Q -> c <> 0 ->
  fe_165 X /\ fe_165 Y /\ fe_165 Z /\ fe_165 T ->
  fe_F X = c * (x1 * y2 + y1 * x2) -> fe_F Y = c * (y1 * y2 + x1 * x2) ->
  fe_F Z = c * (1 + d * x1 * x2 * y1 * y2) -> fe_F T = c * (1 - d * x1 * x2 * y1 * y2) ->
  P1p1 X Y Z T ~> ed_add P Q.
Proof.
  destruct P as [x1 y1], Q as [x2 y2]. intros HP HQ Hc HB EX EY EZ ET.
  destruct (complete _ _ _ _ HP HQ) as [H1 H2].
  split; [now apply (ed_add_on_curve (x1, y1) (x2, y2))|]. split; [exact HB|].
  rewrite EX, EY, EZ, ET. repeat (split; [now apply mul_neq_0|]).
  split; field; trivial.
Qed.

Lemma ge_add_spec p q P Q : p ~> P -> q ~> Q -> returns (ge_add p q) (fun r => r ~> ed_add P Q).
Proof.
  destruct p as [X Y Z T], P as [x1 y1]. intros (Hc & (BX & BY & BZ & BT) & NZ & EX & EY & ET).
  destruct q as [yp ym Z2 t], Q as [x2 y2]. intros (Hc2 & (B1 & B2 & B3 & B4) & NZ2 & E1 & E2 & E3).
  unfold ge_add. cbn [p3_X p3_Y p3_Z p3_T YplusX YminusX c_Z T2d]. fe_unfold. fe_exec. cbn [returns].
  apply (repr_sum _ _ _ _ (x1, y1) (x2, y2) (fe_F Z * fe_F Z2 + fe_F Z * fe_F Z2)); trivial.
  - now apply double_neq_0, mul_neq_0.
  - repeat split; fe_weak.
  - fe_rewrite. ring.
  - fe_rewrite. ring.
  - fe_rewrite. ring.
  - fe_rewrite. ring.
Qed.

Lemma ge_sub_spec p q P Q : p ~> P -> q ~> Q -> returns (ge_sub p q) (fun r => r ~> ed_add P (ed_opp Q)).
Proof.
  destruct p as [X Y Z T], P as [x1 y1]. intros (Hc & (BX & BY & BZ & BT) & NZ & EX & EY & ET).
  destruct q as [yp ym Z2 t], Q as [x2 y2]. intros (Hc2 & (B1 & B2 & B3 & B4) & NZ2 & E1 & E2 & E3).
  unfold ge_sub. cbn [p3_X p3_Y p3_Z p3_T YplusX YminusX c_Z T2d]. fe_unfold. fe_exec. cbn [returns].
  apply (repr_sum _ _ _ _ (x1, y1) (ed_opp (x2, y2)) (fe_F Z * fe_F Z2 + fe_F Z * fe_F Z2)).
  - exact Hc.
  - now apply ed_opp_on_curve.
  - now apply double_neq_0, mul_neq_0.
  - repeat split; fe_weak.
  - fe_rewrite. ring.
  - fe_rewrite. ring.
  - fe_rewrite. ring.
  - fe_rewrite. ring.
Qed.

Lemma ge_madd_spec p q P Q : p ~> P -> q ~> Q -> returns (ge_madd p q) (fun r => r ~> ed_add P Q).
Proof.
  destruct p as [X Y Z T], P as [x1 y1]. intros (Hc & (BX & BY & BZ & BT) & NZ & EX & EY & ET).
  destruct q as [yp ym t], Q as [x2 y2]. intros (Hc2 & (B1 & B2 & B3) & E1 & E2 & E3).
  unfold ge_madd. cbn [p3_X p3_Y p3_Z p3_T yplusx yminusx xy2d]. fe_unfold. fe_exec. cbn [returns].
  apply (repr_sum _ _ _ _ (x1, y1) (x2, y2) (fe_F Z + fe_F Z)); trivial.
  - now apply double_neq_0.
  - repeat split; fe_weak.
  - fe_rewrite. ring.
  - fe_rewrite. ring.
  - fe_rewrite. ring.
  - fe_rewrite. ring.
Qed.

Lemma ge_msub_spec p q P Q : p ~> P -> q ~> Q -> returns (ge_msub p q) (fun r => r ~> ed_add P (ed_opp Q)).
Proof.
  destruct p as [X Y Z T], P as [x1 y1]. intros (Hc & (BX & BY & BZ & BT) & NZ & EX & EY & ET).
  destruct q as [yp ym t], Q as [x2 y2]. intros (Hc2 & (B1 & B2 & B3) & E1 & E2 & E3).
  unfold ge_msub. cbn [p3_X p3_Y p3_Z p3_T yplusx yminusx xy2d]. fe_unfold. fe_exec. cbn [returns].
  apply (repr_sum _ _ _ _ (x1, y1) (ed_opp (x2, y2)) (fe_F Z + fe_F Z)).
  - exact Hc.
  - now apply ed_opp_on_curve.
  - now apply double_neq_0.
  - repeat split; fe_weak.
  - fe_rewrite. ring.
  - fe_rewrite. ring.
  - fe_rewrite. ring.
  - fe_rewrite. ring.
Qed.

(** ** Doubling *)

Lemma ge_p2_dbl_spec p P : p ~> P -> returns (ge_p2_dbl p) (fun r => r ~> ed_add P P).
Proof.
  destruct p as [X Y Z], P as [x y]. intros (Hc & (BX & BY & BZ) & NZ & EX & EY).
  unfold ge_p2_dbl. cbn [p2_X p2_Y p2_Z]. fe_unfold. fe_exec. cbn [returns].
  assert (y * y - x * x = 1 + d * x * x * y * y) as Hc' by exact Hc.
  apply (repr_sum _ _ _ _ (x, y) (x, y) (fe_F Z * fe_F Z)); trivial.
  - now apply mul_neq_0.
  - repeat split; fe_weak.
  - fe_rewrite. ring.
  - fe_rewrite. ring.
  - fe_rewrite. rewrite <- Hc'. ring.
  - fe_rewrite. replace (1 - d * x * x * y * y) with (1 + 1 - (1 + d * x * x * y * y)) by ring.
    rewrite <- Hc'. ring.
Qed.

Lemma ge_p3_dbl_spec p P : p ~> P -> returns (ge_p3_dbl p) (fun r => r ~> ed_add P P).
Proof. intros H. apply ge_p2_dbl_spec, ge_p3_to_p2_spec, H. Qed.

(** One group operation of a sequence. *)
Tactic Notation "ge_step" uconstr(spec) "as" ident(r) ident(H) :=
  eapply returns_bind; [eapply spec; eassumption | cbv beta; intros r H].

Create HintDb ge discriminated.
#[export] Hint Constants Opaque : ge.
#[export] Hint Resolve ge_add_spec ge_sub_spec ge_madd_spec ge_msub_spec ge_p2_dbl_spec ge_p3_dbl_spec
  ge_p1p1_to_p2_spec ge_p1p1_to_p3_spec ge_p3_to_p2_spec ge_p3_to_cached_spec
  ge_p2_0_spec ge_p3_0_spec ge_precomp_0_spec ge_cached_0_spec : ge.

(** A sequence of group operations. *)
Ltac ge_run := repeat (eapply returns_bind; [solve [eauto 2 with ge] | cbv beta; intros ? ?]).

Lemma ge_mul8_spec p P : p ~> P -> returns (ge_mul8 p) (fun r => r ~> ed_mul 8 P).
Proof.
  intros H. pose proof (repr_on_curve_p2 p P H) as Hc. unfold ge_mul8.
  ge_run. eapply returns_weaken; [eauto 2 with ge | cbv beta; intros r3 H5].
  replace (ed_mul 8 P) with (ed_add (ed_add (ed_add P P) (ed_add P P)) (ed_add (ed_add P P) (ed_add P P))); [exact H5|].
  rewrite <- (ed_mul_1 P) at 1 2 3 4 5 6 7 8. now rewrite <- !ed_mul_add.
Qed.

(** ** Conditional moves *)

Ltac cmov_i32 :=
  match goal with
  | H : fe_le ?a ?b ?f |- fe_i32 ?f => apply (fe_le_i32 a b f H); cbn [imax]; lia
  end.

Lemma ge_cached_cmov_spec t u P Q b :
  t ~> P -> u ~> Q -> b = 0%Z \/ b = 1%Z ->
  ge_cached_cmov t u b = Some (if (b =? 1)%Z then u else t).
Proof.
  destruct t, P, u, Q. intros (_ & (? & ? & ? & ?) & _) (_ & (? & ? & ? & ?) & _) Hb.
  unfold ge_cached_cmov. cbn [YplusX YminusX c_Z T2d]. fe_unfold.
  destruct Hb as [-> | ->]; cbn [Z.eqb Pos.eqb].
  - rewrite !fe_cmov_0. reflexivity.
  - rewrite !fe_cmov_1 by cmov_i32. reflexivity.
Qed.

Lemma ge_precomp_cmov_spec t u P Q b :
  t ~> P -> u ~> Q -> b = 0%Z \/ b = 1%Z ->
  ge_precomp_cmov t u b = Some (if (b =? 1)%Z then u else t).
Proof.
  destruct t, P, u, Q. intros (_ & (? & ? & ?) & _) (_ & (? & ? & ?) & _) Hb.
  unfold ge_precomp_cmov. cbn [yplusx yminusx xy2d]. fe_unfold.
  destruct Hb as [-> | ->]; cbn [Z.eqb Pos.eqb].
  - rewrite !fe_cmov_0. reflexivity.
  - rewrite !fe_cmov_1 by cmov_i32. reflexivity.
Qed.

(** ** Claims *)

(** Addition and subtraction: for all coordinates of points P and Q of the curve,
    [ge_add], [ge_sub] (with a cached second operand), [ge_madd] and [ge_msub] (with a
    precomputed one), followed by the conversion to [ge_p3] or [ge_p2], give coordinates
    of P + Q or P - Q. There are no exceptional pairs and no overflow. *)
Theorem ge_addition_correct p q m P Q :
  p ~> P -> q ~> Q -> m ~> Q ->
  returns (let! t := ge_add p q in ge_p1p1_to_p3 t) (fun r => r ~> ed_add P Q) /\
  returns (let! t := ge_add p q in ge_p1p1_to_p2 t) (fun r => r ~> ed_add P Q) /\
  returns (let! t := ge_sub p q in ge_p1p1_to_p3 t) (fun r => r ~> ed_add P (ed_opp Q)) /\
  returns (let! t := ge_madd p m in ge_p1p1_to_p3 t) (fun r => r ~> ed_add P Q) /\
  returns (let! t := ge_msub p m in ge_p1p1_to_p3 t) (fun r => r ~> ed_add P (ed_opp Q)).
Proof.
  intros Hp Hq Hm.
  split; [ge_step ge_add_spec as t Ht; now apply ge_p1p1_to_p3_spec|].
  split; [ge_step ge_add_spec as t Ht; now apply ge_p1p1_to_p2_spec|].
  split; [ge_step ge_sub_spec as t Ht; now apply ge_p1p1_to_p3_spec|].
  split; [ge_step ge_madd_spec as t Ht; now apply ge_p1p1_to_p3_spec|].
  ge_step ge_msub_spec as t Ht. now apply ge_p1p1_to_p3_spec.
Qed.

Lemma ge_addition_correct_witness :
  returns (let! t := ge_add ge_p3_0 ge_cached_0 in ge_p1p1_to_p3 t) (fun r => r ~> ed_add ed_0 ed_0).
Proof.
  exact (proj1 (ge_addition_correct ge_p3_0 ge_cached_0 ge_precomp_0 ed_0 ed_0
    ge_p3_0_spec ge_cached_0_spec ge_precomp_0_spec)).
Defined.

(** Doubling: [ge_p2_dbl] and [ge_p3_dbl] give coordinates of P + P, [ge_mul8] of 8 P, and
    [ge_p3_to_cached] of the same point, for every point of the curve. *)
Theorem ge_doubling_correct (p : ge_p3) P :
  p ~> P ->
  returns (ge_p2_dbl (ge_p3_to_p2 p)) (fun r => r ~> ed_add P P) /\
  returns (ge_p3_dbl p) (fun r => r ~> ed_add P P) /\
  returns (ge_mul8 (ge_p3_to_p2 p)) (fun r => r ~> ed_mul 8 P) /\
  returns (ge_p3_to_cached p) (fun r => r ~> P).
Proof.
  intros H. pose proof (ge_p3_to_p2_spec p P H).
  split; [now apply ge_p2_dbl_spec|]. split; [now apply ge_p3_dbl_spec|].
  split; [now apply ge_mul8_spec | now apply ge_p3_to_cached_spec].
Qed.

Lemma ge_doubling_correct_witness :
  returns (ge_mul8 (ge_p3_to_p2 ge_p3_0)) (fun r => r ~> ed_mul 8 ed_0).
Proof. exact (proj1 (proj2 (proj2 (ge_doubling_correct ge_p3_0 ed_0 ge_p3_0_spec)))). Defined.
