(* ===== verification/GeBytes.v ===== *)
(** * Points as bytes

    Models [ge_tobytes], [ge_p3_tobytes] and [ge_frombytes_vartime] of crypto-ops.c: a
    point is 255 bits of [y] and the parity of [x]. Decoding recovers [x] by a square
    root; it accepts exactly the encodings of curve points. *)

From Stdlib Require Import ZArith Lia List Bool Zmod Field.
From S2P Require Import Prelude Bytes Fe FeMul FeBytes Primes FePow Curve Ge.
Import ListNotations.

#[local] Open Scope Z_scope.

(** ** Functions *)

(** [s[31] ^= b << 7] *)
Definition xor_sign (s : list Z) (b : Z) : option (list Z) :=
  let! s31 := nth_error s 31 in
  let! b := (b << 7)%i32 in
  Some (firstn 31 s ++ [u8 (Z.lxor s31 b)]).

Definition ge_tobytes (h : ge_p2) : option (list Z) :=
  let! recip := fe_invert (p2_Z h) in
  let! x := fe_mul (p2_X h) recip in
  let! y := fe_mul (p2_Y h) recip in
  let! s := fe_tobytes y in
  let! b := fe_isnegative x in
  xor_sign s b.

Definition ge_p3_tobytes (h : ge_p3) : option (list Z) :=
  let! recip := fe_invert (p3_Z h) in
  let! x := fe_mul (p3_X h) recip in
  let! y := fe_mul (p3_Y h) recip in
  let! s := fe_tobytes y in
  let! b := fe_isnegative x in
  xor_sign s b.

(** The square root of u/v: [Some None] when there is none. *)
Definition ge_frombytes_x (u v : fe) : option (option fe) :=
  let! x := fe_divpowm1 u v in
  let! vxx := fe_sq x in
  let! vxx := fe_mul vxx v in
  let! check := fe_sub vxx u in
  let! nz := fe_isnonzero check in
  if nz =? 0 then Some (Some x)
  else
    let! check := fe_add vxx u in
    let! nz := fe_isnonzero check in
    if nz =? 0 then let! x := fe_mul x fe_sqrtm1 in Some (Some x)
    else Some None.

(** The sign of [x]: [Some None] when [x] is zero and the sign bit is set. *)
Definition ge_frombytes_sign (x : fe) (s31 : Z) : option (option fe) :=
  let! neg := fe_isnegative x in
  if neg =? Z.shiftr s31 7 then Some (Some x)
  else
    let! nz := fe_isnonzero x in
    if nz =? 0 then Some None
    else let! x := fe_neg x in Some (Some x).

(** [Some None] is the return value -1. *)
Definition ge_frombytes_vartime (s : list Z) : option (option ge_p3) :=
  let! r := fe_frombytes s in
  match r with
  | None => Some None
  | Some Y =>
      let Z := fe_1 in
      let! u := fe_sq Y in
      let! v := fe_mul u fe_d in
      let! u := fe_sub u Z in
      let! v := fe_add v Z in
      let! r := ge_frombytes_x u v in
      match r with
      | None => Some None
      | Some X =>
          let! s31 := nth_error s 31 in
          let! r := ge_frombytes_sign X s31 in
          match r with
          | None => Some None
          | Some X => let! T := fe_mul X Y in Some (Some (P3 X Y Z T))
          end
      end
  end.

(** ** Square roots *)

#[local] Open Scope Zmod_scope.
#[local] Notation "a / b" := (Zmod.mdiv a b) : Zmod_scope.

Lemma v_neq_0 (y : F) : d * (y * y) + 1 <> 0.
Proof.
  intros H. assert (d * (y * y) = sqrtm1 * sqrtm1) as E.
  { rewrite sqrtm1_spec. transitivity (d * (y * y) + 1 - 1); [ring | rewrite H; ring]. }
  apply d_nonsquare in E. subst y. apply one_neq_0. rewrite <- H. ring.
Qed.

Lemma on_curve_uv (x y : F) :
  on_curve (x, y) <-> (d * (y * y) + 1) * (x * x) = y * y - 1.
Proof.
  unfold on_curve. split; intros H.
  - transitivity (1 + d * x * x * y * y - 1 + x * x); [ring | rewrite <- H; ring].
  - transitivity (y * y - 1 + 1 - x * x); [ring | rewrite <- H; ring].
Qed.

(** The candidate root [u v^3 (u v^7)^((p-5)/8)]. *)
Definition root_candidate (u v : F) : F :=
  u * (Zmod.pow v 3 * Zmod.pow (u * Zmod.pow v 7) ((p25519 - 5) / 8)%Z).

Lemma pow_3 (v : F) : Zmod.pow v 3 = v * v * v.
Proof. change 3%Z with (2 + 1)%Z. rewrite Zmod.pow_add_r_nonneg, Zmod.pow_2_r, Zmod.pow_1_r by lia. ring. Qed.

Lemma pow_7 (v : F) : Zmod.pow v 7 = v * v * v * (v * v * v) * v.
Proof.
  change 7%Z with (3 + 3 + 1)%Z. rewrite !Zmod.pow_add_r_nonneg, Zmod.pow_1_r, !pow_3 by lia. ring.
Qed.

Definition quarter : Z := ((p25519 - 1) / 4)%Z.

Lemma candidate_sq (u v : F) :
  v * (root_candidate u v * root_candidate u v) = u * Zmod.pow (u * Zmod.pow v 7) quarter.
Proof.
  unfold root_candidate. set (w := u * Zmod.pow v 7).
  replace quarter with ((p25519 - 5) / 8 + (p25519 - 5) / 8 + 1)%Z by reflexivity.
  assert (0 <= (p25519 - 5) / 8)%Z by (vm_compute; discriminate).
  rewrite !Zmod.pow_add_r_nonneg, Zmod.pow_1_r by lia.
  generalize (Zmod.pow w ((p25519 - 5) / 8)). intros z. unfold w. rewrite pow_3, pow_7. ring.
Qed.

(** When u/v has a root, the candidate squares to u/v or -u/v. *)
Lemma candidate_root (u v x : F) :
  v * (x * x) = u ->
  let c := root_candidate u v in v * (c * c) = u \/ v * (c * c) = - u.
Proof.
  intros H. cbv zeta. rewrite candidate_sq.
  set (s := v * v * v * v * x).
  replace (u * Zmod.pow v 7) with (s * s) by (rewrite pow_7, <- H; unfold s; ring).
  destruct (Zmod.eqb_spec s 0) as [E|Hs].
  - left. assert (u = 0) as ->; [|ring].
    unfold s in E. rewrite !mul_0_iff in E. rewrite <- H.
    destruct E as [[[[E|E]|E]|E]|E]; rewrite E; ring.
  - set (z := Zmod.pow (s * s) quarter).
    assert (z * z = 1) as Hz.
    { unfold z. rewrite <- Zmod.pow_add_r_nonneg by (vm_compute; discriminate).
      change (quarter + quarter)%Z with half. now apply pow_half_square. }
    assert ((z - 1) * (z + 1) = 0) as Hf by (transitivity (z * z - 1); [ring | rewrite Hz; ring]).
    apply mul_0_iff in Hf as [E|E].
    + left. replace z with (1 : F); [ring|]. symmetry. now apply sub_0_eq.
    + right. replace z with (- (1) : F); [ring|]. transitivity (z - (z + 1)); [ring | rewrite E; ring].
Qed.

(** ** Parity *)

Lemma to_Z_range (x : F) : (0 <= Zmod.to_Z x < p25519)%Z.
Proof. apply Zmod.unsigned_pos_bound. reflexivity. Qed.

Lemma to_Z_opp (x : F) : x <> 0 -> Zmod.to_Z (- x) = (p25519 - Zmod.to_Z x)%Z.
Proof.
  intros Hx. pose proof (to_Z_range x). rewrite Zmod.unsigned_opp.
  assert (Zmod.to_Z x <> 0%Z).
  { intros E. apply Hx. apply Zmod.unsigned_inj. now rewrite E, Zmod.to_Z_0. }
  symmetry. apply (Z.mod_unique_pos _ _ (-1)); lia.
Qed.

(** The two roots of a square differ in parity. *)
Lemma parity_opp (x : F) : x <> 0 -> (Zmod.to_Z (- x) mod 2 = 1 - Zmod.to_Z x mod 2)%Z.
Proof.
  intros Hx. rewrite to_Z_opp by exact Hx. generalize (Zmod.to_Z x). intros z.
  pose proof (Z.mod_pos_bound z 2 ltac:(lia)). pose proof (Z.div_mod z 2 ltac:(lia)).
  symmetry. apply (Z.mod_unique_pos _ _ (2 ^ 254 - 10 - z / 2)%Z); [lia|].
  unfold p25519. change (2 ^ 255)%Z with (2 * 2 ^ 254)%Z. lia.
Qed.

Lemma square_roots (x x' : F) : x * x = x' * x' -> x = x' \/ x = - x'.
Proof.
  intros H. assert ((x - x') * (x + x') = 0) as E by (transitivity (x * x - x' * x'); [ring | rewrite H; ring]).
  apply mul_0_iff in E as [E|E]; [left; now apply sub_0_eq | right].
  apply sub_0_eq. rewrite <- E. ring.
Qed.

Lemma v_cancel (v a b : F) : v <> 0 -> v * a = v * b -> a = b.
Proof.
  intros Hv H. transitivity (v * a / v); [field; exact Hv | rewrite H; field; exact Hv].
Qed.

Lemma eqb_if (x : F) : (if Zmod.eqb x 0 then 0 else 1)%Z = 0%Z <-> x = 0.
Proof. destruct (Zmod.eqb_spec x 0); intuition (discriminate || auto). Qed.

Lemma fe_sqrtm1_bound : fe_101 fe_sqrtm1.
Proof. cbn. lia. Qed.

Lemma fe_d_bound : fe_101 fe_d.
Proof. cbn. lia. Qed.

#[local] Opaque fe_F d sqrtm1 Zmod.mul Zmod.add Zmod.sub Zmod.opp Zmod.mdiv Zmod.one Zmod.zero Zmod.pow Zmod.to_Z.

(** The root is found exactly when there is one. *)
Lemma ge_frombytes_x_spec u v :
  fe_le 33889977 16944989 u -> fe_le 33889977 16944989 v -> fe_F v <> 0 ->
  returns (ge_frombytes_x u v) (fun r =>
    match r with
    | Some x => fe_F v * (fe_F x * fe_F x) = fe_F u /\ fe_101 x
    | None => forall x, fe_F v * (x * x) <> fe_F u
    end).
Proof.
  intros Hu Hv Hn. unfold ge_frombytes_x.
  eapply returns_bind; [apply fe_divpowm1_spec; fe_weak | cbv beta; intros x [E B]].
  fold (root_candidate (fe_F u) (fe_F v)) in E.
  pose proof (candidate_root (fe_F u) (fe_F v)) as R. cbv zeta in R. rewrite <- E in R.
  pose proof fe_sqrtm1_bound as Bi. fe_unfold. fe_step. fe_step. fe_step.
  rewrite fe_isnonzero_spec by fe_weak. cbn [bind].
  destruct (Z.eqb_spec (if Zmod.eqb (fe_F h1) 0 then 0 else 1) 0) as [N|N]; rewrite eqb_if in N.
  { split; [|exact B]. rewrite E2 in N. apply sub_0_eq in N. rewrite <- N, E1, E0. ring. }
  fe_step. rewrite fe_isnonzero_spec by fe_weak. cbn [bind].
  destruct (Z.eqb_spec (if Zmod.eqb (fe_F h2) 0 then 0 else 1) 0) as [N'|N']; rewrite eqb_if in N'.
  - fe_step. cbn [returns]. split; [|exact B4]. rewrite E4, fe_F_sqrtm1.
    transitivity (sqrtm1 * sqrtm1 * (fe_F v * (fe_F x * fe_F x))); [ring|].
    rewrite sqrtm1_spec. rewrite E3, E1, E0 in N'.
    transitivity (fe_F u - (fe_F x * fe_F x * fe_F v + fe_F u)); [ring | rewrite N'; ring].
  - cbn [returns]. intros x' Hx'. destruct (R x' Hx') as [K|K].
    + apply N. rewrite E2, E1, E0, <- K. ring.
    + apply N'. rewrite E3, E1, E0. transitivity (fe_F v * (fe_F x * fe_F x) + fe_F u); [ring | rewrite K; ring].
Qed.

(** The representative with the requested parity, if it exists. *)
Lemma ge_frombytes_sign_spec x s31 :
  fe_101 x -> (0 <= Z.shiftr s31 7 <= 1)%Z ->
  returns (ge_frombytes_sign x s31) (fun r =>
    match r with
    | Some x' => (fe_F x' = fe_F x \/ fe_F x' = - fe_F x) /\ fe_101 x' /\
                 (Zmod.to_Z (fe_F x') mod 2 = Z.shiftr s31 7)%Z
    | None => fe_F x = 0 /\ Z.shiftr s31 7 = 1%Z
    end).
Proof.
  intros B Hs. unfold ge_frombytes_sign. pose proof B as B'. fe_unfold.
  rewrite fe_isnegative_spec by fe_weak. cbn [bind].
  pose proof (Z.mod_pos_bound (Zmod.to_Z (fe_F x)) 2 ltac:(lia)).
  destruct (Z.eqb_spec (Zmod.to_Z (fe_F x) mod 2) (Z.shiftr s31 7)) as [N|N]; [cbn; auto|].
  rewrite fe_isnonzero_spec by fe_weak. cbn [bind].
  destruct (Z.eqb_spec (if Zmod.eqb (fe_F x) 0 then 0 else 1) 0) as [N'|N']; rewrite eqb_if in N'.
  - cbn [returns]. split; [exact N'|]. rewrite N', Zmod.to_Z_0 in N. change (0 mod 2)%Z with 0%Z in N. lia.
  - fe_step. cbn [returns]. rewrite E. split; [now right | split; [exact B0|]].
    rewrite parity_opp by exact N'. lia.
Qed.

(** ** The encoding of a point *)

(** 255 bits of [y], then the parity of [x]. *)
Definition point_code (P : point) : Z :=
  let '(x, y) := P in (Zmod.to_Z y + 2 ^ 255 * (Zmod.to_Z x mod 2))%Z.

Lemma point_code_parts (x y : F) :
  (point_code (x, y) mod 2 ^ 255 = Zmod.to_Z y /\ point_code (x, y) / 2 ^ 255 = Zmod.to_Z x mod 2)%Z.
Proof.
  unfold point_code. pose proof (to_Z_range y) as H.
  assert (0 <= Zmod.to_Z y < 2 ^ 255)%Z by (split; [apply H | eapply Z.lt_trans; [apply H | reflexivity]]).
  split; symmetry.
  - apply (Z.mod_unique_pos _ _ (Zmod.to_Z x mod 2)%Z); lia.
  - apply (Z.div_unique_pos _ _ _ (Zmod.to_Z y)); lia.
Qed.

(** A point of the curve is determined by its encoding. *)
Lemma point_code_inj P Q : on_curve P -> on_curve Q -> point_code P = point_code Q -> P = Q.
Proof.
  destruct P as [x y], Q as [x' y']. intros HP HQ E.
  destruct (point_code_parts x y) as [Ey Ex], (point_code_parts x' y') as [Ey' Ex'].
  rewrite E in Ey, Ex. rewrite Ey in Ey'. rewrite Ex in Ex'.
  apply Zmod.unsigned_inj in Ey'. subst y'. f_equal. rewrite on_curve_uv in HP, HQ.
  rewrite <- HQ in HP. apply v_cancel, square_roots in HP; [|apply v_neq_0].
  destruct HP as [H|H]; [exact H|].
  destruct (Zmod.eqb_spec x' 0) as [H0|H0]; [rewrite H, H0; ring|].
  pose proof (Z.mod_pos_bound (Zmod.to_Z x') 2 ltac:(lia)).
  rewrite H, parity_opp in Ex' by exact H0. lia.
Qed.

Lemma top_bit s :
  bytes s -> length s = 32%nat ->
  exists s31, nth_error s 31 = Some s31 /\ is_byte s31 /\ (Z.shiftr s31 7 = le_val s / 2 ^ 255 /\ 0 <= le_val s / 2 ^ 255 <= 1)%Z.
Proof.
  intros Hs Hl. pose proof (le_val_skipn 31 s Hs) as E. pose proof (bytes_skipn 31 s Hs) as Hk.
  assert (length (skipn 31 s) = 1%nat) as Hn by (rewrite length_skipn; lia).
  pose proof (nth_error_skipn 31 s 0) as En. change (31 + 0)%nat with 31%nat in En.
  destruct (skipn 31 s) as [|s31 [|]]; try discriminate. inversion_clear Hk as [|? ? Hb _].
  exists s31. split; [now rewrite <- En | split; [exact Hb|]]. cbn [le_val] in E. unfold is_byte in Hb.
  rewrite Z.shiftr_div_pow2 by lia. change (2 ^ 255)%Z with (256 ^ Z.of_nat 31 * 2 ^ 7)%Z.
  rewrite <- Z.div_div, E by lia. replace (s31 + 256 * 0)%Z with s31 by lia.
  split; [reflexivity|]. split; [apply Z.div_pos; lia | apply Z.lt_succ_r, Z.div_lt_upper_bound; lia].
Qed.

(** ** Decoding *)

Lemma ge_frombytes_vartime_spec s :
  bytes s -> length s = 32%nat ->
  returns (ge_frombytes_vartime s) (fun r =>
    match r with
    | Some h => exists P, h ~> P /\ point_code P = le_val s
    | None => forall P, on_curve P -> point_code P <> le_val s
    end).
Proof.
  intros Hs Hl. destruct (top_bit s Hs Hl) as (s31 & E31 & _ & Eb & Rb).
  pose proof (Z.div_mod (le_val s) (2 ^ 255) ltac:(lia)) as Dv. unfold ge_frombytes_vartime.
  eapply returns_bind; [now apply fe_frombytes_spec | cbv beta zeta; intros [Y|] HY].
  2: { cbn [returns]. intros [x y] _ E. destruct (point_code_parts x y) as [Ey _].
       rewrite E in Ey. rewrite Ey in HY. pose proof (to_Z_range y). lia. }
  destruct HY as (Lv & EY & BY). set (v := (le_val s mod 2 ^ 255)%Z) in *.
  assert (Zmod.to_Z (fe_F Y) = v) as Tv.
  { rewrite EY, Zmod.to_Z_of_Z. apply Z.mod_small. split; [|exact Lv]. apply Z.mod_pos_bound. lia. }
  assert (fe_le 1 0 fe_1) as B1 by (cbn; lia). pose proof fe_d_bound as Bd. fe_unfold.
  do 4 fe_step. rewrite fe_F_1 in E1, E2. rewrite fe_F_d in E0.
  assert (fe_F h2 = d * (fe_F Y * fe_F Y) + 1) as Ev by (rewrite E2, E0, E; ring).
  assert (fe_F h1 = fe_F Y * fe_F Y - 1) as Eu by (rewrite E1, E; ring).
  eapply returns_bind; [apply ge_frombytes_x_spec; [fe_weak | fe_weak | rewrite Ev; apply v_neq_0] |].
  cbv beta; intros [X|] HX; rewrite Ev, Eu in HX.
  2: { cbn [returns]. intros [x y] Hc Ep. destruct (point_code_parts x y) as [Ey _].
       rewrite Ep in Ey. fold v in Ey. rewrite <- Tv in Ey. apply Zmod.unsigned_inj in Ey. subst y.
       apply (HX x). now apply on_curve_uv. }
  destruct HX as [HX BX]. rewrite <- on_curve_uv in HX. rewrite E31. cbn [bind].
  eapply returns_bind; [apply ge_frombytes_sign_spec; [exact BX | lia] |].
  cbv beta; intros [X'|] HS; rewrite Eb in HS.
  2: { cbn [returns]. intros [x y] Hc Ep. destruct (point_code_parts x y) as [Ey Ex].
       rewrite Ep in Ey, Ex. fold v in Ey. rewrite <- Tv in Ey. apply Zmod.unsigned_inj in Ey. subst y.
       destruct HS as [H0 Hb]. rewrite on_curve_uv in HX, Hc. rewrite H0 in HX. rewrite <- HX in Hc.
       apply v_cancel, square_roots in Hc; [|apply v_neq_0].
       assert (x = 0) as -> by (destruct Hc as [-> | ->]; ring).
       rewrite Zmod.to_Z_0 in Ex. rewrite Ex in Hb. discriminate. }
  destruct HS as (Hpm & BX' & Hpar). fe_unfold. fe_step. cbn [returns].
  exists (fe_F X', fe_F Y). split.
  - split; [|split; [refine (conj _ (conj _ (conj _ _))); fe_weak|]].
    + rewrite on_curve_uv in HX |- *. rewrite <- HX. f_equal. destruct Hpm as [-> | ->]; ring.
    + rewrite fe_F_1. split; [apply one_neq_0|]. rewrite E3. repeat split; ring.
  - unfold point_code. rewrite Hpar, Tv. unfold v. lia.
Qed.

(** ** Encoding *)

Lemma split_at_31 (s : list Z) s31 :
  length s = 32%nat -> nth_error s 31 = Some s31 ->
  s = firstn 31 s ++ [s31] /\ length (firstn 31 s) = 31%nat.
Proof.
  intros Hl E. split; [|rewrite length_firstn; lia].
  rewrite <- (firstn_skipn 31 s) at 1. f_equal.
  pose proof (nth_error_skipn 31 s 0) as En. change (31 + 0)%nat with 31%nat in En. rewrite E in En.
  assert (length (skipn 31 s) = 1%nat) by (rewrite length_skipn; lia).
  destruct (skipn 31 s) as [|a [|]]; try discriminate. now injection En as ->.
Qed.

(** Setting the sign bit of a 255-bit array. *)
Lemma xor_sign_spec s b :
  bytes s -> length s = 32%nat -> (le_val s < 2 ^ 255)%Z -> (0 <= b <= 1)%Z ->
  returns (xor_sign s b) (fun r => bytes r /\ length r = 32%nat /\ (le_val r = le_val s + 2 ^ 255 * b)%Z).
Proof.
  intros Hs Hl Hv Hb. destruct (top_bit s Hs Hl) as (s31 & E31 & B31 & Eb & _).
  pose proof (le_val_bound s Hs) as [V0 _]. rewrite Z.div_small in Eb by lia.
  unfold xor_sign. rewrite E31. cbn [bind].
  assert (ishl I32 b 7 = Some (b * 2 ^ 7)%Z) as ->.
  { unfold ishl. cbn [bind val]. rewrite Z.shiftl_mul_pow2 by lia. f_equal. apply to_i32_small. lia. }
  cbn [bind returns]. unfold is_byte in B31.
  assert (0 <= s31 < 2 ^ 7)%Z as Hs31.
  { rewrite Z.shiftr_div_pow2 in Eb by lia. pose proof (Z.div_mod s31 (2 ^ 7) ltac:(lia)).
    pose proof (Z.mod_pos_bound s31 (2 ^ 7) ltac:(lia)). lia. }
  assert (u8 (Z.lxor s31 (b * 2 ^ 7)) = s31 + 2 ^ 7 * b)%Z as ->.
  { assert (Z.lxor s31 (b * 2 ^ 7) = s31 + 2 ^ 7 * b)%Z as ->; [|apply Z.mod_small; lia].
    rewrite <- lor_shiftl_add, Z.shiftl_mul_pow2 by lia.
    assert (Z.land s31 (b * 2 ^ 7) = 0)%Z as Hand.
    { rewrite <- Z.shiftl_mul_pow2 by lia. pose proof (Z.add_lor_land s31 (Z.shiftl b 7)) as A.
      rewrite lor_shiftl_add, Z.shiftl_mul_pow2 in A by lia. rewrite Z.shiftl_mul_pow2 by lia. lia. }
    now rewrite Z.lxor_lor. }
  destruct (split_at_31 s s31 Hl E31) as [Es Lf].
  assert (bytes (firstn 31 s)) as Hf by (rewrite Es in Hs; now apply Forall_app in Hs).
  split; [apply Forall_app; split; [exact Hf | constructor; [unfold is_byte; lia | constructor]]|].
  split; [rewrite length_app, Lf; reflexivity|].
  rewrite Es at 2. rewrite !le_val_app, Lf. cbn [le_val].
  change (2 ^ 255)%Z with (256 ^ Z.of_nat 31 * 2 ^ 7)%Z. ring.
Qed.

(** The two encoders are the same computation on X, Y, Z. *)
Lemma tobytes_common X Y Z (x y : F) :
  fe_101 X -> fe_101 Y -> fe_101 Z -> fe_F Z <> 0 -> fe_F X = x * fe_F Z -> fe_F Y = y * fe_F Z ->
  returns
    (let! recip := fe_invert Z in
     let! x := fe_mul X recip in
     let! y := fe_mul Y recip in
     let! s := fe_tobytes y in
     let! b := fe_isnegative x in
     xor_sign s b)
    (fun s => bytes s /\ length s = 32%nat /\ le_val s = point_code (x, y)).
Proof.
  intros BX BY BZ NZ EX EY. fe_unfold.
  eapply returns_bind; [apply fe_invert_spec; fe_weak | cbv beta; intros r [Er Br]].
  fe_unfold. fe_step. fe_step.
  assert (fe_F h = x) as Ex.
  { rewrite E, EX, Er. transitivity (x * (fe_F Z * Zmod.inv (fe_F Z))); [ring|].
    rewrite Zmod.mul_inv_same_r_prime by (apply p25519_prime || exact NZ). ring. }
  assert (fe_F h0 = y) as Ey.
  { rewrite E0, EY, Er. transitivity (y * (fe_F Z * Zmod.inv (fe_F Z))); [ring|].
    rewrite Zmod.mul_inv_same_r_prime by (apply p25519_prime || exact NZ). ring. }
  eapply returns_bind; [apply fe_tobytes_spec; fe_weak | cbv beta; intros s (Es & Hs & Hl)].
  rewrite <- fe_F_unsigned, Ey in Es. rewrite fe_isnegative_spec by fe_weak. cbn [bind].
  rewrite Ex. pose proof (to_Z_range y) as Ry.
  pose proof (Z.mod_pos_bound (Zmod.to_Z x) 2 ltac:(lia)).
  eapply returns_weaken; [apply xor_sign_spec; trivial; [|lia] | cbv beta; intros r' (Hr & Lr & Er')].
  - rewrite Es. eapply Z.lt_trans; [apply Ry | reflexivity].
  - repeat split; trivial. rewrite Er', Es. reflexivity.
Qed.

Lemma ge_tobytes_spec p P :
  p ~> P ->
  returns (ge_tobytes p) (fun s => bytes s /\ length s = 32%nat /\ le_val s = point_code P).
Proof.
  destruct p as [X Y Z], P as [x y]. intros (_ & (BX & BY & BZ) & NZ & EX & EY).
  unfold ge_tobytes. cbn [p2_X p2_Y p2_Z]. now apply tobytes_common.
Qed.

Lemma ge_p3_tobytes_spec p P :
  p ~> P ->
  returns (ge_p3_tobytes p) (fun s => bytes s /\ length s = 32%nat /\ le_val s = point_code P).
Proof.
  destruct p as [X Y Z T], P as [x y]. intros (_ & (BX & BY & BZ & _) & NZ & EX & EY & _).
  unfold ge_p3_tobytes. cbn [p3_X p3_Y p3_Z]. now apply tobytes_common.
Qed.

(** ** Claims *)

(** C32: decoding decides validity: for every 32-byte array, [ge_frombytes_vartime] returns
    normally; it returns 0 exactly when the array is the canonical encoding of a curve
    point (y below 2^255 - 19, x a square root, the sign bit the parity of x), and then
    the coordinates it stores represent that point. *)
Theorem ge_frombytes_correct s :
  bytes s -> length s = 32%nat ->
  (exists h P, ge_frombytes_vartime s = Some (Some h) /\ h ~> P /\ point_code P = le_val s) \/
  (ge_frombytes_vartime s = Some None /\ forall P, on_curve P -> point_code P <> le_val s).
Proof.
  intros Hs Hl. pose proof (ge_frombytes_vartime_spec s Hs Hl) as [[h|] (E & H)]%returns_some.
  - left. destruct H as (P & HP & EP). eauto.
  - right. auto.
Qed.

Lemma ge_frombytes_correct_witness :
  (exists h P, ge_frombytes_vartime (1%Z :: repeat 0%Z 31) = Some (Some h) /\ h ~> P /\
     point_code P = le_val (1%Z :: repeat 0%Z 31)) \/
  (ge_frombytes_vartime (1%Z :: repeat 0%Z 31) = Some None /\
   forall P, on_curve P -> point_code P <> le_val (1%Z :: repeat 0%Z 31)).
Proof.
  apply (ge_frombytes_correct (1%Z :: repeat 0%Z 31)); [|reflexivity].
  constructor; [unfold is_byte; lia|]. apply Forall_forall.
  intros b Hb%repeat_spec. subst. unfold is_byte. lia.
Defined.

(** Round trip: decoding what [ge_p3_tobytes] or [ge_tobytes] wrote for a point
    succeeds and gives coordinates of the same point; the two encoders agree. *)
Theorem ge_bytes_roundtrip p q P :
  p ~> P -> q ~> P ->
  exists s h, ge_p3_tobytes p = Some s /\ ge_tobytes q = Some s /\
    ge_frombytes_vartime s = Some (Some h) /\ h ~> P.
Proof.
  intros Hp Hq. pose proof (repr_on_curve_p3 p P Hp) as Hc.
  pose proof (ge_p3_tobytes_spec p P Hp) as [s (Es & Hs & Hl & Ec)]%returns_some.
  pose proof (ge_tobytes_spec q P Hq) as [t (Et & Ht & Lt & Ec')]%returns_some.
  assert (t = s) as -> by (apply le_val_inj; trivial; congruence).
  pose proof (ge_frombytes_vartime_spec s Hs Hl) as [[h|] (E & H)]%returns_some.
  - exists s, h. destruct H as (Q & HQ & EQ). repeat split; trivial.
    replace P with Q; [exact HQ|]. apply point_code_inj; trivial; [|congruence].
    now apply (repr_on_curve_p3 h).
  - exfalso. apply (H P Hc). congruence.
Qed.

Lemma ge_bytes_roundtrip_witness :
  exists s h, ge_p3_tobytes ge_p3_0 = Some s /\ ge_tobytes ge_p2_0 = Some s /\
    ge_frombytes_vartime s = Some (Some h) /\ h ~> ed_0.
Proof. exact (ge_bytes_roundtrip ge_p3_0 ge_p2_0 ed_0 ge_p3_0_spec ge_p2_0_spec). Defined.
