(* ===== verification/GeScalar.v ===== *)
(** * Scalar multiplication with fixed windows

    Models [ge_scalarmult] and [ge_scalarmult_p3] of crypto-ops.c with their helpers
    [equal] and [negative]: the scalar is recoded into 64 signed digits of 4 bits, the
    multiples 1..8 of the point are tabulated, and each digit is selected by
    conditional moves. The result is the multiple of the point by the scalar. *)

From Stdlib Require Import ZArith Lia List Bool Zmod Field.
From S2P Require Import Prelude Bytes Fe FeMul Primes Curve Ge.
Import ListNotations.

#[local] Open Scope Z_scope.

(** ** Helpers *)

Definition equal (b c : Z) : Z :=
  let ub := u8 b in
  let uc := u8 c in
  let x := Z.lxor ub uc in
  let y := x in
  let y := u32 (y - 1) in
  let y := Z.shiftr y 31 in
  y.

Definition negative (b : Z) : Z :=
  let x := u64 b in
  let x := Z.shiftr x 63 in
  x.

(** [babs = b - (((-bnegative) & b) << 1)], an [unsigned char]. *)
Definition babs_of (b bnegative : Z) : option Z :=
  let! x := (b - (Z.land (- bnegative) b << 1))%i32 in
  Some (u8 x).

(** ** Recoding *)

(** The digits [e[2 i]], [e[2 i + 1]], .. of the bytes from [a[i]] on; [n] is [31 - i]. *)
Fixpoint scalar_digits (n : nat) (a : list Z) (carry : Z) : option (list Z) :=
  match n, a with
  | O, a31 :: _ =>
      let! carry := (carry + a31)%i32 in
      let! carry2 := ((carry + 8) >> 4)%i32 in
      let! e62 := (carry - (carry2 << 4))%i32 in
      Some [to_i8 e62; to_i8 carry2]
  | S n, ai :: a =>
      let! carry := (carry + ai)%i32 in
      let! carry2 := ((carry + 8) >> 4)%i32 in
      let! e0 := (carry - (carry2 << 4))%i32 in
      let! carry := ((carry2 + 8) >> 4)%i32 in
      let! e1 := (carry2 - (carry << 4))%i32 in
      let! e := scalar_digits n a carry in
      Some (to_i8 e0 :: to_i8 e1 :: e)
  | _, [] => None
  end.

(** ** The table of multiples *)

(** [Ai[i + 1]] is [A + Ai[i]]. *)
Fixpoint multiples (n : nat) (A : ge_p3) (Ai : ge_cached) : option (list ge_cached) :=
  match n with
  | O => Some []
  | S n =>
      let! t := ge_add A Ai in
      let! u := ge_p1p1_to_p3 t in
      let! Ai := ge_p3_to_cached u in
      let! rest := multiples n A Ai in
      Some (Ai :: rest)
  end.

Definition scalarmult_table (A : ge_p3) : option (list ge_cached) :=
  let! A0 := ge_p3_to_cached A in
  let! rest := multiples 7 A A0 in
  Some (A0 :: rest).

(** ** One digit *)

(** The multiple of the point for the digit [b]. *)
Definition scalarmult_select (Ai : list ge_cached) (b : Z) : option ge_cached :=
  match Ai with
  | [A0; A1; A2; A3; A4; A5; A6; A7] =>
      let bnegative := negative b in
      let! babs := babs_of b bnegative in
      let cur := ge_cached_0 in
      let! cur := ge_cached_cmov cur A0 (equal babs 1) in
      let! cur := ge_cached_cmov cur A1 (equal babs 2) in
      let! cur := ge_cached_cmov cur A2 (equal babs 3) in
      let! cur := ge_cached_cmov cur A3 (equal babs 4) in
      let! cur := ge_cached_cmov cur A4 (equal babs 5) in
      let! cur := ge_cached_cmov cur A5 (equal babs 6) in
      let! cur := ge_cached_cmov cur A6 (equal babs 7) in
      let! cur := ge_cached_cmov cur A7 (equal babs 8) in
      let mYplusX := fe_copy (YminusX cur) in
      let mYminusX := fe_copy (YplusX cur) in
      let mZ := fe_copy (c_Z cur) in
      let! mT2d := fe_neg (T2d cur) in
      ge_cached_cmov cur (Cached mYplusX mYminusX mZ mT2d) bnegative
  | _ => None
  end.

(** The body of the loop up to [ge_add]: four doublings and the digit. *)
Definition scalarmult_digit (Ai : list ge_cached) (r : ge_p2) (b : Z) : option ge_p1p1 :=
  let! t := ge_p2_dbl r in
  let! r := ge_p1p1_to_p2 t in
  let! t := ge_p2_dbl r in
  let! r := ge_p1p1_to_p2 t in
  let! t := ge_p2_dbl r in
  let! r := ge_p1p1_to_p2 t in
  let! t := ge_p2_dbl r in
  let! u := ge_p1p1_to_p3 t in
  let! cur := scalarmult_select Ai b in
  ge_add u cur.

(** ** The functions; [rev e] is [e[63]], .., [e[0]] *)

Definition ge_scalarmult (a : list Z) (A : ge_p3) : option ge_p2 :=
  let! e := scalar_digits 31 a 0 in
  let! Ai := scalarmult_table A in
  foldM (fun r b => let! t := scalarmult_digit Ai r b in ge_p1p1_to_p2 t) (rev e) ge_p2_0.

(** The loop of [ge_scalarmult_p3]; digit 0 ends it with [ge_p1p1_to_p3]. *)
Fixpoint scalarmult_p3_loop (Ai : list ge_cached) (e : list Z) (r : ge_p2) : option ge_p3 :=
  match e with
  | [] => None
  | [b] => let! t := scalarmult_digit Ai r b in ge_p1p1_to_p3 t
  | b :: e =>
      let! t := scalarmult_digit Ai r b in
      let! r := ge_p1p1_to_p2 t in
      scalarmult_p3_loop Ai e r
  end.

Definition ge_scalarmult_p3 (a : list Z) (A : ge_p3) : option ge_p3 :=
  let! e := scalar_digits 31 a 0 in
  let! Ai := scalarmult_table A in
  scalarmult_p3_loop Ai (rev e) ge_p2_0.

(** ** Recoding is exact *)

Definition digit (b : Z) : Prop := - 8 <= b <= 8.

Lemma scalar_digits_spec n a carry :
  bytes a -> length a = S n -> 0 <= carry <= 1 -> (forall x, nth_error a n = Some x -> x <= 127) ->
  returns (scalar_digits n a carry) (fun e => horner 16 e = le_val a + carry /\ Forall digit e /\ e <> []).
Proof.
  revert a carry. induction n as [|n IH]; intros a carry Ha Hl Hc Hx;
    destruct Ha as [|x a Hb Ha]; try discriminate; cbn [scalar_digits]; unfold is_byte in Hb.
  - destruct a; [|discriminate]. specialize (Hx x eq_refl).
    assert (Z.abs carry <= 1) by lia. assert (Z.abs x <= 127) by lia.
    repeat cstep_expr. cbn [returns]. floor_eqs. change (2 ^ 4) with 16 in *. rewrite !to_i8_small by lia.
    split; [cbn [horner le_val]; lia | split; [|discriminate]].
    repeat (apply Forall_cons; [unfold digit; lia|]). apply Forall_nil.
  - assert (Z.abs carry <= 1) by lia. assert (Z.abs x <= 255) by lia.
    do 5 cstep_expr. floor_eqs. change (2 ^ 4) with 16 in *.
    eapply returns_bind; [apply IH; trivial; [now injection Hl | lia] | cbv beta; intros e (Ee & De & _)].
    cbn [returns]. rewrite !to_i8_small by lia. cbn [horner le_val]. rewrite Ee.
    split; [lia | split; [|discriminate]].
    repeat (apply Forall_cons; [unfold digit; lia|]). exact De.
Qed.

(** ** Selection *)

Definition all_digits : list Z := map (fun i => Z.of_nat i - 8) (seq 0 17).

Lemma digit_in b : digit b -> In b all_digits.
Proof.
  intros H. apply in_map_iff. exists (Z.to_nat (b + 8)). unfold digit in H.
  split; [lia | apply in_seq; lia].
Qed.

(** [negative], [babs] and [equal] on digits, by evaluation. *)
Lemma digit_select b :
  digit b ->
  negative b = Z.b2z (b <? 0) /\ babs_of b (negative b) = Some (Z.abs b) /\
  forall k, 1 <= k <= 8 -> equal (Z.abs b) k = Z.b2z (Z.abs b =? k).
Proof.
  intros Hb%digit_in.
  assert (forallb (fun b => (negative b =? Z.b2z (b <? 0)) &&
    match babs_of b (negative b) with Some v => v =? Z.abs b | None => false end &&
    forallb (fun k => equal (Z.abs b) k =? Z.b2z (Z.abs b =? k)) [1; 2; 3; 4; 5; 6; 7; 8]) all_digits = true)
    as H by (vm_compute; reflexivity).
  rewrite forallb_forall in H. specialize (H b Hb). rewrite !andb_true_iff, forallb_forall in H.
  destruct H as [[H1 H2] H3]. apply Z.eqb_eq in H1.
  split; [exact H1 | split].
  - destruct (babs_of b (negative b)); [|discriminate]. apply Z.eqb_eq in H2. now f_equal.
  - intros k Hk. apply Z.eqb_eq, H3. cbn. lia.
Qed.

#[local] Opaque fe_F d Zmod.mul Zmod.add Zmod.sub Zmod.opp Zmod.mdiv Zmod.one Zmod.zero.

Lemma b2z_01 b : Z.b2z b = 0 \/ Z.b2z b = 1.
Proof. destruct b; auto. Qed.

Lemma b2z_eqb b : (Z.b2z b =? 1) = b.
Proof. now destruct b. Qed.

Lemma cached_minus_spec c P :
  c ~> P ->
  returns (let! t := fe_neg (T2d c) in
           Some (Cached (fe_copy (YminusX c)) (fe_copy (YplusX c)) (fe_copy (c_Z c)) t))
          (fun m => m ~> ed_opp P).
Proof.
  destruct c as [yp ym Zc t], P as [x y]. intros (Hc & (B1 & B2 & B3 & B4) & NZ & E1 & E2 & E3).
  cbn [YplusX YminusX c_Z T2d]. rewrite !fe_copy_id. fe_unfold. fe_step. cbn [returns].
  split; [now apply (ed_opp_on_curve (x, y))|].
  split; [refine (conj _ (conj _ (conj _ _))); fe_weak|].
  split; [exact NZ|]. rewrite E, E1, E2, E3. repeat split; ring.
Qed.

(** The table holds the multiples 1 .. 8. *)
Definition table_ok (P : point) (Ai : list ge_cached) : Prop :=
  length Ai = 8%nat /\ forall i A, nth_error Ai i = Some A -> A ~> ed_mul (Z.of_nat i + 1) P.

(** A conditional move keeps the representation of the selected point. *)
Lemma cmov_step {A} t u P Q (b : bool) (K : ge_cached -> option A) R :
  t ~> P -> u ~> Q ->
  (forall r, r ~> (if b then Q else P) -> returns (K r) R) ->
  returns (let! r := ge_cached_cmov t u (Z.b2z b) in K r) R.
Proof.
  intros Ht Hu HK. rewrite (ge_cached_cmov_spec t u P Q) by (trivial; apply b2z_01).
  cbn [bind]. apply HK. rewrite b2z_eqb. now destruct b.
Qed.

Lemma scalarmult_select_spec Ai P b :
  on_curve P -> table_ok P Ai -> digit b ->
  returns (scalarmult_select Ai b) (fun c => c ~> ed_mul b P).
Proof.
  intros HP [Hl HA] Hb. destruct (digit_select b Hb) as (En & Ea & Ee).
  do 8 (destruct Ai as [|? Ai]; try discriminate). destruct Ai; [|discriminate]. clear Hl.
  pose proof (HA 0%nat _ eq_refl) as H0. pose proof (HA 1%nat _ eq_refl) as H1.
  pose proof (HA 2%nat _ eq_refl) as H2. pose proof (HA 3%nat _ eq_refl) as H3.
  pose proof (HA 4%nat _ eq_refl) as H4. pose proof (HA 5%nat _ eq_refl) as H5.
  pose proof (HA 6%nat _ eq_refl) as H6. pose proof (HA 7%nat _ eq_refl) as H7. clear HA.
  unfold scalarmult_select. rewrite Ea. cbn [bind]. rewrite En, !Ee by lia.
  pose proof ge_cached_0_spec as Hz. rewrite <- (ed_mul_0 P) in Hz.
  do 8 (eapply cmov_step; [eassumption | eassumption | let r := fresh "r" in let H := fresh "S" in intros r H]).
  match goal with H : ?r ~> ?Q |- returns (let! _ := fe_neg (T2d ?r) in _) _ =>
    replace Q with (ed_mul (Z.abs b) P) in H end.
  2: { clear - Hb. unfold digit in Hb.
       repeat match goal with |- context [Z.abs b =? ?k] =>
         destruct (Z.eqb_spec (Z.abs b) k); [f_equal; lia|] end.
       f_equal. lia. }
  pose proof (cached_minus_spec _ _ S6) as Hm. destruct (fe_neg (T2d r6)); [|contradiction].
  cbn [bind returns] in *. rewrite (ge_cached_cmov_spec _ _ _ _ _ S6 Hm) by apply b2z_01.
  rewrite b2z_eqb. cbn [returns]. destruct (Z.ltb_spec b 0).
  - rewrite <- ed_mul_opp in Hm by exact HP. now replace (- Z.abs b) with b in Hm by lia.
  - now replace (Z.abs b) with b in S6 by lia.
Qed.

(** ** The table *)

Lemma multiples_spec n A Ai P k :
  A ~> P -> Ai ~> ed_mul k P ->
  returns (multiples n A Ai) (fun l => length l = n /\
    forall i B, nth_error l i = Some B -> B ~> ed_mul (k + Z.of_nat i + 1) P).
Proof.
  intros HA. pose proof (repr_on_curve_p3 A P HA) as HP. revert Ai k.
  induction n as [|n IH]; intros Ai k HAi; cbn [multiples].
  - split; [reflexivity|]. intros [|] B; discriminate.
  - ge_step ge_add_spec as t Ht. ge_step ge_p1p1_to_p3_spec as u Hu. ge_step ge_p3_to_cached_spec as Ai' HAi'.
    rewrite <- ed_mul_succ in HAi' by exact HP.
    eapply returns_bind; [apply (IH Ai' (k + 1)), HAi' | cbv beta; intros l [Hl Hn]].
    cbn [returns length]. split; [now f_equal|]. intros [|i] B E; cbn [nth_error] in E.
    + injection E as <-. now replace (k + Z.of_nat 0 + 1) with (k + 1) by lia.
    + apply Hn in E. now replace (k + Z.of_nat (S i) + 1) with (k + 1 + Z.of_nat i + 1) by lia.
Qed.

Lemma scalarmult_table_spec A P : A ~> P -> returns (scalarmult_table A) (table_ok P).
Proof.
  intros HA. pose proof (repr_on_curve_p3 A P HA) as HP. unfold scalarmult_table.
  ge_step ge_p3_to_cached_spec as A0 H0. rewrite <- (ed_mul_1 P) in H0.
  eapply returns_bind; [apply (multiples_spec 7 A A0 P 1 HA H0) | cbv beta; intros l [Hl Hn]].
  cbn [returns]. split; [cbn; now rewrite Hl|]. intros [|i] B E; cbn [nth_error] in E.
  - injection E as <-. exact H0.
  - apply Hn in E. now replace (Z.of_nat (S i) + 1) with (1 + Z.of_nat i + 1) by lia.
Qed.

(** ** The loop *)

Lemma scalarmult_digit_spec Ai r b P n :
  on_curve P -> table_ok P Ai -> digit b -> r ~> ed_mul n P ->
  returns (scalarmult_digit Ai r b) (fun t => t ~> ed_mul (b + 16 * n) P).
Proof.
  intros HP HA Hb Hr. unfold scalarmult_digit.
  ge_run.
  eapply returns_bind; [eapply scalarmult_select_spec; eassumption | cbv beta; intros cur Hcur].
  eapply returns_weaken; [eapply ge_add_spec; eassumption | cbv beta; intros t Ht].
  rewrite <- !ed_mul_add in Ht by exact HP.
  now replace (b + 16 * n) with (n + n + (n + n) + (n + n + (n + n)) + (n + n + (n + n) + (n + n + (n + n))) + b) by lia.
Qed.

(** The digits processed so far, most significant first. *)
Definition prefix_val (done : list Z) : Z := horner 16 (rev done).

Lemma prefix_val_snoc done b : prefix_val (done ++ [b]) = b + 16 * prefix_val done.
Proof. unfold prefix_val. now rewrite rev_app_distr. Qed.

Lemma ge_scalarmult_spec a A P :
  A ~> P -> bytes a -> length a = 32%nat -> (forall x, nth_error a 31 = Some x -> x <= 127) ->
  returns (ge_scalarmult a A) (fun r => r ~> ed_mul (le_val a) P).
Proof.
  intros HA Ha Hl Hx. pose proof (repr_on_curve_p3 A P HA) as HP. unfold ge_scalarmult.
  eapply returns_bind; [apply (scalar_digits_spec 31 a 0); trivial; lia | cbv beta; intros e (Ee & De & Ne)].
  eapply returns_bind; [eapply scalarmult_table_spec; eassumption | intros Ai HAi].
  eapply returns_weaken.
  - apply (foldM_inv (fun done (r : ge_p2) => r ~> ed_mul (prefix_val done) P) _ _ []).
    + exact ge_p2_0_spec.
    + intros done b r Hin Hr. rewrite <- in_rev in Hin. rewrite Forall_forall in De.
      eapply returns_bind; [apply (scalarmult_digit_spec Ai r b P _ HP HAi (De b Hin) Hr) | cbv beta; intros t Ht].
      rewrite prefix_val_snoc. now apply ge_p1p1_to_p2_spec.
  - cbn [app]. unfold prefix_val. intros r Hr. rewrite rev_involutive, Ee, Z.add_0_r in Hr. exact Hr.
Qed.

Lemma scalarmult_p3_loop_spec Ai P e r n :
  on_curve P -> table_ok P Ai -> Forall digit e -> e <> [] -> r ~> ed_mul n P ->
  returns (scalarmult_p3_loop Ai e r) (fun t => t ~> ed_mul (fold_left (fun n b => b + 16 * n) e n) P).
Proof.
  intros HP HA He. revert r n. induction He as [|b e Hb He IH]; intros r n Hne Hr; [congruence|].
  pose proof (scalarmult_digit_spec Ai r b P n HP HA Hb Hr) as Hd. cbn [scalarmult_p3_loop fold_left].
  destruct e as [|b' e].
  - eapply returns_bind; [exact Hd | cbv beta; intros t Ht]. now apply ge_p1p1_to_p3_spec.
  - eapply returns_bind; [exact Hd | cbv beta; intros t Ht]. ge_step ge_p1p1_to_p2_spec as r' Hr'.
    now apply IH.
Qed.

Lemma fold_left_horner e : fold_left (fun n b => b + 16 * n) (rev e) 0 = horner 16 e.
Proof.
  rewrite <- fold_left_rev_right, rev_involutive. induction e as [|b e IH]; [reflexivity|].
  cbn [fold_right horner]. now rewrite IH.
Qed.

Lemma ge_scalarmult_p3_spec a A P :
  A ~> P -> bytes a -> length a = 32%nat -> (forall x, nth_error a 31 = Some x -> x <= 127) ->
  returns (ge_scalarmult_p3 a A) (fun r => r ~> ed_mul (le_val a) P).
Proof.
  intros HA Ha Hl Hx. pose proof (repr_on_curve_p3 A P HA) as HP. unfold ge_scalarmult_p3.
  eapply returns_bind; [apply (scalar_digits_spec 31 a 0); trivial; lia | cbv beta; intros e (Ee & De & Ne)].
  eapply returns_bind; [eapply scalarmult_table_spec; eassumption | intros Ai HAi].
  eapply returns_weaken.
  - apply (scalarmult_p3_loop_spec Ai P (rev e) ge_p2_0 0); trivial.
    + now apply Forall_rev.
    + intros E%(f_equal (@rev Z)). rewrite rev_involutive in E. contradiction.
    + exact ge_p2_0_spec.
  - intros r Hr. now rewrite fold_left_horner, Ee, Z.add_0_r in Hr.
Qed.

(** ** Claims *)

(** C31: [ge_scalarmult] and [ge_scalarmult_p3] compute the multiple [a] A of the point for every
    32-byte scalar whose last byte is at most 127 (the precondition the code states): no
    field operation overflows, no assertion of the conditional moves fails, and the
    results represent the same point. *)
Theorem ge_scalarmult_correct a A P :
  A ~> P -> bytes a -> length a = 32%nat -> nth 31 a 0 <= 127 ->
  exists r r3, ge_scalarmult a A = Some r /\ ge_scalarmult_p3 a A = Some r3 /\
    r ~> ed_mul (le_val a) P /\ r3 ~> ed_mul (le_val a) P.
Proof.
  intros HA Ha Hl Hx.
  assert (forall x, nth_error a 31 = Some x -> x <= 127) as Hx'.
  { intros x E. apply nth_error_nth with (d := 0) in E. lia. }
  pose proof (ge_scalarmult_spec a A P HA Ha Hl Hx') as [r [E H]]%returns_some.
  pose proof (ge_scalarmult_p3_spec a A P HA Ha Hl Hx') as [r3 [E3 H3]]%returns_some. eauto 6.
Qed.

Lemma ge_scalarmult_correct_witness :
  exists r r3, ge_scalarmult (repeat 127 32) ge_p3_0 = Some r /\
    ge_scalarmult_p3 (repeat 127 32) ge_p3_0 = Some r3 /\
    r ~> ed_mul (le_val (repeat 127 32)) ed_0 /\ r3 ~> ed_mul (le_val (repeat 127 32)) ed_0.
Proof.
  apply (ge_scalarmult_correct (repeat 127 32) ge_p3_0 ed_0 ge_p3_0_spec); [|reflexivity|cbn; lia].
  apply Forall_forall. intros b Hb%repeat_spec. subst. unfold is_byte. lia.
Defined.
