(* ===== verification/GeBase.v ===== *)
(** * Multiplication of the base point

    Models [select] and [ge_scalarmult_base] of crypto-ops.c over the tables of GeTable.
    The tables are checked by evaluation: [ge_base[i][j]] is (j+1) 256^i B and [ge_Bi[j]]
    is (2 j + 1) B, as their comments say, and [ge_scalarmult_base] computes a B. *)

From Stdlib Require Import ZArith Lia List Bool Zmod Field.
From Bignums Require Import BigZ.
From S2P Require Import Prelude Bytes Fe FeMul Primes Curve Ge GeScalar GeTable.
Import ListNotations.

#[local] Open Scope Z_scope.

(** ** Functions *)

(** [select(t, pos, b)] on the row [ge_base[pos]]. *)
Definition select (row : list ge_precomp) (b : Z) : option ge_precomp :=
  match row with
  | [B0; B1; B2; B3; B4; B5; B6; B7] =>
      let bnegative := negative b in
      let! babs := babs_of b bnegative in
      let t := ge_precomp_0 in
      let! t := ge_precomp_cmov t B0 (equal babs 1) in
      let! t := ge_precomp_cmov t B1 (equal babs 2) in
      let! t := ge_precomp_cmov t B2 (equal babs 3) in
      let! t := ge_precomp_cmov t B3 (equal babs 4) in
      let! t := ge_precomp_cmov t B4 (equal babs 5) in
      let! t := ge_precomp_cmov t B5 (equal babs 6) in
      let! t := ge_precomp_cmov t B6 (equal babs 7) in
      let! t := ge_precomp_cmov t B7 (equal babs 8) in
      let myplusx := fe_copy (yminusx t) in
      let myminusx := fe_copy (yplusx t) in
      let! mxy2d := fe_neg (xy2d t) in
      ge_precomp_cmov t (Precomp myplusx myminusx mxy2d) bnegative
  | _ => None
  end.

(** [e[2 i + 0] = (a[i] >> 0) & 15; e[2 i + 1] = (a[i] >> 4) & 15;] for [n] bytes. *)
Fixpoint nibbles (n : nat) (a : list Z) : option (list Z) :=
  match n, a with
  | O, _ => Some []
  | S n, ai :: a =>
      let! e := nibbles n a in
      Some (to_i8 (Z.land (Z.shiftr ai 0) 15) :: to_i8 (Z.land (Z.shiftr ai 4) 15) :: e)
  | S _, [] => None
  end.

(** The carry loop on [signed char] digits; the last digit only takes the carry. *)
Fixpoint base_carries (e : list Z) (carry : Z) : list Z :=
  match e with
  | [] => []
  | [e63] => [to_i8 (e63 + carry)]
  | ei :: e =>
      let ei := to_i8 (ei + carry) in
      let carry := to_i8 (ei + 8) in
      let carry := to_i8 (Z.shiftr carry 4) in
      let ei := to_i8 (ei - Z.shiftl carry 4) in
      ei :: base_carries e carry
  end.

(** [select(&t, i / 2, e[i]); ge_madd(&r, h, &t); ge_p1p1_to_p3(h, &r);] *)
Definition base_step (e : list Z) (h : ge_p3) (i : nat) : option ge_p3 :=
  let! row := nth_error ge_base (i / 2) in
  let! ei := nth_error e i in
  let! t := select row ei in
  let! r := ge_madd h t in
  ge_p1p1_to_p3 r.

(** [i = 1, 3, .., 63] and [i = 0, 2, .., 62] *)
Definition odd_indices : list nat := map (fun k => 2 * k + 1)%nat (seq 0 32).
Definition even_indices : list nat := map (fun k => 2 * k)%nat (seq 0 32).

Definition ge_scalarmult_base (a : list Z) : option ge_p3 :=
  let! e := nibbles 32 a in
  let e := base_carries e 0 in
  let! h := foldM (base_step e) odd_indices ge_p3_0 in
  let! r := ge_p3_dbl h in
  let! s := ge_p1p1_to_p2 r in
  let! r := ge_p2_dbl s in
  let! s := ge_p1p1_to_p2 r in
  let! r := ge_p2_dbl s in
  let! s := ge_p1p1_to_p2 r in
  let! r := ge_p2_dbl s in
  let! h := ge_p1p1_to_p3 r in
  foldM (base_step e) even_indices h.

(** ** Checking the tables *)

Section Check.
#[local] Open Scope bigZ_scope.

Let p : BigZ.t := BigZ.of_Z p25519.

Definition bF (x : BigZ.t) : F := Zmod.of_Z p25519 (BigZ.to_Z x).

Definition mulm (a b : BigZ.t) : BigZ.t := BigZ.modulo (a * b) p.

Definition eqm (a b : BigZ.t) : bool := BigZ.eqb (BigZ.modulo (a - b) p) 0.

Definition bd : BigZ.t := Eval vm_compute in BigZ.of_Z (fe_val fe_d mod p25519).

(** The inverse of two. *)
Definition bhalf : BigZ.t := Eval vm_compute in BigZ.of_Z ((p25519 + 1) / 2).

Definition bpoint : Type := BigZ.t * BigZ.t.

Definition bP (q : bpoint) : point := let '(x, y) := q in (bF x, bF y).

Definition on_curve_check (q : bpoint) : bool :=
  let '(x, y) := q in
  let xx := mulm x x in let yy := mulm y y in
  eqm (yy - xx) (1 + mulm bd (mulm xx yy)).

Definition add_check (q1 q2 q3 : bpoint) : bool :=
  let '(x1, y1) := q1 in let '(x2, y2) := q2 in let '(x3, y3) := q3 in
  let t := mulm bd (mulm (mulm x1 x2) (mulm y1 y2)) in
  eqm (mulm x3 (1 + t)) (mulm x1 y2 + mulm y1 x2) &&
  eqm (mulm y3 (1 - t)) (mulm y1 y2 + mulm x1 x2).

(** The affine point of a table entry. *)
Definition entry_point (e : ge_precomp) : bpoint :=
  let yp := BigZ.of_Z (fe_val (yplusx e)) in
  let ym := BigZ.of_Z (fe_val (yminusx e)) in
  (mulm (yp - ym) bhalf, mulm (yp + ym) bhalf).

Definition entry_check (e : ge_precomp) : bool :=
  let '(x, y) := entry_point e in
  on_curve_check (x, y) && eqm (BigZ.of_Z (fe_val (xy2d e))) (mulm (2 * bd) (mulm x y)).

(** Points [q], [q + s], [q + 2 s], .. *)
Fixpoint chain_check (s q : bpoint) (l : list ge_precomp) : bool :=
  match l with
  | [] => true
  | e :: l => entry_check e && add_check q s (entry_point e) && chain_check s (entry_point e) l
  end.

(** Projective doubling. *)
Definition bdbl (q : BigZ.t * BigZ.t * BigZ.t) : BigZ.t * BigZ.t * BigZ.t :=
  let '(X, Y, Z) := q in
  let E := 2 * mulm X Y in
  let xx := mulm X X in let yy := mulm Y Y in
  let G := yy - xx in let H := yy + xx in
  let K := 2 * mulm Z Z - G in
  (mulm E K, mulm H G, mulm G K).

(** [q2] is 32 [q1]. *)
Definition link_check (q1 q2 : bpoint) : bool :=
  let '(x, y) := q1 in
  let '(X, Y, Z) := bdbl (bdbl (bdbl (bdbl (bdbl (x, y, 1))))) in
  eqm (mulm (fst q2) Z) X && eqm (mulm (snd q2) Z) Y.

(** Row by row: the first entry is a curve point, the others are its multiples, and the next
    row starts at 256 times the first entry. *)
Fixpoint rows_check (rows : list (list ge_precomp)) : bool :=
  match rows with
  | (e0 :: l) :: rest =>
      entry_check e0 && chain_check (entry_point e0) (entry_point e0) l &&
      Nat.eqb (length l) 7 &&
      match rest with
      | (e0' :: _) :: _ => link_check (entry_point (last l e0)) (entry_point e0')
      | _ => true
      end && rows_check rest
  | [] => true
  | [] :: _ => false
  end.
End Check.

Lemma ge_base_check : rows_check ge_base = true.
Proof. vm_compute. reflexivity. Qed.

(** ** Soundness of the checks *)

#[local] Open Scope Zmod_scope.
#[local] Notation "a / b" := (Zmod.mdiv a b) : Zmod_scope.

Lemma bF_of_Z z : bF (BigZ.of_Z z) = Zmod.of_Z p25519 z.
Proof. unfold bF. now rewrite BigZ.spec_of_Z. Qed.

Lemma bF_mulm a b : bF (mulm a b) = bF a * bF b.
Proof.
  unfold bF, mulm. rewrite BigZ.spec_modulo, BigZ.spec_mul, BigZ.spec_of_Z.
  now rewrite Zmod.of_Z_mod, Zmod.of_Z_mul.
Qed.

Lemma bF_add a b : bF (BigZ.add a b) = bF a + bF b.
Proof. unfold bF. now rewrite BigZ.spec_add, Zmod.of_Z_add. Qed.

Lemma bF_sub a b : bF (BigZ.sub a b) = bF a - bF b.
Proof. unfold bF. now rewrite BigZ.spec_sub, Zmod.of_Z_sub. Qed.

Lemma bF_mul a b : bF (BigZ.mul a b) = bF a * bF b.
Proof. unfold bF. now rewrite BigZ.spec_mul, Zmod.of_Z_mul. Qed.

Lemma bF_1 : bF 1%bigZ = 1.
Proof. reflexivity. Qed.

Lemma bF_2 : bF 2%bigZ = 1 + 1.
Proof. unfold bF, Zmod.one. rewrite <- Zmod.of_Z_add. reflexivity. Qed.

Lemma bF_bd : bF bd = d.
Proof. unfold bF, d, fe_F. apply of_Z_eq. vm_compute. reflexivity. Qed.

Lemma bF_bhalf : (1 + 1) * bF bhalf = 1.
Proof.
  unfold bF, Zmod.one. rewrite <- Zmod.of_Z_add, <- Zmod.of_Z_mul. apply of_Z_eq. vm_compute. reflexivity.
Qed.

Lemma eqm_spec a b : eqm a b = true -> bF a = bF b.
Proof.
  unfold eqm. intros H. rewrite BigZ.spec_eqb, BigZ.spec_modulo, BigZ.spec_sub, BigZ.spec_of_Z in H.
  apply Z.eqb_eq in H. apply sub_0_eq. unfold bF. rewrite <- Zmod.of_Z_sub, <- Zmod.of_Z_mod, H. reflexivity.
Qed.

Ltac b_rewrite := repeat progress (rewrite ?bF_mulm, ?bF_add, ?bF_sub, ?bF_mul, ?bF_1, ?bF_2, ?bF_bd in *).

#[local] Opaque fe_F d Zmod.mul Zmod.add Zmod.sub Zmod.opp Zmod.mdiv Zmod.one Zmod.zero bF mulm.

Lemma on_curve_check_spec q : on_curve_check q = true -> on_curve (bP q).
Proof.
  destruct q as [x y]. unfold on_curve_check. intros H%eqm_spec. b_rewrite.
  unfold on_curve, bP. rewrite H. ring.
Qed.

Lemma add_check_spec q1 q2 q3 :
  on_curve (bP q1) -> on_curve (bP q2) -> add_check q1 q2 q3 = true -> bP q3 = ed_add (bP q1) (bP q2).
Proof.
  destruct q1 as [x1 y1], q2 as [x2 y2], q3 as [x3 y3]. intros H1 H2 H. unfold bP in *.
  destruct (complete _ _ _ _ H1 H2) as [N1 N2]. unfold add_check in H.
  apply andb_prop in H as [Hx%eqm_spec Hy%eqm_spec]. b_rewrite. unfold ed_add. f_equal.
  - transitivity (bF x3 * (1 + d * bF x1 * bF x2 * bF y1 * bF y2) / (1 + d * bF x1 * bF x2 * bF y1 * bF y2));
      [field; exact N1 | f_equal]. rewrite <- Hx. ring.
  - transitivity (bF y3 * (1 - d * bF x1 * bF x2 * bF y1 * bF y2) / (1 - d * bF x1 * bF x2 * bF y1 * bF y2));
      [field; exact N2 | f_equal]. rewrite <- Hy. ring.
Qed.

Lemma fe_F_of_Z f : fe_F f = bF (BigZ.of_Z (fe_val f)).
Proof. now rewrite bF_of_Z. Qed.

(** Limbs of a table entry. *)
Definition fe_bounded (f : fe) : bool :=
  let '(Fe f0 f1 f2 f3 f4 f5 f6 f7 f8 f9) := f in
  forallb (fun x => Z.abs x <=? 33889976)%Z [f0; f2; f4; f6; f8] &&
  forallb (fun x => Z.abs x <=? 16944988)%Z [f1; f3; f5; f7; f9].

Definition entry_bounded (e : ge_precomp) : bool :=
  fe_bounded (yplusx e) && fe_bounded (yminusx e) && fe_bounded (xy2d e).

Lemma fe_bounded_spec f : fe_bounded f = true -> fe_101 f.
Proof.
  destruct f. unfold fe_bounded. cbn [forallb]. rewrite !andb_true_iff, !Z.leb_le.
  intros H. decompose [and] H. cbn. repeat split; assumption.
Qed.

Lemma entry_check_spec e :
  entry_bounded e = true -> entry_check e = true -> on_curve (bP (entry_point e)) /\ e ~> bP (entry_point e).
Proof.
  intros Hb H. destruct e as [yp ym xy]. unfold entry_bounded in Hb. cbn [yplusx yminusx xy2d] in Hb.
  apply andb_prop in Hb as [[B1 B2]%andb_prop B3]. apply fe_bounded_spec in B1, B2, B3.
  unfold entry_check, entry_point in *. cbn [yplusx yminusx xy2d] in *.
  apply andb_prop in H as [Hc Hxy%eqm_spec]. apply on_curve_check_spec in Hc.
  split; [exact Hc|]. split; [exact Hc|]. split; [auto|]. rewrite !fe_F_of_Z. b_rewrite.
  pose proof bF_bhalf as Hh. rewrite Hxy. clear Hc Hxy. revert Hh.
  generalize (bF bhalf), (bF (BigZ.of_Z (fe_val yp))), (bF (BigZ.of_Z (fe_val ym))).
  intros h a b Hh. split; [|split; [|ring]].
  - transitivity (a * ((1 + 1) * h)); [rewrite Hh; ring | ring].
  - transitivity (b * ((1 + 1) * h)); [rewrite Hh; ring | ring].
Qed.

(** ** The rows *)

Lemma chain_check_spec s q B k l :
  on_curve B -> bP s = B -> bP q = ed_mul k B -> forallb entry_bounded l = true ->
  chain_check s q l = true ->
  forall j e, nth_error l j = Some e -> bP (entry_point e) = ed_mul (k + 1 + Z.of_nat j) B /\ e ~> ed_mul (k + 1 + Z.of_nat j) B.
Proof.
  intros HS Es. revert q k. induction l as [|e l IH]; intros q k Eq Hb H j e' Hj; [destruct j; discriminate|].
  cbn [forallb] in Hb. apply andb_prop in Hb as [Be Bl]. cbn [chain_check] in H.
  apply andb_prop in H as [[He Ha]%andb_prop Hl].
  destruct (entry_check_spec e Be He) as [Hc Hr].
  assert (bP (entry_point e) = ed_mul (k + 1) B) as Ee.
  { rewrite (add_check_spec q s); [| rewrite Eq; now apply ed_mul_on_curve | now rewrite Es | exact Ha].
    now rewrite Eq, Es, ed_mul_succ, ed_add_comm. }
  destruct j as [|j]; cbn [nth_error] in Hj.
  - injection Hj as <-. rewrite Z.add_0_r, <- Ee. auto.
  - replace (k + 1 + Z.of_nat (S j))%Z with (k + 1 + 1 + Z.of_nat j)%Z by lia.
    now apply (IH (entry_point e) (k + 1)%Z).
Qed.

(** Projective coordinates of a point. *)
Definition proj (q : BigZ.t * BigZ.t * BigZ.t) (P : point) : Prop :=
  let '(X, Y, Z) := q in let '(x, y) := P in
  on_curve P /\ bF Z <> 0 /\ bF X = x * bF Z /\ bF Y = y * bF Z.

Lemma bdbl_spec q P : proj q P -> proj (bdbl q) (ed_add P P).
Proof.
  destruct q as [[X Y] Z], P as [x y]. intros (Hc & NZ & EX & EY). unfold bdbl, proj.
  destruct (complete _ _ _ _ Hc Hc) as [N1 N2]. b_rewrite. rewrite EX, EY.
  assert (y * y - x * x = 1 + d * x * x * y * y) as Hc' by exact Hc.
  assert (y * bF Z * (y * bF Z) - x * bF Z * (x * bF Z) = (1 + d * x * x * y * y) * (bF Z * bF Z)) as ->
    by (rewrite <- Hc'; ring).
  replace ((1 + 1) * (bF Z * bF Z) - (1 + d * x * x * y * y) * (bF Z * bF Z))
    with ((1 - d * x * x * y * y) * (bF Z * bF Z)) by ring.
  set (z := bF Z) in *. clearbody z.
  split; [now apply (ed_add_on_curve (x, y) (x, y))|].
  split; [repeat apply mul_neq_0; trivial|].
  unfold ed_add. split; field; trivial.
Qed.

Lemma link_check_spec q1 q2 : on_curve (bP q1) -> link_check q1 q2 = true -> bP q2 = ed_mul 32 (bP q1).
Proof.
  destruct q1 as [x y], q2 as [x2 y2]. intros Hc H. unfold link_check in H. cbn [fst snd] in H.
  assert (proj (x, y, 1%bigZ) (bP (x, y))) as H0.
  { unfold proj, bP. rewrite bF_1. split; [exact Hc|]. split; [apply one_neq_0 | split; ring]. }
  do 5 apply bdbl_spec in H0.
  destruct (bdbl (bdbl (bdbl (bdbl (bdbl (x, y, 1%bigZ)))))) as [[X Y] Z].
  set (P := bP (x, y)) in *.
  rewrite <- (ed_mul_1 P) in H0. rewrite <- !ed_mul_add in H0 by exact Hc.
  match type of H0 with proj _ (ed_mul ?n P) => change n with 32%Z in H0 end.
  destruct (ed_mul 32 P) as [u v]. destruct H0 as (_ & NZ & EX & EY).
  apply andb_prop in H as [Hx%eqm_spec Hy%eqm_spec]. b_rewrite. unfold bP.
  f_equal.
  - transitivity (bF x2 * bF Z / bF Z); [field; exact NZ | rewrite Hx, EX; field; exact NZ].
  - transitivity (bF y2 * bF Z / bF Z); [field; exact NZ | rewrite Hy, EY; field; exact NZ].
Qed.

(** The base point: y = 4/5, x even. *)
Definition base_point : point := bP (entry_point (hd ge_precomp_0 ge_base_0)).

Definition row_ok (B : point) (row : list ge_precomp) : Prop :=
  length row = 8%nat /\ forall j e, nth_error row j = Some e -> e ~> ed_mul (Z.of_nat j + 1) B.

Lemma rows_check_spec rows B k :
  on_curve B -> forallb (forallb entry_bounded) rows = true -> rows_check rows = true ->
  (forall e0 l rest, rows = (e0 :: l) :: rest -> bP (entry_point e0) = ed_mul k B) ->
  forall i row, nth_error rows i = Some row -> row_ok (ed_mul (k * 256 ^ Z.of_nat i) B) row.
Proof.
  intros HB. revert k. induction rows as [|r rows IH]; intros k Hb H H0 i row Hi; [destruct i; discriminate|].
  destruct r as [|e0 l]; [discriminate|]. cbn [rows_check] in H. cbn [forallb] in Hb.
  apply andb_prop in Hb as [[Be Bl]%andb_prop Brest].
  apply andb_prop in H as [[[[He Hl]%andb_prop Hn]%andb_prop Hlink]%andb_prop Hrest].
  specialize (H0 e0 l rows eq_refl).
  destruct (entry_check_spec e0 Be He) as [Hc Hr]. rewrite H0 in Hc, Hr.
  apply Nat.eqb_eq in Hn.
  assert (bP (entry_point e0) = ed_mul 1 (ed_mul k B)) as E1 by (rewrite ed_mul_1; exact H0).
  pose proof (chain_check_spec _ _ (ed_mul k B) 1 l Hc H0 E1 Bl Hl) as Hch.
  destruct i as [|i]; cbn [nth_error] in Hi.
  - injection Hi as <-. replace (k * 256 ^ Z.of_nat 0)%Z with k by lia.
    split; [cbn; now rewrite Hn|]. intros [|j] e Hj; cbn [nth_error] in Hj.
    + injection Hj as <-. now rewrite ed_mul_1.
    + apply Hch in Hj as [_ Hj]. now replace (Z.of_nat (S j) + 1)%Z with (1 + 1 + Z.of_nat j)%Z by lia.
  - replace (k * 256 ^ Z.of_nat (S i))%Z with (k * 256 * 256 ^ Z.of_nat i)%Z
      by (rewrite Nat2Z.inj_succ, Z.pow_succ_r by lia; ring).
    apply (IH (k * 256)%Z); trivial. intros e0' l' rest' ->.
    assert (nth_error l 6 = Some (last l e0)) as E7.
    { do 7 (destruct l as [|? l]; [discriminate|]). destruct l; [reflexivity | discriminate]. }
    destruct (Hch 6%nat _ E7) as [EP _].
    rewrite (link_check_spec (entry_point (last l e0)) (entry_point e0')); trivial;
      rewrite EP; [|now apply ed_mul_on_curve].
    rewrite <- !ed_mul_mul by (trivial; now apply ed_mul_on_curve). f_equal. lia.
Qed.

Lemma ge_base_bounded : forallb (forallb entry_bounded) ge_base = true.
Proof. vm_compute. reflexivity. Qed.

Lemma base_point_on_curve : on_curve base_point.
Proof. apply on_curve_check_spec. vm_compute. reflexivity. Qed.

Lemma ge_base_spec i row :
  nth_error ge_base i = Some row -> row_ok (ed_mul (256 ^ Z.of_nat i) base_point) row.
Proof.
  intros H. rewrite <- (Z.mul_1_l (256 ^ Z.of_nat i)).
  apply (rows_check_spec ge_base base_point 1).
  - apply base_point_on_curve.
  - apply ge_base_bounded.
  - apply ge_base_check.
  - intros e0 l rest E. apply (f_equal (fun r => hd ge_precomp_0 (hd [] r))) in E.
    unfold ge_base in E. cbn [hd] in E. rewrite ed_mul_1. unfold base_point. now rewrite E.
  - exact H.
Qed.

(** ** Selection *)

Lemma precomp_minus_spec c P :
  c ~> P ->
  returns (let! t := fe_neg (xy2d c) in
           Some (Precomp (fe_copy (yminusx c)) (fe_copy (yplusx c)) t))
          (fun m => m ~> ed_opp P).
Proof.
  destruct c as [yp ym t], P as [x y]. intros (Hc & (B1 & B2 & B3) & E1 & E2 & E3).
  cbn [yplusx yminusx xy2d]. rewrite !fe_copy_id. fe_unfold. fe_step. cbn [returns].
  split; [now apply (ed_opp_on_curve (x, y))|].
  split; [refine (conj _ (conj _ _)); fe_weak|]. rewrite E, E1, E2, E3. repeat split; ring.
Qed.

Lemma precomp_cmov_step {A} t u P Q (b : bool) (K : ge_precomp -> option A) R :
  t ~> P -> u ~> Q ->
  (forall r, r ~> (if b then Q else P) -> returns (K r) R) ->
  returns (let! r := ge_precomp_cmov t u (Z.b2z b) in K r) R.
Proof.
  intros Ht Hu HK. rewrite (ge_precomp_cmov_spec t u P Q) by (trivial; apply b2z_01).
  cbn [bind]. apply HK. rewrite b2z_eqb. now destruct b.
Qed.

Lemma select_spec row P b :
  on_curve P -> row_ok P row -> digit b -> returns (select row b) (fun c => c ~> ed_mul b P).
Proof.
  intros HP [Hl HA] Hb. destruct (digit_select b Hb) as (En & Ea & Ee).
  do 8 (destruct row as [|? row]; try discriminate). destruct row; [|discriminate]. clear Hl.
  pose proof (HA 0%nat _ eq_refl) as H0. pose proof (HA 1%nat _ eq_refl) as H1.
  pose proof (HA 2%nat _ eq_refl) as H2. pose proof (HA 3%nat _ eq_refl) as H3.
  pose proof (HA 4%nat _ eq_refl) as H4. pose proof (HA 5%nat _ eq_refl) as H5.
  pose proof (HA 6%nat _ eq_refl) as H6. pose proof (HA 7%nat _ eq_refl) as H7. clear HA.
  unfold select. rewrite Ea. cbn [bind]. rewrite En, !Ee by lia.
  pose proof ge_precomp_0_spec as Hz. rewrite <- (ed_mul_0 P) in Hz.
  do 8 (eapply precomp_cmov_step; [eassumption | eassumption |
        let r := fresh "r" in let H := fresh "S" in intros r H]).
  match goal with H : ?r ~> ?Q |- returns (let! _ := fe_neg (xy2d ?r) in _) _ =>
    replace Q with (ed_mul (Z.abs b) P) in H end.
  2: { clear - Hb. unfold digit in Hb.
       repeat match goal with |- context [(Z.abs b =? ?k)%Z] =>
         destruct (Z.eqb_spec (Z.abs b) k); [f_equal; lia|] end.
       f_equal. lia. }
  pose proof (precomp_minus_spec _ _ S6) as Hm. destruct (fe_neg (xy2d r6)); [|contradiction].
  cbn [bind returns] in *. rewrite (ge_precomp_cmov_spec _ _ _ _ _ S6 Hm) by apply b2z_01.
  rewrite b2z_eqb. cbn [returns]. destruct (Z.ltb_spec b 0).
  - rewrite <- ed_mul_opp in Hm by exact HP. now replace (- Z.abs b)%Z with b in Hm by lia.
  - now replace (Z.abs b) with b in S6 by lia.
Qed.

(** ** Recoding *)

#[local] Open Scope Z_scope.

Lemma nibbles_spec n a :
  bytes a -> length a = n ->
  returns (nibbles n a) (fun e => horner 16 e = le_val a /\ Forall (fun x => 0 <= x <= 15) e /\
    length e = (2 * n)%nat /\ (le_val a < 2 ^ (8 * Z.of_nat n - 1) -> last e 0 <= 7)).
Proof.
  intros Ha. revert n. induction Ha as [|x a Hx Ha IH]; intros n <-; cbn [length nibbles].
  - cbn. repeat split; [constructor | lia].
  - eapply returns_bind; [now apply IH | cbv beta; intros e (Ee & De & Le & Te)]. cbn [returns].
    unfold is_byte in Hx. change 15 with (Z.ones 4). rewrite !Z.land_ones, !Z.shiftr_div_pow2, Z.div_1_r by lia.
    pose proof (Z.mod_pos_bound x (2 ^ 4) ltac:(lia)). pose proof (Z.div_mod x (2 ^ 4) ltac:(lia)).
    assert (0 <= x / 2 ^ 4 < 2 ^ 4) by (split; [apply Z.div_pos | apply Z.div_lt_upper_bound]; lia).
    rewrite (Z.mod_small (x / 2 ^ 4)) by lia. rewrite !to_i8_small by lia. cbn [horner le_val].
    split; [rewrite Ee; lia|]. split; [repeat (apply Forall_cons; [change (Z.ones 4) with 15; lia|]); exact De|].
    split; [cbn [length]; lia|]. intros Hv. destruct e as [|e0 e].
    + cbn [last]. cbn [length] in Le. assert (length a = 0%nat) as L0 by lia.
      rewrite L0 in Hv. destruct a; [|discriminate]. cbn [le_val] in Hv. change (2 ^ (8 * Z.of_nat 1 - 1)) with 128 in Hv. lia.
    + apply Te. clear - Hv Hx Ha Le. pose proof (le_val_bound a Ha).
      assert (2 ^ (8 * Z.of_nat (S (length a)) - 1) = 256 * 2 ^ (8 * Z.of_nat (length a) - 1)) as E.
      { cbn [length] in Le. change 256 with (2 ^ 8). rewrite <- Z.pow_add_r by lia. f_equal. lia. }
      lia.
Qed.

Lemma base_carries_spec e carry :
  Forall (fun x => 0 <= x <= 15) e -> e <> [] -> last e 0 <= 7 -> 0 <= carry <= 1 ->
  horner 16 (base_carries e carry) = horner 16 e + carry /\ Forall digit (base_carries e carry) /\
  length (base_carries e carry) = length e.
Proof.
  intros He. revert carry. induction He as [|x e Hx He IH]; intros carry Hn Hlast Hc; [congruence|].
  destruct e as [|x' e].
  - cbn [base_carries last] in *. rewrite to_i8_small by lia.
    split; [cbn [horner]; lia | split; [|reflexivity]]. apply Forall_cons; [unfold digit; lia | apply Forall_nil].
  - change (base_carries (x :: x' :: e) carry) with
      (let ei := to_i8 (x + carry) in let c := to_i8 (ei + 8) in let c := to_i8 (Z.shiftr c 4) in
       let ei := to_i8 (ei - Z.shiftl c 4) in ei :: base_carries (x' :: e) c).
    cbv zeta. rewrite (to_i8_small (x + carry)), (to_i8_small (x + carry + 8)) by lia.
    rewrite Z.shiftr_div_pow2, Z.shiftl_mul_pow2 by lia. change (2 ^ 4) with 16.
    pose proof (Z.div_mod (x + carry + 8) 16 ltac:(lia)) as D.
    pose proof (Z.mod_pos_bound (x + carry + 8) 16 ltac:(lia)).
    rewrite (to_i8_small ((x + carry + 8) / 16)), to_i8_small by lia.
    set (c := (x + carry + 8) / 16) in *.
    destruct (IH c) as (E & Dg & Ln); [discriminate | exact Hlast | lia |].
    change (horner 16 (?a :: ?l)) with (a + 16 * horner 16 l).
    split; [cbn [horner] in *; lia|].
    split; [apply Forall_cons; [unfold digit; lia | exact Dg] | cbn [length] in *; lia].
Qed.

(** The digits by parity of their index. *)
Definition odd_sum (e : list Z) (ks : list nat) : Z :=
  fold_right (fun k s => nth (2 * k + 1) e 0 * 256 ^ Z.of_nat k + s) 0 ks.
Definition even_sum (e : list Z) (ks : list nat) : Z :=
  fold_right (fun k s => nth (2 * k) e 0 * 256 ^ Z.of_nat k + s) 0 ks.

Lemma odd_sum_shift a b e ks :
  odd_sum (a :: b :: e) (map S ks) = 256 * odd_sum e ks.
Proof.
  induction ks as [|k ks IH]; cbn [map odd_sum fold_right]; [lia|].
  fold (odd_sum (a :: b :: e) (map S ks)) (odd_sum e ks). rewrite IH, Nat2Z.inj_succ, Z.pow_succ_r by lia.
  replace (2 * S k + 1)%nat with (S (S (2 * k + 1))) by lia. cbn [nth]. ring.
Qed.

Lemma even_sum_shift a b e ks :
  even_sum (a :: b :: e) (map S ks) = 256 * even_sum e ks.
Proof.
  induction ks as [|k ks IH]; cbn [map even_sum fold_right]; [lia|].
  fold (even_sum (a :: b :: e) (map S ks)) (even_sum e ks). rewrite IH, Nat2Z.inj_succ, Z.pow_succ_r by lia.
  replace (2 * S k)%nat with (S (S (2 * k))) by lia. cbn [nth]. ring.
Qed.

Lemma horner_pairs n e :
  length e = (2 * n)%nat -> horner 16 e = even_sum e (seq 0 n) + 16 * odd_sum e (seq 0 n).
Proof.
  revert e. induction n as [|n IH]; intros e Hl; [destruct e; [reflexivity | discriminate]|].
  destruct e as [|a [|b e]]; [discriminate | cbn in Hl; lia |].
  assert (length e = (2 * n)%nat) as Hl' by (cbn [length] in Hl; lia).
  cbn [horner]. rewrite (IH e Hl'). cbn [seq]. rewrite <- seq_shift.
  cbn [even_sum odd_sum fold_right]. fold (even_sum (a :: b :: e) (map S (seq 0 n))) (odd_sum (a :: b :: e) (map S (seq 0 n))).
  rewrite even_sum_shift, odd_sum_shift. cbn [Nat.mul Nat.add nth Z.of_nat]. ring.
Qed.

(** ** The loops *)

Definition index_sum (e : list Z) (l : list nat) : Z :=
  fold_right (fun i s => nth i e 0 * 256 ^ Z.of_nat (i / 2) + s) 0 l.

Lemma index_sum_snoc e l i :
  index_sum e (l ++ [i]) = index_sum e l + nth i e 0 * 256 ^ Z.of_nat (i / 2).
Proof.
  induction l as [|j l IH]; cbn [app index_sum fold_right]; [lia|].
  fold (index_sum e (l ++ [i])) (index_sum e l). rewrite IH. lia.
Qed.

Lemma index_sum_odd e ks : index_sum e (map (fun k => 2 * k + 1)%nat ks) = odd_sum e ks.
Proof.
  induction ks as [|k ks IH]; [reflexivity|]. cbn [map index_sum odd_sum fold_right].
  fold (index_sum e (map (fun k => 2 * k + 1)%nat ks)) (odd_sum e ks). rewrite IH.
  now replace ((2 * k + 1) / 2)%nat with k by (apply (Nat.div_unique _ 2 k 1); lia).
Qed.

Lemma index_sum_even e ks : index_sum e (map (fun k => 2 * k)%nat ks) = even_sum e ks.
Proof.
  induction ks as [|k ks IH]; [reflexivity|]. cbn [map index_sum even_sum fold_right].
  fold (index_sum e (map (fun k => 2 * k)%nat ks)) (even_sum e ks). rewrite IH.
  now replace ((2 * k) / 2)%nat with k by (apply (Nat.div_unique _ 2 k 0); lia).
Qed.

Lemma base_step_spec e h i n :
  Forall digit e -> length e = 64%nat -> (i < 64)%nat -> h ~> ed_mul n base_point ->
  returns (base_step e h i) (fun r => r ~> ed_mul (n + nth i e 0 * 256 ^ Z.of_nat (i / 2)) base_point).
Proof.
  intros De Le Hi Hh. pose proof base_point_on_curve as HB. unfold base_step.
  destruct (nth_error ge_base (i / 2)) as [row|] eqn:Er.
  2: { apply nth_error_None in Er. change (length ge_base) with 32%nat in Er.
       pose proof (Nat.Div0.div_lt_upper_bound i 2 32 ltac:(lia)). lia. }
  destruct (nth_error e i) as [b|] eqn:Eb; [|apply nth_error_None in Eb; lia].
  cbn [bind]. rewrite (nth_error_nth e i 0 Eb).
  assert (digit b) as Db by (rewrite Forall_forall in De; apply De; now apply nth_error_In in Eb).
  eapply returns_bind; [apply select_spec; [| apply ge_base_spec, Er | exact Db] |].
  { now apply ed_mul_on_curve. }
  cbv beta. intros t Ht. rewrite <- ed_mul_mul in Ht by exact HB.
  ge_step ge_madd_spec as r Hr. eapply returns_weaken; [apply ge_p1p1_to_p3_spec; eassumption|].
  cbv beta. intros r' Hr'. now rewrite <- ed_mul_add in Hr' by exact HB.
Qed.

Lemma base_loop_spec e l h n :
  Forall digit e -> length e = 64%nat -> (forall i, In i l -> (i < 64)%nat) -> h ~> ed_mul n base_point ->
  returns (foldM (base_step e) l h) (fun r => r ~> ed_mul (n + index_sum e l) base_point).
Proof.
  intros De Le Hl Hh.
  apply (foldM_inv (fun done (r : ge_p3) => r ~> ed_mul (n + index_sum e done) base_point) _ _ []).
  - now rewrite Z.add_0_r.
  - intros done i r Hin Hr. rewrite index_sum_snoc, Z.add_assoc. apply base_step_spec; auto.
Qed.

Lemma ge_scalarmult_base_spec a :
  bytes a -> length a = 32%nat -> le_val a < 2 ^ 255 ->
  returns (ge_scalarmult_base a) (fun r => r ~> ed_mul (le_val a) base_point).
Proof.
  intros Ha Hl Hv. pose proof base_point_on_curve as HB. unfold ge_scalarmult_base.
  eapply returns_bind; [now apply (nibbles_spec 32) | cbv beta; intros e (Ee & De & Le & Te)].
  cbv zeta. destruct (base_carries_spec e 0 De) as (Ec & Dc & Lc); [intros ->; discriminate | now apply Te | lia |].
  set (c := base_carries e 0) in *. clearbody c. rewrite Le in Lc. rewrite Z.add_0_r in Ec.
  eapply returns_bind.
  { apply (base_loop_spec c odd_indices ge_p3_0 0); trivial; [|apply ge_p3_0_spec].
    intros i Hi. apply in_map_iff in Hi as (k & <- & Hk). apply in_seq in Hk. lia. }
  unfold odd_indices. rewrite index_sum_odd. cbv beta. intros h Hh.
  ge_run.
  match goal with G : ?h ~> _ |- returns (foldM _ even_indices ?h) _ =>
    rewrite <- !ed_mul_add in G by exact HB;
    eapply returns_weaken; [eapply (base_loop_spec c even_indices); trivial; [|exact G] |] end.
  { intros i Hi. apply in_map_iff in Hi as (k & <- & Hk). apply in_seq in Hk. lia. }
  unfold even_indices. rewrite index_sum_even. cbv beta. intros r Hr.
  rewrite <- Ee, <- Ec, (horner_pairs 32 c Lc).
  match goal with H : r ~> ed_mul ?n _ |- _ => replace n with (even_sum c (seq 0 32) + 16 * odd_sum c (seq 0 32)) in H by lia end.
  exact Hr.
Qed.

(** ** [ge_Bi] *)

Lemma ge_Bi_check :
  forallb entry_bounded ge_Bi && entry_check (hd ge_precomp_0 ge_Bi) &&
  eqm (fst (entry_point (hd ge_precomp_0 ge_Bi))) (fst (entry_point (hd ge_precomp_0 ge_base_0))) &&
  eqm (snd (entry_point (hd ge_precomp_0 ge_Bi))) (snd (entry_point (hd ge_precomp_0 ge_base_0))) &&
  chain_check (entry_point (nth 1 ge_base_0 ge_precomp_0)) (entry_point (hd ge_precomp_0 ge_Bi)) (tl ge_Bi) = true.
Proof. vm_compute. reflexivity. Qed.

(** ** Claims *)

(** The table [ge_base] of crypto-ops-data.c is what its comment says: entry j of row i
    holds y + x, y - x and 2 d x y of the point (j+1) 256^i B, reduced, for all 256 entries,
    where B is the point with 5 y = 4 and x even. *)
Theorem ge_base_correct i j row e :
  nth_error ge_base i = Some row -> nth_error row j = Some e ->
  e ~> ed_mul ((Z.of_nat j + 1) * 256 ^ Z.of_nat i) base_point /\
  length ge_base = 32%nat /\ length row = 8%nat /\ on_curve base_point /\
  Zmod.mul (Zmod.of_Z p25519 5) (snd base_point) = Zmod.of_Z p25519 4 /\
  Zmod.to_Z (fst base_point) mod 2 = 0.
Proof.
  intros Hi Hj. pose proof base_point_on_curve as HB. destruct (ge_base_spec i row Hi) as [Hl Hr].
  rewrite ed_mul_mul by exact HB. split; [now apply Hr|]. split; [reflexivity|].
  split; [exact Hl|]. split; [exact HB|]. split.
  - unfold base_point. destruct (entry_point (hd ge_precomp_0 ge_base_0)) as [x y] eqn:E.
    cbn [bP snd]. assert (bF y = bF (snd (entry_point (hd ge_precomp_0 ge_base_0)))) as -> by now rewrite E.
    Transparent bF. unfold bF. rewrite <- Zmod.of_Z_mul. apply of_Z_eq. vm_compute. reflexivity.
  - vm_compute. reflexivity.
Qed.

Lemma ge_base_correct_witness :
  nth 3 ge_base_2 ge_precomp_0 ~> ed_mul (4 * 256 ^ 2) base_point.
Proof. exact (proj1 (ge_base_correct 2 3 ge_base_2 (nth 3 ge_base_2 ge_precomp_0) eq_refl eq_refl)). Defined.

(** [ge_scalarmult_base] computes a B for every 32-byte scalar below 2^255 (the
    precondition a[31] <= 127), with no overflow, no access outside the tables and no
    failed assertion. *)
Theorem ge_scalarmult_base_correct a :
  bytes a -> length a = 32%nat -> le_val a < 2 ^ 255 ->
  exists h, ge_scalarmult_base a = Some h /\ h ~> ed_mul (le_val a) base_point.
Proof. intros Ha Hl Hv. apply returns_some. now apply ge_scalarmult_base_spec. Qed.

Lemma ge_scalarmult_base_correct_witness :
  exists h, ge_scalarmult_base (repeat 127 32) = Some h /\ h ~> ed_mul (le_val (repeat 127 32)) base_point.
Proof.
  apply (ge_scalarmult_base_correct (repeat 127 32)); [|reflexivity|reflexivity].
  apply Forall_forall. intros b Hb%repeat_spec. subst. unfold is_byte. lia.
Defined.
