(* ===== verification/Keccak.v ===== *)
(** * Keccak and cn_fast_hash

    Models keccak.c ([keccakf], [keccak], [keccak1600]) and hash.c
    ([hash_permutation], [hash_process], [cn_fast_hash]). The state is the array
    [st] of 25 64-bit words; a pointer cast to [uint64_t *] reads little-endian
    words, as on the hosts the project supports. [local_abort] is [None].

    The specification is the bit-level definition of Keccak-f[1600] and of the
    sponge with pad10*1, on functions of the coordinates (x, y, z): the round
    constants come from the linear feedback register and the rotation offsets from
    the walk of the standard, not from the tables of the code. *)

From Stdlib Require Import ZArith Lia List Bool Setoid Morphisms.
From S2P Require Import Prelude Bytes.
Import ListNotations.

#[local] Open Scope Z_scope.

(** ** The code: keccak.c *)

Definition ROTL64 (x y : Z) : Z := Z.lor (u64 (Z.shiftl x y)) (Z.shiftr x (64 - y)).
Definition not64 (x : Z) : Z := u64 (Z.lnot x).

Definition keccakf_rndc : list Z :=
  [0x0000000000000001; 0x0000000000008082; 0x800000000000808a;
   0x8000000080008000; 0x000000000000808b; 0x0000000080000001;
   0x8000000080008081; 0x8000000000008009; 0x000000000000008a;
   0x0000000000000088; 0x0000000080008009; 0x000000008000000a;
   0x000000008000808b; 0x800000000000008b; 0x8000000000008089;
   0x8000000000008003; 0x8000000000008002; 0x8000000000000080;
   0x000000000000800a; 0x800000008000000a; 0x8000000080008081;
   0x8000000000008080; 0x0000000080000001; 0x8000000080008008].

Definition keccakf_rotc : list Z :=
  [1; 3; 6; 10; 15; 21; 28; 36; 45; 55; 2; 14;
   27; 41; 56; 8; 25; 43; 62; 18; 39; 61; 20; 44].

Definition keccakf_piln : list nat :=
  [10; 7; 11; 17; 18; 3; 5; 16; 8; 21; 24; 4;
   15; 23; 19; 13; 12; 2; 20; 14; 22; 9; 6; 1]%nat.

(** [for (j = 0; j < 25; j += 5)] *)
Definition rows : list nat := [0; 5; 10; 15; 20]%nat.

Definition theta (st : list Z) : option (list Z) :=
  let! bc := mapM (fun i =>
      let! a := nth_error st i in
      let! b := nth_error st (i + 5) in
      let! c := nth_error st (i + 10) in
      let! d := nth_error st (i + 15) in
      let! e := nth_error st (i + 20) in
      Some (Z.lxor (Z.lxor (Z.lxor (Z.lxor a b) c) d) e)) (seq 0 5) in
  foldM (fun st i =>
      let! a := nth_error bc ((i + 4) mod 5) in
      let! b := nth_error bc ((i + 1) mod 5) in
      let t := Z.lxor a (ROTL64 b 1) in
      foldM (fun st j =>
          let! x := nth_error st (j + i) in
          aset st (j + i) (Z.lxor x t)) rows st) (seq 0 5) st.

Definition rho_pi (st : list Z) : option (list Z) :=
  let! t := nth_error st 1 in
  let! '(t, st) := foldM (fun '(t, st) i =>
      let! j := nth_error keccakf_piln i in
      let! bc0 := nth_error st j in
      let! r := nth_error keccakf_rotc i in
      let! st := aset st j (ROTL64 t r) in
      Some (bc0, st)) (seq 0 24) (t, st) in
  Some st.

Definition chi (st : list Z) : option (list Z) :=
  foldM (fun st j =>
      let! bc := mapM (fun i => nth_error st (j + i)) (seq 0 5) in
      foldM (fun st i =>
          let! b1 := nth_error bc ((i + 1) mod 5) in
          let! b2 := nth_error bc ((i + 2) mod 5) in
          let! x := nth_error st (j + i) in
          aset st (j + i) (Z.lxor x (Z.land (not64 b1) b2))) (seq 0 5) st) rows st.

Definition iota (st : list Z) (round : nat) : option (list Z) :=
  let! x := nth_error st 0 in
  let! c := nth_error keccakf_rndc round in
  aset st 0 (Z.lxor x c).

Definition keccakf (st : list Z) (rounds : Z) : option (list Z) :=
  foldM (fun st round =>
      let! st := theta st in
      let! st := rho_pi st in
      let! st := chi st in
      iota st round) (seq 0 (Z.to_nat rounds)) st.

Definition KECCAK_ROUNDS : Z := 24.
Definition HASH_SIZE : nat := 32.
Definition HASH_DATA_AREA : nat := 136.

(** [((uint64_t * ) in)[i]] *)
Definition word_at (inp : list Z) (i : nat) : option Z :=
  let w := firstn 8 (skipn (8 * i) inp) in
  if (length w =? 8)%nat then Some (le_val w) else None.

(** [for (i = 0; i < rsizw; i++) st[i] ^= ((uint64_t * ) in)[i];] *)
Definition xor_words (st inp : list Z) (rsizw : nat) : option (list Z) :=
  foldM (fun st i =>
      let! x := nth_error st i in
      let! w := word_at inp i in
      aset st i (Z.lxor x w)) (seq 0 rsizw) st.

(** The loop over the full blocks; [None] also when the fuel runs out. *)
Fixpoint keccak_absorb (fuel : nat) (st inp : list Z) (inlen rsiz : nat)
  : option (list Z * list Z * nat) :=
  match fuel with
  | O => None
  | S fuel =>
      if (rsiz <=? inlen)%nat then
        let! st := xor_words st inp (rsiz / 8) in
        let! st := keccakf st KECCAK_ROUNDS in
        keccak_absorb fuel st (skipn rsiz inp) (inlen - rsiz) rsiz
      else Some (st, inp, inlen)
  end.

(** The first [rsiz] bytes of [temp] after the padding. *)
Definition keccak_temp (inp : list Z) (inlen rsiz : nat) : option (list Z) :=
  let! inp := if (inlen <=? length inp)%nat then Some (firstn inlen inp) else None in
  let temp := inp ++ [1] ++ repeat 0 (rsiz - (inlen + 1)) in
  let! x := nth_error temp (rsiz - 1) in
  aset temp (rsiz - 1) (Z.lor x 0x80).

(** The second [local_abort] condition; [sizeof(temp)] is 144. *)
Definition keccak_bad_use (inlen rsiz rsizw : nat) : bool :=
  ((144 <=? inlen + 1) || (rsiz <? inlen) || (144 <=? rsiz - inlen + inlen + 1)
   || (rsiz =? 0) || (144 <=? rsiz - 1) || (144 <? rsizw * 8))%nat.

(** The bytes of an array of words in memory. *)
Definition word_bytes (st : list Z) : list Z := flat_map (le_bytes 8) st.

Definition keccak (inp : list Z) (inlen : nat) (mdlen : Z) : option (list Z) :=
  if (mdlen <=? 0) || ((100 <? mdlen) && negb (200 =? mdlen)) then None
  else
    let rsiz := if 200 =? mdlen then HASH_DATA_AREA else Z.to_nat (200 - 2 * mdlen) in
    let rsizw := (rsiz / 8)%nat in
    let! '(st, inp, inlen) := keccak_absorb (S inlen) (repeat 0 25) inp inlen rsiz in
    if keccak_bad_use inlen rsiz rsizw then None
    else
      let! temp := keccak_temp inp inlen rsiz in
      let! st := xor_words st temp rsizw in
      let! st := keccakf st KECCAK_ROUNDS in
      Some (firstn (Z.to_nat mdlen) (word_bytes st)).

Definition keccak1600 (inp : list Z) (inlen : nat) : option (list Z) := keccak inp inlen 200.

(** ** The code: hash.c

    [union hash_state] is its array of bytes [b] or of words [w]. *)

(** The words of an array of bytes: [state->w]. *)
Definition state_words (b : list Z) : option (list Z) := mapM (word_at b) (seq 0 25).

Definition hash_permutation (b : list Z) : option (list Z) :=
  let! w := state_words b in
  let! w := keccakf w 24 in
  Some (word_bytes w).

Definition hash_process (buf : list Z) (count : nat) : option (list Z) := keccak1600 buf count.

Definition cn_fast_hash (data : list Z) (length : nat) : option (list Z) :=
  let! state := hash_process data length in
  Some (firstn HASH_SIZE state).

(** ** Specification: Keccak-f[1600] on bits *)

Definition bits := nat -> nat -> Z -> bool.

Module KeccakSpec.

Definition column (A : bits) (x : nat) (z : Z) : bool :=
  xorb (xorb (xorb (xorb (A x 0%nat z) (A x 1%nat z)) (A x 2%nat z)) (A x 3%nat z)) (A x 4%nat z).

Definition s_theta (A : bits) : bits := fun x y z =>
  xorb (A x y z) (xorb (column A ((x + 4) mod 5) z) (column A ((x + 1) mod 5) ((z - 1) mod 64))).

(** The walk (1,0), (0,2), (2,1), ... over the lanes other than (0,0). *)
Fixpoint walk (t : nat) : nat * nat :=
  match t with
  | O => (1, 0)%nat
  | S t => let '(x, y) := walk t in (y, ((2 * x + 3 * y) mod 5)%nat)
  end.

(** The rotation of lane (x, y): (t+1)(t+2)/2 where the walk is at (x, y) after [t] steps. *)
Definition offset (x y : nat) : Z :=
  match find (fun t => let '(u, v) := walk t in (u =? x)%nat && (v =? y)%nat) (seq 0 24) with
  | Some t => (Z.of_nat t + 1) * (Z.of_nat t + 2) / 2
  | None => 0
  end.

Definition s_rho (A : bits) : bits := fun x y z => A x y ((z - offset x y) mod 64).

Definition s_pi (A : bits) : bits := fun x y z => A ((x + 3 * y) mod 5)%nat x z.

Definition s_chi (A : bits) : bits := fun x y z =>
  xorb (A x y z) (negb (A ((x + 1) mod 5)%nat y z) && A ((x + 2) mod 5)%nat y z).

(** The linear feedback shift register of the round constants. *)
Definition lfsr (R : list bool) : list bool :=
  match R with
  | [r0; r1; r2; r3; r4; r5; r6; r7] => [r7; r0; r1; r2; xorb r3 r7; xorb r4 r7; xorb r5 r7; r6]
  | _ => R
  end.

Definition rc (t : nat) : bool :=
  nth 0 (Nat.iter (t mod 255) lfsr [true; false; false; false; false; false; false; false]) false.

Definition rc_bit (ir : nat) (z : Z) : bool :=
  existsb (fun j => (z =? 2 ^ Z.of_nat j - 1) && rc (j + 7 * ir)) (seq 0 7).

Definition s_iota (ir : nat) (A : bits) : bits := fun x y z =>
  if ((x =? 0) && (y =? 0))%nat then xorb (A x y z) (rc_bit ir z) else A x y z.

Definition s_round (ir : nat) (A : bits) : bits := s_iota ir (s_chi (s_pi (s_rho (s_theta A)))).

Definition keccak_f (rounds : nat) (A : bits) : bits :=
  fold_left (fun A ir => s_round ir A) (seq 0 rounds) A.

(** ** Specification: the sponge

    A string of bits is an integer: bit [i] of the string is bit [i] of the integer, and
    a string of bytes is [le_val] of it. *)

Definition s_xor (A : bits) (P : Z) : bits := fun x y z =>
  xorb (A x y z) (Z.testbit P (64 * Z.of_nat (x + 5 * y) + z)).

(** Absorbs [n] blocks of [r] bytes of the string [P]. *)
Fixpoint s_absorb (r : nat) (n : nat) (A : bits) (P : Z) : bits :=
  match n with
  | O => A
  | S n => s_absorb r n (keccak_f 24 (s_xor A (P mod 2 ^ (8 * Z.of_nat r)))) (P / 2 ^ (8 * Z.of_nat r))
  end.

(** The message, a one, zeros and a one up to the end of the block. *)
Definition pad (r : nat) (msg : list Z) : Z :=
  le_val msg + 2 ^ (8 * Z.of_nat (length msg))
  + 2 ^ (8 * Z.of_nat r * (Z.of_nat (length msg / r) + 1) - 1).

Definition sponge (r : nat) (msg : list Z) : bits :=
  s_absorb r (S (length msg / r)) (fun _ _ _ => false) (pad r msg).

(** Bit [i] of the output. *)
Definition squeeze (A : bits) (i : Z) : bool :=
  let k := Z.to_nat (i / 64) in A (k mod 5)%nat (k / 5)%nat (i mod 64).

(** [md] is the string of the first [8 * length md] bits of the state. *)
Definition squeezed (A : bits) (md : list Z) : Prop :=
  bytes md /\
  forall i, 0 <= i < 8 * Z.of_nat (length md) -> Z.testbit (le_val md) i = squeeze A i.

End KeccakSpec.
Import KeccakSpec.

(** ** Words *)

Definition word (x : Z) : Prop := 0 <= x < 2 ^ 64.
Definition words (st : list Z) : Prop := length st = 25%nat /\ Forall word st.

Lemma word_high x z : word x -> 64 <= z -> Z.testbit x z = false.
Proof.
  intros Hx Hz. rewrite <- (Z.mod_small x (2 ^ 64) Hx). apply Z.mod_pow2_bits_high. lia.
Qed.

Lemma word_u64 x : word (u64 x).
Proof. apply Z.mod_pos_bound. lia. Qed.

Lemma u64_bits x z : 0 <= z < 64 -> Z.testbit (u64 x) z = Z.testbit x z.
Proof. intros. apply Z.mod_pow2_bits_low. lia. Qed.

Lemma word_lxor a b : word a -> word b -> word (Z.lxor a b).
Proof.
  unfold word. intros Ha Hb. replace (Z.lxor a b) with (u64 (Z.lxor a b)); [apply word_u64|].
  unfold u64. rewrite <- Z.land_ones by lia. rewrite <- (Z.mod_small a (2 ^ 64)), <- (Z.mod_small b (2 ^ 64)) by lia.
  rewrite <- !Z.land_ones by lia. apply Z.bits_inj'. intros n Hn.
  rewrite !Z.land_spec, !Z.lxor_spec, !Z.land_spec.
  destruct (Z.testbit (Z.ones 64) n); now rewrite ?andb_true_r, ?andb_false_r.
Qed.

Lemma word_land a b : word a -> word b -> word (Z.land a b).
Proof.
  unfold word. intros Ha Hb. rewrite <- (Z.mod_small b (2 ^ 64)) by lia.
  rewrite <- Z.land_ones, Z.land_assoc, Z.land_ones by lia. apply Z.mod_pos_bound. lia.
Qed.

Lemma word_not64 x : word (not64 x).
Proof. apply word_u64. Qed.

Lemma not64_bits x z : 0 <= z < 64 -> Z.testbit (not64 x) z = negb (Z.testbit x z).
Proof. intros. unfold not64. rewrite u64_bits by lia. apply Z.lnot_spec. lia. Qed.

Lemma word_ROTL64 x k : word x -> 0 < k < 64 -> word (ROTL64 x k).
Proof.
  intros Hx Hk. unfold ROTL64. apply (lor_range _ _ 64); [lia | apply word_u64 |].
  unfold word in *. rewrite Z.shiftr_div_pow2 by lia.
  assert (1 <= 2 ^ (64 - k)) by (apply (Z.pow_le_mono_r 2 0); lia).
  split; [apply Z.div_pos | apply Z.div_lt_upper_bound]; nia.
Qed.

(** The rotation, bit by bit. *)
Lemma ROTL64_bits x k z :
  word x -> 0 < k < 64 -> 0 <= z < 64 -> Z.testbit (ROTL64 x k) z = Z.testbit x ((z - k) mod 64).
Proof.
  intros Hx Hk Hz. unfold ROTL64. rewrite Z.lor_spec, u64_bits by lia.
  rewrite Z.shiftl_spec, Z.shiftr_spec by lia. destruct (Z.lt_ge_cases z k).
  - rewrite (Z.testbit_neg_r _ (z - k)) by lia. cbn [orb]. f_equal.
    apply (Z.mod_unique_pos _ _ (-1)); lia.
  - rewrite (word_high _ (z + _)), orb_false_r by (assumption || lia). f_equal.
    symmetry. apply Z.mod_small. lia.
Qed.

Create HintDb keccak.
#[export] Hint Resolve word_lxor word_land word_not64 word_ROTL64 word_u64 : keccak.
#[export] Hint Extern 2 (_ < _ < _) => lia : keccak.
#[export] Hint Extern 2 (_ <= _ < _) => lia : keccak.

(** ** The words refine the bits *)

Definition bits_of (st : list Z) : bits := fun x y z => Z.testbit (nth (x + 5 * y) st 0) z.

(** Equality of states: on the coordinates of the state. *)
Definition same_bits (A B : bits) : Prop :=
  forall x y z, (x < 5)%nat -> (y < 5)%nat -> 0 <= z < 64 -> A x y z = B x y z.

#[local] Infix "≡" := same_bits (at level 70).

#[export] Instance same_bits_equiv : Equivalence same_bits.
Proof.
  split; [now intros A x y z | intros A B H x y z Hx Hy Hz; symmetry; auto |].
  intros A B C H1 H2 x y z Hx Hy Hz. now rewrite H1, H2.
Qed.

Lemma mod5 n : (n mod 5 < 5)%nat.
Proof. apply Nat.mod_upper_bound. lia. Qed.

Lemma mod64 z : 0 <= z mod 64 < 64.
Proof. apply Z.mod_pos_bound. lia. Qed.

#[export] Hint Resolve mod5 mod64 : keccak.

Lemma column_proper A B x z : A ≡ B -> (x < 5)%nat -> 0 <= z < 64 -> column A x z = column B x z.
Proof. intros H Hx Hz. unfold column. rewrite !H by lia. reflexivity. Qed.

#[export] Instance s_theta_proper : Proper (same_bits ==> same_bits) s_theta.
Proof.
  intros A B H x y z Hx Hy Hz. unfold s_theta.
  rewrite !(column_proper A B) by auto with keccak. now rewrite H.
Qed.

#[export] Instance s_rho_proper : Proper (same_bits ==> same_bits) s_rho.
Proof. intros A B H x y z Hx Hy Hz. apply H; auto with keccak. Qed.

#[export] Instance s_pi_proper : Proper (same_bits ==> same_bits) s_pi.
Proof. intros A B H x y z Hx Hy Hz. apply H; auto with keccak. Qed.

#[export] Instance s_chi_proper : Proper (same_bits ==> same_bits) s_chi.
Proof. intros A B H x y z Hx Hy Hz. unfold s_chi. now rewrite !H by auto with keccak. Qed.

#[export] Instance s_iota_proper ir : Proper (same_bits ==> same_bits) (s_iota ir).
Proof. intros A B H x y z Hx Hy Hz. unfold s_iota. now rewrite H. Qed.

#[export] Instance s_round_proper ir : Proper (same_bits ==> same_bits) (s_round ir).
Proof. intros A B H. unfold s_round. now rewrite H. Qed.

#[export] Instance keccak_f_proper n : Proper (same_bits ==> same_bits) (keccak_f n).
Proof.
  unfold keccak_f. generalize (seq 0 n). intros l. induction l as [|ir l IH]; intros A B H; [exact H|].
  cbn [fold_left]. apply IH. now rewrite H.
Qed.

#[export] Instance s_xor_proper : Proper (same_bits ==> eq ==> same_bits) s_xor.
Proof. intros A B H P _ <- x y z Hx Hy Hz. unfold s_xor. now rewrite H. Qed.

#[export] Instance s_absorb_proper r n : Proper (same_bits ==> eq ==> same_bits) (s_absorb r n).
Proof.
  induction n as [|n IH]; intros A B H P _ <-; [exact H|]. cbn [s_absorb]. apply IH; [|reflexivity].
  now rewrite H.
Qed.

(** ** The steps of a round *)

(** [refines m S]: the computation returns 25 words, whose bits are those of [S]. *)
Definition refines (m : option (list Z)) (S : bits) : Prop :=
  returns m (fun st => words st /\ bits_of st ≡ S).

(** All the words of a state, and all the lanes. *)
Ltac split_words Hst :=
  destruct Hst as [?Hl ?Hw];
  repeat match goal with
  | H : Forall word ?l, L : length ?l = S _ |- _ =>
      destruct H as [|?w ?l ?Hw H]; [discriminate L|]; cbn [length] in L; injection L as L
  | H : Forall word ?l, L : length ?l = O |- _ => destruct l; [clear H L | discriminate L]
  end.

Ltac each_lane x Hx :=
  destruct x as [|[|[|[|[|x]]]]]; [clear Hx.. | exfalso; lia].

Ltac lane_bits :=
  rewrite ?Z.lxor_spec, ?Z.land_spec, ?ROTL64_bits, ?not64_bits, ?Z.lxor_spec by auto 12 with keccak.

(** Runs a step on 25 symbolic words and compares every lane with the specification. *)
Ltac run_step Hst step :=
  split_words Hst;
  cbv [step mapM foldM seq rows keccakf_piln keccakf_rotc nth_error bind aset refines returns
       Nat.add Nat.modulo Nat.divmod Nat.sub fst snd];
  split; [split; [reflexivity|]; repeat (apply Forall_cons; [auto 12 with keccak|]); apply Forall_nil|];
  let x := fresh "x" in let y := fresh "y" in let z := fresh "z" in
  let Hx := fresh in let Hy := fresh in let Hz := fresh in
  intros x y z Hx Hy Hz; each_lane x Hx; each_lane y Hy.

Lemma sub_mod64 z a b : a mod 64 = b mod 64 -> (z - a) mod 64 = (z - b) mod 64.
Proof. intros E. now rewrite (Zminus_mod z a), (Zminus_mod z b), E. Qed.

Lemma theta_spec st : words st -> refines (theta st) (s_theta (bits_of st)).
Proof.
  intros Hst. run_step Hst theta.
  all: cbv [bits_of s_theta column nth Nat.add Nat.mul Nat.modulo Nat.divmod Nat.sub fst snd].
  all: lane_bits; reflexivity.
Qed.

Lemma rho_pi_spec st : words st -> refines (rho_pi st) (s_pi (s_rho (bits_of st))).
Proof.
  intros Hst. run_step Hst rho_pi.
  all: cbv [bits_of s_pi s_rho nth Nat.add Nat.mul Nat.modulo Nat.divmod Nat.sub fst snd].
  all: lane_bits.
  all: match goal with |- context [offset ?a ?b] =>
         let o := eval vm_compute in (offset a b) in change (offset a b) with o end.
  1: rewrite Z.sub_0_r, Z.mod_small by assumption; reflexivity.
  all: f_equal; apply sub_mod64; reflexivity.
Qed.

Lemma chi_spec st : words st -> refines (chi st) (s_chi (bits_of st)).
Proof.
  intros Hst. run_step Hst chi.
  all: cbv [bits_of s_chi nth Nat.add Nat.mul Nat.modulo Nat.divmod Nat.sub fst snd].
  all: lane_bits; reflexivity.
Qed.

(** The table of round constants is what the register generates. *)
Lemma rndc_check :
  forallb (fun ir => forallb (fun z =>
    Bool.eqb (Z.testbit (nth ir keccakf_rndc 0) (Z.of_nat z)) (rc_bit ir (Z.of_nat z))) (seq 0 64)) (seq 0 24) = true.
Proof. vm_compute. reflexivity. Qed.

Lemma rndc_bits ir z : (ir < 24)%nat -> 0 <= z < 64 -> Z.testbit (nth ir keccakf_rndc 0) z = rc_bit ir z.
Proof.
  intros Hi Hz. pose proof rndc_check as H. rewrite forallb_forall in H.
  specialize (H ir ltac:(apply in_seq; lia)). rewrite forallb_forall in H.
  specialize (H (Z.to_nat z) ltac:(apply in_seq; lia)). rewrite Z2Nat.id in H by lia.
  now apply eqb_prop in H.
Qed.

Lemma rndc_words : Forall word keccakf_rndc.
Proof. unfold keccakf_rndc, word. repeat (apply Forall_cons; [lia|]). apply Forall_nil. Qed.

Lemma iota_spec st ir : words st -> (ir < 24)%nat -> refines (iota st ir) (s_iota ir (bits_of st)).
Proof.
  intros [Hl Hw] Hi. destruct Hw as [|w0 st H0 Hw]; [discriminate|]. unfold iota, refines. cbn [nth_error bind].
  rewrite (nth_error_nth' keccakf_rndc 0) by exact Hi. cbn [bind aset returns]. split.
  - split; [exact Hl | apply Forall_cons; [|exact Hw]]. apply word_lxor; [exact H0|].
    pose proof rndc_words as Hr. rewrite Forall_forall in Hr. apply Hr, nth_In, Hi.
  - intros x y z Hx Hy Hz. unfold bits_of, s_iota. rewrite <- rndc_bits by assumption.
    destruct x, y; cbn [Nat.eqb andb Nat.add Nat.mul nth]; [apply Z.lxor_spec | reflexivity..].
Qed.

Lemma refines_bind m k S (T : bits -> bits) :
  Proper (same_bits ==> same_bits) T ->
  refines m S -> (forall st, words st -> refines (k st) (T (bits_of st))) -> refines (bind m k) (T S).
Proof.
  intros HT Hm Hk. eapply returns_bind; [exact Hm|]. intros st [Hst E]. cbv beta in *.
  eapply returns_weaken; [apply Hk, Hst|]. cbv beta. intros st' [Hst' E']. split; [exact Hst'|].
  now rewrite E', E.
Qed.

(** [keccakf] is Keccak-f[1600] restricted to its first [rounds] rounds. *)
Lemma keccakf_spec st rounds :
  words st -> 0 <= rounds <= 24 -> refines (keccakf st rounds) (keccak_f (Z.to_nat rounds) (bits_of st)).
Proof.
  intros Hst Hr. unfold keccakf, keccak_f.
  assert (forall ir, In ir (seq 0 (Z.to_nat rounds)) -> (ir < 24)%nat) as Hl by (intros ir [_ H]%in_seq; lia).
  revert st Hst Hl. generalize (seq 0 (Z.to_nat rounds)). intros l.
  induction l as [|ir l IH]; intros st Hst Hl; cbn [foldM fold_left]; [cbn; split; [exact Hst | reflexivity]|].
  apply (refines_bind _ _ (s_round ir (bits_of st)) (fun A => fold_left (fun A ir => s_round ir A) l A)).
  - clear. induction l as [|i l IH]; intros A B H; [exact H|]. cbn [fold_left]. apply IH. now rewrite H.
  - apply (refines_bind _ _ _ (fun A => s_iota ir (s_chi (s_pi (s_rho A))))); [solve_proper | now apply theta_spec |].
    clear st Hst. intros st Hst.
    apply (refines_bind _ _ _ (fun A => s_iota ir (s_chi A))); [solve_proper | now apply rho_pi_spec |].
    clear st Hst. intros st Hst.
    apply (refines_bind _ _ _ (s_iota ir)); [solve_proper | now apply chi_spec |].
    intros st' Hst'. apply iota_spec; [exact Hst' | apply Hl; now left].
  - intros st' Hst'. apply IH; [exact Hst'|]. intros; apply Hl; now right.
Qed.

(** ** Absorbing a block *)

Lemma word_at_spec inp i :
  bytes inp -> (8 * S i <= length inp)%nat ->
  returns (word_at inp i) (fun w => word w /\
    forall z, 0 <= z < 64 -> Z.testbit w z = Z.testbit (le_val inp) (64 * Z.of_nat i + z)).
Proof.
  intros Hb Hl. unfold word_at.
  assert (8 <= length (skipn (8 * i) inp))%nat by (rewrite length_skipn; lia).
  rewrite length_firstn, Nat.min_l, Nat.eqb_refl by lia. cbn [returns].
  rewrite le_val_firstn by (assumption || now apply bytes_skipn).
  rewrite <- le_val_skipn by exact Hb. change 256 with (2 ^ 8). rewrite <- !Z.pow_mul_r by lia.
  split; [apply word_u64|]. intros z Hz.
  rewrite testbit_mod_pow2, testbit_div_pow2 by lia.
  replace (z <? _) with true by (symmetry; apply Z.ltb_lt; lia). cbn [andb]. f_equal. lia.
Qed.

Lemma xor_words_spec st inp n :
  words st -> bytes inp -> (n <= 25)%nat -> (8 * n <= length inp)%nat ->
  refines (xor_words st inp n) (s_xor (bits_of st) (le_val inp mod 2 ^ (64 * Z.of_nat n))).
Proof.
  intros Hst Hb Hn Hl. unfold xor_words, refines.
  apply (foldM_seq (fun i st' => words st' /\ bits_of st' ≡ s_xor (bits_of st) (le_val inp mod 2 ^ (64 * Z.of_nat i)))).
  - split; [exact Hst|]. intros x y z _ _ _. unfold s_xor. cbn [Z.of_nat].
    rewrite Z.mul_0_r, Z.pow_0_r, Z.mod_1_r, Z.bits_0. now destruct (bits_of st x y z).
  - intros i st' Hi [Hst' E]. cbn in Hi.
    destruct Hst' as [Hl' Hw']. rewrite (nth_error_nth' st' 0) by lia. cbn [bind].
    eapply returns_bind; [apply word_at_spec; [exact Hb | lia]|]. cbv beta. intros w [Hw Bw].
    assert (word (nth i st' 0)) as Hn' by (rewrite Forall_forall in Hw'; apply Hw', nth_In; lia).
    pose proof (aset_spec st' i (Z.lxor (nth i st' 0) w) 0 ltac:(lia)) as Hs.
    pose proof (aset_in word st' i (Z.lxor (nth i st' 0) w) ltac:(lia) Hw' (word_lxor _ _ Hn' Hw)) as Hs'.
    destruct (aset st' i _) as [st''|]; [|contradiction]. cbn [returns] in *. destruct Hs as [Hl'' Hk].
    split; [split; [lia | exact Hs']|]. intros x y z Hx Hy Hz. unfold bits_of in *.
    specialize (E x y z Hx Hy Hz). rewrite Hk. unfold s_xor in *.
    rewrite testbit_mod_pow2 in * by lia.
    destruct (Nat.eqb_spec (x + 5 * y) i) as [<-|Hne].
    + rewrite Z.lxor_spec, E, Bw by exact Hz.
      destruct (Z.ltb_spec (64 * Z.of_nat (x + 5 * y) + z) (64 * Z.of_nat (x + 5 * y))); [lia|].
      destruct (Z.ltb_spec (64 * Z.of_nat (x + 5 * y) + z) (64 * Z.of_nat (S (x + 5 * y)))); [|lia].
      cbn [andb]. now rewrite xorb_false_r.
    + rewrite E. f_equal. f_equal.
      destruct (Z.ltb_spec (64 * Z.of_nat (x + 5 * y) + z) (64 * Z.of_nat i));
      destruct (Z.ltb_spec (64 * Z.of_nat (x + 5 * y) + z) (64 * Z.of_nat (S i))); lia || reflexivity.
Qed.

(** ** The sponge *)

Lemma aset_last {A} (l : list A) x v : aset (l ++ [x]) (length l) v = Some (l ++ [v]).
Proof. induction l as [|a l IH]; cbn [app length aset]; [reflexivity | now rewrite IH]. Qed.

Lemma le_val_zeros n : le_val (repeat 0 n) = 0.
Proof. induction n as [|n IH]; cbn [repeat le_val]; lia. Qed.

Lemma bytes_zeros n : bytes (repeat 0 n).
Proof. apply Forall_forall. intros x Hx. apply repeat_spec in Hx. subst x. unfold is_byte. lia. Qed.

Section Sponge.
  Variable r : nat.
  Hypothesis r_pos : (0 < r)%nat.
  Hypothesis r_words : (r mod 8 = 0)%nat.
  Hypothesis r_le : (r <= 200)%nat.

(** The padded message minus its first block is the padding of the rest. *)
Lemma pad_step msg :
    (r <= length msg)%nat ->
    pad r msg = le_val (firstn r msg) + 2 ^ (8 * Z.of_nat r) * pad r (skipn r msg).
Proof.
    intros Hl. unfold pad. set (n := length msg) in *.
    rewrite length_skipn. fold n.
    assert (n / r = S ((n - r) / r))%nat as ->.
    { replace n with ((n - r) + 1 * r)%nat at 1 by lia. rewrite Nat.div_add by lia. lia. }
    rewrite <- (firstn_skipn r msg) at 1. rewrite le_val_app, length_firstn, Nat.min_l by exact Hl.
    change 256 with (2 ^ 8). rewrite <- Z.pow_mul_r by lia. rewrite !Z.mul_add_distr_l, <- !Z.pow_add_r by nia.
    replace (8 * Z.of_nat r + 8 * Z.of_nat (n - r)) with (8 * Z.of_nat n) by lia.
    replace (8 * Z.of_nat r + (8 * Z.of_nat r * (Z.of_nat ((n - r) / r)) + 8 * Z.of_nat r * 1 - 1))
      with (8 * Z.of_nat r * Z.of_nat (S ((n - r) / r)) + 8 * Z.of_nat r * 1 - 1) by lia.
    ring.
Qed.

Lemma pad_block msg :
    bytes msg -> (r <= length msg)%nat ->
    pad r msg mod 2 ^ (8 * Z.of_nat r) = le_val (firstn r msg) /\
    pad r msg / 2 ^ (8 * Z.of_nat r) = pad r (skipn r msg).
Proof.
    intros Hb Hl. pose proof (le_val_bound _ (bytes_firstn r msg Hb)) as Hv.
    rewrite length_firstn, Nat.min_l in Hv by exact Hl.
    replace (256 ^ Z.of_nat r) with (2 ^ (8 * Z.of_nat r)) in Hv by (now rewrite Z.pow_mul_r by lia).
    rewrite pad_step by exact Hl. split; symmetry.
    - apply (Z.mod_unique_pos _ _ (pad r (skipn r msg))); lia.
    - apply (Z.div_unique_pos _ _ _ (le_val (firstn r msg))); lia.
Qed.

(** One block: the words of [r] bytes, then the permutation. *)
Lemma absorb_block st inp :
    words st -> bytes inp -> (r <= length inp)%nat ->
    refines (let! st := xor_words st inp (r / 8) in keccakf st KECCAK_ROUNDS)
      (keccak_f 24 (s_xor (bits_of st) (le_val inp mod 2 ^ (8 * Z.of_nat r)))).
Proof.
    intros Hst Hb Hl. pose proof (Nat.div_mod r 8 ltac:(lia)) as Hr.
    assert (r / 8 <= 25)%nat by (apply Nat.Div0.div_le_upper_bound; lia).
    replace (8 * Z.of_nat r) with (64 * Z.of_nat (r / 8)) by lia.
    apply (refines_bind _ _ _ (keccak_f 24)); [apply keccak_f_proper | |].
    - apply xor_words_spec; trivial; lia.
    - intros st' Hst'. apply (keccakf_spec st' 24 Hst'). lia.
Qed.

Lemma keccak_absorb_spec fuel st inp :
    words st -> bytes inp -> (length inp < fuel)%nat ->
    returns (keccak_absorb fuel st inp (length inp) r) (fun '(st', inp', n) =>
      words st' /\ bytes inp' /\ n = length inp' /\ (n < r)%nat /\
      s_absorb r (S (length inp / r)) (bits_of st) (pad r inp) ≡ s_absorb r 1 (bits_of st') (pad r inp')).
Proof.
    revert st inp. induction fuel as [|fuel IH]; intros st inp Hst Hb Hf; [lia|]. cbn [keccak_absorb].
    destruct (Nat.leb_spec r (length inp)) as [Hl|Hl].
    - pose proof (absorb_block st inp Hst Hb Hl) as H.
      destruct (xor_words st inp (r / 8)) as [st1|]; [|contradiction]. cbn [bind] in *.
      eapply returns_bind; [exact H|]. cbv beta. intros st2 [Hst2 E2].
      rewrite <- length_skipn.
      eapply returns_weaken; [apply (IH st2 (skipn r inp)); trivial|].
      + now apply bytes_skipn.
      + rewrite length_skipn. lia.
      + cbv beta. intros [[st' inp'] n] (H1 & H2 & H3 & H4 & E).
        refine (conj H1 (conj H2 (conj H3 (conj H4 _)))). rewrite <- E.
        destruct (pad_block inp Hb Hl) as [Em Ed].
        replace (length inp / r)%nat with (S (length (skipn r inp) / r)).
        2: { rewrite length_skipn. replace (length inp) with ((length inp - r) + 1 * r)%nat at 2 by lia.
             rewrite Nat.div_add by lia. lia. }
        set (k := S (length (skipn r inp) / r)). cbn [s_absorb]. rewrite Em, Ed.
        rewrite le_val_firstn by trivial. change 256 with (2 ^ 8). rewrite <- Z.pow_mul_r by lia.
        now rewrite E2.
    - cbn [returns]. rewrite Nat.div_small by lia.
      exact (conj Hst (conj Hb (conj eq_refl (conj Hl (@reflexivity _ _ (@Equivalence_Reflexive _ _ same_bits_equiv) _))))).
Qed.

(** The last block of the code is the padding of the specification. *)
Lemma keccak_temp_spec inp :
    bytes inp -> (length inp < r)%nat ->
    returns (keccak_temp inp (length inp) r) (fun temp =>
      bytes temp /\ length temp = r /\ le_val temp = pad r inp).
Proof.
    intros Hb Hl. unfold keccak_temp. rewrite Nat.leb_refl, firstn_all. cbn [bind].
    assert (exists t x, inp ++ [1] ++ repeat 0 (r - (length inp + 1)) = t ++ [x] /\ length t = (r - 1)%nat /\
      bytes t /\ is_byte (Z.lor x 128) /\
      le_val t + 256 ^ Z.of_nat (r - 1) * Z.lor x 128
        = le_val inp + 256 ^ Z.of_nat (length inp) + 256 ^ Z.of_nat (r - 1) * 128)
      as (t & x & -> & Ht & Hbt & Hx & Hv).
    { destruct (Nat.eq_dec (r - (length inp + 1)) 0) as [e|ne].
      - exists inp, 1. rewrite e. replace (r - 1)%nat with (length inp) by lia.
        repeat split; trivial; try (cbn; lia).
      - destruct (r - (length inp + 1))%nat as [|m] eqn:Em; [lia|].
        exists (inp ++ [1] ++ repeat 0 m), 0. rewrite !length_app, repeat_length, !le_val_app, le_val_zeros.
        cbn [length le_val]. repeat split.
        + rewrite <- !app_assoc. f_equal. f_equal. now rewrite <- repeat_cons.
        + lia.
        + apply bytes_app; [exact Hb|]. apply (bytes_app [1]); [|apply bytes_zeros].
          apply Forall_cons; [unfold is_byte; lia | constructor].
        + cbn; lia.
        + change (Z.lor 0 128) with 128. lia. }
    rewrite <- Ht at 1. rewrite nth_error_app2, Nat.sub_diag by lia. cbn [nth_error bind].
    rewrite <- Ht at 1. rewrite aset_last. cbn [returns]. repeat split.
    - apply bytes_app; [exact Hbt | apply Forall_cons; [exact Hx | apply Forall_nil]].
    - rewrite length_app. cbn [length]. lia.
    - rewrite le_val_app, Ht. cbn [le_val]. rewrite Z.mul_0_r, Z.add_0_r, Hv. unfold pad.
      rewrite (Nat.div_small (length inp) r) by lia. cbn [Z.of_nat]. change 256 with (2 ^ 8).
      change 128 with (2 ^ 7). rewrite <- !Z.pow_mul_r, <- Z.pow_add_r by lia.
      f_equal. f_equal. lia.
Qed.
End Sponge.

(** ** The output *)

Lemma testbit_append w R n i :
  0 <= n -> 0 <= w < 2 ^ n -> 0 <= i ->
  Z.testbit (w + 2 ^ n * R) i = if i <? n then Z.testbit w i else Z.testbit R (i - n).
Proof.
  intros Hn Hw Hi. rewrite <- lor_shiftl_add by assumption. rewrite Z.lor_spec, Z.shiftl_spec by exact Hi.
  destruct (Z.ltb_spec i n).
  - now rewrite (Z.testbit_neg_r R), orb_false_r by lia.
  - rewrite <- (Z.mod_small w (2 ^ n)) by exact Hw. now rewrite Z.mod_pow2_bits_high by lia.
Qed.

Lemma length_word_bytes st : length (word_bytes st) = (8 * length st)%nat.
Proof.
  induction st as [|w st IH]; cbn [word_bytes flat_map length]; [reflexivity|].
  rewrite length_app, length_le_bytes. fold (word_bytes st). lia.
Qed.

Lemma bytes_word_bytes st : bytes (word_bytes st).
Proof.
  induction st as [|w st IH]; [constructor|]. apply bytes_app; [apply bytes_le_bytes | exact IH].
Qed.

Lemma word_bytes_bits st i :
  Forall word st -> 0 <= i ->
  Z.testbit (le_val (word_bytes st)) i = Z.testbit (nth (Z.to_nat (i / 64)) st 0) (i mod 64).
Proof.
  intros Hw. revert i. induction Hw as [|w st Hw Hst IH]; intros i Hi.
  - cbn [word_bytes flat_map le_val]. destruct (Z.to_nat _); cbn [nth]; now rewrite !Z.bits_0.
  - change (word_bytes (w :: st)) with (le_bytes 8 w ++ word_bytes st).
    rewrite le_val_app, length_le_bytes, le_val_le_bytes. change (256 ^ Z.of_nat 8) with (2 ^ 64).
    rewrite (Z.mod_small w) by exact Hw. rewrite testbit_append by (exact Hw || lia).
    destruct (Z.ltb_spec i 64).
    + now rewrite Z.div_small, Z.mod_small by lia.
    + rewrite IH by lia. replace (i / 64) with ((i - 64) / 64 + 1).
      2: { replace i with ((i - 64) + 1 * 64) at 2 by lia. rewrite Z.div_add by lia. lia. }
      pose proof (Z.div_pos (i - 64) 64 ltac:(lia) ltac:(lia)).
      rewrite Z2Nat.inj_add, Nat.add_1_r by lia. cbn [nth]. f_equal.
      replace i with ((i - 64) + 1 * 64) at 2 by lia. now rewrite Z_mod_plus_full.
Qed.

(** A prefix of the bytes of the state is a prefix of its bits. *)
Lemma squeezed_state st A n :
  words st -> bits_of st ≡ A -> (n <= 200)%nat ->
  length (firstn n (word_bytes st)) = n /\ squeezed A (firstn n (word_bytes st)).
Proof.
  intros [Hl Hw] E Hn.
  assert (n <= length (word_bytes st))%nat as Hn' by (rewrite length_word_bytes; lia).
  assert (length (firstn n (word_bytes st)) = n) as Hf by (rewrite length_firstn; lia).
  split; [exact Hf|]. split; [apply bytes_firstn, bytes_word_bytes|]. rewrite Hf. intros i Hi.
  rewrite le_val_firstn by (apply bytes_word_bytes || exact Hn').
  change 256 with (2 ^ 8). rewrite <- Z.pow_mul_r, testbit_mod_pow2 by lia.
  replace (i <? _) with true by (symmetry; apply Z.ltb_lt; lia). cbn [andb].
  rewrite word_bytes_bits by (trivial; lia). unfold squeeze.
  assert (0 <= i / 64 < 25) by (split; [apply Z.div_pos | apply Z.div_lt_upper_bound]; lia).
  rewrite <- E; [| apply mod5 | apply Nat.Div0.div_lt_upper_bound; lia | apply mod64].
  unfold bits_of. rewrite Nat.add_comm, <- Nat.div_mod by lia. reflexivity.
Qed.

(** The output is determined by the state and the length. *)
Lemma squeezed_inj A md md' :
  squeezed A md -> squeezed A md' -> length md = length md' -> md = md'.
Proof.
  intros [Hb H] [Hb' H'] Hl. apply le_val_inj; trivial. apply Z.bits_inj'. intros i Hi.
  pose proof (le_val_bound md Hb) as B. pose proof (le_val_bound md' Hb') as B'.
  change 256 with (2 ^ 8) in B, B'. rewrite <- Z.pow_mul_r in B, B' by lia.
  rewrite <- Hl in *. destruct (Z.lt_ge_cases i (8 * Z.of_nat (length md))).
  - now rewrite H, H' by lia.
  - rewrite <- (Z.mod_small _ _ B), <- (Z.mod_small _ _ B').
    now rewrite !testbit_mod_pow2, (proj2 (Z.ltb_ge _ _)) by lia.
Qed.

Lemma squeezed_firstn A n md : squeezed A md -> squeezed A (firstn n md).
Proof.
  intros [Hb H]. split; [now apply bytes_firstn|]. intros i Hi. rewrite length_firstn in Hi.
  destruct (Nat.le_gt_cases n (length md)) as [Hn|Hn].
  - rewrite le_val_firstn by trivial. change 256 with (2 ^ 8).
    rewrite <- Z.pow_mul_r, testbit_mod_pow2, (proj2 (Z.ltb_lt _ _)) by lia. apply H. lia.
  - rewrite firstn_all2 by lia. apply H. lia.
Qed.

(** ** [keccak] *)

(** The digest lengths the code supports, with the rate in bytes of each. *)
Definition digest_rate (mdlen : Z) (r : nat) : Prop :=
  (mdlen = 200 /\ r = 136%nat) \/
  (32 <= mdlen <= 96 /\ mdlen mod 4 = 0 /\ Z.of_nat r = 200 - 2 * mdlen).

Lemma digest_rate_range mdlen r :
  digest_rate mdlen r ->
  (mdlen <=? 0) || ((100 <? mdlen) && negb (200 =? mdlen)) = false /\
  (if 200 =? mdlen then HASH_DATA_AREA else Z.to_nat (200 - 2 * mdlen)) = r /\
  0 <= mdlen <= 200 /\ (0 < r <= 136)%nat /\ (r mod 8 = 0)%nat.
Proof.
  intros [[-> ->] | (H1 & H2 & H3)]; [repeat split; lia|].
  replace (200 =? mdlen) with false by (symmetry; apply Z.eqb_neq; lia).
  replace (mdlen <=? 0) with false by (symmetry; apply Z.leb_gt; lia).
  replace (100 <? mdlen) with false by (symmetry; apply Z.ltb_ge; lia).
  repeat split; try lia. apply Nat2Z.inj. rewrite Nat2Z.inj_mod, H3.
  pose proof (Z.div_mod mdlen 4 ltac:(lia)).
  symmetry. apply (Z.mod_unique_pos _ _ (25 - mdlen / 4)); lia.
Qed.

Lemma keccak_bad_use_false n r :
  (n < r)%nat -> (0 < r <= 136)%nat -> (r mod 8 = 0)%nat -> keccak_bad_use n r (r / 8) = false.
Proof.
  intros. pose proof (Nat.div_mod r 8 ltac:(lia)). unfold keccak_bad_use.
  repeat rewrite orb_false_iff. rewrite !Nat.leb_gt, !Nat.ltb_ge, Nat.eqb_neq. lia.
Qed.

Lemma words_zero : words (repeat 0 25).
Proof.
  split; [reflexivity|]. apply Forall_forall. intros x Hx. apply repeat_spec in Hx. subst x.
  unfold word. lia.
Qed.

Lemma bits_of_zero : bits_of (repeat 0 25) ≡ (fun _ _ _ => false).
Proof. intros x y z Hx Hy Hz. unfold bits_of. rewrite nth_repeat. apply Z.bits_0. Qed.

Lemma keccak_spec msg mdlen r :
  bytes msg -> digest_rate mdlen r ->
  returns (keccak msg (length msg) mdlen)
    (fun md => length md = Z.to_nat mdlen /\ squeezed (sponge r msg) md).
Proof.
  intros Hb Hr. destruct (digest_rate_range _ _ Hr) as (E1 & E2 & Hm & Hrr & H8).
  unfold keccak. rewrite E1, E2.
  eapply returns_bind.
  { apply (keccak_absorb_spec r ltac:(lia) H8 ltac:(lia) (S (length msg)) _ msg words_zero Hb). lia. }
  cbv beta. intros [[st inp] n] (Hst & Hbi & -> & Hn & E). rewrite keccak_bad_use_false by assumption.
  eapply returns_bind; [apply (keccak_temp_spec r); trivial; lia|]. cbv beta. intros temp (Hbt & Hlt & Hv).
  pose proof (absorb_block r ltac:(lia) H8 ltac:(lia) st temp Hst Hbt ltac:(lia)) as H.
  destruct (xor_words st temp (r / 8)) as [st1|]; [|contradiction]. cbn [bind] in *.
  eapply returns_bind; [exact H|]. cbv beta. intros st2 [Hst2 E']. cbn [returns].
  apply squeezed_state; [exact Hst2 | | lia]. rewrite E', Hv. unfold sponge.
  rewrite <- bits_of_zero. symmetry. exact E.
Qed.

(** ** [cn_fast_hash] and [hash_permutation] *)

Lemma cn_fast_hash_spec data :
  bytes data ->
  returns (cn_fast_hash data (length data))
    (fun h => length h = HASH_SIZE /\ squeezed (sponge HASH_DATA_AREA data) h).
Proof.
  intros Hb. unfold cn_fast_hash, hash_process, keccak1600.
  eapply returns_bind; [apply (keccak_spec data 200 HASH_DATA_AREA Hb); left; split; reflexivity|].
  cbv beta. intros md [Hl Hs]. cbn [returns]. split; [|now apply squeezed_firstn].
  rewrite length_firstn, Hl. reflexivity.
Qed.

(** The state whose bits are those of a string. *)
Definition string_bits (P : Z) : bits := s_xor (fun _ _ _ => false) P.

Lemma state_words_spec b :
  bytes b -> length b = 200%nat ->
  returns (state_words b) (fun w => words w /\ bits_of w ≡ string_bits (le_val b)).
Proof.
  intros Hb Hl.
  set (g := fun i => match word_at b i with Some w => w | None => 0 end).
  assert (forall i, (i < 25)%nat -> word_at b i = Some (g i) /\ word (g i) /\
    forall z, 0 <= z < 64 -> Z.testbit (g i) z = Z.testbit (le_val b) (64 * Z.of_nat i + z)) as Hg.
  { intros i Hi. pose proof (word_at_spec b i Hb ltac:(lia)) as H. unfold g.
    destruct (word_at b i) as [w|]; [split; [reflexivity | exact H] | contradiction]. }
  unfold state_words. rewrite (mapM_map _ g) by (intros i [_ Hi]%in_seq; now apply Hg).
  cbn [returns]. split; [split|].
  - now rewrite length_map, length_seq.
  - apply Forall_map, Forall_forall. intros i [_ Hi]%in_seq. now apply Hg.
  - intros x y z Hx Hy Hz. unfold bits_of, string_bits, s_xor.
    rewrite (nth_indep _ 0 (g 0%nat)) by (rewrite length_map, length_seq; lia).
    rewrite map_nth, seq_nth by lia. cbn [Nat.add]. rewrite (proj2 (proj2 (Hg (x + 5 * y)%nat ltac:(lia)))) by exact Hz.
    now destruct (Z.testbit _ _).
Qed.

Lemma hash_permutation_spec b :
  bytes b -> length b = 200%nat ->
  returns (hash_permutation b)
    (fun b' => length b' = 200%nat /\ squeezed (keccak_f 24 (string_bits (le_val b))) b').
Proof.
  intros Hb Hl. unfold hash_permutation.
  eapply returns_bind; [now apply state_words_spec|]. cbv beta. intros w [Hw E].
  eapply returns_bind; [apply (keccakf_spec w 24 Hw); lia|]. cbv beta. intros w' [Hw' E']. cbn [returns].
  rewrite <- (firstn_all (word_bytes w')), length_word_bytes, (proj1 Hw').
  apply squeezed_state; [exact Hw' | | lia]. rewrite E'. apply keccak_f_proper. exact E.
Qed.

(** ** The theorems *)

(** C35: [cn_fast_hash] is total on arrays of bytes and is Keccak-256: its 32 bytes are the
    first 256 bits of the sponge over the specified permutation with a rate of 1088 bits and
    the padding 10*1. It agrees with [keccak] at a digest length of 32, although it runs the
    sponge at the other end of the interface (a 200-byte digest that it truncates). *)
Theorem cn_fast_hash_correct data :
  bytes data ->
  exists h, cn_fast_hash data (length data) = Some h /\ length h = HASH_SIZE /\
    squeezed (sponge HASH_DATA_AREA data) h /\ keccak data (length data) 32 = Some h.
Proof.
  intros Hb. pose proof (cn_fast_hash_spec data Hb) as H.
  pose proof (keccak_spec data 32 136 Hb ltac:(right; repeat split; lia)) as H'.
  apply returns_some in H, H'. destruct H as (h & Eh & Hl & Hs), H' as (h' & Eh' & Hl' & Hs').
  exists h. rewrite Eh, Eh'. repeat split; try apply Hl; try apply Hs.
  f_equal. apply (squeezed_inj (sponge HASH_DATA_AREA data)); trivial. now rewrite Hl, Hl'.
Qed.

Lemma cn_fast_hash_correct_witness :
  exists h, cn_fast_hash [97; 98; 99] 3 = Some h /\ length h = HASH_SIZE /\
    squeezed (sponge HASH_DATA_AREA [97; 98; 99]) h /\ keccak [97; 98; 99] 3 32 = Some h.
Proof.
  exact (cn_fast_hash_correct [97; 98; 99]
    ltac:(repeat (apply Forall_cons; [unfold is_byte; lia|]); apply Forall_nil)).
Defined.

(** Known answers: the hash of the empty string. *)
Example cn_fast_hash_empty :
  option_map (fun h => le_val (rev h)) (cn_fast_hash [] 0)
  = Some 0xc5d2460186f7233c927e7db2dcc703c0e500b653ca82273b7bfad8045d85a470.
Proof. vm_compute. reflexivity. Qed.

(** [keccak] at every digest length the sponge admits (200, and the multiples of four
    from 32 to 96) terminates, reads the message only within its length, and writes
    [mdlen] bytes of the sponge of rate [200 - 2 * mdlen] (136 for a digest of 200). *)
Theorem keccak_correct msg mdlen r :
  bytes msg -> digest_rate mdlen r ->
  exists md, keccak msg (length msg) mdlen = Some md /\
    length md = Z.to_nat mdlen /\ squeezed (sponge r msg) md.
Proof. intros Hb Hr. apply returns_some. now apply keccak_spec. Qed.

Lemma keccak_correct_witness :
  exists md, keccak [0; 255] 2 64 = Some md /\ length md = 64%nat /\ squeezed (sponge 72 [0; 255]) md.
Proof.
  exact (keccak_correct [0; 255] 64 72
    ltac:(repeat (apply Forall_cons; [unfold is_byte; lia|]); apply Forall_nil)
    ltac:(right; repeat split; lia)).
Defined.

(** [hash_permutation] is Keccak-f[1600]: the tables of round constants, rotations and
    lane positions, and the in-place steps on words, give the permutation that the standard
    defines bit by bit, on all 2^1600 states. [keccakf] with fewer rounds runs a prefix of it. *)
Theorem hash_permutation_correct b st rounds :
  bytes b -> length b = 200%nat -> words st -> 0 <= rounds <= 24 ->
  (exists b', hash_permutation b = Some b' /\ length b' = 200%nat /\
     squeezed (keccak_f 24 (string_bits (le_val b))) b') /\
  (exists st', keccakf st rounds = Some st' /\ words st' /\
     same_bits (bits_of st') (keccak_f (Z.to_nat rounds) (bits_of st))).
Proof.
  intros Hb Hl Hst Hr. split; apply returns_some; [now apply hash_permutation_spec | now apply keccakf_spec].
Qed.

Lemma hash_permutation_correct_witness :
  exists b', hash_permutation (repeat 0 200) = Some b' /\ length b' = 200%nat /\
    squeezed (keccak_f 24 (string_bits (le_val (repeat 0 200)))) b'.
Proof.
  exact (proj1 (hash_permutation_correct (repeat 0 200) (repeat 0 25) 24
    (bytes_zeros 200) eq_refl words_zero ltac:(lia))).
Defined.

(** ** Digest lengths outside the contract *)

Lemma absorb_rate0 fuel st inp n : keccak_absorb fuel st inp n 0 = None.
Proof.
  revert st inp n. induction fuel as [|fuel IH]; intros st inp n; [reflexivity|].
  cbn [keccak_absorb Nat.leb].
  destruct (xor_words st inp (0 / 8)) as [st1|]; cbn [bind]; [|reflexivity].
  destruct (keccakf st1 KECCAK_ROUNDS) as [st2|]; cbn [bind]; [apply IH | reflexivity].
Qed.

Lemma bad_use_large n r w : (143 <= r)%nat -> keccak_bad_use n r w = true.
Proof.
  intros Hr. unfold keccak_bad_use. destruct (Nat.ltb_spec r n); [now rewrite !orb_true_r|].
  replace (144 <=? r - n + n + 1)%nat with true; [now rewrite !orb_true_r|].
  symmetry. apply Nat.leb_le. lia.
Qed.

(** Digest lengths that [keccak] does not serve. Non-positive ones and those above 100
    other than 200 abort at once; those up to 28, whose rate exceeds the buffer [temp], abort
    after the message has been absorbed. At 100, which the first test lets through, the rate
    is 0 and the loop over the blocks never ends: the test for a rate of 0 comes after it. *)
Theorem keccak_rejects msg mdlen :
  (mdlen <= 28 \/ (100 < mdlen /\ mdlen <> 200) -> keccak msg (length msg) mdlen = None) /\
  (forall fuel st n, keccak_absorb fuel st msg n (Z.to_nat (200 - 2 * 100)) = None).
Proof.
  split; [|intros; apply absorb_rate0]. intros Hm. unfold keccak.
  destruct (Z.leb_spec mdlen 0); [reflexivity|]. destruct (Z.eqb_spec 200 mdlen) as [<-|Hne]; [lia|].
  destruct (Z.ltb_spec 100 mdlen); [reflexivity|]. cbn [orb andb].
  destruct (keccak_absorb _ _ _ _ _) as [[[st inp] n]|]; cbn [bind]; [|reflexivity].
  now rewrite bad_use_large by lia.
Qed.

Lemma keccak_rejects_witness : keccak [1; 2; 3] 3 28 = None.
Proof. exact (proj1 (keccak_rejects [1; 2; 3] 28) ltac:(lia)). Defined.

(** A digest length that is not a multiple of four is accepted, but the rate is then not
    a whole number of words, and the bytes after the last whole word of a block do not reach
    the state: at length 30 the messages of 140 zero bytes and of 139 zero bytes and a one
    have the same digest. *)
Theorem keccak_partial_word :
  keccak (repeat 0 140) 140 30 = keccak (repeat 0 139 ++ [1]) 140 30 /\
  keccak (repeat 0 140) 140 30 <> None.
Proof.
  assert (let a := keccak (repeat 0 140) 140 30 in
          a = keccak (repeat 0 139 ++ [1]) 140 30 /\ match a with Some _ => True | None => False end) as H
    by (vm_compute; split; [reflexivity | exact I]).
  cbv zeta in H. destruct H as [H1 H2]. split; [exact H1|].
  intros E. rewrite E in H2. exact H2.
Qed.
