(* ===== verification/TreeHash.v ===== *)
(** * The Merkle tree of transaction hashes

    Models tree-hash.c ([tree_hash_cnt], [tree_hash]). The file sees [cn_fast_hash]
    through the class [FastHash], a total function from arrays of bytes to hashes;
    Keccak.v discharges it. The array [ints] is updated in place, level by level, as in
    the code. The specification is a binary tree with the hashes at its leaves: its shape
    is given by the depths of the leaves, and its root binds them up to collisions. *)

From Stdlib Require Import ZArith Lia List Bool.
From S2P Require Import Prelude Bytes Keccak.
Import ListNotations.

#[local] Open Scope Z_scope.

Definition is_hash (h : list Z) : Prop := bytes h /\ length h = HASH_SIZE.

(** What the tree uses of [cn_fast_hash]. *)
Class FastHash : Type := {
  fast_hash : list Z -> nat -> option (list Z);
  fast_hash_total : forall d, bytes d -> returns (fast_hash d (length d)) is_hash;
}.

(** ** The code *)

(** [while (pow < count) pow <<= 1;] *)
Fixpoint round_pow (fuel : nat) (pow count : Z) : option Z :=
  if pow <? count then
    match fuel with
    | O => None
    | S fuel => round_pow fuel (u64 (Z.shiftl pow 1)) count
    end
  else Some pow.

(** [size_t] has 64 bits, so that 64 doublings reach every count. *)
Definition tree_hash_cnt (count : Z) : option Z :=
  let! _ := cassert (3 <=? count) in
  let! _ := cassert (count <=? 0x10000000) in
  let! pow := round_pow 64 2 count in
  Some (Z.shiftr pow 1).

Section Code.
  Context {H : FastHash}.

(** [cn_fast_hash(src[i], 64, _)]: the two hashes at [i]. *)
Definition hash_pair (src : list (list Z)) (i : nat) : option (list Z) :=
  let! a := nth_error src i in
  let! b := nth_error src (i + 1) in
  fast_hash (a ++ b) 64.

(** [for (; j < n; i += 2, ++j) cn_fast_hash(src[i], 64, ints[j]);] from a separate [src] *)
Definition hash_pairs_from (src : list (list Z)) (i j n : nat) (ints : list (list Z))
  : option (nat * list (list Z)) :=
  foldM (fun '(i, ints) j =>
      let! h := hash_pair src i in
      let! ints := aset ints j h in
      Some ((i + 2)%nat, ints)) (seq j (n - j)) (i, ints).

(** [for (i = 0, j = 0; j < cnt; i += 2, ++j) cn_fast_hash(ints[i], 64, ints[j]);] *)
Definition hash_level (cnt : nat) (ints : list (list Z)) : option (nat * list (list Z)) :=
  foldM (fun '(i, ints) j =>
      let! h := hash_pair ints i in
      let! ints := aset ints j h in
      Some ((i + 2)%nat, ints)) (seq 0 cnt) (O, ints).

(** [while (cnt > 2) { cnt >>= 1; ... }] *)
Fixpoint hash_levels (fuel cnt : nat) (ints : list (list Z)) : option (list (list Z)) :=
  if (2 <? cnt)%nat then
    match fuel with
    | O => None
    | S fuel =>
        let cnt := Nat.shiftr cnt 1 in
        let! '(_, ints) := hash_level cnt ints in
        hash_levels fuel cnt ints
    end
  else Some ints.

Definition tree_hash (hashes : list (list Z)) (count : nat) : option (list Z) :=
  let! _ := cassert (0 <? count)%nat in
  if (count =? 1)%nat then nth_error hashes 0
  else if (count =? 2)%nat then hash_pair hashes 0
  else
    let! cnt := tree_hash_cnt (Z.of_nat count) in
    let cnt := Z.to_nat cnt in
    let m := (2 * cnt - count)%nat in
    let! head := if (m <=? length hashes)%nat then Some (firstn m hashes) else None in
    let ints := head ++ repeat (repeat 0 HASH_SIZE) (cnt - m) in
    let! '(i, ints) := hash_pairs_from hashes m m cnt ints in
    let! _ := cassert (i =? count)%nat in
    let! ints := hash_levels 64 cnt ints in
    hash_pair ints 0.

(** ** Specification *)

Inductive tree :=
| leaf (h : list Z)
| node (l r : tree).

Fixpoint root (t : tree) : option (list Z) :=
  match t with
  | leaf h => Some h
  | node l r => let! a := root l in let! b := root r in fast_hash (a ++ b) 64
  end.

Fixpoint leaves (t : tree) : list (list Z) :=
  match t with
  | leaf h => [h]
  | node l r => leaves l ++ leaves r
  end.

(** The depth of each leaf, from left to right: two trees with the same depths have the
    same shape. *)
Fixpoint depths (d : nat) (t : tree) : list nat :=
  match t with
  | leaf _ => [d]
  | node l r => depths (S d) l ++ depths (S d) r
  end.

(** Neighbours joined, and [k] rounds of it. *)
Fixpoint pair_up (ts : list tree) : list tree :=
  match ts with
  | a :: b :: ts => node a b :: pair_up ts
  | _ => []
  end.

Definition levels (k : nat) (ts : list tree) : list tree := Nat.iter k pair_up ts.

(** The [2^k] subtrees that the array [ints] holds first. *)
Definition first_level (k : nat) (hs : list (list Z)) : list tree :=
  let m := (2 * 2 ^ k - length hs)%nat in
  map leaf (firstn m hs) ++ pair_up (map leaf (skipn m hs)).

(** The number of levels above the first, for [n] hashes. *)
Definition height (n : nat) : nat := pred (Nat.log2_up n).

Definition merkle (k : nat) (hs : list (list Z)) : tree :=
  nth 0 (levels k (first_level k hs)) (leaf []).

End Code.

(** ** [tree_hash_cnt] *)

Lemma round_pow_spec n fuel j count :
  0 <= j -> j + Z.of_nat n <= 63 -> (n <= fuel)%nat -> 2 ^ j < count <= 2 ^ (j + Z.of_nat n) ->
  exists k, j <= k < j + Z.of_nat n /\ round_pow fuel (2 ^ j) count = Some (2 ^ (k + 1)) /\
    2 ^ k < count <= 2 ^ (k + 1).
Proof.
  revert fuel j. induction n as [|n IH]; intros fuel j Hj Hn Hf Hc.
  - rewrite Z.add_0_r in Hc. lia.
  - destruct fuel as [|fuel]; [lia|]. cbn [round_pow]. rewrite (proj2 (Z.ltb_lt _ _)) by apply Hc.
    assert (u64 (Z.shiftl (2 ^ j) 1) = 2 ^ (j + 1)) as ->.
    { rewrite Z.shiftl_mul_pow2, <- Z.pow_add_r by lia. apply Z.mod_small.
      split; [lia | apply Z.pow_lt_mono_r; lia]. }
    replace (j + Z.of_nat (S n)) with (j + 1 + Z.of_nat n) in * by lia.
    destruct (Z.lt_ge_cases (2 ^ (j + 1)) count) as [H|H].
    + destruct (IH fuel (j + 1)) as (k & Hk & E & R); try lia. exists k. repeat split; trivial; lia.
    + exists j. repeat split; try lia.
      destruct fuel; cbn [round_pow]; now rewrite (proj2 (Z.ltb_ge _ _)) by lia.
Qed.

Lemma tree_hash_cnt_spec count :
  3 <= count <= 2 ^ 28 ->
  exists k, 0 < k < 28 /\ tree_hash_cnt count = Some (2 ^ k) /\ 2 ^ k < count <= 2 ^ (k + 1).
Proof.
  intros Hc. unfold tree_hash_cnt, cassert.
  rewrite (proj2 (Z.leb_le 3 count)), (proj2 (Z.leb_le count _)) by lia. cbn [bind].
  pose proof (round_pow_spec 27 64 1 count) as P. change (1 + Z.of_nat 27) with 28 in P.
  destruct P as (k & Hk & E & R); try lia.
  change (2 ^ 1) with 2 in E. exists k. rewrite E. cbn [bind].
  repeat split; try lia. now rewrite Z.shiftr_div_pow2, Z.pow_add_r, Z.div_mul by lia.
Qed.

(** ** Trees *)

Lemma length_pair_up n ts : length ts = (2 * n)%nat -> length (pair_up ts) = n.
Proof.
  revert ts. induction n as [|n IH]; intros ts Hl.
  - now destruct ts.
  - destruct ts as [|a [|b ts]]; cbn [length] in Hl; [lia..|]. cbn [pair_up length].
    f_equal. apply IH. lia.
Qed.

Lemma nth_pair_up n ts k d :
  length ts = (2 * n)%nat -> (k < n)%nat ->
  nth k (pair_up ts) d = node (nth (2 * k) ts d) (nth (2 * k + 1) ts d).
Proof.
  revert ts k. induction n as [|n IH]; intros ts k Hl Hk; [lia|].
  destruct ts as [|a [|b ts]]; cbn [length] in Hl; [lia..|]. cbn [pair_up].
  destruct k as [|k]; [reflexivity|]. cbn [nth]. rewrite IH by lia.
  replace (2 * S k)%nat with (S (S (2 * k))) by lia. reflexivity.
Qed.

Lemma pair_up_leaves n ts :
  length ts = (2 * n)%nat -> flat_map leaves (pair_up ts) = flat_map leaves ts.
Proof.
  revert ts. induction n as [|n IH]; intros ts Hl; [now destruct ts|].
  destruct ts as [|a [|b ts]]; cbn [length] in Hl; [lia..|].
  cbn [pair_up flat_map leaves]. rewrite IH, app_assoc by lia. reflexivity.
Qed.

Lemma pair_up_depths n d ts :
  length ts = (2 * n)%nat -> flat_map (depths d) (pair_up ts) = flat_map (depths (S d)) ts.
Proof.
  revert ts. induction n as [|n IH]; intros ts Hl; [now destruct ts|].
  destruct ts as [|a [|b ts]]; cbn [length] in Hl; [lia..|].
  cbn [pair_up flat_map depths]. rewrite IH, app_assoc by lia. reflexivity.
Qed.

Lemma levels_S k ts : levels (S k) ts = levels k (pair_up ts).
Proof. unfold levels. rewrite Nat.iter_succ_r. reflexivity. Qed.

Lemma length_levels k j ts : length ts = (2 ^ (k + j))%nat -> length (levels k ts) = (2 ^ j)%nat.
Proof.
  revert ts. induction k as [|k IH]; intros ts Hl; [exact Hl|].
  rewrite levels_S. apply IH, length_pair_up. exact Hl.
Qed.

(** [2^k] trees become one, with the same leaves [k] levels deeper. *)
Lemma levels_spec k d ts :
  length ts = (2 ^ k)%nat ->
  exists t, levels k ts = [t] /\ leaves t = flat_map leaves ts /\ depths d t = flat_map (depths (k + d)) ts.
Proof.
  revert ts. induction k as [|k IH]; intros ts Hl.
  - destruct ts as [|t [|u ts]]; try discriminate Hl. exists t.
    cbn [flat_map Nat.add]. rewrite !app_nil_r. auto.
  - rewrite Nat.pow_succ_r' in Hl. rewrite levels_S.
    destruct (IH (pair_up ts)) as (t & E & El & Ed); [now apply length_pair_up|].
    exists t. rewrite E, El, Ed. rewrite (pair_up_leaves (2 ^ k)), (pair_up_depths (2 ^ k)) by exact Hl. auto.
Qed.

Lemma flat_map_leaf_leaves hs : flat_map leaves (map leaf hs) = hs.
Proof. induction hs as [|h hs IH]; [reflexivity|]. cbn. now rewrite IH. Qed.

Lemma flat_map_leaf_depths d hs : flat_map (depths d) (map leaf hs) = repeat d (length hs).
Proof. induction hs as [|h hs IH]; [reflexivity|]. cbn. now rewrite IH. Qed.

Section Shape.
  Variables (k : nat) (hs : list (list Z)).
  Hypothesis Hk : (2 ^ k <= length hs <= 2 * 2 ^ k)%nat.

Let m := (2 * 2 ^ k - length hs)%nat.

Lemma first_level_lengths :
    length (firstn m hs) = m /\ length (map leaf (skipn m hs)) = (2 * (2 ^ k - m))%nat /\
    (m <= 2 ^ k)%nat.
Proof. rewrite length_map, length_skipn, length_firstn. unfold m. lia. Qed.

Lemma length_first_level : length (first_level k hs) = (2 ^ k)%nat.
Proof.
    destruct first_level_lengths as (H1 & H2 & H3). unfold first_level. fold m.
    rewrite length_app, length_map, H1, (length_pair_up (2 ^ k - m)) by exact H2. lia.
Qed.

(** The shape of the tree: the first [2^(k+1) - count] hashes at depth [k], the others at
    depth [k + 1]. *)
Lemma merkle_shape :
    leaves (merkle k hs) = hs /\
    depths 0 (merkle k hs) = repeat k m ++ repeat (S k) (length hs - m).
Proof.
    destruct first_level_lengths as (H1 & H2 & H3).
    destruct (levels_spec k 0 (first_level k hs) length_first_level) as (t & E & El & Ed).
    unfold merkle. rewrite E. cbn [nth]. rewrite El, Ed, Nat.add_0_r. unfold first_level. fold m.
    rewrite !flat_map_app, (pair_up_leaves (2 ^ k - m)), (pair_up_depths (2 ^ k - m)) by exact H2.
    rewrite !flat_map_leaf_leaves, !flat_map_leaf_depths, firstn_skipn, H1, length_skipn. auto.
Qed.
End Shape.

Lemma height_unique k n : (0 < k)%nat -> (2 ^ k < n <= 2 * 2 ^ k)%nat -> height n = k.
Proof.
  intros Hk Hn. unfold height. rewrite (Nat.log2_up_unique n (S k)); [reflexivity | lia |].
  rewrite Nat.pow_succ_r'. exact Hn.
Qed.

Lemma height_range n : (1 <= n)%nat -> (2 ^ height n <= n <= 2 * 2 ^ height n)%nat.
Proof.
  intros Hn. unfold height. destruct (Nat.eq_dec n 1) as [->|Hne]; [cbn; lia|].
  destruct (Nat.log2_up_spec n ltac:(lia)) as [H1 H2].
  pose proof (Nat.log2_up_pos n ltac:(lia)). rewrite <- Nat.pow_succ_r', Nat.succ_pred in * by lia. lia.
Qed.

(** ** The array of intermediate hashes *)

Section Refinement.
  Context {H : FastHash}.

  Notation "ts .[ k ]" := (nth k ts (leaf [])) (at level 1, format "ts .[ k ]").

Lemma hash_pair_spec src i l r :
    Forall is_hash src -> (i + 1 < length src)%nat ->
    root l = Some (nth i src []) -> root r = Some (nth (i + 1) src []) ->
    returns (hash_pair src i) (fun h => is_hash h /\ root (node l r) = Some h).
Proof.
    intros Hs Hi El Er. rewrite Forall_forall in Hs.
    destruct (Hs (nth i src []) ltac:(apply nth_In; lia)) as [Ba La].
    destruct (Hs (nth (i + 1) src []) ltac:(apply nth_In; lia)) as [Bb Lb].
    unfold hash_pair. rewrite !(nth_error_nth' src []) by lia. cbn [bind].
    cbn [root]. rewrite El, Er. cbn [bind].
    pose proof (fast_hash_total _ (bytes_app _ _ Ba Bb)) as T.
    rewrite length_app, La, Lb in T. change (HASH_SIZE + HASH_SIZE)%nat with 64%nat in T.
    destruct (fast_hash _ _) as [h|]; [|contradiction]. now split.
Qed.

(** The first [length ts] entries of the array are the roots of [ts]. *)
Definition holds (ints : list (list Z)) (ts : list tree) : Prop :=
    Forall is_hash ints /\ (length ts <= length ints)%nat /\
    forall k, (k < length ts)%nat -> root ts.[k] = Some (nth k ints []).

(** The write of the [j]-th hash keeps the others. *)
Lemma aset_hash ints j h :
    Forall is_hash ints -> is_hash h -> (j < length ints)%nat ->
    returns (aset ints j h) (fun ints' => Forall is_hash ints' /\ length ints' = length ints /\
      forall k, nth k ints' [] = if (k =? j)%nat then h else nth k ints []).
Proof.
    intros Hi Hh Hj. pose proof (aset_in is_hash ints j h Hj Hi Hh) as A.
    pose proof (aset_spec ints j h [] Hj) as B. destruct (aset ints j h) as [ints'|]; [|contradiction].
    cbn [returns] in *. tauto.
Qed.

Lemma hash_level_spec n ints ts :
    holds ints ts -> length ts = (2 * n)%nat ->
    returns (hash_level n ints) (fun '(_, ints') => length ints' = length ints /\ holds ints' (pair_up ts)).
Proof.
    intros (Hi & Hle & Hr) Hl. unfold hash_level.
    eapply returns_weaken.
    - apply (foldM_seq (fun j '(i, ints') => i = (2 * j)%nat /\ length ints' = length ints /\
        Forall is_hash ints' /\ (forall k, (j <= k)%nat -> nth k ints' [] = nth k ints []) /\
        (forall k, (k < j)%nat -> root (pair_up ts).[k] = Some (nth k ints' [])))).
      + repeat split; trivial. intros; lia.
      + intros j [i ints'] Hj (-> & Hl' & Hi' & Hk & Hp). cbn in Hj.
        eapply returns_bind; [apply (hash_pair_spec ints' (2 * j) ts.[2 * j] ts.[2 * j + 1]); trivial; try lia|].
        1, 2: rewrite Hr, Hk by lia; reflexivity.
        cbv beta. intros h [Hh Eh]. eapply returns_bind; [apply aset_hash; trivial; lia|].
        cbv beta. intros ints2 (A & B & C). cbn [returns]. repeat split; trivial; try lia.
        * intros k Hkj. rewrite C. destruct (Nat.eqb_spec k j); [lia|]. apply Hk. lia.
        * intros k Hkj. rewrite C. destruct (Nat.eqb_spec k j) as [->|].
          -- now rewrite (nth_pair_up n) by (trivial; lia).
          -- apply Hp. lia.
    - cbv beta. intros [i ints'] (_ & Hl' & Hi' & _ & Hp). split; [exact Hl'|]. split; [exact Hi'|].
      rewrite (length_pair_up n) by exact Hl. split; [lia|]. intros k Hk. apply Hp. lia.
Qed.

(** The loop reduces [2^(k+1)] subtrees to two. *)
Lemma hash_levels_spec k fuel ints ts :
    (k <= fuel)%nat -> holds ints ts -> length ts = (2 ^ (S k))%nat ->
    returns (hash_levels fuel (2 ^ (S k)) ints) (fun ints' => holds ints' (levels k ts)).
Proof.
    revert fuel ints ts. induction k as [|k IH]; intros fuel ints ts Hf Hh Hl.
    - destruct fuel; exact Hh.
    - destruct fuel as [|fuel]; [lia|]. cbn [hash_levels].
      assert (2 ^ S (S k) = 2 * 2 ^ S k)%nat as E by apply Nat.pow_succ_r'.
      pose proof (Nat.pow_nonzero 2 k ltac:(lia)). rewrite (proj2 (Nat.ltb_lt 2 _)) by (rewrite E, Nat.pow_succ_r'; lia).
      rewrite Nat.shiftr_div_pow2, Nat.pow_1_r, E, Nat.mul_comm, Nat.div_mul by lia.
      eapply returns_bind; [apply (hash_level_spec (2 ^ S k)); [exact Hh | lia]|].
      cbv beta. intros [i ints'] [_ Hh']. rewrite levels_S. apply IH; [lia | exact Hh' |].
      apply length_pair_up. lia.
Qed.

Section Count.
  Variables (k : nat) (hs : list (list Z)).
  Hypothesis Hhs : Forall is_hash hs.
  Hypothesis Hk : (2 ^ k < length hs <= 2 * 2 ^ k)%nat.

Let m := (2 * 2 ^ k - length hs)%nat.

Lemma is_hash_zero : is_hash (repeat 0 HASH_SIZE).
Proof. split; [apply bytes_zeros | reflexivity]. Qed.

Lemma first_level_nth j :
    (j < 2 ^ k)%nat ->
    (first_level k hs).[j] =
      if (j <? m)%nat then leaf (nth j hs [])
      else node (leaf (nth (m + 2 * (j - m)) hs [])) (leaf (nth (m + 2 * (j - m) + 1) hs [])).
Proof.
    intros Hj. destruct (first_level_lengths k hs ltac:(lia)) as (H1 & H2 & H3).
    unfold first_level. fold m in H1, H2, H3 |- *. destruct (Nat.ltb_spec j m).
    - rewrite app_nth1 by (rewrite length_map; lia). rewrite map_nth, nth_firstn.
      now rewrite (proj2 (Nat.ltb_lt j m)).
    - rewrite app_nth2 by (rewrite length_map; lia). rewrite length_map, H1.
      rewrite (nth_pair_up (2 ^ k - m)) by (trivial; lia).
      rewrite !map_nth, !nth_skipn, Nat.add_assoc. reflexivity.
Qed.

(** After the copy and the first loop the array holds the first level. *)
Lemma hash_pairs_from_spec :
    returns (hash_pairs_from hs m m (2 ^ k) (firstn m hs ++ repeat (repeat 0 HASH_SIZE) (2 ^ k - m)))
      (fun '(i, ints) => i = length hs /\ holds ints (first_level k hs)).
Proof.
    destruct (first_level_lengths k hs ltac:(lia)) as (H1 & H2 & H3). fold m in H1, H2, H3 |- *.
    unfold hash_pairs_from. set (ints0 := firstn m hs ++ _).
    assert (length ints0 = 2 ^ k)%nat as L0 by (unfold ints0; rewrite length_app, repeat_length; lia).
    eapply returns_weaken.
    - apply (foldM_seq (fun j '(i, ints) => i = (m + 2 * (j - m))%nat /\ length ints = length ints0 /\
        Forall is_hash ints /\ (forall n, (n < j)%nat -> root (first_level k hs).[n] = Some (nth n ints [])))).
      + split; [lia|]. split; [reflexivity|]. split.
        * apply Forall_app. split; [rewrite <- (firstn_skipn m hs) in Hhs; apply Forall_app in Hhs; apply Hhs|].
          apply Forall_forall. intros x Hx. apply repeat_spec in Hx. subst x. exact is_hash_zero.
        * intros n Hn. rewrite first_level_nth, (proj2 (Nat.ltb_lt n m)) by lia. cbn [root].
          unfold ints0. rewrite app_nth1 by lia. now rewrite nth_firstn, (proj2 (Nat.ltb_lt n m)).
      + intros j [i ints] Hj (-> & Hl' & Hi' & Hp).
        eapply returns_bind.
        { apply (hash_pair_spec hs (m + 2 * (j - m)) (leaf (nth (m + 2 * (j - m)) hs []))
                   (leaf (nth (m + 2 * (j - m) + 1) hs []))); trivial. unfold m in *. lia. }
        cbv beta. intros h [Hh Eh]. eapply returns_bind; [apply aset_hash; trivial; lia|].
        cbv beta. intros ints2 (A & B & C). cbn [returns]. repeat split; trivial; try lia.
        intros n Hn. rewrite C. destruct (Nat.eqb_spec n j) as [->|].
        * rewrite first_level_nth, (proj2 (Nat.ltb_ge j m)) by lia. exact Eh.
        * apply Hp. lia.
    - cbv beta. intros [i ints] (-> & Hl' & Hi' & Hp). split; [unfold m in *; lia|].
      unfold holds. rewrite length_first_level by lia. repeat split; trivial; [lia|].
      intros n Hn. apply Hp. lia.
Qed.
End Count.

(** [tree_hash] is the root of the tree, for each size the code accepts. *)
Lemma tree_hash_spec hs :
    Forall is_hash hs -> (1 <= length hs)%nat -> Z.of_nat (length hs) <= 2 ^ 28 ->
    returns (tree_hash hs (length hs)) (fun r => is_hash r /\ root (merkle (height (length hs)) hs) = Some r).
Proof.
    intros Hhs Hl Hu. unfold tree_hash.
    rewrite (proj2 (Nat.ltb_lt 0 _)) by lia. cbn [cassert bind].
    destruct (Nat.eqb_spec (length hs) 1) as [E1|N1]; [|destruct (Nat.eqb_spec (length hs) 2) as [E2|N2]].
    - rewrite E1. destruct Hhs as [|h [|? ?] Hh]; try discriminate E1. now split.
    - rewrite E2. destruct hs as [|a [|b [|? ?]]]; try discriminate E2.
      apply (hash_pair_spec [a; b] 0 (leaf a) (leaf b)); [exact Hhs | cbn; lia | reflexivity..].
    - destruct (tree_hash_cnt_spec (Z.of_nat (length hs))) as (c & Hc & -> & R); [lia|].
      destruct (Z_of_nat_complete c ltac:(lia)) as [k ->].
      assert (2 ^ Z.of_nat k = Z.of_nat (2 ^ k)) as Ek by now rewrite Nat2Z.inj_pow.
      rewrite Z.pow_add_r, Ek in R by lia. change (2 ^ 1) with 2 in R.
      cbn [bind]. rewrite Ek, Nat2Z.id. destruct k as [|k]; [lia|].
      rewrite (height_unique (S k)) by lia.
      rewrite (proj2 (Nat.leb_le (2 * 2 ^ S k - _) _)) by lia. cbn [bind].
      eapply returns_bind; [apply hash_pairs_from_spec; trivial; lia|]. cbv beta. intros [i ints] [-> Hh].
      rewrite Nat.eqb_refl. cbn [cassert bind].
      eapply returns_bind; [apply (hash_levels_spec k 64 ints); [lia | exact Hh | apply length_first_level; lia]|].
      cbv beta. intros ints' Hh'. unfold merkle. set (ts := first_level (S k) hs) in *.
      assert (length (levels k ts) = 2 ^ 1)%nat as L2
        by (apply length_levels; rewrite Nat.add_1_r; apply length_first_level; lia).
      cbn [Nat.pow Nat.mul Nat.add] in L2.
      destruct Hh' as (A & B & C). rewrite L2 in *.
      unfold levels. cbn [Nat.iter nat_rect]. fold (levels k ts).
      change (Nat.iter (S k) pair_up ts) with (pair_up (levels k ts)).
      rewrite (nth_pair_up 1) by (trivial; lia). apply hash_pair_spec; trivial; try lia; apply C; lia.
Qed.
End Refinement.

(** ** Binding *)

Fixpoint same_shape (t u : tree) : Prop :=
  match t, u with
  | leaf _, leaf _ => True
  | node l r, node l' r' => same_shape l l' /\ same_shape r r'
  | _, _ => False
  end.

Lemma pair_up_shape ts us : Forall2 same_shape ts us -> Forall2 same_shape (pair_up ts) (pair_up us).
Proof.
  remember (length ts) as n eqn:Hn. assert (length ts <= n)%nat as Hl by lia. clear Hn.
  revert ts us Hl. induction n as [|n IH]; intros ts us Hl H.
  - destruct H; [constructor | cbn [length] in Hl; lia].
  - destruct H as [|t u ts1 us1 Htu [|t2 u2 ts2 us2 Htu2 H]]; cbn [pair_up length] in *; constructor.
    + now split.
    + apply IH; [lia | exact H].
Qed.

Lemma levels_shape k ts us : Forall2 same_shape ts us -> Forall2 same_shape (levels k ts) (levels k us).
Proof.
  revert ts us. induction k as [|k IH]; intros ts us H; [exact H|].
  rewrite !levels_S. now apply IH, pair_up_shape.
Qed.

Lemma leaves_shape (hs gs : list (list Z)) :
  length hs = length gs -> Forall2 same_shape (map leaf hs) (map leaf gs).
Proof.
  revert gs. induction hs as [|h hs IH]; intros [|g gs] Hl; try discriminate Hl; constructor; [exact I|].
  apply IH. now injection Hl.
Qed.

Lemma merkle_same_shape k hs gs : length hs = length gs -> same_shape (merkle k hs) (merkle k gs).
Proof.
  intros Hl. unfold merkle, first_level. rewrite <- Hl. set (m := (2 * 2 ^ k - length hs)%nat).
  assert (Forall2 same_shape (map leaf (firstn m hs) ++ pair_up (map leaf (skipn m hs)))
                             (map leaf (firstn m gs) ++ pair_up (map leaf (skipn m gs)))) as H.
  { apply Forall2_app; [|apply pair_up_shape]; apply leaves_shape.
    - now rewrite !length_firstn, Hl.
    - now rewrite !length_skipn, Hl. }
  apply (levels_shape k) in H. now destruct H.
Qed.

Section Binding.
  Context {H : FastHash}.

(** The arrays of 64 bytes that are hashed in the inner nodes of a tree. *)
Fixpoint node_inputs (t : tree) : list (list Z) :=
  match t with
  | leaf _ => []
  | node l r => match root l, root r with Some a, Some b => [a ++ b] | _, _ => [] end ++ node_inputs l ++ node_inputs r
  end.

(** Two trees have nodes with different inputs and the same hash. *)
Definition collision (t u : tree) : Prop :=
  exists a b, In a (node_inputs t) /\ In b (node_inputs u) /\ a <> b /\ fast_hash a 64 = fast_hash b 64.

Lemma collision_inner l r l' r' :
  collision l l' \/ collision r r' -> collision (node l r) (node l' r').
Proof.
  intros [(a & b & Ha & Hb & K)|(a & b & Ha & Hb & K)]; exists a, b; cbn [node_inputs]; rewrite !in_app_iff; auto.
Qed.

Lemma root_is_hash t : Forall is_hash (leaves t) -> returns (root t) is_hash.
Proof.
    induction t as [h | l IHl r IHr]; cbn [leaves root]; intros Hh.
    - now inversion Hh.
    - apply Forall_app in Hh. eapply returns_bind; [now apply IHl|]. intros a [Ba La].
      eapply returns_bind; [now apply IHr|]. intros b [Bb Lb].
      pose proof (fast_hash_total _ (bytes_app _ _ Ba Bb)) as T.
      rewrite length_app, La, Lb in T. exact T.
Qed.

Lemma root_binding t u :
    same_shape t u -> Forall is_hash (leaves t) -> Forall is_hash (leaves u) ->
    root t = root u -> leaves t = leaves u \/ collision t u.
Proof.
    revert u. induction t as [h | l IHl r IHr]; intros [g | l' r'] Hs Ht Hu E; try contradiction.
    - left. cbn in *. congruence.
    - destruct Hs as [Hsl Hsr]. cbn [leaves root] in *. apply Forall_app in Ht, Hu.
      destruct Ht as [Hl Hr], Hu as [Hl' Hr'].
      pose proof (root_is_hash l Hl) as Rl. pose proof (root_is_hash r Hr) as Rr.
      pose proof (root_is_hash l' Hl') as Rl'. pose proof (root_is_hash r' Hr') as Rr'.
      specialize (IHl l' Hsl Hl Hl'). specialize (IHr r' Hsr Hr Hr').
      destruct (root l) as [a|] eqn:Ea, (root r) as [b|] eqn:Eb, (root l') as [a'|] eqn:Ea', (root r') as [b'|] eqn:Eb'; try contradiction.
      cbn [returns bind] in *. destruct Rl as [Ba La], Rr as [Bb Lb], Rl' as [Ba' La'], Rr' as [Bb' Lb'].
      destruct (list_eq_dec Z.eq_dec (a ++ b) (a' ++ b')) as [Eab|Nab].
      + assert (a = a' /\ b = b') as [<- <-] by (apply app_inj_length; trivial; now rewrite La, La').
        destruct (IHl eq_refl) as [-> | C]; [|right; apply collision_inner; now left].
        destruct (IHr eq_refl) as [-> | C]; [|right; apply collision_inner; now right]. now left.
      + right. exists (a ++ b), (a' ++ b'). cbn [node_inputs]. rewrite Ea, Eb, Ea', Eb'. cbn [app In]. auto.
Qed.
End Binding.

(** ** The theorems, for [cn_fast_hash] of Keccak.v *)

#[export] Program Instance keccak_fast_hash : FastHash := {| fast_hash := cn_fast_hash |}.
Next Obligation.
  eapply returns_weaken; [now apply cn_fast_hash_spec|]. cbv beta. intros h [Hl [Hb _]]. now split.
Qed.

(** C38: for one to 2^28 hashes [tree_hash] returns, within all its arrays and assertions, the
    root of a binary tree whose leaves are the hashes in order: with [k] the number of levels
    above the array [ints], the first [2^(k+1) - count] hashes are at depth [k] and the others
    at depth [k+1], which fixes the tree. The in-place computation of the levels never reads
    an entry that it has already overwritten. *)
Theorem tree_hash_correct hs :
  Forall is_hash hs -> (1 <= length hs)%nat -> Z.of_nat (length hs) <= 2 ^ 28 ->
  exists t r, tree_hash hs (length hs) = Some r /\ is_hash r /\ root t = Some r /\ leaves t = hs /\
    let k := height (length hs) in
    let m := (2 * 2 ^ k - length hs)%nat in
    (2 ^ k <= length hs <= 2 * 2 ^ k)%nat /\
    depths 0 t = repeat k m ++ repeat (S k) (length hs - m).
Proof.
  intros Hhs Hl Hu. pose proof (tree_hash_spec hs Hhs Hl Hu) as T. apply returns_some in T.
  destruct T as (r & E & Hr & Et). exists (merkle (height (length hs)) hs), r.
  pose proof (height_range (length hs) Hl) as Hk.
  destruct (merkle_shape _ hs Hk) as [Hlv Hd]. auto 8.
Qed.

Lemma tree_hash_correct_witness :
  let hs := repeat (repeat 7 32) 5 in
  exists t r, tree_hash hs 5 = Some r /\ is_hash r /\ root t = Some r /\ leaves t = hs /\
    (2 ^ 2 <= 5 <= 2 * 2 ^ 2)%nat /\ depths 0 t = [2; 2; 2; 3; 3]%nat.
Proof.
  exact (tree_hash_correct (repeat (repeat 7 32) 5)
    ltac:(apply Forall_forall; intros x Hx; apply repeat_spec in Hx; subst x; split; [|reflexivity];
          apply Forall_forall; intros y Hy; apply repeat_spec in Hy; subst y; unfold is_byte; lia)
    ltac:(cbn; lia) ltac:(cbn; lia)).
Defined.

(** The root binds the hashes: two lists of the same length with the same root are equal,
    or two nodes of the trees over them have different inputs and the same hash. *)
Theorem tree_hash_binding hs gs :
  Forall is_hash hs -> Forall is_hash gs -> (1 <= length hs)%nat -> Z.of_nat (length hs) <= 2 ^ 28 ->
  length hs = length gs -> tree_hash hs (length hs) = tree_hash gs (length gs) ->
  hs = gs \/ collision (merkle (height (length hs)) hs) (merkle (height (length hs)) gs).
Proof.
  intros Hh Hg Hl Hu E R. pose proof (tree_hash_spec hs Hh Hl Hu) as T.
  pose proof (tree_hash_spec gs Hg ltac:(lia) ltac:(lia)) as T'. rewrite <- R, <- E in T'.
  destruct (tree_hash hs (length hs)) as [r|]; [|contradiction]. cbn [returns] in *.
  pose proof (height_range (length hs) Hl) as Hk.
  destruct (merkle_shape _ hs Hk) as [El _].
  destruct (merkle_shape (height (length hs)) gs ltac:(now rewrite <- E)) as [El' _].
  enough (leaves (merkle (height (length hs)) hs) = leaves (merkle (height (length hs)) gs) \/ collision (merkle (height (length hs)) hs) (merkle (height (length hs)) gs)) as B
    by (rewrite El, El' in B; exact B).
  apply root_binding.
  - now apply merkle_same_shape.
  - now rewrite El.
  - now rewrite El'.
  - now rewrite (proj2 T), (proj2 T').
Qed.

Lemma tree_hash_binding_witness :
  let hs := repeat (repeat 7 32) 3 in hs = hs \/ collision (merkle (height 3) hs) (merkle (height 3) hs).
Proof.
  assert (Forall is_hash (repeat (repeat 7 32) 3)) as Hh
    by (apply Forall_forall; intros x Hx; apply repeat_spec in Hx; subst x; split; [|reflexivity];
        apply Forall_forall; intros y Hy; apply repeat_spec in Hy; subst y; unfold is_byte; lia).
  exact (tree_hash_binding _ _ Hh Hh ltac:(cbn; lia) ltac:(cbn; lia) eq_refl eq_refl).
Defined.

(** C39: On its domain, 3 to 2^28, [tree_hash_cnt] terminates and returns the largest power of
    two strictly below the count, hence half the count, and not [1 << floor(log2(count))],
    when the count is a power of two; outside the domain an assertion fails. *)
Theorem tree_hash_cnt_correct count :
  (3 <= count <= 2 ^ 28 ->
     exists k, tree_hash_cnt count = Some (2 ^ k) /\ 0 < k /\ 2 ^ k < count <= 2 ^ (k + 1)) /\
  (~ 3 <= count <= 2 ^ 28 -> tree_hash_cnt count = None) /\
  (forall j, 2 <= j <= 28 -> tree_hash_cnt (2 ^ j) = Some (2 ^ (j - 1))).
Proof.
  split; [|split].
  - intros Hc. destruct (tree_hash_cnt_spec count Hc) as (k & Hk & E & R). exists k. repeat split; trivial; lia.
  - intros Hc. unfold tree_hash_cnt, cassert. destruct (Z.leb_spec 3 count); [|reflexivity].
    destruct (Z.leb_spec count 0x10000000); [|reflexivity]. lia.
  - intros j Hj. assert (4 <= 2 ^ j) by (apply (Z.pow_le_mono_r 2 2); lia).
    assert (2 ^ j <= 2 ^ 28) by (apply Z.pow_le_mono_r; lia).
    destruct (tree_hash_cnt_spec (2 ^ j)) as (k & Hk & E & R1 & R2); [lia|]. rewrite E. f_equal. f_equal.
    apply Z.pow_lt_mono_r_iff in R1; try lia. apply Z.pow_le_mono_r_iff in R2; lia.
Qed.

Lemma tree_hash_cnt_correct_witness : tree_hash_cnt (2 ^ 2) = Some 2.
Proof. exact (proj2 (proj2 (tree_hash_cnt_correct 3)) 2 ltac:(lia)). Defined.
