(* ===== verification/Slide.v ===== *)
(** * Sliding-window recoding of scalars

    Models [slide] of crypto-ops.c: the 256 bits of a scalar become 256 signed digits, each
    zero or odd and at most 15 in absolute value, with the same value. The function works
    in place from [r[0]] to [r[255]] and touches only entries from [r[i]] on, so the array
    is represented by the suffix that starts at the current entry. *)

From Stdlib Require Import ZArith Lia List Bool.
From S2P Require Import Prelude Bytes.
Import ListNotations.

#[local] Open Scope Z_scope.

(** ** The code *)

(** [r[i] = 1 & (a[i >> 3] >> (i & 7));] *)
Definition scalar_bit (a : list Z) (i : nat) : option Z :=
  let! x := nth_error a (Nat.shiftr i 3) in
  Some (Z.land 1 (Z.shiftr x (Z.of_nat (Nat.land i 7)))).

(** [for (k = i + b; k < 256; ++k) { if (!r[k]) { r[k] = 1; break; } r[k] = 0; }], on the
    suffix from [r[i + b]]. *)
Fixpoint slide_carry (r : list Z) : list Z :=
  match r with
  | [] => []
  | rk :: r => if rk =? 0 then 1 :: r else 0 :: slide_carry r
  end.

(** The loop over [b] (the list [bs]) on [r[i]], with [rest] the entries from [r[i + 1]];
    the loop ends when [i + b] leaves the array. *)
Fixpoint slide_window (bs : list nat) (ri : Z) (rest : list Z) : option (Z * list Z) :=
  match bs with
  | [] => Some (ri, rest)
  | b :: bs =>
      match nth_error rest (b - 1) with
      | None => Some (ri, rest)
      | Some rib =>
          if rib =? 0 then slide_window bs ri rest
          else
            let! s := (ri + (rib << Z.of_nat b))%i32 in
            if s <=? 15 then
              let! rest := aset rest (b - 1) 0 in
              slide_window bs (to_i8 s) rest
            else
              let! s := (ri - (rib << Z.of_nat b))%i32 in
              if - 15 <=? s then
                slide_window bs (to_i8 s) (firstn (b - 1) rest ++ slide_carry (skipn (b - 1) rest))
              else Some (ri, rest)
      end
  end.

(** The loop over [i], [n] entries before the end. *)
Fixpoint slide_loop (n : nat) (r : list Z) : option (list Z) :=
  match n, r with
  | O, _ => Some []
  | S n, ri :: rest =>
      let! '(ri, rest) := if ri =? 0 then Some (ri, rest) else slide_window (seq 1 6) ri rest in
      let! r := slide_loop n rest in
      Some (ri :: r)
  | S _, [] => None
  end.

Definition slide (a : list Z) : option (list Z) :=
  let! r := mapM (scalar_bit a) (seq 0 256) in
  slide_loop 256 r.

(** ** The digits *)

Definition bit (x : Z) : Prop := x = 0 \/ x = 1.

(** Zero, or odd and at most 15. *)
Definition slide_digit (x : Z) : Prop := x = 0 \/ (Z.odd x = true /\ -15 <= x <= 15).

Lemma horner2_app r s : horner 2 (r ++ s) = horner 2 r + 2 ^ Z.of_nat (length r) * horner 2 s.
Proof.
  induction r as [|x r IH]; cbn [app horner length]; [lia|].
  rewrite IH, Nat2Z.inj_succ, Z.pow_succ_r by lia. ring.
Qed.

Lemma bits_range r : Forall bit r -> 0 <= horner 2 r < 2 ^ Z.of_nat (length r).
Proof.
  induction 1 as [|x r Hx Hr IH]; cbn [horner length]; [lia|].
  rewrite Nat2Z.inj_succ, Z.pow_succ_r by lia. destruct Hx; lia.
Qed.

Lemma slide_carry_spec r :
  Forall bit r -> horner 2 r + 1 < 2 ^ Z.of_nat (length r) ->
  Forall bit (slide_carry r) /\ length (slide_carry r) = length r /\
  horner 2 (slide_carry r) = horner 2 r + 1.
Proof.
  induction 1 as [|x r Hx Hr IH]; cbn [horner length slide_carry]; intros Hv; [lia|].
  rewrite Nat2Z.inj_succ, Z.pow_succ_r in Hv by lia. pose proof (bits_range r Hr).
  destruct Hx as [-> | ->]; cbn [Z.eqb].
  - repeat split; [constructor; [now right | exact Hr] | cbn [horner]; lia].
  - destruct IH as (H1 & H2 & H3); [lia|]. cbn [length horner]. rewrite H2, H3.
    repeat split; [constructor; [now left | exact H1] | lia].
Qed.

(** ** The window *)

(** The state of the inner loop after [b] entries: they are zero, and [ri] with the rest
    still has the value [V]. *)
Record window_inv (m : nat) (V : Z) (b : nat) (ri : Z) (rest : list Z) : Prop := {
  win_bits : Forall bit rest;
  win_len : length rest = m;
  win_odd : Z.odd ri = true;
  win_small : -15 <= ri <= 15;
  win_val : ri + 2 * horner 2 rest = V;
  win_top : 2 * horner 2 rest <= 2 ^ Z.of_nat m;
  win_clear : forall k, (k < b)%nat -> nth_error rest k = Some 0 \/ nth_error rest k = None;
}.

Lemma zero_prefix b rest :
  (b <= length rest)%nat ->
  (forall k, (k < b)%nat -> nth_error rest k = Some 0 \/ nth_error rest k = None) ->
  horner 2 (firstn b rest) = 0.
Proof.
  revert rest. induction b as [|b IH]; intros rest Hl Hz; [reflexivity|].
  destruct rest as [|x rest]; cbn [length] in Hl; [lia|]. cbn [firstn horner].
  destruct (Hz 0%nat ltac:(lia)) as [[= ->] | [=]]. rewrite IH; [lia | lia |].
  intros k Hk. apply (Hz (S k)). lia.
Qed.

(** The entry at [b], and what is before and after it. *)
Lemma split_at b rest y :
  nth_error rest b = Some y ->
  (forall k, (k < b)%nat -> nth_error rest k = Some 0 \/ nth_error rest k = None) ->
  exists z t, rest = z ++ y :: t /\ length z = b /\ horner 2 z = 0.
Proof.
  intros Hy Hz. assert (b < length rest)%nat as Hl by (apply nth_error_Some; congruence).
  exists (firstn b rest), (skipn (S b) rest). repeat split.
  - rewrite <- (firstn_skipn b rest) at 1. f_equal.
    rewrite <- (firstn_skipn b rest), nth_error_app2 in Hy by (rewrite length_firstn; lia).
    rewrite length_firstn, Nat.min_l, Nat.sub_diag in Hy by lia.
    replace (S b) with (1 + b)%nat by lia. rewrite <- skipn_skipn.
    destruct (skipn b rest); [discriminate|]. cbn in *. now injection Hy as ->.
  - rewrite length_firstn. lia.
  - apply zero_prefix; [lia | exact Hz].
Qed.

Lemma shl_i32 b : (1 <= b <= 6)%nat -> ishl I32 (Some 1) (Some (Z.of_nat b)) = Some (2 ^ Z.of_nat b).
Proof. intros Hb. do 7 (destruct b as [|b]; [lia || reflexivity|]). lia. Qed.

Lemma window_clear_step z v t b :
  length z = b -> v = 0 ->
  (forall k, (k < b)%nat -> nth_error (z ++ v :: t) k = Some 0 \/ nth_error (z ++ v :: t) k = None) ->
  forall k, (k < S b)%nat -> nth_error (z ++ v :: t) k = Some 0 \/ nth_error (z ++ v :: t) k = None.
Proof.
  intros Hl -> Hz k Hk. destruct (Nat.eq_dec k b) as [->|]; [|apply Hz; lia].
  left. rewrite nth_error_app2, Hl, Nat.sub_diag by lia. reflexivity.
Qed.

Lemma clear_app z t t' b :
  length z = b ->
  (forall k, (k < b)%nat -> nth_error (z ++ t) k = Some 0 \/ nth_error (z ++ t) k = None) ->
  forall k, (k < b)%nat -> nth_error (z ++ t') k = Some 0 \/ nth_error (z ++ t') k = None.
Proof. intros Hl Hz k Hk. specialize (Hz k Hk). now rewrite nth_error_app1 in * by lia. Qed.

Lemma odd_add_pow x b : Z.odd (x + 2 ^ Z.of_nat (S b)) = Z.odd x.
Proof. rewrite Nat2Z.inj_succ, Z.pow_succ_r by lia. rewrite Z.odd_add, Z.odd_mul. now rewrite xorb_false_r. Qed.

Lemma odd_sub_pow x b : Z.odd (x - 2 ^ Z.of_nat (S b)) = Z.odd x.
Proof. rewrite Nat2Z.inj_succ, Z.pow_succ_r by lia. rewrite Z.odd_sub, Z.odd_mul. now rewrite xorb_false_r. Qed.

Section Window.
  Variables (m : nat) (V : Z).
  Hypothesis V_lt : V < 2 ^ Z.of_nat m.

(** A zero entry is skipped. *)
Lemma window_skip b ri rest :
    window_inv m V b ri rest -> nth_error rest b = Some 0 -> window_inv m V (S b) ri rest.
Proof.
    intros [] E. split; trivial. intros k Hk. destruct (Nat.eq_dec k b) as [->|]; [now left|].
    apply win_clear0. lia.
Qed.

(** [r[i] += r[i + b] << b; r[i + b] = 0;] *)
Lemma window_add b ri z t :
    window_inv m V b ri (z ++ 1 :: t) -> length z = b -> horner 2 z = 0 ->
    ri + 2 ^ Z.of_nat (S b) <= 15 ->
    window_inv m V (S b) (ri + 2 ^ Z.of_nat (S b)) (z ++ 0 :: t).
Proof.
    intros [] Hz Hv Hs. rewrite horner2_app, Hz, Hv in *. cbn [horner] in *.
    apply Forall_app in win_bits0. destruct win_bits0 as [B1 B2]. inversion B2 as [|? ? _ B3]; subst.
    pose proof (bits_range t B3). pose proof (Z.pow_pos_nonneg 2 (Z.of_nat (length z)) ltac:(lia) ltac:(lia)).
    split.
    - apply Forall_app. split; [exact B1|]. constructor; [now left | exact B3].
    - now rewrite !length_app.
    - now rewrite odd_add_pow.
    - lia.
    - rewrite horner2_app, Hv. cbn [horner]. rewrite Nat2Z.inj_succ, Z.pow_succ_r by lia. nia.
    - rewrite horner2_app, Hv. cbn [horner]. rewrite length_app in *. cbn [length] in *. nia.
    - apply window_clear_step; trivial. eapply clear_app; eauto.
Qed.

(** [r[i] -= r[i + b] << b;] and the carry; it never runs off the end. *)
Lemma window_sub b ri z t :
    window_inv m V b ri (z ++ 1 :: t) -> length z = b -> horner 2 z = 0 ->
    15 < ri + 2 ^ Z.of_nat (S b) -> -15 <= ri - 2 ^ Z.of_nat (S b) ->
    window_inv m V (S b) (ri - 2 ^ Z.of_nat (S b)) (z ++ slide_carry (1 :: t)).
Proof.
    intros [] Hz Hv Hs1 Hs2. rewrite horner2_app, Hz, Hv in *. cbn [horner] in *.
    apply Forall_app in win_bits0. destruct win_bits0 as [B1 B2]. pose proof (Forall_inv_tail B2) as B3.
    pose proof (bits_range t B3). subst b. set (b := length z) in *. set (T := horner 2 t) in *.
    set (n := length t) in *.
    assert (m = b + S n)%nat as Em by (rewrite <- win_len0, length_app; reflexivity).
    assert (2 ^ Z.of_nat m = 2 * 2 ^ Z.of_nat b * 2 ^ Z.of_nat n) as Ep.
    { rewrite Em. replace (Z.of_nat (b + S n)) with (1 + Z.of_nat b + Z.of_nat n) by lia.
      now rewrite !Z.pow_add_r by lia. }
    assert (2 ^ Z.of_nat (S b) = 2 * 2 ^ Z.of_nat b) as Eb by (rewrite Nat2Z.inj_succ, Z.pow_succ_r; lia).
    pose proof (Z.pow_pos_nonneg 2 (Z.of_nat b) ltac:(lia) ltac:(lia)) as Pb.
    assert (1 + 2 * T < 2 ^ Z.of_nat n) as HT by nia.
    assert (n <> 0)%nat as Hn by (intros E; rewrite E in HT; change (2 ^ Z.of_nat 0) with 1 in HT; lia).
    assert (2 ^ Z.of_nat n = 2 * 2 ^ (Z.of_nat n - 1)) as En by (rewrite <- Z.pow_succ_r by lia; f_equal; lia).
    assert (T + 1 <= 2 ^ (Z.of_nat n - 1)) as HT' by lia.
    destruct (slide_carry_spec (1 :: t)) as (C1 & C2 & C3).
    { constructor; [now right | exact B3]. }
    { cbn [horner length]. rewrite Nat2Z.inj_succ, Z.pow_succ_r by lia. fold T n. lia. }
    cbn [horner] in C3. fold T in C3.
    split.
    - apply Forall_app. now split.
    - rewrite length_app, C2. cbn [length]. lia.
    - now rewrite odd_sub_pow.
    - lia.
    - rewrite horner2_app, Hv, C3. fold b. rewrite Eb, <- win_val0. ring.
    - rewrite horner2_app, Hv, C3. fold b. rewrite Ep, En. nia.
    - cbn [slide_carry Z.eqb] in *. apply window_clear_step; trivial. eapply clear_app; eauto.
Qed.

Lemma slide_window_spec k b ri rest :
    window_inv m V b ri rest -> (b + k <= 6)%nat ->
    returns (slide_window (seq (S b) k) ri rest) (fun '(ri, rest) => exists b, window_inv m V b ri rest).
Proof.
    revert b ri rest. induction k as [|k IH]; intros b ri rest Hw Hk; cbn [seq slide_window]; [cbn; eauto|].
    replace (S b - 1)%nat with b by lia.
    destruct (nth_error rest b) as [y|] eqn:Ey; [|cbn; eauto].
    assert (bit y) as Hy by (pose proof (win_bits _ _ _ _ _ Hw) as F; rewrite Forall_forall in F; eapply F, nth_error_In, Ey).
    destruct Hy as [-> | ->]; cbn [Z.eqb].
    { apply IH; [now apply window_skip | lia]. }
    destruct (split_at b rest 1 Ey (win_clear _ _ _ _ _ Hw)) as (z & t & -> & Hz & Hv).
    pose proof (win_small _ _ _ _ _ Hw) as Hs.
    assert (0 < 2 ^ Z.of_nat (S b) <= 2 ^ 6) as Hp by (split; [lia | apply Z.pow_le_mono_r; lia]).
    unfold iop at 1. unfold val. cbn [bind]. rewrite shl_i32 by lia. cbn [bind].
    rewrite chk_ok by (cbn [imax]; lia). cbn [bind].
    destruct (Z.leb_spec (ri + 2 ^ Z.of_nat (S b)) 15).
    - rewrite <- Hz at 1. rewrite aset_middle. cbn [bind]. rewrite to_i8_small by lia.
      apply IH; [now apply window_add | lia].
    - unfold iop, val. cbn [bind].
      rewrite chk_ok by (cbn [imax]; lia). cbn [bind].
      destruct (Z.leb_spec (-15) (ri - 2 ^ Z.of_nat (S b))); [|cbn [returns]; eauto].
      rewrite to_i8_small by lia. subst b.
      rewrite firstn_app, skipn_app, firstn_all, skipn_all, Nat.sub_diag. cbn [firstn skipn app].
      rewrite app_nil_r. apply IH; [now apply window_sub | lia].
Qed.
End Window.

(** ** The whole array *)

Lemma slide_loop_spec n r :
  Forall bit r -> length r = n -> 2 * horner 2 r <= 2 ^ Z.of_nat n ->
  returns (slide_loop n r) (fun e => length e = n /\ Forall slide_digit e /\ horner 2 e = horner 2 r).
Proof.
  revert r. induction n as [|m IH]; intros r Hb Hl Hv.
  - destruct r; [|discriminate]. cbn. auto.
  - destruct r as [|x rest]; [discriminate|]. cbn [length] in Hl. injection Hl as Hl.
    inversion Hb as [|? ? Hx Hr]; subst. cbn [slide_loop horner] in *.
    pose proof (bits_range rest Hr). rewrite Nat2Z.inj_succ, Z.pow_succ_r in Hv by lia.
    eapply (returns_bind _ _ (fun '(y, rest') => slide_digit y /\ Forall bit rest' /\
      length rest' = length rest /\ y + 2 * horner 2 rest' = x + 2 * horner 2 rest /\
      2 * horner 2 rest' <= 2 ^ Z.of_nat (length rest))).
    + destruct Hx as [-> | ->]; cbn [Z.eqb].
      * cbn [returns]. repeat split; trivial; [now left | lia].
      * destruct (Nat.eq_dec (length rest) 0) as [e|ne].
        { destruct rest; [|discriminate]. cbn. repeat split; trivial; [|lia]. right. split; [reflexivity | lia]. }
        eapply returns_weaken; [apply (slide_window_spec (length rest) (1 + 2 * horner 2 rest) ) with (b := 0%nat) |].
        -- assert (2 ^ Z.of_nat (length rest) = 2 * 2 ^ (Z.of_nat (length rest) - 1)) as E
             by (rewrite <- Z.pow_succ_r by lia; f_equal; lia). lia.
        -- split; try lia; trivial.
        -- lia.
        -- cbv beta. intros [y rest'] [b [W1 W2 W3 W4 W5 W6 _]]. repeat split; trivial. right. auto.
    + cbv beta. intros [y rest'] (D & B & L & E & T).
      eapply returns_bind; [apply (IH rest'); trivial; lia|]. cbv beta. intros e (Le & De & He). cbn [returns].
      repeat split; [cbn; lia | now constructor | cbn [horner]; lia].
Qed.

(** ** The bits of the scalar *)

Lemma scalar_bit_spec a i :
  bytes a -> (i < 8 * length a)%nat ->
  scalar_bit a i = Some (Z.b2z (Z.testbit (le_val a) (Z.of_nat i))).
Proof.
  intros Ha Hi. unfold scalar_bit.
  assert (Nat.shiftr i 3 = i / 8)%nat as -> by (rewrite Nat.shiftr_div_pow2; reflexivity).
  assert (Nat.land i 7 = i mod 8)%nat as -> by exact (Nat.land_ones i 3).
  pose proof (Nat.div_mod i 8 ltac:(lia)) as D. pose proof (Nat.mod_upper_bound i 8 ltac:(lia)) as M.
  assert (i / 8 < length a)%nat as Hq by (apply Nat.Div0.div_lt_upper_bound; lia).
  generalize dependent (i / 8)%nat. generalize dependent (i mod 8)%nat. intros s M q D Hq.
  rewrite (nth_error_nth' a 0) by lia. cbn [bind]. f_equal.
  rewrite Z.land_comm. change 1 with (Z.ones 1). rewrite Z.land_ones by lia. change (2 ^ 1) with 2.
  rewrite <- Z.bit0_mod, Z.shiftr_spec by lia. f_equal. cbn [Z.add].
  replace (Z.of_nat i) with (8 * Z.of_nat q + Z.of_nat s) by lia.
  rewrite <- testbit_div_pow2 by lia. replace (2 ^ (8 * Z.of_nat q)) with (256 ^ Z.of_nat q) by (now rewrite Z.pow_mul_r by lia).
  rewrite le_val_skipn by exact Ha.
  assert (exists t, skipn q a = nth q a 0 :: t) as [t ->].
  { clear - Hq. revert a Hq.
    induction q as [|q IH]; intros [|x a] Hq; cbn [length] in Hq; try lia; [eexists; reflexivity|].
    apply (IH a). lia. }
  cbn [le_val]. replace (nth q a 0 + 256 * le_val t) with (nth q a 0 + 2 ^ 8 * le_val t) by lia.
  assert (is_byte (nth q a 0)) as Hn by (unfold bytes in Ha; rewrite Forall_forall in Ha; apply Ha, nth_In; lia).
  unfold is_byte in Hn. rewrite <- (testbit_mod_low (nth q a 0 + 2 ^ 8 * le_val t) 8) by lia.
  rewrite Z.mul_comm, Z_mod_plus_full, Z.mod_small by lia. reflexivity.
Qed.

Lemma bits_horner v n :
  0 <= v < 2 ^ Z.of_nat n -> horner 2 (map (fun i => Z.b2z (Z.testbit v (Z.of_nat i))) (seq 0 n)) = v.
Proof.
  revert v. induction n as [|n IH]; intros v Hv; [cbn in *; lia|].
  cbn [seq map horner]. rewrite <- seq_shift, map_map.
  rewrite (map_ext _ (fun i => Z.b2z (Z.testbit (v / 2) (Z.of_nat i)))).
  2: { intros i. rewrite Nat2Z.inj_succ, <- Z.div2_div, Z.div2_spec, Z.shiftr_spec by lia. do 2 f_equal. }
  rewrite Nat2Z.inj_succ, Z.pow_succ_r in Hv by lia.
  rewrite IH by (split; [apply Z.div_pos | apply Z.div_lt_upper_bound]; lia).
  rewrite Z.bit0_mod. pose proof (Z.div_mod v 2). lia.
Qed.

(** [slide] keeps the value of every scalar up to 2^255: no carry is lost and every digit
    indexes the tables of odd multiples. *)
Lemma slide_spec a :
  bytes a -> length a = 32%nat -> le_val a <= 2 ^ 255 ->
  returns (slide a) (fun e => length e = 256%nat /\ Forall slide_digit e /\ horner 2 e = le_val a).
Proof.
  intros Ha Hl Hv. unfold slide. pose proof (le_val_bound a Ha) as Hb. rewrite Hl in Hb.
  rewrite (mapM_map _ (fun i => Z.b2z (Z.testbit (le_val a) (Z.of_nat i))))
    by (intros i [_ Hi]%in_seq; apply scalar_bit_spec; trivial; lia).
  cbn [bind]. set (r := map _ _).
  assert (horner 2 r = le_val a) as E by (apply bits_horner; exact Hb).
  rewrite <- E. apply slide_loop_spec.
  - apply Forall_map, Forall_forall. intros i _. unfold bit. destruct (Z.testbit _ _); cbn; auto.
  - unfold r. now rewrite length_map, length_seq.
  - rewrite E. change (2 ^ Z.of_nat 256) with (2 * 2 ^ 255). lia.
Qed.
