(* ===== verification/GeDouble.v ===== *)
(** * Double scalar multiplication

    Models [ge_dsm_precomp] and the five variable-time functions of crypto-ops.c that
    compute a A + b B: [ge_double_scalarmult_base_vartime] and its [_p3] variant, whose
    second point is the base point with its table [ge_Bi], and the three
    [ge_double_scalarmult_precomp_vartime] functions, whose second point comes as a table.
    The digits of both scalars come from [slide]. The tables enter through the class
    [Addend]: entries that can be added to and subtracted from a point. *)

From Stdlib Require Import ZArith Lia List Bool Zmod Field.
From S2P Require Import Prelude Bytes Fe FeMul Primes Curve Ge GeScalar GeTable GeBase Slide.
Import ListNotations.

#[local] Open Scope Z_scope.

(** ** Tables of points *)

(** A representation of points that the mixed formulas add to [ge_p3]. *)
Class Addend (T : Type) `{Represents T} : Type := {
  addend_add : ge_p3 -> T -> option ge_p1p1;
  addend_sub : ge_p3 -> T -> option ge_p1p1;
  addend_add_spec : forall p q P Q, p ~> P -> q ~> Q -> returns (addend_add p q) (fun r => r ~> ed_add P Q);
  addend_sub_spec : forall p q P Q, p ~> P -> q ~> Q ->
    returns (addend_sub p q) (fun r => r ~> ed_add P (ed_opp Q));
}.

#[export] Instance addend_cached : Addend ge_cached := {|
  addend_add := ge_add; addend_sub := ge_sub;
  addend_add_spec := ge_add_spec; addend_sub_spec := ge_sub_spec;
|}.

#[export] Instance addend_precomp : Addend ge_precomp := {|
  addend_add := ge_madd; addend_sub := ge_msub;
  addend_add_spec := ge_madd_spec; addend_sub_spec := ge_msub_spec;
|}.

(** ** The code *)

(** [ge_dsm_precomp]: A, 3A, 5A, .., 15A; each entry is the double of the point plus the
    entry before it. *)
Definition ge_dsm_precomp (s : ge_p3) : option (list ge_cached) :=
  let! r0 := ge_p3_to_cached s in
  let! t := ge_p3_dbl s in
  let! s2 := ge_p1p1_to_p3 t in
  let! r := multiples 7 s2 r0 in
  Some (r0 :: r).

(** One digit of one scalar: entry [a / 2] is added, or entry [-a / 2] subtracted. *)
Definition table_digit {T} `{Addend T} (Ai : list T) (t : ge_p1p1) (a : Z) : option ge_p1p1 :=
  if 0 <? a then
    let! u := ge_p1p1_to_p3 t in
    let! e := nth_error Ai (Z.to_nat (a / 2)) in
    addend_add u e
  else if a <? 0 then
    let! u := ge_p1p1_to_p3 t in
    let! e := nth_error Ai (Z.to_nat (- a / 2)) in
    addend_sub u e
  else Some t.

(** The body of the main loop up to the last conversion. *)
Definition dsm_digit {T} `{Addend T} (Ai : list ge_cached) (Bi : list T) (r : ge_p2) (ab : Z * Z)
  : option ge_p1p1 :=
  let! t := ge_p2_dbl r in
  let! t := table_digit Ai t (fst ab) in
  table_digit Bi t (snd ab).

(** [for (i = 255; i >= 0; --i) if (aslide[i] || bslide[i]) break;] on the digits from 255
    down to 0. *)
Fixpoint top_digits (l : list (Z * Z)) : list (Z * Z) :=
  match l with
  | (a, b) :: l' => if (a =? 0) && (b =? 0) then top_digits l' else l
  | [] => []
  end.

(** The main loop, with a result in [ge_p2] .. *)
Definition dsm_loop {T} `{Addend T} (Ai : list ge_cached) (Bi : list T) (l : list (Z * Z)) : option ge_p2 :=
  foldM (fun r ab => let! t := dsm_digit Ai Bi r ab in ge_p1p1_to_p2 t) l ge_p2_0.

(** .. and in [ge_p3]: only the iteration [i == 0] writes [r3]. *)
Fixpoint dsm_loop_p3 {T} `{Addend T} (r3 : ge_p3) (Ai : list ge_cached) (Bi : list T)
    (l : list (Z * Z)) (r : ge_p2) : option ge_p3 :=
  match l with
  | [] => Some r3
  | [ab] => let! t := dsm_digit Ai Bi r ab in ge_p1p1_to_p3 t
  | ab :: l =>
      let! t := dsm_digit Ai Bi r ab in
      let! r := ge_p1p1_to_p2 t in
      dsm_loop_p3 r3 Ai Bi l r
  end.

Definition slides (a b : list Z) : option (list (Z * Z)) :=
  let! aslide := slide a in
  let! bslide := slide b in
  Some (top_digits (rev (combine aslide bslide))).

Definition ge_double_scalarmult_base_vartime (a : list Z) (A : ge_p3) (b : list Z) : option ge_p2 :=
  let! l := slides a b in
  let! Ai := ge_dsm_precomp A in
  dsm_loop Ai ge_Bi l.

(** [r3] is the value of the output argument at the call. *)
Definition ge_double_scalarmult_base_vartime_p3 (r3 : ge_p3) (a : list Z) (A : ge_p3) (b : list Z) : option ge_p3 :=
  let! l := slides a b in
  let! Ai := ge_dsm_precomp A in
  dsm_loop_p3 r3 Ai ge_Bi l ge_p2_0.

Definition ge_double_scalarmult_precomp_vartime2 (a : list Z) (Ai : list ge_cached) (b : list Z) (Bi : list ge_cached)
  : option ge_p2 :=
  let! l := slides a b in
  dsm_loop Ai Bi l.

Definition ge_double_scalarmult_precomp_vartime2_p3 (r3 : ge_p3) (a : list Z) (Ai : list ge_cached) (b : list Z)
    (Bi : list ge_cached) : option ge_p3 :=
  let! l := slides a b in
  dsm_loop_p3 r3 Ai Bi l ge_p2_0.

Definition ge_double_scalarmult_precomp_vartime (a : list Z) (A : ge_p3) (b : list Z) (Bi : list ge_cached)
  : option ge_p2 :=
  let! Ai := ge_dsm_precomp A in
  ge_double_scalarmult_precomp_vartime2 a Ai b Bi.

#[local] Opaque fe_F d Zmod.mul Zmod.add Zmod.sub Zmod.opp Zmod.mdiv Zmod.one Zmod.zero.

(** ** The tables hold the odd multiples *)

Definition odd_table {T} `{Represents T} (P : point) (Ai : list T) : Prop :=
  length Ai = 8%nat /\ forall j e, nth_error Ai j = Some e -> e ~> ed_mul (2 * Z.of_nat j + 1) P.

Lemma odd_multiples n s2 Ai P k :
  on_curve P -> s2 ~> ed_mul 2 P -> Ai ~> ed_mul k P ->
  returns (multiples n s2 Ai) (fun l => length l = n /\
    forall i B, nth_error l i = Some B -> B ~> ed_mul (k + 2 * (Z.of_nat i + 1)) P).
Proof.
  intros HP Hs. revert Ai k. induction n as [|n IH]; intros Ai k HAi; cbn [multiples].
  - split; [reflexivity|]. intros [|] B; discriminate.
  - ge_step ge_add_spec as t Ht. ge_step ge_p1p1_to_p3_spec as u Hu. ge_step ge_p3_to_cached_spec as Ai' HAi'.
    rewrite <- ed_mul_add in HAi' by exact HP.
    eapply returns_bind; [apply (IH Ai' (2 + k)), HAi' | cbv beta; intros l [Hl Hn]].
    cbn [returns length]. split; [now f_equal|]. intros [|i] B E; cbn [nth_error] in E.
    + injection E as <-. now replace (k + 2 * (Z.of_nat 0 + 1)) with (2 + k) by lia.
    + apply Hn in E. now replace (k + 2 * (Z.of_nat (S i) + 1)) with (2 + k + 2 * (Z.of_nat i + 1)) by lia.
Qed.

Lemma ge_dsm_precomp_spec s P : s ~> P -> returns (ge_dsm_precomp s) (odd_table P).
Proof.
  intros Hs. pose proof (repr_on_curve_p3 s P Hs) as HP. unfold ge_dsm_precomp.
  ge_step ge_p3_to_cached_spec as r0 H0. rewrite <- (ed_mul_1 P) in H0.
  ge_step ge_p3_dbl_spec as t Ht. ge_step ge_p1p1_to_p3_spec as s2 Hs2.
  rewrite <- (ed_mul_1 P), <- ed_mul_add in Hs2 by exact HP.
  eapply returns_bind; [apply (odd_multiples 7 s2 r0 P 1 HP Hs2 H0) | cbv beta; intros l [Hl Hn]].
  cbn [returns]. split; [cbn; now rewrite Hl|]. intros [|i] B E; cbn [nth_error] in E.
  - injection E as <-. exact H0.
  - apply Hn in E. now replace (2 * Z.of_nat (S i) + 1) with (1 + 2 * (Z.of_nat i + 1)) by lia.
Qed.

(** ** One iteration *)

Lemma table_digit_spec {T} `{Addend T} (Ai : list T) t P Q a :
  on_curve P -> odd_table P Ai -> slide_digit a -> t ~> Q ->
  on_curve Q -> returns (table_digit Ai t a) (fun r => r ~> ed_add Q (ed_mul a P)).
Proof.
  intros HP [Hl HA] Ha Ht HQ. unfold table_digit.
  assert (forall k, 0 <= k -> Z.odd k = true -> k <= 15 -> exists e, nth_error Ai (Z.to_nat (k / 2)) = Some e /\ e ~> ed_mul k P)
    as Hn.
  { intros k Hk Ho Hu. pose proof (Z.div_mod k 2 ltac:(lia)) as D.
    rewrite Zodd_mod in Ho. apply Z.eqb_eq in Ho. rewrite Ho in D.
    destruct (nth_error Ai (Z.to_nat (k / 2))) as [e|] eqn:E.
    - exists e. split; [reflexivity|]. apply HA in E. now replace (2 * Z.of_nat (Z.to_nat (k / 2)) + 1) with k in E by lia.
    - apply nth_error_None in E. lia. }
  destruct Ha as [-> | [Ho Hr]].
  - cbn [Z.ltb Z.compare returns]. now rewrite ed_mul_0, ed_add_comm, ed_add_0_l.
  - destruct (Z.ltb_spec 0 a).
    + destruct (Hn a) as (e & -> & He); try lia; trivial.
      ge_step ge_p1p1_to_p3_spec as u Hu. cbn [bind]. now apply addend_add_spec.
    + destruct (Z.ltb_spec a 0); [|rewrite (Z.le_antisymm a 0) in Ho by lia; discriminate].
      destruct (Hn (- a)) as (e & -> & He); try lia; [now rewrite Z.odd_opp|].
      ge_step ge_p1p1_to_p3_spec as u Hu. cbn [bind].
      replace (ed_mul a P) with (ed_opp (ed_mul (- a) P)); [now apply addend_sub_spec|].
      rewrite <- ed_mul_opp by exact HP. f_equal. lia.
Qed.

(** n P + k Q. *)
Definition lin (n : Z) (P : point) (k : Z) (Q : point) : point := ed_add (ed_mul n P) (ed_mul k Q).

Section Linear.
  Variables P Q : point.
  Hypothesis HP : on_curve P.
  Hypothesis HQ : on_curve Q.

Lemma lin_on_curve n k : on_curve (lin n P k Q).
Proof. apply ed_add_on_curve; now apply ed_mul_on_curve. Qed.

Lemma ed_add_4 A B C D :
    on_curve A -> on_curve B -> on_curve C -> on_curve D ->
    ed_add (ed_add A B) (ed_add C D) = ed_add (ed_add A C) (ed_add B D).
Proof.
    intros. rewrite (ed_add_assoc A B), (ed_add_assoc A C) by auto using ed_add_on_curve. f_equal.
    now rewrite <- (ed_add_assoc B C), (ed_add_comm B C), (ed_add_assoc C B) by auto.
Qed.

Lemma lin_add n k n' k' : ed_add (lin n P k Q) (lin n' P k' Q) = lin (n + n') P (k + k') Q.
Proof.
    unfold lin. rewrite ed_add_4 by (now apply ed_mul_on_curve). now rewrite !ed_mul_add.
Qed.

Lemma lin_step n k a b :
    ed_add (ed_add (ed_add (lin n P k Q) (lin n P k Q)) (ed_mul a P)) (ed_mul b Q) = lin (2 * n + a) P (2 * k + b) Q.
Proof.
    rewrite ed_add_assoc; [| apply ed_add_on_curve; apply lin_on_curve | now apply ed_mul_on_curve..].
    change (ed_add (ed_mul a P) (ed_mul b Q)) with (lin a P b Q).
    rewrite !lin_add. f_equal; lia.
Qed.
End Linear.

Lemma dsm_digit_spec {T} `{Addend T} Ai (Bi : list T) r P Q n k ab :
  on_curve P -> on_curve Q -> odd_table P Ai -> odd_table Q Bi ->
  slide_digit (fst ab) -> slide_digit (snd ab) -> r ~> lin n P k Q ->
  returns (dsm_digit Ai Bi r ab) (fun t => t ~> lin (2 * n + fst ab) P (2 * k + snd ab) Q).
Proof.
  intros HP HQ HA HB Ha Hb Hr. unfold dsm_digit. pose proof (lin_on_curve P Q HP HQ n k) as Hc.
  ge_step ge_p2_dbl_spec as t Ht.
  eapply returns_bind; [apply (table_digit_spec Ai t P _ (fst ab) HP HA Ha Ht); now apply ed_add_on_curve|].
  cbv beta. intros t1 Ht1.
  eapply returns_weaken; [apply (table_digit_spec Bi t1 Q _ (snd ab) HQ HB Hb Ht1)|].
  - apply ed_add_on_curve; [now apply ed_add_on_curve | now apply ed_mul_on_curve].
  - cbv beta. intros t2 Ht2. now rewrite lin_step in Ht2.
Qed.

(** ** The loops *)

(** The value of digits from the most significant down, after a value [n]. *)
Definition fold2 (n : Z) (l : list Z) : Z := fold_left (fun n a => 2 * n + a) l n.

Lemma fold2_horner e : fold2 0 (rev e) = horner 2 e.
Proof.
  unfold fold2. rewrite <- fold_left_rev_right, rev_involutive. induction e as [|a e IH]; [reflexivity|].
  cbn [fold_right horner]. rewrite IH. lia.
Qed.

(** The digits that the first loop skips are zero, so that the value does not change. *)
Lemma top_digits_spec l :
  fold2 0 (map fst (top_digits l)) = fold2 0 (map fst l) /\
  fold2 0 (map snd (top_digits l)) = fold2 0 (map snd l) /\
  incl (top_digits l) l.
Proof.
  induction l as [|[a b] l (IH1 & IH2 & IH3)]; [repeat split; apply incl_refl|]. cbn [top_digits].
  destruct (Z.eqb_spec a 0) as [->|], (Z.eqb_spec b 0) as [->|]; cbn [andb]; try (repeat split; apply incl_refl).
  repeat split; trivial. now apply incl_tl.
Qed.

(** An empty list of digits means two zero values. *)
Lemma top_digits_nil l :
  top_digits l = [] -> fold2 0 (map fst l) = 0 /\ fold2 0 (map snd l) = 0.
Proof. intros E. destruct (top_digits_spec l) as (<- & <- & _). now rewrite E. Qed.

Lemma top_digits_zero l : Forall (fun ab => fst ab = 0 /\ snd ab = 0) l -> top_digits l = [].
Proof.
  induction 1 as [|[a b] l [Ea Eb] _ IH]; [reflexivity|]. cbn [fst snd] in *. subst. exact IH.
Qed.

(** Odd digits: only zeros have the value zero. *)
Lemma slide_zero e : Forall slide_digit e -> horner 2 e = 0 -> Forall (fun x => x = 0) e.
Proof.
  induction 1 as [|x e Hx He IH]; cbn [horner]; intros E; constructor.
  - destruct Hx as [-> | [Ho _]]; [reflexivity|]. rewrite <- Z.negb_even in Ho.
    replace x with (2 * - horner 2 e) in Ho by lia. rewrite Z.even_mul in Ho. discriminate Ho.
  - apply IH. destruct Hx as [-> | [Ho _]]; [lia|]. rewrite <- Z.negb_even in Ho.
    replace x with (2 * - horner 2 e) in Ho by lia. rewrite Z.even_mul in Ho. discriminate Ho.
Qed.

Lemma slides_spec a b :
  bytes a -> length a = 32%nat -> le_val a <= 2 ^ 255 ->
  bytes b -> length b = 32%nat -> le_val b <= 2 ^ 255 ->
  returns (slides a b) (fun l =>
    Forall (fun ab => slide_digit (fst ab) /\ slide_digit (snd ab)) l /\
    fold2 0 (map fst l) = le_val a /\ fold2 0 (map snd l) = le_val b /\
    (l = [] <-> le_val a = 0 /\ le_val b = 0)).
Proof.
  intros Ha La Va Hb Lb Vb. unfold slides.
  eapply returns_bind; [now apply slide_spec | cbv beta; intros ea (Na & Da & Ea)].
  eapply returns_bind; [now apply slide_spec | cbv beta; intros eb (Nb & Db & Eb)]. cbn [returns].
  set (l := rev (combine ea eb)).
  assert (fold2 0 (map fst l) = le_val a /\ fold2 0 (map snd l) = le_val b) as [Fa Fb].
  { unfold l. rewrite !map_rev, !fold2_horner. rewrite <- Ea, <- Eb. split; f_equal.
    - clear - Na Nb. rewrite <- Nb in Na. clear Nb. revert eb Na.
      induction ea as [|x ea IH]; intros [|y eb] E; try discriminate E; [reflexivity|]. cbn. f_equal. apply IH. now injection E.
    - clear - Na Nb. rewrite <- Na in Nb. clear Na. revert ea Nb.
      induction eb as [|y eb IH]; intros [|x ea] E; try discriminate E; [reflexivity|]. cbn. f_equal. apply IH. now injection E. }
  destruct (top_digits_spec l) as (T1 & T2 & T3). rewrite T1, T2. refine (conj _ (conj Fa (conj Fb (conj _ _)))).
  - rewrite Forall_forall in *. intros [x y] Hin%T3. apply in_rev in Hin.
    split; [apply Da; now apply in_combine_l in Hin | apply Db; now apply in_combine_r in Hin].
  - intros E. apply top_digits_nil in E. lia.
  - intros [Za Zb]. rewrite Za in Ea. rewrite Zb in Eb.
    apply slide_zero in Ea, Eb; trivial. apply top_digits_zero.
    rewrite Forall_forall in *. intros [x y] Hin. apply in_rev in Hin.
    split; [apply Ea; now apply in_combine_l in Hin | apply Eb; now apply in_combine_r in Hin].
Qed.

(** ** [ge_Bi] *)

Lemma odd_chain_spec s q B k l :
  on_curve B -> bP s = ed_mul 2 B -> bP q = ed_mul k B -> forallb entry_bounded l = true ->
  chain_check s q l = true ->
  forall j e, nth_error l j = Some e -> e ~> ed_mul (k + 2 * (Z.of_nat j + 1)) B.
Proof.
  intros HB Es. revert q k. induction l as [|e l IH]; intros q k Eq Hb H j e' Hj; [destruct j; discriminate|].
  cbn [forallb] in Hb. apply andb_prop in Hb as [Be Bl]. cbn [chain_check] in H.
  apply andb_prop in H as [[He Ha]%andb_prop Hl].
  destruct (entry_check_spec e Be He) as [Hc Hr].
  assert (bP (entry_point e) = ed_mul (k + 2) B) as Ee.
  { rewrite (add_check_spec q s); [| rewrite Eq; now apply ed_mul_on_curve | rewrite Es; now apply ed_mul_on_curve | exact Ha].
    now rewrite Eq, Es, ed_mul_add. }
  destruct j as [|j]; cbn [nth_error] in Hj.
  - injection Hj as <-. change (k + 2 * (Z.of_nat 0 + 1)) with (k + 2). now rewrite <- Ee.
  - replace (k + 2 * (Z.of_nat (S j) + 1)) with (k + 2 + 2 * (Z.of_nat j + 1)) by lia.
    now apply (IH (entry_point e) (k + 2)).
Qed.

Lemma ge_Bi_spec : odd_table base_point ge_Bi.
Proof.
  pose proof base_point_on_curve as HB. pose proof ge_Bi_check as H.
  apply andb_prop in H as [[[[Hb He]%andb_prop Hx]%andb_prop Hy]%andb_prop Hc].
  split; [reflexivity|].
  assert (bP (entry_point (hd ge_precomp_0 ge_Bi)) = base_point) as E0.
  { apply eqm_spec in Hx, Hy. unfold base_point.
    destruct (entry_point (hd ge_precomp_0 ge_Bi)) as [x y], (entry_point (hd ge_precomp_0 ge_base_0)) as [x' y'].
    cbn [fst snd bP] in *. congruence. }
  assert (bP (entry_point (nth 1 ge_base_0 ge_precomp_0)) = ed_mul 2 base_point) as E2.
  { rewrite (add_check_spec (entry_point (hd ge_precomp_0 ge_base_0)) (entry_point (hd ge_precomp_0 ge_base_0)));
      [| exact HB | exact HB | vm_compute; reflexivity].
    fold base_point. rewrite <- (ed_mul_1 base_point) at 1 2. now rewrite <- ed_mul_add by exact HB. }
  rewrite <- (ed_mul_1 base_point) in E0.
  pose proof (odd_chain_spec _ _ base_point 1 (tl ge_Bi) HB E2 E0) as Ht.
  assert (ge_Bi = hd ge_precomp_0 ge_Bi :: tl ge_Bi) as El by reflexivity.
  rewrite El in Hb. cbn [forallb] in Hb. apply andb_prop in Hb as [B0 Bt]. specialize (Ht Bt Hc).
  rewrite El. intros [|j] e Hj; cbn [nth_error] in Hj.
  - injection Hj as <-. change (2 * Z.of_nat 0 + 1) with 1. rewrite <- E0. now apply entry_check_spec.
  - replace (2 * Z.of_nat (S j) + 1) with (1 + 2 * (Z.of_nat j + 1)) by lia. exact (Ht j e Hj).
Qed.

(** ** The results *)

Section Loops.
  Context {T : Type} `{Addend T}.
  Variables (P Q : point) (Ai : list ge_cached) (Bi : list T).
  Hypothesis HP : on_curve P.
  Hypothesis HQ : on_curve Q.
  Hypothesis HA : odd_table P Ai.
  Hypothesis HB : odd_table Q Bi.

Let digits (l : list (Z * Z)) := Forall (fun ab => slide_digit (fst ab) /\ slide_digit (snd ab)) l.

Lemma dsm_fold_spec l r n k :
    digits l -> r ~> lin n P k Q ->
    returns (foldM (fun r ab => let! t := dsm_digit Ai Bi r ab in ge_p1p1_to_p2 t) l r)
      (fun r => r ~> lin (fold2 n (map fst l)) P (fold2 k (map snd l)) Q).
Proof.
    intros Hl. revert r n k. induction Hl as [|ab l [Ha Hb] Hl IH]; intros r n k Hr; [exact Hr|].
    cbn [foldM map fold2 fold_left].
    eapply returns_bind; [|intros r' Hr'; apply (IH r'); exact Hr'].
    eapply returns_bind; [eapply (dsm_digit_spec Ai Bi r P Q n k ab); eassumption | cbv beta; intros t Ht].
    now apply ge_p1p1_to_p2_spec.
Qed.

Lemma lin_0 : lin 0 P 0 Q = ed_0.
Proof. unfold lin. now rewrite !ed_mul_0, ed_add_0_l. Qed.

Lemma dsm_loop_spec l :
    digits l ->
    returns (dsm_loop Ai Bi l) (fun r => r ~> lin (fold2 0 (map fst l)) P (fold2 0 (map snd l)) Q).
Proof. intros Hl. apply dsm_fold_spec; [exact Hl|]. rewrite lin_0. exact ge_p2_0_spec. Qed.

Lemma dsm_fold_p3_spec r3 l r n k :
    digits l -> l <> [] -> r ~> lin n P k Q ->
    returns (dsm_loop_p3 r3 Ai Bi l r)
      (fun r => r ~> lin (fold2 n (map fst l)) P (fold2 k (map snd l)) Q).
Proof.
    intros Hl. revert r n k. induction Hl as [|ab l [Ha Hb] Hl IH]; intros r n k Hne Hr; [congruence|].
    pose proof (dsm_digit_spec Ai Bi r P Q n k ab HP HQ HA HB Ha Hb Hr) as Hd.
    cbn [dsm_loop_p3 map fold2 fold_left]. destruct l as [|ab' l].
    - eapply returns_bind; [exact Hd | cbv beta; intros t Ht]. now apply ge_p1p1_to_p3_spec.
    - eapply returns_bind; [exact Hd | cbv beta; intros t Ht]. ge_step ge_p1p1_to_p2_spec as r' Hr'.
      now apply (IH r').
Qed.

Lemma dsm_loop_p3_spec r3 l :
    digits l -> l <> [] ->
    returns (dsm_loop_p3 r3 Ai Bi l ge_p2_0)
      (fun r => r ~> lin (fold2 0 (map fst l)) P (fold2 0 (map snd l)) Q).
Proof. intros Hl Hn. apply dsm_fold_p3_spec; trivial. rewrite lin_0. exact ge_p2_0_spec. Qed.
End Loops.

(** A 32-byte scalar of at most 255 bits. *)
Definition scalar255 (a : list Z) : Prop := bytes a /\ length a = 32%nat /\ le_val a < 2 ^ 255.

Lemma slides255 a b :
  scalar255 a -> scalar255 b ->
  returns (slides a b) (fun l =>
    Forall (fun ab => slide_digit (fst ab) /\ slide_digit (snd ab)) l /\
    fold2 0 (map fst l) = le_val a /\ fold2 0 (map snd l) = le_val b /\
    (l = [] <-> le_val a = 0 /\ le_val b = 0)).
Proof. intros (Ba & La & Va) (Bb & Lb & Vb). apply slides_spec; trivial; lia. Qed.

Lemma double_base_spec a A P b :
  A ~> P -> scalar255 a -> scalar255 b ->
  returns (ge_double_scalarmult_base_vartime a A b) (fun r => r ~> lin (le_val a) P (le_val b) base_point).
Proof.
  intros HA Ha Hb. pose proof (repr_on_curve_p3 A P HA) as HP. unfold ge_double_scalarmult_base_vartime.
  eapply returns_bind; [now apply slides255 | cbv beta; intros l (D & <- & <- & _)].
  eapply returns_bind; [exact (ge_dsm_precomp_spec A P HA) | intros Ai HAi].
  now apply (dsm_loop_spec P base_point Ai ge_Bi HP base_point_on_curve HAi ge_Bi_spec).
Qed.

Lemma double_precomp2_spec a Ai P b Bi Q :
  on_curve P -> on_curve Q -> odd_table P Ai -> odd_table Q Bi -> scalar255 a -> scalar255 b ->
  returns (ge_double_scalarmult_precomp_vartime2 a Ai b Bi) (fun r => r ~> lin (le_val a) P (le_val b) Q).
Proof.
  intros HP HQ HA HB Ha Hb. unfold ge_double_scalarmult_precomp_vartime2.
  eapply returns_bind; [now apply slides255 | cbv beta; intros l (D & <- & <- & _)].
  now apply dsm_loop_spec.
Qed.

Lemma double_precomp_spec a A P b Bi Q :
  A ~> P -> on_curve Q -> odd_table Q Bi -> scalar255 a -> scalar255 b ->
  returns (ge_double_scalarmult_precomp_vartime a A b Bi) (fun r => r ~> lin (le_val a) P (le_val b) Q).
Proof.
  intros HA HQ HB Ha Hb. pose proof (repr_on_curve_p3 A P HA) as HP. unfold ge_double_scalarmult_precomp_vartime.
  eapply returns_bind; [exact (ge_dsm_precomp_spec A P HA) | intros Ai HAi]. now apply double_precomp2_spec.
Qed.

Lemma double_p3_spec {T} `{Addend T} r3 P Q (Ai : list ge_cached) (Bi : list T) a b :
  on_curve P -> on_curve Q -> odd_table P Ai -> odd_table Q Bi -> scalar255 a -> scalar255 b ->
  returns (let! l := slides a b in dsm_loop_p3 r3 Ai Bi l ge_p2_0)
    (fun r => (le_val a <> 0 \/ le_val b <> 0 -> r ~> lin (le_val a) P (le_val b) Q) /\
              (le_val a = 0 /\ le_val b = 0 -> r = r3)).
Proof.
  intros HP HQ HA HB Ha Hb.
  eapply returns_bind; [now apply slides255 | cbv beta; intros l (D & Ea & Eb & En)].
  destruct l as [|ab l].
  - cbn [dsm_loop_p3 returns]. split; [intuition lia | reflexivity].
  - eapply returns_weaken; [apply (dsm_loop_p3_spec P Q Ai Bi HP HQ HA HB r3 (ab :: l) D); discriminate|].
    cbv beta. intros r Hr. rewrite Ea, Eb in Hr. split; [auto|]. intros Z. now apply En in Z.
Qed.

(** ** Claims *)

(** The recoding [slide] is total on 32-byte scalars below 2^255 and exact: 256 digits,
    each zero or odd with absolute value at most 15 (so that half of it indexes a table of
    eight), whose value in base 2 is the scalar. No carry is lost at the end of the array. *)
Theorem slide_correct a :
  scalar255 a ->
  exists e, slide a = Some e /\ length e = 256%nat /\ Forall slide_digit e /\ horner 2 e = le_val a.
Proof. intros (Ha & Hl & Hv). apply returns_some. apply slide_spec; trivial; lia. Qed.

Lemma scalar255_127 : scalar255 (repeat 127 32).
Proof.
  split; [|split; reflexivity].
  apply Forall_forall. intros b Hb%repeat_spec. subst. unfold is_byte. lia.
Qed.

Lemma slide_correct_witness :
  exists e, slide (repeat 127 32) = Some e /\ length e = 256%nat /\ Forall slide_digit e /\
    horner 2 e = le_val (repeat 127 32).
Proof. exact (slide_correct (repeat 127 32) scalar255_127). Defined.

(** The double scalar multiplications with a [ge_p2] result compute a A + b B for all
    points and all scalars below 2^255, with B the base point, or the point that the given
    table was made from: [ge_dsm_precomp] makes the table of odd multiples they need. *)
Theorem ge_double_scalarmult_correct a A P b B Q :
  A ~> P -> B ~> Q -> scalar255 a -> scalar255 b ->
  exists Ai Bi r r1 r2,
    ge_dsm_precomp A = Some Ai /\ ge_dsm_precomp B = Some Bi /\
    ge_double_scalarmult_base_vartime a A b = Some r /\ r ~> lin (le_val a) P (le_val b) base_point /\
    ge_double_scalarmult_precomp_vartime a A b Bi = Some r1 /\ r1 ~> lin (le_val a) P (le_val b) Q /\
    ge_double_scalarmult_precomp_vartime2 a Ai b Bi = Some r2 /\ r2 ~> lin (le_val a) P (le_val b) Q.
Proof.
  intros HA HB Ha Hb. pose proof (repr_on_curve_p3 A P HA) as HP. pose proof (repr_on_curve_p3 B Q HB) as HQ.
  destruct (proj1 (returns_some _ _) (ge_dsm_precomp_spec A P HA)) as (Ai & EA & TA).
  destruct (proj1 (returns_some _ _) (ge_dsm_precomp_spec B Q HB)) as (Bi & EB & TB).
  destruct (proj1 (returns_some _ _) (double_base_spec a A P b HA Ha Hb)) as (r & Er & Hr).
  destruct (proj1 (returns_some _ _) (double_precomp_spec a A P b Bi Q HA HQ TB Ha Hb)) as (r1 & Er1 & Hr1).
  destruct (proj1 (returns_some _ _) (double_precomp2_spec a Ai P b Bi Q HP HQ TA TB Ha Hb)) as (r2 & Er2 & Hr2).
  exists Ai, Bi, r, r1, r2. auto 10.
Qed.

Lemma ge_double_scalarmult_correct_witness :
  let a := repeat 127 32 in
  exists Ai Bi r r1 r2,
    ge_dsm_precomp ge_p3_0 = Some Ai /\ ge_dsm_precomp ge_p3_0 = Some Bi /\
    ge_double_scalarmult_base_vartime a ge_p3_0 a = Some r /\ r ~> lin (le_val a) ed_0 (le_val a) base_point /\
    ge_double_scalarmult_precomp_vartime a ge_p3_0 a Bi = Some r1 /\ r1 ~> lin (le_val a) ed_0 (le_val a) ed_0 /\
    ge_double_scalarmult_precomp_vartime2 a Ai a Bi = Some r2 /\ r2 ~> lin (le_val a) ed_0 (le_val a) ed_0.
Proof.
  exact (ge_double_scalarmult_correct (repeat 127 32) ge_p3_0 ed_0 (repeat 127 32) ge_p3_0 ed_0
    ge_p3_0_spec ge_p3_0_spec scalar255_127 scalar255_127).
Defined.

(** The variants with a [ge_p3] result compute the same sum when one of the scalars is not
    zero; when both are zero they leave the output argument as it was, although the sum is
    then the neutral element. *)
Theorem ge_double_scalarmult_p3_correct r3 a A P b Ai Bi Q :
  A ~> P -> on_curve Q -> odd_table P Ai -> odd_table Q Bi -> scalar255 a -> scalar255 b ->
  exists r r',
    ge_double_scalarmult_base_vartime_p3 r3 a A b = Some r /\
    ge_double_scalarmult_precomp_vartime2_p3 r3 a Ai b Bi = Some r' /\
    (le_val a <> 0 \/ le_val b <> 0 ->
       r ~> lin (le_val a) P (le_val b) base_point /\ r' ~> lin (le_val a) P (le_val b) Q) /\
    (le_val a = 0 /\ le_val b = 0 -> r = r3 /\ r' = r3).
Proof.
  intros HA HQ TA TB Ha Hb. pose proof (repr_on_curve_p3 A P HA) as HP.
  destruct (proj1 (returns_some _ _) (ge_dsm_precomp_spec A P HA)) as (Ai' & EA & TA').
  destruct (proj1 (returns_some _ _) (double_p3_spec r3 P base_point Ai' ge_Bi a b HP base_point_on_curve TA' ge_Bi_spec Ha Hb))
    as (r & Er & Hr & Zr).
  destruct (proj1 (returns_some _ _) (double_p3_spec r3 P Q Ai Bi a b HP HQ TA TB Ha Hb)) as (r' & Er' & Hr' & Zr').
  exists r, r'. refine (conj _ (conj Er' (conj _ _))); [|auto..].
  unfold ge_double_scalarmult_base_vartime_p3.
  destruct (slides a b) as [l|]; [|discriminate Er]. cbn [bind] in *. now rewrite EA.
Qed.

Lemma ge_double_scalarmult_p3_correct_witness :
  exists Ai r r', ge_dsm_precomp ge_p3_0 = Some Ai /\
    ge_double_scalarmult_base_vartime_p3 ge_p3_0 (repeat 127 32) ge_p3_0 (repeat 127 32) = Some r /\
    ge_double_scalarmult_precomp_vartime2_p3 ge_p3_0 (repeat 127 32) Ai (repeat 127 32) Ai = Some r' /\
    r ~> lin (le_val (repeat 127 32)) ed_0 (le_val (repeat 127 32)) base_point.
Proof.
  destruct (proj1 (returns_some _ _) (ge_dsm_precomp_spec ge_p3_0 ed_0 ge_p3_0_spec)) as (Ai & EA & TA).
  destruct (ge_double_scalarmult_p3_correct ge_p3_0 (repeat 127 32) ge_p3_0 ed_0 (repeat 127 32) Ai Ai ed_0
    ge_p3_0_spec ed_0_on_curve TA TA scalar255_127 scalar255_127) as (r & r' & E & E' & H & _).
  exists Ai, r, r'. refine (conj EA (conj E (conj E' (proj1 (H _))))). left. discriminate.
Defined.
