(* ===== verification/GeHash.v ===== *)
(** * Field elements to points

    Models [ge_fromfe_frombytes_vartime] of crypto-ops.c with its constants, the map from
    32-byte strings to curve points behind the hash to a point (key images). The
    specification is the map on the field; the proof covers all assertions of the
    function, those of the debug build too. *)

From Stdlib Require Import ZArith Lia List Bool Zmod Field.
From S2P Require Import Prelude Bytes Fe FeMul FeBytes Primes FePow Curve Ge GeBytes.
Import ListNotations.

#[local] Open Scope Z_scope.

(** ** Constants of crypto-ops-data.c *)

Definition fe_ma2 : fe := Fe (-12721188) (-3529) 0 0 0 0 0 0 0 0.
Definition fe_ma : fe := Fe (-486662) 0 0 0 0 0 0 0 0 0.

Definition fe_fffb1 : fe :=
  Fe (-31702527) (-2466483) (-26106795) (-12203692) (-12169197) (-321052) 14850977 (-10296299) (-16929438) (-407568).
Definition fe_fffb2 : fe :=
  Fe 8166131 (-6741800) (-17040804) 3154616 21461005 1466302 (-30876704) (-6368709) 10503587 (-13363080).
Definition fe_fffb3 : fe :=
  Fe (-13620103) 14639558 4532995 7679154 16815101 (-15883539) (-22863840) (-14813421) 13716513 (-6477756).
Definition fe_fffb4 : fe :=
  Fe (-21786234) (-12173074) 21573800 4524538 (-4645904) 16204591 8012863 (-8444712) 3212926 6885324.

(** ** The code *)

(** From [r->X] multiplied by [fe_fffb1] or [fe_fffb2] to the label [setsign]: the new
    [r->X], [z] and [sign]. *)
Definition fromfe_square (u v rX z : fe) : option (fe * fe * Z) :=
  let! rX := fe_mul rX u in
  let! z := fe_mul z v in
  Some (rX, z, 0).

(** The label [negative]. *)
Definition fromfe_negative (w x rX z : fe) : option (fe * fe * Z) :=
  let! x := fe_mul x fe_sqrtm1 in
  let! y := fe_sub w x in
  let! nz := fe_isnonzero y in
  if nz =? 0 then
    let! rX := fe_mul rX fe_fffb4 in
    Some (rX, z, 1)
  else
    let! y := fe_add w x in
    let! nz := fe_isnonzero y in
    let! _ := cassert (nz =? 0) in
    let! rX := fe_mul rX fe_fffb3 in
    Some (rX, z, 1).

(** From [fe_divpowm1] to [setsign]. *)
Definition fromfe_root (u v w x : fe) : option (fe * fe * Z) :=
  let! rX := fe_divpowm1 w x in
  let! y := fe_sq rX in
  let! x := fe_mul y x in
  let! y := fe_sub w x in
  let z := fe_copy fe_ma in
  let! nz := fe_isnonzero y in
  if nz =? 0 then
    let! rX := fe_mul rX fe_fffb2 in
    fromfe_square u v rX z
  else
    let! y := fe_add w x in
    let! nz := fe_isnonzero y in
    if nz =? 0 then
      let! rX := fe_mul rX fe_fffb1 in
      fromfe_square u v rX z
    else fromfe_negative w x rX z.

(** [setsign] *)
Definition fromfe_sign (rX : fe) (sign : Z) : option fe :=
  let! neg := fe_isnegative rX in
  if neg =? sign then Some rX
  else
    let! nz := fe_isnonzero rX in
    let! _ := cassert (negb (nz =? 0)) in
    fe_neg rX.

(** The assertion of the debug build: the result is on the curve. *)
Definition fromfe_check (rX rY rZ : fe) : option unit :=
  let! check_iz := fe_invert rZ in
  let! check_x := fe_mul rX check_iz in
  let! check_y := fe_mul rY check_iz in
  let! check_x := fe_sq check_x in
  let! check_y := fe_sq check_y in
  let! check_v := fe_mul check_x check_y in
  let! check_v := fe_mul fe_d check_v in
  let! check_v := fe_add check_v check_x in
  let! check_v := fe_sub check_v check_y in
  let! check_v := fe_add check_v fe_1 in
  let! nz := fe_isnonzero check_v in
  cassert (nz =? 0).

Definition ge_fromfe_frombytes_vartime (s : list Z) : option ge_p2 :=
  let! h := fe_load (fun x => x) s in
  let! u := fe_load_carries h in
  let! v := fe_sq2 u in
  let! w := fe_add v fe_1 in
  let! x := fe_sq w in
  let! y := fe_mul fe_ma2 v in
  let! x := fe_add x y in
  let! '(rX, z, sign) := fromfe_root u v w x in
  let! rX := fromfe_sign rX sign in
  let! rZ := fe_add z w in
  let! rY := fe_sub z w in
  let! rX := fe_mul rX rZ in
  let! _ := fromfe_check rX rY rZ in
  Some (P2 rX rY rZ).

(** ** Specification *)

#[local] Open Scope Zmod_scope.
#[local] Notation "a / b" := (Zmod.mdiv a b) : Zmod_scope.

(** The coefficient A of the Montgomery form. *)
Definition mA : F := Zmod.of_Z p25519 486662.

Definition hv (u : F) : F := (1 + 1) * (u * u).
Definition hw (u : F) : F := hv u + 1.
Definition hx (u : F) : F := hw u * hw u - mA * mA * hv u.

(** The point of [u]: y = (z - w) / (z + w) and x of the given parity, where z is -2 A u^2
    and x even when w / (w^2 - 2 A^2 u^2) is a square, and z is -A and x odd when it is not. *)
Inductive hash_point (u : F) : point -> Prop :=
| hash_square (s x y : F) :
    s * s * hx u = hw u -> on_curve (x, y) ->
    y * (- mA * hv u + hw u) = - mA * hv u - hw u -> (Zmod.to_Z x mod 2 = 0)%Z ->
    hash_point u (x, y)
| hash_nonsquare (x y : F) :
    (forall s, s * s * hx u <> hw u) -> on_curve (x, y) ->
    y * (- mA + hw u) = - mA - hw u -> (Zmod.to_Z x mod 2 = 1)%Z ->
    hash_point u (x, y).

(** ** The constants *)

Ltac const_eq := apply of_Z_eq; vm_compute; reflexivity.

Lemma fe_ma_spec : fe_F fe_ma = - mA.
Proof. unfold fe_F, mA. rewrite <- Zmod.of_Z_opp. const_eq. Qed.

Lemma fe_ma2_spec : fe_F fe_ma2 = - (mA * mA).
Proof. unfold fe_F, mA. rewrite <- Zmod.of_Z_mul, <- Zmod.of_Z_opp. const_eq. Qed.

Definition aa2 : F := mA * (mA + (1 + 1)).

Lemma fffb1_spec : fe_F fe_fffb1 * fe_F fe_fffb1 = - ((1 + 1) * aa2).
Proof. unfold aa2, fe_F, mA, Zmod.one. rewrite <- !Zmod.of_Z_add, <- !Zmod.of_Z_mul, <- Zmod.of_Z_opp. const_eq. Qed.

Lemma fffb2_spec : fe_F fe_fffb2 * fe_F fe_fffb2 = (1 + 1) * aa2.
Proof. unfold aa2, fe_F, mA, Zmod.one. rewrite <- !Zmod.of_Z_add, <- !Zmod.of_Z_mul. const_eq. Qed.

Lemma fffb3_spec : fe_F fe_fffb3 * fe_F fe_fffb3 = - (sqrtm1 * aa2).
Proof. unfold sqrtm1, aa2, fe_F, mA, Zmod.one. rewrite <- !Zmod.of_Z_add, <- !Zmod.of_Z_mul, <- Zmod.of_Z_opp. const_eq. Qed.

Lemma fffb4_spec : fe_F fe_fffb4 * fe_F fe_fffb4 = sqrtm1 * aa2.
Proof. unfold sqrtm1, aa2, fe_F, mA, Zmod.one. rewrite <- !Zmod.of_Z_add, <- !Zmod.of_Z_mul. const_eq. Qed.

(** d = -(A - 2) / (A + 2): the Edwards and the Montgomery forms are of one curve. *)
Lemma d_montgomery : d * (mA + (1 + 1)) = - (mA - (1 + 1)).
Proof. unfold d, fe_F, mA, Zmod.one. rewrite <- !Zmod.of_Z_add, <- Zmod.of_Z_mul, <- Zmod.of_Z_sub, <- Zmod.of_Z_opp. const_eq. Qed.

Lemma of_Z_neq_0 z : (z mod p25519 =? 0)%Z = false -> Zmod.of_Z p25519 z <> 0.
Proof.
  intros H E. apply Z.eqb_neq in H. apply H. rewrite <- Zmod.to_Z_of_Z, E. apply Zmod.to_Z_0.
Qed.

Lemma mA_neq_0 : mA <> 0.
Proof. apply of_Z_neq_0. reflexivity. Qed.

Lemma mA2_neq_0 : mA + (1 + 1) <> 0.
Proof.
  unfold mA, Zmod.one. rewrite <- !Zmod.of_Z_add. apply of_Z_neq_0. vm_compute. reflexivity.
Qed.

Lemma four_neq_0 : ((1 + 1) * (1 + 1) : F) <> 0.
Proof. apply mul_neq_0; apply two_neq_0. Qed.

Lemma two_euler : Zmod.pow (1 + 1 : F) half = - (1).
Proof.
  unfold Zmod.one. pose proof half_pos. rewrite <- Zmod.of_Z_add, <- Zmod.of_Z_pow by lia.
  rewrite <- Zmod.of_Z_mod, <- zpowmod_spec by (exact half_pos || (vm_compute; discriminate)).
  rewrite <- Zmod.of_Z_opp. apply of_Z_eq. vm_compute. reflexivity.
Qed.

Lemma fe_ma_bound : fe_101 fe_ma.
Proof. cbn. lia. Qed.
Lemma fe_ma2_bound : fe_101 fe_ma2.
Proof. cbn. lia. Qed.
Lemma fffb_bounds : fe_101 fe_fffb1 /\ fe_101 fe_fffb2 /\ fe_101 fe_fffb3 /\ fe_101 fe_fffb4.
Proof. cbn. lia. Qed.

#[local] Opaque fe_F d sqrtm1 mA Zmod.mul Zmod.add Zmod.sub Zmod.opp Zmod.mdiv Zmod.one Zmod.zero Zmod.pow Zmod.to_Z.

(** ** The denominators *)

Lemma hw_neq_0 u : hw u <> 0.
Proof.
  unfold hw, hv. intros H.
  assert ((1 + 1) * (u * u) = sqrtm1 * sqrtm1) as E.
  { rewrite sqrtm1_spec. transitivity ((1 + 1) * (u * u) + 1 - 1); [ring | rewrite H; ring]. }
  apply (euler_nonsquare _ _ _ two_euler) in E. subst u. apply one_neq_0. rewrite <- H. ring.
Qed.

Lemma hx_neq_0 u : hx u <> 0.
Proof.
  unfold hx. intros H. apply sub_0_eq in H.
  assert ((1 + 1) * (mA * u * (mA * u)) = hw u * hw u) as E by (rewrite H; unfold hv; ring).
  apply (euler_nonsquare _ _ _ two_euler), mul_0_iff in E. destruct E as [E|E]; [now apply mA_neq_0|].
  subst u. apply one_neq_0. rewrite <- (sub_0_eq (hw 0 * hw 0) 1); [|unfold hw, hv; ring]. rewrite H. unfold hv. ring.
Qed.

(** The two values of z: with z^2 + A z w + w^2 = w^2 - A^2 v, a root of (A + 2) (-z) w / x
    gives a point of the curve, and z + w is not zero. *)
Section Point.
  Variables w z X x : F.
  Hypothesis Hw : w <> 0.
  Hypothesis HX : z * z + mA * z * w + w * w = X.
  Hypothesis Hx : x * x * X = - ((mA + (1 + 1)) * z * w).

Lemma point_identity :
    x * x * ((z + w) * (z + w) + d * ((z - w) * (z - w))) = - ((1 + 1) * (1 + 1) * z * w).
Proof.
    apply (v_cancel (mA + (1 + 1))); [apply mA2_neq_0|].
    transitivity (x * x * ((mA + (1 + 1)) * ((z + w) * (z + w)) + d * (mA + (1 + 1)) * ((z - w) * (z - w)))); [ring|].
    rewrite d_montgomery.
    transitivity ((1 + 1) * (1 + 1) * (x * x * (z * z + mA * z * w + w * w))); [ring|].
    rewrite HX, Hx. ring.
Qed.

Lemma point_Z_neq_0 : z + w <> 0.
Proof.
    intros E. assert (z = - w) as Ez by (transitivity (z + w - w); [ring | rewrite E; ring]).
    pose proof point_identity as H. rewrite Ez in H.
    assert (d * (x * x) = 1 * 1) as Hd.
    { apply (v_cancel ((1 + 1) * (1 + 1) * (w * w))); [apply mul_neq_0; [apply four_neq_0 | now apply mul_neq_0]|].
      transitivity (x * x * ((- w + w) * (- w + w) + d * ((- w - w) * (- w - w)))); [ring|]. rewrite H. ring. }
    apply d_nonsquare in Hd. rewrite Hd in H. apply Hw.
    assert ((1 + 1) * (1 + 1) * (w * w) = 0) as E0.
    { transitivity (- ((1 + 1) * (1 + 1) * - w * w)); [ring | rewrite <- H; ring]. }
    apply mul_0_iff in E0 as [E0|E0]; [now apply four_neq_0 in E0|]. apply mul_0_iff in E0. tauto.
Qed.

Lemma point_on_curve : on_curve (x, (z - w) / (z + w)).
Proof.
    pose proof point_Z_neq_0 as NZ. pose proof point_identity as H. unfold on_curve.
    apply (v_cancel ((z + w) * (z + w))); [now apply mul_neq_0|].
    transitivity ((z - w) * (z - w) - x * x * ((z + w) * (z + w))); [field; exact NZ|].
    transitivity ((z + w) * (z + w) + d * (x * x) * ((z - w) * (z - w))); [|field; exact NZ].
    transitivity ((z - w) * (z - w) + d * (x * x) * ((z - w) * (z - w)) - x * x * ((z + w) * (z + w) + d * ((z - w) * (z - w)))); [ring|].
    rewrite H. ring.
Qed.
End Point.

(** ** The root *)

(** The candidate is a root of w/x up to a fourth root of unity. *)
Lemma candidate_fourth (w X : F) :
  w <> 0 -> X <> 0 ->
  let q := X * (root_candidate w X * root_candidate w X) in q * q = w * w \/ q * q = - (w * w).
Proof.
  intros Hw HX. cbv zeta. rewrite candidate_sq.
  set (t := w * Zmod.pow X 7). set (k := Zmod.pow t quarter).
  assert (t <> 0) as Ht by (unfold t; rewrite pow_7; repeat apply mul_neq_0; assumption).
  assert (k * k * (k * k) = 1) as H4.
  { unfold k. rewrite <- !Zmod.pow_add_r_nonneg by (vm_compute; discriminate).
    change (quarter + quarter + (quarter + quarter))%Z with (Z.pred p25519).
    apply Zmod.fermat_nz; [exact Ht | apply p25519_prime]. }
  assert ((k * k - 1) * (k * k + 1) = 0) as Hf by (transitivity (k * k * (k * k) - 1); [ring | rewrite H4; ring]).
  apply mul_0_iff in Hf as [E|E].
  - left. apply sub_0_eq in E. transitivity (w * w * (k * k)); [ring | rewrite E; ring].
  - right. transitivity (w * w * (k * k + 1) - w * w); [ring | rewrite E; ring].
Qed.

(** What the code has at [setsign]. *)
Definition root_ok (U : F) (r : fe * fe * Z) : Prop :=
  let '(rX, z, sign) := r in
  fe_101 rX /\ fe_101 z /\
  fe_F rX * fe_F rX * hx U = - ((mA + (1 + 1)) * fe_F z * hw U) /\
  ((sign = 0%Z /\ (exists s, s * s * hx U = hw U) /\ fe_F z = - mA * hv U) \/
   (sign = 1%Z /\ (forall s, s * s * hx U <> hw U) /\ fe_F z = - mA)).

Lemma isnonzero_cases {A} y (K : Z -> option A) Q :
  fe_165 y ->
  (fe_F y = 0 -> returns (K 0%Z) Q) -> (fe_F y <> 0 -> returns (K 1%Z) Q) ->
  returns (let! nz := fe_isnonzero y in K nz) Q.
Proof.
  intros B H0 H1. rewrite fe_isnonzero_spec by exact B. cbn [bind].
  destruct (Zmod.eqb_spec (fe_F y) 0); auto.
Qed.

Lemma fromfe_square_spec u v rX z U :
  fe_101 u -> fe_101 v -> fe_101 rX -> fe_101 z ->
  U = fe_F u -> fe_F v = hv U -> fe_F z = - mA ->
  fe_F rX * fe_F rX * hx U = (1 + 1) * aa2 * hw U -> (exists s, s * s * hx U = hw U) ->
  returns (fromfe_square u v rX z) (root_ok U).
Proof.
  intros Bu Bv BX Bz EU Ev Ez Hr Hs. unfold fromfe_square. fe_unfold. fe_exec. cbn [returns].
  unfold root_ok. split; [exact B|]. split; [exact B0|]. rewrite E0, E, Ez, Ev, <- EU. split.
  - transitivity (fe_F rX * fe_F rX * hx U * (U * U)); [ring|]. rewrite Hr. unfold hv, aa2. ring.
  - left. auto.
Qed.

Lemma fromfe_root_spec u v w x U :
  fe_101 u -> fe_101 v -> fe_le 33889977 16944988 w -> fe_le 67779952 33889976 x ->
  U = fe_F u -> fe_F v = hv U -> fe_F w = hw U -> fe_F x = hx U ->
  returns (fromfe_root u v w x) (root_ok U).
Proof.
  intros Bu Bv Bw Bx EU Ev Ew Ex. unfold fromfe_root.
  eapply returns_bind; [apply fe_divpowm1_spec; fe_weak | cbv beta; intros c [Ec Bc]].
  fold (root_candidate (fe_F w) (fe_F x)) in Ec. rewrite Ew, Ex in Ec.
  pose proof (candidate_root (hw U) (hx U)) as R. cbv zeta in R. rewrite <- Ec in R.
  pose proof (candidate_fourth (hw U) (hx U) (hw_neq_0 U) (hx_neq_0 U)) as R4. cbv zeta in R4. rewrite <- Ec in R4.
  clear Ec. pose proof fffb_bounds as (B1 & B2 & B3 & B4). pose proof fe_ma_bound as Bm.
  pose proof fe_sqrtm1_bound as Bi. rewrite fe_copy_id. fe_unfold. do 3 fe_step.
  set (q := hx U * (fe_F c * fe_F c)) in *.
  assert (fe_F h0 = q) as Eq by (rewrite E0, E, Ex; unfold q; ring).
  rewrite Ew, Eq in E1. clear E E0.
  apply isnonzero_cases; [fe_weak | intros N; rewrite E1 in N; apply sub_0_eq in N | intros N; rewrite E1 in N];
    cbn [Z.eqb].
  { fe_step. eapply fromfe_square_spec; [eassumption.. | apply fe_ma_spec | |].
    - rewrite E. transitivity (q * (fe_F fe_fffb2 * fe_F fe_fffb2)); [unfold q; ring|].
      rewrite fffb2_spec, <- N. ring.
    - exists (fe_F c). rewrite N. unfold q. ring. }
  fe_step. rewrite Ew, Eq in E.
  apply isnonzero_cases; [fe_weak | intros N'; rewrite E in N' | intros N'; rewrite E in N']; cbn [Z.eqb].
  { assert (q = - hw U) as Hq by (transitivity (hw U + q - hw U); [ring | rewrite N'; ring]).
    fe_step. eapply fromfe_square_spec; [eassumption.. | apply fe_ma_spec | |].
    - rewrite E0. transitivity (q * (fe_F fe_fffb1 * fe_F fe_fffb1)); [unfold q; ring|].
      rewrite fffb1_spec, Hq. ring.
    - exists (fe_F c * sqrtm1). transitivity (q * (sqrtm1 * sqrtm1)); [unfold q; ring|].
      rewrite sqrtm1_spec, Hq. ring. }
  assert (forall s, s * s * hx U <> hw U) as NS.
  { intros s Hs. destruct (R s) as [K|K]; [rewrite <- Hs; ring | |].
    - apply N. rewrite K. ring.
    - apply N'. rewrite K. ring. }
  assert (q * q = - (hw U * hw U)) as Hqq.
  { destruct R4 as [K|K]; [exfalso|exact K]. destruct (square_roots q (hw U) K) as [K'|K'].
    - apply N. rewrite K'. ring.
    - apply N'. rewrite K'. ring. }
  unfold fromfe_negative. do 2 fe_step. rewrite Eq, fe_F_sqrtm1 in E0. rewrite Ew, E0 in E2.
  apply isnonzero_cases; [fe_weak | intros M; rewrite E2 in M; apply sub_0_eq in M | intros M; rewrite E2 in M];
    cbn [Z.eqb].
  - fe_step. cbn [returns]. unfold root_ok. split; [eassumption|]. split; [exact Bm|].
    rewrite fe_ma_spec. split; [|right; auto]. rewrite E3.
    transitivity (q * (fe_F fe_fffb4 * fe_F fe_fffb4)); [unfold q; ring|].
    rewrite fffb4_spec. transitivity (q * sqrtm1 * aa2); [ring|]. rewrite <- M. unfold aa2. ring.
  - fe_step. rewrite Ew, E0 in E3.
    assert (hw U + q * sqrtm1 = 0) as M'.
    { assert ((hw U - q * sqrtm1) * (hw U + q * sqrtm1) = 0) as K.
      { transitivity (hw U * hw U - q * q * (sqrtm1 * sqrtm1)); [ring|]. rewrite sqrtm1_spec, Hqq. ring. }
      apply mul_0_iff in K. tauto. }
    apply isnonzero_cases; [fe_weak | intros _ | intros K; rewrite E3 in K; contradiction].
    cbn [Z.eqb cassert bind]. fe_step. cbn [returns]. unfold root_ok. split; [eassumption|]. split; [exact Bm|].
    rewrite fe_ma_spec. split; [|right; auto]. rewrite E4.
    transitivity (q * (fe_F fe_fffb3 * fe_F fe_fffb3)); [unfold q; ring|].
    rewrite fffb3_spec. transitivity (hw U * aa2 - (hw U + q * sqrtm1) * aa2); [ring|]. rewrite M'. unfold aa2. ring.
Qed.

(** ** The sign *)

Lemma fromfe_sign_spec rX sign :
  fe_101 rX -> (sign = 0 \/ sign = 1)%Z -> (fe_F rX = 0 -> sign = 0%Z) ->
  returns (fromfe_sign rX sign) (fun r =>
    fe_101 r /\ fe_F r * fe_F r = fe_F rX * fe_F rX /\ (Zmod.to_Z (fe_F r) mod 2 = sign)%Z).
Proof.
  intros B Hs H0. unfold fromfe_sign. pose proof B as B'. fe_unfold.
  rewrite fe_isnegative_spec by fe_weak. cbn [bind].
  pose proof (Z.mod_pos_bound (Zmod.to_Z (fe_F rX)) 2 ltac:(lia)).
  destruct (Z.eqb_spec (Zmod.to_Z (fe_F rX) mod 2) sign) as [N|N]; [cbn; auto|].
  apply isnonzero_cases; [fe_weak | intros E; exfalso | intros E].
  - specialize (H0 E). rewrite E, Zmod.to_Z_0 in N. apply N. now rewrite H0.
  - cbn [Z.eqb negb cassert bind].
    eapply returns_weaken; [apply (fe_neg_spec _ _ rX B); reflexivity | cbv beta; intros r [Er Br]].
    split; [fe_weak|]. rewrite Er. split; [ring|]. rewrite parity_opp by exact E. lia.
Qed.

(** ** Coordinates with wider limbs

    [r->Y] and [r->Z] are sums, outside the bounds that [ge_p2] has elsewhere; the
    doubling formula has room for them. *)

Definition p2_loose (p : ge_p2) (P : point) : Prop :=
  let '(x, y) := P in
  let '(P2 X Y Z) := p in
  on_curve P /\ (fe_101 X /\ fe_220 Y /\ fe_220 Z) /\
  fe_F Z <> 0 /\ fe_F X = x * fe_F Z /\ fe_F Y = y * fe_F Z.

Lemma ge_p2_dbl_loose_spec p P : p2_loose p P -> returns (ge_p2_dbl p) (fun r => r ~> ed_add P P).
Proof.
  destruct p as [X Y Z], P as [x y]. intros (Hc & (BX & BY & BZ) & NZ & EX & EY).
  unfold ge_p2_dbl. cbn [p2_X p2_Y p2_Z]. fe_unfold. fe_exec. cbn [returns].
  assert (y * y - x * x = 1 + d * x * x * y * y) as Hc' by exact Hc.
  apply (repr_sum _ _ _ _ (x, y) (x, y) (fe_F Z * fe_F Z)); trivial.
  - now apply mul_neq_0.
  - repeat split; fe_weak.
  - fe_rewrite. ring.
  - fe_rewrite. ring.
  - fe_rewrite. rewrite <- Hc'. ring.
  - fe_rewrite. replace (1 - d * x * x * y * y) with (1 + 1 - (1 + d * x * x * y * y)) by ring.
    rewrite <- Hc'. ring.
Qed.

Lemma ge_mul8_loose_spec p P : p2_loose p P -> returns (ge_mul8 p) (fun r => r ~> ed_mul 8 P).
Proof.
  intros H. assert (on_curve P) as Hc by (destruct p, P; apply H). unfold ge_mul8.
  eapply returns_bind; [exact (ge_p2_dbl_loose_spec p P H) | cbv beta; intros r Hr].
  ge_run. eapply returns_weaken; [eauto 2 with ge | cbv beta; intros r3 H5].
  replace (ed_mul 8 P) with (ed_add (ed_add (ed_add P P) (ed_add P P)) (ed_add (ed_add P P) (ed_add P P))); [exact H5|].
  rewrite <- (ed_mul_1 P) at 1 2 3 4 5 6 7 8. now rewrite <- !ed_mul_add.
Qed.

(** ** The check of the debug build passes *)

Lemma fromfe_check_spec rX rY rZ P :
  p2_loose (P2 rX rY rZ) P -> fromfe_check rX rY rZ = Some tt.
Proof.
  destruct P as [x y]. intros (Hc & (BX & BY & BZ) & NZ & EX & EY). apply returns_eq. unfold fromfe_check.
  pose proof fe_d_bound as Bd. assert (fe_le 1 0 fe_1) as B1 by (cbn; lia). fe_unfold.
  eapply returns_bind; [apply fe_invert_spec; fe_weak | cbv beta; intros iz [Ei Bi]; fe_unfold].
  assert (fe_F rZ * fe_F iz = 1) as Hi.
  { rewrite Ei. transitivity (fe_F rZ * Zmod.inv (fe_F rZ)); [reflexivity|].
    transitivity (fe_F rZ / fe_F rZ); [reflexivity | field; exact NZ]. }
  do 9 fe_step. rewrite fe_F_1 in E7. rewrite fe_F_d in E4.
  assert (fe_F h = x) as Hx by (rewrite E, EX; transitivity (x * (fe_F rZ * fe_F iz)); [ring | rewrite Hi; ring]).
  assert (fe_F h0 = y) as Hy by (rewrite E0, EY; transitivity (y * (fe_F rZ * fe_F iz)); [ring | rewrite Hi; ring]).
  apply isnonzero_cases; [fe_weak | reflexivity | intros N; exfalso; apply N].
  rewrite E7, E6, E5, E4, E3, E2, E1, Hx, Hy.
  assert (y * y - x * x = 1 + d * x * x * y * y) as Hc' by exact Hc.
  transitivity (1 + d * x * x * y * y - (y * y - x * x)); [ring | rewrite Hc'; ring].
Qed.

(** ** The whole function *)

Lemma root_z_eq U rX z sign :
  root_ok U (rX, z, sign) -> fe_F z * fe_F z + mA * fe_F z * hw U + hw U * hw U = hx U.
Proof.
  intros (_ & _ & _ & [(_ & _ & ->) | (_ & _ & ->)]); unfold hx, hw; ring.
Qed.

Lemma root_sign U rX z sign :
  root_ok U (rX, z, sign) -> (sign = 0 \/ sign = 1)%Z /\ (fe_F rX = 0 -> sign = 0%Z).
Proof.
  intros (_ & _ & Hr & C). split; [tauto|]. intros E. destruct C as [C|(_ & _ & Ez)]; [tauto|].
  exfalso. rewrite E, Ez in Hr.
  assert ((mA + (1 + 1)) * mA * hw U = 0) as H by (transitivity (0 * 0 * hx U); [rewrite Hr; ring | ring]).
  apply mul_0_iff in H as [H|H]; [|now apply hw_neq_0 in H].
  apply mul_0_iff in H as [H|H]; [now apply mA2_neq_0 in H | now apply mA_neq_0 in H].
Qed.

Lemma ge_fromfe_spec s :
  bytes s -> length s = 32%nat ->
  returns (ge_fromfe_frombytes_vartime s) (fun r =>
    exists P, p2_loose r P /\ hash_point (Zmod.of_Z p25519 (le_val s)) P).
Proof.
  intros Hs Hl. unfold ge_fromfe_frombytes_vartime.
  eapply returns_bind; [now apply fe_load_full_spec | cbv beta; intros h [Ev0 B0]].
  eapply returns_bind; [now apply fe_load_carries_spec | cbv beta; intros u [EU Bu]].
  rewrite Ev0 in EU. set (U := Zmod.of_Z p25519 (le_val s)) in *. symmetry in EU. clear h Ev0 B0.
  pose proof fe_ma2_bound as Bm2. assert (fe_le 1 0 fe_1) as B1 by (cbn; lia). fe_unfold. do 5 fe_step.
  rewrite fe_F_1 in E0. rewrite fe_ma2_spec in E2.
  assert (fe_F h = hv U) as Hv by (rewrite E, <- EU; unfold hv; ring).
  assert (fe_F h0 = hw U) as Hw by (rewrite E0, Hv; reflexivity).
  assert (fe_F h3 = hx U) as Hx by (rewrite E3, E1, E2, Hw, Hv; unfold hx; ring).
  eapply returns_bind; [apply (fromfe_root_spec u h h0 h3 U); trivial; fe_weak|].
  cbv beta. intros [[rX z] sign] HR. pose proof HR as (BX & Bz & Hr & C).
  destruct (root_sign _ _ _ _ HR) as [Hs01 Hs0]. pose proof (root_z_eq _ _ _ _ HR) as HX.
  eapply returns_bind; [now apply fromfe_sign_spec | cbv beta; intros rX' (BX' & Hsq & Hpar)].
  rewrite <- Hsq in Hr. pose proof (hw_neq_0 U) as NW.
  pose proof (point_Z_neq_0 (hw U) (fe_F z) (hx U) (fe_F rX') NW HX Hr) as NZ.
  pose proof (point_on_curve (hw U) (fe_F z) (hx U) (fe_F rX') NW HX Hr) as HC.
  fe_unfold. do 3 fe_step. rewrite Hw in E4, E5.
  assert (p2_loose (P2 h6 h5 h4) (fe_F rX', (fe_F z - hw U) / (fe_F z + hw U))) as HL.
  { split; [exact HC|]. split; [refine (conj _ (conj _ _)); fe_weak|]. rewrite E6, E5, E4.
    split; [exact NZ|]. split; [ring | field; exact NZ]. }
  rewrite (fromfe_check_spec _ _ _ _ HL). cbn [bind returns]. eexists. split; [exact HL|].
  destruct C as [(-> & [r Hsr] & Ez) | (-> & Hns & Ez)].
  - apply (hash_square U r); trivial. rewrite <- Ez. field. exact NZ.
  - apply hash_nonsquare; trivial. rewrite <- Ez. field. exact NZ.
Qed.

(** The specification determines the point. *)
Lemma hash_point_unique u P Q : hash_point u P -> hash_point u Q -> P = Q.
Proof.
  assert (forall z, z * z + mA * z * hw u + hw u * hw u = hx u ->
    forall x y x' y' b, on_curve (x, y) -> on_curve (x', y') ->
    y * (z + hw u) = z - hw u -> y' * (z + hw u) = z - hw u ->
    (Zmod.to_Z x mod 2 = b)%Z -> (Zmod.to_Z x' mod 2 = b)%Z -> (x, y) = (x', y')) as K.
  { intros z Hz x y x' y' b Hc Hc' Ey Ey' Hb Hb'.
    assert (z + hw u <> 0) as NZ.
    { intros E. rewrite E in Ey. apply (hw_neq_0 u).
      assert ((1 + 1) * hw u = 0) as E2 by (transitivity (z + hw u - (z - hw u)); [ring | rewrite E, <- Ey; ring]).
      apply mul_0_iff in E2 as [E2|E2]; [now apply two_neq_0 in E2 | exact E2]. }
    assert (y = y') as <-.
    { apply (v_cancel (z + hw u) _ _ NZ). transitivity (y * (z + hw u)); [ring | rewrite Ey, <- Ey'; ring]. }
    apply point_code_inj; trivial. unfold point_code. now rewrite Hb, Hb'. }
  intros [s x y Hs Hc Hy Hp | x y Hs Hc Hy Hp] [s' x' y' Hs' Hc' Hy' Hp' | x' y' Hs' Hc' Hy' Hp'].
  - apply (K (- mA * hv u)) with (b := 0%Z); trivial. unfold hx, hw. ring.
  - now apply Hs' in Hs.
  - now apply Hs in Hs'.
  - apply (K (- mA)) with (b := 1%Z); trivial. unfold hx, hw. ring.
Qed.

(** ** Claims *)

(** [ge_fromfe_frombytes_vartime] maps every 32-byte string to a point of the curve: all
    its assertions hold (those of the debug build too), no operation overflows although two
    coordinates leave the bounds that other [ge_p2] values have, and the point is the one
    that the map on the field assigns to the 256-bit value of the string, which determines
    it. Multiplying by 8 and converting, as the hash to a point does, gives 8 P. *)
Theorem ge_fromfe_frombytes_correct s :
  bytes s -> length s = 32%nat ->
  exists r P h, ge_fromfe_frombytes_vartime s = Some r /\ p2_loose r P /\
    hash_point (Zmod.of_Z p25519 (le_val s)) P /\
    (forall Q, hash_point (Zmod.of_Z p25519 (le_val s)) Q -> Q = P) /\
    (let! t := ge_mul8 r in ge_p1p1_to_p3 t) = Some h /\ h ~> ed_mul 8 P.
Proof.
  intros Hs Hl. pose proof (ge_fromfe_spec s Hs Hl) as H. apply returns_some in H.
  destruct H as (r & Er & P & HL & HP).
  assert (returns (let! t := ge_mul8 r in ge_p1p1_to_p3 t) (fun h => h ~> ed_mul 8 P)) as H8.
  { eapply returns_bind; [exact (ge_mul8_loose_spec r P HL) | cbv beta; intros t Ht]. now apply ge_p1p1_to_p3_spec. }
  apply returns_some in H8. destruct H8 as (h & Eh & Hh). exists r, P, h.
  refine (conj Er (conj HL (conj HP (conj _ (conj Eh Hh))))). intros Q HQ. now apply (hash_point_unique _ Q P HQ).
Qed.

Lemma ge_fromfe_frombytes_correct_witness :
  exists r P h, ge_fromfe_frombytes_vartime (repeat 9 32) = Some r /\ p2_loose r P /\
    hash_point (Zmod.of_Z p25519 (le_val (repeat 9 32))) P /\
    (forall Q, hash_point (Zmod.of_Z p25519 (le_val (repeat 9 32))) Q -> Q = P) /\
    (let! t := ge_mul8 r in ge_p1p1_to_p3 t) = Some h /\ h ~> ed_mul 8 P.
Proof.
  exact (ge_fromfe_frombytes_correct (repeat 9 32)
    ltac:(apply Forall_forall; intros b Hb%repeat_spec; subst; unfold is_byte; lia) eq_refl).
Defined.
