(* ===== verification/Order.v ===== *)
(** * The order of the group

    The constant that the scalar functions of crypto-ops.c reduce by is a prime, it is the
    order of the base point, and 8 times it annihilates every point of the curve. The last
    part is by counting: a point outside the subgroup generated by the base point and a
    point of order 8 would give more points than there are encodings. Multiples of points
    and the constants are evaluated with [BigZ]. *)

From Stdlib Require Import ZArith Lia List Bool Zmod Field.
From Bignums Require Import BigZ.
From S2P Require Import Prelude Bytes Fe FeMul Primes ScReduce Curve Ge GeBytes GeScalar GeTable GeBase GeDouble.
Import ListNotations.

#[local] Open Scope Z_scope.

(** ** The order is prime *)

Lemma ell_prime : Z.prime ell.
Proof.
  assert (Z.prime 1257559732178653) by prime_pock 2 [1224481; 531581].
  assert (Z.prime 4434155615661930479) by prime_pock 2 [1257559732178653].
  assert (Z.prime 172054593956031949258510691) by prime_pock 2 [4434155615661930479].
  assert (Z.prime 19757330305831588566944191468367130476339) by prime_pock 2 [172054593956031949258510691].
  assert (Z.prime 276602624281642239937218680557139826668747)
    by prime_pock 2 [19757330305831588566944191468367130476339].
  prime_pock 2 [276602624281642239937218680557139826668747].
Qed.

(** ** Multiples by evaluation *)

Definition badd (q1 q2 : BigZ.t * BigZ.t * BigZ.t) : BigZ.t * BigZ.t * BigZ.t :=
  (let '(X1, Y1, Z1) := q1 in let '(X2, Y2, Z2) := q2 in
   let A := mulm Z1 Z2 in
   let C := mulm X1 X2 in let D := mulm Y1 Y2 in
   let E := mulm bd (mulm C D) in
   let B := mulm A A in
   let M := mulm X1 Y2 + mulm Y1 X2 in
   (mulm A (mulm (B - E) M), mulm A (mulm (B + E) (D + C)), mulm (B - E) (B + E)))%bigZ.

Fixpoint bmul (k : positive) (q : BigZ.t * BigZ.t * BigZ.t) : BigZ.t * BigZ.t * BigZ.t :=
  match k with
  | xH => q
  | xO k => bdbl (bmul k q)
  | xI k => badd (bdbl (bmul k q)) q
  end.

Definition is_zero (q : BigZ.t * BigZ.t * BigZ.t) : bool :=
  let '(X, Y, Z) := q in eqm X 0%bigZ && eqm Y Z.

Section Evaluation.
#[local] Open Scope Zmod_scope.
#[local] Notation "a / b" := (Zmod.mdiv a b) : Zmod_scope.
#[local] Opaque bF d Zmod.mul Zmod.add Zmod.sub Zmod.opp Zmod.mdiv Zmod.one Zmod.zero.

Lemma badd_spec q1 q2 P Q : proj q1 P -> proj q2 Q -> proj (badd q1 q2) (ed_add P Q).
Proof.
  destruct q1 as [[X1 Y1] Z1], q2 as [[X2 Y2] Z2], P as [x1 y1], Q as [x2 y2].
  intros (H1 & N1 & EX1 & EY1) (H2 & N2 & EX2 & EY2). unfold badd, proj.
  destruct (complete _ _ _ _ H1 H2) as [D1 D2]. b_rewrite. rewrite EX1, EY1, EX2, EY2.
  set (z1 := bF Z1) in *. set (z2 := bF Z2) in *. clearbody z1 z2.
  split; [now apply (ed_add_on_curve (x1, y1) (x2, y2))|].
  set (t := d * x1 * x2 * y1 * y2) in *. set (z := z1 * z2) in *.
  assert (z <> 0) as Nz by now apply mul_neq_0.
  replace (z * z - d * (x1 * z1 * (x2 * z2) * (y1 * z1 * (y2 * z2)))) with (z * z * (1 - t)) by (unfold t, z; ring).
  replace (z * z + d * (x1 * z1 * (x2 * z2) * (y1 * z1 * (y2 * z2)))) with (z * z * (1 + t)) by (unfold t, z; ring).
  replace (x1 * z1 * (y2 * z2) + y1 * z1 * (x2 * z2)) with ((x1 * y2 + y1 * x2) * z) by (unfold z; ring).
  replace (y1 * z1 * (y2 * z2) + x1 * z1 * (x2 * z2)) with ((y1 * y2 + x1 * x2) * z) by (unfold z; ring).
  split; [repeat apply mul_neq_0; trivial|].
  unfold ed_add. fold t. clearbody t z. split; field; trivial.
Qed.

Lemma proj_on_curve q P : proj q P -> on_curve P.
Proof. destruct q as [[X Y] Z], P as [x y]. now intros [H _]. Qed.

Lemma bmul_spec k q P : proj q P -> proj (bmul k q) (ed_mul (Z.pos k) P).
Proof.
  intros H. pose proof (proj_on_curve q P H) as Hc. induction k as [k IH|k IH|]; cbn [bmul].
  - replace (Z.pos k~1) with (Z.pos k + Z.pos k + 1)%Z by lia. rewrite !ed_mul_add, ed_mul_1 by exact Hc.
    apply badd_spec; [now apply bdbl_spec | exact H].
  - replace (Z.pos k~0) with (Z.pos k + Z.pos k)%Z by lia. rewrite ed_mul_add by exact Hc. now apply bdbl_spec.
  - now rewrite ed_mul_1.
Qed.

Lemma bF_0 : bF 0%bigZ = 0.
Proof. exact (bF_of_Z 0). Qed.

Lemma eqm_false a b : eqm a b = false -> bF a <> bF b.
Proof.
  unfold eqm. intros H E. apply (f_equal (@Zmod.to_Z p25519)) in E.
  Transparent bF. unfold bF in E. rewrite !Zmod.to_Z_of_Z in E. Opaque bF.
  rewrite BigZ.spec_eqb, BigZ.spec_modulo, BigZ.spec_sub, BigZ.spec_of_Z in H.
  apply Z.eqb_neq in H. apply H. rewrite Zminus_mod, E, Z.sub_diag. reflexivity.
Qed.

Lemma is_zero_spec q P : proj q P -> (is_zero q = true <-> P = ed_0).
Proof.
  destruct q as [[X Y] Z], P as [x y]. intros (_ & NZ & EX & EY). unfold is_zero.
  assert (bF X = 0 /\ bF Y = bF Z <-> (x, y) = ed_0) as <-.
  { rewrite EX, EY. split.
    - intros [H1 H2]. unfold ed_0. f_equal.
      + apply mul_0_iff in H1 as [H1|H1]; [exact H1 | contradiction].
      + transitivity (y * bF Z / bF Z); [field; exact NZ | rewrite H2; field; exact NZ].
    - intros H. unfold ed_0 in H. injection H as -> ->. split; ring. }
  rewrite <- bF_0. rewrite andb_true_iff. split; intros [H1 H2].
  - split; now apply eqm_spec.
  - split; apply not_false_iff_true; intros H; now apply eqm_false in H.
Qed.

(** An affine point with an evaluated multiple. *)
Lemma affine_proj q : on_curve (bP q) -> proj (fst q, snd q, 1%bigZ) (bP q).
Proof.
  destruct q as [x y]. intros H. unfold proj, bP. cbn [fst snd]. rewrite bF_1.
  split; [exact H|]. split; [apply one_neq_0 | split; ring].
Qed.

Lemma multiple_zero k q :
  on_curve (bP q) -> (is_zero (bmul k (fst q, snd q, 1%bigZ)) = true <-> ed_mul (Z.pos k) (bP q) = ed_0).
Proof. intros H. apply is_zero_spec, bmul_spec, affine_proj, H. Qed.
End Evaluation.

(** ** The base point has order [ell] *)

Lemma ell_base : ed_mul ell base_point = ed_0.
Proof.
  change ell with (Z.pos (Z.to_pos ell)). apply multiple_zero; [apply base_point_on_curve|].
  vm_compute. reflexivity.
Qed.

Lemma base_nonzero : base_point <> ed_0.
Proof.
  pose proof (multiple_zero 1 (entry_point (hd ge_precomp_0 ge_base_0)) base_point_on_curve) as H.
  fold base_point in H. rewrite ed_mul_1 in H. intros E. apply H in E. revert E. vm_compute. discriminate.
Qed.

(** A point of order 8. *)
Definition torsion_coords : bpoint :=
  (14399317868200118260347934320527232580618823971194345261214217575416788799818%bigZ,
   55188659117513257062467267217118295137698188065244968500265048394206261417927%bigZ).

Definition torsion : point := bP torsion_coords.

Lemma torsion_on_curve : on_curve torsion.
Proof. apply on_curve_check_spec. vm_compute. reflexivity. Qed.

Lemma torsion_8 : ed_mul 8 torsion = ed_0.
Proof. apply (multiple_zero 8); [apply torsion_on_curve | vm_compute; reflexivity]. Qed.

Lemma torsion_4 : ed_mul 4 torsion <> ed_0.
Proof.
  intros E. apply (multiple_zero 4) in E; [|apply torsion_on_curve]. revert E. vm_compute. discriminate.
Qed.

#[local] Opaque base_point torsion.

(** ** Orders *)

Lemma ed_mul_ed_0 n : ed_mul n ed_0 = ed_0.
Proof. rewrite <- (ed_mul_0 ed_0) at 1. rewrite <- ed_mul_mul by apply ed_0_on_curve. now rewrite Z.mul_0_r. Qed.

(** The multiples that vanish are closed under combinations. *)
Lemma annihilator_comb P m n u v :
  on_curve P -> ed_mul m P = ed_0 -> ed_mul n P = ed_0 -> ed_mul (u * m + v * n) P = ed_0.
Proof.
  intros HP Hm Hn. rewrite ed_mul_add, !ed_mul_mul, Hm, Hn, !ed_mul_ed_0 by exact HP. apply ed_add_0_l.
Qed.

Lemma annihilator_mult P m k : on_curve P -> ed_mul m P = ed_0 -> (m | k) -> ed_mul k P = ed_0.
Proof. intros HP Hm [q ->]. now rewrite ed_mul_mul, Hm, ed_mul_ed_0. Qed.

Lemma annihilator_gcd P m n :
  on_curve P -> ed_mul m P = ed_0 -> ed_mul n P = ed_0 -> ed_mul (Z.gcd m n) P = ed_0.
Proof.
  intros HP Hm Hn. destruct (Z.gcd_bezout m n (Z.gcd m n) eq_refl) as (u & v & <-).
  now apply annihilator_comb.
Qed.

Lemma base_order n : ed_mul n base_point = ed_0 <-> (ell | n).
Proof.
  pose proof base_point_on_curve as HB. split; [|now apply annihilator_mult, ell_base].
  intros H. destruct (Z.eq_dec (n mod ell) 0) as [D|D]; [apply Z.mod_divide; [discriminate | exact D] | exfalso].
  rewrite Z.mod_divide in D by discriminate.
  apply Z.coprime_prime_l in D; [|apply ell_prime].
  pose proof (annihilator_gcd base_point ell n HB ell_base H) as G.
  unfold Z.coprime in D. rewrite D, ed_mul_1 in G. now apply base_nonzero.
Qed.

Lemma torsion_order n : ed_mul n torsion = ed_0 -> (8 | n).
Proof.
  intros H. pose proof torsion_on_curve as HT.
  pose proof (annihilator_gcd torsion n 8 HT H torsion_8) as G.
  pose proof (Z.gcd_divide_r n 8) as Dg. pose proof (Z.gcd_nonneg n 8) as Pg.
  pose proof (Z.gcd_divide_l n 8) as Dn. revert G Dg Pg Dn. generalize (Z.gcd n 8). intros g G Dg Pg Dn.
  pose proof (Z.divide_pos_le g 8 ltac:(lia) Dg) as Lg.
  destruct (Z.eq_dec g 8) as [->|E]; [exact Dn | exfalso].
  apply torsion_4. apply (annihilator_mult torsion g); trivial. destruct Dg as [q Hq].
  assert (g = 0 \/ g = 1 \/ g = 2 \/ g = 3 \/ g = 4 \/ g = 5 \/ g = 6 \/ g = 7) as Hg by lia.
  decompose [or] Hg; subst g; try lia; [now exists 4 | now exists 2 | now exists 1].
Qed.

(** ** Every point is annihilated by [8 * ell] *)

Lemma pigeonhole (f : Z -> Z) n m :
  0 <= n -> 0 <= m -> (forall i, 0 <= i < n -> 0 <= f i < m) ->
  (forall i j, 0 <= i < n -> 0 <= j < n -> f i = f j -> i = j) -> n <= m.
Proof.
  intros Hn Hm Hf Hi.
  set (l := map (fun k => f (Z.of_nat k)) (seq 0 (Z.to_nat n))).
  set (r := map Z.of_nat (seq 0 (Z.to_nat m))).
  assert (length l <= length r)%nat as H.
  { apply NoDup_incl_length.
    - apply NoDup_map_NoDup_ForallPairs; [|apply seq_NoDup].
      intros a b [_ Ha]%in_seq [_ Hb]%in_seq E. apply Hi in E; lia.
    - intros x Hx. apply in_map_iff in Hx as (k & <- & [_ Hk]%in_seq). specialize (Hf (Z.of_nat k) ltac:(lia)).
      apply in_map_iff. exists (Z.to_nat (f (Z.of_nat k))). split; [lia | apply in_seq; lia]. }
  unfold l, r in H. rewrite !length_map, !length_seq in H. lia.
Qed.

Lemma point_code_range P : 0 <= point_code P < 2 ^ 256.
Proof.
  destruct P as [x y]. unfold point_code. pose proof (to_Z_range y).
  pose proof (Z.mod_pos_bound (Zmod.to_Z x) 2 ltac:(lia)).
  assert (p25519 < 2 ^ 255) by reflexivity. change (2 ^ 256) with (2 * 2 ^ 255). nia.
Qed.

Section Exponent.
  Variable P : point.
  Hypothesis HP : on_curve P.

Definition comb (e a b : Z) : point := ed_add (ed_mul e P) (lin a base_point b torsion).

Lemma comb_on_curve e a b : on_curve (comb e a b).
Proof.
    apply ed_add_on_curve; [now apply ed_mul_on_curve|].
    apply lin_on_curve; [apply base_point_on_curve | apply torsion_on_curve].
Qed.

Lemma comb_add e a b e' a' b' : ed_add (comb e a b) (comb e' a' b') = comb (e + e') (a + a') (b + b').
Proof.
    pose proof base_point_on_curve as HB. pose proof torsion_on_curve as HT. unfold comb.
    rewrite ed_add_4 by (now apply ed_mul_on_curve || now apply lin_on_curve).
    now rewrite <- ed_mul_add, lin_add by trivial.
Qed.

Lemma comb_0 : comb 0 0 0 = ed_0.
Proof. unfold comb, lin. now rewrite !ed_mul_0, !ed_add_0_l. Qed.

Lemma comb_mul n e a b : ed_mul n (comb e a b) = comb (n * e) (n * a) (n * b).
Proof.
    pose proof (comb_on_curve e a b) as Hc. induction n as [|n IH|n IH] using Z.peano_ind.
    - rewrite ed_mul_0. symmetry. exact comb_0.
    - unfold Z.succ. rewrite ed_mul_add, IH, ed_mul_1, comb_add by exact Hc. f_equal; lia.
    - unfold Z.pred. rewrite ed_mul_add, IH by exact Hc. change (-1) with (- (1)).
      rewrite ed_mul_opp, ed_mul_1 by exact Hc.
      replace (ed_opp (comb e a b)) with (comb (- e) (- a) (- b)); [rewrite comb_add; f_equal; lia|].
      apply (ed_add_cancel (comb e a b)); try apply comb_on_curve; [now apply ed_opp_on_curve|].
      rewrite comb_add, !Z.add_opp_diag_r, comb_0, ed_add_comm. symmetry. now apply ed_add_opp_l.
Qed.

Lemma comb_sub e a b e' a' b' :
    comb e a b = comb e' a' b' -> comb (e - e') (a - a') (b - b') = ed_0.
Proof.
    intros E. unfold Z.sub. rewrite <- comb_add, E, comb_add, !Z.add_opp_diag_r. apply comb_0.
Qed.

(** Coordinates in the subgroup are determined, unless [8 * ell] annihilates [P]. *)
Lemma comb_inj e a b e' a' b' :
    ed_mul (8 * ell) P <> ed_0 -> 0 <= e < 2 -> 0 <= e' < 2 -> 0 <= a < ell -> 0 <= a' < ell ->
    0 <= b < 8 -> 0 <= b' < 8 -> comb e a b = comb e' a' b' -> e = e' /\ a = a' /\ b = b'.
Proof.
    intros HN He He' Ha Ha' Hb Hb' E. apply comb_sub in E.
    assert (forall n, ed_mul n (comb (e - e') (a - a') (b - b')) = ed_0) as Z0 by (intros n; rewrite E; apply ed_mul_ed_0).
    assert (forall x, comb x 0 0 = ed_mul x P) as CP.
    { intros x. unfold comb, lin. now rewrite !ed_mul_0, ed_add_0_l, ed_add_comm, ed_add_0_l. }
    assert (forall x a b, ed_mul a base_point = ed_0 -> ed_mul b torsion = ed_0 -> comb x a b = ed_mul x P) as CP'.
    { intros x a0 b0 E1 E2. rewrite <- CP. unfold comb, lin. now rewrite E1, E2, !ed_mul_0. }
    pose proof base_point_on_curve as HB. pose proof torsion_on_curve as HT.
    assert (e = e') as <-.
    { pose proof (Z0 (8 * ell)) as H. rewrite comb_mul, CP' in H.
      - assert (e = e' \/ e - e' = 1 \/ e - e' = -1) as [K|[K|K]] by lia; [exact K | |]; exfalso; apply HN; rewrite K in H.
        + now rewrite Z.mul_1_r in H.
        + replace (8 * ell) with (-1 * (8 * ell * -1)) by ring. rewrite ed_mul_mul, H by exact HP. apply ed_mul_ed_0.
      - apply base_order. exists (8 * (a - a')). ring.
      - apply (annihilator_mult torsion 8); [exact HT | exact torsion_8 |]. exists (ell * (b - b')). ring. }
    rewrite Z.sub_diag in *.
    assert (forall a b, comb 0 a b = lin a base_point b torsion) as C0
      by (intros; unfold comb; now rewrite ed_mul_0, ed_add_0_l).
    assert (a = a') as <-.
    { pose proof (Z0 8) as H. rewrite comb_mul, Z.mul_0_r, C0 in H. unfold lin in H.
      rewrite (annihilator_mult torsion 8 (8 * (b - b')) HT torsion_8) in H by (exists (b - b'); ring).
      rewrite ed_add_comm, ed_add_0_l in H. apply base_order in H.
      apply Z.gauss in H; [|apply Z.coprime_prime_l; [apply ell_prime | intros D; apply Z.divide_pos_le in D; [revert D; vm_compute; auto | lia]]].
      destruct H as [q Hq]. assert (q = 0) by nia. lia. }
    rewrite Z.sub_diag, C0 in E. unfold lin in E. rewrite ed_mul_0, ed_add_0_l in E.
    apply torsion_order in E. destruct E as [q Hq]. assert (q = 0) by lia. repeat split; lia.
Qed.

(** The curve has at most 2^256 points, fewer than 16 [ell]. *)
Lemma ed_exponent : ed_mul (8 * ell) P = ed_0.
Proof.
    assert (ed_mul (8 * ell) P = ed_0 \/ ed_mul (8 * ell) P <> ed_0) as [E|N]; [|exact E|exfalso].
    { destruct (ed_mul (8 * ell) P) as [x y]. unfold ed_0.
      destruct (Zmod.eqb_spec x Zmod.zero) as [->|Nx]; [|right; congruence].
      destruct (Zmod.eqb_spec y Zmod.one) as [->|Ny]; [now left | right; congruence]. }
    set (f := fun i => point_code (comb (i / (8 * ell)) ((i / 8) mod ell) (i mod 8))).
    assert (16 * ell <= 2 ^ 256) as H; [|revert H; vm_compute; auto].
    assert (0 < ell) as Pl by reflexivity.
    apply (pigeonhole f); [lia | lia | intros; apply point_code_range |].
    intros i j Hi Hj E. apply point_code_inj in E; try apply comb_on_curve.
    assert (forall i, 0 <= i < 16 * ell -> 0 <= i / (8 * ell) < 2) as K.
    { intros k Hk. split; [apply Z.div_pos; lia | apply Z.div_lt_upper_bound; lia]. }
    apply comb_inj in E; trivial; try apply Z.mod_pos_bound; try lia; auto.
    destruct E as (E1 & E2 & E3).
    rewrite <- !(Z.div_div _ 8 ell) in E1 by lia.
    pose proof (Z.div_mod (i / 8) ell ltac:(lia)). pose proof (Z.div_mod (j / 8) ell ltac:(lia)).
    pose proof (Z.div_mod i 8 ltac:(lia)). pose proof (Z.div_mod j 8 ltac:(lia)). congruence.
Qed.
End Exponent.

(** The group and its order: the constant that the scalar functions reduce by is a prime; it is
    the order of the base point (the multiples of the base point that vanish are exactly the
    multiples of it); and 8 times it annihilates every point of the curve, so that the
    cofactor that the code multiplies by leads into the subgroup of prime order. *)
Theorem group_order P n :
  on_curve P ->
  ell = 2 ^ 252 + 27742317777372353535851937790883648493 /\ Z.prime ell /\
  (ed_mul n base_point = ed_0 <-> (ell | n)) /\
  ed_mul ell (ed_mul 8 P) = ed_0.
Proof.
  intros HP. split; [reflexivity|]. split; [exact ell_prime|]. split; [apply base_order|].
  rewrite <- ed_mul_mul, Z.mul_comm by exact HP. now apply ed_exponent.
Qed.

Lemma group_order_witness :
  ell = 2 ^ 252 + 27742317777372353535851937790883648493 /\ Z.prime ell /\
  (ed_mul 8 base_point = ed_0 <-> (ell | 8)) /\
  ed_mul ell (ed_mul 8 torsion) = ed_0.
Proof. exact (group_order torsion 8 torsion_on_curve). Defined.
