(* ===== verification/Varint.v ===== *)
(** * Variable-length integers

    Models varint.h of src/common: [write_varint] and [read_varint] on bytes. Seven bits
    per byte, least significant first, the high bit of a byte set when another follows.
    Reading inverts writing, refuses values of more than [bits] bits and encodings with
    superfluous zero bytes, and accepts an input that ends in the middle of an encoding. *)

From Stdlib Require Import ZArith Lia List Bool.
From S2P Require Import Prelude Bytes.
Import ListNotations.

#[local] Open Scope Z_scope.

(** ** The code *)

(** [while (i >= 0x80) { *dest = (i & 0x7f) | 0x80; ++dest; i >>= 7; } *dest = i;] *)
Fixpoint write_varint_loop (fuel : nat) (i : Z) : option (list Z) :=
  if 128 <=? i then
    match fuel with
    | O => None
    | S fuel =>
        let! dest := write_varint_loop fuel (Z.shiftr i 7) in
        Some (Z.lor (Z.land (u8 i) 127) 128 :: dest)
    end
  else Some [u8 i].

(** An unsigned type has at most 64 bits: nine shifts leave less than two. *)
Definition write_varint (i : Z) : option (list Z) := write_varint_loop 9 i.

Definition EVARINT_OVERFLOW : Z := -1.
Definition EVARINT_REPRESENT : Z := -2.

(** The return value, [write], and what is left of the input. *)
Record varint_result := VarintResult { v_ret : Z; v_write : Z; v_rest : list Z }.

(** [bits] is the template parameter; [T] has 64 bits. *)
Fixpoint read_varint_from (bits : Z) (first : list Z) (read shift write : Z) : varint_result :=
  match first with
  | [] => VarintResult read write []
  | byte :: first =>
      let read := read + 1 in
      if (bits <=? shift + 7) && (Z.shiftl 1 (bits - shift) <=? byte) then
        VarintResult EVARINT_OVERFLOW write first
      else if (byte =? 0) && negb (shift =? 0) then
        VarintResult EVARINT_REPRESENT write first
      else
        let write := Z.lor write (u64 (Z.shiftl (Z.land byte 127) shift)) in
        if Z.land byte 128 =? 0 then VarintResult read write first
        else read_varint_from bits first read (shift + 7) write
  end.

Definition read_varint (bits : Z) (first : list Z) : varint_result := read_varint_from bits first 0 0 0.

(** ** Bytes *)

Lemma land_127 x : Z.land x 127 = x mod 128.
Proof. change 127 with (Z.ones 7). now rewrite Z.land_ones. Qed.

Lemma land_128 b : is_byte b -> Z.land b 128 = if 128 <=? b then 128 else 0.
Proof.
  unfold is_byte. intros Hb.
  assert (Z.land b 128 = (b / 128) * 128) as ->.
  { change 128 with (2 ^ 7). rewrite <- Z.shiftr_div_pow2, <- Z.shiftl_mul_pow2 by lia.
    apply Z.bits_inj'. intros n Hn. rewrite Z.land_spec, Z.pow2_bits_eqb, Z.shiftl_spec by lia.
    destruct (Z.eqb_spec 7 n) as [<-|Hne].
    - rewrite andb_true_r, Z.shiftr_spec by lia. reflexivity.
    - rewrite andb_false_r. destruct (Z.lt_ge_cases n 7).
      + now rewrite Z.testbit_neg_r by lia.
      + rewrite Z.shiftr_spec by lia. replace (n - 7 + 7) with n by lia.
        rewrite <- (Z.mod_small b (2 ^ 8)) by lia. now rewrite Z.mod_pow2_bits_high by lia. }
  destruct (Z.leb_spec 128 b).
  - replace (b / 128) with 1; [reflexivity|]. apply (Z.div_unique _ _ _ (b - 128)); lia.
  - now rewrite Z.div_small by lia.
Qed.

Lemma lor_128 x : 0 <= x < 128 -> Z.lor x 128 = x + 128.
Proof. intros H. change 128 with (Z.shiftl 1 7) at 1. rewrite lor_shiftl_add by lia. lia. Qed.

(** The byte that says that another follows. *)
Lemma cont_byte i : Z.lor (Z.land (u8 i) 127) 128 = i mod 128 + 128.
Proof.
  rewrite land_127. unfold u8. pose proof (Z.mod_pos_bound i 128 ltac:(lia)).
  replace (i mod 2 ^ 8 mod 128) with (i mod 128); [now apply lor_128|].
  change (2 ^ 8) with (128 * 2). rewrite Z.rem_mul_r by lia.
  rewrite Z.mul_comm, Z_mod_plus_full, Z.mod_mod by lia. reflexivity.
Qed.

(** ** Writing *)

Lemma write_varint_step fuel i :
  128 <= i ->
  write_varint_loop (S fuel) i =
    (let! dest := write_varint_loop fuel (i / 128) in Some (i mod 128 + 128 :: dest)).
Proof.
  intros Hi. cbn [write_varint_loop]. rewrite (proj2 (Z.leb_le 128 i) Hi), cont_byte.
  rewrite Z.shiftr_div_pow2 by lia. reflexivity.
Qed.

Lemma write_varint_last fuel i : 0 <= i < 128 -> write_varint_loop fuel i = Some [i].
Proof.
  intros Hi. destruct fuel; cbn [write_varint_loop]; rewrite (proj2 (Z.leb_gt 128 i)) by lia;
    unfold u8; now rewrite Z.mod_small by lia.
Qed.

(** More fuel does not change the result. *)
Lemma write_varint_more fuel fuel' i enc :
  (fuel <= fuel')%nat -> 0 <= i -> write_varint_loop fuel i = Some enc -> write_varint_loop fuel' i = Some enc.
Proof.
  revert fuel' i enc. induction fuel as [|fuel IH]; intros fuel' i enc Hf Hi E.
  - destruct (Z.lt_ge_cases i 128); [rewrite write_varint_last in * by lia; exact E|].
    cbn in E. now rewrite (proj2 (Z.leb_le 128 i)) in E.
  - destruct fuel' as [|fuel']; [lia|].
    destruct (Z.lt_ge_cases i 128); [rewrite write_varint_last in * by lia; exact E|].
    rewrite write_varint_step in * by lia.
    pose proof (Z.div_pos i 128 Hi ltac:(lia)).
    destruct (write_varint_loop fuel (i / 128)) as [dest|] eqn:D; [|discriminate E].
    now rewrite (IH fuel' (i / 128) dest) by (trivial; lia).
Qed.

(** ** Reading what was written *)

Lemma lor_place acc x shift :
  0 <= shift -> 0 <= acc < 2 ^ shift -> 0 <= x -> x * 2 ^ shift < 2 ^ 64 ->
  Z.lor acc (u64 (Z.shiftl x shift)) = acc + 2 ^ shift * x.
Proof.
  intros Hs Ha Hx Hb. pose proof (Z.pow_pos_nonneg 2 shift ltac:(lia) Hs).
  rewrite u64_small by (rewrite Z.shiftl_mul_pow2; nia). now apply lor_shiftl_add.
Qed.

Lemma read_written fuel bits i enc rest read shift acc :
  0 <= shift -> bits <= 64 -> 0 <= acc < 2 ^ shift -> 0 <= i < 2 ^ (bits - shift) -> shift <= bits ->
  (shift <> 0 -> i <> 0) -> write_varint_loop fuel i = Some enc ->
  read_varint_from bits (enc ++ rest) read shift acc
    = VarintResult (read + Z.of_nat (length enc)) (acc + 2 ^ shift * i) rest.
Proof.
  revert i enc read shift acc. induction fuel as [|fuel IH]; intros i enc read shift acc Hs Hb Ha Hi Hsb Hz E.
  all: assert (i * 2 ^ shift < 2 ^ 64) as Hw
    by (eapply Z.lt_le_trans; [apply (Z.mul_lt_mono_pos_r (2 ^ shift) i (2 ^ (bits - shift))); [lia | apply Hi]|];
        rewrite <- Z.pow_add_r by lia; apply Z.pow_le_mono_r; lia).
  all: destruct (Z.lt_ge_cases i 128) as [Hlt|Hge];
    [rewrite write_varint_last in E by lia; injection E as <-; cbn [app read_varint_from length] |].
  1, 3: rewrite Z.shiftl_1_l, (proj2 (Z.leb_gt (2 ^ (bits - shift)) i)), andb_false_r by lia;
    destruct (Z.eqb_spec i 0), (Z.eqb_spec shift 0); cbn [andb negb]; try tauto;
    rewrite land_128 by (unfold is_byte; lia); rewrite (proj2 (Z.leb_gt 128 i)) by lia; cbn [Z.eqb];
    rewrite land_127, Z.mod_small, lor_place by lia; f_equal; lia.
  - cbn in E. now rewrite (proj2 (Z.leb_le 128 i)) in E.
  - rewrite write_varint_step in E by lia.
    destruct (write_varint_loop fuel (i / 128)) as [dest|] eqn:D; [|discriminate E]. injection E as <-.
    pose proof (Z.div_mod i 128 ltac:(lia)) as Dm. pose proof (Z.mod_pos_bound i 128 ltac:(lia)) as M.
    assert (1 <= i / 128) by (apply Z.div_le_lower_bound; lia).
    assert (shift + 7 < bits) as Hs7.
    { destruct (Z.lt_ge_cases (shift + 7) bits) as [K|K]; [exact K|exfalso].
      assert (2 ^ (bits - shift) <= 2 ^ 7) by (apply Z.pow_le_mono_r; lia). lia. }
    cbn [app read_varint_from length]. rewrite (proj2 (Z.leb_gt bits (shift + 7))) by lia. cbn [andb].
    rewrite (proj2 (Z.eqb_neq (i mod 128 + 128) 0)) by lia. cbn [andb].
    rewrite land_128 by (unfold is_byte; lia). rewrite (proj2 (Z.leb_le 128 _)) by lia.
    cbn [Z.eqb]. rewrite land_127.
    replace ((i mod 128 + 128) mod 128) with (i mod 128)
      by (replace (i mod 128 + 128) with (i mod 128 + 1 * 128) by lia; now rewrite Z_mod_plus_full, Z.mod_mod by lia).
    rewrite lor_place by nia.
    assert (2 ^ (shift + 7) = 2 ^ shift * 128) as Ep by (now rewrite Z.pow_add_r by lia).
    rewrite (IH (i / 128) dest); trivial; try lia.
    + rewrite Ep. f_equal; lia.
    + rewrite Ep. nia.
    + split; [lia|]. apply Z.div_lt_upper_bound; [lia|].
      replace (128 * 2 ^ (bits - (shift + 7))) with (2 ^ (bits - shift)); [lia|].
      change 128 with (2 ^ 7). rewrite <- Z.pow_add_r by lia. f_equal. lia.
Qed.

Lemma write_varint_total i : 0 <= i < 2 ^ 64 -> exists enc, write_varint i = Some enc.
Proof.
  unfold write_varint. enough (forall fuel i, 0 <= i < 128 ^ (Z.of_nat fuel + 1) -> exists enc, write_varint_loop fuel i = Some enc) as K.
  { intros H. apply K. change (128 ^ (Z.of_nat 9 + 1)) with (2 ^ 70). lia. }
  induction fuel as [|fuel IH]; intros j Hj.
  - exists [j]. apply write_varint_last. lia.
  - destruct (Z.lt_ge_cases j 128); [exists [j]; apply write_varint_last; lia|].
    rewrite write_varint_step by lia. destruct (IH (j / 128)) as [enc ->]; [|eexists; reflexivity].
    split; [apply Z.div_pos; lia | apply Z.div_lt_upper_bound; [lia|]].
    rewrite <- Z.pow_succ_r by lia. replace (Z.succ (Z.of_nat fuel + 1)) with (Z.of_nat (S fuel) + 1) by lia. lia.
Qed.

(** The bytes written, at most one more than the shifts. *)
Lemma write_varint_shape fuel i enc :
  0 <= i -> write_varint_loop fuel i = Some enc -> bytes enc /\ (length enc <= S fuel)%nat.
Proof.
  revert i enc. induction fuel as [|fuel IH]; intros i enc Hi E;
    (destruct (Z.lt_ge_cases i 128);
      [rewrite write_varint_last in E by lia; injection E as <-;
       split; [constructor; [unfold is_byte; lia | constructor] | cbn; lia]|]).
  - cbn in E. now rewrite (proj2 (Z.leb_le 128 i)) in E.
  - rewrite write_varint_step in E by lia. pose proof (Z.div_pos i 128 Hi ltac:(lia)) as Hd.
    destruct (write_varint_loop fuel (i / 128)) as [dest|] eqn:D; [|discriminate E]. injection E as <-.
    destruct (IH _ _ Hd D) as [Hb Hl]. pose proof (Z.mod_pos_bound i 128 ltac:(lia)).
    split; [constructor; [unfold is_byte; lia | exact Hb] | cbn; lia].
Qed.

(** Reading back determines the integer. *)
Lemma write_varint_inj i j enc :
  0 <= i < 2 ^ 64 -> 0 <= j < 2 ^ 64 -> write_varint i = Some enc -> write_varint j = Some enc -> i = j.
Proof.
  intros Hi Hj Ei Ej.
  pose proof (read_written 9 64 i enc [] 0 0 0 ltac:(lia) ltac:(lia) ltac:(lia) ltac:(lia) ltac:(lia) ltac:(lia) Ei) as R.
  rewrite (read_written 9 64 j enc [] 0 0 0 ltac:(lia) ltac:(lia) ltac:(lia) ltac:(lia) ltac:(lia) ltac:(lia) Ej) in R.
  apply (f_equal v_write) in R. cbn [v_write] in R. rewrite Z.pow_0_r in R. lia.
Qed.

(** ** What is accepted *)

(** Bytes of an encoding that has not ended. *)
Definition unfinished (enc : list Z) : Prop := Forall (fun b => 128 <= b) enc.

Lemma read_accepts bits first read shift acc :
  bytes first -> 0 <= shift -> 0 <= bits <= 64 -> shift <= bits -> 0 <= acc < 2 ^ shift -> 0 <= read ->
  forall r, read_varint_from bits first read shift acc = r -> 0 <= v_ret r ->
  exists enc, first = enc ++ v_rest r /\ v_ret r = read + Z.of_nat (length enc) /\
    ((v_rest r = [] /\ unfinished enc) \/
     (exists fuel v, write_varint_loop fuel v = Some enc /\ 0 <= v < 2 ^ (bits - shift) /\
        (shift <> 0 -> v <> 0) /\ v_write r = acc + 2 ^ shift * v)).
Proof.
  intros Hb. revert read shift acc. induction Hb as [|b first Hb Hf IH]; intros read shift acc Hs Hbits Hsb Ha Hr; cbn [read_varint_from].
  - intros r <- _. exists []. cbn. repeat split; [lia|]. left. split; [reflexivity | constructor].
  - pose proof Hb as Hb'. unfold is_byte in Hb. rewrite Z.shiftl_1_l.
    destruct ((bits <=? shift + 7) && (2 ^ (bits - shift) <=? b)) eqn:O; [intros r <- Hr'; cbn in Hr'; unfold EVARINT_OVERFLOW in Hr'; lia|].
    destruct ((b =? 0) && negb (shift =? 0)) eqn:Rp; [intros r <- Hr'; cbn in Hr'; unfold EVARINT_REPRESENT in Hr'; lia|].
    rewrite land_128 by exact Hb'. destruct (Z.leb_spec 128 b) as [Hc|Hc]; cbn [Z.eqb].
    + assert (shift + 7 < bits \/ shift + 7 = bits) as Hs7.
      { destruct (Z.leb_spec bits (shift + 7)); [|lia]. cbn [andb] in O. apply Z.leb_gt in O.
        assert (2 ^ (bits - shift) <= 2 ^ 7) by (apply Z.pow_le_mono_r; lia). lia. }
      destruct Hs7 as [Hs7|Hs7].
      2: { exfalso. rewrite (proj2 (Z.leb_le bits (shift + 7))) in O by lia. cbn [andb] in O. apply Z.leb_gt in O.
           replace (bits - shift) with 7 in O by lia. lia. }
      assert (2 ^ (shift + 7) = 2 ^ shift * 128) as Ep by (now rewrite Z.pow_add_r by lia).
      assert (Z.land b 127 = b - 128) as El.
      { rewrite land_127. symmetry. apply (Z.mod_unique_pos _ _ 1); lia. }
      assert (2 ^ (shift + 7) <= 2 ^ 64) by (apply Z.pow_le_mono_r; lia).
      rewrite El, lor_place by nia. intros r Er Hr'.
      destruct (IH (read + 1) (shift + 7) (acc + 2 ^ shift * (b - 128))) with (r := r) as (enc & Ef & El' & C); trivial; try lia; [rewrite Ep; nia|].
      exists (b :: enc). split; [now rewrite Ef at 1|].
      split; [cbn [length]; lia|]. destruct C as [[E U] | (fuel & v & Ew & Hv & Hz & Ev)].
      * left. split; [exact E | now constructor].
      * right. exists (S fuel), (b - 128 + 128 * v). specialize (Hz ltac:(lia)).
        assert (128 * 2 ^ (bits - (shift + 7)) = 2 ^ (bits - shift)) as Eb.
        { change 128 with (2 ^ 7). rewrite <- Z.pow_add_r by lia. f_equal. lia. }
        split; [|split; [nia | split; [nia|]]].
        -- rewrite write_varint_step by lia.
           replace ((b - 128 + 128 * v) / 128) with v by (apply (Z.div_unique_pos _ _ _ (b - 128)); lia).
           replace ((b - 128 + 128 * v) mod 128) with (b - 128) by (apply (Z.mod_unique_pos _ _ v); lia).
           rewrite Ew. cbn [bind]. repeat f_equal. lia.
        -- rewrite Ev, Ep. ring.
    + intros r <- Hr'. exists [b]. cbn [v_rest v_ret v_write length app].
      split; [reflexivity|]. split; [lia|]. right. exists 0%nat, b. rewrite write_varint_last by lia.
      assert (b < 2 ^ (bits - shift)) as Hlt.
      { destruct (Z.leb_spec bits (shift + 7)); cbn [andb] in O; [now apply Z.leb_gt in O|].
        assert (2 ^ 7 <= 2 ^ (bits - shift)) by (apply Z.pow_le_mono_r; lia). lia. }
      split; [reflexivity|]. split; [lia|]. split.
      * intros Hn ->. rewrite (proj2 (Z.eqb_neq shift 0) Hn) in Rp. discriminate Rp.
      * rewrite land_127, Z.mod_small, lor_place; try lia.
        eapply Z.lt_le_trans; [apply (Z.mul_lt_mono_pos_r (2 ^ shift) b (2 ^ (bits - shift))); lia|].
        rewrite <- Z.pow_add_r by lia. apply Z.pow_le_mono_r; lia.
Qed.

(** ** Claims *)

(** Every integer of at most [bits] bits (at most 64) is written in finitely many bytes, and
    reading them back, whatever follows, returns their number, the integer and the rest of
    the input. *)
Theorem varint_roundtrip bits i rest :
  0 <= bits <= 64 -> 0 <= i < 2 ^ bits ->
  exists enc, write_varint i = Some enc /\
    read_varint bits (enc ++ rest) = VarintResult (Z.of_nat (length enc)) i rest.
Proof.
  intros Hb Hi. assert (2 ^ bits <= 2 ^ 64) by (apply Z.pow_le_mono_r; lia).
  destruct (write_varint_total i ltac:(lia)) as [enc E]. exists enc. split; [exact E|].
  unfold read_varint. rewrite (read_written 9 bits i enc rest 0 0 0); trivial; try lia; [f_equal; lia|].
  now rewrite Z.sub_0_r.
Qed.

Lemma varint_roundtrip_witness :
  exists enc, write_varint (2 ^ 64 - 1) = Some enc /\
    read_varint 64 (enc ++ [7]) = VarintResult (Z.of_nat (length enc)) (2 ^ 64 - 1) [7].
Proof. exact (varint_roundtrip 64 (2 ^ 64 - 1) [7] ltac:(lia) ltac:(lia)). Defined.

(** What [read_varint] accepts: with a nonnegative return value, that many bytes have been
    consumed, and they are the one encoding that [write_varint] produces for the value
    returned, which fits in [bits] bits; or the input ended inside an encoding, which the
    return value does not tell apart. Overlong encodings and larger values are refused. *)
Theorem varint_canonical bits first :
  bytes first -> 0 <= bits <= 64 -> 0 <= v_ret (read_varint bits first) ->
  exists enc, first = enc ++ v_rest (read_varint bits first) /\
    v_ret (read_varint bits first) = Z.of_nat (length enc) /\
    ((v_rest (read_varint bits first) = [] /\ unfinished enc) \/
     (write_varint (v_write (read_varint bits first)) = Some enc /\
      0 <= v_write (read_varint bits first) < 2 ^ bits)).
Proof.
  intros Hf Hb Hr. unfold read_varint in *.
  destruct (read_accepts bits first 0 0 0 Hf ltac:(lia) Hb ltac:(lia) ltac:(lia) ltac:(lia) _ eq_refl Hr) as (enc & E1 & E2 & C).
  exists enc. split; [exact E1|]. split; [exact E2|]. destruct C as [C | (fuel & v & Ew & Hv & _ & Ev)]; [now left | right].
  rewrite Ev. replace (0 + 2 ^ 0 * v) with v by lia. rewrite Z.sub_0_r in Hv. split; [|exact Hv].
  assert (2 ^ bits <= 2 ^ 64) by (apply Z.pow_le_mono_r; lia).
  destruct (write_varint_total v ltac:(lia)) as [enc' E']. rewrite E'. f_equal. unfold write_varint in E'.
  apply (write_varint_more _ (Nat.max fuel 9)) in Ew, E'; try lia. congruence.
Qed.

Lemma varint_canonical_witness :
  exists enc, [0x80; 0x02; 9] = enc ++ [9] /\ 2 = Z.of_nat (length enc) /\
    (([9] = [] /\ unfinished enc) \/ (write_varint 0x100 = Some enc /\ 0 <= 0x100 < 2 ^ 64)).
Proof.
  exact (varint_canonical 64 [0x80; 0x02; 9]
    ltac:(repeat (apply Forall_cons; [unfold is_byte; lia|]); apply Forall_nil) ltac:(lia) ltac:(cbn; lia)).
Defined.
