(* ===== verification/Random.v ===== *)
(** * The random number generator

    Models random.c: a Keccak state that is seeded once from the system, permuted before
    every block of output and read at its first [HASH_DATA_AREA] bytes; and the variable
    [curstate] with which debug builds detect calls that overlap or come before the
    initialisation. The system calls on /dev/urandom are an argument: the results of the
    calls of [read], in order. Clients see the generator through the class [RandomBytes]. *)

From Stdlib Require Import ZArith Lia List Bool.
From S2P Require Import Prelude Bytes Keccak.
Import ListNotations.
Import KeccakSpec.

#[local] Open Scope Z_scope.
#[local] Infix "≡" := same_bits (at level 70).

(** ** The code *)

(** The static variables [state] and [curstate]. *)
Record random_state := RandomState { state : list Z; curstate : Z }.

(** The value of static variables at start. *)
Definition random_start : random_state := RandomState (repeat 0 200) 0.

(** A call of [read]: the bytes it stored, none at the end of the file; or -1 with [errno]
    equal to [EINTR] or not. *)
Inductive read_result := Got (data : list Z) | Interrupted | ReadError.

(** The results of [open], of the calls of [read] and of [close]. *)
Record device := Device { can_open : bool; reads : list read_result; can_close : bool }.

(** [for (;;) { ssize_t res = read(fd, result, n); ... }]: the bytes stored. [err] and [errx]
    end the process; a script that is too short stands for a call that does not return. *)
Fixpoint read_all (script : list read_result) (n : nat) : option (list Z) :=
  match script with
  | [] => None
  | Got data :: script =>
      if (length data =? n)%nat then Some data
      else if (length data =? 0)%nat then None
      else let! rest := read_all script (n - length data) in Some (data ++ rest)
  | Interrupted :: script => read_all script n
  | ReadError :: _ => None
  end.

Definition generate_system_random_bytes (urandom : device) (n : nat) : option (list Z) :=
  let! _ := cassert (can_open urandom) in
  let! result := read_all (reads urandom) n in
  let! _ := cassert (can_close urandom) in
  Some result.

Definition init_random (urandom : device) (r : random_state) : option random_state :=
  let! seed := generate_system_random_bytes urandom 32 in
  let! _ := cassert (curstate r =? 0) in
  Some (RandomState (seed ++ skipn 32 (state r)) 1).

Definition deinit_random (r : random_state) : option random_state :=
  let! _ := cassert (curstate r =? 1) in
  Some (RandomState (repeat 0 200) 0).

(** [for (;;) { hash_permutation(&state); if (n <= HASH_DATA_AREA) ... }]: what is written
    to [result], and the state. *)
Fixpoint random_blocks (fuel n : nat) (st : list Z) : option (list Z * list Z) :=
  match fuel with
  | O => None
  | S fuel =>
      let! st := hash_permutation st in
      if (n <=? HASH_DATA_AREA)%nat then Some (firstn n st, st)
      else
        let! '(result, st') := random_blocks fuel (n - HASH_DATA_AREA) st in
        Some (firstn HASH_DATA_AREA st ++ result, st')
  end.

(** The loop runs once for every started block of output. *)
Definition generate_random_bytes_not_thread_safe (n : nat) (r : random_state)
  : option (list Z * random_state) :=
  let! _ := cassert (curstate r =? 1) in
  let curstate := 2 in
  if (n =? 0)%nat then
    let! _ := cassert (curstate =? 2) in
    Some ([], RandomState (state r) 1)
  else
    let! '(result, st) := random_blocks (S (n / HASH_DATA_AREA)) n (state r) in
    let! _ := cassert (curstate =? 2) in
    Some (result, RandomState st 1).

(** ** The invariant and the interface *)

Definition is_state (st : list Z) : Prop := bytes st /\ length st = 200%nat.

(** Initialised, and no call under way. *)
Definition random_ready (r : random_state) : Prop := is_state (state r) /\ curstate r = 1.

(** What the users of the generator rely on. *)
Class RandomBytes : Type := {
  rng : Type;
  rng_ready : rng -> Prop;
  random_bytes : nat -> rng -> option (list Z * rng);
  random_bytes_total : forall n r, rng_ready r ->
    returns (random_bytes n r) (fun '(b, r') => bytes b /\ length b = n /\ rng_ready r');
}.

(** ** The output *)

(** The permutation, iterated [k] times. *)
Definition permuted (k : nat) (A : bits) : bits := Nat.iter k (keccak_f 24) A.

Lemma squeezed_string A b : squeezed A b -> length b = 200%nat -> string_bits (le_val b) ≡ A.
Proof.
  intros [Hb H] Hl x y z Hx Hy Hz. unfold string_bits, s_xor.
  rewrite xorb_false_l, H by lia. unfold squeeze.
  replace ((64 * Z.of_nat (x + 5 * y) + z) / 64) with (Z.of_nat (x + 5 * y)) by (apply (Z.div_unique_pos _ _ _ z); lia).
  replace ((64 * Z.of_nat (x + 5 * y) + z) mod 64) with z by (apply (Z.mod_unique_pos _ _ (Z.of_nat (x + 5 * y))); lia).
  rewrite Nat2Z.id. f_equal; [symmetry; apply (Nat.mod_unique _ _ y); lia | symmetry; apply (Nat.div_unique _ _ _ x); lia].
Qed.

Lemma squeezed_same_bits A B b : (length b <= 200)%nat -> A ≡ B -> squeezed A b -> squeezed B b.
Proof.
  intros Hl E [Hb H]. split; [exact Hb|]. intros i Hi. rewrite H by exact Hi. unfold squeeze.
  assert (0 <= i / 64 < 25) by (split; [apply Z.div_pos | apply Z.div_lt_upper_bound]; lia).
  apply E; [apply Nat.mod_upper_bound; lia | apply Nat.Div0.div_lt_upper_bound; lia | apply Z.mod_pos_bound; lia].
Qed.

(** One permutation of a state that has been permuted [k] times. *)
Lemma permute_state k A st :
  squeezed (permuted k A) st -> length st = 200%nat ->
  returns (hash_permutation st) (fun st' => length st' = 200%nat /\ squeezed (permuted (S k) A) st').
Proof.
  intros Hs Hl. eapply returns_weaken; [apply hash_permutation_spec; [apply Hs | exact Hl]|].
  cbv beta. intros st' [Hl' Hs']. split; [exact Hl'|].
  apply (squeezed_same_bits (keccak_f 24 (string_bits (le_val st)))); [lia | | exact Hs'].
  apply keccak_f_proper. now apply squeezed_string.
Qed.

(** Blocks of output: block [i] is a prefix of the state after [k + i + 1] permutations. *)
Fixpoint stream (A : bits) (k fuel : nat) (out : list Z) : Prop :=
  match fuel with
  | O => out = []
  | S fuel =>
      squeezed (permuted (S k) A) (firstn HASH_DATA_AREA out) /\
      stream A (S k) fuel (skipn HASH_DATA_AREA out)
  end.

Lemma random_blocks_spec fuel n k A st :
  squeezed (permuted k A) st -> length st = 200%nat -> (0 < n <= HASH_DATA_AREA * fuel)%nat ->
  returns (random_blocks fuel n st) (fun '(out, st') =>
    length out = n /\ bytes out /\ stream A k fuel out /\ is_state st' /\
    exists j, (HASH_DATA_AREA * j < n + HASH_DATA_AREA)%nat /\ (n <= HASH_DATA_AREA * j)%nat /\
      squeezed (permuted (k + j) A) st').
Proof.
  revert n k st. induction fuel as [|fuel IH]; intros n k st Hs Hl Hn; [lia|].
  cbn [random_blocks]. eapply returns_bind; [now apply (permute_state k A)|]. cbv beta.
  intros st1 [Hl1 Hs1]. destruct (Nat.leb_spec n HASH_DATA_AREA) as [Hle|Hgt]; cbn [returns].
  - assert (length (firstn n st1) = n) as Hf by (rewrite length_firstn; change HASH_DATA_AREA with 136%nat in Hle; lia).
    split; [exact Hf|]. split; [apply bytes_firstn, Hs1|]. split; [|split; [split; [apply Hs1 | exact Hl1]|]].
    + cbn [stream]. rewrite (firstn_all2 (n := HASH_DATA_AREA)), (skipn_all2 (n := HASH_DATA_AREA)) by lia.
      split; [now apply squeezed_firstn|]. clear. generalize (S k). induction fuel; intros m; cbn [stream]; [reflexivity|].
      rewrite firstn_nil, skipn_nil. split; [|apply IHfuel]. split; [constructor|]. cbn [length]. intros i Hi. lia.
    + exists 1%nat. split; [lia|]. split; [lia|]. now rewrite Nat.add_1_r.
  - eapply returns_bind; [apply (IH (n - HASH_DATA_AREA)%nat (S k) st1); trivial; lia|].
    cbv beta. intros [out st'] (Ho & Hb & Hst & Hs' & j & Hj1 & Hj2 & Hj3). cbn [returns].
    assert (length (firstn HASH_DATA_AREA st1) = HASH_DATA_AREA) as Hf
      by (rewrite length_firstn, Hl1; reflexivity).
    split; [rewrite length_app, Hf, Ho; lia|]. split; [apply bytes_app; [apply bytes_firstn, Hs1 | exact Hb]|].
    split; [|split; [exact Hs'|]].
    + cbn [stream]. rewrite firstn_app, skipn_app, Hf, Nat.sub_diag, firstn_O, skipn_O, app_nil_r.
      rewrite (firstn_all2 (firstn _ _)), (skipn_all2 (firstn _ _)) by lia.
      split; [now apply squeezed_firstn | exact Hst].
    + exists (S j). split; [lia|]. split; [lia|]. now replace (k + S j)%nat with (S k + j)%nat by lia.
Qed.

Lemma generate_random_bytes_spec n r :
  random_ready r ->
  returns (generate_random_bytes_not_thread_safe n r) (fun '(out, r') =>
    length out = n /\ bytes out /\ random_ready r' /\
    stream (string_bits (le_val (state r))) 0 (S (n / HASH_DATA_AREA)) out /\
    exists j, (HASH_DATA_AREA * j < n + HASH_DATA_AREA)%nat /\ (n <= HASH_DATA_AREA * j)%nat /\
      squeezed (permuted j (string_bits (le_val (state r)))) (state r')).
Proof.
  intros [[Hb Hl] Hc]. unfold generate_random_bytes_not_thread_safe. rewrite Hc.
  apply returns_cassert; [reflexivity|]. cbv zeta.
  set (A := string_bits (le_val (state r))).
  assert (squeezed (permuted 0 A) (state r)) as H0.
  { split; [exact Hb|]. intros i Hi. unfold permuted, squeeze, A, string_bits, s_xor. cbn [Nat.iter nat_rect].
    rewrite xorb_false_l. f_equal. pose proof (Z.div_mod i 64 ltac:(lia)). pose proof (Z.div_pos i 64 ltac:(lia) ltac:(lia)).
    pose proof (Nat.div_mod (Z.to_nat (i / 64)) 5 ltac:(lia)). lia. }
  destruct (Nat.eqb_spec n 0) as [->|Hn]; cbn [returns].
  - split; [reflexivity|]. split; [constructor|]. split; [now repeat split|]. split.
    + cbn [stream Nat.div]. rewrite firstn_nil, skipn_nil. split; [|reflexivity]. split; [constructor|]. cbn [length]. lia.
    + exists 0%nat. split; [unfold HASH_DATA_AREA; lia|]. split; [lia | exact H0].
  - eapply returns_bind.
    { apply (random_blocks_spec _ n 0 A); trivial. split; [lia|].
      pose proof (Nat.mul_succ_div_gt n HASH_DATA_AREA ltac:(unfold HASH_DATA_AREA; lia)). lia. }
    cbv beta. intros [out st] (Ho & Hbo & Hs & Hst & Hj).
    apply returns_cassert; [reflexivity|]. cbn [returns].
    exact (conj Ho (conj Hbo (conj (conj Hst eq_refl) (conj Hs Hj)))).
Qed.

#[export] Program Instance keccak_random : RandomBytes :=
  {| rng := random_state; rng_ready := random_ready; random_bytes := generate_random_bytes_not_thread_safe |}.
Next Obligation.
  eapply returns_weaken; [now apply generate_random_bytes_spec|]. cbv beta. intros [b r'] (Hl & Hb & Hr & _). auto.
Qed.

(** ** Seeding *)

(** [read] stores bytes, at most as many as are asked for. *)
Fixpoint read_ok (script : list read_result) (n : nat) : Prop :=
  match script with
  | Got data :: script => bytes data /\ (length data <= n)%nat /\ read_ok script (n - length data)
  | Interrupted :: script => read_ok script n
  | _ => True
  end.

Lemma read_all_spec script n out :
  read_ok script n -> read_all script n = Some out -> bytes out /\ length out = n.
Proof.
  revert n out. induction script as [|[data | |] script IH]; intros n out; cbn [read_ok read_all]; try discriminate; [|apply IH].
  intros (Hb & Hn & Hr). destruct (Nat.eqb_spec (length data) n) as [E|Hne]; [intros [= <-]; now split|].
  destruct (Nat.eqb_spec (length data) 0); [discriminate|].
  destruct (read_all script (n - length data)) as [rest|] eqn:E; [|discriminate]. intros [= <-].
  destruct (IH _ _ Hr E) as [Hb' Hl]. split; [now apply bytes_app|]. rewrite length_app. lia.
Qed.

(** ** Lifecycle *)

(** The states after any sequence of complete calls. *)
Inductive random_reachable : random_state -> Prop :=
| reach_start : random_reachable random_start
| reach_init urandom r r' :
    random_reachable r -> read_ok (reads urandom) 32 -> init_random urandom r = Some r' -> random_reachable r'
| reach_bytes n out r r' :
    random_reachable r -> generate_random_bytes_not_thread_safe n r = Some (out, r') -> random_reachable r'
| reach_deinit r r' : random_reachable r -> deinit_random r = Some r' -> random_reachable r'.

Lemma zero_state : is_state (repeat 0 200).
Proof. split; [|reflexivity]. apply Forall_forall. intros b Hb%repeat_spec. subst b. unfold is_byte. lia. Qed.

Lemma init_random_spec urandom r r' :
  read_ok (reads urandom) 32 -> is_state (state r) -> init_random urandom r = Some r' ->
  random_ready r' /\ curstate r = 0.
Proof.
  intros Hu [Hb Hl] E. unfold init_random, generate_system_random_bytes in E.
  destruct (can_open urandom); [|discriminate E]. cbn [cassert bind] in E.
  destruct (read_all (reads urandom) 32) as [seed|] eqn:Es; [|discriminate E]. cbn [bind] in E.
  destruct (can_close urandom); [|discriminate E]. cbn [cassert bind] in E.
  destruct (Z.eqb_spec (curstate r) 0) as [E0|]; [|discriminate E].
  cbn [cassert bind] in E. assert (r' = RandomState (seed ++ skipn 32 (state r)) 1) as -> by congruence.
  destruct (read_all_spec _ _ _ Hu Es) as [Hs Hn].
  split; [|exact E0]. split; [|reflexivity]. split; [apply bytes_app; [exact Hs | now apply bytes_skipn]|].
  cbn [state]. rewrite length_app, length_skipn, Hn, Hl. reflexivity.
Qed.

(** Before the initialisation the state is zero; after it, it is ready. *)
Lemma reachable_state r : random_reachable r -> r = random_start \/ random_ready r.
Proof.
  induction 1 as [|u r r' _ IH Hu E | n out r r' _ IH E | r r' _ IH E].
  - now left.
  - right. apply (init_random_spec u r); trivial. destruct IH as [-> | [H _]]; [apply zero_state | exact H].
  - right. destruct IH as [-> | Hr]; [discriminate E|].
    pose proof (generate_random_bytes_spec n r Hr) as H. rewrite E in H. apply H.
  - left. unfold deinit_random in E. destruct (curstate r =? 1); [|discriminate E]. now injection E as <-.
Qed.

(** The generator is total and produces the intended stream: when it is initialised and no call
    is under way, a request for [n] bytes returns [n] bytes, block by block the first 136
    bytes of the state after one more permutation Keccak-f[1600] each (every permutation is
    used once, the last block is cut), and leaves the generator ready with the state of the
    last permutation. Every other value of [curstate] aborts the call. *)
Theorem random_stream_correct n r :
  is_state (state r) ->
  (curstate r = 1 -> exists out r' j,
     generate_random_bytes_not_thread_safe n r = Some (out, r') /\ length out = n /\ random_ready r' /\
     stream (string_bits (le_val (state r))) 0 (S (n / HASH_DATA_AREA)) out /\
     (HASH_DATA_AREA * j < n + HASH_DATA_AREA)%nat /\ (n <= HASH_DATA_AREA * j)%nat /\
     squeezed (permuted j (string_bits (le_val (state r)))) (state r')) /\
  (curstate r <> 1 -> generate_random_bytes_not_thread_safe n r = None).
Proof.
  intros Hs. split; intros Hc.
  - pose proof (generate_random_bytes_spec n r (conj Hs Hc)) as H. apply returns_some in H.
    destruct H as ([out r'] & E & Hl & _ & Hr & St & j & H1 & H2 & H3). exists out, r', j. auto 8.
  - unfold generate_random_bytes_not_thread_safe. now rewrite (proj2 (Z.eqb_neq _ _) Hc).
Qed.

Lemma random_stream_correct_witness :
  generate_random_bytes_not_thread_safe 64 random_start = None /\
  exists out r' j,
    generate_random_bytes_not_thread_safe 200 (RandomState (repeat 0 200) 1) = Some (out, r') /\
    length out = 200%nat /\ random_ready r' /\
    stream (string_bits (le_val (repeat 0 200))) 0 2 out /\
    (HASH_DATA_AREA * j < 200 + HASH_DATA_AREA)%nat /\ (200 <= HASH_DATA_AREA * j)%nat /\
    squeezed (permuted j (string_bits (le_val (repeat 0 200)))) (state r').
Proof.
  exact (conj (proj2 (random_stream_correct 64 random_start zero_state) ltac:(discriminate))
    (proj1 (random_stream_correct 200 (RandomState (repeat 0 200) 1) zero_state) eq_refl)).
Defined.

(** The lifecycle of the generator: in every state that complete calls can reach, bytes can be
    drawn, and the generator shut down, exactly between initialisation and shutdown, and it
    can be initialised only outside; before and after, the state holds no secret (it is
    zero). Interrupted and short reads of the seed never leave a part of it unwritten. *)
Theorem random_lifecycle r urandom n :
  random_reachable r -> read_ok (reads urandom) 32 ->
  (curstate r = 1 \/ (curstate r = 0 /\ state r = repeat 0 200)) /\
  (generate_random_bytes_not_thread_safe n r <> None <-> curstate r = 1) /\
  (deinit_random r <> None <-> curstate r = 1) /\
  (forall r', init_random urandom r = Some r' -> curstate r = 0 /\ random_ready r').
Proof.
  intros Hr Hu. pose proof (reachable_state r Hr) as [-> | R].
  - split; [right; split; reflexivity|]. split; [split; [intros H; now contradiction H | discriminate]|].
    split; [split; [intros H; now contradiction H | discriminate]|].
    intros r' E. now destruct (init_random_spec urandom random_start r' Hu zero_state E).
  - pose proof R as [Hs Hc]. split; [now left|]. pose proof (generate_random_bytes_spec n r R) as H.
    split; [split; [trivial | intros _ E; now rewrite E in H]|].
    split; [split; [trivial | unfold deinit_random; intros ->; discriminate]|].
    intros r' E. now destruct (init_random_spec urandom r r' Hu Hs E).
Qed.

(** A device that is interrupted and returns the seed in two parts. *)
Definition slow_device : device := Device true [Interrupted; Got (repeat 7 20); Got (repeat 9 12)] true.

Lemma slow_device_ok : read_ok (reads slow_device) 32.
Proof.
  assert (forall k v, 0 <= v < 256 -> bytes (repeat v k)) as H.
  { intros k v Hv. apply Forall_forall. intros b Hb%repeat_spec. now subst b. }
  cbn [reads slow_device read_ok]. repeat split; try (apply H; lia); cbn; lia.
Qed.

Lemma random_lifecycle_witness :
  exists r', init_random slow_device random_start = Some r' /\ curstate random_start = 0 /\ random_ready r'.
Proof.
  exists (RandomState (repeat 7 20 ++ repeat 9 12 ++ repeat 0 168) 1). split; [reflexivity|].
  exact (proj2 (proj2 (proj2 (random_lifecycle random_start slow_device 8 reach_start slow_device_ok)))
    (RandomState (repeat 7 20 ++ repeat 9 12 ++ repeat 0 168) 1) eq_refl).
Defined.
