(* ===== verification/Encode.v ===== *)
(** * Encoded points and scalars

    The interface between the arithmetic of crypto-ops.c and the operations on keys of
    crypto.cpp, which see points and scalars as 32 bytes. Points and residues of scalars
    have one encoding each ([encode], [enc_scalar]); the lemmas restate the specifications
    of the point and scalar functions as equations on encodings. Multiples of the points
    that the order annihilates depend on the scalar modulo the order only. *)

From Stdlib Require Import ZArith Lia List Bool.
From S2P Require Import Prelude Bytes Fe FeMul Primes ScReduce Sc Curve Ge GeBytes GeScalar GeBase GeDouble Order.
Import ListNotations.

#[local] Open Scope Z_scope.

(** ** Encodings *)

Definition encode (P : point) : list Z := le_bytes 32 (point_code P).

Definition enc_scalar (n : Z) : list Z := le_bytes 32 (n mod ell).

Lemma le_bytes_32 v : scalar (le_bytes 32 v).
Proof. split; [apply bytes_le_bytes | apply length_le_bytes]. Qed.

Lemma le_bytes_unique s v : scalar s -> le_val s = v -> s = le_bytes 32 v.
Proof.
  intros [Hb Hl] <-. apply le_val_inj; [exact Hb | apply bytes_le_bytes | now rewrite length_le_bytes |].
  rewrite le_val_le_bytes. symmetry. apply Z.mod_small. pose proof (le_val_bound s Hb) as H. now rewrite Hl in H.
Qed.

Lemma encode_scalar P : scalar (encode P).
Proof. apply le_bytes_32. Qed.

Lemma le_val_encode P : le_val (encode P) = point_code P.
Proof. unfold encode. rewrite le_val_le_bytes. apply Z.mod_small, point_code_range. Qed.

Lemma encode_inj P Q : on_curve P -> on_curve Q -> encode P = encode Q -> P = Q.
Proof. intros HP HQ E. apply point_code_inj; trivial. now rewrite <- !le_val_encode, E. Qed.

Lemma ell_bounds : 0 < ell < 2 ^ 253.
Proof. split; reflexivity. Qed.

Lemma enc_scalar_scalar n : scalar (enc_scalar n).
Proof. apply le_bytes_32. Qed.

Lemma le_val_enc_scalar n : le_val (enc_scalar n) = n mod ell.
Proof.
  unfold enc_scalar. rewrite le_val_le_bytes. apply Z.mod_small. pose proof ell_bounds as B.
  pose proof (Z.mod_pos_bound n ell ltac:(lia)). change (256 ^ Z.of_nat 32) with (2 ^ 256). lia.
Qed.

Lemma canonical_enc v s : canonical v s -> s = enc_scalar v.
Proof. intros [Hs E]. now apply le_bytes_unique. Qed.

Lemma enc_scalar_val s : scalar s -> le_val s < ell -> s = enc_scalar (le_val s).
Proof.
  intros Hs Hv. apply le_bytes_unique; [exact Hs|]. symmetry. apply Z.mod_small.
  pose proof (le_val_bound s (proj1 Hs)). lia.
Qed.

Lemma enc_scalar_inj m n : enc_scalar m = enc_scalar n -> m mod ell = n mod ell.
Proof. intros E. now rewrite <- !le_val_enc_scalar, E. Qed.

Lemma enc_scalar_cong m n : m mod ell = n mod ell -> enc_scalar m = enc_scalar n.
Proof. unfold enc_scalar. now intros ->. Qed.

Lemma sc_0_enc : sc_0 = enc_scalar 0.
Proof. reflexivity. Qed.

Lemma enc_scalar_mod n : enc_scalar (n mod ell) = enc_scalar n.
Proof. unfold enc_scalar. now rewrite Z.mod_mod by discriminate. Qed.

(** A scalar below the order, as [sc_check] accepts it. *)
Definition reduced_scalar (s : list Z) : Prop := scalar s /\ le_val s < ell.

Lemma enc_scalar_reduced n : reduced_scalar (enc_scalar n).
Proof.
  split; [apply enc_scalar_scalar|]. rewrite le_val_enc_scalar. apply Z.mod_pos_bound, ell_pos.
Qed.

Lemma reduced_255 s : reduced_scalar s -> scalar255 s.
Proof. intros [[Hb Hl] Hv]. pose proof ell_bounds. split; [exact Hb|]. split; [exact Hl | lia]. Qed.

Lemma sc_check_reduced s : reduced_scalar s -> sc_check s = Some 0.
Proof. intros [Hs Hv]. rewrite sc_check_spec by exact Hs. now rewrite (proj2 (Z.ltb_lt _ _) Hv). Qed.

Lemma sc_check_large s : scalar s -> ~ reduced_scalar s -> sc_check s = Some (-1).
Proof.
  intros Hs Hn. rewrite sc_check_spec by exact Hs. destruct (Z.ltb_spec (le_val s) ell); [|reflexivity].
  contradiction Hn. now split.
Qed.

Lemma reduced_dec s : scalar s -> reduced_scalar s \/ ~ reduced_scalar s.
Proof. intros Hs. destruct (Z.lt_ge_cases (le_val s) ell); [left; now split | right; intros [_ H']; lia]. Qed.

(** ** Scalar operations *)

Lemma canonical_some m v : returns m (canonical v) -> m = Some (enc_scalar v).
Proof. intros [s [-> Hs]]%returns_some. f_equal. now apply canonical_enc. Qed.

Lemma sc_add_enc a b : scalar a -> scalar b -> sc_add a b = Some (enc_scalar (le_val a + le_val b)).
Proof. intros Ha Hb. now apply canonical_some, sc_add_spec. Qed.

Lemma sc_sub_enc a b : scalar a -> scalar b -> sc_sub a b = Some (enc_scalar (le_val a - le_val b)).
Proof. intros Ha Hb. now apply canonical_some, sc_sub_spec. Qed.

Lemma sc_mulsub_enc a b c :
  scalar a -> scalar b -> scalar c -> sc_mulsub a b c = Some (enc_scalar (le_val c - le_val a * le_val b)).
Proof. intros Ha Hb Hc. now apply canonical_some, sc_mulsub_spec. Qed.

Lemma sc_reduce32_enc s : scalar s -> sc_reduce32 s = Some (enc_scalar (le_val s)).
Proof. intros Hs. now apply canonical_some, sc_reduce32_spec. Qed.

(** ** Point operations *)

Lemma code_some (m : option (list Z)) P :
  returns m (fun s => bytes s /\ length s = 32%nat /\ le_val s = point_code P) -> m = Some (encode P).
Proof. intros [s (-> & Hb & Hl & E)]%returns_some. f_equal. apply le_bytes_unique; [now split | exact E]. Qed.

Lemma tobytes_encode (p : ge_p2) P : p ~> P -> ge_tobytes p = Some (encode P).
Proof. intros H. now apply code_some, ge_tobytes_spec. Qed.

Lemma p3_tobytes_encode (p : ge_p3) P : p ~> P -> ge_p3_tobytes p = Some (encode P).
Proof. intros H. now apply code_some, ge_p3_tobytes_spec. Qed.

(** Every array is the encoding of a point, or of none. *)
Lemma point_cases s :
  scalar s ->
  (exists P, on_curve P /\ s = encode P) \/
  (ge_frombytes_vartime s = Some None /\ forall P, on_curve P -> s <> encode P).
Proof.
  intros [Hb Hl]. pose proof (ge_frombytes_vartime_spec s Hb Hl) as [[h|] (E & H)]%returns_some.
  - left. destruct H as (P & HP & EP). exists P. split; [now apply (repr_on_curve_p3 h)|].
    now apply le_bytes_unique.
  - right. split; [exact E|]. intros P HP ->. apply (H P HP). symmetry. apply le_val_encode.
Qed.

Lemma frombytes_encode P : on_curve P -> exists h, ge_frombytes_vartime (encode P) = Some (Some h) /\ h ~> P.
Proof.
  intros HP. destruct (encode_scalar P) as [Hb Hl].
  pose proof (ge_frombytes_vartime_spec _ Hb Hl) as [[h|] (E & H)]%returns_some.
  - exists h. split; [exact E|]. destruct H as (Q & HQ & EQ). rewrite le_val_encode in EQ.
    replace P with Q; [exact HQ|]. apply point_code_inj; trivial. now apply (repr_on_curve_p3 h).
  - exfalso. apply (H P HP). symmetry. apply le_val_encode.
Qed.

(** Running code that decodes an encoded point. *)
Lemma frombytes_bind {A} P (K : option ge_p3 -> option A) Q :
  on_curve P -> (forall h, h ~> P -> returns (K (Some h)) Q) ->
  returns (bind (ge_frombytes_vartime (encode P)) K) Q.
Proof. intros HP HK. destruct (frombytes_encode P HP) as (h & -> & Hh). now apply HK. Qed.

Lemma tobytes_bind {A} (p : ge_p2) P (K : list Z -> option A) Q :
  p ~> P -> returns (K (encode P)) Q -> returns (bind (ge_tobytes p) K) Q.
Proof. intros H HK. now rewrite (tobytes_encode p P H). Qed.

Lemma p3_tobytes_bind {A} (p : ge_p3) P (K : list Z -> option A) Q :
  p ~> P -> returns (K (encode P)) Q -> returns (bind (ge_p3_tobytes p) K) Q.
Proof. intros H HK. now rewrite (p3_tobytes_encode p P H). Qed.

Lemma scalarmult_255 a A P :
  A ~> P -> scalar255 a -> returns (ge_scalarmult a A) (fun r => r ~> ed_mul (le_val a) P).
Proof.
  intros HA (Hb & Hl & Hv). apply ge_scalarmult_spec; trivial. intros x Ex.
  destruct (top_bit a Hb Hl) as (s31 & E31 & _ & Eb & _). rewrite E31 in Ex. injection Ex as <-.
  rewrite (Z.div_small (le_val a)) in Eb by (pose proof (le_val_bound a Hb); lia). 
  assert (0 <= s31 < 256) as B by (apply (proj1 (Forall_forall _ _) Hb), (nth_error_In _ _ E31)).
  rewrite Z.shiftr_div_pow2 in Eb by lia. change (2 ^ 7) with 128 in Eb.
  pose proof (Z.div_mod s31 128 ltac:(lia)). pose proof (Z.mod_pos_bound s31 128 ltac:(lia)). lia.
Qed.

Lemma scalarmult_base_255 a :
  scalar255 a -> returns (ge_scalarmult_base a) (fun r => r ~> ed_mul (le_val a) base_point).
Proof. intros (Hb & Hl & Hv). now apply ge_scalarmult_base_spec. Qed.

#[export] Hint Resolve scalarmult_255 scalarmult_base_255 double_base_spec double_precomp_spec ge_dsm_precomp_spec
  ge_mul8_spec reduced_255 enc_scalar_reduced
  ed_mul_on_curve ed_add_on_curve ed_opp_on_curve base_point_on_curve : ge.

(** Executes the next steps of code on points; stops at the code's other operations. *)
Ltac key_run :=
  repeat first
    [ eapply tobytes_bind; [eassumption|]
    | eapply p3_tobytes_bind; [eassumption|]
    | eapply frombytes_bind; [solve [eauto with ge] | intros ? ?; cbv beta iota]
    | eapply returns_bind; [solve [eauto with ge] | cbv beta; intros ? ?] ].

(** ** Points of the subgroup *)

Definition in_subgroup (P : point) : Prop := on_curve P /\ ed_mul ell P = ed_0.

Lemma base_in_subgroup : in_subgroup base_point.
Proof. split; [apply base_point_on_curve | apply ell_base]. Qed.

Lemma mul_in_subgroup n P : in_subgroup P -> in_subgroup (ed_mul n P).
Proof.
  intros [HP Hl]. split; [now apply ed_mul_on_curve|].
  rewrite <- ed_mul_mul, Z.mul_comm, ed_mul_mul, Hl by exact HP. apply ed_mul_ed_0.
Qed.

(** Multiplying by the cofactor leads into the subgroup. *)
Lemma mul8_in_subgroup P : on_curve P -> in_subgroup (ed_mul 8 P).
Proof.
  intros HP. split; [now apply ed_mul_on_curve|]. rewrite <- ed_mul_mul, Z.mul_comm by exact HP.
  now apply ed_exponent.
Qed.

(** In the subgroup, multiples depend on the residue of the scalar. *)
Lemma ed_mul_mod P m n : in_subgroup P -> m mod ell = n mod ell -> ed_mul m P = ed_mul n P.
Proof.
  intros [HP Hl] E. assert (forall k, ed_mul k P = ed_mul (k mod ell) P) as K.
  { intros k. rewrite (Z.div_mod k ell) at 1 by discriminate.
    rewrite ed_mul_add, (Z.mul_comm ell), ed_mul_mul, Hl, ed_mul_ed_0 by exact HP. apply ed_add_0_l. }
  now rewrite (K m), (K n), E.
Qed.

Lemma ed_mul_residue P n : in_subgroup P -> ed_mul (n mod ell) P = ed_mul n P.
Proof. intros HP. apply ed_mul_mod; [exact HP|]. apply Z.mod_mod. discriminate. Qed.

Lemma ed_mul_comm m n P : on_curve P -> ed_mul m (ed_mul n P) = ed_mul n (ed_mul m P).
Proof. intros HP. rewrite <- !ed_mul_mul by exact HP. f_equal. lia. Qed.
