(* ===== verification/KeyOps.v ===== *)
(** * Keys, derivations and one-time addresses

    Models the operations on keys of crypto.cpp: random scalars, hashing to a scalar,
    [generate_keys], [check_key], [secret_key_to_public_key], [generate_key_derivation],
    [derivation_to_scalar], [derive_public_key], [derive_secret_key] and
    [derive_subaddress_public_key]. Keys are arrays of 32 bytes. A function that returns
    a [bool] and writes an output gives an option, [None] for [false]; around it, [None]
    is a failed assertion. The hash and the generator of random bytes are the classes
    [FastHash] and [RandomBytes], and the class [Build] tells builds with assertions from
    release builds. The mutex of [random_scalar] is left out: calls are in sequence. *)

From Stdlib Require Import ZArith Lia List Bool.
From S2P Require Import Prelude Bytes Fe FeMul Primes ScReduce Sc Curve Ge.
From S2P Require Import GeBytes GeScalar GeBase GeDouble Keccak TreeHash Order Varint Random Encode.
Import ListNotations.

#[local] Open Scope Z_scope.
#[local] Opaque ed_mul ed_add base_point encode enc_scalar point_code.

(** Whether the build checks assertions: [!defined(NDEBUG)]. *)
Class Build : Type := { debug : bool }.

(** [if? x := m else e in k]: [if (m != 0) return e;] for code that decodes [x]. *)
Notation "'if?' x ':=' m 'else' e 'in' k" :=
  (bind m (fun r => match r with Some x => k | None => e end))
  (at level 10, x name, m at level 100, e at level 100, k at level 200) : c_scope.

Section KeyOps.
  Context {FH : FastHash} {RB : RandomBytes} {BD : Build}.

(** ** The code *)

Definition random_scalar_not_thread_safe (r : rng) : option (list Z * rng) :=
  let! '(tmp, r) := random_bytes 64 r in
  let! tmp := sc_reduce tmp in
  Some (firstn 32 tmp, r).

Definition random_scalar (r : rng) : option (list Z * rng) := random_scalar_not_thread_safe r.

Definition hash_to_scalar (data : list Z) (length : nat) : option (list Z) :=
  let! res := fast_hash data length in
  sc_reduce32 res.

(** The outputs [pub] and [sec], the value returned, and the generator. *)
Definition generate_keys (recovery_key : list Z) (recover : bool) (r : rng)
  : option (list Z * list Z * list Z * rng) :=
  let! '(rng, r) := if recover then Some (recovery_key, r) else random_scalar r in
  let! sec := sc_reduce32 rng in
  let! point := ge_scalarmult_base sec in
  let! pub := ge_p3_tobytes point in
  Some (pub, sec, rng, r).

Definition check_key (key : list Z) : option bool :=
  let! r := ge_frombytes_vartime key in
  Some (match r with Some _ => true | None => false end).

Definition secret_key_to_public_key (sec : list Z) : option (option (list Z)) :=
  let! c := sc_check sec in
  if negb (c =? 0) then Some None
  else
    let! point := ge_scalarmult_base sec in
    let! pub := ge_p3_tobytes point in
    Some (Some pub).

(** Code that only builds with assertions run. *)
Definition debug_only (m : option unit) : option unit := if debug then m else Some tt.

(** [assert(sc_check(&s) == 0)] *)
Definition assert_sc_check (s : list Z) : option unit :=
  debug_only (let! c := sc_check s in cassert (c =? 0)).

Definition generate_key_derivation (key1 key2 : list Z) : option (option (list Z)) :=
  let! _ := assert_sc_check key2 in
  if? point := ge_frombytes_vartime key1 else Some None in
  let! point2 := ge_scalarmult key2 point in
  let! point3 := ge_mul8 point2 in
  let! point2 := ge_p1p1_to_p2 point3 in
  let! derivation := ge_tobytes point2 in
  Some (Some derivation).

(** [sizeof buf.output_index]: [(sizeof(size_t) * 8 + 6) / 7]. *)
Definition sizeof_output_index : nat := 10.

Definition derivation_to_scalar (derivation : list Z) (output_index : Z) : option (list Z) :=
  let! varint := write_varint output_index in
  let! _ := debug_only (cassert (length varint <=? sizeof_output_index)%nat) in
  hash_to_scalar (derivation ++ varint) (length derivation + length varint).

Definition derive_public_key (derivation : list Z) (output_index : Z) (base : list Z) : option (option (list Z)) :=
  if? point1 := ge_frombytes_vartime base else Some None in
  let! scalar := derivation_to_scalar derivation output_index in
  let! point2 := ge_scalarmult_base scalar in
  let! point3 := ge_p3_to_cached point2 in
  let! point4 := ge_add point1 point3 in
  let! point5 := ge_p1p1_to_p2 point4 in
  let! derived_key := ge_tobytes point5 in
  Some (Some derived_key).

Definition derive_secret_key (derivation : list Z) (output_index : Z) (base : list Z) : option (list Z) :=
  let! _ := assert_sc_check base in
  let! scalar := derivation_to_scalar derivation output_index in
  sc_add base scalar.

Definition derive_subaddress_public_key (out_key derivation : list Z) (output_index : Z)
  : option (option (list Z)) :=
  if? point1 := ge_frombytes_vartime out_key else Some None in
  let! scalar := derivation_to_scalar derivation output_index in
  let! point2 := ge_scalarmult_base scalar in
  let! point3 := ge_p3_to_cached point2 in
  let! point4 := ge_sub point1 point3 in
  let! point5 := ge_p1p1_to_p2 point4 in
  let! derived_key := ge_tobytes point5 in
  Some (Some derived_key).

Lemma debug_only_some m : m = Some tt -> debug_only m = Some tt.
Proof. intros ->. unfold debug_only. now destruct debug. Qed.

Lemma assert_reduced s : reduced_scalar s -> assert_sc_check s = Some tt.
Proof. intros Hs. apply debug_only_some. now rewrite sc_check_reduced. Qed.

Lemma assert_large s : scalar s -> ~ reduced_scalar s -> debug = true -> assert_sc_check s = None.
Proof. intros Hs Hn D. unfold assert_sc_check, debug_only. now rewrite D, sc_check_large. Qed.

(** ** Hashing to scalars *)

(** The integer below the order that a string hashes to. *)
Definition Hs (data : list Z) : Z :=
  match fast_hash data (length data) with Some h => le_val h mod ell | None => 0 end.

Lemma Hs_range data : 0 <= Hs data < ell.
Proof.
  unfold Hs. pose proof ell_bounds. destruct (fast_hash data _); [apply Z.mod_pos_bound|]; lia.
Qed.

Lemma hash_to_scalar_enc data n :
  bytes data -> n = length data -> hash_to_scalar data n = Some (enc_scalar (Hs data)).
Proof.
  intros Hd ->. unfold hash_to_scalar, Hs. pose proof (fast_hash_total data Hd) as H.
  destruct (fast_hash data (length data)) as [h|]; [|contradiction]. cbn [bind].
  rewrite sc_reduce32_enc by exact H. now rewrite enc_scalar_mod.
Qed.

Lemma random_scalar_spec r :
  rng_ready r -> returns (random_scalar r) (fun '(k, r') => reduced_scalar k /\ rng_ready r').
Proof.
  intros Hr. unfold random_scalar, random_scalar_not_thread_safe.
  eapply returns_bind; [now apply random_bytes_total|]. cbv beta. intros [tmp r'] (Hb & Hl & Hr').
  eapply returns_bind; [now apply sc_reduce_spec|]. cbv beta. intros t [Hc _]. cbn [returns].
  split; [|exact Hr']. split; [apply Hc|]. now apply canonical_range in Hc.
Qed.

(** The string that [derivation_to_scalar] hashes. *)
Definition derivation_data (derivation : list Z) (output_index : Z) : list Z :=
  derivation ++ match write_varint output_index with Some v => v | None => [] end.

Lemma write_varint_ok i :
  0 <= i < 2 ^ 64 ->
  exists v, write_varint i = Some v /\ bytes v /\ (length v <= sizeof_output_index)%nat.
Proof.
  intros Hi. destruct (write_varint_total i Hi) as [v E]. exists v. split; [exact E|].
  exact (write_varint_shape 9 i v ltac:(lia) E).
Qed.

Lemma derivation_to_scalar_enc derivation i :
  scalar derivation -> 0 <= i < 2 ^ 64 ->
  derivation_to_scalar derivation i = Some (enc_scalar (Hs (derivation_data derivation i))).
Proof.
  intros [Hb Hl] Hi. unfold derivation_to_scalar, derivation_data.
  destruct (write_varint_ok i Hi) as (v & -> & Hv & Lv). cbn [bind].
  rewrite (proj2 (Nat.leb_le _ _) Lv). cbn [cassert]. rewrite debug_only_some by reflexivity. cbn [bind].
  apply hash_to_scalar_enc; [now apply bytes_app | symmetry; apply length_app].
Qed.

Lemma derivation_data_bytes d i : scalar d -> 0 <= i < 2 ^ 64 -> bytes (derivation_data d i).
Proof.
  intros [Hb _] Hi. unfold derivation_data. destruct (write_varint_ok i Hi) as (v & -> & Hv & _). now apply bytes_app.
Qed.

(** Different derivations or indices are hashed as different strings. *)
Lemma derivation_data_inj d i d' i' :
  scalar d -> scalar d' -> 0 <= i < 2 ^ 64 -> 0 <= i' < 2 ^ 64 ->
  derivation_data d i = derivation_data d' i' -> d = d' /\ i = i'.
Proof.
  intros Hd Hd' Hi Hi' E. apply app_inj_length in E; [|now rewrite (proj2 Hd), (proj2 Hd')].
  destruct E as [-> E]. split; [reflexivity|].
  destruct (write_varint_total i Hi) as [v Ev], (write_varint_total i' Hi') as [v' Ev'].
  rewrite Ev, Ev' in E. subst v'. now apply (write_varint_inj i i' v).
Qed.

(** ** Running the operations on encoded keys *)

Lemma generate_keys_spec recovery_key recover r :
  rng_ready r -> scalar recovery_key ->
  returns (generate_keys recovery_key recover r) (fun '(pub, sec, rng, r') =>
    sec = enc_scalar (le_val rng) /\ pub = encode (ed_mul (le_val rng) base_point) /\
    (if recover then rng = recovery_key else reduced_scalar rng) /\ rng_ready r').
Proof.
  intros Hr Hk. unfold generate_keys.
  assert (returns (if recover then Some (recovery_key, r) else random_scalar r) (fun '(k, r') =>
    scalar k /\ (if recover then k = recovery_key else reduced_scalar k) /\ rng_ready r')) as H.
  { destruct recover; [cbn [returns]; auto|]. eapply returns_weaken; [now apply random_scalar_spec|].
    cbv beta. intros [k r'] [Hk' Hr']. split; [apply Hk' | now split]. }
  eapply returns_bind; [exact H|]. cbv beta. intros [k r'] (Sk & Ck & Hr'). clear H.
  rewrite sc_reduce32_enc by exact Sk. cbn [bind].
  eapply returns_bind; [auto with ge|]. cbv beta. intros p Hp. rewrite le_val_enc_scalar in Hp.
  eapply p3_tobytes_bind; [exact Hp|]. cbn [returns]. split; [reflexivity|]. split; [|now split].
  f_equal. apply ed_mul_residue, base_in_subgroup.
Qed.

Lemma check_key_encode P : on_curve P -> check_key (encode P) = Some true.
Proof. intros HP. unfold check_key. destruct (frombytes_encode P HP) as (h & -> & _). reflexivity. Qed.

Lemma secret_to_public sec :
  reduced_scalar sec ->
  secret_key_to_public_key sec = Some (Some (encode (ed_mul (le_val sec) base_point))).
Proof.
  intros Hs. apply returns_eq. unfold secret_key_to_public_key. rewrite sc_check_reduced by exact Hs. cbn [bind Z.eqb negb].
  key_run. reflexivity.
Qed.

Lemma derivation_encode P sec :
  on_curve P -> reduced_scalar sec ->
  generate_key_derivation (encode P) sec = Some (Some (encode (ed_mul (8 * le_val sec) P))).
Proof.
  intros HP Hs. apply returns_eq. unfold generate_key_derivation. rewrite assert_reduced by exact Hs. cbn [bind]. apply frombytes_bind with (1 := HP). intros h Hh.
  key_run. cbn [returns]. now rewrite ed_mul_mul.
Qed.

Lemma derive_public_encode d i P :
  scalar d -> 0 <= i < 2 ^ 64 -> on_curve P ->
  derive_public_key d i (encode P)
    = Some (Some (encode (ed_add P (ed_mul (Hs (derivation_data d i)) base_point)))).
Proof.
  intros Hd Hi HP. apply returns_eq. unfold derive_public_key. apply frombytes_bind with (1 := HP). intros h Hh.
  rewrite derivation_to_scalar_enc by assumption. cbn [bind].
  eapply returns_bind; [auto with ge|]. cbv beta. intros p3 H3.
  rewrite le_val_enc_scalar, Z.mod_small in H3 by apply Hs_range. key_run. reflexivity.
Qed.

Lemma derive_subaddress_encode d i P :
  scalar d -> 0 <= i < 2 ^ 64 -> on_curve P ->
  derive_subaddress_public_key (encode P) d i
    = Some (Some (encode (ed_add P (ed_opp (ed_mul (Hs (derivation_data d i)) base_point))))).
Proof.
  intros Hd Hi HP. apply returns_eq. unfold derive_subaddress_public_key. apply frombytes_bind with (1 := HP). intros h Hh.
  rewrite derivation_to_scalar_enc by assumption. cbn [bind].
  eapply returns_bind; [auto with ge|]. cbv beta. intros p3 H3.
  rewrite le_val_enc_scalar, Z.mod_small in H3 by apply Hs_range. key_run. reflexivity.
Qed.

Lemma derive_secret_enc d i base :
  scalar d -> 0 <= i < 2 ^ 64 -> reduced_scalar base ->
  derive_secret_key d i base = Some (enc_scalar (le_val base + Hs (derivation_data d i))).
Proof.
  intros Hd Hi Hb. unfold derive_secret_key. rewrite assert_reduced by exact Hb. cbn [bind].
  rewrite derivation_to_scalar_enc by assumption. cbn [bind].
  rewrite sc_add_enc by (apply Hb || apply enc_scalar_scalar).
  now rewrite le_val_enc_scalar, Z.mod_small by apply Hs_range.
Qed.

(** ** Claims *)

(** C20: one-time addresses: for every key pair (a, b) of a recipient, every transaction secret r
    and every output index, the sender, who knows the public keys, and the recipient, who
    knows the secrets, compute the same derivation; the one-time public key that the sender
    derives is the public key of the one-time secret key that the recipient derives; and the
    recipient recovers the public spend key from it. Nothing fails on the way. *)
Theorem one_time_address_correct a b r i :
  reduced_scalar a -> reduced_scalar b -> reduced_scalar r -> 0 <= i < 2 ^ 64 ->
  exists A B R D P x,
    secret_key_to_public_key a = Some (Some A) /\ secret_key_to_public_key b = Some (Some B) /\
    secret_key_to_public_key r = Some (Some R) /\
    generate_key_derivation A r = Some (Some D) /\ generate_key_derivation R a = Some (Some D) /\
    derive_public_key D i B = Some (Some P) /\
    derive_secret_key D i b = Some x /\ secret_key_to_public_key x = Some (Some P) /\
    derive_subaddress_public_key P D i = Some (Some B).
Proof.
  intros Ha Hb Hr Hi. pose proof base_point_on_curve as HG. pose proof base_in_subgroup as SG.
  set (A := ed_mul (le_val a) base_point). set (B := ed_mul (le_val b) base_point).
  assert (on_curve A /\ on_curve B) as [HA HB] by (split; now apply ed_mul_on_curve).
  set (D := encode (ed_mul (8 * le_val r) A)). set (h := Hs (derivation_data D i)).
  assert (scalar D) as HD by apply encode_scalar.
  assert (ed_mul (le_val b + h) base_point = ed_add B (ed_mul h base_point)) as EP by (now apply ed_mul_add).
  exists (encode A), (encode B), (encode (ed_mul (le_val r) base_point)), D,
    (encode (ed_add B (ed_mul h base_point))), (enc_scalar (le_val b + h)).
  split; [now apply secret_to_public|]. split; [now apply secret_to_public|]. split; [now apply secret_to_public|].
  split; [now apply derivation_encode|]. split.
  { rewrite (derivation_encode _ a (ed_mul_on_curve base_point HG (le_val r)) Ha). unfold D, A.
    do 3 f_equal. rewrite <- !ed_mul_mul by exact HG. f_equal. lia. }
  split; [now apply derive_public_encode|]. split; [now apply derive_secret_enc|]. split.
  { rewrite secret_to_public by apply enc_scalar_reduced. rewrite le_val_enc_scalar, <- EP.
    do 3 f_equal. exact (ed_mul_residue _ _ SG). }
  assert (on_curve (ed_mul h base_point)) as Hh by now apply ed_mul_on_curve.
  rewrite derive_subaddress_encode; trivial; [|now apply ed_add_on_curve]. fold h. do 3 f_equal.
  rewrite ed_add_assoc, (ed_add_comm (ed_mul h _)), ed_add_opp_l, ed_add_comm by auto using ed_opp_on_curve.
  apply ed_add_0_l.
Qed.

(** Key generation: with a working generator, or in recovery from any 32 bytes, a key pair is
    produced; the secret key is reduced, the public key is valid and is the one of the secret
    key, and recovering from the returned value reproduces both without drawing randomness. *)
Theorem generate_keys_correct recovery_key recover r :
  rng_ready r -> scalar recovery_key ->
  exists pub sec k r', generate_keys recovery_key recover r = Some (pub, sec, k, r') /\
    rng_ready r' /\ (recover = true -> k = recovery_key) /\
    sc_check sec = Some 0 /\ check_key pub = Some true /\
    secret_key_to_public_key sec = Some (Some pub) /\
    generate_keys k true r' = Some (pub, sec, k, r').
Proof.
  intros Hr Hk. pose proof (generate_keys_spec recovery_key recover r Hr Hk) as G. apply returns_some in G.
  destruct G as ([[[pub sec] k] r'] & E & -> & -> & Ck & Hr').
  set (P := ed_mul (le_val k) base_point) in *.
  assert (on_curve P) as HP by apply ed_mul_on_curve, base_point_on_curve.
  exists (encode P), (enc_scalar (le_val k)), k, r'. split; [exact E|]. split; [exact Hr'|].
  split; [intros ->; exact Ck|]. split; [apply sc_check_reduced, enc_scalar_reduced|].
  split; [now apply check_key_encode|]. split.
  - rewrite secret_to_public by apply enc_scalar_reduced. rewrite le_val_enc_scalar.
    do 3 f_equal. apply ed_mul_residue, base_in_subgroup.
  - assert (scalar k) as Sk by (destruct recover; [now rewrite Ck | apply Ck]).
    assert (returns (generate_keys k true r') (fun x => x = (encode P, enc_scalar (le_val k), k, r'))) as H.
    { unfold generate_keys. cbn [bind]. rewrite sc_reduce32_enc by exact Sk. cbn [bind].
      eapply returns_bind; [auto with ge|]. cbv beta. intros p Hp.
      rewrite le_val_enc_scalar, (ed_mul_residue _ _ base_in_subgroup) in Hp.
      key_run. reflexivity. }
    now apply returns_eq in H.
Qed.

(** C21: what the operations on keys refuse: for every 32-byte key, [check_key] tells whether it is
    the encoding of a point of the curve, and [generate_key_derivation], [derive_public_key]
    and [derive_subaddress_public_key] return false exactly when it is not; a secret key that
    is not below the order is refused by [secret_key_to_public_key] and, in builds that check
    them, fails the assertions of the derivations. *)
Theorem key_errors_correct key sec d i :
  scalar key -> scalar sec -> scalar d -> 0 <= i < 2 ^ 64 ->
  (check_key key = Some true <-> exists P, on_curve P /\ key = encode P) /\
  (check_key key = Some false <-> derive_public_key d i key = Some None) /\
  (check_key key = Some false <-> derive_subaddress_public_key key d i = Some None) /\
  (reduced_scalar sec -> (check_key key = Some false <-> generate_key_derivation key sec = Some None)) /\
  (~ reduced_scalar sec -> secret_key_to_public_key sec = Some None /\
     (debug = true -> generate_key_derivation key sec = None /\ derive_secret_key d i sec = None)).
Proof.
  intros Hk Hs Hd Hi.
  assert (~ reduced_scalar sec -> secret_key_to_public_key sec = Some None /\
     (debug = true -> generate_key_derivation key sec = None /\ derive_secret_key d i sec = None)) as L.
  { intros Hn. unfold secret_key_to_public_key, generate_key_derivation, derive_secret_key.
    rewrite (sc_check_large sec Hs Hn). split; [reflexivity|]. intros D.
    rewrite assert_large by assumption. split; reflexivity. }
  destruct (point_cases key Hk) as [(P & HP & ->) | [E N]].
  - rewrite check_key_encode, derive_public_encode, derive_subaddress_encode by assumption.
    split; [split; [eauto | reflexivity]|]. split; [split; discriminate|]. split; [split; discriminate|].
    split; [|exact L]. intros R. rewrite derivation_encode by assumption. split; discriminate.
  - unfold check_key, derive_public_key, derive_subaddress_public_key. rewrite E. cbn [bind].
    split; [split; [discriminate | intros (P & HP & ->); now contradiction (N P HP)]|].
    split; [split; reflexivity|]. split; [split; reflexivity|]. split; [|exact L].
    intros R. unfold generate_key_derivation. rewrite assert_reduced, E by exact R. split; reflexivity.
Qed.

(** The scalars of different outputs are independent hashes: when two pairs of a derivation and
    an output index give the same scalar, the pairs are equal, or two different strings have
    the same hash to a scalar. *)
Theorem derivation_binding d i d' i' :
  scalar d -> scalar d' -> 0 <= i < 2 ^ 64 -> 0 <= i' < 2 ^ 64 ->
  derivation_to_scalar d i = derivation_to_scalar d' i' ->
  (d = d' /\ i = i') \/
  (let x := derivation_data d i in let y := derivation_data d' i' in x <> y /\ hash_to_scalar x (length x) = hash_to_scalar y (length y)).
Proof.
  intros Hd Hd' Hi Hi' E. destruct (list_eq_dec Z.eq_dec (derivation_data d i) (derivation_data d' i')) as [K|K].
  - left. now apply derivation_data_inj.
  - right. split; [exact K|].
    rewrite !derivation_to_scalar_enc in E by assumption.
    rewrite !hash_to_scalar_enc; trivial; apply derivation_data_bytes; assumption.
Qed.
End KeyOps.

(** *** Witnesses *)

Definition debug_build : Build := {| debug := true |}.
#[local] Existing Instance debug_build.

Lemma one_time_address_correct_witness :
  exists A B R D P x,
    secret_key_to_public_key (enc_scalar 5) = Some (Some A) /\ secret_key_to_public_key (enc_scalar 7) = Some (Some B) /\
    secret_key_to_public_key (enc_scalar 11) = Some (Some R) /\
    generate_key_derivation A (enc_scalar 11) = Some (Some D) /\ generate_key_derivation R (enc_scalar 5) = Some (Some D) /\
    derive_public_key D 300 B = Some (Some P) /\
    derive_secret_key D 300 (enc_scalar 7) = Some x /\ secret_key_to_public_key x = Some (Some P) /\
    derive_subaddress_public_key P D 300 = Some (Some B).
Proof.
  exact (one_time_address_correct (enc_scalar 5) (enc_scalar 7) (enc_scalar 11) 300
    (enc_scalar_reduced 5) (enc_scalar_reduced 7) (enc_scalar_reduced 11) ltac:(lia)).
Defined.

(** The generator after seeding from the device of the example. *)
Definition seeded : random_state := RandomState (repeat 7 20 ++ repeat 9 12 ++ repeat 0 168) 1.

Lemma seeded_ready : random_ready seeded.
Proof. now apply (init_random_spec slow_device random_start seeded slow_device_ok zero_state). Qed.

Lemma generate_keys_correct_witness :
  exists pub sec k r', generate_keys (enc_scalar 0) false seeded = Some (pub, sec, k, r') /\
    random_ready r' /\ (false = true -> k = enc_scalar 0) /\
    sc_check sec = Some 0 /\ check_key pub = Some true /\
    secret_key_to_public_key sec = Some (Some pub) /\
    generate_keys k true r' = Some (pub, sec, k, r').
Proof. exact (generate_keys_correct (enc_scalar 0) false seeded seeded_ready (enc_scalar_scalar 0)). Defined.

Lemma ones32_not_reduced : ~ reduced_scalar ones32.
Proof. intros [_ H]. revert H. vm_compute. discriminate. Qed.

Lemma key_errors_correct_witness :
  secret_key_to_public_key ones32 = Some None /\
  generate_key_derivation ones32 ones32 = None /\ derive_secret_key ones32 0 ones32 = None.
Proof.
  pose proof (proj2 (proj2 (proj2 (proj2 (key_errors_correct ones32 ones32 ones32 0
    ones32_scalar ones32_scalar ones32_scalar ltac:(lia))))) ones32_not_reduced) as [H1 H2].
  exact (conj H1 (H2 eq_refl)).
Defined.

Lemma derivation_binding_witness :
  (ones32 = ones32 /\ 5 = 5) \/
  (let x := derivation_data ones32 5 in let y := derivation_data ones32 5 in x <> y /\ hash_to_scalar x (length x) = hash_to_scalar y (length y)).
Proof. exact (derivation_binding ones32 5 ones32 5 ones32_scalar ones32_scalar ltac:(lia) ltac:(lia) eq_refl). Defined.

(** ** The order of the group, as the code sees it *)

(** One as a scalar, and the encoding of the neutral element. *)
Definition one_bytes : list Z := 1 :: repeat 0 31.

Lemma one_bytes_scalar : one_bytes = enc_scalar 1.
Proof. reflexivity. Qed.

Lemma neutral_bytes : encode ed_0 = one_bytes.
Proof. vm_compute. reflexivity. Qed.

Lemma reduced_zero s : scalar s -> sc_reduce32 s = Some sc_0 <-> (ell | le_val s).
Proof.
  intros Hs. rewrite sc_reduce32_enc, sc_0_enc by exact Hs. rewrite <- Z.mod_divide by discriminate. split.
  - intros E. apply some_inj, enc_scalar_inj in E. exact E.
  - intros E. f_equal. apply enc_scalar_cong. exact E.
Qed.

Lemma base_multiple_neutral s :
  scalar255 s -> exists p out r, ge_scalarmult_base s = Some p /\ ge_p3_tobytes p = Some out /\ sc_reduce32 s = Some r /\ (out = one_bytes <-> r = sc_0).
Proof.
  intros Hs. pose proof (scalarmult_base_255 s Hs) as (p & Ep & Rp)%returns_some. pose proof (proj1 Hs) as Hb.
  assert (scalar s) as Ss by (destruct Hs as (? & ? & _); now split).
  exists p, (encode (ed_mul (le_val s) base_point)), (enc_scalar (le_val s)).
  split; [exact Ep|]. split; [now apply p3_tobytes_encode|]. split; [now apply sc_reduce32_enc|].
  transitivity (ell | le_val s).
  - rewrite <- neutral_bytes, <- base_order. split; [|now intros ->].
    intros E. apply encode_inj in E; [exact E | apply ed_mul_on_curve, base_point_on_curve | apply ed_0_on_curve].
  - rewrite <- (reduced_zero s Ss), sc_reduce32_enc by exact Ss. split; [apply some_inj | now intros ->].
Qed.

Lemma cofactor_neutral {BD : Build} k s :
  scalar k -> scalar255 s -> check_key k = Some true -> debug = false -> sc_reduce32 s = Some sc_0 ->
  generate_key_derivation k s = Some (Some one_bytes).
Proof.
  intros Hk Hs Ck Hd E. apply reduced_zero in E as [q Eq]; [|destruct Hs as (? & ? & _); now split].
  destruct (point_cases k Hk) as [(P & HP & ->) | [N _]]; [|unfold check_key in Ck; rewrite N in Ck; discriminate Ck].
  apply returns_eq. unfold generate_key_derivation, assert_sc_check, debug_only. rewrite Hd. cbn [bind].
  apply frombytes_bind with (1 := HP). intros h Hh. key_run. cbn [returns]. rewrite <- neutral_bytes. do 2 f_equal.
  rewrite <- ed_mul_mul by exact HP. rewrite Eq. replace (8 * (q * ell)) with (q * (ell * 8)) by ring. rewrite !ed_mul_mul by (try apply ed_mul_on_curve; exact HP).
  rewrite (proj2 (mul8_in_subgroup P HP)). apply ed_mul_ed_0.
Qed.

Lemma reduced_inverse a :
  scalar a -> sc_check a = Some 0 -> a <> sc_0 -> exists b, sc_check b = Some 0 /\ sc_mul a b = Some one_bytes.
Proof.
  intros Ha Ca Na. assert (le_val a < ell) as La.
  { destruct (reduced_dec a Ha) as [[_ L] | N]; [exact L|]. rewrite (sc_check_large a Ha N) in Ca. discriminate Ca. }
  pose proof (le_val_bound a (proj1 Ha)) as [B _].
  assert (le_val a mod ell <> 0) as Nz.
  { rewrite Z.mod_small by lia. intros Z. apply Na. rewrite (enc_scalar_val a Ha La), Z. reflexivity. }
  exists (enc_scalar (Z.invmod (le_val a) ell)). split; [apply sc_check_reduced, enc_scalar_reduced|].
  rewrite (canonical_some _ _ (sc_mul_spec a _ Ha (enc_scalar_scalar _))), one_bytes_scalar. f_equal. apply enc_scalar_cong.
  rewrite le_val_enc_scalar, Z.mul_mod_idemp_r, Z.mul_comm by discriminate. rewrite Z.invmod_prime by (exact ell_prime || exact Nz). reflexivity.
Qed.

(** C34: the order of the group: the number that the scalar functions reduce by is the order of the base
    point, times the cofactor it annihilates the group, and it is a prime. A multiple of the base
    point by [ge_scalarmult_base] is the neutral element exactly when [sc_reduce32] of the scalar is
    zero; in release builds, [generate_key_derivation] of every valid key, which multiplies by 8, and a
    scalar that reduces to zero is the neutral element; and every scalar but zero that
    [sc_check] accepts has an inverse for [sc_mul] that it accepts. *)
Theorem group_order_correct {BD : Build} s k a :
  scalar255 s -> scalar k -> scalar a ->
  (exists p out r, ge_scalarmult_base s = Some p /\ ge_p3_tobytes p = Some out /\ sc_reduce32 s = Some r /\ (out = one_bytes <-> r = sc_0)) /\
  (check_key k = Some true -> debug = false -> sc_reduce32 s = Some sc_0 -> generate_key_derivation k s = Some (Some one_bytes)) /\
  (sc_check a = Some 0 -> a <> sc_0 -> exists b, sc_check b = Some 0 /\ sc_mul a b = Some one_bytes).
Proof.
  intros Hs Hk Ha. split; [now apply base_multiple_neutral|]. split; [now apply cofactor_neutral | now apply reduced_inverse].
Qed.

(** The bytes of the order. *)
Definition order_bytes : list Z := le_bytes 32 ell.

Lemma order_bytes_255 : scalar255 order_bytes.
Proof.
  destruct (le_bytes_32 ell) as [Hb Hl]. split; [exact Hb|]. split; [exact Hl|].
  unfold order_bytes. rewrite le_val_le_bytes. vm_compute. reflexivity.
Qed.

Lemma order_reduces : sc_reduce32 order_bytes = Some sc_0.
Proof. vm_compute. reflexivity. Qed.

Lemma group_order_correct_witness :
  @generate_key_derivation {| debug := false |} (encode base_point) order_bytes = Some (Some one_bytes).
Proof.
  exact (proj1 (proj2 (@group_order_correct {| debug := false |} order_bytes (encode base_point) (enc_scalar 5) order_bytes_255 (encode_scalar base_point) (enc_scalar_scalar 5)))
    (check_key_encode base_point base_point_on_curve) eq_refl order_reduces).
Defined.
