(* ===== verification/Signature.v ===== *)
(** * Signatures and proofs of transactions

    Models [generate_signature], [check_signature], [generate_tx_proof] and
    [check_tx_proof] of crypto.cpp: Schnorr signatures, and proofs that two pairs of
    points have the same discrete logarithm. Exceptions are values of [outcome]. The
    theorems are completeness, what exactly the checks accept, and soundness: two accepted
    answers to different challenges of one commitment determine the secret. *)

From Stdlib Require Import ZArith Zcong Lia List Bool String.
From S2P Require Import Prelude Bytes Fe FeMul Primes ScReduce Sc Curve Ge GeBytes.
From S2P Require Import GeScalar GeBase GeDouble Keccak TreeHash Order Varint Random Encode KeyOps.
Import ListNotations.

#[local] Open Scope Z_scope.
#[local] Open Scope list_scope.
#[local] Opaque ed_mul ed_add base_point encode enc_scalar point_code.

Record signature := Signature { sig_c : list Z; sig_r : list Z }.

(** A function that can throw. *)
Inductive outcome (A : Type) := Returns (a : A) | Throws (what : string).
Arguments Returns {A} a.
Arguments Throws {A} what.

(** [operator==] of the key types, a comparison of their bytes. *)
Definition key_eqb (a b : list Z) : bool := if list_eq_dec Z.eq_dec a b then true else false.

Section Signature.
  Context {FH : FastHash} {RB : RandomBytes} {BD : Build}.

(** ** The code *)

(** [struct s_comm] and [struct s_comm_2] as bytes. *)
Definition s_comm (h key comm : list Z) : list Z := h ++ key ++ comm.
Definition s_comm_2 (msg D X Y : list Z) : list Z := msg ++ D ++ X ++ Y.

Definition generate_signature (prefix_hash pub sec : list Z) (r : rng) : option (signature * rng) :=
  let! _ := debug_only (
    let! c := sc_check sec in
    let! _ := cassert (c =? 0) in
    let! t := ge_scalarmult_base sec in
    let! t2 := ge_p3_tobytes t in
    cassert (key_eqb pub t2)) in
  let! '(k, r) := random_scalar r in
  let! tmp3 := ge_scalarmult_base k in
  let! comm := ge_p3_tobytes tmp3 in
  let! c := hash_to_scalar (s_comm prefix_hash pub comm) 96 in
  let! sr := sc_mulsub c sec k in
  Some (Signature c sr, r).

(** [sc_check(&sig.c) != 0 || sc_check(&sig.r) != 0] *)
Definition bad_scalars (sig : signature) : option bool :=
  let! c := sc_check (sig_c sig) in
  if negb (c =? 0) then Some true
  else
    let! r := sc_check (sig_r sig) in
    Some (negb (r =? 0)).

(** [sc_sub(&c, &c, &sig.c); return sc_isnonzero(&c) == 0;] *)
Definition same_challenge (c : list Z) (sig : signature) : option bool :=
  let! c := sc_sub c (sig_c sig) in
  let! n := sc_isnonzero c in
  Some (n =? 0).

Definition check_signature (prefix_hash pub : list Z) (sig : signature) : option bool :=
  let! _ := debug_only (let! b := check_key pub in cassert b) in
  if? tmp3 := ge_frombytes_vartime pub else Some false in
  let! bad := bad_scalars sig in
  if bad then Some false
  else
    let! tmp2 := ge_double_scalarmult_base_vartime (sig_c sig) tmp3 (sig_r sig) in
    let! comm := ge_tobytes tmp2 in
    let! c := hash_to_scalar (s_comm prefix_hash pub comm) 96 in
    same_challenge c sig.

(** [B && ge_frombytes_vartime(&B_p3, &*B) != 0] *)
Definition frombytes_optional (B : option (list Z)) : option (option (option ge_p3)) :=
  match B with
  | None => Some (Some None)
  | Some B => if? p := ge_frombytes_vartime B else Some None in Some (Some (Some p))
  end.

(** [k*B], or [k*G] when there is no [B], encoded. *)
Definition times_base (B_p3 : option ge_p3) (k : list Z) : option (list Z) :=
  match B_p3 with
  | Some B_p3 => let! p2 := ge_scalarmult k B_p3 in ge_tobytes p2
  | None => let! p3 := ge_scalarmult_base k in ge_p3_tobytes p3
  end.

Definition generate_tx_proof (prefix_hash R A : list Z) (B : option (list Z)) (D r : list Z) (st : rng)
  : option (outcome (signature * rng)) :=
  if? R_p3 := ge_frombytes_vartime R else Some (Throws "tx pubkey is invalid") in
  if? A_p3 := ge_frombytes_vartime A else Some (Throws "recipient view pubkey is invalid") in
  if? B_p3 := frombytes_optional B else Some (Throws "recipient spend pubkey is invalid") in
  if? D_p3 := ge_frombytes_vartime D else Some (Throws "key derivation is invalid") in
  let! _ := debug_only (
    let! c := sc_check r in
    let! _ := cassert (c =? 0) in
    let! dbg_R := times_base B_p3 r in
    let! _ := cassert (key_eqb R dbg_R) in
    let! dbg_D_p2 := ge_scalarmult r A_p3 in
    let! dbg_D := ge_tobytes dbg_D_p2 in
    cassert (key_eqb D dbg_D)) in
  let! '(k, st) := random_scalar st in
  let! X := times_base B_p3 k in
  let! Y_p2 := ge_scalarmult k A_p3 in
  let! Y := ge_tobytes Y_p2 in
  let! c := hash_to_scalar (s_comm_2 prefix_hash D X Y) 128 in
  let! sr := sc_mulsub c r k in
  Some (Returns (Signature c sr, st)).

Definition check_tx_proof (prefix_hash R A : list Z) (B : option (list Z)) (D : list Z) (sig : signature)
  : option bool :=
  if? R_p3 := ge_frombytes_vartime R else Some false in
  if? A_p3 := ge_frombytes_vartime A else Some false in
  if? B_p3 := frombytes_optional B else Some false in
  if? D_p3 := ge_frombytes_vartime D else Some false in
  let! bad := bad_scalars sig in
  if bad then Some false
  else
    let! cR_p2 := ge_scalarmult (sig_c sig) R_p3 in
    let! cR := ge_tobytes cR_p2 in
    if? cR_p3 := ge_frombytes_vartime cR else Some false in
    if? X_p1p1 :=
      match B_p3 with
      | Some B_p3 =>
          let! rB_p2 := ge_scalarmult (sig_r sig) B_p3 in
          let! rB := ge_tobytes rB_p2 in
          if? rB_p3 := ge_frombytes_vartime rB else Some None in
          let! rB_cached := ge_p3_to_cached rB_p3 in
          let! X := ge_add cR_p3 rB_cached in
          Some (Some X)
      | None =>
          let! rG_p3 := ge_scalarmult_base (sig_r sig) in
          let! rG_cached := ge_p3_to_cached rG_p3 in
          let! X := ge_add cR_p3 rG_cached in
          Some (Some X)
      end else Some false in
    let! X_p2 := ge_p1p1_to_p2 X_p1p1 in
    let! cD_p2 := ge_scalarmult (sig_c sig) D_p3 in
    let! rA_p2 := ge_scalarmult (sig_r sig) A_p3 in
    let! cD := ge_tobytes cD_p2 in
    let! rA := ge_tobytes rA_p2 in
    if? cD_p3 := ge_frombytes_vartime cD else Some false in
    if? rA_p3 := ge_frombytes_vartime rA else Some false in
    let! rA_cached := ge_p3_to_cached rA_p3 in
    let! Y_p1p1 := ge_add cD_p3 rA_cached in
    let! Y_p2 := ge_p1p1_to_p2 Y_p1p1 in
    let! X := ge_tobytes X_p2 in
    let! Y := ge_tobytes Y_p2 in
    let! c2 := hash_to_scalar (s_comm_2 prefix_hash D X Y) 128 in
    same_challenge c2 sig.

(** ** Lemmas *)

Definition reduced_signature (sig : signature) : Prop := reduced_scalar (sig_c sig) /\ reduced_scalar (sig_r sig).

Lemma bad_scalars_spec sig :
  scalar (sig_c sig) -> scalar (sig_r sig) ->
  (reduced_signature sig /\ bad_scalars sig = Some false) \/ (~ reduced_signature sig /\ bad_scalars sig = Some true).
Proof.
  intros Hc Hr. unfold bad_scalars.
  destruct (reduced_dec _ Hc) as [Rc|Rc]; [rewrite (sc_check_reduced _ Rc) | rewrite (sc_check_large _ Hc Rc)]; cbn [bind Z.eqb negb].
  - destruct (reduced_dec _ Hr) as [Rr|Rr]; [rewrite (sc_check_reduced _ Rr) | rewrite (sc_check_large _ Hr Rr)]; cbn [bind Z.eqb negb].
    + left. split; [now split | reflexivity].
    + right. split; [now intros [_ H] | reflexivity].
  - right. split; [now intros [H _] | reflexivity].
Qed.

Lemma same_challenge_spec n sig :
  0 <= n < ell -> reduced_scalar (sig_c sig) ->
  same_challenge (enc_scalar n) sig = Some (le_val (sig_c sig) =? n).
Proof.
  intros Hn [Hc Lc]. unfold same_challenge. rewrite sc_sub_enc by (trivial; apply enc_scalar_scalar). cbn [bind].
  rewrite sc_isnonzero_spec by apply enc_scalar_scalar. cbn [bind]. f_equal.
  rewrite !le_val_enc_scalar, (Z.mod_small n) by exact Hn. pose proof (le_val_bound _ (proj1 Hc)) as [Bc _].
  destruct (Z.eqb_spec (le_val (sig_c sig)) n) as [->|N].
  - now rewrite Z.sub_diag.
  - destruct (Z.eqb_spec ((n - le_val (sig_c sig)) mod ell) 0) as [E|]; [exfalso|reflexivity].
    apply Z.mod_divide in E; [|discriminate]. destruct E as [q Eq]. pose proof ell_pos as Pl. generalize dependent ell. intros l Hn Lc Eq Pl.
    destruct (Z.lt_trichotomy q 0) as [?|[->|?]]; nia.
Qed.

Lemma key_eqb_spec a b : key_eqb a b = true <-> a = b.
Proof. unfold key_eqb. destruct (list_eq_dec Z.eq_dec a b); split; congruence. Qed.

Lemma key_eqb_refl a : key_eqb a a = true.
Proof. unfold key_eqb. now destruct (list_eq_dec Z.eq_dec a a). Qed.

Lemma s_comm_bytes h key comm : scalar h -> scalar key -> scalar comm -> bytes (s_comm h key comm) /\ 96%nat = List.length (s_comm h key comm).
Proof.
  intros [Hh Lh] [Hk Lk] [Hc Lc]. unfold s_comm. split; [now repeat apply bytes_app|].
  now rewrite !length_app, Lh, Lk, Lc.
Qed.

Lemma s_comm_2_bytes m D X Y :
  scalar m -> scalar D -> scalar X -> scalar Y -> bytes (s_comm_2 m D X Y) /\ 128%nat = List.length (s_comm_2 m D X Y).
Proof.
  intros [H1 L1] [H2 L2] [H3 L3] [H4 L4]. unfold s_comm_2. split; [now repeat apply bytes_app|].
  now rewrite !length_app, L1, L2, L3, L4.
Qed.

(** What a signature or proof commits to. *)
Definition sig_challenge (m pub : list Z) (T : point) : Z := Hs (s_comm m pub (encode T)).
Definition proof_challenge (m D : list Z) (X Y : point) : Z := Hs (s_comm_2 m D (encode X) (encode Y)).

Lemma hash_s_comm m pub T :
  scalar m -> scalar pub -> hash_to_scalar (s_comm m pub (encode T)) 96 = Some (enc_scalar (sig_challenge m pub T)).
Proof. intros Hm Hp. now apply hash_to_scalar_enc; apply s_comm_bytes; trivial; apply encode_scalar. Qed.

Lemma hash_s_comm_2 m D X Y :
  scalar m -> scalar D ->
  hash_to_scalar (s_comm_2 m D (encode X) (encode Y)) 128 = Some (enc_scalar (proof_challenge m D X Y)).
Proof. intros Hm Hp. now apply hash_to_scalar_enc; apply s_comm_2_bytes; trivial; apply encode_scalar. Qed.

(** ** Checking *)

Lemma check_signature_encode m P sig :
  scalar m -> on_curve P -> scalar (sig_c sig) -> scalar (sig_r sig) ->
  (reduced_signature sig -> check_signature m (encode P) sig =
     Some (le_val (sig_c sig) =? sig_challenge m (encode P) (lin (le_val (sig_c sig)) P (le_val (sig_r sig)) base_point))) /\
  (~ reduced_signature sig -> check_signature m (encode P) sig = Some false).
Proof.
  intros Hm HP Hc Hr. unfold check_signature. rewrite debug_only_some by (now rewrite check_key_encode). cbn [bind].
  destruct (frombytes_encode P HP) as (h & -> & Hh). cbn [bind].
  destruct (bad_scalars_spec sig Hc Hr) as [[R ->] | [R ->]]; cbn [bind];
    (split; [intros R' | intros N]; try contradiction); [|reflexivity].
  destruct R as [Rc Rr]. apply returns_eq. key_run.
  rewrite hash_s_comm by (trivial; apply encode_scalar). cbn [bind].
  now rewrite same_challenge_spec by (trivial; apply Hs_range).
Qed.

(** The point that [times_base] multiplies. *)
Definition base_of (B : option point) : point := match B with Some P => P | None => base_point end.

Definition optional_on_curve (B : option point) : Prop := on_curve (base_of B).

(** The decoded argument [B]. *)
Definition decodes (B_p3 : option ge_p3) (B : option point) : Prop :=
  match B_p3, B with
  | Some p, Some P => p ~> P
  | None, None => True
  | _, _ => False
  end.

Lemma frombytes_optional_bind {T} B (K : option (option ge_p3) -> option T) Q :
  optional_on_curve B -> (forall h, decodes h B -> returns (K (Some h)) Q) ->
  returns (bind (frombytes_optional (option_map encode B)) K) Q.
Proof.
  intros HB HK. destruct B as [P|]; cbn [option_map frombytes_optional]; [|now apply HK].
  destruct (frombytes_encode P HB) as (h & -> & Hh). now apply (HK (Some h)).
Qed.

Lemma times_base_encode B_p3 B k :
  decodes B_p3 B -> scalar255 k -> times_base B_p3 k = Some (encode (ed_mul (le_val k) (base_of B))).
Proof.
  intros HB Hk. apply returns_eq. destruct B_p3 as [p|], B as [P|]; try contradiction; cbn [times_base base_of].
  - eapply returns_bind; [eauto with ge | cbv beta; intros q Hq]. now rewrite (tobytes_encode _ _ Hq).
  - eapply returns_bind; [eauto with ge | cbv beta; intros q Hq]. now rewrite (p3_tobytes_encode _ _ Hq).
Qed.

Lemma check_tx_proof_encode m R A B D sig :
  scalar m -> on_curve R -> on_curve A -> optional_on_curve B -> on_curve D ->
  scalar (sig_c sig) -> scalar (sig_r sig) ->
  (reduced_signature sig -> check_tx_proof m (encode R) (encode A) (option_map encode B) (encode D) sig =
     Some (le_val (sig_c sig) =? proof_challenge m (encode D)
       (lin (le_val (sig_c sig)) R (le_val (sig_r sig)) (base_of B))
       (lin (le_val (sig_c sig)) D (le_val (sig_r sig)) A))) /\
  (~ reduced_signature sig -> check_tx_proof m (encode R) (encode A) (option_map encode B) (encode D) sig = Some false).
Proof.
  intros Hm HR HA HB HD Hc Hr.
  destruct (bad_scalars_spec sig Hc Hr) as [[[Rc Rr] E] | [N E]];
    (split; [intros R' | intros N']; try contradiction);
    [| contradiction N'; now split |];
    apply returns_eq; unfold check_tx_proof; key_run;
    (apply frombytes_optional_bind with (1 := HB); intros B_p3 HBp; cbv beta iota); key_run;
    rewrite E; cbn [bind]; [|reflexivity].
  key_run.
  match goal with |- returns (bind ?M _) _ =>
    assert (returns M (fun o => exists X, o = Some X /\ X ~> lin (le_val (sig_c sig)) R (le_val (sig_r sig)) (base_of B))) as HX
  end.
  { destruct B_p3 as [p|], B as [P|]; try contradiction HBp; cbn [decodes base_of] in HBp |- *;
      key_run; cbn [returns]; eauto. }
  eapply returns_bind; [exact HX|]. clear HX. cbv beta. intros o (X & -> & HX). cbv beta iota. key_run.
  rewrite hash_s_comm_2 by (trivial; apply encode_scalar). cbn [bind].
  now rewrite same_challenge_spec by (trivial; apply Hs_range).
Qed.

(** ** The algebra of the protocols *)

(** The answer to the challenge: [c*(s*P) + (k - c*s)*P] is [k*P]. *)
Lemma answer_correct P s k c :
  in_subgroup P -> lin c (ed_mul s P) ((k - c * s) mod ell) P = ed_mul k P.
Proof.
  intros [HP Hl]. unfold lin. rewrite ed_mul_residue by now split.
  rewrite <- ed_mul_mul, <- ed_mul_add by exact HP. f_equal. lia.
Qed.

(** The secret computed from two answers to different challenges. *)
Definition extract (sig sig' : signature) : Z :=
  ((le_val (sig_r sig') - le_val (sig_r sig)) * Z.invmod (le_val (sig_c sig) - le_val (sig_c sig')) ell) mod ell.

Lemma mul8_mod P m n : on_curve P -> m mod ell = n mod ell -> ed_mul m (ed_mul 8 P) = ed_mul n (ed_mul 8 P).
Proof. intros HP. apply ed_mul_mod. now apply mul8_in_subgroup. Qed.

Lemma lin_eq_sub P Q c r c' r' :
  on_curve P -> on_curve Q -> lin c P r Q = lin c' P r' Q -> ed_mul (c - c') P = ed_mul (r' - r) Q.
Proof.
  intros HP HQ E. apply (ed_add_cancel (lin c' P r Q)); auto using lin_on_curve, ed_mul_on_curve.
  transitivity (lin c P r Q).
  - replace (ed_mul (c - c') P) with (lin (c - c') P 0 Q) by (unfold lin; now rewrite ed_mul_0, ed_add_comm, ed_add_0_l).
    rewrite lin_add by assumption. f_equal; lia.
  - rewrite E. replace (ed_mul (r' - r) Q) with (lin 0 P (r' - r) Q) by (unfold lin; now rewrite ed_mul_0, ed_add_0_l).
    rewrite lin_add by assumption. f_equal; lia.
Qed.

Lemma extract_correct P Q sig sig' :
  on_curve P -> on_curve Q -> reduced_signature sig -> reduced_signature sig' -> sig_c sig <> sig_c sig' ->
  lin (le_val (sig_c sig)) P (le_val (sig_r sig)) Q = lin (le_val (sig_c sig')) P (le_val (sig_r sig')) Q ->
  ed_mul 8 P = ed_mul 8 (ed_mul (extract sig sig') Q).
Proof.
  intros HP HQ [[Hc Lc] _] [[Hc' Lc'] _] Hne E. apply lin_eq_sub in E; trivial.
  set (c := le_val (sig_c sig)) in *. set (c' := le_val (sig_c sig')) in *.
  pose proof (le_val_bound _ (proj1 Hc)) as [Bc _]. pose proof (le_val_bound _ (proj1 Hc')) as [Bc' _]. fold c in Bc. fold c' in Bc'.
  assert ((c - c') mod ell <> 0) as Hd.
  { intros D. apply Hne. destruct Hc as [Hb Hl], Hc' as [Hb' Hl']. apply le_val_inj; trivial; [congruence|]. fold c c'.
    rewrite <- (Z.mod_small c ell), <- (Z.mod_small c' ell) by lia. apply Z.cong_iff_0; exact D. }
  unfold extract. fold c c'. set (u := Z.invmod (c - c') ell). set (t := le_val (sig_r sig') - le_val (sig_r sig)) in *.
  rewrite (ed_mul_comm 8 _ Q HQ), (mul8_mod Q _ (u * t)) by (trivial; rewrite Z.mod_mod by discriminate; f_equal; lia).
  assert (forall n R, on_curve R -> ed_mul (u * n) (ed_mul 8 R) = ed_mul u (ed_mul 8 (ed_mul n R))) as K.
  { intros n R HR. rewrite ed_mul_mul, (ed_mul_comm n 8) by auto using ed_mul_on_curve. reflexivity. }
  rewrite (K t Q HQ), <- E, <- (K (c - c') P HP), (mul8_mod P _ 1 HP); [symmetry; apply ed_mul_1|].
  unfold u. rewrite Z.invmod_prime by (exact ell_prime || exact Hd). reflexivity.
Qed.

(** In the subgroup the cofactor can be cancelled. *)
Lemma mul8_cancel P Q : in_subgroup P -> in_subgroup Q -> ed_mul 8 P = ed_mul 8 Q -> P = Q.
Proof.
  intros HP HQ E. assert (forall R, in_subgroup R -> R = ed_mul (Z.invmod 8 ell) (ed_mul 8 R)) as K.
  { intros R HR. rewrite <- ed_mul_mul by apply HR. rewrite (ed_mul_mod R _ 1 HR); [symmetry; apply ed_mul_1|].
    rewrite Z.invmod_prime; [reflexivity | exact ell_prime | discriminate]. }
  now rewrite (K P HP), (K Q HQ), E.
Qed.

(** ** Generation *)

Lemma generate_signature_spec m sec r :
  scalar m -> reduced_scalar sec -> rng_ready r ->
  returns (generate_signature m (encode (ed_mul (le_val sec) base_point)) sec r) (fun '(sig, r') =>
    check_signature m (encode (ed_mul (le_val sec) base_point)) sig = Some true /\ rng_ready r' /\
    reduced_signature sig).
Proof.
  intros Hm Hs Hr. set (P := ed_mul (le_val sec) base_point).
  assert (on_curve P) as HP by apply ed_mul_on_curve, base_point_on_curve.
  unfold generate_signature. rewrite debug_only_some.
  2: { apply returns_eq. rewrite sc_check_reduced by exact Hs. cbn [bind Z.eqb cassert].
       key_run. fold P. now rewrite key_eqb_refl. }
  cbn [bind]. eapply returns_bind; [now apply random_scalar_spec|]. cbv beta. intros [k r'] [Hk Hr'].
  key_run. rewrite hash_s_comm by (trivial; apply encode_scalar). cbn [bind].
  rewrite sc_mulsub_enc by (apply Hs || apply Hk || apply enc_scalar_scalar). cbn [bind returns].
  split; [|split; [exact Hr' | split; apply enc_scalar_reduced]].
  set (T := ed_mul (le_val k) base_point). set (c := sig_challenge m (encode P) T).
  destruct (check_signature_encode m P
    (Signature (enc_scalar c) (enc_scalar (le_val k - le_val (enc_scalar c) * le_val sec))) Hm HP
    (enc_scalar_scalar _) (enc_scalar_scalar _)) as [C _].
  rewrite C by (split; apply enc_scalar_reduced). clear C. cbn [sig_c sig_r].
  rewrite !le_val_enc_scalar, (Z.mod_small c) by apply Hs_range.
  unfold P at 2. rewrite answer_correct by apply base_in_subgroup. fold T. fold c. now rewrite Z.eqb_refl.
Qed.

Lemma generate_tx_proof_spec m A B r st :
  scalar m -> in_subgroup A -> in_subgroup (base_of B) -> reduced_scalar r -> rng_ready st ->
  let R := encode (ed_mul (le_val r) (base_of B)) in
  let D := encode (ed_mul (le_val r) A) in
  returns (generate_tx_proof m R (encode A) (option_map encode B) D r st) (fun o =>
    exists sig st', o = Returns (sig, st') /\ rng_ready st' /\
      check_tx_proof m R (encode A) (option_map encode B) D sig = Some true).
Proof.
  intros Hm HA HB Hr Hst. cbv zeta. set (R := ed_mul (le_val r) (base_of B)). set (D := ed_mul (le_val r) A).
  pose proof (proj1 HA) as HcA. pose proof (proj1 HB) as HcB.
  assert (on_curve R /\ on_curve D) as [HcR HcD] by (split; now apply ed_mul_on_curve).
  unfold generate_tx_proof. key_run.
  apply frombytes_optional_bind with (1 := HcB). intros B_p3 HBp. cbv beta iota. key_run.
  rewrite debug_only_some.
  2: { apply returns_eq. rewrite sc_check_reduced by exact Hr. cbn [bind Z.eqb cassert].
       rewrite (times_base_encode _ _ _ HBp) by now apply reduced_255. fold R. cbn [bind].
       rewrite key_eqb_refl. cbn [cassert bind]. key_run. fold D. now rewrite key_eqb_refl. }
  cbn [bind]. eapply returns_bind; [now apply random_scalar_spec|]. cbv beta. intros [k st'] [Hk Hst'].
  rewrite (times_base_encode _ _ _ HBp) by now apply reduced_255. cbn [bind].
  key_run. rewrite hash_s_comm_2 by (trivial; apply encode_scalar). cbn [bind].
  rewrite sc_mulsub_enc by (apply Hr || apply Hk || apply enc_scalar_scalar). cbn [bind returns].
  eexists _, _. split; [reflexivity|]. split; [exact Hst'|].
  set (X := ed_mul (le_val k) (base_of B)). set (Y := ed_mul (le_val k) A). set (c := proof_challenge m (encode D) X Y).
  destruct (check_tx_proof_encode m R A B D
    (Signature (enc_scalar c) (enc_scalar (le_val k - le_val (enc_scalar c) * le_val r))) Hm HcR HcA HcB HcD
    (enc_scalar_scalar _) (enc_scalar_scalar _)) as [C _].
  rewrite C by (split; apply enc_scalar_reduced). clear C. cbn [sig_c sig_r].
  rewrite !le_val_enc_scalar, (Z.mod_small c) by apply Hs_range.
  unfold R, D at 2. rewrite !answer_correct by assumption. fold X Y. fold c. now rewrite Z.eqb_refl.
Qed.

(** ** Claims *)

(** Signatures are complete: for every message hash and every reduced secret key, with a working
    generator, [generate_signature] returns, with or without assertions, a signature that
    [check_signature] accepts for the public key. *)
Theorem signature_complete m sec pub r :
  scalar m -> reduced_scalar sec -> rng_ready r -> secret_key_to_public_key sec = Some (Some pub) ->
  exists sig r', generate_signature m pub sec r = Some (sig, r') /\ rng_ready r' /\
    check_signature m pub sig = Some true.
Proof.
  intros Hm Hs Hr E. rewrite secret_to_public in E by exact Hs. injection E as <-.
  pose proof (generate_signature_spec m sec r Hm Hs Hr) as G. apply returns_some in G.
  destruct G as ([sig r'] & E & C & Hr' & _). exists sig, r'. auto.
Qed.

(** What [check_signature] accepts: exactly the signatures (c, r) of scalars below the order, for
    a public key that encodes a point P, with c the hash of the message, the key and
    c P + r G. It always returns, except that builds with assertions stop at a public key
    that is not a point; the others return false there. *)
Theorem check_signature_correct m pub sig :
  scalar m -> scalar pub -> scalar (sig_c sig) -> scalar (sig_r sig) ->
  (check_signature m pub sig = Some true <->
     exists P, on_curve P /\ pub = encode P /\ reduced_signature sig /\
       le_val (sig_c sig) =
         Hs (s_comm m pub (encode (lin (le_val (sig_c sig)) P (le_val (sig_r sig)) base_point)))) /\
  (check_signature m pub sig = None <-> debug = true /\ check_key pub = Some false).
Proof.
  intros Hm Hp Hc Hr. destruct (point_cases pub Hp) as [(P & HP & ->) | [E N]].
  - rewrite check_key_encode by exact HP.
    destruct (check_signature_encode m P sig Hm HP Hc Hr) as [C1 C2].
    destruct (bad_scalars_spec sig Hc Hr) as [[R _] | [R _]].
    + rewrite C1 by exact R. fold (sig_challenge m (encode P) (lin (le_val (sig_c sig)) P (le_val (sig_r sig)) base_point)).
      split; [|split; [discriminate | intros [_ K]; discriminate K]]. split.
      * intros [= K%Z.eqb_eq]. exists P. auto.
      * intros (Q & HQ & EQ & _ & K). apply encode_inj in EQ; trivial. subst Q. f_equal. now apply Z.eqb_eq.
    + rewrite C2 by exact R. split; [split; [discriminate | intros (Q & _ & _ & R' & _); contradiction]|].
      split; [discriminate | intros [_ K]; discriminate K].
  - assert (check_key pub = Some false) as K by (unfold check_key; now rewrite E).
    unfold check_signature, debug_only. rewrite K, E. destruct debug; cbn [bind cassert].
    + split; [split; [discriminate | intros (P & HP & EP & _); contradiction (N P HP EP)] | split; [auto | reflexivity]].
    + split; [split; [discriminate | intros (P & HP & EP & _); contradiction (N P HP EP)]|].
      split; [discriminate | intros [D _]; discriminate D].
Qed.

(** Proofs of transactions are complete: for points A and B (or the base point) of the prime order
    subgroup and every reduced secret r, [generate_tx_proof] for R = r B and D = r A returns
    without exception, with or without assertions, and [check_tx_proof] accepts the result. *)
Theorem tx_proof_complete m A B r st :
  scalar m -> in_subgroup A -> in_subgroup (base_of B) -> reduced_scalar r -> rng_ready st ->
  let R := encode (ed_mul (le_val r) (base_of B)) in
  let D := encode (ed_mul (le_val r) A) in
  exists sig st', generate_tx_proof m R (encode A) (option_map encode B) D r st = Some (Returns (sig, st')) /\
    rng_ready st' /\ check_tx_proof m R (encode A) (option_map encode B) D sig = Some true.
Proof.
  intros Hm HA HB Hr Hst R D. pose proof (generate_tx_proof_spec m A B r st Hm HA HB Hr Hst) as G.
  apply returns_some in G. destruct G as (o & E & sig & st' & -> & Hst' & C). exists sig, st'. auto.
Qed.

(** The errors of proofs of transactions: an argument that is not the encoding of a point makes
    [generate_tx_proof] throw, with the message of the first such argument in the order of
    the code, and [check_tx_proof] return false; the check fails no assertion on any input. *)
Theorem tx_proof_errors m R A B D r st sig :
  scalar R -> scalar A -> (forall b, B = Some b -> scalar b) -> scalar D ->
  scalar m -> scalar (sig_c sig) -> scalar (sig_r sig) ->
  let invalid k := check_key k = Some false in
  let invalid_B := exists b, B = Some b /\ invalid b in
  (invalid R -> generate_tx_proof m R A B D r st = Some (Throws "tx pubkey is invalid")) /\
  (~ invalid R -> invalid A ->
     generate_tx_proof m R A B D r st = Some (Throws "recipient view pubkey is invalid")) /\
  (~ invalid R -> ~ invalid A -> invalid_B ->
     generate_tx_proof m R A B D r st = Some (Throws "recipient spend pubkey is invalid")) /\
  (~ invalid R -> ~ invalid A -> ~ invalid_B -> invalid D ->
     generate_tx_proof m R A B D r st = Some (Throws "key derivation is invalid")) /\
  (invalid R \/ invalid A \/ invalid_B \/ invalid D -> check_tx_proof m R A B D sig = Some false) /\
  check_tx_proof m R A B D sig <> None.
Proof.
  intros HR HA HB HD Hm Hc Hr invalid invalid_B.
  assert (forall k, scalar k -> (invalid k /\ ge_frombytes_vartime k = Some None) \/
    (~ invalid k /\ exists P h, on_curve P /\ k = encode P /\ ge_frombytes_vartime k = Some (Some h))) as K.
  { intros k Hk. unfold invalid. destruct (point_cases k Hk) as [(P & HP & ->) | [E _]].
    - right. rewrite check_key_encode by exact HP. split; [discriminate|].
      destruct (frombytes_encode P HP) as (h & E & _). eauto 6.
    - left. unfold check_key. now rewrite E. }
  assert ((invalid_B /\ frombytes_optional B = Some None) \/
    (~ invalid_B /\ exists P h, optional_on_curve P /\ B = option_map encode P /\ frombytes_optional B = Some (Some h))) as KB.
  { destruct B as [b|]; cbn [frombytes_optional].
    - destruct (K b (HB b eq_refl)) as [[I E] | (I & P & h & HP & -> & E)]; rewrite E; cbn [bind].
      + left. split; [now exists b | reflexivity].
      + right. split; [intros (b & [= <-] & Ib); contradiction|]. exists (Some P), (Some h). now repeat split.
    - right. split; [intros (b & Eb & _); discriminate Eb|]. exists None, None.
      exact (conj base_point_on_curve (conj eq_refl eq_refl)). }
  unfold generate_tx_proof.
  destruct (K R HR) as [[IR ER] | (IR & PR & hR & HPR & EPR & ER)].
  { unfold check_tx_proof. rewrite ER. cbn [bind]. repeat split; try contradiction; discriminate. }
  destruct (K A HA) as [[IA EA] | (IA & PA & hA & HPA & EPA & EA)].
  { unfold check_tx_proof. rewrite ER, EA. cbn [bind]. repeat split; try contradiction; discriminate. }
  destruct KB as [[IB EB] | (IB & PB & hB & HPB & EPB & EB)].
  { unfold check_tx_proof. rewrite ER, EA, EB. cbn [bind]. repeat split; try contradiction; discriminate. }
  destruct (K D HD) as [[ID ED] | (ID & PD & hD & HPD & EPD & ED)].
  { unfold check_tx_proof. rewrite ER, EA, EB, ED. cbn [bind]. repeat split; try contradiction; discriminate. }
  rewrite ER, EA, EB, ED. cbn [bind]. repeat split; try contradiction; try tauto.
  subst R A B D. destruct (check_tx_proof_encode m PR PA PB PD sig Hm HPR HPA HPB HPD Hc Hr) as [C1 C2].
  destruct (bad_scalars_spec sig Hc Hr) as [[Rd _] | [Rd _]]; [rewrite C1 by exact Rd | rewrite C2 by exact Rd]; discriminate.
Qed.
End Signature.

(** Soundness of signatures (the forking argument): when two signatures with the same commitment
    c P + r G and different challenges are accepted for one public key, for the same or
    different messages and for any two hash functions, then the secret computed from them is
    the secret key, up to the cofactor; and exactly when P is in the prime order subgroup. *)
Theorem signature_sound (H1 H2 : FastHash) (BD : Build) m m' P sig sig' :
  scalar m -> scalar m' -> on_curve P -> scalar (sig_c sig) -> scalar (sig_r sig) ->
  scalar (sig_c sig') -> scalar (sig_r sig') ->
  @check_signature H1 BD m (encode P) sig = Some true ->
  @check_signature H2 BD m' (encode P) sig' = Some true ->
  lin (le_val (sig_c sig)) P (le_val (sig_r sig)) base_point
    = lin (le_val (sig_c sig')) P (le_val (sig_r sig')) base_point ->
  sig_c sig <> sig_c sig' ->
  ed_mul 8 P = ed_mul 8 (ed_mul (extract sig sig') base_point) /\
  (in_subgroup P -> secret_key_to_public_key (enc_scalar (extract sig sig')) = Some (Some (encode P))).
Proof.
  intros Hm Hm' HP Hc Hr Hc' Hr' C C' E Hne.
  assert (reduced_signature sig) as R.
  { destruct (bad_scalars_spec sig Hc Hr) as [[R _] | [R _]]; [exact R|].
    rewrite (proj2 (check_signature_encode m P sig Hm HP Hc Hr) R) in C. discriminate C. }
  assert (reduced_signature sig') as R'.
  { destruct (bad_scalars_spec sig' Hc' Hr') as [[R' _] | [R' _]]; [exact R'|].
    rewrite (proj2 (check_signature_encode m' P sig' Hm' HP Hc' Hr') R') in C'. discriminate C'. }
  pose proof (extract_correct P base_point sig sig' HP base_point_on_curve R R' Hne E) as X. split; [exact X|].
  intros SP. rewrite secret_to_public by apply enc_scalar_reduced. rewrite le_val_enc_scalar.
  do 3 f_equal. rewrite (ed_mul_residue _ _ base_in_subgroup).
  symmetry. apply mul8_cancel; trivial. now apply mul_in_subgroup, base_in_subgroup.
Qed.

(** Soundness of proofs of transactions: two accepted proofs with the same commitments and
    different challenges determine one number x with 8 R = 8 x B and 8 D = 8 x A: the
    derivation D is the one of the transaction key R and the view key A, up to the cofactor. *)
Theorem tx_proof_sound (H1 H2 : FastHash) m m' R A B D sig sig' :
  scalar m -> scalar m' -> on_curve R -> on_curve A -> on_curve (base_of B) -> on_curve D ->
  scalar (sig_c sig) -> scalar (sig_r sig) -> scalar (sig_c sig') -> scalar (sig_r sig') ->
  @check_tx_proof H1 m (encode R) (encode A) (option_map encode B) (encode D) sig = Some true ->
  @check_tx_proof H2 m' (encode R) (encode A) (option_map encode B) (encode D) sig' = Some true ->
  lin (le_val (sig_c sig)) R (le_val (sig_r sig)) (base_of B)
    = lin (le_val (sig_c sig')) R (le_val (sig_r sig')) (base_of B) ->
  lin (le_val (sig_c sig)) D (le_val (sig_r sig)) A = lin (le_val (sig_c sig')) D (le_val (sig_r sig')) A ->
  sig_c sig <> sig_c sig' ->
  ed_mul 8 R = ed_mul 8 (ed_mul (extract sig sig') (base_of B)) /\
  ed_mul 8 D = ed_mul 8 (ed_mul (extract sig sig') A).
Proof.
  intros Hm Hm' HR HA HB HD Hc Hr Hc' Hr' C C' EX EY Hne.
  assert (reduced_signature sig) as Rd.
  { destruct (bad_scalars_spec sig Hc Hr) as [[Rd _] | [Rd _]]; [exact Rd|].
    rewrite (proj2 (check_tx_proof_encode m R A B D sig Hm HR HA HB HD Hc Hr) Rd) in C. discriminate C. }
  assert (reduced_signature sig') as Rd'.
  { destruct (bad_scalars_spec sig' Hc' Hr') as [[Rd' _] | [Rd' _]]; [exact Rd'|].
    rewrite (proj2 (check_tx_proof_encode m' R A B D sig' Hm' HR HA HB HD Hc' Hr') Rd') in C'. discriminate C'. }
  split; now apply extract_correct.
Qed.

(** *** Witnesses *)

#[local] Existing Instance debug_build.

(** A function that answers every query with the same challenge. *)
Definition constant_hash (n : Z) : FastHash :=
  {| fast_hash := fun _ _ => Some (enc_scalar n); fast_hash_total := fun _ _ => enc_scalar_scalar n |}.

Lemma constant_hash_Hs n data : @Hs (constant_hash n) data = n mod ell.
Proof. unfold Hs. cbn [fast_hash constant_hash]. rewrite le_val_enc_scalar. apply Z.mod_mod. discriminate. Qed.

Definition five : list Z := enc_scalar 5.
Definition five_G : point := ed_mul (le_val five) base_point.

Lemma five_val : le_val five = 5.
Proof. exact (le_val_enc_scalar 5). Qed.

Lemma signature_complete_witness :
  exists sig r', generate_signature ones32 (encode five_G) five seeded = Some (sig, r') /\ random_ready r' /\
    check_signature ones32 (encode five_G) sig = Some true.
Proof.
  exact (signature_complete ones32 five (encode five_G) seeded ones32_scalar (enc_scalar_reduced 5) seeded_ready
    (secret_to_public five (enc_scalar_reduced 5))).
Defined.

Definition zero_signature : signature := Signature (enc_scalar 0) (enc_scalar 0).

Lemma check_signature_correct_witness :
  (check_signature ones32 ones32 zero_signature = None <-> true = true /\ check_key ones32 = Some false).
Proof.
  exact (proj2 (check_signature_correct ones32 ones32 zero_signature ones32_scalar ones32_scalar
    (enc_scalar_scalar 0) (enc_scalar_scalar 0))).
Defined.

Lemma five_G_subgroup : in_subgroup five_G.
Proof. apply mul_in_subgroup, base_in_subgroup. Qed.

Lemma tx_proof_complete_witness :
  exists sig st', generate_tx_proof ones32 (encode (ed_mul (le_val five) five_G)) (encode base_point)
      (Some (encode five_G)) (encode (ed_mul (le_val five) base_point)) five seeded = Some (Returns (sig, st')) /\
    random_ready st' /\
    check_tx_proof ones32 (encode (ed_mul (le_val five) five_G)) (encode base_point) (Some (encode five_G))
      (encode (ed_mul (le_val five) base_point)) sig = Some true.
Proof.
  exact (tx_proof_complete ones32 base_point (Some five_G) five seeded ones32_scalar base_in_subgroup five_G_subgroup
    (enc_scalar_reduced 5) seeded_ready).
Defined.

Lemma ones32_invalid : check_key ones32 = Some false.
Proof. vm_compute. reflexivity. Qed.

Lemma tx_proof_errors_witness :
  generate_tx_proof ones32 ones32 ones32 None ones32 ones32 seeded = Some (Throws "tx pubkey is invalid").
Proof.
  exact (proj1 (tx_proof_errors ones32 ones32 ones32 None ones32 ones32 seeded zero_signature ones32_scalar ones32_scalar
    (fun b E => ltac:(discriminate E)) ones32_scalar ones32_scalar (enc_scalar_scalar 0) (enc_scalar_scalar 0)) ones32_invalid).
Defined.

(** The answers to the challenges 1 and 2 with the secret 5 and the nonce 12. *)
Definition answer1 : signature := Signature (enc_scalar 1) (enc_scalar 7).
Definition answer2 : signature := Signature (enc_scalar 2) (enc_scalar 2).

Lemma answers_same_commitment P :
  on_curve P ->
  lin (le_val (sig_c answer1)) (ed_mul (le_val five) P) (le_val (sig_r answer1)) P
    = lin (le_val (sig_c answer2)) (ed_mul (le_val five) P) (le_val (sig_r answer2)) P.
Proof.
  intros HP. cbn [sig_c sig_r answer1 answer2]. rewrite five_val, !le_val_enc_scalar. unfold lin.
  rewrite <- !ed_mul_mul, <- !ed_mul_add by exact HP. f_equal.
Qed.

Lemma answers_differ : sig_c answer1 <> sig_c answer2.
Proof. intros E. apply (f_equal le_val) in E. cbn [sig_c answer1 answer2] in E. rewrite !le_val_enc_scalar in E. discriminate E. Qed.

Lemma answer_accepted n t :
  0 <= n < ell -> @check_signature (constant_hash n) debug_build ones32 (encode five_G) (Signature (enc_scalar n) (enc_scalar t)) = Some true.
Proof.
  intros Hn. rewrite (proj1 (@check_signature_encode (constant_hash n) debug_build ones32 five_G
    (Signature (enc_scalar n) (enc_scalar t)) ones32_scalar (proj1 five_G_subgroup) (enc_scalar_scalar n) (enc_scalar_scalar t)))
    by (split; apply enc_scalar_reduced).
  unfold sig_challenge. rewrite constant_hash_Hs. cbn [sig_c]. now rewrite le_val_enc_scalar, Z.eqb_refl.
Qed.

Lemma signature_sound_witness :
  ed_mul 8 five_G = ed_mul 8 (ed_mul (extract answer1 answer2) base_point) /\
  (in_subgroup five_G -> secret_key_to_public_key (enc_scalar (extract answer1 answer2)) = Some (Some (encode five_G))).
Proof.
  exact (signature_sound (constant_hash 1) (constant_hash 2) debug_build ones32 ones32 five_G answer1 answer2
    ones32_scalar ones32_scalar (proj1 five_G_subgroup) (enc_scalar_scalar 1) (enc_scalar_scalar 7)
    (enc_scalar_scalar 2) (enc_scalar_scalar 2) (answer_accepted 1 7 ltac:(split; [discriminate | reflexivity]))
    (answer_accepted 2 2 ltac:(split; [discriminate | reflexivity]))
    (answers_same_commitment base_point base_point_on_curve) answers_differ).
Defined.

Lemma proof_accepted n t :
  0 <= n < ell ->
  @check_tx_proof (constant_hash n) ones32 (encode five_G) (encode base_point) None (encode five_G)
    (Signature (enc_scalar n) (enc_scalar t)) = Some true.
Proof.
  intros Hn. change None with (option_map encode None).
  rewrite (proj1 (@check_tx_proof_encode (constant_hash n) ones32 five_G base_point None five_G
    (Signature (enc_scalar n) (enc_scalar t)) ones32_scalar (proj1 five_G_subgroup) base_point_on_curve base_point_on_curve
    (proj1 five_G_subgroup) (enc_scalar_scalar n) (enc_scalar_scalar t)))
    by (split; apply enc_scalar_reduced).
  unfold proof_challenge. rewrite constant_hash_Hs. cbn [sig_c]. now rewrite le_val_enc_scalar, Z.eqb_refl.
Qed.

Lemma tx_proof_sound_witness :
  ed_mul 8 five_G = ed_mul 8 (ed_mul (extract answer1 answer2) base_point) /\
  ed_mul 8 five_G = ed_mul 8 (ed_mul (extract answer1 answer2) base_point).
Proof.
  exact (tx_proof_sound (constant_hash 1) (constant_hash 2) ones32 ones32 five_G base_point None five_G answer1 answer2
    ones32_scalar ones32_scalar (proj1 five_G_subgroup) base_point_on_curve base_point_on_curve (proj1 five_G_subgroup)
    (enc_scalar_scalar 1) (enc_scalar_scalar 7) (enc_scalar_scalar 2) (enc_scalar_scalar 2)
    (proof_accepted 1 7 ltac:(split; [discriminate | reflexivity])) (proof_accepted 2 2 ltac:(split; [discriminate | reflexivity]))
    (answers_same_commitment base_point base_point_on_curve) (answers_same_commitment base_point base_point_on_curve)
    answers_differ).
Defined.
