(* ===== verification/RingSig.v ===== *)
(** * Key images and ring signatures

    Models [hash_to_ec], [generate_key_image], [generate_ring_signature] and
    [check_ring_signature] of crypto.cpp. The buffer [rs_comm] is filled in order, the
    array of signatures is updated in place, and whether [malloc] succeeds is an argument.
    The theorems are the value of key images, completeness of ring signatures, what
    exactly the check accepts, and soundness: two accepted answers for the same
    commitments determine the secret of one member of the ring, and tie the key image to
    it. *)

From Stdlib Require Import ZArith Zcong Zmod Field Lia List Bool.
From S2P Require Import Prelude Bytes Fe FeMul Primes ScReduce Sc Curve Ge GeBytes GeScalar.
From S2P Require Import GeBase GeDouble GeHash Keccak TreeHash Order Varint Random Encode KeyOps Signature.
Import ListNotations.

#[local] Open Scope Z_scope.
#[local] Open Scope list_scope.
#[local] Opaque ed_mul ed_add base_point encode enc_scalar point_code.

Section RingSig.
  Context {FH : FastHash} {RB : RandomBytes} {BD : Build}.

(** ** The code *)

Definition hash_to_ec (key : list Z) : option ge_p3 :=
  let! h := fast_hash key 32 in
  let! point := ge_fromfe_frombytes_vartime h in
  let! point2 := ge_mul8 point in
  ge_p1p1_to_p3 point2.

Definition generate_key_image (pub sec : list Z) : option (list Z) :=
  let! _ := assert_sc_check sec in
  let! point := hash_to_ec pub in
  let! point2 := ge_scalarmult sec point in
  ge_tobytes point2.

(** [sizeof(rs_comm) + pubs_count * sizeof(ec_point_pair)] *)
Definition rs_comm_size (pubs_count : nat) : nat := 32 + pubs_count * 64.

(** The variables of [generate_ring_signature] that its loop changes. *)
Record ring_state := RingState {
  rs_sig : list signature;
  rs_buf : list Z;
  rs_sum : list Z;
  rs_k : option (list Z);
  rs_rng : rng }.

Definition ring_sign_step (image_pre : list ge_cached) (pubs : list (list Z)) (sec_index : nat)
    (s : ring_state) (i : nat) : option ring_state :=
  let! pub := nth_error pubs i in
  if (i =? sec_index)%nat then
    let! '(k, r) := random_scalar (rs_rng s) in
    let! tmp3 := ge_scalarmult_base k in
    let! a := ge_p3_tobytes tmp3 in
    let! tmp3 := hash_to_ec pub in
    let! tmp2 := ge_scalarmult k tmp3 in
    let! b := ge_tobytes tmp2 in
    Some (RingState (rs_sig s) (rs_buf s ++ a ++ b) (rs_sum s) (Some k) r)
  else
    let! '(c, r) := random_scalar (rs_rng s) in
    let! '(sr, r) := random_scalar r in
    let! sig := aset (rs_sig s) i (Signature c sr) in
    if? tmp3 := ge_frombytes_vartime pub else None in
    let! tmp2 := ge_double_scalarmult_base_vartime c tmp3 sr in
    let! a := ge_tobytes tmp2 in
    let! tmp3 := hash_to_ec pub in
    let! tmp2 := ge_double_scalarmult_precomp_vartime sr tmp3 c image_pre in
    let! b := ge_tobytes tmp2 in
    let! sum := sc_add (rs_sum s) c in
    Some (RingState sig (rs_buf s ++ a ++ b) sum (rs_k s) r).

Definition assert_check_keys (pubs : list (list Z)) (pubs_count : nat) : option unit :=
  foldM (fun _ i => let! pub := nth_error pubs i in let! b := check_key pub in cassert b) (seq 0 pubs_count) tt.

(** [malloc_ok]: whether [malloc] returned a buffer. *)
Definition generate_ring_signature (malloc_ok : bool) (prefix_hash image : list Z) (pubs : list (list Z))
    (pubs_count : nat) (sec : list Z) (sec_index : nat) (sig : list signature) (r : rng)
  : option (list signature * rng) :=
  let! _ := cassert malloc_ok in
  let! _ := debug_only (cassert (sec_index <? pubs_count)%nat) in
  let! _ := debug_only (
    let! c := sc_check sec in
    let! _ := cassert (c =? 0) in
    let! t := ge_scalarmult_base sec in
    let! t2 := ge_p3_tobytes t in
    let! pub := nth_error pubs sec_index in
    let! _ := cassert (key_eqb pub t2) in
    let! t3 := generate_key_image pub sec in
    let! _ := cassert (key_eqb image t3) in
    assert_check_keys pubs pubs_count) in
  if? image_unp := ge_frombytes_vartime image else None in
  let! image_pre := ge_dsm_precomp image_unp in
  let! s := foldM (ring_sign_step image_pre pubs sec_index) (seq 0 pubs_count)
              (RingState sig prefix_hash sc_0 None r) in
  let! h := hash_to_scalar (rs_buf s) (rs_comm_size pubs_count) in
  let! c := sc_sub h (rs_sum s) in
  let! k := rs_k s in
  let! sr := sc_mulsub c sec k in
  let! sig := aset (rs_sig s) sec_index (Signature c sr) in
  Some (sig, rs_rng s).

(** The loop of [check_ring_signature]; [Some None] is [return false]. *)
Fixpoint check_ring_loop (image_pre : list ge_cached) (pubs : list (list Z)) (sig : list signature)
    (idx : list nat) (buf sum : list Z) : option (option (list Z * list Z)) :=
  match idx with
  | [] => Some (Some (buf, sum))
  | i :: idx =>
      let! sig_i := nth_error sig i in
      let! bad := bad_scalars sig_i in
      if bad then Some None
      else
        let! pub := nth_error pubs i in
        if? tmp3 := ge_frombytes_vartime pub else Some None in
        let! tmp2 := ge_double_scalarmult_base_vartime (sig_c sig_i) tmp3 (sig_r sig_i) in
        let! a := ge_tobytes tmp2 in
        let! tmp3 := hash_to_ec pub in
        let! tmp2 := ge_double_scalarmult_precomp_vartime (sig_r sig_i) tmp3 (sig_c sig_i) image_pre in
        let! b := ge_tobytes tmp2 in
        let! sum := sc_add sum (sig_c sig_i) in
        check_ring_loop image_pre pubs sig idx (buf ++ a ++ b) sum
  end.

Definition check_ring_signature (malloc_ok : bool) (prefix_hash image : list Z) (pubs : list (list Z))
    (pubs_count : nat) (sig : list signature) : option bool :=
  if negb malloc_ok then Some false
  else
    let! _ := debug_only (assert_check_keys pubs pubs_count) in
    if? image_unp := ge_frombytes_vartime image else Some false in
    let! image_pre := ge_dsm_precomp image_unp in
    if? r := check_ring_loop image_pre pubs sig (seq 0 pubs_count) prefix_hash sc_0 else Some false in
    let '(buf, sum) := r in
    let! h := hash_to_scalar buf (rs_comm_size pubs_count) in
    let! h := sc_sub h sum in
    let! n := sc_isnonzero h in
    Some (n =? 0).

(** ** The hash to a point *)

(** The point that coordinates represent. *)
Definition p3_point (p : ge_p3) : point :=
  (Zmod.mdiv (fe_F (p3_X p)) (fe_F (p3_Z p)), Zmod.mdiv (fe_F (p3_Y p)) (fe_F (p3_Z p))).

Lemma p3_point_repr p P : p ~> P -> p3_point p = P.
Proof.
  destruct p as [X Y Z T], P as [x y]. intros (_ & _ & NZ & EX & EY & _). unfold p3_point. cbn [p3_X p3_Y p3_Z].
  rewrite EX, EY. f_equal; field; exact NZ.
Qed.

(** The point of the subgroup that a key hashes to. *)
Definition Hp (key : list Z) : point := match hash_to_ec key with Some p => p3_point p | None => ed_0 end.

Lemma hash_to_ec_spec key :
  scalar key ->
  returns (hash_to_ec key) (fun p => p ~> Hp key /\ in_subgroup (Hp key) /\
    exists h P, fast_hash key 32 = Some h /\ on_curve P /\ hash_point (Zmod.of_Z p25519 (le_val h)) P /\
      Hp key = ed_mul 8 P).
Proof.
  intros [Hb Hl]. pose proof (fast_hash_total key Hb) as [h [Eh [Hh Lh]]]%returns_some. rewrite Hl in Eh.
  pose proof (ge_fromfe_spec h Hh Lh) as [p2 [E2 (P & HL & HP)]]%returns_some.
  assert (on_curve P) as Hc by (destruct p2, P; apply HL).
  assert (returns (hash_to_ec key) (fun p => p ~> ed_mul 8 P)) as [p [E R]]%returns_some.
  { unfold hash_to_ec. rewrite Eh. cbn [bind]. rewrite E2. cbn [bind].
    eapply returns_bind; [exact (ge_mul8_loose_spec p2 P HL) | cbv beta; intros t Ht]. now apply ge_p1p1_to_p3_spec. }
  assert (Hp key = ed_mul 8 P) as EH by (unfold Hp; rewrite E; now apply p3_point_repr).
  rewrite E. cbn [returns]. rewrite EH. split; [exact R|]. split; [now apply mul8_in_subgroup|]. exists h, P. auto.
Qed.

Lemma Hp_subgroup key : scalar key -> in_subgroup (Hp key).
Proof. intros Hk. pose proof (hash_to_ec_spec key Hk) as [p [_ (_ & H & _)]]%returns_some. exact H. Qed.

Lemma hash_to_ec_bind {T} key (K : ge_p3 -> option T) Q :
  scalar key -> (forall p, p ~> Hp key -> returns (K p) Q) -> returns (bind (hash_to_ec key) K) Q.
Proof. intros Hk HK. eapply returns_bind; [now apply hash_to_ec_spec|]. cbv beta. intros p [Hp _]. now apply HK. Qed.

Lemma key_image_encode pub sec :
  scalar pub -> reduced_scalar sec ->
  generate_key_image pub sec = Some (encode (ed_mul (le_val sec) (Hp pub))).
Proof.
  intros Hp Hs. apply returns_eq. unfold generate_key_image. rewrite assert_reduced by exact Hs. cbn [bind].
  apply hash_to_ec_bind; [exact Hp|]. intros p Rp.
  eapply returns_bind; [eauto with ge | cbv beta; intros q Hq]. now rewrite (tobytes_encode _ _ Hq).
Qed.

(** ** Checking *)

Definition sig_0 : signature := Signature [] [].

(** The pair of commitments of a member of the ring: [c P + r G] and [r Hp(P) + c I]. *)
Definition ring_pair (I P : point) (sig : signature) : list Z :=
  encode (lin (le_val (sig_c sig)) P (le_val (sig_r sig)) base_point) ++
  encode (lin (le_val (sig_r sig)) (Hp (encode P)) (le_val (sig_c sig)) I).

Lemma ring_pair_bytes I P sig : bytes (ring_pair I P sig) /\ length (ring_pair I P sig) = 64%nat.
Proof.
  unfold ring_pair. split; [apply bytes_app; apply encode_scalar|].
  rewrite length_app. now rewrite !(proj2 (encode_scalar _)).
Qed.

(** The commitments and the sum of the challenges of the members in [idx]. *)
Definition ring_bytes (I : point) (Ps : list point) (sig : list signature) (idx : list nat) : list Z :=
  concat (map (fun j => ring_pair I (nth j Ps ed_0) (nth j sig sig_0)) idx).

Definition challenges (sig : list signature) (idx : list nat) : Z :=
  fold_right Z.add 0 (map (fun j => le_val (sig_c (nth j sig sig_0))) idx).

Lemma ring_bytes_shape I Ps sig idx :
  bytes (ring_bytes I Ps sig idx) /\ length (ring_bytes I Ps sig idx) = (length idx * 64)%nat.
Proof.
  induction idx as [|j idx [Hb Hl]]; [split; constructor|]. unfold ring_bytes in *. cbn [map concat length].
  destruct (ring_pair_bytes I (nth j Ps ed_0) (nth j sig sig_0)) as [Hb' Hl'].
  split; [now apply bytes_app | rewrite length_app, Hl, Hl'; lia].
Qed.

(** A ring with its key image: decoded points, and signatures of the size of the ring. *)
Section Ring.
  Variables (I : point) (Ps : list point) (image_pre : list ge_cached).
  Hypothesis HI : on_curve I.
  Hypothesis HPs : forall P, In P Ps -> on_curve P.
  Hypothesis Hpre : odd_table I image_pre.

Let pubs := map encode Ps.

Lemma nth_pub i : (i < length Ps)%nat -> nth_error pubs i = Some (encode (nth i Ps ed_0)) /\ on_curve (nth i Ps ed_0).
Proof.
  intros Hi. split; [|now apply HPs, nth_In]. unfold pubs. rewrite nth_error_map, (nth_error_nth' Ps ed_0 Hi). reflexivity.
Qed.

Definition scalars (s : signature) : Prop := scalar (sig_c s) /\ scalar (sig_r s).

Lemma check_ring_loop_ok sig n k buf t :
  length sig = length Ps -> (k + n <= length Ps)%nat ->
  (forall j, (k <= j < k + n)%nat -> reduced_signature (nth j sig sig_0)) ->
  check_ring_loop image_pre pubs sig (seq k n) buf (enc_scalar t)
    = Some (Some (buf ++ ring_bytes I Ps sig (seq k n), enc_scalar (t + challenges sig (seq k n)))).
Proof.
  intros Hl. revert k buf t. induction n as [|n IH]; intros k buf t Hk HR; cbn [seq check_ring_loop].
  - unfold ring_bytes, challenges. cbn [map concat fold_right]. now rewrite app_nil_r, Z.add_0_r.
  - rewrite (nth_error_nth' sig sig_0) by lia. cbn [bind]. set (s := nth k sig sig_0).
    assert (reduced_signature s) as [Rc Rr] by (apply HR; lia).
    destruct (bad_scalars_spec s (proj1 Rc) (proj1 Rr)) as [[_ ->] | [N _]]; [|contradiction N; now split]. cbn [bind].
    destruct (nth_pub k ltac:(lia)) as [-> HP]. cbn [bind]. set (P := nth k Ps ed_0) in *.
    apply returns_eq. key_run. apply hash_to_ec_bind; [apply encode_scalar|]. intros p Rp. key_run.
    rewrite sc_add_enc by (apply enc_scalar_scalar || apply Rc). cbn [bind].
    rewrite IH by (try lia; intros j Hj; apply HR; lia). cbn [returns].
    unfold ring_bytes, challenges. cbn [map concat fold_right]. fold s P. unfold ring_pair. rewrite <- !app_assoc.
    do 2 f_equal. rewrite le_val_enc_scalar. apply enc_scalar_cong.
    rewrite <- Z.add_assoc. apply Z.add_mod_idemp_l. discriminate.
Qed.

Lemma check_ring_loop_bad sig n k buf sum :
  length sig = length Ps -> (k + n <= length Ps)%nat -> scalar sum ->
  (forall s, In s sig -> scalars s) ->
  (exists j, (k <= j < k + n)%nat /\ ~ reduced_signature (nth j sig sig_0)) ->
  check_ring_loop image_pre pubs sig (seq k n) buf sum = Some None.
Proof.
  intros Hl. revert k buf sum. induction n as [|n IH]; intros k buf sum Hk Hs HS (j & Hj & Nj); cbn [seq check_ring_loop]; [lia|].
  rewrite (nth_error_nth' sig sig_0) by lia. cbn [bind]. set (s := nth k sig sig_0).
  assert (scalars s) as [Sc Sr] by (apply HS, nth_In; lia).
  destruct (bad_scalars_spec s Sc Sr) as [[[Rc Rr] ->] | [N ->]]; cbn [bind]; [|reflexivity].
  destruct (nth_pub k ltac:(lia)) as [-> HP]. cbn [bind]. apply returns_eq. key_run.
  apply hash_to_ec_bind; [apply encode_scalar|]. intros p Rp. key_run.
  rewrite sc_add_enc by assumption. cbn [bind].
  rewrite IH; [reflexivity | lia | apply enc_scalar_scalar | exact HS |].
  exists j. split; [|exact Nj]. assert (j <> k) by (intros ->; apply Nj; now split). lia.
Qed.
End Ring.

Lemma not_all_reduced sig :
  (forall s, In s sig -> scalars s) -> ~ Forall reduced_signature sig ->
  exists j, (j < length sig)%nat /\ ~ reduced_signature (nth j sig sig_0).
Proof.
  induction sig as [|s sig IH]; intros HS HF; [contradiction HF; constructor|].
  destruct (HS s (or_introl eq_refl)) as [Sc Sr].
  destruct (bad_scalars_spec s Sc Sr) as [[R _] | [N _]].
  - destruct IH as (j & Hj & N); [intros; apply HS; now right | intros F; apply HF; now constructor|].
    exists (S j). split; [cbn; lia | exact N].
  - exists 0%nat. split; [cbn; lia | exact N].
Qed.

Lemma assert_check_keys_ok Ps :
  (forall P, In P Ps -> on_curve P) -> assert_check_keys (map encode Ps) (length Ps) = Some tt.
Proof.
  intros HPs. apply returns_eq. apply (foldM_seq (fun _ u => u = tt)); [reflexivity|].
  intros i u Hi _. destruct (nth_pub Ps HPs i ltac:(lia)) as [-> HP]. cbn [bind].
  now rewrite check_key_encode.
Qed.

(** The check on an encoded ring. *)
Lemma check_ring_encode m I Ps sig :
  scalar m -> on_curve I -> (forall P, In P Ps -> on_curve P) -> length sig = length Ps ->
  (forall s, In s sig -> scalars s) ->
  let idx := seq 0 (length Ps) in
  (Forall reduced_signature sig ->
     check_ring_signature true m (encode I) (map encode Ps) (length Ps) sig
       = Some (Hs (m ++ ring_bytes I Ps sig idx) =? challenges sig idx mod ell)) /\
  (~ Forall reduced_signature sig ->
     check_ring_signature true m (encode I) (map encode Ps) (length Ps) sig = Some false).
Proof.
  intros Hm HI HPs Hl HS idx. unfold check_ring_signature. cbn [negb].
  rewrite debug_only_some by now apply assert_check_keys_ok. cbn [bind].
  rewrite sc_0_enc.
  split; intros HF; apply returns_eq; (eapply frombytes_bind; [exact HI|]; intros h Hh; cbv beta iota);
    (eapply returns_bind; [apply (ge_dsm_precomp_spec h I Hh)|]; cbv beta; intros pre Hpre).
  - rewrite (check_ring_loop_ok I Ps pre HI HPs Hpre); trivial; try lia.
    2: { intros j Hj. apply (proj1 (Forall_forall _ _) HF), nth_In. lia. }
    cbn [bind]. fold idx.
    rewrite (hash_to_scalar_enc (m ++ ring_bytes I Ps sig idx)).
    2: { apply bytes_app; [apply Hm | apply ring_bytes_shape]. }
    2: { rewrite length_app, (proj2 (ring_bytes_shape _ _ _ _)), (proj2 Hm). unfold idx. now rewrite length_seq. }
    cbn [bind]. set (h' := Hs _). assert (0 <= h' < ell) as Hh' by apply Hs_range. clearbody h'.
    rewrite sc_sub_enc by apply enc_scalar_scalar. cbn [bind].
    rewrite sc_isnonzero_spec by apply enc_scalar_scalar. cbn [bind returns].
    rewrite !le_val_enc_scalar, Z.add_0_l, <- Zminus_mod.
    pose proof (Z.mod_pos_bound (challenges sig idx) ell ell_pos) as Bt.
    destruct (Z.eqb_spec h' (challenges sig idx mod ell)) as [->|N].
    + rewrite Zminus_mod, Z.mod_mod, Z.sub_diag by discriminate. reflexivity.
    + destruct (Z.eqb_spec ((h' - challenges sig idx) mod ell) 0) as [E|]; [exfalso|reflexivity].
      apply N. rewrite <- (Z.mod_small h' ell Hh'). apply Z.cong_iff_0; exact E.
  - rewrite (check_ring_loop_bad I Ps pre HI HPs Hpre); trivial; try lia; [reflexivity | apply enc_scalar_scalar |].
    destruct (not_all_reduced sig HS HF) as (j & Hj & N). exists j. split; [lia | exact N].
Qed.

(** ** Generation *)

(** The sum of a function over the members other than [s]. *)
Lemma sum_except (f : nat -> Z) s n :
  (s < n)%nat ->
  fold_right Z.add 0 (map f (seq 0 n))
    = fold_right Z.add 0 (map (fun j => if (j =? s)%nat then 0 else f j) (seq 0 n)) + f s.
Proof.
  assert (forall (g : nat -> Z) k, fold_right Z.add 0 (map g (seq 0 (S k))) = fold_right Z.add 0 (map g (seq 0 k)) + g k) as K.
  { intros g k. rewrite seq_S, map_app. cbn [map Nat.add]. induction (map g (seq 0 k)) as [|x l IH]; cbn [fold_right app]; lia. }
  induction n as [|n IH]; intros Hs; [lia|]. rewrite !K. destruct (Nat.eqb_spec n s) as [->|N].
  - rewrite Z.add_0_r. f_equal. f_equal. apply map_ext_in. intros j [_ Hj]%in_seq.
    now rewrite (proj2 (Nat.eqb_neq j s)) by lia.
  - rewrite IH by lia. lia.
Qed.

Section Sign.
  Variables (I : point) (Ps : list point) (image_pre : list ge_cached) (m sec : list Z) (s : nat).
  Hypothesis HI : on_curve I.
  Hypothesis HPs : forall P, In P Ps -> on_curve P.
  Hypothesis Hpre : odd_table I image_pre.
  Hypothesis Hs : (s < length Ps)%nat.

Let H := Hp (encode (nth s Ps ed_0)).

(** The commitments at the index of the signer, for the nonce [k]. *)
Let signer_pair (k : Z) : list Z := encode (ed_mul k base_point) ++ encode (ed_mul k H).

(** The first [i] members have been processed: their signatures are drawn, except the signer's. *)
Definition ring_invariant (i : nat) (st : ring_state) : Prop :=
  length (rs_sig st) = length Ps /\ rng_ready (rs_rng st) /\
  (forall j, (j < i)%nat -> j <> s -> reduced_signature (nth j (rs_sig st) sig_0)) /\
  (s < i -> exists k, rs_k st = Some k /\ reduced_scalar k)%nat /\
  rs_buf st = m ++ concat (map (fun j => if (j =? s)%nat
    then match rs_k st with Some k => signer_pair (le_val k) | None => [] end
    else ring_pair I (nth j Ps ed_0) (nth j (rs_sig st) sig_0)) (seq 0 i)) /\
  rs_sum st = enc_scalar (fold_right Z.add 0 (map (fun j => if (j =? s)%nat then 0
    else le_val (sig_c (nth j (rs_sig st) sig_0))) (seq 0 i))).

Lemma sum_seq_S (f : nat -> Z) i :
    fold_right Z.add 0 (map f (seq 0 (S i))) = fold_right Z.add 0 (map f (seq 0 i)) + f i.
Proof.
    rewrite seq_S, map_app. cbn [map Nat.add]. induction (map f (seq 0 i)) as [|x l IH]; cbn [fold_right app]; lia.
Qed.

Lemma concat_seq_S (f : nat -> list Z) i :
    concat (map f (seq 0 (S i))) = concat (map f (seq 0 i)) ++ f i.
Proof. rewrite seq_S, map_app, concat_app. cbn [map concat Nat.add]. now rewrite app_nil_r. Qed.

Lemma ring_sign_step_spec i st :
    (i < length Ps)%nat -> ring_invariant i st ->
    returns (ring_sign_step image_pre (map encode Ps) s st i) (ring_invariant (S i)).
Proof.
    intros Hi (Hl & Hr & HR & Hk & Eb & Es). unfold ring_sign_step.
    destruct (nth_pub Ps HPs i Hi) as [-> HP]. cbn [bind]. set (P := nth i Ps ed_0) in *.
    destruct (Nat.eqb_spec i s) as [->|Ne].
    - eapply returns_bind; [now apply random_scalar_spec|]. cbv beta. intros [k r] [Rk Hr']. key_run.
      apply hash_to_ec_bind; [apply encode_scalar|]. intros p Rp. key_run. cbn [returns].
      unfold ring_invariant. cbn [rs_sig rs_rng rs_k rs_buf rs_sum].
      split; [exact Hl|]. split; [exact Hr'|]. split; [intros; apply HR; lia|].
      split; [intros _; now exists k|]. split.
      + rewrite concat_seq_S, Nat.eqb_refl, Eb. rewrite <- app_assoc. f_equal. f_equal.
        f_equal. apply map_ext_in. intros j [_ Hj]%in_seq. now rewrite (proj2 (Nat.eqb_neq j s)) by lia.
      + rewrite sum_seq_S, Nat.eqb_refl, Z.add_0_r. exact Es.
    - eapply returns_bind; [now apply random_scalar_spec|]. cbv beta. intros [c r] [Rc Hr'].
      eapply returns_bind; [now apply random_scalar_spec|]. cbv beta. intros [sr r'] [Rr Hr''].
      eapply returns_bind; [apply (aset_spec (rs_sig st) i (Signature c sr) sig_0); lia|]. cbv beta. intros sig [Hls Hn].
      key_run. apply hash_to_ec_bind; [apply encode_scalar|]. intros p Rp. key_run.
      rewrite Es, sc_add_enc by (apply enc_scalar_scalar || apply Rc). cbn [bind returns].
      assert (nth i sig sig_0 = Signature c sr) as Ei by (now rewrite Hn, Nat.eqb_refl).
      assert (forall j, (j < i)%nat -> nth j sig sig_0 = nth j (rs_sig st) sig_0) as Ej.
      { intros j Hj. rewrite Hn. now rewrite (proj2 (Nat.eqb_neq j i)) by lia. }
      unfold ring_invariant. cbn [rs_sig rs_rng rs_k rs_buf rs_sum].
      split; [lia|]. split; [exact Hr''|]. split; [|split; [intros; apply Hk; lia | split]].
      + intros j Hj Nj. destruct (Nat.eq_dec j i) as [->|]; [rewrite Ei; now split|].
        rewrite Ej by lia. apply HR; lia.
      + rewrite concat_seq_S, (proj2 (Nat.eqb_neq i s) Ne), Ei, Eb, <- app_assoc. f_equal. f_equal.
        f_equal. apply map_ext_in. intros j [_ Hj]%in_seq. rewrite Ej by lia. reflexivity.
      + rewrite sum_seq_S, (proj2 (Nat.eqb_neq i s) Ne), Ei, le_val_enc_scalar. cbn [sig_c].
        apply enc_scalar_cong. rewrite Z.add_mod_idemp_l by discriminate. do 3 f_equal.
        apply map_ext_in. intros j [_ Hj]%in_seq. rewrite Ej by lia. reflexivity.
Qed.
End Sign.

Lemma length_blocks (f : nat -> list Z) w idx :
  (forall j, length (f j) = w) -> length (concat (map f idx)) = (length idx * w)%nat.
Proof.
  intros Hf. induction idx as [|j idx IH]; cbn [map concat length]; [reflexivity|]. rewrite length_app, Hf, IH. lia.
Qed.

Lemma lin_comm n P k Q : lin n P k Q = lin k Q n P.
Proof. apply ed_add_comm. Qed.

Lemma forall_nth (Q : signature -> Prop) sig : (forall j, (j < length sig)%nat -> Q (nth j sig sig_0)) -> Forall Q sig.
Proof.
  intros HQ. apply Forall_forall. intros s Hs. destruct (In_nth sig s sig_0 Hs) as (j & Hj & <-). now apply HQ.
Qed.

(** Closing the ring: the signer's answer makes the pair at [s] the pair of its nonce, and the
    challenges add up to the hash. *)
Lemma close_ring m Ps sec s st sig h (I := ed_mul (le_val sec) (Hp (encode (nth s Ps ed_0)))) (idx := seq 0 (length Ps)) k :
  (s < length Ps)%nat -> nth s Ps ed_0 = ed_mul (le_val sec) base_point ->
  ring_invariant I Ps m s (length Ps) st -> rs_k st = Some k -> 0 <= h < ell ->
  length sig = length Ps ->
  (forall j, nth j sig sig_0 = if (j =? s)%nat
     then Signature (enc_scalar (h - le_val (rs_sum st)))
            (enc_scalar (le_val k - le_val (enc_scalar (h - le_val (rs_sum st))) * le_val sec))
     else nth j (rs_sig st) sig_0) ->
  Forall reduced_signature sig /\ rs_buf st = m ++ ring_bytes I Ps sig idx /\ challenges sig idx mod ell = h.
Proof.
  intros Hs EP (Hl & Hr & HR & Hk & Eb & Es) Ek Hh Hls Hn. rewrite Ek in Eb.
  set (c := enc_scalar (h - le_val (rs_sum st))) in *.
  set (sr := enc_scalar (le_val k - le_val c * le_val sec)) in *.
  split; [|split].
  - apply forall_nth. intros j Hj. rewrite Hn. destruct (Nat.eqb_spec j s) as [->|N].
    + split; apply enc_scalar_reduced.
    + apply HR; [lia | exact N].
  - rewrite Eb. f_equal. unfold ring_bytes. f_equal. apply map_ext_in. intros j _. rewrite Hn.
    destruct (Nat.eqb_spec j s) as [->|N]; [|reflexivity]. unfold ring_pair. cbn [sig_c sig_r].
    set (H := Hp (encode (nth s Ps ed_0))) in *. unfold sr. rewrite le_val_enc_scalar, lin_comm.
    rewrite EP at 1. rewrite (lin_comm _ H), lin_comm. unfold I.
    rewrite !answer_correct; [reflexivity | apply Hp_subgroup, encode_scalar | apply base_in_subgroup].
  - unfold challenges, idx. rewrite (sum_except _ s (length Ps) Hs), Hn, Nat.eqb_refl. cbn [sig_c].
    unfold c. rewrite le_val_enc_scalar, Es, le_val_enc_scalar.
    match goal with |- context [fold_right Z.add 0 ?l1 + (h - fold_right Z.add 0 ?l2 mod ell) mod ell] =>
      replace l1 with l2
    end.
    2: { apply map_ext. intros j. rewrite Hn. now destruct (Nat.eqb j s). }
    rewrite Z.add_mod_idemp_r, Z.add_sub_assoc, Zminus_mod, Z.mod_mod, <- Zminus_mod by discriminate.
    rewrite <- (Z.mod_small h ell Hh) at 2. f_equal. lia.
Qed.

(** The buffer is as long as the code says. *)
Lemma ring_buffer_shape I Ps m s st :
  scalar m -> (s < length Ps)%nat -> ring_invariant I Ps m s (length Ps) st ->
  bytes (rs_buf st) /\ rs_comm_size (length Ps) = length (rs_buf st).
Proof.
  intros Hm Hs (_ & _ & _ & Hk & Eb & _). destruct (Hk Hs) as (k & Ek & _). rewrite Ek in Eb. rewrite Eb. split.
  - apply bytes_app; [apply Hm|]. apply Forall_concat, Forall_map, Forall_forall. intros j _.
    destruct (j =? s)%nat; [apply bytes_app; apply encode_scalar | apply ring_pair_bytes].
  - rewrite length_app, (proj2 Hm), (length_blocks _ 64); [now rewrite length_seq|]. intros j.
    destruct (j =? s)%nat; [rewrite length_app, !(proj2 (encode_scalar _)); reflexivity | apply ring_pair_bytes].
Qed.

Lemma generate_ring_spec m Ps sec s sig r :
  scalar m -> (forall P, In P Ps -> on_curve P) -> (s < length Ps)%nat -> reduced_scalar sec ->
  nth s Ps ed_0 = ed_mul (le_val sec) base_point -> length sig = length Ps -> rng_ready r ->
  let I := encode (ed_mul (le_val sec) (Hp (encode (nth s Ps ed_0)))) in
  returns (generate_ring_signature true m I (map encode Ps) (length Ps) sec s sig r) (fun '(sig, r') =>
    length sig = length Ps /\ rng_ready r' /\ Forall reduced_signature sig /\
    check_ring_signature true m I (map encode Ps) (length Ps) sig = Some true).
Proof.
  intros Hm HPs Hs Hsec EP Hl Hr. set (P := nth s Ps ed_0) in *. set (H := Hp (encode P)).
  set (I := ed_mul (le_val sec) H). cbv zeta.
  assert (on_curve I) as HI by apply ed_mul_on_curve, Hp_subgroup, encode_scalar.
  destruct (nth_pub Ps HPs s Hs) as [Ep HP]. fold P in Ep, HP. unfold generate_ring_signature. cbn [cassert bind].
  rewrite debug_only_some by (now rewrite (proj2 (Nat.ltb_lt _ _) Hs)). cbn [bind]. rewrite debug_only_some.
  2: { apply returns_eq. rewrite sc_check_reduced by exact Hsec. cbn [bind Z.eqb cassert]. key_run.
       rewrite Ep. cbn [bind]. rewrite <- EP, key_eqb_refl. cbn [cassert bind].
       rewrite key_image_encode by (trivial; apply encode_scalar). cbn [bind]. fold H I. rewrite key_eqb_refl. cbn [cassert bind].
       now rewrite assert_check_keys_ok. }
  cbn [bind]. eapply frombytes_bind; [exact HI|]. intros hI HhI. cbv beta iota.
  eapply returns_bind; [apply (ge_dsm_precomp_spec hI I HhI)|]. cbv beta. intros pre Hpre.
  eapply returns_bind.
  { apply (foldM_seq (ring_invariant I Ps m s)).
    - unfold ring_invariant. cbn [rs_sig rs_rng rs_k rs_buf rs_sum seq map concat fold_right].
      rewrite app_nil_r. split; [exact Hl|]. split; [exact Hr|]. split; [lia|]. split; [lia|]. split; reflexivity.
    - intros i st Hi Inv. apply ring_sign_step_spec; trivial; lia. }
  cbv beta. cbn [Nat.add]. intros st Inv. pose proof Inv as (Hls & Hr' & _ & Hk & _ & Es).
  destruct (Hk Hs) as (k & Ek & Rk).
  destruct (ring_buffer_shape I Ps m s st Hm Hs Inv) as [Bb Lb].
  rewrite (hash_to_scalar_enc (rs_buf st)) by assumption. cbn [bind].
  assert (scalar (rs_sum st)) as Ss by (rewrite Es; apply enc_scalar_scalar).
  rewrite sc_sub_enc by (trivial; apply enc_scalar_scalar). cbn [bind]. rewrite Ek. cbn [bind].
  rewrite sc_mulsub_enc by (apply enc_scalar_scalar || apply Hsec || apply Rk). cbn [bind].
  rewrite (le_val_enc_scalar (KeyOps.Hs _)), (Z.mod_small (KeyOps.Hs _)) by apply Hs_range.
  eapply returns_bind; [apply (aset_spec (rs_sig st) s _ sig_0); lia|]. cbv beta. intros sig' [Hl' Hn']. cbn [returns].
  destruct (close_ring m Ps sec s st sig' (KeyOps.Hs (rs_buf st)) k Hs EP Inv Ek (Hs_range _) ltac:(lia) Hn') as (HF & EB & EC).
  split; [lia|]. split; [exact Hr'|]. split; [exact HF|].
  fold P in EB. fold H in EB. fold I in EB.
  destruct (check_ring_encode m I Ps sig' Hm HI HPs ltac:(lia)) as [C _].
  { intros x Hx. apply (proj1 (Forall_forall _ _) HF) in Hx. split; apply Hx. }
  rewrite C by exact HF. rewrite <- EB, EC. now rewrite Z.eqb_refl.
Qed.

(** ** Claims *)

(** Keys that [check_key] accepts are the encodings of points. *)
Lemma checked_keys pubs :
  (forall pub, In pub pubs -> scalar pub /\ check_key pub = Some true) ->
  exists Ps, pubs = map encode Ps /\ (forall P, In P Ps -> on_curve P).
Proof.
  induction pubs as [|pub pubs IH]; intros HK; [exists []; split; [reflexivity | intros P []]|].
  destruct IH as (Ps & -> & HPs); [intros; apply HK; now right|].
  destruct (HK pub (or_introl eq_refl)) as [Hp Hc].
  destruct (point_cases pub Hp) as [(P & HP & ->) | [E _]].
  - exists (P :: Ps). split; [reflexivity|]. intros Q [<-|HQ]; auto.
  - unfold check_key in Hc. rewrite E in Hc. discriminate Hc.
Qed.

(** C5: ring signatures are complete: for every ring of valid public keys, every member whose secret
    key is known and its key image, with a working generator, [generate_ring_signature]
    returns, with or without assertions, one signature per member, and
    [check_ring_signature] accepts them. *)
Theorem ring_signature_complete m image pubs sec pub s sig r :
  scalar m -> reduced_scalar sec -> rng_ready r ->
  (forall p, In p pubs -> scalar p /\ check_key p = Some true) ->
  secret_key_to_public_key sec = Some (Some pub) -> nth_error pubs s = Some pub ->
  generate_key_image pub sec = Some image -> length sig = length pubs ->
  exists sig' r', generate_ring_signature true m image pubs (length pubs) sec s sig r = Some (sig', r') /\
    length sig' = length pubs /\ rng_ready r' /\
    check_ring_signature true m image pubs (length pubs) sig' = Some true.
Proof.
  intros Hm Hsec Hr HK Epub Es Ei Hl. destruct (checked_keys pubs HK) as (Ps & -> & HPs).
  rewrite secret_to_public in Epub by exact Hsec. injection Epub as <-.
  rewrite key_image_encode in Ei by (trivial; apply encode_scalar). injection Ei as <-. rewrite length_map in *.
  assert (s < length Ps)%nat as Hs by (apply nth_error_Some; rewrite nth_error_map in Es; intros E; now rewrite E in Es).
  destruct (nth_pub Ps HPs s Hs) as [E HP]. rewrite E in Es.
  apply (f_equal (fun o => match o with Some k => k | None => [] end)) in Es.
  apply encode_inj in Es; [|exact HP | apply ed_mul_on_curve, base_point_on_curve].
  pose proof (generate_ring_spec m Ps sec s sig r Hm HPs Hs Hsec Es Hl Hr) as G. cbv zeta in G. rewrite Es in G.
  apply returns_some in G. destruct G as ([sig' r'] & Eg & H1 & H2 & _ & H3). exists sig', r'. auto.
Qed.

(** C7: what [check_ring_signature] accepts: for a ring of points and a point as key image, exactly
    the lists of scalars below the order whose challenges add up, modulo the order, to the
    hash of the message and all pairs c P + r G, r Hp(P) + c I. A failed allocation, a key
    image that is no point, or a scalar that is not reduced makes it return false. *)
Theorem check_ring_signature_correct m I Ps sig :
  scalar m -> on_curve I -> (forall P, In P Ps -> on_curve P) -> length sig = length Ps ->
  (forall s, In s sig -> scalars s) ->
  let idx := seq 0 (length Ps) in
  let check ok image := check_ring_signature ok m image (map encode Ps) (length Ps) sig in
  (check true (encode I) = Some true <->
     Forall reduced_signature sig /\ challenges sig idx mod ell = Hs (m ++ ring_bytes I Ps sig idx)) /\
  (check true (encode I) = Some false <-> check true (encode I) <> Some true) /\
  (forall image, check false image = Some false) /\
  (forall image, scalar image -> check_key image = Some false -> check true image = Some false).
Proof.
  intros Hm HI HPs Hl HS idx check. destruct (check_ring_encode m I Ps sig Hm HI HPs Hl HS) as [C1 C2].
  assert (Forall reduced_signature sig \/ ~ Forall reduced_signature sig) as D.
  { clear - HS. induction sig as [|s sig IH]; [left; constructor|].
    destruct (HS s (or_introl eq_refl)) as [Sc Sr].
    destruct (bad_scalars_spec s Sc Sr) as [[R _] | [N _]]; [|right; intros F; inversion F; contradiction].
    destruct IH as [F | F]; [intros; apply HS; now right | left; now constructor | right; intros F'; inversion F'; contradiction]. }
  assert (check true (encode I) = Some true \/ check true (encode I) = Some false) as B.
  { unfold check. destruct D as [F | F]; [rewrite C1 by exact F; destruct (_ =? _); auto | rewrite C2 by exact F; auto]. }
  split; [|split; [|split; [reflexivity|]]].
  - unfold check, idx. destruct D as [F | F].
    + rewrite C1 by exact F. split; [intros [= E%Z.eqb_eq]; exact (conj F (eq_sym E))|].
      intros [_ E]. f_equal. apply Z.eqb_eq. exact (eq_sym E).
    + rewrite C2 by exact F. split; [discriminate | intros [F' _]; contradiction].
  - destruct B as [-> | ->]; split; congruence.
  - intros image Hi Ki. unfold check, check_ring_signature. cbn [negb].
    rewrite debug_only_some by now apply assert_check_keys_ok. cbn [bind].
    destruct (point_cases image Hi) as [(P & HP & ->) | [E _]]; [rewrite check_key_encode in Ki by exact HP; discriminate Ki|].
    now rewrite E.
Qed.

(** Key images: for every key and reduced secret, the key image is x times the hash of the key to
    a point, which is 8 times the curve point that the field map assigns to the hash of the
    key; so it lies in the prime order subgroup, and is a valid point whenever the arguments
    are bytes. Only a secret that is not reduced fails, in builds with assertions. *)
Theorem key_image_correct pub sec :
  scalar pub -> scalar sec ->
  (reduced_scalar sec -> exists h P,
     fast_hash pub 32 = Some h /\ on_curve P /\ hash_point (Zmod.of_Z p25519 (le_val h)) P /\
     generate_key_image pub sec = Some (encode (ed_mul (le_val sec) (ed_mul 8 P))) /\
     in_subgroup (ed_mul (le_val sec) (ed_mul 8 P))) /\
  (~ reduced_scalar sec -> debug = true -> generate_key_image pub sec = None).
Proof.
  intros Hp Hs. split.
  - intros R. pose proof (hash_to_ec_spec pub Hp) as [p [_ (_ & SP & h & P & Eh & HP & HH & E)]]%returns_some.
    exists h, P. rewrite key_image_encode, E by assumption. rewrite E in SP.
    split; [exact Eh|]. split; [exact HP|]. split; [exact HH|]. split; [reflexivity|]. now apply mul_in_subgroup.
  - intros N D. unfold generate_key_image. now rewrite assert_large.
Qed.
End RingSig.

(** Two lists of challenges with different sums differ in a member. *)
Lemma challenges_differ sig sig' idx :
  challenges sig idx <> challenges sig' idx ->
  exists j, In j idx /\ sig_c (nth j sig sig_0) <> sig_c (nth j sig' sig_0).
Proof.
  unfold challenges. induction idx as [|j idx IH]; cbn [map fold_right]; intros N; [congruence|].
  destruct (list_eq_dec Z.eq_dec (sig_c (nth j sig sig_0)) (sig_c (nth j sig' sig_0))) as [E|E].
  - destruct IH as (i & Hi & Ni); [intros E'; apply N; now rewrite E, E'|]. exists i. split; [now right | exact Ni].
  - exists j. split; [now left | exact E].
Qed.

(** Equal bytes of two signatures are equal pairs, member by member. *)
Lemma ring_bytes_inj (H1 H2 : FastHash) I Ps sig sig' idx j :
  @ring_bytes H1 I Ps sig idx = @ring_bytes H2 I Ps sig' idx -> In j idx ->
  @ring_pair H1 I (nth j Ps ed_0) (nth j sig sig_0) = @ring_pair H2 I (nth j Ps ed_0) (nth j sig' sig_0).
Proof.
  unfold ring_bytes. induction idx as [|i idx IH]; cbn [map concat]; intros E Hj; [destruct Hj|].
  apply app_inj_length in E as [E1 E2]; [|exact (eq_trans (proj2 (@ring_pair_bytes H1 _ _ _)) (eq_sym (proj2 (@ring_pair_bytes H2 _ _ _))))].
  destruct Hj as [<- | Hj]; auto.
Qed.

(** The bytes that [check_ring_signature] hashes for a signature: [rs_comm] after its loop. *)
Definition hashed_by_check {FH : FastHash} (prefix_hash image : list Z) (pubs : list (list Z)) (sig : list signature) : option (option (list Z)) :=
  if? image_unp := ge_frombytes_vartime image else Some None in
  let! image_pre := ge_dsm_precomp image_unp in
  if? r := check_ring_loop image_pre pubs sig (seq 0 (length pubs)) prefix_hash sc_0 else Some None in
  Some (Some (fst r)).

Lemma hashed_by_check_enc {FH : FastHash} m I Ps sig :
  on_curve I -> (forall P, In P Ps -> on_curve P) -> length sig = length Ps -> Forall reduced_signature sig ->
  hashed_by_check m (encode I) (map encode Ps) sig = Some (Some (m ++ ring_bytes I Ps sig (seq 0 (length Ps)))).
Proof.
  intros HI HPs Hl HF. unfold hashed_by_check. apply returns_eq. eapply frombytes_bind; [exact HI|]. intros h Hh. cbv beta iota.
  eapply returns_bind; [apply (ge_dsm_precomp_spec h I Hh)|]. cbv beta. intros pre Hpre.
  rewrite sc_0_enc, length_map, (check_ring_loop_ok I Ps pre) by
    (trivial; intros j Hj; apply (proj1 (Forall_forall _ _) HF), nth_In; lia). reflexivity.
Qed.

(** An accepted signature: its scalars are reduced, and its challenges add up to the hash of [rs_comm]. *)
Lemma accepted_ring {FH : FastHash} {BD : Build} m I Ps sig :
  scalar m -> on_curve I -> (forall P, In P Ps -> on_curve P) -> length sig = length Ps -> (forall s, In s sig -> scalars s) ->
  check_ring_signature true m (encode I) (map encode Ps) (length Ps) sig = Some true ->
  let q := m ++ ring_bytes I Ps sig (seq 0 (length Ps)) in
  (forall j, (j < length Ps)%nat -> reduced_signature (nth j sig sig_0)) /\
  hashed_by_check m (encode I) (map encode Ps) sig = Some (Some q) /\
  hash_to_scalar q (length q) = Some (enc_scalar (challenges sig (seq 0 (length Ps)))).
Proof.
  intros Hm HI HPs Hl HS C q. destruct (check_ring_encode m I Ps sig Hm HI HPs Hl HS) as [C1 C2].
  assert (Forall reduced_signature sig) as HF.
  { apply forall_nth. intros j Hj. destruct (bad_scalars_spec (nth j sig sig_0)) as [[R _] | [N _]]; [apply HS, nth_In, Hj.. | exact R |].
    exfalso. rewrite C2 in C; [discriminate C|]. intros F. apply N, (proj1 (Forall_forall _ _) F), nth_In, Hj. }
  rewrite C1 in C by exact HF. apply some_inj, Z.eqb_eq in C.
  split; [intros j Hj; apply (proj1 (Forall_forall _ _) HF), nth_In; lia|]. split; [now apply hashed_by_check_enc|].
  unfold q. rewrite hash_to_scalar_enc; [|apply bytes_app; [apply Hm | apply ring_bytes_shape] | reflexivity].
  f_equal. rewrite C. apply enc_scalar_cong, Z.mod_mod. discriminate.
Qed.

(** C6: soundness of ring signatures: two signatures for one ring and key image are accepted under two
    hash functions that agree on the hashes of the keys to points; the checks hash the same bytes, and
    the two functions give different answers to them (as when a signer is run again from that
    query on). Then the signatures determine the secret x of one member P of the ring, 8 P = 8 x G,
    and the key image is the one of that member, 8 I = 8 x Hp(P): an accepted image links to a key
    whose secret the signer knows. *)
Theorem ring_signature_sound (H1 H2 : FastHash) (BD : Build) m m' I Ps sig sig' q :
  scalar m -> scalar m' -> on_curve I -> (forall P, In P Ps -> on_curve P) ->
  length sig = length Ps -> length sig' = length Ps ->
  (forall s, In s sig -> scalars s) -> (forall s, In s sig' -> scalars s) ->
  (forall P, In P Ps -> @Hp H1 (encode P) = @Hp H2 (encode P)) ->
  @check_ring_signature H1 BD true m (encode I) (map encode Ps) (length Ps) sig = Some true ->
  @check_ring_signature H2 BD true m' (encode I) (map encode Ps) (length Ps) sig' = Some true ->
  @hashed_by_check H1 m (encode I) (map encode Ps) sig = Some (Some q) ->
  @hashed_by_check H2 m' (encode I) (map encode Ps) sig' = Some (Some q) ->
  @hash_to_scalar H1 q (length q) <> @hash_to_scalar H2 q (length q) ->
  exists j, (j < length Ps)%nat /\
    let P := nth j Ps ed_0 in
    let x := extract (nth j sig sig_0) (nth j sig' sig_0) in
    ed_mul 8 P = ed_mul 8 (ed_mul x base_point) /\
    ed_mul 8 I = ed_mul 8 (ed_mul x (@Hp H1 (encode P))).
Proof.
  intros Hm Hm' HI HPs Hl Hl' HS HS' EH C C' Q Q' N.
  destruct (@accepted_ring H1 BD m I Ps sig Hm HI HPs Hl HS C) as (K & E & Eh).
  destruct (@accepted_ring H2 BD m' I Ps sig' Hm' HI HPs Hl' HS' C') as (K' & E' & Eh').
  rewrite Q in E. rewrite Q' in E'. apply some_inj, some_inj in E, E'. rewrite <- E in Eh. rewrite <- E' in Eh'. rewrite Eh, Eh' in N.
  rewrite E' in E. apply app_inj_length in E as [_ E]; [|now rewrite (proj2 Hm), (proj2 Hm')].
  destruct (challenges_differ sig sig' (seq 0 (length Ps))) as (j & Hj & Nj); [intros D; apply N; now rewrite D|].
  pose proof (ring_bytes_inj H1 H2 I Ps sig sig' _ j (eq_sym E) Hj) as EP. apply in_seq in Hj as [_ Hj]. exists j. split; [lia|]. cbv zeta.
  pose proof (K j ltac:(lia)) as R. pose proof (K' j ltac:(lia)) as R'. assert (In (nth j Ps ed_0) Ps) as Hin by (apply nth_In; lia).
  set (P := nth j Ps ed_0) in *. pose proof (HPs P Hin) as HP. specialize (EH P Hin).
  pose proof (proj1 (@Hp_subgroup H1 (encode P) (encode_scalar P))) as HH. unfold ring_pair in EP. rewrite <- EH in EP.
  apply app_inj_length in EP as [E1 E2]; [|now rewrite !(proj2 (encode_scalar _))].
  apply encode_inj in E1, E2; try apply lin_on_curve; trivial; try apply base_point_on_curve.
  rewrite (lin_comm (le_val (sig_r (nth j sig _)))), (lin_comm (le_val (sig_r (nth j sig' _)))) in E2.
  split; apply extract_correct; trivial. apply base_point_on_curve.
Qed.

(** *** Witnesses *)

#[local] Existing Instance debug_build.

Definition two_keys : list (list Z) := [encode base_point; encode five_G].

Lemma two_keys_ok p : In p two_keys -> scalar p /\ check_key p = Some true.
Proof.
  intros [<- | [<- | []]]; (split; [apply encode_scalar | apply check_key_encode]).
  - apply base_point_on_curve.
  - apply five_G_subgroup.
Qed.

Lemma ring_signature_complete_witness :
  exists sig' r',
    generate_ring_signature true ones32 (encode (ed_mul (le_val five) (Hp (encode five_G)))) two_keys 2 five 1
      [sig_0; sig_0] seeded = Some (sig', r') /\
    length sig' = 2%nat /\ random_ready r' /\
    check_ring_signature true ones32 (encode (ed_mul (le_val five) (Hp (encode five_G)))) two_keys 2 sig' = Some true.
Proof.
  exact (ring_signature_complete ones32 _ two_keys five (encode five_G) 1 [sig_0; sig_0] seeded ones32_scalar
    (enc_scalar_reduced 5) seeded_ready two_keys_ok (secret_to_public five (enc_scalar_reduced 5)) eq_refl
    (key_image_encode (encode five_G) five (encode_scalar _) (enc_scalar_reduced 5)) eq_refl).
Defined.

Lemma five_ring P : In P [five_G] -> on_curve P.
Proof. intros [<- | []]. apply five_G_subgroup. Qed.

Lemma answer_scalars c t s : In s [Signature (enc_scalar c) (enc_scalar t)] -> scalars s.
Proof. intros [<- | []]. split; apply enc_scalar_scalar. Qed.

Lemma check_ring_signature_correct_witness :
  check_ring_signature true ones32 ones32 (map encode [five_G]) 1 [zero_signature] = Some false.
Proof.
  exact (proj2 (proj2 (proj2 (check_ring_signature_correct ones32 base_point [five_G] [zero_signature] ones32_scalar
    base_point_on_curve five_ring eq_refl (answer_scalars 0 0))))
    ones32 ones32_scalar ones32_invalid).
Defined.

Lemma key_image_correct_witness :
  generate_key_image ones32 ones32 = None.
Proof. exact (proj2 (key_image_correct ones32 ones32 ones32_scalar ones32_scalar) ones32_not_reduced eq_refl). Defined.

(** A hash that is constant on keys, and answers the other queries with the challenge [n]. *)
Definition oracle (n : Z) : FastHash :=
  {| fast_hash := fun _ len => Some (if (len =? 32)%nat then enc_scalar 3 else enc_scalar n);
     fast_hash_total := fun d _ => match (length d =? 32)%nat as b return is_hash (if b then _ else _) with
                                   | true => enc_scalar_scalar 3 | false => enc_scalar_scalar n end |}.

Definition oracle_image : point := ed_mul (le_val five) (@Hp (oracle 1) (encode five_G)).

Lemma oracle_Hp n n' P : @Hp (oracle n) (encode P) = @Hp (oracle n') (encode P).
Proof. unfold Hp, hash_to_ec, fast_hash, oracle. cbn [Nat.eqb]. reflexivity. Qed.

Lemma oracle_Hp_on_curve : on_curve (@Hp (oracle 1) (encode five_G)).
Proof. exact (proj1 (@Hp_subgroup (oracle 1) (encode five_G) (encode_scalar five_G))). Qed.

Lemma oracle_image_on_curve : on_curve oracle_image.
Proof. exact (ed_mul_on_curve _ oracle_Hp_on_curve _). Qed.

Lemma ring_accepted n t :
  0 <= n < ell ->
  @check_ring_signature (oracle n) debug_build true ones32 (encode oracle_image) (map encode [five_G]) (length [five_G])
    [Signature (enc_scalar n) (enc_scalar t)] = Some true.
Proof.
  intros Hn. rewrite (proj1 (@check_ring_encode (oracle n) debug_build ones32 oracle_image [five_G]
    [Signature (enc_scalar n) (enc_scalar t)] ones32_scalar oracle_image_on_curve five_ring eq_refl (answer_scalars n t)))
    by (constructor; [split; apply enc_scalar_reduced | constructor]).
  f_equal. apply Z.eqb_eq. unfold Hs, fast_hash, oracle at 1.
  rewrite length_app, (proj2 (@ring_bytes_shape (oracle n) _ _ _ _)), (proj2 ones32_scalar), length_seq. cbn [length Nat.mul Nat.add Nat.eqb].
  unfold challenges. cbn [seq map nth fold_right sig_c length]. now rewrite Z.add_0_r.
Qed.

Lemma ring_answers_pair (H1 H2 : FastHash) H :
  @Hp H1 (encode five_G) = H -> @Hp H2 (encode five_G) = H -> on_curve H ->
  @ring_pair H1 (ed_mul (le_val five) H) five_G answer1 = @ring_pair H2 (ed_mul (le_val five) H) five_G answer2.
Proof.
  intros E1 E2 HH. unfold ring_pair. rewrite E1, E2. clear E1 E2.
  pose proof (answers_same_commitment _ base_point_on_curve) as E1. fold five_G in E1.
  pose proof (answers_same_commitment _ HH) as E2.
  rewrite (lin_comm (le_val (sig_r answer1)) H), (lin_comm (le_val (sig_r answer2)) H), E1, E2. reflexivity.
Qed.

Lemma one_ring_bytes {FH : FastHash} I P sig : ring_bytes I [P] [sig] (seq 0 1) = ring_pair I P sig.
Proof. unfold ring_bytes. cbn [seq map concat nth]. apply app_nil_r. Qed.

Definition one_query : list Z := ones32 ++ @ring_pair (oracle 1) oracle_image five_G answer1.

Lemma oracle_query n sig :
  reduced_signature sig -> @ring_pair (oracle n) oracle_image five_G sig = @ring_pair (oracle 1) oracle_image five_G answer1 ->
  @hashed_by_check (oracle n) ones32 (encode oracle_image) (map encode [five_G]) [sig] = Some (Some one_query).
Proof.
  intros Hr E. rewrite (@hashed_by_check_enc (oracle n) ones32 oracle_image [five_G] [sig] oracle_image_on_curve five_ring eq_refl
    (Forall_cons sig Hr (Forall_nil _))).
  change (length [five_G]) with 1%nat. rewrite one_ring_bytes, E. reflexivity.
Qed.

Lemma oracle_differs : @hash_to_scalar (oracle 1) one_query (length one_query) <> @hash_to_scalar (oracle 2) one_query (length one_query).
Proof.
  assert (length one_query = 96%nat) as L by (unfold one_query; now rewrite length_app, (proj2 ones32_scalar), (proj2 (@ring_pair_bytes (oracle 1) _ _ _))).
  rewrite L. unfold hash_to_scalar, fast_hash, oracle. cbn [Nat.eqb bind].
  vm_compute. discriminate.
Qed.

Lemma ring_signature_sound_witness :
  exists j, (j < 1)%nat /\
    let P := nth j [five_G] ed_0 in
    let x := extract (nth j [answer1] sig_0) (nth j [answer2] sig_0) in
    ed_mul 8 P = ed_mul 8 (ed_mul x base_point) /\
    ed_mul 8 oracle_image = ed_mul 8 (ed_mul x (@Hp (oracle 1) (encode P))).
Proof.
  refine (ring_signature_sound (oracle 1) (oracle 2) debug_build ones32 ones32 oracle_image [five_G] [answer1] [answer2] one_query
    ones32_scalar ones32_scalar oracle_image_on_curve five_ring eq_refl eq_refl (answer_scalars 1 7) (answer_scalars 2 2)
    (fun P _ => oracle_Hp 1 2 P) (ring_accepted 1 7 _) (ring_accepted 2 2 _) (oracle_query 1 answer1 _ eq_refl) (oracle_query 2 answer2 _ _) oracle_differs).
  - split; [discriminate | reflexivity].
  - split; [discriminate | reflexivity].
  - split; apply enc_scalar_reduced.
  - split; apply enc_scalar_reduced.
  - symmetry. exact (ring_answers_pair (oracle 1) (oracle 2) _ eq_refl (oracle_Hp 2 1 five_G) oracle_Hp_on_curve).
Defined.
