(* ===== verification/IntUtil.v ===== *)
(** * Integer utilities

    Models int-util.h of src/common: 128-bit products and long division on 64-bit words,
    rotations, and byte swapping of words and arrays; and the portable [mul] of
    difficulty.cpp, which builds for other processors than x86-64 use. Words are integers
    with their wrap-around written out ([u32], [u64]). *)

From Stdlib Require Import ZArith Lia List Bool.
From S2P Require Import Prelude Bytes.
Import ListNotations.

#[local] Open Scope Z_scope.

(** ** The code *)

Definition hi_dword (v : Z) : Z := Z.shiftr v 32.
Definition lo_dword (v : Z) : Z := Z.land v 0xFFFFFFFF.

(** [c ? 1 : 0] *)
Definition bit (c : bool) : Z := if c then 1 else 0.

(** The low word, and [*product_hi]. *)
Definition mul128 (multiplier multiplicand : Z) : option (Z * Z) :=
  let a := hi_dword multiplier in
  let b := lo_dword multiplier in
  let c := hi_dword multiplicand in
  let d := lo_dword multiplicand in
  let ac := u64 (a * c) in
  let ad := u64 (a * d) in
  let bc := u64 (b * c) in
  let bd := u64 (b * d) in
  let adbc := u64 (ad + bc) in
  let adbc_carry := bit (adbc <? ad) in
  let product_lo := u64 (bd + u64 (Z.shiftl adbc 32)) in
  let product_lo_carry := bit (product_lo <? bd) in
  let product_hi := u64 (u64 (u64 (ac + Z.shiftr adbc 32) + u64 (Z.shiftl adbc_carry 32)) + product_lo_carry) in
  let! _ := cassert (ac <=? product_hi) in
  Some (product_lo, product_hi).

(** The portable [mul]: the words [low] and [high]. *)
Definition mul_portable (a b : Z) : Z * Z :=
  let aLow := Z.land a 0xFFFFFFFF in
  let aHigh := Z.shiftr a 32 in
  let bLow := Z.land b 0xFFFFFFFF in
  let bHigh := Z.shiftr b 32 in
  let res := u64 (aLow * bLow) in
  let lowRes1 := Z.land res 0xFFFFFFFF in
  let carry := Z.shiftr res 32 in
  let res := u64 (u64 (aHigh * bLow) + carry) in
  let highResHigh1 := Z.shiftr res 32 in
  let highResLow1 := Z.land res 0xFFFFFFFF in
  let res := u64 (aLow * bHigh) in
  let lowRes2 := Z.land res 0xFFFFFFFF in
  let carry := Z.shiftr res 32 in
  let res := u64 (u64 (aHigh * bHigh) + carry) in
  let highResHigh2 := Z.shiftr res 32 in
  let highResLow2 := Z.land res 0xFFFFFFFF in
  let r := u64 (highResLow1 + lowRes2) in
  let carry := Z.shiftr r 32 in
  let low := Z.lor (u64 (Z.shiftl r 32)) lowRes1 in
  let r := u64 (u64 (highResHigh1 + highResLow2) + carry) in
  let d3 := Z.land r 0xFFFFFFFF in
  let carry := Z.shiftr r 32 in
  let r := u64 (highResHigh2 + carry) in
  let high := Z.lor d3 (u64 (Z.shiftl r 32)) in
  (low, high).

(** The quotient, and the new [*remainder]; division by zero is undefined. *)
Definition div_with_reminder (dividend divisor remainder : Z) : option (Z * Z) :=
  let dividend := Z.lor dividend (u64 (Z.shiftl remainder 32)) in
  if divisor =? 0 then None else Some (dividend / divisor, u32 (dividend mod divisor)).

(** The remainder, [*quotient_hi] and [*quotient_lo]. *)
Definition div128_32 (dividend_hi dividend_lo divisor : Z) : option (Z * Z * Z) :=
  let! '(q3, remainder) := div_with_reminder (hi_dword dividend_hi) divisor 0 in
  let quotient_hi := u64 (Z.shiftl q3 32) in
  let! '(q2, remainder) := div_with_reminder (lo_dword dividend_hi) divisor remainder in
  let quotient_hi := Z.lor quotient_hi q2 in
  let! '(q1, remainder) := div_with_reminder (hi_dword dividend_lo) divisor remainder in
  let quotient_lo := u64 (Z.shiftl q1 32) in
  let! '(q0, remainder) := div_with_reminder (lo_dword dividend_lo) divisor remainder in
  let quotient_lo := Z.lor quotient_lo q0 in
  Some (remainder, quotient_hi, quotient_lo).

Definition rol32 (x r : Z) : Z := Z.lor (u32 (Z.shiftl x (Z.land r 31))) (Z.shiftr x (Z.land (- r) 31)).
Definition rol64 (x r : Z) : Z := Z.lor (u64 (Z.shiftl x (Z.land r 63))) (Z.shiftr x (Z.land (- r) 63)).

Definition swap32 (x : Z) : Z :=
  let x := Z.lor (u32 (Z.shiftl (Z.land x 0x00ff00ff) 8)) (Z.shiftr (Z.land x 0xff00ff00) 8) in
  Z.lor (u32 (Z.shiftl x 16)) (Z.shiftr x 16).

Definition swap64 (x : Z) : Z :=
  let x := Z.lor (u64 (Z.shiftl (Z.land x 0x00ff00ff00ff00ff) 8)) (Z.shiftr (Z.land x 0xff00ff00ff00ff00) 8) in
  let x := Z.lor (u64 (Z.shiftl (Z.land x 0x0000ffff0000ffff) 16)) (Z.shiftr (Z.land x 0xffff0000ffff0000) 16) in
  Z.lor (u64 (Z.shiftl x 32)) (Z.shiftr x 32).

Definition SWAP32 (x : Z) : Z :=
  Z.lor (Z.lor (Z.lor (u32 (Z.shiftl (Z.land (u32 x) 0x000000ff) 24)) (u32 (Z.shiftl (Z.land (u32 x) 0x0000ff00) 8)))
    (Z.shiftr (Z.land (u32 x) 0x00ff0000) 8)) (Z.shiftr (Z.land (u32 x) 0xff000000) 24).

Definition SWAP64 (x : Z) : Z :=
  Z.lor (Z.lor (Z.lor (Z.lor (Z.lor (Z.lor (Z.lor
    (u64 (Z.shiftl (Z.land (u64 x) 0x00000000000000ff) 56))
    (u64 (Z.shiftl (Z.land (u64 x) 0x000000000000ff00) 40)))
    (u64 (Z.shiftl (Z.land (u64 x) 0x0000000000ff0000) 24)))
    (u64 (Z.shiftl (Z.land (u64 x) 0x00000000ff000000) 8)))
    (Z.shiftr (Z.land (u64 x) 0x000000ff00000000) 8))
    (Z.shiftr (Z.land (u64 x) 0x0000ff0000000000) 24))
    (Z.shiftr (Z.land (u64 x) 0x00ff000000000000) 40))
    (Z.shiftr (Z.land (u64 x) 0xff00000000000000) 56).

Definition ident32 (x : Z) : Z := x.
Definition ident64 (x : Z) : Z := x.

(** [for (i = 0; i < n; i++) mem[i] = swap(mem[i]);] on an array of words. *)
Definition mem_inplace_swap32 (mem : list Z) (n : nat) : option (list Z) :=
  foldM (fun mem i => let! x := nth_error mem i in aset mem i (swap32 x)) (seq 0 n) mem.
Definition mem_inplace_swap64 (mem : list Z) (n : nat) : option (list Z) :=
  foldM (fun mem i => let! x := nth_error mem i in aset mem i (swap64 x)) (seq 0 n) mem.

(** [for (i = 0; i < n; i++) dst[i] = swap(src[i]);] *)
Definition memcpy_swap32 (dst src : list Z) (n : nat) : option (list Z) :=
  foldM (fun dst i => let! x := nth_error src i in aset dst i (swap32 x)) (seq 0 n) dst.
Definition memcpy_swap64 (dst src : list Z) (n : nat) : option (list Z) :=
  foldM (fun dst i => let! x := nth_error src i in aset dst i (swap64 x)) (seq 0 n) dst.

(** ** Words *)

Lemma lo_dword_mod v : lo_dword v = v mod 2 ^ 32.
Proof. unfold lo_dword. change 0xFFFFFFFF with (Z.ones 32). now rewrite Z.land_ones. Qed.

Lemma hi_dword_div v : hi_dword v = v / 2 ^ 32.
Proof. unfold hi_dword. now rewrite Z.shiftr_div_pow2. Qed.

(** The two halves of a word. *)
Lemma dwords v :
  0 <= v < 2 ^ 64 ->
  v = hi_dword v * 2 ^ 32 + lo_dword v /\ 0 <= hi_dword v < 2 ^ 32 /\ 0 <= lo_dword v < 2 ^ 32.
Proof.
  intros Hv. rewrite hi_dword_div, lo_dword_mod. pose proof (Z.div_mod v (2 ^ 32) ltac:(lia)).
  pose proof (Z.mod_pos_bound v (2 ^ 32) ltac:(lia)).
  assert (0 <= v / 2 ^ 32 < 2 ^ 32) by (split; [apply Z.div_pos | apply Z.div_lt_upper_bound]; lia). lia.
Qed.

Lemma u64_range x : 0 <= u64 x < 2 ^ 64.
Proof. apply Z.mod_pos_bound. lia. Qed.

(** The product of two dwords, and what can be added to it. *)
Lemma dword_product a b : 0 <= a < 2 ^ 32 -> 0 <= b < 2 ^ 32 -> 0 <= a * b <= (2 ^ 32 - 1) * (2 ^ 32 - 1).
Proof. nia. Qed.

(** A sum that overflows at most once, and how the code detects it. *)
Lemma u64_add_carry x y :
  0 <= x < 2 ^ 64 -> 0 <= y < 2 ^ 64 ->
  x + y = u64 (x + y) + 2 ^ 64 * bit (u64 (x + y) <? x) /\ 0 <= u64 (x + y) < 2 ^ 64 /\ 0 <= bit (u64 (x + y) <? x) <= 1.
Proof.
  intros Hx Hy. pose proof (u64_range (x + y)) as R. split; [|split; [exact R | destruct (_ <? _); cbn; lia]].
  destruct (Z.lt_ge_cases (x + y) (2 ^ 64)).
  - rewrite (u64_small (x + y)) by lia. destruct (Z.ltb_spec (x + y) x); cbn [bit]; lia.
  - assert (u64 (x + y) = x + y - 2 ^ 64) as E by (symmetry; apply (Z.mod_unique_pos _ _ 1); lia).
    rewrite E. destruct (Z.ltb_spec (x + y - 2 ^ 64) x); cbn [bit]; lia.
Qed.

(** The low half of a word moved up. *)
Lemma u64_shl32 v : 0 <= v < 2 ^ 64 -> u64 (Z.shiftl v 32) = 2 ^ 32 * lo_dword v.
Proof.
  intros Hv. destruct (dwords v Hv) as (E & Hh & Hl). rewrite Z.shiftl_mul_pow2 by lia.
  symmetry. apply (Z.mod_unique_pos _ _ (hi_dword v)); lia.
Qed.

Lemma lor_high a b : 0 <= a < 2 ^ 32 -> 0 <= b -> Z.lor (2 ^ 32 * b) a = 2 ^ 32 * b + a.
Proof.
  intros Ha Hb. rewrite Z.lor_comm. replace (2 ^ 32 * b) with (Z.shiftl b 32) by (rewrite Z.shiftl_mul_pow2; lia).
  rewrite lor_shiftl_add by lia. rewrite Z.shiftl_mul_pow2 by lia. lia.
Qed.

Lemma product_words x y lo hi :
  0 <= lo < 2 ^ 64 -> x * y = hi * 2 ^ 64 + lo -> lo = (x * y) mod 2 ^ 64 /\ hi = (x * y) / 2 ^ 64.
Proof.
  intros Hl E. split; [apply (Z.mod_unique_pos _ _ hi); lia | apply (Z.div_unique_pos _ _ _ lo); lia].
Qed.

Lemma mul128_spec x y :
  0 <= x < 2 ^ 64 -> 0 <= y < 2 ^ 64 -> mul128 x y = Some ((x * y) mod 2 ^ 64, (x * y) / 2 ^ 64).
Proof.
  intros Hx Hy. destruct (dwords x Hx) as (Ex & Ha & Hb), (dwords y Hy) as (Ey & Hc & Hd).
  unfold mul128. set (a := hi_dword x) in *. set (b := lo_dword x) in *. set (c := hi_dword y) in *. set (d := lo_dword y) in *.
  clearbody a b c d.
  pose proof (dword_product a c Ha Hc) as Bac. pose proof (dword_product a d Ha Hd) as Bad.
  pose proof (dword_product b c Hb Hc) as Bbc. pose proof (dword_product b d Hb Hd) as Bbd.
  rewrite !(u64_small (_ * _)) by lia.
  destruct (u64_add_carry (a * d) (b * c) ltac:(lia) ltac:(lia)) as (E1 & R1 & C1).
  set (adbc := u64 (a * d + b * c)) in *. set (k1 := bit (adbc <? a * d)) in *.
  destruct (dwords adbc R1) as (E2 & H2 & L2). rewrite (u64_shl32 adbc R1). fold (hi_dword adbc).
  destruct (u64_add_carry (b * d) (2 ^ 32 * lo_dword adbc) ltac:(lia) ltac:(lia)) as (E3 & R3 & C3).
  set (lo := u64 (b * d + 2 ^ 32 * lo_dword adbc)) in *. set (k2 := bit (lo <? b * d)) in *.
  assert (u64 (Z.shiftl k1 32) = 2 ^ 32 * k1) as -> by (rewrite Z.shiftl_mul_pow2 by lia; rewrite u64_small; lia).
  assert (x * y = (a * c + hi_dword adbc + 2 ^ 32 * k1 + k2) * 2 ^ 64 + lo) as E.
  { rewrite Ex, Ey. replace ((a * 2 ^ 32 + b) * (c * 2 ^ 32 + d)) with (a * c * 2 ^ 64 + (a * d + b * c) * 2 ^ 32 + b * d) by ring. lia. }
  assert (x * y <= (2 ^ 64 - 1) * (2 ^ 64 - 1)) by (apply Z.mul_le_mono_nonneg; lia).
  rewrite (u64_small (a * c + _)) by lia. rewrite (u64_small (a * c + hi_dword adbc + _)) by lia.
  rewrite (u64_small (a * c + hi_dword adbc + 2 ^ 32 * k1 + _)) by lia.
  rewrite (proj2 (Z.leb_le _ _)) by lia. cbn [cassert bind].
  destruct (product_words x y lo _ R3 E) as [<- <-]. reflexivity.
Qed.

Lemma mul_portable_spec x y :
  0 <= x < 2 ^ 64 -> 0 <= y < 2 ^ 64 -> mul_portable x y = ((x * y) mod 2 ^ 64, (x * y) / 2 ^ 64).
Proof.
  intros Hx Hy. destruct (dwords x Hx) as (Ex & Ha & Hb), (dwords y Hy) as (Ey & Hc & Hd). unfold mul_portable.
  repeat match goal with |- context [Z.land ?v 0xFFFFFFFF] => change (Z.land v 0xFFFFFFFF) with (lo_dword v) end.
  repeat match goal with |- context [Z.shiftr ?v 32] => change (Z.shiftr v 32) with (hi_dword v) end.
  set (a := hi_dword x) in *. set (b := lo_dword x) in *. set (c := hi_dword y) in *. set (d := lo_dword y) in *.
  clearbody a b c d. cbv zeta.
  pose proof (dword_product a c Ha Hc) as Bac. pose proof (dword_product a d Ha Hd) as Bad.
  pose proof (dword_product b c Hb Hc) as Bbc. pose proof (dword_product b d Hb Hd) as Bbd.
  rewrite !(u64_small (_ * _)) by lia.
  destruct (dwords (b * d) ltac:(lia)) as (E1 & H1 & L1). destruct (dwords (b * c) ltac:(lia)) as (E2 & H2 & L2).
  rewrite (u64_small (a * d + _)), (u64_small (a * c + _)) by lia.
  destruct (dwords (a * d + hi_dword (b * d)) ltac:(lia)) as (E3 & H3 & L3).
  destruct (dwords (a * c + hi_dword (b * c)) ltac:(lia)) as (E4 & H4 & L4).
  set (p := a * d + hi_dword (b * d)) in *. set (q := a * c + hi_dword (b * c)) in *.
  rewrite (u64_small (lo_dword p + _)) by lia. set (r := lo_dword p + lo_dword (b * c)).
  assert (0 <= r < 2 ^ 64) as Rr by (unfold r; lia). destruct (dwords r Rr) as (E5 & H5 & L5).
  rewrite (u64_small (hi_dword p + _)) by lia. rewrite (u64_small (hi_dword p + lo_dword q + _)) by lia.
  set (s := hi_dword p + lo_dword q + hi_dword r). destruct (dwords s ltac:(unfold s; lia)) as (E6 & H6 & L6).
  rewrite (u64_small (hi_dword q + _)) by lia.
  rewrite (u64_shl32 r Rr), lor_high by lia. set (t := hi_dword q + hi_dword s).
  assert (x * y = (t * 2 ^ 32 + lo_dword s) * 2 ^ 64 + (2 ^ 32 * lo_dword r + lo_dword (b * d))) as E.
  { rewrite Ex, Ey. replace ((a * 2 ^ 32 + b) * (c * 2 ^ 32 + d)) with (a * c * 2 ^ 64 + (a * d + b * c) * 2 ^ 32 + b * d) by ring.
    assert (p = a * d + hi_dword (b * d)) as Ep by reflexivity. assert (q = a * c + hi_dword (b * c)) as Eq by reflexivity.
    assert (r = lo_dword p + lo_dword (b * c)) as Er by reflexivity.
    assert (s = hi_dword p + lo_dword q + hi_dword r) as Es by reflexivity.
    assert (t = hi_dword q + hi_dword s) as Et by reflexivity. clearbody p q r s t. lia. }
  assert (x * y <= (2 ^ 64 - 1) * (2 ^ 64 - 1)) by (apply Z.mul_le_mono_nonneg; lia).
  assert (0 <= t < 2 ^ 32) as Ht by (unfold t in *; lia).
  rewrite u64_shl32 by lia. replace (lo_dword t) with t by (rewrite lo_dword_mod, Z.mod_small; lia).
  rewrite Z.lor_comm, lor_high by lia.
  destruct (product_words x y (2 ^ 32 * lo_dword r + lo_dword (b * d)) (t * 2 ^ 32 + lo_dword s)) as [<- <-]; [lia | exact E|].
  f_equal. lia.
Qed.

(** ** Long division *)

Lemma div_step v divisor rem :
  0 <= v < 2 ^ 32 -> 0 < divisor < 2 ^ 32 -> 0 <= rem < divisor ->
  div_with_reminder v divisor rem = Some ((2 ^ 32 * rem + v) / divisor, (2 ^ 32 * rem + v) mod divisor) /\
  0 <= (2 ^ 32 * rem + v) / divisor < 2 ^ 32 /\ 0 <= (2 ^ 32 * rem + v) mod divisor < divisor.
Proof.
  intros Hv Hd Hr. unfold div_with_reminder. rewrite (proj2 (Z.eqb_neq divisor 0)) by lia.
  rewrite u64_shl32 by lia. replace (lo_dword rem) with rem by (rewrite lo_dword_mod, Z.mod_small; lia).
  rewrite Z.lor_comm, lor_high by lia. pose proof (Z.mod_pos_bound (2 ^ 32 * rem + v) divisor ltac:(lia)) as M.
  unfold u32. rewrite (Z.mod_small _ (2 ^ 32)) by lia. split; [reflexivity|]. split; [|exact M].
  split; [apply Z.div_pos; lia | apply Z.div_lt_upper_bound; [lia|nia]].
Qed.

Lemma div128_32_spec hi lo divisor (N := hi * 2 ^ 64 + lo) :
  0 <= hi < 2 ^ 64 -> 0 <= lo < 2 ^ 64 -> 0 < divisor < 2 ^ 32 ->
  div128_32 hi lo divisor = Some (N mod divisor, N / divisor / 2 ^ 64, (N / divisor) mod 2 ^ 64).
Proof.
  intros Hh Hl Hd. destruct (dwords hi Hh) as (Eh & H3 & H2), (dwords lo Hl) as (El & H1 & H0). unfold div128_32.
  destruct (div_step (hi_dword hi) divisor 0 H3 Hd ltac:(lia)) as (-> & Q3 & R3). cbn [bind].
  set (t3 := 2 ^ 32 * 0 + hi_dword hi) in *.
  destruct (div_step (lo_dword hi) divisor _ H2 Hd R3) as (-> & Q2 & R2). cbn [bind].
  set (t2 := 2 ^ 32 * (t3 mod divisor) + lo_dword hi) in *.
  destruct (div_step (hi_dword lo) divisor _ H1 Hd R2) as (-> & Q1 & R1). cbn [bind].
  set (t1 := 2 ^ 32 * (t2 mod divisor) + hi_dword lo) in *.
  destruct (div_step (lo_dword lo) divisor _ H0 Hd R1) as (-> & Q0 & R0). cbn [bind].
  set (t0 := 2 ^ 32 * (t1 mod divisor) + lo_dword lo) in *.
  rewrite !u64_shl32 by lia.
  replace (lo_dword (t3 / divisor)) with (t3 / divisor) by (rewrite lo_dword_mod, (Z.mod_small (t3 / divisor)); lia).
  replace (lo_dword (t1 / divisor)) with (t1 / divisor) by (rewrite lo_dword_mod, (Z.mod_small (t1 / divisor)); lia).
  rewrite !lor_high by lia.
  pose proof (Z.div_mod t3 divisor ltac:(lia)) as D3. pose proof (Z.div_mod t2 divisor ltac:(lia)) as D2.
  pose proof (Z.div_mod t1 divisor ltac:(lia)) as D1. pose proof (Z.div_mod t0 divisor ltac:(lia)) as D0.
  set (qh := 2 ^ 32 * (t3 / divisor) + t2 / divisor) in *. set (ql := 2 ^ 32 * (t1 / divisor) + t0 / divisor) in *.
  assert (N = divisor * (qh * 2 ^ 64 + ql) + t0 mod divisor) as E.
  { unfold N. rewrite Eh, El. unfold qh, ql.
    transitivity (divisor * (t3 / divisor) * 2 ^ 96 + divisor * (t2 / divisor) * 2 ^ 64 +
      divisor * (t1 / divisor) * 2 ^ 32 + divisor * (t0 / divisor) + t0 mod divisor); [|ring].
    assert (t3 = hi_dword hi) as T3 by (unfold t3; lia). assert (t2 = 2 ^ 32 * (t3 mod divisor) + lo_dword hi) as T2 by reflexivity.
    assert (t1 = 2 ^ 32 * (t2 mod divisor) + hi_dword lo) as T1 by reflexivity.
    assert (t0 = 2 ^ 32 * (t1 mod divisor) + lo_dword lo) as T0 by reflexivity. clearbody t3 t2 t1 t0. lia. }
  assert (N mod divisor = t0 mod divisor) as -> by (symmetry; apply (Z.mod_unique_pos _ _ (qh * 2 ^ 64 + ql)); lia).
  assert (N / divisor = qh * 2 ^ 64 + ql) as -> by (symmetry; apply (Z.div_unique_pos _ _ _ (t0 mod divisor)); lia).
  assert (0 <= ql < 2 ^ 64) by (unfold ql; lia).
  do 2 f_equal; [f_equal; apply (Z.div_unique_pos _ _ _ ql); lia | apply (Z.mod_unique_pos _ _ qh); lia].
Qed.

(** ** Rotations *)

Lemma rotation w x k :
  0 < k < w -> 0 <= x < 2 ^ w ->
  Z.lor ((Z.shiftl x k) mod 2 ^ w) (Z.shiftr x (w - k)) = (x * 2 ^ k) mod 2 ^ w + (x * 2 ^ k) / 2 ^ w.
Proof.
  intros Hk Hx. rewrite Z.shiftl_mul_pow2, Z.shiftr_div_pow2 by lia.
  pose proof (Z.pow_pos_nonneg 2 k ltac:(lia) ltac:(lia)) as Pk. pose proof (Z.pow_pos_nonneg 2 (w - k) ltac:(lia) ltac:(lia)) as Pw.
  assert (2 ^ w = 2 ^ k * 2 ^ (w - k)) as Ew by (rewrite <- Z.pow_add_r by lia; f_equal; lia).
  assert (x / 2 ^ (w - k) = (x * 2 ^ k) / 2 ^ w) as Eq.
  { rewrite Ew, (Z.mul_comm x), Z.div_mul_cancel_l by lia. reflexivity. }
  assert (0 <= (x * 2 ^ k) / 2 ^ w < 2 ^ k) as R.
  { rewrite <- Eq. split; [apply Z.div_pos; lia | apply Z.div_lt_upper_bound; lia]. }
  rewrite Eq, (Z.mul_comm x), Ew, Z.mul_mod_distr_l by lia. rewrite <- Ew, Z.lor_comm.
  replace (2 ^ k * (x mod 2 ^ (w - k))) with (Z.shiftl (x mod 2 ^ (w - k)) k) by (rewrite Z.shiftl_mul_pow2; lia).
  rewrite (Z.mul_comm (2 ^ k)), lor_shiftl_add by lia. rewrite Z.shiftl_mul_pow2 by lia. lia.
Qed.

Lemma rotate_amount w r : (0 < w)%nat ->
  Z.land r (Z.ones (Z.of_nat w)) = r mod 2 ^ Z.of_nat w /\
  Z.land (- r) (Z.ones (Z.of_nat w)) = if r mod 2 ^ Z.of_nat w =? 0 then 0 else 2 ^ Z.of_nat w - r mod 2 ^ Z.of_nat w.
Proof.
  intros Hw. rewrite !Z.land_ones by lia. split; [reflexivity|].
  destruct (Z.eqb_spec (r mod 2 ^ Z.of_nat w) 0) as [E|E]; [now apply Z_mod_zero_opp_full | now apply Z_mod_nz_opp_full].
Qed.

Lemma rol64_spec x r (k := r mod 64) :
  0 <= x < 2 ^ 64 -> rol64 x r = (x * 2 ^ k) mod 2 ^ 64 + (x * 2 ^ k) / 2 ^ 64.
Proof.
  intros Hx. unfold rol64. destruct (rotate_amount 6 r ltac:(lia)) as [E1 E2].
  change (Z.ones (Z.of_nat 6)) with 63 in *. change (2 ^ Z.of_nat 6) with 64 in *. fold k in E1, E2. rewrite E1, E2.
  assert (0 <= k < 64) as Hk by (apply Z.mod_pos_bound; lia). destruct (Z.eqb_spec k 0) as [->|N].
  - rewrite Z.shiftl_0_r, Z.shiftr_0_r, u64_small, Z.lor_diag, Z.mul_1_r, Z.mod_small, Z.div_small by lia. lia.
  - apply rotation; lia.
Qed.

Lemma rol32_spec x r (k := r mod 32) :
  0 <= x < 2 ^ 32 -> rol32 x r = (x * 2 ^ k) mod 2 ^ 32 + (x * 2 ^ k) / 2 ^ 32.
Proof.
  intros Hx. unfold rol32. destruct (rotate_amount 5 r ltac:(lia)) as [E1 E2].
  change (Z.ones (Z.of_nat 5)) with 31 in *. change (2 ^ Z.of_nat 5) with 32 in *. fold k in E1, E2. rewrite E1, E2.
  assert (0 <= k < 32) as Hk by (apply Z.mod_pos_bound; lia). destruct (Z.eqb_spec k 0) as [->|N].
  - unfold u32. rewrite Z.shiftl_0_r, Z.shiftr_0_r, Z.mod_small, Z.lor_diag, Z.mul_1_r, Z.mod_small, Z.div_small by lia. lia.
  - apply rotation; lia.
Qed.

(** ** Byte order *)

(** Cases of a bit index below a concrete bound. *)
Ltac bit_cases i :=
  let rec go k := first [ (assert (i = k) by lia; subst i) | (destruct (Z.eq_dec i k) as [->|]; [|let k' := eval compute in (k + 1) in go k']) ] in
  go 0.

(** A closed inequality. *)
Ltac closed_le := solve [vm_compute; first [reflexivity | discriminate]].

(** Computes a bit of an expression of masks and shifts of a variable. *)
Ltac bit_compute :=
  unfold u64, u32;
  repeat first
    [ progress rewrite ?Z.lor_spec, ?Z.land_spec, ?testbit_mod_pow2, ?Z.shiftl_spec, ?Z.shiftr_spec by closed_le
    | match goal with |- context [Z.testbit ?a ?n] => rewrite (Z.testbit_neg_r a n) by (vm_compute; reflexivity) end ];
  repeat match goal with |- context [Z.testbit (Zpos ?c) ?n] =>
    let b := eval vm_compute in (Z.testbit (Zpos c) n) in change (Z.testbit (Zpos c) n) with b end;
  repeat match goal with |- context [?a <? ?b] =>
    let c := eval vm_compute in (a <? b) in change (a <? b) with c end;
  rewrite ?andb_true_r, ?andb_false_r, ?andb_true_l, ?andb_false_l, ?orb_false_r, ?orb_false_l;
  try reflexivity.

Lemma SWAP64_bit x i : 0 <= i < 64 -> Z.testbit (SWAP64 x) i = Z.testbit x (8 * (7 - i / 8) + i mod 8).
Proof. intros Hi. unfold SWAP64. bit_cases i; bit_compute. Qed.

Lemma swap64_bit x i : 0 <= i < 64 -> Z.testbit (swap64 x) i = Z.testbit x (8 * (7 - i / 8) + i mod 8).
Proof. intros Hi. unfold swap64. cbv zeta. bit_cases i; bit_compute. Qed.

Lemma SWAP32_bit x i : 0 <= i < 32 -> Z.testbit (SWAP32 x) i = Z.testbit x (8 * (3 - i / 8) + i mod 8).
Proof. intros Hi. unfold SWAP32. bit_cases i; bit_compute. Qed.

Lemma swap32_bit x i : 0 <= i < 32 -> Z.testbit (swap32 x) i = Z.testbit x (8 * (3 - i / 8) + i mod 8).
Proof. intros Hi. unfold swap32. cbv zeta. bit_cases i; bit_compute. Qed.

(** An integer whose first [8 * n] bits are those of [x] with the bytes reversed. *)
Lemma reversed_bytes n x y :
  (forall i, 0 <= i < 8 * Z.of_nat n -> Z.testbit y i = Z.testbit x (8 * (Z.of_nat n - 1 - i / 8) + i mod 8)) ->
  le_bytes n y = rev (le_bytes n x).
Proof.
  intros H. apply (nth_ext _ _ 0 0); [now rewrite length_rev, !length_le_bytes|].
  rewrite length_le_bytes. intros k Hk. rewrite rev_nth by now rewrite length_le_bytes.
  rewrite length_le_bytes, !nth_le_bytes by lia. change 256 with (2 ^ 8). rewrite <- !Z.pow_mul_r by lia.
  apply Z.bits_inj'. intros j Hj. rewrite !testbit_mod_pow2 by lia.
  destruct (Z.ltb_spec j 8); cbn [andb]; [|reflexivity]. rewrite !testbit_div_pow2 by lia. rewrite H by lia. f_equal.
  replace ((8 * Z.of_nat k + j) / 8) with (Z.of_nat k) by (apply (Z.div_unique_pos _ _ _ j); lia).
  replace ((8 * Z.of_nat k + j) mod 8) with j by (apply (Z.mod_unique_pos _ _ (Z.of_nat k)); lia). lia.
Qed.

Lemma lor_word a b w : 0 <= w -> 0 <= a < 2 ^ w -> 0 <= b < 2 ^ w -> 0 <= Z.lor a b < 2 ^ w.
Proof. intros. now apply lor_range. Qed.

Lemma shiftr_word a k w : 0 <= k -> 0 <= a < 2 ^ w -> 0 <= Z.shiftr a k < 2 ^ w.
Proof.
  intros Hk Ha. rewrite Z.shiftr_div_pow2 by lia. pose proof (Z.pow_pos_nonneg 2 k ltac:(lia) Hk).
  split; [apply Z.div_pos; lia | apply Z.div_lt_upper_bound; nia].
Qed.

Lemma land_word a c w : 0 <= w -> 0 <= a -> 0 <= c < 2 ^ w -> 0 <= Z.land a c < 2 ^ w.
Proof.
  intros Hw Ha Hc. rewrite <- (Z.mod_small c (2 ^ w) Hc), <- Z.land_ones, Z.land_assoc, Z.land_ones by lia.
  apply Z.mod_pos_bound. lia.
Qed.

(** Proves that an expression of masks and shifts of words is a word. *)
Ltac word_range :=
  repeat first [ apply lor_word; [lia| |] | apply u64_range | (unfold u32; apply Z.mod_pos_bound; lia)
               | apply shiftr_word; [lia|] | apply land_word; [lia| |lia] ]; try lia.

Lemma swap64_range x : 0 <= x -> 0 <= swap64 x < 2 ^ 64.
Proof.
  intros Hx. unfold swap64. cbv zeta.
  assert (forall x m1 m2 k, 0 <= x -> 0 <= k -> 0 <= m2 < 2 ^ 64 ->
    0 <= Z.lor (u64 (Z.shiftl (Z.land x m1) k)) (Z.shiftr (Z.land x m2) k) < 2 ^ 64) as H by (intros; word_range).
  apply lor_word; [lia | apply u64_range | apply shiftr_word; [lia|]]. apply H; [|lia|lia]. apply H; lia.
Qed.

Lemma SWAP64_range x : 0 <= SWAP64 x < 2 ^ 64.
Proof. unfold SWAP64. pose proof (u64_range x). word_range. Qed.

(** The macro and the function are one permutation of the bytes. *)
Lemma swap64_SWAP64 x : 0 <= x < 2 ^ 64 -> swap64 x = SWAP64 x.
Proof.
  intros Hx. pose proof (swap64_range x ltac:(lia)) as R. pose proof (SWAP64_range x) as R'.
  apply Z.bits_inj'. intros i Hi. destruct (Z.lt_ge_cases i 64).
  - now rewrite swap64_bit, SWAP64_bit by lia.
  - rewrite <- (Z.mod_small _ _ R), <- (Z.mod_small _ _ R'). now rewrite !Z.mod_pow2_bits_high by lia.
Qed.

(** Loops over arrays of words. *)
Lemma foldM_inplace (f : Z -> Z) mem :
  foldM (fun mem i => let! x := nth_error mem i in aset mem i (f x)) (seq 0 (length mem)) mem = Some (map f mem).
Proof.
  apply returns_eq. eapply returns_weaken.
  - apply (foldM_seq (fun i m => length m = length mem /\
      forall j, nth j m 0 = if (j <? i)%nat then nth j (map f mem) 0 else nth j mem 0)); [split; [reflexivity | intros j; reflexivity]|].
    intros i m Hi [Hl Hm]. rewrite (nth_error_nth' m 0) by lia. cbn [bind].
    eapply returns_weaken; [apply (aset_spec m i (f (nth i m 0)) 0); lia|]. cbv beta. intros m' [Hl' Hm'].
    split; [lia|]. intros j. rewrite Hm', !Hm. rewrite Nat.ltb_irrefl.
    destruct (Nat.eqb_spec j i) as [->|N].
    + rewrite (proj2 (Nat.ltb_lt i (S i))) by lia.
      rewrite (nth_indep (map f mem) 0 (f 0)) by (rewrite length_map; lia). symmetry. apply map_nth.
    + destruct (Nat.ltb_spec j i), (Nat.ltb_spec j (S i)); try lia; reflexivity.
  - cbv beta. intros m [Hl Hm]. apply (nth_ext _ _ 0 0); [now rewrite length_map|].
    intros j Hj. rewrite Hm, (proj2 (Nat.ltb_lt j (0 + length mem))) by lia. reflexivity.
Qed.

Lemma foldM_copy (f : Z -> Z) dst src :
  length dst = length src ->
  foldM (fun dst i => let! x := nth_error src i in aset dst i (f x)) (seq 0 (length src)) dst = Some (map f src).
Proof.
  intros Hd. apply returns_eq. eapply returns_weaken.
  - apply (foldM_seq (fun i m => length m = length src /\
      forall j, (j < i)%nat -> nth j m 0 = nth j (map f src) 0)); [split; [exact Hd | lia]|].
    intros i m Hi [Hl Hm]. rewrite (nth_error_nth' src 0) by lia. cbn [bind].
    eapply returns_weaken; [apply (aset_spec m i (f (nth i src 0)) 0); lia|]. cbv beta. intros m' [Hl' Hm'].
    split; [lia|]. intros j Hj. rewrite Hm'. destruct (Nat.eqb_spec j i) as [->|N]; [|apply Hm; lia].
    rewrite (nth_indep (map f src) 0 (f 0)) by (rewrite length_map; lia). symmetry. apply map_nth.
  - cbv beta. intros m [Hl Hm]. apply (nth_ext _ _ 0 0); [now rewrite length_map|]. intros j Hj. apply Hm. lia.
Qed.

(** ** Claims *)

(** 128-bit arithmetic: for all 64-bit words the product computed from 32-bit halves, by [mul128]
    and by the portable [mul], is exact, and the assertion of [mul128] holds; dividing any
    128-bit number by a nonzero 32-bit divisor gives the exact quotient and remainder. *)
Theorem int128_correct x y divisor :
  0 <= x < 2 ^ 64 -> 0 <= y < 2 ^ 64 -> 0 < divisor < 2 ^ 32 ->
  (exists lo hi, mul128 x y = Some (lo, hi) /\ mul_portable x y = (lo, hi) /\
     x * y = hi * 2 ^ 64 + lo /\ 0 <= lo < 2 ^ 64 /\ 0 <= hi < 2 ^ 64) /\
  (exists rem q_hi q_lo, div128_32 x y divisor = Some (rem, q_hi, q_lo) /\
     x * 2 ^ 64 + y = (q_hi * 2 ^ 64 + q_lo) * divisor + rem /\ 0 <= rem < divisor /\
     0 <= q_hi < 2 ^ 64 /\ 0 <= q_lo < 2 ^ 64).
Proof.
  intros Hx Hy Hd. split.
  - exists ((x * y) mod 2 ^ 64), ((x * y) / 2 ^ 64). split; [now apply mul128_spec|]. split; [now apply mul_portable_spec|].
    pose proof (Z.div_mod (x * y) (2 ^ 64) ltac:(lia)). split; [lia|].
    split; [apply Z.mod_pos_bound; lia|]. split; [apply Z.div_pos; nia | apply Z.div_lt_upper_bound; nia].
  - set (N := x * 2 ^ 64 + y). exists (N mod divisor), (N / divisor / 2 ^ 64), ((N / divisor) mod 2 ^ 64).
    split; [now apply div128_32_spec|]. pose proof (Z.div_mod N divisor ltac:(lia)) as D.
    pose proof (Z.div_mod (N / divisor) (2 ^ 64) ltac:(lia)) as D'.
    split; [rewrite <- (Z.mul_comm (2 ^ 64)), <- D', (Z.mul_comm _ divisor); exact D|].
    split; [apply Z.mod_pos_bound; lia|]. split; [|apply Z.mod_pos_bound; lia].
    assert (0 <= N / divisor) by (apply Z.div_pos; unfold N; lia).
    assert (N / divisor < 2 ^ 128) by (apply Z.div_lt_upper_bound; [lia | unfold N; nia]).
    split; [apply Z.div_pos; lia | apply Z.div_lt_upper_bound; lia].
Qed.

Lemma int128_correct_witness :
  (exists lo hi, mul128 (2 ^ 64 - 1) (2 ^ 64 - 1) = Some (lo, hi) /\ mul_portable (2 ^ 64 - 1) (2 ^ 64 - 1) = (lo, hi) /\
     (2 ^ 64 - 1) * (2 ^ 64 - 1) = hi * 2 ^ 64 + lo /\ 0 <= lo < 2 ^ 64 /\ 0 <= hi < 2 ^ 64) /\
  (exists rem q_hi q_lo, div128_32 (2 ^ 64 - 1) (2 ^ 64 - 1) 3 = Some (rem, q_hi, q_lo) /\
     (2 ^ 64 - 1) * 2 ^ 64 + (2 ^ 64 - 1) = (q_hi * 2 ^ 64 + q_lo) * 3 + rem /\ 0 <= rem < 3 /\
     0 <= q_hi < 2 ^ 64 /\ 0 <= q_lo < 2 ^ 64).
Proof. exact (int128_correct (2 ^ 64 - 1) (2 ^ 64 - 1) 3 ltac:(lia) ltac:(lia) ltac:(lia)). Defined.

(** Byte order: the functions and the macros that swap bytes reverse the bytes of a word in
    memory, word by word on arrays, in place or copied; the rotations, for every shift
    amount, positive or not, move the bits that leave at the top back to the bottom. *)
Theorem byte_order_correct x y r mem dst :
  0 <= x < 2 ^ 64 -> 0 <= y < 2 ^ 32 -> length dst = length mem ->
  le_bytes 8 (swap64 x) = rev (le_bytes 8 x) /\ SWAP64 x = swap64 x /\
  le_bytes 4 (swap32 y) = rev (le_bytes 4 y) /\ le_bytes 4 (SWAP32 y) = rev (le_bytes 4 y) /\
  mem_inplace_swap32 mem (length mem) = Some (map swap32 mem) /\
  mem_inplace_swap64 mem (length mem) = Some (map swap64 mem) /\
  memcpy_swap32 dst mem (length mem) = Some (map swap32 mem) /\
  memcpy_swap64 dst mem (length mem) = Some (map swap64 mem) /\
  rol64 x r = (x * 2 ^ (r mod 64)) mod 2 ^ 64 + (x * 2 ^ (r mod 64)) / 2 ^ 64 /\
  rol32 y r = (y * 2 ^ (r mod 32)) mod 2 ^ 32 + (y * 2 ^ (r mod 32)) / 2 ^ 32.
Proof.
  intros Hx Hy Hd.
  split; [apply (reversed_bytes 8); intros; apply swap64_bit; lia|]. split; [symmetry; now apply swap64_SWAP64|].
  split; [apply (reversed_bytes 4); intros; apply swap32_bit; lia|].
  split; [apply (reversed_bytes 4); intros; apply SWAP32_bit; lia|].
  split; [apply foldM_inplace|]. split; [apply foldM_inplace|].
  split; [now apply foldM_copy|]. split; [now apply foldM_copy|]. split; [now apply rol64_spec | now apply rol32_spec].
Qed.

Lemma byte_order_correct_witness :
  le_bytes 8 (swap64 0x0102030405060708) = rev (le_bytes 8 0x0102030405060708) /\
  SWAP64 0x0102030405060708 = swap64 0x0102030405060708.
Proof.
  pose proof (byte_order_correct 0x0102030405060708 0x01020304 (-3) [1; 2] [0; 0] ltac:(lia) ltac:(lia) eq_refl) as (H1 & H2 & _).
  exact (conj H1 H2).
Defined.
