(* ===== verification/ChaCha.v ===== *)
(** * ChaCha

    Models chacha.c: the stream cipher with 8 and 20 rounds that encrypts the secret keys in
    files of the wallet. The sixteen variables [x0] .. [x15] are a list, as are [j0] .. [j15];
    [SWAP32LE] is the identity, as on the hosts the project supports. The result is the bytes
    written to [cipher], which does not overlap [data]. What the array [tmp] holds at first is
    an argument. The specification is the one of the cipher: words in a square matrix, rounds on
    its columns and its diagonals, and a stream of blocks that is added to the data. *)

From Stdlib Require Import ZArith String Ascii Lia List Bool.
From S2P Require Import Prelude Bytes IntUtil.
Import ListNotations.

#[local] Open Scope Z_scope.

(** ** The code *)

Definition U32V (v : Z) : Z := Z.land (u32 v) 0xFFFFFFFF.
Definition PLUS (v w : Z) : Z := U32V (v + w).
Definition PLUSONE (v : Z) : Z := PLUS v 1.

(** [a], [b], [c] and [d] are the numbers of variables. *)
Definition QUARTERROUND (a b c d : nat) (x : list Z) : option (list Z) :=
  let! va := nth_error x a in
  let! vb := nth_error x b in
  let! vc := nth_error x c in
  let! vd := nth_error x d in
  let va := PLUS va vb in
  let vd := rol32 (Z.lxor vd va) 16 in
  let vc := PLUS vc vd in
  let vb := rol32 (Z.lxor vb vc) 12 in
  let va := PLUS va vb in
  let vd := rol32 (Z.lxor vd va) 8 in
  let vc := PLUS vc vd in
  let vb := rol32 (Z.lxor vb vc) 7 in
  let! x := aset x a va in
  let! x := aset x b vb in
  let! x := aset x c vc in
  aset x d vd.

(** [static const char sigma[] = "expand 32-byte k";] *)
Definition sigma : list Z := map (fun c => Z.of_nat (nat_of_ascii c)) (list_ascii_of_string "expand 32-byte k").

(** [U8TO32_LITTLE(p + k)] *)
Definition U8TO32_LITTLE (p : list Z) (k : nat) : option Z :=
  let w := firstn 4 (skipn k p) in
  if (length w =? 4)%nat then Some (ident32 (le_val w)) else None.

(** [U32TO8_LITTLE] of consecutive words. *)
Definition U32TO8_LITTLE (x : list Z) : list Z := flat_map (fun v => le_bytes 4 (ident32 v)) x.

(** [j0] .. [j15] before the loop. *)
Definition chacha_init (key iv : list Z) : option (list Z) :=
  let! j0 := mapM (U8TO32_LITTLE sigma) [0; 4; 8; 12]%nat in
  let! j4 := mapM (U8TO32_LITTLE key) [0; 4; 8; 12; 16; 20; 24; 28]%nat in
  let! j14 := mapM (U8TO32_LITTLE iv) [0; 4]%nat in
  Some (j0 ++ j4 ++ [0; 0] ++ j14).

Definition double_round (x : list Z) : option (list Z) :=
  let! x := QUARTERROUND 0 4 8 12 x in
  let! x := QUARTERROUND 1 5 9 13 x in
  let! x := QUARTERROUND 2 6 10 14 x in
  let! x := QUARTERROUND 3 7 11 15 x in
  let! x := QUARTERROUND 0 5 10 15 x in
  let! x := QUARTERROUND 1 6 11 12 x in
  let! x := QUARTERROUND 2 7 8 13 x in
  QUARTERROUND 3 4 9 14 x.

(** [for (i = rounds;i > 0;i -= 2)]; [None] when the fuel runs out. *)
Fixpoint chacha_rounds (fuel : nat) (i : Z) (x : list Z) : option (list Z) :=
  if 0 <? i then
    match fuel with
    | O => None
    | S fuel => let! x := double_round x in chacha_rounds fuel (i - 2) x
    end
  else Some x.

(** The body of the loop for one block of [data], up to the stores: the new [x]. *)
Definition chacha_block (rounds : Z) (j data : list Z) : option (list Z) :=
  let i := to_i32 rounds in
  let! x := chacha_rounds (Z.to_nat i) i j in
  let! x := mapM (fun n =>
      let! v := nth_error x n in
      let! w := nth_error j n in
      Some (PLUS v w)) (seq 0 16) in
  mapM (fun n =>
      let! v := nth_error x n in
      let! w := U8TO32_LITTLE data (4 * n) in
      Some (Z.lxor v w)) (seq 0 16).

(** The counter, words 12 and 13. *)
Definition chacha_count (j : list Z) : option (list Z) :=
  let! j12 := nth_error j 12 in
  let j12 := PLUSONE j12 in
  let! j := aset j 12 j12 in
  if j12 =? 0 then
    let! j13 := nth_error j 13 in
    aset j 13 (PLUSONE j13)
  else Some j.

(** [memcpy(dst, src, n);] *)
Definition memcpy (dst src : list Z) (n : nat) : option (list Z) :=
  if (n <=? length src)%nat && (n <=? length dst)%nat then Some (firstn n src ++ skipn n dst) else None.

(** [for (;;)]: the bytes that are written to [cipher]. When fewer than 64 bytes are left, the
    block goes through [tmp], first as data and then as cipher. *)
Fixpoint chacha_loop (fuel : nat) (rounds : Z) (j data : list Z) (length : nat) (tmp : list Z) : option (list Z) :=
  match fuel with
  | O => None
  | S fuel =>
      let! block := if (length <? 64)%nat then memcpy tmp data length else Some data in
      let! x := chacha_block rounds j block in
      let! j := chacha_count j in
      let out := U32TO8_LITTLE x in
      if (length <=? 64)%nat then Some (firstn length out)
      else
        let! rest := chacha_loop fuel rounds j (skipn 64 data) (length - 64) tmp in
        Some (out ++ rest)
  end.

Definition chacha (rounds : Z) (data : list Z) (length : nat) (key iv tmp : list Z) : option (list Z) :=
  if (length =? 0)%nat then Some []
  else
    let! j := chacha_init key iv in
    chacha_loop (S (length / 64)) rounds j data length tmp.

Definition chacha8 (data : list Z) (length : nat) (key iv tmp : list Z) : option (list Z) :=
  chacha 8 data length key iv tmp.
Definition chacha20 (data : list Z) (length : nat) (key iv tmp : list Z) : option (list Z) :=
  chacha 20 data length key iv tmp.

(** ** The cipher *)

(** Rotation of a 32-bit word to the left. *)
Definition rotl (x k : Z) : Z := (x * 2 ^ k) mod 2 ^ 32 + (x * 2 ^ k) / 2 ^ 32.

Definition quarter_round (column : list Z) : list Z :=
  match column with
  | [a; b; c; d] =>
      let a := (a + b) mod 2 ^ 32 in let d := rotl (Z.lxor d a) 16 in
      let c := (c + d) mod 2 ^ 32 in let b := rotl (Z.lxor b c) 12 in
      let a := (a + b) mod 2 ^ 32 in let d := rotl (Z.lxor d a) 8 in
      let c := (c + d) mod 2 ^ 32 in let b := rotl (Z.lxor b c) 7 in
      [a; b; c; d]
  | _ => []
  end.

(** Matrices are lists of rows. *)
Definition transpose (m : list (list Z)) : list (list Z) := map (fun i => map (fun r => nth i r 0) m) (seq 0 4).
Definition rotate (k : nat) (r : list Z) : list Z := skipn k r ++ firstn k r.
Definition on_rows (f : nat -> list Z -> list Z) (m : list (list Z)) : list (list Z) :=
  map (fun i => f i (nth i m [])) (seq 0 4).

Definition column_round (m : list (list Z)) : list (list Z) := transpose (map quarter_round (transpose m)).
Definition diagonal_round (m : list (list Z)) : list (list Z) :=
  on_rows (fun i => rotate (4 - i)) (column_round (on_rows rotate m)).

(** The little-endian words of an array, [k] of them. *)
Definition words_of (k : nat) (s : list Z) : list Z := map (fun i => le_val (firstn 4 (skipn (4 * i) s))) (seq 0 k).
Definition matrix (s : list Z) : list (list Z) := map (fun i => firstn 4 (skipn (4 * i) s)) (seq 0 4).

(** The state for block [n]: constants, key, counter and initial vector. *)
Definition start (key iv : list Z) (n : Z) : list Z := words_of 16 (sigma ++ key ++ le_bytes 8 n ++ iv).

Definition add_words (a b : list Z) : list Z := map (fun '(v, w) => (v + w) mod 2 ^ 32) (combine a b).
Definition xor_list (a b : list Z) : list Z := map (fun '(v, w) => Z.lxor v w) (combine a b).

Definition core (doubles : nat) (s : list Z) : list Z :=
  add_words (concat (Nat.iter doubles (fun m => diagonal_round (column_round m)) (matrix s))) s.

Definition keystream_block (doubles : nat) (key iv : list Z) (n : Z) : list Z :=
  flat_map (le_bytes 4) (core doubles (start key iv n)).

(** Byte [i] of the stream. *)
Definition keystream (doubles : nat) (key iv : list Z) (i : nat) : Z :=
  nth (i mod 64) (keystream_block doubles key iv (Z.of_nat (i / 64))) 0.

Definition encrypt (doubles : nat) (key iv data : list Z) : list Z :=
  map (fun i => Z.lxor (nth i data 0) (keystream doubles key iv i)) (seq 0 (length data)).

(** ** Words *)

Definition word32 (x : Z) : Prop := 0 <= x < 2 ^ 32.
Definition square (s : list Z) : Prop := length s = 16%nat /\ Forall word32 s.

Lemma PLUS_mod v w : PLUS v w = (v + w) mod 2 ^ 32.
Proof. unfold PLUS, U32V, u32. change 0xFFFFFFFF with (Z.ones 32). rewrite Z.land_ones by lia. apply Zmod_mod. Qed.

Lemma word32_mod x : word32 (x mod 2 ^ 32).
Proof. now apply Z.mod_pos_bound. Qed.

Lemma lxor_mod a b n : 0 <= n -> Z.lxor a b mod 2 ^ n = Z.lxor (a mod 2 ^ n) (b mod 2 ^ n).
Proof.
  intros Hn. apply Z.bits_inj'. intros i Hi. rewrite Z.lxor_spec, !testbit_mod_pow2 by assumption.
  rewrite Z.lxor_spec. now destruct (i <? n), (Z.testbit a i), (Z.testbit b i).
Qed.

Lemma word32_lxor a b : word32 a -> word32 b -> word32 (Z.lxor a b).
Proof.
  unfold word32. intros Ha Hb. pose proof (lxor_mod a b 32 ltac:(lia)) as E.
  rewrite (Z.mod_small a), (Z.mod_small b) in E by lia.
  rewrite <- E. now apply Z.mod_pos_bound.
Qed.

Lemma rol32_rotl x k : word32 x -> 0 <= k < 32 -> rol32 x k = rotl x k.
Proof. intros Hx Hk. rewrite rol32_spec by exact Hx. now rewrite (Z.mod_small k 32) by exact Hk. Qed.

Lemma word32_rotl x k : word32 x -> 0 <= k < 32 -> word32 (rotl x k).
Proof.
  unfold word32, rotl. intros Hx Hk. set (P := 2 ^ k). set (Q := 2 ^ (32 - k)).
  assert (2 ^ 32 = P * Q) as E by (unfold P, Q; rewrite <- Z.pow_add_r by lia; f_equal; lia).
  assert (0 < P /\ 0 < Q) as [HP HQ] by (split; apply Z.pow_pos_nonneg; lia).
  rewrite E, (Z.mul_comm x P), Z.mul_mod_distr_l, Z.div_mul_cancel_l by lia.
  pose proof (Z.mod_pos_bound x Q HQ). pose proof (Z.div_pos x Q). 
  assert (x / Q < P) by (apply Z.div_lt_upper_bound; lia). nia.
Qed.

(** Ranges of the terms of a quarter round. *)
Ltac word32 := repeat first [assumption | apply word32_mod | apply word32_rotl; [|lia] | apply word32_lxor].

(** The macro computes the quarter round of four words. *)
Lemma QUARTERROUND_quarter a b c d x va vb vc vd :
  Forall word32 [va; vb; vc; vd] ->
  nth_error x a = Some va -> nth_error x b = Some vb -> nth_error x c = Some vc -> nth_error x d = Some vd ->
  exists va' vb' vc' vd', quarter_round [va; vb; vc; vd] = [va'; vb'; vc'; vd'] /\ Forall word32 [va'; vb'; vc'; vd'] /\
    QUARTERROUND a b c d x =
      (let! x := aset x a va' in let! x := aset x b vb' in let! x := aset x c vc' in aset x d vd').
Proof.
  intros F Ea Eb Ec Ed. inversion_clear F as [|? ? Ha F']. inversion_clear F' as [|? ? Hb F].
  inversion_clear F as [|? ? Hc F']. inversion_clear F' as [|? ? Hd _].
  unfold QUARTERROUND, quarter_round. rewrite Ea, Eb, Ec, Ed. cbn [bind]. do 4 eexists.
  split; [reflexivity|]. split.
  - repeat constructor; word32.
  - rewrite !PLUS_mod. rewrite !rol32_rotl; try lia; [reflexivity|..]; word32.
Qed.

Ltac all_words := repeat (apply Forall_cons; [assumption|]); apply Forall_nil.

(** Runs one quarter round on a state of variables. *)
Ltac run_quarter :=
  match goal with
  | |- context [QUARTERROUND ?a ?b ?c ?d ?x] =>
      let E := fresh "Eq" in let F := fresh "Fq" in let R := fresh "Rq" in
      edestruct (QUARTERROUND_quarter a b c d x) as (? & ? & ? & ? & E & F & R);
      [ | reflexivity | reflexivity | reflexivity | reflexivity | ];
      [ all_words | ];
      rewrite R; clear R; cbn [bind aset];
      repeat match goal with
             | H : Forall word32 (_ :: _) |- _ => apply Forall_cons_iff in H; destruct H
             | H : Forall word32 [] |- _ => clear H
             end
  end.

Lemma double_round_spec s :
  square s ->
  returns (double_round s) (fun s' => square s' /\ matrix s' = diagonal_round (column_round (matrix s))).
Proof.
  intros [Hl F]. do 16 (destruct s as [|? s]; [discriminate|]). destruct s; [|discriminate]. clear Hl.
  repeat match goal with
         | H : Forall word32 (_ :: _) |- _ => apply Forall_cons_iff in H; destruct H
         end.
  unfold double_round. do 8 run_quarter. cbn [returns].
  split; [split; [reflexivity | all_words]|].
  unfold diagonal_round, column_round, on_rows, transpose, matrix, rotate.
  revert Eq Eq0 Eq1 Eq2 Eq3 Eq4 Eq5 Eq6. generalize quarter_round as q. intros q.
  cbn [seq map firstn skipn Nat.mul Nat.add Nat.sub nth app]. intros.
  repeat match goal with E : q _ = _ |- _ => rewrite E; clear E; cbn [nth] end.
  reflexivity.
Qed.

(** ** Blocks *)

Lemma concat_matrix s : length s = 16%nat -> concat (matrix s) = s.
Proof. intros Hl. do 16 (destruct s as [|? s]; [discriminate|]). destruct s; [reflexivity | discriminate]. Qed.

Definition doubles (rounds : Z) : nat := Z.to_nat ((rounds + 1) / 2).

Lemma chacha_rounds_spec fuel i s :
  0 <= i -> (Z.to_nat i <= fuel)%nat -> square s ->
  returns (chacha_rounds fuel i s) (fun s' => square s' /\
    matrix s' = Nat.iter (doubles i) (fun m => diagonal_round (column_round m)) (matrix s)).
Proof.
  revert i s. assert (forall f i s, 0 <= i -> ~ 0 < i -> square s -> returns (chacha_rounds f i s) (fun s' => square s' /\
    matrix s' = Nat.iter (doubles i) (fun m => diagonal_round (column_round m)) (matrix s))) as H0.
  { intros f i s H1 H2 Hs. assert (i = 0) as -> by lia. destruct f; cbn [chacha_rounds Z.ltb Z.compare returns]; auto. }
  induction fuel as [|fuel IH]; intros i s Hi Hf Hs; [apply H0; auto; lia|].
  destruct (Z.ltb_spec 0 i) as [P|P]; [|apply H0; auto; lia].
  cbn [chacha_rounds]. destruct (Z.ltb_spec 0 i) as [_|]; [|lia].
  eapply returns_bind; [now apply double_round_spec|]. cbv beta. intros s' [Hs' Em].
  destruct (Z.eq_dec i 1) as [->|N].
  { destruct fuel; cbn [chacha_rounds]; (split; [exact Hs' | exact Em]). }
  eapply returns_weaken; [apply IH; auto; lia|]. cbv beta. intros s'' [H1 H2]. split; [exact H1|].
  rewrite H2, Em. replace (doubles i) with (S (doubles (i - 2))).
  - now rewrite Nat.iter_succ_r.
  - unfold doubles. rewrite <- Z2Nat.inj_succ by (apply Z.div_pos; lia). f_equal.
    replace (i + 1) with (i - 2 + 1 + 1 * 2) by lia. rewrite Z.div_add by lia. lia.
Qed.

(** Loops over the indices of two arrays. *)
Lemma map_seq_combine (f : Z -> Z -> Z) a b :
  (length a <= length b)%nat ->
  map (fun n => f (nth n a 0) (nth n b 0)) (seq 0 (length a)) = map (fun '(v, w) => f v w) (combine a b).
Proof.
  revert b. induction a as [|v a IH]; intros [|w b] Hl; cbn [length] in *; try reflexivity; [lia|].
  cbn [seq map combine nth]. f_equal. rewrite <- seq_shift, map_map. apply IH. lia.
Qed.

Lemma words_of_S k s : words_of (S k) s = le_val (firstn 4 s) :: words_of k (skipn 4 s).
Proof.
  unfold words_of. cbn [seq map]. f_equal. rewrite <- seq_shift, map_map. apply map_ext. intros i.
  rewrite skipn_skipn. do 2 f_equal. f_equal. lia.
Qed.

Lemma length_words_of k s : length (words_of k s) = k.
Proof. unfold words_of. now rewrite length_map, length_seq. Qed.

Lemma length_flat_map4 l : length (flat_map (le_bytes 4) l) = (4 * length l)%nat.
Proof. induction l as [|v l IH]; [reflexivity|]. cbn [flat_map length]. rewrite length_app, length_le_bytes, IH. lia. Qed.

Lemma word_bytes4 s : bytes s -> (4 <= length s)%nat -> le_bytes 4 (le_val (firstn 4 s)) = firstn 4 s.
Proof.
  intros Hs Hl. rewrite <- (le_bytes_le_val (firstn 4 s)) at 2 by now apply bytes_firstn. now rewrite firstn_length_le.
Qed.

Lemma bytes_of_words k s :
  bytes s -> (4 * k <= length s)%nat -> flat_map (le_bytes 4) (words_of k s) = firstn (4 * k) s.
Proof.
  revert s. induction k as [|k IH]; intros s Hs Hl; [reflexivity|].
  rewrite words_of_S. cbn [flat_map]. rewrite word_bytes4 by (trivial; lia).
  rewrite IH by (try apply bytes_skipn; trivial; rewrite length_skipn; lia).
  replace (4 * S k)%nat with (4 + 4 * k)%nat by lia.
  do 4 (destruct s as [|? s]; [cbn [length] in Hl; lia|]). reflexivity.
Qed.

Lemma le_bytes_lxor n a b : le_bytes n (Z.lxor a b) = xor_list (le_bytes n a) (le_bytes n b).
Proof.
  revert a b. induction n as [|n IH]; intros a b; [reflexivity|]. cbn [le_bytes]. unfold xor_list. cbn [combine map].
  change 256 with (2 ^ 8). rewrite lxor_mod, <- !Z.shiftr_div_pow2, Z.shiftr_lxor by lia. now rewrite IH.
Qed.

Lemma combine_app {A} (a b c d : list A) : length a = length b -> combine (a ++ c) (b ++ d) = combine a b ++ combine c d.
Proof. revert b. induction a as [|x a IH]; intros [|y b] E; try discriminate; cbn; [reflexivity|]. f_equal. apply IH. now injection E. Qed.

Lemma bytes_of_xor a b :
  length a = length b ->
  flat_map (le_bytes 4) (xor_list a b) = xor_list (flat_map (le_bytes 4) a) (flat_map (le_bytes 4) b).
Proof.
  revert b. induction a as [|v a IH]; intros [|w b] E; try discriminate; [reflexivity|].
  unfold xor_list in *. cbn [combine map flat_map]. rewrite le_bytes_lxor. unfold xor_list.
  rewrite combine_app by now rewrite !length_le_bytes. rewrite map_app. f_equal. apply IH. now injection E.
Qed.

Lemma U8TO32_word s k : (k + 4 <= length s)%nat -> U8TO32_LITTLE s k = Some (le_val (firstn 4 (skipn k s))).
Proof. intros Hl. unfold U8TO32_LITTLE. rewrite firstn_length_le by (rewrite length_skipn; lia). reflexivity. Qed.

Lemma length_core d s : square s -> length (core d s) = 16%nat.
Proof.
  intros Hs. unfold core, add_words. rewrite length_map, length_combine. destruct Hs as [Hl Hw]. rewrite Hl.
  enough (length (concat (Nat.iter d (fun m => diagonal_round (column_round m)) (matrix s))) = 16%nat) as -> by reflexivity.
  destruct d as [|d]; [change (Nat.iter 0 _ _) with (matrix s); now rewrite concat_matrix|].
  rewrite Nat.iter_succ. set (m := Nat.iter d _ _). clearbody m.
  unfold diagonal_round, column_round. generalize quarter_round as q. reflexivity.
Qed.

(** One block: the stores are the sum of the data and the block of the stream. *)
Lemma chacha_block_spec rounds j data :
  0 <= rounds < 2 ^ 31 -> square j -> bytes data -> (64 <= length data)%nat ->
  returns (chacha_block rounds j data) (fun x =>
    U32TO8_LITTLE x = xor_list (flat_map (le_bytes 4) (core (doubles rounds) j)) (firstn 64 data)).
Proof.
  intros Hr Hj Hd Hl. unfold chacha_block. rewrite to_i32_small by lia.
  eapply returns_bind; [apply chacha_rounds_spec; [lia | reflexivity | exact Hj]|]. cbv beta. intros x [[Hx _] Em].
  pose proof (length_core (doubles rounds) j Hj) as Hc.
  assert (core (doubles rounds) j = add_words x j) as E by (unfold core; rewrite <- Em, concat_matrix by exact Hx; reflexivity).
  rewrite E in *. destruct Hj as [Hjl _].
  erewrite mapM_map; [cbn [bind]|].
  2: { intros n Hn. apply in_seq in Hn. rewrite (nth_error_nth' x 0), (nth_error_nth' j 0) by lia. cbn [bind]. rewrite PLUS_mod. reflexivity. }
  replace (seq 0 16) with (seq 0 (length x)) by now rewrite Hx. rewrite (map_seq_combine (fun v w => (v + w) mod 2 ^ 32)) by lia. change (map _ (combine x j)) with (add_words x j).
  erewrite mapM_map; [cbn [returns]|].
  2: { intros n Hn. apply in_seq in Hn. rewrite (nth_error_nth' (add_words x j) 0), U8TO32_word by lia. cbn [bind]. reflexivity. }
  change (firstn 64 data) with (firstn (4 * 16) data). rewrite <- (bytes_of_words 16) by (trivial; lia). rewrite <- bytes_of_xor by now rewrite length_words_of.
  unfold U32TO8_LITTLE, ident32, xor_list. f_equal. rewrite <- map_seq_combine by (rewrite length_words_of; lia). rewrite Hc, Hx.
  apply map_ext_in. intros n Hn. apply in_seq in Hn. f_equal. unfold words_of.
  rewrite (nth_indep _ 0 (le_val (firstn 4 (skipn (4 * 0) data)))) by (rewrite length_map, length_seq; lia).
  rewrite (map_nth (fun i => le_val (firstn 4 (skipn (4 * i) data)))), seq_nth by lia. reflexivity.
Qed.

(** ** The state *)

Lemma words_of_app k m a b :
  length a = (4 * k)%nat -> words_of (k + m) (a ++ b) = words_of k a ++ words_of m b.
Proof.
  revert a. induction k as [|k IH]; intros a Ha; [destruct a; [reflexivity | discriminate]|].
  cbn [Nat.add]. rewrite !words_of_S. do 4 (destruct a as [|? a]; [cbn [length] in Ha; lia|]).
  cbn [app skipn firstn]. f_equal. apply IH. cbn [length] in Ha. lia.
Qed.

Lemma words_counter n : words_of 2 (le_bytes 8 n) = [n mod 2 ^ 32; n / 2 ^ 32 mod 2 ^ 32].
Proof.
  rewrite !words_of_S. unfold words_of. cbn [seq map].
  change (firstn 4 (le_bytes 8 n)) with (le_bytes 4 n).
  change (firstn 4 (skipn 4 (le_bytes 8 n))) with (le_bytes 4 (n / 256 / 256 / 256 / 256)).
  rewrite !le_val_le_bytes, !Z.div_div by lia. reflexivity.
Qed.

Lemma words_of_range k s : bytes s -> Forall word32 (words_of k s).
Proof.
  intros Hs. unfold words_of. apply Forall_map, Forall_forall. intros i _.
  pose proof (le_val_bound _ (bytes_firstn 4 _ (bytes_skipn (4 * i) _ Hs))) as B.
  assert (256 ^ Z.of_nat (length (firstn 4 (skipn (4 * i) s))) <= 256 ^ Z.of_nat 4).
  { apply Z.pow_le_mono_r; [lia|]. rewrite length_firstn. lia. }
  unfold word32. change (2 ^ 32) with (256 ^ Z.of_nat 4). lia.
Qed.

Lemma bytes_sigma : bytes sigma.
Proof.
  let v := eval vm_compute in sigma in change sigma with v.
  repeat (apply Forall_cons; [unfold is_byte; lia|]). apply Forall_nil.
Qed.

(** The lists of bytes that are keys and initial vectors. *)
Definition chacha_input (key iv : list Z) : Prop := bytes key /\ length key = 32%nat /\ bytes iv /\ length iv = 8%nat.

Lemma start_parts key iv n :
  chacha_input key iv ->
  start key iv n = (words_of 4 sigma ++ words_of 8 key) ++ [n mod 2 ^ 32; n / 2 ^ 32 mod 2 ^ 32] ++ words_of 2 iv.
Proof.
  intros (_ & Hk & _ & Hi). unfold start. rewrite (words_of_app 4 12), (words_of_app 8 4), (words_of_app 2 2) by (trivial; apply length_le_bytes).
  now rewrite words_counter, <- app_assoc.
Qed.

Lemma square_start key iv n : chacha_input key iv -> square (start key iv n).
Proof.
  intros (Bk & Hk & Bi & Hi). split; [apply length_words_of|]. apply words_of_range.
  repeat apply bytes_app; trivial; [apply bytes_sigma | apply bytes_le_bytes].
Qed.

Lemma load_words s k :
  (4 * k <= length s)%nat -> mapM (U8TO32_LITTLE s) (map (fun i => 4 * i)%nat (seq 0 k)) = Some (words_of k s).
Proof.
  intros Hl. unfold words_of. rewrite <- (map_map (fun i => 4 * i)%nat (fun i => le_val (firstn 4 (skipn i s)))).
  apply mapM_map. intros i Hi. apply in_map_iff in Hi as (n & <- & Hn). apply in_seq in Hn. apply U8TO32_word. lia.
Qed.

Lemma chacha_init_spec key iv : chacha_input key iv -> chacha_init key iv = Some (start key iv 0).
Proof.
  intros H. pose proof H as (_ & Hk & _ & Hi). unfold chacha_init.
  pose proof (load_words sigma 4 (le_n _)) as E1. pose proof (load_words key 8 ltac:(lia)) as E2.
  pose proof (load_words iv 2 ltac:(lia)) as E3. cbn [map seq Nat.mul Nat.add] in E1, E2, E3.
  rewrite E1, E2, E3. cbn [bind].
  rewrite start_parts by exact H. now rewrite <- app_assoc.
Qed.

Lemma counter_step n : 0 <= n ->
  ((n mod 2 ^ 32 + 1) mod 2 ^ 32 =? 0) = false /\ (n + 1) mod 2 ^ 32 = (n mod 2 ^ 32 + 1) mod 2 ^ 32 /\ (n + 1) / 2 ^ 32 = n / 2 ^ 32 \/
  ((n mod 2 ^ 32 + 1) mod 2 ^ 32 =? 0) = true /\ (n + 1) mod 2 ^ 32 = 0 /\ (n mod 2 ^ 32 + 1) mod 2 ^ 32 = 0 /\ (n + 1) / 2 ^ 32 = n / 2 ^ 32 + 1.
Proof.
  intros Hn. rewrite Z.add_mod_idemp_l by lia. pose proof (Z.div_mod n (2 ^ 32) ltac:(lia)) as E.
  pose proof (Z.mod_pos_bound n (2 ^ 32) ltac:(lia)) as B. destruct (Z.eq_dec (n mod 2 ^ 32) (2 ^ 32 - 1)) as [M|M].
  - right. assert ((n + 1) mod 2 ^ 32 = 0) as -> by (symmetry; apply (Z.mod_unique_pos _ _ (n / 2 ^ 32 + 1)); lia).
    repeat split; trivial. symmetry. apply (Z.div_unique_pos _ _ _ 0); lia.
  - left. assert ((n + 1) mod 2 ^ 32 = n mod 2 ^ 32 + 1) as -> by (symmetry; apply (Z.mod_unique_pos _ _ (n / 2 ^ 32)); lia).
    repeat split; [apply Z.eqb_neq; lia |]. symmetry. apply (Z.div_unique_pos _ _ _ (n mod 2 ^ 32 + 1)); lia.
Qed.

Lemma chacha_count_spec key iv n :
  chacha_input key iv -> 0 <= n -> chacha_count (start key iv n) = Some (start key iv (n + 1)).
Proof.
  intros H Hn. rewrite !start_parts by exact H. set (A := words_of 4 sigma ++ words_of 8 key).
  assert (length A = 12%nat) as Hl by (unfold A; now rewrite length_app, !length_words_of). clearbody A.
  unfold chacha_count, PLUSONE. do 12 (destruct A as [|? A]; [discriminate|]). destruct A; [clear Hl | discriminate].
  cbn [app nth_error bind aset]. rewrite PLUS_mod.
  destruct (counter_step n Hn) as [(C & E & D) | (C & E & E' & D)]; rewrite C; cbn [bind]; rewrite E, D; [reflexivity|].
  rewrite E', PLUS_mod. now rewrite Z.add_mod_idemp_l by lia.
Qed.

(** ** The loop *)

Section Loop.
Context (rounds : Z) (key iv : list Z).
Hypothesis Hrounds : 0 <= rounds < 2 ^ 31.
Hypothesis Hinput : chacha_input key iv.

(** The stream from block [n] on. *)
Definition key_stream (d : nat) (k v : list Z) (n : Z) (i : nat) : Z :=
  nth (i mod 64) (keystream_block d k v (n + Z.of_nat (i / 64))) 0.

Lemma stream_block n i : (i < 64)%nat ->
  key_stream (doubles rounds) key iv n i = nth i (keystream_block (doubles rounds) key iv n) 0.
Proof. intros Hi. unfold key_stream. rewrite Nat.mod_small, Nat.div_small by exact Hi. now rewrite Z.add_0_r. Qed.

Lemma stream_next n i : key_stream (doubles rounds) key iv n (64 + i) = key_stream (doubles rounds) key iv (n + 1) i.
Proof.
  unfold key_stream. replace (64 + i)%nat with (i + 1 * 64)%nat by lia. rewrite Nat.Div0.mod_add, Nat.div_add by lia.
  do 2 f_equal. lia.
Qed.

Lemma firstn_seq_le k n : (k <= n)%nat -> firstn k (seq 0 n) = seq 0 k.
Proof.
  intros H. replace n with (k + (n - k))%nat by lia. rewrite seq_app, firstn_app, length_seq, Nat.sub_diag.
  now rewrite firstn_all2, app_nil_r by now rewrite length_seq.
Qed.

Lemma block_prefix n blk len :
  (len <= 64)%nat -> (64 <= length blk)%nat ->
  firstn len (xor_list (keystream_block (doubles rounds) key iv n) (firstn 64 blk)) =
  map (fun i => Z.lxor (nth i blk 0) (key_stream (doubles rounds) key iv n i)) (seq 0 len).
Proof.
  intros Hlen Hblk. assert (length (keystream_block (doubles rounds) key iv n) = 64%nat) as HK.
  { unfold keystream_block. now rewrite length_flat_map4, length_core by now apply square_start. }
  unfold xor_list. rewrite <- map_seq_combine by (rewrite HK, length_firstn; lia).
  rewrite HK, firstn_map, firstn_seq_le by exact Hlen. apply map_ext_in. intros i Hi. apply in_seq in Hi.
  rewrite stream_block, nth_firstn by lia. destruct (Nat.ltb_spec i 64); [apply Z.lxor_comm | lia].
Qed.

Lemma chacha_loop_spec fuel n data len tmp :
  0 <= n -> bytes data -> bytes tmp -> length tmp = 64%nat -> (0 < len <= length data)%nat -> (len <= 64 * fuel)%nat ->
  chacha_loop fuel rounds (start key iv n) data len tmp =
  Some (map (fun i => Z.lxor (nth i data 0) (key_stream (doubles rounds) key iv n i)) (seq 0 len)).
Proof.
  revert n data len. induction fuel as [|fuel IH]; intros n data len Hn Hd Ht Htl Hl Hf; [lia|]. cbn [chacha_loop].
  assert (exists blk, (if (len <? 64)%nat then memcpy tmp data len else Some data) = Some blk /\ bytes blk /\
    (64 <= length blk)%nat /\ forall i, (i < len)%nat -> nth i blk 0 = nth i data 0) as (blk & -> & Bb & Hb & Eb).
  { destruct (Nat.ltb_spec len 64); [|exists data; repeat split; trivial; lia].
    unfold memcpy. rewrite (proj2 (Nat.leb_le _ _)), (proj2 (Nat.leb_le len (length tmp))) by lia. cbn [andb].
    eexists. split; [reflexivity|]. split; [now apply bytes_app; [apply bytes_firstn | apply bytes_skipn]|].
    split; [rewrite length_app, length_firstn, length_skipn; lia|]. intros i Hi.
    rewrite app_nth1 by (rewrite length_firstn; lia). rewrite nth_firstn. now destruct (Nat.ltb_spec i len); [|lia]. }
  cbn [bind]. pose proof (chacha_block_spec rounds _ blk Hrounds (square_start key iv n Hinput) Bb Hb) as H.
  apply returns_some in H as (x & -> & Ex). cbn [bind]. rewrite chacha_count_spec by assumption. cbn [bind].
  rewrite Ex. change (flat_map _ (core _ _)) with (keystream_block (doubles rounds) key iv n).
  destruct (Nat.leb_spec len 64) as [L|L].
  - rewrite block_prefix by assumption. f_equal. apply map_ext_in. intros i Hi. apply in_seq in Hi. rewrite Eb by lia. reflexivity.
  - rewrite IH; [cbn [bind] | lia | now apply bytes_skipn | assumption | assumption | rewrite length_skipn; lia | lia].
    f_equal. replace len with (64 + (len - 64))%nat at 2 by lia. rewrite seq_app, map_app.
    rewrite <- (firstn_all2 (n := 64) (xor_list _ _)), block_prefix; [| lia | exact Hb |].
    2: { unfold xor_list. rewrite length_map, length_combine, (length_firstn 64). lia. }
    f_equal.
    + apply map_ext_in. intros i Hi. apply in_seq in Hi. rewrite Eb by lia. reflexivity.
    + rewrite (seq_plus (0 + 64)), map_map. apply map_ext. intros i. rewrite nth_skipn, <- stream_next. reflexivity.
Qed.
End Loop.

(** ** Correctness *)

Lemma keystream_stream d k v i : keystream d k v i = key_stream d k v 0 i.
Proof. reflexivity. Qed.

Lemma chacha_encrypt rounds data key iv tmp :
  0 <= rounds < 2 ^ 31 -> chacha_input key iv -> bytes data -> bytes tmp -> length tmp = 64%nat ->
  chacha rounds data (length data) key iv tmp = Some (encrypt (doubles rounds) key iv data).
Proof.
  intros Hr Hi Hd Ht Htl. unfold chacha, encrypt. destruct (Nat.eqb_spec (length data) 0) as [E|N].
  { destruct data; [reflexivity | discriminate]. }
  rewrite chacha_init_spec by exact Hi. cbn [bind].
  rewrite chacha_loop_spec by (trivial; pose proof (Nat.div_mod_eq (length data) 64); pose proof (Nat.mod_upper_bound (length data) 64); lia).
  reflexivity.
Qed.

Lemma length_encrypt d key iv data : length (encrypt d key iv data) = length data.
Proof. unfold encrypt. now rewrite length_map, length_seq. Qed.

Lemma encrypt_involutive d key iv data : encrypt d key iv (encrypt d key iv data) = data.
Proof.
  unfold encrypt at 1. rewrite length_encrypt.
  apply (nth_ext _ _ 0 0); [now rewrite length_map, length_seq|]. intros i Hi. rewrite length_map, length_seq in Hi.
  rewrite nth_map_seq by exact Hi. unfold encrypt. rewrite nth_map_seq by exact Hi. rewrite Z.lxor_assoc, Z.lxor_nilpotent. apply Z.lxor_0_r.
Qed.

Lemma bytes_encrypt d key iv data : bytes data -> bytes (encrypt d key iv data).
Proof.
  intros Hd. unfold encrypt. apply Forall_map, Forall_forall. intros i Hi. apply in_seq in Hi.
  assert (is_byte (nth i data 0)) as H1 by (apply (proj1 (Forall_forall _ _) Hd), nth_In; lia).
  assert (is_byte (keystream d key iv i)) as H2.
  { unfold keystream, keystream_block. generalize (core d (start key iv (Z.of_nat (i / 64)))) as c. intros c.
    destruct (nth_in_or_default (i mod 64) (flat_map (le_bytes 4) c) 0) as [H| ->]; [|unfold is_byte; lia].
    apply in_flat_map in H as (v & _ & H). exact (proj1 (Forall_forall _ _) (bytes_le_bytes 4 v) _ H). }
  unfold is_byte in *. pose proof (lxor_mod (nth i data 0) (keystream d key iv i) 8 ltac:(lia)) as E.
  rewrite (Z.mod_small (nth i data 0)), (Z.mod_small (keystream d key iv i)) in E by lia.
  rewrite <- E. now apply Z.mod_pos_bound.
Qed.

(** C37: [chacha8] and [chacha20] add to the data, byte by byte, the stream of the ChaCha cipher
    with 4 and 10 double rounds: the blocks that its rounds on the columns and diagonals of a
    matrix make from the constants, the key, a counter of 64 bits and the initial vector,
    whatever the length of the data and the bytes in [tmp]. The same call decrypts. *)
Theorem chacha_correct data key iv tmp tmp' :
  bytes data -> chacha_input key iv ->
  bytes tmp -> length tmp = 64%nat -> bytes tmp' -> length tmp' = 64%nat ->
  chacha8 data (length data) key iv tmp = Some (encrypt 4 key iv data) /\
  chacha20 data (length data) key iv tmp = Some (encrypt 10 key iv data) /\
  chacha8 (encrypt 4 key iv data) (length data) key iv tmp' = Some data /\
  chacha20 (encrypt 10 key iv data) (length data) key iv tmp' = Some data.
Proof.
  intros Hd Hi Ht Hl Ht' Hl'. unfold chacha8, chacha20.
  pose proof (fun d => bytes_encrypt d key iv data Hd) as He. pose proof (fun d => length_encrypt d key iv data) as Hn.
  repeat split.
  - now apply (chacha_encrypt 8).
  - now apply (chacha_encrypt 20).
  - rewrite <- (Hn 4%nat), (chacha_encrypt 8) by (trivial; lia). f_equal. apply encrypt_involutive.
  - rewrite <- (Hn 10%nat), (chacha_encrypt 20) by (trivial; lia). f_equal. apply encrypt_involutive.
Qed.

(** The first bytes of the stream of 20 rounds for zero key and vector, as published. *)
Lemma chacha_correct_witness :
  chacha20 [0; 0; 0; 0; 0; 0; 0; 0] 8 (repeat 0 32) (repeat 0 8) (repeat 255 64) =
    Some [0x76; 0xb8; 0xe0; 0xad; 0xa0; 0xf1; 0x3d; 0x90] /\
  chacha20 (encrypt 10 (repeat 0 32) (repeat 0 8) (repeat 7 100)) 100 (repeat 0 32) (repeat 0 8) (repeat 1 64) = Some (repeat 7 100).
Proof.
  assert (forall b n, is_byte b -> bytes (repeat b n)) as R.
  { intros b n Hb. apply Forall_forall. intros x Hx. now apply repeat_spec in Hx as ->. }
  assert (chacha_input (repeat 0 32) (repeat 0 8)) as Hi.
  { repeat split; try reflexivity; apply R; unfold is_byte; lia. }
  split; [vm_compute; reflexivity|].
  exact (proj2 (proj2 (proj2 (chacha_correct (repeat 7 100) (repeat 0 32) (repeat 0 8) (repeat 255 64) (repeat 1 64)
    (R 7 100%nat ltac:(unfold is_byte; lia)) Hi (R 255 64%nat ltac:(unfold is_byte; lia)) eq_refl
    (R 1 64%nat ltac:(unfold is_byte; lia)) eq_refl)))).
Defined.
