(* ===== verification/Blake.v ===== *)
(** * BLAKE-256

    Models blake256.c with its structures of blake256.h, and [hash_extra_blake]: the compression
    function, the incremental functions for 256 and 224 bits, and HMAC over them. Lengths of
    data are numbers of bits as in the code; [None] is an access outside an array. The
    specification is the one of BLAKE: a message with its padding, in blocks that are
    compressed with the number of bits of the message so far, and for HMAC the one of RFC 2104. *)

From Stdlib Require Import ZArith Lia List Bool.
From S2P Require Import Prelude Bytes IntUtil ChaCha.
Import ListNotations.

#[local] Open Scope Z_scope.

(** ** The code *)

Record state := { st_h : list Z; st_s : list Z; st_t : list Z; buflen : Z; nullt : Z; buf : list Z }.
Record hmac_state := { inner : state; outer : state }.

(** [U8TO32(p + k)] *)
Definition U8TO32 (p : list Z) (k : nat) : option Z :=
  match skipn k p with
  | b0 :: b1 :: b2 :: b3 :: _ =>
      Some (Z.lor (Z.lor (Z.lor (u32 (Z.shiftl b0 24)) (u32 (Z.shiftl b1 16))) (u32 (Z.shiftl b2 8))) b3)
  | _ => None
  end.

(** The four bytes that [U32TO8] stores. *)
Definition U32TO8 (v : Z) : list Z := [u8 (Z.shiftr v 24); u8 (Z.shiftr v 16); u8 (Z.shiftr v 8); u8 v].

Definition sigma : list (list nat) :=
  [[ 0; 1; 2; 3; 4; 5; 6; 7; 8; 9;10;11;12;13;14;15];
   [14;10; 4; 8; 9;15;13; 6; 1;12; 0; 2;11; 7; 5; 3];
   [11; 8;12; 0; 5; 2;15;13;10;14; 3; 6; 7; 1; 9; 4];
   [ 7; 9; 3; 1;13;12;11;14; 2; 6; 5;10; 4; 0;15; 8];
   [ 9; 0; 5; 7; 2; 4;10;15;14; 1;11;12; 6; 8; 3;13];
   [ 2;12; 6;10; 0;11; 8; 3; 4;13; 7; 5;15;14; 1; 9];
   [12; 5; 1;15;14;13; 4;10; 0; 7; 6; 3; 9; 2; 8;11];
   [13;11; 7;14;12; 1; 3; 9; 5; 0;15; 4; 8; 6; 2;10];
   [ 6;15;14; 9;11; 3; 0; 8;12; 2;13; 7; 1; 4;10; 5];
   [10; 2; 8; 4; 7; 6; 1; 5;15;11; 9;14; 3;12;13; 0];
   [ 0; 1; 2; 3; 4; 5; 6; 7; 8; 9;10;11;12;13;14;15];
   [14;10; 4; 8; 9;15;13; 6; 1;12; 0; 2;11; 7; 5; 3];
   [11; 8;12; 0; 5; 2;15;13;10;14; 3; 6; 7; 1; 9; 4];
   [ 7; 9; 3; 1;13;12;11;14; 2; 6; 5;10; 4; 0;15; 8]]%nat.

Definition cst : list Z :=
  [0x243F6A88; 0x85A308D3; 0x13198A2E; 0x03707344;
   0xA4093822; 0x299F31D0; 0x082EFA98; 0xEC4E6C89;
   0x452821E6; 0x38D01377; 0xBE5466CF; 0x34E90C6C;
   0xC0AC29B7; 0xC97C50DD; 0x3F84D5B5; 0xB5470917].

Definition padding : list Z := 0x80 :: repeat 0 63.

Definition ROT (x n : Z) : Z := Z.lor (u32 (Z.shiftl x (32 - n))) (Z.shiftr x n).

(** [G(a,b,c,d,e)] in round [i], on the arrays [m] and [v]. *)
Definition G (m : list Z) (i a b c d e : nat) (v : list Z) : option (list Z) :=
  let! row := nth_error sigma i in
  let! s0 := nth_error row e in
  let! s1 := nth_error row (e + 1) in
  let! m0 := nth_error m s0 in
  let! m1 := nth_error m s1 in
  let! c0 := nth_error cst s0 in
  let! c1 := nth_error cst s1 in
  let! va := nth_error v a in
  let! vb := nth_error v b in
  let! vc := nth_error v c in
  let! vd := nth_error v d in
  let va := u32 (va + u32 (Z.lxor m0 c1 + vb)) in
  let vd := ROT (Z.lxor vd va) 16 in
  let vc := u32 (vc + vd) in
  let vb := ROT (Z.lxor vb vc) 12 in
  let va := u32 (va + u32 (Z.lxor m1 c0 + vb)) in
  let vd := ROT (Z.lxor vd va) 8 in
  let vc := u32 (vc + vd) in
  let vb := ROT (Z.lxor vb vc) 7 in
  let! v := aset v a va in
  let! v := aset v b vb in
  let! v := aset v c vc in
  aset v d vd.

Definition blake_round (m v : list Z) (i : nat) : option (list Z) :=
  let! v := G m i 0 4 8 12 0 v in
  let! v := G m i 1 5 9 13 2 v in
  let! v := G m i 2 6 10 14 4 v in
  let! v := G m i 3 7 11 15 6 v in
  let! v := G m i 3 4 9 14 14 v in
  let! v := G m i 2 7 8 13 12 v in
  let! v := G m i 0 5 10 15 8 v in
  G m i 1 6 11 12 10 v.

(** [h[i % n] ^= x[i]] and [h[i] ^= x[i % n]]. *)
Definition xor_at (h : list Z) (i : nat) (x : list Z) (k : nat) : option (list Z) :=
  let! y := nth_error h i in
  let! z := nth_error x k in
  aset h i (Z.lxor y z).

Definition blake256_compress (S : state) (block : list Z) : option state :=
  let! m := mapM (fun i => U8TO32 block (i * 4)) (seq 0 16) in
  let! v := mapM (nth_error (st_h S)) (seq 0 8) in
  let! s0 := nth_error (st_s S) 0 in
  let! s1 := nth_error (st_s S) 1 in
  let! s2 := nth_error (st_s S) 2 in
  let! s3 := nth_error (st_s S) 3 in
  let v := v ++ [Z.lxor s0 0x243F6A88; Z.lxor s1 0x85A308D3; Z.lxor s2 0x13198A2E; Z.lxor s3 0x03707344;
                 0xA4093822; 0x299F31D0; 0x082EFA98; 0xEC4E6C89] in
  let! v :=
    if nullt S =? 0 then
      let! v := xor_at v 12 (st_t S) 0 in
      let! v := xor_at v 13 (st_t S) 0 in
      let! v := xor_at v 14 (st_t S) 1 in
      xor_at v 15 (st_t S) 1
    else Some v in
  let! v := foldM (blake_round m) (seq 0 14) v in
  let! h := foldM (fun h i => xor_at h (i mod 8) v i) (seq 0 16) (st_h S) in
  let! h := foldM (fun h i => xor_at h i (st_s S) (i mod 4)) (seq 0 8) h in
  Some {| st_h := h; st_s := st_s S; st_t := st_t S; buflen := buflen S; nullt := nullt S; buf := buf S |}.

Definition blake256_init (S : state) : state :=
  {| st_h := [0x6A09E667; 0xBB67AE85; 0x3C6EF372; 0xA54FF53A; 0x510E527F; 0x9B05688C; 0x1F83D9AB; 0x5BE0CD19];
     st_s := [0; 0; 0; 0]; st_t := [0; 0]; buflen := 0; nullt := 0; buf := buf S |}.

Definition blake224_init (S : state) : state :=
  {| st_h := [0xC1059ED8; 0x367CD507; 0x3070DD17; 0xF70E5939; 0xFFC00B31; 0x68581511; 0x64F98FA7; 0xBEFA4FA4];
     st_s := [0; 0; 0; 0]; st_t := [0; 0]; buflen := 0; nullt := 0; buf := buf S |}.

Definition set_t (S : state) (t : list Z) : state :=
  {| st_h := st_h S; st_s := st_s S; st_t := t; buflen := buflen S; nullt := nullt S; buf := buf S |}.
Definition set_buf (S : state) (b : list Z) : state :=
  {| st_h := st_h S; st_s := st_s S; st_t := st_t S; buflen := buflen S; nullt := nullt S; buf := b |}.
Definition set_buflen (S : state) (n : Z) : state :=
  {| st_h := st_h S; st_s := st_s S; st_t := st_t S; buflen := n; nullt := nullt S; buf := buf S |}.
Definition set_nullt (S : state) (n : Z) : state :=
  {| st_h := st_h S; st_s := st_s S; st_t := st_t S; buflen := buflen S; nullt := n; buf := buf S |}.

(** [S->t[0] += 512; if (S->t[0] == 0) S->t[1]++;] *)
Definition count_block (S : state) : option state :=
  let! t0 := nth_error (st_t S) 0 in
  let t0 := u32 (t0 + 512) in
  let! t := aset (st_t S) 0 t0 in
  if t0 =? 0 then
    let! t1 := nth_error t 1 in
    let! t := aset t 1 (u32 (t1 + 1)) in
    Some (set_t S t)
  else Some (set_t S t).

(** [S->t[0] -= n;] *)
Definition sub_t0 (S : state) (n : Z) : option state :=
  let! t0 := nth_error (st_t S) 0 in
  let! t := aset (st_t S) 0 (u32 (t0 - n)) in
  Some (set_t S t).

(** [memcpy(S->buf + left, data, n);] *)
Definition copy_buf (S : state) (left : nat) (data : list Z) (n : nat) : option state :=
  if (n <=? length data)%nat && (left + n <=? length (buf S))%nat
  then Some (set_buf S (firstn left (buf S) ++ firstn n data ++ skipn (left + n) (buf S))) else None.

(** [while (datalen >= 512)]; [None] when the fuel runs out. *)
Fixpoint update_blocks (fuel : nat) (S : state) (data : list Z) (datalen : Z) : option (state * list Z * Z) :=
  if 512 <=? datalen then
    match fuel with
    | O => None
    | Datatypes.S fuel =>
        let! S := count_block S in
        let! S := blake256_compress S data in
        update_blocks fuel S (skipn 64 data) (datalen - 512)
    end
  else Some (S, data, datalen).

Definition blake256_update (S : state) (data : list Z) (datalen : Z) : option state :=
  let left := Z.shiftr (buflen S) 3 in
  let fill := 64 - left in
  let! '(S, data, datalen, left) :=
    if negb (left =? 0) && (u32 fill <=? Z.shiftr datalen 3) then
      let! S := copy_buf S (Z.to_nat left) data (Z.to_nat fill) in
      let! S := count_block S in
      let! S := blake256_compress S (buf S) in
      Some (S, skipn (Z.to_nat fill) data, u64 (datalen - Z.shiftl fill 3), 0)
    else Some (S, data, datalen, left) in
  let! '(S, data, datalen) := update_blocks (Z.to_nat (datalen / 512)) S data datalen in
  if 0 <? datalen then
    let! S := copy_buf S (Z.to_nat left) data (Z.to_nat (Z.shiftr datalen 3)) in
    Some (set_buflen S (to_i32 (u64 (Z.shiftl left 3 + datalen))))
  else Some (set_buflen S 0).

Definition blake224_update (S : state) (data : list Z) (datalen : Z) : option state := blake256_update S data datalen.

(** The state after it, and the bytes of [digest]. *)
Definition blake256_final_h (S : state) (pa pb : Z) : option (state * list Z) :=
  let! t0 := nth_error (st_t S) 0 in
  let! t1 := nth_error (st_t S) 1 in
  let lo := u32 (t0 + buflen S) in
  let hi := if lo <? u32 (buflen S) then u32 (t1 + 1) else t1 in
  let msglen := U32TO8 hi ++ U32TO8 lo in
  let! S :=
    if buflen S =? 440 then
      let! S := sub_t0 S 8 in
      blake256_update S [pa] 8
    else
      let! S :=
        if buflen S <? 440 then
          let S := if buflen S =? 0 then set_nullt S 1 else S in
          let! S := sub_t0 S (440 - buflen S) in
          blake256_update S padding (u64 (440 - buflen S))
        else
          let! S := sub_t0 S (512 - buflen S) in
          let! S := blake256_update S padding (u64 (512 - buflen S)) in
          let! S := sub_t0 S 440 in
          let! S := blake256_update S (skipn 1 padding) 440 in
          Some (set_nullt S 1) in
      let! S := blake256_update S [pb] 8 in
      sub_t0 S 8 in
  let! S := sub_t0 S 64 in
  let! S := blake256_update S msglen 64 in
  let! h := mapM (nth_error (st_h S)) (seq 0 8) in
  Some (S, flat_map U32TO8 h).

Definition blake256_final (S : state) : option (state * list Z) := blake256_final_h S 0x81 0x01.
Definition blake224_final (S : state) : option (state * list Z) := blake256_final_h S 0x80 0x00.

(** The local [S] is not initialised: an argument. *)
Definition blake256_hash (S : state) (inp : list Z) (inlen : Z) : option (list Z) :=
  let S := blake256_init S in
  let! S := blake256_update S inp (u64 (inlen * 8)) in
  let! '(_, out) := blake256_final S in
  Some out.

Definition blake224_hash (S : state) (inp : list Z) (inlen : Z) : option (list Z) :=
  let S := blake224_init S in
  let! S := blake224_update S inp (u64 (inlen * 8)) in
  let! '(_, out) := blake224_final S in
  Some out.

Definition hash_extra_blake (S : state) (data : list Z) (length : Z) : option (list Z) := blake256_hash S data length.

(** [memset(pad, c, 64); for (i = 0; i < keylen; ++i) pad[i] ^= key[i];] *)
Definition key_pad (c : Z) (key : list Z) (keylen : Z) : option (list Z) :=
  foldM (fun pad i => xor_at pad i key i) (seq 0 (Z.to_nat keylen)) (repeat c 64).

Definition hmac_blake256_init (S : hmac_state) (L : state) (key : list Z) (keylen : Z) : option hmac_state :=
  let! '(key, keylen) :=
    if 64 <? keylen then
      let! keyhash := blake256_hash L key keylen in
      Some (keyhash, 32)
    else Some (key, keylen) in
  let inner := blake256_init (inner S) in
  let! pad := key_pad 0x36 key keylen in
  let! inner := blake256_update inner pad 512 in
  let outer := blake256_init (outer S) in
  let! pad := key_pad 0x5c key keylen in
  let! outer := blake256_update outer pad 512 in
  Some {| inner := inner; outer := outer |}.

(** The long key is hashed by [blake256_hash] here too. *)
Definition hmac_blake224_init (S : hmac_state) (L : state) (key : list Z) (keylen : Z) : option hmac_state :=
  let! '(key, keylen) :=
    if 64 <? keylen then
      let! keyhash := blake256_hash L key keylen in
      Some (keyhash, 28)
    else Some (key, keylen) in
  let inner := blake224_init (inner S) in
  let! pad := key_pad 0x36 key keylen in
  let! inner := blake224_update inner pad 512 in
  let outer := blake224_init (outer S) in
  let! pad := key_pad 0x5c key keylen in
  let! outer := blake224_update outer pad 512 in
  Some {| inner := inner; outer := outer |}.

Definition hmac_blake256_update (S : hmac_state) (data : list Z) (datalen : Z) : option hmac_state :=
  let! i := blake256_update (inner S) data datalen in
  Some {| inner := i; outer := outer S |}.

Definition hmac_blake224_update (S : hmac_state) (data : list Z) (datalen : Z) : option hmac_state :=
  let! i := blake224_update (inner S) data datalen in
  Some {| inner := i; outer := outer S |}.

Definition hmac_blake256_final (S : hmac_state) : option (hmac_state * list Z) :=
  let! '(i, ihash) := blake256_final (inner S) in
  let! o := blake256_update (outer S) ihash 256 in
  let! '(o, digest) := blake256_final o in
  Some ({| inner := i; outer := o |}, digest).

Definition hmac_blake224_final (S : hmac_state) : option (hmac_state * list Z) :=
  let! '(i, ihash) := blake224_final (inner S) in
  let! o := blake224_update (outer S) ihash 224 in
  let! '(o, digest) := blake224_final o in
  Some ({| inner := i; outer := o |}, digest).

Definition hmac_blake256_hash (S : hmac_state) (L : state) (key : list Z) (keylen : Z) (inp : list Z) (inlen : Z) : option (list Z) :=
  let! S := hmac_blake256_init S L key keylen in
  let! S := hmac_blake256_update S inp (u64 (inlen * 8)) in
  let! '(_, out) := hmac_blake256_final S in
  Some out.

Definition hmac_blake224_hash (S : hmac_state) (L : state) (key : list Z) (keylen : Z) (inp : list Z) (inlen : Z) : option (list Z) :=
  let! S := hmac_blake224_init S L key keylen in
  let! S := hmac_blake224_update S inp (u64 (inlen * 8)) in
  let! '(_, out) := hmac_blake224_final S in
  Some out.

(** ** The compression function *)

Definition s_rotr (x n : Z) : Z := rotl x (32 - n).

(** The function [G] of round [r] with index [j], on a column or a diagonal. *)
Definition s_G (m : list Z) (r j : nat) (column : list Z) : list Z :=
  let perm k := nth k (nth (r mod 10) sigma []) 0%nat in
  let x := Z.lxor (nth (perm (2 * j)%nat) m 0) (nth (perm (2 * j + 1)%nat) cst 0) in
  let y := Z.lxor (nth (perm (2 * j + 1)%nat) m 0) (nth (perm (2 * j)%nat) cst 0) in
  match column with
  | [a; b; c; d] =>
      let a := (a + b + x) mod 2 ^ 32 in let d := s_rotr (Z.lxor d a) 16 in
      let c := (c + d) mod 2 ^ 32 in let b := s_rotr (Z.lxor b c) 12 in
      let a := (a + b + y) mod 2 ^ 32 in let d := s_rotr (Z.lxor d a) 8 in
      let c := (c + d) mod 2 ^ 32 in let b := s_rotr (Z.lxor b c) 7 in
      [a; b; c; d]
  | _ => []
  end.

(** [G] with the indices [k] .. [k + 3] on the columns. *)
Definition s_columns (m : list Z) (r k : nat) (v : list (list Z)) : list (list Z) :=
  transpose (map (fun j => s_G m r (k + j) (nth j (transpose v) [])) (seq 0 4)).

Definition s_blake_round (m : list Z) (v : list (list Z)) (r : nat) : list (list Z) :=
  on_rows (fun i => rotate (4 - i)) (s_columns m r 4 (on_rows rotate (s_columns m r 0 v))).

(** Chain value [h], message words [m], salt [s] and counter [t]. *)
Definition s_compress (s h m : list Z) (t : Z) : list Z :=
  let t0 := t mod 2 ^ 32 in
  let t1 := t / 2 ^ 32 mod 2 ^ 32 in
  let v := matrix (h ++ xor_list (s ++ [t0; t0; t1; t1]) (firstn 8 cst)) in
  let v := concat (fold_left (s_blake_round m) (seq 0 14) v) in
  xor_list (xor_list h (xor_list (firstn 8 v) (skipn 8 v))) (s ++ s).

Lemma ROT_rotr x n : word32 x -> 0 < n < 32 -> ROT x n = s_rotr x n.
Proof.
  intros Hx Hn. unfold s_rotr. rewrite <- rol32_rotl by (trivial; lia). unfold ROT, rol32.
  replace (Z.land (32 - n) 31) with (32 - n). 2: { change 31 with (Z.ones 5). rewrite Z.land_ones, Z.mod_small by lia. reflexivity. }
  replace (Z.land (- (32 - n)) 31) with n; [reflexivity|]. change 31 with (Z.ones 5). rewrite Z.land_ones by lia.
  apply (Z.mod_unique_pos _ _ (-1)); lia.
Qed.

Lemma cst_words : Forall word32 cst.
Proof. repeat (apply Forall_cons; [unfold word32; lia|]). apply Forall_nil. Qed.

Lemma sigma_rows i k : (i < 14)%nat -> (k < 16)%nat ->
  exists row n, nth_error sigma i = Some row /\ nth_error row k = Some n /\ (n < 16)%nat /\ n = nth k (nth (i mod 10) sigma []) 0%nat.
Proof.
  intros Hi Hk. assert (forallb (fun i => forallb (fun k =>
      match nth_error sigma i with
      | Some row => match nth_error row k with
                    | Some n => (n <? 16)%nat && (n =? nth k (nth (i mod 10) sigma []) 0)%nat
                    | None => false
                    end
      | None => false
      end) (seq 0 16)) (seq 0 14) = true) as H by (vm_compute; reflexivity).
  rewrite forallb_forall in H. specialize (H i ltac:(apply in_seq; lia)). rewrite forallb_forall in H.
  specialize (H k ltac:(apply in_seq; lia)). destruct (nth_error sigma i) as [row|] eqn:E; [|discriminate].
  destruct (nth_error row k) as [n|] eqn:E2; [|discriminate]. apply andb_true_iff in H as [H1 H2].
  exists row, n. repeat split; trivial; [now apply Nat.ltb_lt | now apply Nat.eqb_eq].
Qed.

Lemma add3_mod a x b : (a + (x + b) mod 2 ^ 32) mod 2 ^ 32 = (a + b + x) mod 2 ^ 32.
Proof. rewrite Z.add_mod_idemp_r by lia. f_equal. lia. Qed.

Lemma G_spec m i j a b c d v va vb vc vd :
  square m -> (i < 14)%nat -> (j < 8)%nat -> Forall word32 [va; vb; vc; vd] ->
  nth_error v a = Some va -> nth_error v b = Some vb -> nth_error v c = Some vc -> nth_error v d = Some vd ->
  exists va' vb' vc' vd', s_G m i j [va; vb; vc; vd] = [va'; vb'; vc'; vd'] /\ Forall word32 [va'; vb'; vc'; vd'] /\
    G m i a b c d (2 * j) v =
      (let! v := aset v a va' in let! v := aset v b vb' in let! v := aset v c vc' in aset v d vd').
Proof.
  intros [Hm Fm] Hi Hj F Ea Eb Ec Ed. inversion_clear F as [|? ? Ha F']. inversion_clear F' as [|? ? Hb F].
  inversion_clear F as [|? ? Hc F']. inversion_clear F' as [|? ? Hd _].
  destruct (sigma_rows i (2 * j) Hi ltac:(lia)) as (row & n0 & Er & E0 & L0 & P0).
  destruct (sigma_rows i (2 * j + 1) Hi ltac:(lia)) as (row' & n1 & Er' & E1 & L1 & P1).
  rewrite Er in Er'. injection Er' as <-. unfold G, s_G. rewrite Er. cbn [bind]. rewrite E0, E1, <- P0, <- P1. cbn [bind].
  rewrite (nth_error_nth' m 0), (nth_error_nth' m 0 (n := n1)) by lia.
  rewrite (nth_error_nth' cst 0), (nth_error_nth' cst 0 (n := n1)) by assumption.
  rewrite Ea, Eb, Ec, Ed. cbn [bind]. unfold u32. rewrite !add3_mod. do 4 eexists. split; [reflexivity|].
  unfold s_rotr. split.
  - repeat (apply Forall_cons; [word32|]). apply Forall_nil.
  - rewrite !ROT_rotr; try lia; [reflexivity|..]; unfold s_rotr; word32.
Qed.

(** Runs one call of [G] on a state of variables. *)
Ltac run_G j :=
  match goal with
  | |- context [G ?m ?i ?a ?b ?c ?d ?e ?x] =>
      let E := fresh "Eq" in let F := fresh "Fq" in let R := fresh "Rq" in
      edestruct (G_spec m i j a b c d x) as (? & ? & ? & ? & E & F & R);
      [ assumption | assumption | lia | | reflexivity | reflexivity | reflexivity | reflexivity | ];
      [ all_words | ];
      change (G m i a b c d e x) with (G m i a b c d (2 * j) x);
      rewrite R; clear R; cbn [bind aset];
      repeat match goal with
             | H : Forall word32 (_ :: _) |- _ => apply Forall_cons_iff in H; destruct H
             | H : Forall word32 [] |- _ => clear H
             end
  end.

Lemma blake_round_spec m i s :
  square m -> (i < 14)%nat -> square s ->
  returns (blake_round m s i) (fun s' => square s' /\ matrix s' = s_blake_round m (matrix s) i).
Proof.
  intros Hm Hi [Hl F]. do 16 (destruct s as [|? s]; [discriminate|]). destruct s; [|discriminate]. clear Hl.
  repeat match goal with
         | H : Forall word32 (_ :: _) |- _ => apply Forall_cons_iff in H; destruct H
         end.
  unfold blake_round. run_G 0%nat. run_G 1%nat. run_G 2%nat. run_G 3%nat. run_G 7%nat. run_G 6%nat. run_G 4%nat. run_G 5%nat.
  cbn [returns]. split; [split; [reflexivity | all_words]|].
  unfold s_blake_round, s_columns, on_rows, transpose, matrix, rotate.
  revert Eq Eq0 Eq1 Eq2 Eq3 Eq4 Eq5 Eq6. generalize (s_G m i) as g. intros g.
  cbn [seq map firstn skipn Nat.mul Nat.add Nat.sub nth app]. intros.
  repeat match goal with E : g _ _ = _ |- _ => rewrite E; clear E; cbn [nth] end.
  reflexivity.
Qed.

(** Big-endian words of a block. *)
Definition be_words (block : list Z) : list Z := map (fun i => le_val (rev (firstn 4 (skipn (4 * i) block)))) (seq 0 16).

Lemma U8TO32_spec p k : bytes p -> (k + 4 <= length p)%nat -> U8TO32 p k = Some (le_val (rev (firstn 4 (skipn k p)))).
Proof.
  intros Hp Hl. pose proof (bytes_skipn k p Hp) as Hb. assert (4 <= length (skipn k p))%nat as Hn by (rewrite length_skipn; lia).
  unfold U8TO32. destruct (skipn k p) as [|b0 [|b1 [|b2 [|b3 l]]]]; cbn [length] in Hn; try lia.
  unfold bytes in Hb. rewrite !Forall_cons_iff in Hb. destruct Hb as (H0 & H1 & H2 & H3 & _). unfold is_byte in *.
  f_equal. cbn [firstn rev app le_val]. unfold u32. rewrite !Z.mod_small by (rewrite Z.shiftl_mul_pow2; lia).
  rewrite (Z.lor_comm _ b3), (Z.lor_comm (Z.lor _ _) (Z.shiftl b2 8)), (Z.lor_comm (Z.shiftl b0 24)), !Z.lor_assoc.
  rewrite (lor_shiftl_add b3 b2 8), (lor_shiftl_add _ b1 16), (lor_shiftl_add _ b0 24) by lia. lia.
Qed.

Lemma be_words_square block : bytes block -> (64 <= length block)%nat -> square (be_words block).
Proof.
  intros Hb Hl. split; [unfold be_words; now rewrite length_map, length_seq|].
  unfold be_words. apply Forall_map, Forall_forall. intros i Hi. apply in_seq in Hi.
  assert (bytes (rev (firstn 4 (skipn (4 * i) block)))) as B by now apply Forall_rev, bytes_firstn, bytes_skipn.
  pose proof (le_val_bound _ B) as R. rewrite length_rev, firstn_length_le in R by (rewrite length_skipn; lia). exact R.
Qed.

Lemma rounds_spec m v :
  square m -> square v ->
  returns (foldM (blake_round m) (seq 0 14) v) (fun w => square w /\ w = concat (fold_left (s_blake_round m) (seq 0 14) (matrix v))).
Proof.
  intros Hm Hv. eapply returns_weaken.
  - apply (foldM_seq (fun i w => square w /\ matrix w = fold_left (s_blake_round m) (seq 0 i) (matrix v)) (blake_round m) 0 14 v).
    + now split.
    + intros i y Hi [Hy Ey]. eapply returns_weaken; [apply blake_round_spec; trivial; lia|]. cbv beta. intros w [Hw Ew].
      split; [exact Hw|]. rewrite seq_S, fold_left_app, <- Ey. exact Ew.
  - cbv beta. intros w [Hw Ew]. split; [exact Hw|]. cbn [Nat.add] in Ew. rewrite <- Ew. symmetry. apply concat_matrix, Hw.
Qed.

Definition set_h (S : state) (h : list Z) : state :=
  {| st_h := h; st_s := st_s S; st_t := st_t S; buflen := buflen S; nullt := nullt S; buf := buf S |}.

(** The counter that the compression function uses. *)
Definition counter (S : state) : Z :=
  if nullt S =? 0 then nth 0 (st_t S) 0 + 2 ^ 32 * nth 1 (st_t S) 0 else 0.

(** The type invariant of the structure. *)
Definition state_ok (S : state) : Prop :=
  (length (st_h S) = 8%nat /\ Forall word32 (st_h S)) /\ (length (st_s S) = 4%nat /\ Forall word32 (st_s S)) /\
  (length (st_t S) = 2%nat /\ Forall word32 (st_t S)) /\ (length (buf S) = 64%nat /\ bytes (buf S)).

Ltac split_words :=
  repeat match goal with
         | H : Forall word32 (_ :: _) |- _ => apply Forall_cons_iff in H; destruct H
         | H : Forall word32 [] |- _ => clear H
         end.

Lemma words_pair lo hi : word32 lo -> word32 hi ->
  (lo + 2 ^ 32 * hi) mod 2 ^ 32 = lo /\ (lo + 2 ^ 32 * hi) / 2 ^ 32 mod 2 ^ 32 = hi.
Proof.
  unfold word32. intros H1 H2. split; [symmetry; apply (Z.mod_unique_pos _ _ hi); lia|].
  replace ((lo + 2 ^ 32 * hi) / 2 ^ 32) with hi by (apply (Z.div_unique_pos _ _ _ lo); lia). apply Z.mod_small. lia.
Qed.

(** The state before the rounds. *)
Lemma initial_v_spec (h : list Z) s0 s1 s2 s3 t0 t1 (nt : Z) :
  length h = 8%nat -> word32 t0 -> word32 t1 ->
  let v := h ++ [Z.lxor s0 0x243F6A88; Z.lxor s1 0x85A308D3; Z.lxor s2 0x13198A2E; Z.lxor s3 0x03707344;
                 0xA4093822; 0x299F31D0; 0x082EFA98; 0xEC4E6C89] in
  let T := if nt =? 0 then t0 + 2 ^ 32 * t1 else 0 in
  (if nt =? 0 then
     let! v := xor_at v 12 [t0; t1] 0 in
     let! v := xor_at v 13 [t0; t1] 0 in
     let! v := xor_at v 14 [t0; t1] 1 in
     xor_at v 15 [t0; t1] 1
   else Some v) =
  Some (h ++ xor_list ([s0; s1; s2; s3] ++ [T mod 2 ^ 32; T mod 2 ^ 32; T / 2 ^ 32 mod 2 ^ 32; T / 2 ^ 32 mod 2 ^ 32]) (firstn 8 cst)).
Proof.
  intros Hh H0 H1 v T. do 8 (destruct h as [|? h]; [discriminate|]). destruct h; [clear Hh | discriminate].
  unfold T, v. destruct (nt =? 0).
  - destruct (words_pair t0 t1 H0 H1) as [-> ->]. unfold xor_at, xor_list. cbn [app nth_error bind aset cst firstn combine map].
    now rewrite !(Z.lxor_comm t0), !(Z.lxor_comm t1).
  - reflexivity.
Qed.

(** The new chain value. *)
Lemma feed_forward_spec h v s :
  length h = 8%nat -> square v -> length s = 4%nat ->
  (let! h := foldM (fun h i => xor_at h (i mod 8) v i) (seq 0 16) h in
   foldM (fun h i => xor_at h i s (i mod 4)) (seq 0 8) h) =
  Some (xor_list (xor_list h (xor_list (firstn 8 v) (skipn 8 v))) (s ++ s)).
Proof.
  intros Hh [Hv _] Hs. do 8 (destruct h as [|? h]; [discriminate|]). destruct h; [clear Hh | discriminate].
  do 16 (destruct v as [|? v]; [discriminate|]). destruct v; [clear Hv | discriminate].
  do 4 (destruct s as [|? s]; [discriminate|]). destruct s; [clear Hs | discriminate].
  unfold xor_at, xor_list. cbn -[Z.lxor]. now rewrite !Z.lxor_assoc.
Qed.

Lemma xor_list_words a b : Forall word32 a -> Forall word32 b -> Forall word32 (xor_list a b).
Proof.
  intros Ha. revert b. induction Ha as [|x a Hx Ha IH]; intros [|y b] Hb; try apply Forall_nil.
  apply Forall_cons_iff in Hb as [Hy Hb]. apply Forall_cons; [now apply word32_lxor | now apply IH].
Qed.

Lemma length_xor_list a b : length (xor_list a b) = min (length a) (length b).
Proof. unfold xor_list. now rewrite length_map, length_combine. Qed.

Lemma blake256_compress_spec S block :
  state_ok S -> bytes block -> (64 <= length block)%nat ->
  blake256_compress S block = Some (set_h S (s_compress (st_s S) (st_h S) (be_words block) (counter S))) /\
  state_ok (set_h S (s_compress (st_s S) (st_h S) (be_words block) (counter S))).
Proof.
  destruct S as [h s t bl nt b]. intros ((Hh & Fh) & (Hs & Fs) & (Ht & Ft) & Hbuf) Hb Hl. cbn [st_h st_s st_t buf nullt] in *.
  unfold blake256_compress, set_h, state_ok, counter, s_compress. cbn [st_h st_s st_t buflen nullt buf].
  rewrite (mapM_map _ (fun i => le_val (rev (firstn 4 (skipn (4 * i) block))))).
  2: { intros i Hi. apply in_seq in Hi. rewrite Nat.mul_comm. apply U8TO32_spec; [exact Hb | lia]. }
  cbn [bind]. change (map _ (seq 0 16)) with (be_words block). pose proof (be_words_square block Hb Hl) as Hm.
  generalize dependent (be_words block). intros m Hm.
  assert (mapM (nth_error h) (seq 0 8) = Some h) as ->.
  { do 8 (destruct h as [|? h]; [discriminate|]). destruct h; [reflexivity | discriminate]. }
  pose proof (fun v => feed_forward_spec h v s Hh) as FF.
  do 4 (destruct s as [|? s]; [discriminate|]). destruct s; [|discriminate].
  do 2 (destruct t as [|? t]; [discriminate|]). destruct t; [|discriminate]. split_words.
  cbn [bind nth_error nth]. rewrite initial_v_spec by assumption. cbn [bind].
  match goal with |- context [matrix ?l] => set (v := l) end.
  assert (square v) as Hv.
  { split; [unfold v; rewrite length_app, length_xor_list, Hh; reflexivity|]. apply Forall_app. split; [exact Fh|].
    apply xor_list_words; [|repeat (apply Forall_cons; [unfold word32; lia|]); apply Forall_nil].
    cbn [app]. repeat (apply Forall_cons; [first [assumption | apply word32_mod]|]). apply Forall_nil. }
  pose proof (rounds_spec m v Hm Hv) as R. apply returns_some in R as (w & -> & Hw & ->). cbn [bind].
  specialize (FF _ Hw eq_refl).
  match goal with |- context [foldM ?f (seq 0 16) h] => destruct (foldM f (seq 0 16) h) as [h'|]; [|discriminate] end.
  cbn [bind] in FF |- *. rewrite FF. cbn [bind]. split; [reflexivity|].
  split; [|split; [split; [reflexivity | all_words] | split; [split; [reflexivity | all_words] | exact Hbuf]]]. split.
  - rewrite !length_xor_list, length_firstn, length_skipn, (proj1 Hw), Hh. reflexivity.
  - apply xor_list_words; [apply xor_list_words; [exact Fh|] | cbn [app]; all_words].
    destruct Hw as [_ Hw]. rewrite <- (firstn_skipn 8) in Hw. apply Forall_app in Hw as [? ?]. now apply xor_list_words.
Qed.

(** ** Messages *)

Definition no_salt : list Z := [0; 0; 0; 0].

(** Block [i] of a message. *)
Definition block_at (msg : list Z) (i : nat) : list Z := firstn 64 (skipn (64 * i) msg).

(** The chain value after [k] blocks of [msg], with the counters [c]. *)
Definition chain_value (c : nat -> Z) (iv msg : list Z) (k : nat) : list Z :=
  fold_left (fun h i => s_compress no_salt h (be_words (block_at msg i)) (c i)) (seq 0 k) iv.

(** The bits 1 0 ... 0 [b], in [z + 1] bytes. *)
Definition pad_bits (b : Z) (z : nat) : list Z :=
  match z with
  | O => [0x80 + b]
  | Datatypes.S z => 0x80 :: repeat 0 z ++ [b]
  end.

(** The message with padding to full blocks and its length in bits. *)
Definition padded (b : Z) (msg : list Z) : list Z :=
  msg ++ pad_bits b ((119 - length msg mod 64) mod 64) ++ rev (le_bytes 8 (8 * Z.of_nat (length msg))).

(** The number of bits of the message in the blocks up to [i], zero for a block without any. *)
Definition s_counter (n i : nat) : Z := if (64 * i <? n)%nat then 8 * Z.of_nat (min n (64 * (i + 1))) else 0.

Definition s_blake (iv : list Z) (b : Z) (msg : list Z) : list Z :=
  flat_map (fun v => rev (le_bytes 4 v)) (chain_value (s_counter (length msg)) iv (padded b msg) (length (padded b msg) / 64)).

Definition iv256 : list Z := st_h (blake256_init {| st_h := []; st_s := []; st_t := []; buflen := 0; nullt := 0; buf := [] |}).
Definition iv224 : list Z := st_h (blake224_init {| st_h := []; st_s := []; st_t := []; buflen := 0; nullt := 0; buf := [] |}).
Definition s_blake256 : list Z -> list Z := s_blake iv256 1.
Definition s_blake224 (msg : list Z) : list Z := firstn 28 (s_blake iv224 0 msg).

(** ** Counters and copies *)

Definition t_words (T : Z) : list Z := [T mod 2 ^ 32; T / 2 ^ 32 mod 2 ^ 32].

(** The counter after [S->t[0] += 512]. *)
Definition tick (u w : Z) : list Z :=
  if (u + 512) mod 2 ^ 32 =? 0 then [0; (w + 1) mod 2 ^ 32] else [(u + 512) mod 2 ^ 32; w].

Lemma count_block_tick h s u w bl nt b :
  count_block (Build_state h s [u; w] bl nt b) = Some (Build_state h s (tick u w) bl nt b).
Proof.
  unfold count_block, set_t, tick, u32. cbn [st_t nth_error bind aset st_h st_s buflen nullt buf].
  destruct (Z.eqb_spec ((u + 512) mod 2 ^ 32) 0) as [->|]; reflexivity.
Qed.

Lemma tick_words k : 0 <= k -> tick (nth 0 (t_words (512 * k)) 0) (nth 1 (t_words (512 * k)) 0) = t_words (512 * (k + 1)).
Proof.
  intros Hk. unfold tick, t_words. cbn [nth]. rewrite Z.add_mod_idemp_l by lia.
  replace (512 * (k + 1)) with (512 * k + 512) by lia.
  assert ((512 * k) mod 2 ^ 32 = 512 * (k mod 2 ^ 23)) as M by (change (2 ^ 32) with (512 * 2 ^ 23); apply Z.mul_mod_distr_l; lia).
  pose proof (Z.div_mod (512 * k) (2 ^ 32) ltac:(lia)) as D. pose proof (Z.mod_pos_bound k (2 ^ 23) ltac:(lia)) as B.
  set (q := 512 * k / 2 ^ 32) in *. rewrite M in D. destruct (Z.eq_dec (k mod 2 ^ 23) (2 ^ 23 - 1)) as [E|N].
  - replace ((512 * k + 512) mod 2 ^ 32) with 0 by (apply (Z.mod_unique_pos _ _ (q + 1)); lia). cbn [Z.eqb].
    replace ((512 * k + 512) / 2 ^ 32) with (q + 1) by (apply (Z.div_unique_pos _ _ _ 0); lia).
    now rewrite Z.add_mod_idemp_l by lia.
  - replace ((512 * k + 512) mod 2 ^ 32) with (512 * (k mod 2 ^ 23) + 512) by (apply (Z.mod_unique_pos _ _ q); lia).
    destruct (Z.eqb_spec (512 * (k mod 2 ^ 23) + 512) 0); [lia|].
    now replace ((512 * k + 512) / 2 ^ 32) with q by (apply (Z.div_unique_pos _ _ _ (512 * (k mod 2 ^ 23) + 512)); lia).
Qed.

Lemma tick_ok u w : word32 w -> length (tick u w) = 2%nat /\ Forall word32 (tick u w).
Proof.
  intros Hw. unfold tick. destruct (_ =? 0); (split; [reflexivity|]);
    repeat (apply Forall_cons; [first [assumption | apply word32_mod | unfold word32; lia]|]); apply Forall_nil.
Qed.

Lemma copy_buf_spec h s t bl nt b l data n :
  (n <= length data)%nat -> (l + n <= 64)%nat -> length b = 64%nat -> bytes b -> bytes data ->
  exists b', copy_buf (Build_state h s t bl nt b) l data n = Some (Build_state h s t bl nt b') /\
    length b' = 64%nat /\ bytes b' /\ firstn (l + n) b' = firstn l b ++ firstn n data.
Proof.
  intros Hn Hl Hb Bb Bd. unfold copy_buf. cbn [buf]. rewrite (proj2 (Nat.leb_le _ _) Hn), Hb, (proj2 (Nat.leb_le _ _) Hl).
  cbn [andb]. eexists. split; [reflexivity|]. split; [|split].
  - rewrite !length_app, !length_firstn, length_skipn. lia.
  - repeat apply bytes_app; auto using bytes_firstn, bytes_skipn.
  - rewrite app_assoc. set (X := firstn l b ++ firstn n data).
    assert (length X = (l + n)%nat) as HX by (unfold X; rewrite length_app, !length_firstn; lia).
    now rewrite firstn_app, HX, Nat.sub_diag, firstn_all2, app_nil_r by lia.
Qed.

(** ** Updates *)

(** Lengths of bytes, in bits. *)
#[local] Abbreviation bits n := (8 * Z.of_nat n).

Lemma bits_bytes n : Z.shiftr (bits n) 3 = Z.of_nat n.
Proof. rewrite Z.shiftr_div_pow2, Z.mul_comm by lia. apply Z.div_mul. lia. Qed.

Lemma fill_word l : (l < 64)%nat -> u32 (64 - Z.of_nat l) = 64 - Z.of_nat l.
Proof. intros H. apply Z.mod_small. lia. Qed.

Lemma update_blocks_small f S data n : (n < 64)%nat -> update_blocks f S data (bits n) = Some (S, data, bits n).
Proof. intros H. destruct f; cbn [update_blocks]; destruct (Z.leb_spec 512 (bits n)); trivial; lia. Qed.

(** The last step of an update. *)
Lemma update_tail h s t bl nt b l data n :
  (0 < n)%nat -> (l + n < 64)%nat -> (n <= length data)%nat -> length b = 64%nat -> bytes b -> bytes data ->
  exists b',
    (if 0 <? bits n then
       let! S := copy_buf (Build_state h s t bl nt b) (Z.to_nat (Z.of_nat l)) data (Z.to_nat (Z.shiftr (bits n) 3)) in
       Some (set_buflen S (to_i32 (u64 (Z.shiftl (Z.of_nat l) 3 + bits n))))
     else Some (set_buflen (Build_state h s t bl nt b) 0)) = Some (Build_state h s t (bits (l + n)) nt b') /\
    length b' = 64%nat /\ bytes b' /\ firstn (l + n) b' = firstn l b ++ firstn n data.
Proof.
  intros H0 Hl Hn Hb Bb Bd. destruct (copy_buf_spec h s t bl nt b l data n Hn ltac:(lia) Hb Bb Bd) as (b' & E & H).
  exists b'. split; [|exact H]. destruct (Z.ltb_spec 0 (bits n)); [|lia]. rewrite bits_bytes, !Nat2Z.id, E. cbn [bind].
  unfold set_buflen. cbn [st_h st_s st_t nullt buf]. do 2 f_equal.
  rewrite Z.shiftl_mul_pow2, u64_small, to_i32_small by lia. lia.
Qed.

(** Data that does not fill the buffer is appended to it. *)
Lemma update_fits h s t nt b l data n :
  (0 < n)%nat -> (l + n < 64)%nat -> (n <= length data)%nat -> length b = 64%nat -> bytes b -> bytes data ->
  exists b', blake256_update (Build_state h s t (bits l) nt b) data (bits n) = Some (Build_state h s t (bits (l + n)) nt b') /\
    length b' = 64%nat /\ bytes b' /\ firstn (l + n) b' = firstn l b ++ firstn n data.
Proof.
  intros H0 Hl Hn Hb Bb Bd. destruct (update_tail h s t (bits l) nt b l data n H0 Hl Hn Hb Bb Bd) as (b' & E & H).
  exists b'. split; [|exact H]. unfold blake256_update. cbn [buflen]. rewrite bits_bytes, fill_word, bits_bytes by lia.
  destruct (Z.leb_spec (64 - Z.of_nat l) (Z.of_nat n)); [lia|]. rewrite andb_false_r. cbn [bind].
  rewrite update_blocks_small by lia. cbn [bind]. exact E.
Qed.

(** Compression of a block after counting it. *)
Lemma count_compress h u w bl nt b block :
  state_ok (Build_state h no_salt [u; w] bl nt b) -> bytes block -> (64 <= length block)%nat ->
  let t := tick u w in
  let h' := s_compress no_salt h (be_words block) (if nt =? 0 then nth 0 t 0 + 2 ^ 32 * nth 1 t 0 else 0) in
  blake256_compress (Build_state h no_salt t bl nt b) block = Some (Build_state h' no_salt t bl nt b) /\
  state_ok (Build_state h' no_salt t bl nt b).
Proof.
  intros (Hh & Hs & Ht & Hb) Bb Hl t h'.
  assert (state_ok (Build_state h no_salt t bl nt b)) as Hok.
  { split; [exact Hh|]. split; [exact Hs|]. split; [|exact Hb]. apply tick_ok. destruct Ht as [_ Ht]. cbn [st_t] in Ht.
    apply Forall_cons_iff in Ht as [_ Ht]. now apply Forall_cons_iff in Ht as [Ht _]. }
  exact (blake256_compress_spec _ block Hok Bb Hl).
Qed.

(** Data that fills the buffer: the block is compressed. *)
Lemma update_fills h u w nt b l data n :
  state_ok (Build_state h no_salt [u; w] (bits l) nt b) ->
  (0 < l)%nat -> (0 < n)%nat -> (l + n = 64)%nat -> (n <= length data)%nat -> bytes data ->
  let t := tick u w in
  let h' := s_compress no_salt h (be_words (firstn l b ++ firstn n data)) (if nt =? 0 then nth 0 t 0 + 2 ^ 32 * nth 1 t 0 else 0) in
  exists b', blake256_update (Build_state h no_salt [u; w] (bits l) nt b) data (bits n) = Some (Build_state h' no_salt t 0 nt b') /\
    state_ok (Build_state h' no_salt t 0 nt b').
Proof.
  intros Hok Hl H0 E Hn Bd t h'. pose proof Hok as (Hh & Hs & Ht & Hb & Bb). cbn [buf] in Hb, Bb.
  destruct (copy_buf_spec h no_salt [u; w] (bits l) nt b l data n Hn ltac:(lia) Hb Bb Bd) as (b' & C & Hb' & Bb' & F).
  rewrite E, firstn_all2 in F by lia. exists b'.
  assert (state_ok (Build_state h no_salt [u; w] (bits l) nt b')) as Hok'.
  { split; [exact Hh|]. split; [exact Hs|]. split; [exact Ht|]. now split. }
  destruct (count_compress h u w (bits l) nt b' b' Hok' Bb' ltac:(lia)) as [Ec Hok'']. fold t in Ec, Hok''.
  subst h'. rewrite <- F.
  unfold blake256_update. cbn [buflen]. rewrite bits_bytes, fill_word, bits_bytes by lia.
  destruct (Z.eqb_spec (Z.of_nat l) 0); [lia|]. destruct (Z.leb_spec (64 - Z.of_nat l) (Z.of_nat n)); [|lia]. cbn [negb andb].
  rewrite Nat2Z.id. replace (Z.to_nat (64 - Z.of_nat l)) with n by lia. rewrite C. cbn [bind]. rewrite count_block_tick. cbn [bind buf].
  fold t. rewrite Ec. cbn [bind].
  replace (u64 (bits n - Z.shiftl (64 - Z.of_nat l) 3)) with (bits 0) by (rewrite Z.shiftl_mul_pow2, u64_small by lia; lia).
  rewrite update_blocks_small by lia. cbn [bind]. split; [reflexivity|].
  destruct Hok'' as (H1 & H2 & H3 & H4). split; [exact H1|]. split; [exact H2|]. split; [exact H3|]. exact H4.
Qed.

(** ** Messages in several parts *)

Definition full_counter (i : nat) : Z := 512 * (Z.of_nat i + 1).

(** [S] has compressed the full blocks of [full]. *)
Definition digested (iv full : list Z) (S : state) : Prop :=
  state_ok S /\ st_s S = no_salt /\ nullt S = 0 /\
  exists k, length full = (64 * k)%nat /\ st_h S = chain_value full_counter iv full k /\ st_t S = t_words (512 * Z.of_nat k).

(** [S] has received [msg]: full blocks are compressed, the rest is in the buffer. *)
Definition absorbed (iv msg : list Z) (S : state) : Prop :=
  exists full tail, msg = full ++ tail /\ (length tail < 64)%nat /\ digested iv full S /\
    buflen S = bits (length tail) /\ firstn (length tail) (buf S) = tail.

Lemma be_words_firstn block : be_words (firstn 64 block) = be_words block.
Proof.
  unfold be_words. apply map_ext_in. intros i Hi. apply in_seq in Hi. do 2 f_equal.
  rewrite skipn_firstn_comm, firstn_firstn. f_equal. lia.
Qed.

Lemma chain_value_S c iv msg k : chain_value c iv msg (S k) = s_compress no_salt (chain_value c iv msg k) (be_words (block_at msg k)) (c k).
Proof. unfold chain_value. now rewrite seq_S, fold_left_app. Qed.

Lemma chain_value_ext c c' iv msg msg' k :
  (forall i, (i < k)%nat -> c i = c' i /\ block_at msg i = block_at msg' i) -> chain_value c iv msg k = chain_value c' iv msg' k.
Proof.
  induction k as [|k IH]; intros H; [reflexivity|]. rewrite !chain_value_S. destruct (H k ltac:(lia)) as [-> ->].
  rewrite IH; [reflexivity|]. intros i Hi. apply H. lia.
Qed.

Lemma block_at_app a b i : (64 * (i + 1) <= length a)%nat -> block_at (a ++ b) i = block_at a i.
Proof.
  intros H. unfold block_at. rewrite skipn_app, firstn_app, length_skipn.
  replace (64 - (length a - 64 * i))%nat with 0%nat by lia. cbn [firstn]. now rewrite app_nil_r.
Qed.

Lemma block_at_end a b k : length a = (64 * k)%nat -> block_at (a ++ b) k = firstn 64 b.
Proof.
  intros H. unfold block_at. now rewrite skipn_app, H, Nat.sub_diag, skipn_all2 by lia.
Qed.

Lemma s_compress_words h m T :
  s_compress no_salt h m (nth 0 (t_words T) 0 + 2 ^ 32 * nth 1 (t_words T) 0) = s_compress no_salt h m T.
Proof.
  unfold s_compress, t_words. cbn [nth].
  destruct (words_pair (T mod 2 ^ 32) (T / 2 ^ 32 mod 2 ^ 32) (word32_mod _) (word32_mod _)) as [-> ->]. reflexivity.
Qed.

Lemma digest_block iv full S block :
  digested iv full S -> bytes block -> (64 <= length block)%nat ->
  exists S', (let! S := count_block S in blake256_compress S block) = Some S' /\
    digested iv (full ++ firstn 64 block) S' /\ buf S' = buf S.
Proof.
  intros (Hok & Es & En & k & Hk & Eh & Et) Bb Hl. destruct S as [h s t bl nt b]. cbn [st_s nullt st_h st_t buf] in *. subst s nt t h.
  unfold t_words in Hok |- *. rewrite count_block_tick. cbn [bind].
  destruct (count_compress _ _ _ bl 0 b block Hok Bb Hl) as [E Hok']. rewrite E. cbn [Z.eqb] in Hok'.
  eexists. split; [reflexivity|]. split; [|reflexivity]. cbn [Z.eqb].
  pose proof (tick_words (Z.of_nat k) ltac:(lia)) as Tk. cbn [t_words nth] in Tk. rewrite Tk in *.
  split; [exact Hok'|]. split; [reflexivity|]. split; [reflexivity|]. exists (S k).
  split; [rewrite length_app, length_firstn; lia|]. split.
  - cbn [st_h]. rewrite chain_value_S, block_at_end, firstn_firstn, Nat.min_id, be_words_firstn by exact Hk.
    rewrite (chain_value_ext full_counter full_counter iv (full ++ _) full).
    2: { intros i Hi. split; [reflexivity|]. apply block_at_app. lia. }
    exact (s_compress_words _ _ (512 * (Z.of_nat k + 1))).
  - cbn [st_t]. f_equal. lia.
Qed.

Lemma update_blocks_spec iv k r fuel full S data :
  digested iv full S -> bytes data -> length data = (64 * k + r)%nat -> (r < 64)%nat -> (k <= fuel)%nat ->
  exists S', update_blocks fuel S data (bits (64 * k + r)) = Some (S', skipn (64 * k) data, bits r) /\
    digested iv (full ++ firstn (64 * k) data) S' /\ buf S' = buf S.
Proof.
  revert fuel full S data. induction k as [|k IH]; intros fuel full S data HS Bd Hd Hr Hf.
  { exists S. rewrite update_blocks_small by lia. cbn [Nat.mul skipn firstn]. now rewrite app_nil_r. }
  destruct fuel as [|fuel]; [lia|]. cbn [update_blocks]. destruct (Z.leb_spec 512 (bits (64 * Datatypes.S k + r))); [|lia].
  destruct (digest_block iv full S data HS Bd ltac:(lia)) as (S1 & E & H1 & B1).
  destruct (count_block S) as [S0|]; [|discriminate]. cbn [bind] in E |- *. rewrite E. cbn [bind].
  replace (bits (64 * Datatypes.S k + r) - 512) with (bits (64 * k + r)) by lia.
  destruct (IH fuel _ S1 (skipn 64 data) H1 (bytes_skipn _ _ Bd) ltac:(rewrite length_skipn; lia) Hr ltac:(lia)) as (S' & E' & H' & B').
  exists S'. replace (64 * Datatypes.S k)%nat with (64 + 64 * k)%nat by lia. rewrite E', skipn_skipn, (Nat.add_comm (64 * k)). split; [reflexivity|].
  split; [|congruence]. rewrite <- app_assoc in H'. replace (firstn (64 + 64 * k) data) with (firstn 64 data ++ firstn (64 * k) (skipn 64 data)); [exact H'|].
  rewrite <- (firstn_skipn 64 data) at 3. rewrite firstn_app, length_firstn, firstn_firstn.
  replace (Nat.min (64 + 64 * k) 64) with 64%nat by lia. f_equal. f_equal. lia.
Qed.

Lemma digested_fields iv full h s t bl bl' nt b b' :
  digested iv full (Build_state h s t bl nt b) -> length b' = 64%nat -> bytes b' ->
  digested iv full (Build_state h s t bl' nt b').
Proof.
  intros ((H1 & H2 & H3 & _) & Es & En & Hk) Hl Bb. split; [|split; [exact Es | split; [exact En | exact Hk]]].
  split; [exact H1|]. split; [exact H2|]. split; [exact H3|]. now split.
Qed.

(** The part of an update after the buffer is empty or the data too short to fill it. *)
Lemma update_rest iv full tail S data :
  digested iv full S -> firstn (length tail) (buf S) = tail -> bytes data ->
  length tail = O \/ (length tail + length data < 64)%nat /\ (0 < length data)%nat ->
  exists S',
    (let! '(S, data, datalen) := update_blocks (Z.to_nat (bits (length data) / 512)) S data (bits (length data)) in
     if 0 <? datalen then
       let! S := copy_buf S (Z.to_nat (Z.of_nat (length tail))) data (Z.to_nat (Z.shiftr datalen 3)) in
       Some (set_buflen S (to_i32 (u64 (Z.shiftl (Z.of_nat (length tail)) 3 + datalen))))
     else Some (set_buflen S 0)) = Some S' /\ absorbed iv (full ++ tail ++ data) S'.
Proof.
  intros HS Ht Bd Hc. pose proof (Nat.div_mod_eq (length data) 64) as D. pose proof (Nat.mod_upper_bound (length data) 64 ltac:(lia)) as M.
  set (k := (length data / 64)%nat) in *. set (r := (length data mod 64)%nat) in *.
  destruct (update_blocks_spec iv k r (Z.to_nat (bits (length data) / 512)) full S data HS Bd D M) as (S1 & E & H1 & B1).
  { replace 512 with (8 * 64) by lia. rewrite Z.div_mul_cancel_l by lia. change 64 with (Z.of_nat 64).
    rewrite <- Nat2Z.inj_div, Nat2Z.id. reflexivity. }
  rewrite <- D in E. rewrite E. cbn [bind]. destruct S1 as [h s t bl nt b]. cbn [buf] in B1.
  assert (length b = 64%nat /\ bytes b) as [Hb Bb] by (destruct H1 as ((_ & _ & _ & H) & _); exact H).
  destruct (Nat.eq_dec r 0) as [Er|Nr].
  - rewrite Er. cbn [Z.of_nat Z.mul Z.ltb Z.compare]. eexists. split; [reflexivity|].
    assert (tail = []) as -> by (destruct Hc as [Hc|[Hc Hc']]; [now destruct tail | assert (k = 0%nat) by lia; lia]).
    exists (full ++ data), []. rewrite app_nil_r. cbn [app length].
    split; [reflexivity|]. split; [lia|]. split; [|now split].
    rewrite firstn_all2 in H1 by lia. exact (digested_fields _ _ _ _ _ _ _ _ _ _ H1 Hb Bb).
  - destruct (update_tail h s t bl nt b (length tail) (skipn (64 * k) data) r) as (b' & E' & Hb' & Bb' & F).
    + lia.
    + destruct Hc; lia.
    + rewrite length_skipn. lia.
    + exact Hb.
    + exact Bb.
    + now apply bytes_skipn.
    + rewrite E'. eexists. split; [reflexivity|].
      assert (firstn r (skipn (64 * k) data) = skipn (64 * k) data) as F2 by (apply firstn_all2; rewrite length_skipn; lia).
      rewrite B1, Ht, F2 in F.
      assert (length (tail ++ skipn (64 * k) data) = (length tail + r)%nat) as L by (rewrite length_app, length_skipn; lia).
      assert (tail = [] \/ k = O) as Hk by (destruct Hc as [Hc|[Hc Hc']]; [left; now destruct tail | right; lia]).
      exists (full ++ firstn (64 * k) data), (tail ++ skipn (64 * k) data). rewrite L. split; [|split; [|split; [|now split]]].
      * rewrite <- app_assoc. f_equal. destruct Hk as [-> | ->]; [cbn [app]; symmetry; apply firstn_skipn | reflexivity].
      * destruct Hc; lia.
      * exact (digested_fields _ _ _ _ _ _ _ _ _ _ H1 Hb' Bb').
Qed.

Lemma blake256_update_spec iv msg S data :
  absorbed iv msg S -> bytes data -> Z.of_nat (length data) < 2 ^ 61 -> (length data <> 0 \/ length msg mod 64 = 0)%nat ->
  exists S', blake256_update S data (bits (length data)) = Some S' /\ absorbed iv (msg ++ data) S'.
Proof.
  intros (full & tail & -> & Ht & HS & Ebl & Etl) Bd Hd Hne. unfold blake256_update. rewrite Ebl, bits_bytes, fill_word, bits_bytes by exact Ht.
  rewrite <- app_assoc. destruct (Z.eqb_spec (Z.of_nat (length tail)) 0) as [E0|N0]; cbn [negb andb bind].
  { apply update_rest; trivial. left. lia. }
  destruct (Z.leb_spec (64 - Z.of_nat (length tail)) (Z.of_nat (length data))) as [L|L]; cbn [bind].
  2: { apply update_rest; trivial. right. split; [lia|]. destruct Hne as [H|H]; [lia|].
       destruct HS as (_ & _ & _ & k & Hk & _). rewrite length_app, Hk in H.
       replace (64 * k + length tail)%nat with (length tail + k * 64)%nat in H by lia.
       rewrite Nat.Div0.mod_add, Nat.mod_small in H by lia. lia. }
  set (n := (64 - length tail)%nat). assert (Z.to_nat (64 - Z.of_nat (length tail)) = n) as -> by lia. rewrite Nat2Z.id.
  destruct S as [h s t bl nt b]. cbn [buf] in Etl.
  assert (length b = 64%nat /\ bytes b) as [Hb Bb] by (destruct HS as ((_ & _ & _ & H) & _); exact H).
  destruct (copy_buf_spec h s t bl nt b (length tail) data n) as (b' & -> & Hb' & Bb' & F); trivial; [lia | lia |]. cbn [bind].
  rewrite Etl, firstn_all2 in F by lia.
  pose proof (digested_fields _ _ _ _ _ _ bl _ _ _ HS Hb' Bb') as HS'.
  destruct (digest_block iv full _ b' HS' Bb' ltac:(lia)) as (S1 & E & H1 & B1).
  destruct (count_block _) as [S0|] eqn:Ec; [|discriminate]. cbn [bind] in E |- *.
  assert (buf S0 = b') as ->.
  { unfold count_block in Ec. cbn [st_t] in Ec. destruct (nth_error t 0) as [t0|]; [|discriminate]. cbn [bind] in Ec.
    destruct (aset t 0 _) as [t'|]; [|discriminate]. cbn [bind] in Ec. destruct (_ =? 0); [|now injection Ec as <-].
    destruct (nth_error t' 1) as [t1|]; [|discriminate]. cbn [bind] in Ec. destruct (aset t' 1 _); [|discriminate]. now injection Ec as <-. }
  rewrite E. cbn [bind]. rewrite (firstn_all2 b'), F in H1 by lia.
  replace (u64 (bits (length data) - Z.shiftl (64 - Z.of_nat (length tail)) 3)) with (bits (length (skipn n data))).
  2: { rewrite length_skipn, Z.shiftl_mul_pow2, u64_small by lia. lia. }
  destruct (update_rest iv (full ++ tail ++ firstn n data) [] S1 (skipn n data) H1 eq_refl (bytes_skipn _ _ Bd) (or_introl eq_refl)) as (S' & E' & H').
  exists S'. split; [exact E'|]. cbn [app] in H'. now rewrite <- !app_assoc, firstn_skipn in H'.
Qed.

(** ** The end of a message *)

Lemma U32TO8_bytes v : U32TO8 v = rev (le_bytes 4 v).
Proof.
  unfold U32TO8, u8. cbn [le_bytes rev app]. rewrite !Z.shiftr_div_pow2, !Z.div_div by lia. reflexivity.
Qed.

Lemma le_bytes_split v : le_bytes 8 v = le_bytes 4 v ++ le_bytes 4 (v / 2 ^ 32).
Proof. cbn [le_bytes app]. rewrite !Z.div_div by lia. reflexivity. Qed.

Lemma le_bytes_mod n v : le_bytes n (v mod 256 ^ Z.of_nat n) = le_bytes n v.
Proof.
  apply le_val_inj; try apply bytes_le_bytes; [now rewrite !length_le_bytes|]. rewrite !le_val_le_bytes. apply Zmod_mod.
Qed.

Section Final.
Context (k r : nat).
Let u := (512 * Z.of_nat k) mod 2 ^ 32.
Let w := (512 * Z.of_nat k) / 2 ^ 32 mod 2 ^ 32.
Hypothesis Hr64 : (r < 64)%nat.

Lemma u_range : exists a, u = 512 * a /\ 0 <= a < 2 ^ 23.
Proof.
  exists (Z.of_nat k mod 2 ^ 23). split; [|apply Z.mod_pos_bound; lia].
  unfold u. change (2 ^ 32) with (512 * 2 ^ 23). apply Z.mul_mod_distr_l; lia.
Qed.

Lemma total_words (T := bits (64 * k + r)) : T mod 2 ^ 32 = u + bits r /\ T / 2 ^ 32 mod 2 ^ 32 = w.
Proof.
  destruct u_range as (a & Eu & Ha). unfold w, T. pose proof (Z.div_mod (512 * Z.of_nat k) (2 ^ 32) ltac:(lia)) as D.
  fold u in D. set (q := 512 * Z.of_nat k / 2 ^ 32) in *. split.
  - symmetry. apply (Z.mod_unique_pos _ _ q); lia.
  - f_equal. symmetry. apply (Z.div_unique_pos _ _ _ (u + bits r)); lia.
Qed.

(** The counter for a block that ends with [r] bytes of the message. *)
Lemma tick_end d : (0 < r)%nat -> d = 512 - bits r -> 
  let t := tick (u32 (u - d)) w in nth 0 t 0 + 2 ^ 32 * nth 1 t 0 = u + bits r + 2 ^ 32 * w.
Proof.
  intros H -> t. unfold t, tick, u32. destruct u_range as (a & Eu & Ha). rewrite Z.add_mod_idemp_l by lia.
  replace (u - (512 - bits r) + 512) with (u + bits r) by lia. rewrite Z.mod_small by lia.
  destruct (Z.eqb_spec (u + bits r) 0); [lia | reflexivity].
Qed.

Definition length_field : list Z := rev (le_bytes 8 (bits (64 * k + r))).

Lemma length_field_words : U32TO8 w ++ U32TO8 (u + bits r) = length_field.
Proof.
  unfold length_field. rewrite le_bytes_split, rev_app_distr, !U32TO8_bytes. destruct total_words as [E1 E2].
  rewrite <- E1, <- E2. change (2 ^ 32) with (256 ^ Z.of_nat 4). now rewrite !le_bytes_mod.
Qed.

Lemma length_length_field : length length_field = 8%nat.
Proof. unfold length_field. now rewrite length_rev, length_le_bytes. Qed.

Lemma bytes_length_field : bytes length_field.
Proof. apply Forall_rev, bytes_le_bytes. Qed.

Context (h tail b : list Z) (pb : Z).
Hypothesis Hh : length h = 8%nat /\ Forall word32 h.
Hypothesis Hb : length b = 64%nat /\ bytes b.
Hypothesis Htail : firstn r b = tail.

(** The last block, when 56 of its bytes are in the buffer. *)
Lemma final_block h' u' nt b' Y :
  state_ok (Build_state h' no_salt [u'; w] (bits 56) nt b') -> firstn 56 b' = Y ->
  let t := tick (u32 (u' - 64)) w in
  let h'' := s_compress no_salt h' (be_words (Y ++ length_field)) (if nt =? 0 then nth 0 t 0 + 2 ^ 32 * nth 1 t 0 else 0) in
  exists S, (let! S := sub_t0 (Build_state h' no_salt [u'; w] (bits 56) nt b') 64 in
             let! S := blake256_update S length_field 64 in
             let! h := mapM (nth_error (st_h S)) (seq 0 8) in
             Some (S, flat_map U32TO8 h)) = Some (S, flat_map U32TO8 h'') /\ state_ok S.
Proof.
  intros Hok HY t h''. unfold sub_t0. cbn [st_t nth_error bind aset set_t st_h st_s buflen nullt buf].
  assert (state_ok (Build_state h' no_salt [u32 (u' - 64); w] (bits 56) nt b')) as Hok'.
  { destruct Hok as (H1 & H2 & (_ & H3) & H4). split; [exact H1|]. split; [exact H2|]. split; [|exact H4]. split; [reflexivity|].
    cbn [st_t] in *. apply Forall_cons_iff in H3 as [_ H3]. apply Forall_cons; [apply word32_mod | exact H3]. }
  destruct (update_fills h' _ w nt b' 56 length_field 8 Hok') as (b'' & E & Hok''); try lia;
    [now rewrite length_length_field | apply bytes_length_field |].
  change (bits 8) with 64 in E. unfold set_t. cbn [st_h st_s buflen nullt buf]. rewrite E. cbn [bind st_h].
  rewrite HY, (firstn_all2 length_field) by now rewrite length_length_field.
  rewrite HY, (firstn_all2 length_field) in Hok'' by now rewrite length_length_field.
  fold t h'' in Hok'' |- *. exists (Build_state h'' no_salt t 0 nt b''). split; [|exact Hok''].
  assert (mapM (nth_error h'') (seq 0 8) = Some h'') as ->; [|reflexivity].
  destruct Hok'' as ((Hl & _) & _). cbn [st_h] in Hl. clearbody h''.
  do 8 (destruct h'' as [|? h'']; [discriminate|]). destruct h''; [reflexivity | discriminate].
Qed.

Lemma w_word : word32 w.
Proof. apply word32_mod. Qed.

Lemma mid_ok h' u' bl nt b' : length h' = 8%nat /\ Forall word32 h' -> word32 u' -> length b' = 64%nat -> bytes b' ->
  state_ok (Build_state h' no_salt [u'; w] bl nt b').
Proof.
  intros H Hu Hl Bb. split; [exact H|]. split; [|split; [|now split]]; (split; [reflexivity|]).
  - repeat (apply Forall_cons; [unfold word32; lia|]). apply Forall_nil.
  - pose proof w_word. all_words.
Qed.

Lemma u_word : word32 u.
Proof. apply word32_mod. Qed.

Lemma sub_t0_spec h' v bl nt b' n :
  sub_t0 (Build_state h' no_salt [v; w] bl nt b') n = Some (Build_state h' no_salt [u32 (v - n); w] bl nt b').
Proof. reflexivity. Qed.

Lemma u32_sub v m n : u32 (u32 (v - m) - n) = u32 (v - (m + n)).
Proof. unfold u32. rewrite Zminus_mod_idemp_l. f_equal. lia. Qed.

Lemma padding_bytes : bytes padding.
Proof. unfold padding. repeat (apply Forall_cons; [unfold is_byte; lia|]). apply Forall_nil. Qed.

Lemma firstn_zeros n m : (n <= m)%nat -> firstn n (repeat 0 m) = repeat 0 n.
Proof. revert m. induction n as [|n IH]; intros [|m] H; trivial; [lia|]. cbn [repeat firstn]. f_equal. apply IH. lia. Qed.

Lemma firstn_padding n : (n < 64)%nat -> firstn (S n) padding = 0x80 :: repeat 0 n.
Proof. intros H. unfold padding. cbn [firstn]. f_equal. apply firstn_zeros. lia. Qed.

Abbreviation final_state := (Build_state h no_salt [u; w] (bits r) 0 b).

(** The first lines of [blake256_final_h]. *)
Lemma final_length :
  U32TO8 (if u32 (u + bits r) <? u32 (bits r) then u32 (w + 1) else w) ++ U32TO8 (u32 (u + bits r)) = length_field.
Proof.
  destruct u_range as (a & Eu & Ha). unfold u32. rewrite !Z.mod_small by lia.
  destruct (Z.ltb_spec (u + bits r) (bits r)); [lia|]. apply length_field_words.
Qed.

Lemma digest_eq (S : state) h' m m' c c' : m = m' -> c = c' ->
  Some (S, flat_map U32TO8 (s_compress no_salt h' (be_words m) c)) = Some (S, flat_map U32TO8 (s_compress no_salt h' (be_words m') c')).
Proof. now intros -> ->. Qed.

(** One padding byte. *)
Lemma final_one pa : r = 55%nat -> pa = 0x80 + pb -> is_byte pa ->
  exists S, blake256_final_h final_state pa pb =
    Some (S, flat_map U32TO8 (s_compress no_salt h (be_words (tail ++ pad_bits pb 0 ++ length_field)) (u + bits r + 2 ^ 32 * w))).
Proof.
  intros E Ea Ba. unfold blake256_final_h. cbn [st_t nth_error bind buflen]. cbv zeta. rewrite final_length.
  destruct (Z.eqb_spec (bits r) 440); [|lia]. rewrite sub_t0_spec. cbn [bind].
  destruct (update_fits h no_salt [u32 (u - 8); w] 0 b r [pa] 1) as (b' & E1 & Hb' & Bb' & F); try lia; try apply Hb.
  { cbn. lia. }
  { apply Forall_cons; [exact Ba | apply Forall_nil]. }
  change (bits 1) with 8 in E1. rewrite E1. cbn [bind]. rewrite Htail in F. replace (r + 1)%nat with 56%nat in * by lia.
  destruct (final_block h (u32 (u - 8)) 0 b' (tail ++ [pa])) as (S & E2 & _); [apply mid_ok; auto; apply word32_mod | exact F |].
  exists S. rewrite E2. cbn [Z.eqb]. rewrite u32_sub, (tick_end (8 + 64)) by lia. apply digest_eq; [|reflexivity].
  subst pa. now rewrite <- app_assoc.
Qed.

(** The padding ends in the block with the last bytes. *)
Lemma final_same pa : (r < 55)%nat -> is_byte pb ->
  exists S, blake256_final_h final_state pa pb =
    Some (S, flat_map U32TO8 (s_compress no_salt h (be_words (tail ++ pad_bits pb (55 - r) ++ length_field))
      (if (r =? 0)%nat then 0 else u + bits r + 2 ^ 32 * w))).
Proof.
  intros L Bp. unfold blake256_final_h. cbn [st_t nth_error bind buflen]. cbv zeta. rewrite final_length.
  destruct (Z.eqb_spec (bits r) 440); [lia|]. destruct (Z.ltb_spec (bits r) 440); [|lia].
  set (nt := if (r =? 0)%nat then 1 else 0).
  assert ((if bits r =? 0 then set_nullt final_state 1 else final_state) = Build_state h no_salt [u; w] (bits r) nt b) as ->.
  { unfold nt. destruct (Nat.eqb_spec r 0), (Z.eqb_spec (bits r) 0); trivial; lia. }
  cbn [buflen]. rewrite sub_t0_spec. cbn [bind buflen].
  destruct (update_fits h no_salt [u32 (u - (440 - bits r)); w] nt b r padding (55 - r)) as (b' & E1 & Hb' & Bb' & F); try lia; try apply Hb.
  { change (length padding) with 64%nat. lia. }
  { apply padding_bytes. }
  replace (u64 (440 - bits r)) with (bits (55 - r)) by (rewrite u64_small; lia). rewrite E1. cbn [bind].
  rewrite Htail in F. replace (r + (55 - r))%nat with 55%nat in * by lia.
  destruct (update_fits h no_salt [u32 (u - (440 - bits r)); w] nt b' 55 [pb] 1) as (b'' & E2 & Hb'' & Bb'' & F2); try lia; trivial.
  { apply Forall_cons; [exact Bp | apply Forall_nil]. }
  change (bits 1) with 8 in E2. rewrite E2. cbn [bind]. rewrite sub_t0_spec. cbn [bind]. change (55 + 1)%nat with 56%nat in *. rewrite F in F2.
  destruct (final_block h (u32 (u32 (u - (440 - bits r)) - 8)) nt b'' ((tail ++ firstn (55 - r) padding) ++ [pb])) as (S & E3 & _);
    [apply mid_ok; auto; apply word32_mod | exact F2 |].
  exists S. rewrite E3. apply digest_eq.
  - replace (55 - r)%nat with (Datatypes.S (54 - r)) by lia. rewrite firstn_padding by lia. cbn [pad_bits].
    rewrite <- !app_assoc. cbn [app]. now rewrite <- !app_assoc.
  - rewrite !u32_sub. unfold nt. destruct (Nat.eqb_spec r 0); cbn [Z.eqb]; [reflexivity|]. apply tick_end; lia.
Qed.

(** The padding needs another block. *)
Lemma final_next pa : (55 < r)%nat -> is_byte pb ->
  exists S, blake256_final_h final_state pa pb =
    Some (S, flat_map U32TO8 (s_compress no_salt
      (s_compress no_salt h (be_words (tail ++ 0x80 :: repeat 0 (63 - r))) (u + bits r + 2 ^ 32 * w))
      (be_words (repeat 0 55 ++ [pb] ++ length_field)) 0)).
Proof.
  intros L Bp. unfold blake256_final_h. cbn [st_t nth_error bind buflen]. cbv zeta. rewrite final_length.
  destruct (Z.eqb_spec (bits r) 440); [lia|]. destruct (Z.ltb_spec (bits r) 440); [lia|].
  rewrite sub_t0_spec. cbn [bind buflen].
  destruct (update_fills h (u32 (u - (512 - bits r))) w 0 b r padding (64 - r)) as (b' & E1 & Hok1); try lia.
  { apply mid_ok; try apply Hb; [exact Hh | apply word32_mod]. }
  { change (length padding) with 64%nat. lia. }
  { apply padding_bytes. }
  replace (u64 (512 - bits r)) with (bits (64 - r)) by (rewrite u64_small; lia). rewrite E1. cbn [bind].
  cbn [Z.eqb] in *. rewrite tick_end in * by lia. rewrite Htail in *.
  replace (64 - r)%nat with (Datatypes.S (63 - r)) in * by lia. rewrite firstn_padding in * by lia.
  set (h1 := s_compress no_salt h _ _) in *. clearbody h1.
  assert (exists u1, tick (u32 (u - (512 - bits r))) w = [u1; w] /\ word32 u1) as (u1 & Et & Hu1).
  { unfold tick, u32. rewrite Z.add_mod_idemp_l by lia. destruct u_range as (a & Eu & Ha).
    replace (u - (512 - bits r) + 512) with (u + bits r) by lia. rewrite Z.mod_small by lia.
    destruct (Z.eqb_spec (u + bits r) 0); [lia|]. eexists. split; [reflexivity|]. unfold word32. lia. }
  rewrite Et in *. destruct Hok1 as (Hh1 & _ & _ & Hb1 & Bb1). cbn [buf st_h] in *.
  rewrite sub_t0_spec. cbn [bind].
  destruct (update_fits h1 no_salt [u32 (u1 - 440); w] 0 b' 0 (skipn 1 padding) 55) as (b2 & E2 & Hb2 & Bb2 & F2); try lia; trivial.
  { cbn. lia. }
  { apply bytes_skipn, padding_bytes. }
  change (bits 55) with 440 in E2. change (bits 0) with 0 in E2. rewrite E2. cbn [bind]. unfold set_nullt. cbn [st_h st_s st_t buflen buf].
  destruct (update_fits h1 no_salt [u32 (u1 - 440); w] 1 b2 55 [pb] 1) as (b3 & E3 & Hb3 & Bb3 & F3); try lia; trivial.
  { apply Forall_cons; [exact Bp | apply Forall_nil]. }
  change (bits 1) with 8 in E3. change (0 + 55)%nat with 55%nat in *. rewrite E3. cbn [bind]. rewrite sub_t0_spec. cbn [bind].
  change (55 + 1)%nat with 56%nat in *. rewrite F2 in F3. change (firstn 56 b3 = repeat 0 55 ++ [pb]) in F3.
  destruct (final_block h1 (u32 (u32 (u1 - 440) - 8)) 1 b3 (repeat 0 55 ++ [pb])) as (S & E4 & _); [apply mid_ok; auto; apply word32_mod | exact F3 |].
  exists S. rewrite E4. now rewrite <- app_assoc.
Qed.
End Final.

(** ** Hashes *)

Lemma length_pad_bits c z : length (pad_bits c z) = S z.
Proof. destruct z; cbn [pad_bits length]; rewrite ?length_app, ?repeat_length; cbn [length]; lia. Qed.

Lemma chain_value_prefix c c' iv full X k :
  length full = (64 * k)%nat -> (forall i, (i < k)%nat -> c i = c' i) -> chain_value c iv (full ++ X) k = chain_value c' iv full k.
Proof. intros Hl Hc. apply chain_value_ext. intros i Hi. split; [now apply Hc|]. apply block_at_app. lia. Qed.

Lemma s_counter_full n k i : (64 * k <= n)%nat -> (i < k)%nat -> s_counter n i = full_counter i.
Proof. intros Hk Hi. unfold s_counter, full_counter. destruct (Nat.ltb_spec (64 * i) n); [|lia]. rewrite Nat.min_r by lia. lia. Qed.

Section Digest.
Context (iv full tail : list Z) (k : nat) (c : Z).
Hypothesis Hfull : length full = (64 * k)%nat.
Hypothesis Htail : (length tail < 64)%nat.
Let n := (64 * k + length tail)%nat.
Let H := chain_value full_counter iv full k.

Lemma length_msg : length (full ++ tail) = n.
Proof. rewrite length_app, Hfull. reflexivity. Qed.

Lemma msg_mod : (n mod 64)%nat = length tail.
Proof. unfold n. rewrite Nat.add_comm, Nat.mul_comm, Nat.Div0.mod_add. now apply Nat.mod_small. Qed.

Lemma padded_same : (length tail <= 55)%nat ->
  s_blake iv c (full ++ tail) = flat_map (fun v => rev (le_bytes 4 v))
    (s_compress no_salt H (be_words (tail ++ pad_bits c (55 - length tail) ++ length_field k (length tail))) (s_counter n k)).
Proof.
  intros L. unfold s_blake, padded. rewrite length_msg, msg_mod. change (rev (le_bytes 8 (bits n))) with (length_field k (length tail)).
  replace ((119 - length tail) mod 64)%nat with (55 - length tail)%nat.
  2: { replace (119 - length tail)%nat with (55 - length tail + 1 * 64)%nat by lia. rewrite Nat.Div0.mod_add, Nat.mod_small; lia. }
  rewrite <- app_assoc. set (X := tail ++ _).
  assert (length X = 64%nat) as HX by (unfold X; rewrite !length_app, length_pad_bits, length_length_field; lia).
  replace (length (full ++ X) / 64)%nat with (S k).
  2: { rewrite length_app, Hfull, HX. replace (64 * k + 64)%nat with (S k * 64)%nat by lia. symmetry. apply Nat.div_mul. lia. }
  rewrite chain_value_S, block_at_end, firstn_all2 by lia.
  rewrite (chain_value_prefix _ full_counter); trivial. intros i Hi. apply (s_counter_full _ k); [unfold n; lia | exact Hi].
Qed.

Lemma padded_next : (55 < length tail)%nat ->
  s_blake iv c (full ++ tail) = flat_map (fun v => rev (le_bytes 4 v))
    (s_compress no_salt (s_compress no_salt H (be_words (tail ++ 0x80 :: repeat 0 (63 - length tail))) (s_counter n k))
      (be_words (repeat 0 55 ++ [c] ++ length_field k (length tail))) 0).
Proof.
  intros L. unfold s_blake, padded. rewrite length_msg, msg_mod. change (rev (le_bytes 8 (bits n))) with (length_field k (length tail)).
  rewrite Nat.mod_small by lia.
  replace (119 - length tail)%nat with (S (63 - length tail + 55)) by lia. cbn [pad_bits]. rewrite repeat_app.
  replace ((full ++ tail) ++ _) with ((full ++ tail ++ 0x80 :: repeat 0 (63 - length tail)) ++ repeat 0 55 ++ [c] ++ length_field k (length tail)).
  2: { rewrite <- !app_assoc. cbn [app]. now rewrite <- !app_assoc. }
  set (X := tail ++ 0x80 :: _). set (Y := repeat 0 55 ++ _).
  assert (length X = 64%nat) as HX by (unfold X; rewrite length_app; cbn [length]; rewrite repeat_length; lia).
  assert (length Y = 64%nat) as HY by (unfold Y; rewrite !length_app, repeat_length, length_length_field; cbn [length]; lia).
  assert (length (full ++ X) = (64 * S k)%nat) as HF by (rewrite length_app; lia).
  replace (length ((full ++ X) ++ Y) / 64)%nat with (S (S k)).
  2: { rewrite length_app, HF, HY. replace (64 * S k + 64)%nat with (S (S k) * 64)%nat by lia. symmetry. apply Nat.div_mul. lia. }
  rewrite chain_value_S, block_at_end, (firstn_all2 Y) by lia.
  replace (s_counter n (S k)) with 0 by (unfold s_counter; destruct (Nat.ltb_spec (64 * S k) n); [unfold n in *; lia | reflexivity]).
  rewrite (chain_value_prefix _ (s_counter n)) by trivial.
  rewrite chain_value_S, block_at_end, (firstn_all2 X) by lia.
  rewrite (chain_value_prefix _ full_counter); trivial. intros i Hi. apply (s_counter_full _ k); [unfold n; lia | exact Hi].
Qed.
End Digest.

Lemma flat_map_U32TO8 l : flat_map U32TO8 l = flat_map (fun v => rev (le_bytes 4 v)) l.
Proof. apply flat_map_ext. exact U32TO8_bytes. Qed.

(** The counter of the block with the last bytes of the message. *)
Lemma last_counter k r h m : (r < 64)%nat ->
  s_compress no_salt h m (if (r =? 0)%nat then 0 else (512 * Z.of_nat k) mod 2 ^ 32 + bits r + 2 ^ 32 * ((512 * Z.of_nat k) / 2 ^ 32 mod 2 ^ 32)) =
  s_compress no_salt h m (s_counter (64 * k + r) k).
Proof.
  intros Hr. unfold s_counter. destruct (Nat.eqb_spec r 0) as [->|N].
  - destruct (Nat.ltb_spec (64 * k) (64 * k + 0)); [lia | reflexivity].
  - destruct (Nat.ltb_spec (64 * k) (64 * k + r)); [|lia]. rewrite Nat.min_l by lia.
    rewrite <- (s_compress_words h m (bits (64 * k + r))). unfold t_words. cbn [nth].
    destruct (total_words k r Hr) as [-> ->]. reflexivity.
Qed.

Lemma blake256_final_spec iv msg S pa pb :
  absorbed iv msg S -> pa = 0x80 + pb -> is_byte pa -> is_byte pb ->
  exists S', blake256_final_h S pa pb = Some (S', s_blake iv pb msg).
Proof.
  intros (full & tail & -> & Ht & HS & Ebl & Etl) Ea Ba Bb.
  destruct HS as ((Hh & _ & _ & Hb) & Es & En & k & Hk & Eh & Et). destruct S as [h s t bl nt b].
  cbn [st_h st_s st_t buflen nullt buf] in *. subst s nt t bl. unfold t_words.
  destruct (lt_eq_lt_dec (length tail) 55) as [[L|E]|L].
  - destruct (final_same k (length tail) Ht h tail b pb Hh Hb Etl pa L Bb) as (S' & E). exists S'. rewrite E.
    rewrite (padded_same iv full tail k pb Hk Ht) by lia. rewrite flat_map_U32TO8, last_counter, <- Eh by exact Ht. reflexivity.
  - destruct (final_one k (length tail) Ht h tail b pb Hh Hb Etl pa E Ea Ba) as (S' & E'). exists S'. rewrite E'.
    rewrite (padded_same iv full tail k pb Hk Ht) by lia.
    replace (55 - length tail)%nat with 0%nat by lia. rewrite flat_map_U32TO8, <- last_counter, <- Eh by exact Ht.
    destruct (Nat.eqb_spec (length tail) 0); [lia | reflexivity].
  - destruct (final_next k (length tail) Ht h tail b pb Hh Hb Etl pa L Bb) as (S' & E). exists S'. rewrite E.
    rewrite (padded_next iv full tail k pb Hk Ht) by lia. rewrite flat_map_U32TO8, <- last_counter, <- Eh by exact Ht.
    destruct (Nat.eqb_spec (length tail) 0); [lia | reflexivity].
Qed.

(** What an uninitialised structure holds: its buffer has 64 bytes. *)
Definition any_state (S : state) : Prop := length (buf S) = 64%nat /\ bytes (buf S).

Lemma init_absorbed S iv :
  any_state S -> length iv = 8%nat -> Forall word32 iv ->
  absorbed iv [] (Build_state iv no_salt [0; 0] 0 0 (buf S)).
Proof.
  intros [Hb Bb] Hl Hw. exists [], []. split; [reflexivity|]. split; [cbn; lia|]. split; [|now split].
  assert (Forall word32 no_salt /\ Forall word32 [0; 0]) as [F1 F2].
  { split; repeat (apply Forall_cons; [unfold word32; lia|]); apply Forall_nil. }
  split; [repeat split; assumption|]. split; [reflexivity|]. split; [reflexivity|]. exists O. now repeat split.
Qed.

Lemma iv256_words : length iv256 = 8%nat /\ Forall word32 iv256.
Proof. split; [reflexivity|]. repeat (apply Forall_cons; [unfold word32; lia|]). apply Forall_nil. Qed.

Lemma iv224_words : length iv224 = 8%nat /\ Forall word32 iv224.
Proof. split; [reflexivity|]. repeat (apply Forall_cons; [unfold word32; lia|]). apply Forall_nil. Qed.

Lemma blake256_init_absorbed S : any_state S -> absorbed iv256 [] (blake256_init S).
Proof. intros HS. now apply (init_absorbed S iv256 HS); apply iv256_words. Qed.

Lemma blake224_init_absorbed S : any_state S -> absorbed iv224 [] (blake224_init S).
Proof. intros HS. now apply (init_absorbed S iv224 HS); apply iv224_words. Qed.

(** Calls of [blake256_update], one for each part of a message. *)
Definition update_all (S : state) (parts : list (list Z)) : option state :=
  foldM (fun S p => blake256_update S p (bits (length p))) parts S.

Definition message_part (p : list Z) : Prop := bytes p /\ Z.of_nat (length p) < 2 ^ 61.

Lemma update_all_spec iv msg S parts :
  absorbed iv msg S -> Forall message_part parts -> Forall (fun p => p <> []) parts ->
  exists S', update_all S parts = Some S' /\ absorbed iv (msg ++ concat parts) S'.
Proof.
  unfold update_all. revert msg S. induction parts as [|p parts IH]; intros msg S HS Hp Hn; cbn [foldM concat].
  { exists S. now rewrite app_nil_r. }
  apply Forall_cons_iff in Hp as [[Bp Lp] Hp]. apply Forall_cons_iff in Hn as [Np Hn].
  destruct (blake256_update_spec iv msg S p HS Bp Lp) as (S1 & -> & H1); [left; destruct p; [elim Np; reflexivity | discriminate]|].
  cbn [bind]. rewrite app_assoc. now apply IH.
Qed.

Lemma final256 iv msg S : absorbed iv msg S -> exists S', blake256_final S = Some (S', s_blake iv 1 msg).
Proof. intros HS. apply blake256_final_spec; trivial; unfold is_byte; lia. Qed.

Lemma final224 iv msg S : absorbed iv msg S -> exists S', blake224_final S = Some (S', s_blake iv 0 msg).
Proof. intros HS. apply blake256_final_spec; trivial; unfold is_byte; lia. Qed.

Lemma bits_u64 (n : nat) : Z.of_nat n < 2 ^ 61 -> u64 (Z.of_nat n * 8) = bits n.
Proof. intros H. rewrite u64_small; lia. Qed.

Lemma blake256_hash_spec S msg :
  any_state S -> message_part msg -> blake256_hash S msg (Z.of_nat (length msg)) = Some (s_blake256 msg).
Proof.
  intros HS [Bm Lm]. unfold blake256_hash. rewrite bits_u64 by exact Lm.
  destruct (blake256_update_spec iv256 [] (blake256_init S) msg) as (S1 & -> & H1); auto using blake256_init_absorbed.
  cbn [bind]. destruct (final256 _ _ _ H1) as (S2 & ->). reflexivity.
Qed.

Lemma blake224_hash_spec S msg :
  any_state S -> message_part msg -> blake224_hash S msg (Z.of_nat (length msg)) = Some (s_blake iv224 0 msg).
Proof.
  intros HS [Bm Lm]. unfold blake224_hash, blake224_update. rewrite bits_u64 by exact Lm.
  destruct (blake256_update_spec iv224 [] (blake224_init S) msg) as (S1 & -> & H1); auto using blake224_init_absorbed.
  cbn [bind]. destruct (final224 _ _ _ H1) as (S2 & ->). reflexivity.
Qed.

(** ** HMAC *)

(** HMAC of RFC 2104 for blocks of 64 bytes, after the step that makes long keys short. *)
Definition s_hmac_short (H : list Z -> list Z) (key msg : list Z) : list Z :=
  let pad c := xor_list (key ++ repeat 0 (64 - length key)) (repeat c 64) in
  H (pad 0x5c ++ H (pad 0x36 ++ msg)).
Definition s_hmac (H : list Z -> list Z) (key msg : list Z) : list Z :=
  s_hmac_short H (if (64 <? length key)%nat then H key else key) msg.

Lemma nth_xor_list a b i : (i < length a)%nat -> (i < length b)%nat -> nth i (xor_list a b) 0 = Z.lxor (nth i a 0) (nth i b 0).
Proof.
  revert b i. induction a as [|x a IH]; intros [|y b] i Ha Hb; cbn [length] in *; try lia.
  destruct i as [|i]; [reflexivity|]. exact (IH b i ltac:(lia) ltac:(lia)).
Qed.

Lemma nth_repeat_lt (c : Z) n i : (i < n)%nat -> nth i (repeat c n) 0 = c.
Proof. intros H. rewrite (nth_indep _ 0 c) by now rewrite repeat_length. apply nth_repeat. Qed.

Lemma key_pad_spec c key :
  (length key <= 64)%nat ->
  key_pad c key (Z.of_nat (length key)) = Some (xor_list (key ++ repeat 0 (64 - length key)) (repeat c 64)).
Proof.
  intros Hl. unfold key_pad. rewrite Nat2Z.id. apply returns_eq. eapply returns_weaken.
  - apply (foldM_seq (fun i pad => length pad = 64%nat /\
      forall j, (j < 64)%nat -> nth j pad 0 = if (j <? i)%nat then Z.lxor c (nth j key 0) else c)).
    + split; [reflexivity|]. intros j Hj. now apply nth_repeat_lt.
    + intros i pad Hi [Hp Hn]. unfold xor_at.
      rewrite (nth_error_nth' pad 0), (nth_error_nth' key 0) by lia. cbn [bind].
      pose proof (aset_spec pad i (Z.lxor (nth i pad 0) (nth i key 0)) 0 ltac:(lia)) as A.
      eapply returns_weaken; [exact A|]. cbv beta. intros pad' [Hl' Hn']. split; [lia|]. intros j Hj.
      rewrite Hn' by lia. destruct (Nat.eqb_spec j i) as [->|N].
      * rewrite Hn by lia. rewrite Nat.ltb_irrefl. destruct (Nat.ltb_spec i (S i)); [reflexivity | lia].
      * rewrite Hn by lia. destruct (Nat.ltb_spec j i), (Nat.ltb_spec j (S i)); trivial; lia.
  - cbv beta. cbn [Nat.add]. intros pad [Hp Hn].
    apply (nth_ext _ _ 0 0).
    { rewrite length_xor_list, length_app, !repeat_length. lia. }
    intros j Hj. rewrite nth_xor_list, (nth_repeat_lt c), Hn by (rewrite ?length_app, ?repeat_length; lia).
    rewrite Z.lxor_comm. destruct (Nat.ltb_spec j (length key)).
    + now rewrite app_nth1 by lia.
    + rewrite app_nth2, nth_repeat_lt by lia. reflexivity.
Qed.

Lemma length_s_compress h m t : length h = 8%nat -> length (s_compress no_salt h m t) = 8%nat.
Proof.
  intros Hh. unfold s_compress. cbv zeta. rewrite !length_xor_list, Hh, length_firstn, length_skipn. set (v := matrix _). clearbody v.
  enough (length (concat (fold_left (s_blake_round m) (seq 0 14) v)) = 16%nat) as -> by reflexivity.
  rewrite seq_S, fold_left_app. set (v' := fold_left _ _ v). clearbody v'. cbn [fold_left]. unfold s_blake_round, s_columns.
  generalize (s_G m) as g. reflexivity.
Qed.

Lemma length_chain c iv msg k : length iv = 8%nat -> length (chain_value c iv msg k) = 8%nat.
Proof. intros Hi. induction k as [|k IH]; [exact Hi|]. rewrite chain_value_S. now apply length_s_compress. Qed.

Lemma s_blake_digest iv c msg : length iv = 8%nat -> length (s_blake iv c msg) = 32%nat /\ bytes (s_blake iv c msg).
Proof.
  intros Hi. unfold s_blake. generalize (length_chain (s_counter (length msg)) iv (padded c msg) (length (padded c msg) / 64) Hi).
  generalize (chain_value (s_counter (length msg)) iv (padded c msg) (length (padded c msg) / 64)) as h. intros h Hh. split.
  - do 8 (destruct h as [|? h]; [discriminate|]). destruct h; [reflexivity | discriminate].
  - apply Forall_forall. intros x Hx. apply in_flat_map in Hx as (v & _ & Hx). apply in_rev in Hx.
    exact (proj1 (Forall_forall _ _) (bytes_le_bytes 4 v) _ Hx).
Qed.

Lemma is_byte_lxor a c : is_byte a -> is_byte c -> is_byte (Z.lxor a c).
Proof.
  unfold is_byte. intros Ha Hc. pose proof (lxor_mod a c 8 ltac:(lia)) as E.
  rewrite (Z.mod_small a), (Z.mod_small c) in E by lia. rewrite <- E. now apply Z.mod_pos_bound.
Qed.

Lemma bytes_xor_list a c : bytes a -> bytes c -> bytes (xor_list a c).
Proof.
  intros Ha. revert c. induction Ha as [|x a Hx Ha IH]; intros [|y c] Hc; try apply Forall_nil.
  apply Forall_cons_iff in Hc as [Hy Hc]. apply Forall_cons; [now apply is_byte_lxor | now apply IH].
Qed.

Lemma bytes_repeat x n : is_byte x -> bytes (repeat x n).
Proof. intros Hx. apply Forall_forall. intros y Hy. now apply repeat_spec in Hy as ->. Qed.

(** The block that the key makes. *)
Definition pad_block (key : list Z) (x : Z) : list Z := xor_list (key ++ repeat 0 (64 - length key)) (repeat x 64).

Lemma pad_block_ok key x : bytes key -> (length key <= 64)%nat -> is_byte x ->
  length (pad_block key x) = 64%nat /\ bytes (pad_block key x).
Proof.
  intros Bk Hl Hx. unfold pad_block. split; [rewrite length_xor_list, length_app, !repeat_length; lia|].
  apply bytes_xor_list; [|now apply bytes_repeat]. apply bytes_app; [exact Bk|]. apply bytes_repeat. unfold is_byte. lia.
Qed.

Lemma pad_block_mod key x : (length key <= 64)%nat -> (length (pad_block key x) mod 64 = 0)%nat.
Proof.
  intros Hl. unfold pad_block. rewrite length_xor_list, length_app, !repeat_length.
  now replace (length key + (64 - length key))%nat with 64%nat by lia.
Qed.

(** The state after the block of the key. *)
Lemma absorb_pad iv key x S :
  absorbed iv [] S -> bytes key -> (length key <= 64)%nat -> is_byte x ->
  exists S', (let! pad := key_pad x key (Z.of_nat (length key)) in blake256_update S pad 512) = Some S' /\
    absorbed iv (pad_block key x) S'.
Proof.
  intros HS Bk Hl Hx. destruct (pad_block_ok key x Bk Hl Hx) as [Lp Bp]. rewrite key_pad_spec by exact Hl. cbn [bind].
  fold (pad_block key x). destruct (blake256_update_spec iv [] S (pad_block key x) HS Bp) as (S' & E & H'); [lia | now right |].
  rewrite Lp in E. exists S'. now split.
Qed.

(** Appending a part of an array to a message that ends with a block. *)
Lemma update_prefix iv msg S data n :
  absorbed iv msg S -> (length msg mod 64 = 0)%nat -> (0 < n < 64)%nat -> (n <= length data)%nat -> bytes data ->
  exists S', blake256_update S data (bits n) = Some S' /\ absorbed iv (msg ++ firstn n data) S'.
Proof.
  intros (full & tail & -> & Ht & HS & Ebl & Etl) Hm Hn Hd Bd.
  assert (tail = []) as ->.
  { destruct HS as (_ & _ & _ & k & Hk & _). rewrite length_app, Hk, Nat.add_comm, Nat.mul_comm, Nat.Div0.mod_add, Nat.mod_small in Hm by exact Ht.
    now destruct tail. }
  rewrite app_nil_r in *. destruct S as [h s t bl nt b]. cbn [buflen length] in Ebl. subst bl.
  assert (length b = 64%nat /\ bytes b) as [Hb Bb] by (destruct HS as ((_ & _ & _ & H) & _); exact H).
  destruct (update_fits h s t nt b 0 data n ltac:(lia) ltac:(lia) Hd Hb Bb Bd) as (b' & E & Hb' & Bb' & F).
  eexists. split; [exact E|]. cbn [firstn app Nat.add] in *. exists full, (firstn n data).
  rewrite firstn_length_le by exact Hd. split; [reflexivity|]. split; [lia|]. split; [|now split].
  exact (digested_fields _ _ _ _ _ _ _ _ _ _ HS Hb' Bb').
Qed.

(** Both structures after the initialisation with a short key. *)
Definition keyed (iv key : list Z) (S : hmac_state) : Prop :=
  absorbed iv (pad_block key 0x36) (inner S) /\ absorbed iv (pad_block key 0x5c) (outer S).

Lemma init_keyed iv key i o :
  absorbed iv [] i -> absorbed iv [] o -> bytes key -> (length key <= 64)%nat ->
  exists S, (let! pad := key_pad 0x36 key (Z.of_nat (length key)) in
             let! i := blake256_update i pad 512 in
             let! pad := key_pad 0x5c key (Z.of_nat (length key)) in
             let! o := blake256_update o pad 512 in
             Some {| inner := i; outer := o |}) = Some S /\ keyed iv key S.
Proof.
  intros Hi Ho Bk Hl.
  destruct (absorb_pad iv key 0x36 i Hi Bk Hl ltac:(unfold is_byte; lia)) as (i' & Ei & Hi').
  destruct (absorb_pad iv key 0x5c o Ho Bk Hl ltac:(unfold is_byte; lia)) as (o' & Eo & Ho').
  destruct (key_pad 0x36 key _) as [p1|]; [|discriminate]. destruct (key_pad 0x5c key _) as [p2|]; [|discriminate].
  cbn [bind] in *. rewrite Ei. cbn [bind]. rewrite Eo. cbn [bind]. eexists. split; [reflexivity|]. now split.
Qed.

Definition any_hmac (S : hmac_state) : Prop := any_state (inner S) /\ any_state (outer S).

Lemma hmac_blake256_init_spec S L key :
  any_hmac S -> any_state L -> message_part key ->
  exists S', hmac_blake256_init S L key (Z.of_nat (length key)) = Some S' /\
    keyed iv256 (if (64 <? length key)%nat then s_blake256 key else key) S'.
Proof.
  intros [Hi Ho] HL [Bk Lk]. unfold hmac_blake256_init.
  pose proof (blake256_init_absorbed _ Hi) as Ai. pose proof (blake256_init_absorbed _ Ho) as Ao.
  destruct (Nat.ltb_spec 64 (length key)) as [G64|L64], (Z.ltb_spec 64 (Z.of_nat (length key))); try lia; cbn [bind].
  - rewrite blake256_hash_spec by (trivial; now split). cbn [bind].
    destruct (s_blake_digest iv256 1 key eq_refl) as [Ld Bd]. fold s_blake256 in Ld, Bd.
    replace 32 with (Z.of_nat (length (s_blake256 key))) by now rewrite Ld.
    apply init_keyed; trivial. rewrite Ld. lia.
  - now apply init_keyed.
Qed.

(** The long key is hashed with BLAKE-256 also here. *)
Lemma hmac_blake224_init_spec S L key :
  any_hmac S -> any_state L -> message_part key ->
  exists S', hmac_blake224_init S L key (Z.of_nat (length key)) = Some S' /\
    keyed iv224 (if (64 <? length key)%nat then firstn 28 (s_blake256 key) else key) S'.
Proof.
  intros [Hi Ho] HL [Bk Lk]. unfold hmac_blake224_init, blake224_update.
  pose proof (blake224_init_absorbed _ Hi) as Ai. pose proof (blake224_init_absorbed _ Ho) as Ao.
  destruct (Nat.ltb_spec 64 (length key)) as [G64|L64], (Z.ltb_spec 64 (Z.of_nat (length key))); try lia; cbn [bind].
  - rewrite blake256_hash_spec by (trivial; now split). cbn [bind].
    destruct (s_blake_digest iv256 1 key eq_refl) as [Ld Bd]. fold s_blake256 in *. generalize dependent (s_blake256 key). intros d Ld Bd.
    assert (length (firstn 28 d) = 28%nat) as L28 by (rewrite length_firstn, Ld; reflexivity).
    assert (forall x, key_pad x d 28 = key_pad x (firstn 28 d) (Z.of_nat (length (firstn 28 d)))) as EK.
    { intros x. rewrite L28. unfold key_pad. change (Z.to_nat 28) with 28%nat. rewrite Nat2Z.id.
      do 32 (destruct d as [|? d]; [discriminate|]). reflexivity. }
    rewrite !EK. apply init_keyed; auto using bytes_firstn. lia.
  - now apply init_keyed.
Qed.

Lemma hmac_blake256_hash_spec S L key msg :
  any_hmac S -> any_state L -> message_part key -> message_part msg ->
  hmac_blake256_hash S L key (Z.of_nat (length key)) msg (Z.of_nat (length msg)) = Some (s_hmac s_blake256 key msg).
Proof.
  intros HS HL Hk [Bm Lm]. unfold hmac_blake256_hash, s_hmac.
  destruct (hmac_blake256_init_spec S L key HS HL Hk) as (S1 & -> & Hi & Ho). cbn [bind].
  set (k := if (64 <? length key)%nat then s_blake256 key else key) in *.
  assert (length k <= 64)%nat as Lk.
  { unfold k. destruct (Nat.ltb_spec 64 (length key)); [|assumption]. unfold s_blake256. rewrite (proj1 (s_blake_digest iv256 1 key eq_refl)). lia. }
  pose proof (pad_block_mod k 0x36 Lk) as M1. pose proof (pad_block_mod k 0x5c Lk) as M2.
  rewrite bits_u64 by exact Lm. unfold hmac_blake256_update.
  destruct (blake256_update_spec _ _ _ msg Hi Bm Lm (or_intror M1)) as (i & -> & Hi'). cbn [bind]. unfold hmac_blake256_final. cbn [inner outer].
  destruct (final256 _ _ _ Hi') as (i' & ->). cbn [bind].
  destruct (s_blake_digest iv256 1 (pad_block k 0x36 ++ msg) eq_refl) as [Ld Bd].
  destruct (blake256_update_spec _ _ _ (s_blake iv256 1 (pad_block k 0x36 ++ msg)) Ho Bd) as (o & Eo & Ho'); [rewrite Ld; lia | now right |].
  rewrite Ld in Eo. change (bits 32) with 256 in Eo. rewrite Eo. cbn [bind].
  destruct (final256 _ _ _ Ho') as (o' & ->). reflexivity.
Qed.

(** The 32 bytes that are written; the hash is the first 28. *)
Lemma hmac_blake224_hash_spec S L key msg (k := if (64 <? length key)%nat then firstn 28 (s_blake256 key) else key) :
  any_hmac S -> any_state L -> message_part key -> message_part msg ->
  exists out, hmac_blake224_hash S L key (Z.of_nat (length key)) msg (Z.of_nat (length msg)) = Some out /\
    length out = 32%nat /\ firstn 28 out = s_hmac_short s_blake224 k msg.
Proof.
  intros HS HL Hk [Bm Lm]. unfold hmac_blake224_hash.
  destruct (hmac_blake224_init_spec S L key HS HL Hk) as (S1 & -> & Hi & Ho). cbn [bind]. fold k in Hi, Ho.
  assert (length k <= 64)%nat as Lk.
  { unfold k. destruct (Nat.ltb_spec 64 (length key)); [|assumption]. rewrite length_firstn. lia. }
  pose proof (pad_block_mod k 0x36 Lk) as M1. pose proof (pad_block_mod k 0x5c Lk) as M2.
  rewrite bits_u64 by exact Lm. unfold hmac_blake224_update, blake224_update.
  destruct (blake256_update_spec _ _ _ msg Hi Bm Lm (or_intror M1)) as (i & -> & Hi'). cbn [bind]. unfold hmac_blake224_final, blake224_update. cbn [inner outer].
  destruct (final224 _ _ _ Hi') as (i' & ->). cbn [bind].
  destruct (s_blake_digest iv224 0 (pad_block k 0x36 ++ msg) eq_refl) as [Ld Bd].
  destruct (update_prefix _ _ _ (s_blake iv224 0 (pad_block k 0x36 ++ msg)) 28 Ho M2) as (o & Eo & Ho'); [lia | rewrite Ld; lia | exact Bd |].
  change (bits 28) with 224 in Eo. rewrite Eo. cbn [bind].
  destruct (final224 _ _ _ Ho') as (o' & ->). cbn [bind]. eexists. split; [reflexivity|].
  split; [exact (proj1 (s_blake_digest iv224 0 _ eq_refl)) | reflexivity].
Qed.

(** ** Correctness *)

(** C36: A message given to [blake256_update] in any number of nonempty parts, between [blake256_init] and
    [blake256_final], and a message given to [hash_extra_blake] at once, are hashed to the value of BLAKE-256:
    the padded message, in blocks that are compressed by rounds on the columns and the diagonals of a matrix
    with the number of message bits so far as counter (none for a block of padding only). The arrays that the
    code does not initialise have no influence. *)
Theorem blake256_correct S parts msg :
  any_state S -> Forall message_part parts -> Forall (fun p => p <> []) parts -> message_part msg ->
  (exists S', (let! S := update_all (blake256_init S) parts in blake256_final S) = Some (S', s_blake256 (concat parts))) /\
  hash_extra_blake S msg (Z.of_nat (length msg)) = Some (s_blake256 msg).
Proof.
  intros HS Hp Hn Hm. split; [|now apply blake256_hash_spec].
  destruct (update_all_spec iv256 [] _ parts (blake256_init_absorbed S HS) Hp Hn) as (S' & -> & H). cbn [bind].
  now apply final256.
Qed.

Definition some_state : state := {| st_h := []; st_s := []; st_t := []; buflen := 7; nullt := 5; buf := repeat 1 64 |}.

Lemma some_state_any : any_state some_state.
Proof. split; [reflexivity|]. apply bytes_repeat. unfold is_byte. lia. Qed.

Lemma zeros_part n : Z.of_nat n < 2 ^ 61 -> message_part (repeat 0 n).
Proof. intros H. split; [apply bytes_repeat; unfold is_byte; lia | now rewrite repeat_length]. Qed.

(** The published hash of one zero byte, and 144 zero bytes in three parts. *)
Lemma blake256_correct_witness :
  hash_extra_blake some_state [0] 1 = Some
    [0x0c; 0xe8; 0xd4; 0xef; 0x4d; 0xd7; 0xcd; 0x8d; 0x62; 0xdf; 0xde; 0xd9; 0xd4; 0xed; 0xb0; 0xa7;
     0x74; 0xae; 0x6a; 0x41; 0x92; 0x9a; 0x74; 0xda; 0x23; 0x10; 0x9e; 0x8f; 0x11; 0x13; 0x9c; 0x87] /\
  exists S', (let! S := update_all (blake256_init some_state) [repeat 0 60; repeat 0 80; repeat 0 4] in blake256_final S) =
    Some (S', s_blake256 (concat [repeat 0 60; repeat 0 80; repeat 0 4])).
Proof.
  split; [vm_compute; reflexivity|].
  refine (proj1 (blake256_correct some_state [repeat 0 60; repeat 0 80; repeat 0 4] (repeat 0 1) some_state_any _ _ (zeros_part 1 _))).
  - repeat (apply Forall_cons; [apply zeros_part; lia|]). apply Forall_nil.
  - repeat (apply Forall_cons; [discriminate|]). apply Forall_nil.
  - lia.
Defined.

(** HMAC over BLAKE-256 is that of RFC 2104 for keys and messages of any length, and HMAC over
    BLAKE-224 for keys of at most a block. *)
Theorem hmac_blake_correct S L key msg :
  any_hmac S -> any_state L -> message_part key -> message_part msg ->
  hmac_blake256_hash S L key (Z.of_nat (length key)) msg (Z.of_nat (length msg)) = Some (s_hmac s_blake256 key msg) /\
  ((length key <= 64)%nat -> exists out,
    hmac_blake224_hash S L key (Z.of_nat (length key)) msg (Z.of_nat (length msg)) = Some out /\
    length out = 32%nat /\ firstn 28 out = s_hmac s_blake224 key msg).
Proof.
  intros HS HL Hk Hm. split; [now apply hmac_blake256_hash_spec|]. intros Hl.
  destruct (hmac_blake224_hash_spec S L key msg HS HL Hk Hm) as (out & E & L' & F). exists out. split; [exact E|]. split; [exact L'|].
  rewrite F. unfold s_hmac. destruct (Nat.ltb_spec 64 (length key)); [lia | reflexivity].
Qed.

(** A longer key is hashed with BLAKE-256 in place of BLAKE-224: the result is not the HMAC of RFC 2104. *)
Theorem hmac_blake224_long_key :
  exists out, hmac_blake224_hash {| inner := some_state; outer := some_state |} some_state (repeat 0 65) 65 [] 0 = Some out /\
    firstn 28 out <> s_hmac s_blake224 (repeat 0 65) [].
Proof. eexists. split; [vm_compute; reflexivity|]. vm_compute. discriminate. Qed.

(** An update with no data discards the bytes that wait in the buffer: the hash after it is not the one of the message. *)
Theorem update_empty_discards :
  exists S S' h, blake256_update (blake256_init some_state) [1; 2; 3] 24 = Some S /\ blake256_update S [] 0 = Some S' /\
    blake256_final S' = Some h /\ snd h = s_blake256 [] /\ snd h <> s_blake256 [1; 2; 3].
Proof.
  do 3 eexists. split; [vm_compute; reflexivity|]. split; [vm_compute; reflexivity|]. split; [vm_compute; reflexivity|].
  split; [vm_compute; reflexivity|]. vm_compute. discriminate.
Qed.
