(* ===== verification/Base58.v ===== *)
(** * Base58 strings and addresses

    Models base58.cpp of src/common: the alphabet and the reverse tables, blocks of up to 8
    bytes as up to 11 characters, strings, and tagged data with a checksum
    ([encode_addr], [decode_addr]), on top of the variable-length integers and of
    [cn_fast_hash] (class [FastHash]). Strings are lists of bytes. A function that returns
    [false] gives [None] inside; around it, [None] is a failed assertion or an access
    outside an array. *)

From Stdlib Require Import ZArith Lia List Bool Ascii String.
From S2P Require Import Prelude Bytes Keccak TreeHash Varint IntUtil.
Import ListNotations.

#[local] Open Scope Z_scope.
#[local] Open Scope list_scope.
#[local] Abbreviation length := List.length.

(** ** The code *)

Definition alphabet : list Z :=
  map (fun c => Z.of_N (N_of_ascii c))
    (list_ascii_of_string "123456789ABCDEFGHJKLMNPQRSTUVWXYZabcdefghijkmnopqrstuvwxyz").

Definition alphabet_size : Z := 58.
Definition encoded_block_sizes : list nat := [0; 2; 3; 5; 6; 7; 9; 10; 11]%nat.
Definition full_block_size : nat := 8.
Definition full_encoded_block_size : nat := 11.
Definition addr_checksum_size : nat := 4.

(** [alphabet[0]] *)
Definition alphabet_0 : Z := 49.

(** The constructor of [reverse_alphabet]: its [m_data]. *)
Definition reverse_alphabet_data : option (list Z) :=
  let! last := nth_error alphabet (Z.to_nat (alphabet_size - 1)) in
  foldM (fun m_data i =>
      let! a := nth_error alphabet i in
      let idx := u64 (a - alphabet_0) in
      aset m_data (Z.to_nat idx) (Z.of_nat i))
    (seq 0 (Z.to_nat alphabet_size)) (repeat (-1) (Z.to_nat (last - alphabet_0 + 1))).

(** [operator()]: the argument is a [char]. *)
Definition reverse_alphabet (letter : Z) : option Z :=
  let! m_data := reverse_alphabet_data in
  let idx := u64 (to_i8 letter - alphabet_0) in
  if idx <? Z.of_nat (length m_data) then nth_error m_data (Z.to_nat idx) else Some (-1).

(** The constructor of [decoded_block_sizes]. *)
Definition decoded_block_sizes_data : option (list Z) :=
  foldM (fun m_data i =>
      let! s := nth_error encoded_block_sizes i in
      aset m_data s (Z.of_nat i))
    (seq 0 (full_block_size + 1)) (repeat (-1) (full_encoded_block_size + 1)).

Definition decoded_block_sizes (encoded_block_size : nat) : option Z :=
  let! m_data := decoded_block_sizes_data in
  let! _ := cassert (encoded_block_size <=? full_encoded_block_size)%nat in
  nth_error m_data encoded_block_size.

(** The cases of the [switch] fall through: one byte after the other, most significant first. *)
Definition uint_8be_to_64 (data : list Z) (size : nat) : option Z :=
  let! _ := cassert ((1 <=? size) && (size <=? 8))%nat in
  foldM (fun res i => let! b := nth_error data i in Some (Z.lor (u64 (Z.shiftl res 8)) b)) (seq 0 size) 0.

(** The bytes written to [data]. *)
Definition uint_64_to_8be (num : Z) (size : nat) : option (list Z) :=
  let! _ := cassert ((1 <=? size) && (size <=? 8))%nat in
  let num_be := SWAP64 num in
  Some (firstn size (skipn (8 - size) (le_bytes 8 num_be))).

(** [while (0 < num) { ... res[i] = alphabet[remainder]; --i; }] *)
Fixpoint encode_loop (fuel : nat) (num i : Z) (res : list Z) : option (list Z) :=
  if 0 <? num then
    match fuel with
    | O => None
    | S fuel =>
        let remainder := num mod alphabet_size in
        let num := num / alphabet_size in
        let! a := nth_error alphabet (Z.to_nat remainder) in
        let! _ := cassert (0 <=? i) in
        let! res := aset res (Z.to_nat i) a in
        encode_loop fuel num (i - 1) res
    end
  else Some res.

(** [res] is the part of the result that the block is written to. A word has at most 11 digits. *)
Definition encode_block (block : list Z) (size : nat) (res : list Z) : option (list Z) :=
  let! _ := cassert ((1 <=? size) && (size <=? full_block_size))%nat in
  let! num := uint_8be_to_64 block size in
  let! s := nth_error encoded_block_sizes size in
  encode_loop 11 num (Z.of_nat s - 1) res.

(** The loop of [decode_block] over the characters from the last to the first; [Some None] is
    [return false]. *)
Fixpoint decode_loop (chars : list Z) (res_num order : Z) : option (option Z) :=
  match chars with
  | [] => Some (Some res_num)
  | c :: chars =>
      let! digit := reverse_alphabet c in
      if digit <? 0 then Some None
      else
        let! '(product_lo, product_hi) := mul128 order digit in
        let tmp := u64 (res_num + product_lo) in
        if (tmp <? res_num) || negb (0 =? product_hi) then Some None
        else decode_loop chars tmp (u64 (order * alphabet_size))
  end.

Definition decode_block (block : list Z) (size : nat) : option (option (list Z)) :=
  let! _ := cassert ((1 <=? size) && (size <=? full_encoded_block_size))%nat in
  let! res_size := decoded_block_sizes size in
  if res_size <=? 0 then Some None
  else
    let! r := decode_loop (rev (firstn size block)) 0 1 in
    match r with
    | None => Some None
    | Some res_num =>
        if (res_size <? Z.of_nat full_block_size) && (u64 (Z.shiftl 1 (8 * res_size)) <=? res_num) then Some None
        else
          let! res := uint_64_to_8be res_num (Z.to_nat res_size) in
          Some (Some res)
    end.

(** The full blocks, in order, then the last one. *)
Fixpoint encode_blocks (count : nat) (data : list Z) : option (list Z) :=
  match count with
  | O =>
      let last_block_size := length data in
      if (0 <? last_block_size)%nat then
        let! s := nth_error encoded_block_sizes last_block_size in
        encode_block data last_block_size (repeat alphabet_0 s)
      else Some []
  | S count =>
      let! b := encode_block data full_block_size (repeat alphabet_0 full_encoded_block_size) in
      let! rest := encode_blocks count (skipn full_block_size data) in
      Some (b ++ rest)
  end.

Definition encode (data : list Z) : option (list Z) :=
  if (length data =? 0)%nat then Some []
  else encode_blocks (length data / full_block_size) data.

Fixpoint decode_blocks (count : nat) (enc : list Z) : option (option (list Z)) :=
  match count with
  | O =>
      let last_block_size := length enc in
      if (0 <? last_block_size)%nat then decode_block enc last_block_size else Some (Some [])
  | S count =>
      let! b := decode_block enc full_encoded_block_size in
      match b with
      | None => Some None
      | Some b =>
          let! rest := decode_blocks count (skipn full_encoded_block_size enc) in
          Some (match rest with None => None | Some rest => Some (b ++ rest) end)
      end
  end.

Definition decode (enc : list Z) : option (option (list Z)) :=
  if (length enc =? 0)%nat then Some (Some [])
  else
    let! last_block_decoded_size := decoded_block_sizes (length enc mod full_encoded_block_size) in
    if last_block_decoded_size <? 0 then Some None
    else decode_blocks (length enc / full_encoded_block_size) enc.

Section Addresses.
  Context {FH : FastHash}.

Definition encode_addr (tag : Z) (data : list Z) : option (list Z) :=
  let! buf := write_varint tag in
  let buf := buf ++ data in
  let! hash := fast_hash buf (length buf) in
  encode (buf ++ firstn addr_checksum_size hash).

(** [checksum != expected_checksum] *)
Definition bytes_eqb (a b : list Z) : bool := if list_eq_dec Z.eq_dec a b then true else false.

Definition decode_addr (addr : list Z) : option (option (Z * list Z)) :=
  let! r := decode addr in
  match r with
  | None => Some None
  | Some addr_data =>
      if (length addr_data <=? addr_checksum_size)%nat then Some None
      else
        let n := (length addr_data - addr_checksum_size)%nat in
        let checksum := skipn n addr_data in
        let addr_data := firstn n addr_data in
        let! hash := fast_hash addr_data (length addr_data) in
        let expected_checksum := firstn addr_checksum_size hash in
        if negb (bytes_eqb expected_checksum checksum) then Some None
        else
          let v := read_varint 64 addr_data in
          if v_ret v <=? 0 then Some None
          else Some (Some (v_write v, skipn (Z.to_nat (v_ret v)) addr_data))
  end.
End Addresses.

(** ** Digits *)

(** The [n] base 58 digits of a number, most significant first. *)
Fixpoint b58 (n : nat) (num : Z) : list Z :=
  match n with
  | O => []
  | S n => b58 n (num / 58) ++ [num mod 58]
  end.

Definition char (d : Z) : Z := nth (Z.to_nat d) alphabet 0.

(** The value of characters, least significant first; [None] when one is not in the alphabet. *)
Fixpoint digits_val (l : list Z) : option Z :=
  match l with
  | [] => Some 0
  | c :: l =>
      let! d := reverse_alphabet c in
      let! v := digits_val l in
      if d <? 0 then None else Some (d + 58 * v)
  end.

Definition be_bytes (n : nat) (x : Z) : list Z := rev (le_bytes n x).

(** The reverse alphabet, checked on all characters. *)
Definition reverse_check (c : Z) : bool :=
  match reverse_alphabet c with
  | Some d => (d =? -1) || ((0 <=? d) && (d <? 58) && (char d =? c))
  | None => false
  end.

Lemma reverse_alphabet_spec c :
  is_byte c -> exists d, reverse_alphabet c = Some d /\ (d = -1 \/ (0 <= d < 58 /\ char d = c)).
Proof.
  intros Hc. assert (forallb (fun n => reverse_check (Z.of_nat n)) (seq 0 256) = true) as H by (vm_compute; reflexivity).
  rewrite forallb_forall in H. specialize (H (Z.to_nat c)). unfold is_byte in Hc. rewrite Z2Nat.id in H by lia.
  assert (reverse_check c = true) as K by (apply H, in_seq; lia). unfold reverse_check in K.
  destruct (reverse_alphabet c) as [d|]; [|discriminate K]. exists d. split; [reflexivity|].
  apply orb_true_iff in K as [K|K]; [left; lia | right].
  rewrite !andb_true_iff in K. destruct K as [[K1 K2] K3]. apply Z.eqb_eq in K3. split; [lia | exact K3].
Qed.

Definition char_check (n : nat) : bool :=
  match nth_error alphabet n, reverse_alphabet (char (Z.of_nat n)) with
  | Some a, Some d => (a =? char (Z.of_nat n)) && (d =? Z.of_nat n) && (0 <=? a) && (a <? 128)
  | _, _ => false
  end.

Lemma char_spec d :
  0 <= d < 58 ->
  nth_error alphabet (Z.to_nat d) = Some (char d) /\ reverse_alphabet (char d) = Some d /\ 0 <= char d < 128.
Proof.
  intros Hd. assert (forallb char_check (seq 0 58) = true) as H by (vm_compute; reflexivity).
  rewrite forallb_forall in H. assert (char_check (Z.to_nat d) = true) as K by (apply H, in_seq; lia).
  unfold char_check in K. rewrite Z2Nat.id in K by lia.
  destruct (nth_error alphabet (Z.to_nat d)) as [a|]; [|discriminate K].
  destruct (reverse_alphabet (char d)) as [e|]; [|discriminate K]. rewrite !andb_true_iff in K.
  destruct K as [[[K1 K2] K3] K4]. apply Z.eqb_eq in K1, K2. subst a e. repeat split; lia.
Qed.

Lemma char_0 : char 0 = alphabet_0.
Proof. reflexivity. Qed.

Lemma length_b58 n num : length (b58 n num) = n.
Proof. revert num. induction n as [|n IH]; intros num; cbn [b58]; [reflexivity|]. rewrite length_app, IH. cbn. lia. Qed.

Lemma b58_zero n : map char (b58 n 0) = repeat alphabet_0 n.
Proof.
  induction n as [|n IH]; cbn [b58]; [reflexivity|]. change (0 / 58) with 0. change (0 mod 58) with 0.
  rewrite map_app, IH. cbn [map]. rewrite char_0, <- repeat_cons. reflexivity.
Qed.

Lemma digits_bound l v : bytes l -> digits_val l = Some v -> 0 <= v < 58 ^ Z.of_nat (length l).
Proof.
  intros Hl. revert v. induction Hl as [|c l Hc Hl IH]; intros v; cbn [digits_val length]; [intros [= <-]; cbn; lia|].
  destruct (reverse_alphabet_spec c Hc) as (d & -> & D). cbn [bind].
  destruct (digits_val l) as [w|]; [|discriminate]. cbn [bind]. specialize (IH w eq_refl).
  destruct (Z.ltb_spec d 0); [discriminate|]. intros E. assert (v = d + 58 * w) as -> by congruence. rewrite Nat2Z.inj_succ, Z.pow_succ_r by lia. lia.
Qed.

(** Characters and digits determine each other. *)
Lemma digits_char n v : 0 <= v < 58 ^ Z.of_nat n -> digits_val (rev (map char (b58 n v))) = Some v.
Proof.
  revert v. induction n as [|n IH]; intros v Hv; cbn [b58]; [cbn in *; f_equal; lia|].
  rewrite map_app, rev_app_distr. cbn [map rev app digits_val].
  rewrite Nat2Z.inj_succ, Z.pow_succ_r in Hv by lia.
  pose proof (Z.mod_pos_bound v 58 ltac:(lia)) as M. destruct (char_spec (v mod 58) M) as (_ & -> & _). cbn [bind].
  rewrite IH by (split; [apply Z.div_pos | apply Z.div_lt_upper_bound]; lia). cbn [bind].
  rewrite (proj2 (Z.ltb_ge _ _)) by lia. f_equal. pose proof (Z.div_mod v 58 ltac:(lia)). lia.
Qed.

Lemma char_digits l v : bytes l -> digits_val l = Some v -> rev l = map char (b58 (length l) v).
Proof.
  intros Hl. revert v. induction Hl as [|c l Hc Hl IH]; intros v; cbn [digits_val length b58 rev]; [reflexivity|].
  destruct (reverse_alphabet_spec c Hc) as (d & -> & D). cbn [bind].
  destruct (digits_val l) as [w|]; [|discriminate]. cbn [bind]. specialize (IH w eq_refl).
  destruct (Z.ltb_spec d 0); [discriminate|]. intros Ev. assert (v = d + 58 * w) as -> by congruence.
  destruct D as [->|[D E]]; [lia|].
  replace ((d + 58 * w) / 58) with w by (apply (Z.div_unique_pos _ _ _ d); lia).
  replace ((d + 58 * w) mod 58) with d by (apply (Z.mod_unique_pos _ _ w); lia).
  rewrite map_app, IH. cbn [map]. now rewrite E.
Qed.

Lemma bytes_chars n v : 0 <= v -> bytes (map char (b58 n v)).
Proof.
  intros Hv. apply Forall_map. revert v Hv. induction n as [|n IH]; intros v Hv; cbn [b58]; [constructor|].
  apply Forall_app. split; [apply IH, Z.div_pos; lia|]. constructor; [|constructor].
  pose proof (char_spec (v mod 58) (Z.mod_pos_bound v 58 ltac:(lia))) as (_ & _ & C). unfold is_byte. lia.
Qed.

(** ** Words and bytes *)

Lemma le_val_rev_snoc l b : le_val (rev (l ++ [b])) = b + 256 * le_val (rev l).
Proof. now rewrite rev_app_distr. Qed.

Lemma uint_8be_spec data size :
  bytes data -> (size <= length data)%nat -> (1 <= size <= 8)%nat ->
  uint_8be_to_64 data size = Some (le_val (rev (firstn size data))).
Proof.
  intros Hb Hl Hs. unfold uint_8be_to_64. rewrite (proj2 (Nat.leb_le 1 size)), (proj2 (Nat.leb_le size 8)) by lia.
  cbn [andb cassert bind]. apply returns_eq. eapply returns_weaken.
  - apply (foldM_seq (fun i res => res = le_val (rev (firstn i data)))); [reflexivity|].
    intros i res Hi ->. rewrite (nth_error_nth' data 0) by lia. cbn [bind returns].
    assert (firstn (S i) data = firstn i data ++ [nth i data 0]) as ->.
    { assert (i < length data)%nat as Hi' by lia. clear - Hi'. revert data Hi'.
      induction i as [|i IH]; intros [|b data] Hi; cbn in *; try lia; [reflexivity|]. f_equal. apply IH. lia. }
    rewrite le_val_rev_snoc. set (v := le_val (rev (firstn i data))).
    assert (bytes (rev (firstn i data))) as Hr by (apply Forall_rev, bytes_firstn, Hb).
    pose proof (le_val_bound _ Hr) as B. fold v in B. rewrite length_rev, length_firstn, Nat.min_l in B by lia.
    assert (256 ^ Z.of_nat i <= 256 ^ 7) by (apply Z.pow_le_mono_r; lia).
    assert (is_byte (nth i data 0)) as Hn by (apply (proj1 (Forall_forall _ _) Hb), nth_In; lia). unfold is_byte in Hn.
    rewrite u64_small by (rewrite Z.shiftl_mul_pow2 by lia; lia). rewrite Z.lor_comm, lor_shiftl_add by lia. lia.
  - cbv beta. now intros v ->.
Qed.

Lemma be_bytes_val s : bytes s -> be_bytes (length s) (le_val (rev s)) = s.
Proof.
  intros Hs. unfold be_bytes. rewrite <- (length_rev s), le_bytes_le_val by now apply Forall_rev. apply rev_involutive.
Qed.

Lemma firstn_le_bytes n k x : (k <= n)%nat -> firstn k (le_bytes n x) = le_bytes k x.
Proof.
  revert n x. induction k as [|k IH]; intros n x Hk; [reflexivity|]. destruct n as [|n]; [lia|].
  cbn [le_bytes firstn]. f_equal. apply IH. lia.
Qed.

Lemma uint_64_to_8be_spec num size :
  (1 <= size <= 8)%nat -> uint_64_to_8be num size = Some (be_bytes size num).
Proof.
  intros Hs. unfold uint_64_to_8be. rewrite (proj2 (Nat.leb_le 1 size)), (proj2 (Nat.leb_le size 8)) by lia.
  cbn [andb cassert bind]. f_equal. rewrite (reversed_bytes 8 num) by (intros; apply SWAP64_bit; lia).
  rewrite skipn_rev, length_le_bytes, firstn_all2.
  - unfold be_bytes. f_equal. replace (8 - (8 - size))%nat with size by lia. apply firstn_le_bytes. lia.
  - rewrite length_rev, length_firstn, length_le_bytes. lia.
Qed.

(** ** Blocks *)

(** The table of sizes: [s] characters for [size] bytes, enough for all of them. *)
Definition size_pair (size s : nat) : Prop :=
  (1 <= size <= 8)%nat /\ (1 <= s <= 11)%nat /\ nth_error encoded_block_sizes size = Some s /\
  decoded_block_sizes s = Some (Z.of_nat size) /\ 256 ^ Z.of_nat size <= 58 ^ Z.of_nat s /\
  (s = 11 <-> size = 8)%nat.

Definition size_check (size : nat) : bool :=
  match nth_error encoded_block_sizes size with
  | Some s =>
      ((1 <=? s) && (s <=? 11))%nat &&
      match decoded_block_sizes s with Some r => r =? Z.of_nat size | None => false end &&
      (256 ^ Z.of_nat size <=? 58 ^ Z.of_nat s) && Bool.eqb (s =? 11)%nat (size =? 8)%nat
  | None => false
  end.

Lemma size_pairs size : (1 <= size <= 8)%nat -> exists s, nth_error encoded_block_sizes size = Some s /\ size_pair size s.
Proof.
  intros H. assert (forallb size_check (seq 1 8) = true) as C by (vm_compute; reflexivity).
  rewrite forallb_forall in C. specialize (C size (proj2 (in_seq 8 1 size) ltac:(lia))). unfold size_check in C.
  destruct (nth_error encoded_block_sizes size) as [s|] eqn:E; [|discriminate C]. exists s. split; [reflexivity|].
  destruct (decoded_block_sizes s) as [r|] eqn:D; [|now rewrite andb_false_r in C]. unfold size_pair.
  rewrite !andb_true_iff in C. destruct C as [[[[C1 C2] C3] C4] C5]. apply Nat.leb_le in C1, C2.
  apply Z.eqb_eq in C3. apply Z.leb_le in C4. apply Bool.eqb_prop in C5. subst r.
  rewrite E, D. repeat split; trivial; try lia; intros ->.
  - now apply Nat.eqb_eq.
  - now apply Nat.eqb_eq.
Qed.

Definition decoded_check (s : nat) : bool :=
  match decoded_block_sizes s with
  | Some r => ((s =? 0)%nat && (r =? 0)) || (r =? -1) ||
      ((0 <? r) && (r <=? 8) && match nth_error encoded_block_sizes (Z.to_nat r) with Some s' => (s' =? s)%nat | None => false end)
  | None => false
  end.

Lemma decoded_sizes s :
  (s <= 11)%nat ->
  exists r, decoded_block_sizes s = Some r /\ ((s = 0%nat /\ r = 0) \/ r = -1 \/ (size_pair (Z.to_nat r) s /\ 0 < r)).
Proof.
  intros H. assert (forallb decoded_check (seq 0 12) = true) as C by (vm_compute; reflexivity).
  rewrite forallb_forall in C. specialize (C s (proj2 (in_seq 12 0 s) ltac:(lia))). unfold decoded_check in C.
  destruct (decoded_block_sizes s) as [r|]; [|discriminate C]. exists r. split; [reflexivity|].
  rewrite !orb_true_iff, !andb_true_iff in C. destruct C as [[[C1 C2]|C]|[[C1 C2] C3]].
  - left. apply Nat.eqb_eq in C1. lia.
  - right. left. lia.
  - right. right. split; [|lia]. destruct (size_pairs (Z.to_nat r) ltac:(lia)) as (s' & E & Hp).
    rewrite E in C3. apply Nat.eqb_eq in C3. now subst s'.
Qed.

Lemma aset_repeat {A} (x y v : A) n l : aset (repeat x n ++ y :: l) n v = Some (repeat x n ++ v :: l).
Proof. rewrite <- (repeat_length x n) at 2. apply aset_middle. Qed.

Lemma encode_loop_spec n fuel num suffix :
  (n <= fuel)%nat -> 0 <= num < 58 ^ Z.of_nat n ->
  encode_loop fuel num (Z.of_nat n - 1) (repeat alphabet_0 n ++ suffix) = Some (map char (b58 n num) ++ suffix).
Proof.
  revert fuel num suffix. induction n as [|n IH]; intros fuel num suffix Hf Hn.
  - cbn in Hn. assert (num = 0) as -> by lia. now destruct fuel.
  - destruct (Z.ltb_spec 0 num) as [Hp|Hz].
    2: { assert (num = 0) as -> by lia. rewrite b58_zero. now destruct fuel. }
    destruct fuel as [|fuel]; [lia|]. cbn [encode_loop]. rewrite (proj2 (Z.ltb_lt _ _) Hp).
    unfold alphabet_size. pose proof (Z.mod_pos_bound num 58 ltac:(lia)) as M.
    destruct (char_spec _ M) as (-> & _ & _). cbn [bind].
    rewrite (proj2 (Z.leb_le 0 _)) by lia. cbn [cassert bind].
    replace (Z.to_nat (Z.of_nat (S n) - 1)) with n by lia.
    replace (repeat alphabet_0 (S n) ++ suffix) with (repeat alphabet_0 n ++ alphabet_0 :: suffix)
      by (cbn [repeat]; rewrite repeat_cons, <- app_assoc; reflexivity).
    rewrite aset_repeat. cbn [bind]. replace (Z.of_nat (S n) - 1 - 1) with (Z.of_nat n - 1) by lia.
    rewrite Nat2Z.inj_succ, Z.pow_succ_r in Hn by lia.
    rewrite IH; [|lia | split; [apply Z.div_pos | apply Z.div_lt_upper_bound]; lia].
    cbn [b58]. rewrite map_app, <- app_assoc. reflexivity.
Qed.

Lemma encode_block_spec block size s :
  size_pair size s -> bytes block -> (size <= length block)%nat ->
  encode_block block size (repeat alphabet_0 s) = Some (map char (b58 s (le_val (rev (firstn size block))))).
Proof.
  intros (Hs & Hs' & E & _ & Hle & _) Hb Hl. unfold encode_block, full_block_size.
  rewrite (proj2 (Nat.leb_le 1 size)), (proj2 (Nat.leb_le size 8)) by lia. cbn [andb cassert bind].
  rewrite uint_8be_spec by (trivial; lia). cbn [bind]. rewrite E. cbn [bind].
  assert (bytes (rev (firstn size block))) as Hr by (apply Forall_rev, bytes_firstn, Hb).
  pose proof (le_val_bound _ Hr) as B. rewrite length_rev, length_firstn, Nat.min_l in B by lia.
  rewrite <- (app_nil_r (repeat _ _)), encode_loop_spec by lia. now rewrite app_nil_r.
Qed.

Lemma pow58_word k : (k <= 10)%nat -> 0 < 58 ^ Z.of_nat k < 2 ^ 59.
Proof.
  intros Hk. split; [apply Z.pow_pos_nonneg; lia|].
  eapply Z.le_lt_trans; [apply (Z.pow_le_mono_r 58 _ 10); lia | reflexivity].
Qed.

(** Decoding succeeds unless a character is invalid or the value exceeds a word. *)
Lemma decode_loop_spec l k res :
  bytes l -> (k + length l <= 11)%nat -> 0 <= res < 58 ^ Z.of_nat k -> res < 2 ^ 64 ->
  decode_loop l res (u64 (58 ^ Z.of_nat k)) =
    Some (match digits_val l with
          | Some v => if res + 58 ^ Z.of_nat k * v <? 2 ^ 64 then Some (res + 58 ^ Z.of_nat k * v) else None
          | None => None end).
Proof.
  intros Hl. revert k res. induction Hl as [|c l Hc Hl IH]; intros k res Hk Hr Hw; cbn [decode_loop digits_val length] in *.
  - rewrite Z.mul_0_r, Z.add_0_r, (proj2 (Z.ltb_lt _ _) Hw). reflexivity.
  - destruct (reverse_alphabet_spec c Hc) as (d & -> & D). cbn [bind].
    destruct (Z.ltb_spec d 0) as [Hd|Hd]; [destruct (digits_val l); reflexivity|].
    destruct D as [->|[D _]]; [lia|]. destruct (pow58_word k ltac:(lia)) as [P1 P2].
    rewrite (u64_small (58 ^ Z.of_nat k)), mul128_spec by lia. cbn [bind].
    set (o := 58 ^ Z.of_nat k) in *. assert (0 <= o * d) by nia.
    assert (forall v, digits_val l = Some v -> o * (d + 58 * v) = o * d + 58 * o * v /\ 0 <= 58 * o * v) as V.
    { intros v Ev. pose proof (digits_bound l v Hl Ev). split; [ring | nia]. }
    assert (Some (match digits_val l with Some v => None | None => None end) = Some (@None Z)) as N by (now destruct (digits_val l)).
    destruct (Z.lt_ge_cases (o * d) (2 ^ 64)) as [Hs|Hs].
    2: { assert (1 <= o * d / 2 ^ 64) by (apply Z.div_le_lower_bound; lia).
         rewrite (proj2 (Z.eqb_neq 0 _)) by lia. rewrite orb_true_r.
         destruct (digits_val l) as [v|]; cbn [bind]; [|reflexivity]. destruct (V v eq_refl) as [-> ?].
         now rewrite (proj2 (Z.ltb_ge _ _)) by lia. }
    rewrite (Z.div_small (o * d)), (Z.mod_small (o * d)) by lia. cbn [Z.eqb negb]. rewrite orb_false_r.
    destruct (u64_add_carry res (o * d) ltac:(lia) ltac:(lia)) as (E & R & _).
    destruct (u64 (res + o * d) <? res); cbn [bit] in E.
    + destruct (digits_val l) as [v|]; cbn [bind]; [|reflexivity]. destruct (V v eq_refl) as [-> ?].
      now rewrite (proj2 (Z.ltb_ge _ _)) by lia.
    + replace (u64 (res + o * d)) with (res + o * d) by lia.
      unfold alphabet_size. replace (o * 58) with (58 ^ Z.of_nat (S k)) by (rewrite Nat2Z.inj_succ, Z.pow_succ_r by lia; fold o; lia).
      rewrite IH; [|lia| |lia].
      2: { rewrite Nat2Z.inj_succ, Z.pow_succ_r by lia. fold o. nia. }
      destruct (digits_val l) as [v|]; cbn [bind]; [|reflexivity].
      rewrite Nat2Z.inj_succ, Z.pow_succ_r by lia. fold o.
      replace (res + o * (d + 58 * v)) with (res + o * d + 58 * o * v) by ring. reflexivity.
Qed.

Lemma decode_block_spec block s size :
  size_pair size s -> bytes block -> length block = s ->
  decode_block block s = Some (match digits_val (rev block) with
    | Some v => if v <? 256 ^ Z.of_nat size then Some (be_bytes size v) else None
    | None => None end).
Proof.
  intros (Hs & Hs' & _ & E & _ & _) Hb Hl. unfold decode_block, full_encoded_block_size.
  rewrite (proj2 (Nat.leb_le 1 s)), (proj2 (Nat.leb_le s 11)) by lia. cbn [andb cassert bind]. rewrite E. cbn [bind].
  rewrite (proj2 (Z.leb_gt _ _)) by lia. rewrite firstn_all2 by lia.
  change 1 with (u64 (58 ^ Z.of_nat 0)) at 1.
  rewrite decode_loop_spec; [|now apply Forall_rev | rewrite length_rev; lia | cbn; lia | lia]. cbn [bind].
  destruct (digits_val (rev block)) as [v|] eqn:Ev; [|reflexivity].
  apply digits_bound in Ev; [|now apply Forall_rev]. rewrite Z.mul_1_l, Z.add_0_l.
  assert (256 ^ Z.of_nat size <= 2 ^ 64) as Hle by (change (2 ^ 64) with (256 ^ 8); apply Z.pow_le_mono_r; lia).
  destruct (Z.ltb_spec v (2 ^ 64)) as [Hw|Hw]; [|now rewrite (proj2 (Z.ltb_ge _ _)) by lia].
  unfold full_block_size. destruct (Z.ltb_spec (Z.of_nat size) (Z.of_nat 8)) as [H8|H8]; cbn [andb].
  - rewrite Z.shiftl_1_l. replace (2 ^ (8 * Z.of_nat size)) with (256 ^ Z.of_nat size) by (rewrite Z.pow_mul_r by lia; reflexivity).
    rewrite u64_small.
    2: { split; [apply Z.pow_nonneg; lia|]. change (2 ^ 64) with (256 ^ 8). apply Z.pow_lt_mono_r; lia. }
    destruct (Z.leb_spec (256 ^ Z.of_nat size) v), (Z.ltb_spec v (256 ^ Z.of_nat size)); try lia; [reflexivity|].
    rewrite uint_64_to_8be_spec by lia. cbn [bind]. now rewrite Nat2Z.id.
  - replace size with 8%nat in * by lia. change (256 ^ Z.of_nat 8) with (2 ^ 64). rewrite (proj2 (Z.ltb_lt _ _) Hw).
    rewrite uint_64_to_8be_spec by lia. reflexivity.
Qed.

(** Decoding a block inverts encoding, both ways. *)
Lemma block_roundtrip block size s :
  size_pair size s -> bytes block -> length block = size ->
  exists enc, encode_block block size (repeat alphabet_0 s) = Some enc /\ bytes enc /\ length enc = s /\
    decode_block enc s = Some (Some block).
Proof.
  intros Hp Hb Hl. pose proof Hp as (Hs & Hs' & _ & _ & Hle & _).
  assert (bytes (rev block)) as Hr by (apply Forall_rev, Hb). pose proof (le_val_bound _ Hr) as B. rewrite length_rev, Hl in B.
  exists (map char (b58 s (le_val (rev block)))).
  split; [rewrite (encode_block_spec block size s Hp Hb) by lia; now rewrite firstn_all2 by lia|].
  split; [apply bytes_chars; lia|]. split; [now rewrite length_map, length_b58|].
  rewrite (decode_block_spec _ s size Hp); [|apply bytes_chars; lia | now rewrite length_map, length_b58].
  rewrite digits_char by lia. rewrite (proj2 (Z.ltb_lt _ _)) by lia. now rewrite <- Hl, be_bytes_val.
Qed.

Lemma block_canonical enc s size block :
  size_pair size s -> bytes enc -> length enc = s -> decode_block enc s = Some (Some block) ->
  bytes block /\ length block = size /\ encode_block block size (repeat alphabet_0 s) = Some enc.
Proof.
  intros Hp Hb Hl E. rewrite (decode_block_spec _ s size Hp Hb Hl) in E.
  destruct (digits_val (rev enc)) as [v|] eqn:Ev; [|discriminate E].
  destruct (Z.ltb_spec v (256 ^ Z.of_nat size)) as [Hv|]; [|discriminate E].
  assert (block = be_bytes size v) as -> by congruence. clear E.
  assert (bytes (be_bytes size v)) as Hbb by (apply Forall_rev, bytes_le_bytes).
  assert (length (be_bytes size v) = size) as Hlb by (unfold be_bytes; now rewrite length_rev, length_le_bytes).
  split; [exact Hbb|]. split; [exact Hlb|]. rewrite (encode_block_spec _ size s Hp Hbb) by lia. f_equal.
  rewrite firstn_all2 by lia.
  pose proof (digits_bound _ v (Forall_rev Hb) Ev) as [Bv _].
  unfold be_bytes. rewrite rev_involutive, le_val_le_bytes, Z.mod_small by lia.
  apply char_digits in Ev; [|now apply Forall_rev]. rewrite rev_involutive, length_rev, Hl in Ev. now symmetry.
Qed.

(** ** Strings *)

Lemma encode_block_firstn data s size :
  size_pair size s -> bytes data -> (size <= length data)%nat ->
  encode_block data size (repeat alphabet_0 s) = encode_block (firstn size data) size (repeat alphabet_0 s).
Proof.
  intros Hp Hb Hl. rewrite (encode_block_spec data size s), (encode_block_spec (firstn size data) size s);
    trivial; [|now apply bytes_firstn | rewrite length_firstn; lia].
  now rewrite firstn_firstn, Nat.min_id.
Qed.

Lemma decode_block_firstn data s : decode_block data s = decode_block (firstn s data) s.
Proof. unfold decode_block. now rewrite firstn_firstn, Nat.min_id. Qed.

Lemma full_pair : size_pair 8 11.
Proof. destruct (size_pairs 8 ltac:(lia)) as (s & [= <-] & H). exact H. Qed.

(** The sizes of the last blocks. *)
Definition last_pair (r s : nat) : Prop := (r = 0%nat /\ s = 0%nat) \/ ((r < 8)%nat /\ (s < 11)%nat /\ size_pair r s).

Lemma last_pair_ex r : (r < 8)%nat -> exists s, last_pair r s.
Proof.
  intros Hr. destruct (Nat.eq_dec r 0) as [->|N]; [exists 0%nat; left; now split|].
  destruct (size_pairs r ltac:(lia)) as (s & _ & Hp). exists s. right. split; [exact Hr|]. split; [|exact Hp].
  destruct Hp as (_ & Hs & _ & _ & _ & [Hi _]). destruct (Nat.eq_dec s 11) as [->|]; [specialize (Hi eq_refl)|]; lia.
Qed.

Lemma encode_blocks_ok count data r :
  bytes data -> length data = (8 * count + r)%nat -> (r < 8)%nat ->
  exists enc s, encode_blocks count data = Some enc /\ bytes enc /\ last_pair r s /\
    length enc = (11 * count + s)%nat /\ decode_blocks count enc = Some (Some data).
Proof.
  revert data. induction count as [|count IH]; intros data Hb Hl Hr.
  - destruct (last_pair_ex r Hr) as (s & Hp). cbn [Nat.mul Nat.add] in *. destruct Hp as [[-> ->] | (Hr8 & Hs & Hp)].
    + destruct data; [|discriminate Hl]. exists [], 0%nat. repeat split; [constructor | now left].
    + pose proof Hp as (Hs1 & Hs2 & E & _). destruct (block_roundtrip data r s Hp Hb Hl) as (enc & E1 & Hbe & Hle & E2).
      exists enc, s. cbn [encode_blocks decode_blocks]. rewrite Hl, Hle, (proj2 (Nat.ltb_lt 0 r)), (proj2 (Nat.ltb_lt 0 s)) by lia.
      rewrite E. cbn [bind]. repeat split; trivial. right. now split.
  - assert (length (firstn 8 data) = 8%nat) as Hf by (rewrite length_firstn; lia).
    destruct (block_roundtrip (firstn 8 data) 8 11 full_pair (bytes_firstn 8 data Hb) Hf) as (b & E1 & Hbb & Hlb & E2).
    destruct (IH (skipn 8 data)) as (enc & s & E3 & Hbe & Hp & Hle & E4);
      [now apply bytes_skipn | rewrite length_skipn; lia | exact Hr|].
    exists (b ++ enc), s. cbn [encode_blocks decode_blocks]. unfold full_block_size, full_encoded_block_size.
    rewrite (encode_block_firstn data 11 8 full_pair Hb ltac:(lia)), E1. cbn [bind]. rewrite E3. cbn [bind].
    split; [reflexivity|]. split; [now apply bytes_app|]. split; [exact Hp|]. split; [rewrite length_app; lia|].
    rewrite decode_block_firstn, firstn_app, Hlb, Nat.sub_diag, firstn_O, app_nil_r, firstn_all2, E2 by lia. cbn [bind].
    rewrite skipn_app, Hlb, Nat.sub_diag, skipn_O, skipn_all2, app_nil_l, E4 by lia. cbn [bind].
    now rewrite firstn_skipn.
Qed.

Lemma last_pair_decoded r s : last_pair r s -> decoded_block_sizes s = Some (Z.of_nat r).
Proof. intros [[-> ->] | (_ & _ & _ & _ & _ & E & _)]; [vm_compute; reflexivity | exact E]. Qed.

Lemma last_pair_bound r s : last_pair r s -> (s < 11)%nat.
Proof. intros [[-> ->] | (_ & H & _)]; lia. Qed.

Lemma encode_ok data :
  bytes data -> exists enc, encode data = Some enc /\ bytes enc /\ decode enc = Some (Some data).
Proof.
  intros Hb. unfold encode. destruct (Nat.eqb_spec (length data) 0) as [E|N].
  - destruct data; [|discriminate E]. exists []. repeat split. constructor.
  - pose proof (Nat.div_mod (length data) 8 ltac:(lia)) as D. pose proof (Nat.mod_upper_bound (length data) 8 ltac:(lia)) as M.
    destruct (encode_blocks_ok (length data / 8) data (length data mod 8) Hb D M) as (enc & s & E & Hbe & Hp & Hle & E').
    exists enc. split; [exact E|]. split; [exact Hbe|]. pose proof (last_pair_bound _ _ Hp). unfold decode, full_encoded_block_size.
    assert (length enc <> 0%nat) as Ne.
    { destruct Hp as [[Hr ->] | (_ & _ & _ & Hs & _)]; lia. }
    rewrite (proj2 (Nat.eqb_neq _ _) Ne).
    replace (length enc mod 11)%nat with s by (apply (Nat.mod_unique _ _ (length data / 8)); lia).
    replace (length enc / 11)%nat with (length data / 8)%nat by (apply (Nat.div_unique _ _ _ s); lia).
    rewrite (last_pair_decoded _ _ Hp). cbn [bind]. now rewrite (proj2 (Z.ltb_ge _ _)) by lia.
Qed.

Lemma decode_blocks_ok count enc s r :
  bytes enc -> length enc = (11 * count + s)%nat -> last_pair r s ->
  decode_blocks count enc <> None /\
  forall data, decode_blocks count enc = Some (Some data) ->
    bytes data /\ length data = (8 * count + r)%nat /\ encode_blocks count data = Some enc.
Proof.
  revert enc. induction count as [|count IH]; intros enc Hb Hl Hp.
  - cbn [Nat.mul Nat.add] in *. destruct Hp as [[-> ->] | (Hr8 & Hs & Hp)]; cbn [decode_blocks encode_blocks]; rewrite Hl.
    + cbn [Nat.ltb Nat.leb]. split; [discriminate|]. intros data [= <-]. destruct enc; [|discriminate Hl].
      repeat split. constructor.
    + pose proof Hp as (Hs1 & Hs2 & E & _). rewrite (proj2 (Nat.ltb_lt 0 s)) by lia. split.
      * rewrite (decode_block_spec enc s r Hp Hb Hl). discriminate.
      * intros data D. destruct (block_canonical enc s r data Hp Hb Hl D) as (Hbd & Hld & Ee).
        rewrite Hld, (proj2 (Nat.ltb_lt 0 r)), E by lia. cbn [bind]. auto.
  - assert (length (firstn 11 enc) = 11%nat) as Hf by (rewrite length_firstn; lia).
    pose proof (bytes_firstn 11 enc Hb) as Hbf. cbn [decode_blocks encode_blocks]. unfold full_block_size, full_encoded_block_size.
    rewrite decode_block_firstn. pose proof (decode_block_spec (firstn 11 enc) 11 8 full_pair Hbf Hf) as S.
    destruct (IH (skipn 11 enc)) as [N C]; [now apply bytes_skipn | rewrite length_skipn; lia | exact Hp|].
    destruct (decode_block (firstn 11 enc) 11) as [[b|]|] eqn:D; cbn [bind]; [|split; discriminate | discriminate S].
    destruct (decode_blocks count (skipn 11 enc)) as [[rest|]|] eqn:D'; cbn [bind]; [|split; discriminate | now contradiction N].
    split; [discriminate|]. intros data [= <-]. destruct (C rest eq_refl) as (Hbr & Hlr & Er).
    destruct (block_canonical _ 11 8 b full_pair Hbf Hf D) as (Hbb & Hlb & Eb).
    split; [now apply bytes_app|]. split; [rewrite length_app; lia|].
    rewrite (encode_block_firstn _ 11 8 full_pair); [|now apply bytes_app | rewrite length_app; lia].
    rewrite firstn_app, Hlb, Nat.sub_diag, firstn_O, app_nil_r, (firstn_all2 b), Eb by lia. cbn [bind].
    rewrite skipn_app, Hlb, Nat.sub_diag, skipn_O, (skipn_all2 b), app_nil_l, Er by lia. cbn [bind]. now rewrite firstn_skipn.
Qed.

Lemma decode_ok enc :
  bytes enc ->
  decode enc <> None /\ forall data, decode enc = Some (Some data) -> bytes data /\ encode data = Some enc.
Proof.
  intros Hb. unfold decode. destruct (Nat.eqb_spec (length enc) 0) as [E|Ne].
  - destruct enc; [|discriminate E]. split; [discriminate|]. intros data [= <-]. split; [constructor | reflexivity].
  - unfold full_encoded_block_size. pose proof (Nat.div_mod (length enc) 11 ltac:(lia)) as D.
    pose proof (Nat.mod_upper_bound (length enc) 11 ltac:(lia)) as M. set (s := (length enc mod 11)%nat) in *.
    destruct (decoded_sizes s ltac:(lia)) as (r & -> & C). cbn [bind].
    destruct (Z.ltb_spec r 0) as [Hr|Hr]; [split; discriminate|].
    assert (last_pair (Z.to_nat r) s) as Hp.
    { destruct C as [[Es Er] | [Er | [Hp Hr']]]; [left; lia | lia | right]. split; [|now split].
      destruct Hp as (H1 & H2 & _ & _ & _ & [_ Hi]). destruct (Nat.eq_dec (Z.to_nat r) 8) as [E|]; [specialize (Hi E)|]; lia. }
    destruct (decode_blocks_ok (length enc / 11) enc s (Z.to_nat r) Hb D Hp) as [N K]. split; [exact N|].
    intros data Ed. destruct (K data Ed) as (Hbd & Hld & Ee). split; [exact Hbd|]. unfold encode, full_block_size.
    assert (Z.to_nat r < 8)%nat as Hr8 by (destruct Hp as [[-> _] | [H _]]; lia).
    replace (length data / 8)%nat with (length enc / 11)%nat by (apply (Nat.div_unique _ _ _ (Z.to_nat r)); lia).
    rewrite (proj2 (Nat.eqb_neq _ _)); [exact Ee|]. intros E0.
    destruct Hp as [[Er Es] | (_ & _ & H1 & _)]; lia.
Qed.

(** ** Claims *)

(** Base58 is a bijection between strings of bytes and the strings it accepts: every string of
    bytes is encoded, and decoding returns it; decoding any string of characters returns,
    without a failed assertion, and what it accepts is the one encoding of the result.
    Characters outside the alphabet, impossible lengths and blocks whose value is too large
    are refused. *)
Theorem base58_bijection data enc :
  bytes data -> bytes enc ->
  (exists e, encode data = Some e /\ decode e = Some (Some data)) /\
  decode enc <> None /\
  (decode enc = Some (Some data) <-> encode data = Some enc).
Proof.
  intros Hd He. destruct (encode_ok data Hd) as (e & E & _ & D). destruct (decode_ok enc He) as [N C].
  split; [now exists e|]. split; [exact N|]. split; [intros Ed; now apply C|].
  intros Ee. rewrite E in Ee. injection Ee as <-. exact D.
Qed.

Lemma base58_bijection_witness :
  (exists e, encode [0; 0; 255] = Some e /\ decode e = Some (Some [0; 0; 255])) /\
  decode [49; 49; 48] <> None /\
  (decode [49; 49; 48] = Some (Some [0; 0; 255]) <-> encode [0; 0; 255] = Some [49; 49; 48]).
Proof.
  exact (base58_bijection [0; 0; 255] [49; 49; 48]
    ltac:(repeat (apply Forall_cons; [unfold is_byte; lia|]); apply Forall_nil)
    ltac:(repeat (apply Forall_cons; [unfold is_byte; lia|]); apply Forall_nil)).
Defined.

Section AddressClaims.
  Context {FH : FastHash}.

Lemma read_varint_written tag enc rest :
  0 <= tag < 2 ^ 64 -> write_varint tag = Some enc ->
  read_varint 64 (enc ++ rest) = VarintResult (Z.of_nat (length enc)) tag rest.
Proof.
  intros Ht E. unfold read_varint. rewrite (read_written 9 64 tag enc rest 0 0 0); trivial; try lia. f_equal; lia.
Qed.

Lemma write_varint_nonempty tag enc : write_varint tag = Some enc -> (1 <= length enc)%nat.
Proof.
  unfold write_varint. destruct enc; [|cbn; lia]. generalize 9%nat. intros f E.
  destruct f as [|f]; cbn [write_varint_loop] in E; (destruct (128 <=? tag); [|discriminate E]); [discriminate E|].
  destruct (write_varint_loop f (Z.shiftr tag 7)); discriminate E.
Qed.

Lemma checksum_shape h : is_hash h -> bytes (firstn addr_checksum_size h) /\ length (firstn addr_checksum_size h) = 4%nat.
Proof. intros [Hb Hl]. split; [now apply bytes_firstn|]. rewrite length_firstn, Hl. reflexivity. Qed.

(** Addresses: every tag and data are encoded, with the checksum, and decoding the address returns
    the tag and the data. *)
Lemma addr_roundtrip tag data :
  0 <= tag < 2 ^ 64 -> bytes data ->
  exists addr, encode_addr tag data = Some addr /\ decode_addr addr = Some (Some (tag, data)).
Proof.
  intros Ht Hd. destruct (write_varint_total tag Ht) as [v Ev]. pose proof (write_varint_shape 9 tag v ltac:(lia) Ev) as [Hv _].
  pose proof (write_varint_nonempty tag v Ev) as Lv. unfold encode_addr. rewrite Ev. cbn [bind].
  assert (bytes (v ++ data)) as Hb by now apply bytes_app.
  pose proof (fast_hash_total _ Hb) as [h [Eh Hh]]%returns_some. rewrite Eh. cbn [bind].
  destruct (checksum_shape h Hh) as [Hc Lc]. set (sum := firstn addr_checksum_size h) in *.
  destruct (encode_ok ((v ++ data) ++ sum) ltac:(now apply bytes_app)) as (addr & Ea & _ & Da).
  exists addr. split; [exact Ea|]. unfold decode_addr. rewrite Da. cbn [bind]. cbv zeta.
  rewrite (length_app (v ++ data)), Lc. change addr_checksum_size with 4%nat.
  assert (1 <= length (v ++ data))%nat by (rewrite length_app; lia).
  rewrite (proj2 (Nat.leb_gt _ _)) by lia. replace (length (v ++ data) + 4 - 4)%nat with (length (v ++ data)) by lia.
  rewrite firstn_app, firstn_all, Nat.sub_diag, firstn_O, app_nil_r.
  rewrite skipn_app, skipn_all, Nat.sub_diag, skipn_O, app_nil_l. rewrite Eh. cbn [bind].
  change (firstn 4 h) with sum. unfold bytes_eqb. destruct (list_eq_dec Z.eq_dec sum sum) as [_|N]; [|contradiction]. cbn [negb].
  rewrite (read_varint_written tag v data Ht Ev). cbn [v_ret v_write]. rewrite (proj2 (Z.leb_gt _ _)) by lia.
  do 3 f_equal. rewrite Nat2Z.id, skipn_app, skipn_all, Nat.sub_diag. reflexivity.
Qed.

(** What [decode_addr] accepts: it returns on every string; a tag and data that it returns encode
    to the address itself, so that a changed address is refused unless its checksum
    matches; or the tag is cut short at the end of the payload, which is accepted with empty
    data. *)
Lemma addr_canonical addr :
  bytes addr ->
  decode_addr addr <> None /\
  forall tag data, decode_addr addr = Some (Some (tag, data)) ->
    encode_addr tag data = Some addr \/
    (data = [] /\ exists payload hash, unfinished payload /\ fast_hash payload (length payload) = Some hash /\
       encode (payload ++ firstn addr_checksum_size hash) = Some addr).
Proof.
  intros Hb. unfold decode_addr. destruct (decode_ok addr Hb) as [N C].
  destruct (decode addr) as [[ad|]|] eqn:Ed; cbn [bind]; [|split; [discriminate | intros tag data [=]] | now contradiction N].
  destruct (C ad eq_refl) as [Hbd Ee]. destruct (Nat.leb_spec (length ad) addr_checksum_size) as [Hs|Hs]; [split; [discriminate | intros tag data [=]]|].
  set (n := (length ad - addr_checksum_size)%nat). set (payload := firstn n ad). set (sum := skipn n ad).
  assert (bytes payload) as Hbp by now apply bytes_firstn.
  pose proof (fast_hash_total payload Hbp) as [h [Eh Hh]]%returns_some. rewrite Eh. cbn [bind].
  unfold bytes_eqb. destruct (list_eq_dec Z.eq_dec (firstn addr_checksum_size h) sum) as [E|]; cbn [negb];
    [|split; [discriminate | intros tag data [=]]].
  assert (encode (payload ++ firstn addr_checksum_size h) = Some addr) as Ea
    by (unfold payload; rewrite E; unfold sum; now rewrite firstn_skipn).
  destruct (Z.leb_spec (v_ret (read_varint 64 payload)) 0) as [Hr|Hr]; [split; [discriminate | intros tag data [=]]|].
  split; [discriminate|]. intros tag data Ek.
  assert (tag = v_write (read_varint 64 payload) /\ data = skipn (Z.to_nat (v_ret (read_varint 64 payload))) payload)
    as [Et Edt] by (split; congruence). clear Ek.
  destruct (read_accepts 64 payload 0 0 0 Hbp ltac:(lia) ltac:(lia) ltac:(lia) ltac:(lia) ltac:(lia) _ eq_refl ltac:(unfold read_varint in Hr; lia))
    as (enc & E1 & E2 & K). fold (read_varint 64 payload) in E1, E2, K. rewrite Z.add_0_l in E2. rewrite E2, Nat2Z.id in Edt.
  assert (data = v_rest (read_varint 64 payload)) as Edr.
  { rewrite Edt, E1 at 1. now rewrite skipn_app, skipn_all, Nat.sub_diag. }
  destruct K as [[E0 U] | (fuel & v & Ew & Hv & _ & Ev)].
  - right. split; [congruence|]. exists payload, h. rewrite E0, app_nil_r in E1. rewrite E1 at 1. auto.
  - left. rewrite Z.pow_0_r, Z.mul_1_l, Z.add_0_l in Ev. rewrite Z.sub_0_r in Hv.
    unfold encode_addr. rewrite Et, Ev.
    destruct (write_varint_total v Hv) as [enc' E']. rewrite E'. cbn [bind].
    assert (enc' = enc) as ->.
    { unfold write_varint in E'. apply (write_varint_more _ (Nat.max fuel 9)) in Ew, E'; try lia. congruence. }
    rewrite Edr, <- E1, Eh. exact Ea.
Qed.
End AddressClaims.
