(* ===== verification/Difficulty.v ===== *)
(** * Proof of work and difficulty

    Models difficulty.cpp: the multiplication and the carries on words, [check_hash] (on
    x86-64, where [mul] is [mul128]), and the difficulty of the next block in its integer
    versions ([next_difficulty], [next_difficulty_v2], [next_difficulty_v4]), with [median]
    of misc_language.h. [next_difficulty_v3] computes with binary floating point and is not
    modelled. Vectors are lists of words; [None] is a failed assertion, an access outside
    a vector or a division by zero. *)

From Stdlib Require Import ZArith Lia List Bool Permutation Sorted.
From S2P Require Import Prelude Bytes Keccak IntUtil.
Import ListNotations.

#[local] Open Scope Z_scope.

(** ** The code: check_hash *)

Definition mul (a b : Z) : option (Z * Z) := mul128 a b.

Definition cadd (a b : Z) : bool := u64 (a + b) <? a.

Definition cadc (a b : Z) (c : bool) : bool := (u64 (a + b) <? a) || (c && (u64 (a + b) =? u64 (-1))).

Definition check_hash (hash : list Z) (difficulty : Z) : option bool :=
  let! h3 := word_at hash 3 in
  let! '(top, high) := mul (ident64 h3) difficulty in
  if negb (high =? 0) then Some false
  else
    let! h0 := word_at hash 0 in
    let! '(low, cur) := mul (ident64 h0) difficulty in
    let! h1 := word_at hash 1 in
    let! '(low, high) := mul (ident64 h1) difficulty in
    let carry := cadd cur low in
    let cur := high in
    let! h2 := word_at hash 2 in
    let! '(low, high) := mul (ident64 h2) difficulty in
    let carry := cadc cur low carry in
    let carry := cadc high top carry in
    Some (negb carry).

(** ** The code: next_difficulty *)

Definition DIFFICULTY_WINDOW : nat := 720.
Definition DIFFICULTY_CUT : nat := 60.
Definition DIFFICULTY_BLOCKS_COUNT_V12 : nat := 70.

(** [v.resize(n)]: cut, or filled with zeros. *)
Definition resize (n : nat) (v : list Z) : list Z := firstn n v ++ repeat 0 (n - length v).

(** [std::sort] on words. *)
Fixpoint insert (x : Z) (l : list Z) : list Z :=
  match l with
  | [] => [x]
  | y :: l' => if x <=? y then x :: l else y :: insert x l'
  end.

Fixpoint sort (l : list Z) : list Z :=
  match l with
  | [] => []
  | x :: l => insert x (sort l)
  end.

(** [cut_begin] and [cut_end]. *)
Definition cut_window (length : nat) : nat * nat :=
  let kept := (DIFFICULTY_WINDOW - 2 * DIFFICULTY_CUT)%nat in
  if (length <=? kept)%nat then (0, length)%nat
  else let cut_begin := ((length - kept + 1) / 2)%nat in (cut_begin, cut_begin + kept)%nat.

(** The common part of the versions 1 and 2: [low], [high] and [time_span], or [None] for an
    early [return 1]. *)
Definition work_product (timestamps cumulative_difficulties : list Z) (target_seconds : Z)
  : option (option (Z * Z * Z)) :=
  let '(timestamps, cumulative_difficulties) :=
    if (DIFFICULTY_WINDOW <? length timestamps)%nat
    then (resize DIFFICULTY_WINDOW timestamps, resize DIFFICULTY_WINDOW cumulative_difficulties)
    else (timestamps, cumulative_difficulties) in
  let len := length timestamps in
  let! _ := cassert (len =? length cumulative_difficulties)%nat in
  if (len <=? 1)%nat then Some None
  else
    let! _ := cassert (len <=? DIFFICULTY_WINDOW)%nat in
    let timestamps := sort timestamps in
    let '(cut_begin, cut_end) := cut_window len in
    let! _ := cassert ((cut_begin + 2 <=? cut_end) && (cut_end <=? len))%nat in
    let! t1 := nth_error timestamps (cut_end - 1) in
    let! t0 := nth_error timestamps cut_begin in
    let time_span := u64 (t1 - t0) in
    let time_span := if time_span =? 0 then 1 else time_span in
    let! d1 := nth_error cumulative_difficulties (cut_end - 1) in
    let! d0 := nth_error cumulative_difficulties cut_begin in
    let total_work := u64 (d1 - d0) in
    let! _ := cassert (0 <? total_work) in
    let! '(low, high) := mul total_work target_seconds in
    Some (Some (low, high, time_span)).

Definition next_difficulty (timestamps cumulative_difficulties : list Z) (target_seconds : Z) : option Z :=
  let! r := work_product timestamps cumulative_difficulties target_seconds in
  match r with
  | None => Some 1
  | Some (low, high, time_span) => Some (u64 (u64 (low + time_span) - 1) / time_span)
  end.

Definition next_difficulty_v2 (timestamps cumulative_difficulties : list Z) (target_seconds : Z) : option Z :=
  let! r := work_product timestamps cumulative_difficulties target_seconds in
  match r with
  | None => Some 1
  | Some (low, high, time_span) =>
      if negb (high =? 0) || (u64 (u64 (low + time_span) - 1) <? low) then Some 1
      else Some (u64 (u64 (low + time_span) - 1) / time_span)
  end.

(** ** The code: next_difficulty_v4 *)

(** [epee::misc_utils::median] *)
Definition median (v : list Z) : option Z :=
  match v with
  | [] => Some 0
  | [x] => Some x
  | _ =>
      let n := (length v / 2)%nat in
      let v := sort v in
      if (length v mod 2 =? 0)%nat then
        let! a := nth_error v (n - 1) in
        let! b := nth_error v n in
        Some (u64 (a + b) / 2)
      else nth_error v n
  end.

(** [for (size_t i = first; i < last; i++) diffs.push_back(v[i]);] *)
Definition push_range (v : list Z) (first last : Z) : option (list Z) :=
  if last <=? first then Some []
  else mapM (fun i => nth_error v i) (seq (Z.to_nat first) (Z.to_nat (last - first))).

(** Whether the window is cut to 25 blocks. *)
Definition short_window (cumulative_difficulties : list Z) : option bool :=
  let N := Z.of_nat DIFFICULTY_BLOCKS_COUNT_V12 in
  if N - 1 <=? Z.of_nat (length cumulative_difficulties) then
    let! first_diffs := push_range cumulative_difficulties 0 (N - 30) in
    let! mid_diffs := push_range cumulative_difficulties (N - 30) (N - 10) in
    let! last_diffs := push_range cumulative_difficulties (u64 (N * -10)) N in
    let! median_first := median first_diffs in
    let! median_mid := median mid_diffs in
    let! median_last := median last_diffs in
    Some (((u64 (median_mid * 6) / 5 <? median_first) && (u64 (median_last * 10) / 9 <? median_mid)) ||
          ((u64 (median_first * 6) / 5 <? median_mid) && (u64 (median_mid * 10) / 9 <? median_last)))
  else Some false.

(** The variables of the loop over the blocks. *)
Record v4_state := V4State {
  weighted_timespans : Z;
  nbShortTsLastNBlocks : Z;
  lastTimeWasShort : bool;
  lastShortTimeInARaw : Z;
  nbLongTsLastNBlocks : Z;
  previous_max : Z }.

Definition v4_step (timestamps : list Z) (target_seconds : Z) (s : v4_state) (i : nat) : option v4_state :=
  let len := length timestamps in
  let! t := nth_error timestamps i in
  let max_timestamp := if previous_max s <? t then t else previous_max s in
  let timespan := u64 (max_timestamp - previous_max s) in
  let timespan :=
    if timespan =? 0 then 1
    else if u64 (11 * target_seconds) <? timespan then u64 (11 * target_seconds) else timespan in
  let weighted := u64 (weighted_timespans s + u64 (Z.of_nat i * timespan)) in
  if u64 (Z.of_nat len - 7) <=? Z.of_nat i then
    let nbLong := if 100 <? timespan then nbLongTsLastNBlocks s + 1 else nbLongTsLastNBlocks s in
    if timespan <? 30
    then Some (V4State weighted (nbShortTsLastNBlocks s + 1) true (lastShortTimeInARaw s + 1) nbLong max_timestamp)
    else Some (V4State weighted (nbShortTsLastNBlocks s) false 0 nbLong max_timestamp)
  else Some (V4State weighted (nbShortTsLastNBlocks s) (lastTimeWasShort s) (lastShortTimeInARaw s)
                     (nbLongTsLastNBlocks s) max_timestamp).

(** "adjust faster if many blocks fount too fast" *)
Definition v4_adjust (s : v4_state) : Z :=
  let w := weighted_timespans s in
  if lastTimeWasShort s then
    let scale n d k := let w := u64 (w * n) / d in if lastShortTimeInARaw s =? k then u64 (w * 7) / 8 else w in
    if 7 <=? nbShortTsLastNBlocks s then u64 (w * 1) / 2
    else if nbShortTsLastNBlocks s =? 6 then scale 3 5 6
    else if nbShortTsLastNBlocks s =? 5 then scale 4 5 5
    else if nbShortTsLastNBlocks s =? 4 then scale 9 10 4
    else if nbShortTsLastNBlocks s =? 3 then scale 11 12 3
    else w
  else w.

Definition next_difficulty_v4 (timestamps cumulative_difficulties : list Z) (target_seconds : Z) : option Z :=
  let '(timestamps, cumulative_difficulties) :=
    if (DIFFICULTY_BLOCKS_COUNT_V12 <? length timestamps)%nat
    then (resize DIFFICULTY_BLOCKS_COUNT_V12 timestamps, resize DIFFICULTY_BLOCKS_COUNT_V12 cumulative_difficulties)
    else (timestamps, cumulative_difficulties) in
  let! short := short_window cumulative_difficulties in
  let '(timestamps, cumulative_difficulties) :=
    if short then (resize 25 timestamps, resize 25 cumulative_difficulties)
    else (timestamps, cumulative_difficulties) in
  let len := length timestamps in
  let! _ := cassert (len =? length cumulative_difficulties)%nat in
  if (len <=? 1)%nat then Some 1
  else
    let! t0 := nth_error timestamps 0 in
    let! s := foldM (v4_step timestamps target_seconds) (seq 1 (len - 1)) (V4State 0 0 false 0 0 t0) in
    let weighted := v4_adjust s in
    let target := u64 (99 * u64 (Z.of_nat ((len + 1) / 2) * target_seconds)) / 100 in
    let minimum_timespan := u64 (target_seconds * Z.of_nat len) / 2 in
    let weighted := if weighted <? minimum_timespan then minimum_timespan else weighted in
    let! d1 := nth_error cumulative_difficulties (len - 1) in
    let! d0 := nth_error cumulative_difficulties 0 in
    let total_work := u64 (d1 - d0) in
    let! _ := cassert (0 <? total_work) in
    let! '(low, high) := mul total_work target in
    if negb (high =? 0) then Some 0
    else if weighted =? 0 then None
    else Some (low / weighted).

(** ** check_hash *)

Lemma cadd_spec a b : 0 <= a < 2 ^ 64 -> 0 <= b < 2 ^ 64 -> cadd a b = (2 ^ 64 <=? a + b).
Proof.
  intros Ha Hb. unfold cadd. destruct (u64_add_carry a b Ha Hb) as (E & R & _).
  destruct (u64 (a + b) <? a), (Z.leb_spec (2 ^ 64) (a + b)); cbn [bit] in E; trivial; lia.
Qed.

Lemma cadc_spec a b c : 0 <= a < 2 ^ 64 -> 0 <= b < 2 ^ 64 -> cadc a b c = (2 ^ 64 <=? a + b + bit c).
Proof.
  intros Ha Hb. unfold cadc. destruct (u64_add_carry a b Ha Hb) as (E & R & _). change (u64 (-1)) with (2 ^ 64 - 1).
  destruct (u64 (a + b) <? a); cbn [bit orb] in *.
  - symmetry. apply Z.leb_le. destruct c; cbn [bit]; lia.
  - destruct c; cbn [andb bit]; [|symmetry; apply Z.leb_gt; lia].
    destruct (Z.eqb_spec (u64 (a + b)) (2 ^ 64 - 1)), (Z.leb_spec (2 ^ 64) (a + b + 1)); trivial; lia.
Qed.

(** The words of a hash. *)
Lemma hash_words hash :
  bytes hash -> length hash = 32%nat ->
  exists h0 h1 h2 h3, word_at hash 0 = Some h0 /\ word_at hash 1 = Some h1 /\ word_at hash 2 = Some h2 /\ word_at hash 3 = Some h3 /\
    (0 <= h0 < 2 ^ 64 /\ 0 <= h1 < 2 ^ 64 /\ 0 <= h2 < 2 ^ 64 /\ 0 <= h3 < 2 ^ 64) /\
    le_val hash = h0 + 2 ^ 64 * h1 + 2 ^ 128 * h2 + 2 ^ 192 * h3.
Proof.
  intros Hb Hl.
  assert (forall i, (i < 4)%nat -> word_at hash i = Some ((le_val hash / 2 ^ (64 * Z.of_nat i)) mod 2 ^ 64)) as W.
  { intros i Hi. pose proof (word_at_spec hash i Hb ltac:(lia)) as [w [-> [Hw E]]]%returns_some. f_equal.
    apply Z.bits_inj'. intros n Hn. rewrite testbit_mod_pow2 by lia. destruct (Z.ltb_spec n 64); cbn [andb].
    - rewrite E, testbit_div_pow2 by lia. reflexivity.
    - now apply word_high. }
  pose proof (le_val_bound hash Hb) as B. rewrite Hl in B. change (256 ^ Z.of_nat 32) with (2 ^ 256) in B.
  set (v := le_val hash) in *. exists (v mod 2 ^ 64), ((v / 2 ^ 64) mod 2 ^ 64), ((v / 2 ^ 128) mod 2 ^ 64), ((v / 2 ^ 192) mod 2 ^ 64).
  rewrite !W by lia. change (2 ^ (64 * Z.of_nat 0)) with 1. rewrite Z.div_1_r.
  split; [reflexivity|]. split; [reflexivity|]. split; [reflexivity|]. split; [reflexivity|].
  split; [repeat split; apply Z.mod_pos_bound; lia|].
  pose proof (Z.div_mod v (2 ^ 64) ltac:(lia)) as E0. pose proof (Z.div_mod (v / 2 ^ 64) (2 ^ 64) ltac:(lia)) as E1.
  pose proof (Z.div_mod (v / 2 ^ 128) (2 ^ 64) ltac:(lia)) as E2.
  rewrite Z.div_div in E1, E2 by lia. change (2 ^ 64 * 2 ^ 64) with (2 ^ 128) in E1. change (2 ^ 128 * 2 ^ 64) with (2 ^ 192) in E2.
  rewrite (Z.mod_small (v / 2 ^ 192)) by (split; [apply Z.div_pos | apply Z.div_lt_upper_bound]; lia). lia.
Qed.

(** The proof of work test: for every 32-byte hash and every 64-bit difficulty, [check_hash]
    returns true exactly when the hash, read as a little-endian 256-bit integer, times the
    difficulty is below 2^256. *)
Theorem check_hash_correct hash difficulty :
  bytes hash -> length hash = 32%nat -> 0 <= difficulty < 2 ^ 64 ->
  check_hash hash difficulty = Some (le_val hash * difficulty <? 2 ^ 256).
Proof.
  intros Hb Hl Hd. destruct (hash_words hash Hb Hl) as (h0 & h1 & h2 & h3 & W0 & W1 & W2 & W3 & (B0 & B1 & B2 & B3) & E).
  unfold check_hash, mul, ident64. rewrite W0, W1, W2, W3. cbn [bind]. rewrite !mul128_spec by lia. cbn [bind].
  assert (forall h, 0 <= h < 2 ^ 64 -> h * difficulty = 2 ^ 64 * (h * difficulty / 2 ^ 64) + (h * difficulty) mod 2 ^ 64 /\
    0 <= h * difficulty / 2 ^ 64 < 2 ^ 64 /\ 0 <= (h * difficulty) mod 2 ^ 64 < 2 ^ 64) as K.
  { intros h Hh. split; [apply Z.div_mod; lia|]. split; [|apply Z.mod_pos_bound; lia].
    split; [apply Z.div_pos; nia | apply Z.div_lt_upper_bound; nia]. }
  destruct (K h0 B0) as (E0 & H0 & L0), (K h1 B1) as (E1 & H1 & L1), (K h2 B2) as (E2 & H2 & L2), (K h3 B3) as (E3 & H3 & L3).
  assert (le_val hash * difficulty = h0 * difficulty + 2 ^ 64 * (h1 * difficulty) + 2 ^ 128 * (h2 * difficulty) + 2 ^ 192 * (h3 * difficulty))
    as Ev by (rewrite E; ring).
  clear K. revert Ev E0 H0 L0 E1 H1 L1 E2 H2 L2 E3 H3 L3.
  generalize (h0 * difficulty / 2 ^ 64) ((h0 * difficulty) mod 2 ^ 64) (h1 * difficulty / 2 ^ 64) ((h1 * difficulty) mod 2 ^ 64)
    (h2 * difficulty / 2 ^ 64) ((h2 * difficulty) mod 2 ^ 64) (h3 * difficulty / 2 ^ 64) ((h3 * difficulty) mod 2 ^ 64).
  intros q0 l0 q1 l1 q2 l2 q3 l3 Ev E0 H0 L0 E1 H1 L1 E2 H2 L2 E3 H3 L3.
  destruct (Z.eqb_spec q3 0) as [->|N]; cbn [negb]; [|f_equal; symmetry; apply Z.ltb_ge; lia].
  rewrite cadd_spec, !cadc_spec by lia. f_equal.
  destruct (Z.leb_spec (2 ^ 64) (q0 + l1)); cbn [bit];
    (destruct (Z.leb_spec (2 ^ 64) (q1 + l2 + 1)), (Z.leb_spec (2 ^ 64) (q1 + l2 + 0)); cbn [bit]; try lia);
    (destruct (Z.leb_spec (2 ^ 64) (q2 + l3 + 1)), (Z.leb_spec (2 ^ 64) (q2 + l3 + 0)); cbn [negb]; try lia);
    destruct (Z.ltb_spec (le_val hash * difficulty) (2 ^ 256)); trivial; lia.
Qed.

Lemma check_hash_correct_witness :
  check_hash (repeat 255 31 ++ [0]) 256 = Some (le_val (repeat 255 31 ++ [0]) * 256 <? 2 ^ 256).
Proof.
  refine (check_hash_correct (repeat 255 31 ++ [0]) 256 _ eq_refl _); [|lia].
  apply bytes_app; [apply Forall_forall; intros b Hb%repeat_spec; subst b|constructor; [|constructor]]; unfold is_byte; lia.
Defined.

(** ** Sorting *)

Lemma insert_perm x l : Permutation (insert x l) (x :: l).
Proof.
  induction l as [|y l IH]; cbn [insert]; [reflexivity|]. destruct (x <=? y); [reflexivity|].
  rewrite IH. apply perm_swap.
Qed.

Lemma sort_perm l : Permutation (sort l) l.
Proof. induction l as [|x l IH]; cbn [sort]; [reflexivity|]. rewrite insert_perm. now constructor. Qed.

Lemma insert_sorted x l : StronglySorted Z.le l -> StronglySorted Z.le (insert x l).
Proof.
  induction 1 as [|y l Hl IH Hy]; cbn [insert]; [repeat constructor|]. destruct (Z.leb_spec x y).
  - constructor; [now constructor|]. constructor; [assumption|]. eapply Forall_impl; [|exact Hy]. cbv beta. lia.
  - constructor; [exact IH|]. eapply Permutation_Forall; [symmetry; apply insert_perm|]. constructor; [lia | exact Hy].
Qed.

Lemma sort_sorted l : StronglySorted Z.le (sort l).
Proof. induction l as [|x l IH]; cbn [sort]; [constructor | now apply insert_sorted]. Qed.

Lemma sorted_nth (R : Z -> Z -> Prop) l i j :
  StronglySorted R l -> (i < j < length l)%nat -> R (nth i l 0) (nth j l 0).
Proof.
  intros H. revert i j. induction H as [|x l Hl IH Hx]; intros i j Hij; cbn [length] in Hij; [lia|].
  destruct j as [|j]; [lia|]. destruct i as [|i]; cbn [nth].
  - apply (proj1 (Forall_forall _ _) Hx), nth_In. lia.
  - apply IH. lia.
Qed.

Lemma length_sort l : length (sort l) = length l.
Proof. apply Permutation_length, sort_perm. Qed.

Definition wordlist (l : list Z) : Prop := Forall (fun x => 0 <= x < 2 ^ 64) l.

Lemma nth_word l i : wordlist l -> 0 <= nth i l 0 < 2 ^ 64.
Proof.
  intros H. destruct (Nat.lt_ge_cases i (length l)); [apply (proj1 (Forall_forall _ _) H), nth_In; lia|].
  rewrite nth_overflow by lia. lia.
Qed.

Lemma sort_words l : wordlist l -> wordlist (sort l).
Proof. intros H. eapply Permutation_Forall; [symmetry; apply sort_perm | exact H]. Qed.

Lemma firstn_In {A} (x : A) n l : In x (firstn n l) -> In x l.
Proof. intros H. rewrite <- (firstn_skipn n l). apply in_or_app. now left. Qed.

Lemma sorted_firstn R n (l : list Z) : StronglySorted R l -> StronglySorted R (firstn n l).
Proof.
  intros H. revert n. induction H as [|x l Hl IH Hx]; intros [|n]; cbn [firstn]; try constructor; [apply IH|].
  apply Forall_forall. intros y Hy. apply (proj1 (Forall_forall _ _) Hx). now apply firstn_In in Hy.
Qed.

(** ** The versions 1 and 2 *)

(** The block window that the code keeps of [n] blocks: at most 600 of them, in the middle. *)
Lemma cut_window_spec n b e :
  (2 <= n <= 720)%nat -> cut_window n = (b, e) -> (b + 2 <= e <= n)%nat /\ (e - b <= 600)%nat.
Proof.
  intros Hn. unfold cut_window. change (DIFFICULTY_WINDOW - 2 * DIFFICULTY_CUT)%nat with 600%nat.
  cbv zeta. destruct (Nat.leb_spec n 600); intros E; [assert (b = 0 /\ e = n)%nat by (split; congruence); lia|].
  assert (b = (n - 600 + 1) / 2 /\ e = (n - 600 + 1) / 2 + 600)%nat as [-> ->] by (split; congruence).
  pose proof (Nat.div_mod (n - 600 + 1) 2 ltac:(lia)). pose proof (Nat.mod_upper_bound (n - 600 + 1) 2 ltac:(lia)). lia.
Qed.

Lemma resize_firstn n l : (n <= length l)%nat -> resize n l = firstn n l.
Proof. intros H. unfold resize. replace (n - length l)%nat with 0%nat by lia. apply app_nil_r. Qed.

(** The time and the work of the window, as exact integers. *)
Definition window_span (timestamps : list Z) : Z :=
  let ts := sort (firstn DIFFICULTY_WINDOW timestamps) in
  let '(b, e) := cut_window (length ts) in Z.max 1 (nth (e - 1) ts 0 - nth b ts 0).

Definition window_work (cumulative_difficulties : list Z) : Z :=
  let ds := firstn DIFFICULTY_WINDOW cumulative_difficulties in
  let '(b, e) := cut_window (length ds) in nth (e - 1) ds 0 - nth b ds 0.

Lemma work_product_spec ts ds T :
  length ts = length ds -> wordlist ts -> wordlist ds -> StronglySorted Z.lt ds -> 0 <= T < 2 ^ 64 ->
  if (length ts <=? 1)%nat then work_product ts ds T = Some None
  else 0 < window_span ts < 2 ^ 64 /\ 0 < window_work ds < 2 ^ 64 /\
    work_product ts ds T =
      Some (Some ((window_work ds * T) mod 2 ^ 64, (window_work ds * T) / 2 ^ 64, window_span ts)).
Proof.
  intros Hl Wt Wd Sd HT. unfold work_product, window_span, window_work.
  assert ((if (DIFFICULTY_WINDOW <? length ts)%nat then (resize DIFFICULTY_WINDOW ts, resize DIFFICULTY_WINDOW ds) else (ts, ds))
    = (firstn DIFFICULTY_WINDOW ts, firstn DIFFICULTY_WINDOW ds)) as ->.
  { destruct (Nat.ltb_spec DIFFICULTY_WINDOW (length ts)); [now rewrite !resize_firstn by lia | now rewrite !firstn_all2 by lia]. }
  set (ts' := firstn DIFFICULTY_WINDOW ts). set (ds' := firstn DIFFICULTY_WINDOW ds).
  assert (length ts' = Nat.min 720 (length ts)) as Lt by apply length_firstn.
  assert (length ds' = Nat.min 720 (length ts)) as Ld by (unfold ds'; rewrite length_firstn, Hl; reflexivity).
  assert (wordlist ts') as Wt' by (apply Forall_forall; intros x Hx; apply (proj1 (Forall_forall _ _) Wt); now apply firstn_In in Hx).
  assert (wordlist ds') as Wd' by (apply Forall_forall; intros x Hx; apply (proj1 (Forall_forall _ _) Wd); now apply firstn_In in Hx).
  assert (StronglySorted Z.lt ds') as Sd' by now apply sorted_firstn.
  rewrite length_sort, Lt, Ld, Nat.eqb_refl. cbn [cassert bind].
  destruct (Nat.leb_spec (length ts) 1); [now rewrite (proj2 (Nat.leb_le _ _)) by lia|].
  rewrite (proj2 (Nat.leb_gt (Nat.min 720 (length ts)) 1)) by lia.
  rewrite (proj2 (Nat.leb_le _ DIFFICULTY_WINDOW)) by (unfold DIFFICULTY_WINDOW; lia). cbn [cassert bind].
  destruct (cut_window (Nat.min 720 (length ts))) as [b e] eqn:C.
  destruct (cut_window_spec (Nat.min 720 (length ts)) b e ltac:(lia) C) as [Hbe He].
  rewrite (proj2 (Nat.leb_le (b + 2) e)), (proj2 (Nat.leb_le e _)) by lia. cbn [andb cassert bind].
  pose proof (sorted_nth Z.le (sort ts') b (e - 1) (sort_sorted ts') ltac:(rewrite length_sort; lia)) as Ht.
  pose proof (sorted_nth Z.lt ds' b (e - 1) Sd' ltac:(lia)) as Hd.
  rewrite !(nth_error_nth' (sort ts') 0), !(nth_error_nth' ds' 0) by (rewrite ?length_sort; lia). cbn [bind].
  pose proof (nth_word (sort ts') b (sort_words _ Wt')). pose proof (nth_word (sort ts') (e - 1) (sort_words _ Wt')).
  pose proof (nth_word ds' b Wd'). pose proof (nth_word ds' (e - 1) Wd').
  rewrite !u64_small by lia. rewrite (proj2 (Z.ltb_lt 0 _)) by lia. cbn [cassert bind].
  split; [lia|]. split; [lia|]. unfold mul. rewrite mul128_spec by lia. cbn [bind]. do 3 f_equal.
  destruct (Z.eqb_spec (nth (e - 1) (sort ts') 0 - nth b (sort ts') 0) 0); lia.
Qed.

(** The difficulty of the versions 1 and 2: on equally many timestamps (in any order) and strictly
    increasing cumulative difficulties, no assertion fails. With at most one block the result
    is 1. Otherwise version 2 is the work of the window times the target divided by its time
    span, rounded up, when the numerator fits in 64 bits, and 1 when it does not; and version
    1 is the same in the first case. *)
Theorem next_difficulty_correct ts ds T :
  length ts = length ds -> wordlist ts -> wordlist ds -> StronglySorted Z.lt ds -> 0 <= T < 2 ^ 64 ->
  let S := window_span ts in
  let W := window_work ds in
  ((length ts <= 1)%nat -> next_difficulty ts ds T = Some 1 /\ next_difficulty_v2 ts ds T = Some 1) /\
  ((2 <= length ts)%nat ->
     0 < S /\ 0 < W /\
     (W * T + S - 1 < 2 ^ 64 -> next_difficulty ts ds T = Some ((W * T + S - 1) / S) /\
                                 next_difficulty_v2 ts ds T = Some ((W * T + S - 1) / S)) /\
     (2 ^ 64 <= W * T + S - 1 -> next_difficulty_v2 ts ds T = Some 1)).
Proof.
  intros Hl Wt Wd Sd HT S W. unfold next_difficulty, next_difficulty_v2.
  pose proof (work_product_spec ts ds T Hl Wt Wd Sd HT) as H.
  destruct (Nat.leb_spec (length ts) 1) as [L|L].
  - rewrite H. cbn [bind]. split; [intros _; split; reflexivity | lia].
  - destruct H as (HS & HW & E). fold S in HS, E. fold W in HW, E. split; [lia|]. intros _. split; [lia|]. split; [lia|].
    rewrite E. cbn [bind]. clear E. pose proof (Z.div_mod (W * T) (2 ^ 64) ltac:(lia)) as D.
    pose proof (Z.mod_pos_bound (W * T) (2 ^ 64) ltac:(lia)) as M. pose proof (Z.div_pos (W * T) (2 ^ 64) ltac:(nia) ltac:(lia)) as P.
    set (lo := (W * T) mod 2 ^ 64) in *. set (hi := W * T / 2 ^ 64) in *.
    assert (u64 (u64 (lo + S) - 1) = (lo + S - 1) mod 2 ^ 64) as Eu.
    { unfold u64. rewrite Zminus_mod_idemp_l. f_equal. }
    rewrite Eu. split; intros B.
    + assert (hi = 0) as Eh by lia. rewrite Eh. cbn [Z.eqb negb orb]. rewrite Z.mod_small by lia.
      replace (W * T + S - 1) with (lo + S - 1) by lia. now rewrite (proj2 (Z.ltb_ge _ _)) by lia.
    + destruct (Z.eqb_spec hi 0) as [Eh|N]; cbn [negb orb]; [|reflexivity].
      assert ((lo + S - 1) mod 2 ^ 64 = lo + S - 1 - 2 ^ 64) as -> by (symmetry; apply (Z.mod_unique_pos _ _ 1); lia).
      now rewrite (proj2 (Z.ltb_lt _ _)) by lia.
Qed.

Lemma small_words l : forallb (fun x => (0 <=? x) && (x <? 2 ^ 60)) l = true -> wordlist l.
Proof.
  intros H. apply Forall_forall. intros x Hx. rewrite forallb_forall in H. specialize (H x Hx). lia.
Qed.

Lemma next_difficulty_correct_witness :
  next_difficulty [100; 160; 130] [1000; 1050; 1090] 60 = Some ((90 * 60 + 60 - 1) / 60) /\
  next_difficulty_v2 [100; 160; 130] [1000; 1050; 1090] 60 = Some ((90 * 60 + 60 - 1) / 60).
Proof.
  refine (proj1 (proj2 (proj2 (proj2 (next_difficulty_correct [100; 160; 130] [1000; 1050; 1090] 60 eq_refl _ _ _ _) _))) _).
  - apply small_words. reflexivity.
  - apply small_words. reflexivity.
  - repeat constructor.
  - lia.
  - cbn. lia.
  - vm_compute. reflexivity.
Defined.

(** Version 1 does not test for overflow: two blocks with a work of 2^60 in a second, at a target
    of 60 seconds, give a difficulty below the work of one second. *)
Theorem next_difficulty_wraps :
  next_difficulty [0; 1] [0; 2 ^ 60] 64 = Some 0 /\ next_difficulty_v2 [0; 1] [0; 2 ^ 60] 64 = Some 1 /\
  window_work [0; 2 ^ 60] * 64 / window_span [0; 1] = 2 ^ 66.
Proof. vm_compute. repeat split. Qed.

(** ** Version 4 *)

Lemma median_bounds v lo hi :
  v <> [] -> 0 <= lo -> hi < 2 ^ 63 -> Forall (fun x => lo <= x <= hi) v ->
  exists m, median v = Some m /\ lo <= m <= hi.
Proof.
  intros Ne Hlo Hhi Hv. assert (Forall (fun x => lo <= x <= hi) (sort v)) as Hs
    by (eapply Permutation_Forall; [symmetry; apply sort_perm | exact Hv]).
  assert (forall i, (i < length v)%nat -> lo <= nth i (sort v) 0 <= hi) as Hn.
  { intros i Hi. apply (proj1 (Forall_forall _ _) Hs), nth_In. now rewrite length_sort. }
  unfold median. destruct v as [|x [|y v]]; [congruence | inversion Hv; eauto |].
  set (l := x :: y :: v) in *. assert (2 <= length l)%nat as L2 by (cbn; lia).
  pose proof (Nat.div_mod (length l) 2 ltac:(lia)) as D. pose proof (Nat.mod_upper_bound (length l) 2 ltac:(lia)) as M.
  rewrite !length_sort. set (n := (length l / 2)%nat) in *.
  rewrite !(nth_error_nth' (sort l) 0) by (rewrite length_sort; lia). cbn [bind].
  pose proof (Hn n ltac:(lia)). pose proof (Hn (n - 1)%nat ltac:(lia)).
  destruct (length l mod 2 =? 0)%nat; [|eauto]. eexists. split; [reflexivity|]. rewrite u64_small by lia.
  split; [apply Z.div_le_lower_bound; lia | apply Z.div_le_upper_bound; lia].
Qed.

Lemma push_range_spec v a b :
  0 <= a -> a < b -> b <= Z.of_nat (length v) ->
  push_range v a b = Some (map (fun i => nth i v 0) (seq (Z.to_nat a) (Z.to_nat (b - a)))).
Proof.
  intros Ha Hab Hb. unfold push_range. rewrite (proj2 (Z.leb_gt _ _)) by lia. apply mapM_map.
  intros i [H1 H2]%in_seq. apply nth_error_nth'. lia.
Qed.

(** The branches that cut the window to 25 blocks are never taken: the last range is empty, since
    its lower bound, [70 * -10], is converted to a huge [size_t]. *)
Lemma short_window_false ds :
  Forall (fun x => 0 <= x < 2 ^ 60) ds -> StronglySorted Z.lt ds -> short_window ds = Some false.
Proof.
  intros Wd Sd. unfold short_window. change (Z.of_nat DIFFICULTY_BLOCKS_COUNT_V12) with 70.
  destruct (Z.leb_spec (70 - 1) (Z.of_nat (length ds))) as [L|]; [|reflexivity].
  rewrite !push_range_spec by lia. replace (push_range ds (u64 (70 * -10)) 70) with (Some (@nil Z)) by reflexivity.
  set (f := map (fun i => nth i ds 0) (seq (Z.to_nat 0) (Z.to_nat (70 - 30 - 0)))).
  set (m := map (fun i => nth i ds 0) (seq (Z.to_nat (70 - 30)) (Z.to_nat (70 - 10 - (70 - 30))))). cbn [bind].
  assert (forall i, (i < length ds)%nat -> 0 <= nth i ds 0 < 2 ^ 60) as B
    by (intros i Hi; apply (proj1 (Forall_forall _ _) Wd), nth_In, Hi).
  assert (forall i j, (i <= j < length ds)%nat -> nth i ds 0 <= nth j ds 0) as Mo.
  { intros i j Hij. destruct (Nat.eq_dec i j) as [->|]; [lia|]. apply Z.lt_le_incl, sorted_nth; [exact Sd | lia]. }
  destruct (median_bounds f 0 (nth 39 ds 0)) as (mf & -> & Bf).
  { discriminate. }
  { lia. }
  { pose proof (B 39%nat ltac:(lia)). lia. }
  { apply Forall_map, Forall_forall. intros i [_ Hi]%in_seq. pose proof (B i ltac:(lia)). pose proof (Mo i 39%nat ltac:(lia)). lia. }
  destruct (median_bounds m (nth 40 ds 0) (nth 59 ds 0)) as (mm & -> & Bm).
  { discriminate. }
  { pose proof (B 40%nat ltac:(lia)). lia. }
  { pose proof (B 59%nat ltac:(lia)). lia. }
  { apply Forall_map, Forall_forall. intros i [Hi1 Hi2]%in_seq.
    pose proof (Mo i 59%nat ltac:(lia)). pose proof (Mo 40%nat i ltac:(lia)). lia. }
  cbn [bind median]. pose proof (Mo 39%nat 40%nat ltac:(lia)). pose proof (B 59%nat ltac:(lia)). pose proof (B 40%nat ltac:(lia)).
  rewrite (u64_small (mm * 6)), (u64_small (mm * 10)) by lia.
  assert (mm <= mm * 6 / 5) by (apply Z.div_le_lower_bound; lia).
  assert (0 <= mm * 10 / 9) by (apply Z.div_pos; lia).
  rewrite (proj2 (Z.ltb_ge (mm * 6 / 5) mf)), (proj2 (Z.ltb_ge (mm * 10 / 9) 0)) by lia. cbn [andb orb].
  now rewrite andb_false_r.
Qed.

(** What a step of the loop over the blocks keeps: the running maximum is a word, and the sum of
    the weighted time spans, each between 1 and 11 targets, does not wrap around. *)
Definition v4_inv (T : Z) (i : nat) (s : v4_state) : Prop :=
  0 <= previous_max s < 2 ^ 64 /\
  Z.of_nat i * (Z.of_nat i - 1) <= 2 * weighted_timespans s <= 11 * T * (Z.of_nat i * (Z.of_nat i - 1)).

Lemma v4_step_spec ts T i s :
  wordlist ts -> (i < length ts <= 70)%nat -> 1 <= T < 2 ^ 32 -> v4_inv T i s ->
  returns (v4_step ts T s i) (v4_inv T (S i)).
Proof.
  intros Wt Hi HT [Hp Hw]. unfold v4_step. rewrite (nth_error_nth' ts 0) by lia. cbn [bind].
  pose proof (nth_word ts i Wt) as Ht. set (t := nth i ts 0) in *.
  set (mx := if previous_max s <? t then t else previous_max s).
  assert (previous_max s <= mx < 2 ^ 64) as Hm by (unfold mx; destruct (Z.ltb_spec (previous_max s) t); lia).
  rewrite (u64_small (mx - _)), (u64_small (11 * T)) by lia.
  set (sp := if mx - previous_max s =? 0 then 1 else if 11 * T <? mx - previous_max s then 11 * T else mx - previous_max s).
  assert (1 <= sp <= 11 * T) as Hs by (unfold sp;
    destruct (Z.eqb_spec (mx - previous_max s) 0), (Z.ltb_spec (11 * T) (mx - previous_max s)); lia).
  assert (0 <= Z.of_nat i < 70) as Hn by lia. set (n := Z.of_nat i) in *.
  assert (0 <= n * sp <= 70 * (11 * 2 ^ 32)) by nia. assert (0 <= weighted_timespans s <= 2 ^ 60) by nia.
  rewrite (u64_small (n * sp)), (u64_small (_ + _)) by lia.
  assert (v4_inv T (S i) (V4State (weighted_timespans s + n * sp) 0 false 0 0 mx)) as [I1 I2].
  { split; cbn [previous_max weighted_timespans]; [lia|]. rewrite Nat2Z.inj_succ. fold n. nia. }
  destruct (_ <=? n); [destruct (sp <? 30)|]; split; assumption.
Qed.

(** The adjustment never lengthens the time span. *)
Lemma v4_adjust_bounds s :
  0 <= weighted_timespans s <= 2 ^ 60 -> 0 <= v4_adjust s <= weighted_timespans s.
Proof.
  intros Hw. unfold v4_adjust. set (w := weighted_timespans s) in *.
  assert (forall x n d, 0 <= x <= 2 ^ 60 -> 0 <= n <= d -> 1 <= d <= 12 -> 0 <= u64 (x * n) / d <= x) as K.
  { intros x n d Hx Hn Hd. rewrite u64_small by nia. split; [apply Z.div_pos; nia | apply Z.div_le_upper_bound; nia]. }
  pose proof (fun n d H1 H2 => K w n d Hw H1 H2) as Kw.
  destruct (lastTimeWasShort s); [|lia].
  destruct (7 <=? _); [apply Kw; lia|].
  assert (forall n d k, 0 <= n <= d -> 1 <= d <= 12 ->
    0 <= (if lastShortTimeInARaw s =? k then u64 (u64 (w * n) / d * 7) / 8 else u64 (w * n) / d) <= w) as Ks.
  { intros n d k H1 H2. pose proof (Kw n d H1 H2). destruct (_ =? k); [|lia].
    pose proof (K (u64 (w * n) / d) 7 8 ltac:(lia) ltac:(lia) ltac:(lia)). lia. }
  destruct (_ =? 6); [apply Ks; lia|]. destruct (_ =? 5); [apply Ks; lia|].
  destruct (_ =? 4); [apply Ks; lia|]. destruct (_ =? 3); [apply Ks; lia | lia].
Qed.

(** The target of the window, in seconds. *)
Definition v4_target (n T : Z) : Z := 99 * ((n + 1) / 2 * T) / 100.

Lemma v4_loop ts T :
  wordlist ts -> (2 <= length ts <= 70)%nat -> 1 <= T < 2 ^ 32 ->
  exists s, foldM (v4_step ts T) (seq 1 (length ts - 1)) (V4State 0 0 false 0 0 (nth 0 ts 0)) = Some s /\
    v4_inv T (length ts) s.
Proof.
  intros Wt Hl HT. apply returns_some. replace (length ts) with (1 + (length ts - 1))%nat at 2 by lia.
  apply foldM_seq.
  - split; cbn [previous_max weighted_timespans]; [now apply nth_word | lia].
  - intros i s Hi Hs. apply v4_step_spec; [exact Wt | lia | exact HT | exact Hs].
Qed.

Lemma v4_window ts ds :
  length ts = length ds ->
  (if (DIFFICULTY_BLOCKS_COUNT_V12 <? length ts)%nat
   then (resize DIFFICULTY_BLOCKS_COUNT_V12 ts, resize DIFFICULTY_BLOCKS_COUNT_V12 ds) else (ts, ds))
  = (firstn 70 ts, firstn 70 ds).
Proof.
  intros Hl. change DIFFICULTY_BLOCKS_COUNT_V12 with 70%nat.
  destruct (Nat.ltb_spec 70 (length ts)); [now rewrite !resize_firstn by lia | now rewrite !firstn_all2 by lia].
Qed.

Lemma Forall_firstn {A} (P : A -> Prop) n l : Forall P l -> Forall P (firstn n l).
Proof. intros H. apply Forall_forall. intros x Hx. apply (proj1 (Forall_forall _ _) H). now apply firstn_In in Hx. Qed.

(** C40: the bounds of version 4: on n blocks (at least two; the first 70 count) with word
    timestamps in any order, strictly increasing cumulative difficulties below 2^60 and a
    target T from 1 to 2^32 - 1, no assertion fails and nothing is divided by zero. With W
    the work of the window and G its target time, the result is 0 when
    W G does not fit in 64 bits; otherwise it is at most W G / (n T / 2) and at least
    W G / (11 T n (n - 1) / 2), whatever the timestamps are. *)
Theorem next_difficulty_v4_bounds ts ds T :
  length ts = length ds -> (2 <= length ts)%nat -> wordlist ts ->
  Forall (fun x => 0 <= x < 2 ^ 60) ds -> StronglySorted Z.lt ds -> 1 <= T < 2 ^ 32 ->
  let n := Z.min 70 (Z.of_nat (length ts)) in
  let W := nth (Z.to_nat n - 1) ds 0 - nth 0 ds 0 in
  let G := v4_target n T in
  exists r, next_difficulty_v4 ts ds T = Some r /\ 0 < W /\
    (2 ^ 64 <= W * G -> r = 0) /\
    (W * G < 2 ^ 64 -> W * G / (11 * T * (n * (n - 1)) / 2) <= r <= W * G / (T * n / 2)).
Proof.
  intros Hl L2 Wt Bd Sd HT n W G. unfold next_difficulty_v4. rewrite v4_window by exact Hl.
  rewrite (short_window_false (firstn 70 ds)) by (auto using Forall_firstn, sorted_firstn). cbn [bind].
  set (ts' := firstn 70 ts). set (ds' := firstn 70 ds).
  assert (Z.of_nat (length ts') = n) as Lt by (unfold ts', n; rewrite length_firstn; lia).
  assert (length ds' = length ts') as Ld by (unfold ts', ds'; rewrite !length_firstn; lia).
  assert (2 <= length ts' <= 70)%nat as B by lia.
  rewrite Ld, Nat.eqb_refl, (proj2 (Nat.leb_gt _ 1)) by lia. cbn [cassert bind].
  rewrite (nth_error_nth' ts' 0) by lia. cbn [bind].
  destruct (v4_loop ts' T (Forall_firstn _ _ _ Wt) B HT) as (s & -> & Hp & Hw). cbn [bind].
  rewrite Lt in Hw. assert (2 <= n <= 70) as Hn by lia.
  pose proof (v4_adjust_bounds s ltac:(nia)) as Ha.
  assert (Z.of_nat ((length ts' + 1) / 2) = (n + 1) / 2) as E2 by (rewrite Nat2Z.inj_div, Nat2Z.inj_add, Lt; reflexivity).
  assert (1 <= (n + 1) / 2 <= 35) as H2 by (split; [apply Z.div_le_lower_bound | apply Z.lt_succ_r, Z.div_lt_upper_bound]; lia).
  rewrite E2, Lt. rewrite (u64_small ((n + 1) / 2 * T)) by nia. rewrite (u64_small (99 * _)) by nia. fold (v4_target n T). fold G.
  rewrite (u64_small (T * n)) by nia.
  assert (0 <= G < 2 ^ 60) as HG.
  { unfold G, v4_target. split; [apply Z.div_pos; nia | apply Z.div_lt_upper_bound; nia]. }
  assert (1 <= T * n / 2) as Hmin by (apply Z.div_le_lower_bound; nia).
  assert (T * n / 2 <= 11 * T * (n * (n - 1)) / 2) as Hmm by (apply Z.div_le_mono; nia).
  assert (v4_adjust s <= 11 * T * (n * (n - 1)) / 2) as Hmax by (apply Z.div_le_lower_bound; lia).
  set (w := if v4_adjust s <? T * n / 2 then T * n / 2 else v4_adjust s).
  assert (T * n / 2 <= w <= 11 * T * (n * (n - 1)) / 2) as Bw
    by (unfold w; destruct (Z.ltb_spec (v4_adjust s) (T * n / 2)); lia).
  rewrite !(nth_error_nth' ds' 0) by lia. cbn [bind].
  assert (forall i, (i < length ts')%nat -> nth i ds' 0 = nth i ds 0) as En
    by (intros i Hi; unfold ds'; rewrite nth_firstn, (proj2 (Nat.ltb_lt _ _)) by lia; reflexivity).
  rewrite !En by lia. replace (length ts' - 1)%nat with (Z.to_nat n - 1)%nat by lia. fold W.
  assert (0 < W < 2 ^ 60) as HW.
  { unfold W. pose proof (sorted_nth Z.lt ds 0 (Z.to_nat n - 1) Sd ltac:(lia)) as Hlt. rewrite Forall_forall in Bd.
    pose proof (Bd _ (nth_In ds 0 (ltac:(lia) : (0 < length ds)%nat))).
    pose proof (Bd _ (nth_In ds 0 (ltac:(lia) : (Z.to_nat n - 1 < length ds)%nat))). lia. }
  rewrite (u64_small W), (proj2 (Z.ltb_lt 0 W)) by lia. cbn [cassert bind]. unfold mul. rewrite mul128_spec by lia. cbn [bind].
  rewrite (proj2 (Z.eqb_neq w 0)) by lia.
  destruct (Z.lt_ge_cases (W * G) (2 ^ 64)) as [C|C].
  - rewrite (Z.div_small (W * G)), (Z.mod_small (W * G)) by nia. exists (W * G / w).
    split; [reflexivity|]. split; [lia|]. split; [lia|]. intros _.
    split; apply Z.div_le_compat_l; nia.
  - assert (1 <= W * G / 2 ^ 64) by (apply Z.div_le_lower_bound; lia).
    rewrite (proj2 (Z.eqb_neq _ 0)) by lia. exists 0. split; [reflexivity|]. split; [lia|]. split; [reflexivity | lia].
Qed.

Lemma next_difficulty_v4_bounds_witness :
  exists r, next_difficulty_v4 [1000; 1070; 1120; 1090] [500; 600; 720; 800] 60 = Some r /\ 8 <= r <= 295.
Proof.
  destruct (next_difficulty_v4_bounds [1000; 1070; 1120; 1090] [500; 600; 720; 800] 60) as (r & E & _ & _ & B).
  - reflexivity.
  - cbn. lia.
  - apply small_words. reflexivity.
  - repeat (constructor; [lia|]). constructor.
  - repeat constructor.
  - lia.
  - exists r. split; [exact E|]. exact (B eq_refl).
Defined.
