(* ===== verification/HexStr.v ===== *)
(** * Hexadecimal strings

    Models hex.cpp ([write_hex], [to_hex::string]) and the hexadecimal functions of
    string_tools.h of epee ([trim], [parse_hexstr_to_binbuff], [pod_to_hex], [hex_to_pod]),
    with [strtoul] in base 16 of the C library and [isspace] of the C locale. Strings and
    objects are lists of bytes. A function that returns [false] gives [None]. *)

From Stdlib Require Import ZArith Lia List Bool.
From S2P Require Import Prelude Bytes.
Import ListNotations.

#[local] Open Scope Z_scope.

(** ** The code *)

(** "0123456789abcdef" *)
Definition hex : list Z := [48; 49; 50; 51; 52; 53; 54; 55; 56; 57; 97; 98; 99; 100; 101; 102].

Fixpoint write_hex (src : list Z) : option (list Z) :=
  match src with
  | [] => Some []
  | byte :: src =>
      let! a := nth_error hex (Z.to_nat (Z.shiftr byte 4)) in
      let! b := nth_error hex (Z.to_nat (Z.land byte 0x0F)) in
      let! out := write_hex src in
      Some (a :: b :: out)
  end.

(** The size test of [to_hex::string] cannot fail for arrays in memory. *)
Definition to_hex_string (src : list Z) : option (list Z) := write_hex src.

Definition pod_to_hex (s : list Z) : option (list Z) := to_hex_string s.

Definition isspace (c : Z) : bool := ((9 <=? c) && (c <=? 13)) || (c =? 32).

Fixpoint trim_left (str : list Z) : list Z :=
  match str with
  | [] => []
  | c :: str' => if isspace c then trim_left str' else str
  end.

Definition trim_right (str : list Z) : list Z := rev (trim_left (rev str)).

Definition trim (str : list Z) : list Z := trim_right (trim_left str).

(** The value of a hexadecimal digit. *)
Definition hex_value (c : Z) : option Z :=
  if (48 <=? c) && (c <=? 57) then Some (c - 48)
  else if (97 <=? c) && (c <=? 102) then Some (c - 87)
  else if (65 <=? c) && (c <=? 70) then Some (c - 55)
  else None.

Fixpoint hex_digits (s : list Z) (acc : Z) (n : nat) : Z * nat :=
  match s with
  | [] => (acc, n)
  | c :: s => match hex_value c with Some d => hex_digits s (16 * acc + d) (S n) | None => (acc, n) end
  end.

(** [strtoul(s, &endptr, 16)]: the value, and the number of characters it was read from, zero
    when there is no number. *)
Definition strtoul16 (s : list Z) : Z * nat :=
  let s1 := trim_left s in
  let '(neg, s2) :=
    match s1 with
    | 45 :: s2 => (true, s2)
    | 43 :: s2 => (false, s2)
    | _ => (false, s1)
    end in
  let s3 :=
    match s2 with
    | 48 :: x :: d :: s3 =>
        if ((x =? 120) || (x =? 88)) && (match hex_value d with Some _ => true | None => false end) then d :: s3 else s2
    | _ => s2
    end in
  let '(v, n) := hex_digits s3 0 0 in
  if (n =? 0)%nat then (0, 0%nat)
  else ((if 2 ^ 64 <=? v then 2 ^ 64 - 1 else if neg then u64 (- v) else v), (length s - length s3 + n)%nat).

(** The loop over the pairs of characters; [v] is a [long]. *)
Fixpoint parse_pairs (n : nat) (s : list Z) : option (list Z) :=
  match n with
  | O => Some []
  | S n =>
      let byte_str := firstn 2 s in
      let '(u, endptr) := strtoul16 byte_str in
      let v := to_i64 u in
      if (v <? 0) || (0xFF <? v) || negb (endptr =? length byte_str)%nat then None
      else let! res := parse_pairs n (skipn 2 s) in Some (v :: res)
  end.

Definition parse_hexstr_to_binbuff (s : list Z) (allow_partial_byte : bool) : option (list Z) :=
  if negb allow_partial_byte && Nat.odd (length s) then None
  else parse_pairs ((length s + 1) / 2) s.

(** [hex_to_pod] for an object of [size] bytes. *)
Definition hex_to_pod (size : nat) (hex_str : list Z) : option (list Z) :=
  let hex_str_tr := trim hex_str in
  if negb (size * 2 =? length hex_str)%nat then None
  else
    let! bin_buff := parse_hexstr_to_binbuff hex_str_tr false in
    if negb (length bin_buff =? size)%nat then None else Some bin_buff.

(** ** What two characters stand for *)

(** Two digits; or a digit after a space or a plus sign, or a zero after a minus sign, which
    [strtoul] also reads. *)
Definition pair_value (a b : Z) : option Z :=
  match hex_value a, hex_value b with
  | Some x, Some y => Some (16 * x + y)
  | None, Some y => if isspace a || (a =? 43) || ((a =? 45) && (y =? 0)) then Some y else None
  | _, None => None
  end.

Fixpoint hex_pairs (s : list Z) : option (list Z) :=
  match s with
  | [] => Some []
  | [_] => None
  | a :: b :: s => let! v := pair_value a b in let! r := hex_pairs s in Some (v :: r)
  end.

(** One step of the loop. *)
Definition pair_step (a b : Z) : option Z :=
  let '(u, endptr) := strtoul16 [a; b] in
  let v := to_i64 u in
  if (v <? 0) || (0xFF <? v) || negb (endptr =? 2)%nat then None else Some v.

Definition pair_eqb (x y : option Z) : bool :=
  match x, y with
  | Some x, Some y => x =? y
  | None, None => true
  | _, _ => false
  end.

Definition all_bytes : list Z := map Z.of_nat (seq 0 256).

Lemma all_bytes_in b : is_byte b -> In b all_bytes.
Proof.
  intros [H1 H2]. unfold all_bytes. rewrite <- (Z2Nat.id b) by lia. apply in_map, in_seq. lia.
Qed.

Lemma pair_step_all :
  forallb (fun a => forallb (fun b => pair_eqb (pair_step a b) (pair_value a b)) all_bytes) all_bytes = true.
Proof. vm_compute. reflexivity. Qed.

Lemma pair_step_value a b : is_byte a -> is_byte b -> pair_step a b = pair_value a b.
Proof.
  intros Ha Hb. pose proof pair_step_all as H. rewrite forallb_forall in H. specialize (H a (all_bytes_in a Ha)).
  rewrite forallb_forall in H. specialize (H b (all_bytes_in b Hb)).
  destruct (pair_step a b), (pair_value a b); cbn in H; try discriminate; [apply Z.eqb_eq in H; now subst | reflexivity].
Qed.

(** [parse_pairs] steps by [pair_step]. *)
Lemma parse_pairs_cons n a b s :
  parse_pairs (S n) (a :: b :: s) = let! v := pair_step a b in let! r := parse_pairs n s in Some (v :: r).
Proof.
  cbn [parse_pairs]. change (firstn 2 (a :: b :: s)) with [a; b]. change (skipn 2 (a :: b :: s)) with s.
  change (length [a; b]) with 2%nat. unfold pair_step. destruct (strtoul16 [a; b]) as [u e]. cbv zeta.
  now destruct (_ || _).
Qed.

Lemma parse_pairs_spec n s : length s = (2 * n)%nat -> bytes s -> parse_pairs n s = hex_pairs s.
Proof.
  revert s. induction n as [|n IH]; intros s Hl Hs.
  - destruct s; [reflexivity | discriminate Hl].
  - destruct s as [|a [|b s]]; cbn [length] in Hl; [lia | lia |]. apply Forall_cons_iff in Hs as [Ha Hs].
    apply Forall_cons_iff in Hs as [Hb Hs]. rewrite parse_pairs_cons, pair_step_value, IH by (assumption || lia).
    reflexivity.
Qed.

Lemma hex_pairs_odd n s : length s = (2 * n + 1)%nat -> hex_pairs s = None.
Proof.
  revert s. induction n as [|n IH]; intros s Hl.
  - destruct s as [|a [|b s]]; cbn [length] in Hl; [lia | reflexivity | lia].
  - destruct s as [|a [|b s]]; cbn [length] in Hl; [lia | lia |]. cbn [hex_pairs]. rewrite IH by lia.
    now destruct (pair_value a b).
Qed.

Lemma parse_hexstr_spec s : bytes s -> parse_hexstr_to_binbuff s false = hex_pairs s.
Proof.
  intros Hs. unfold parse_hexstr_to_binbuff. cbn [negb andb]. pose proof (Nat.div2_odd (length s)) as D.
  destruct (Nat.odd (length s)); cbn [Nat.b2n] in D.
  - symmetry. now apply (hex_pairs_odd (Nat.div2 (length s))).
  - rewrite D at 1. replace (2 * Nat.div2 (length s) + 0 + 1)%nat with (1 + Nat.div2 (length s) * 2)%nat by lia.
    rewrite Nat.div_add by lia. apply parse_pairs_spec; [cbn; lia | exact Hs].
Qed.

(** ** The round trip *)

(** A byte and its two digits. *)
Definition digit_check (x : Z) : bool :=
  match nth_error hex (Z.to_nat (Z.shiftr x 4)), nth_error hex (Z.to_nat (Z.land x 0x0F)) with
  | Some a, Some b => pair_eqb (pair_value a b) (Some x) && (0 <=? a) && (a <? 256) && (0 <=? b) && (b <? 256) &&
                      negb (isspace a) && negb (isspace b)
  | _, _ => false
  end.

Lemma digit_check_all : forallb digit_check all_bytes = true.
Proof. vm_compute. reflexivity. Qed.

Lemma byte_digits x :
  is_byte x -> exists a b,
    nth_error hex (Z.to_nat (Z.shiftr x 4)) = Some a /\ nth_error hex (Z.to_nat (Z.land x 0x0F)) = Some b /\
    pair_value a b = Some x /\ is_byte a /\ is_byte b /\ isspace a = false /\ isspace b = false.
Proof.
  intros Hx. pose proof digit_check_all as H. rewrite forallb_forall in H. specialize (H x (all_bytes_in x Hx)).
  unfold digit_check in H. destruct (nth_error hex (Z.to_nat (Z.shiftr x 4))) as [a|]; [|discriminate H].
  destruct (nth_error hex (Z.to_nat (Z.land x 0x0F))) as [b|]; [|discriminate H].
  rewrite !andb_true_iff, !negb_true_iff in H. destruct H as ((((((E & A1) & A2) & B1) & B2) & Sa) & Sb).
  exists a, b. unfold is_byte. destruct (pair_value a b) as [v|]; [|discriminate E]. cbn in E. apply Z.eqb_eq in E. subst v.
  repeat split; (assumption || reflexivity || lia).
Qed.

Lemma write_hex_spec b :
  bytes b -> exists h, write_hex b = Some h /\ length h = (2 * length b)%nat /\ bytes h /\
    Forall (fun c => isspace c = false) h /\ hex_pairs h = Some b.
Proof.
  induction 1 as [|x l Hx Hl (h & E & L & B & S & P)]; [exists []; repeat split; constructor|].
  destruct (byte_digits x Hx) as (a & c & Ea & Ec & Ev & Ba & Bc & Sa & Sc).
  exists (a :: c :: h). cbn [write_hex]. rewrite Ea. cbn [bind]. rewrite Ec. cbn [bind]. rewrite E. cbn [bind hex_pairs length].
  rewrite Ev. cbn [bind]. rewrite P. repeat split; [lia | repeat constructor; apply Ba || apply Bc || exact B |
    repeat constructor; assumption].
Qed.

Lemma trim_left_id s : Forall (fun c => isspace c = false) s -> trim_left s = s.
Proof. destruct 1 as [|c s Hc]; cbn [trim_left]; [reflexivity | now rewrite Hc]. Qed.

Lemma trim_id s : Forall (fun c => isspace c = false) s -> trim s = s.
Proof.
  intros H. unfold trim, trim_right. rewrite (trim_left_id s) by exact H.
  rewrite (trim_left_id (rev s)) by now apply Forall_rev. apply rev_involutive.
Qed.

Lemma hex_roundtrip b :
  bytes b -> exists h, pod_to_hex b = Some h /\ length h = (2 * length b)%nat /\ bytes h /\
    Forall (fun c => isspace c = false) h /\ hex_to_pod (length b) h = Some b.
Proof.
  intros Hb. destruct (write_hex_spec b Hb) as (h & E & L & B & S & P). exists h.
  split; [exact E|]. split; [exact L|]. split; [exact B|]. split; [exact S|]. unfold hex_to_pod.
  rewrite trim_id, parse_hexstr_spec, P, L by assumption. rewrite (Nat.mul_comm 2), Nat.eqb_refl. cbn [negb bind].
  now rewrite Nat.eqb_refl.
Qed.

(** Hexadecimal strings: the bytes of every object are written as two digits each and read back
    by [hex_to_pod]; and [parse_hexstr_to_binbuff] reads a string pair by pair, accepting two
    digits of either case, but also a digit after a white-space character or a plus sign, and
    a zero after a minus sign. *)
Theorem hex_correct b s :
  bytes b -> bytes s ->
  (exists h, pod_to_hex b = Some h /\ length h = (2 * length b)%nat /\ hex_to_pod (length b) h = Some b) /\
  parse_hexstr_to_binbuff s false = hex_pairs s.
Proof.
  intros Hb Hs. destruct (hex_roundtrip b Hb) as (h & E & L & _ & _ & D). split; [eauto | now apply parse_hexstr_spec].
Qed.
