(* ===== verification/Address.v ===== *)
(** * Addresses of accounts

    Models the address functions of cryptonote_basic_impl.cpp: [get_account_address_as_str],
    [get_account_integrated_address_as_str], [get_account_address_from_str] with the old
    hexadecimal format, and [parse_any_address] of token.cpp, on top of Base58, hexadecimal
    strings and [check_key]. The binary form of an address is the concatenation of its keys
    (and payment id); reading it needs exactly that many bytes. [None] inside is [false];
    around it, a failed assertion. What a failed call leaves in [info] is not modelled: no
    caller reads it. *)

From Stdlib Require Import ZArith Lia List Bool.
From S2P Require Import Prelude Bytes Sc Curve GeBytes GeBase Keccak TreeHash Varint Base58 HexStr Encode KeyOps.
Import ListNotations.

#[local] Open Scope Z_scope.
#[local] Opaque ed_mul ed_add base_point Encode.encode enc_scalar point_code.

(** ** Data *)

Inductive network_type : Type := MAINNET | TESTNET | STAGENET | FAKECHAIN | UNDEFINED.

Record account_public_address := AccountAddress {
  m_spend_public_key : list Z;
  m_view_public_key : list Z }.

(** [payment_id] is [None] when the call does not write it. *)
Record address_parse_info := ParseInfo {
  address : account_public_address;
  is_subaddress : bool;
  has_payment_id : bool;
  payment_id : option (list Z) }.

(** The prefixes of cryptonote_config.h: namespace [config], [config::testnet] and
    [config::stagenet]. *)
Definition CRYPTONOTE_PUBLIC_ADDRESS_BASE58_PREFIX (nettype : network_type) : Z :=
  match nettype with TESTNET => 18018 | STAGENET => 18018 | _ => 18018 end.

Definition CRYPTONOTE_PUBLIC_INTEGRATED_ADDRESS_BASE58_PREFIX (nettype : network_type) : Z :=
  match nettype with TESTNET => 18019 | STAGENET => 18019 | _ => 18019 end.

Definition CRYPTONOTE_PUBLIC_SUBADDRESS_BASE58_PREFIX (nettype : network_type) : Z :=
  match nettype with TESTNET => 42 | STAGENET => 42 | _ => 42 end.

Definition CRYPTONOTE_PUBLIC_ADDRESS_TEXTBLOB_VER : Z := 0.

(** [sizeof(public_address_outer_blob)] *)
Definition sizeof_outer_blob : nat := 66.

(** "etnk9ZeCkz6D...vGutm" *)
Definition GOVERNANCE_WALLET_ADDRESS : list Z :=
  [101; 116; 110; 107; 57; 90; 101; 67; 107; 122; 54; 68; 98; 98; 52; 69; 119; 86; 80; 113;
   55; 67; 102; 116; 122; 76; 102; 72; 65; 52; 122; 118; 49; 99; 51; 51; 111; 81; 53; 100;
   65; 67; 97; 74; 87; 109; 69; 99; 120; 121; 67; 75; 89; 122; 71; 75; 56; 57; 68; 53;
   86; 116; 106; 104; 120; 75; 78; 65; 101; 84; 78; 113; 121; 86; 53; 97; 89; 90; 118; 102;
   80; 87; 114; 50; 52; 51; 103; 76; 57; 120; 71; 100; 78; 118; 71; 117; 116; 109].

(** ** The code *)

(** The binary archive of an address and of an integrated address. *)
Definition address_to_blob (adr : account_public_address) : list Z := m_spend_public_key adr ++ m_view_public_key adr.

Definition parse_address (blob : list Z) : option account_public_address :=
  if (length blob =? 64)%nat then Some (AccountAddress (firstn 32 blob) (skipn 32 blob)) else None.

Definition parse_integrated_address (blob : list Z) : option (account_public_address * list Z) :=
  if (length blob =? 72)%nat
  then Some (AccountAddress (firstn 32 blob) (firstn 32 (skipn 32 blob)), skipn 64 blob) else None.

(** The branches on the prefix, with the flags that they set and the keys that they read. *)
Definition parse_prefixed (nettype : network_type) (prefix : Z) (data : list Z) : option address_parse_info :=
  let address_prefix := CRYPTONOTE_PUBLIC_ADDRESS_BASE58_PREFIX nettype in
  let integrated_address_prefix := CRYPTONOTE_PUBLIC_INTEGRATED_ADDRESS_BASE58_PREFIX nettype in
  let subaddress_prefix := CRYPTONOTE_PUBLIC_SUBADDRESS_BASE58_PREFIX nettype in
  if integrated_address_prefix =? prefix then
    let! '(adr, pid) := parse_integrated_address data in Some (ParseInfo adr false true (Some pid))
  else if address_prefix =? prefix then
    let! adr := parse_address data in Some (ParseInfo adr false false None)
  else if subaddress_prefix =? prefix then
    let! adr := parse_address data in Some (ParseInfo adr true false None)
  else None.

Definition get_account_address_checksum (bl : list Z) : Z :=
  fold_left (fun summ b => (summ + b) mod 256) (firstn (sizeof_outer_blob - 1) bl) 0.

Section Addresses.
  Context {FH : FastHash}.

Definition get_account_address_as_str (nettype : network_type) (subaddress : bool) (adr : account_public_address)
  : option (list Z) :=
  let address_prefix :=
    if subaddress then CRYPTONOTE_PUBLIC_SUBADDRESS_BASE58_PREFIX nettype
    else CRYPTONOTE_PUBLIC_ADDRESS_BASE58_PREFIX nettype in
  encode_addr address_prefix (address_to_blob adr).

Definition get_account_integrated_address_as_str (nettype : network_type) (adr : account_public_address)
    (payment_id : list Z) : option (list Z) :=
  encode_addr (CRYPTONOTE_PUBLIC_INTEGRATED_ADDRESS_BASE58_PREFIX nettype) (address_to_blob adr ++ payment_id).

(** The old format. *)
Definition get_account_address_from_hex (str : list Z) : option address_parse_info :=
  let! buff := parse_hexstr_to_binbuff str false in
  if negb (length buff =? sizeof_outer_blob)%nat then None
  else
    let! m_ver := nth_error buff 0 in
    let! check_sum := nth_error buff 65 in
    if CRYPTONOTE_PUBLIC_ADDRESS_TEXTBLOB_VER <? m_ver then None
    else if negb (check_sum =? get_account_address_checksum buff) then None
    else Some (ParseInfo (AccountAddress (firstn 32 (skipn 1 buff)) (firstn 32 (skipn 33 buff))) false false None).

Definition get_account_address_from_str (nettype : network_type) (str : list Z)
  : option (option address_parse_info) :=
  if negb (2 * sizeof_outer_blob =? length str)%nat then
    let! r := decode_addr str in
    match r with
    | None => Some None
    | Some (prefix, data) =>
        match parse_prefixed nettype prefix data with
        | None => Some None
        | Some info =>
            let! spend := check_key (m_spend_public_key (address info)) in
            if negb spend then Some None
            else
              let! view := check_key (m_view_public_key (address info)) in
              if negb view then Some None else Some (Some info)
        end
    end
  else Some (get_account_address_from_hex str).

(** [for (auto n : nets) if (get_account_address_from_str(info, n, str)) { net = n; return true; }] *)
Fixpoint parse_nets (nets : list network_type) (str : list Z) : option (option (address_parse_info * network_type)) :=
  match nets with
  | [] => Some None
  | n :: nets =>
      let! r := get_account_address_from_str n str in
      match r with
      | Some info => Some (Some (info, n))
      | None => parse_nets nets str
      end
  end.

Definition parse_any_address (str : list Z) : option (option (address_parse_info * network_type)) :=
  parse_nets [MAINNET; TESTNET; STAGENET] str.

(** The base address of an integrated address: [parse_any_address(to, info, net) &&
    info.has_payment_id], then [get_account_address_as_str]. *)
Definition integrated_base (to : list Z) : option (option (list Z)) :=
  let! r := parse_any_address to in
  match r with
  | Some (info, net) =>
      if has_payment_id info
      then let! base := get_account_address_as_str net (is_subaddress info) (address info) in Some (Some base)
      else Some None
  | None => Some None
  end.
End Addresses.

(** ** Specification *)

(** A key that is the encoding of a point. *)
Definition valid_key (k : list Z) : Prop := exists P, on_curve P /\ k = Encode.encode P.

Definition valid_address (adr : account_public_address) : Prop :=
  valid_key (m_spend_public_key adr) /\ valid_key (m_view_public_key adr).

(** The flags and the payment id fit together. *)
Definition valid_info (info : address_parse_info) : Prop :=
  valid_address (address info) /\
  match payment_id info with
  | Some pid => bytes pid /\ length pid = 8%nat /\ has_payment_id info = true /\ is_subaddress info = false
  | None => has_payment_id info = false
  end.

Section Claims.
  Context {FH : FastHash}.

(** The string of a parsed address. *)
Definition address_string (nettype : network_type) (info : address_parse_info) : option (list Z) :=
  match payment_id info with
  | Some pid => get_account_integrated_address_as_str nettype (address info) pid
  | None => get_account_address_as_str nettype (is_subaddress info) (address info)
  end.

(** The prefix and the bytes of a parsed address. *)
Definition info_prefix (info : address_parse_info) : Z :=
  match payment_id info with
  | Some _ => 18019
  | None => if is_subaddress info then 42 else 18018
  end.

Definition info_blob (info : address_parse_info) : list Z :=
  address_to_blob (address info) ++ match payment_id info with Some pid => pid | None => [] end.

Lemma address_string_eq net info : address_string net info = encode_addr (info_prefix info) (info_blob info).
Proof.
  unfold address_string, info_prefix, info_blob, get_account_integrated_address_as_str, get_account_address_as_str.
  destruct (payment_id info); [now destruct net|]. rewrite app_nil_r. now destruct net, (is_subaddress info).
Qed.

(** Keys of 32 bytes each. *)
Definition shaped (info : address_parse_info) : Prop :=
  scalar (m_spend_public_key (address info)) /\ scalar (m_view_public_key (address info)) /\
  match payment_id info with
  | Some pid => bytes pid /\ length pid = 8%nat /\ has_payment_id info = true /\ is_subaddress info = false
  | None => has_payment_id info = false
  end.

Lemma firstn_exact {A} (a b : list A) n : length a = n -> firstn n (a ++ b) = a.
Proof. intros <-. rewrite firstn_app, firstn_all, Nat.sub_diag. apply app_nil_r. Qed.

Lemma skipn_exact {A} (a b : list A) n : length a = n -> skipn n (a ++ b) = b.
Proof. intros <-. rewrite skipn_app, skipn_all, Nat.sub_diag. reflexivity. Qed.

(** Reading inverts the binary form. *)
Lemma parse_prefixed_blob net info : shaped info -> parse_prefixed net (info_prefix info) (info_blob info) = Some info.
Proof.
  destruct info as [[s v] sub has pid]. unfold shaped, info_prefix, info_blob, address_to_blob, parse_prefixed.
  cbn [address m_spend_public_key m_view_public_key payment_id has_payment_id is_subaddress].
  intros ([_ Ls] & [_ Lv] & Hp). destruct pid as [pid|].
  - destruct Hp as (_ & Lp & -> & ->). unfold parse_integrated_address.
    rewrite !length_app, Ls, Lv, Lp, <- app_assoc, firstn_exact, (skipn_exact s), firstn_exact by assumption.
    rewrite app_assoc, skipn_exact by (rewrite length_app; lia). now destruct net.
  - subst has. rewrite app_nil_r. unfold parse_address. rewrite length_app, Ls, Lv, firstn_exact, skipn_exact by assumption.
    now destruct net, sub.
Qed.

Lemma parse_prefixed_inv net prefix data info :
  bytes data -> parse_prefixed net prefix data = Some info ->
  shaped info /\ info_prefix info = prefix /\ info_blob info = data.
Proof.
  intros Hb. unfold parse_prefixed.
  replace (CRYPTONOTE_PUBLIC_INTEGRATED_ADDRESS_BASE58_PREFIX net) with 18019 by now destruct net.
  replace (CRYPTONOTE_PUBLIC_ADDRESS_BASE58_PREFIX net) with 18018 by now destruct net.
  replace (CRYPTONOTE_PUBLIC_SUBADDRESS_BASE58_PREFIX net) with 42 by now destruct net.
  assert (forall sub, (let! adr := parse_address data in Some (ParseInfo adr sub false None)) = Some info ->
    shaped info /\ info_prefix info = (if sub then 42 else 18018) /\ info_blob info = data) as K.
  { intros sub. unfold parse_address. destruct (Nat.eqb_spec (length data) 64) as [L|]; [|discriminate]. cbn [bind]. intros E.
    assert (info = ParseInfo (AccountAddress (firstn 32 data) (skipn 32 data)) sub false None) as -> by congruence.
    unfold shaped, scalar, info_blob, address_to_blob. cbn [address m_spend_public_key m_view_public_key payment_id has_payment_id].
    rewrite app_nil_r, firstn_skipn, length_firstn, length_skipn. repeat split; (apply bytes_firstn || apply bytes_skipn || lia || idtac); assumption. }
  destruct (Z.eqb_spec 18019 prefix) as [<-|_].
  - unfold parse_integrated_address. destruct (Nat.eqb_spec (length data) 72) as [L|]; [|discriminate]. cbn [bind]. intros E.
    assert (info = ParseInfo (AccountAddress (firstn 32 data) (firstn 32 (skipn 32 data))) false true (Some (skipn 64 data)))
      as -> by congruence.
    unfold shaped, scalar, info_blob, address_to_blob. cbn [address m_spend_public_key m_view_public_key payment_id has_payment_id is_subaddress].
    rewrite !length_firstn, !length_skipn, <- app_assoc.
    replace (skipn 64 data) with (skipn 32 (skipn 32 data)) by now rewrite skipn_skipn.
    rewrite !firstn_skipn. repeat split; repeat (apply bytes_firstn || apply bytes_skipn); (assumption || rewrite ?length_skipn; lia).
  - destruct (Z.eqb_spec 18018 prefix) as [<-|_]; [apply (K false)|].
    destruct (Z.eqb_spec 42 prefix) as [<-|_]; [apply (K true) | discriminate].
Qed.

Lemma check_key_cases k : scalar k -> (check_key k = Some true /\ valid_key k) \/ (check_key k = Some false /\ ~ valid_key k).
Proof.
  intros Hk. destruct (point_cases k Hk) as [(P & HP & ->) | [E N]].
  - left. split; [now apply check_key_encode | now exists P].
  - right. unfold check_key. rewrite E. split; [reflexivity|]. intros (P & HP & HE). now apply (N P HP).
Qed.

Lemma decode_addr_bytes addr tag data :
  bytes addr -> decode_addr addr = Some (Some (tag, data)) -> bytes data.
Proof.
  intros Hb. unfold decode_addr. destruct (decode_ok addr Hb) as [N C].
  destruct (Base58.decode addr) as [[ad|]|]; cbn [bind]; [|discriminate | discriminate].
  destruct (C ad eq_refl) as [Hd _]. destruct (_ <=? _)%nat; [discriminate|].
  destruct (fast_hash _ _); cbn [bind]; [|discriminate]. destruct (negb _); [discriminate|].
  destruct (_ <=? _); [discriminate|]. intros E.
  assert (data = skipn (Z.to_nat (v_ret (read_varint 64 (firstn (length ad - addr_checksum_size) ad))))
    (firstn (length ad - addr_checksum_size) ad)) as -> by congruence.
  now apply bytes_skipn, bytes_firstn.
Qed.

Lemma info_shaped info : valid_info info -> shaped info.
Proof.
  intros [((P & HP & E1) & (Q & HQ & E2)) H]. split; [rewrite E1; apply encode_scalar|].
  split; [rewrite E2; apply encode_scalar | exact H].
Qed.

Lemma info_bytes info : shaped info -> bytes (info_blob info).
Proof.
  intros ([Hs _] & [Hv _] & Hp). unfold info_blob, address_to_blob.
  apply bytes_app; [now apply bytes_app|]. destruct (payment_id info); [apply Hp | constructor].
Qed.

(** C30: addresses as strings: on every string whose length is not that of the old format,
    [get_account_address_from_str] returns, and what it accepts are exactly the strings that
    [get_account_address_as_str] and [get_account_integrated_address_as_str] produce for the
    result, whose keys are encodings of curve points: writing and reading an address are
    inverse to each other, and no other spelling of an address is accepted. *)
Theorem address_bijection net str info :
  bytes str -> length str <> 132%nat ->
  get_account_address_from_str net str <> None /\
  (get_account_address_from_str net str = Some (Some info) <->
   valid_info info /\ address_string net info = Some str).
Proof.
  intros Hb Hl. unfold get_account_address_from_str. change (2 * sizeof_outer_blob)%nat with 132%nat.
  rewrite (proj2 (Nat.eqb_neq _ _)) by congruence. cbn [negb]. rewrite address_string_eq.
  assert (valid_info info -> encode_addr (info_prefix info) (info_blob info) = Some str ->
          decode_addr str = Some (Some (info_prefix info, info_blob info))) as R.
  { intros Hi He. destruct (addr_roundtrip (info_prefix info) (info_blob info)) as (a & Ea & D).
    - unfold info_prefix. destruct (payment_id info); [lia | destruct (is_subaddress info); lia].
    - now apply info_bytes, info_shaped.
    - congruence. }
  destruct (addr_canonical str Hb) as [N C]. destruct (decode_addr str) as [[[prefix data]|]|] eqn:D; cbn [bind];
    [|split; [discriminate|]; split; [discriminate | intros [Hi He]; now specialize (R Hi He)] | contradiction].
  specialize (C prefix data eq_refl). pose proof (decode_addr_bytes _ _ _ Hb D) as Hd.
  destruct (parse_prefixed net prefix data) as [i|] eqn:Pp.
  - destruct (parse_prefixed_inv net prefix data i Hd Pp) as (Sh & Ep & Ed).
    assert (encode_addr (info_prefix i) (info_blob i) = Some str) as Ea.
    { rewrite Ep, Ed. destruct C as [C | [E0 _]]; [exact C|]. exfalso. rewrite E0 in Ed.
      apply app_eq_nil in Ed as [[Es _]%app_eq_nil _]. destruct Sh as [[_ Ls] _]. rewrite Es in Ls. discriminate Ls. }
    assert (info_prefix info = prefix -> info_blob info = data -> valid_info info -> info = i) as U.
    { intros E1 E2 Hi. pose proof (parse_prefixed_blob net info (info_shaped info Hi)) as P. rewrite E1, E2 in P. congruence. }
    assert (valid_info info -> encode_addr (info_prefix info) (info_blob info) = Some str -> info = i) as U'.
    { intros Hi He. specialize (R Hi He). apply U; [congruence | congruence | exact Hi]. }
    destruct Sh as (Ss & Sv & Sp).
    destruct (check_key_cases _ Ss) as [[-> Vs] | [-> Ns]]; cbn [bind negb];
      [|split; [discriminate|]; split; [discriminate | intros [Hi He]; rewrite (U' Hi He) in Hi; now destruct Hi as [[Hi _] _]]].
    destruct (check_key_cases _ Sv) as [[-> Vv] | [-> Nv]]; cbn [bind negb];
      [|split; [discriminate|]; split; [discriminate | intros [Hi He]; rewrite (U' Hi He) in Hi; now destruct Hi as [[_ Hi] _]]].
    split; [discriminate|]. split; [|intros [Hi He]; now rewrite (U' Hi He)].
    intros E. assert (i = info) as <- by congruence. split; [split; [split; assumption | exact Sp] | exact Ea].
  - split; [discriminate|]. split; [discriminate|]. intros [Hi He]. specialize (R Hi He).
    pose proof (parse_prefixed_blob net info (info_shaped info Hi)) as P. congruence.
Qed.

(** The network makes no difference: the three networks have the same prefixes, so that
    [parse_any_address] always reports the main network. *)
Lemma address_network net1 net2 str : get_account_address_from_str net1 str = get_account_address_from_str net2 str.
Proof. now destruct net1, net2. Qed.

(** Parsing returns on every string, and the base of an integrated address exists. *)
Lemma from_str_total net str : bytes str -> get_account_address_from_str net str <> None.
Proof.
  intros Hb. unfold get_account_address_from_str. destruct (negb _); [|discriminate].
  destruct (addr_canonical str Hb) as [N _]. destruct (decode_addr str) as [[[prefix data]|]|] eqn:D; cbn [bind]; [|discriminate | contradiction].
  destruct (parse_prefixed net prefix data) as [i|] eqn:P; [|discriminate].
  destruct (parse_prefixed_inv net prefix data i (decode_addr_bytes _ _ _ Hb D) P) as ((Ss & Sv & _) & _).
  destruct (check_key_cases _ Ss) as [[-> _] | [-> _]]; cbn [bind negb]; [|discriminate].
  destruct (check_key_cases _ Sv) as [[-> _] | [-> _]]; cbn [bind negb]; discriminate.
Qed.

Lemma integrated_base_total to : bytes to -> exists b, integrated_base to = Some b.
Proof.
  intros Hb. unfold integrated_base, parse_any_address. cbn [parse_nets].
  rewrite (address_network TESTNET MAINNET), (address_network STAGENET MAINNET).
  pose proof (from_str_total MAINNET to Hb) as N. destruct (get_account_address_from_str MAINNET to) as [[i|]|] eqn:E; cbn [bind];
    [|eauto | contradiction].
  destruct (has_payment_id i) eqn:Hp; [|eauto].
  assert (bytes (address_to_blob (address i))) as Ba.
  { unfold get_account_address_from_str in E. destruct (negb _).
    - destruct (decode_addr to) as [[[prefix data]|]|] eqn:D; cbn [bind] in E; [|discriminate | discriminate].
      destruct (parse_prefixed MAINNET prefix data) as [i'|] eqn:P; [|discriminate].
      destruct (parse_prefixed_inv MAINNET prefix data i' (decode_addr_bytes _ _ _ Hb D) P) as (([Bs _] & [Bv _] & _) & _).
      assert (i' = i) as <-; [|now apply bytes_app].
      destruct (check_key _) as [[]|]; cbn [bind negb] in E; try discriminate.
      destruct (check_key _) as [[]|]; cbn [bind negb] in E; congruence.
    - exfalso. unfold get_account_address_from_hex in E.
      destruct (parse_hexstr_to_binbuff to false) as [buff|]; cbn [bind] in E; [|discriminate].
      destruct (negb _); [discriminate|]. destruct (nth_error buff 0); cbn [bind] in E; [|discriminate].
      destruct (nth_error buff 65); cbn [bind] in E; [|discriminate].
      destruct (_ <? _); [discriminate|]. destruct (negb _); [discriminate|].
      assert (has_payment_id i = false) by (assert (i = ParseInfo (AccountAddress (firstn 32 (skipn 1 buff)) (firstn 32 (skipn 33 buff))) false false None) as -> by congruence; reflexivity).
      congruence. }
  unfold get_account_address_as_str.
  destruct (addr_roundtrip (if is_subaddress i then CRYPTONOTE_PUBLIC_SUBADDRESS_BASE58_PREFIX MAINNET
    else CRYPTONOTE_PUBLIC_ADDRESS_BASE58_PREFIX MAINNET) _ (ltac:(destruct (is_subaddress i); cbn; lia)) Ba) as (a & Ea & _).
  rewrite Ea. cbn [bind]. eauto.
Qed.

Theorem parse_any_address_mainnet str info net : parse_any_address str = Some (Some (info, net)) -> net = MAINNET.
Proof.
  unfold parse_any_address. cbn [parse_nets]. rewrite (address_network TESTNET MAINNET), (address_network STAGENET MAINNET).
  destruct (get_account_address_from_str MAINNET str) as [[i|]|]; cbn [bind]; congruence.
Qed.
End Claims.

(** The address of the governance wallet, read by evaluation. *)
Definition governance_info : address_parse_info :=
  ParseInfo (AccountAddress
    [118; 199; 41; 221; 131; 75; 78; 252; 116; 188; 11; 107; 215; 232; 139; 206;
     28; 253; 152; 43; 14; 209; 118; 99; 251; 8; 110; 68; 255; 177; 240; 122]
    [217; 193; 140; 166; 21; 108; 89; 226; 137; 0; 105; 249; 104; 126; 139; 138;
     56; 183; 127; 249; 73; 196; 216; 208; 213; 193; 253; 166; 153; 236; 64; 181]) false false None.

Lemma governance_parsed : get_account_address_from_str MAINNET GOVERNANCE_WALLET_ADDRESS = Some (Some governance_info).
Proof. vm_compute. reflexivity. Qed.

Lemma bytes_check l : forallb (fun b => (0 <=? b) && (b <? 256)) l = true -> bytes l.
Proof. intros H. apply Forall_forall. intros b Hb. rewrite forallb_forall in H. specialize (H b Hb). unfold is_byte. lia. Qed.

Lemma address_bijection_witness :
  valid_info governance_info /\ address_string MAINNET governance_info = Some GOVERNANCE_WALLET_ADDRESS.
Proof.
  exact (proj1 (proj2 (address_bijection MAINNET GOVERNANCE_WALLET_ADDRESS governance_info
    (bytes_check GOVERNANCE_WALLET_ADDRESS eq_refl) ltac:(discriminate))) governance_parsed).
Defined.
