(* ===== verification/Token.v ===== *)
(** * The token store

    Models the class [token_store] of token.cpp: tokens with balances, allowances, an owner,
    a fee, and pausing and freezing; the indexes by address and by creator; and the history
    of transfers. The unordered maps are finite maps on strings, and strings are lists of
    bytes; a pointer to a token is its key, and writing through the pointer updates the map.
    Where the code iterates over a map, the order is an argument. The binary archives of
    boost are not modelled: loading and merging start from the data that the archive
    holds. Operations return the result and the new store. *)

From stdpp Require Import gmap list fin_maps.
From Stdlib Require Import ZArith Lia.
From S2P Require Import Prelude Bytes TreeHash Random HexStr Address.

#[local] Open Scope Z_scope.

Abbreviation str := (list Z).

(** ** Data *)

Record token_info := TokenInfo {
  name : str;
  symbol : str;
  token_address : str;
  creator : str;
  total_supply : Z;
  creator_fee : Z;
  creator_fee_locked : bool;
  paused : bool;
  frozen_accounts : gset str;
  balances : gmap str Z;
  allowances : gmap str (gmap str Z) }.

Record token_transfer_record := TransferRecord {
  record_token : str;
  record_from : str;
  record_to : str;
  record_amount : Z }.

Record token_store := TokenStore {
  tokens : gmap str token_info;
  address_index : gmap str str;
  creator_tokens : gmap str (list str);
  transfer_history : list token_transfer_record }.

Record token_store_data := TokenStoreData {
  data_tokens : gmap str token_info;
  data_transfers : list token_transfer_record }.

Definition empty_token : token_info := TokenInfo [] [] [] [] 0 0 false false ∅ ∅ ∅.
Definition empty_store : token_store := TokenStore ∅ ∅ ∅ [].

(** Writing fields. *)
Definition set_balances (b : gmap str Z) (t : token_info) : token_info :=
  TokenInfo (name t) (symbol t) (token_address t) (creator t) (total_supply t) (creator_fee t) (creator_fee_locked t)
    (paused t) (frozen_accounts t) b (allowances t).

Definition set_allowances (a : gmap str (gmap str Z)) (t : token_info) : token_info :=
  TokenInfo (name t) (symbol t) (token_address t) (creator t) (total_supply t) (creator_fee t) (creator_fee_locked t)
    (paused t) (frozen_accounts t) (balances t) a.

Definition set_supply (v : Z) (t : token_info) : token_info :=
  TokenInfo (name t) (symbol t) (token_address t) (creator t) v (creator_fee t) (creator_fee_locked t)
    (paused t) (frozen_accounts t) (balances t) (allowances t).

Definition set_fee (v : Z) (locked : bool) (t : token_info) : token_info :=
  TokenInfo (name t) (symbol t) (token_address t) (creator t) (total_supply t) v locked
    (paused t) (frozen_accounts t) (balances t) (allowances t).

Definition set_flags (p : bool) (f : gset str) (t : token_info) : token_info :=
  TokenInfo (name t) (symbol t) (token_address t) (creator t) (total_supply t) (creator_fee t) (creator_fee_locked t)
    p f (balances t) (allowances t).

Definition set_creator (c : str) (t : token_info) : token_info :=
  TokenInfo (name t) (symbol t) (token_address t) c (total_supply t) (creator_fee t) (creator_fee_locked t)
    (paused t) (frozen_accounts t) (balances t) (allowances t).

(** Writing through a pointer to the token with key [n]. *)
Definition update (n : str) (t : token_info) (s : token_store) : token_store :=
  TokenStore (<[n:=t]> (tokens s)) (address_index s) (creator_tokens s) (transfer_history s).

(** ** The code *)

(** [m[k]]: the value, zero where the key is new. *)
Definition at_key (m : gmap str Z) (k : str) : Z := default 0 (m !! k).

(** [allowances[owner][spender]] *)
Definition allowance_at (t : token_info) (owner spender : str) : Z := at_key (default ∅ (allowances t !! owner)) spender.

Definition set_allowance (t : token_info) (owner spender : str) (v : Z) : token_info :=
  set_allowances (<[owner := <[spender := v]> (default ∅ (allowances t !! owner))]> (allowances t)) t.

(** [std::to_string] on a 64-bit word: at most 20 digits. *)
Fixpoint decimal (fuel : nat) (n : Z) : list Z :=
  match fuel with
  | O => []
  | S fuel => (if n <? 10 then [] else decimal fuel (n / 10)) ++ [48 + n mod 10]
  end.

Definition to_string (n : Z) : list Z := decimal 20 n.

Definition get (s : token_store) (n : str) : option token_info := tokens s !! n.

(** The key and the token behind an address. *)
Definition get_by_address (s : token_store) (addr : str) : option (str * token_info) :=
  match address_index s !! addr with
  | None => None
  | Some n => match get s n with None => None | Some t => Some (n, t) end
  end.

Definition record_transfer (addr from to : str) (amount : Z) (s : token_store) : token_store :=
  TokenStore (tokens s) (address_index s) (creator_tokens s)
    (transfer_history s ++ [TransferRecord addr from to amount]).

(** [create] up to the address. *)
Definition create_token (s : token_store) (n sym : str) (supply : Z) (c : str) (fee : Z) : token_info :=
  let tok := default empty_token (tokens s !! n) in
  TokenInfo n sym (token_address tok) c supply fee false false (frozen_accounts tok)
    (<[c := supply]> (balances tok)) (allowances tok).

(** [create] from the address on. *)
Definition create_at (s : token_store) (n sym : str) (supply : Z) (c : str) (fee : Z) (addr : str) : token_store :=
  let tok := create_token s n sym supply c fee in
  TokenStore
    (<[n := TokenInfo (name tok) (symbol tok) addr (creator tok) (total_supply tok) (creator_fee tok)
              (creator_fee_locked tok) (paused tok) (frozen_accounts tok) (balances tok) (allowances tok)]> (tokens s))
    (<[addr := n]> (address_index s))
    (<[c := default [] (creator_tokens s !! c) ++ [n]]> (creator_tokens s))
    (transfer_history s).

(** "cEVM" *)
Definition address_tag : list Z := [99; 69; 86; 77].

Section Store.
  Context {FH : FastHash} {RB : RandomBytes}.

(** The address that [create] makes up from a hash with a random nonce. *)
Definition generate_address (c n sym : str) (size : nat) (r : rng) : option (str * rng) :=
  let! '(nonce, r) := random_bytes 8 r in
  let data := c ++ n ++ sym ++ to_string (Z.of_nat size) ++ to_string (le_val nonce) in
  let! h := fast_hash data (length data) in
  let! hex := pod_to_hex h in
  Some (address_tag ++ firstn 46 hex, r).

Definition create (s : token_store) (n sym : str) (supply : Z) (c : str) (fee : Z) (addr : str) (r : rng)
  : option (token_store * rng) :=
  match addr with
  | [] =>
      let tokens_size := size (<[n := create_token s n sym supply c fee]> (tokens s)) in
      let! '(addr, r) := generate_address c n sym tokens_size r in
      Some (create_at s n sym supply c fee addr, r)
  | _ => Some (create_at s n sym supply c fee addr, r)
  end.

(** The body that [transfer] and [transfer_by_address] share. *)
Definition transfer_token (s : token_store) (n : str) (tok : token_info) (addr from to : str) (amount : Z)
  : option (bool * token_store) :=
  if paused tok then Some (false, s)
  else if bool_decide (from ∈ frozen_accounts tok) || bool_decide (to ∈ frozen_accounts tok) then Some (false, s)
  else
    match balances tok !! from with
    | None => Some (false, s)
    | Some have =>
        if have <? amount then Some (false, s)
        else
          let b := <[from := have - amount]> (balances tok) in
          let b := <[to := u64 (at_key b to + amount)]> b in
          let tok := set_balances b tok in
          let s := record_transfer addr from to amount (update n tok s) in
          let! base := integrated_base to in
          match base with
          | Some base =>
              let tok := set_allowance tok to base (u64 (allowance_at tok to base + amount)) in
              Some (true, update n tok s)
          | None => Some (true, s)
          end
    end.

Definition transfer (s : token_store) (n from to : str) (amount : Z) : option (bool * token_store) :=
  match get s n with
  | None => Some (false, s)
  | Some tok => transfer_token s n tok (token_address tok) from to amount
  end.

Definition transfer_by_address (s : token_store) (addr from to : str) (amount : Z) : option (bool * token_store) :=
  match get_by_address s addr with
  | None => Some (false, s)
  | Some (n, tok) => transfer_token s n tok addr from to amount
  end.

(** The body that [transfer_from] and [transfer_from_by_address] share. The reference to the
    allowance creates its entry, also when the call fails after it. *)
Definition transfer_from_token (s : token_store) (n : str) (tok : token_info) (addr spender from to : str) (amount : Z)
  : bool * token_store :=
  if paused tok then (false, s)
  else if bool_decide (spender ∈ frozen_accounts tok) || bool_decide (from ∈ frozen_accounts tok)
          || bool_decide (to ∈ frozen_accounts tok) then (false, s)
  else
    let allowed := allowance_at tok from spender in
    let tok := set_allowance tok from spender allowed in
    let s := update n tok s in
    if allowed <? amount then (false, s)
    else
      match balances tok !! from with
      | None => (false, s)
      | Some have =>
          if have <? amount then (false, s)
          else
            let tok := set_allowance tok from spender (allowed - amount) in
            let b := <[from := have - amount]> (balances tok) in
            let b := <[to := u64 (at_key b to + amount)]> b in
            (true, record_transfer addr from to amount (update n (set_balances b tok) s))
      end.
End Store.

Definition transfer_from (s : token_store) (n spender from to : str) (amount : Z) : bool * token_store :=
  match get s n with
  | None => (false, s)
  | Some tok => transfer_from_token s n tok (token_address tok) spender from to amount
  end.

Definition transfer_from_by_address (s : token_store) (addr spender from to : str) (amount : Z) : bool * token_store :=
  match get_by_address s addr with
  | None => (false, s)
  | Some (n, tok) => transfer_from_token s n tok addr spender from to amount
  end.

Definition approve (s : token_store) (n owner spender : str) (amount : Z) (caller : str) : bool * token_store :=
  match get s n with
  | None => (false, s)
  | Some tok =>
      if negb (bool_decide (caller = owner)) then (false, s)
      else match balances tok !! owner with
           | None => (false, s)
           | Some _ => (true, update n (set_allowance tok owner spender amount) s)
           end
  end.

Definition balance_of (s : token_store) (n account : str) : Z :=
  match tokens s !! n with
  | None => 0
  | Some t => match balances t !! account with None => 0 | Some b => b end
  end.

Definition balance_of_by_address (s : token_store) (addr account : str) : Z :=
  match address_index s !! addr with None => 0 | Some n => balance_of s n account end.

Definition allowance_of (s : token_store) (n owner spender : str) : Z :=
  match tokens s !! n with
  | None => 0
  | Some t => match allowances t !! owner with
              | None => 0
              | Some m => match m !! spender with None => 0 | Some v => v end
              end
  end.

Definition allowance_of_by_address (s : token_store) (addr owner spender : str) : Z :=
  match address_index s !! addr with None => 0 | Some n => allowance_of s n owner spender end.

Definition burn (s : token_store) (addr owner : str) (amount : Z) : bool * token_store :=
  match get_by_address s addr with
  | None => (false, s)
  | Some (n, tok) =>
      if bool_decide (owner ∈ frozen_accounts tok) then (false, s)
      else match balances tok !! owner with
           | None => (false, s)
           | Some have =>
               if have <? amount then (false, s)
               else
                 let tok := set_balances (<[owner := have - amount]> (balances tok)) tok in
                 let tok := set_supply (u64 (total_supply tok - amount)) tok in
                 (true, record_transfer addr owner [] amount (update n tok s))
           end
  end.

Definition mint (s : token_store) (addr c : str) (amount : Z) : bool * token_store :=
  match get_by_address s addr with
  | None => (false, s)
  | Some (n, tok) =>
      if negb (bool_decide (creator tok = c)) then (false, s)
      else if bool_decide (c ∈ frozen_accounts tok) then (false, s)
      else
        let tok := set_supply (u64 (total_supply tok + amount)) tok in
        let tok := set_balances (<[c := u64 (at_key (balances tok) c + amount)]> (balances tok)) tok in
        (true, record_transfer addr [] c amount (update n tok s))
  end.

Definition set_creator_fee (s : token_store) (addr c : str) (fee : Z) : bool * token_store :=
  match get_by_address s addr with
  | None => (false, s)
  | Some (n, tok) =>
      if negb (bool_decide (creator tok = c)) || creator_fee_locked tok then (false, s)
      else (true, update n (set_fee fee (creator_fee_locked tok) tok) s)
  end.

Definition lock_creator_fee (s : token_store) (addr c : str) : bool * token_store :=
  match get_by_address s addr with
  | None => (false, s)
  | Some (n, tok) =>
      if negb (bool_decide (creator tok = c)) || creator_fee_locked tok then (false, s)
      else (true, update n (set_fee (creator_fee tok) true tok) s)
  end.

Definition set_paused (s : token_store) (addr c : str) (p : bool) : bool * token_store :=
  match get_by_address s addr with
  | None => (false, s)
  | Some (n, tok) =>
      if negb (bool_decide (creator tok = c)) then (false, s)
      else (true, update n (set_flags p (frozen_accounts tok) tok) s)
  end.

Definition set_frozen (s : token_store) (addr c account : str) (f : bool) : bool * token_store :=
  match get_by_address s addr with
  | None => (false, s)
  | Some (n, tok) =>
      if negb (bool_decide (c = GOVERNANCE_WALLET_ADDRESS)) then (false, s)
      else
        let frozen := if f then {[account]} ∪ frozen_accounts tok else frozen_accounts tok ∖ {[account]} in
        (true, update n (set_flags (paused tok) frozen tok) s)
  end.

(** [old_list] and [name] are references into maps that do not move; the old list is written
    before the new one is read. *)
Definition transfer_ownership (s : token_store) (addr c new_owner : str) : bool * token_store :=
  match get_by_address s addr with
  | None => (false, s)
  | Some (n, tok) =>
      if negb (bool_decide (creator tok = c)) then (false, s)
      else
        let old_list := default [] (creator_tokens s !! c) in
        let ct := <[c := filter (fun m => m <> n) old_list]> (creator_tokens s) in
        let ct := <[new_owner := default [] (ct !! new_owner) ++ [n]]> ct in
        (true, TokenStore (<[n := set_creator new_owner tok]> (tokens s)) (address_index s) ct (transfer_history s))
  end.

(** ** The code: indexes, loading and listing *)

Section Iteration.
  (** The order in which an unordered map is iterated over. *)
  Context (iterate : gmap str token_info -> list (str * token_info)).

Definition index_step (ix : gmap str str * gmap str (list str)) (kv : str * token_info) : gmap str str * gmap str (list str) :=
  let '(ai, ct) := ix in
  let c := creator kv.2 in
  (<[token_address kv.2 := kv.1]> ai, <[c := default [] (ct !! c) ++ [kv.1]]> ct).

Definition rebuild_indexes (s : token_store) : token_store :=
  let '(ai, ct) := fold_left index_step (iterate (tokens s)) (∅, ∅) in
  TokenStore (tokens s) ai ct (transfer_history s).

(** [load] and [load_from_string], once the archive is read. *)
Definition load_data (data : token_store_data) : token_store :=
  rebuild_indexes (TokenStore (data_tokens data) ∅ ∅ (data_transfers data)).

(** [merge_from_string], once the archive is read: [emplace] keeps the tokens that exist. *)
Definition merge_data (s : token_store) (data : token_store_data) : token_store :=
  rebuild_indexes (TokenStore (tokens s ∪ data_tokens data) (address_index s) (creator_tokens s)
                     (transfer_history s ++ data_transfers data)).

(** What [save] and [store_to_string] archive. *)
Definition store_data (s : token_store) : token_store_data := TokenStoreData (tokens s) (transfer_history s).

Definition list_all (s : token_store) : list token_info := map snd (iterate (tokens s)).

Definition list_by_balance (s : token_store) (account : str) : list token_info :=
  map snd (filter (fun kv => 0 < default 0 (balances kv.2 !! account)) (iterate (tokens s))).
End Iteration.

Definition list_by_creator (s : token_store) (c : str) : list token_info :=
  match creator_tokens s !! c with
  | None => []
  | Some names => omap (fun n => tokens s !! n) names
  end.

Definition history_by_token (s : token_store) (addr : str) : list token_transfer_record :=
  filter (fun r => record_token r = addr) (transfer_history s).

Definition history_by_account (s : token_store) (account : str) : list token_transfer_record :=
  filter (fun r => record_from r = account \/ record_to r = account) (transfer_history s).

Definition history_by_token_account (s : token_store) (addr account : str) : list token_transfer_record :=
  filter (fun r => record_token r = addr /\ (record_from r = account \/ record_to r = account)) (transfer_history s).

(** ** Sums of balances *)

Definition sum_of (m : gmap str Z) : Z := map_fold (fun _ v acc => v + acc) 0 m.

Definition nonneg (m : gmap str Z) : Prop := forall a v, m !! a = Some v -> 0 <= v.

Lemma sum_insert_new (m : gmap str Z) k v : m !! k = None -> sum_of (<[k:=v]> m) = v + sum_of m.
Proof. intros Hk. unfold sum_of. rewrite map_fold_insert_L; [done | intros; lia | done]. Qed.

Lemma sum_delete (m : gmap str Z) k v : m !! k = Some v -> sum_of m = v + sum_of (delete k m).
Proof.
  intros Hk. rewrite <- (insert_delete_id m k v Hk) at 1. apply sum_insert_new, lookup_delete_eq.
Qed.

Lemma sum_insert (m : gmap str Z) k v : sum_of (<[k:=v]> m) = sum_of m - at_key m k + v.
Proof.
  unfold at_key. destruct (m !! k) as [x|] eqn:E; cbn.
  - rewrite <- insert_delete_eq, sum_insert_new by apply lookup_delete_eq. rewrite (sum_delete m k x E). lia.
  - rewrite sum_insert_new by done. lia.
Qed.

Lemma nonneg_insert m k v : nonneg m -> 0 <= v -> nonneg (<[k:=v]> m).
Proof. intros Hm Hv a x. rewrite lookup_insert. case_decide; [intros [= <-]; done | apply Hm]. Qed.

Lemma nonneg_delete m k : nonneg m -> nonneg (delete k m).
Proof. intros Hm a x. rewrite lookup_delete. case_decide; [done | apply Hm]. Qed.

Lemma sum_nonneg m : nonneg m -> 0 <= sum_of m.
Proof.
  induction m as [|k v m Hk IH] using map_ind; intros Hm; [done|].
  rewrite sum_insert_new by done. pose proof (Hm k v (lookup_insert_eq _ _ _)).
  assert (0 <= sum_of m); [|lia]. apply IH. intros a x Hx. apply (Hm a). rewrite lookup_insert_ne; congruence.
Qed.

Lemma at_key_bound m k : nonneg m -> 0 <= at_key m k <= sum_of m.
Proof.
  intros Hm. unfold at_key. destruct (m !! k) as [v|] eqn:E; cbn; [|split; [done | by apply sum_nonneg]].
  pose proof (Hm k v E). rewrite (sum_delete m k v E). pose proof (sum_nonneg _ (nonneg_delete m k Hm)). lia.
Qed.

Lemma at_key_insert m k v a : at_key (<[k:=v]> m) a = if decide (k = a) then v else at_key m a.
Proof. unfold at_key. rewrite lookup_insert. by case_decide. Qed.

(** ** Moving an amount *)

Definition moved (m : gmap str Z) (from to : str) (amount : Z) : gmap str Z :=
  let b := <[from := at_key m from - amount]> m in <[to := u64 (at_key b to + amount)]> b.

(** What an account gains when [amount] moves. *)
Definition gain (from to : str) (amount : Z) (a : str) : Z :=
  (if decide (a = to) then amount else 0) - (if decide (a = from) then amount else 0).

Lemma moved_spec m from to amount :
  nonneg m -> sum_of m < 2 ^ 64 -> 0 <= amount <= at_key m from ->
  nonneg (moved m from to amount) /\ sum_of (moved m from to amount) = sum_of m /\
  forall a, at_key (moved m from to amount) a = at_key m a + gain from to amount a.
Proof.
  intros Hm Hs Ha. unfold moved. set (b := <[from := at_key m from - amount]> m).
  assert (nonneg b) as Hb by (apply nonneg_insert; [done | lia]).
  assert (sum_of b = sum_of m - amount) as Sb by (unfold b; rewrite sum_insert; lia).
  pose proof (at_key_bound b to Hb). rewrite u64_small by lia. split; [apply nonneg_insert; [done | lia]|].
  split; [rewrite sum_insert; lia|]. intros a. unfold gain. rewrite at_key_insert.
  destruct (decide (to = a)) as [<-|N]; [rewrite (decide_True (P:=to = to)) by done | rewrite (decide_False (P:=a = to)) by congruence];
    unfold b; rewrite at_key_insert; destruct (decide (from = _)) as [<-|N2];
    rewrite ?(decide_True (P:=from = from)) by done; try rewrite (decide_False (P:=_ = from)) by congruence; lia.
Qed.

(** Balances that are words, whatever their sum. *)
Definition word_map (m : gmap str Z) : Prop := forall a v, m !! a = Some v -> 0 <= v < 2 ^ 64.

Lemma at_key_word m a : word_map m -> 0 <= at_key m a < 2 ^ 64.
Proof. intros Hm. unfold at_key. destruct (m !! a) as [v|] eqn:E; cbn; [by apply (Hm a) | lia]. Qed.

Lemma word_map_insert m k v : word_map m -> 0 <= v < 2 ^ 64 -> word_map (<[k:=v]> m).
Proof. intros Hm Hv a x. rewrite lookup_insert. case_decide; [intros [= <-]; done | apply Hm]. Qed.

Lemma u64_word x : 0 <= u64 x < 2 ^ 64.
Proof. apply Z.mod_pos_bound. lia. Qed.

(** The word of a number differs from it by a multiple of 2^64. *)
Lemma u64_split x : exists k, u64 x = x + k * 2 ^ 64.
Proof. exists (- (x / 2 ^ 64)). unfold u64. pose proof (Z.div_mod x (2 ^ 64) ltac:(lia)). lia. Qed.

Lemma u64_cong k x y : x = y + k * 2 ^ 64 -> u64 x = u64 y.
Proof. intros ->. unfold u64. apply Z.mod_add. lia. Qed.

Lemma moved_words m from to amount : word_map m -> 0 <= amount <= at_key m from -> word_map (moved m from to amount).
Proof.
  intros Hm Ha. pose proof (at_key_word m from Hm). apply word_map_insert; [|apply u64_word]. apply word_map_insert; [done | lia].
Qed.

Lemma moved_sum m from to amount : u64 (sum_of (moved m from to amount)) = u64 (sum_of m).
Proof.
  unfold moved. rewrite !sum_insert. set (b := <[from := _]> m). destruct (u64_split (at_key b to + amount)) as [k ->]. apply (u64_cong k). lia.
Qed.

Lemma moved_at m from to amount a :
  word_map m -> 0 <= amount <= at_key m from -> at_key (moved m from to amount) a = u64 (at_key m a + gain from to amount a).
Proof.
  intros Hm Ha. pose proof (at_key_word m from Hm). pose proof (at_key_word m a Hm). unfold moved, gain. rewrite !at_key_insert.
  destruct (decide (to = a)) as [<-|N]; [rewrite (decide_True (P:=to = to)) by done | rewrite (decide_False (P:=a = to)) by congruence].
  - destruct (decide (from = to)) as [<-|N2]; [rewrite (decide_True (P:=from = from)) by done | rewrite (decide_False (P:=to = from)) by congruence]; f_equal; lia.
  - destruct (decide (from = a)) as [<-|N2]; [rewrite (decide_True (P:=from = from)) by done | rewrite (decide_False (P:=a = from)) by congruence];
      rewrite u64_small; lia.
Qed.

(** ** Steps of the store *)

(** The operations that change the store, with their arguments. *)
Inductive token_op : Type :=
| OpCreate (n sym : str) (supply : Z) (c : str) (fee : Z) (addr : str)
| OpTransfer (n from to : str) (amount : Z)
| OpTransferByAddress (addr from to : str) (amount : Z)
| OpApprove (n owner spender : str) (amount : Z) (caller : str)
| OpTransferFrom (n spender from to : str) (amount : Z)
| OpTransferFromByAddress (addr spender from to : str) (amount : Z)
| OpBurn (addr owner : str) (amount : Z)
| OpMint (addr c : str) (amount : Z)
| OpSetCreatorFee (addr c : str) (fee : Z)
| OpLockCreatorFee (addr c : str)
| OpSetPaused (addr c : str) (p : bool)
| OpSetFrozen (addr c account : str) (f : bool)
| OpTransferOwnership (addr c new_owner : str).

Section Steps.
  Context {FH : FastHash} {RB : RandomBytes}.

Inductive step (s : token_store) : token_op -> token_store -> Prop :=
| step_create n sym supply c fee addr r s' r' :
    create s n sym supply c fee addr r = Some (s', r') -> step s (OpCreate n sym supply c fee addr) s'
| step_transfer n from to amount b s' :
    transfer s n from to amount = Some (b, s') -> step s (OpTransfer n from to amount) s'
| step_transfer_by_address addr from to amount b s' :
    transfer_by_address s addr from to amount = Some (b, s') -> step s (OpTransferByAddress addr from to amount) s'
| step_approve n owner spender amount caller :
    step s (OpApprove n owner spender amount caller) (approve s n owner spender amount caller).2
| step_transfer_from n spender from to amount :
    step s (OpTransferFrom n spender from to amount) (transfer_from s n spender from to amount).2
| step_transfer_from_by_address addr spender from to amount :
    step s (OpTransferFromByAddress addr spender from to amount) (transfer_from_by_address s addr spender from to amount).2
| step_burn addr owner amount : step s (OpBurn addr owner amount) (burn s addr owner amount).2
| step_mint addr c amount : step s (OpMint addr c amount) (mint s addr c amount).2
| step_set_creator_fee addr c fee : step s (OpSetCreatorFee addr c fee) (set_creator_fee s addr c fee).2
| step_lock_creator_fee addr c : step s (OpLockCreatorFee addr c) (lock_creator_fee s addr c).2
| step_set_paused addr c p : step s (OpSetPaused addr c p) (set_paused s addr c p).2
| step_set_frozen addr c account f : step s (OpSetFrozen addr c account f) (set_frozen s addr c account f).2
| step_transfer_ownership addr c new_owner :
    step s (OpTransferOwnership addr c new_owner) (transfer_ownership s addr c new_owner).2.

(** Who may move [amount] out of [from] in token [n] by an operation, and with which address in
    the record: [from] itself, or a spender within its allowance, which is used up. *)
Inductive may_move (s : token_store) (n : str) (t t' : token_info) (from to : str) (amount : Z) : token_op -> str -> Prop :=
| move_transfer : may_move s n t t' from to amount (OpTransfer n from to amount) (token_address t)
| move_by_address addr : address_index s !! addr = Some n ->
    may_move s n t t' from to amount (OpTransferByAddress addr from to amount) addr
| move_from spender : amount <= allowance_at t from spender -> spender ∉ frozen_accounts t ->
    allowance_at t' from spender = allowance_at t from spender - amount ->
    may_move s n t t' from to amount (OpTransferFrom n spender from to amount) (token_address t)
| move_from_by_address addr spender : address_index s !! addr = Some n -> amount <= allowance_at t from spender ->
    spender ∉ frozen_accounts t -> allowance_at t' from spender = allowance_at t from spender - amount ->
    may_move s n t t' from to amount (OpTransferFromByAddress addr spender from to amount) addr.

(** [edited s s' n t t' h]: the store [s'] is [s] with token [n] changed from [t] to [t'] and
    the records [h] appended. *)
Definition edited (s s' : token_store) (n : str) (t t' : token_info) (h : list token_transfer_record) : Prop :=
  tokens s !! n = Some t /\ tokens s' = <[n := t']> (tokens s) /\ address_index s' = address_index s /\
  transfer_history s' = transfer_history s ++ h /\ token_address t' = token_address t.

(** The effect of an operation, on its accepting and refusing paths. *)
Inductive effect (s : token_store) : token_op -> token_store -> Prop :=
| effect_refused op : effect s op s
| effect_create n sym supply c fee addr a : effect s (OpCreate n sym supply c fee addr) (create_at s n sym supply c fee a)
| effect_admin op n t t' s' :
    edited s s' n t t' [] -> balances t' = balances t -> total_supply t' = total_supply t ->
    creator t' = creator t -> creator_tokens s' = creator_tokens s -> effect s op s'
| effect_owner addr c new_owner n t s' :
    address_index s !! addr = Some n -> tokens s !! n = Some t -> creator t = c ->
    s' = (transfer_ownership s addr c new_owner).2 -> effect s (OpTransferOwnership addr c new_owner) s'
| effect_move op n t t' from to amount addr s' :
    edited s s' n t t' [TransferRecord addr from to amount] -> may_move s n t t' from to amount op addr ->
    paused t = false -> from ∉ frozen_accounts t -> to ∉ frozen_accounts t -> amount <= at_key (balances t) from ->
    balances t' = moved (balances t) from to amount -> total_supply t' = total_supply t ->
    creator t' = creator t -> creator_tokens s' = creator_tokens s -> effect s op s'
| effect_burn addr owner amount n t t' s' :
    edited s s' n t t' [TransferRecord addr owner [] amount] -> address_index s !! addr = Some n ->
    owner ∉ frozen_accounts t -> amount <= at_key (balances t) owner ->
    balances t' = <[owner := at_key (balances t) owner - amount]> (balances t) ->
    total_supply t' = u64 (total_supply t - amount) -> creator t' = creator t -> creator_tokens s' = creator_tokens s ->
    effect s (OpBurn addr owner amount) s'
| effect_mint addr c amount n t t' s' :
    edited s s' n t t' [TransferRecord addr [] c amount] -> address_index s !! addr = Some n ->
    creator t = c -> c ∉ frozen_accounts t ->
    balances t' = <[c := u64 (at_key (balances t) c + amount)]> (balances t) ->
    total_supply t' = u64 (total_supply t + amount) -> creator t' = creator t -> creator_tokens s' = creator_tokens s ->
    effect s (OpMint addr c amount) s'.

Lemma get_by_address_spec s addr n t :
  get_by_address s addr = Some (n, t) <-> address_index s !! addr = Some n /\ tokens s !! n = Some t.
Proof.
  unfold get_by_address, get. destruct (address_index s !! addr) as [m|]; [|split; [done | intros [? _]; done]].
  destruct (tokens s !! m) eqn:E; split; [intros [= -> ->]; done | intros [[= ->] ?]; congruence | done | intros [[= ->] ?]; congruence].
Qed.

Lemma update_update n t t' s : update n t' (update n t s) = update n t' s.
Proof. unfold update. cbn. by rewrite insert_insert_eq. Qed.

Lemma have_at_key (m : gmap str Z) k v : m !! k = Some v -> at_key m k = v.
Proof. unfold at_key. by intros ->. Qed.

(** The guards of the code, as propositions. *)
Lemma frozen_guard (x y : str) (fs : gset str) :
  (bool_decide (x ∈ fs) || bool_decide (y ∈ fs)) = false -> (x ∉ fs) /\ (y ∉ fs).
Proof. intros [H1 H2]%orb_false_elim. split; [exact (bool_decide_eq_false_1 _ H1) | exact (bool_decide_eq_false_1 _ H2)]. Qed.

Lemma transfer_token_effect s n t addr from to amount b s' op :
  tokens s !! n = Some t -> (forall t', may_move s n t t' from to amount op addr) ->
  transfer_token s n t addr from to amount = Some (b, s') -> effect s op s'.
Proof.
  intros Ht Hop. unfold transfer_token. destruct (paused t) eqn:P; [intros [= <- <-]; constructor|].
  destruct (_ || _) eqn:F; [intros [= <- <-]; constructor|]. apply frozen_guard in F as [F1 F2].
  destruct (balances t !! from) as [have|] eqn:Hb; [|intros [= <- <-]; constructor].
  destruct (Z.ltb_spec have amount) as [L|L]; [intros [= <- <-]; constructor|].
  pose proof (have_at_key _ _ _ Hb) as Ha. rewrite <- Ha in L |- *. fold (moved (balances t) from to amount).
  destruct (integrated_base to) as [[base|]|]; cbn [bind]; [| |discriminate]; intros [= <- <-].
  - eapply (effect_move s op n t _ from to amount addr); [split; [exact Ht | split; [cbn; by rewrite insert_insert_eq|] ] | apply Hop | done..].
    by repeat split.
  - eapply (effect_move s op n t _ from to amount addr); [split; [exact Ht | split; [reflexivity|] ] | apply Hop | done..].
    by repeat split.
Qed.

Lemma allowance_set t owner spender v b : allowance_at (set_balances b (set_allowance t owner spender v)) owner spender = v.
Proof. unfold allowance_at, set_allowance. cbn. rewrite lookup_insert_eq. cbn. by rewrite at_key_insert, decide_True. Qed.

Lemma transfer_from_token_effect s n t addr spender from to amount op :
  tokens s !! n = Some t ->
  (forall t', amount <= allowance_at t from spender -> spender ∉ frozen_accounts t ->
     allowance_at t' from spender = allowance_at t from spender - amount -> may_move s n t t' from to amount op addr) ->
  effect s op (transfer_from_token s n t addr spender from to amount).2.
Proof.
  intros Ht Hop. unfold transfer_from_token. destruct (paused t) eqn:P; [constructor|].
  destruct (_ || _ || _) eqn:F; [constructor|]. apply orb_false_elim in F as [[F1 F2]%frozen_guard F3%bool_decide_eq_false_1].
  assert (effect s op (update n (set_allowance t from spender (allowance_at t from spender)) s)) as E0.
  { eapply (effect_admin s op n t); [split; [exact Ht | split; [reflexivity|] ] | done..]. repeat split. cbn. by rewrite app_nil_r. }
  destruct (Z.ltb_spec (allowance_at t from spender) amount) as [L|L]; [exact E0|].
  change (balances (set_allowance t from spender (allowance_at t from spender))) with (balances t).
  destruct (balances t !! from) as [have|] eqn:Hb; [|exact E0].
  destruct (Z.ltb_spec have amount) as [L2|L2]; [exact E0|]. rewrite update_update.
  pose proof (have_at_key _ _ _ Hb) as Ha. rewrite <- Ha in L2 |- *.
  eapply (effect_move s op n t _ from to amount addr); [split; [exact Ht | split; [reflexivity|] ] | apply Hop; [done | done | apply allowance_set] | done..].
  by repeat split.
Qed.

(** An operation on the token behind an address is refused when there is none. *)
Ltac by_address s addr := destruct (get_by_address s addr) as [[n t]|] eqn:G; [|constructor];
  apply get_by_address_spec in G as [Gi Gt].

(** One field of a token, other than its balances. *)
Ltac admin_effect s n t := eapply (effect_admin s _ n t); [split; [eassumption | split; [reflexivity|] ] | done..];
  repeat split; cbn; by rewrite ?app_nil_r.

Lemma approve_effect s n owner spender amount caller :
  effect s (OpApprove n owner spender amount caller) (approve s n owner spender amount caller).2.
Proof.
  unfold approve. destruct (get s n) as [t|] eqn:Gt; [|constructor]. destruct (negb _); [constructor|].
  destruct (balances t !! owner); [|constructor]. admin_effect s n t.
Qed.

Lemma burn_effect s addr owner amount : effect s (OpBurn addr owner amount) (burn s addr owner amount).2.
Proof.
  unfold burn. by_address s addr. destruct (bool_decide _) eqn:F; [constructor|]. apply bool_decide_eq_false_1 in F.
  destruct (balances t !! owner) as [have|] eqn:Hb; [|constructor].
  destruct (Z.ltb_spec have amount) as [L|L]; [constructor|]. pose proof (have_at_key _ _ _ Hb) as Ha. rewrite <- Ha in L |- *.
  eapply (effect_burn s addr owner amount n t); [split; [exact Gt | split; [reflexivity | by repeat split] ] | done..].
Qed.

Lemma mint_effect s addr c amount : effect s (OpMint addr c amount) (mint s addr c amount).2.
Proof.
  unfold mint. by_address s addr. destruct (bool_decide (creator t = c)) eqn:C; cbn [negb]; [|constructor].
  apply bool_decide_eq_true_1 in C. destruct (bool_decide _) eqn:F; [constructor|]. apply bool_decide_eq_false_1 in F.
  eapply (effect_mint s addr c amount n t); [split; [exact Gt | split; [reflexivity | by repeat split] ] | done..].
Qed.

Lemma ownership_effect s addr c new_owner :
  effect s (OpTransferOwnership addr c new_owner) (transfer_ownership s addr c new_owner).2.
Proof.
  destruct (get_by_address s addr) as [[n t]|] eqn:G; [|unfold transfer_ownership; rewrite G; constructor].
  destruct (decide (creator t = c)) as [C|C].
  - apply get_by_address_spec in G as [Gi Gt]. by eapply effect_owner.
  - unfold transfer_ownership. rewrite G, bool_decide_eq_false_2 by done. constructor.
Qed.

Lemma step_effect s op s' : step s op s' -> effect s op s'.
Proof.
  destruct 1 as [n sym supply c fee addr r s' r' H | n from to amount b s' H | addr from to amount b s' H | | n spender from to amount
    | addr spender from to amount | | | addr c fee | addr c | addr c p | addr c account f | ].
  - unfold create in H. destruct addr as [|x addr]; [|injection H as <- _; apply effect_create].
    destruct (generate_address _ _ _ _ _) as [[a r'']|]; cbn [bind] in H; [|discriminate]. injection H as <- _. apply effect_create.
  - unfold transfer in H. destruct (get s n) as [t|] eqn:Gt; [|injection H as <- <-; constructor].
    eapply transfer_token_effect; [exact Gt | intros; constructor | exact H].
  - unfold transfer_by_address in H. destruct (get_by_address s addr) as [[n t]|] eqn:G; [|injection H as <- <-; constructor].
    apply get_by_address_spec in G as [Gi Gt]. eapply transfer_token_effect; [exact Gt | intros; by constructor | exact H].
  - apply approve_effect.
  - unfold transfer_from. destruct (get s n) as [t|] eqn:Gt; [|constructor].
    apply transfer_from_token_effect; [exact Gt|]. intros. by constructor.
  - unfold transfer_from_by_address. by_address s addr. apply transfer_from_token_effect; [exact Gt|]. intros. by constructor.
  - apply burn_effect.
  - apply mint_effect.
  - unfold set_creator_fee. by_address s addr. destruct (_ || _); [constructor|]. admin_effect s n t.
  - unfold lock_creator_fee. by_address s addr. destruct (_ || _); [constructor|]. admin_effect s n t.
  - unfold set_paused. by_address s addr. destruct (negb _); [constructor|]. admin_effect s n t.
  - unfold set_frozen. by_address s addr. destruct (negb _); [constructor|]. admin_effect s n t.
  - apply ownership_effect.
Qed.

(** ** Conditions on operations *)

(** Amounts and supplies are 64-bit words, as their type says. *)
Definition word_arguments (op : token_op) : Prop :=
  match op with
  | OpCreate _ _ v _ _ _ | OpTransfer _ _ _ v | OpTransferByAddress _ _ _ v | OpApprove _ _ _ v _ | OpTransferFrom _ _ _ _ v
  | OpTransferFromByAddress _ _ _ _ v | OpBurn _ _ v | OpMint _ _ v => 0 <= v < 2 ^ 64
  | _ => True
  end.

(** No token has the name of a new token, which [create] does not test. *)
Definition fresh_name (s : token_store) (op : token_op) : Prop :=
  match op with OpCreate n _ _ _ _ _ => tokens s !! n = None | _ => True end.

(** The supply and the minted amount add up to a word, which [mint] does not test. *)
Definition mint_fits (s : token_store) (op : token_op) : Prop :=
  match op with
  | OpMint addr _ amount => forall n t, get_by_address s addr = Some (n, t) -> total_supply t + amount < 2 ^ 64
  | _ => True
  end.

(** Runs of operations that satisfy a condition. *)
Inductive run (ok : token_store -> token_op -> token_store -> Prop) (s : token_store) : token_store -> Prop :=
| run_none : run ok s s
| run_step s1 op s2 : run ok s s1 -> ok s1 op s2 -> step s1 op s2 -> run ok s s2.

(** All operations, those that create no name twice, and of these those whose mints fit. *)
Definition any_operation (s : token_store) (op : token_op) (s' : token_store) : Prop := word_arguments op.
Definition unique_names (s : token_store) (op : token_op) (s' : token_store) : Prop := word_arguments op /\ fresh_name s op.
Definition exact_mints (s : token_store) (op : token_op) (s' : token_store) : Prop := word_arguments op /\ fresh_name s op /\ mint_fits s op.

(** The amount of a move is that of its operation. *)
Lemma move_amount s n t t' from to amount op addr :
  may_move s n t t' from to amount op addr -> word_arguments op -> 0 <= amount < 2 ^ 64.
Proof. by destruct 1. Qed.

(** An invariant of the tokens of a store. *)
Definition all_tokens (Q : token_info -> Prop) (s : token_store) : Prop := forall n t, tokens s !! n = Some t -> Q t.

Lemma all_tokens_edit (Q : token_info -> Prop) s s' n t t' h :
  edited s s' n t t' h -> all_tokens Q s -> Q t' -> all_tokens Q s'.
Proof.
  intros (_ & E & _) Hs Ht m u. rewrite E, lookup_insert. case_decide; [intros [= <-]; done | apply Hs].
Qed.

Lemma run_tokens (Q : token_info -> Prop) (ok : token_store -> token_op -> token_store -> Prop) s s' :
  (forall s1 op s2, all_tokens Q s1 -> ok s1 op s2 -> effect s1 op s2 -> all_tokens Q s2) ->
  run ok s s' -> all_tokens Q s -> all_tokens Q s'.
Proof.
  intros Hok. induction 1 as [|s1 op s2 _ IH Ha Hs]; intros H0; [done|]. by eapply Hok, step_effect; [apply IH | |].
Qed.

Lemma empty_tokens (Q : token_info -> Prop) : all_tokens Q empty_store.
Proof. intros n t. cbn. by rewrite lookup_empty. Qed.

(** An effect preserves an invariant when each kind of change does; ownership and the other fields do not matter. *)
Lemma effect_tokens (Q : token_info -> Prop) s op s' :
  (forall t t', Q t -> balances t' = balances t -> total_supply t' = total_supply t -> Q t') ->
  (forall n sym supply c fee addr a, op = OpCreate n sym supply c fee addr -> all_tokens Q (create_at s n sym supply c fee a)) ->
  (forall n t t' from to amount addr, tokens s !! n = Some t -> Q t -> may_move s n t t' from to amount op addr -> amount <= at_key (balances t) from ->
     balances t' = moved (balances t) from to amount -> total_supply t' = total_supply t -> Q t') ->
  (forall n t t' owner amount addr, tokens s !! n = Some t -> Q t -> op = OpBurn addr owner amount -> amount <= at_key (balances t) owner ->
     balances t' = <[owner := at_key (balances t) owner - amount]> (balances t) -> total_supply t' = u64 (total_supply t - amount) -> Q t') ->
  (forall n t t' c amount addr, get_by_address s addr = Some (n, t) -> Q t -> op = OpMint addr c amount ->
     balances t' = <[c := u64 (at_key (balances t) c + amount)]> (balances t) -> total_supply t' = u64 (total_supply t + amount) -> Q t') ->
  all_tokens Q s -> effect s op s' -> all_tokens Q s'.
Proof.
  intros Hsame Hcreate Hmove Hburn Hmint Hs He.
  destruct He as [op | n sym supply c fee addr a | op n t t' s' E Eb Es | addr c new_owner n t s' Hi Ht Hc ->
    | op n t t' from to amount addr s' E Hop _ _ _ Hb Eb Es | addr owner amount n t t' s' E Hi _ Hb Eb Es
    | addr c amount n t t' s' E Hi Hc _ Eb Es]; [done | by eapply Hcreate | | | | | ].
  - apply (all_tokens_edit Q _ _ _ _ _ _ E Hs). destruct E as (Ht & _). by apply (Hsame t); [apply (Hs n)|..].
  - unfold transfer_ownership. rewrite (proj2 (get_by_address_spec s addr n t)) by done. rewrite bool_decide_eq_true_2 by done.
    intros m u. cbn. rewrite lookup_insert. case_decide; [intros [= <-]; by apply (Hsame t); [apply (Hs n)|..] | apply Hs].
  - apply (all_tokens_edit Q _ _ _ _ _ _ E Hs). destruct E as (Ht & _). by eapply Hmove; [done | by apply (Hs n) | ..].
  - apply (all_tokens_edit Q _ _ _ _ _ _ E Hs). destruct E as (Ht & _). by eapply Hburn; [done | by apply (Hs n) | ..].
  - apply (all_tokens_edit Q _ _ _ _ _ _ E Hs). destruct E as (Ht & _). by eapply Hmint; [by apply get_by_address_spec | by apply (Hs n) | ..].
Qed.

(** The tokens of a store after [create]. *)
Lemma create_tokens (Q : token_info -> Prop) s n sym supply c fee a :
  all_tokens Q s ->
  (forall t', total_supply t' = supply -> balances t' = <[c := supply]> (default ∅ (balances <$> tokens s !! n)) -> Q t') ->
  all_tokens Q (create_at s n sym supply c fee a).
Proof.
  intros Hs HQ m u. unfold create_at, create_token. cbn. rewrite lookup_insert. case_decide; [|apply Hs]. intros [= <-]. apply HQ; [done|].
  cbn. by destruct (tokens s !! n).
Qed.

(** ** Conservation of the supply *)

(** Balances are words. *)
Definition token_words (t : token_info) : Prop := word_map (balances t).

Lemma step_words s op s' : all_tokens token_words s -> word_arguments op -> effect s op s' -> all_tokens token_words s'.
Proof.
  intros Hs Hw He. revert Hs He. intros Hs. apply effect_tokens; [..|done]; unfold token_words.
  - by intros t t' Ht ->.
  - intros n sym supply c fee addr a ->. apply create_tokens; [done|]. intros t' _ Eb. rewrite Eb. apply word_map_insert; [|done].
    destruct (tokens s !! n) as [t|] eqn:E; cbn; [by apply (Hs n) | by intros x v ?%lookup_empty_Some].
  - intros n t t' from to amount addr _ Ht Hop Hb ->. pose proof (move_amount _ _ _ _ _ _ _ _ _ Hop Hw). by intros _; apply moved_words; [|lia].
  - intros n t t' owner amount addr _ Ht -> Hb -> _. pose proof (at_key_word _ owner Ht). cbn in Hw. apply word_map_insert; [done | lia].
  - intros n t t' c amount addr _ Ht _ -> _. apply word_map_insert; [done | apply u64_word].
Qed.

(** The supply is the word of the sum of the balances. *)
Definition token_mod (t : token_info) : Prop := total_supply t = u64 (sum_of (balances t)).

Lemma step_mod s op s' : all_tokens token_mod s -> word_arguments op /\ fresh_name s op -> effect s op s' -> all_tokens token_mod s'.
Proof.
  intros Hs [Hw Hf] He. revert Hs He. intros Hs. apply effect_tokens; [..|done]; unfold token_mod.
  - by intros t t' Ht -> ->.
  - intros n sym supply c fee addr a ->. apply create_tokens; [done|]. intros t' -> ->. cbn in Hf, Hw. rewrite Hf. cbn.
    rewrite sum_insert. unfold at_key. rewrite lookup_empty. cbn. change (sum_of ∅) with 0. rewrite u64_small; lia.
  - intros n t t' from to amount addr _ Ht _ _ -> ->. by rewrite moved_sum.
  - intros n t t' owner amount addr _ Ht _ _ -> ->. rewrite Ht, sum_insert. destruct (u64_split (sum_of (balances t))) as [k ->]. apply (u64_cong k). lia.
  - intros n t t' c amount addr _ Ht _ -> ->. rewrite Ht, sum_insert. destruct (u64_split (sum_of (balances t))) as [k ->].
    destruct (u64_split (at_key (balances t) c + amount)) as [l ->]. apply (u64_cong (k - l)). lia.
Qed.

Definition token_ok (t : token_info) : Prop :=
  nonneg (balances t) /\ sum_of (balances t) = total_supply t /\ total_supply t < 2 ^ 64.

Definition store_ok : token_store -> Prop := all_tokens token_ok.

(** The balances of a token that an operation of each kind leaves. *)
Lemma move_ok t t' from to amount :
  token_ok t -> 0 <= amount <= at_key (balances t) from -> balances t' = moved (balances t) from to amount ->
  total_supply t' = total_supply t -> token_ok t'.
Proof.
  intros (Hn & Hs & Hw) Ha Eb Es. destruct (moved_spec (balances t) from to amount Hn ltac:(lia) Ha) as (N & S & _).
  unfold token_ok. rewrite Eb, Es. split; [done|]. split; [lia | done].
Qed.

Lemma burn_ok t t' owner amount :
  token_ok t -> 0 <= amount <= at_key (balances t) owner ->
  balances t' = <[owner := at_key (balances t) owner - amount]> (balances t) ->
  total_supply t' = u64 (total_supply t - amount) -> token_ok t'.
Proof.
  intros (Hn & Hs & Hw) Ha Eb Es. pose proof (at_key_bound (balances t) owner Hn).
  unfold token_ok. rewrite Eb, Es, sum_insert, u64_small by lia.
  split; [apply nonneg_insert; [done | lia] | lia].
Qed.

Lemma mint_ok t t' c amount :
  token_ok t -> 0 <= amount -> total_supply t + amount < 2 ^ 64 ->
  balances t' = <[c := u64 (at_key (balances t) c + amount)]> (balances t) ->
  total_supply t' = u64 (total_supply t + amount) -> token_ok t'.
Proof.
  intros (Hn & Hs & Hw) Ha Hm Eb Es. pose proof (at_key_bound (balances t) c Hn).
  unfold token_ok. rewrite Eb, Es, sum_insert, !u64_small by lia.
  split; [apply nonneg_insert; [done | lia] | lia].
Qed.

Lemma effect_ok s op s' : store_ok s -> word_arguments op /\ fresh_name s op /\ mint_fits s op -> effect s op s' -> store_ok s'.
Proof.
  intros Hs (Hw & Hf & Hm) He. revert Hs He. intros Hs. apply effect_tokens; [..|done].
  - unfold token_ok. by intros t t' Ht -> ->.
  - intros n sym supply c fee addr a ->. apply create_tokens; [done|]. intros t' Es Eb. cbn in Hf, Hw. rewrite Hf in Eb. cbn in Eb.
    unfold token_ok. rewrite Es, Eb, sum_insert. split; [apply nonneg_insert; [done | lia]|]. unfold at_key. rewrite lookup_empty. cbn. change (sum_of ∅) with 0. lia.
  - intros n t t' from to amount addr _ Ht Hop Hb Eb Es. pose proof (move_amount _ _ _ _ _ _ _ _ _ Hop Hw).
    by apply (move_ok t t' from to amount); [|lia|..].
  - intros n t t' owner amount addr _ Ht -> Hb Eb Es. cbn in Hw. by apply (burn_ok t t' owner amount); [|lia|..].
  - intros n t t' c amount addr Hg Ht -> Eb Es. cbn in Hw, Hm. by apply (mint_ok t t' c amount); [|lia|apply (Hm n)|..].
Qed.

Lemma exact_ok s : run exact_mints empty_store s -> store_ok s.
Proof. intros H. exact (run_tokens token_ok exact_mints _ _ effect_ok H (empty_tokens _)). Qed.

Lemma words_ok ok s : (forall s1 op s2, ok s1 op s2 -> word_arguments op) -> run ok empty_store s -> all_tokens token_words s.
Proof. intros Hok H. eapply (run_tokens token_words ok); [|exact H | apply empty_tokens]. intros s1 op s2 H1 H2. apply step_words; [done | by eapply Hok]. Qed.

(** The balances of a store after a change of one token. *)
Lemma balance_of_at s n t a : tokens s !! n = Some t -> balance_of s n a = at_key (balances t) a.
Proof. unfold balance_of, at_key. intros ->. by destruct (balances t !! a). Qed.

Lemma balance_of_edit s s' n t t' h m a :
  edited s s' n t t' h -> balance_of s' m a = if decide (m = n) then at_key (balances t') a else balance_of s m a.
Proof.
  intros (_ & E & _). unfold balance_of. rewrite E, lookup_insert. case_decide; case_decide; try congruence.
  unfold at_key. by destruct (balances t' !! a).
Qed.

(** C22: conservation of the supply: in every store that is reached from the empty one by operations
    that do not create a name twice, the supply of a token is the sum of its balances as a 64-bit
    word; when, besides, the supply and the amount add up to a word in every mint, the supply is
    exactly the sum of the balances and no balance exceeds it. The code tests neither condition:
    [create_overwrites] and [mint_wraps] show what happens without them. *)
Theorem supply_conserved s n t a :
  run unique_names empty_store s -> tokens s !! n = Some t ->
  total_supply t = u64 (sum_of (balances t)) /\ 0 <= balance_of s n a < 2 ^ 64 /\
  (run exact_mints empty_store s -> sum_of (balances t) = total_supply t /\ balance_of s n a <= total_supply t).
Proof.
  intros Hr Ht. rewrite (balance_of_at s n t a Ht). split; [|split].
  - exact (run_tokens token_mod unique_names _ _ step_mod Hr (empty_tokens _) n t Ht).
  - apply at_key_word, (words_ok unique_names s ltac:(by intros ??? [? _]) Hr n t Ht).
  - intros He. destruct (exact_ok s He n t Ht) as (Hn & Hs & Hw). pose proof (at_key_bound (balances t) a Hn). lia.
Qed.

(** ** Who can change a balance *)

(** The balances after an operation of each kind, exactly. *)
Lemma create_balance s n sym supply c fee a m acc :
  balance_of (create_at s n sym supply c fee a) m acc =
    if decide (m = n /\ acc = c) then supply else balance_of s m acc.
Proof.
  unfold balance_of, create_at, create_token. cbn. rewrite lookup_insert. case_decide as D; [subst m|].
  - cbn. rewrite lookup_insert. case_decide as D2; [subst; by rewrite decide_True|]. rewrite decide_False by (intros [_ ?]; congruence).
    destruct (tokens s !! n); cbn; [done | by rewrite lookup_empty].
  - by rewrite decide_False by (intros [? _]; congruence).
Qed.

Lemma owner_balance s addr c new_owner n t m a :
  address_index s !! addr = Some n -> tokens s !! n = Some t -> creator t = c ->
  balance_of (transfer_ownership s addr c new_owner).2 m a = balance_of s m a.
Proof.
  intros Hi Ht Hc. unfold transfer_ownership. rewrite (proj2 (get_by_address_spec s addr n t)) by done.
  rewrite bool_decide_eq_true_2 by done. unfold balance_of. cbn. rewrite lookup_insert. case_decide as D; [|done].
  subst m. by rewrite Ht.
Qed.

(** The change of a balance by an effect. *)
Lemma effect_balance s op s' m a :
  all_tokens token_words s -> word_arguments op -> effect s op s' ->
  balance_of s' m a = balance_of s m a \/
  (exists sym fee addr, op = OpCreate m sym (balance_of s' m a) a fee addr) \/
  exists t t', tokens s !! m = Some t /\ tokens s' !! m = Some t' /\
    ((exists from to amount addr, may_move s m t t' from to amount op addr /\ paused t = false /\
        (from ∉ frozen_accounts t) /\ (to ∉ frozen_accounts t) /\ 0 <= amount <= balance_of s m from /\
        balance_of s' m a = u64 (balance_of s m a + gain from to amount a)) \/
     (exists addr amount, op = OpBurn addr a amount /\ address_index s !! addr = Some m /\ (a ∉ frozen_accounts t) /\
        0 <= amount /\ balance_of s' m a = balance_of s m a - amount) \/
     (exists addr amount, op = OpMint addr a amount /\ address_index s !! addr = Some m /\ creator t = a /\
        (a ∉ frozen_accounts t) /\ 0 <= amount < 2 ^ 64 /\ balance_of s' m a = u64 (balance_of s m a + amount))).
Proof.
  intros Hs Hw He.
  destruct He as [op | n sym supply c fee addr x | op n t t' s' E Eb Es | addr c new_owner n t s' Hi Ht Hc ->
    | op n t t' from to amount addr s' E Hop Hp Hf1 Hf2 Hb Eb Es | addr owner amount n t t' s' E Hi Hf Hb Eb Es
    | addr c amount n t t' s' E Hi Hc Hf Eb Es].
  - by left.
  - rewrite !create_balance. case_decide as D; [|by left]. destruct D as [-> ->]. right. left. eauto.
  - left. rewrite (balance_of_edit _ _ _ _ _ _ m a E). case_decide as D; [|done]. subst m. destruct E as (Ht & _).
    rewrite Eb. by rewrite (balance_of_at s n t).
  - left. by eapply owner_balance.
  - rewrite (balance_of_edit _ _ _ _ _ _ m a E). case_decide as D; [|by left]. subst m. destruct E as (Ht & E & _).
    right. right. exists t, t'. split; [done|]. split; [rewrite E; apply lookup_insert_eq|]. left.
    exists from, to, amount, addr. pose proof (move_amount _ _ _ _ _ _ _ _ _ Hop Hw) as Hm. rewrite !(balance_of_at s n t) by done.
    repeat split; (done || lia || (rewrite Eb; by apply moved_at; [apply (Hs n) | lia])).
  - rewrite (balance_of_edit _ _ _ _ _ _ m a E). case_decide as D; [|by left]. subst m. destruct E as (Ht & E & _).
    rewrite (balance_of_at s n t a Ht), Eb, at_key_insert. case_decide as D; [|by left]. subst owner. cbn in Hw.
    right. right. exists t, t'. split; [done|]. split; [rewrite E; apply lookup_insert_eq|]. right. left. exists addr, amount. repeat split; (done || lia).
  - rewrite (balance_of_edit _ _ _ _ _ _ m a E). case_decide as D; [|by left]. subst m. destruct E as (Ht & E & _).
    rewrite (balance_of_at s n t a Ht), Eb, at_key_insert. case_decide as D; [|by left]. rewrite D in *.
    right. right. exists t, t'. split; [done|]. split; [rewrite E; apply lookup_insert_eq|]. right. right. by exists addr, amount.
Qed.

(** A word plus a word, as a word. *)
Lemma u64_add_cases x y : 0 <= x < 2 ^ 64 -> 0 <= y < 2 ^ 64 -> u64 (x + y) = x + y \/ u64 (x + y) = x + y - 2 ^ 64.
Proof.
  intros Hx Hy. destruct (Z.lt_ge_cases (x + y) (2 ^ 64)) as [L|L]; [left; apply u64_small; lia|]. right.
  rewrite (u64_cong 1 (x + y) (x + y - 2 ^ 64)) by lia. apply u64_small. lia.
Qed.

(** A balance of a word after a move: unchanged, less the amount for the sender, or more by it, modulo 2^64, for the recipient. *)
Lemma gain_cases from to amount a x :
  0 <= x < 2 ^ 64 -> 0 <= amount < 2 ^ 64 -> (a = from -> amount <= x) -> u64 (x + gain from to amount a) <> x ->
  (a = from /\ u64 (x + gain from to amount a) = x - amount) \/
  (a = to /\ (u64 (x + gain from to amount a) = x + amount \/ u64 (x + gain from to amount a) = x + amount - 2 ^ 64)).
Proof.
  intros Hx Ha Hf. unfold gain. destruct (decide (a = to)) as [Et|], (decide (a = from)) as [Ef|]; intros N.
  - elim N. rewrite Z.sub_diag, Z.add_0_r. by apply u64_small.
  - right. split; [done|]. rewrite Z.sub_0_r. by apply u64_add_cases.
  - left. split; [done|]. specialize (Hf Ef). rewrite u64_small; lia.
  - elim N. rewrite Z.add_0_r. by apply u64_small.
Qed.

(** C23: who can change a balance, in every store reached from the empty one by any operations. When an
    operation lowers the balance of an account, then it creates a token again under its name, with
    that account as the creator; or the account is not frozen and one of these holds: the token
    is not paused and the operation moves the amount out of the account, called for the account itself
    or for a spender that is not frozen and whose allowance covers the amount and is reduced by it; it
    burns from that account; or a move into the account or a mint by it as the owner wraps around at
    2^64. When an operation raises a balance, then the account is the creator of the token that it
    creates, or the account is not frozen and receives a move of a token that is not paused, or
    mints as the owner of the token, by exactly the amount. *)
Theorem balance_authority s op s' n a :
  run any_operation empty_store s -> word_arguments op -> step s op s' ->
  (balance_of s' n a < balance_of s n a ->
   (exists sym fee addr, op = OpCreate n sym (balance_of s' n a) a fee addr) \/
   exists t t', tokens s !! n = Some t /\ tokens s' !! n = Some t' /\ (a ∉ frozen_accounts t) /\
     ((paused t = false /\ exists to amount addr, may_move s n t t' a to amount op addr /\ (to ∉ frozen_accounts t) /\
         balance_of s' n a = balance_of s n a - amount) \/
      (exists addr amount, op = OpBurn addr a amount /\ address_index s !! addr = Some n /\
         balance_of s' n a = balance_of s n a - amount) \/
      (paused t = false /\ exists from amount addr, may_move s n t t' from a amount op addr /\ (from ∉ frozen_accounts t) /\
         balance_of s' n a = balance_of s n a + amount - 2 ^ 64) \/
      (creator t = a /\ exists addr amount, op = OpMint addr a amount /\ address_index s !! addr = Some n /\
         balance_of s' n a = balance_of s n a + amount - 2 ^ 64))) /\
  (balance_of s n a < balance_of s' n a ->
   (exists sym fee addr, op = OpCreate n sym (balance_of s' n a) a fee addr) \/
   exists t t', tokens s !! n = Some t /\ tokens s' !! n = Some t' /\ (a ∉ frozen_accounts t) /\
     ((paused t = false /\ exists from amount addr, may_move s n t t' from a amount op addr /\ (from ∉ frozen_accounts t) /\
         balance_of s' n a = balance_of s n a + amount) \/
      (creator t = a /\ exists addr amount, op = OpMint addr a amount /\ address_index s !! addr = Some n /\
         balance_of s' n a = balance_of s n a + amount))).
Proof.
  intros Hr Hw Hs. pose proof (words_ok any_operation s ltac:(done) Hr) as W.
  destruct (effect_balance s op s' n a W Hw (step_effect s op s' Hs)) as [B | [Hop | (t & t' & Ht & Ht' & B)]]; [split; lia | split; by left |].
  pose proof (at_key_word _ a (W n t Ht)) as Ba. rewrite <- (balance_of_at s n t a Ht) in Ba.
  destruct B as [(from & to & amount & addr & Hop & Hp & Hf & Ht2 & Hm & E) | [(addr & amount & Hop & Hi & Hf & Hm & E) | (addr & amount & Hop & Hi & Hc & Hf & Hm & E)]].
  - pose proof (at_key_word _ from (W n t Ht)) as Bf. rewrite <- (balance_of_at s n t from Ht) in Bf.
    destruct (Z.eq_dec (balance_of s' n a) (balance_of s n a)) as [D|D]; [split; lia|]. rewrite E in D.
    destruct (gain_cases from to amount a _ Ba ltac:(lia) ltac:(intros ->; lia) D) as [[Ef G] | [Et [G | G]]]; rewrite G in E; [subst a | subst a | subst a].
    + split; intros L; [|lia]. right. exists t, t'. do 3 (split; [done|]). left. split; [done|]. by exists to, amount, addr.
    + split; intros L; [lia|]. right. exists t, t'. do 3 (split; [done|]). left. split; [done|]. by exists from, amount, addr.
    + split; intros L; [|lia]. right. exists t, t'. do 3 (split; [done|]). right. right. left. split; [done|]. by exists from, amount, addr.
  - split; intros L; [|lia]. right. exists t, t'. do 3 (split; [done|]). right. left. by exists addr, amount.
  - destruct (u64_add_cases _ amount Ba Hm) as [G | G]; rewrite G in E; (split; intros L; [|try lia]); try lia; right; exists t, t'; do 3 (split; [done|]).
    + right. split; [done|]. by exists addr, amount.
    + right. right. right. split; [done|]. by exists addr, amount.
Qed.

(** ** Indexes *)

(** The index by address and the lists by creator hold exactly the tokens. *)
Definition index_ok (s : token_store) : Prop :=
  (forall a n, address_index s !! a = Some n <-> exists t, tokens s !! n = Some t /\ token_address t = a) /\
  (forall c n, n ∈ default [] (creator_tokens s !! c) <-> exists t, tokens s !! n = Some t /\ creator t = c) /\
  (forall c, NoDup (default [] (creator_tokens s !! c))).

(** A new token gets a name and an address that no other token has. *)
Definition indexed (s : token_store) (op : token_op) (s' : token_store) : Prop :=
  fresh_name s op /\
  match op with
  | OpCreate n _ _ _ _ _ => forall t, tokens s' !! n = Some t -> address_index s !! token_address t = None
  | _ => True
  end.

Lemma index_ok_edit s s' n t t' h :
  edited s s' n t t' h -> creator t' = creator t -> creator_tokens s' = creator_tokens s -> index_ok s -> index_ok s'.
Proof.
  intros (Ht & E & Ei & _ & Ea) Ec Ect (I1 & I2 & I3).
  assert (forall (f : token_info -> str) x m, f t' = f t ->
    (exists u, tokens s' !! m = Some u /\ f u = x) <-> exists u, tokens s !! m = Some u /\ f u = x) as K.
  { intros f x m Hf. rewrite E. destruct (decide (n = m)) as [<-|N].
    - rewrite lookup_insert_eq, Ht. split; intros (u & [= <-] & Hu); eexists; (split; [done | congruence]).
    - by rewrite lookup_insert_ne. }
  split; [intros a m; rewrite Ei, (I1 a m); symmetry; by apply K|].
  split; [|intros c; rewrite Ect; apply I3]. intros c m. rewrite Ect, (I2 c m). symmetry. by apply K.
Qed.

Lemma index_ok_create s n sym supply c fee a :
  index_ok s -> tokens s !! n = None -> address_index s !! a = None -> index_ok (create_at s n sym supply c fee a).
Proof.
  intros (I1 & I2 & I3) Hn Ha.
  assert (forall x, n ∉ default [] (creator_tokens s !! x)) as Nn by (intros x (t & Ht & _)%I2; congruence).
  split; [|split]; cbn.
  - intros b m. rewrite !lookup_insert. destruct (decide (a = b)) as [<-|Nb].
    + split; [intros [= <-]; exists (TokenInfo n sym a c supply fee false false (frozen_accounts (default empty_token (tokens s !! n)))
        (<[c:=supply]> (balances (default empty_token (tokens s !! n)))) (allowances (default empty_token (tokens s !! n)))); by rewrite decide_True|].
      case_decide as D; [by subst|]. intros Hex. apply I1 in Hex. congruence.
    + rewrite I1. case_decide as D; [|done]. subst m. split; [intros (t & Ht & _); congruence|].
      intros (t & [= <-] & Hb). cbn in Hb. congruence.
  - intros x m. rewrite !lookup_insert. destruct (decide (c = x)) as [<-|Nx].
    + cbn. rewrite elem_of_app, list_elem_of_singleton, I2. case_decide as D; [subst m; split; [by eexists | by right]|].
      split; [by intros [?|?] | by left].
    + rewrite I2. case_decide as D; [|done]. subst m. split; [intros (t & Ht & _); congruence|].
      intros (t & [= <-] & Hb). cbn in Hb. congruence.
  - intros x. rewrite lookup_insert. destruct (decide (c = x)) as [<-|Nx]; [|done]. cbn. apply NoDup_app. split; [done|].
    split; [|apply NoDup_singleton]. intros y Hy ->%list_elem_of_singleton. by apply (Nn c).
Qed.

Lemma index_ok_owner s addr c new_owner n t :
  index_ok s -> address_index s !! addr = Some n -> tokens s !! n = Some t -> creator t = c ->
  index_ok (transfer_ownership s addr c new_owner).2.
Proof.
  intros (I1 & I2 & I3) Hi Ht Hc. unfold transfer_ownership.
  rewrite (proj2 (get_by_address_spec s addr n t)), bool_decide_eq_true_2 by done. cbn [negb snd].
  set (ct1 := <[c := filter (fun m => m <> n) (default [] (creator_tokens s !! c))]> (creator_tokens s)).
  assert (forall x m, m ∈ default [] (ct1 !! x) <-> m <> n /\ exists u, tokens s !! m = Some u /\ creator u = x) as K1.
  { intros x m. unfold ct1. rewrite lookup_insert. destruct (decide (c = x)) as [<-|Nx]; cbn.
    - by rewrite list_elem_of_filter, I2.
    - rewrite I2. split; [|by intros [_ H]]. intros (u & Hu & Hx). split; [intros ->; congruence | eauto]. }
  assert (forall x, NoDup (default [] (ct1 !! x))) as K2.
  { intros x. unfold ct1. rewrite lookup_insert. destruct (decide (c = x)) as [<-|Nx]; cbn; [by apply NoDup_filter | done]. }
  split; [|split]; cbn.
  - intros a m. rewrite I1, lookup_insert. case_decide as D; [|done]. subst m.
    split; intros (u & Hu & Ha); [|injection Hu as <-; by exists t]. exists (set_creator new_owner t). split; [done | cbn; congruence].
  - intros x m. rewrite !lookup_insert. destruct (decide (new_owner = x)) as [<-|Nx]; cbn.
    + rewrite elem_of_app, list_elem_of_singleton, K1. case_decide as D.
      * subst m. split; [by eexists | by right].
      * split; [by intros [[_ ?]|?] | by left].
    + rewrite K1. case_decide as D; [|split; [by intros [_ H] | intros H; split; [congruence | exact H]]]. subst m. split; [by intros [? _]|]. intros (u & [= <-] & Hu). by cbn in Hu.
  - intros x. rewrite lookup_insert. destruct (decide (new_owner = x)) as [<-|Nx]; [|apply K2]. cbn. apply NoDup_app.
    split; [apply K2|]. split; [|apply NoDup_singleton]. intros y Hy ->%list_elem_of_singleton. by apply K1 in Hy as [? _].
Qed.

Lemma step_index s op s' : index_ok s -> indexed s op s' -> step s op s' -> index_ok s'.
Proof.
  intros I [Ha Hf] He%step_effect.
  destruct He as [op | n sym supply c fee addr a | op n t t' s' E Eb Es Ec Ect | addr c new_owner n t s' Hi Ht Hc ->
    | op n t t' from to amount addr s' E Hop _ _ _ Hb Eb Es Ec Ect | addr owner amount n t t' s' E Hi _ Hb Eb Es Ec Ect
    | addr c amount n t t' s' E Hi Hc _ Eb Es Ec Ect]; try by eapply index_ok_edit.
  - done.
  - apply index_ok_create; [done | exact Ha|]. apply (Hf _ (lookup_insert_eq _ _ _)).
  - by eapply index_ok_owner.
Qed.

Lemma empty_index : index_ok empty_store.
Proof.
  split; [|split]; cbn; intros; rewrite ?lookup_empty; cbn; [| |apply NoDup_nil_2];
    (split; [try done; by intros ?%not_elem_of_nil | by intros (t & ? & _)]).
Qed.

Lemma run_index (ok : token_store -> token_op -> token_store -> Prop) s :
  (forall s1 op s2, ok s1 op s2 -> indexed s1 op s2) -> run ok empty_store s -> index_ok s.
Proof. intros Hok. induction 1 as [|s1 op s2 _ IH Ho Hs]; [apply empty_index | by eapply step_index; [| apply Hok |]]. Qed.
End Steps.

Lemma run_trans {FH : FastHash} {RB : RandomBytes} ok s s1 s2 : run ok s s1 -> run ok s1 s2 -> run ok s s2.
Proof. intros H1. induction 1; [done | by eapply run_step]. Qed.

Lemma run_weaken {FH : FastHash} {RB : RandomBytes} (ok ok' : token_store -> token_op -> token_store -> Prop) s s1 :
  (forall s op s', ok s op s' -> ok' s op s') -> run ok s s1 -> run ok' s s1.
Proof. intros H. induction 1; [constructor | eapply run_step; eauto]. Qed.

(** ** Saving and loading *)

Section Loading.
  Context (iterate : gmap str token_info -> list (str * token_info)).
  Hypothesis iterate_all : forall m, iterate m ≡ₚ map_to_list m.

(** The indexes that the loop of [rebuild_indexes] has built from the entries seen. *)
Lemma index_fold l :
  NoDup l.*1 -> (forall n t n' t', (n, t) ∈ l -> (n', t') ∈ l -> token_address t = token_address t' -> n = n') ->
  let '(ai, ct) := fold_left index_step l (∅, ∅) in
  (forall a n, ai !! a = Some n <-> exists t, (n, t) ∈ l /\ token_address t = a) /\
  (forall c n, n ∈ default [] (ct !! c) <-> exists t, (n, t) ∈ l /\ creator t = c) /\
  (forall c, NoDup (default [] (ct !! c))).
Proof.
  induction l as [|[n0 t0] l IH] using rev_ind; intros Nd Inj.
  - cbn. split; [|split]; intros; rewrite ?lookup_empty; cbn; [| |apply NoDup_nil_2];
      (split; [try done; by intros ?%not_elem_of_nil | by intros (t & ?%not_elem_of_nil & _)]).
  - rewrite fmap_app in Nd. apply NoDup_app in Nd as (Nd & Nn & _). rewrite fold_left_app. cbn [fold_left].
    specialize (IH Nd ltac:(intros ???? H1 H2; apply Inj; apply elem_of_app; by left)).
    destruct (fold_left index_step l (∅, ∅)) as [ai ct]. destruct IH as (I1 & I2 & I3). cbn [index_step fst snd].
    assert (forall n, (exists t, (n, t) ∈ l) -> n <> n0) as New.
    { intros n (t & Hin) ->. apply (Nn n0); [|cbn; apply list_elem_of_singleton; done]. apply list_elem_of_fmap. by exists (n0, t). }
    assert (forall (f : token_info -> str) x n, (exists t, (n, t) ∈ l ++ [(n0, t0)] /\ f t = x) <->
      (exists t, (n, t) ∈ l /\ f t = x) \/ (n = n0 /\ f t0 = x)) as Split.
    { intros f x n. split.
      - intros (t & [Hin|[= -> ->]%list_elem_of_singleton]%elem_of_app & Hx); [left; by exists t | by right].
      - intros [(t & Hin & Hx) | [-> Hx]]; [exists t | exists t0]; (split; [apply elem_of_app|done]); [by left | right; by apply list_elem_of_singleton]. }
    split; [|split].
    + intros a n. rewrite Split, lookup_insert. destruct (decide (token_address t0 = a)) as [<-|N].
      * split; [intros [= <-]; by right|]. intros [(t & Hin & Ht) | [-> _]]; [|done]. f_equal.
        symmetry. apply (Inj n t n0 t0); [apply elem_of_app; by left | apply elem_of_app; right; by apply list_elem_of_singleton | done].
      * rewrite I1. split; [by left | intros [?|[_ ?]]; done].
    + intros c n. rewrite Split, lookup_insert. destruct (decide (creator t0 = c)) as [<-|N]; cbn.
      * rewrite elem_of_app, list_elem_of_singleton, I2. split; (intros [?|H]; [by left | right]); [done | by destruct H].
      * rewrite I2. split; [by left | intros [?|[_ ?]]; done].
    + intros c. rewrite lookup_insert. destruct (decide (creator t0 = c)) as [<-|N]; [|done]. cbn. apply NoDup_app. split; [done|].
      split; [|apply NoDup_singleton]. intros y Hy ->%list_elem_of_singleton. apply I2 in Hy as (t & Hin & _). by apply (New n0); [exists t|].
Qed.

Lemma rebuild_ok s :
  (forall n t n' t', tokens s !! n = Some t -> tokens s !! n' = Some t' -> token_address t = token_address t' -> n = n') ->
  index_ok (rebuild_indexes iterate s) /\ tokens (rebuild_indexes iterate s) = tokens s /\
  transfer_history (rebuild_indexes iterate s) = transfer_history s.
Proof.
  intros Inj. unfold rebuild_indexes.
  assert (forall n t, (n, t) ∈ iterate (tokens s) <-> tokens s !! n = Some t) as El.
  { intros n t. rewrite iterate_all. apply elem_of_map_to_list. }
  pose proof (index_fold (iterate (tokens s))) as F. destruct (fold_left index_step (iterate (tokens s)) (∅, ∅)) as [ai ct].
  destruct F as (F1 & F2 & F3).
  { rewrite iterate_all. apply NoDup_fst_map_to_list. }
  { intros n t n' t'. rewrite !El. apply Inj. }
  split; [|done]. split; [|split; [|exact F3]]; cbn.
  - intros a n. rewrite F1. by setoid_rewrite El.
  - intros c n. rewrite F2. by setoid_rewrite El.
Qed.

(** Two stores with consistent indexes and the same tokens have the same indexes, up to the
    order of the lists. *)
Lemma index_unique s s' :
  index_ok s -> index_ok s' -> tokens s' = tokens s ->
  address_index s' = address_index s /\
  forall c, default [] (creator_tokens s' !! c) ≡ₚ default [] (creator_tokens s !! c).
Proof.
  intros (I1 & I2 & I3) (J1 & J2 & J3) E. split.
  - apply map_eq. intros a. apply option_eq. intros n. by rewrite I1, J1, E.
  - intros c. apply NoDup_Permutation; [apply J3 | apply I3|]. intros n. by rewrite I2, J2, E.
Qed.

Lemma index_injective s n t n' t' :
  index_ok s -> tokens s !! n = Some t -> tokens s !! n' = Some t' -> token_address t = token_address t' -> n = n'.
Proof.
  intros (I1 & _) Ht Ht' E. assert (address_index s !! token_address t = Some n) by (apply I1; eauto).
  assert (address_index s !! token_address t = Some n') by (apply I1; eauto). congruence.
Qed.

Section Restore.
  Context {FH : FastHash} {RB : RandomBytes}.

(** C24: saving and loading: a store that is reached from the empty one, when new tokens get new names
    and addresses, is restored from its archived tokens and history: the tokens, the history
    and the index by address are the same, and so are the lists by creator up to their order,
    in whatever order the loop that rebuilds the indexes visits the tokens. *)
Theorem load_restores s :
  run indexed empty_store s ->
  let s' := load_data iterate (store_data s) in
  tokens s' = tokens s /\ transfer_history s' = transfer_history s /\ address_index s' = address_index s /\
  forall c, default [] (creator_tokens s' !! c) ≡ₚ default [] (creator_tokens s !! c).
Proof.
  intros Hr s'. pose proof (run_index indexed s ltac:(done) Hr) as I.
  destruct (rebuild_ok (TokenStore (tokens s) ∅ ∅ (transfer_history s))) as (I' & Et & Eh).
  { intros n t n' t'. apply (index_injective s n t n' t' I). }
  destruct (index_unique s s' I I' Et) as [Ea Ec]. repeat split; done.
Qed.
End Restore.
End Loading.

(** ** The history of transfers *)

(** What the records of a token change in the balance of an account. *)
Fixpoint flow (h : list token_transfer_record) (addr a : str) : Z :=
  match h with
  | [] => 0
  | r :: h => (if decide (record_token r = addr) then gain (record_from r) (record_to r) (record_amount r) a else 0) + flow h addr a
  end.

Lemma flow_app h h' addr a : flow (h ++ h') addr a = flow h addr a + flow h' addr a.
Proof. induction h as [|r h IH]; cbn; [done | rewrite IH; lia]. Qed.

Section History.
  Context {FH : FastHash} {RB : RandomBytes}.

(** [explained R s s' n t a]: the new records account for the change of the balance, up to [R]. *)
Definition explained (R : Z -> Z -> Prop) (s s' : token_store) (n : str) (t : token_info) (a : str) : Prop :=
  exists h t', transfer_history s' = transfer_history s ++ h /\ tokens s' !! n = Some t' /\ token_address t' = token_address t /\
    R (balance_of s' n a) (balance_of s n a + flow h (token_address t) a).

Definition same_word (x y : Z) : Prop := u64 x = u64 y.

Section Up_to.
  Context (R : Z -> Z -> Prop).
  Hypothesis R_refl : forall x, R x x.

Lemma explained_same s s' n t a :
  tokens s !! n = Some t -> transfer_history s' = transfer_history s ->
  (exists t', tokens s' !! n = Some t' /\ token_address t' = token_address t) ->
  balance_of s' n a = balance_of s n a -> explained R s s' n t a.
Proof. intros Ht Eh (t' & Ht' & Ea) Eb. exists [], t'. cbn. rewrite app_nil_r, Z.add_0_r, Eb. by repeat split. Qed.

Lemma explained_edit s s' m u u' r n t a :
  index_ok s -> edited s s' m u u' [r] -> record_token r = token_address u ->
  R (at_key (balances u') a) (at_key (balances u) a + gain (record_from r) (record_to r) (record_amount r) a) ->
  tokens s !! n = Some t -> explained R s s' n t a.
Proof.
  intros I E Er Eb Ht. pose proof (balance_of_edit _ _ _ _ _ _ n a E) as B. destruct E as (Hu & E & _ & Eh & Ea).
  exists [r]. cbn [flow]. destruct (decide (n = m)) as [->|N].
  - assert (u = t) as -> by congruence. exists u'. rewrite E, lookup_insert_eq, B, decide_True, Z.add_0_r by done.
    rewrite (balance_of_at s m t a Ht). by repeat split.
  - exists t. rewrite E, lookup_insert_ne, B by done. rewrite decide_False; [rewrite !Z.add_0_r; by repeat split|].
    intros H. apply N. apply (index_injective s n t m u I Ht Hu). congruence.
Qed.

Lemma address_of s addr n t : index_ok s -> address_index s !! addr = Some n -> tokens s !! n = Some t -> addr = token_address t.
Proof. intros (I1 & _) (u & Hu & <-)%I1 Ht. congruence. Qed.

Lemma move_address s n t t' from to amount op addr :
  index_ok s -> tokens s !! n = Some t -> may_move s n t t' from to amount op addr -> addr = token_address t.
Proof. intros I Ht Hm. destruct Hm; [done | by eapply address_of | done | by eapply address_of]. Qed.

(** One step, when [R] relates the balances after moves and mints to the sums. *)
Lemma step_explained s op s' n t a :
  index_ok s -> indexed s op s' -> step s op s' -> tokens s !! n = Some t -> a <> [] ->
  (forall m u u' from to amount addr, tokens s !! m = Some u -> may_move s m u u' from to amount op addr -> amount <= at_key (balances u) from ->
     R (at_key (moved (balances u) from to amount) a) (at_key (balances u) a + gain from to amount a)) ->
  (forall m u addr c amount, get_by_address s addr = Some (m, u) -> op = OpMint addr c amount ->
     R (u64 (at_key (balances u) c + amount)) (at_key (balances u) c + amount)) ->
  explained R s s' n t a.
Proof.
  intros I [Hf _] He%step_effect Hn Na Hmove Hmint.
  destruct He as [op | m sym supply c fee addr x | op m u u' s' E Eb | addr c new_owner m u s' Hi Hu Hc ->
    | op m u u' from to amount addr s' E Hop _ _ _ Hb Eb | addr owner amount m u u' s' E Hi _ Hb Eb
    | addr c amount m u u' s' E Hi Hc _ Eb].
  - by apply explained_same; eauto.
  - cbn in Hf. assert (n <> m) by congruence. apply explained_same; [done | done | | rewrite create_balance, decide_False; [done | by intros [? _]]].
    exists t. cbn. by rewrite lookup_insert_ne.
  - pose proof (balance_of_edit _ _ _ _ _ _ n a E) as B. destruct E as (Hu & E & _ & Eh & Ea). rewrite app_nil_r in Eh.
    destruct (decide (n = m)) as [->|N].
    + assert (u = t) as -> by congruence. apply explained_same; [done | done | exists u'; by rewrite E, lookup_insert_eq|].
      by rewrite B, Eb, (balance_of_at s m t).
    + apply explained_same; [done | done | exists t; by rewrite E, lookup_insert_ne | done].
  - assert (balance_of (transfer_ownership s addr c new_owner).2 n a = balance_of s n a) as B by by eapply owner_balance.
    unfold transfer_ownership in B |- *. rewrite (proj2 (get_by_address_spec s addr m u)), bool_decide_eq_true_2 in B |- * by done.
    apply explained_same; [done | done | | done]. cbn. rewrite lookup_insert. case_decide as D; [|by exists t]. subst m.
    assert (u = t) as -> by congruence. by eexists.
  - eapply explained_edit; [done | exact E | by eapply move_address; [|apply E|] | | done]. rewrite Eb. by eapply Hmove; [apply E|..].
  - eapply explained_edit; [done | exact E | by eapply address_of; [| |apply E] | | done].
    rewrite Eb, at_key_insert. unfold gain. cbn. rewrite (decide_False (P:=a = [])) by done.
    case_decide as D; [subst owner; rewrite decide_True by done|rewrite decide_False by congruence]; rewrite Z.sub_0_l || idtac; rewrite ?Z.add_opp_r, ?Z.sub_0_r, ?Z.add_0_r; apply R_refl.
  - eapply explained_edit; [done | exact E | by eapply address_of; [| |apply E] | | done].
    rewrite Eb, at_key_insert. unfold gain. cbn. rewrite (decide_False (P:=a = [])), Z.sub_0_r by done.
    case_decide as D; [subst a; rewrite decide_True by done; eapply Hmint; [by apply get_by_address_spec; split; [|apply E] | done] |].
    rewrite decide_False, Z.add_0_r by congruence. apply R_refl.
Qed.

(** Steps in sequence. *)
Hypothesis R_shift : forall x y z c, R x (y + c) -> R y z -> R x (z + c).

Lemma explained_step s s1 s2 n t a :
  explained R s s1 n t a -> (forall t1, tokens s1 !! n = Some t1 -> explained R s1 s2 n t1 a) -> explained R s s2 n t a.
Proof.
  intros (h & u & Eh & Hu & Ea & Eb) H2. destruct (H2 u Hu) as (h2 & u2 & Eh2 & Hu2 & Ea2 & Eb2).
  exists (h ++ h2), u2. rewrite Eh2, Eh, app_assoc, Ea2, flow_app, Z.add_assoc. rewrite Ea in Eb2. repeat split; try done. by eapply R_shift.
Qed.
End Up_to.

(** Operations whose arguments are words, with new names and addresses for new tokens; and of these those whose mints fit. *)
Definition recorded (s : token_store) (op : token_op) (s' : token_store) : Prop := word_arguments op /\ indexed s op s'.
Definition recorded_exactly (s : token_store) (op : token_op) (s' : token_store) : Prop := recorded s op s' /\ mint_fits s op.

Lemma history_mod s s' n t a :
  run recorded empty_store s -> run recorded s s' -> tokens s !! n = Some t -> a <> [] -> explained same_word s s' n t a.
Proof.
  intros H0 Hr Ht Na.
  assert (index_ok s' /\ all_tokens token_words s' /\ explained same_word s s' n t a) as (_ & _ & E); [|exact E].
  induction Hr as [|s1 op s2 _ (I & W & E) [Hw Ho] Hs].
  - split; [apply (run_index recorded); [by intros ??? [_ ?] | done]|]. split; [apply (words_ok recorded); [by intros ??? [? _] | done]|].
    apply explained_same; [by intros x | done | done | by exists t | done].
  - split; [by eapply step_index|]. split; [by eapply step_words, step_effect|].
    apply (explained_step same_word) with (s1 := s1); [|exact E|].
    { unfold same_word. intros x y z c Hx Hy. rewrite Hx. unfold u64 in *. rewrite <- Z.add_mod_idemp_l, Hy, Z.add_mod_idemp_l; lia. }
    intros t1 Ht1. eapply (step_explained same_word); [by intros x | done | exact Ho | done | done | done | |].
    + intros m u u' from to amount addr Hu Hop Hb. unfold same_word. pose proof (move_amount _ _ _ _ _ _ _ _ _ Hop Hw).
      rewrite moved_at by (lia || by apply (W m)). apply u64_small, u64_word.
    + intros m u addr c amount _ _. apply u64_small, u64_word.
Qed.

Lemma history_exact s s' n t a :
  run recorded_exactly empty_store s -> run recorded_exactly s s' -> tokens s !! n = Some t -> a <> [] -> explained eq s s' n t a.
Proof.
  intros H0 Hr Ht Na.
  assert (forall s1 op s2, recorded_exactly s1 op s2 -> exact_mints s1 op s2) as Ex by by intros ??? [[? [? _]] ?].
  assert (index_ok s' /\ store_ok s' /\ explained eq s s' n t a) as (_ & _ & E); [|exact E].
  induction Hr as [|s1 op s2 _ (I & O & E) Ho Hs].
  - split; [apply (run_index recorded_exactly); [by intros ??? [[_ ?] _] | done]|].
    split; [eapply (run_tokens token_ok recorded_exactly); [|exact H0 | apply empty_tokens]; intros s1 op s2 H1 H2; apply effect_ok; [done | by apply (Ex s1 op s2)]|].
    by apply explained_same; eauto.
  - split; [by eapply step_index; [|apply Ho|]|]. split; [by eapply effect_ok, step_effect; [|apply (Ex _ _ _ Ho)|]|].
    destruct Ho as [[Hw Ho] Hm]. apply (explained_step eq) with (s1 := s1); [by intros x y z c -> -> | exact E|].
    intros t1 Ht1. eapply (step_explained eq); [done | done | exact Ho | done | done | done | |].
    + intros m u u' from to amount addr Hu Hop Hb. pose proof (move_amount _ _ _ _ _ _ _ _ _ Hop Hw).
      destruct (O m u Hu) as (N & S & W). by apply moved_spec; [|lia|lia].
    + intros m u addr c amount Hg ->. cbn in Hm, Hw. specialize (Hm m u Hg). apply get_by_address_spec in Hg as [_ Hu].
      destruct (O m u Hu) as (N & S & W). pose proof (at_key_bound (balances u) c N). apply u64_small. lia.
Qed.

(** C25: the history explains the balances: when a store with a token is reached from the empty one and
    further operations lead to another store, new tokens always getting new names and addresses,
    then records are only appended to the history, and the balance of every account with a name
    is what it was plus what the new records of that token move into and out of it, mints and
    burns included, as a 64-bit word; and exactly, when in every mint the supply and the amount
    add up to a word. *)
Theorem history_explains s s' n t a :
  run recorded empty_store s -> run recorded s s' -> tokens s !! n = Some t -> a <> [] ->
  exists h t', transfer_history s' = transfer_history s ++ h /\ tokens s' !! n = Some t' /\ token_address t' = token_address t /\
    balance_of s' n a = u64 (balance_of s n a + flow h (token_address t) a) /\
    (run recorded_exactly empty_store s -> run recorded_exactly s s' ->
     balance_of s' n a = balance_of s n a + flow h (token_address t) a).
Proof.
  intros H0 Hr Ht Na. destruct (history_mod s s' n t a H0 Hr Ht Na) as (h & t' & Eh & Ht' & Ea & Eb). exists h, t'.
  split; [done|]. split; [done|]. split; [done|]. split.
  - rewrite <- Eb. symmetry. apply u64_small. rewrite (balance_of_at s' n t' a Ht').
    apply at_key_word, (words_ok recorded s' ltac:(by intros ??? [? _]) (run_trans _ _ _ _ H0 Hr) n t' Ht').
  - intros X0 Xr. destruct (history_exact s s' n t a X0 Xr Ht Na) as (h2 & _ & Eh2 & _ & _ & Eb2).
    rewrite Eh in Eh2. apply app_inv_head in Eh2 as <-. exact Eb2.
Qed.
End History.

(** ** Examples *)

(** A token [84] of 100 units is created by account [97]; account [98] may spend 30 of them, and
    sends 25 to account [99]. *)
Definition store1 : token_store := create_at empty_store [84] [84] 100 [97] 0 [120].
Definition store2 : token_store := (approve store1 [84] [97] [98] 30 [97]).2.
Definition store3 : token_store := (transfer_from store2 [84] [98] [97] [99] 25).2.
Definition token3 : token_info := default empty_token (tokens store3 !! [84]).

Lemma run_store1 : run recorded_exactly empty_store store1.
Proof.
  assert (step empty_store (OpCreate [84] [84] 100 [97] 0 [120]) store1) as Hs.
  { eapply (step_create (RB := keccak_random) _ _ _ _ _ _ _ random_start). reflexivity. }
  eapply (run_step _ _ _ _ _ (run_none _ _)); [|exact Hs].
  split; [|done]. split; [cbn; lia|]. split; [apply lookup_empty|]. intros t _. apply lookup_empty.
Qed.

Lemma run_store2 : run recorded_exactly store1 store2.
Proof. eapply (run_step _ _ store1 (OpApprove [84] [97] [98] 30 [97])); [constructor | by repeat split | constructor]. Qed.

Lemma run_store3 : run recorded_exactly store1 store3.
Proof. eapply (run_step _ _ store2 (OpTransferFrom [84] [98] [97] [99] 25)); [exact run_store2 | by repeat split | constructor]. Qed.

Lemma recorded_store s s' : run recorded_exactly s s' -> run recorded s s'.
Proof. by apply run_weaken; intros ??? [? _]. Qed.

Lemma unique_store s s' : run recorded_exactly s s' -> run unique_names s s'.
Proof. by apply run_weaken; intros ??? [[? [? _]] _]. Qed.

Lemma any_store s s' : run recorded_exactly s s' -> run any_operation s s'.
Proof. by apply run_weaken; intros ??? [[? _] _]. Qed.

Lemma exact_store s s' : run recorded_exactly s s' -> run exact_mints s s'.
Proof. by apply run_weaken; intros ??? [[? [? _]] ?]. Qed.

Lemma supply_conserved_witness :
  total_supply token3 = u64 (sum_of (balances token3)) /\ 0 <= balance_of store3 [84] [99] < 2 ^ 64 /\
  sum_of (balances token3) = total_supply token3 /\ balance_of store3 [84] [99] <= total_supply token3.
Proof.
  destruct (supply_conserved store3 [84] token3 [99] (unique_store _ _ (run_trans _ _ _ _ run_store1 run_store3)) eq_refl) as (H1 & H2 & H3).
  exact (conj H1 (conj H2 (H3 (exact_store _ _ (run_trans _ _ _ _ run_store1 run_store3))))).
Defined.

Lemma balance_authority_witness :
  (exists sym fee addr, OpTransferFrom [84] [98] [97] [99] 25 = OpCreate [84] sym (balance_of store3 [84] [97]) [97] fee addr) \/
  exists t t', tokens store2 !! [84] = Some t /\ tokens store3 !! [84] = Some t' /\ ([97] ∉ frozen_accounts t) /\
     ((paused t = false /\ exists to amount addr, may_move store2 [84] t t' [97] to amount (OpTransferFrom [84] [98] [97] [99] 25) addr /\
         (to ∉ frozen_accounts t) /\ balance_of store3 [84] [97] = balance_of store2 [84] [97] - amount) \/
      (exists addr amount, OpTransferFrom [84] [98] [97] [99] 25 = OpBurn addr [97] amount /\ address_index store2 !! addr = Some [84] /\
         balance_of store3 [84] [97] = balance_of store2 [84] [97] - amount) \/
      (paused t = false /\ exists from amount addr, may_move store2 [84] t t' from [97] amount (OpTransferFrom [84] [98] [97] [99] 25) addr /\
         (from ∉ frozen_accounts t) /\ balance_of store3 [84] [97] = balance_of store2 [84] [97] + amount - 2 ^ 64) \/
      (creator t = [97] /\ exists addr amount, OpTransferFrom [84] [98] [97] [99] 25 = OpMint addr [97] amount /\ address_index store2 !! addr = Some [84] /\
         balance_of store3 [84] [97] = balance_of store2 [84] [97] + amount - 2 ^ 64)).
Proof.
  exact (proj1 (balance_authority store2 (OpTransferFrom [84] [98] [97] [99] 25) store3 [84] [97] (any_store _ _ (run_trans _ _ _ _ run_store1 run_store2))
    (ltac:(cbn; lia) : word_arguments (OpTransferFrom [84] [98] [97] [99] 25)) (step_transfer_from store2 [84] [98] [97] [99] 25)) eq_refl).
Defined.

Lemma indexed_store s s' : run recorded_exactly s s' -> run indexed s s'.
Proof. by apply run_weaken; intros ??? [[_ ?] _]. Qed.

Lemma load_restores_witness :
  tokens (load_data map_to_list (store_data store3)) = tokens store3 /\
  transfer_history (load_data map_to_list (store_data store3)) = transfer_history store3 /\
  address_index (load_data map_to_list (store_data store3)) = address_index store3 /\
  forall c, default [] (creator_tokens (load_data map_to_list (store_data store3)) !! c) ≡ₚ default [] (creator_tokens store3 !! c).
Proof. exact (load_restores map_to_list (fun m => reflexivity _) store3 (indexed_store _ _ (run_trans _ _ _ _ run_store1 run_store3))). Defined.

Lemma store1_token : tokens store1 !! [84] = Some (default empty_token (tokens store1 !! [84])).
Proof. reflexivity. Qed.

Lemma history_explains_witness :
  exists h t', transfer_history store3 = transfer_history store1 ++ h /\ tokens store3 !! [84] = Some t' /\
    token_address t' = [120] /\ balance_of store3 [84] [99] = u64 (balance_of store1 [84] [99] + flow h [120] [99]) /\
    balance_of store3 [84] [99] = balance_of store1 [84] [99] + flow h [120] [99].
Proof.
  destruct (history_explains store1 store3 [84] (default empty_token (tokens store1 !! [84])) [99] (recorded_store _ _ run_store1) (recorded_store _ _ run_store3)
    store1_token ltac:(discriminate)) as (h & t' & H1 & H2 & H3 & H4 & H5).
  exact (ex_intro _ h (ex_intro _ t' (conj H1 (conj H2 (conj H3 (conj H4 (H5 run_store1 run_store3))))))).
Defined.

(** ** Names created twice, and mints that do not fit *)

(** [create] does not look for a token of the same name: a second creator takes the token over,
    with a new supply, while the old balances stay; the supply is then not their sum. *)
Theorem create_overwrites :
  let s := create_at store3 [84] [84] 5 [109] 0 [121] in
  option_map creator (tokens s !! [84]) = Some [109] /\ option_map total_supply (tokens s !! [84]) = Some 5 /\
  option_map (fun t => sum_of (balances t)) (tokens s !! [84]) = Some 105 /\
  address_index s !! [120] = Some [84] /\ address_index s !! [121] = Some [84].
Proof. vm_compute. repeat split. Qed.

(** [mint] does not test for overflow: the supply wraps around and the owner loses its balance. *)
Theorem mint_wraps :
  let s := (mint store1 [120] [97] (2 ^ 64 - 100)).2 in
  option_map total_supply (tokens s !! [84]) = Some 0 /\ balance_of store1 [84] [97] = 100 /\ balance_of s [84] [97] = 0.
Proof. vm_compute. repeat split. Qed.
