(* ===== verification/TokenExtra.v ===== *)
(** * Token operations in transactions

    Models [make_token_extra], [make_signed_token_extra], [parse_token_extra] and
    [verify_token_extra] of token.cpp: an operation and its fields as a string with
    tabulators, followed by a signature in hexadecimal. Strings are lists of bytes. The
    streams of the C++ library are modelled as far as the code uses them: reading an [int]
    skips white space, takes an optional sign and decimal digits, and fails without digits or
    on a value outside the type; reading lines up to a tabulator ends when no character is
    left. *)

From Stdlib Require Import ZArith Lia List Bool.
From S2P Require Import Prelude Bytes Sc Curve GeBytes GeBase TreeHash Random Encode KeyOps Signature HexStr Token.
Import ListNotations.

#[local] Open Scope Z_scope.
#[local] Opaque ed_mul ed_add base_point encode enc_scalar point_code.

(** ** Data *)

Inductive token_op_type : Type :=
| op_create | op_transfer | op_approve | op_transfer_from | op_set_fee | op_burn | op_mint
| op_transfer_ownership | op_pause | op_freeze | op_lock_fee.

(** The values of the enumeration; any other value of [uint8_t] can come out of a cast. *)
Definition op_value (op : token_op_type) : Z :=
  match op with
  | op_create => 0 | op_transfer => 1 | op_approve => 2 | op_transfer_from => 3 | op_set_fee => 4 | op_burn => 5
  | op_mint => 6 | op_transfer_ownership => 7 | op_pause => 8 | op_freeze => 9 | op_lock_fee => 10
  end.

Definition TAB : Z := 9.

(** ** The code *)

Definition make_token_extra (op : Z) (fields : list (list Z)) : list Z :=
  to_string op ++ flat_map (fun f => TAB :: f) fields.

Definition is_digit (c : Z) : bool := (48 <=? c) && (c <=? 57).

(** The digits at the start of a string: their value, their number and the rest. *)
Fixpoint read_digits (s : list Z) (acc : Z) (n : nat) : Z * nat * list Z :=
  match s with
  | c :: s' => if is_digit c then read_digits s' (10 * acc + (c - 48)) (S n) else (acc, n, s)
  | [] => (acc, n, [])
  end.

(** [iss >> op_int]: the value and the rest of the stream, or failure. *)
Definition read_int (s : list Z) : option (Z * list Z) :=
  let s := trim_left s in
  let '(neg, s) := match s with 45 :: s => (true, s) | 43 :: s => (false, s) | _ => (false, s) end in
  let '(v, n, rest) := read_digits s 0 0 in
  let v := if neg then - v else v in
  if (n =? 0)%nat || (v <? - 2 ^ 31) || (2 ^ 31 <=? v) then None else Some (v, rest).

(** [while (std::getline(iss, field, '\t')) fields.push_back(field);]: [acc] holds the current
    line in reverse. *)
Fixpoint get_lines (s acc : list Z) : list (list Z) :=
  match s with
  | [] => match acc with [] => [] | _ => [rev acc] end
  | c :: s => if c =? TAB then rev acc :: get_lines s [] else get_lines s (c :: acc)
  end.

Definition sig_bytes (sig : signature) : list Z := sig_c sig ++ sig_r sig.
Definition bytes_sig (b : list Z) : signature := Signature (firstn 32 b) (skipn 32 b).

(** The operation, the fields, and the signature when there is one. *)
Definition parse_token_extra (data : list Z) : option (Z * list (list Z) * option signature) :=
  let! '(op_int, s) := read_int data in
  let op := op_int mod 2 ^ 8 in
  let s := match s with c :: s' => if c =? TAB then s' else s | [] => s end in
  let fields := get_lines s [] in
  match rev fields with
  | [] => Some (op, fields, None)
  | sig_hex :: front =>
      if (length sig_hex =? 64 * 2)%nat then
        match hex_to_pod 64 sig_hex with
        | Some b => Some (op, rev front, Some (bytes_sig b))
        | None => Some (op, fields, None)
        end
      else Some (op, fields, None)
  end.

Section Signed.
  Context {FH : FastHash} {RB : RandomBytes} {BD : Build}.

Definition make_signed_token_extra (op : Z) (fields : list (list Z)) (pub sec : list Z) (r : rng) : option (list Z * rng) :=
  let base := make_token_extra op fields in
  let! h := fast_hash base (length base) in
  let! '(sig, r) := generate_signature h pub sec r in
  let! hex := pod_to_hex (sig_bytes sig) in
  Some (base ++ TAB :: hex, r).

Definition verify_token_extra (op : Z) (fields : list (list Z)) (pub : list Z) (sig : signature) : option bool :=
  let base := make_token_extra op fields in
  let! h := fast_hash base (length base) in
  check_signature h pub sig.
End Signed.

(** ** Decimal numbers *)

Lemma read_digits_app s rest acc n :
  Forall (fun c => is_digit c = true) s -> match rest with [] => True | c :: _ => is_digit c = false end ->
  read_digits (s ++ rest) acc n = (fold_left (fun a c => 10 * a + (c - 48)) s acc, (n + length s)%nat, rest).
Proof.
  intros Hs Hr. revert acc n. induction Hs as [|c s Hc Hs IH]; intros acc n; cbn [app read_digits fold_left length].
  - destruct rest as [|c rest]; cbn [read_digits]; [|rewrite Hr]; now rewrite Nat.add_0_r.
  - rewrite Hc, IH. do 2 f_equal. lia.
Qed.

Lemma decimal_spec fuel n :
  0 <= n < 10 ^ Z.of_nat fuel -> (1 <= fuel)%nat ->
  Forall (fun c => is_digit c = true) (decimal fuel n) /\ decimal fuel n <> [] /\
  fold_left (fun a c => 10 * a + (c - 48)) (decimal fuel n) 0 = n.
Proof.
  revert n. induction fuel as [|fuel IH]; intros n Hn Hf; [lia|]. cbn [decimal].
  pose proof (Z.mod_pos_bound n 10 ltac:(lia)) as M. pose proof (Z.div_mod n 10 ltac:(lia)) as D.
  assert (is_digit (48 + n mod 10) = true) as Hd by (unfold is_digit; lia).
  rewrite Nat2Z.inj_succ, Z.pow_succ_r in Hn by lia.
  assert (Forall (fun c => is_digit c = true) (if n <? 10 then [] else decimal fuel (n / 10)) /\
    fold_left (fun a c => 10 * a + (c - 48)) (if n <? 10 then [] else decimal fuel (n / 10)) 0 = n / 10) as [H1 H2].
  { destruct (Z.ltb_spec n 10) as [L|L]; [split; [constructor | cbn; symmetry; apply Z.div_small; lia]|].
    destruct fuel as [|fuel]; [cbn in Hn; lia|]. assert (0 <= n / 10 < 10 ^ Z.of_nat (S fuel)) as Hq
      by (split; [apply Z.div_pos; lia | apply Z.div_lt_upper_bound; lia]).
    destruct (IH (n / 10) Hq ltac:(lia)) as (A & _ & B). now split. }
  split; [apply Forall_app; split; [exact H1 | now repeat constructor]|]. split; [now destruct (if n <? 10 then _ else _)|].
  rewrite fold_left_app, H2. cbn [fold_left]. lia.
Qed.

Lemma read_int_op op rest :
  0 <= op < 256 -> match rest with [] => True | c :: _ => is_digit c = false end ->
  read_int (to_string op ++ rest) = Some (op, rest).
Proof.
  intros Ho Hr. destruct (decimal_spec 20 op ltac:(lia) ltac:(lia)) as (D & Ne & V). fold (to_string op) in *.
  destruct (to_string op) as [|c s] eqn:E; [contradiction|]. unfold read_int.
  assert (is_digit c = true) as Hc by now inversion D. unfold is_digit in Hc.
  assert (isspace c = false) as Hsp by (unfold isspace; lia).
  cbn [app trim_left]. rewrite Hsp.
  assert (forall A (x y z : A), match c with 45 => x | 43 => y | _ => z end = z) as M.
  { intros A x y z. assert (c = 48 \/ c = 49 \/ c = 50 \/ c = 51 \/ c = 52 \/ c = 53 \/ c = 54 \/ c = 55 \/ c = 56 \/ c = 57) as C by lia.
    decompose [or] C; now subst c. }
  replace (match c :: s ++ rest with 45 :: s0 => (true, s0) | 43 :: s0 => (false, s0) | _ => (false, c :: s ++ rest) end)
    with (false, c :: s ++ rest).
  2: { symmetry. apply (M (bool * list Z)%type (true, s ++ rest) (false, s ++ rest) (false, c :: s ++ rest)). }
  change (c :: s ++ rest) with ((c :: s) ++ rest). rewrite read_digits_app by assumption. rewrite V.
  cbn [Nat.add length Nat.eqb orb]. replace ((op <? - 2 ^ 31) || (2 ^ 31 <=? op)) with false by lia. reflexivity.
Qed.

(** ** Lines *)

Definition no_tab (f : list Z) : Prop := Forall (fun c => c <> TAB) f.

Lemma get_lines_field f rest acc : no_tab f -> get_lines (f ++ TAB :: rest) acc = rev (rev f ++ acc) :: get_lines rest [].
Proof.
  revert acc. induction f as [|c f IH]; intros acc Hf; cbn [app get_lines]; [reflexivity|].
  inversion Hf as [|? ? Hc Hf']; subst. rewrite (proj2 (Z.eqb_neq c TAB)), IH by assumption.
  cbn [rev]. now rewrite <- app_assoc.
Qed.

Lemma get_lines_last f acc : no_tab f -> rev f ++ acc <> [] -> get_lines f acc = [rev (rev f ++ acc)].
Proof.
  revert acc. induction f as [|c f IH]; intros acc Hf Ne; cbn [get_lines].
  - destruct acc; [contradiction | reflexivity].
  - inversion Hf as [|? ? Hc Hf']; subst. rewrite (proj2 (Z.eqb_neq c TAB)) by assumption. cbn [rev] in Ne |- *. rewrite <- app_assoc in Ne |- *.
    apply IH; [assumption|]. exact Ne.
Qed.

(** Fields that are written with tabulators in front are read back when the last is not empty. *)
Lemma get_lines_fields fields last :
  Forall no_tab fields -> no_tab last -> last <> [] ->
  match flat_map (fun f => TAB :: f) (fields ++ [last]) with
  | [] => False
  | c :: s => c = TAB /\ get_lines s [] = fields ++ [last]
  end.
Proof.
  intros Hf Hl Ne. induction Hf as [|f fields Hf _ IH]; cbn [app flat_map].
  - rewrite app_nil_r. split; [reflexivity|]. rewrite get_lines_last by (trivial; rewrite app_nil_r; intros E; apply Ne; rewrite <- (rev_involutive last), E; reflexivity).
    now rewrite app_nil_r, rev_involutive.
  - split; [reflexivity|]. destruct (flat_map _ (fields ++ [last])) as [|c s]; [contradiction|]. destruct IH as [-> IH].
    rewrite get_lines_field by assumption. now rewrite app_nil_r, rev_involutive, IH.
Qed.

(** What is parsed from the written fields, before the last one is tried as a signature. *)
Lemma parse_fields op fields last :
  0 <= op < 256 -> Forall no_tab fields -> no_tab last -> last <> [] ->
  parse_token_extra (make_token_extra op (fields ++ [last])) =
    if (length last =? 64 * 2)%nat then
      match hex_to_pod 64 last with
      | Some b => Some (op, fields, Some (bytes_sig b))
      | None => Some (op, fields ++ [last], None)
      end
    else Some (op, fields ++ [last], None).
Proof.
  intros Ho Hf Hl Ne. unfold parse_token_extra, make_token_extra.
  pose proof (get_lines_fields fields last Hf Hl Ne) as G.
  destruct (flat_map (fun f => TAB :: f) (fields ++ [last])) as [|c s]; [contradiction|]. destruct G as [-> G].
  rewrite read_int_op by (trivial; reflexivity). cbn [bind]. rewrite Z.eqb_refl, G, rev_unit, rev_involutive.
  rewrite (Z.mod_small op) by (change (2 ^ 8) with 256; lia). reflexivity.
Qed.

Lemma make_extra_app op fields last : make_token_extra op (fields ++ [last]) = make_token_extra op fields ++ TAB :: last.
Proof. unfold make_token_extra. rewrite flat_map_app, <- app_assoc. cbn [flat_map]. now rewrite app_nil_r. Qed.

Lemma digits_bytes s : Forall (fun c => is_digit c = true) s -> bytes s.
Proof. intros H. eapply Forall_impl; [|exact H]. cbv beta. unfold is_digit, is_byte. lia. Qed.

Lemma make_extra_bytes op fields : 0 <= op < 256 -> Forall bytes fields -> bytes (make_token_extra op fields).
Proof.
  intros Ho Hf. unfold make_token_extra. apply bytes_app; [apply digits_bytes, decimal_spec; lia|].
  induction Hf as [|f fields Hf _ IH]; cbn [flat_map]; [constructor|].
  apply bytes_app; [|exact IH]. constructor; [unfold is_byte, TAB; lia | exact Hf].
Qed.

Lemma hex_no_tab h : Forall (fun c => isspace c = false) h -> no_tab h.
Proof. intros H. eapply Forall_impl; [|exact H]. cbv beta. intros c Hc ->. discriminate Hc. Qed.

Section Claims.
  Context {FH : FastHash} {RB : RandomBytes} {BD : Build}.

(** C26: signed token operations: for every operation, fields without tabulators (they may be empty),
    reduced secret key and working generator, [make_signed_token_extra] returns a string from
    which [parse_token_extra] reads the operation, the fields and a signature, and
    [verify_token_extra] accepts that signature for the public key of the secret key. *)
Theorem signed_extra_verifies op fields sec pub r :
  0 <= op < 256 -> Forall bytes fields -> Forall no_tab fields ->
  reduced_scalar sec -> rng_ready r -> secret_key_to_public_key sec = Some (Some pub) ->
  exists extra r' sig, make_signed_token_extra op fields pub sec r = Some (extra, r') /\ rng_ready r' /\
    parse_token_extra extra = Some (op, fields, Some sig) /\
    verify_token_extra op fields pub sig = Some true.
Proof.
  intros Ho Hb Hf Hs Hr E. rewrite secret_to_public in E by exact Hs. injection E as <-.
  unfold make_signed_token_extra, verify_token_extra.
  pose proof (fast_hash_total _ (make_extra_bytes op fields Ho Hb)) as [h [Eh Hh]]%returns_some. rewrite Eh. cbn [bind].
  pose proof (generate_signature_spec h sec r Hh Hs Hr) as ([[c s] r'] & G & C & Hr' & [[[Bc Lc] _] [[Bs Ls] _]])%returns_some.
  cbn [sig_c sig_r] in *. rewrite G. cbn [bind].
  destruct (hex_roundtrip (sig_bytes (Signature c s))) as (hex & Ex & Lx & _ & Sx & Dx); [now apply bytes_app|].
  rewrite Ex. cbn [bind]. exists (make_token_extra op fields ++ TAB :: hex), r', (Signature c s).
  split; [reflexivity|]. split; [exact Hr'|]. split; [|exact C]. unfold sig_bytes in Lx, Dx. cbn [sig_c sig_r] in Lx, Dx.
  rewrite length_app, Lc, Ls in Lx, Dx. rewrite <- make_extra_app, parse_fields;
    [|exact Ho | exact Hf | now apply hex_no_tab | intros ->; discriminate Lx].
  rewrite Lx. change (2 * (32 + 32) =? 64 * 2)%nat with true. cbv iota. change (32 + 32)%nat with 64%nat in Dx. rewrite Dx.
  unfold bytes_sig. now rewrite firstn_app, skipn_app, Lc, Nat.sub_diag, firstn_O, skipn_O, app_nil_r, firstn_all2, skipn_all2 by lia.
Qed.
End Claims.

(** Operations without a signature are read back when no field holds a tabulator, the last one is not
    empty and cannot be taken for a signature. *)
Theorem plain_extra_roundtrip op fields last :
  0 <= op < 256 -> Forall no_tab fields -> no_tab last -> last <> [] -> hex_to_pod 64 last = None ->
  parse_token_extra (make_token_extra op (fields ++ [last])) = Some (op, fields ++ [last], None).
Proof. intros Ho Hf Hl Ne Hh. rewrite parse_fields, Hh by assumption. now destruct (_ =? _)%nat. Qed.

(** An empty last field is lost when there is no signature. *)
Theorem plain_extra_loses_empty : parse_token_extra (make_token_extra 3 [[65]; []]) = Some (3, [[65]], None).
Proof. reflexivity. Qed.

#[local] Existing Instance debug_build.

Lemma signed_extra_verifies_witness :
  exists extra r' sig, make_signed_token_extra (RB := keccak_random) 1 [[116]; []; [98]] (encode five_G) five seeded = Some (extra, r') /\ random_ready r' /\
    parse_token_extra extra = Some (1, [[116]; []; [98]], Some sig) /\
    verify_token_extra 1 [[116]; []; [98]] (encode five_G) sig = Some true.
Proof.
  exact (signed_extra_verifies (RB := keccak_random) 1 [[116]; []; [98]] five (encode five_G) seeded ltac:(lia)
    ltac:(repeat constructor; lia) ltac:(repeat constructor; discriminate)
    (enc_scalar_reduced 5) seeded_ready (secret_to_public five (enc_scalar_reduced 5))).
Defined.
