(* ===== verification/HardFork.v ===== *)
(** * Hard forks

    Models the class [HardFork] of hardfork.cpp: the table of forks, the window of the votes
    of the last blocks with their counts, and the index of the fork in force. The database is
    the chain of blocks with the version recorded for each height; its transactions have no
    effect on what is read. [None] is an exception of the database, a failed assertion or an
    access outside an array. Heights, positions in a chain, are not wrapped at 64 bits, nor are sums of times. The lock is left out: calls are in sequence. *)

From Stdlib Require Import ZArith Lia List.
From stdpp Require Import gmap list fin_maps.
From S2P Require Import Prelude Bytes.

#[local] Open Scope Z_scope.

(** ** Data *)

Record block := Block { major_version : Z; minor_version : Z }.

Record Params := ForkParams { version : Z; threshold : Z; height : Z; time : Z }.

Inductive State : Type := LikelyForked | UpdateNeeded | Ready.

(** The blocks of the database, and the versions recorded by [set_hard_fork_version]. *)
Record database := Database { db_blocks : list block; db_versions : gmap Z Z }.

Record hardfork := HardFork {
  db : database;
  forked_time : Z;
  update_time : Z;
  window_size : Z;
  default_threshold_percent : Z;
  original_version : Z;
  original_version_till_height : Z;
  heights : list Params;
  versions : list Z;
  last_versions : list Z;
  current_fork_index : nat }.

Definition set_heights (h : list Params) (s : hardfork) : hardfork :=
  HardFork (db s) (forked_time s) (update_time s) (window_size s) (default_threshold_percent s) (original_version s)
    (original_version_till_height s) h (versions s) (last_versions s) (current_fork_index s).

Definition set_db (d : database) (s : hardfork) : hardfork :=
  HardFork d (forked_time s) (update_time s) (window_size s) (default_threshold_percent s) (original_version s)
    (original_version_till_height s) (heights s) (versions s) (last_versions s) (current_fork_index s).

Definition set_votes (v l : list Z) (s : hardfork) : hardfork :=
  HardFork (db s) (forked_time s) (update_time s) (window_size s) (default_threshold_percent s) (original_version s)
    (original_version_till_height s) (heights s) v l (current_fork_index s).

Definition set_index (i : nat) (s : hardfork) : hardfork :=
  HardFork (db s) (forked_time s) (update_time s) (window_size s) (default_threshold_percent s) (original_version s)
    (original_version_till_height s) (heights s) (versions s) (last_versions s) i.

(** ** The code: database *)

Definition db_height (d : database) : Z := Z.of_nat (length (db_blocks d)).

Definition get_block_from_height (d : database) (h : Z) : option block := nth_error (db_blocks d) (Z.to_nat h).

Definition get_hard_fork_version (d : database) (h : Z) : option Z := db_versions d !! h.

Definition set_hard_fork_version (d : database) (h v : Z) : database := Database (db_blocks d) (<[h := v]> (db_versions d)).

(** ** The code: setting up *)

Definition get_block_vote (b : block) : Z := if minor_version b =? 0 then 1 else minor_version b.

Definition get_block_version (b : block) : Z := major_version b.

(** The constructor; [None] is a throw. The window of votes is not initialised before [init]. *)
Definition new_hardfork (d : database) (original_version original_version_till_height forked_time update_time window_size
    default_threshold_percent : Z) : option hardfork :=
  if window_size =? 0 then None
  else if 100 <? default_threshold_percent then None
  else Some (HardFork d forked_time update_time window_size default_threshold_percent original_version
               original_version_till_height [] [] (repeat 0 256) 0).

(** [heights.back()] *)
Definition last_fork (s : hardfork) : option Params := last (heights s).

Definition add_fork (s : hardfork) (v h t tm : Z) : bool * hardfork :=
  if v =? 0 then (false, s)
  else
    let refused :=
      match last_fork s with
      | None => false
      | Some p => (v <=? version p) || (h <=? height p) || (tm <=? time p)
      end in
    if refused then (false, s)
    else if 100 <? t then (false, s)
    else (true, set_heights (heights s ++ [ForkParams v t h tm]) s).

Definition add_fork_default (s : hardfork) (v h tm : Z) : bool * hardfork :=
  add_fork s v h (default_threshold_percent s) tm.

(** ** The code: votes *)

Definition get_effective_version (s : hardfork) (voting_version : Z) : Z :=
  match last_fork s with
  | None => voting_version
  | Some p => if version p <? voting_version then version p else voting_version
  end.

Definition do_check (s : hardfork) (block_version voting_version : Z) : option bool :=
  let! p := nth_error (heights s) (current_fork_index s) in
  Some ((block_version =? version p) && (version p <=? voting_version)).

Definition check (s : hardfork) (b : block) : option bool := do_check s (get_block_version b) (get_block_vote b).

(** The loop of [get_voted_fork_index] from fork [n] down. *)
Fixpoint voted_from (s : hardfork) (h : Z) (n : nat) (accumulated_votes : Z) : option nat :=
  match n with
  | O => Some (current_fork_index s)
  | S m =>
      if (current_fork_index s <? n)%nat then
        let! p := nth_error (heights s) n in
        let! votes := nth_error (last_versions s) (Z.to_nat (version p)) in
        let accumulated_votes := u32 (accumulated_votes + votes) in
        let threshold := u32 (u64 (u64 (window_size s * threshold p) + 99) / 100) in
        if (height p <=? h) && (threshold <=? accumulated_votes) then Some n
        else voted_from s h m accumulated_votes
      else Some (current_fork_index s)
  end.

Definition get_voted_fork_index (s : hardfork) (h : Z) : option nat :=
  match heights s with
  | [] => None
  | _ => voted_from s h (length (heights s) - 1) 0
  end.

Definition do_check_for_height (s : hardfork) (block_version voting_version h : Z) : option bool :=
  let! fork_index := get_voted_fork_index s h in
  let! p := nth_error (heights s) fork_index in
  Some ((block_version =? version p) && (version p <=? voting_version)).

Definition check_for_height (s : hardfork) (b : block) (h : Z) : option bool :=
  do_check_for_height s (get_block_version b) (get_block_vote b) h.

(** [last_versions[v]++] *)
Definition count_vote (last : list Z) (v : Z) : option (list Z) :=
  let! c := nth_error last (Z.to_nat v) in aset last (Z.to_nat v) (u32 (c + 1)).

(** [while (versions.size() >= window_size)] *)
Fixpoint pop_votes (window : Z) (vs last : list Z) : option (list Z * list Z) :=
  match vs with
  | [] => if window <=? 0 then None else Some ([], last)
  | old_version :: rest =>
      if window <=? Z.of_nat (length vs) then
        let! c := nth_error last (Z.to_nat old_version) in
        let! _ := cassert (1 <=? c) in
        let! last := aset last (Z.to_nat old_version) (c - 1) in
        pop_votes window rest last
      else Some (vs, last)
  end.

(** [uint8_t voted = get_voted_fork_index(h); if (voted > current_fork_index) current_fork_index = voted;] *)
Definition update_index (s : hardfork) (h : Z) : option hardfork :=
  let! voted := get_voted_fork_index s h in
  let voted := (voted mod 256)%nat in
  Some (if (current_fork_index s <? voted)%nat then set_index voted s else s).

Definition add (s : hardfork) (block_version voting_version h : Z) : option (bool * hardfork) :=
  let! ok := do_check s block_version voting_version in
  if negb ok then Some (false, s)
  else
    let! p := nth_error (heights s) (current_fork_index s) in
    let s := set_db (set_hard_fork_version (db s) h (version p)) s in
    let voting_version := get_effective_version s voting_version in
    let! '(vs, last) := pop_votes (window_size s) (versions s) (last_versions s) in
    let! last := count_vote last voting_version in
    let s := set_votes (vs ++ [voting_version]) last s in
    let! s := update_index s (h + 1) in
    Some (true, s).

Definition add_block (s : hardfork) (b : block) (h : Z) : option (bool * hardfork) :=
  add s (get_block_version b) (get_block_vote b) h.

(** ** The code: rescanning *)

Definition clear_votes (s : hardfork) : hardfork := set_votes [] (repeat 0 256) s.

(** [while (current_fork_index > 0 && heights[current_fork_index].version > start_version) --current_fork_index;] *)
Fixpoint lower_index (hs : list Params) (start_version : Z) (i : nat) : option nat :=
  match i with
  | O => Some O
  | S j =>
      let! p := nth_error hs i in
      if start_version <? version p then lower_index hs start_version j else Some i
  end.

(** Reading the vote of the block at a height. *)
Definition scan_step (s : hardfork) (h : Z) : option hardfork :=
  let! b := get_block_from_height (db s) h in
  let v := get_effective_version s (get_block_vote b) in
  let! last := count_vote (last_versions s) v in
  Some (set_votes (versions s ++ [v]) last s).

(** The heights from [first] on, [n] of them. *)
Definition heights_from (first : Z) (n : Z) : list Z := map (fun i => first + Z.of_nat i) (seq 0 (Z.to_nat n)).

(** [add(db.get_block_from_height(h), h);], the result ignored. *)
Definition readd_step (s : hardfork) (h : Z) : option hardfork :=
  let! b := get_block_from_height (db s) h in
  let! '(_, s) := add_block s b h in
  Some s.

Definition reorganize_from_block_height (s : hardfork) (h : Z) : option (bool * hardfork) :=
  if db_height (db s) <=? h then Some (false, s)
  else
    let s := clear_votes s in
    let rescan_height := if window_size s - 1 <=? h then h - (window_size s - 1) else 0 in
    let! start_version := if h =? 0 then Some (original_version s) else get_hard_fork_version (db s) h in
    let! i := lower_index (heights s) start_version (current_fork_index s) in
    let s := set_index i s in
    let! s := foldM scan_step (heights_from rescan_height (h + 1 - rescan_height)) s in
    let! s := update_index s (h + 1) in
    let bc_height := db_height (db s) in
    let! s := foldM readd_step (heights_from (h + 1) (bc_height - (h + 1))) s in
    Some (true, s).

Definition reorganize_from_chain_height (s : hardfork) (h : Z) : option (bool * hardfork) :=
  if h =? 0 then Some (false, s) else reorganize_from_block_height s (h - 1).

(** [while (current_fork_index + 1 < heights.size() && heights[current_fork_index].version != lastv) ++current_fork_index;],
    on the forks from the current one on. *)
Fixpoint find_index (hs : list Params) (lastv : Z) (i : nat) : nat :=
  match hs with
  | p :: ((_ :: _) as rest) => if negb (version p =? lastv) then find_index rest lastv (S i) else i
  | _ => i
  end.

Definition rescan_from_block_height (s : hardfork) (h : Z) : option (bool * hardfork) :=
  if db_height (db s) <=? h then Some (false, s)
  else
    let s := clear_votes s in
    let! s := foldM scan_step (heights_from h (db_height (db s) - h)) s in
    let! lastv := get_hard_fork_version (db s) (db_height (db s) - 1) in
    let s := set_index (find_index (heights s) lastv 0) s in
    let! s := update_index s (db_height (db s)) in
    Some (true, s).

Definition rescan_from_chain_height (s : hardfork) (h : Z) : option (bool * hardfork) :=
  if h =? 0 then Some (false, s) else rescan_from_block_height s (h - 1).

Definition init (s : hardfork) : option hardfork :=
  let s := match heights s with [] => set_heights [ForkParams (original_version s) 0 0 0] s | _ => s end in
  let s := set_index 0 (clear_votes s) in
  let h := if window_size s <? db_height (db s) then db_height (db s) - (window_size s - 1) else 1 in
  match get_hard_fork_version (db s) 0 with
  | None =>
      let! '(_, s) := reorganize_from_chain_height s 1 in
      Some (set_db (set_hard_fork_version (db s) 0 (original_version s)) s)
  | Some _ =>
      let! '(_, s) := rescan_from_chain_height s h in
      Some s
  end.

(** ** The code: queries *)

Definition get_block_version_at (s : hardfork) (h : Z) : option Z :=
  if h <=? original_version_till_height s then Some (original_version s)
  else let! b := get_block_from_height (db s) h in Some (get_block_version b).

(** Times are [time_t], 64 bits. *)
Definition get_state (s : hardfork) (t : Z) : option State :=
  if (length (heights s) <=? 1)%nat then Some Ready
  else
    let! p := last_fork s in
    if time p + forked_time s <=? t then Some LikelyForked
    else if time p + update_time s <=? t then Some UpdateNeeded
    else Some Ready.

Definition get_current_version (s : hardfork) : option Z :=
  let! p := nth_error (heights s) (current_fork_index s) in Some (version p).

Definition get (s : hardfork) (h : Z) : option Z :=
  if db_height (db s) <? h then None
  else if h =? db_height (db s) then get_current_version s
  else get_hard_fork_version (db s) h.

Definition get_ideal_version (s : hardfork) : option Z := let! p := last_fork s in Some (version p).

(** [for (n = heights.size() - 1; n > 0; --n) if (test(n)) return n;] *)
Fixpoint scan_down (hs : list Params) (test : Params -> bool) (n : nat) : option (option nat) :=
  match n with
  | O => Some None
  | S m => let! p := nth_error hs n in if test p then Some (Some n) else scan_down hs test m
  end.

(** With no fork the loop starts at [UINT_MAX], outside the array. *)
Definition scan_forks (hs : list Params) (test : Params -> bool) : option (option nat) :=
  match hs with [] => None | _ => scan_down hs test (length hs - 1) end.

Definition get_ideal_version_at (s : hardfork) (h : Z) : option Z :=
  let! r := scan_forks (heights s) (fun p => height p <=? h) in
  match r with
  | Some n => let! p := nth_error (heights s) n in Some (version p)
  | None => Some (original_version s)
  end.

Definition get_earliest_ideal_height_for_version (s : hardfork) (v : Z) : option Z :=
  let! r := scan_forks (heights s) (fun p => version p <=? v) in
  match r with
  | Some n => let! p := nth_error (heights s) n in Some (height p)
  | None => Some 0
  end.

Definition get_next_version (s : hardfork) : option Z :=
  let! r := scan_forks (heights s) (fun p => height p <=? db_height (db s)) in
  match r with
  | Some n =>
      let! p := nth_error (heights s) (if (n <? length (heights s) - 1)%nat then S n else n) in Some (version p)
  | None => Some (original_version s)
  end.

Record voting_info := VotingInfo { vi_window : Z; vi_votes : Z; vi_threshold : Z; vi_earliest_height : Z; vi_voting : Z; vi_enabled : bool }.

Definition get_voting_info (s : hardfork) (v : Z) : option voting_info :=
  let! p := nth_error (heights s) (current_fork_index s) in
  let window := u32 (Z.of_nat (length (versions s))) in
  let votes := fold_left (fun acc c => u32 (acc + c)) (skipn (Z.to_nat v) (last_versions s)) 0 in
  let thr := u32 (u32 (window * threshold p) + 99) / 100 in
  let! earliest := get_earliest_ideal_height_for_version s v in
  let! l := last_fork s in
  Some (VotingInfo window votes thr earliest (version l) (v <=? version p)).

(** ** Specification *)

(** The number of votes for a version among [win]. *)
Definition votes_for (win : list Z) (v : Z) : Z := Z.of_nat (count_occ Z.eq_dec win v).

Definition sum_votes (win : list Z) (vs : list Z) : Z := fold_right (fun v acc => votes_for win v + acc) 0 vs.

(** The last [k] elements. *)
Definition lastn {A} (k : nat) (l : list A) : list A := skipn (length l - k) l.

(** A table of forks: versions increase, and fit in a byte. *)
Definition table_ok (hs : list Params) : Prop :=
  hs <> [] /\ (length hs <= 256)%nat /\
  Forall (fun p => 1 <= version p < 256 /\ 0 <= threshold p <= 100) hs /\ NoDup (map version hs) /\
  forall i j p q, (i < j)%nat -> nth_error hs i = Some p -> nth_error hs j = Some q -> version p < version q.

Section Spec.
  Variables (hs : list Params) (W : nat).

(** The votes for fork [n] and the later ones, and how many it needs. *)
Definition support (win : list Z) (n : nat) : Z := sum_votes win (map version (skipn n hs)).

Definition needed (p : Params) : Z := (Z.of_nat W * threshold p + 99) / 100.

(** Fork [n] may come into force at height [h]. *)
Definition supported (win : list Z) (h : Z) (n : nat) : Prop :=
  exists p, nth_error hs n = Some p /\ height p <= h /\ needed p <= support win n.

(** The fork in force at height [h] after fork [i]: the last one that is supported, or [i]. *)
Definition next_fork (win : list Z) (i : nat) (h : Z) (j : nat) : Prop :=
  (i <= j < length hs)%nat /\ (i < j -> supported win h j)%nat /\ forall n, (j < n < length hs)%nat -> ~ supported win h n.

Definition effective (v : Z) : Z :=
  match last hs with Some p => if version p <? v then version p else v | None => v end.

Definition vote (b : block) : Z := effective (get_block_vote b).

(** A block that is acceptable under fork [i]. *)
Definition acceptable (i : nat) (b : block) : Prop :=
  exists p, nth_error hs i = Some p /\ major_version b = version p /\ version p <= get_block_vote b.

Definition byte_block (b : block) : Prop := 0 <= minor_version b < 256.

(** [follows c i]: the blocks [c] are acceptable one after the other, and fork [i] is in force
    after them. *)
Inductive follows : list block -> nat -> Prop :=
| follows_nil : follows [] 0
| follows_snoc c i b j :
    follows c i -> byte_block b -> acceptable i b ->
    next_fork (lastn W (map vote (c ++ [b]))) i (Z.of_nat (length c) + 1) j -> follows (c ++ [b]) j.

(** The counts of [last_versions] are those of the window. *)
Definition counts (l vs : list Z) : Prop :=
  length l = 256%nat /\ forall v, 0 <= v < 256 -> nth_error l (Z.to_nat v) = Some (votes_for vs v).

(** The votes of the object are those of the chain [c], and fork [i] is in force. *)
Definition agrees (s : hardfork) (c : list block) (i : nat) : Prop :=
  heights s = hs /\ window_size s = Z.of_nat W /\ versions s = lastn W (map vote c) /\
  counts (last_versions s) (versions s) /\ current_fork_index s = i.

(** The database records for the blocks of [c] from [a] up to [n] the version in force before
    each. *)
Definition recorded (d : database) (c : list block) (a n : nat) : Prop :=
  forall k i p, (a <= k < n)%nat -> follows (take k c) i -> nth_error hs i = Some p ->
    db_versions d !! Z.of_nat k = Some (version p).
End Spec.

(** ** Windows and counts *)

Lemma lastn_short {A} k (l : list A) : (length l <= k)%nat -> lastn k l = l.
Proof. intros H. unfold lastn. by replace (length l - k)%nat with 0%nat by lia. Qed.

Lemma length_lastn {A} k (l : list A) : length (lastn k l) = Nat.min k (length l).
Proof. unfold lastn. rewrite length_skipn. lia. Qed.

Lemma lastn_snoc {A} k (l : list A) x : lastn (S k) (l ++ [x]) = lastn k l ++ [x].
Proof.
  unfold lastn. rewrite length_app. cbn [length]. replace (length l + 1 - S k)%nat with (length l - k)%nat by lia.
  rewrite skipn_app. by replace (length l - k - length l)%nat with 0%nat by lia.
Qed.

Lemma lastn_lastn {A} j k (l : list A) : (j <= k)%nat -> lastn j (lastn k l) = lastn j l.
Proof.
  intros H. unfold lastn. rewrite length_skipn, skipn_skipn. f_equal. lia.
Qed.

Lemma votes_for_app a b v : votes_for (a ++ b) v = votes_for a v + votes_for b v.
Proof. unfold votes_for. rewrite count_occ_app. lia. Qed.

Lemma votes_for_one x v : votes_for [x] v = if decide (x = v) then 1 else 0.
Proof. unfold votes_for. cbn. destruct (Z.eq_dec x v); by case_decide. Qed.

Lemma votes_for_bound win v : 0 <= votes_for win v <= Z.of_nat (length win).
Proof. unfold votes_for. pose proof (count_occ_bound Z.eq_dec v win). lia. Qed.

Lemma count_vote_spec l vs v :
  counts l vs -> 0 <= v < 256 -> Z.of_nat (length vs) < 2 ^ 32 - 1 ->
  exists l', count_vote l v = Some l' /\ counts l' (vs ++ [v]).
Proof.
  intros [Hl Hc] Hv Hn. unfold count_vote. rewrite (Hc v Hv). cbn [bind].
  pose proof (aset_spec l (Z.to_nat v) (u32 (votes_for vs v + 1)) 0 ltac:(lia)) as (l' & E & Hl' & Hn')%returns_some.
  exists l'. split; [exact E|]. split; [lia|]. intros w Hw.
  rewrite (nth_error_nth' l' 0) by lia. f_equal. rewrite Hn', votes_for_app, votes_for_one.
  pose proof (votes_for_bound vs v). destruct (Nat.eqb_spec (Z.to_nat w) (Z.to_nat v)) as [E'|N].
  - assert (v = w) as <- by lia. rewrite decide_True by done. unfold u32. rewrite Z.mod_small; lia.
  - rewrite decide_False by (intros ->; lia). rewrite Z.add_0_r. apply nth_error_nth. by apply Hc.
Qed.

Lemma votes_for_cons x vs v : votes_for (x :: vs) v = (if decide (x = v) then 1 else 0) + votes_for vs v.
Proof. change (x :: vs) with ([x] ++ vs). by rewrite votes_for_app, votes_for_one. Qed.

Lemma pop_votes_spec W l vs :
  counts l vs -> Forall (fun v => 0 <= v < 256) vs -> (1 <= W)%nat ->
  exists l', pop_votes (Z.of_nat W) vs l = Some (lastn (W - 1) vs, l') /\ counts l' (lastn (W - 1) vs).
Proof.
  intros Hc Hv HW. revert l Hc. induction Hv as [|x vs Hx Hv IH]; intros l Hc; cbn [pop_votes].
  - exists l. rewrite (proj2 (Z.leb_gt _ _)) by lia. by rewrite lastn_short by (cbn; lia).
  - destruct (Z.leb_spec (Z.of_nat W) (Z.of_nat (length (x :: vs)))) as [L|L]; cbn [length] in L.
    + destruct Hc as [Hl Hc]. rewrite (Hc x Hx). cbn [bind]. rewrite votes_for_cons, decide_True by done.
      pose proof (votes_for_bound vs x). rewrite (proj2 (Z.leb_le _ _)) by lia. cbn [cassert bind].
      pose proof (aset_spec l (Z.to_nat x) (1 + votes_for vs x - 1) 0 ltac:(lia)) as (l' & -> & Hl' & Hn')%returns_some. cbn [bind].
      replace (lastn (W - 1) (x :: vs)) with (lastn (W - 1) vs).
      2: { unfold lastn. cbn [length]. by replace (S (length vs) - (W - 1))%nat with (S (length vs - (W - 1))) by lia. }
      apply IH. split; [lia|]. intros w Hw. rewrite (nth_error_nth' l' 0) by lia. f_equal. rewrite Hn'.
      destruct (Nat.eqb_spec (Z.to_nat w) (Z.to_nat x)) as [E|N].
      * assert (w = x) as -> by lia. lia.
      * specialize (Hc w Hw). rewrite votes_for_cons, decide_False in Hc by (intros ->; lia). by apply nth_error_nth.
    + exists l. by rewrite lastn_short by (cbn [length]; lia).
Qed.

(** Votes for different versions are votes of different blocks. *)
Lemma sum_votes_bound win vs : NoDup vs -> 0 <= sum_votes win vs <= Z.of_nat (length win).
Proof.
  intros Nd. induction win as [|x win IH].
  - assert (sum_votes [] vs = 0) as -> by (clear; induction vs as [|v vs IH]; [done | exact IH]). cbn. lia.
  - assert (sum_votes (x :: win) vs = sum_votes win vs + if decide (x ∈ vs) then 1 else 0) as ->.
    { clear IH. induction Nd as [|v vs Hv Nd IH]; cbn [sum_votes fold_right].
      - by rewrite decide_False by apply not_elem_of_nil.
      - fold (sum_votes (x :: win) vs) (sum_votes win vs). rewrite IH, votes_for_cons.
        destruct (decide (x = v)) as [->|N].
        + rewrite (decide_False (P:=v ∈ vs)), (decide_True (P:=v ∈ v :: vs)) by (done || by left). lia.
        + destruct (decide (x ∈ vs)) as [Hi|Hi].
          * rewrite (decide_True (P:=x ∈ v :: vs)) by by right. lia.
          * rewrite (decide_False (P:=x ∈ v :: vs)) by by rewrite elem_of_cons; intros [?|?]. lia. }
    cbn [length]. case_decide; lia.
Qed.

Lemma sum_votes_app win a b : sum_votes win (a ++ b) = sum_votes win a + sum_votes win b.
Proof. induction a as [|v a IH]; cbn [app sum_votes fold_right]; [done|]. fold (sum_votes win (a ++ b)) (sum_votes win a). lia. Qed.

Lemma skipn_nth_error {A} (l : list A) n x : nth_error l n = Some x -> skipn n l = x :: skipn (S n) l.
Proof. revert l. induction n as [|n IH]; intros [|y l] H; try done; [injection H as ->; reflexivity | exact (IH l H)]. Qed.

Lemma map_skipn_NoDup hs n : NoDup (map version hs) -> NoDup (map version (skipn n hs)).
Proof. intros H. rewrite <- (firstn_skipn n hs), map_app in H. by apply NoDup_app in H as (_ & _ & H). Qed.

(** ** The fork that is voted in *)

Lemma voted_from_spec hs W s h n acc :
  table_ok hs -> heights s = hs -> window_size s = Z.of_nat W -> Z.of_nat W < 2 ^ 32 ->
  counts (last_versions s) (versions s) -> (length (versions s) <= W)%nat ->
  (current_fork_index s <= n < length hs)%nat -> acc = support hs (versions s) (S n) ->
  (forall m, (n < m < length hs)%nat -> ~ supported hs W (versions s) h m) ->
  exists j, voted_from s h n acc = Some j /\ next_fork hs W (versions s) (current_fork_index s) h j.
Proof.
  intros (Hne & Hlen & Hp & Nd & _) Eh EW HW [Hl Hc] Lv. revert acc. induction n as [|n IH]; intros acc Hn Ha Hno; cbn [voted_from].
  - exists (current_fork_index s). split; [done|]. split; [lia|]. split; [lia|]. intros m Hm. apply Hno. lia.
  - destruct (Nat.ltb_spec (current_fork_index s) (S n)) as [L|L].
    2: { exists (current_fork_index s). split; [done|]. split; [lia|]. split; [lia|]. intros m Hm. apply Hno. lia. }
    destruct (nth_error hs (S n)) as [p|] eqn:Ep; [|apply nth_error_None in Ep; lia]. rewrite Eh, Ep. cbn [bind].
    pose proof (proj1 (List.Forall_forall _ _) Hp p (nth_error_In _ _ Ep)) as [Hv Ht].
    rewrite (Hc (version p)) by lia. cbn [bind].
    assert (support hs (versions s) (S n) = votes_for (versions s) (version p) + acc) as Es.
    { unfold support at 1. rewrite (skipn_nth_error _ _ _ Ep). cbn. by rewrite Ha. }
    pose proof (sum_votes_bound (versions s) (map version (skipn (S n) hs)) (map_skipn_NoDup hs (S n) Nd)) as B.
    fold (support hs (versions s) (S n)) in B.
    assert (u32 (acc + votes_for (versions s) (version p)) = support hs (versions s) (S n)) as -> by (unfold u32; rewrite Z.mod_small; lia).
    assert (0 <= needed W p <= Z.of_nat W) as Hnd.
    { unfold needed. split; [apply Z.div_pos; nia|]. apply Z.lt_succ_r, Z.div_lt_upper_bound; nia. }
    assert (u32 (u64 (u64 (window_size s * threshold p) + 99) / 100) = needed W p) as ->.
    { rewrite EW, (u64_small (Z.of_nat W * threshold p)), u64_small by nia. fold (needed W p). unfold u32. rewrite Z.mod_small; lia. }
    destruct (Z.leb_spec (height p) h) as [L1|L1], (Z.leb_spec (needed W p) (support hs (versions s) (S n))) as [L2|L2]; cbn [andb].
    { exists (S n). split; [done|]. split; [lia|]. split; [intros _; by exists p | exact Hno]. }
    all: apply IH; [lia | done|]; intros m Hm; destruct (decide (m = S n)) as [->|]; [|apply Hno; lia];
      intros (q & Eq & Hq1 & Hq2); assert (q = p) as -> by congruence; lia.
Qed.

Lemma support_end hs win : support hs win (length hs) = 0.
Proof. unfold support. by rewrite skipn_all. Qed.

(** [update_index] puts the voted fork in force. *)
Lemma update_index_spec hs W s h :
  table_ok hs -> heights s = hs -> window_size s = Z.of_nat W -> Z.of_nat W < 2 ^ 32 ->
  counts (last_versions s) (versions s) -> (length (versions s) <= W)%nat -> (current_fork_index s < length hs)%nat ->
  exists j, update_index s h = Some (set_index j s) /\ next_fork hs W (versions s) (current_fork_index s) h j.
Proof.
  intros Hok Eh EW HW Hc Lv Hi. pose proof Hok as (Hne & Hlen & _).
  assert (get_voted_fork_index s h = voted_from s h (length hs - 1) 0) as Eg
    by (unfold get_voted_fork_index; rewrite Eh; by destruct hs).
  destruct (voted_from_spec hs W s h (length hs - 1) 0) as (j & Ev & Hj); try done.
  - lia.
  - replace (S (length hs - 1)) with (length hs) by lia. by rewrite support_end.
  - intros m Hm. lia.
  - unfold update_index. rewrite Eg, Ev. cbn [bind]. exists j. pose proof (proj1 Hj) as Bj. rewrite Nat.mod_small by lia.
    split; [|done]. f_equal. destruct (Nat.ltb_spec (current_fork_index s) j); [done|].
    assert (j = current_fork_index s) as -> by lia. by destruct s.
Qed.

(** ** Adding blocks *)

Section Refinement.
  Variables (hs : list Params) (W : nat).
  Hypothesis Htable : table_ok hs.
  Hypothesis Hwindow : (1 <= W)%nat /\ Z.of_nat W < 2 ^ 32.

Lemma follows_bound c i : follows hs W c i -> (i < length hs)%nat /\ Forall byte_block c.
Proof.
  induction 1 as [|c i b j _ [_ IH] Hb _ [Hj _]].
  - destruct Htable as (Hne & _). destruct hs; [done | cbn; split; [lia | by apply Forall_nil]].
  - split; [lia|]. apply Forall_app. split; [done | by apply Forall_singleton].
Qed.

(** The fork that a chain leads to is unique. *)
Lemma next_fork_unique win i h j j' : next_fork hs W win i h j -> next_fork hs W win i h j' -> j = j'.
Proof.
  intros (B & S & N) (B' & S' & N'). destruct (Nat.lt_trichotomy j j') as [L|[E|L]]; [|done|].
  - exfalso. apply (N j'); [lia | apply S'; lia].
  - exfalso. apply (N' j); [lia | apply S; lia].
Qed.

Lemma follows_unique c i j : follows hs W c i -> follows hs W c j -> i = j.
Proof.
  intros H. revert j. induction H as [|c i b k Hc IH Hb Ha Hn]; intros j Hj.
  - inversion Hj as [|c' i' b' k' _ _ _ _ E]; [done | by destruct c'].
  - inversion Hj as [E|c' i' b' k' Hc' Hb' Ha' Hn' E]; [by destruct c|]. apply app_inj_tail in E as [-> ->].
    rewrite (IH i' Hc') in Hn. by eapply next_fork_unique.
Qed.

Lemma effective_eq s v : heights s = hs -> get_effective_version s v = effective hs v.
Proof. unfold get_effective_version, effective, last_fork. by intros ->. Qed.

Lemma effective_range v : 1 <= v < 256 -> 0 <= effective hs v < 256.
Proof.
  intros Hv. unfold effective. destruct (last hs) as [p|] eqn:E; [|lia]. destruct Htable as (_ & _ & Hp & _).
  destruct (Z.ltb_spec (version p) v); [|lia]. assert (1 <= version p < 256); [|lia].
  apply last_Some in E as (l & ->). apply Forall_app in Hp as [_ Hp]. by inversion Hp as [|? ? [? _] _].
Qed.

Lemma vote_range b : byte_block b -> 0 <= vote hs b < 256.
Proof.
  unfold byte_block. intros Hb. apply effective_range. unfold get_block_vote. destruct (Z.eqb_spec (minor_version b) 0); lia.
Qed.

Lemma window_range c : Forall byte_block c -> Forall (fun v => 0 <= v < 256) (lastn W (map (vote hs) c)).
Proof.
  intros H. unfold lastn. apply Forall_drop. rewrite Forall_map. eapply Forall_impl; [exact H|]. intros b Hb. by apply vote_range.
Qed.

Lemma do_check_spec s c i b :
  agrees hs W s c i -> (i < length hs)%nat ->
  exists p, nth_error hs i = Some p /\
    ((acceptable hs i b /\ check s b = Some true) \/ (~ acceptable hs i b /\ check s b = Some false)).
Proof.
  intros (Eh & _ & _ & _ & Ei) Hi. unfold check, do_check. rewrite Eh, Ei.
  destruct (nth_error hs i) as [p|] eqn:Ep; [|apply nth_error_None in Ep; lia]. exists p. split; [done|]. cbn [bind].
  unfold get_block_version, acceptable.
  destruct (Z.eqb_spec (major_version b) (version p)) as [E1|E1], (Z.leb_spec (version p) (get_block_vote b)) as [E2|E2]; cbn [andb];
    [left; split; [by exists p | done] | right; split; [|done] ..]; intros (q & Eq & Q1 & Q2); assert (q = p) as -> by congruence; lia || done.
Qed.

(** Adding the next block of a chain. *)
Lemma add_block_spec s c i b :
  follows hs W c i -> agrees hs W s c i -> byte_block b ->
  (acceptable hs i b -> exists j l p, follows hs W (c ++ [b]) j /\ nth_error hs i = Some p /\
     let s' := set_index j (set_votes (lastn W (map (vote hs) (c ++ [b]))) l
                 (set_db (set_hard_fork_version (db s) (Z.of_nat (length c)) (version p)) s)) in
     add_block s b (Z.of_nat (length c)) = Some (true, s') /\ agrees hs W s' (c ++ [b]) j) /\
  (~ acceptable hs i b -> add_block s b (Z.of_nat (length c)) = Some (false, s)).
Proof.
  intros Hf Ha Hb. destruct (follows_bound c i Hf) as [Hi Hbc]. destruct (do_check_spec s c i b Ha Hi) as (p & Ep & Hc).
  unfold check in Hc. unfold add_block, add. destruct Ha as (Eh & EW & Ev & Hcnt & Ei).
  destruct Hc as [[Hacc ->] | [Hacc ->]]; cbn [bind negb]; [|by split]. split; [intros _ | done].
  rewrite Eh, Ei, Ep. cbn [bind]. set (s1 := set_db _ s).
  rewrite (effective_eq s1 (get_block_vote b) Eh). fold (vote hs b).
  change (versions s1) with (versions s). change (last_versions s1) with (last_versions s). change (window_size s1) with (window_size s).
  rewrite EW, Ev. rewrite Ev in Hcnt.
  destruct (pop_votes_spec W _ _ Hcnt (window_range c Hbc) ltac:(lia)) as (l1 & -> & Hc1). cbn [bind].
  rewrite lastn_lastn in Hc1 |- * by lia.
  pose proof (length_lastn (W - 1) (map (vote hs) c)) as Ll.
  destruct (count_vote_spec l1 _ (vote hs b) Hc1 (vote_range b Hb) ltac:(lia)) as (l2 & -> & Hc2). cbn [bind].
  assert (lastn (W - 1) (map (vote hs) c) ++ [vote hs b] = lastn W (map (vote hs) (c ++ [b]))) as Ew.
  { rewrite map_app. cbn [map]. destruct W as [|w]; [lia|]. rewrite lastn_snoc. by replace (S w - 1)%nat with w by lia. }
  rewrite Ew in Hc2 |- *. set (s2 := set_votes _ l2 s1).
  destruct (update_index_spec hs W s2 (Z.of_nat (length c) + 1)) as (j & -> & Hj); try done; [lia | | cbn; rewrite Ei; lia|].
  { unfold s2. cbn. rewrite length_lastn. lia. }
  cbn [bind]. exists j, l2, p. cbn in Hj. rewrite Ei in Hj. split; [by eapply follows_snoc|]. split; [done|]. split; [done|].
  split; [done|]. split; [done|]. split; [done|]. split; [exact Hc2 | done].
Qed.

(** ** Prefixes of a chain *)

Lemma nth_error_list_lookup {A} (l : list A) k : nth_error l k = l !! k.
Proof. revert k. induction l as [|x l IH]; intros [|k]; [done | done | done | apply IH]. Qed.

Lemma follows_last c i b :
  follows hs W (c ++ [b]) i -> exists k, follows hs W c k /\ byte_block b /\ acceptable hs k b /\
    next_fork hs W (lastn W (map (vote hs) (c ++ [b]))) k (Z.of_nat (length c) + 1) i.
Proof.
  intros H. inversion H as [E|c' k b' j Hc Hb Ha Hn E]; [by destruct c|]. apply app_inj_tail in E as [-> ->]. by exists k.
Qed.

Lemma follows_take c i k : follows hs W c i -> (k <= length c)%nat -> exists j, follows hs W (take k c) j /\ (j <= i)%nat.
Proof.
  induction 1 as [|c i b j Hc IH Hb Ha Hn]; intros Hk.
  - exists 0%nat. rewrite take_nil. split; [constructor | lia].
  - rewrite length_app in Hk. cbn [length] in Hk. destruct (decide (k <= length c)%nat) as [L|L].
    + destruct (IH L) as (m & Hm & Hle). exists m. rewrite take_app_le by lia. split; [done|]. destruct Hn as [? _]. lia.
    + exists j. rewrite take_ge by (rewrite length_app; cbn; lia). split; [by eapply follows_snoc | done].
Qed.

(** One block further. *)
Lemma follows_step c i k b :
  follows hs W c i -> nth_error c k = Some b ->
  exists j j', follows hs W (take k c) j /\ follows hs W (take (S k) c) j' /\ take (S k) c = take k c ++ [b] /\
    byte_block b /\ acceptable hs j b /\ (j' <= i)%nat /\
    next_fork hs W (lastn W (map (vote hs) (take (S k) c))) j (Z.of_nat k + 1) j'.
Proof.
  intros Hc Hb. assert (k < length c)%nat as Hk by (apply nth_error_Some; congruence).
  assert (take (S k) c = take k c ++ [b]) as Et by (rewrite (take_S_r _ _ b); [done | by rewrite <- nth_error_list_lookup]).
  destruct (follows_take c i (S k) Hc ltac:(lia)) as (j' & Hj' & Hle). rewrite Et in Hj'.
  destruct (follows_last _ _ _ Hj') as (j & Hj & Hbb & Ha & Hn). rewrite length_take, Nat.min_l in Hn by lia.
  exists j, j'. rewrite Et. done.
Qed.

(** ** Rescanning *)

Lemma scan_spec s c first n k vs :
  db_blocks (db s) = c -> heights s = hs -> Forall byte_block c -> versions s = vs ->
  counts (last_versions s) vs -> (first + k + n <= length c)%nat -> Z.of_nat (length vs + n) < 2 ^ 32 ->
  exists l, foldM scan_step (map (fun i => Z.of_nat first + Z.of_nat i) (seq k n)) s =
      Some (set_votes (vs ++ map (vote hs) (take n (drop (first + k) c))) l s) /\
    counts l (vs ++ map (vote hs) (take n (drop (first + k) c))).
Proof.
  intros Ed Eh Hb. revert s k vs Ed Eh. induction n as [|n IH]; intros s k vs Ed Eh Ev Hc Hl Hn; cbn [seq map foldM].
  - exists (last_versions s). rewrite take_0. cbn [map]. rewrite app_nil_r. split; [|done]. destruct s. cbn in Ev. by subst.
  - unfold scan_step at 1, get_block_from_height. rewrite Ed.
    replace (Z.to_nat (Z.of_nat first + Z.of_nat k)) with (first + k)%nat by lia.
    destruct (nth_error c (first + k)) as [b|] eqn:Eb; [|apply nth_error_None in Eb; lia]. cbn [bind].
    rewrite (effective_eq s _ Eh). fold (vote hs b). rewrite Ev.
    assert (byte_block b) as Hbb by (apply (proj1 (List.Forall_forall _ _) Hb), (nth_error_In _ _ Eb)).
    destruct (count_vote_spec (last_versions s) vs (vote hs b) Hc (vote_range b Hbb) ltac:(lia)) as (l1 & -> & Hc1). cbn [bind].
    destruct (IH (set_votes (vs ++ [vote hs b]) l1 s) (S k) (vs ++ [vote hs b])) as (l & E & Hl2); try done; [lia | rewrite length_app; cbn; lia|].
    exists l. rewrite E, (skipn_nth_error _ _ _ Eb). cbn [firstn map]. replace (first + S k)%nat with (S (first + k)) in * by lia.
    rewrite <- app_assoc in Hl2 |- *. by split.
Qed.

Lemma counts_empty : counts (repeat 0 256) [].
Proof. split; [apply repeat_length|]. intros v Hv. apply nth_error_repeat. lia. Qed.

(** Scanning the window that ends before block [n]. *)
Lemma scan_window s c n :
  db_blocks (db s) = c -> heights s = hs -> Forall byte_block c -> (n <= length c)%nat ->
  exists l, foldM scan_step (heights_from (Z.of_nat (n - W)) (Z.of_nat (n - (n - W)))) (clear_votes s) =
      Some (set_votes (lastn W (map (vote hs) (take n c))) l s) /\
    counts l (lastn W (map (vote hs) (take n c))).
Proof.
  intros Ed Eh Hb Hn. unfold heights_from. rewrite Nat2Z.id.
  destruct (scan_spec (clear_votes s) c (n - W) (n - (n - W)) 0 []) as (l & E & Hl); try done; [apply counts_empty | lia | cbn; lia|].
  exists l. rewrite Nat.add_0_r in *. cbn [app] in *.
  assert (map (vote hs) (take (n - (n - W)) (drop (n - W) c)) = lastn W (map (vote hs) (take n c))) as <-; [|by rewrite E].
  unfold lastn. rewrite length_map, length_take, Nat.min_l by lia. rewrite skipn_map. f_equal.
  rewrite take_drop_commute. by replace (n - W + (n - (n - W)))%nat with n by lia.
Qed.

(** ** Finding the fork of a recorded version *)

Lemma lower_index_spec i j p :
  nth_error hs j = Some p -> (j <= i < length hs)%nat -> lower_index hs (version p) i = Some j.
Proof.
  intros Hj. induction i as [|i IH]; intros Hi; cbn [lower_index]; [f_equal; lia|].
  destruct (nth_error hs (S i)) as [q|] eqn:Eq; [|apply nth_error_None in Eq; lia]. cbn [bind].
  destruct (decide (j = S i)) as [->|N].
  - assert (q = p) as -> by congruence. by rewrite Z.ltb_irrefl.
  - destruct Htable as (_ & _ & _ & _ & Hinc). rewrite (proj2 (Z.ltb_lt _ _)) by (eapply (Hinc j (S i)); [lia | done | done]).
    apply IH. lia.
Qed.

Lemma find_index_spec l k i p :
  NoDup (map version l) -> nth_error l i = Some p -> find_index l (version p) k = (k + i)%nat.
Proof.
  revert k i. induction l as [|q l IH]; intros k i Nd Hi; [by destruct i|]. cbn [map] in Nd. apply NoDup_cons in Nd as [Hq Nd].
  destruct i as [|i].
  - injection Hi as ->. cbn [find_index]. destruct l; rewrite ?Z.eqb_refl; cbn [negb]; lia.
  - cbn in Hi. destruct l as [|q' l]; [by destruct i|]. assert (version q <> version p) as N.
    { intros E. apply Hq. rewrite E. apply list_elem_of_In, in_map. by eapply nth_error_In. }
    cbn [find_index]. rewrite (proj2 (Z.eqb_neq _ _)) by done. cbn [negb]. fold (find_index (q' :: l) (version p) (S k)).
    change (match l with [] => S k | _ => if negb (version q' =? version p) then find_index l (version p) (S (S k)) else S k end)
      with (find_index (q' :: l) (version p) (S k)). rewrite (IH (S k) i Nd Hi). lia.
Qed.

(** ** Adding the rest of a chain again *)

Lemma recorded_next d c a n i p :
  recorded hs W d c a n -> follows hs W (take n c) i -> nth_error hs i = Some p ->
  recorded hs W (set_hard_fork_version d (Z.of_nat n) (version p)) c a (S n).
Proof.
  intros Hr Hf Hp k j q Hk Hj Hq. cbn. rewrite lookup_insert. case_decide as D.
  - assert (n = k) as <- by lia. rewrite (follows_unique _ _ _ Hj Hf) in Hq. congruence.
  - apply (Hr k j q); [lia | done | done].
Qed.

Lemma readd_spec s c i first n k j a :
  db_blocks (db s) = c -> follows hs W c i -> follows hs W (take (first + k) c) j -> agrees hs W s (take (first + k) c) j ->
  recorded hs W (db s) c a (first + k) -> (first + k + n <= length c)%nat ->
  exists s' j', foldM readd_step (map (fun i => Z.of_nat first + Z.of_nat i) (seq k n)) s = Some s' /\
    follows hs W (take (first + k + n) c) j' /\ agrees hs W s' (take (first + k + n) c) j' /\
    recorded hs W (db s') c a (first + k + n) /\ db_blocks (db s') = c /\ original_version s' = original_version s.
Proof.
  intros Ed Hf. revert s k j Ed. induction n as [|n IH]; intros s k j Ed Hj Ha Hr Hl; cbn [seq map foldM].
  - exists s, j. rewrite Nat.add_0_r. done.
  - destruct (nth_error c (first + k)) as [b|] eqn:Eb; [|apply nth_error_None in Eb; lia].
    destruct (follows_step c i (first + k) b Hf Eb) as (j0 & j1 & H0 & H1 & Et & Hbb & Hacc & _ & _).
    assert (j0 = j) as -> by by eapply follows_unique.
    destruct (add_block_spec s (take (first + k) c) j b Hj Ha Hbb) as [Hadd _].
    destruct (Hadd Hacc) as (j2 & l & p & H2 & Hp & E & Ha2). rewrite <- Et in H2, Ha2, E.
    rewrite length_take, Nat.min_l in E, Ha2 by lia. unfold readd_step at 1, get_block_from_height. rewrite Ed.
    replace (Z.to_nat (Z.of_nat first + Z.of_nat k)) with (first + k)%nat by lia. rewrite Eb. cbn [bind].
    replace (Z.of_nat first + Z.of_nat k) with (Z.of_nat (first + k)) by lia. rewrite E. cbn [bind].
    set (s1 := set_index j2 _) in *. replace (first + k + S n)%nat with (first + S k + n)%nat by lia.
    replace (S (first + k)) with (first + S k)%nat in * by lia.
    destruct (IH s1 (S k) j2) as (s' & j' & E' & R); [exact Ed | exact H2 | exact Ha2 | | lia | by exists s', j'].
    replace (first + S k)%nat with (S (first + k)) by lia. by eapply recorded_next.
Qed.

(** ** Claims *)

(** The parts of the object that reading the votes again does not need. *)
Definition configured (s : hardfork) (c : list block) : Prop :=
  db_blocks (db s) = c /\ heights s = hs /\ window_size s = Z.of_nat W /\
  option_map version (nth_error hs 0) = Some (original_version s).

(** [take k c] is the chain below the block of height [k], [start_version] what the code reads
    for it. *)
Lemma reorganize_spec s c i k a :
  configured s c -> follows hs W c i -> (k < length c)%nat ->
  (k <> 0%nat -> (a <= k)%nat) -> recorded hs W (db s) c a (S k) ->
  (current_fork_index s < length hs)%nat -> (forall j, follows hs W (take k c) j -> (j <= current_fork_index s)%nat) ->
  exists s', reorganize_from_block_height s (Z.of_nat k) = Some (true, s') /\ configured s' c /\ agrees hs W s' c i /\
    recorded hs W (db s') c a (length c).
Proof.
  intros (Ed & Eh & EW & Eo) Hf Hk Hak Hr Hi Hle. unfold reorganize_from_block_height, db_height. rewrite Ed.
  rewrite (proj2 (Z.leb_gt _ _)) by lia.
  destruct (nth_error c k) as [b|] eqn:Eb; [|apply nth_error_None in Eb; lia].
  destruct (follows_step c i k b Hf Eb) as (j & j' & Hj & Hj' & Et & Hbb & Hacc & Hji & Hn).
  destruct (follows_bound _ _ Hj) as [Bj _]. destruct (follows_bound _ _ Hf) as [_ Hbc].
  destruct (nth_error hs j) as [p|] eqn:Ep; [|apply nth_error_None in Ep; lia].
  change (window_size (clear_votes s)) with (window_size s). change (original_version (clear_votes s)) with (original_version s).
  change (db (clear_votes s)) with (db s). change (heights (clear_votes s)) with (heights s).
  change (current_fork_index (clear_votes s)) with (current_fork_index s).
  assert ((if Z.of_nat k =? 0 then Some (original_version s) else get_hard_fork_version (db s) (Z.of_nat k)) = Some (version p)) as ->.
  { destruct (Z.eqb_spec (Z.of_nat k) 0) as [E0|N0].
    - assert (k = 0%nat) as -> by lia. rewrite take_0 in Hj. rewrite (follows_unique _ _ _ Hj (follows_nil hs W)) in Ep.
      rewrite Ep in Eo. cbn in Eo. congruence.
    - apply (Hr k j p); [|done|done]. split; [apply Hak; lia | lia]. }
  cbn [bind]. rewrite Eh, (lower_index_spec _ _ _ Ep) by (split; [by apply Hle | done]). cbn [bind].
  rewrite EW. set (rescan := if Z.of_nat W - 1 <=? Z.of_nat k then Z.of_nat k - (Z.of_nat W - 1) else 0).
  assert (rescan = Z.of_nat (S k - W)) as Er by (unfold rescan; destruct (Z.leb_spec (Z.of_nat W - 1) (Z.of_nat k)); lia).
  rewrite Er. replace (Z.of_nat k + 1 - Z.of_nat (S k - W)) with (Z.of_nat (S k - (S k - W))) by lia.
  change (set_index j (clear_votes s)) with (clear_votes (set_index j s)).
  destruct (scan_window (set_index j s) c (S k) Ed Eh Hbc ltac:(lia)) as (l & -> & Hl). cbn [bind].
  set (s1 := set_votes _ l (set_index j s)).
  destruct (update_index_spec hs W s1 (Z.of_nat k + 1)) as (j2 & -> & Hj2); try done; [lia | unfold s1; cbn; rewrite length_lastn; lia|].
  cbn [bind]. cbn in Hj2. assert (j2 = j') as -> by by eapply next_fork_unique.
  change (db (set_index j' s1)) with (db s). rewrite Ed. unfold heights_from.
  replace (Z.to_nat (Z.of_nat (length c) - (Z.of_nat k + 1))) with (length c - S k)%nat by lia.
  replace (Z.of_nat k + 1) with (Z.of_nat (S k)) by lia.
  destruct (readd_spec (set_index j' s1) c i (S k) (length c - S k) 0 j' a) as (s' & i' & E & Hf' & Ha' & Hr' & Ed' & Eo');
    rewrite ?Nat.add_0_r in *; try done; [lia|].
  rewrite E. cbn [bind]. replace (S k + (length c - S k))%nat with (length c) in * by lia. rewrite take_ge in Hf', Ha' by lia.
  rewrite (follows_unique _ _ _ Hf' Hf) in Ha'. exists s'. split; [done|]. split; [|done].
  destruct Ha' as (Eh' & EW' & _). split; [done|]. split; [done|]. split; [done|]. rewrite Eo'. exact Eo.
Qed.

Lemma rescan_spec s c i :
  configured s c -> follows hs W c i -> c <> [] -> recorded hs W (db s) c 0 (length c) ->
  exists s', rescan_from_block_height s (Z.of_nat (length c - W)) = Some (true, s') /\ configured s' c /\ agrees hs W s' c i /\
    db s' = db s.
Proof.
  intros (Ed & Eh & EW & Eo) Hf Hne Hr. destruct (follows_bound _ _ Hf) as [_ Hbc].
  assert (1 <= length c)%nat as Hl by (destruct c; [done | cbn; lia]).
  unfold rescan_from_block_height, db_height. rewrite Ed, (proj2 (Z.leb_gt _ _)) by lia.
  change (db (clear_votes s)) with (db s). rewrite Ed. replace (Z.of_nat (length c) - Z.of_nat (length c - W)) with (Z.of_nat (length c - (length c - W))) by lia.
  destruct (scan_window s c (length c) Ed Eh Hbc ltac:(lia)) as (l & -> & Hcl). cbn [bind]. rewrite take_ge in Hcl |- * by lia.
  destruct (nth_error c (length c - 1)) as [b|] eqn:Eb; [|apply nth_error_None in Eb; lia].
  destruct (follows_step c i (length c - 1) b Hf Eb) as (j & j' & Hj & Hj' & _ & _ & _ & _ & Hn).
  replace (S (length c - 1)) with (length c) in * by lia. rewrite take_ge in Hj', Hn by lia.
  assert (j' = i) as -> by by eapply follows_unique. destruct (follows_bound _ _ Hj) as [Bj _].
  destruct (nth_error hs j) as [p|] eqn:Ep; [|apply nth_error_None in Ep; lia].
  set (s1 := set_votes _ l s). change (db s1) with (db s). rewrite Ed. unfold get_hard_fork_version.
  replace (Z.of_nat (length c) - 1) with (Z.of_nat (length c - 1)) by lia. rewrite (Hr (length c - 1)%nat j p ltac:(lia) Hj Ep). cbn [bind].
  change (heights s1) with (heights s). rewrite Eh. pose proof Htable as (_ & _ & _ & Nd & _). rewrite (find_index_spec hs 0 j p Nd Ep). cbn [Nat.add].
  change (db (set_index j s1)) with (db s). rewrite Ed.
  destruct (update_index_spec hs W (set_index j s1) (Z.of_nat (length c))) as (j2 & -> & Hj2); try done; [lia | cbn; rewrite length_lastn; lia|].
  cbn [bind]. cbn in Hj2. replace (Z.of_nat (length c)) with (Z.of_nat (length c - 1) + 1) in Hj2 by lia.
  assert (j2 = i) as -> by by eapply next_fork_unique. eexists. split; [done|]. split; [by repeat split|]. split; [|done].
  split; [done|]. split; [done|]. split; [done|]. split; [exact Hcl | done].
Qed.

(** C27: adding blocks follows the voting rule: when the votes of the object are those of a valid
    chain, [add] of the next block returns without a failed assertion. A block that is not of
    the version in force, or does not vote at least for it, is refused and nothing changes.
    Otherwise the version in force is recorded for its height, the window holds the votes of
    the last blocks with their exact counts, and the fork in force is the last one of the
    table whose height is reached and for which, or for later ones, enough blocks of the
    window vote, and never an earlier one than before. *)
Theorem hardfork_add_correct s c i b :
  follows hs W c i -> agrees hs W s c i -> byte_block b ->
  (acceptable hs i b -> exists j s' p, add_block s b (Z.of_nat (length c)) = Some (true, s') /\
     follows hs W (c ++ [b]) j /\ agrees hs W s' (c ++ [b]) j /\ (i <= j)%nat /\ nth_error hs i = Some p /\
     db s' = set_hard_fork_version (db s) (Z.of_nat (length c)) (version p)) /\
  (~ acceptable hs i b -> add_block s b (Z.of_nat (length c)) = Some (false, s)).
Proof.
  intros Hf Ha Hb. destruct (add_block_spec s c i b Hf Ha Hb) as [H1 H2]. split; [|exact H2]. intros Hacc.
  destruct (H1 Hacc) as (j & l & p & Hj & Hp & E & Ha'). eexists j, _, p. split; [exact E|]. split; [done|]. split; [done|].
  split; [|done]. destruct (follows_last _ _ _ Hj) as (k & Hk & _ & _ & [Hkj _]). rewrite (follows_unique _ _ _ Hf Hk). lia.
Qed.

(** C28: reorganising replays the chain: from any state of the object whose fork is not behind the one
    at height k, with a database that holds a valid chain and the recorded versions up to
    height k, [reorganize_from_block_height] of k returns true and leaves exactly the votes,
    the counts, the fork and the recorded versions that adding the blocks one by one gives. *)
Theorem hardfork_reorganize_correct s c i k :
  configured s c -> follows hs W c i -> (k < length c)%nat -> recorded hs W (db s) c 0 (S k) ->
  (current_fork_index s < length hs)%nat -> (forall j, follows hs W (take k c) j -> (j <= current_fork_index s)%nat) ->
  exists s', reorganize_from_block_height s (Z.of_nat k) = Some (true, s') /\ configured s' c /\ agrees hs W s' c i /\
    recorded hs W (db s') c 0 (length c).
Proof. intros. apply reorganize_spec; try done. lia. Qed.

(** C29: starting up restores the votes: with a database that holds a valid chain, [init] returns, and
    the object has the votes, the counts and the fork that adding the blocks one by one
    gives, both when the versions are recorded, where only the window is read and the
    database is not changed, and when they are missing, where the whole chain is read and all
    versions are recorded. *)
Theorem hardfork_init_correct s c i :
  configured s c -> follows hs W c i ->
  (recorded hs W (db s) c 0 (length c) /\ db_versions (db s) !! 0 <> None) \/ db_versions (db s) = ∅ ->
  exists s', init s = Some s' /\ configured s' c /\ agrees hs W s' c i /\ recorded hs W (db s') c 0 (length c) /\
    (db_versions (db s) !! 0 <> None -> db s' = db s).
Proof.
  intros Hcfg Hf Hdb. pose proof Hcfg as (Ed & Eh & EW & Eo). unfold init.
  assert (match heights s with [] => set_heights [ForkParams (original_version s) 0 0 0] s | _ => s end = s) as ->.
  { rewrite Eh. destruct Htable as (Hne & _). by destruct hs. }
  change (db (set_index 0 (clear_votes s))) with (db s). change (window_size (set_index 0 (clear_votes s))) with (window_size s).
  assert (configured (set_index 0 (clear_votes s)) c) as Hcfg' by done.
  assert (agrees hs W (set_index 0 (clear_votes s)) [] 0) as Ha0.
  { split; [done|]. split; [done|]. split; [done|]. split; [apply counts_empty | done]. }
  destruct Hdb as [[Hr Hv] | Hv].
  - unfold get_hard_fork_version. destruct (db_versions (db s) !! 0) as [v|]; [|done].
    unfold db_height. rewrite Ed, EW.
    assert ((if Z.of_nat W <? Z.of_nat (length c) then Z.of_nat (length c) - (Z.of_nat W - 1) else 1) = Z.of_nat (length c - W) + 1) as ->
      by (destruct (Z.ltb_spec (Z.of_nat W) (Z.of_nat (length c))); lia).
    unfold rescan_from_chain_height. rewrite (proj2 (Z.eqb_neq _ 0)) by lia. rewrite Z.add_simpl_r.
    destruct (decide (c = [])) as [->|Hne].
    + unfold rescan_from_block_height, db_height. change (db (set_index 0 (clear_votes s))) with (db s). rewrite Ed. cbn [length Nat.sub bind]. rewrite (follows_unique _ _ _ Hf (follows_nil hs W)).
      by eexists.
    + destruct (rescan_spec _ c i Hcfg' Hf Hne Hr) as (s' & -> & Hc' & Ha' & Edb). cbn [bind]. exists s'. rewrite Edb. done.
  - unfold get_hard_fork_version. rewrite Hv, lookup_empty. unfold reorganize_from_chain_height.
    change (1 =? 0) with false. change (1 - 1) with 0. cbv iota.
    destruct (decide (c = [])) as [->|Hne].
    + unfold reorganize_from_block_height, db_height. change (db (set_index 0 (clear_votes s))) with (db s). rewrite Ed. cbn [length bind]. rewrite (follows_unique _ _ _ Hf (follows_nil hs W)).
      eexists. split; [done|]. split; [done|]. split; [done|]. split; [intros k; cbn; lia | done].
    + assert (0 < length c)%nat as Hl by (destruct c; [done | cbn; lia]).
      assert (hs <> []) as Hne' by apply Htable.
      destruct (reorganize_spec (set_index 0 (clear_votes s)) c i 0 1 Hcfg' Hf Hl) as (s' & E & Hc' & Ha' & Hr').
      * done.
      * intros k; lia.
      * cbn. by destruct hs; [|cbn; lia].
      * rewrite take_0. intros j Hj. by rewrite (follows_unique _ _ _ Hj (follows_nil hs W)).
      * change (Z.of_nat 0) with 0 in E. rewrite E. cbn [bind]. eexists. split; [done|]. split; [exact Hc'|]. split; [exact Ha'|].
        split; [|done]. intros k j p Hk Hj Hp. cbn. rewrite lookup_insert. case_decide as D.
        -- assert (k = 0%nat) as -> by lia. rewrite take_0 in Hj. rewrite (follows_unique _ _ _ Hj (follows_nil hs W)) in Hp.
           destruct Hc' as (_ & _ & _ & Eo'). rewrite Hp in Eo'. cbn in Eo'. congruence.
        -- apply (Hr' k j p); [lia | done | done].
Qed.
End Refinement.

(** ** The table of forks *)

(** Heights and times increase with the versions, which leave room for the length. *)
Definition forks_ordered (hs : list Params) : Prop :=
  Forall (fun p => 0 <= threshold p <= 100) hs /\
  (forall i p, nth_error hs i = Some p -> Z.of_nat i + 1 <= version p < 256) /\
  forall i j p q, (i < j)%nat -> nth_error hs i = Some p -> nth_error hs j = Some q ->
    version p < version q /\ height p < height q /\ time p < time q.

Lemma forks_ordered_table hs : forks_ordered hs -> hs <> [] -> table_ok hs.
Proof.
  intros (Ht & Hv & Hi) Hne. split; [done|]. split; [|split; [|split]].
  - destruct (decide (length hs <= 256)%nat) as [|L]; [done|].
    destruct (nth_error hs 256) as [p|] eqn:E; [|apply nth_error_None in E; lia]. specialize (Hv _ _ E). lia.
  - apply List.Forall_forall. intros p Hp. apply In_nth_error in Hp as Hn. destruct Hn as [n Hn].
    specialize (Hv _ _ Hn). pose proof (proj1 (List.Forall_forall _ _) Ht p Hp) as Hp'. cbv beta in Hp'. lia.
  - apply NoDup_alt. intros i j v. rewrite <- !nth_error_list_lookup, !nth_error_map.
    destruct (nth_error hs i) as [p|] eqn:Ei, (nth_error hs j) as [q|] eqn:Ej; cbn; try done. intros [= <-] [= E].
    destruct (Nat.lt_trichotomy i j) as [L|[L|L]]; [|done|].
    + destruct (Hi _ _ _ _ L Ei Ej). lia.
    + destruct (Hi _ _ _ _ L Ej Ei). lia.
  - intros i j p q L Ei Ej. by apply (Hi i j).
Qed.

Lemma nth_error_snoc {A} (l : list A) x i y :
  nth_error (l ++ [x]) i = Some y <-> nth_error l i = Some y \/ (i = length l /\ y = x).
Proof.
  destruct (Nat.lt_trichotomy i (length l)) as [L|[->|L]].
  - rewrite nth_error_app1 by done. split; [by left | intros [?|[? _]]; [done | lia]].
  - rewrite nth_error_app2, Nat.sub_diag by done. cbn. rewrite (proj2 (nth_error_None l (length l))) by done.
    split; [intros [= ->]; by right | intros [?|[_ ->]]; done].
  - rewrite (proj2 (nth_error_None (l ++ [x]) i)) by (rewrite length_app; cbn; lia).
    rewrite (proj2 (nth_error_None l i)) by lia. split; [done | intros [?|[? _]]; [done | lia]].
Qed.

(** [add_fork] keeps the table in order, and refuses what would not be. *)
Theorem add_fork_ordered s v h t tm :
  forks_ordered (heights s) -> 0 <= v < 256 -> 0 <= t ->
  forks_ordered (heights (add_fork s v h t tm).2) /\
  ((add_fork s v h t tm).1 = true <->
     v <> 0 /\ t <= 100 /\ forall p, last (heights s) = Some p -> version p < v /\ height p < h /\ time p < tm).
Proof.
  intros Ho Bv Bt. pose proof Ho as (Ht & Hv & Hi). unfold add_fork, last_fork.
  destruct (Z.eqb_spec v 0) as [->|Nv]; [split; [exact Ho|]; split; [done | by intros [? _]]|].
  set (refused := match last (heights s) with Some p => (v <=? version p) || (h <=? height p) || (tm <=? time p) | None => false end).
  change (match last (heights s) with None => false | Some p => _ end) with refused. cbv zeta. assert (refused = false <->
    forall p, last (heights s) = Some p -> version p < v /\ height p < h /\ time p < tm) as R.
  { subst refused. destruct (last (heights s)) as [p|]; [|by split]. rewrite !orb_false_iff, !Z.leb_gt. split; [intros [[? ?] ?] q [= <-]; lia|].
    intros H. destruct (H p eq_refl) as (? & ? & ?). lia. }
  destruct refused.
  - split; [exact Ho|]. split; [done|]. intros (_ & _ & H). by apply R in H.
  - pose proof (proj1 R eq_refl) as H. destruct (Z.ltb_spec 100 t) as [L|L]; [split; [exact Ho|]; split; [done | lia]|].
    split; [|split; [intros _; split; [exact Nv|]; split; [lia | exact H] | done]]. cbn [snd heights set_heights]. split; [apply Forall_app; split; [done | by apply Forall_singleton]|].
    assert (forall i p, nth_error (heights s) i = Some p -> version p < v /\ height p < h /\ time p < tm) as Below.
    { intros i p Ep. destruct (last (heights s)) as [q|] eqn:El.
      - pose proof (H q eq_refl) as Hq. apply last_Some in El as (l & El). rewrite El in Ep, Hi. apply nth_error_snoc in Ep as [Ep|[_ ->]]; [|done].
        assert (i < length l)%nat as Lt by (apply nth_error_Some; congruence).
        destruct (Hi i (length l) p q Lt) as (? & ? & ?); [apply nth_error_snoc; by left | apply nth_error_snoc; by right | lia].
      - apply last_None in El. rewrite El in Ep. by destruct i. }
    split.
    + intros i p [Ep|[-> ->]]%nth_error_snoc; [by apply Hv|]. cbn [version]. split; [|lia].
      destruct (heights s) as [|p0 l] eqn:El; [cbn; lia|]. rewrite <- El in *.
      destruct (nth_error (heights s) (length (heights s) - 1)) as [q|] eqn:Eq; [|apply nth_error_None in Eq; rewrite El in Eq; cbn in Eq; lia].
      pose proof (Hv _ _ Eq). destruct (Below _ _ Eq). assert (1 <= length (heights s))%nat by (rewrite El; cbn; lia). lia.
    + intros i j p q L' Ei Ej. apply nth_error_snoc in Ei, Ej. destruct Ei as [Ei|[-> ->]], Ej as [Ej|[-> ->]].
      * by apply (Hi i j).
      * by apply (Below i).
      * assert (j < length (heights s))%nat by (apply nth_error_Some; congruence). lia.
      * lia.
Qed.

(** ** Examples *)

(** Two forks, a window of four votes, and a chain of two blocks. *)
Definition forks2 : list Params := [ForkParams 1 0 0 0; ForkParams 2 80 10 100].
Definition chain2 : list block := [Block 1 0; Block 1 2].
Definition start2 (vs : gmap Z Z) : hardfork :=
  HardFork (Database chain2 vs) 1000 500 4 80 1 0 forks2 [] (repeat 0 256) 0.

Lemma forks2_ok : table_ok forks2.
Proof.
  apply forks_ordered_table; [|done]. split; [repeat (apply Forall_cons; split; [cbn; lia|]); by apply Forall_nil|]. split.
  - intros [|[|i]] p; cbn; [intros [= <-]; cbn; lia | intros [= <-]; cbn; lia | by destruct i].
  - intros [|[|i]] [|[|j]] p q L; cbn; try lia; try (by destruct i); try (by destruct j). intros [= <-] [= <-]. cbn. lia.
Qed.

Lemma window2_ok : (1 <= 4)%nat /\ Z.of_nat 4 < 2 ^ 32.
Proof. lia. Qed.

(** No fork comes into force below height 10. *)
Lemma next_fork2 win h : h < 10 -> next_fork forks2 4 win 0 h 0.
Proof.
  intros Hh. split; [cbn; lia|]. split; [lia|]. intros n Hn (p & Ep & Hp & _).
  destruct n as [|[|n]]; cbn in Hn; [lia | injection Ep as <-; cbn in Hp; lia | lia].
Qed.

Lemma acceptable2 b : major_version b = 1 -> 1 <= get_block_vote b -> acceptable forks2 0 b.
Proof. intros H1 H2. by exists (ForkParams 1 0 0 0). Qed.

Lemma follows2 : follows forks2 4 [Block 1 0] 0 /\ follows forks2 4 chain2 0.
Proof.
  assert (follows forks2 4 [Block 1 0] 0) as H1.
  { apply (follows_snoc forks2 4 [] 0 (Block 1 0)); [constructor | unfold byte_block; cbn; lia | by apply acceptable2 | by apply next_fork2]. }
  split; [exact H1|]. apply (follows_snoc forks2 4 [Block 1 0] 0 (Block 1 2)); [exact H1 | unfold byte_block; cbn; lia | | by apply next_fork2].
  apply acceptable2; [done | cbn; lia].
Qed.

Lemma hardfork_add_correct_witness :
  exists j s' p, add_block (start2 ∅) (Block 1 0) 0 = Some (true, s') /\
     follows forks2 4 [Block 1 0] j /\ agrees forks2 4 s' [Block 1 0] j /\ (0 <= j)%nat /\ nth_error forks2 0 = Some p /\
     db s' = set_hard_fork_version (db (start2 ∅)) 0 (version p).
Proof.
  refine (proj1 (hardfork_add_correct forks2 4 forks2_ok window2_ok (start2 ∅) [] 0 (Block 1 0) (follows_nil _ _) _ _) _).
  - split; [done|]. split; [done|]. split; [done|]. split; [apply (counts_empty 4); exact window2_ok | done].
  - unfold byte_block. cbn. lia.
  - by apply acceptable2.
Defined.

(** The recorded versions of the chain. *)
Lemma recorded_all2 : recorded forks2 4 (Database chain2 {[0 := 1; 1 := 1]}) chain2 0 2.
Proof.
  intros k i p Hk Hf Hp. assert (i = 0%nat) as ->.
  { destruct k as [|[|k]]; [| |lia].
    - exact (follows_unique forks2 4 forks2_ok window2_ok _ _ _ Hf (follows_nil _ _)).
    - exact (follows_unique forks2 4 forks2_ok window2_ok _ _ _ Hf (proj1 follows2)). }
  injection Hp as <-. destruct k as [|[|k]]; [done | done | lia].
Qed.

Lemma hardfork_reorganize_correct_witness :
  exists s', reorganize_from_block_height (start2 {[0 := 1; 1 := 1]}) 1 = Some (true, s') /\ configured forks2 4 s' chain2 /\
    agrees forks2 4 s' chain2 0 /\ recorded forks2 4 (db s') chain2 0 2.
Proof.
  refine (hardfork_reorganize_correct forks2 4 forks2_ok window2_ok (start2 {[0 := 1; 1 := 1]}) chain2 0 1 _ (proj2 follows2) _ recorded_all2 _ _).
  - done.
  - cbn. lia.
  - cbn. lia.
  - intros j Hj. rewrite (follows_unique forks2 4 forks2_ok window2_ok _ _ _ Hj (proj1 follows2)). cbn. lia.
Defined.

Lemma hardfork_init_correct_witness :
  exists s', init (start2 ∅) = Some s' /\ configured forks2 4 s' chain2 /\ agrees forks2 4 s' chain2 0 /\
    recorded forks2 4 (db s') chain2 0 2 /\ (db_versions (db (start2 ∅)) !! 0 <> None -> db s' = db (start2 ∅)).
Proof.
  exact (hardfork_init_correct forks2 4 forks2_ok window2_ok (start2 ∅) chain2 0 (ltac:(done) : configured forks2 4 (start2 ∅) chain2)
    (proj2 follows2) (or_intror eq_refl)).
Defined.
