(* ===== verification/RctTypes.v ===== *)
(** * Types and conversions of RingCT

    Models the structures of rctTypes.h and the conversions between amounts of 64 bits, keys
    of 32 bytes and arrays of 64 bits of rctTypes.cpp. Keys are lists of bytes, vectors and
    arrays are lists. Arrays that a function fills from the first entry on are built by
    appending, [None] is a write outside of one. *)

From Stdlib Require Import ZArith Lia List Bool.
From S2P Require Import Prelude Bytes Sc.
Import ListNotations.

#[local] Open Scope Z_scope.

(** ** Data *)

Notation key := (list Z) (only parsing).

(** For a secret [ctkey], the secret key and the mask; for a public one, the address and the
    commitment. *)
Record ctkey := CtKey { dest : key; mask : key }.

Record multisig_kLRki := Multisig_kLRki { ms_k : key; ms_L : key; ms_R : key; ms_ki : key }.

Record ecdhTuple := EcdhTuple { ecdh_mask : key; ecdh_amount : key; senderPk : key }.

Record boroSig := BoroSig { s0 : list key; s1 : list key; ee : key }.

Record mgSig := MgSig { ss : list (list key); cc : key; II : list key }.

Record rangeSig := RangeSig { asig : boroSig; Ci : list key }.

Record Bulletproof := BulletProof {
  bp_V : list key; bp_A : key; bp_S : key; bp_T1 : key; bp_T2 : key; bp_taux : key; bp_mu : key;
  bp_L : list key; bp_R : list key; bp_a : key; bp_b : key; bp_t : key }.

Definition RCTTypeNull : Z := 0.
Definition RCTTypeFull : Z := 1.
Definition RCTTypeSimple : Z := 2.
Definition RCTTypeFullBulletproof : Z := 3.
Definition RCTTypeSimpleBulletproof : Z := 4.

Record rctSigBase := RctSigBase {
  rct_type : Z;
  message : key;
  mixRing : list (list ctkey);
  pseudoOuts : list key;
  ecdhInfo : list ecdhTuple;
  outPk : list ctkey;
  txnFee : Z }.

Record rctSigPrunable := RctSigPrunable {
  rangeSigs : list rangeSig;
  bulletproofs : list Bulletproof;
  MGs : list mgSig;
  p_pseudoOuts : list key }.

Record rctSig := RctSig { base : rctSigBase; prunable : rctSigPrunable }.

(** ** The code *)

(** [while (val != 0) { amounth[i] = val & 0xFF; i++; val /= 256; }]; the loop ends or leaves
    the array before the fuel does. *)
Fixpoint d2h_loop (fuel : nat) (amounth : key) (i : nat) (val : Z) : option key :=
  match fuel with
  | O => None
  | S fuel =>
      if val =? 0 then Some amounth
      else
        let! amounth := aset amounth i (Z.land val 255) in
        d2h_loop fuel amounth (S i) (val / 256)
  end.

Definition d2h (val : Z) : option key := d2h_loop 33 sc_0 0 val.

(** [while (val != 0) { amountb[i] = val & 1; i++; val >>= 1; }] *)
Fixpoint d2b_loop (fuel : nat) (amountb : list Z) (val : Z) : option (list Z) :=
  match fuel with
  | O => None
  | S fuel =>
      if val =? 0 then Some amountb
      else if (length amountb <? 64)%nat then d2b_loop fuel (amountb ++ [Z.land val 1]) (Z.shiftr val 1)
      else None
  end.

Definition d2b (val : Z) : option (list Z) :=
  let! amountb := d2b_loop 65 [] val in
  Some (amountb ++ repeat 0 (64 - length amountb)).

(** [for (j = 7; j >= 0; j--) vali = vali * 256 + test.bytes[j];] *)
Definition h2d (test : key) : option Z :=
  foldM (fun vali j => let! b := nth_error test j in Some (u64 (vali * 256 + b))) [7; 6; 5; 4; 3; 2; 1; 0]%nat 0.

(** The bits of the byte [val], written from position [8 * j] on. *)
Fixpoint byte_bits (fuel : nat) (amountb2 : list Z) (val : Z) : option (list Z) :=
  match fuel with
  | O => None
  | S fuel => if val =? 0 then Some amountb2 else byte_bits fuel (amountb2 ++ [Z.land val 1]) (Z.shiftr val 1)
  end.

Definition h2b (test : key) : option (list Z) :=
  foldM (fun amountb2 j =>
    let! val := nth_error test j in
    let! amountb2 := byte_bits 9 amountb2 val in
    Some (amountb2 ++ repeat 0 (8 * (j + 1) - length amountb2))) (seq 0 8) [].

(** [byte = 0; for (i = 7; i > -1; i--) byte = byte * 2 + amountb2[8 * j + i];] *)
Definition bits_byte (amountb2 : list Z) (j : nat) : option Z :=
  let! byte := foldM (fun byte i => let! b := nth_error amountb2 (8 * j + i) in Some (byte * 2 + b))
    [7; 6; 5; 4; 3; 2; 1; 0]%nat 0 in
  Some (u8 byte).

Definition b2h (amountb2 : list Z) : option key :=
  let! bs := mapM (bits_byte amountb2) (seq 0 8) in
  Some (bs ++ repeat 0 24).

Definition b2d (amountb : list Z) : option Z :=
  foldM (fun vali j => let! b := nth_error amountb j in Some (u64 (vali * 2 + b))) (rev (seq 0 64)) 0.

(** ** Values of amounts *)

(** The [n] lowest bits of a number. *)
Definition le_bits (n : nat) (v : Z) : list Z := map (fun i => (v / 2 ^ Z.of_nat i) mod 2) (seq 0 n).

Lemma length_le_bits n v : length (le_bits n v) = n.
Proof. unfold le_bits. now rewrite length_map, length_seq. Qed.

Lemma le_bits_S n v : le_bits (S n) v = v mod 2 :: le_bits n (v / 2).
Proof.
  unfold le_bits. cbn [seq map]. rewrite Z.pow_0_r, Z.div_1_r. f_equal. rewrite <- seq_shift, map_map.
  apply map_ext. intros i. rewrite Nat2Z.inj_succ, Z.pow_succ_r by lia. now rewrite Z.div_div by lia.
Qed.

Lemma le_bits_0 n : le_bits n 0 = repeat 0 n.
Proof. induction n as [|n IH]; [reflexivity|]. rewrite le_bits_S. cbn [repeat]. now f_equal. Qed.

Lemma nth_le_bits n v i : (i < n)%nat -> nth_error (le_bits n v) i = Some ((v / 2 ^ Z.of_nat i) mod 2).
Proof.
  intros Hi. unfold le_bits. rewrite nth_error_map, nth_error_seq. now rewrite (proj2 (Nat.ltb_lt i n) Hi).
Qed.

Lemma le_bits_digits n v : Forall (fun d => 0 <= d < 2) (le_bits n v).
Proof.
  apply Forall_forall. intros d Hd. unfold le_bits in Hd. apply in_map_iff in Hd as (i & <- & _). apply Z.mod_pos_bound. lia.
Qed.

Lemma land_1 v : 0 <= v -> Z.land v 1 = v mod 2.
Proof. intros Hv. change 1 with (Z.ones 1). now rewrite Z.land_ones by lia. Qed.

Lemma shiftr_1 v : Z.shiftr v 1 = v / 2.
Proof. now rewrite Z.shiftr_div_pow2 by lia. Qed.

Lemma half_range v n : 0 <= v < 2 ^ Z.of_nat (S n) -> 0 <= v / 2 < 2 ^ Z.of_nat n.
Proof.
  rewrite Nat2Z.inj_succ, Z.pow_succ_r by lia. intros [H0 H1].
  split; [now apply Z.div_pos | apply Z.div_lt_upper_bound; lia].
Qed.

Lemma le_bytes_S n v : le_bytes (S n) v = v mod 256 :: le_bytes n (v / 256).
Proof. reflexivity. Qed.

Lemma le_bytes_0 n : le_bytes n 0 = repeat 0 n.
Proof. induction n as [|n IH]; [reflexivity|]. rewrite le_bytes_S. cbn [repeat]. now f_equal. Qed.

Lemma byte_range v n : 0 <= v < 256 ^ Z.of_nat (S n) -> 0 <= v / 256 < 256 ^ Z.of_nat n.
Proof.
  rewrite Nat2Z.inj_succ, Z.pow_succ_r by lia. intros [H0 H1].
  split; [now apply Z.div_pos | apply Z.div_lt_upper_bound; lia].
Qed.

Lemma d2h_loop_spec n fuel pre val :
  (n < fuel)%nat -> 0 <= val < 256 ^ Z.of_nat n ->
  d2h_loop fuel (pre ++ repeat 0 n) (length pre) val = Some (pre ++ le_bytes n val).
Proof.
  revert fuel pre val. induction n as [|n IH]; intros fuel pre val Hf Hv; destruct fuel as [|fuel]; try lia; cbn [d2h_loop].
  - assert (val = 0) as -> by (change (256 ^ Z.of_nat 0) with 1 in Hv; lia). reflexivity.
  - destruct (Z.eqb_spec val 0) as [->|Nz]; [now rewrite le_bytes_0|]. cbn [repeat]. rewrite aset_middle. cbn [bind].
    change 255 with (Z.ones 8). rewrite Z.land_ones by lia. change (2 ^ 8) with 256.
    replace (pre ++ val mod 256 :: repeat 0 n) with ((pre ++ [val mod 256]) ++ repeat 0 n) by now rewrite <- app_assoc.
    replace (S (length pre)) with (length (pre ++ [val mod 256])) by (rewrite length_app; cbn [length]; lia).
    rewrite IH by (lia || now apply byte_range). now rewrite le_bytes_S, <- app_assoc.
Qed.

Lemma d2h_spec v : 0 <= v < 2 ^ 256 -> d2h v = Some (le_bytes 32 v).
Proof. intros Hv. apply (d2h_loop_spec 32 33 []); [lia|]. exact Hv. Qed.

Lemma d2b_loop_spec n fuel pre val :
  (n < fuel)%nat -> (length pre + n = 64)%nat -> 0 <= val < 2 ^ Z.of_nat n ->
  exists l, d2b_loop fuel pre val = Some l /\ l ++ repeat 0 (64 - length l) = pre ++ le_bits n val.
Proof.
  revert fuel pre val. induction n as [|n IH]; intros fuel pre val Hf Hl Hv; destruct fuel as [|fuel]; try lia; cbn [d2b_loop].
  - assert (val = 0) as -> by (change (2 ^ Z.of_nat 0) with 1 in Hv; lia). exists pre. split; [reflexivity|].
    replace (64 - length pre)%nat with 0%nat by lia. reflexivity.
  - destruct (Z.eqb_spec val 0) as [->|Nz].
    + exists pre. rewrite le_bits_0. now replace (64 - length pre)%nat with (S n) by lia.
    + rewrite (proj2 (Nat.ltb_lt _ _)) by lia. rewrite land_1, shiftr_1 by lia.
      destruct (IH fuel (pre ++ [val mod 2]) (val / 2)) as (l & E & El); [lia | rewrite length_app; cbn; lia | now apply half_range|].
      exists l. split; [exact E|]. now rewrite El, le_bits_S, <- app_assoc.
Qed.

Lemma d2b_spec v : 0 <= v < 2 ^ 64 -> d2b v = Some (le_bits 64 v).
Proof.
  intros Hv. unfold d2b. destruct (d2b_loop_spec 64 65 [] v) as (l & -> & E); [lia | reflexivity | exact Hv|].
  cbn [bind app] in *. now rewrite E.
Qed.

(** ** Reading numbers back *)

Lemma firstn_next {A} (l : list A) n b : nth_error l n = Some b -> firstn (S n) l = firstn n l ++ [b].
Proof.
  revert n. induction l as [|x l IH]; intros [|n]; cbn [nth_error firstn app]; try discriminate; [now intros [= ->]|].
  intros E. f_equal. now apply IH.
Qed.

Lemma foldM_ext {A B} (f g : A -> B -> option A) l y :
  (forall x y, In x l -> f y x = g y x) -> foldM f l y = foldM g l y.
Proof.
  revert y. induction l as [|x l IH]; intros y H; cbn [foldM]; [reflexivity|]. rewrite H by now left.
  destruct (g y x) as [z|]; cbn [bind]; [|reflexivity]. apply IH. intros; apply H; now right.
Qed.

Lemma horner_app B a b : horner B (a ++ b) = horner B a + B ^ Z.of_nat (length a) * horner B b.
Proof.
  induction a as [|d a IH]; cbn [app horner length]; [change (Z.of_nat 0) with 0; rewrite Z.pow_0_r; lia|].
  rewrite IH, Nat2Z.inj_succ, Z.pow_succ_r by lia. lia.
Qed.

Lemma fold_digits (w : Z -> Z) M B l n v :
  (forall x, 0 <= x < M -> w x = x) -> 1 <= B -> Forall (fun d => 0 <= d < B) l -> (n <= length l)%nat ->
  0 <= v -> (v + 1) * B ^ Z.of_nat n <= M ->
  foldM (fun v j => let! b := nth_error l j in Some (w (v * B + b))) (rev (seq 0 n)) v
    = Some (v * B ^ Z.of_nat n + horner B (firstn n l)).
Proof.
  intros Hw HB Hl. revert v. induction n as [|n IH]; intros v Hn Hv HM.
  - cbn. f_equal. lia.
  - rewrite seq_S, rev_app_distr. cbn [rev app Nat.add foldM].
    destruct (nth_error l n) as [b|] eqn:Eb; [|apply nth_error_None in Eb; lia]. cbn [bind].
    assert (0 <= b < B) as Hb by exact (proj1 (Forall_forall _ _) Hl b (nth_error_In l n Eb)).
    rewrite Nat2Z.inj_succ, Z.pow_succ_r in HM |- * by lia.
    assert (1 <= B ^ Z.of_nat n) as HP by (pose proof (Z.pow_pos_nonneg B (Z.of_nat n)); lia).
    rewrite Hw by nia. rewrite IH by (lia || nia). f_equal.
    rewrite (firstn_next l n b Eb).
    rewrite horner_app, length_firstn, Nat.min_l by lia. cbn [horner]. lia.
Qed.

Lemma horner_le_val s : horner 256 s = le_val s.
Proof. induction s as [|d s IH]; [reflexivity|]. cbn [horner le_val]. now rewrite IH. Qed.

Lemma horner_le_bits n v : 0 <= v -> horner 2 (le_bits n v) = v mod 2 ^ Z.of_nat n.
Proof.
  revert v. induction n as [|n IH]; intros v Hv; [now rewrite Z.mod_1_r|]. rewrite le_bits_S. cbn [horner].
  rewrite IH by now apply Z.div_pos. rewrite Nat2Z.inj_succ, Z.pow_succ_r by lia.
  rewrite Z.rem_mul_r by (try apply Z.pow_pos_nonneg; lia). reflexivity.
Qed.

Lemma le_bits_app a b v : le_bits (a + b) v = le_bits a v ++ le_bits b (v / 2 ^ Z.of_nat a).
Proof.
  revert v. induction a as [|a IH]; intros v; [cbn; now rewrite Z.div_1_r|].
  cbn [Nat.add app]. rewrite !le_bits_S, IH, Nat2Z.inj_succ, Z.pow_succ_r by lia. cbn [app].
  now rewrite Z.div_div by lia.
Qed.

Lemma bits_of_bytes n v : le_bits (8 * n) v = concat (map (le_bits 8) (le_bytes n v)).
Proof.
  revert v. induction n as [|n IH]; intros v; [reflexivity|]. rewrite le_bytes_S. cbn [map concat].
  replace (8 * S n)%nat with (8 + 8 * n)%nat by lia. rewrite le_bits_app, IH. f_equal.
  unfold le_bits. apply map_ext_in. intros i Hi%in_seq. change 256 with (2 ^ 8).
  rewrite <- !Z.testbit_spec' by lia. now rewrite testbit_mod_low by lia.
Qed.

Lemma byte_bits_spec n fuel pre val :
  (n < fuel)%nat -> 0 <= val < 2 ^ Z.of_nat n ->
  exists l, byte_bits fuel pre val = Some l /\ l ++ repeat 0 (length pre + n - length l) = pre ++ le_bits n val.
Proof.
  revert fuel pre val. induction n as [|n IH]; intros fuel pre val Hf Hv; destruct fuel as [|fuel]; try lia; cbn [byte_bits].
  - assert (val = 0) as -> by (change (2 ^ Z.of_nat 0) with 1 in Hv; lia). exists pre. split; [reflexivity|].
    replace (length pre + 0 - length pre)%nat with 0%nat by lia. reflexivity.
  - destruct (Z.eqb_spec val 0) as [->|Nz].
    + exists pre. rewrite le_bits_0. now replace (length pre + S n - length pre)%nat with (S n) by lia.
    + rewrite land_1, shiftr_1 by lia.
      destruct (IH fuel (pre ++ [val mod 2]) (val / 2)) as (l & E & El); [lia | now apply half_range|].
      exists l. split; [exact E|]. rewrite length_app in El. cbn [length] in El.
      replace (length pre + S n - length l)%nat with (length pre + 1 + n - length l)%nat by lia.
      now rewrite El, le_bits_S, <- app_assoc.
Qed.

Lemma h2d_spec h : bytes h -> (8 <= length h)%nat -> h2d h = Some (le_val h mod 2 ^ 64).
Proof.
  intros Hb Hl. unfold h2d. change [7; 6; 5; 4; 3; 2; 1; 0]%nat with (rev (seq 0 8)).
  rewrite (fold_digits u64 (2 ^ 64)); trivial; try lia; [|exact u64_small].
  f_equal. rewrite Z.mul_0_l, Z.add_0_l, horner_le_val, le_val_firstn by (trivial; lia). reflexivity.
Qed.

Lemma h2b_spec h : bytes h -> (8 <= length h)%nat -> h2b h = Some (concat (map (le_bits 8) (firstn 8 h))).
Proof.
  intros Hb Hl. apply returns_eq. unfold h2b.
  eapply returns_weaken; [apply (foldM_seq (fun i l => l = concat (map (le_bits 8) (firstn i h)) /\ length l = (8 * i)%nat))|].
  - now split.
  - intros i l Hi [-> El]. destruct (nth_error h i) as [b|] eqn:Eb; [|apply nth_error_None in Eb; lia]. cbn [bind].
    assert (is_byte b) as Hbb by exact (proj1 (Forall_forall _ _) Hb b (nth_error_In h i Eb)).
    destruct (byte_bits_spec 8 9 (concat (map (le_bits 8) (firstn i h))) b) as (l & -> & E); [lia | exact Hbb|]. cbn [bind returns].
    rewrite El in E. replace (8 * (i + 1))%nat with (8 * i + 8)%nat by lia. rewrite E. split.
    + rewrite (firstn_next h i b Eb), map_app, concat_app. cbn [map concat]. now rewrite app_nil_r.
    + rewrite length_app, El, length_le_bits. lia.
  - cbv beta. intros l [-> _]. reflexivity.
Qed.

Lemma bits_byte_spec v j : 0 <= v -> (j < 8)%nat -> bits_byte (le_bits 64 v) j = Some ((v / 256 ^ Z.of_nat j) mod 256).
Proof.
  intros Hv Hj. unfold bits_byte. change [7; 6; 5; 4; 3; 2; 1; 0]%nat with (rev (seq 0 8)).
  set (x := v / 2 ^ Z.of_nat (8 * j)).
  assert (forall i, (i < 8)%nat -> nth_error (le_bits 64 v) (8 * j + i) = nth_error (le_bits 8 x) i) as En.
  { intros i Hi. rewrite !nth_le_bits by lia. unfold x. rewrite Nat2Z.inj_add, Z.pow_add_r by lia. now rewrite Z.div_div by lia. }
  rewrite (foldM_ext _ (fun byte i => let! b := nth_error (le_bits 8 x) i in Some (byte * 2 + b))).
  2: { intros i y Hi%in_rev%in_seq. now rewrite En by lia. }
  rewrite (fold_digits (fun y => y) 256 2); [|trivial|lia| |now rewrite length_le_bits|lia|lia].
  2: { apply le_bits_digits. }
  cbn [bind]. rewrite firstn_all2 by now rewrite length_le_bits. rewrite horner_le_bits.
  2: { apply Z.div_pos; [exact Hv|]. apply Z.pow_pos_nonneg; lia. }
  cbn [Z.mul Z.add]. unfold u8, x. rewrite Z.mod_mod by lia. rewrite Nat2Z.inj_mul, Z.pow_mul_r by lia. reflexivity.
Qed.

Lemma b2h_spec v : 0 <= v < 2 ^ 64 -> b2h (le_bits 64 v) = Some (le_bytes 32 v).
Proof.
  intros Hv. unfold b2h. rewrite (mapM_map _ (fun j => (v / 256 ^ Z.of_nat j) mod 256)).
  2: { intros j Hj%in_seq. apply bits_byte_spec; lia. }
  cbn [bind]. f_equal. change (le_bytes 32 v) with (le_bytes (8 + 24) v).
  assert (forall a b x, le_bytes (a + b) x = le_bytes a x ++ le_bytes b (x / 256 ^ Z.of_nat a)) as App.
  { induction a as [|a IH]; intros b x; [cbn; now rewrite Z.div_1_r|]. cbn [Nat.add app]. rewrite !le_bytes_S, IH, Nat2Z.inj_succ, Z.pow_succ_r by lia.
    cbn [app]. now rewrite Z.div_div by lia. }
  rewrite App, (Z.div_small v) by exact Hv. rewrite le_bytes_0. f_equal.
  cbn [seq map le_bytes]. rewrite !Z.div_div by lia. now rewrite Z.pow_0_r, Z.div_1_r.
Qed.

Lemma b2d_spec v : 0 <= v < 2 ^ 64 -> b2d (le_bits 64 v) = Some v.
Proof.
  intros Hv. unfold b2d. rewrite (fold_digits u64 (2 ^ 64) 2); try lia; [|exact u64_small | apply le_bits_digits | now rewrite length_le_bits].
  rewrite firstn_all2 by now rewrite length_le_bits. rewrite horner_le_bits by lia. f_equal. rewrite Z.mod_small by exact Hv. lia.
Qed.

(** Amounts, keys and bits: the conversions of an amount of 64 bits return, those between two
    formats are inverse to each other, and the value of a key that is larger is the one of its
    first 8 bytes. *)
Theorem amount_conversions v :
  0 <= v < 2 ^ 64 ->
  exists h b, d2h v = Some h /\ d2b v = Some b /\ bytes h /\ length h = 32%nat /\ le_val h = v /\
    length b = 64%nat /\ Forall (fun d => d = 0 \/ d = 1) b /\
    h2d h = Some v /\ b2d b = Some v /\ h2b h = Some b /\ b2h b = Some h /\
    forall k, bytes k -> length k = 32%nat -> h2d k = Some (le_val k mod 2 ^ 64).
Proof.
  intros Hv. exists (le_bytes 32 v), (le_bits 64 v).
  split; [apply d2h_spec; lia|]. split; [now apply d2b_spec|]. split; [apply bytes_le_bytes|]. split; [apply length_le_bytes|].
  assert (le_val (le_bytes 32 v) = v) as Ev by (rewrite le_val_le_bytes; apply Z.mod_small; change (256 ^ Z.of_nat 32) with (2 ^ 256); lia).
  split; [exact Ev|]. split; [apply length_le_bits|].
  split; [eapply Forall_impl; [|apply le_bits_digits]; cbv beta; intros; lia|].
  assert (forall k, bytes k -> length k = 32%nat -> h2d k = Some (le_val k mod 2 ^ 64)) as Hk by (intros k Hb Hl; apply h2d_spec; lia || trivial).
  split; [rewrite Hk, Ev, Z.mod_small by (trivial using bytes_le_bytes, length_le_bytes); reflexivity|].
  split; [now apply b2d_spec|]. split; [|split; [now apply b2h_spec | exact Hk]].
  rewrite h2b_spec by (apply bytes_le_bytes || (rewrite length_le_bytes; lia)). f_equal.
  change 64%nat with (8 * 8)%nat. rewrite bits_of_bytes. reflexivity.
Qed.
