(* ===== verification/RctTable.v ===== *)
(** * The second base point of RingCT

    The constants [H] and [H2] of rctTypes.h: an encoded point and its multiples by powers of
    two. The multiples are checked with [BigZ], from the x-coordinates of the points. *)

From Stdlib Require Import ZArith Lia List Bool Zmod.
From Bignums Require Import BigZ.
From S2P Require Import Prelude Bytes Fe FeMul Primes ScReduce Sc Curve Ge GeBytes GeScalar GeTable GeBase GeDouble Order Encode RctTypes.
Import ListNotations.

#[local] Open Scope Z_scope.

(** ** The code *)

Definition rct_H : key :=
  [139; 101; 89; 112; 21; 55; 153; 175; 42; 234; 220; 159; 241; 173; 208; 234; 108; 114; 81; 213; 65; 84; 207; 169; 44; 23; 58; 13; 211; 156; 31; 148].

Definition rct_H2 : list key := [
  [139; 101; 89; 112; 21; 55; 153; 175; 42; 234; 220; 159; 241; 173; 208; 234; 108; 114; 81; 213; 65; 84; 207; 169; 44; 23; 58; 13; 211; 156; 31; 148];
  [143; 170; 68; 138; 228; 179; 226; 187; 61; 77; 19; 9; 9; 245; 95; 205; 121; 113; 28; 28; 131; 205; 188; 202; 221; 66; 203; 225; 81; 94; 135; 18];
  [18; 167; 214; 44; 119; 145; 101; 74; 87; 243; 230; 118; 148; 237; 80; 180; 154; 125; 158; 63; 193; 228; 199; 160; 189; 226; 157; 24; 126; 156; 199; 29];
  [120; 154; 185; 147; 75; 73; 196; 249; 230; 120; 92; 109; 87; 164; 152; 179; 234; 212; 67; 240; 79; 19; 223; 17; 12; 84; 39; 180; 242; 20; 199; 57];
  [119; 30; 146; 153; 217; 79; 2; 172; 114; 227; 142; 68; 222; 86; 138; 193; 220; 178; 237; 198; 237; 182; 31; 131; 202; 65; 142; 16; 119; 206; 61; 232];
  [115; 185; 109; 180; 48; 57; 129; 155; 218; 245; 104; 14; 92; 50; 215; 65; 72; 136; 132; 209; 141; 147; 134; 109; 64; 116; 168; 73; 24; 42; 138; 100];
  [141; 69; 142; 28; 47; 104; 235; 235; 204; 210; 253; 93; 55; 159; 94; 88; 248; 19; 77; 243; 224; 232; 140; 173; 61; 70; 112; 16; 99; 168; 212; 18];
  [9; 85; 30; 219; 228; 148; 65; 142; 129; 40; 68; 85; 214; 75; 53; 238; 138; 192; 147; 6; 138; 95; 22; 31; 166; 99; 117; 89; 23; 126; 244; 4];
  [208; 90; 136; 102; 244; 223; 140; 238; 30; 38; 139; 29; 35; 164; 197; 140; 146; 231; 96; 48; 151; 134; 205; 172; 15; 237; 161; 210; 71; 169; 201; 167];
  [85; 205; 170; 213; 24; 189; 135; 29; 209; 235; 123; 199; 2; 62; 29; 192; 253; 243; 51; 152; 100; 248; 143; 221; 45; 226; 105; 254; 158; 225; 131; 45];
  [231; 105; 126; 149; 26; 152; 207; 213; 113; 43; 132; 187; 229; 243; 78; 215; 51; 233; 71; 63; 203; 104; 237; 166; 110; 55; 136; 223; 25; 88; 195; 6];
  [249; 42; 151; 11; 174; 114; 120; 41; 137; 191; 200; 58; 223; 170; 146; 164; 244; 156; 126; 149; 145; 139; 59; 186; 60; 220; 127; 232; 138; 204; 141; 71];
  [31; 102; 194; 212; 145; 215; 90; 249; 21; 200; 219; 106; 109; 28; 176; 205; 79; 125; 220; 213; 230; 61; 59; 169; 184; 60; 134; 108; 57; 239; 58; 43];
  [62; 236; 152; 132; 180; 63; 88; 233; 62; 248; 222; 234; 38; 0; 4; 239; 234; 42; 70; 52; 79; 197; 150; 91; 26; 125; 213; 209; 137; 151; 239; 167];
  [178; 159; 143; 12; 203; 150; 151; 127; 231; 119; 212; 137; 214; 190; 158; 126; 188; 25; 196; 9; 181; 16; 53; 104; 242; 119; 97; 29; 126; 168; 72; 148];
  [86; 177; 245; 18; 101; 185; 85; 152; 118; 213; 141; 36; 157; 12; 20; 109; 105; 161; 3; 99; 102; 153; 135; 77; 63; 144; 71; 53; 80; 254; 63; 44];
  [29; 122; 54; 87; 94; 34; 245; 209; 57; 255; 156; 197; 16; 250; 19; 133; 5; 87; 107; 99; 129; 90; 148; 228; 176; 18; 191; 212; 87; 202; 170; 218];
  [208; 172; 80; 122; 134; 78; 205; 5; 147; 250; 103; 190; 125; 35; 19; 67; 146; 208; 14; 64; 7; 226; 83; 72; 120; 217; 178; 66; 225; 13; 118; 32];
  [246; 198; 132; 11; 156; 241; 69; 187; 45; 204; 248; 110; 148; 11; 224; 252; 9; 142; 50; 227; 16; 153; 213; 111; 127; 224; 135; 189; 93; 235; 80; 148];
  [40; 131; 26; 51; 64; 7; 14; 177; 219; 135; 193; 46; 5; 152; 13; 95; 51; 233; 239; 144; 248; 58; 72; 23; 201; 244; 160; 163; 50; 39; 225; 151];
  [135; 99; 34; 115; 214; 41; 204; 183; 225; 237; 26; 118; 143; 162; 235; 213; 23; 96; 243; 46; 28; 11; 134; 122; 93; 54; 141; 82; 113; 5; 92; 110];
  [92; 123; 41; 66; 67; 71; 150; 77; 4; 39; 85; 23; 197; 174; 20; 182; 181; 234; 39; 152; 181; 115; 252; 148; 230; 228; 74; 83; 33; 96; 12; 251];
  [230; 148; 80; 66; 215; 139; 194; 195; 189; 110; 197; 140; 81; 26; 159; 232; 89; 192; 173; 99; 253; 228; 148; 245; 3; 158; 14; 130; 50; 97; 43; 213];
  [54; 213; 105; 7; 226; 236; 116; 93; 182; 229; 79; 11; 46; 27; 35; 0; 171; 203; 66; 46; 113; 45; 165; 136; 164; 13; 63; 30; 187; 190; 2; 246];
  [52; 219; 110; 228; 208; 96; 142; 95; 120; 54; 80; 73; 90; 59; 47; 82; 115; 197; 19; 78; 82; 132; 228; 253; 249; 102; 39; 187; 22; 227; 30; 107];
  [142; 118; 89; 251; 69; 163; 120; 125; 103; 74; 232; 103; 49; 250; 162; 83; 142; 192; 253; 244; 66; 171; 38; 233; 199; 145; 250; 218; 8; 148; 103; 233];
  [48; 6; 207; 25; 139; 36; 243; 27; 180; 199; 230; 52; 96; 0; 171; 199; 1; 232; 39; 207; 187; 93; 245; 45; 207; 164; 46; 156; 169; 255; 8; 2];
  [245; 253; 64; 60; 182; 232; 190; 33; 71; 46; 55; 127; 253; 128; 90; 140; 96; 131; 234; 72; 3; 184; 72; 83; 137; 204; 62; 188; 33; 95; 0; 42];
  [55; 49; 178; 96; 235; 63; 148; 130; 228; 95; 28; 63; 59; 157; 207; 131; 75; 117; 230; 238; 248; 196; 15; 70; 30; 162; 126; 139; 110; 217; 71; 61];
  [159; 157; 171; 9; 195; 245; 228; 40; 85; 194; 222; 151; 27; 101; 147; 40; 162; 219; 196; 84; 132; 95; 57; 111; 252; 5; 63; 11; 177; 146; 248; 195];
  [94; 5; 93; 37; 248; 95; 219; 152; 242; 115; 228; 175; 224; 132; 100; 192; 3; 183; 15; 30; 240; 103; 123; 181; 226; 87; 6; 64; 11; 230; 32; 165];
  [134; 139; 207; 54; 121; 203; 107; 80; 11; 148; 65; 140; 11; 137; 37; 249; 134; 85; 48; 48; 58; 228; 228; 178; 98; 89; 24; 101; 102; 106; 69; 144];
  [179; 219; 107; 211; 137; 122; 251; 209; 223; 63; 150; 68; 171; 33; 200; 5; 14; 31; 0; 56; 165; 47; 124; 169; 90; 192; 195; 222; 117; 88; 203; 122];
  [129; 25; 179; 160; 89; 255; 44; 172; 72; 62; 105; 188; 212; 29; 109; 39; 20; 148; 71; 145; 66; 136; 187; 234; 238; 52; 19; 230; 220; 198; 209; 235];
  [16; 252; 88; 243; 95; 199; 254; 122; 232; 117; 82; 75; 181; 133; 0; 3; 0; 91; 127; 151; 140; 12; 101; 226; 169; 101; 70; 75; 109; 0; 129; 156];
  [90; 205; 148; 235; 60; 87; 131; 121; 193; 234; 88; 163; 67; 236; 79; 207; 249; 98; 119; 111; 227; 85; 33; 228; 117; 160; 224; 109; 136; 123; 45; 185];
  [51; 218; 243; 162; 20; 214; 224; 212; 45; 35; 0; 167; 180; 75; 57; 41; 13; 184; 152; 155; 66; 121; 116; 205; 134; 93; 176; 17; 5; 90; 41; 1];
  [207; 198; 87; 47; 41; 175; 209; 100; 164; 148; 230; 78; 111; 26; 235; 130; 12; 62; 125; 163; 85; 20; 78; 81; 36; 163; 145; 208; 110; 159; 149; 234];
  [213; 49; 42; 75; 14; 246; 21; 163; 49; 246; 53; 44; 46; 210; 29; 172; 158; 124; 54; 57; 139; 147; 154; 236; 144; 28; 37; 127; 108; 188; 158; 142];
  [85; 29; 103; 254; 252; 123; 91; 159; 159; 219; 246; 175; 87; 201; 108; 138; 116; 215; 228; 90; 0; 32; 120; 167; 181; 186; 69; 198; 253; 233; 62; 51];
  [213; 10; 199; 189; 92; 165; 147; 198; 86; 146; 143; 56; 66; 128; 23; 252; 123; 165; 2; 133; 76; 67; 216; 65; 73; 80; 233; 110; 203; 64; 93; 195];
  [7; 115; 225; 142; 161; 190; 68; 254; 26; 151; 226; 57; 87; 60; 250; 227; 228; 233; 94; 249; 170; 159; 170; 190; 172; 18; 116; 211; 173; 38; 22; 4];
  [233; 175; 14; 124; 168; 147; 48; 210; 184; 97; 93; 27; 65; 55; 202; 97; 126; 33; 41; 127; 47; 13; 237; 142; 49; 183; 210; 234; 216; 113; 70; 96];
  [123; 18; 69; 131; 9; 127; 16; 41; 160; 199; 65; 145; 254; 115; 120; 201; 16; 90; 204; 112; 102; 149; 237; 20; 147; 187; 118; 3; 66; 38; 165; 123];
  [236; 64; 5; 123; 153; 84; 118; 101; 11; 61; 185; 142; 157; 183; 87; 56; 168; 205; 47; 148; 216; 99; 185; 6; 21; 12; 86; 170; 193; 156; 170; 107];
  [1; 217; 255; 114; 158; 253; 57; 216; 55; 132; 192; 254; 89; 196; 174; 129; 166; 112; 52; 203; 83; 201; 67; 251; 129; 139; 157; 138; 231; 252; 51; 229];
  [0; 223; 179; 198; 150; 50; 140; 118; 66; 69; 25; 167; 190; 254; 142; 15; 108; 118; 249; 71; 181; 39; 103; 145; 109; 36; 130; 63; 115; 91; 175; 46];
  [70; 27; 121; 155; 77; 156; 238; 168; 213; 128; 220; 183; 109; 17; 21; 13; 83; 94; 22; 57; 209; 96; 3; 195; 251; 126; 157; 31; 209; 48; 131; 168];
  [238; 3; 3; 148; 121; 229; 34; 143; 220; 85; 28; 189; 231; 7; 157; 52; 18; 234; 24; 106; 81; 124; 204; 99; 228; 110; 159; 204; 228; 254; 58; 108];
  [168; 207; 181; 67; 82; 78; 127; 2; 185; 240; 69; 172; 213; 67; 194; 28; 55; 59; 76; 155; 152; 172; 32; 206; 196; 23; 166; 221; 181; 116; 78; 148];
  [147; 43; 121; 75; 248; 156; 110; 218; 245; 208; 101; 12; 124; 75; 173; 146; 66; 178; 86; 38; 227; 126; 173; 90; 167; 94; 200; 198; 78; 9; 221; 79];
  [22; 177; 12; 119; 156; 229; 207; 239; 89; 199; 113; 13; 46; 104; 68; 30; 166; 250; 203; 104; 233; 181; 247; 213; 51; 174; 11; 183; 142; 40; 191; 87];
  [15; 119; 199; 103; 67; 231; 57; 111; 153; 16; 19; 159; 73; 55; 216; 55; 174; 84; 226; 16; 56; 172; 92; 11; 63; 214; 239; 23; 26; 40; 167; 228];
  [215; 229; 116; 183; 185; 82; 242; 147; 232; 13; 222; 144; 94; 181; 9; 55; 63; 63; 108; 209; 9; 160; 34; 8; 179; 193; 233; 36; 8; 10; 32; 202];
  [69; 102; 111; 140; 56; 30; 61; 166; 117; 86; 63; 248; 186; 35; 248; 59; 250; 195; 12; 52; 171; 221; 230; 229; 192; 151; 94; 249; 253; 112; 12; 185];
  [178; 70; 18; 228; 84; 96; 126; 177; 171; 164; 71; 248; 22; 209; 164; 85; 30; 249; 95; 167; 36; 127; 183; 193; 245; 3; 2; 10; 113; 119; 240; 221];
  [126; 32; 136; 97; 133; 109; 164; 44; 139; 180; 106; 117; 103; 248; 18; 19; 98; 217; 251; 36; 150; 241; 49; 164; 170; 144; 23; 207; 54; 108; 223; 206];
  [91; 100; 107; 255; 106; 209; 16; 1; 101; 3; 122; 5; 86; 1; 234; 2; 53; 140; 15; 65; 5; 15; 157; 254; 60; 149; 220; 203; 211; 8; 123; 224];
  [116; 109; 29; 204; 254; 210; 240; 255; 30; 19; 197; 30; 45; 80; 213; 50; 67; 117; 251; 213; 191; 124; 168; 42; 137; 49; 130; 141; 128; 29; 67; 171];
  [203; 152; 17; 13; 74; 107; 185; 125; 34; 254; 173; 188; 108; 13; 137; 48; 197; 248; 252; 80; 139; 47; 197; 179; 83; 40; 210; 107; 136; 219; 25; 174];
  [96; 182; 38; 160; 51; 181; 95; 39; 215; 103; 108; 64; 149; 234; 186; 188; 122; 44; 126; 222; 38; 36; 180; 114; 233; 127; 100; 249; 107; 140; 252; 14];
  [229; 181; 43; 201; 39; 70; 141; 247; 24; 147; 235; 129; 151; 239; 130; 12; 247; 108; 176; 170; 246; 232; 228; 254; 147; 173; 98; 216; 3; 152; 49; 4];
  [5; 101; 65; 174; 93; 169; 150; 27; 226; 176; 165; 232; 149; 229; 197; 186; 21; 60; 187; 98; 221; 86; 26; 66; 123; 173; 15; 253; 65; 146; 49; 153];
  [248; 254; 240; 90; 63; 165; 201; 243; 235; 164; 22; 56; 178; 71; 183; 17; 169; 159; 150; 15; 231; 58; 162; 249; 1; 54; 174; 178; 3; 41; 184; 136]].

(** The x-coordinates of the points. *)
Definition H2_x : list Z := [
  44115840154693352731557989475342686826820046586146704265789981914775973517427;
  21887502907852327512161645864292694872593502520628969212237600592913256965730;
  41588944903280473071715959327419035112949396200362177688321681581243820540558;
  24462944360703661855804003447120648570478666629264811155506725847509989995922;
  34736432599419345002075668718594423595422573033361693832907570018378399496671;
  5035696844832586922582584478686745869458741122240005196150197282005161362970;
  8791637206177435063168150332781165970727062219171811828526002389578666362064;
  44882878918884453110191118899098714916143033732634125371304788157271779206644;
  9217263585868509733179310401531949339824061003410897985333169323893767985271;
  11587341316027925284725312109808036020833103907048540189469990259331159815446;
  18879868485482183688684621164973113391561606989557349041600957441324455033754;
  50259519091485564485983747384794324295397414505792154678243150646008888335476;
  51618184371412130469615831305363325329491083088823469136159919609849188902024;
  38929998764697060194418013299181021077952701918395182302407844398238865403721;
  10592985877495640278334570871017595565539287443799705470236513782422631798613;
  25884405003252739968463371498281045756666351093484082674290227293988877761582;
  3291915927713039657947548124417918068232598885629581504755257116635916178065;
  41482334082649911855993915686640811685047202292827534739050733420351955806778;
  3569141040624645068746432076217476712207222541635567318112696561217766065639;
  54750502050501753812678189337729024042148318881833874548923784748270879941565;
  5247231924602377698414268984380571186873117197006503179428150175115377374068;
  10950877724520631727960704505986790897793390731077029035960349829294825813919;
  7527321546596294066994481046354532233444903083400383625596677997965962759135;
  14609051779384522541379836316961019298521571006742426699820281553247851110499;
  25712737277381317502381222081738918858081063803048947018506350394000491098090;
  56745973156249230477345160724644945505181100145856305072418898933968892833151;
  26092861902412766090151769103920569442302326551656930625959149842047394260302;
  11300693936289462366426195910590205602758794849889940179723509944180797690228;
  7501406001513012941475442530835326218194630505827839143568248608989912119242;
  30313005916617871165024799884883088390663758017258171648842049189328948035839;
  54214202598270634349100642072215201520275741979371807405492429666818868356773;
  37693415674051507939458837795304125420846316407653517513227846849425015451605;
  23675740566217078065331237104817060634389702901902215507010974982589696778616;
  14786124139470644446052311911977488163431587522776322069828567173430325550723;
  20027674157896164542028949596442834585218758717894754530997152123736853202695;
  38818776264814999839963375071064556699991834324735983732858720088307303445395;
  26206382071772616819207860000139758588484236835011523110014274059570025078990;
  53882365347687183258723835152445537651541374828017136972102483984710834009243;
  45222167229104647935925341757756639547446992779060613648256871938244179689057;
  33601519402444205932399168378052812384555308175320541519174369541304431348722;
  57885782755842964124280904968679451692808149307755925597289054641053881463829;
  32548187706008030095668147385514017088947192485818319199623486042079246458804;
  38566599956840716636498396927346419529891388523257095161520543366051670653392;
  26407919742309165130375379224703184433330062605849452015480527798190316927098;
  10383970808100680711490195590234212608269322052068566023141708319429332944322;
  45128217331626823137667721595838469940795571629692694682223043441516347986013;
  4626052601440559751628561634009120432073528219788518720301170861156181499782;
  42491102085280442140455972991286696349342346712520285398757936412865369859545;
  34581581910632685795112715522164427366537929724553976482899422296357749086780;
  21960340388546908497137605632632749441948289041688609485711936459222387895739;
  11272421235488258710216428370389040479708689066957703461126893105171939720170;
  24092555184938333255092807336085475413918900663969849757599382821893946019178;
  11997797821102804949559437063302155112044999668514310169081743090983625620633;
  1601509994602381693232066955736016673835590182393756443866306427216305044205;
  47598405048270600565808973951147953620873039818218316396118341995950734916175;
  5810446869357212116405138765904336925708528914857494985056076894857398781513;
  32398694467385399439278747822929578004944710001438265039609411086397047518509;
  43828441849322815424920851440893406270343586074240905519774360253147550390761;
  22350711686641628588738925764518902938852868854977073802542105596923039892113;
  11519816717622446605368503650678244339333777408591483277500126573213417424781;
  34961808490317700960686476548325904437057389410246908036107483865350438970346;
  37546361449045091621200096787086399396019829569202704782948661234707999140786;
  14838734574831445413200033939124225313862355756654344101289092931938177267537;
  34598669537142688881588211151981060077871242680471831086516226716531058598333].

(** ** Checking the table *)

Definition key_y (k : key) : Z := le_val k mod 2 ^ 255.

Definition big_point (x : Z) (k : key) : bpoint := (BigZ.of_Z x, BigZ.of_Z (key_y k)).

(** [k] is the encoding of the point with the x-coordinate [x]. *)
Definition code_check (x : Z) (k : key) : bool :=
  (length k =? 32)%nat && forallb (fun b => (0 <=? b) && (b <? 256)) k &&
  (0 <=? x) && (x <? p25519) && (key_y k <? p25519) && (le_val k =? key_y k + 2 ^ 255 * (x mod 2)).

Fixpoint doubling_check (x : Z) (k : key) (xs : list Z) (ks : list key) : bool :=
  match xs, ks with
  | x' :: xs, k' :: ks =>
      code_check x' k' && add_check (big_point x k) (big_point x k) (big_point x' k') && doubling_check x' k' xs ks
  | [], [] => true
  | _, _ => false
  end.

Definition table_check (xs : list Z) (ks : list key) : bool :=
  match xs, ks with
  | x :: xs, k :: ks => code_check x k && on_curve_check (big_point x k) && doubling_check x k xs ks
  | _, _ => false
  end.

Definition table_point (x : Z) (k : key) : point := bP (big_point x k).

Lemma code_check_spec x k : code_check x k = true -> k = encode (table_point x k).
Proof.
  unfold code_check. rewrite !andb_true_iff, Nat.eqb_eq, forallb_forall, Z.eqb_eq, !Z.leb_le, !Z.ltb_lt.
  intros (((((Hl & Hb) & Hx0) & Hx) & Hy) & E).
  assert (scalar k) as Hk.
  { split; [|exact Hl]. apply Forall_forall. intros b Hin. specialize (Hb b Hin). unfold is_byte. lia. }
  apply le_bytes_unique; [exact Hk|]. rewrite E. unfold table_point, big_point, bP, bF, point_code.
  rewrite !BigZ.spec_of_Z, !Zmod.to_Z_of_Z. rewrite (Z.mod_small x p25519), (Z.mod_small (key_y k) p25519); [reflexivity| |now split].
  split; [|exact Hy]. unfold key_y. apply Z.mod_pos_bound. lia.
Qed.

Lemma doubling_check_spec B n x k xs ks :
  on_curve B -> table_point x k = ed_mul (2 ^ Z.of_nat n) B -> doubling_check x k xs ks = true ->
  ks = map (fun i => encode (ed_mul (2 ^ Z.of_nat i) B)) (seq (S n) (length ks)).
Proof.
  intros HB. revert n x k xs. induction ks as [|k' ks IH]; intros n x k [|x' xs] E; cbn [doubling_check]; try discriminate; [reflexivity|].
  rewrite !andb_true_iff. intros [[Hc Ha] Hd].
  assert (on_curve (table_point x k)) as HP by (rewrite E; now apply ed_mul_on_curve).
  apply add_check_spec in Ha; [|exact HP | exact HP]. fold (table_point x k) (table_point x' k') in Ha.
  assert (table_point x' k' = ed_mul (2 ^ Z.of_nat (S n)) B) as E'.
  { rewrite Ha, E, <- ed_mul_add by exact HB. f_equal. rewrite Nat2Z.inj_succ, Z.pow_succ_r; lia. }
  apply code_check_spec in Hc. rewrite E' in Hc. cbn [length seq map].
  exact (f_equal2 cons Hc (IH (S n) x' k' xs E' Hd)).
Qed.

Definition H_point : point := table_point (hd 0 H2_x) rct_H.

Lemma rct_H2_head : rct_H2 = rct_H :: tl rct_H2.
Proof. reflexivity. Qed.

Lemma rct_H2_checked : table_check H2_x rct_H2 = true.
Proof. vm_compute. reflexivity. Qed.

Lemma table_check_spec xs ks :
  table_check xs ks = true -> on_curve (table_point (hd 0 xs) (hd [] ks)) /\
  ks = map (fun i => encode (ed_mul (2 ^ Z.of_nat i) (table_point (hd 0 xs) (hd [] ks)))) (seq 0 (length ks)).
Proof.
  destruct xs as [|x xs], ks as [|k ks]; cbn [table_check]; try discriminate. rewrite !andb_true_iff. cbn [hd].
  intros [[Hc Ho] Hd]. apply on_curve_check_spec in Ho. fold (table_point x k) in Ho. split; [exact Ho|].
  cbn [length seq map]. change (2 ^ Z.of_nat 0) with 1. rewrite ed_mul_1 by exact Ho.
  refine (f_equal2 cons (code_check_spec x k Hc) _). apply (doubling_check_spec _ 0 x k xs); trivial.
  symmetry. now apply ed_mul_1.
Qed.

#[local] Opaque H2_x rct_H2 rct_H encode ed_mul.

Lemma H_table : on_curve H_point /\ rct_H2 = map (fun i => encode (ed_mul (2 ^ Z.of_nat i) H_point)) (seq 0 64).
Proof. exact (table_check_spec H2_x rct_H2 rct_H2_checked). Qed.

Lemma H_on_curve : on_curve H_point.
Proof. exact (proj1 H_table). Qed.

Lemma nth_H2 i : (i < 64)%nat -> nth_error rct_H2 i = Some (encode (ed_mul (2 ^ Z.of_nat i) H_point)).
Proof. intros Hi. rewrite (proj2 H_table), nth_error_map, nth_error_seq. now rewrite (proj2 (Nat.ltb_lt i 64) Hi). Qed.

Lemma H_encode : rct_H = encode H_point.
Proof.
  pose proof (nth_H2 0 ltac:(lia)) as E. rewrite rct_H2_head in E. cbn [nth_error] in E.
  change (2 ^ Z.of_nat 0) with 1 in E. rewrite ed_mul_1 in E by exact H_on_curve. congruence.
Qed.

#[global] Opaque H_point.
