(* ===== verification/RctOps.v ===== *)
(** * Operations of RingCT

    Models rctOps.cpp: random scalars and keys, commitments to amounts, multiples and sums of
    encoded points, hashing to scalars and to points, and the masking of amounts for the
    recipient. A function that decodes a point throws when the key is not one: its value is an
    [outcome] (the messages are without line numbers), and [None] around it is a failed assertion
    or an access outside an array. The
    second base point [rct_H] and its multiples [rct_H2] are those of rctTypes.h. The hashing is
    done by [keccak] with 32 bytes of output, which is [cn_fast_hash]. *)

From Stdlib Require Import ZArith Lia List Bool String.
From S2P Require Import Prelude Bytes Fe FeMul Primes ScReduce Sc Curve Ge GeBytes.
From S2P Require Import GeScalar GeBase GeDouble GeHash Keccak TreeHash Order Varint Random Encode KeyOps Signature RingSig RctTypes RctTable.
Import ListNotations.

#[local] Open Scope Z_scope.
#[local] Open Scope list_scope.
#[local] Opaque ed_mul ed_add base_point encode enc_scalar point_code.

(** ** Exceptions *)

Definition obind {A B : Type} (m : option (outcome A)) (k : A -> option (outcome B)) : option (outcome B) :=
  match m with
  | Some (Returns a) => k a
  | Some (Throws what) => Some (Throws what)
  | None => None
  end.

(** [let? x := m in k]: the exception of [m] is passed on. *)
Notation "'let?' x ':=' m 'in' k" := (obind m (fun x => k))
  (at level 10, x name, m at level 100, k at level 200) : c_scope.
Notation "'let?' ' p ':=' m 'in' k" := (obind m (fun x => match x with p => k end))
  (at level 10, p pattern, m at level 100, k at level 200) : c_scope.

(** [CHECK_AND_ASSERT_THROW_MES(b, what)] *)
Definition check_throw (b : bool) (what : string) : option (outcome unit) :=
  Some (if b then Returns tt else Throws what).

(** A loop whose body may throw. *)
Fixpoint ofold {A B : Type} (f : A -> B -> option (outcome A)) (l : list B) (y : A) : option (outcome A) :=
  match l with
  | [] => Some (Returns y)
  | x :: l => let? y := f y x in ofold f l y
  end.

(** ** Constants *)

Definition identity : key := 1 :: repeat 0 31.

Definition zero : key := repeat 0 32.

Definition curveOrder : key :=
  [237; 211; 245; 92; 26; 99; 18; 88; 214; 156; 247; 162; 222; 249; 222; 20; 0; 0; 0; 0; 0; 0; 0; 0; 0; 0; 0; 0; 0; 0; 0; 16].

Definition keyMInit (rows cols : nat) : list (list key) := repeat (repeat zero rows) cols.

Section RctOps.
  Context {FH : FastHash} {RB : RandomBytes}.

(** ** The code: keys *)

Definition skGen (r : rng) : option (key * rng) :=
  let! '(sk, r) := random_bytes 32 r in
  let! sk := sc_reduce32 sk in
  Some (sk, r).

(** The keys of an array of bytes. *)
Definition key_at (data : list Z) (i : nat) : key := firstn 32 (skipn (32 * i) data).

Definition skvGen (rows : nat) (r : rng) : option (outcome (list key * rng)) :=
  let? _ := check_throw (0 <? rows)%nat "0 keys requested" in
  let! '(data, r) := random_bytes (rows * 32) r in
  let! rv := mapM (fun i => sc_reduce32 (key_at data i)) (seq 0 rows) in
  Some (Returns (rv, r)).

Definition scalarmultBase (a : key) : option key :=
  let! aG := sc_reduce32copy a in
  let! point := ge_scalarmult_base aG in
  ge_p3_tobytes point.

Definition scalarmultKey (P a : key) : option (outcome key) :=
  if? A := ge_frombytes_vartime P else Some (Throws "ge_frombytes_vartime failed") in
  let! R := ge_scalarmult a A in
  let! aP := ge_tobytes R in
  Some (Returns aP).

Definition scalarmultH (a : key) : option (outcome key) :=
  if? A := ge_frombytes_vartime rct_H else Some (Throws "ge_frombytes_vartime failed") in
  let! R := ge_scalarmult a A in
  let! aP := ge_tobytes R in
  Some (Returns aP).

Definition pkGen (r : rng) : option (key * rng) :=
  let! '(sk, r) := skGen r in
  let! pk := scalarmultBase sk in
  Some (pk, r).

Definition skpkGen (r : rng) : option (key * key * rng) :=
  let! '(sk, r) := skGen r in
  let! pk := scalarmultBase sk in
  Some (sk, pk, r).

(** ** The code: sums *)

Definition addKeys (A B : key) : option (outcome key) :=
  if? B2 := ge_frombytes_vartime B else Some (Throws "ge_frombytes_vartime failed") in
  if? A2 := ge_frombytes_vartime A else Some (Throws "ge_frombytes_vartime failed") in
  let! tmp2 := ge_p3_to_cached B2 in
  let! tmp3 := ge_add A2 tmp2 in
  let! A2 := ge_p1p1_to_p3 tmp3 in
  let! AB := ge_p3_tobytes A2 in
  Some (Returns AB).

Definition addKeys1 (a B : key) : option (outcome key) :=
  let! aG := scalarmultBase a in
  addKeys aG B.

Definition addKeys2 (a b B : key) : option (outcome key) :=
  if? B2 := ge_frombytes_vartime B else Some (Throws "ge_frombytes_vartime failed") in
  let! rv := ge_double_scalarmult_base_vartime b B2 a in
  let! aGbB := ge_tobytes rv in
  Some (Returns aGbB).

Definition precomp (B : key) : option (outcome (list ge_cached)) :=
  if? B2 := ge_frombytes_vartime B else Some (Throws "ge_frombytes_vartime failed") in
  let! rv := ge_dsm_precomp B2 in
  Some (Returns rv).

Definition addKeys3 (a A b : key) (B : list ge_cached) : option (outcome key) :=
  if? A2 := ge_frombytes_vartime A else Some (Throws "ge_frombytes_vartime failed") in
  let! rv := ge_double_scalarmult_precomp_vartime a A2 b B in
  let! aAbB := ge_tobytes rv in
  Some (Returns aAbB).

(** [addKeys3] with both points prepared. *)
Definition addKeys3_dsmp (a : key) (A : list ge_cached) (b : key) (B : list ge_cached) : option key :=
  let! rv := ge_double_scalarmult_precomp_vartime2 a A b B in
  ge_tobytes rv.

Definition subKeys (A B : key) : option (outcome key) :=
  if? B2 := ge_frombytes_vartime B else Some (Throws "ge_frombytes_vartime failed") in
  if? A2 := ge_frombytes_vartime A else Some (Throws "ge_frombytes_vartime failed") in
  let! tmp2 := ge_p3_to_cached B2 in
  let! tmp3 := ge_sub A2 tmp2 in
  let! A2 := ge_p1p1_to_p3 tmp3 in
  let! AB := ge_p3_tobytes A2 in
  Some (Returns AB).

(** Every byte is compared. *)
Fixpoint equalKeys (a b : key) : bool :=
  match a, b with
  | x :: a, y :: b => let rv := equalKeys a b in if negb (x =? y) then false else rv
  | [], [] => true
  | _, _ => false
  end.

Definition sumKeys (Cis : list key) : option (outcome key) :=
  ofold addKeys Cis identity.

(** ** The code: commitments *)

Definition genC (a : key) (amount : Z) : option (outcome key) :=
  let! am := d2h amount in
  let? bH := scalarmultH am in
  addKeys1 a bH.

Definition ctskpkGen_bH (bH : key) (r : rng) : option (outcome (ctkey * ctkey * rng)) :=
  let! '(sk_dest, pk_dest, r) := skpkGen r in
  let! '(sk_mask, pk_mask, r) := skpkGen r in
  let? pk_mask := addKeys pk_mask bH in
  Some (Returns (CtKey sk_dest sk_mask, CtKey pk_dest pk_mask, r)).

Definition ctskpkGen (amount : Z) (r : rng) : option (outcome (ctkey * ctkey * rng)) :=
  let! '(sk_dest, pk_dest, r) := skpkGen r in
  let! '(sk_mask, pk_mask, r) := skpkGen r in
  let! am := d2h amount in
  let? bH := scalarmultH am in
  let? pk_mask := addKeys pk_mask bH in
  Some (Returns (CtKey sk_dest sk_mask, CtKey pk_dest pk_mask, r)).

Definition zeroCommit (amount : Z) : option (outcome key) :=
  let! mask := scalarmultBase identity in
  let! am := d2h amount in
  let? bH := scalarmultH am in
  addKeys mask bH.

Definition commit (amount : Z) (mask : key) : option (outcome key) :=
  let! c := scalarmultBase mask in
  let! am := d2h amount in
  let? bH := scalarmultH am in
  addKeys c bH.

(** [None] is also the division by an upper limit of zero. *)
Definition randXmrAmount (upperlimit : Z) (r : rng) : option (Z * rng) :=
  let! '(sk, r) := skGen r in
  let! v := h2d sk in
  if upperlimit =? 0 then None else Some (v mod upperlimit, r).

(** ** The code: hashing *)

Definition rct_cn_fast_hash (data : list Z) (l : nat) : option key := fast_hash data l.

Definition rct_hash_to_scalar (data : list Z) (l : nat) : option key :=
  let! hash := rct_cn_fast_hash data l in
  sc_reduce32 hash.

Definition cn_fast_hash_key (k : key) : option key := fast_hash k 32.

Definition hash_to_scalar_key (k : key) : option key :=
  let! hash := cn_fast_hash_key k in
  sc_reduce32 hash.

Definition cn_fast_hash128 (data : list Z) : option key := fast_hash data 128.

Definition hash_to_scalar128 (data : list Z) : option key :=
  let! hash := cn_fast_hash128 data in
  sc_reduce32 hash.

Definition cn_fast_hash_ctkeyV (PC : list ctkey) : option key :=
  match PC with
  | [] => fast_hash [] 0
  | _ => rct_cn_fast_hash (List.concat (map (fun c => dest c ++ mask c) PC)) (64 * List.length PC)
  end.

Definition hash_to_scalar_ctkeyV (PC : list ctkey) : option key :=
  let! rv := cn_fast_hash_ctkeyV PC in
  sc_reduce32 rv.

Definition cn_fast_hash_keyV (keys : list key) : option key :=
  match keys with
  | [] => fast_hash [] 0
  | _ => rct_cn_fast_hash (List.concat keys) (List.length keys * 32)
  end.

Definition hash_to_scalar_keyV (keys : list key) : option key :=
  let! rv := cn_fast_hash_keyV keys in
  sc_reduce32 rv.

Definition cn_fast_hash_key64 (keys : list key) : option key := rct_cn_fast_hash (List.concat keys) (64 * 32).

Definition hash_to_scalar_key64 (keys : list key) : option key :=
  let! rv := cn_fast_hash_key64 keys in
  sc_reduce32 rv.

Definition hashToPointSimple (hh : key) : option (outcome key) :=
  let! h := cn_fast_hash_key hh in
  if? res := ge_frombytes_vartime h else Some (Throws "ge_frombytes_vartime failed") in
  let point := ge_p3_to_p2 res in
  let! point2 := ge_mul8 point in
  let! res := ge_p1p1_to_p3 point2 in
  let! pointk := ge_p3_tobytes res in
  Some (Returns pointk).

Definition hashToPoint (hh : key) : option key :=
  let! h := cn_fast_hash_key hh in
  let! point := ge_fromfe_frombytes_vartime h in
  let! point2 := ge_mul8 point in
  let! res := ge_p1p1_to_p3 point2 in
  ge_p3_tobytes res.

(** ** The code: masked amounts *)

Definition ecdhEncode (unmasked : ecdhTuple) (sharedSec : key) : option ecdhTuple :=
  let! sharedSec1 := hash_to_scalar_key sharedSec in
  let! sharedSec2 := hash_to_scalar_key sharedSec1 in
  let! m := sc_add (ecdh_mask unmasked) sharedSec1 in
  let! a := sc_add (ecdh_amount unmasked) sharedSec2 in
  Some (EcdhTuple m a (senderPk unmasked)).

Definition ecdhDecode (masked : ecdhTuple) (sharedSec : key) : option ecdhTuple :=
  let! sharedSec1 := hash_to_scalar_key sharedSec in
  let! sharedSec2 := hash_to_scalar_key sharedSec1 in
  let! m := sc_sub (ecdh_mask masked) sharedSec1 in
  let! a := sc_sub (ecdh_amount masked) sharedSec2 in
  Some (EcdhTuple m a (senderPk masked)).
(** ** Operations on encodings *)

Lemma bind_Some {A B} (a : A) (k : A -> option B) : bind (Some a) k = k a.
Proof. reflexivity. Qed.

Lemma obind_Returns {A B} (a : A) (k : A -> option (outcome B)) : obind (Some (Returns a)) k = k a.
Proof. reflexivity. Qed.

(** The code returns, without an exception, a value in [Q]. *)
Definition oreturns {A} (m : option (outcome A)) (Q : A -> Prop) : Prop :=
  returns m (fun o => match o with Returns a => Q a | Throws _ => False end).

Lemma oreturns_bind {A B} (m : option (outcome A)) (k : A -> option (outcome B)) (P : A -> Prop) (Q : B -> Prop) :
  oreturns m P -> (forall a, P a -> oreturns (k a) Q) -> oreturns (obind m k) Q.
Proof. destruct m as [[a|w]|]; cbn; try contradiction. auto. Qed.

Lemma oreturns_some {A} (m : option (outcome A)) (Q : A -> Prop) : oreturns m Q -> exists a, m = Some (Returns a) /\ Q a.
Proof. destruct m as [[a|w]|]; cbn; try contradiction. eauto. Qed.

Lemma oreturns_eq {A} (m : option (outcome A)) v : m = Some (Returns v) <-> oreturns m (fun x => x = v).
Proof. destruct m as [[a|w]|]; cbn; split; intros H; try contradiction; try discriminate; congruence. Qed.

(** [for (i = k; i < k + n; ++i) y = f(y, i);] *)
Lemma ofold_seq {A} (I : nat -> A -> Prop) (f : A -> nat -> option (outcome A)) k n y :
  I k y -> (forall i y, (k <= i < k + n)%nat -> I i y -> oreturns (f y i) (I (S i))) ->
  oreturns (ofold f (seq k n) y) (I (k + n)%nat).
Proof.
  revert k y; induction n as [|n IH]; intros k y H0 Hs; cbn [seq ofold]; [now rewrite Nat.add_0_r|].
  apply (oreturns_bind _ _ (I (S k))); [apply Hs; [lia | exact H0]|].
  intros z Hz. rewrite Nat.add_succ_r. apply (IH (S k)); [exact Hz|]. intros; apply Hs; trivial; lia.
Qed.

Lemma skGen_spec r : rng_ready r -> returns (skGen r) (fun '(k, r') => reduced_scalar k /\ rng_ready r').
Proof.
  intros Hr. unfold skGen. eapply returns_bind; [now apply random_bytes_total|]. cbv beta. intros [b r'] (Hb & Hl & Hr').
  rewrite sc_reduce32_enc by now split. cbn [bind returns]. split; [apply enc_scalar_reduced | exact Hr'].
Qed.

Lemma key_at_scalar data n i : bytes data -> List.length data = (n * 32)%nat -> (i < n)%nat -> scalar (key_at data i).
Proof.
  intros Hb Hl Hi. unfold key_at. split; [now apply bytes_firstn, bytes_skipn|]. rewrite length_firstn, length_skipn. lia.
Qed.

Lemma skvGen_spec n r :
  (1 <= n)%nat -> rng_ready r ->
  oreturns (skvGen n r) (fun '(ks, r') => List.length ks = n /\ Forall reduced_scalar ks /\ rng_ready r').
Proof.
  intros Hn Hr. unfold skvGen, check_throw. rewrite (proj2 (Nat.ltb_lt 0 n)) by lia. cbn [obind].
  eapply returns_bind; [now apply random_bytes_total|]. cbv beta. intros [b r'] (Hb & Hl & Hr').
  rewrite (mapM_map _ (fun i => enc_scalar (le_val (key_at b i)))).
  2: { intros i Hi%in_seq. apply sc_reduce32_enc, (key_at_scalar b n); trivial; lia. }
  cbn [bind returns]. rewrite length_map, length_seq. split; [reflexivity|]. split; [|exact Hr'].
  apply Forall_forall. intros k Hk. apply in_map_iff in Hk as (i & <- & _). apply enc_scalar_reduced.
Qed.

Lemma scalarmultBase_enc a : scalar a -> scalarmultBase a = Some (encode (ed_mul (le_val a) base_point)).
Proof.
  intros Ha. apply returns_eq. unfold scalarmultBase. rewrite (canonical_some _ _ (sc_reduce32copy_spec a Ha)). cbn [bind].
  eapply returns_bind; [auto with ge|]. cbv beta. intros p Hp. rewrite le_val_enc_scalar, (ed_mul_residue _ _ base_in_subgroup) in Hp.
  now rewrite (p3_tobytes_encode p _ Hp).
Qed.

Lemma skpkGen_spec r :
  rng_ready r -> returns (skpkGen r) (fun '(sk, pk, r') =>
    reduced_scalar sk /\ pk = encode (ed_mul (le_val sk) base_point) /\ rng_ready r').
Proof.
  intros Hr. unfold skpkGen. eapply returns_bind; [now apply skGen_spec|]. cbv beta. intros [sk r'] [Hs Hr'].
  rewrite scalarmultBase_enc by apply Hs. cbn [bind returns]. auto.
Qed.

Lemma scalarmultKey_enc P a :
  on_curve P -> scalar255 a -> scalarmultKey (encode P) a = Some (Returns (encode (ed_mul (le_val a) P))).
Proof. intros HP Ha. apply returns_eq. unfold scalarmultKey. key_run. reflexivity. Qed.

Lemma addKeys_enc A B : on_curve A -> on_curve B -> addKeys (encode A) (encode B) = Some (Returns (encode (ed_add A B))).
Proof. intros HA HB. apply returns_eq. unfold addKeys. key_run. reflexivity. Qed.

Lemma subKeys_enc A B :
  on_curve A -> on_curve B -> subKeys (encode A) (encode B) = Some (Returns (encode (ed_add A (ed_opp B)))).
Proof. intros HA HB. apply returns_eq. unfold subKeys. key_run. reflexivity. Qed.

Lemma addKeys1_enc a B :
  scalar a -> on_curve B -> addKeys1 a (encode B) = Some (Returns (encode (ed_add (ed_mul (le_val a) base_point) B))).
Proof.
  intros Ha HB. unfold addKeys1. rewrite scalarmultBase_enc by exact Ha. cbn [bind]. apply addKeys_enc; [|exact HB].
  apply ed_mul_on_curve, base_point_on_curve.
Qed.

Lemma addKeys2_enc a b B :
  scalar255 a -> scalar255 b -> on_curve B ->
  addKeys2 a b (encode B) = Some (Returns (encode (lin (le_val b) B (le_val a) base_point))).
Proof. intros Ha Hb HB. apply returns_eq. unfold addKeys2. key_run. reflexivity. Qed.

Lemma precomp_enc B : on_curve B -> oreturns (precomp (encode B)) (odd_table B).
Proof. intros HB. unfold precomp, oreturns. key_run. assumption. Qed.

Lemma addKeys3_enc a A b B Bi :
  scalar255 a -> on_curve A -> scalar255 b -> on_curve B -> odd_table B Bi ->
  addKeys3 a (encode A) b Bi = Some (Returns (encode (lin (le_val a) A (le_val b) B))).
Proof. intros Ha HA Hb HB HBi. apply returns_eq. unfold addKeys3. key_run. reflexivity. Qed.

Lemma equalKeys_spec a b : List.length a = List.length b -> equalKeys a b = true <-> a = b.
Proof.
  revert b. induction a as [|x a IH]; intros [|y b]; cbn [equalKeys List.length]; try discriminate; [easy|].
  intros [= Hl]. destruct (Z.eqb_spec x y) as [->|N]; cbn [negb]; [rewrite (IH b Hl)|]; split; congruence.
Qed.

Lemma equalKeys_refl a : equalKeys a a = true.
Proof. now apply equalKeys_spec. Qed.

(** The bytes of keys. *)
Lemma concat_keys ks :
  Forall scalar ks -> bytes (List.concat ks) /\ List.length (List.concat ks) = (List.length ks * 32)%nat.
Proof.
  induction 1 as [|k ks [Hb Hl] _ [Hbs Hls]]; [split; constructor|]. cbn [List.concat List.length].
  split; [now apply bytes_app | rewrite length_app; lia].
Qed.

Lemma hash_key_enc k : scalar k -> hash_to_scalar_key k = Some (enc_scalar (Hs k)).
Proof. intros [Hb Hl]. now apply (hash_to_scalar_enc k 32). Qed.

Lemma hash_keyV_enc ks : Forall scalar ks -> hash_to_scalar_keyV ks = Some (enc_scalar (Hs (List.concat ks))).
Proof.
  intros H. destruct (concat_keys ks H) as [Hb Hl]. unfold hash_to_scalar_keyV.
  destruct ks as [|k ks]; [now apply (hash_to_scalar_enc [] 0)|]. now apply hash_to_scalar_enc.
Qed.

Lemma hash_key64_enc ks :
  Forall scalar ks -> List.length ks = 64%nat -> hash_to_scalar_key64 ks = Some (enc_scalar (Hs (List.concat ks))).
Proof.
  intros H L. destruct (concat_keys ks H) as [Hb Hl]. rewrite L in Hl. now apply hash_to_scalar_enc.
Qed.

Lemma hashToPoint_enc k : scalar k -> hashToPoint k = Some (encode (Hp k)).
Proof.
  intros Hk. apply returns_eq. pose proof (hash_to_ec_spec k Hk) as [q [E (Hq & _)]]%returns_some.
  unfold hash_to_ec in E. unfold hashToPoint, cn_fast_hash_key. destruct (fast_hash k 32) as [h|]; [|discriminate E]. cbn [bind] in *.
  destruct (ge_fromfe_frombytes_vartime h) as [t|]; [|discriminate E]. cbn [bind] in *.
  destruct (ge_mul8 t) as [t2|]; [|discriminate E]. cbn [bind] in *. rewrite E. cbn [bind].
  now rewrite (p3_tobytes_encode q _ Hq).
Qed.
End RctOps.

(** ** The second base point *)

Definition G_key : key := 88 :: repeat 102 31.

Lemma G_key_encode : encode base_point = G_key.
Proof. vm_compute. reflexivity. Qed.

Lemma hashToPointSimple_point {FH : FastHash} k r :
  scalar k -> hashToPointSimple k = Some (Returns r) -> exists Q, on_curve Q /\ r = encode (ed_mul 8 Q).
Proof.
  intros [Hb Hl] E. unfold hashToPointSimple, cn_fast_hash_key in E. pose proof (fast_hash_total k Hb) as H.
  rewrite Hl in H. destruct (fast_hash k 32) as [h|]; [|contradiction]. cbn [bind returns] in *.
  destruct (point_cases h H) as [(Q & HQ & ->) | [N _]]; [|rewrite N in E; discriminate E].
  exists Q. split; [exact HQ|]. destruct (frombytes_encode Q HQ) as (q & E1 & Rq). rewrite E1 in E. cbn [bind] in E. clear E1.
  assert (returns (let! point2 := ge_mul8 (ge_p3_to_p2 q) in let! res := ge_p1p1_to_p3 point2 in
    let! pointk := ge_p3_tobytes res in Some (Returns pointk)) (fun o => o = Returns (encode (ed_mul 8 Q)))) as H8.
  { eapply returns_bind; [apply ge_mul8_spec, ge_p3_to_p2_spec, Rq|]. cbv beta. intros t Ht.
    eapply returns_bind; [apply ge_p1p1_to_p3_spec, Ht|]. cbv beta. intros u Hu. now rewrite (p3_tobytes_encode u _ Hu). }
  apply returns_eq in H8. rewrite H8 in E. congruence.
Qed.

Lemma H_from_G : @hashToPointSimple keccak_fast_hash G_key = Some (Returns rct_H).
Proof. vm_compute. reflexivity. Qed.

Lemma H_in_subgroup : in_subgroup H_point.
Proof.
  assert (scalar G_key) as HG by (rewrite <- G_key_encode; apply encode_scalar).
  destruct (hashToPointSimple_point G_key rct_H HG H_from_G) as (Q & HQ & EQ).
  pose proof (encode_inj H_point (ed_mul 8 Q) H_on_curve (ed_mul_on_curve Q HQ 8) (eq_trans (eq_sym H_encode) EQ)) as ->.
  exact (mul8_in_subgroup Q HQ).
Qed.


(** ** Commitments *)

Lemma ed_mul_distr n P Q : on_curve P -> on_curve Q -> ed_mul n (ed_add P Q) = ed_add (ed_mul n P) (ed_mul n Q).
Proof.
  intros HP HQ. pose proof (ed_add_on_curve P Q HP HQ) as HPQ.
  assert (forall k, ed_mul (k + 1) (ed_add P Q) = ed_add (ed_mul (k + 1) P) (ed_mul (k + 1) Q) <->
                    ed_mul k (ed_add P Q) = ed_add (ed_mul k P) (ed_mul k Q)) as Step.
  { intros k. rewrite !ed_mul_succ by assumption. rewrite (ed_add_4 P (ed_mul k P) Q) by (now try apply ed_mul_on_curve).
    split; [|now intros ->]. intros E. apply ed_add_cancel in E; auto using ed_mul_on_curve, ed_add_on_curve. }
  induction n as [|n IH|n IH] using Z.peano_ind.
  - rewrite !ed_mul_0. symmetry. apply ed_add_0_l.
  - rewrite <- Z.add_1_r. now apply Step.
  - apply Step. now replace (Z.pred n + 1) with n by lia.
Qed.

(** The commitment [a G + v H]. *)
Definition pedersen (a v : Z) : point := lin a base_point v H_point.

Lemma pedersen_on_curve a v : on_curve (pedersen a v).
Proof. exact (lin_on_curve _ _ base_point_on_curve H_on_curve a v). Qed.

Lemma pedersen_add a v b w : ed_add (pedersen a v) (pedersen b w) = pedersen (a + b) (v + w).
Proof. exact (lin_add _ _ base_point_on_curve H_on_curve a v b w). Qed.

Lemma pedersen_mod a v b w : a mod ell = b mod ell -> v mod ell = w mod ell -> pedersen a v = pedersen b w.
Proof.
  intros Ea Ev. unfold pedersen, lin. f_equal; apply ed_mul_mod; trivial; [apply base_in_subgroup | apply H_in_subgroup].
Qed.

(** An amount as a scalar. *)
Lemma amount_scalar v : 0 <= v < 2 ^ 64 -> scalar255 (le_bytes 32 v) /\ le_val (le_bytes 32 v) = v /\ reduced_scalar (le_bytes 32 v).
Proof.
  intros Hv. assert (le_val (le_bytes 32 v) = v) as E.
  { rewrite le_val_le_bytes. apply Z.mod_small. change (256 ^ Z.of_nat 32) with (2 ^ 256). lia. }
  destruct (le_bytes_32 v) as [Hb Hl]. split; [split; [exact Hb|]; split; [exact Hl | lia]|]. split; [exact E|].
  split; [now split|]. rewrite E. assert (2 ^ 64 < ell) by reflexivity. lia.
Qed.

(** Openings of one commitment with different amounts determine the discrete logarithm of the
    second base point. *)
Definition H_log (a v b w : Z) : Z := ((a - b) * Z.invmod (w - v) ell) mod ell.

Lemma pedersen_binding a v b w :
  0 <= v < ell -> 0 <= w < ell -> pedersen a v = pedersen b w ->
  (v = w /\ a mod ell = b mod ell) \/ H_point = ed_mul (H_log a v b w) base_point.
Proof.
  intros Hv Hw E. pose proof base_point_on_curve as HG. pose proof H_on_curve as HH.
  apply (lin_eq_sub base_point H_point) in E; trivial.
  destruct (Z.eq_dec v w) as [->|N].
  - left. split; [reflexivity|]. rewrite Z.sub_diag, ed_mul_0 in E. apply (proj1 (base_order _)) in E.
    apply Z.cong_iff_0. exact (proj2 (Z.mod_divide _ ell ltac:(discriminate)) E).
  - right. assert ((w - v) mod ell <> 0) as Nz.
    { intros D. apply Z.mod_divide in D; [|discriminate]. destruct D as [q Eq].
      clear E. generalize dependent ell. intros l Hv Hw Eq. destruct (Z.lt_trichotomy q 0) as [?|[->|?]]; nia. }
    unfold H_log. rewrite ed_mul_residue by apply base_in_subgroup. rewrite Z.mul_comm, ed_mul_mul, E, <- ed_mul_mul by assumption.
    rewrite (ed_mul_mod H_point _ 1 H_in_subgroup); [symmetry; now apply ed_mul_1|].
    rewrite Z.invmod_prime by (exact ell_prime || exact Nz). reflexivity.
Qed.

Section Commitments.
  Context {FH : FastHash} {RB : RandomBytes}.

Lemma scalarmultH_enc a : scalar255 a -> scalarmultH a = Some (Returns (encode (ed_mul (le_val a) H_point))).
Proof.
  intros Ha. unfold scalarmultH. rewrite H_encode. exact (scalarmultKey_enc H_point a H_on_curve Ha).
Qed.

#[local] Opaque scalarmultH addKeys scalarmultBase d2h.

(** [bH = scalarmultH(d2h(v))] *)
Lemma amount_H_bind {T} v (k : key -> option (outcome T)) :
  0 <= v < 2 ^ 64 -> (let! am := d2h v in let? bH := scalarmultH am in k bH) = k (encode (ed_mul v H_point)).
Proof.
  intros Hv. destruct (amount_scalar v Hv) as (H255 & E & _). rewrite d2h_spec by lia. cbn [bind].
  rewrite scalarmultH_enc by exact H255. cbn [obind]. rewrite E. reflexivity.
Qed.

Lemma commit_enc v m : 0 <= v < 2 ^ 64 -> scalar m -> commit v m = Some (Returns (encode (pedersen (le_val m) v))).
Proof.
  intros Hv Hm. unfold commit. rewrite scalarmultBase_enc, bind_Some by exact Hm. rewrite amount_H_bind by exact Hv.
  apply addKeys_enc; apply ed_mul_on_curve; [apply base_point_on_curve | apply H_on_curve].
Qed.

Lemma genC_enc a v : 0 <= v < 2 ^ 64 -> scalar a -> genC a v = Some (Returns (encode (pedersen (le_val a) v))).
Proof.
  intros Hv Ha. unfold genC. rewrite amount_H_bind by exact Hv. apply addKeys1_enc; [exact Ha|].
  apply ed_mul_on_curve, H_on_curve.
Qed.

Lemma identity_scalar : scalar identity /\ le_val identity = 1.
Proof.
  split; [split; [|reflexivity] | reflexivity]. unfold identity. constructor; [unfold is_byte; lia|].
  apply Forall_forall. intros b Hb. apply repeat_spec in Hb as ->. unfold is_byte. lia.
Qed.

Lemma zeroCommit_enc v : 0 <= v < 2 ^ 64 -> zeroCommit v = Some (Returns (encode (pedersen 1 v))).
Proof.
  intros Hv. destruct identity_scalar as [Hs E]. unfold zeroCommit. rewrite scalarmultBase_enc, E, bind_Some by exact Hs.
  rewrite amount_H_bind by exact Hv. apply addKeys_enc; apply ed_mul_on_curve; [apply base_point_on_curve | apply H_on_curve].
Qed.

Lemma ctskpkGen_spec v r :
  0 <= v < 2 ^ 64 -> rng_ready r ->
  oreturns (ctskpkGen v r) (fun '(sk, pk, r') =>
    reduced_scalar (dest sk) /\ reduced_scalar (mask sk) /\ dest pk = encode (ed_mul (le_val (dest sk)) base_point) /\
    mask pk = encode (pedersen (le_val (mask sk)) v) /\ rng_ready r').
Proof.
  intros Hv Hr. unfold ctskpkGen. eapply returns_bind; [now apply skpkGen_spec|]. cbv beta. intros [[sk pk] r1] (Rs & -> & Hr1).
  eapply returns_bind; [now apply skpkGen_spec|]. cbv beta. intros [[sm pm] r2] (Rm & -> & Hr2).
  rewrite amount_H_bind by exact Hv. rewrite addKeys_enc; [|apply ed_mul_on_curve, base_point_on_curve | apply ed_mul_on_curve, H_on_curve].
  cbn. auto 6.
Qed.

(** Commitments: [commit], [genC] and [ctskpkGen] return, for every amount of 64 bits, the
    encoding of [a G + v H] with the mask [a]; commitments add up like their masks and amounts;
    and they are binding: two openings of one commitment are the same, or they yield the
    discrete logarithm of [H], which is the point that [hashToPointSimple] gives for [G]. *)
Theorem commitment_correct v a r :
  0 <= v < 2 ^ 64 -> reduced_scalar a -> rng_ready r ->
  exists C, commit v a = Some (Returns C) /\ genC a v = Some (Returns C) /\
    (exists sk pk r', ctskpkGen v r = Some (Returns (sk, pk, r')) /\ commit v (mask sk) = Some (Returns (mask pk)) /\
       scalarmultBase (dest sk) = Some (dest pk) /\ rng_ready r') /\
    (forall w b, 0 <= w < 2 ^ 64 -> v + w < 2 ^ 64 -> reduced_scalar b ->
       exists C' s S, commit w b = Some (Returns C') /\ sc_add a b = Some s /\
         commit (v + w) s = Some (Returns S) /\ addKeys C C' = Some (Returns S)) /\
    (forall w b, 0 <= w < 2 ^ 64 -> reduced_scalar b -> commit w b = Some (Returns C) ->
       (v = w /\ a = b) \/ scalarmultBase (enc_scalar (H_log (le_val a) v (le_val b) w)) = Some rct_H) /\
    @hashToPointSimple keccak_fast_hash (encode base_point) = Some (Returns rct_H).
Proof.
  intros Hv Ha Hr. exists (encode (pedersen (le_val a) v)).
  split; [apply commit_enc; [exact Hv | apply Ha]|]. split; [apply genC_enc; [exact Hv | apply Ha]|]. split; [|split; [|split]].
  - destruct (oreturns_some _ _ (ctskpkGen_spec v r Hv Hr)) as ([[sk pk] r'] & E & Rd & Rm & Ed & Em & Hr').
    exists sk, pk, r'. split; [exact E|]. rewrite Em, Ed. split; [apply commit_enc; [exact Hv | apply Rm]|].
    split; [apply scalarmultBase_enc, Rd | exact Hr'].
  - intros w b Hw Hs Hb. exists (encode (pedersen (le_val b) w)), (enc_scalar (le_val a + le_val b)), (encode (pedersen (le_val a + le_val b) (v + w))).
    split; [apply commit_enc; [exact Hw | apply Hb]|]. split; [apply sc_add_enc; [apply Ha | apply Hb]|]. split.
    + rewrite commit_enc by (lia || apply enc_scalar_scalar). rewrite le_val_enc_scalar.
      now rewrite (pedersen_mod _ (v + w) (le_val a + le_val b) (v + w) (Z.mod_mod _ ell ltac:(discriminate)) eq_refl).
    + rewrite addKeys_enc by apply pedersen_on_curve. now rewrite pedersen_add.
  - intros w b Hw Hb E. rewrite commit_enc in E by (exact Hw || apply Hb).
    assert (encode (pedersen (le_val b) w) = encode (pedersen (le_val a) v)) as E' by congruence.
    apply encode_inj in E'; [|apply pedersen_on_curve | apply pedersen_on_curve]. symmetry in E'.
    assert (2 ^ 64 < ell) as Le by reflexivity.
    destruct (pedersen_binding (le_val a) v (le_val b) w ltac:(lia) ltac:(lia) E') as [[Ev Ea] | Lg].
    + left. split; [exact Ev|]. rewrite (enc_scalar_val a), (enc_scalar_val b); try apply Ha; try apply Hb. now apply enc_scalar_cong.
    + right. rewrite scalarmultBase_enc by apply enc_scalar_scalar. rewrite le_val_enc_scalar, H_encode.
      rewrite ed_mul_residue by apply base_in_subgroup. rewrite <- Lg. reflexivity.
  - rewrite G_key_encode. exact H_from_G.
Qed.

(** Masked amounts: for every shared secret, decoding what [ecdhEncode] made of a mask and an
    amount that are reduced gives them back, and the encoded values are reduced. *)
Theorem ecdh_roundtrip t k :
  scalar k -> reduced_scalar (ecdh_mask t) -> reduced_scalar (ecdh_amount t) ->
  exists t', ecdhEncode t k = Some t' /\ ecdhDecode t' k = Some t /\
    sc_check (ecdh_mask t') = Some 0 /\ sc_check (ecdh_amount t') = Some 0.
Proof.
  intros Hk Hm Ha. unfold ecdhEncode, ecdhDecode. rewrite hash_key_enc by exact Hk. cbn [bind].
  rewrite hash_key_enc by apply enc_scalar_scalar. cbn [bind]. set (h1 := Hs k). set (h2 := Hs (enc_scalar h1)).
  rewrite !sc_add_enc by (apply enc_scalar_scalar || apply Hm || apply Ha). cbn [bind]. eexists. split; [reflexivity|].
  cbn [ecdh_mask ecdh_amount senderPk]. rewrite !sc_sub_enc by apply enc_scalar_scalar. cbn [bind].
  rewrite !le_val_enc_scalar. split; [|split; apply sc_check_reduced, enc_scalar_reduced].
  assert (forall x h, reduced_scalar x -> enc_scalar ((le_val x + h mod ell) mod ell - h mod ell) = x) as K.
  { intros x h Hx. rewrite (enc_scalar_val x) at 2 by apply Hx. apply enc_scalar_cong. rewrite Zminus_mod_idemp_l. f_equal. lia. }
  rewrite !K by assumption. now destruct t.
Qed.
End Commitments.

(** *** Witnesses *)

Lemma commitment_correct_witness :
  exists C, commit 1000 (enc_scalar 7) = Some (Returns C) /\ genC (enc_scalar 7) 1000 = Some (Returns C) /\
    exists C' s S, commit 24 (enc_scalar 11) = Some (Returns C') /\ sc_add (enc_scalar 7) (enc_scalar 11) = Some s /\
      commit 1024 s = Some (Returns S) /\ addKeys C C' = Some (Returns S).
Proof.
  destruct (commitment_correct (RB := keccak_random) 1000 (enc_scalar 7) seeded ltac:(lia) (enc_scalar_reduced 7) seeded_ready) as (C & H1 & H2 & _ & H3 & _).
  exists C. split; [exact H1|]. split; [exact H2|]. exact (H3 24 (enc_scalar 11) ltac:(lia) ltac:(lia) (enc_scalar_reduced 11)).
Defined.

Lemma ecdh_roundtrip_witness :
  exists t', ecdhEncode (EcdhTuple (enc_scalar 7) (enc_scalar 1000) zero) (enc_scalar 3) = Some t' /\
    ecdhDecode t' (enc_scalar 3) = Some (EcdhTuple (enc_scalar 7) (enc_scalar 1000) zero) /\
    sc_check (ecdh_mask t') = Some 0 /\ sc_check (ecdh_amount t') = Some 0.
Proof.
  exact (ecdh_roundtrip (EcdhTuple (enc_scalar 7) (enc_scalar 1000) zero) (enc_scalar 3)
    (enc_scalar_scalar 3) (enc_scalar_reduced 7) (enc_scalar_reduced 1000)).
Defined.
