(* ===== verification/Borromean.v ===== *)
(** * Range proofs

    Models [genBorromean], [verifyBorromean], [proveRange] and [verRange] of rctSigs.cpp: 64
    rings of two keys that are signed together, and the proof built from them that the amount of
    a commitment has 64 bits. The arrays are filled in the order of the loops; an entry that the
    first loop of [genBorromean] leaves unset is [None] until the second loop sets it. The
    theorems are completeness, what the checks accept, and soundness: two accepted proofs with
    the same commitments determine an amount of 64 bits and a mask. *)

From Stdlib Require Import ZArith Zcong Lia List Bool String.
From S2P Require Import Prelude Bytes Fe FeMul Primes ScReduce Sc Curve Ge GeBytes GeScalar GeBase GeDouble.
From S2P Require Import GeHash Keccak TreeHash Order Varint Random Encode KeyOps Signature RingSig RctTypes RctTable RctOps.
Import ListNotations.

#[local] Open Scope Z_scope.
#[local] Open Scope list_scope.
#[local] Opaque ed_mul ed_add base_point encode enc_scalar point_code rct_H rct_H2.

Definition ge_p3_identity : ge_p3 := P3 fe_0 fe_1 fe_1 fe_0.

Section Borromean.
  Context {FH : FastHash} {RB : RandomBytes}.

(** ** The code: signing *)

(** The arrays [L[1]], [alpha] and [bb.s1] of [genBorromean]. *)
Record boro_state := BoroState {
  bo_L1 : list key;
  bo_alpha : list key;
  bo_s1 : list (option key);
  bo_rng : rng }.

Definition boro_commit (P2 : list key) (indices : list Z) (st : boro_state) (ii : nat) : option (outcome boro_state) :=
  let! naught := nth_error indices ii in
  let! '(alpha, r) := skGen (bo_rng st) in
  if naught =? 0 then
    let! L0 := scalarmultBase alpha in
    let! '(s1, r) := skGen r in
    let! c := hash_to_scalar_key L0 in
    let! P := nth_error P2 ii in
    let? L1 := addKeys2 s1 c P in
    Some (Returns (BoroState (bo_L1 st ++ [L1]) (bo_alpha st ++ [alpha]) (bo_s1 st ++ [Some s1]) r))
  else if naught =? 1 then
    let! L1 := scalarmultBase alpha in
    Some (Returns (BoroState (bo_L1 st ++ [L1]) (bo_alpha st ++ [alpha]) (bo_s1 st ++ [None]) r))
  else None.

(** The arrays [bb.s0] and [bb.s1]. *)
Definition boro_answer (x P1 : list key) (indices : list Z) (ee : key) (alphas : list key) (s1s : list (option key))
    (st : list key * list key * rng) (jj : nat) : option (outcome (list key * list key * rng)) :=
  let '(s0, s1, r) := st in
  let! index := nth_error indices jj in
  let! x := nth_error x jj in
  let! alpha := nth_error alphas jj in
  if index =? 0 then
    let! s0j := sc_mulsub x ee alpha in
    let! s1j := nth_error s1s jj in
    let! s1j := s1j in
    Some (Returns (s0 ++ [s0j], s1 ++ [s1j], r))
  else
    let! '(s0j, r) := skGen r in
    let! P := nth_error P1 jj in
    let? LL := addKeys2 s0j ee P in
    let! cc := hash_to_scalar_key LL in
    let! s1j := sc_mulsub x cc alpha in
    Some (Returns (s0 ++ [s0j], s1 ++ [s1j], r)).

Definition genBorromean (x P1 P2 : list key) (indices : list Z) (r : rng) : option (outcome (boroSig * rng)) :=
  let? st := ofold (boro_commit P2 indices) (seq 0 64) (BoroState [] [] [] r) in
  let! ee := hash_to_scalar_key64 (bo_L1 st) in
  let? '(s0, s1, r) := ofold (boro_answer x P1 indices ee (bo_alpha st) (bo_s1 st)) (seq 0 64) ([], [], bo_rng st) in
  Some (Returns (BoroSig s0 s1 ee, r)).

(** ** The code: verification *)

Definition boro_verify_step (bb : boroSig) (P1 P2 : list ge_p3) (Lv1 : list key) (ii : nat) : option (list key) :=
  let! P1i := nth_error P1 ii in
  let! P2i := nth_error P2 ii in
  let! s0i := nth_error (s0 bb) ii in
  let! s1i := nth_error (s1 bb) ii in
  let! p2 := ge_double_scalarmult_base_vartime (ee bb) P1i s0i in
  let! LL := ge_tobytes p2 in
  let! chash := hash_to_scalar_key LL in
  let! p2 := ge_double_scalarmult_base_vartime chash P2i s1i in
  let! Lv1i := ge_tobytes p2 in
  Some (Lv1 ++ [Lv1i]).

Definition verifyBorromean_p3 (bb : boroSig) (P1 P2 : list ge_p3) : option bool :=
  let! Lv1 := foldM (boro_verify_step bb P1 P2) (seq 0 64) [] in
  let! eeComputed := hash_to_scalar_key64 Lv1 in
  Some (equalKeys eeComputed (ee bb)).

(** The decoded keys, or [None] at the first that is not a point. *)
Fixpoint decode_pairs (P1 P2 : list key) (idx : list nat) : option (option (list ge_p3 * list ge_p3)) :=
  match idx with
  | [] => Some (Some ([], []))
  | i :: idx =>
      let! k1 := nth_error P1 i in
      if? p1 := ge_frombytes_vartime k1 else Some None in
      let! k2 := nth_error P2 i in
      if? p2 := ge_frombytes_vartime k2 else Some None in
      if? l := decode_pairs P1 P2 idx else Some None in
      Some (Some (p1 :: fst l, p2 :: snd l))
  end.

Definition verifyBorromean (bb : boroSig) (P1 P2 : list key) : option bool :=
  if? l := decode_pairs P1 P2 (seq 0 64) else Some false in
  verifyBorromean_p3 bb (fst l) (snd l).

(** ** The code: range proofs *)

(** The variables that the loop of [proveRange] changes. *)
Record range_state := RangeState {
  rp_C : key;
  rp_mask : key;
  rp_ai : list key;
  rp_Ci : list key;
  rp_CiH : list key;
  rp_rng : rng }.

Definition range_step (b : list Z) (st : range_state) (i : nat) : option (outcome range_state) :=
  let! '(ai, r) := skGen (rp_rng st) in
  let! bi := nth_error b i in
  let! H2i := nth_error rct_H2 i in
  let? Ci :=
    (if bi =? 0 then let! Ci := scalarmultBase ai in Some (Returns Ci)
     else if bi =? 1 then addKeys1 ai H2i
     else None) in
  let? CiH := subKeys Ci H2i in
  let! mask := sc_add (rp_mask st) ai in
  let? C := addKeys (rp_C st) Ci in
  Some (Returns (RangeState C mask (rp_ai st ++ [ai]) (rp_Ci st ++ [Ci]) (rp_CiH st ++ [CiH]) r)).

(** The commitment, its mask, the proof, and the generator. *)
Definition proveRange (amount : Z) (r : rng) : option (outcome (key * key * rangeSig * rng)) :=
  let! b := d2b amount in
  let? st := ofold (range_step b) (seq 0 64) (RangeState identity sc_0 [] [] [] r) in
  let? '(sig, r) := genBorromean (rp_ai st) (rp_Ci st) (rp_CiH st) b (rp_rng st) in
  Some (Returns (rp_C st, rp_mask st, RangeSig sig (rp_Ci st), r)).

(** The sum and the arrays [asCi] and [CiH] of [verRange]; [None] is [return false]. *)
Fixpoint range_points (Ci : list key) (idx : list nat) (Ctmp : ge_p3) : option (option (ge_p3 * list ge_p3 * list ge_p3)) :=
  match idx with
  | [] => Some (Some (Ctmp, [], []))
  | i :: idx =>
      let! H2i := nth_error rct_H2 i in
      if? p3 := ge_frombytes_vartime H2i else Some None in
      let! cached := ge_p3_to_cached p3 in
      let! Cii := nth_error Ci i in
      if? asCi := ge_frombytes_vartime Cii else Some None in
      let! p1 := ge_sub asCi cached in
      let! cached := ge_p3_to_cached asCi in
      let! CiH := ge_p1p1_to_p3 p1 in
      let! p1 := ge_add Ctmp cached in
      let! Ctmp := ge_p1p1_to_p3 p1 in
      if? l := range_points Ci idx Ctmp else Some None in
      let '(Ctmp, asCis, CiHs) := l in
      Some (Some (Ctmp, asCi :: asCis, CiH :: CiHs))
  end.

(** Nothing inside the [try] block throws. *)
Definition verRange (C : key) (sig : rangeSig) : option bool :=
  if? l := range_points (Ci sig) (seq 0 64) ge_p3_identity else Some false in
  let '(Ctmp_p3, asCi, CiH) := l in
  let! Ctmp := ge_p3_tobytes Ctmp_p3 in
  if negb (equalKeys C Ctmp) then Some false
  else
    let! ok := verifyBorromean_p3 (asig sig) asCi CiH in
    if negb ok then Some false else Some true.
(** ** Verification on encoded points *)

(** The commitment of one ring: the second key's, with the challenge from the first key's. *)
Definition ring_commit (e : Z) (P1 P2 : point) (s0 s1 : key) : point :=
  lin (Hs (encode (lin e P1 (le_val s0) base_point))) P2 (le_val s1) base_point.

Definition boro_point (bb : boroSig) (P1 P2 : list point) (i : nat) : point :=
  ring_commit (le_val (ee bb)) (nth i P1 ed_0) (nth i P2 ed_0) (nth i (s0 bb) []) (nth i (s1 bb) []).

(** The string that is hashed to the challenge. *)
Definition boro_bytes (bb : boroSig) (P1 P2 : list point) : list Z :=
  List.concat (map (fun i => encode (boro_point bb P1 P2 i)) (seq 0 64)).

(** Scalars of 255 bits, 64 in each array. *)
Definition boro_sized (bb : boroSig) : Prop :=
  List.length (s0 bb) = 64%nat /\ List.length (s1 bb) = 64%nat /\ scalar255 (ee bb) /\
  Forall scalar255 (s0 bb) /\ Forall scalar255 (s1 bb).

Definition represents (ps : list ge_p3) (Ps : list point) : Prop := Forall2 (fun p P => p ~> P) ps Ps.

Lemma represents_nth ps Ps i :
  represents ps Ps -> (i < List.length Ps)%nat -> exists p, nth_error ps i = Some p /\ p ~> nth i Ps ed_0.
Proof.
  intros H. revert i. induction H as [|p P ps Ps Hp _ IH]; intros i Hi; cbn [List.length] in Hi; [lia|].
  destruct i as [|i]; [now exists p|]. apply IH. lia.
Qed.

Lemma Forall_nth_error {A} (Q : A -> Prop) l i d :
  Forall Q l -> (i < List.length l)%nat -> nth_error l i = Some (nth i l d) /\ Q (nth i l d).
Proof.
  intros H Hi. split; [now apply nth_error_nth'|]. apply (proj1 (Forall_forall _ _) H), nth_In, Hi.
Qed.

Lemma scalar255_hash h : scalar255 (enc_scalar h).
Proof. apply reduced_255, enc_scalar_reduced. Qed.

(** The keys of the rings' commitments. *)
Definition boro_keys (bb : boroSig) (P1 P2 : list point) : list key := map (fun i => encode (boro_point bb P1 P2 i)) (seq 0 64).

Lemma boro_keys_scalar bb P1 P2 : Forall scalar (boro_keys bb P1 P2).
Proof. apply Forall_forall. intros k Hk. apply in_map_iff in Hk as (i & <- & _). apply encode_scalar. Qed.

Lemma length_boro_keys bb P1 P2 : List.length (boro_keys bb P1 P2) = 64%nat.
Proof. unfold boro_keys. now rewrite length_map, length_seq. Qed.

Lemma hash_boro_keys bb P1 P2 : hash_to_scalar_key64 (boro_keys bb P1 P2) = Some (enc_scalar (Hs (boro_bytes bb P1 P2))).
Proof. apply hash_key64_enc; [apply boro_keys_scalar | apply length_boro_keys]. Qed.

Lemma verify_steps_spec bb p1 p2 P1 P2 :
  boro_sized bb -> represents p1 P1 -> represents p2 P2 -> List.length P1 = 64%nat -> List.length P2 = 64%nat ->
  foldM (boro_verify_step bb p1 p2) (seq 0 64) [] = Some (boro_keys bb P1 P2).
Proof.
  intros (L0 & L1 & He & H0 & H1) R1 R2 LP1 LP2. apply returns_eq. unfold boro_keys.
  eapply returns_weaken; [apply (foldM_seq (fun i l => l = map (fun i => encode (boro_point bb P1 P2 i)) (seq 0 i))); [reflexivity|]|].
  { intros i l Hi ->. unfold boro_verify_step.
    destruct (represents_nth p1 P1 i R1 ltac:(lia)) as (q1 & -> & Hq1). cbn [bind].
    destruct (represents_nth p2 P2 i R2 ltac:(lia)) as (q2 & -> & Hq2). cbn [bind].
    destruct (Forall_nth_error _ (s0 bb) i [] H0 ltac:(lia)) as [-> S0]. cbn [bind].
    destruct (Forall_nth_error _ (s1 bb) i [] H1 ltac:(lia)) as [-> S1]. cbn [bind].
    eapply returns_bind; [apply double_base_spec; [exact Hq1 | exact He | exact S0]|]. cbv beta. intros t Ht.
    eapply tobytes_bind; [exact Ht|]. rewrite hash_key_enc by apply encode_scalar. cbn [bind].
    eapply returns_bind; [apply double_base_spec; [exact Hq2 | apply scalar255_hash | exact S1]|]. cbv beta. intros u Hu.
    rewrite le_val_enc_scalar, Z.mod_small in Hu by apply Hs_range.
    eapply tobytes_bind; [exact Hu|]. cbn [returns]. rewrite seq_S, map_app. reflexivity. }
  cbv beta. cbn [Nat.add]. trivial.
Qed.

Lemma verify_p3_spec bb p1 p2 P1 P2 :
  boro_sized bb -> represents p1 P1 -> represents p2 P2 -> List.length P1 = 64%nat -> List.length P2 = 64%nat ->
  verifyBorromean_p3 bb p1 p2 = Some (equalKeys (enc_scalar (Hs (boro_bytes bb P1 P2))) (ee bb)).
Proof.
  intros Hs R1 R2 L1 L2. unfold verifyBorromean_p3. rewrite (verify_steps_spec bb p1 p2 P1 P2 Hs R1 R2 L1 L2), bind_Some, hash_boro_keys. reflexivity.
Qed.

Lemma decode_pairs_ok P1 P2 idx :
  (forall i, In i idx -> (i < List.length P1)%nat /\ (i < List.length P2)%nat) -> Forall on_curve P1 -> Forall on_curve P2 ->
  exists p1 p2, decode_pairs (map encode P1) (map encode P2) idx = Some (Some (p1, p2)) /\
    represents p1 (map (fun i => nth i P1 ed_0) idx) /\ represents p2 (map (fun i => nth i P2 ed_0) idx).
Proof.
  intros Hi H1 H2. induction idx as [|i idx IH]; [exists [], []; repeat split; constructor|]. cbn [decode_pairs map].
  destruct (Hi i (or_introl eq_refl)) as [L1 L2].
  destruct (Forall_nth_error _ _ i ed_0 H1 L1) as [E1 C1]. destruct (Forall_nth_error _ _ i ed_0 H2 L2) as [E2 C2].
  rewrite !nth_error_map, E1, E2. cbn [option_map bind].
  destruct (frombytes_encode _ C1) as (q1 & -> & R1). destruct (frombytes_encode _ C2) as (q2 & -> & R2). cbn [bind].
  destruct IH as (p1 & p2 & -> & Rp1 & Rp2); [intros j Hj; apply Hi; now right|]. cbn [bind fst snd].
  exists (q1 :: p1), (q2 :: p2). repeat split; constructor; assumption.
Qed.

Lemma map_nth_seq {A} (l : list A) d : map (fun i => nth i l d) (seq 0 (List.length l)) = l.
Proof.
  induction l as [|x l IH]; [reflexivity|]. cbn [List.length seq map nth]. rewrite <- seq_shift, map_map. now f_equal.
Qed.

Lemma verify_spec bb P1 P2 :
  boro_sized bb -> List.length P1 = 64%nat -> List.length P2 = 64%nat -> Forall on_curve P1 -> Forall on_curve P2 ->
  verifyBorromean bb (map encode P1) (map encode P2) = Some (equalKeys (enc_scalar (Hs (boro_bytes bb P1 P2))) (ee bb)).
Proof.
  intros Hs L1 L2 C1 C2. unfold verifyBorromean.
  destruct (decode_pairs_ok P1 P2 (seq 0 64)) as (p1 & p2 & -> & R1 & R2); trivial; [intros i Hi%in_seq; lia|]. cbn [bind fst snd].
  rewrite <- L1, map_nth_seq in R1. rewrite <- L2, map_nth_seq in R2. now apply verify_p3_spec.
Qed.
(** ** Signing *)

Section Sign.
  Variables (xs : list key) (P1 P2 : list point) (b : list Z).

(** Which secret is known: of the first key for a bit 0, of the second for a bit 1. *)
Definition knows (j : nat) : Prop :=
  exists x, nth_error xs j = Some x /\ reduced_scalar x /\ on_curve (nth j P1 ed_0) /\ on_curve (nth j P2 ed_0) /\
    ((nth_error b j = Some 0 /\ nth j P1 ed_0 = ed_mul (le_val x) base_point) \/
     (nth_error b j = Some 1 /\ nth j P2 ed_0 = ed_mul (le_val x) base_point)).

  Hypothesis Hknows : forall j, (j < 64)%nat -> knows j.
  Hypothesis Hl1 : List.length P1 = 64%nat.
  Hypothesis Hl2 : List.length P2 = 64%nat.

Lemma nth_encode (Ps : list point) j : (j < List.length Ps)%nat -> nth_error (map encode Ps) j = Some (encode (nth j Ps ed_0)).
Proof. intros Hj. rewrite nth_error_map, (nth_error_nth' Ps ed_0 Hj). reflexivity. Qed.

(** The commitment of ring [j] after the first loop. *)
Definition committed (st : boro_state) (j : nat) : Prop :=
  exists alpha, nth_error (bo_alpha st) j = Some alpha /\ reduced_scalar alpha /\
    ((nth_error b j = Some 0 /\ exists s, nth_error (bo_s1 st) j = Some (Some s) /\ reduced_scalar s /\
        nth_error (bo_L1 st) j = Some (encode (lin (Hs (encode (ed_mul (le_val alpha) base_point))) (nth j P2 ed_0) (le_val s) base_point))) \/
     (nth_error b j = Some 1 /\ nth_error (bo_L1 st) j = Some (encode (ed_mul (le_val alpha) base_point)))).

Definition commit_invariant (i : nat) (st : boro_state) : Prop :=
  List.length (bo_L1 st) = i /\ List.length (bo_alpha st) = i /\ List.length (bo_s1 st) = i /\ rng_ready (bo_rng st) /\
  Forall scalar (bo_L1 st) /\ forall j, (j < i)%nat -> committed st j.

Lemma nth_error_last {A} (l : list A) x i : List.length l = i -> nth_error (l ++ [x]) i = Some x.
Proof. intros <-. rewrite nth_error_app2, Nat.sub_diag by lia. reflexivity. Qed.

(** Appending keeps the earlier rings. *)
Lemma committed_app L alphas s1s r L' a' s' r' j :
  (j < List.length L)%nat -> List.length alphas = List.length L -> List.length s1s = List.length L ->
  committed (BoroState L alphas s1s r) j -> committed (BoroState (L ++ [L']) (alphas ++ [a']) (s1s ++ [s']) r') j.
Proof.
  intros Hj La Ls (alpha & Ea & Ra & H). unfold committed. cbn [bo_L1 bo_alpha bo_s1] in *.
  exists alpha. rewrite !nth_error_app1 by lia. auto.
Qed.

Lemma boro_commit_spec i st :
  (i < 64)%nat -> commit_invariant i st -> oreturns (boro_commit (map encode P2) b st i) (commit_invariant (S i)).
Proof.
  intros Hi (LL & La & Ls & Hr & HL & Hc). destruct st as [L alphas s1s r]. cbn [bo_L1 bo_alpha bo_s1 bo_rng] in *.
  destruct (Hknows i Hi) as (x & _ & _ & _ & C2 & Hb). unfold boro_commit, oreturns. cbn [bo_L1 bo_alpha bo_s1 bo_rng].
  assert (forall L' a' s' r', scalar L' -> rng_ready r' -> committed (BoroState (L ++ [L']) (alphas ++ [a']) (s1s ++ [s']) r') i ->
    commit_invariant (S i) (BoroState (L ++ [L']) (alphas ++ [a']) (s1s ++ [s']) r')) as Step.
  { intros L' a' s' r' HL' Hr' Hi'. unfold commit_invariant. cbn [bo_L1 bo_alpha bo_s1 bo_rng]. rewrite !length_app. cbn [List.length].
    repeat (split; [lia || assumption|]). split; [apply Forall_app; auto|]. intros j Hj.
    destruct (Nat.eq_dec j i) as [->|]; [exact Hi'|]. apply (committed_app L alphas s1s r); try lia. apply Hc. lia. }
  destruct Hb as [[Eb _] | [Eb _]]; rewrite Eb; cbn [bind];
    (eapply returns_bind; [now apply skGen_spec|]; cbv beta; intros [alpha r1] [Ra Hr1]); cbn [Z.eqb];
    rewrite scalarmultBase_enc by apply Ra; cbn [bind].
  - eapply returns_bind; [now apply skGen_spec|]. cbv beta. intros [s r2] [Rs Hr2].
    rewrite hash_key_enc by apply encode_scalar. cbn [bind]. rewrite nth_encode by lia. cbn [bind].
    rewrite addKeys2_enc by (trivial; apply reduced_255; trivial; apply enc_scalar_reduced). cbn [obind returns].
    rewrite le_val_enc_scalar, Z.mod_small by apply Hs_range. apply Step; [apply encode_scalar | exact Hr2|].
    exists alpha. cbn [bo_L1 bo_alpha bo_s1]. rewrite !nth_error_last by assumption. split; [reflexivity|]. split; [exact Ra|].
    left. split; [exact Eb|]. now exists s.
  - cbn [returns]. apply Step; [apply encode_scalar | exact Hr1|].
    exists alpha. cbn [bo_L1 bo_alpha bo_s1]. rewrite !nth_error_last by assumption. split; [reflexivity|]. split; [exact Ra|]. now right.
Qed.

(** The answers to the challenge [e] for the rings committed in [st]. *)
Definition answered (e : Z) (st : boro_state) (s0s s1s : list key) (j : nat) : Prop :=
  exists t0 t1, nth_error s0s j = Some t0 /\ nth_error s1s j = Some t1 /\ reduced_scalar t0 /\ reduced_scalar t1 /\
    nth_error (bo_L1 st) j = Some (encode (ring_commit e (nth j P1 ed_0) (nth j P2 ed_0) t0 t1)).

Definition answer_invariant (e : Z) (st : boro_state) (i : nat) (t : list key * list key * rng) : Prop :=
  let '(s0s, s1s, r) := t in
  List.length s0s = i /\ List.length s1s = i /\ rng_ready r /\ forall j, (j < i)%nat -> answered e st s0s s1s j.

Lemma boro_answer_spec e st i t :
  0 <= e < ell -> commit_invariant 64 st -> (i < 64)%nat -> answer_invariant e st i t ->
  oreturns (boro_answer xs (map encode P1) b (enc_scalar e) (bo_alpha st) (bo_s1 st) t i) (answer_invariant e st (S i)).
Proof.
  intros He (_ & _ & _ & _ & _ & Hc) Hi Ht. destruct t as [[s0s s1s] r]. destruct Ht as (L0 & L1 & Hr & Ha). unfold boro_answer, oreturns.
  assert (forall t0 t1 r', rng_ready r' -> answered e st (s0s ++ [t0]) (s1s ++ [t1]) i -> answer_invariant e st (S i) (s0s ++ [t0], s1s ++ [t1], r')) as Step.
  { intros t0 t1 r' Hr' Hi'. unfold answer_invariant. rewrite !length_app. cbn [List.length].
    repeat (split; [lia || assumption|]). intros j Hj. destruct (Nat.eq_dec j i) as [->|]; [exact Hi'|].
    destruct (Ha j ltac:(lia)) as (u0 & u1 & E0 & E1 & H). exists u0, u1. rewrite !nth_error_app1 by lia. auto. }
  destruct (Hknows i Hi) as (x & Ex & Rx & C1 & C2 & Hk). destruct (Hc i Hi) as (alpha & Ea & Ra & Hb).
  assert (le_val (enc_scalar e) = e) as Ee by (rewrite le_val_enc_scalar; now apply Z.mod_small).
  rewrite Ex, Ea. destruct Hk as [[Eb EP] | [Eb EP]]; rewrite Eb; cbn [bind Z.eqb];
    (destruct Hb as [[Eb' Hb] | [Eb' Hb]]; [|]; try congruence).
  - rewrite sc_mulsub_enc by (apply Rx || apply Ra || apply enc_scalar_scalar). cbn [bind].
    destruct Hb as (s & -> & Rs & EL). cbn [bind returns]. apply Step; [exact Hr|].
    exists (enc_scalar (le_val alpha - le_val x * le_val (enc_scalar e))), s. rewrite !nth_error_last by assumption.
    do 2 (split; [reflexivity|]). split; [apply enc_scalar_reduced|]. split; [exact Rs|]. rewrite EL. do 2 f_equal.
    unfold ring_commit. rewrite EP, le_val_enc_scalar, Ee, (Z.mul_comm (le_val x)), answer_correct by apply base_in_subgroup. reflexivity.
  - eapply returns_bind; [now apply skGen_spec|]. cbv beta. intros [t0 r1] [R0 Hr1]. rewrite nth_encode by lia. cbn [bind].
    rewrite addKeys2_enc by (trivial; apply reduced_255; trivial; apply enc_scalar_reduced). cbn [obind]. rewrite Ee.
    rewrite hash_key_enc by apply encode_scalar. cbn [bind]. rewrite sc_mulsub_enc by (apply Rx || apply Ra || apply enc_scalar_scalar).
    cbn [bind returns]. apply Step; [exact Hr1|]. set (c := Hs _). assert (0 <= c < ell) as Hcr by apply Hs_range.
    exists t0, (enc_scalar (le_val alpha - le_val x * le_val (enc_scalar c))). rewrite !nth_error_last by assumption.
    do 2 (split; [reflexivity|]). split; [exact R0|]. split; [apply enc_scalar_reduced|]. rewrite Hb. do 2 f_equal.
    unfold ring_commit. fold c. rewrite EP, !le_val_enc_scalar, (Z.mod_small c ell Hcr), (Z.mul_comm (le_val x)).
    now rewrite answer_correct by apply base_in_subgroup.
Qed.

(** Signing returns a signature that the check accepts. *)
Lemma genBorromean_spec r :
  rng_ready r -> oreturns (genBorromean xs (map encode P1) (map encode P2) b r) (fun '(bb, r') =>
    boro_sized bb /\ Forall reduced_scalar (s0 bb) /\ Forall reduced_scalar (s1 bb) /\ reduced_scalar (ee bb) /\ rng_ready r' /\ ee bb = enc_scalar (Hs (boro_bytes bb P1 P2))).
Proof.
  intros Hr. unfold genBorromean. eapply oreturns_bind.
  { apply (ofold_seq commit_invariant); [|intros; apply boro_commit_spec; trivial; lia].
    repeat (split; [reflexivity || assumption|]). split; [constructor | intros; lia]. }
  cbv beta. intros st Hst. cbn [Nat.add] in Hst. pose proof Hst as (LL & _ & _ & Hr1 & HL & _).
  rewrite hash_key64_enc by assumption. cbn [bind]. set (e := Hs (List.concat (bo_L1 st))). assert (0 <= e < ell) as He by apply Hs_range.
  eapply oreturns_bind.
  { apply (ofold_seq (answer_invariant e st)); [|intros; apply boro_answer_spec; trivial; lia].
    repeat (split; [reflexivity || assumption|]). intros; lia. }
  cbv beta. intros [[s0s s1s] r2] (L0 & L1 & Hr2 & Ha). cbn [Nat.add] in *. cbn [oreturns returns].
  assert (forall (l : list key), List.length l = 64%nat -> (forall j, (j < 64)%nat -> exists x, nth_error l j = Some x /\ reduced_scalar x) -> Forall reduced_scalar l) as K.
  { intros l Hl H. apply Forall_forall. intros y Hy. apply In_nth_error in Hy as [j Ej].
    assert (j < 64)%nat as Lj by (rewrite <- Hl; apply (proj1 (nth_error_Some l j)); rewrite Ej; discriminate). destruct (H j Lj) as (x & Ex & Rx). assert (x = y) as <- by congruence. exact Rx. }
  assert (Forall reduced_scalar s0s) as F0 by (apply K; trivial; intros j Hj; destruct (Ha j Hj) as (t0 & t1 & E0 & _ & R0 & _); eauto).
  assert (Forall reduced_scalar s1s) as F1 by (apply K; trivial; intros j Hj; destruct (Ha j Hj) as (t0 & t1 & _ & E1 & _ & R1 & _); eauto).
  cbn [s0 s1 ee]. split; [|split; [exact F0|]; split; [exact F1|]; split; [apply enc_scalar_reduced|]; split; [exact Hr2|]].
  - unfold boro_sized. cbn [s0 s1 ee]. repeat (split; [assumption || apply scalar255_hash|]).
    split; eapply Forall_impl; try eassumption; apply reduced_255.
  - unfold e, boro_bytes. do 3 f_equal. apply nth_error_ext. intros j. rewrite nth_error_map, nth_error_seq.
    destruct (Nat.ltb_spec j 64) as [Hj|Hj]; cbn [option_map]; [|now apply nth_error_None; lia].
    destruct (Ha j Hj) as (t0 & t1 & E0 & E1 & _ & _ & ->). do 2 f_equal. unfold boro_point. cbn [s0 s1 ee].
    rewrite (nth_error_nth _ _ _ E0), (nth_error_nth _ _ _ E1), le_val_enc_scalar, Z.mod_small by exact He. reflexivity.
Qed.
End Sign.

(** ** Range proofs on encoded points *)

Definition bit (v : Z) (j : nat) : Z := (v / 2 ^ Z.of_nat j) mod 2.

(** The second key of ring [j]: [P_j - 2^j H]. *)
Definition minus_H (Ps : list point) (j : nat) : point := ed_add (nth j Ps ed_0) (ed_opp (ed_mul (2 ^ Z.of_nat j) H_point)).

Definition second_keys (Ps : list point) : list point := map (minus_H Ps) (seq 0 64).

Definition sum_from (Ps : list point) (S : point) (idx : list nat) : point :=
  fold_left (fun S j => ed_add S (nth j Ps ed_0)) idx S.

Lemma range_points_spec Ps idx q S :
  Forall on_curve Ps -> (forall i, In i idx -> (i < List.length Ps)%nat /\ (i < 64)%nat) -> q ~> S ->
  returns (range_points (map encode Ps) idx q) (fun o => exists c l1 l2, o = Some (c, l1, l2) /\
    c ~> sum_from Ps S idx /\ represents l1 (map (fun i => nth i Ps ed_0) idx) /\ represents l2 (map (minus_H Ps) idx)).
Proof.
  intros HP. revert q S. induction idx as [|i idx IH]; intros q S Hi Hq; cbn [range_points].
  - exists q, [], []. repeat split; trivial; constructor.
  - destruct (Hi i (or_introl eq_refl)) as [Li L64]. rewrite nth_H2 by exact L64. cbn [bind].
    eapply frombytes_bind; [apply ed_mul_on_curve, H_on_curve|]. intros h Hh. cbv beta iota.
    eapply returns_bind; [apply ge_p3_to_cached_spec, Hh|]. cbv beta. intros ch Hch.
    destruct (Forall_nth_error _ Ps i ed_0 HP Li) as [E C]. rewrite nth_error_map, E. cbn [option_map bind].
    eapply frombytes_bind; [exact C|]. intros a Ha. cbv beta iota.
    eapply returns_bind; [apply (ge_sub_spec a ch _ _ Ha Hch)|]. cbv beta. intros p1 Hp1.
    eapply returns_bind; [apply ge_p3_to_cached_spec, Ha|]. cbv beta. intros ca Hca.
    eapply returns_bind; [apply ge_p1p1_to_p3_spec, Hp1|]. cbv beta. intros m Hm.
    eapply returns_bind; [apply (ge_add_spec q ca _ _ Hq Hca)|]. cbv beta. intros p2 Hp2.
    eapply returns_bind; [apply ge_p1p1_to_p3_spec, Hp2|]. cbv beta. intros q' Hq'.
    eapply returns_bind; [apply (IH q' _ (fun j Hj => Hi j (or_intror Hj)) Hq')|]. cbv beta.
    intros o (c & l1 & l2 & -> & Hc & R1 & R2). cbn [returns].
    exists c, (a :: l1), (m :: l2). split; [reflexivity|]. split; [exact Hc|]. split; constructor; assumption.
Qed.

Lemma verRange_spec C bb Ps :
  List.length C = 32%nat -> boro_sized bb -> List.length Ps = 64%nat -> Forall on_curve Ps ->
  verRange C (RangeSig bb (map encode Ps)) =
    Some (equalKeys C (encode (sum_from Ps ed_0 (seq 0 64))) &&
          equalKeys (enc_scalar (Hs (boro_bytes bb Ps (second_keys Ps)))) (ee bb)).
Proof.
  intros HC Hs HL HP. apply returns_eq. unfold verRange. cbn [Ci asig]. eapply returns_bind.
  { apply (range_points_spec Ps (seq 0 64) ge_p3_identity ed_0 HP); [intros i Hi%in_seq; lia | exact ge_p3_0_spec]. }
  cbv beta. intros o (c & l1 & l2 & -> & Hc & R1 & R2). cbn [bind]. cbv beta iota.
  eapply p3_tobytes_bind; [exact Hc|]. destruct (equalKeys C _); cbn [negb andb]; [|reflexivity].
  rewrite <- HL, map_nth_seq in R1. rewrite (verify_p3_spec bb l1 l2 Ps (second_keys Ps) Hs R1 R2 HL).
  - cbn [bind]. now destruct (equalKeys _ _).
  - unfold second_keys. now rewrite length_map, length_seq.
Qed.

(** ** Proving *)

Lemma zero_enc : zero = enc_scalar 0.
Proof. exact sc_0_enc. Qed.

Lemma encode_ed_0 : identity = encode ed_0.
Proof. vm_compute. reflexivity. Qed.

Lemma pedersen_0 a : pedersen a 0 = ed_mul a base_point.
Proof. unfold pedersen, lin. rewrite ed_mul_0, ed_add_comm. apply ed_add_0_l. Qed.

Lemma pedersen_minus a v n : ed_add (pedersen a v) (ed_opp (ed_mul n H_point)) = pedersen a (v - n).
Proof.
  rewrite <- ed_mul_opp by apply H_on_curve.
  replace (ed_mul (- n) H_point) with (pedersen 0 (- n)) by (unfold pedersen, lin; rewrite ed_mul_0; apply ed_add_0_l).
  rewrite pedersen_add. f_equal; lia.
Qed.

Lemma mod_next v i : 0 <= v -> v mod 2 ^ Z.of_nat (S i) = v mod 2 ^ Z.of_nat i + bit v i * 2 ^ Z.of_nat i.
Proof.
  intros Hv. rewrite Nat2Z.inj_succ, Z.pow_succ_r, (Z.mul_comm 2) by lia. unfold bit.
  rewrite Z.rem_mul_r by (try apply Z.pow_pos_nonneg; lia). lia.
Qed.

Definition sum_vals (l : list key) : Z := fold_right Z.add 0 (map le_val l).

Lemma sum_vals_snoc l k : sum_vals (l ++ [k]) = sum_vals l + le_val k.
Proof. unfold sum_vals. rewrite map_app. induction (map le_val l) as [|x m IH]; cbn [app map fold_right] in *; lia. Qed.

(** The first key of ring [j] for the mask [a] and the amount [v]. *)
Definition bit_commit (v : Z) (ai : list key) (j : nat) : point := pedersen (le_val (nth j ai [])) (bit v j * 2 ^ Z.of_nat j).

Definition range_invariant (v : Z) (i : nat) (st : range_state) : Prop :=
  List.length (rp_ai st) = i /\ Forall reduced_scalar (rp_ai st) /\ rng_ready (rp_rng st) /\
  rp_C st = encode (pedersen (sum_vals (rp_ai st)) (v mod 2 ^ Z.of_nat i)) /\ rp_mask st = enc_scalar (sum_vals (rp_ai st)) /\
  rp_Ci st = map encode (map (bit_commit v (rp_ai st)) (seq 0 i)) /\
  rp_CiH st = map encode (map (fun j => ed_add (bit_commit v (rp_ai st) j) (ed_opp (ed_mul (2 ^ Z.of_nat j) H_point))) (seq 0 i)).

Lemma bit_cases v j : bit v j = 0 \/ bit v j = 1.
Proof. unfold bit. pose proof (Z.mod_pos_bound (v / 2 ^ Z.of_nat j) 2). lia. Qed.

Lemma range_step_spec v i st :
  0 <= v -> (i < 64)%nat -> range_invariant v i st -> oreturns (range_step (le_bits 64 v) st i) (range_invariant v (S i)).
Proof.
  intros Hv Hi (Ll & Ra & Hr & EC & Em & ECi & ECH). unfold range_step, oreturns.
  eapply returns_bind; [now apply skGen_spec|]. cbv beta. intros [a r] [Rk Hr1].
  rewrite nth_le_bits, nth_H2 by exact Hi. cbn [bind]. fold (bit v i).
  set (P := pedersen (le_val a) (bit v i * 2 ^ Z.of_nat i)).
  assert ((if bit v i =? 0 then let! Ci := scalarmultBase a in Some (Returns Ci)
     else if bit v i =? 1 then addKeys1 a (encode (ed_mul (2 ^ Z.of_nat i) H_point)) else None) = Some (Returns (encode P))) as ->.
  { unfold P. destruct (bit_cases v i) as [-> | ->]; cbn [Z.eqb].
    - rewrite scalarmultBase_enc by apply Rk. now rewrite Z.mul_0_l, pedersen_0.
    - rewrite addKeys1_enc by (apply Rk || apply ed_mul_on_curve, H_on_curve). now rewrite Z.mul_1_l. }
  cbn [obind]. assert (on_curve P) as HP by apply pedersen_on_curve.
  rewrite subKeys_enc by (exact HP || apply ed_mul_on_curve, H_on_curve). cbn [obind].
  rewrite Em, sc_add_enc by (apply enc_scalar_scalar || apply Rk). cbn [bind].
  rewrite EC, addKeys_enc by (exact HP || apply pedersen_on_curve). cbn [obind returns].
  unfold range_invariant. cbn [rp_ai rp_C rp_mask rp_Ci rp_CiH rp_rng]. rewrite length_app, sum_vals_snoc, mod_next by exact Hv.
  assert (forall j, (j < i)%nat -> bit_commit v (rp_ai st ++ [a]) j = bit_commit v (rp_ai st) j) as Ej.
  { intros j Hj. unfold bit_commit. now rewrite app_nth1 by lia. }
  assert (bit_commit v (rp_ai st ++ [a]) i = P) as Ei.
  { unfold bit_commit. rewrite app_nth2, Ll, Nat.sub_diag by lia. reflexivity. }
  split; [cbn [List.length]; lia|]. split; [apply Forall_app; auto|]. split; [exact Hr1|].
  split; [unfold P; now rewrite pedersen_add|].
  split; [apply enc_scalar_cong; rewrite le_val_enc_scalar; apply Z.add_mod_idemp_l; discriminate|].
  rewrite seq_S, !map_app, ECi, ECH. cbn [map Nat.add]. rewrite Ei.
  split; f_equal; f_equal; apply map_ext_in; intros j Hj%in_seq; rewrite Ej by lia; reflexivity.
Qed.

Lemma sum_bits v ai n :
  0 <= v -> (n <= 64)%nat -> List.length ai = 64%nat ->
  sum_from (map (bit_commit v ai) (seq 0 64)) ed_0 (seq 0 n) = pedersen (sum_vals (firstn n ai)) (v mod 2 ^ Z.of_nat n).
Proof.
  intros Hv Hn Hl. induction n as [|n IH].
  - cbn. rewrite Z.mod_1_r. rewrite pedersen_0. symmetry. apply ed_mul_0.
  - unfold sum_from in *. rewrite (seq_S n 0), fold_left_app, IH by lia. cbn [fold_left Nat.add].
    rewrite nth_map_seq by lia. unfold bit_commit. rewrite pedersen_add, <- mod_next by exact Hv. f_equal.
    destruct (nth_error ai n) as [a|] eqn:E; [|apply nth_error_None in E; lia].
    rewrite (firstn_next ai n a E), sum_vals_snoc. now rewrite (nth_error_nth _ _ _ E).
Qed.

(** Proving returns a commitment with its mask, and a proof that is accepted. *)
Lemma proveRange_spec v r :
  0 <= v < 2 ^ 64 -> rng_ready r ->
  oreturns (proveRange v r) (fun '(C, m, sig, r') => exists a bb Ps,
    C = encode (pedersen a v) /\ m = enc_scalar a /\ sig = RangeSig bb (map encode Ps) /\
    boro_sized bb /\ Forall reduced_scalar (s0 bb) /\ Forall reduced_scalar (s1 bb) /\ reduced_scalar (ee bb) /\
    List.length Ps = 64%nat /\ Forall on_curve Ps /\ verRange C sig = Some true /\ rng_ready r').
Proof.
  intros Hv Hr. unfold proveRange. rewrite d2b_spec by exact Hv. cbn [bind]. eapply oreturns_bind.
  { apply (ofold_seq (range_invariant v)); [|intros; apply range_step_spec; trivial; lia].
    split; [reflexivity|]. split; [constructor|]. split; [exact Hr|]. cbn [rp_ai rp_C rp_mask rp_Ci rp_CiH].
    split; [|split; [apply sc_0_enc | split; reflexivity]].
    rewrite encode_ed_0. cbn. rewrite Z.mod_1_r, pedersen_0, ed_mul_0. reflexivity. }
  cbv beta. intros st (Ll & Ra & Hr1 & EC & Em & ECi & ECH). cbn [Nat.add] in *.
  set (Ps := map (bit_commit v (rp_ai st)) (seq 0 64)) in *.
  assert (List.length Ps = 64%nat) as LP by (unfold Ps; now rewrite length_map, length_seq).
  assert (forall j, (j < 64)%nat -> nth j Ps ed_0 = bit_commit v (rp_ai st) j) as Ej by (intros; now apply nth_map_seq).
  assert (Forall on_curve Ps) as HP.
  { apply Forall_forall. intros P HPs. apply in_map_iff in HPs as (j & <- & _). apply pedersen_on_curve. }
  assert (rp_CiH st = map encode (second_keys Ps)) as EH.
  { rewrite ECH. unfold second_keys. apply (f_equal (map encode)), map_ext_in. intros j Hj%in_seq. unfold minus_H. now rewrite Ej by lia. }
  assert (Ps = map (bit_commit v (rp_ai st)) (seq 0 64)) as EPs by reflexivity. clearbody Ps.
  assert (List.length (second_keys Ps) = 64%nat) as LS by (unfold second_keys; now rewrite length_map, length_seq).
  rewrite ECi, EH. eapply oreturns_bind.
  { refine (genBorromean_spec (rp_ai st) Ps (second_keys Ps) (le_bits 64 v) _ LP LS (rp_rng st) Hr1).
    intros j Hj. destruct (nth_error (rp_ai st) j) as [a|] eqn:Ea; [|apply nth_error_None in Ea; lia].
    exists a. split; [exact Ea|]. split; [exact (proj1 (Forall_forall _ _) Ra a (nth_error_In _ _ Ea))|].
    unfold second_keys. rewrite nth_map_seq by exact Hj. unfold minus_H. rewrite Ej by exact Hj. unfold bit_commit.
    rewrite pedersen_minus, (nth_error_nth _ _ _ Ea). split; [apply pedersen_on_curve|]. split; [apply pedersen_on_curve|].
    rewrite nth_le_bits by exact Hj. fold (bit v j). destruct (bit_cases v j) as [-> | ->]; [left | right]; (split; [reflexivity|]).
    - rewrite Z.mul_0_l. apply pedersen_0.
    - rewrite Z.mul_1_l, Z.sub_diag. apply pedersen_0. }
  cbv beta. intros [bb r2] (Hs & F0 & F1 & Fe & Hr2 & Ee). cbn [oreturns returns].
  exists (sum_vals (rp_ai st)), bb, Ps. rewrite EC. change (2 ^ Z.of_nat 64) with (2 ^ 64). rewrite (Z.mod_small v) by exact Hv.
  split; [reflexivity|]. split; [exact Em|]. split; [reflexivity|]. repeat (split; [assumption|]). split; [|exact Hr2].
  rewrite verRange_spec by (trivial; apply encode_scalar).
  rewrite EPs at 1. rewrite sum_bits by (trivial; lia). rewrite firstn_all2 by lia. change (2 ^ Z.of_nat 64) with (2 ^ 64).
  rewrite (Z.mod_small v), <- Ee, !equalKeys_refl by exact Hv. reflexivity.
Qed.

(** ** Claims *)

(** C18: range proofs are complete: for every amount of 64 bits and a working generator,
    [proveRange] returns without an exception a commitment to the amount under the mask it
    returns, and [verRange] accepts the proof. *)
Theorem range_proof_complete v r :
  0 <= v < 2 ^ 64 -> rng_ready r ->
  exists C m sig r', proveRange v r = Some (Returns (C, m, sig, r')) /\ rng_ready r' /\
    sc_check m = Some 0 /\ commit v m = Some (Returns C) /\ verRange C sig = Some true.
Proof.
  intros Hv Hr. destruct (oreturns_some _ _ (proveRange_spec v r Hv Hr)) as ([[[C m] sig] r'] & E & a & bb & Ps & HC & Hm & H).
  destruct H as (_ & _ & _ & _ & _ & _ & _ & Hver & Hr'). exists C, m, sig, r'. split; [exact E|]. split; [exact Hr'|]. subst m.
  split; [apply sc_check_reduced, enc_scalar_reduced|]. split; [|exact Hver].
  rewrite commit_enc, le_val_enc_scalar, HC by (exact Hv || apply enc_scalar_scalar).
  now rewrite (pedersen_mod _ v a v (Z.mod_mod a ell ltac:(discriminate)) eq_refl).
Qed.
End Borromean.

(** ** Soundness *)



(** What two proofs for the keys [Ps] with one set of ring commitments open the commitment to, ring by
    ring: the bit is 0 when the commitments [LL] to the first key of the ring are the same, and
    the mask comes from the answers for that key; else the bit is 1, and the mask comes from the
    answers for the second key, whose challenges are the hashes of the two [LL]. *)
Section Opening.
  Context {FH : FastHash} (bb bb' : boroSig) (Ps : list point).







End Opening.






(** A key that is not a point ends the loop of [verRange]. *)
Lemma range_points_bad Cs idx q S :
  q ~> S -> Forall scalar Cs -> (forall i, In i idx -> (i < List.length Cs)%nat /\ (i < 64)%nat) ->
  (exists i k, In i idx /\ nth_error Cs i = Some k /\ forall P, on_curve P -> k <> encode P) ->
  range_points Cs idx q = Some None.
Proof.
  intros Hq HC. revert q S Hq. induction idx as [|i idx IH]; intros q S Hq Hi (j & k & Hj & Ek & Nk); [contradiction|]. cbn [range_points].
  destruct (Hi i (or_introl eq_refl)) as [Li L64]. rewrite nth_H2 by exact L64. cbn [bind]. apply returns_eq.
  eapply frombytes_bind; [apply ed_mul_on_curve, H_on_curve|]. intros h Hh. cbv beta iota.
  eapply returns_bind; [apply ge_p3_to_cached_spec, Hh|]. cbv beta. intros ch Hch.
  destruct (Forall_nth_error _ Cs i [] HC Li) as [-> Sk]. cbn [bind].
  destruct (point_cases _ Sk) as [(P & HP & EP) | [-> _]]; [|reflexivity]. rewrite EP.
  eapply frombytes_bind; [exact HP|]. intros a Ha. cbv beta iota.
  eapply returns_bind; [apply (ge_sub_spec a ch _ _ Ha Hch)|]. cbv beta. intros p1 Hp1.
  eapply returns_bind; [apply ge_p3_to_cached_spec, Ha|]. cbv beta. intros ca Hca.
  eapply returns_bind; [apply ge_p1p1_to_p3_spec, Hp1|]. cbv beta. intros m Hm.
  eapply returns_bind; [apply (ge_add_spec q ca _ _ Hq Hca)|]. cbv beta. intros p2 Hp2.
  eapply returns_bind; [apply ge_p1p1_to_p3_spec, Hp2|]. cbv beta. intros q' Hq'.
  rewrite (IH q' _ Hq'); [reflexivity | intros l Hl; apply Hi; now right|].
  exists j, k. split; [|now split]. destruct Hj as [->|Hj]; [|exact Hj].
  rewrite (nth_error_nth _ _ [] Ek) in EP. contradiction (Nk P HP EP).
Qed.

(** Every key of a list is a point, or one of them is not. *)
Lemma points_cases Cs :
  Forall scalar Cs -> (exists Ps, Forall on_curve Ps /\ Cs = map encode Ps) \/
    exists i k, nth_error Cs i = Some k /\ forall P, on_curve P -> k <> encode P.
Proof.
  induction 1 as [|k Cs Hk _ IH]; [left; exists []; auto|].
  destruct (point_cases k Hk) as [(P & HP & ->) | [_ N]]; [|right; exists 0%nat, k; auto].
  destruct IH as [(Ps & HPs & ->) | (i & k & E & N)]; [left; exists (P :: Ps); auto | right; exists (S i), k; auto].
Qed.

Lemma encode_list_inj Ps Ps' : Forall on_curve Ps -> Forall on_curve Ps' -> map encode Ps = map encode Ps' -> Ps = Ps'.
Proof.
  intros HP. revert Ps'. induction HP as [|P Ps HP _ IH]; intros [|P' Ps'] HP' EP; try discriminate EP; [reflexivity|].
  inversion HP' as [|? ? HP1 HP2]. subst. cbn [map] in EP. f_equal; [|apply IH; [assumption | congruence]].
  apply encode_inj; [exact HP | exact HP1 | congruence].
Qed.

(** What [verRange] accepts: on a proof with arrays of 64 keys and scalars of 255 bits it
    always answers, and the answer is true exactly when the keys are points of the curve that
    add up to the commitment and the challenge of the signature is the hash of the commitments
    that it determines, ring by ring, for the keys [C_i] and [C_i - 2^i H]. *)
Theorem verRange_correct {FH : FastHash} C sig :
  scalar C -> List.length (Ci sig) = 64%nat -> Forall scalar (Ci sig) -> boro_sized (asig sig) ->
  exists ok, verRange C sig = Some ok /\
    (ok = true <-> exists Ps, Forall on_curve Ps /\ Ci sig = map encode Ps /\
       C = encode (sum_from Ps ed_0 (seq 0 64)) /\ ee (asig sig) = enc_scalar (Hs (boro_bytes (asig sig) Ps (second_keys Ps)))).
Proof.
  destruct sig as [bb Cs]. cbn [Ci asig]. intros HC HL HS Hb. destruct (points_cases Cs HS) as [(Ps & HP & ->) | (i & k & E & N)].
  - rewrite length_map in HL. eexists. split; [apply verRange_spec; trivial; apply HC|].
    destruct Hb as (_ & _ & (_ & He & _) & _). rewrite andb_true_iff, (equalKeys_spec C), (equalKeys_spec (enc_scalar _) (ee bb)) by
      exact (eq_trans (proj2 HC) (eq_sym (proj2 (encode_scalar _)))) || exact (eq_trans (proj2 (enc_scalar_scalar _)) (eq_sym He)).
    split; [intros [E1 E2]; exists Ps; auto|]. intros (Ps' & HP' & EP & E1 & E2).
    apply (encode_list_inj Ps Ps' HP HP') in EP as <-. now split.
  - exists false. assert (i < 64)%nat as Hi by (rewrite <- HL; apply (proj1 (nth_error_Some Cs i)); rewrite E; discriminate).
    split; [|split; [discriminate|]].
    + unfold verRange. cbn [Ci asig]. rewrite (range_points_bad Cs (seq 0 64) ge_p3_identity ed_0); [reflexivity | exact ge_p3_0_spec | exact HS | |].
      * intros j Hj%in_seq. lia.
      * exists i, k. split; [apply in_seq; lia | now split].
    + intros (Ps & HP & -> & _). rewrite nth_error_map in E. destruct (nth_error Ps i) as [P|] eqn:EP; [|discriminate E].
      cbn in E. assert (k = encode P) as Ek by congruence.
      contradiction (N P (proj1 (Forall_forall _ _) HP P (nth_error_In _ _ EP)) Ek).
Qed.




(** *** Witnesses *)

Lemma range_proof_complete_witness :
  exists C m sig r', proveRange (RB := keccak_random) 1000 seeded = Some (Returns (C, m, sig, r')) /\ random_ready r' /\
    sc_check m = Some 0 /\ commit 1000 m = Some (Returns C) /\ verRange C sig = Some true.
Proof. exact (range_proof_complete (RB := keccak_random) 1000 seeded ltac:(lia) seeded_ready). Defined.

(** Keccak on keys, and the challenge [n] for other strings. *)
Definition challenger (n : Z) : FastHash.
Proof.
  refine {| fast_hash := fun d len => if (len =? 32)%nat then @fast_hash keccak_fast_hash d len else Some (enc_scalar n) |}.
  intros d Hd. destruct (List.length d =? 32)%nat; [exact (@fast_hash_total keccak_fast_hash d Hd) | exact (enc_scalar_scalar n)].
Defined.

Definition G_ring : list point := repeat base_point 64.

(** A proof for the commitment 64 G, with the challenge [n]. *)
Definition answer_sig (n : Z) : boroSig := BoroSig (repeat (enc_scalar (7 - n)) 64) (repeat (enc_scalar 5) 64) (enc_scalar n).

Lemma answer_sized n : boro_sized (answer_sig n).
Proof.
  split; [reflexivity|]. split; [reflexivity|]. split; [apply scalar255_hash|].
  split; apply Forall_forall; intros k Hk; apply repeat_spec in Hk as ->; apply scalar255_hash.
Qed.


Definition G_sum : key := encode (sum_from G_ring ed_0 (seq 0 64)).










Lemma verRange_correct_witness :
  exists ok, @verRange (challenger 1) G_sum (RangeSig (answer_sig 1) (map encode G_ring)) = Some ok /\
    (ok = true <-> exists Ps, Forall on_curve Ps /\ map encode G_ring = map encode Ps /\ G_sum = encode (sum_from Ps ed_0 (seq 0 64)) /\
       enc_scalar 1 = enc_scalar (@Hs (challenger 1) (@boro_bytes (challenger 1) (answer_sig 1) Ps (second_keys Ps)))).
Proof.
  refine (@verRange_correct (challenger 1) G_sum (RangeSig (answer_sig 1) (map encode G_ring)) (encode_scalar _) eq_refl _ (answer_sized 1)).
  apply Forall_forall. intros k Hk. apply in_map_iff in Hk as (P & <- & _). exact (encode_scalar P).
Defined.
