(* ===== verification/Mlsag.v ===== *)
(** * Multilayered ring signatures

    Models [MLSAG_Gen] and [MLSAG_Ver] of rctSigs.cpp with the operations of the default device
    (device_default.cpp) that they call. Matrices are lists of columns. The array [toHash] is
    written in full before each hash and is built by appending. The theorems are completeness,
    what the check accepts, and soundness: two answers to different challenges of one column
    determine the secrets of its keys, which tie the key images to them. *)

From Stdlib Require Import ZArith Zcong Lia List Bool String.
From S2P Require Import Prelude Bytes Fe FeMul Primes ScReduce Sc Curve Ge GeBytes GeScalar GeBase GeDouble.
From S2P Require Import GeHash Keccak TreeHash Order Varint Random Encode KeyOps Signature RingSig RctTypes RctTable RctOps Borromean.
Import ListNotations.

#[local] Open Scope Z_scope.
#[local] Open Scope list_scope.
#[local] Opaque ed_mul ed_add base_point encode enc_scalar point_code.

Section Mlsag.
  Context {FH : FastHash} {RB : RandomBytes}.

(** ** The code: device *)

(** [alpha], [aG], [aHP] and [II] for the point [H] and the secret [xx]. *)
Definition mlsag_prepare (H xx : key) (r : rng) : option (outcome (key * key * key * key * rng)) :=
  let! '(a, aG, r) := skpkGen r in
  let? aHP := scalarmultKey H a in
  let? II := scalarmultKey H xx in
  Some (Returns (a, aG, aHP, II, r)).

Definition mlsag_hash (toHash : list key) : option key := hash_to_scalar_keyV toHash.

(** The row [ss] is overwritten: only its size matters. *)
Definition mlsag_sign (c : key) (xx alpha : list key) (rows dsRows : nat) (ss : list key) : option (outcome (list key)) :=
  let? _ := check_throw (dsRows <=? rows)%nat "dsRows greater than rows" in
  let? _ := check_throw (List.length xx =? rows)%nat "xx size does not match rows" in
  let? _ := check_throw (List.length alpha =? rows)%nat "alpha size does not match rows" in
  let? _ := check_throw (List.length ss =? rows)%nat "ss size does not match rows" in
  let! ss := mapM (fun j => let! x := nth_error xx j in let! a := nth_error alpha j in sc_mulsub c x a) (seq 0 rows) in
  Some (Returns ss).

(** ** The code: one column *)

(** A row with a key image: [pk], [L] and [R]. *)
Definition ds_row (pk ss : list key) (c_old : key) (Ip : list (list ge_cached)) (toHash : list key) (j : nat)
  : option (outcome (list key)) :=
  let! s := nth_error ss j in
  let! k := nth_error pk j in
  let! ip := nth_error Ip j in
  let? L := addKeys2 s c_old k in
  let! Hi := hashToPoint k in
  let? R := addKeys3 s Hi c_old ip in
  Some (Returns (toHash ++ [k; L; R])).

Definition nds_row (pk ss : list key) (c_old : key) (toHash : list key) (j : nat) : option (outcome (list key)) :=
  let! s := nth_error ss j in
  let! k := nth_error pk j in
  let? L := addKeys2 s c_old k in
  Some (Returns (toHash ++ [k; L])).

Definition mlsag_column (message : key) (pk ss : list key) (c_old : key) (Ip : list (list ge_cached)) (dsRows rows : nat)
  : option (outcome (list key)) :=
  let? toHash := ofold (ds_row pk ss c_old Ip) (seq 0 dsRows) [message] in
  ofold (nds_row pk ss c_old) (seq dsRows (rows - dsRows)) toHash.

(** ** The code: signing *)

(** The arrays of the first loops of [MLSAG_Gen]. *)
Record mlsag_init := MlsagInit {
  mi_alpha : list key;
  mi_II : list key;
  mi_Ip : list (list ge_cached);
  mi_hash : list key;
  mi_rng : rng }.

Definition init_ds_row (pk xx : list key) (kLRki : option multisig_kLRki) (st : mlsag_init) (i : nat) : option (outcome mlsag_init) :=
  let! k := nth_error pk i in
  let? '(alpha, L, R, image, r) :=
    (match kLRki with
     | Some m => Some (Returns (ms_k m, ms_L m, ms_R m, ms_ki m, mi_rng st))
     | None =>
         let! Hi := hashToPoint k in
         let! x := nth_error xx i in
         mlsag_prepare Hi x (mi_rng st)
     end) in
  let? ip := precomp image in
  Some (Returns (MlsagInit (mi_alpha st ++ [alpha]) (mi_II st ++ [image]) (mi_Ip st ++ [ip]) (mi_hash st ++ [k; L; R]) r)).

Definition init_nds_row (pk : list key) (st : mlsag_init) (i : nat) : option (outcome mlsag_init) :=
  let! '(alpha, aG, r) := skpkGen (mi_rng st) in
  let! k := nth_error pk i in
  Some (Returns (MlsagInit (mi_alpha st ++ [alpha]) (mi_II st) (mi_Ip st) (mi_hash st ++ [k; aG]) r)).

(** The variables of the loop over the other columns; [rv.cc] and [c] are not set at first. *)
Record mlsag_state := MlsagState {
  ml_ss : list (list key);
  ml_cc : option key;
  ml_c_old : key;
  ml_c : option key;
  ml_rng : rng }.

(** [if (i == 0) copy(rv.cc, c_old);] *)
Definition set_cc (i : nat) (c_old : key) (cc : option key) : option key := if (i =? 0)%nat then Some c_old else cc.

(** [while (i != index)]; the loop comes back to [index] before the fuel ends. *)
Fixpoint mlsag_loop (fuel : nat) (message : key) (pk : list (list key)) (Ip : list (list ge_cached)) (dsRows rows index i : nat)
    (st : mlsag_state) : option (outcome mlsag_state) :=
  if (i =? index)%nat then Some (Returns st)
  else
    match fuel with
    | O => None
    | S fuel =>
        let? '(ssi, r) := skvGen rows (ml_rng st) in
        let! ss := aset (ml_ss st) i ssi in
        let! pki := nth_error pk i in
        let? toHash := mlsag_column message pki ssi (ml_c_old st) Ip dsRows rows in
        let! c := mlsag_hash toHash in
        let i := ((i + 1) mod List.length pk)%nat in
        mlsag_loop fuel message pk Ip dsRows rows index i (MlsagState ss (set_cc i c (ml_cc st)) c (Some c) r)
    end.

(** [pk[i].size() == rows] for the columns after the first. *)
Definition rectangular (pk : list (list key)) (rows : nat) : bool := forallb (fun col => List.length col =? rows)%nat (tl pk).

(** The signature, the challenge written to [mscout], and the generator. [mscout] tells whether
    the pointer is given. *)
Definition MLSAG_Gen (message : key) (pk : list (list key)) (xx : list key) (kLRki : option multisig_kLRki) (mscout : bool)
    (index dsRows : nat) (r : rng) : option (outcome (mgSig * option key * rng)) :=
  let cols := List.length pk in
  let? _ := check_throw (2 <=? cols)%nat "Error! What is c if cols = 1!" in
  let? _ := check_throw (index <? cols)%nat "Index out of range" in
  let! pk0 := nth_error pk 0 in
  let rows := List.length pk0 in
  let? _ := check_throw (1 <=? rows)%nat "Empty pk" in
  let? _ := check_throw (rectangular pk rows) "pk is not rectangular" in
  let? _ := check_throw (List.length xx =? rows)%nat "Bad xx size" in
  let? _ := check_throw (dsRows <=? rows)%nat "Bad dsRows size" in
  let has_kLRki := match kLRki with Some _ => true | None => false end in
  let? _ := check_throw ((has_kLRki && mscout) || (negb has_kLRki && negb mscout)) "Only one of kLRki/mscout is present" in
  let? _ := check_throw (negb has_kLRki || (dsRows =? 1)%nat) "Multisig requires exactly 1 dsRows" in
  let! pki := nth_error pk index in
  let? st := ofold (init_ds_row pki xx kLRki) (seq 0 dsRows) (MlsagInit [] [] [] [message] r) in
  let? st := ofold (init_nds_row pki) (seq dsRows (rows - dsRows)) st in
  let! c_old := mlsag_hash (mi_hash st) in
  let i := ((index + 1) mod cols)%nat in
  let? ml := mlsag_loop cols message pk (mi_Ip st) dsRows rows index i
    (MlsagState (repeat (repeat zero rows) cols) (set_cc i c_old None) c_old None (mi_rng st)) in
  let! c := ml_c ml in
  let! row := nth_error (ml_ss ml) index in
  let? row := mlsag_sign c xx (mi_alpha st) rows dsRows row in
  let! ss := aset (ml_ss ml) index row in
  let! cc := ml_cc ml in
  Some (Returns (MgSig ss cc (mi_II st), if mscout then Some c else None, ml_rng ml)).

(** ** The code: verification *)

(** [sc_check(k) == 0] for all keys, in order. *)
Fixpoint all_reduced (ks : list key) : option bool :=
  match ks with
  | [] => Some true
  | k :: ks => let! c := sc_check k in if c =? 0 then all_reduced ks else Some false
  end.

(** [precomp(Ip[i].k, rv.II[i])] *)
Definition precomp_all (II : list key) : option (outcome (list (list ge_cached))) :=
  ofold (fun l image => let? ip := precomp image in Some (Returns (l ++ [ip]))) II [].

Definition ver_column (message : key) (pk ss : list (list key)) (Ip : list (list ge_cached)) (dsRows rows : nat) (c_old : key) (i : nat)
  : option (outcome key) :=
  let! pki := nth_error pk i in
  let! ssi := nth_error ss i in
  let? toHash := mlsag_column message pki ssi c_old Ip dsRows rows in
  let! c := hash_to_scalar_keyV toHash in
  Some (Returns c).

Definition MLSAG_Ver (message : key) (pk : list (list key)) (rv : mgSig) (dsRows : nat) : option (outcome bool) :=
  let cols := List.length pk in
  if negb (2 <=? cols)%nat then Some (Returns false)
  else
    let! pk0 := nth_error pk 0 in
    let rows := List.length pk0 in
    if negb (1 <=? rows)%nat then Some (Returns false)
    else if negb (rectangular pk rows) then Some (Returns false)
    else if negb (List.length (II rv) =? dsRows)%nat then Some (Returns false)
    else if negb (List.length (ss rv) =? cols)%nat then Some (Returns false)
    else if negb (forallb (fun row => List.length row =? rows)%nat (ss rv)) then Some (Returns false)
    else if negb (dsRows <=? rows)%nat then Some (Returns false)
    else
      let! ok := all_reduced (List.concat (ss rv)) in
      if negb ok then Some (Returns false)
      else
        let! ok := all_reduced [cc rv] in
        if negb ok then Some (Returns false)
        else
          let? Ip := precomp_all (II rv) in
          let? c_old := ofold (ver_column message pk (ss rv) Ip dsRows rows) (seq 0 cols) (cc rv) in
          let! c := sc_sub c_old (cc rv) in
          let! n := sc_isnonzero c in
          Some (Returns (n =? 0)).

(** ** Columns on encoded points *)

(** The keys that a row contributes to the hash, for the challenge [c] and the scalar [s]. *)
Definition ds_keys (c : Z) (ss : list key) (Ps Is : list point) (j : nat) : list key :=
  let P := nth j Ps ed_0 in let s := le_val (nth j ss []) in
  [encode P; encode (lin c P s base_point); encode (lin s (Hp (encode P)) c (nth j Is ed_0))].

Definition nds_keys (c : Z) (ss : list key) (Ps : list point) (j : nat) : list key :=
  let P := nth j Ps ed_0 in [encode P; encode (lin c P (le_val (nth j ss [])) base_point)].

Definition column_keys (ds : nat) (c : Z) (ss : list key) (Ps Is : list point) : list key :=
  List.concat (map (ds_keys c ss Ps Is) (seq 0 ds)) ++
  List.concat (map (nds_keys c ss Ps) (seq ds (List.length Ps - ds))).

Lemma concat_map_snoc {A} (f : nat -> list A) k n : List.concat (map f (seq k (S n))) = List.concat (map f (seq k n)) ++ f (k + n)%nat.
Proof. rewrite seq_S, map_app, concat_app. cbn [map List.concat]. now rewrite app_nil_r. Qed.

Lemma column_keys_scalar ds c ss Ps Is : Forall scalar (column_keys ds c ss Ps Is).
Proof.
  unfold column_keys. apply Forall_app. split; apply Forall_concat, Forall_forall; intros l Hl; apply in_map_iff in Hl as (j & <- & _);
    repeat (constructor; [apply encode_scalar|]); constructor.
Qed.

(** The tables of the key images. *)
Definition tables (Ip : list (list ge_cached)) (Is : list point) : Prop := Forall2 (fun t I => odd_table I t) Ip Is.

Lemma tables_nth Ip Is j : tables Ip Is -> (j < List.length Is)%nat -> exists t, nth_error Ip j = Some t /\ odd_table (nth j Is ed_0) t.
Proof.
  intros H. revert j. induction H as [|t I Ip Is Ht _ IH]; intros j Hj; cbn [List.length] in Hj; [lia|].
  destruct j as [|j]; [now exists t|]. apply IH. lia.
Qed.

Lemma ed_0_curve_nth Is j : Forall on_curve Is -> on_curve (nth j Is ed_0).
Proof.
  intros H. destruct (Nat.lt_ge_cases j (List.length Is)) as [L|L]; [apply (proj1 (Forall_forall _ _) H), nth_In, L|].
  rewrite nth_overflow by exact L. apply ed_0_on_curve.
Qed.

Lemma column_spec m Ps ss c Ip Is ds :
  0 <= c < ell -> (ds <= List.length Ps)%nat -> List.length ss = List.length Ps -> List.length Is = ds ->
  Forall on_curve Ps -> Forall on_curve Is -> Forall reduced_scalar ss -> tables Ip Is ->
  mlsag_column m (map encode Ps) ss (enc_scalar c) Ip ds (List.length Ps) = Some (Returns (m :: column_keys ds c ss Ps Is)).
Proof.
  intros Hc Hd Ls LI HP HI Hs Ht. apply oreturns_eq. unfold mlsag_column.
  assert (le_val (enc_scalar c) = c) as Ec by (rewrite le_val_enc_scalar; now apply Z.mod_small).
  eapply oreturns_bind.
  { apply (ofold_seq (fun i l => l = m :: List.concat (map (ds_keys c ss Ps Is) (seq 0 i)))); [reflexivity|].
    intros j l Hj ->. unfold ds_row, oreturns.
    destruct (Forall_nth_error _ ss j [] Hs ltac:(lia)) as [-> Rs]. cbn [bind]. rewrite nth_encode by lia. cbn [bind].
    destruct (tables_nth Ip Is j Ht ltac:(lia)) as (t & -> & Hodd). cbn [bind].
    pose proof (ed_0_curve_nth Ps j HP) as CP. pose proof (ed_0_curve_nth Is j HI) as CI.
    rewrite addKeys2_enc by (trivial; apply reduced_255; trivial; apply enc_scalar_reduced). cbn [obind].
    rewrite hashToPoint_enc by apply encode_scalar. cbn [bind].
    rewrite (addKeys3_enc _ _ _ (nth j Is ed_0) t) by (trivial; try apply reduced_255; trivial; try apply enc_scalar_reduced; apply Hp_subgroup, encode_scalar).
    cbn [obind returns]. rewrite Ec, concat_map_snoc. reflexivity. }
  cbv beta. cbn [Nat.add]. intros l ->. unfold column_keys.
  assert (forall n, (ds + n <= List.length Ps)%nat -> oreturns (ofold (nds_row (map encode Ps) ss (enc_scalar c)) (seq ds n) (m :: List.concat (map (ds_keys c ss Ps Is) (seq 0 ds))))
    (fun l => l = (m :: List.concat (map (ds_keys c ss Ps Is) (seq 0 ds))) ++ List.concat (map (nds_keys c ss Ps) (seq ds n)))) as K.
  { intros n Hn. set (pre := m :: _). clearbody pre.
    pose proof (ofold_seq (fun i l => l = pre ++ List.concat (map (nds_keys c ss Ps) (seq ds (i - ds))))
      (nds_row (map encode Ps) ss (enc_scalar c)) ds n pre) as H. cbv beta in H. replace (ds + n - ds)%nat with n in H by lia. apply H.
    - rewrite Nat.sub_diag. cbn. now rewrite app_nil_r.
    - intros j l Hj ->. unfold nds_row, oreturns.
      destruct (Forall_nth_error _ ss j [] Hs ltac:(lia)) as [-> Rs]. cbn [bind]. rewrite nth_encode by lia. cbn [bind].
      rewrite addKeys2_enc by (try apply reduced_255; trivial; try apply enc_scalar_reduced; now apply ed_0_curve_nth). cbn [obind returns].
      replace (S j - ds)%nat with (S (j - ds)) by lia. rewrite concat_map_snoc, Ec, app_assoc.
      replace (ds + (j - ds))%nat with j by lia. reflexivity. }
  eapply returns_weaken; [apply K; lia|]. cbv beta. intros [l|w]; [intros ->; reflexivity | contradiction].
Qed.

(** The next challenge. *)
Definition next_challenge (m : key) (ds : nat) (Is : list point) (c : Z) (ss : list key) (Ps : list point) : Z :=
  Hs (List.concat (m :: column_keys ds c ss Ps Is)).

Lemma hash_column m ds c ss Ps Is :
  scalar m -> hash_to_scalar_keyV (m :: column_keys ds c ss Ps Is) = Some (enc_scalar (next_challenge m ds Is c ss Ps)).
Proof. intros Hm. apply hash_keyV_enc. constructor; [exact Hm | apply column_keys_scalar]. Qed.

Lemma precomp_all_spec Is : Forall on_curve Is -> oreturns (precomp_all (map encode Is)) (fun Ip => tables Ip Is).
Proof.
  unfold precomp_all. assert (forall Is0 Ip0, tables Ip0 Is0 -> Forall on_curve Is ->
    oreturns (ofold (fun l image => let? ip := precomp image in Some (Returns (l ++ [ip]))) (map encode Is) Ip0) (fun Ip => tables Ip (Is0 ++ Is))) as K.
  { induction Is as [|I Is IH]; intros Is0 Ip0 H0 HI; cbn [map ofold]; [now rewrite app_nil_r|].
    inversion HI as [|? ? HI1 HI2]. subst. destruct (oreturns_some _ _ (precomp_enc I HI1)) as (t & -> & Ht). cbn [obind].
    replace (Is0 ++ I :: Is) with ((Is0 ++ [I]) ++ Is) by now rewrite <- app_assoc. apply IH; [|exact HI2].
    apply Forall2_app; [exact H0|]. constructor; [exact Ht | constructor]. }
  intros HI. apply (K [] []); [constructor | exact HI].
Qed.

(** ** Verification on encoded points *)

(** The challenge after the first [n] columns, starting from [c]. *)
Definition chain (m : key) (ds : nat) (Is : list point) (ss : list (list key)) (Ps : list (list point)) (c : Z) (n : nat) : Z :=
  fold_left (fun c i => next_challenge m ds Is c (nth i ss []) (nth i Ps [])) (seq 0 n) c.

Lemma chain_S m ds Is ss Ps c n :
  chain m ds Is ss Ps c (S n) = next_challenge m ds Is (chain m ds Is ss Ps c n) (nth n ss []) (nth n Ps []).
Proof. unfold chain. rewrite seq_S, fold_left_app. reflexivity. Qed.

Lemma chain_range m ds Is ss Ps c n : 0 <= c < ell -> 0 <= chain m ds Is ss Ps c n < ell.
Proof. intros Hc. destruct n as [|n]; [exact Hc|]. rewrite chain_S. apply Hs_range. Qed.

(** A matrix of points, and a matrix of scalars of the same size. *)
Definition ring (rows : nat) (Ps : list (list point)) : Prop :=
  (2 <= List.length Ps)%nat /\ (1 <= rows)%nat /\ Forall (fun col => List.length col = rows /\ Forall on_curve col) Ps.

Definition answers (rows : nat) (Ps : list (list point)) (ss : list (list key)) : Prop :=
  List.length ss = List.length Ps /\ Forall (fun row => List.length row = rows /\ Forall scalar row) ss.

Lemma all_reduced_spec ks : Forall scalar ks -> exists ok, all_reduced ks = Some ok /\ (ok = true <-> Forall reduced_scalar ks).
Proof.
  induction 1 as [|k ks Hk _ (ok & E & Hok)]; [exists true; split; [reflexivity | split; auto]|]. cbn [all_reduced].
  destruct (reduced_dec k Hk) as [R|R].
  - rewrite (sc_check_reduced k R). cbn [bind Z.eqb]. exists ok. split; [exact E|]. rewrite Hok. split; [now constructor|].
    intros H. now inversion H.
  - rewrite (sc_check_large k Hk R). cbn [bind Z.eqb]. exists false. split; [reflexivity|]. split; [discriminate|]. intros H. now inversion H.
Qed.

Lemma all_reduced_true ks : Forall reduced_scalar ks -> all_reduced ks = Some true.
Proof.
  intros H. destruct (all_reduced_spec ks) as (ok & E & Hok); [eapply Forall_impl; [|exact H]; now intros k [? _]|].
  rewrite E. f_equal. now apply Hok.
Qed.

Lemma rectangular_true rows (Ps : list (list point)) :
  Forall (fun col => List.length col = rows /\ Forall on_curve col) Ps -> rectangular (map (map encode) Ps) rows = true.
Proof.
  intros H. unfold rectangular. apply forallb_forall. intros k Hk. apply Nat.eqb_eq.
  assert (In k (map (map encode) Ps)) as Hin by (destruct Ps; [contradiction | now right]).
  apply in_map_iff in Hin as (col & <- & Hc). rewrite length_map. apply (proj1 (Forall_forall _ _) H col Hc).
Qed.

Lemma ring_first rows Ps : ring rows Ps -> exists col, nth_error (map (map encode) Ps) 0 = Some (map encode col) /\ List.length (map encode col) = rows.
Proof.
  intros (H2 & _ & HP). destruct Ps as [|col Ps]; [cbn in H2; lia|]. exists col. split; [reflexivity|].
  rewrite length_map. inversion HP. tauto.
Qed.

Lemma ring_nth rows Ps i :
  ring rows Ps -> (i < List.length Ps)%nat ->
  nth_error (map (map encode) Ps) i = Some (map encode (nth i Ps [])) /\ List.length (nth i Ps []) = rows /\ Forall on_curve (nth i Ps []).
Proof.
  intros (_ & _ & HP) Hi. destruct (Forall_nth_error _ Ps i [] HP Hi) as [E H]. rewrite nth_error_map, E. now split.
Qed.

Lemma ver_columns m ds rows Is Ip ss Ps c n :
  scalar m -> ring rows Ps -> (ds <= rows)%nat -> List.length Is = ds -> Forall on_curve Is -> tables Ip Is ->
  List.length ss = List.length Ps -> Forall (fun row => List.length row = rows /\ Forall reduced_scalar row) ss ->
  (n <= List.length Ps)%nat -> 0 <= c < ell ->
  ofold (ver_column m (map (map encode) Ps) ss Ip ds rows) (seq 0 n) (enc_scalar c) = Some (Returns (enc_scalar (chain m ds Is ss Ps c n))).
Proof.
  intros Hm HR Hd LI HI Ht Ls Hs Hn Hc. apply oreturns_eq.
  apply (ofold_seq (fun i l => l = enc_scalar (chain m ds Is ss Ps c i)) _ 0); [reflexivity|].
  intros i l Hi ->. unfold ver_column, oreturns. destruct (ring_nth rows Ps i HR ltac:(lia)) as (-> & Lc & Cc). cbn [bind].
  destruct (Forall_nth_error _ ss i [] Hs ltac:(lia)) as [-> [Lr Rr]]. cbn [bind].
  rewrite <- Lc. rewrite (column_spec m (nth i Ps []) (nth i ss []) _ Ip Is ds); trivial; try lia; [|now apply chain_range].
  cbn [obind]. rewrite hash_column by exact Hm. cbn [bind returns]. now rewrite chain_S.
Qed.

Lemma precomp_all_total Is {T} (k : list (list ge_cached) -> option (outcome T)) o :
  Forall on_curve Is -> (forall Ip, tables Ip Is -> k Ip = o) -> (let? Ip := precomp_all (map encode Is) in k Ip) = o.
Proof. intros HI H. destruct (oreturns_some _ _ (precomp_all_spec Is HI)) as (Ip & -> & Ht). now apply H. Qed.

Lemma ver_spec m ds rows Is ss cc Ps :
  scalar m -> ring rows Ps -> answers rows Ps ss -> (ds <= rows)%nat -> List.length Is = ds -> Forall on_curve Is -> scalar cc ->
  (Forall (Forall reduced_scalar) ss /\ reduced_scalar cc ->
     MLSAG_Ver m (map (map encode) Ps) (MgSig ss cc (map encode Is)) ds
       = Some (Returns (chain m ds Is ss Ps (le_val cc) (List.length Ps) =? le_val cc))) /\
  (~ (Forall (Forall reduced_scalar) ss /\ reduced_scalar cc) ->
     MLSAG_Ver m (map (map encode) Ps) (MgSig ss cc (map encode Is)) ds = Some (Returns false)).
Proof.
  intros Hm HR [Ls Hs] Hd LI HI Hcc. destruct (ring_first rows Ps HR) as (col & E0 & L0). pose proof HR as (H2 & H1 & HP).
  assert (forallb (fun row : list (list Z) => List.length row =? rows)%nat ss = true) as Hrows.
  { apply forallb_forall. intros row Hrow. apply Nat.eqb_eq. apply (proj1 (Forall_forall _ _) Hs row Hrow). }
  unfold MLSAG_Ver. cbn [RctTypes.II RctTypes.ss RctTypes.cc]. rewrite !length_map, E0. cbn [bind].
  rewrite L0, (rectangular_true rows Ps HP), LI, Ls, !Nat.eqb_refl, Hrows.
  rewrite (proj2 (Nat.leb_le 2 _) H2), (proj2 (Nat.leb_le 1 _) H1), (proj2 (Nat.leb_le ds _) Hd). cbn [negb].
  destruct (all_reduced_spec (List.concat ss)) as (ok & -> & Hok).
  { apply Forall_concat. eapply Forall_impl; [|exact Hs]. now intros row [_ ?]. }
  destruct (all_reduced_spec [cc]) as (ok' & -> & Hok'); [now constructor|]. cbn [bind].
  rewrite Forall_concat in Hok.
  assert (Forall reduced_scalar [cc] <-> reduced_scalar cc) as Ecc by (split; [now inversion 1 | now constructor]). rewrite Ecc in Hok'.
  split; intros HF.
  - rewrite (proj2 Hok (proj1 HF)), (proj2 Hok' (proj2 HF)). cbn [negb]. destruct HF as [Fs [_ Lcc]].
    pose proof (le_val_bound cc (proj1 Hcc)) as [Bc _]. apply precomp_all_total; [exact HI|]. intros Ip Ht.
    rewrite (enc_scalar_val cc Hcc Lcc) at 1. rewrite (ver_columns m ds rows Is Ip ss Ps (le_val cc)); trivial; try lia.
    2: { apply Forall_forall. intros row Hrow. split; [apply (proj1 (Forall_forall _ _) Hs row Hrow) | apply (proj1 (Forall_forall _ _) Fs row Hrow)]. }
    cbn [obind]. pose proof (same_challenge_spec (chain m ds Is ss Ps (le_val cc) (List.length Ps)) (Signature cc cc)) as SC.
    unfold same_challenge in SC. cbn [sig_c] in SC. pose proof (chain_range m ds Is ss Ps (le_val cc) (List.length Ps) ltac:(lia)) as Br.
    specialize (SC Br (conj Hcc Lcc)). destruct (sc_sub _ cc) as [d|]; [|discriminate SC]. cbn [bind] in *.
    destruct (sc_isnonzero d) as [n|]; [|discriminate SC]. cbn [bind] in *.
    assert ((n =? 0) = (le_val cc =? chain m ds Is ss Ps (le_val cc) (List.length Ps))) as -> by congruence. now rewrite Z.eqb_sym.
  - destruct ok; cbn [negb]; [|reflexivity]. destruct ok'; cbn [negb]; [|reflexivity]. contradiction HF. split; [now apply Hok | now apply Hok'].
Qed.

(** ** Signing *)

Section Gen.
  Variables (m : key) (rows ds index : nat) (Ps : list (list point)) (xx : list key).
  Hypothesis Hm : scalar m.
  Hypothesis HR : ring rows Ps.
  Hypothesis Hds : (ds <= rows)%nat.
  Hypothesis Hindex : (index < List.length Ps)%nat.
  Hypothesis Lx : List.length xx = rows.
  Hypothesis Rx : Forall reduced_scalar xx.

Let cols := List.length Ps.
Let Pc := nth index Ps [].

  Hypothesis Hkeys : forall j, (j < rows)%nat -> nth j Pc ed_0 = ed_mul (le_val (nth j xx [])) base_point.

Definition image (j : nat) : point := ed_mul (le_val (nth j xx [])) (Hp (encode (nth j Pc ed_0))).

Definition images : list point := map image (seq 0 ds).

Lemma image_on_curve j : on_curve (image j).
Proof. apply ed_mul_on_curve, Hp_subgroup, encode_scalar. Qed.

Lemma images_on_curve n : Forall on_curve (map image (seq 0 n)).
Proof. apply Forall_forall. intros P HP. apply in_map_iff in HP as (j & <- & _). apply image_on_curve. Qed.

(** The first loops: the rows before [i], with the challenge 0 and the scalars [alpha]. *)
Definition init_invariant (i : nat) (st : mlsag_init) : Prop :=
  List.length (mi_alpha st) = i /\ Forall reduced_scalar (mi_alpha st) /\ rng_ready (mi_rng st) /\
  mi_II st = map encode (map image (seq 0 (Nat.min i ds))) /\ tables (mi_Ip st) (map image (seq 0 (Nat.min i ds))) /\
  mi_hash st = m :: List.concat (map (ds_keys 0 (mi_alpha st) Pc images) (seq 0 (Nat.min i ds))) ++
    List.concat (map (nds_keys 0 (mi_alpha st) Pc) (seq ds (i - ds))).

Lemma lin_0_l P k Q : lin 0 P k Q = ed_mul k Q.
Proof. unfold lin. rewrite ed_mul_0. apply ed_add_0_l. Qed.

Lemma lin_0_r P k Q : lin k P 0 Q = ed_mul k P.
Proof. unfold lin. rewrite ed_mul_0, ed_add_comm. apply ed_add_0_l. Qed.

Lemma nth_last {A} (l : list A) x d i : List.length l = i -> nth i (l ++ [x]) d = x.
Proof. intros <-. rewrite app_nth2, Nat.sub_diag by lia. reflexivity. Qed.

Lemma keys_app alphas a i :
  List.length alphas = i ->
  (forall n, (n <= i)%nat -> map (ds_keys 0 (alphas ++ [a]) Pc images) (seq 0 n) = map (ds_keys 0 alphas Pc images) (seq 0 n)) /\
  map (nds_keys 0 (alphas ++ [a]) Pc) (seq ds (i - ds)) = map (nds_keys 0 alphas Pc) (seq ds (i - ds)).
Proof.
  intros La. split; [intros n Hn|]; apply map_ext_in; intros j Hj%in_seq; unfold ds_keys, nds_keys; now rewrite app_nth1 by lia.
Qed.

Lemma signer_column : nth_error (map (map encode) Ps) index = Some (map encode Pc) /\ List.length Pc = rows /\ Forall on_curve Pc.
Proof. exact (ring_nth rows Ps index HR Hindex). Qed.

Lemma init_ds_spec i st :
  (i < ds)%nat -> init_invariant i st -> oreturns (init_ds_row (map encode Pc) xx None st i) (init_invariant (S i)).
Proof.
  intros Hi (La & Ra & Hr & EI & HT & EH). destruct signer_column as (_ & Lc & Cc). unfold init_ds_row, oreturns, mlsag_prepare.
  rewrite nth_encode by lia. cbn [bind]. pose proof (ed_0_curve_nth Pc i Cc) as CP.
  rewrite hashToPoint_enc by apply encode_scalar. cbn [bind].
  destruct (Forall_nth_error _ xx i [] Rx ltac:(lia)) as [-> Rxi]. cbn [bind].
  destruct (proj1 (returns_some _ _) (skpkGen_spec (mi_rng st) Hr)) as ([[a aG] r] & -> & Ha & -> & Hr'). cbn [bind].
  assert (on_curve (Hp (encode (nth i Pc ed_0)))) as CH by apply Hp_subgroup, encode_scalar.
  rewrite !scalarmultKey_enc by (trivial; apply reduced_255; trivial). cbn [obind].
  destruct (oreturns_some _ _ (precomp_enc (image i) (image_on_curve i))) as (t & Et & Ht). fold (image i). rewrite Et. cbn [obind returns].
  unfold init_invariant. cbn [mi_alpha mi_II mi_Ip mi_hash mi_rng]. rewrite !Nat.min_l in * by lia. destruct (keys_app (mi_alpha st) a i La) as [K1 _].
  rewrite length_app. replace (S i - ds)%nat with 0%nat by lia. replace (i - ds)%nat with 0%nat in EH by lia. change (seq ds 0) with (@nil nat) in EH |- *. cbn [map List.concat] in EH |- *.
  split; [cbn [List.length]; lia|]. split; [apply Forall_app; auto|]. split; [exact Hr'|].
  rewrite seq_S, !map_app, EI, EH, K1 by lia. cbn [map Nat.add].
  split; [reflexivity|]. split; [apply Forall2_app; [exact HT | constructor; [exact Ht | constructor]]|].
  rewrite !app_nil_r, concat_app. cbn [List.concat]. rewrite app_nil_r, <- app_comm_cons. f_equal. f_equal.
  unfold ds_keys. rewrite (nth_last _ _ _ _ La), lin_0_l, lin_0_r. reflexivity.
Qed.

Lemma init_nds_spec i st :
  (ds <= i < rows)%nat -> init_invariant i st -> oreturns (init_nds_row (map encode Pc) st i) (init_invariant (S i)).
Proof.
  intros Hi (La & Ra & Hr & EI & HT & EH). destruct signer_column as (_ & Lc & Cc). unfold init_nds_row, oreturns.
  destruct (proj1 (returns_some _ _) (skpkGen_spec (mi_rng st) Hr)) as ([[a aG] r] & -> & Ha & -> & Hr'). cbn [bind].
  rewrite nth_encode by lia. cbn [bind returns].
  unfold init_invariant. cbn [mi_alpha mi_II mi_Ip mi_hash mi_rng]. rewrite !Nat.min_r in * by lia. destruct (keys_app (mi_alpha st) a i La) as [K1 K2].
  rewrite length_app. replace (S i - ds)%nat with (S (i - ds)) by lia. rewrite concat_map_snoc, K1, K2, EH by lia.
  replace (ds + (i - ds))%nat with i by lia.
  split; [cbn [List.length]; lia|]. split; [apply Forall_app; auto|]. do 3 (split; [assumption|]).
  rewrite <- app_comm_cons, !app_assoc. unfold nds_keys at 3. rewrite (nth_last _ _ _ _ La), lin_0_l. reflexivity.
Qed.

Lemma init_spec r :
  rng_ready r ->
  oreturns (let? st := ofold (init_ds_row (map encode Pc) xx None) (seq 0 ds) (MlsagInit [] [] [] [m] r) in
            ofold (init_nds_row (map encode Pc)) (seq ds (rows - ds)) st) (init_invariant rows).
Proof.
  intros Hr. eapply oreturns_bind.
  - apply (ofold_seq init_invariant); [|intros i st Hi; apply init_ds_spec; lia].
    split; [reflexivity|]. split; [constructor|]. split; [exact Hr|]. split; [reflexivity|]. split; [constructor|]. reflexivity.
  - cbv beta. cbn [Nat.add]. intros st Hst. replace rows with (ds + (rows - ds))%nat at 2 by lia.
    apply ofold_seq; [exact Hst|]. intros i st' Hi. apply init_nds_spec. lia.
Qed.

(** Closing the ring: the answers at the signer's column give the keys of the first loops. *)
Lemma close_column alphas c ss :
  (forall j, (j < rows)%nat -> le_val (nth j ss []) = (le_val (nth j alphas []) - c * le_val (nth j xx [])) mod ell) ->
  column_keys ds c ss Pc images = column_keys ds 0 alphas Pc images.
Proof.
  intros Hs. destruct signer_column as (_ & Lc & _). unfold column_keys. rewrite Lc.
  assert (forall j, (j < rows)%nat -> lin c (nth j Pc ed_0) (le_val (nth j ss [])) base_point = lin 0 (nth j Pc ed_0) (le_val (nth j alphas [])) base_point) as HL.
  { intros j Hj. rewrite Hkeys, Hs, lin_0_l by exact Hj. apply answer_correct, base_in_subgroup. }
  f_equal; f_equal; apply map_ext_in; intros j Hj%in_seq; unfold ds_keys, nds_keys; rewrite HL by lia; [|reflexivity].
  do 3 f_equal. rewrite lin_0_r, lin_comm, Hs by lia. unfold images. rewrite nth_map_seq by lia. unfold image.
  f_equal. apply answer_correct, Hp_subgroup, encode_scalar.
Qed.

(** The column of step [t] of the loop. *)
Definition col (t : nat) : nat := if (index + 1 + t <? cols)%nat then (index + 1 + t)%nat else (index + 1 + t - cols)%nat.

Lemma col_mod t : (t < cols)%nat -> ((index + 1 + t) mod cols = col t)%nat.
Proof.
  intros Ht. unfold col. fold cols in Hindex. destruct (Nat.ltb_spec (index + 1 + t) cols) as [L|L]; [now apply Nat.mod_small|].
  symmetry. apply (Nat.mod_unique _ _ 1); lia.
Qed.

Lemma col_range t : (t < cols)%nat -> (col t < cols)%nat.
Proof. intros Ht. unfold col. fold cols in Hindex. destruct (Nat.ltb_spec (index + 1 + t) cols); lia. Qed.

Lemma col_next t : (S t < cols)%nat -> ((col t + 1) mod cols = col (S t))%nat.
Proof.
  intros Ht. rewrite <- (col_mod t), <- (col_mod (S t)) by lia. rewrite Nat.Div0.add_mod_idemp_l. f_equal. lia.
Qed.

Lemma col_inj t u : (t < cols)%nat -> (u < cols)%nat -> col t = col u -> t = u.
Proof.
  unfold col. fold cols in Hindex. destruct (Nat.ltb_spec (index + 1 + t) cols), (Nat.ltb_spec (index + 1 + u) cols); lia.
Qed.

Lemma col_last : col (cols - 1) = index.
Proof. unfold col. fold cols in Hindex. destruct (Nat.ltb_spec (index + 1 + (cols - 1)) cols); lia. Qed.

Section Loop.
  Variable c0 : Z.

(** After [t] steps: the challenges [f 0], .., [f t] of the columns visited. *)
Definition visited (ss : list (list key)) (f : nat -> Z) (t : nat) : Prop :=
  f 0%nat = c0 /\ forall u, (u < t)%nat -> List.length (nth (col u) ss []) = rows /\ Forall reduced_scalar (nth (col u) ss []) /\
    f (S u) = next_challenge m ds images (f u) (nth (col u) ss []) (nth (col u) Ps []).

Definition loop_invariant (t : nat) (st : mlsag_state) : Prop :=
  exists f, visited (ml_ss st) f t /\ ml_c_old st = enc_scalar (f t) /\ (0 < t -> ml_c st = Some (enc_scalar (f t)))%nat /\
    (forall u, (u <= t)%nat -> 0 <= f u < ell /\ (col u = 0%nat -> ml_cc st = Some (enc_scalar (f u)))) /\
    List.length (ml_ss st) = cols /\ (forall i, (i < cols)%nat -> List.length (nth i (ml_ss st) []) = rows) /\ rng_ready (ml_rng st).

Lemma visited_aset ss ss' f t x :
  (t < cols)%nat -> (forall j, nth j ss' [] = if (j =? col t)%nat then x else nth j ss []) ->
  visited ss f t -> visited ss' f t.
Proof.
  intros Ht Hn [H0 Hv]. split; [exact H0|]. intros u Hu. rewrite Hn.
  destruct (Nat.eqb_spec (col u) (col t)) as [E|_]; [apply col_inj in E; lia | now apply Hv].
Qed.

Lemma set_cc_keep i c cc v : (i <> 0)%nat -> cc = Some v -> set_cc i c cc = Some v.
Proof. unfold set_cc. destruct (Nat.eqb_spec i 0); [contradiction | trivial]. Qed.

Lemma loop_step Ip t st fuel :
  (S t < cols)%nat -> tables Ip images -> loop_invariant t st ->
  exists st', loop_invariant (S t) st' /\
    mlsag_loop (S fuel) m (map (map encode) Ps) Ip ds rows index (col t) st = mlsag_loop fuel m (map (map encode) Ps) Ip ds rows index (col (S t)) st'.
Proof.
  intros Ht HT (f & Hv & Ec & _ & Hf & Ls & Lr & Hr). destruct (Hf t ltac:(lia)) as [Bt _].
  pose proof HR as (_ & H1 & _). pose proof (col_range t ltac:(lia)) as Hcol.
  destruct (ring_nth rows Ps (col t) HR Hcol) as (En & Lc & Cc). cbn [mlsag_loop].
  destruct (Nat.eqb_spec (col t) index) as [E|_]; [rewrite <- col_last in E; apply col_inj in E; lia|].
  destruct (oreturns_some _ _ (skvGen_spec rows (ml_rng st) H1 Hr)) as ([ssi r] & Es & Lsi & Rsi & Hr'). rewrite Es. cbn [obind].
  destruct (proj1 (returns_some _ _) (aset_spec (ml_ss st) (col t) ssi [] ltac:(lia))) as (ss' & Ea & Ls' & Hn). rewrite Ea, En. cbn [bind].
  rewrite Ec, <- Lc. rewrite (column_spec m (nth (col t) Ps []) ssi (f t) Ip images ds); trivial; try lia;
    [|unfold images; now rewrite length_map, length_seq | apply images_on_curve].
  cbn [obind]. unfold mlsag_hash. rewrite hash_column by exact Hm. cbn [bind]. rewrite length_map. fold cols. rewrite col_next, Lc by exact Ht.
  eexists. split; [|reflexivity]. set (c := next_challenge _ _ _ _ _ _). assert (0 <= c < ell) as Bc by apply Hs_range.
  exists (fun u => if (u =? S t)%nat then c else f u). cbn [ml_ss ml_cc ml_c_old ml_c ml_rng].
  pose proof (visited_aset (ml_ss st) ss' f t ssi ltac:(lia) Hn Hv) as [V0 Vs]. rewrite Nat.eqb_refl.
  split; [split; [exact V0|]|].
  { intros u Hu. destruct (Nat.eqb_spec u (S t)) as [|_]; [lia|]. destruct (Nat.eqb_spec (S u) (S t)) as [E|N]; [|apply Vs; lia].
    assert (u = t) as -> by lia. rewrite Hn, Nat.eqb_refl. split; [exact Lsi|]. split; [exact Rsi | reflexivity]. }
  split; [reflexivity|]. split; [reflexivity|]. split; [|split; [lia|split; [|exact Hr']]].
  - intros u Hu. destruct (Nat.eqb_spec u (S t)) as [->|N].
    + split; [exact Bc|]. intros E. unfold set_cc. now rewrite E.
    + destruct (Hf u ltac:(lia)) as [Bu Cu]. split; [exact Bu|]. intros E. apply set_cc_keep; [|now apply Cu].
      intros E'. rewrite <- E' in E. apply col_inj in E; lia.
  - intros i Hi. rewrite Hn. destruct (i =? col t)%nat; [exact Lsi | now apply Lr].
Qed.

(** The loop visits all other columns and ends at the signer's. *)
Lemma loop_spec Ip n t st fuel :
  (t + n = cols - 1)%nat -> (n <= fuel)%nat -> tables Ip images -> loop_invariant t st ->
  oreturns (mlsag_loop fuel m (map (map encode) Ps) Ip ds rows index (col t) st) (loop_invariant (cols - 1)).
Proof.
  revert t st fuel. induction n as [|n IH]; intros t st fuel Hn Hf HT Hi.
  - replace t with (cols - 1)%nat in * by lia. rewrite col_last. destruct fuel; cbn [mlsag_loop]; rewrite Nat.eqb_refl; exact Hi.
  - destruct fuel as [|fuel]; [lia|]. destruct (loop_step Ip t st fuel ltac:(lia) HT Hi) as (st' & Hi' & ->). apply IH; trivial; lia.
Qed.

(** From the loop to the chain of the check, which starts at column 0. *)
Lemma ring_closes ss f n :
  visited ss f (cols - 1) -> next_challenge m ds images (f (cols - 1)%nat) (nth index ss []) Pc = c0 -> (n <= cols)%nat ->
  chain m ds images ss Ps (f (cols - 1 - index)%nat) n = f (if (n <=? index)%nat then cols - 1 - index + n else n - index - 1)%nat.
Proof.
  intros [H0 Hv] Hc. fold cols in Hindex. induction n as [|n IH]; intros Hn; [cbn [Nat.leb]; rewrite Nat.add_0_r; reflexivity|].
  rewrite chain_S, IH by lia. destruct (Nat.eq_dec n index) as [->|N].
  - rewrite Nat.leb_refl, (proj2 (Nat.leb_gt _ _)) by lia. replace (cols - 1 - index + index)%nat with (cols - 1)%nat by lia.
    replace (S index - index - 1)%nat with 0%nat by lia. rewrite H0. exact Hc.
  - set (u := (if (n <=? index)%nat then (cols - 1 - index + n)%nat else (n - index - 1)%nat)).
    assert ((u < cols - 1)%nat /\ col u = n /\ (if (S n <=? index)%nat then cols - 1 - index + S n else S n - index - 1)%nat = S u) as (Hu & Ec & ->).
    { unfold u, col. destruct (Nat.leb_spec n index), (Nat.leb_spec (S n) index); try lia;
        (split; [lia|]); (split; [|lia]); destruct (Nat.ltb_spec (index + 1 + (cols - 1 - index + n)) cols), (Nat.ltb_spec (index + 1 + (n - index - 1)) cols); lia. }
    destruct (Hv u Hu) as (_ & _ & ->). rewrite Ec. reflexivity.
Qed.

Lemma visited_rows ss f row :
  visited ss f (cols - 1) -> List.length ss = cols -> nth index ss [] = row -> List.length row = rows -> Forall reduced_scalar row ->
  Forall (fun row => List.length row = rows /\ Forall reduced_scalar row) ss.
Proof.
  intros Hv Ls Er Lrow Rrow. fold cols in Hindex. apply Forall_forall. intros x Hx. destruct (In_nth ss x [] Hx) as (i & Hi & <-).
  destruct (Nat.eq_dec i index) as [->|N]; [now rewrite Er|].
  assert (exists u, (u < cols - 1)%nat /\ col u = i) as (u & Hu & <-); [|now destruct (proj2 Hv u Hu) as (? & ? & _)].
  exists (if (i <=? index)%nat then (cols - 1 - index + i)%nat else (i - index - 1)%nat). unfold col. destruct (Nat.leb_spec i index);
    (split; [lia|]); destruct (Nat.ltb_spec (index + 1 + (cols - 1 - index + i)) cols), (Nat.ltb_spec (index + 1 + (i - index - 1)) cols); lia.
Qed.
End Loop.

Lemma mlsag_sign_spec yy : List.length yy = rows -> Forall reduced_scalar yy -> forall c alphas row,
  0 <= c < ell -> List.length alphas = rows -> Forall reduced_scalar alphas -> List.length row = rows ->
  oreturns (mlsag_sign (enc_scalar c) yy alphas rows ds row) (fun ss => List.length ss = rows /\ Forall reduced_scalar ss /\
    forall j, (j < rows)%nat -> le_val (nth j ss []) = (le_val (nth j alphas []) - c * le_val (nth j yy [])) mod ell).
Proof.
  intros Ly Ry c alphas row Hc La Ra Lr. unfold mlsag_sign, check_throw. rewrite (proj2 (Nat.leb_le ds rows) Hds), Ly, La, Lr, !Nat.eqb_refl. cbn [obind].
  rewrite (mapM_map _ (fun j => enc_scalar (le_val (nth j alphas []) - c * le_val (nth j yy [])))).
  - cbn [bind oreturns returns]. rewrite length_map, length_seq. split; [reflexivity|]. split.
    + apply Forall_forall. intros k Hk. apply in_map_iff in Hk as (j & <- & _). apply enc_scalar_reduced.
    + intros j Hj. rewrite nth_map_seq by exact Hj. apply le_val_enc_scalar.
  - intros j Hj%in_seq. destruct (Forall_nth_error _ yy j [] Ry ltac:(lia)) as [-> Rj].
    destruct (Forall_nth_error _ alphas j [] Ra ltac:(lia)) as [-> Aj]. cbn [bind].
    rewrite sc_mulsub_enc by (apply enc_scalar_scalar || apply Rj || apply Aj). now rewrite le_val_enc_scalar, (Z.mod_small c ell Hc).
Qed.

(** [MLSAG_Gen] after the first loops, with the secrets [yy]. *)
Definition finish (st : mlsag_init) (yy : list key) (mscout : bool) : option (outcome (mgSig * option key * rng)) :=
  let! c_old := mlsag_hash (mi_hash st) in
  let i := ((index + 1) mod List.length (map (map encode) Ps))%nat in
  let? ml := mlsag_loop (List.length (map (map encode) Ps)) m (map (map encode) Ps) (mi_Ip st) ds rows index i
    (MlsagState (repeat (repeat zero rows) (List.length (map (map encode) Ps))) (set_cc i c_old None) c_old None (mi_rng st)) in
  let! c := ml_c ml in
  let! row := nth_error (ml_ss ml) index in
  let? row := mlsag_sign c yy (mi_alpha st) rows ds row in
  let! ss := aset (ml_ss ml) index row in
  let! cc := ml_cc ml in
  Some (Returns (MgSig ss cc (mi_II st), if mscout then Some c else None, ml_rng ml)).

(** The signature [mg] with the challenge [c] at the signer's column: it is closed by the answers
    of [alphas] and [xx] there. *)
Definition closed_by (alphas : list key) (c : Z) (mg : mgSig) : Prop :=
  0 <= c < ell /\ II mg = map encode images /\ List.length (ss mg) = cols /\
  Forall (fun row => List.length row = rows /\ Forall reduced_scalar row) (ss mg) /\ reduced_scalar (cc mg) /\
  forall row ss', (forall j, (j < rows)%nat -> le_val (nth j row []) = (le_val (nth j alphas []) - c * le_val (nth j xx [])) mod ell) ->
    (forall i, nth i ss' [] = if (i =? index)%nat then row else nth i (ss mg) []) ->
    chain m ds images ss' Ps (le_val (cc mg)) cols = le_val (cc mg).

Lemma finish_spec st yy alphas mscout :
  List.length yy = rows -> Forall reduced_scalar yy -> List.length (mi_alpha st) = rows -> Forall reduced_scalar (mi_alpha st) -> rng_ready (mi_rng st) ->
  mi_II st = map encode images -> tables (mi_Ip st) images -> mi_hash st = m :: column_keys ds 0 alphas Pc images ->
  oreturns (finish st yy mscout) (fun '(mg, out, r') => exists c,
    out = (if mscout then Some (enc_scalar c) else None) /\ rng_ready r' /\ closed_by alphas c mg /\
    forall j, (j < rows)%nat -> le_val (nth j (nth index (ss mg) []) []) = (le_val (nth j (mi_alpha st) []) - c * le_val (nth j yy [])) mod ell).
Proof.
  intros Ly Ry La Ra Hr1 EI HT EH. pose proof HR as (H2 & H1 & HP). unfold finish. rewrite !length_map. fold cols in H2, Hindex |- *.
  unfold mlsag_hash. rewrite EH, hash_column by exact Hm. cbn [bind]. set (c0 := next_challenge m ds images 0 alphas Pc).
  assert (0 <= c0 < ell) as B0 by apply Hs_range. fold cols. rewrite <- (Nat.add_0_r (index + 1)), (col_mod 0) by lia.
  eapply oreturns_bind.
  { apply (loop_spec c0 (mi_Ip st) (cols - 1) 0); [lia | lia | exact HT|].
    exists (fun _ => c0). cbn [ml_ss ml_cc ml_c_old ml_c ml_rng]. split; [split; [reflexivity | intros; lia]|]. split; [reflexivity|]. split; [lia|].
    split; [intros u Hu; split; [exact B0|]; intros E; assert (u = 0)%nat as -> by lia; unfold set_cc; now rewrite E|].
    split; [apply repeat_length|]. split; [|exact Hr1]. intros i Hi. rewrite nth_repeat_lt by exact Hi. apply repeat_length. }
  cbv beta. intros ml (f & Hv & _ & Ec & Hf & Ls & Lr & Hr2). rewrite (Ec ltac:(lia)). cbn [bind].
  destruct (Hf (cols - 1)%nat ltac:(lia)) as [Bf _].
  rewrite (nth_error_nth' (ml_ss ml) []) by lia. cbn [bind].
  eapply oreturns_bind; [apply (mlsag_sign_spec yy Ly Ry (f (cols - 1)%nat) (mi_alpha st) (nth index (ml_ss ml) [])); trivial; now apply Lr|].
  cbv beta. intros row (Lrow & Rrow & Hrow).
  destruct (proj1 (returns_some _ _) (aset_spec (ml_ss ml) index row [] ltac:(lia))) as (ss' & Ea & Ls' & Hn). rewrite Ea. cbn [bind].
  destruct (Hf (cols - 1 - index)%nat ltac:(lia)) as [Bc Hcc].
  assert (col (cols - 1 - index) = 0)%nat as Ez by (unfold col; destruct (Nat.ltb_spec (index + 1 + (cols - 1 - index)) cols); lia).
  rewrite (Hcc Ez). cbn [bind oreturns returns]. exists (f (cols - 1)%nat). split; [reflexivity|]. split; [exact Hr2|]. cbn [ss cc II].
  assert (visited c0 ss' f (cols - 1)) as Hv'.
  { apply (visited_aset c0 (ml_ss ml) ss' f (cols - 1) row); [lia | rewrite col_last; exact Hn | exact Hv]. }
  assert (nth index ss' [] = row) as Er by now rewrite Hn, Nat.eqb_refl. rewrite Er. split; [|exact Hrow].
  split; [exact Bf|]. cbn [II ss cc]. split; [exact EI|]. split; [lia|].
  split; [apply (visited_rows c0 ss' f row Hv' ltac:(lia) Er Lrow Rrow)|]. split; [apply enc_scalar_reduced|].
  intros row2 ss2 H2' Hn2. rewrite le_val_enc_scalar, (Z.mod_small _ ell Bc), (ring_closes c0 ss2 f cols); [| | |lia].
  - rewrite (proj2 (Nat.leb_gt _ _)) by lia. f_equal. lia.
  - apply (visited_aset c0 ss' ss2 f (cols - 1) row2); [lia | rewrite col_last; exact Hn2 | exact Hv'].
  - rewrite Hn2, Nat.eqb_refl. unfold c0, next_challenge. now rewrite (close_column alphas (f (cols - 1)%nat) row2 H2').
Qed.

(** The checks of [MLSAG_Gen]. *)
Lemma gen_checks yy kLRki mscout r :
  List.length yy = rows -> (match kLRki with Some _ => mscout = true /\ ds = 1%nat | None => mscout = false end) ->
  MLSAG_Gen m (map (map encode) Ps) yy kLRki mscout index ds r =
    (let? st := ofold (init_ds_row (map encode Pc) yy kLRki) (seq 0 ds) (MlsagInit [] [] [] [m] r) in
     let? st := ofold (init_nds_row (map encode Pc)) (seq ds (rows - ds)) st in finish st yy mscout).
Proof.
  intros Ly Hk. pose proof HR as (H2 & H1 & HP). destruct (ring_first rows Ps HR) as (first & E0 & L0). destruct signer_column as (Ei & _ & _).
  unfold MLSAG_Gen, check_throw, finish. rewrite length_map. fold cols in H2, Hindex |- *.
  rewrite (proj2 (Nat.leb_le 2 cols) H2), (proj2 (Nat.ltb_lt index cols) Hindex). cbn [obind]. rewrite E0. cbn [bind].
  rewrite L0, (proj2 (Nat.leb_le 1 rows) H1), (rectangular_true rows Ps HP), Ly, Nat.eqb_refl, (proj2 (Nat.leb_le ds rows) Hds). cbn [obind].
  destruct kLRki as [kl|]; [destruct Hk as [-> ->] | rewrite Hk]; cbn [negb andb orb Nat.eqb]; cbn [obind]; rewrite Ei; reflexivity.
Qed.

(** A signature by the holder of the secrets of a column closes the ring. *)
Lemma gen_spec r :
  rng_ready r ->
  oreturns (MLSAG_Gen m (map (map encode) Ps) xx None false index ds r) (fun '(mg, out, r') =>
    out = None /\ II mg = map encode images /\ answers rows Ps (ss mg) /\ Forall (Forall reduced_scalar) (ss mg) /\ reduced_scalar (cc mg) /\
    chain m ds images (ss mg) Ps (le_val (cc mg)) cols = le_val (cc mg) /\ rng_ready r').
Proof.
  intros Hr. rewrite (gen_checks xx None false r Lx eq_refl).
  destruct (oreturns_some _ _ (init_spec r Hr)) as (st & Est & La & Ra & Hr1 & EI & HT & EH). rewrite Nat.min_r in * by exact Hds.
  destruct (ofold (init_ds_row _ _ _) _ _) as [[st1|]|]; cbn [obind] in Est; try discriminate Est. cbn [obind]. rewrite Est. cbn [obind].
  assert (mi_hash st = m :: column_keys ds 0 (mi_alpha st) Pc images) as EH' by (unfold column_keys; destruct signer_column as (_ & Lc & _); now rewrite Lc).
  eapply returns_weaken; [exact (finish_spec st xx (mi_alpha st) false Lx Rx La Ra Hr1 EI HT EH')|].
  intros [[[mg out] r'] | w]; [|auto]. intros (c & -> & Hr' & (Bc & HI & Ls & Fs & Fc & Hclose) & Hrow).
  split; [reflexivity|]. split; [exact HI|]. split; [split; [exact Ls|]|].
  { eapply Forall_impl; [|exact Fs]. intros x [? Hx]. split; [assumption|]. eapply Forall_impl; [|exact Hx]. now intros y [? _]. }
  split; [eapply Forall_impl; [|exact Fs]; now intros x [_ ?]|]. split; [exact Fc|]. split; [|exact Hr'].
  apply (Hclose (nth index (ss mg) [])); [exact Hrow|]. intros i. now destruct (Nat.eqb_spec i index) as [->|].
Qed.
(** ** Signing with shares

    In a multisignature the first scalar and the first secret are shares: the commitments of the
    first row are made with the sum [K] of the scalars, and the key image with [xx]. *)

Definition with_alpha (st : mlsag_init) (alphas : list key) : mlsag_init := MlsagInit alphas (mi_II st) (mi_Ip st) (mi_hash st) (mi_rng st).

Definition share_invariant (k1 : key) (K : Z) (i : nat) (st : mlsag_init) : Prop :=
  exists t, mi_alpha st = k1 :: t /\ init_invariant i (with_alpha st (enc_scalar K :: t)).

Lemma share_nds_spec k1 K i st :
  (ds <= i < rows)%nat -> share_invariant k1 K i st -> oreturns (init_nds_row (map encode Pc) st i) (share_invariant k1 K (S i)).
Proof.
  intros Hi (t & Ea & Hinv). pose proof (init_nds_spec i _ Hi Hinv) as H. unfold init_nds_row, with_alpha in *. cbn [mi_alpha mi_II mi_Ip mi_hash mi_rng] in H.
  destruct (skpkGen (mi_rng st)) as [[[a aG] r]|]; [|contradiction H]. rewrite !bind_Some in *.
  destruct (nth_error (map encode Pc) i) as [k|]; [|contradiction H]. rewrite !bind_Some in *. cbn [oreturns returns] in *.
  exists (t ++ [a]). unfold with_alpha. cbn [mi_alpha mi_II mi_Ip mi_hash mi_rng]. split; [now rewrite Ea | exact H].
Qed.

Lemma share_ds_spec k1 K yy r :
  ds = 1%nat -> rng_ready r ->
  oreturns (init_ds_row (map encode Pc) yy (Some (Multisig_kLRki k1 (encode (ed_mul K base_point)) (encode (ed_mul K (Hp (encode (nth 0 Pc ed_0))))) (encode (image 0))))
    (MlsagInit [] [] [] [m] r) 0) (share_invariant k1 K 1).
Proof.
  intros Hd Hr. pose proof HR as (_ & H1 & _). destruct signer_column as (_ & Lc & Cc). unfold init_ds_row. rewrite nth_encode, bind_Some by lia. cbn [ms_k ms_L ms_R ms_ki].
  rewrite obind_Returns. destruct (oreturns_some _ _ (precomp_enc (image 0) (image_on_curve 0))) as (t & Et & Ht). rewrite Et, obind_Returns.
  cbn [oreturns returns mi_alpha mi_II mi_Ip mi_hash mi_rng app]. exists []. split; [reflexivity|].
  unfold init_invariant, with_alpha. cbn [mi_alpha mi_II mi_Ip mi_hash mi_rng]. rewrite Hd. cbn [Nat.min Nat.sub seq map List.concat app List.length].
  split; [reflexivity|]. split; [constructor; [apply enc_scalar_reduced | constructor]|]. split; [exact Hr|]. split; [reflexivity|].
  split; [constructor; [exact Ht | constructor]|]. unfold ds_keys. cbn [nth app]. rewrite lin_0_l, lin_0_r, le_val_enc_scalar.
  rewrite (ed_mul_residue base_point K base_in_subgroup), (ed_mul_residue _ K (Hp_subgroup _ (encode_scalar _))). reflexivity.
Qed.

(** A signature with shares [k1] and [yy], which agree with [xx] but for the first: the answers of
    the other rows are complete, and the first one lacks the other shares. *)
Lemma share_spec k1 K yy r :
  ds = 1%nat -> reduced_scalar k1 -> List.length yy = rows -> Forall reduced_scalar yy -> (forall j, (0 < j)%nat -> nth j yy [] = nth j xx []) -> rng_ready r ->
  oreturns (MLSAG_Gen m (map (map encode) Ps) yy
    (Some (Multisig_kLRki k1 (encode (ed_mul K base_point)) (encode (ed_mul K (Hp (encode (nth 0 Pc ed_0))))) (encode (image 0)))) true index ds r)
    (fun '(mg, out, r') => exists c alphas, out = Some (enc_scalar c) /\ rng_ready r' /\ closed_by alphas c mg /\ nth 0 alphas [] = enc_scalar K /\
       le_val (nth 0 (nth index (ss mg) []) []) = (le_val k1 - c * le_val (nth 0 yy [])) mod ell /\
       forall j, (0 < j < rows)%nat -> le_val (nth j (nth index (ss mg) []) []) = (le_val (nth j alphas []) - c * le_val (nth j xx [])) mod ell).
Proof.
  intros Hd Rk Ly Ry Hyy Hr. pose proof HR as (_ & H1 & _). rewrite (gen_checks yy _ true r Ly) by now split.
  set (kl := Multisig_kLRki _ _ _ _). assert (oreturns (ofold (init_ds_row (map encode Pc) yy (Some kl)) (seq 0 ds) (MlsagInit [] [] [] [m] r)) (share_invariant k1 K ds)) as H0.
  { rewrite Hd. cbn [seq ofold]. eapply oreturns_bind; [exact (share_ds_spec k1 K yy r Hd Hr)|]. intros st Hst. exact Hst. }
  destruct (oreturns_some _ _ H0) as (st1 & -> & H1'). rewrite obind_Returns.
  assert (oreturns (ofold (init_nds_row (map encode Pc)) (seq ds (rows - ds)) st1) (share_invariant k1 K rows)) as HN.
  { replace rows with (ds + (rows - ds))%nat at 2 by lia. apply ofold_seq; [exact H1'|]. intros i st Hi. apply share_nds_spec. lia. }
  destruct (oreturns_some _ _ HN) as (st & -> & t & Ea & La & Ra & Hr1 & EI & HT & EH). rewrite obind_Returns. unfold with_alpha in *. cbn [mi_alpha mi_II mi_Ip mi_hash mi_rng] in *.
  rewrite Nat.min_r in * by exact Hds. inversion Ra as [|? ? _ Rt]. subst.
  assert (mi_hash st = m :: column_keys ds 0 (enc_scalar K :: t) Pc images) as EH' by (unfold column_keys; destruct signer_column as (_ & Lc & _); now rewrite Lc).
  eapply returns_weaken; [apply (finish_spec st yy (enc_scalar K :: t) true); trivial; rewrite Ea; [exact La | now constructor]|].
  intros [[[mg out] r'] | w]; [|auto]. intros (c & -> & Hr' & Hcl & Hrow). exists c, (enc_scalar K :: t). rewrite Ea in Hrow.
  split; [reflexivity|]. split; [exact Hr'|]. split; [exact Hcl|]. split; [reflexivity|]. split; [now apply Hrow|].
  intros j Hj. rewrite Hrow, Hyy by lia. destruct j; [lia | reflexivity].
Qed.
End Gen.

(** ** Claims *)

(** A matrix of valid keys is a matrix of encoded points. *)
Lemma checked_matrix rows (pk : list (list key)) :
  (forall col, In col pk -> List.length col = rows /\ forall k, In k col -> scalar k /\ check_key k = Some true) ->
  exists Ps, pk = map (map encode) Ps /\ Forall (fun col => List.length col = rows /\ Forall on_curve col) Ps.
Proof.
  induction pk as [|col pk IH]; intros H; [exists []; auto|]. destruct IH as (Ps & -> & HP); [intros c Hc; apply H; now right|].
  destruct (H col (or_introl eq_refl)) as [Lc Hc]. destruct (checked_keys col Hc) as (Qs & -> & HQ).
  exists (Qs :: Ps). split; [reflexivity|]. constructor; [|exact HP]. rewrite length_map in Lc. split; [exact Lc|].
  apply Forall_forall. exact HQ.
Qed.

(** C8: multilayered ring signatures are complete: for every message, every ring of at least two
    columns of valid keys, and secret keys of one of the columns, [MLSAG_Gen] returns without an
    exception, [MLSAG_Ver] accepts the signature, and its key images are those that
    [generate_key_image] gives for the signer's keys. *)
Theorem mlsag_complete {BD : Build} m pk xx index ds rows r :
  scalar m -> (2 <= List.length pk)%nat -> (index < List.length pk)%nat -> (1 <= rows)%nat -> (ds <= rows)%nat ->
  (forall col, In col pk -> List.length col = rows /\ forall k, In k col -> scalar k /\ check_key k = Some true) ->
  List.length xx = rows ->
  (forall j, (j < rows)%nat -> reduced_scalar (nth j xx []) /\ scalarmultBase (nth j xx []) = Some (nth j (nth index pk []) [])) ->
  rng_ready r ->
  exists mg r', MLSAG_Gen m pk xx None false index ds r = Some (Returns (mg, None, r')) /\ rng_ready r' /\
    MLSAG_Ver m pk mg ds = Some (Returns true) /\
    mapM (fun j => generate_key_image (nth j (nth index pk []) []) (nth j xx [])) (seq 0 ds) = Some (II mg).
Proof.
  intros Hm H2 Hi H1 Hd Hpk Lx Hx Hr. destruct (checked_matrix rows pk Hpk) as (Ps & -> & HP). rewrite length_map in *.
  assert (ring rows Ps) as HR by (split; [exact H2 | split; assumption]).
  destruct (ring_nth rows Ps index HR Hi) as (En & Lc & Cc). rewrite (nth_error_nth _ _ [] En) in Hx |- *.
  assert (forall j, (j < rows)%nat -> nth j (map encode (nth index Ps [])) [] = encode (nth j (nth index Ps []) ed_0)) as Ej.
  { intros j Hj. apply (nth_error_nth _ _ []), nth_encode. lia. }
  assert (Forall reduced_scalar xx) as Rx.
  { apply Forall_forall. intros x Hin. destruct (In_nth xx x [] Hin) as (j & Hj & <-). apply Hx. lia. }
  assert (forall j, (j < rows)%nat -> nth j (nth index Ps []) ed_0 = ed_mul (le_val (nth j xx [])) base_point) as Hk.
  { intros j Hj. destruct (Hx j Hj) as [Rj E]. rewrite scalarmultBase_enc, Ej in E by (exact Hj || apply Rj).
    apply encode_inj; [now apply ed_0_curve_nth | apply ed_mul_on_curve, base_point_on_curve | congruence]. }
  destruct (oreturns_some _ _ (gen_spec m rows ds index Ps xx Hm HR Hd Hi Lx Rx Hk r Hr)) as ([[[ss cc II] out] r'] & E & -> & EI & Ha & Fs & Fc & Hch & Hr').
  cbn [RctTypes.II RctTypes.ss RctTypes.cc] in *. subst II. exists (MgSig ss cc (map encode (images ds index Ps xx))), r'.
  split; [exact E|]. split; [exact Hr'|]. split.
  - rewrite (proj1 (ver_spec m ds rows (images ds index Ps xx) ss cc Ps Hm HR Ha Hd
      (eq_trans (length_map _ _) (length_seq _ _)) (images_on_curve index Ps xx ds) (proj1 Fc))) by now split.
    now rewrite Hch, Z.eqb_refl.
  - cbn [RctTypes.II]. unfold images. rewrite map_map. apply mapM_map. intros j Hj%in_seq. destruct (Hx j ltac:(lia)) as [Rj _].
    rewrite Ej by lia. apply key_image_encode; [apply encode_scalar | exact Rj].
Qed.

(** C9: what [MLSAG_Ver] accepts: on a ring of points with a signature of the right shape it always
    answers, and the answer is true exactly when all scalars are reduced and the challenges,
    each the hash of the message and of the commitments [c P + s G] and [s Hp(P) + c I] of the
    column before, return to the first. *)
Theorem mlsag_ver_correct m ds rows Is ss cc Ps :
  scalar m -> ring rows Ps -> answers rows Ps ss -> (ds <= rows)%nat -> List.length Is = ds -> Forall on_curve Is -> scalar cc ->
  exists ok, MLSAG_Ver m (map (map encode) Ps) (MgSig ss cc (map encode Is)) ds = Some (Returns ok) /\
    (ok = true <-> Forall (Forall reduced_scalar) ss /\ reduced_scalar cc /\
       chain m ds Is ss Ps (le_val cc) (List.length Ps) = le_val cc).
Proof.
  intros Hm HR Ha Hd LI HI Hcc. destruct (ver_spec m ds rows Is ss cc Ps Hm HR Ha Hd LI HI Hcc) as [Hgood Hbad].
  destruct (all_reduced_spec (List.concat ss)) as (ok & _ & Hok).
  { apply Forall_concat. eapply Forall_impl; [|apply Ha]. now intros row [_ ?]. }
  rewrite Forall_concat in Hok. destruct (reduced_dec cc Hcc) as [Rc|Rc].
  - destruct ok.
    + rewrite Hgood by (split; [now apply Hok | exact Rc]). eexists. split; [reflexivity|]. rewrite Z.eqb_eq.
      split; [intros E; split; [now apply Hok | now split] | now intros (_ & _ & E)].
    + rewrite Hbad by (intros [F _]; apply Hok in F; discriminate F). eexists. split; [reflexivity|].
      split; [discriminate | intros (F & _); now apply Hok in F].
  - rewrite Hbad by (now intros [_ F]). eexists. split; [reflexivity|]. split; [discriminate | now intros (_ & F & _)].
Qed.
End Mlsag.

Lemma concat_blocks_inj {A} (f g : nat -> list A) w l :
  (forall j, List.length (f j) = w) -> (forall j, List.length (g j) = w) ->
  List.concat (map f l) = List.concat (map g l) -> forall j, In j l -> f j = g j.
Proof.
  intros Hf Hg. induction l as [|x l IH]; intros E j Hj; [contradiction|]. cbn [map List.concat] in E.
  apply app_inj_length in E as [E1 E2]; [|now rewrite Hf, Hg]. destruct Hj as [->|Hj]; auto.
Qed.

Lemma length_concat_blocks {A} (f : nat -> list A) w l : (forall j, List.length (f j) = w) -> List.length (List.concat (map f l)) = (List.length l * w)%nat.
Proof. intros Hf. induction l as [|x l IH]; cbn [map List.concat List.length]; [reflexivity|]. rewrite length_app, Hf, IH. lia. Qed.

(** Equal columns have equal commitments, row by row. *)
Lemma column_keys_inj (H1 H2 : FastHash) ds c c' ss ss' Ps Is j :
  (ds <= List.length Ps)%nat -> (j < List.length Ps)%nat ->
  @column_keys H1 ds c ss Ps Is = @column_keys H2 ds c' ss' Ps Is ->
  let P := nth j Ps ed_0 in let s := le_val (nth j ss []) in let s' := le_val (nth j ss' []) in
  encode (lin c P s base_point) = encode (lin c' P s' base_point) /\
  ((j < ds)%nat -> encode (lin s (@Hp H1 (encode P)) c (nth j Is ed_0)) = encode (lin s' (@Hp H2 (encode P)) c' (nth j Is ed_0))).
Proof.
  intros Hd Hj E P s s'. unfold column_keys in E. apply app_inj_length in E as [E1 E2].
  2: { rewrite !(length_concat_blocks _ 3) by reflexivity. reflexivity. }
  destruct (Nat.lt_ge_cases j ds) as [L|L].
  - pose proof (concat_blocks_inj (@ds_keys H1 c ss Ps Is) (@ds_keys H2 c' ss' Ps Is) 3 _ (fun _ => eq_refl) (fun _ => eq_refl) E1 j ltac:(apply in_seq; lia)) as K.
    unfold ds_keys in K. fold P s s' in K. split; [congruence | intros _; congruence].
  - pose proof (concat_blocks_inj (nds_keys c ss Ps) (nds_keys c' ss' Ps) 2 _ (fun _ => eq_refl) (fun _ => eq_refl) E2 j ltac:(apply in_seq; lia)) as K.
    unfold nds_keys in K. fold P s s' in K. split; [congruence | lia].
Qed.

(** The scalars of an accepted signature are reduced. *)
Lemma accepted_reduced {FH : FastHash} m ds rows Is ss cc Ps :
  scalar m -> ring rows Ps -> answers rows Ps ss -> (ds <= rows)%nat -> List.length Is = ds -> Forall on_curve Is -> scalar cc ->
  MLSAG_Ver m (map (map encode) Ps) (MgSig ss cc (map encode Is)) ds = Some (Returns true) ->
  Forall (Forall reduced_scalar) ss /\ reduced_scalar cc.
Proof.
  intros Hm HR Ha Hd LI HI Hcc V. destruct (ver_spec m ds rows Is ss cc Ps Hm HR Ha Hd LI HI Hcc) as [_ Hbad].
  destruct (all_reduced_spec (List.concat ss)) as (ok & _ & Hok).
  { apply Forall_concat. eapply Forall_impl; [|apply Ha]. now intros row [_ ?]. }
  rewrite Forall_concat in Hok. destruct (reduced_dec cc Hcc) as [Rc|Rc]; [destruct ok|].
  - split; [now apply Hok | exact Rc].
  - rewrite Hbad in V by (intros [F _]; apply Hok in F; discriminate F). discriminate V.
  - rewrite Hbad in V by (now intros [_ F]). discriminate V.
Qed.

Lemma returns_inj {A} (x y : A) : Returns x = Returns y -> x = y.
Proof. congruence. Qed.

(** Two answers to different challenges of one column with the same commitments. *)
Lemma column_extract (H1 H2 : FastHash) ds rows c c' Is Ps ss ss' i j :
  ring rows Ps -> (ds <= rows)%nat -> List.length Is = ds -> Forall on_curve Is ->
  Forall (fun row => List.length row = rows /\ Forall reduced_scalar row) ss -> Forall (fun row => List.length row = rows /\ Forall reduced_scalar row) ss' ->
  List.length ss = List.length Ps -> List.length ss' = List.length Ps ->
  (forall P, on_curve P -> @Hp H1 (encode P) = @Hp H2 (encode P)) ->
  0 <= c < ell -> 0 <= c' < ell -> enc_scalar c <> enc_scalar c' -> (i < List.length Ps)%nat -> (j < rows)%nat ->
  @column_keys H1 ds c (nth i ss []) (nth i Ps []) Is = @column_keys H2 ds c' (nth i ss' []) (nth i Ps []) Is ->
  let P := nth j (nth i Ps []) ed_0 in
  let x := extract (Signature (enc_scalar c) (nth j (nth i ss []) [])) (Signature (enc_scalar c') (nth j (nth i ss' []) [])) in
  ed_mul 8 P = ed_mul 8 (ed_mul x base_point) /\
  ((j < ds)%nat -> ed_mul 8 (nth j Is ed_0) = ed_mul 8 (ed_mul x (@Hp H1 (encode P)))).
Proof.
  intros HR Hd LI HI Fs Fs' Ls Ls' Hagree Bc Bc' Ne Hi Hj E P x.
  destruct (ring_nth rows Ps i HR Hi) as (_ & Lcol & Ccol). pose proof (ed_0_curve_nth _ j Ccol : on_curve P) as CP.
  destruct (Forall_nth_error _ ss i [] Fs ltac:(lia)) as [_ [Lr Fr]]. destruct (Forall_nth_error _ ss' i [] Fs' ltac:(lia)) as [_ [Lr' Fr']].
  destruct (Forall_nth_error _ (nth i ss []) j [] Fr ltac:(lia)) as [_ Rs]. destruct (Forall_nth_error _ (nth i ss' []) j [] Fr' ltac:(lia)) as [_ Rs'].
  destruct (column_keys_inj H1 H2 ds c c' (nth i ss []) (nth i ss' []) (nth i Ps []) Is j ltac:(lia) ltac:(lia) E) as [EL ER]. fold P in EL, ER.
  set (s := nth j (nth i ss []) []) in *. set (s' := nth j (nth i ss' []) []) in *.
  pose proof base_point_on_curve as HG. pose proof (proj1 (@Hp_subgroup H1 (encode P) (encode_scalar P))) as HH.
  pose proof (ed_0_curve_nth _ j HI) as CI.
  assert (le_val (enc_scalar c) = c /\ le_val (enc_scalar c') = c') as [Vc Vc'] by (rewrite !le_val_enc_scalar, !Z.mod_small by assumption; now split).
  split; [|intros L]; apply (extract_correct _ _ (Signature (enc_scalar c) s) (Signature (enc_scalar c') s')); trivial;
    try (split; [apply enc_scalar_reduced | assumption]); cbn [sig_c sig_r]; rewrite Vc, Vc'.
  - apply encode_inj; [now apply lin_on_curve | now apply lin_on_curve | exact EL].
  - rewrite (lin_comm c (nth j Is ed_0)), (lin_comm c' (nth j Is ed_0)). specialize (ER L). rewrite <- (Hagree P CP) in ER.
    apply encode_inj; [now apply lin_on_curve | now apply lin_on_curve | exact ER].
Qed.

(** The keys that [MLSAG_Ver] hashes in column [i] of its loop. *)
Definition hashed_in_column {FH : FastHash} (m : key) (pk : list (list key)) (rv : mgSig) (dsRows i : nat) : option (outcome (list key)) :=
  let rows := List.length (nth 0 pk []) in
  let? Ip := precomp_all (II rv) in
  let? c_old := ofold (ver_column m pk (ss rv) Ip dsRows rows) (seq 0 i) (cc rv) in
  let! pki := nth_error pk i in
  let! ssi := nth_error (ss rv) i in
  mlsag_column m pki ssi c_old Ip dsRows rows.

Lemma reduced_rows rows Ps ss : answers rows Ps ss -> Forall (Forall reduced_scalar) ss -> Forall (fun row => List.length row = rows /\ Forall reduced_scalar row) ss.
Proof.
  intros [_ Hs] Fs. apply Forall_forall. intros row Hrow.
  split; [apply (proj1 (Forall_forall _ _) Hs row Hrow) | apply (proj1 (Forall_forall _ _) Fs row Hrow)].
Qed.

Lemma hashed_in_column_enc {FH : FastHash} m ds rows Is ss cc Ps i :
  scalar m -> ring rows Ps -> answers rows Ps ss -> (ds <= rows)%nat -> List.length Is = ds -> Forall on_curve Is ->
  Forall (Forall reduced_scalar) ss -> reduced_scalar cc -> (i < List.length Ps)%nat ->
  hashed_in_column m (map (map encode) Ps) (MgSig ss cc (map encode Is)) ds i =
    Some (Returns (m :: column_keys ds (chain m ds Is ss Ps (le_val cc) i) (nth i ss []) (nth i Ps []) Is)).
Proof.
  intros Hm HR Ha Hd LI HI Fs [Scc Lcc] Hi. unfold hashed_in_column. cbn [RctTypes.II RctTypes.ss RctTypes.cc].
  destruct (ring_first rows Ps HR) as (col & E0 & L0). rewrite (nth_error_nth _ _ [] E0), L0.
  pose proof (le_val_bound cc (proj1 Scc)) as [Bc _]. pose proof (reduced_rows rows Ps ss Ha Fs) as Hrows.
  apply precomp_all_total; [exact HI|]. intros Ip Ht. rewrite (enc_scalar_val cc Scc Lcc) at 1.
  rewrite (ver_columns m ds rows Is Ip ss Ps (le_val cc)) by (trivial; try apply Ha; lia). cbn [obind].
  destruct (ring_nth rows Ps i HR Hi) as (-> & Lc & Cc). rewrite bind_Some.
  destruct (Forall_nth_error _ ss i [] Hrows ltac:(rewrite (proj1 Ha); exact Hi)) as [-> [Ls Rs]]. rewrite bind_Some, <- Lc.
  apply column_spec; trivial; try lia. apply chain_range. lia.
Qed.

(** In an accepted signature the hash of a column is the challenge of the next, and of the first one after the last. *)
Lemma accepted_column {FH : FastHash} m ds rows Is ss cc Ps i :
  scalar m -> ring rows Ps -> answers rows Ps ss -> (ds <= rows)%nat -> List.length Is = ds -> Forall on_curve Is -> scalar cc ->
  MLSAG_Ver m (map (map encode) Ps) (MgSig ss cc (map encode Is)) ds = Some (Returns true) -> (i < List.length Ps)%nat ->
  hash_to_scalar_keyV (m :: column_keys ds (chain m ds Is ss Ps (le_val cc) i) (nth i ss []) (nth i Ps []) Is) =
    Some (enc_scalar (chain m ds Is ss Ps (le_val cc) ((i + 1) mod List.length Ps))).
Proof.
  intros Hm HR Ha Hd LI HI Hcc V Hi. rewrite hash_column, <- chain_S by exact Hm. do 2 f_equal.
  destruct (Nat.eq_dec (S i) (List.length Ps)) as [E|N].
  - rewrite (proj1 (ver_spec m ds rows Is ss cc Ps Hm HR Ha Hd LI HI Hcc)) in V by exact (accepted_reduced m ds rows Is ss cc Ps Hm HR Ha Hd LI HI Hcc V).
    assert (forall a b : bool, Some (Returns a) = Some (Returns b) -> a = b) as Inj by congruence. apply Inj, Z.eqb_eq in V.
    rewrite E, V. replace (i + 1)%nat with (List.length Ps) by lia. rewrite Nat.Div0.mod_same. reflexivity.
  - rewrite Nat.mod_small by lia. f_equal. lia.
Qed.

(** C10: multilayered ring signatures are sound: two signatures for one ring with the same key images
    are accepted, under hashes that agree on the points that keys hash to. The checks hash the same
    keys in some column and in the column after it (the first one after the last), and the
    answers to the hash of the first of them, the challenges of the second, differ, as when a
    signer is run again from that query on. Then for every key of the second column the two
    answers determine its secret key, and the key images are those of the secrets, up to the
    cofactor. *)
Theorem mlsag_sound (H1 H2 : FastHash) m m' ds rows Is Ps ss ss' cc cc' i j q q' c c' :
  scalar m -> scalar m' -> ring rows Ps -> answers rows Ps ss -> answers rows Ps ss' -> (ds <= rows)%nat -> List.length Is = ds ->
  Forall on_curve Is -> scalar cc -> scalar cc' ->
  (forall P, on_curve P -> @Hp H1 (encode P) = @Hp H2 (encode P)) ->
  let pk := map (map encode) Ps in let rv := MgSig ss cc (map encode Is) in let rv' := MgSig ss' cc' (map encode Is) in
  @MLSAG_Ver H1 m pk rv ds = Some (Returns true) -> @MLSAG_Ver H2 m' pk rv' ds = Some (Returns true) ->
  (i < List.length pk)%nat -> let next := ((i + 1) mod List.length pk)%nat in
  @hashed_in_column H1 m pk rv ds i = Some (Returns q) -> @hashed_in_column H2 m' pk rv' ds i = Some (Returns q) ->
  @hashed_in_column H1 m pk rv ds next = Some (Returns q') -> @hashed_in_column H2 m' pk rv' ds next = Some (Returns q') ->
  @hash_to_scalar_keyV H1 q = Some c -> @hash_to_scalar_keyV H2 q = Some c' -> c <> c' -> (j < rows)%nat ->
  let P := nth j (nth next Ps []) ed_0 in
  let x := extract (Signature c (nth j (nth next ss []) [])) (Signature c' (nth j (nth next ss' []) [])) in
  ed_mul 8 P = ed_mul 8 (ed_mul x base_point) /\
  ((j < ds)%nat -> ed_mul 8 (nth j Is ed_0) = ed_mul 8 (ed_mul x (@Hp H1 (encode P)))).
Proof.
  intros Hm Hm' HR Ha Ha' Hd LI HI Hcc Hcc' Hagree pk rv rv' V V' Hi next Q1 Q1' Q2 Q2' Ec Ec' Nc Hj P x.
  unfold pk in Hi. rewrite length_map in Hi. assert (next = ((i + 1) mod List.length Ps)%nat) as En by (unfold next, pk; now rewrite length_map).
  assert (next < List.length Ps)%nat as Hn by (rewrite En; apply Nat.mod_upper_bound; lia).
  destruct (@accepted_reduced H1 m ds rows Is ss cc Ps Hm HR Ha Hd LI HI Hcc V) as [Fs Rc].
  destruct (@accepted_reduced H2 m' ds rows Is ss' cc' Ps Hm' HR Ha' Hd LI HI Hcc' V') as [Fs' Rc'].
  unfold rv, rv', pk in Q1, Q1', Q2, Q2'.
  rewrite (@hashed_in_column_enc H1 m ds rows) in Q1, Q2 by assumption. rewrite (@hashed_in_column_enc H2 m' ds rows) in Q1', Q2' by assumption.
  apply some_inj, returns_inj in Q1, Q1', Q2, Q2'. rewrite <- Q1 in Ec. rewrite <- Q1' in Ec'.
  rewrite (@accepted_column H1 m ds rows) in Ec by assumption. rewrite (@accepted_column H2 m' ds rows) in Ec' by assumption.
  rewrite <- En in Ec, Ec'. apply some_inj in Ec, Ec'. rewrite <- Q2' in Q2. pose proof (f_equal (@tl key) Q2) as E. cbn [tl] in E.
  pose proof (le_val_bound cc (proj1 Hcc)) as [B _]. pose proof (le_val_bound cc' (proj1 Hcc')) as [B' _].
  assert (0 <= @chain H1 m ds Is ss Ps (le_val cc) next < ell) as Bc by (apply chain_range; split; [exact B | apply Rc]).
  assert (0 <= @chain H2 m' ds Is ss' Ps (le_val cc') next < ell) as Bc' by (apply chain_range; split; [exact B' | apply Rc']).
  revert E Ec Ec' Bc Bc'. generalize (@chain H1 m ds Is ss Ps (le_val cc) next) (@chain H2 m' ds Is ss' Ps (le_val cc') next).
  intros d d' E <- <- Bd Bd'. clear Q1 Q1' Q2 Q2'. subst x. clearbody next.
  apply (column_extract H1 H2 ds rows d d'); trivial; (now apply Ha) || (now apply Ha') || (now apply (reduced_rows rows Ps)).
Qed.

(** *** Witnesses *)

#[local] Existing Instance debug_build.

Definition two_columns : list (list key) := [[encode base_point]; [encode five_G]].

Lemma two_singletons (p q : key) :
  (forall k, In k [p; q] -> scalar k /\ check_key k = Some true) ->
  forall col, In col [[p]; [q]] -> List.length col = 1%nat /\ forall k, In k col -> scalar k /\ check_key k = Some true.
Proof.
  intros H col [<-|[<-|[]]]; (split; [reflexivity|]); intros k [<-|[]]; apply H; cbn; auto.
Qed.

Lemma two_columns_ok col : In col two_columns -> List.length col = 1%nat /\ forall k, In k col -> scalar k /\ check_key k = Some true.
Proof. exact (two_singletons (encode base_point) (encode five_G) two_keys_ok col). Qed.

Lemma one_signs (p q x : key) :
  reduced_scalar x -> scalarmultBase x = Some q ->
  forall j, (j < 1)%nat -> reduced_scalar (nth j [x] []) /\ scalarmultBase (nth j [x] []) = Some (nth j (nth 1 [[p]; [q]] []) []).
Proof. intros R E j Hj. destruct j; [|lia]. exact (conj R E). Qed.

Lemma five_signs j : (j < 1)%nat -> reduced_scalar (nth j [five] []) /\ scalarmultBase (nth j [five] []) = Some (nth j (nth 1 two_columns []) []).
Proof. exact (one_signs (encode base_point) (encode five_G) five (enc_scalar_reduced 5) (scalarmultBase_enc five (enc_scalar_scalar 5)) j). Qed.

Lemma mlsag_complete_witness :
  exists mg r', MLSAG_Gen (RB := keccak_random) ones32 two_columns [five] None false 1 1 seeded = Some (Returns (mg, None, r')) /\ random_ready r' /\
    MLSAG_Ver ones32 two_columns mg 1 = Some (Returns true) /\
    mapM (fun j => generate_key_image (nth j (nth 1 two_columns []) []) (nth j [five] [])) (seq 0 1) = Some (II mg).
Proof.
  exact (mlsag_complete (RB := keccak_random) ones32 two_columns [five] 1 1 1 seeded ones32_scalar (le_n 2) (le_n 2) (le_n 1) (le_n 1)
    two_columns_ok eq_refl five_signs seeded_ready).
Defined.

Lemma ring_of_two P Q : on_curve P -> on_curve Q -> ring 1 [[P]; [Q]].
Proof. intros HP HQ. split; [cbn; lia|]. split; [lia|]. repeat constructor; assumption. Qed.

Lemma answers_of_two Ps s t : List.length Ps = 2%nat -> scalar s -> scalar t -> answers 1 Ps [[s]; [t]].
Proof. intros L Hs Ht. split; [now rewrite L|]. repeat constructor; apply Hs || apply Ht. Qed.

Lemma reduced_of_two s t : reduced_scalar s -> reduced_scalar t -> Forall (Forall reduced_scalar) [[s]; [t]].
Proof. intros. repeat constructor; apply H || apply H0. Qed.

Definition two_points : list (list point) := [[five_G]; [base_point]].

Lemma two_points_ring : ring 1 two_points.
Proof. exact (ring_of_two five_G base_point (proj1 five_G_subgroup) base_point_on_curve). Qed.

(** Scalars for the two columns; [t] answers the first one. *)
Definition two_answers (t : Z) : list (list key) := [[enc_scalar t]; [enc_scalar 3]].

Lemma two_answers_ok t : answers 1 two_points (two_answers t).
Proof. exact (answers_of_two two_points (enc_scalar t) (enc_scalar 3) eq_refl (enc_scalar_scalar t) (enc_scalar_scalar 3)). Qed.

Lemma oracle_images : Forall on_curve [oracle_image].
Proof. exact (Forall_cons oracle_image oracle_image_on_curve (Forall_nil on_curve)). Qed.

Lemma mlsag_ver_correct_witness :
  exists ok, @MLSAG_Ver (oracle 1) ones32 (map (map encode) two_points) (MgSig (two_answers 7) (enc_scalar 1) (map encode [oracle_image])) 1 = Some (Returns ok) /\
    (ok = true <-> Forall (Forall reduced_scalar) (two_answers 7) /\ reduced_scalar (enc_scalar 1) /\
       @chain (oracle 1) ones32 1 [oracle_image] (two_answers 7) two_points (le_val (enc_scalar 1)) (List.length two_points) = le_val (enc_scalar 1)).
Proof.
  exact (@mlsag_ver_correct (oracle 1) ones32 1 1 [oracle_image] (two_answers 7) (enc_scalar 1) two_points
    ones32_scalar two_points_ring (two_answers_ok 7) (le_n 1) eq_refl oracle_images (enc_scalar_scalar 1)).
Defined.

(** The oracle answers every column with its challenge. *)
Lemma oracle_challenge n c ss Ps :
  0 <= n < ell -> List.length Ps = 1%nat -> @next_challenge (oracle n) ones32 1 [oracle_image] c ss Ps = n.
Proof.
  intros Hn LP. unfold next_challenge, Hs. assert (List.length (List.concat (ones32 :: @column_keys (oracle n) 1 c ss Ps [oracle_image])) = 128%nat) as ->.
  { destruct (concat_keys (ones32 :: @column_keys (oracle n) 1 c ss Ps [oracle_image])) as [_ ->].
    - constructor; [exact ones32_scalar | apply column_keys_scalar].
    - unfold column_keys. rewrite LP. reflexivity. }
  cbn [fast_hash oracle Nat.eqb]. rewrite le_val_enc_scalar, Z.mod_mod by discriminate. now apply Z.mod_small.
Qed.

(** In a column of one key, two answers that commit to the same points hash the same column. *)
Lemma single_column (H1 H2 : FastHash) c c' s s' P I :
  lin c P (le_val s) base_point = lin c' P (le_val s') base_point ->
  lin (le_val s) (@Hp H1 (encode P)) c I = lin (le_val s') (@Hp H2 (encode P)) c' I ->
  @column_keys H1 1 c [s] [P] [I] = @column_keys H2 1 c' [s'] [P] [I].
Proof.
  intros E1 E2. unfold column_keys. cbn [map seq List.concat List.length Nat.sub app]. unfold ds_keys. cbn [nth]. now rewrite E1, E2.
Qed.

Lemma five_column (H1 H2 : FastHash) H :
  @Hp H1 (encode five_G) = H -> @Hp H2 (encode five_G) = H -> on_curve H ->
  @column_keys H1 1 (le_val (enc_scalar 1)) [enc_scalar 7] [five_G] [ed_mul (le_val five) H]
    = @column_keys H2 1 (le_val (enc_scalar 2)) [enc_scalar 2] [five_G] [ed_mul (le_val five) H].
Proof.
  intros E1 E2 HH. apply single_column; [exact (answers_same_commitment _ base_point_on_curve)|].
  rewrite E1, E2, (lin_comm (le_val (enc_scalar 7)) H), (lin_comm (le_val (enc_scalar 2)) H). exact (answers_same_commitment _ HH).
Qed.

(** A ring of two columns with the same key; with the challenge [n] in both, the scalar [t] answers both. *)
Definition same_points : list (list point) := [[five_G]; [five_G]].
Definition same_answers (t : Z) : list (list key) := [[enc_scalar t]; [enc_scalar t]].

Lemma same_points_ring : ring 1 same_points.
Proof. exact (ring_of_two five_G five_G (proj1 five_G_subgroup) (proj1 five_G_subgroup)). Qed.

Lemma same_answers_ok t : answers 1 same_points (same_answers t).
Proof. exact (answers_of_two same_points (enc_scalar t) (enc_scalar t) eq_refl (enc_scalar_scalar t) (enc_scalar_scalar t)). Qed.

Lemma same_answers_reduced t : Forall (Forall reduced_scalar) (same_answers t).
Proof. exact (reduced_of_two _ _ (enc_scalar_reduced t) (enc_scalar_reduced t)). Qed.

Lemma oracle_chain n t i : 0 <= n < ell -> (i <= 2)%nat ->
  @chain (oracle n) ones32 1 [oracle_image] (same_answers t) same_points (le_val (enc_scalar n)) i = le_val (enc_scalar n).
Proof.
  intros Hn Hi. destruct i as [|i]; [reflexivity|]. rewrite chain_S, oracle_challenge.
  - rewrite le_val_enc_scalar. symmetry. now apply Z.mod_small.
  - exact Hn.
  - destruct i as [|[|i]]; [reflexivity | reflexivity | lia].
Qed.

Lemma same_accepted n t :
  0 <= n < ell ->
  @MLSAG_Ver (oracle n) ones32 (map (map encode) same_points) (MgSig (same_answers t) (enc_scalar n) (map encode [oracle_image])) 1 = Some (Returns true).
Proof.
  intros Hn. rewrite (proj1 (@ver_spec (oracle n) ones32 1 1 [oracle_image] (same_answers t) (enc_scalar n) same_points
    ones32_scalar same_points_ring (same_answers_ok t) (le_n 1) eq_refl oracle_images (enc_scalar_scalar n))
    (conj (same_answers_reduced t) (enc_scalar_reduced n))).
  change (List.length same_points) with 2%nat. rewrite oracle_chain, Z.eqb_refl by (exact Hn || lia). reflexivity.
Qed.

Definition five_keys : list key := ones32 :: @column_keys (oracle 1) 1 (le_val (enc_scalar 1)) [enc_scalar 7] [five_G] [oracle_image].

Lemma same_hashed n t i :
  0 <= n < ell -> (i < 2)%nat ->
  @column_keys (oracle n) 1 (le_val (enc_scalar n)) [enc_scalar t] [five_G] [oracle_image] =
    @column_keys (oracle 1) 1 (le_val (enc_scalar 1)) [enc_scalar 7] [five_G] [oracle_image] ->
  @hashed_in_column (oracle n) ones32 (map (map encode) same_points) (MgSig (same_answers t) (enc_scalar n) (map encode [oracle_image])) 1 i =
    Some (Returns five_keys).
Proof.
  intros Hn Hi E. rewrite (@hashed_in_column_enc (oracle n) ones32 1 1 [oracle_image] (same_answers t) (enc_scalar n) same_points i
    ones32_scalar same_points_ring (same_answers_ok t) (le_n 1) eq_refl oracle_images (same_answers_reduced t) (enc_scalar_reduced n) Hi).
  rewrite oracle_chain by (exact Hn || lia). unfold five_keys. rewrite <- E.
  destruct i as [|[|i]]; [reflexivity | reflexivity | lia].
Qed.

Lemma oracle_hash n : @hash_to_scalar_keyV (oracle n) five_keys = Some (enc_scalar n).
Proof.
  assert (Forall scalar five_keys) as F by (constructor; [exact ones32_scalar | apply column_keys_scalar]).
  rewrite (@hash_keyV_enc (oracle n)) by exact F. destruct (concat_keys five_keys F) as [_ L]. unfold Hs. rewrite L.
  cbn [fast_hash oracle]. change (List.length five_keys) with 4%nat. cbn [Nat.mul Nat.add Nat.eqb].
  f_equal. rewrite le_val_enc_scalar. apply enc_scalar_cong. now rewrite !Z.mod_mod.
Qed.

Lemma one_two_differ : enc_scalar 1 <> enc_scalar 2.
Proof. intros E. apply enc_scalar_inj in E. discriminate E. Qed.

Lemma mlsag_sound_witness :
  let x := extract (Signature (enc_scalar 1) (enc_scalar 7)) (Signature (enc_scalar 2) (enc_scalar 2)) in
  ed_mul 8 five_G = ed_mul 8 (ed_mul x base_point) /\
  ((0 < 1)%nat -> ed_mul 8 oracle_image = ed_mul 8 (ed_mul x (@Hp (oracle 1) (encode five_G)))).
Proof.
  assert (0 <= 1 < ell) as B1 by (split; [discriminate | reflexivity]). assert (0 <= 2 < ell) as B2 by (split; [discriminate | reflexivity]).
  pose proof (eq_sym (five_column (oracle 1) (oracle 2) _ eq_refl (oracle_Hp 2 1 five_G) oracle_Hp_on_curve)) as E.
  exact (mlsag_sound (oracle 1) (oracle 2) ones32 ones32 1 1 [oracle_image] same_points (same_answers 7) (same_answers 2) (enc_scalar 1) (enc_scalar 2) 1 0
    five_keys five_keys (enc_scalar 1) (enc_scalar 2)
    ones32_scalar ones32_scalar same_points_ring (same_answers_ok 7) (same_answers_ok 2) (le_n 1) eq_refl oracle_images (enc_scalar_scalar 1) (enc_scalar_scalar 2)
    (fun P _ => oracle_Hp 1 2 P) (same_accepted 1 7 B1) (same_accepted 2 2 B2) (le_n 2)
    (same_hashed 1 7 1 B1 (le_n 2) eq_refl) (same_hashed 2 2 1 B2 (le_n 2) E)
    (same_hashed 1 7 0 B1 (le_S 1 1 (le_n 1)) eq_refl) (same_hashed 2 2 0 B2 (le_S 1 1 (le_n 1)) E)
    (oracle_hash 1) (oracle_hash 2) one_two_differ (le_n 1)).
Defined.
