(* ===== verification/Linear.v ===== *)
(** * Linear combinations of points

    Terms over points, their coefficients, and a tactic that reduces an equality of linear
    combinations to equalities of the coefficients, modulo the order of the base point where
    the point has that order. Finite sums of numbers and of points. *)

From Stdlib Require Import ZArith Lia List Bool.
From S2P Require Import Prelude Primes ScReduce Sc Curve GeScalar GeBase GeDouble Order Encode Signature RctTable RctOps.
Import ListNotations.

#[local] Open Scope Z_scope.
#[local] Open Scope list_scope.
#[local] Opaque ed_mul ed_add ed_opp.

(** Points are on the curve. *)
Create HintDb curve.
#[export] Hint Resolve ed_0_on_curve ed_add_on_curve ed_mul_on_curve ed_opp_on_curve lin_on_curve : curve.
#[export] Hint Extern 0 (on_curve base_point) => exact base_point_on_curve : curve.
#[export] Hint Extern 0 (on_curve H_point) => exact H_on_curve : curve.

(** ** Terms *)

Inductive pterm :=
  | PAtom (n : nat)
  | PZero
  | PAdd (s t : pterm)
  | POpp (t : pterm)
  | PMul (k : Z) (t : pterm).

Fixpoint pdenote (env : list point) (t : pterm) : point :=
  match t with
  | PAtom n => nth n env ed_0
  | PZero => ed_0
  | PAdd s t => ed_add (pdenote env s) (pdenote env t)
  | POpp t => ed_opp (pdenote env t)
  | PMul k t => ed_mul k (pdenote env t)
  end.

(** The coefficient of an atom. *)
Fixpoint pcoef (t : pterm) (n : nat) : Z :=
  match t with
  | PAtom m => if (m =? n)%nat then 1 else 0
  | PZero => 0
  | PAdd s t => pcoef s n + pcoef t n
  | POpp t => - pcoef t n
  | PMul k t => k * pcoef t n
  end.

(** The combination of a list of points with given coefficients. *)
Fixpoint pcomb (env : list point) (c : nat -> Z) : point :=
  match env with
  | [] => ed_0
  | P :: env => ed_add (ed_mul (c O) P) (pcomb env (fun n => c (S n)))
  end.

Lemma ed_opp_mul P : on_curve P -> ed_opp P = ed_mul (- 1) P.
Proof. intros HP. change (- 1) with (Z.opp 1). now rewrite ed_mul_opp, ed_mul_1. Qed.

Lemma ed_opp_add P Q : on_curve P -> on_curve Q -> ed_opp (ed_add P Q) = ed_add (ed_opp P) (ed_opp Q).
Proof. intros HP HQ. rewrite !ed_opp_mul by (assumption || now apply ed_add_on_curve). now apply ed_mul_distr. Qed.

Lemma ed_add_0_r P : ed_add P ed_0 = P.
Proof. rewrite ed_add_comm. apply ed_add_0_l. Qed.

Section Comb.
  Variable env : list point.
  Hypothesis Henv : Forall on_curve env.

Lemma pdenote_on_curve t : on_curve (pdenote env t).
Proof.
  induction t as [n| |s IHs t IHt|t IH|k t IH]; cbn [pdenote].
  - destruct (le_lt_dec (length env) n) as [L|L]; [rewrite nth_overflow by exact L; apply ed_0_on_curve|].
    exact (proj1 (Forall_forall _ _) Henv _ (nth_In _ _ L)).
  - apply ed_0_on_curve.
  - now apply ed_add_on_curve.
  - now apply ed_opp_on_curve.
  - now apply ed_mul_on_curve.
Qed.
End Comb.

Lemma pcomb_on_curve env c : Forall on_curve env -> on_curve (pcomb env c).
Proof.
  intros H. revert c. induction H as [|P env HP _ IH]; intros c; cbn [pcomb]; [apply ed_0_on_curve|].
  apply ed_add_on_curve; [now apply ed_mul_on_curve | apply IH].
Qed.

Lemma pcomb_add env c d : Forall on_curve env -> pcomb env (fun n => c n + d n) = ed_add (pcomb env c) (pcomb env d).
Proof.
  intros H. revert c d. induction H as [|P env HP Henv IH]; intros c d; cbn [pcomb]; [symmetry; apply ed_add_0_l|].
  rewrite (IH (fun n => c (S n)) (fun n => d (S n))), ed_mul_add by exact HP.
  apply ed_add_4; (now apply ed_mul_on_curve) || (now apply pcomb_on_curve).
Qed.

Lemma pcomb_mul env k c : Forall on_curve env -> pcomb env (fun n => k * c n) = ed_mul k (pcomb env c).
Proof.
  intros H. revert c. induction H as [|P env HP Henv IH]; intros c; cbn [pcomb]; [symmetry; apply ed_mul_ed_0|].
  rewrite (IH (fun n => c (S n))), ed_mul_distr, ed_mul_mul; trivial; [now apply ed_mul_on_curve | now apply pcomb_on_curve].
Qed.

(** Two combinations are equal when the coefficients are, modulo [ell] at points of order [ell]. *)
Definition coef_eq (P : point) (c d : Z) : Prop := c = d \/ (in_subgroup P /\ c mod ell = d mod ell).

Lemma pcomb_ext env c d :
  (forall n, (n < length env)%nat -> coef_eq (nth n env ed_0) (c n) (d n)) -> pcomb env c = pcomb env d.
Proof.
  revert c d. induction env as [|P env IH]; intros c d H; cbn [pcomb]; [reflexivity|]. f_equal.
  - destruct (H O) as [-> | [HP E]]; [cbn; lia | reflexivity | now apply ed_mul_mod].
  - apply IH. intros n Hn. apply (H (S n)). cbn. lia.
Qed.

Lemma pcomb_0 env : Forall on_curve env -> pcomb env (fun _ => 0) = ed_0.
Proof.
  induction 1 as [|P env HP _ IH]; cbn [pcomb]; [reflexivity|]. rewrite ed_mul_0, IH. apply ed_add_0_l.
Qed.

Lemma pcomb_atom env n : Forall on_curve env -> pcomb env (pcoef (PAtom n)) = nth n env ed_0.
Proof.
  intros H. revert n. induction H as [|P env HP Henv IH]; intros n; cbn [pcomb]; [now destruct n|].
  destruct n as [|n]; cbn [nth pcoef Nat.eqb].
  - rewrite pcomb_0, ed_mul_1, ed_add_comm by exact Henv. apply ed_add_0_l.
  - rewrite ed_mul_0, ed_add_0_l. apply IH.
Qed.

Lemma pdenote_comb env t : Forall on_curve env -> pdenote env t = pcomb env (pcoef t).
Proof.
  intros H. induction t as [n| |s IHs t IHt|t IH|k t IH]; cbn [pdenote].
  - symmetry. now apply pcomb_atom.
  - symmetry. now apply pcomb_0.
  - rewrite IHs, IHt. symmetry. now apply (pcomb_add env (pcoef s) (pcoef t)).
  - rewrite IH, ed_opp_mul, <- (pcomb_mul env (- 1) (pcoef t)) by (exact H || now apply pcomb_on_curve).
    apply pcomb_ext. intros n _. left. cbn [pcoef]. lia.
  - rewrite IH. symmetry. now apply (pcomb_mul env k (pcoef t)).
Qed.

Fixpoint coefs_eq (env : list point) (n : nat) (s t : pterm) : Prop :=
  match env with
  | [] => True
  | P :: env => coef_eq P (pcoef s n) (pcoef t n) /\ coefs_eq env (S n) s t
  end.

Lemma coefs_eq_nth env k s t :
  coefs_eq env k s t -> forall n, (n < length env)%nat -> coef_eq (nth n env ed_0) (pcoef s (k + n)) (pcoef t (k + n)).
Proof.
  revert k. induction env as [|P env IH]; intros k; cbn [coefs_eq length]; intros H n Hn; [lia|].
  destruct n as [|n]; [rewrite Nat.add_0_r; apply H|]. rewrite Nat.add_succ_r. apply (IH (S k)); [apply H | lia].
Qed.

Theorem pterm_eq env s t : Forall on_curve env -> coefs_eq env 0 s t -> pdenote env s = pdenote env t.
Proof.
  intros H E. rewrite !pdenote_comb by exact H. apply pcomb_ext. intros n Hn. exact (coefs_eq_nth env 0 s t E n Hn).
Qed.

(** ** The tactic *)

Ltac atom_index P env :=
  lazymatch env with
  | P :: _ => constr:(O)
  | _ :: ?env => let n := atom_index P env in constr:(S n)
  end.

Ltac atoms_of P env :=
  lazymatch P with
  | ed_add ?s ?t => let env := atoms_of s env in atoms_of t env
  | lin _ ?s _ ?t => let env := atoms_of s env in atoms_of t env
  | ed_opp ?t => atoms_of t env
  | ed_mul _ ?t => atoms_of t env
  | ed_0 => env
  | _ => match env with
         | _ => let n := atom_index P env in env
         | _ => let env := eval cbv [app] in (env ++ [P]) in env
         end
  end.

Ltac pterm_of P env :=
  lazymatch P with
  | ed_add ?s ?t => let s := pterm_of s env in let t := pterm_of t env in constr:(PAdd s t)
  | lin ?a ?s ?b ?t => let s := pterm_of s env in let t := pterm_of t env in constr:(PAdd (PMul a s) (PMul b t))
  | ed_opp ?t => let t := pterm_of t env in constr:(POpp t)
  | ed_mul ?k ?t => let t := pterm_of t env in constr:(PMul k t)
  | ed_0 => constr:(PZero)
  | _ => let n := atom_index P env in constr:(PAtom n)
  end.

(** Leaves the points on the curve and the coefficients. *)
Ltac point_eq :=
  lazymatch goal with
  | |- ?P = ?Q =>
      let env := atoms_of P (@nil point) in
      let env := atoms_of Q env in
      let s := pterm_of P env in
      let t := pterm_of Q env in
      change (pdenote env s = pdenote env t);
      apply pterm_eq; [repeat constructor | cbn [coefs_eq pcoef Nat.eqb]; repeat split]
  end.

(** ** Sums *)

Fixpoint zsum (n : nat) (f : nat -> Z) : Z :=
  match n with
  | O => 0
  | S n => zsum n f + f n
  end.

Fixpoint psum (n : nat) (f : nat -> point) : point :=
  match n with
  | O => ed_0
  | S n => ed_add (psum n f) (f n)
  end.

Lemma zsum_ext n f g : (forall i, (i < n)%nat -> f i = g i) -> zsum n f = zsum n g.
Proof. induction n as [|n IH]; intros H; cbn [zsum]; [reflexivity|]. rewrite IH, H; auto. Qed.

Lemma zsum_add n f g : zsum n (fun i => f i + g i) = zsum n f + zsum n g.
Proof. induction n as [|n IH]; cbn [zsum]; [reflexivity|]. rewrite IH. ring. Qed.

Lemma zsum_mul n k f : zsum n (fun i => k * f i) = k * zsum n f.
Proof. induction n as [|n IH]; cbn [zsum]; [ring|]. rewrite IH. ring. Qed.

Lemma zsum_split n m f : zsum (n + m) f = zsum n f + zsum m (fun i => f (n + i)%nat).
Proof. induction m as [|m IH]; [rewrite Nat.add_0_r; cbn; ring|]. rewrite Nat.add_succ_r. cbn [zsum]. rewrite IH. ring. Qed.

Lemma zsum_mod n f g m : (forall i, (i < n)%nat -> f i mod m = g i mod m) -> zsum n f mod m = zsum n g mod m.
Proof.
  induction n as [|n IH]; intros H; cbn [zsum]; [reflexivity|]. rewrite Zplus_mod, IH, H, <- Zplus_mod by auto. reflexivity.
Qed.

Lemma psum_on_curve n f : (forall i, (i < n)%nat -> on_curve (f i)) -> on_curve (psum n f).
Proof. intros Hf. induction n as [|n IH]; cbn [psum]; [apply ed_0_on_curve|]. apply ed_add_on_curve; auto. Qed.

Lemma psum_ext n f g : (forall i, (i < n)%nat -> f i = g i) -> psum n f = psum n g.
Proof. induction n as [|n IH]; intros H; cbn [psum]; [reflexivity|]. rewrite IH, H; auto. Qed.

Lemma psum_subgroup n f : (forall i, (i < n)%nat -> in_subgroup (f i)) -> in_subgroup (psum n f).
Proof.
  intros H. split; [apply psum_on_curve; intros i Hi; now apply H|]. induction n as [|n IH]; cbn [psum]; [apply ed_mul_ed_0|].
  rewrite ed_mul_distr by (apply (H n); lia) || (apply psum_on_curve; intros; apply H; lia).
  rewrite IH, (proj2 (H n ltac:(lia))) by auto. apply ed_add_0_l.
Qed.

Lemma psum_add n f g :
  (forall i, (i < n)%nat -> on_curve (f i)) -> (forall i, (i < n)%nat -> on_curve (g i)) ->
  psum n (fun i => ed_add (f i) (g i)) = ed_add (psum n f) (psum n g).
Proof.
  intros Hf Hg. induction n as [|n IH]; cbn [psum]; [symmetry; apply ed_add_0_l|].
  rewrite IH by auto. apply ed_add_4; auto using psum_on_curve.
Qed.

Lemma psum_mul n k f :
  (forall i, (i < n)%nat -> on_curve (f i)) -> psum n (fun i => ed_mul k (f i)) = ed_mul k (psum n f).
Proof.
  intros Hf. induction n as [|n IH]; cbn [psum]; [symmetry; apply ed_mul_ed_0|].
  rewrite IH by auto. symmetry. apply ed_mul_distr; auto using psum_on_curve.
Qed.

(** Multiples of one point. *)
Lemma psum_zsum n f P : on_curve P -> psum n (fun i => ed_mul (f i) P) = ed_mul (zsum n f) P.
Proof.
  intros HP. induction n as [|n IH]; cbn [psum zsum]; [symmetry; apply ed_mul_0|]. now rewrite IH, ed_mul_add.
Qed.

Lemma psum_split n m f :
  (forall i, (i < n + m)%nat -> on_curve (f i)) -> psum (n + m) f = ed_add (psum n f) (psum m (fun i => f (n + i)%nat)).
Proof.
  intros Hf. induction m as [|m IH]; [rewrite Nat.add_0_r; symmetry; apply ed_add_0_r|]. rewrite Nat.add_succ_r in *. cbn [psum].
  rewrite IH by (intros; apply Hf; lia). apply ed_add_assoc; [apply psum_on_curve; intros; apply Hf; lia | apply psum_on_curve; intros; apply Hf; lia | apply Hf; lia].
Qed.
