(* ===== verification/Subaddress.v ===== *)
(** * Subaddresses and outputs of an account

    Models the functions of the default device (device_default.cpp) for subaddresses, keys and
    payment ids, and those of cryptonote_format_utils.cpp that find the outputs of a transaction
    that belong to an account and compute their secret keys and key images
    ([is_out_to_acc], [is_out_to_acc_precomp], [lookup_acc_outs], [generate_key_image_helper]).
    The table of the subaddresses is only searched: it is a function from spend keys to indices.
    What a local key holds before it is written is an argument ([junk]). A function that returns
    [false] gives [None] inside; an exception is a value of [outcome]; around both, [None] is a
    failed assertion. *)

From Stdlib Require Import ZArith Zcong Lia List Bool String.
From S2P Require Import Prelude Bytes Fe FeMul Primes ScReduce Sc Curve Ge GeBytes GeScalar GeBase GeDouble GeHash.
From S2P Require Import Keccak TreeHash Order Varint Random Encode KeyOps Signature RingSig Address RctTypes RctTable RctOps Borromean Mlsag Linear.
Import ListNotations.

#[local] Open Scope Z_scope.
#[local] Open Scope list_scope.
#[local] Opaque ed_mul ed_add base_point encode enc_scalar point_code.

(** ** The code: types *)

Record subaddress_index := SubaddressIndex { major : Z; minor : Z }.

Definition is_zero (index : subaddress_index) : bool := (major index =? 0) && (minor index =? 0).

Record account_keys := AccountKeys {
  m_account_address : account_public_address;
  m_spend_secret_key : key;
  m_view_secret_key : key;
  m_multisig_keys : list key }.

Record keypair := KeyPair { kp_pub : key; kp_sec : key }.

(** The index and the derivation with which an output was found. *)
Record subaddress_receive_info := ReceiveInfo { sri_index : subaddress_index; sri_derivation : key }.

(** The target of an output: a key, or another kind. *)
Inductive txout_target := TxoutToKey (k : key) | TxoutOther.
Record tx_out := TxOut { amount : Z; target : txout_target }.

Definition null_skey : key := repeat 0 32.

Section Account.
  Context {FH : FastHash} {BD : Build}.
  Context (junk : key).

(** ** The code: device *)

(** The eight bytes of [prefix], with the final zero. *)
Definition subaddr_prefix : list Z := [83; 117; 98; 65; 100; 100; 114; 0].

Definition get_subaddress_secret_key (a : key) (index : subaddress_index) : option key :=
  let data := subaddr_prefix ++ a ++ le_bytes 4 (major index) ++ le_bytes 4 (minor index) in
  hash_to_scalar data 48.

(** The result of [secret_key_to_public_key] is not tested. *)
Definition get_subaddress_spend_public_key (keys : account_keys) (index : subaddress_index) : option (outcome key) :=
  if is_zero index then Some (Returns (m_spend_public_key (m_account_address keys)))
  else
    let! m := get_subaddress_secret_key (m_view_secret_key keys) index in
    let! r := secret_key_to_public_key m in
    let M := match r with Some M => M | None => junk end in
    addKeys (m_spend_public_key (m_account_address keys)) M.

(** One turn of the loop of [get_subaddress_spend_public_keys]. *)
Definition next_spend_key (keys : account_keys) (account : Z) (cached : ge_cached) (pkeys : list key) (idx : Z) : option (list key) :=
  let index := SubaddressIndex account idx in
  if is_zero index then Some (pkeys ++ [m_spend_public_key (m_account_address keys)])
  else
    let! m := get_subaddress_secret_key (m_view_secret_key keys) index in
    let! p3 := ge_scalarmult_base m in
    let! p1p1 := ge_add p3 cached in
    let! p3 := ge_p1p1_to_p3 p1p1 in
    let! D := ge_p3_tobytes p3 in
    Some (pkeys ++ [D]).

Definition get_subaddress_spend_public_keys (keys : account_keys) (account begin end_ : Z) : option (outcome (list key)) :=
  let? _ := check_throw (begin <=? end_) "begin > end" in
  if? p3 := ge_frombytes_vartime (m_spend_public_key (m_account_address keys))
    else Some (Throws "ge_frombytes_vartime failed to convert spend public key") in
  let! cached := ge_p3_to_cached p3 in
  let! pkeys := foldM (next_spend_key keys account cached) (map (fun i => begin + Z.of_nat i) (seq 0 (Z.to_nat (end_ - begin)))) [] in
  Some (Returns pkeys).

Definition get_subaddress (keys : account_keys) (index : subaddress_index) : option (outcome account_public_address) :=
  if is_zero index then Some (Returns (m_account_address keys))
  else
    let? D := get_subaddress_spend_public_key keys index in
    let? C := scalarmultKey D (m_view_secret_key keys) in
    Some (Returns (AccountAddress D C)).

Definition verify_keys (secret_key public_key : key) : option bool :=
  let! r := secret_key_to_public_key secret_key in
  Some match r with Some calculated_pub => key_eqb public_key calculated_pub | None => false end.

Definition sc_secret_add (a b : key) : option key := sc_add a b.

Definition ENCRYPTED_PAYMENT_ID_TAIL : Z := 0x8d.

(** [for (b = 0; b < 8; ++b) payment_id.data[b] ^= hash.data[b];] *)
Definition xor_payment_id (payment_id hash : list Z) : option (list Z) :=
  mapM (fun b => let! x := nth_error payment_id b in let! y := nth_error hash b in Some (Z.lxor x y)) (seq 0 8).

Definition encrypt_payment_id (payment_id : list Z) (public_key secret_key : key) : option (option (list Z)) :=
  if? derivation := generate_key_derivation public_key secret_key else Some None in
  let! hash := fast_hash (derivation ++ [ENCRYPTED_PAYMENT_ID_TAIL]) 33 in
  let! p := xor_payment_id payment_id hash in
  Some (Some p).

(** ** The code: outputs of an account *)

Definition add_public_key (A B : key) : option (outcome key) :=
  if? B2 := ge_frombytes_vartime B else Some (Throws "ge_frombytes_vartime failed") in
  if? A2 := ge_frombytes_vartime A else Some (Throws "ge_frombytes_vartime failed") in
  let! tmp2 := ge_p3_to_cached B2 in
  let! tmp3 := ge_add A2 tmp2 in
  let! A2 := ge_p1p1_to_p3 tmp3 in
  let! AB := ge_p3_tobytes A2 in
  Some (Returns AB).

Definition is_out_to_acc (acc : account_keys) (out_key tx_pub_key : key) (additional_tx_pub_keys : list key) (output_index : nat)
  : option bool :=
  let spend := m_spend_public_key (m_account_address acc) in
  if? derivation := generate_key_derivation tx_pub_key (m_view_secret_key acc) else Some false in
  if? pk := derive_public_key derivation (Z.of_nat output_index) spend else Some false in
  if key_eqb pk out_key then Some true
  else match additional_tx_pub_keys with
       | [] => Some false
       | _ =>
           if (output_index <? List.length additional_tx_pub_keys)%nat then
             let! R := nth_error additional_tx_pub_keys output_index in
             if? derivation := generate_key_derivation R (m_view_secret_key acc) else Some false in
             if? pk := derive_public_key derivation (Z.of_nat output_index) spend else Some false in
             Some (key_eqb pk out_key)
           else Some false
       end.

(** The result of [derive_subaddress_public_key] is not tested: on failure the key keeps its value. *)
Definition derived_spendkey (out_key derivation : key) (output_index : nat) (old : key) : option key :=
  let! r := derive_subaddress_public_key out_key derivation (Z.of_nat output_index) in
  Some match r with Some k => k | None => old end.

Definition is_out_to_acc_precomp (subaddresses : key -> option subaddress_index) (out_key derivation : key)
  (additional_derivations : list key) (output_index : nat) : option (option subaddress_receive_info) :=
  let! subaddress_spendkey := derived_spendkey out_key derivation output_index junk in
  match subaddresses subaddress_spendkey with
  | Some index => Some (Some (ReceiveInfo index derivation))
  | None =>
      match additional_derivations with
      | [] => Some None
      | _ =>
          if (output_index <? List.length additional_derivations)%nat then
            let! d := nth_error additional_derivations output_index in
            let! subaddress_spendkey := derived_spendkey out_key d output_index subaddress_spendkey in
            match subaddresses subaddress_spendkey with
            | Some index => Some (Some (ReceiveInfo index d))
            | None => Some None
            end
          else Some None
      end
  end.

(** [outs] and [money_transfered]. *)
Definition lookup_step (acc : account_keys) (tx_pub_key : key) (additional_tx_pub_keys : list key)
  (st : option (list nat * Z)) (io : nat * tx_out) : option (option (list nat * Z)) :=
  match st with
  | None => Some None
  | Some (outs, money) =>
      let '(i, o) := io in
      match target o with
      | TxoutOther => Some None
      | TxoutToKey k =>
          let! mine := is_out_to_acc acc k tx_pub_key additional_tx_pub_keys i in
          Some (Some (if mine then (outs ++ [i], u64 (money + amount o)) else (outs, money)))
      end
  end.

Definition lookup_acc_outs (acc : account_keys) (vout : list tx_out) (tx_pub_key : key) (additional_tx_pub_keys : list key)
  (outs : list nat) : option (option (list nat * Z)) :=
  if (List.length additional_tx_pub_keys =? 0)%nat || (List.length additional_tx_pub_keys =? List.length vout)%nat then
    foldM (lookup_step acc tx_pub_key additional_tx_pub_keys) (combine (seq 0 (List.length vout)) vout) (Some (outs, 0))
  else Some None.

(** [in_ephemeral] and [ki]. *)
Definition generate_key_image_helper_precomp (ack : account_keys) (out_key recv_derivation : key) (real_output_index : nat)
  (received_index : subaddress_index) : option (outcome (option (keypair * key))) :=
  if key_eqb (m_spend_secret_key ack) null_skey then
    let! ki := generate_key_image out_key null_skey in
    Some (Returns (Some (KeyPair out_key null_skey, ki)))
  else
    let! scalar_step1 := derive_secret_key recv_derivation (Z.of_nat real_output_index) (m_spend_secret_key ack) in
    let! '(subaddr_sk, scalar_step2) :=
      if is_zero received_index then Some (junk, scalar_step1)
      else
        let! subaddr_sk := get_subaddress_secret_key (m_view_secret_key ack) received_index in
        let! scalar_step2 := sc_secret_add scalar_step1 subaddr_sk in
        Some (subaddr_sk, scalar_step2) in
    let? pub :=
      match m_multisig_keys ack with
      | [] => let! r := secret_key_to_public_key scalar_step2 in Some (Returns r)
      | _ =>
          let! r := derive_public_key recv_derivation (Z.of_nat real_output_index) (m_spend_public_key (m_account_address ack)) in
          match r with
          | None => Some (Returns None)
          | Some pub =>
              if is_zero received_index then Some (Returns (Some pub))
              else
                let! r := secret_key_to_public_key subaddr_sk in
                match r with
                | None => Some (Returns None)
                | Some subaddr_pk => let? pub := add_public_key pub subaddr_pk in Some (Returns (Some pub))
                end
          end
      end in
    match pub with
    | None => Some (Returns None)
    | Some pub =>
        if key_eqb pub out_key then
          let! ki := generate_key_image pub scalar_step2 in
          Some (Returns (Some (KeyPair pub scalar_step2, ki)))
        else Some (Returns None)
    end.

(** The derivations of the additional keys; a key that is no point is left out. *)
Definition additional_derivation (view : key) (ds : list key) (R : key) : option (list key) :=
  let! r := generate_key_derivation R view in
  Some match r with Some d => ds ++ [d] | None => ds end.

Definition generate_key_image_helper (ack : account_keys) (subaddresses : key -> option subaddress_index)
  (out_key tx_public_key : key) (additional_tx_public_keys : list key) (real_output_index : nat)
  : option (outcome (option (keypair * key))) :=
  let! r := generate_key_derivation tx_public_key (m_view_secret_key ack) in
  let recv_derivation := match r with Some d => d | None => identity end in
  let! additional := foldM (additional_derivation (m_view_secret_key ack)) additional_tx_public_keys [] in
  let! info := is_out_to_acc_precomp subaddresses out_key recv_derivation additional real_output_index in
  match info with
  | None => Some (Returns None)
  | Some info => generate_key_image_helper_precomp ack out_key (sri_derivation info) real_output_index (sri_index info)
  end.

(** ** Subaddresses *)

Definition subaddr_data (a : key) (index : subaddress_index) : list Z :=
  subaddr_prefix ++ a ++ le_bytes 4 (major index) ++ le_bytes 4 (minor index).

(** The scalar that a subaddress adds to the spend key, zero for the main address. *)
Definition sub_offset (a : key) (index : subaddress_index) : Z := if is_zero index then 0 else Hs (subaddr_data a index).

Lemma subaddr_data_ok a index : scalar a -> bytes (subaddr_data a index) /\ List.length (subaddr_data a index) = 48%nat.
Proof.
  intros [Hb Hl]. unfold subaddr_data. split.
  - apply bytes_app; [|apply bytes_app; [exact Hb | apply bytes_app; apply bytes_le_bytes]].
    repeat (apply Forall_cons; [unfold is_byte; lia|]). apply Forall_nil.
  - rewrite !length_app, Hl, !length_le_bytes. reflexivity.
Qed.

Lemma subaddress_secret_enc a index :
  scalar a -> get_subaddress_secret_key a index = Some (enc_scalar (Hs (subaddr_data a index))).
Proof.
  intros Ha. destruct (subaddr_data_ok a index Ha) as [Hb Hl]. unfold get_subaddress_secret_key.
  fold (subaddr_data a index). now apply hash_to_scalar_enc.
Qed.

(** The spend key of a subaddress of an account with spend key [B]. *)
Definition sub_point (a : key) (B : point) (index : subaddress_index) : point :=
  ed_add B (ed_mul (sub_offset a index) base_point).

Lemma sub_point_zero a B index : on_curve B -> is_zero index = true -> sub_point a B index = B.
Proof.
  intros HB E. unfold sub_point, sub_offset. rewrite E. pose proof base_point_on_curve. point_eq; try assumption; left; ring.
Qed.

Lemma sub_point_on_curve a B index : on_curve B -> on_curve (sub_point a B index).
Proof. intros HB. apply ed_add_on_curve; [exact HB | apply ed_mul_on_curve, base_point_on_curve]. Qed.

Lemma reduced_mod s : reduced_scalar s -> le_val s mod ell = le_val s.
Proof. intros [Hs Hl]. apply Z.mod_small. pose proof (le_val_bound s (proj1 Hs)). lia. Qed.

Lemma Hs_mod d : Hs d mod ell = Hs d.
Proof. apply Z.mod_small, Hs_range. Qed.

Lemma secret_to_public_enc n : secret_key_to_public_key (enc_scalar n) = Some (Some (encode (ed_mul n base_point))).
Proof.
  rewrite secret_to_public by apply enc_scalar_reduced. rewrite le_val_enc_scalar, (ed_mul_residue _ n base_in_subgroup). reflexivity.
Qed.

Lemma spend_public_key_enc keys B index :
  scalar (m_view_secret_key keys) -> on_curve B -> m_spend_public_key (m_account_address keys) = encode B ->
  get_subaddress_spend_public_key keys index = Some (Returns (encode (sub_point (m_view_secret_key keys) B index))).
Proof.
  intros Ha HB EB. unfold get_subaddress_spend_public_key. rewrite EB.
  destruct (is_zero index) eqn:E; [now rewrite sub_point_zero|].
  rewrite subaddress_secret_enc by exact Ha. cbn [bind]. rewrite secret_to_public_enc. cbn [bind].
  rewrite addKeys_enc by (trivial; apply ed_mul_on_curve, base_point_on_curve). unfold sub_point, sub_offset. now rewrite E.
Qed.

Lemma next_spend_key_enc keys B account cached pkeys idx :
  scalar (m_view_secret_key keys) -> on_curve B -> m_spend_public_key (m_account_address keys) = encode B -> cached ~> B ->
  next_spend_key keys account cached pkeys idx =
    Some (pkeys ++ [encode (sub_point (m_view_secret_key keys) B (SubaddressIndex account idx))]).
Proof.
  intros Ha HB EB Hc. unfold next_spend_key. rewrite EB.
  destruct (is_zero (SubaddressIndex account idx)) eqn:E; [now rewrite sub_point_zero|].
  rewrite subaddress_secret_enc by exact Ha. cbn [bind]. apply returns_eq.
  eapply returns_bind; [auto with ge|]. cbv beta. intros p3 H3. rewrite le_val_enc_scalar, Hs_mod in H3.
  key_run. cbn [returns]. unfold sub_point, sub_offset. rewrite E, ed_add_comm. reflexivity.
Qed.

Lemma foldM_append {A B} (f : list B -> A -> option (list B)) (g : A -> B) xs l :
  (forall l x, In x xs -> f l x = Some (l ++ [g x])) -> foldM f xs l = Some (l ++ map g xs).
Proof.
  revert l. induction xs as [|x xs IH]; intros l H; cbn [foldM map]; [now rewrite app_nil_r|].
  rewrite H by now left. cbn [bind]. rewrite IH by (intros; apply H; now right). now rewrite <- app_assoc.
Qed.

Lemma spend_public_keys_enc keys B account begin end_ :
  scalar (m_view_secret_key keys) -> on_curve B -> m_spend_public_key (m_account_address keys) = encode B -> begin <= end_ ->
  get_subaddress_spend_public_keys keys account begin end_ = Some (Returns
    (map (fun i => encode (sub_point (m_view_secret_key keys) B (SubaddressIndex account (begin + Z.of_nat i)))) (seq 0 (Z.to_nat (end_ - begin))))).
Proof.
  intros Ha HB EB Hle. unfold get_subaddress_spend_public_keys, check_throw. rewrite (proj2 (Z.leb_le _ _) Hle), EB. cbn [obind].
  apply returns_eq. apply frombytes_bind with (1 := HB). intros p3 Hp.
  eapply returns_bind; [eauto with ge|]. cbv beta. intros cached Hc.
  rewrite (foldM_append _ (fun idx => encode (sub_point (m_view_secret_key keys) B (SubaddressIndex account idx)))).
  2: { intros l idx _. now apply next_spend_key_enc. }
  cbn [bind returns app]. rewrite map_map. reflexivity.
Qed.

(** The two keys of a subaddress; [X] is the point that the view secret multiplies. *)
Definition view_base (a : key) (B : point) (index : subaddress_index) : point :=
  if is_zero index then base_point else sub_point a B index.

Lemma view_base_on_curve a B index : on_curve B -> on_curve (view_base a B index).
Proof. intros HB. unfold view_base. destruct (is_zero index); [apply base_point_on_curve | now apply sub_point_on_curve]. Qed.

Lemma get_subaddress_enc keys B index :
  reduced_scalar (m_view_secret_key keys) -> on_curve B ->
  m_account_address keys = AccountAddress (encode B) (encode (ed_mul (le_val (m_view_secret_key keys)) base_point)) ->
  get_subaddress keys index = Some (Returns (AccountAddress (encode (sub_point (m_view_secret_key keys) B index))
    (encode (ed_mul (le_val (m_view_secret_key keys)) (view_base (m_view_secret_key keys) B index))))).
Proof.
  intros Ha HB EB. unfold get_subaddress, view_base. destruct (is_zero index) eqn:E.
  - now rewrite EB, sub_point_zero.
  - rewrite (spend_public_key_enc keys B index); [| apply Ha | exact HB | now rewrite EB]. cbn [obind].
    rewrite scalarmultKey_enc by (try apply sub_point_on_curve; trivial; now apply reduced_255). reflexivity.
Qed.

(** ** Receiving *)

Lemma derived_spendkey_enc P d i old :
  scalar d -> Z.of_nat i < 2 ^ 64 -> on_curve P ->
  derived_spendkey (encode P) d i old =
    Some (encode (ed_add P (ed_opp (ed_mul (Hs (derivation_data d (Z.of_nat i))) base_point)))).
Proof. intros Hd Hi HP. unfold derived_spendkey. rewrite derive_subaddress_encode by (trivial; lia). reflexivity. Qed.

Lemma point_minus D h : on_curve D ->
  ed_add (ed_add D (ed_mul h base_point)) (ed_opp (ed_mul h base_point)) = D.
Proof. intros HD. pose proof base_point_on_curve. point_eq; try assumption; left; ring. Qed.

(** The table finds the output of a (sub)address under the derivation that sender and recipient share. *)
Lemma precomp_found subaddresses D d i adds index :
  scalar d -> Z.of_nat i < 2 ^ 64 -> on_curve D -> subaddresses (encode D) = Some index ->
  is_out_to_acc_precomp subaddresses (encode (ed_add D (ed_mul (Hs (derivation_data d (Z.of_nat i))) base_point))) d adds i =
    Some (Some (ReceiveInfo index d)).
Proof.
  intros Hd Hi HD Hs. unfold is_out_to_acc_precomp.
  assert (on_curve (ed_add D (ed_mul (KeyOps.Hs (derivation_data d (Z.of_nat i))) base_point))) as HP
    by (apply ed_add_on_curve; [exact HD | apply ed_mul_on_curve, base_point_on_curve]).
  rewrite derived_spendkey_enc by trivial.
  cbn [bind]. rewrite point_minus by exact HD. now rewrite Hs.
Qed.

(** The secret key and the key image of an output of the account, when it knows the whole secret. *)
Lemma helper_precomp_enc keys b index d i (x := enc_scalar (le_val b + Hs (derivation_data d (Z.of_nat i)) + sub_offset (m_view_secret_key keys) index)) :
  reduced_scalar b -> le_val b <> 0 -> scalar (m_view_secret_key keys) -> scalar d -> Z.of_nat i < 2 ^ 64 ->
  m_spend_secret_key keys = b -> m_multisig_keys keys = [] ->
  let P := ed_add (sub_point (m_view_secret_key keys) (ed_mul (le_val b) base_point) index) (ed_mul (Hs (derivation_data d (Z.of_nat i))) base_point) in
  generate_key_image_helper_precomp keys (encode P) d i index =
    Some (Returns (Some (KeyPair (encode P) x, encode (ed_mul (le_val x) (Hp (encode P)))))) /\
  secret_key_to_public_key x = Some (Some (encode P)).
Proof.
  intros Hb Nb Ha Hd Hi Eb Em P.
  assert (secret_key_to_public_key x = Some (Some (encode P))) as EP.
  { unfold x. rewrite secret_to_public_enc. do 3 f_equal. unfold P, sub_point. pose proof base_point_on_curve.
    point_eq; try assumption; left; ring. }
  split; [|exact EP]. unfold generate_key_image_helper_precomp. rewrite Eb, Em.
  destruct (key_eqb b null_skey) eqn:E; [apply key_eqb_spec in E; elim Nb; rewrite E; reflexivity|].
  rewrite derive_secret_enc by (trivial; lia). cbn [bind].
  set (h := Hs (derivation_data d (Z.of_nat i))) in *.
  assert ((if is_zero index then Some (junk, enc_scalar (le_val b + h))
           else let! subaddr_sk := get_subaddress_secret_key (m_view_secret_key keys) index in
                let! scalar_step2 := sc_secret_add (enc_scalar (le_val b + h)) subaddr_sk in Some (subaddr_sk, scalar_step2)) =
          Some (if is_zero index then junk else enc_scalar (Hs (subaddr_data (m_view_secret_key keys) index)), x)) as ->.
  { unfold x, sub_offset. destruct (is_zero index); [now rewrite Z.add_0_r|].
    rewrite subaddress_secret_enc by exact Ha. cbn [bind]. unfold sc_secret_add. rewrite sc_add_enc by apply enc_scalar_scalar. cbn [bind].
    do 2 f_equal. apply enc_scalar_cong. rewrite !le_val_enc_scalar, <- Z.add_mod by discriminate. reflexivity. }
  cbn [bind]. rewrite EP. cbn [bind obind]. rewrite key_eqb_refl.
  rewrite key_image_encode by (apply encode_scalar || apply enc_scalar_reduced). reflexivity.
Qed.

Lemma encode_key P : scalar (encode P).
Proof. apply encode_scalar. Qed.

(** The transaction key for a recipient: [r X], where the view key of the address is [a X]. *)
Lemma shared_derivation a r X :
  on_curve X -> reduced_scalar a -> reduced_scalar r ->
  generate_key_derivation (encode (ed_mul (le_val a) X)) r = generate_key_derivation (encode (ed_mul (le_val r) X)) a.
Proof.
  intros HX Ha Hr. rewrite !derivation_encode by (trivial; now apply ed_mul_on_curve).
  do 3 f_equal. point_eq; try assumption; left; ring.
Qed.

Lemma additional_derivations_enc a Rs ds :
  reduced_scalar a -> Forall on_curve Rs ->
  foldM (additional_derivation a) (map encode Rs) ds = Some (ds ++ map (fun R => encode (ed_mul (8 * le_val a) R)) Rs).
Proof.
  intros Ha HR. revert ds. induction HR as [|R Rs HR _ IH]; intros ds; cbn [map foldM]; [now rewrite app_nil_r|].
  unfold additional_derivation at 1. rewrite derivation_encode by assumption. cbn [bind]. rewrite IH. now rewrite <- app_assoc.
Qed.

Section Receive.
Context (a b r : key) (index : subaddress_index) (i : nat) (subaddresses : key -> option subaddress_index).
Hypothesis Ha : reduced_scalar a.
Hypothesis Hb : reduced_scalar b.
Hypothesis Hr : reduced_scalar r.
Hypothesis Nb : le_val b <> 0.
Hypothesis Hi : Z.of_nat i < 2 ^ 64.
Let Bp := ed_mul (le_val b) base_point.
Let keys := AccountKeys (AccountAddress (encode Bp) (encode (ed_mul (le_val a) base_point))) b a [].
Let D := sub_point a Bp index.
Let X := view_base a Bp index.
Let dp := encode (ed_mul (8 * le_val a) (ed_mul (le_val r) X)).
Let P := ed_add D (ed_mul (Hs (derivation_data dp (Z.of_nat i))) base_point).
Let x := enc_scalar (le_val b + Hs (derivation_data dp (Z.of_nat i)) + sub_offset a index).
Hypothesis Hsub : subaddresses (encode D) = Some index.

Lemma Bp_on_curve : on_curve Bp.
Proof. apply ed_mul_on_curve, base_point_on_curve. Qed.

Lemma X_on_curve : on_curve X.
Proof. apply view_base_on_curve, Bp_on_curve. Qed.

Lemma D_on_curve : on_curve D.
Proof. apply sub_point_on_curve, Bp_on_curve. Qed.

(** What the sender computes. *)
Lemma sender_side :
  get_subaddress keys index = Some (Returns (AccountAddress (encode D) (encode (ed_mul (le_val a) X)))) /\
  (if is_zero index then secret_key_to_public_key r = Some (Some (encode (ed_mul (le_val r) X)))
   else scalarmultKey (encode D) r = Some (Returns (encode (ed_mul (le_val r) X)))) /\
  generate_key_derivation (encode (ed_mul (le_val a) X)) r = Some (Some dp) /\
  derive_public_key dp (Z.of_nat i) (encode D) = Some (Some (encode P)).
Proof.
  pose proof Bp_on_curve as HB. pose proof X_on_curve as HX. pose proof D_on_curve as HD. split; [now apply get_subaddress_enc|].
  split; [|split].
  - unfold X, view_base. destruct (is_zero index); [now apply secret_to_public|].
    apply scalarmultKey_enc; [exact HD | now apply reduced_255].
  - rewrite shared_derivation by assumption. apply derivation_encode; [now apply ed_mul_on_curve | exact Ha].
  - apply derive_public_encode; [apply encode_scalar | lia | exact HD].
Qed.

(** The recipient, from the derivation. *)
Lemma recipient_side :
  generate_key_image_helper_precomp keys (encode P) dp i index =
    Some (Returns (Some (KeyPair (encode P) x, encode (ed_mul (le_val x) (Hp (encode P)))))) /\
  secret_key_to_public_key x = Some (Some (encode P)) /\
  generate_key_image (encode P) x = Some (encode (ed_mul (le_val x) (Hp (encode P)))).
Proof.
  destruct (helper_precomp_enc keys b index dp i) as [E1 E2]; trivial; [apply Ha | apply encode_scalar |].
  split; [exact E1|]. split; [exact E2|]. apply key_image_encode; [apply encode_scalar | apply enc_scalar_reduced].
Qed.

Lemma recipient_derivation : generate_key_derivation (encode (ed_mul (le_val r) X)) a = Some (Some dp).
Proof. apply derivation_encode; [apply ed_mul_on_curve, X_on_curve | exact Ha]. Qed.

Lemma helper_main :
  generate_key_image_helper keys subaddresses (encode P) (encode (ed_mul (le_val r) X)) [] i =
    Some (Returns (Some (KeyPair (encode P) x, encode (ed_mul (le_val x) (Hp (encode P)))))).
Proof.
  unfold generate_key_image_helper. cbn [m_view_secret_key keys foldM].
  rewrite recipient_derivation. cbn [bind].
  pose proof (precomp_found subaddresses D dp i [] index (encode_scalar _) Hi D_on_curve Hsub) as E. fold P in E. rewrite E. cbn [bind].
  apply recipient_side.
Qed.

(** The key [r X] among the additional keys, when the key of the transaction leads nowhere. *)
Lemma helper_additional T Rs :
  scalar T -> Forall on_curve Rs -> nth_error Rs i = Some (ed_mul (le_val r) X) ->
  (forall d S, generate_key_derivation T a = Some (Some d) \/ d = identity ->
     derive_subaddress_public_key (encode P) d (Z.of_nat i) = Some (Some S) -> subaddresses S = None) ->
  generate_key_image_helper keys subaddresses (encode P) T (map encode Rs) i =
    Some (Returns (Some (KeyPair (encode P) x, encode (ed_mul (le_val x) (Hp (encode P)))))).
Proof.
  intros HT HRs Hn Hno. pose proof D_on_curve as HD.
  assert (on_curve P) as HP by (apply ed_add_on_curve; [exact HD | apply ed_mul_on_curve, base_point_on_curve]).
  assert (exists d, scalar d /\ (generate_key_derivation T a = Some (Some d) \/ generate_key_derivation T a = Some None /\ d = identity)) as (d & Sd & Ed).
  { destruct (point_cases T HT) as [(Q & HQ & ->)|[E _]].
    - rewrite derivation_encode by assumption. eexists. split; [apply encode_scalar | now left].
    - exists identity. split; [apply identity_scalar|]. right. split; [|reflexivity].
      unfold generate_key_derivation. rewrite assert_reduced by exact Ha. cbn [bind]. now rewrite E. }
  unfold generate_key_image_helper. cbn [m_view_secret_key keys].
  assert (match generate_key_derivation T a with Some r => Some (match r with Some d => d | None => identity end) | None => None end = Some d) as Em
    by (destruct Ed as [-> | [-> ->]]; reflexivity).
  destruct (generate_key_derivation T a) as [o|] eqn:Eg; [|discriminate]. cbn [bind]. injection Em as ->.
  rewrite additional_derivations_enc by assumption. cbn [bind app]. unfold is_out_to_acc_precomp.
  rewrite derived_spendkey_enc by assumption. cbn [bind].
  rewrite (Hno d) by (first [ destruct Ed as [[= ->] | [_ ->]]; [now left | now right] | apply derive_subaddress_encode; trivial; lia ]).
  assert (i < List.length Rs)%nat as Hlt by (apply nth_error_Some; congruence).
  destruct Rs as [|R0 Rs']; [cbn [List.length] in Hlt; lia|]. cbn [map]. change (encode ?u :: map ?f Rs') with (map f (R0 :: Rs')).
  rewrite length_map, (proj2 (Nat.ltb_lt _ _) Hlt), nth_error_map, Hn. cbn [option_map bind].
  fold dp. rewrite derived_spendkey_enc by (trivial; apply encode_scalar). cbn [bind]. unfold P at 1. rewrite point_minus by exact HD.
  rewrite Hsub. apply recipient_side.
Qed.
End Receive.

(** What a successful call promises, whatever its arguments are. *)
Lemma helper_sound ack out_key d i index kp ki :
  m_multisig_keys ack = [] -> m_spend_secret_key ack <> null_skey ->
  generate_key_image_helper_precomp ack out_key d i index = Some (Returns (Some (kp, ki))) ->
  kp_pub kp = out_key /\ secret_key_to_public_key (kp_sec kp) = Some (Some out_key) /\ generate_key_image out_key (kp_sec kp) = Some ki.
Proof.
  intros Em Nb. unfold generate_key_image_helper_precomp. rewrite Em.
  destruct (key_eqb (m_spend_secret_key ack) null_skey) eqn:E; [apply key_eqb_spec in E; contradiction|]. clear E.
  destruct (derive_secret_key _ _ _) as [s1|]; [|discriminate]. cbn [bind].
  destruct (if is_zero index then _ else _) as [[sk s2]|]; [|discriminate]. cbn [bind].
  destruct (secret_key_to_public_key s2) as [[pub|]|] eqn:Ep; cbn [bind obind]; try discriminate.
  destruct (key_eqb pub out_key) eqn:E; [|discriminate]. apply key_eqb_spec in E. subst pub.
  destruct (generate_key_image out_key s2) as [ki'|] eqn:Ek; [|discriminate]. cbn [bind]. intros [= <- <-]. now repeat split.
Qed.

Lemma is_out_to_acc_main a b r i :
  reduced_scalar a -> reduced_scalar b -> reduced_scalar r -> Z.of_nat i < 2 ^ 64 ->
  let B := ed_mul (le_val b) base_point in
  let d := encode (ed_mul (8 * le_val a) (ed_mul (le_val r) base_point)) in
  is_out_to_acc (AccountKeys (AccountAddress (encode B) (encode (ed_mul (le_val a) base_point))) b a [])
    (encode (ed_add B (ed_mul (Hs (derivation_data d (Z.of_nat i))) base_point))) (encode (ed_mul (le_val r) base_point)) [] i = Some true.
Proof.
  intros Ha Hb Hr Hi B d. unfold is_out_to_acc. cbn [m_account_address m_spend_public_key m_view_secret_key].
  pose proof base_point_on_curve as HG.
  rewrite derivation_encode by (trivial; now apply ed_mul_on_curve). cbn [bind].
  rewrite derive_public_encode by (try apply encode_scalar; try (apply ed_mul_on_curve; exact HG); lia). cbn [bind].
  fold d. now rewrite key_eqb_refl.
Qed.

(** ** Payment ids *)

Lemma xor_payment_id_inverse pid hash :
  List.length pid = 8%nat -> (8 <= List.length hash)%nat ->
  exists c, xor_payment_id pid hash = Some c /\ List.length c = 8%nat /\ xor_payment_id c hash = Some pid.
Proof.
  intros Hp Hh. do 8 (destruct pid as [|? pid]; [discriminate|]). destruct pid; [|discriminate].
  do 8 (destruct hash as [|? hash]; [cbn [List.length] in Hh; lia|]).
  unfold xor_payment_id. cbn [seq mapM nth_error bind]. eexists. split; [reflexivity|]. split; [reflexivity|].
  cbn [nth_error bind]. now rewrite !Z.lxor_assoc, !Z.lxor_nilpotent, !Z.lxor_0_r.
Qed.

Lemma payment_id_shared pid P Q s t :
  List.length pid = 8%nat -> reduced_scalar s -> reduced_scalar t -> on_curve P -> on_curve Q -> 
  generate_key_derivation (encode P) s = generate_key_derivation (encode Q) t ->
  exists c, encrypt_payment_id pid (encode P) s = Some (Some c) /\ encrypt_payment_id c (encode Q) t = Some (Some pid).
Proof.
  intros Hp Hs Ht HP HQ E. unfold encrypt_payment_id. rewrite <- E, derivation_encode by assumption. cbn [bind].
  destruct (encode_scalar (ed_mul (8 * le_val s) P)) as [Hb Hl]. set (d := encode (ed_mul (8 * le_val s) P)) in *. clearbody d.
  assert (bytes (d ++ [ENCRYPTED_PAYMENT_ID_TAIL])) as Hd by (apply bytes_app; [exact Hb | repeat constructor; unfold ENCRYPTED_PAYMENT_ID_TAIL; lia]).
  pose proof (fast_hash_total _ Hd) as H. rewrite length_app, Hl in H. cbn [List.length Nat.add] in H.
  destruct (fast_hash _ 33) as [h|]; [|contradiction]. cbn [returns bind] in *. destruct H as [_ Hh].
  destruct (xor_payment_id_inverse pid h Hp ltac:(rewrite Hh; unfold HASH_SIZE; lia)) as (c & E1 & _ & E2). exists c. rewrite E1. cbn [bind]. split; [reflexivity|]. now rewrite E2.
Qed.

(** ** Claims *)

(** C11: What is sent to any subaddress (or the main address) of an account is found and can be spent by it, and
    by the right key. With keys [a] and [b], the sender takes the address of [get_subaddress], makes
    the transaction key from his secret [r], derives the one-time key of output [i]; the recipient's
    [generate_key_image_helper], with a table that knows the subaddress, returns the secret key of that
    one-time key and its key image. The same holds when the sender's key is among the additional keys, all of which are
    valid keys, and the transaction key leads nowhere. Whatever keys a transaction has, a pair that is returned is the key pair of the output, with its key image. *)
Theorem receive_correct a b r index i subaddresses A B (keys := AccountKeys (AccountAddress B A) b a []) :
  reduced_scalar a -> reduced_scalar b -> reduced_scalar r -> le_val b <> 0 -> Z.of_nat i < 2 ^ 64 ->
  secret_key_to_public_key a = Some (Some A) -> secret_key_to_public_key b = Some (Some B) ->
  (forall D, get_subaddress_spend_public_key keys index = Some (Returns D) -> subaddresses D = Some index) ->
  (exists addr R d P x ki,
    get_subaddress keys index = Some (Returns addr) /\
    (if is_zero index then secret_key_to_public_key r = Some (Some R) else scalarmultKey (m_spend_public_key addr) r = Some (Returns R)) /\
    generate_key_derivation (m_view_public_key addr) r = Some (Some d) /\
    derive_public_key d (Z.of_nat i) (m_spend_public_key addr) = Some (Some P) /\
    generate_key_image_helper keys subaddresses P R [] i = Some (Returns (Some (KeyPair P x, ki))) /\
    secret_key_to_public_key x = Some (Some P) /\ generate_key_image P x = Some ki /\
    (is_zero index = true -> is_out_to_acc keys P R [] i = Some true) /\
    (forall T adds, scalar T -> Forall (fun k => scalar k /\ check_key k = Some true) adds -> nth_error adds i = Some R ->
       (forall d' S, generate_key_derivation T a = Some (Some d') \/ d' = identity ->
          derive_subaddress_public_key P d' (Z.of_nat i) = Some (Some S) -> subaddresses S = None) ->
       generate_key_image_helper keys subaddresses P T adds i = Some (Returns (Some (KeyPair P x, ki))))) /\
  (forall out T adds j kp ki, generate_key_image_helper keys subaddresses out T adds j = Some (Returns (Some (kp, ki))) ->
     kp_pub kp = out /\ secret_key_to_public_key (kp_sec kp) = Some (Some out) /\ generate_key_image out (kp_sec kp) = Some ki).
Proof.
  intros Ha Hb Hr Nb Hi EA EB Hsub.
  rewrite secret_to_public in EA, EB by assumption. injection EA as <-. injection EB as <-.
  pose proof (spend_public_key_enc keys (ed_mul (le_val b) base_point) index (proj1 Ha) (Bp_on_curve b) eq_refl) as ED.
  apply Hsub in ED. clear Hsub. cbn [m_view_secret_key keys] in ED. split.
  - destruct (sender_side a b r index i Ha Hr Hi) as (E1 & E2 & E3 & E4).
    destruct (recipient_side a b r index i Ha Hb Nb Hi) as (_ & R2 & R3).
    do 6 eexists. split; [exact E1|]. cbn [m_spend_public_key m_view_public_key]. split; [exact E2|]. split; [exact E3|]. split; [exact E4|].
    split; [now apply helper_main|]. split; [exact R2|]. split; [exact R3|]. split.
    + intros Z. unfold view_base. rewrite sub_point_zero, Z by (trivial; apply Bp_on_curve). now apply is_out_to_acc_main.
    + intros T adds HT HA Hn Hno. destruct (checked_keys adds) as (Rs & -> & HRs); [now apply Forall_forall|].
      apply helper_additional; trivial; [now apply Forall_forall|]. rewrite nth_error_map in Hn.
      destruct (nth_error Rs i) as [Q|] eqn:EQ; [|discriminate]. cbn [option_map] in Hn. f_equal.
      apply encode_inj; [apply HRs; now apply nth_error_In in EQ | apply ed_mul_on_curve, X_on_curve | congruence].
  - intros out T adds j kp ki. unfold generate_key_image_helper.
    destruct (generate_key_derivation T _) as [o|]; [|discriminate]. cbn [bind].
    destruct (foldM _ adds []) as [ds|]; [|discriminate]. cbn [bind].
    destruct (is_out_to_acc_precomp _ _ _ _ _) as [[info|]|]; cbn [bind]; try discriminate.
    apply helper_sound; [reflexivity|]. cbn [m_spend_secret_key keys]. intros E. apply Nb. rewrite E. reflexivity.
Qed.

Lemma spend_keys_list keys B account begin end_ :
  scalar (m_view_secret_key keys) -> on_curve B -> m_spend_public_key (m_account_address keys) = encode B -> begin <= end_ ->
  exists ks, get_subaddress_spend_public_keys keys account begin end_ = Some (Returns ks) /\
     Z.of_nat (List.length ks) = end_ - begin /\
     forall j k, nth_error ks j = Some k ->
       get_subaddress_spend_public_key keys (SubaddressIndex account (begin + Z.of_nat j)) = Some (Returns k).
Proof.
  intros Ha HB EB Hle. eexists. split; [now apply (spend_public_keys_enc keys B)|].
  split; [rewrite length_map, length_seq; lia|]. intros j k Hj.
  rewrite nth_error_map, nth_error_seq in Hj. destruct (j <? _)%nat; [|discriminate]. cbn [option_map Nat.add] in Hj. injection Hj as <-.
  now apply spend_public_key_enc.
Qed.

Lemma subaddress_secret keys b index :
  scalar (m_view_secret_key keys) -> reduced_scalar b ->
  m_spend_public_key (m_account_address keys) = encode (ed_mul (le_val b) base_point) -> is_zero index = false ->
  exists m s D, get_subaddress_secret_key (m_view_secret_key keys) index = Some m /\ sc_secret_add b m = Some s /\
     secret_key_to_public_key s = Some (Some D) /\ get_subaddress_spend_public_key keys index = Some (Returns D) /\ verify_keys s D = Some true.
Proof.
  intros Ha Hb EB Z. do 3 eexists. split; [now apply subaddress_secret_enc|].
  split; [apply sc_add_enc; [apply Hb | apply enc_scalar_scalar]|]. split; [apply secret_to_public_enc|]. split.
  - rewrite (spend_public_key_enc keys (ed_mul (le_val b) base_point)); trivial; [|apply Bp_on_curve]. do 3 f_equal.
    unfold sub_point, sub_offset. rewrite Z, le_val_enc_scalar, Hs_mod. pose proof base_point_on_curve. point_eq; try assumption; left; ring.
  - unfold verify_keys. rewrite secret_to_public_enc. cbn [bind]. now rewrite key_eqb_refl.
Qed.

(** C15: The spend keys that [get_subaddress_spend_public_keys] lists for a range of indices, with one decoding of the
    key of the account, are those of [get_subaddress_spend_public_key] one by one, and each is the public key of
    the spend secret plus the scalar of the subaddress. A payment id that the sender encrypts with the view key of the address is
    decrypted by the recipient with the key of the transaction. *)
Theorem subaddress_keys_correct a b r account begin end_ index pid A B (keys := AccountKeys (AccountAddress B A) b a []) :
  reduced_scalar a -> reduced_scalar b -> reduced_scalar r -> begin <= end_ ->
  secret_key_to_public_key a = Some (Some A) -> secret_key_to_public_key b = Some (Some B) ->
  List.length pid = 8%nat ->
  (exists ks, get_subaddress_spend_public_keys keys account begin end_ = Some (Returns ks) /\
     Z.of_nat (List.length ks) = end_ - begin /\
     forall j k, nth_error ks j = Some k ->
       get_subaddress_spend_public_key keys (SubaddressIndex account (begin + Z.of_nat j)) = Some (Returns k)) /\
  (is_zero index = false -> exists m s D, get_subaddress_secret_key a index = Some m /\ sc_secret_add b m = Some s /\
     secret_key_to_public_key s = Some (Some D) /\ get_subaddress_spend_public_key keys index = Some (Returns D) /\ verify_keys s D = Some true) /\
  (exists addr R c, get_subaddress keys index = Some (Returns addr) /\
     (if is_zero index then secret_key_to_public_key r = Some (Some R) else scalarmultKey (m_spend_public_key addr) r = Some (Returns R)) /\
     encrypt_payment_id pid (m_view_public_key addr) r = Some (Some c) /\ encrypt_payment_id c R a = Some (Some pid)).
Proof.
  intros Ha Hb Hr Hle EA EB Hp.
  rewrite secret_to_public in EA, EB by assumption. injection EA as <-. injection EB as <-.
  split; [apply (spend_keys_list keys (ed_mul (le_val b) base_point)); trivial; [apply Ha | apply Bp_on_curve]|].
  split; [exact (subaddress_secret keys b index (proj1 Ha) Hb eq_refl)|].
  destruct (sender_side a b r index 0 Ha Hr ltac:(lia)) as (E1 & E2 & _). pose proof (X_on_curve a b index) as HX.
  pose proof (payment_id_shared pid _ _ r a Hp Hr Ha (ed_mul_on_curve _ HX (le_val a)) (ed_mul_on_curve _ HX (le_val r))
    (shared_derivation a r _ HX Ha Hr)) as (c & E3 & E4).
  do 3 eexists. split; [exact E1|]. cbn [m_spend_public_key m_view_public_key]. split; [exact E2|]. split; [exact E3 | exact E4].
Qed.

(** The outputs that are found: the amounts of those at the positions that [mine] selects. *)
Fixpoint amounts (mine : nat -> bool) (i : nat) (vout : list tx_out) : Z :=
  match vout with
  | [] => 0
  | o :: vout => (if mine i then amount o else 0) + amounts mine (S i) vout
  end.

Lemma lookup_fold acc T adds mine vout : forall start outs money,
  (forall i o, nth_error vout i = Some o -> exists k, target o = TxoutToKey k /\ is_out_to_acc acc k T adds (start + i) = Some (mine (start + i)%nat)) ->
  foldM (lookup_step acc T adds) (combine (seq start (List.length vout)) vout) (Some (outs, u64 money)) =
    Some (Some (outs ++ filter mine (seq start (List.length vout)), u64 (money + amounts mine start vout))).
Proof.
  induction vout as [|o vout IH]; intros start outs money Hm; cbn [List.length seq combine foldM filter amounts].
  { now rewrite app_nil_r, Z.add_0_r. }
  destruct (Hm 0%nat o eq_refl) as (k & Ek & Ei). rewrite Nat.add_0_r in Ei.
  unfold lookup_step at 1. rewrite Ek, Ei. cbn [bind].
  assert (forall i o, nth_error vout i = Some o -> exists k, target o = TxoutToKey k /\ is_out_to_acc acc k T adds (S start + i) = Some (mine (S start + i)%nat)) as Hm'.
  { intros i o' Eo. destruct (Hm (S i) o' Eo) as (k' & H1 & H2). exists k'. rewrite Nat.add_succ_r in H2. now split. }
  destruct (mine start).
  - replace (u64 (u64 money + amount o)) with (u64 (money + amount o)) by (unfold u64; now rewrite Z.add_mod_idemp_l).
    rewrite (IH (S start) _ _ Hm'), <- app_assoc, <- Z.add_assoc. reflexivity.
  - rewrite (IH (S start) _ _ Hm'), Z.add_0_l. reflexivity.
Qed.

(** [lookup_acc_outs] lists the outputs of the account in order after those of [outs], and adds up their amounts in 64 bits. *)
Theorem lookup_acc_outs_correct acc vout T adds outs mine :
  (adds = [] \/ List.length adds = List.length vout) ->
  (forall i o, nth_error vout i = Some o -> exists k, target o = TxoutToKey k /\ is_out_to_acc acc k T adds i = Some (mine i)) ->
  lookup_acc_outs acc vout T adds outs = Some (Some (outs ++ filter mine (seq 0 (List.length vout)), u64 (amounts mine 0 vout))).
Proof.
  intros Ha Hm. unfold lookup_acc_outs.
  replace ((List.length adds =? 0)%nat || (List.length adds =? List.length vout)%nat) with true
    by (destruct Ha as [-> | ->]; [reflexivity | now rewrite Nat.eqb_refl, orb_true_r]).
  change 0 with (u64 0) at 1. now apply (lookup_fold acc T adds mine vout 0 outs 0).
Qed.

(** A key that is no point among the additional keys moves the derivations after it: the output of the last key is not found. *)
Theorem additional_keys_shift ack subaddresses P T bad R :
  reduced_scalar (m_view_secret_key ack) -> on_curve P -> on_curve T -> on_curve R -> scalar bad -> check_key bad = Some false ->
  (forall d S, generate_key_derivation (encode T) (m_view_secret_key ack) = Some (Some d) ->
     derive_subaddress_public_key (encode P) d 1 = Some (Some S) -> subaddresses S = None) ->
  generate_key_image_helper ack subaddresses (encode P) (encode T) [bad; encode R] 1 = Some (Returns None).
Proof.
  intros Ha HP HT HR Sb Hb Hno. unfold generate_key_image_helper. rewrite derivation_encode by assumption. cbn [bind foldM].
  unfold additional_derivation. rewrite (derivation_encode R) by assumption.
  assert (generate_key_derivation bad (m_view_secret_key ack) = Some None) as ->.
  { unfold generate_key_derivation. rewrite assert_reduced by exact Ha. cbn [bind]. unfold check_key in Hb.
    destruct (ge_frombytes_vartime bad) as [[q|]|]; try discriminate. reflexivity. }
  cbn [bind app]. unfold is_out_to_acc_precomp. rewrite derived_spendkey_enc by (try apply encode_scalar; trivial; lia). cbn [bind].
  erewrite Hno; [reflexivity | now apply derivation_encode |]. apply derive_subaddress_encode; [apply encode_scalar | lia | exact HP].
Qed.
End Account.

(** *** Witnesses *)

#[local] Existing Instance debug_build.

Definition some_index : subaddress_index := SubaddressIndex 1 2.
Definition five_public : key := encode (ed_mul (le_val (enc_scalar 5)) base_point).
Definition seven_public : key := encode (ed_mul (le_val (enc_scalar 7)) base_point).
Definition some_account : account_keys := AccountKeys (AccountAddress seven_public five_public) (enc_scalar 7) (enc_scalar 5) [].

Lemma seven_not_zero : le_val (enc_scalar 7) <> 0.
Proof. rewrite le_val_enc_scalar. unfold ell. discriminate. Qed.

Lemma receive_correct_witness :
  exists addr R P x ki, get_subaddress zero some_account some_index = Some (Returns addr) /\
    scalarmultKey (m_spend_public_key addr) (enc_scalar 11) = Some (Returns R) /\
    generate_key_image_helper zero some_account (fun _ => Some some_index) P R [] 3 = Some (Returns (Some (KeyPair P x, ki))) /\
    secret_key_to_public_key x = Some (Some P).
Proof.
  destruct (proj1 (receive_correct zero (enc_scalar 5) (enc_scalar 7) (enc_scalar 11) some_index 3 (fun _ => Some some_index)
    five_public seven_public (enc_scalar_reduced 5) (enc_scalar_reduced 7) (enc_scalar_reduced 11) seven_not_zero ltac:(lia)
    (secret_to_public _ (enc_scalar_reduced 5)) (secret_to_public _ (enc_scalar_reduced 7)) (fun _ _ => eq_refl)))
    as (addr & R & d & P & x & ki & E1 & E2 & _ & _ & E3 & E4 & _).
  exact (ex_intro _ addr (ex_intro _ R (ex_intro _ P (ex_intro _ x (ex_intro _ ki (conj E1 (conj E2 (conj E3 E4)))))))).
Defined.

Lemma subaddress_keys_correct_witness :
  exists ks, get_subaddress_spend_public_keys some_account 0 0 5 = Some (Returns ks) /\ Z.of_nat (List.length ks) = 5 - 0.
Proof.
  destruct (proj1 (subaddress_keys_correct zero (enc_scalar 5) (enc_scalar 7) (enc_scalar 11) 0 0 5 some_index (repeat 1 8) five_public seven_public
    (enc_scalar_reduced 5) (enc_scalar_reduced 7) (enc_scalar_reduced 11) ltac:(lia)
    (secret_to_public _ (enc_scalar_reduced 5)) (secret_to_public _ (enc_scalar_reduced 7)) eq_refl)) as (ks & E & L & _).
  exact (ex_intro _ ks (conj E L)).
Defined.
