(* ===== verification/MultisigKeys.v ===== *)
(** * Keys of multisignature accounts

    Models multisig.cpp: the blinded secrets, the keys of accounts of N of N and of N-1 of N
    signers, the shared view key, and the key images that the signers put together from their
    shares. The set [used] of key images is a list that is only searched and extended. *)

From Stdlib Require Import ZArith Zcong Lia List Bool String Permutation.
From S2P Require Import Prelude Bytes Fe FeMul Primes ScReduce Sc Curve Ge GeBytes GeScalar GeBase GeDouble GeHash.
From S2P Require Import Keccak TreeHash Order Varint Random Encode KeyOps Signature RingSig Address RctTypes RctTable RctOps Borromean Mlsag Linear Subaddress.
Import ListNotations.

#[local] Open Scope Z_scope.
#[local] Open Scope list_scope.
#[local] Opaque ed_mul ed_add base_point encode enc_scalar point_code.

Section Multisig.
  Context {FH : FastHash} {BD : Build}.
  Context (junk : key).

(** ** The code *)

(** The bytes of "Multisig", then zeros. *)
Definition multisig_salt : key := [77; 117; 108; 116; 105; 115; 105; 103] ++ repeat 0 24.

Definition get_multisig_blinded_secret_key (k : key) : option key := hash_to_scalar_keyV [k; multisig_salt].

(** [multisig_keys], [spend_skey] and [spend_pkey]. *)
Definition generate_multisig_N_N (keys : account_keys) (spend_keys : list key) : option (outcome (list key * key * key)) :=
  let! spend_secret_key := get_multisig_blinded_secret_key (m_spend_secret_key keys) in
  let! r := secret_key_to_public_key spend_secret_key in
  match r with
  | None => Some (Throws "Failed to derive public key")
  | Some spend_pkey =>
      let? spend_pkey := ofold (fun spend_pkey k => addKeys spend_pkey k) spend_keys spend_pkey in
      Some (Returns ([spend_secret_key], spend_secret_key, spend_pkey))
  end.

(** One composite key: the keys so far and their sum. *)
Definition composite_step (blinded_skey : key) (st : list key * key) (k : key) : option (outcome (list key * key)) :=
  let '(multisig_keys, spend_skey) := st in
  let? sk := scalarmultKey k blinded_skey in
  let! msk := get_multisig_blinded_secret_key sk in
  let! spend_skey := sc_add spend_skey msk in
  Some (Returns (multisig_keys ++ [msk], spend_skey)).

Definition generate_multisig_N1_N (keys : account_keys) (spend_keys : list key) : option (outcome (list key * key * key)) :=
  let! blinded_skey := get_multisig_blinded_secret_key (m_spend_secret_key keys) in
  let? '(multisig_keys, spend_skey) := ofold (composite_step blinded_skey) spend_keys ([], zero) in
  Some (Returns (multisig_keys, spend_skey, identity)).

Definition generate_multisig_view_secret_key (skey : key) (skeys : list key) : option key :=
  let! view_skey := get_multisig_blinded_secret_key skey in
  foldM (fun view_skey k => sc_add view_skey k) skeys view_skey.

Definition generate_multisig_N1_N_spend_public_key (pkeys : list key) : option (outcome key) :=
  ofold (fun spend_public_key pk => addKeys spend_public_key pk) pkeys identity.

Definition generate_multisig_key_image (keys : account_keys) (multisig_key_index : nat) (out_key : key) : option (option key) :=
  if (List.length (m_multisig_keys keys) <=? multisig_key_index)%nat then Some None
  else
    let! k := nth_error (m_multisig_keys keys) multisig_key_index in
    let! ki := generate_key_image out_key k in
    Some (Some ki).

Definition generate_multisig_LR (pkey k : key) : option (key * key) :=
  let! L := scalarmultBase k in
  let! R := generate_key_image pkey k in
  Some (L, R).

(** The loop that fills [used]: [None] inside for a return of [false]. *)
Definition use_own (keys : account_keys) (out_key : key) (used : option (list key)) (m : nat) : option (option (list key)) :=
  match used with
  | None => Some None
  | Some used =>
      let! r := generate_multisig_key_image keys m out_key in
      Some match r with None => None | Some pki => Some (pki :: used) end
  end.

(** The key images that are not in [used] are added. *)
Definition add_partial (st : list key * key) (pki : key) : option (outcome (list key * key)) :=
  let '(used, ki) := st in
  if existsb (key_eqb pki) used then Some (Returns (used, ki))
  else
    let? ki := addKeys ki pki in
    Some (Returns (pki :: used, ki)).

Definition generate_multisig_composite_key_image (keys : account_keys) (subaddresses : key -> option subaddress_index)
  (out_key tx_public_key : key) (additional_tx_public_keys : list key) (real_output_index : nat) (pkis : list key)
  : option (outcome (option key)) :=
  let? r := generate_key_image_helper junk keys subaddresses out_key tx_public_key additional_tx_public_keys real_output_index in
  match r with
  | None => Some (Returns None)
  | Some (_, ki) =>
      let! used := foldM (use_own keys out_key) (seq 0 (List.length (m_multisig_keys keys))) (Some []) in
      match used with
      | None => Some (Returns None)
      | Some used =>
          let? '(_, ki) := ofold add_partial pkis (used, ki) in
          Some (Returns (Some ki))
      end
  end.

(** ** Shares *)

Definition lsum (l : list Z) : Z := fold_right Z.add 0 l.

(** The blinded secret of a key. *)
Definition blinded (k : key) : Z := Hs (k ++ multisig_salt).

Lemma salt_scalar : scalar multisig_salt.
Proof. split; [|reflexivity]. apply bytes_app; repeat (apply Forall_cons; [unfold is_byte; lia|]); apply Forall_nil. Qed.

Lemma blinded_enc k : scalar k -> get_multisig_blinded_secret_key k = Some (enc_scalar (blinded k)).
Proof.
  intros Hk. unfold get_multisig_blinded_secret_key, blinded. rewrite hash_keyV_enc.
  2: { apply Forall_cons; [exact Hk|]. apply Forall_cons; [apply salt_scalar | apply Forall_nil]. }
  cbn [List.concat]. now rewrite app_nil_r.
Qed.

Lemma sum_keys_enc ks s :
  ofold (fun p k => addKeys p k) (map (fun n => encode (ed_mul n base_point)) ks) (encode (ed_mul s base_point)) =
    Some (Returns (encode (ed_mul (s + lsum ks) base_point))).
Proof.
  revert s. pose proof base_point_on_curve as HG. induction ks as [|k ks IH]; intros s; cbn [map ofold lsum fold_right]; [now rewrite Z.add_0_r|].
  rewrite addKeys_enc by now apply ed_mul_on_curve. rewrite obind_Returns.
  replace (ed_add (ed_mul s base_point) (ed_mul k base_point)) with (ed_mul (s + k) base_point) by (point_eq; try assumption; left; ring).
  rewrite IH. do 4 f_equal. unfold lsum. lia.
Qed.

Lemma enc_scalar_add m n : enc_scalar (le_val (enc_scalar m) + le_val (enc_scalar n)) = enc_scalar (m + n).
Proof. apply enc_scalar_cong. rewrite !le_val_enc_scalar, <- Z.add_mod by discriminate. reflexivity. Qed.

Lemma sum_scalars_enc ks s : foldM (fun v k => sc_add v k) (map enc_scalar ks) (enc_scalar s) = Some (enc_scalar (s + lsum ks)).
Proof.
  revert s. induction ks as [|k ks IH]; intros s; cbn [map foldM lsum fold_right]; [now rewrite Z.add_0_r|].
  rewrite sc_add_enc by apply enc_scalar_scalar. cbn [bind].
  rewrite enc_scalar_add.
  rewrite IH. do 2 f_equal. unfold lsum. lia.
Qed.

(** The key of the account of all signers; the own share is the only secret. *)
Lemma N_N_enc keys others (b := blinded (m_spend_secret_key keys)) :
  scalar (m_spend_secret_key keys) ->
  generate_multisig_N_N keys (map (fun n => encode (ed_mul n base_point)) others) =
    Some (Returns ([enc_scalar b], enc_scalar b, encode (ed_mul (b + lsum others) base_point))).
Proof.
  intros Hs. unfold generate_multisig_N_N. rewrite blinded_enc by exact Hs. cbn [bind].
  rewrite secret_to_public_enc. cbn [bind]. rewrite sum_keys_enc, obind_Returns. reflexivity.
Qed.

(** The key that two signers share, from the blinded secret of one and the public key of the other. *)
Definition pair_key (b : Z) (P : point) : Z := blinded (encode (ed_mul b P)).

Lemma composite_enc b Ps msks s :
  Forall on_curve Ps -> 0 <= b < ell ->
  ofold (composite_step (enc_scalar b)) (map encode Ps) (msks, enc_scalar s) =
    Some (Returns (msks ++ map (fun P => enc_scalar (pair_key b P)) Ps, enc_scalar (s + lsum (map (pair_key b) Ps)))).
Proof.
  intros HP Hb. revert msks s. induction HP as [|P Ps HP _ IH]; intros msks s; cbn [map ofold lsum fold_right].
  { now rewrite app_nil_r, Z.add_0_r. }
  unfold composite_step at 1. rewrite scalarmultKey_enc by (trivial; apply reduced_255, enc_scalar_reduced). rewrite obind_Returns.
  rewrite le_val_enc_scalar, Z.mod_small by exact Hb. rewrite blinded_enc by apply encode_scalar. rewrite bind_Some.
  rewrite sc_add_enc by apply enc_scalar_scalar. rewrite bind_Some, obind_Returns.
  rewrite enc_scalar_add.
  rewrite IH, <- app_assoc, <- Z.add_assoc. reflexivity.
Qed.

Lemma N1_N_enc keys Ps (b := blinded (m_spend_secret_key keys)) :
  scalar (m_spend_secret_key keys) -> Forall on_curve Ps ->
  generate_multisig_N1_N keys (map encode Ps) =
    Some (Returns (map (fun P => enc_scalar (pair_key b P)) Ps, enc_scalar (lsum (map (pair_key b) Ps)), identity)).
Proof.
  intros Hs HP. unfold generate_multisig_N1_N. rewrite blinded_enc by exact Hs. rewrite bind_Some, zero_enc.
  rewrite (composite_enc _ Ps [] 0 HP) by apply Hs_range. reflexivity.
Qed.

Lemma pair_key_shared b c : pair_key b (ed_mul c base_point) = pair_key c (ed_mul b base_point).
Proof. unfold pair_key. do 2 f_equal. pose proof base_point_on_curve. point_eq; try assumption; left; ring. Qed.

Lemma identity_encode : identity = encode (ed_mul 0 base_point).
Proof. rewrite encode_ed_0. f_equal. Qed.

Lemma N1_N_public_enc ks :
  generate_multisig_N1_N_spend_public_key (map (fun n => encode (ed_mul n base_point)) ks) =
    Some (Returns (encode (ed_mul (lsum ks) base_point))).
Proof. unfold generate_multisig_N1_N_spend_public_key. rewrite identity_encode. exact (sum_keys_enc ks 0). Qed.

Lemma view_secret_enc k others :
  scalar k -> generate_multisig_view_secret_key k (map enc_scalar others) = Some (enc_scalar (blinded k + lsum others)).
Proof. intros Hk. unfold generate_multisig_view_secret_key. rewrite blinded_enc by exact Hk. rewrite bind_Some. apply sum_scalars_enc. Qed.

(** ** Key images *)

Section Images.
Context (H : point).
Hypothesis HH : on_curve H.

Definition image (k : Z) : key := encode (ed_mul k H).

(** The shares of [qs] that are new, each once. *)
Fixpoint fresh (used qs : list Z) : list Z :=
  match qs with
  | [] => []
  | q :: qs => if existsb (key_eqb (image q)) (map image used) then fresh used qs else q :: fresh (q :: used) qs
  end.

Lemma existsb_image q used : existsb (key_eqb (image q)) (map image used) = true <-> In (image q) (map image used).
Proof.
  rewrite existsb_exists. split.
  - intros (x & Hx & E). apply key_eqb_spec in E. now rewrite E.
  - intros Hq. exists (image q). split; [exact Hq | apply key_eqb_refl].
Qed.

Lemma add_partials_enc used qs x :
  exists used', ofold add_partial (map image qs) (map image used, image x) = Some (Returns (used', image (x + lsum (fresh used qs)))).
Proof.
  revert used x. induction qs as [|q qs IH]; intros used x; cbn [map ofold fresh lsum fold_right].
  { eexists. now rewrite Z.add_0_r. }
  unfold add_partial at 1. destruct (existsb (key_eqb (image q)) (map image used)).
  - rewrite obind_Returns. apply IH.
  - change (addKeys (image x) (image q)) with (addKeys (encode (ed_mul x H)) (encode (ed_mul q H))).
    rewrite addKeys_enc by now apply ed_mul_on_curve. rewrite !obind_Returns.
    replace (ed_add (ed_mul x H) (ed_mul q H)) with (ed_mul (x + q) H) by (point_eq; try assumption; left; ring).
    destruct (IH (q :: used) (x + q)) as (used' & E). exists used'.
    change (encode (ed_mul (x + q) H)) with (image (x + q)). cbn [map] in E. rewrite E, <- Z.add_assoc. reflexivity.
Qed.

Lemma in_fresh used qs q : In q (fresh used qs) -> In q qs /\ ~ In (image q) (map image used).
Proof.
  revert used. induction qs as [|p qs IH]; intros used; cbn [fresh]; [intros []|].
  destruct (existsb (key_eqb (image p)) (map image used)) eqn:E.
  - intros Hq. destruct (IH used Hq). split; [now right | assumption].
  - intros [-> | Hq].
    + split; [now left|]. intros N. apply existsb_image in N. congruence.
    + destruct (IH (p :: used) Hq) as [H1 H2]. split; [now right|]. intros N. apply H2. cbn [map]. now right.
Qed.

Lemma fresh_in used qs q : In q qs -> ~ In (image q) (map image used) -> In (image q) (map image (fresh used qs)).
Proof.
  revert used. induction qs as [|p qs IH]; intros used; cbn [fresh]; [intros []|]. intros Hq Hn.
  destruct (existsb (key_eqb (image p)) (map image used)) eqn:E.
  - destruct Hq as [-> | Hq]; [apply existsb_image in E; contradiction | now apply IH].
  - cbn [map]. destruct Hq as [-> | Hq]; [now left|].
    destruct (list_eq_dec Z.eq_dec (image p) (image q)) as [Ei|Ni]; [now left | right].
    apply IH; [exact Hq|]. cbn [map]. intros [N|N]; [contradiction | contradiction].
Qed.

Lemma NoDup_fresh used qs : NoDup (map image (fresh used qs)).
Proof.
  revert used. induction qs as [|p qs IH]; intros used; cbn [fresh]; [constructor|].
  destruct (existsb (key_eqb (image p)) (map image used)); [apply IH|]. cbn [map]. constructor; [|apply IH].
  intros N. apply in_map_iff in N as (q & E & Hq). apply in_fresh in Hq as [_ Hq]. apply Hq. cbn [map]. now left.
Qed.

Lemma image_inj l x y : NoDup (map image l) -> In x l -> In y l -> image x = image y -> x = y.
Proof.
  induction l as [|z l IH]; intros ND Hx Hy E; [destruct Hx|]. apply NoDup_cons_iff in ND as [Nz ND].
  destruct Hx as [-> | Hx], Hy as [-> | Hy]; trivial.
  - elim Nz. rewrite E. now apply in_map.
  - elim Nz. rewrite <- E. now apply in_map.
  - now apply IH.
Qed.

Lemma fresh_others own others qs :
  NoDup (map image (own ++ others)) -> incl qs (own ++ others) -> incl others qs -> Permutation (fresh own qs) others.
Proof.
  intros ND Hin Hot. assert (forall q, In q others -> ~ In (image q) (map image own)) as Dis.
  { intros q Hq N. apply in_map_iff in N as (o & E & Ho).
    assert (o = q) as -> by (apply (image_inj (own ++ others)); trivial; apply in_or_app; auto).
    apply NoDup_map_inv in ND. apply in_split in Ho as (l1 & l2 & ->). rewrite <- app_assoc in ND.
    apply NoDup_remove_2 in ND. apply ND. rewrite !in_app_iff. auto. }
  apply NoDup_Permutation.
  - exact (NoDup_map_inv _ _ (NoDup_fresh own qs)).
  - apply NoDup_map_inv in ND. exact (NoDup_app_remove_l _ _ ND).
  - intros q. split; intros Hq.
    + apply in_fresh in Hq as [Hq Nq]. apply Hin, in_app_or in Hq as [Hq|Hq]; [|exact Hq]. elim Nq. now apply in_map.
    + pose proof (fresh_in own qs q (Hot q Hq) (Dis q Hq)) as F. apply in_map_iff in F as (p & E & Hp).
      assert (p = q) as ->; [|exact Hp]. apply (image_inj (own ++ others)); trivial; [|apply in_or_app; auto].
      apply in_fresh in Hp as [Hp _]. now apply Hin.
Qed.

Lemma lsum_perm l l' : Permutation l l' -> lsum l = lsum l'.
Proof. unfold lsum. induction 1; cbn [fold_right]; lia. Qed.
End Images.

Lemma use_own_enc keys own P :
  m_multisig_keys keys = map enc_scalar own ->
  foldM (use_own keys (encode P)) (seq 0 (List.length (m_multisig_keys keys))) (Some []) =
    Some (Some (map (image (Hp (encode P))) (rev own))).
Proof.
  intros E. apply returns_eq.
  eapply returns_weaken; [apply (foldM_seq (fun i u => u = Some (map (image (Hp (encode P))) (rev (firstn i own)))))|].
  - reflexivity.
  - intros i u Hi ->. rewrite E, length_map in Hi. unfold use_own, generate_multisig_key_image.
    rewrite E, length_map. destruct (Nat.leb_spec (List.length own) i); [lia|].
    rewrite nth_error_map. destruct (nth_error own i) as [k|] eqn:Ek; [|apply nth_error_None in Ek; lia]. cbn [option_map bind].
    rewrite key_image_encode by (apply encode_scalar || apply enc_scalar_reduced). cbn [bind returns].
    rewrite le_val_enc_scalar, (ed_mul_residue _ k (Hp_subgroup _ (encode_scalar P))).
    rewrite (firstn_next own i k Ek), rev_app_distr. reflexivity.
  - cbv beta. intros u ->. rewrite E, length_map. cbn [Nat.add]. now rewrite firstn_all.
Qed.

(** The share of one signer, with the public key of the output from the key of the account. *)
Lemma helper_share_enc keys Bp index d i (b := m_spend_secret_key keys)
  (x := le_val b + Hs (derivation_data d (Z.of_nat i)) + sub_offset (m_view_secret_key keys) index) :
  reduced_scalar b -> le_val b <> 0 -> scalar (m_view_secret_key keys) -> scalar d -> Z.of_nat i < 2 ^ 64 -> on_curve Bp ->
  m_spend_public_key (m_account_address keys) = encode Bp -> m_multisig_keys keys <> [] ->
  let P := ed_add (sub_point (m_view_secret_key keys) Bp index) (ed_mul (Hs (derivation_data d (Z.of_nat i))) base_point) in
  generate_key_image_helper_precomp junk keys (encode P) d i index =
    Some (Returns (Some (KeyPair (encode P) (enc_scalar x), image (Hp (encode P)) x))).
Proof.
  intros Hb Nb Ha Hd Hi HB EB Em P. unfold generate_key_image_helper_precomp. fold b.
  destruct (key_eqb b null_skey) eqn:E; [apply key_eqb_spec in E; elim Nb; rewrite E; reflexivity|]. clear E.
  rewrite derive_secret_enc by (trivial; lia). cbn [bind]. set (h := Hs (derivation_data d (Z.of_nat i))) in *.
  pose proof base_point_on_curve as HG. pose proof (ed_mul_on_curve _ HG h) as Ch.
  set (m := Hs (subaddr_data (m_view_secret_key keys) index)).
  assert ((if is_zero index then Some (junk, enc_scalar (le_val b + h))
           else let! subaddr_sk := get_subaddress_secret_key (m_view_secret_key keys) index in
                let! scalar_step2 := sc_secret_add (enc_scalar (le_val b + h)) subaddr_sk in Some (subaddr_sk, scalar_step2)) =
          Some (if is_zero index then junk else enc_scalar m, enc_scalar x)) as ->.
  { unfold x, sub_offset. destruct (is_zero index); [now rewrite Z.add_0_r|].
    rewrite subaddress_secret_enc by exact Ha. cbn [bind]. unfold sc_secret_add. rewrite sc_add_enc by apply enc_scalar_scalar. cbn [bind].
    now rewrite enc_scalar_add. }
  cbn [bind]. destruct (m_multisig_keys keys) as [|k ks]; [now elim Em|]. clear Em. rewrite EB, derive_public_encode by (trivial; lia). fold h. cbn [bind].
  assert ((if is_zero index then Some (Returns (Some (encode (ed_add Bp (ed_mul h base_point)))))
           else let! r := secret_key_to_public_key (if is_zero index then junk else enc_scalar m) in
                match r with
                | None => Some (Returns None)
                | Some subaddr_pk => let? pub := add_public_key (encode (ed_add Bp (ed_mul h base_point))) subaddr_pk in Some (Returns (Some pub))
                end) = Some (Returns (Some (encode P)))) as ->.
  { unfold P, sub_point, sub_offset. destruct (is_zero index).
    - do 4 f_equal. point_eq; try assumption; left; ring.
    - rewrite secret_to_public_enc. cbn [bind]. change (add_public_key ?A ?B) with (addKeys A B).
      rewrite addKeys_enc by (try (now apply ed_add_on_curve); now apply ed_mul_on_curve). rewrite obind_Returns. do 4 f_equal.
      fold m. point_eq; try assumption; left; ring. }
  rewrite obind_Returns, key_eqb_refl.
  rewrite key_image_encode by (apply encode_scalar || apply enc_scalar_reduced). cbn [bind].
  rewrite le_val_enc_scalar, (ed_mul_residue _ x (Hp_subgroup _ (encode_scalar P))). reflexivity.
Qed.

(** ** Claims *)

(** All entries but [j]. *)
Definition others {A} (l : list A) (j : nat) : list A := firstn j l ++ skipn (S j) l.

Lemma lsum_app l l' : lsum (l ++ l') = lsum l + lsum l'.
Proof. unfold lsum. induction l as [|x l IH]; cbn [app fold_right]; lia. Qed.

Lemma lsum_others l j x : nth_error l j = Some x -> x + lsum (others l j) = lsum l.
Proof.
  intros E. unfold others. apply nth_error_split in E as (l1 & l2 & -> & <-).
  rewrite firstn_app, Nat.sub_diag, firstn_all, skipn_app, skipn_all2 by lia. replace (S (List.length l1) - List.length l1)%nat with 1%nat by lia.
  cbn [firstn skipn app]. rewrite app_nil_r, !lsum_app. unfold lsum. cbn [fold_right]. lia.
Qed.

Lemma map_others {A B} (f : A -> B) l j : others (map f l) j = map f (others l j).
Proof. unfold others. now rewrite map_app, firstn_map, skipn_map. Qed.

(** The public key of the blinded secret of [s], that a signer gives to the others. *)
Definition signer_key (s p : key) : Prop :=
  scalar s /\ exists b, get_multisig_blinded_secret_key s = Some b /\ secret_key_to_public_key b = Some (Some p).

Lemma signer_key_enc s p : signer_key s p -> scalar s /\ p = encode (ed_mul (blinded s) base_point).
Proof.
  intros (Hs & b & Eb & Ep). split; [exact Hs|]. rewrite blinded_enc in Eb by exact Hs. injection Eb as <-.
  rewrite secret_to_public_enc in Ep. congruence.
Qed.

Lemma signer_keys_enc ss ps : Forall2 signer_key ss ps ->
  Forall scalar ss /\ ps = map (fun n => encode (ed_mul n base_point)) (map blinded ss).
Proof.
  induction 1 as [|s p ss ps H _ [IH1 IH2]]; [split; constructor|]. apply signer_key_enc in H as [Hs ->].
  split; [now constructor | cbn [map]; now rewrite <- IH2].
Qed.

(** C13: With N of N signers, each from the own secret and the public keys of the others computes the same public key of the account, and the
    shares of the signers add up to its secret key; the same view key comes out for all of them. *)
Theorem multisig_N_N_correct ss ps vs bs :
  Forall2 signer_key ss ps -> Forall scalar vs -> mapM get_multisig_blinded_secret_key vs = Some bs ->
  exists S total V, foldM (fun t s => let! b := get_multisig_blinded_secret_key s in sc_add t b) ss zero = Some total /\
    secret_key_to_public_key total = Some (Some S) /\
    (forall j s keys, nth_error ss j = Some s -> m_spend_secret_key keys = s -> exists b, get_multisig_blinded_secret_key s = Some b /\
       generate_multisig_N_N keys (others ps j) = Some (Returns ([b], b, S))) /\
    (forall j v, nth_error vs j = Some v -> generate_multisig_view_secret_key v (others bs j) = Some V).
Proof.
  intros Hss Hvs Ebs. apply signer_keys_enc in Hss as [Hs ->].
  rewrite (mapM_map _ (fun v => enc_scalar (blinded v))) in Ebs by (intros v Hv; apply blinded_enc; now apply (proj1 (Forall_forall _ _) Hvs)).
  injection Ebs as <-. exists (encode (ed_mul (lsum (map blinded ss)) base_point)), (enc_scalar (lsum (map blinded ss))), (enc_scalar (lsum (map blinded vs))).
  split; [|split; [apply secret_to_public_enc|split]].
  - rewrite zero_enc. change (lsum (map blinded ss)) with (0 + lsum (map blinded ss)). generalize 0 as t.
    induction Hs as [|s ss Hs _ IH]; intros t; cbn [foldM map lsum fold_right]; [now rewrite Z.add_0_r|].
    rewrite blinded_enc by exact Hs. cbn [bind]. rewrite sc_add_enc by apply enc_scalar_scalar. cbn [bind]. rewrite enc_scalar_add, IH, Z.add_assoc. reflexivity.
  - intros j s keys Ej Ek. exists (enc_scalar (blinded s)).
    assert (scalar s) as Sk by (apply (proj1 (Forall_forall _ _) Hs); now apply nth_error_In in Ej). split; [now apply blinded_enc|].
    rewrite map_others, N_N_enc by (rewrite Ek; exact Sk). rewrite Ek, (lsum_others (map blinded ss) j); [reflexivity|].
    rewrite nth_error_map, Ej. reflexivity.
  - intros j v Ej. assert (scalar v) as Sv by (apply (proj1 (Forall_forall _ _) Hvs); now apply nth_error_In in Ej).
    rewrite <- (map_map blinded enc_scalar), map_others, view_secret_enc by exact Sv. rewrite (lsum_others (map blinded vs) j); [reflexivity|].
    rewrite nth_error_map, Ej. reflexivity.
Qed.

Lemma reduced_list ks : Forall reduced_scalar ks -> ks = map enc_scalar (map le_val ks).
Proof.
  intros Hks. rewrite map_map. rewrite <- (map_id ks) at 1. apply map_ext_in. intros k Hk.
  apply (proj1 (Forall_forall _ _) Hks) in Hk as [H1 H2]. now apply enc_scalar_val.
Qed.

(** C14: With N-1 of N signers, two signers compute the same composite key from the public key of each other, the spend secret of
    a signer is the sum of the composite keys, and the public key of the account that is put together from the public keys of
    the composite keys belongs to their sum. *)
Theorem multisig_N1_N_correct s t p q ps qs i j keys keys' ks pks :
  signer_key s p -> signer_key t q -> m_spend_secret_key keys = s -> m_spend_secret_key keys' = t ->
  Forall (fun k => scalar k /\ check_key k = Some true) ps -> Forall (fun k => scalar k /\ check_key k = Some true) qs ->
  nth_error ps i = Some q -> nth_error qs j = Some p ->
  Forall reduced_scalar ks -> mapM secret_key_to_public_key ks = Some (map Some pks) ->
  (exists ms sk ms' sk' k,
     generate_multisig_N1_N keys ps = Some (Returns (ms, sk, identity)) /\ generate_multisig_N1_N keys' qs = Some (Returns (ms', sk', identity)) /\
     nth_error ms i = Some k /\ nth_error ms' j = Some k /\ foldM (fun t m => sc_add t m) ms zero = Some sk) /\
  (exists total S, foldM (fun t k => sc_add t k) ks zero = Some total /\ secret_key_to_public_key total = Some (Some S) /\
     generate_multisig_N1_N_spend_public_key pks = Some (Returns S)).
Proof.
  intros Hs Ht Es Et Hps Hqs Ei Ej Hks Epks. apply signer_key_enc in Hs as [Hs ->], Ht as [Ht ->]. split.
  - destruct (checked_keys ps) as (Ps & -> & HPs); [now apply Forall_forall|].
    destruct (checked_keys qs) as (Qs & -> & HQs); [now apply Forall_forall|].
    apply Forall_forall in HPs, HQs. do 5 eexists.
    split; [apply N1_N_enc; [rewrite Es; exact Hs | exact HPs]|]. split; [apply N1_N_enc; [rewrite Et; exact Ht | exact HQs]|].
    rewrite Es, Et. assert (forall l n c, Forall on_curve l -> nth_error (map encode l) n = Some (encode (ed_mul c base_point)) ->
      nth_error l n = Some (ed_mul c base_point)) as Dec.
    { intros l n c Hl E. rewrite nth_error_map in E. destruct (nth_error l n) as [Q|] eqn:EQ; [|discriminate]. cbn [option_map] in E. f_equal.
      apply encode_inj; [apply (proj1 (Forall_forall _ _) Hl); now apply nth_error_In in EQ | apply ed_mul_on_curve, base_point_on_curve | congruence]. }
    apply Dec in Ei, Ej; trivial. split; [rewrite nth_error_map, Ei; reflexivity|]. split; [rewrite nth_error_map, Ej; cbn [option_map]; now rewrite pair_key_shared|].
    rewrite zero_enc, <- (map_map (pair_key _) enc_scalar), (sum_scalars_enc _ 0). reflexivity.
  - exists (enc_scalar (lsum (map le_val ks))), (encode (ed_mul (lsum (map le_val ks)) base_point)).
    pose proof (reduced_list ks Hks) as Ek.
    split; [|split; [apply secret_to_public_enc|]].
    + rewrite zero_enc. rewrite Ek at 1. now rewrite (sum_scalars_enc _ 0).
    + rewrite (mapM_map _ (fun k => Some (encode (ed_mul (le_val k) base_point)))) in Epks by (intros k Hk; apply secret_to_public; now apply (proj1 (Forall_forall _ _) Hks)).
      injection Epks as Epks. assert (pks = map (fun n => encode (ed_mul n base_point)) (map le_val ks)) as ->; [|apply N1_N_public_enc].
      rewrite map_map. clear - Epks. revert pks Epks. induction ks as [|k ks IH]; intros [|pk pks] E; cbn [map] in *; try discriminate; [reflexivity|].
      injection E as <- E. f_equal. now apply IH.
Qed.

Section Composite.
Context (keys : account_keys) (own oth : list Z) (Bp R : point) (index : subaddress_index) (i : nat).
Context (subaddresses : key -> option subaddress_index).
Let a := m_view_secret_key keys.
Let d := encode (ed_mul (8 * le_val a) R).
Let P := ed_add (sub_point a Bp index) (ed_mul (Hs (derivation_data d (Z.of_nat i))) base_point).
Let H := Hp (encode P).
Let x := lsum own + lsum oth + Hs (derivation_data d (Z.of_nat i)) + sub_offset a index.
Hypothesis Ha : reduced_scalar a.
Hypothesis HR : on_curve R.
Hypothesis Hi : Z.of_nat i < 2 ^ 64.
Hypothesis Hown : m_multisig_keys keys = map enc_scalar own.
Hypothesis Hne : own <> [].
Hypothesis Hspend : m_spend_secret_key keys = enc_scalar (lsum own).
Hypothesis Nspend : le_val (m_spend_secret_key keys) <> 0.
Hypothesis HB : Bp = ed_mul (lsum own + lsum oth) base_point.
Hypothesis EB : m_spend_public_key (m_account_address keys) = encode Bp.
Hypothesis Hsub : subaddresses (encode (sub_point a Bp index)) = Some index.

Lemma composite_image qs :
  NoDup (map (image H) (own ++ oth)) -> incl qs (own ++ oth) -> incl oth qs ->
  generate_multisig_composite_key_image keys subaddresses (encode P) (encode R) [] i (map (image H) qs) =
    Some (Returns (Some (image H x))) /\
  secret_key_to_public_key (enc_scalar x) = Some (Some (encode P)) /\ generate_key_image (encode P) (enc_scalar x) = Some (image H x).
Proof.
  intros ND Hin Hot. pose proof base_point_on_curve as HG.
  assert (on_curve Bp) as CB by (rewrite HB; now apply ed_mul_on_curve).
  assert (on_curve H) as CH by apply (Hp_subgroup _ (encode_scalar P)).
  split; [|split].
  - unfold generate_multisig_composite_key_image, generate_key_image_helper. fold a. cbn [foldM].
    rewrite derivation_encode by assumption. cbn [bind]. fold d.
    pose proof (precomp_found junk subaddresses (sub_point a Bp index) d i [] index (encode_scalar _) Hi (sub_point_on_curve a Bp index CB) Hsub) as E.
    fold P in E. rewrite E. cbn [bind sri_derivation sri_index].
    pose proof (helper_share_enc keys Bp index d i) as E2. cbv zeta in E2. fold a P in E2. rewrite E2; trivial.
    2: { rewrite Hspend. apply enc_scalar_reduced. }
    2: { apply Ha. }
    2: { apply encode_scalar. }
    2: { rewrite Hown. destruct own; [now elim Hne | discriminate]. }
    rewrite obind_Returns. rewrite (use_own_enc keys own P Hown), bind_Some. fold H.
    set (y := le_val (m_spend_secret_key keys) + _ + _).
    destruct (add_partials_enc H CH (rev own) qs y) as (used' & ->). rewrite obind_Returns. do 3 f_equal.
    rewrite (lsum_perm _ _ (fresh_others H (rev own) oth qs ltac:(rewrite map_app, map_rev, <- Permutation_rev, <- map_app; exact ND)
      ltac:(intros q Hq; apply Hin, in_app_iff in Hq; rewrite in_app_iff, <- in_rev; exact Hq) Hot)).
    unfold image. f_equal. apply (ed_mul_mod H); [apply (Hp_subgroup _ (encode_scalar P))|].
    unfold y, x. rewrite Hspend, le_val_enc_scalar. rewrite <- !Z.add_assoc, Z.add_mod_idemp_l by discriminate. f_equal. ring.
  - rewrite secret_to_public_enc. do 3 f_equal. unfold x, P, sub_point. rewrite HB. point_eq; try assumption; left; ring.
  - rewrite key_image_encode by (apply encode_scalar || apply enc_scalar_reduced).
    rewrite le_val_enc_scalar, (ed_mul_residue _ x (Hp_subgroup _ (encode_scalar P))). reflexivity.
Qed.
End Composite.

Lemma sum_reduced ks t : Forall reduced_scalar ks -> foldM (fun t k => sc_add t k) ks zero = Some t -> t = enc_scalar (lsum (map le_val ks)).
Proof. intros Hks E. rewrite (reduced_list ks Hks), zero_enc, (sum_scalars_enc _ 0) in E. injection E as <-. reflexivity. Qed.

(** Key images of shares as their multiples of the hash point. *)
Lemma image_enc P k : reduced_scalar k -> generate_key_image (encode P) k = Some (image (Hp (encode P)) (le_val k)).
Proof. intros Hk. apply key_image_encode; [apply encode_scalar | exact Hk]. Qed.

(** C12: The signers of a multisignature account compute the key image of an output together. A signer
    holds the shares [own], whose sum is his spend secret; [oth] are the shares of the others, and the spend key of the account belongs to
    the sum of all of them; no two shares have the same partial key image. For an output of a (sub)address of the account, [generate_multisig_composite_key_image] with the partial key images of the shares, in any
    order, repeated, and with or without those of the own shares, returns the key image of the secret key of the output. *)
Theorem multisig_key_image_correct keys own oth total B R index i subaddresses d D P pkis :
  reduced_scalar (m_view_secret_key keys) -> Forall reduced_scalar own -> Forall reduced_scalar oth -> own <> [] ->
  m_multisig_keys keys = own -> foldM (fun t k => sc_add t k) own zero = Some (m_spend_secret_key keys) -> m_spend_secret_key keys <> null_skey ->
  foldM (fun t k => sc_add t k) (own ++ oth) zero = Some total -> secret_key_to_public_key total = Some (Some B) ->
  m_spend_public_key (m_account_address keys) = B ->
  scalar R -> generate_key_derivation R (m_view_secret_key keys) = Some (Some d) -> Z.of_nat i < 2 ^ 64 ->
  get_subaddress_spend_public_key junk keys index = Some (Returns D) -> subaddresses D = Some index ->
  derive_public_key d (Z.of_nat i) D = Some (Some P) ->
  (forall I, In I pkis -> exists k, In k (own ++ oth) /\ generate_key_image P k = Some I) ->
  (forall k I, In k oth -> generate_key_image P k = Some I -> In I pkis) ->
  (forall j j' k k' I, nth_error (own ++ oth) j = Some k -> nth_error (own ++ oth) j' = Some k' ->
     generate_key_image P k = Some I -> generate_key_image P k' = Some I -> j = j') ->
  exists x ki, secret_key_to_public_key x = Some (Some P) /\ generate_key_image P x = Some ki /\
    generate_multisig_composite_key_image keys subaddresses P R [] i pkis = Some (Returns (Some ki)).
Proof.
  intros Ha Ho Ht Ne Em Es Ns Etot EB Eacc SR Ed Hi ED Hsub EP Hin Hot Hdis.
  assert (Forall reduced_scalar (own ++ oth)) as Hall by (apply Forall_app; now split).
  apply sum_reduced in Es; [|exact Ho]. apply sum_reduced in Etot; [|exact Hall]. subst total. rewrite secret_to_public_enc in EB. injection EB as <-.
  rewrite map_app, lsum_app in Eacc.
  destruct (point_cases R SR) as [(Rp & HR & ->)|[N _]].
  2: { unfold generate_key_derivation in Ed. rewrite assert_reduced in Ed by exact Ha. cbn [bind] in Ed. rewrite N in Ed. discriminate. }
  rewrite derivation_encode in Ed by assumption. injection Ed as <-.
  set (Bp := ed_mul (lsum (map le_val own) + lsum (map le_val oth)) base_point) in *.
  assert (on_curve Bp) as CB by apply ed_mul_on_curve, base_point_on_curve.
  rewrite (spend_public_key_enc junk keys Bp index (proj1 Ha) CB Eacc) in ED. injection ED as <-.
  rewrite derive_public_encode in EP by (try apply encode_scalar; try (now apply sub_point_on_curve); lia). injection EP as <-.
  match goal with |- context [encode (ed_add ?u ?v)] => set (P := ed_add u v) in * end. set (H := Hp (encode P)).
  assert (exists qs, pkis = map (image H) qs /\ incl qs (map le_val own ++ map le_val oth)) as (qs & -> & Hqs).
  { clear Hot. induction pkis as [|I pkis IH]; [exists []; split; [reflexivity | intros q []]|].
    destruct IH as (qs & -> & Hqs); [intros J HJ; apply Hin; now right|].
    destruct (Hin I (or_introl eq_refl)) as (k & Hk & EI). rewrite image_enc in EI by now apply (proj1 (Forall_forall _ _) Hall). injection EI as <-.
    exists (le_val k :: qs). split; [reflexivity|]. intros q [<- | Hq]; [|now apply Hqs]. rewrite <- map_app. now apply in_map. }
  assert (NoDup (map (image H) (map le_val own ++ map le_val oth))) as ND.
  { rewrite <- map_app, map_map. apply NoDup_nth_error. intros j j' Hj E. rewrite length_map in Hj. rewrite !nth_error_map in E.
    destruct (nth_error (own ++ oth) j) as [k|] eqn:Ej; [|apply nth_error_None in Ej; lia].
    destruct (nth_error (own ++ oth) j') as [k'|] eqn:Ej'; [|discriminate]. cbn [option_map] in E. apply some_inj in E.
    pose proof (proj1 (Forall_forall _ _) Hall) as Hr.
    apply (Hdis j j' k k' (image H (le_val k)) Ej Ej'); [|rewrite E]; apply image_enc, Hr; eapply nth_error_In; eassumption. }
  assert (incl (map le_val oth) qs) as Hoq.
  { intros q Hq. apply in_map_iff in Hq as (k & <- & Hk).
    assert (In (image H (le_val k)) (map (image H) qs)) as HI by (apply (Hot k _ Hk), image_enc; now apply (proj1 (Forall_forall _ _) Ht)).
    apply in_map_iff in HI as (q & E & Hq). assert (q = le_val k) as ->; [|exact Hq].
    apply (image_inj H (map le_val own ++ map le_val oth)); trivial; [now apply Hqs|]. apply in_or_app. right. now apply in_map. }
  assert (m_multisig_keys keys = map enc_scalar (map le_val own)) as Em' by (rewrite Em; now apply reduced_list).
  assert (map le_val own <> []) as Ne' by (destruct own; [now elim Ne | discriminate]).
  assert (le_val (m_spend_secret_key keys) <> 0) as Nz.
  { intros Z. apply Ns. rewrite Es in Z |- *. rewrite le_val_enc_scalar in Z. unfold null_skey. rewrite (zero_enc : repeat 0 32 = _). now apply enc_scalar_cong. }
  destruct (composite_image keys (map le_val own) (map le_val oth) Bp Rp index i subaddresses Ha HR Hi Em' Ne' Es Nz eq_refl Eacc Hsub qs ND Hqs Hoq) as (E1 & E2 & E3).
  do 2 eexists. split; [exact E2|]. split; [exact E3 | exact E1].
Qed.
End Multisig.

(** *** Witnesses *)

#[local] Existing Instance debug_build.

Lemma signer_key_of s : scalar s -> signer_key s (encode (ed_mul (blinded s) base_point)).
Proof. intros Hs. split; [exact Hs|]. exists (enc_scalar (blinded s)). split; [exact (blinded_enc s Hs) | exact (secret_to_public_enc (blinded s))]. Qed.

Definition signer_public (n : Z) : key := encode (ed_mul (blinded (enc_scalar n)) base_point).

Lemma signer_public_key n : signer_key (enc_scalar n) (signer_public n).
Proof. exact (signer_key_of _ (enc_scalar_scalar n)). Qed.

Lemma signer_public_point n : Forall (fun k => scalar k /\ check_key k = Some true) [signer_public n].
Proof.
  apply Forall_cons; [|apply Forall_nil]. split; [apply encode_scalar|]. apply check_key_encode, ed_mul_on_curve, base_point_on_curve.
Qed.

Definition signer_account (n : Z) : account_keys := AccountKeys (AccountAddress zero zero) (enc_scalar n) (enc_scalar 5) [].

Lemma multisig_N_N_correct_witness :
  exists S b, generate_multisig_N_N (signer_account 3) [signer_public 4] =
    Some (Returns ([b], b, S)).
Proof.
  destruct (multisig_N_N_correct [enc_scalar 3; enc_scalar 4] [signer_public 3; signer_public 4] [] []
    (Forall2_cons _ _ (signer_public_key 3) (Forall2_cons _ _ (signer_public_key 4) (Forall2_nil _))) (Forall_nil _) eq_refl)
    as (S & total & V & _ & _ & E & _).
  destruct (E 0%nat (enc_scalar 3) (signer_account 3) eq_refl eq_refl) as (b & _ & Eb).
  exact (ex_intro _ S (ex_intro _ b Eb)).
Defined.

Lemma multisig_N1_N_correct_witness :
  exists ms sk ms' sk' k,
    generate_multisig_N1_N (signer_account 3) [signer_public 4] = Some (Returns (ms, sk, identity)) /\
    generate_multisig_N1_N (signer_account 4) [signer_public 3] = Some (Returns (ms', sk', identity)) /\
    nth_error ms 0 = Some k /\ nth_error ms' 0 = Some k.
Proof.
  destruct (proj1 (multisig_N1_N_correct (enc_scalar 3) (enc_scalar 4) (signer_public 3) (signer_public 4) [signer_public 4] [signer_public 3] 0 0
    (signer_account 3) (signer_account 4) [] [] (signer_public_key 3) (signer_public_key 4) eq_refl eq_refl
    (signer_public_point 4) (signer_public_point 3) eq_refl eq_refl (Forall_nil _) eq_refl)) as (ms & sk & ms' & sk' & k & E1 & E2 & E3 & E4 & _).
  exact (ex_intro _ ms (ex_intro _ sk (ex_intro _ ms' (ex_intro _ sk' (ex_intro _ k (conj E1 (conj E2 (conj E3 E4)))))))).
Defined.

Lemma Hp_not_zero {FH : FastHash} k :
  scalar k -> match (let! p := hash_to_ec k in ge_p3_tobytes p) with Some l => negb (key_eqb l identity) | None => false end = true -> Hp k <> ed_0.
Proof.
  intros Hk. pose proof (hash_to_ec_spec k Hk) as (p & Ep & Rp & _)%returns_some. rewrite Ep, bind_Some, (p3_tobytes_encode p _ Rp).
  intros F E. rewrite E, <- (encode_ed_0 : identity = _), key_eqb_refl in F. discriminate.
Qed.

(** Two shares, 3 and 4, with the hash [oracle] that sends every key to one point. *)
Section TwoShares.
#[local] Instance shares_hash : FastHash := oracle 1.

Definition shares_public : point := ed_mul 7 base_point.
Definition shares_account : account_keys :=
  AccountKeys (AccountAddress (encode shares_public) zero) (enc_scalar 3) (enc_scalar 5) [enc_scalar 3].
Definition main_index : subaddress_index := SubaddressIndex 0 0.
Definition shares_tx : point := ed_mul 11 base_point.
Definition shares_derivation : key := encode (ed_mul (8 * le_val (enc_scalar 5)) shares_tx).
Definition shares_out : point := ed_add shares_public (ed_mul (Hs (derivation_data shares_derivation 2)) base_point).
Definition share_image (n : Z) : key := image (Hp (encode shares_out)) (le_val (enc_scalar n)).

Lemma oracle_point k : scalar k -> Hp k <> ed_0.
Proof. intros Hk. apply Hp_not_zero; [exact Hk|]. unfold hash_to_ec, fast_hash, shares_hash, oracle. cbn [Nat.eqb]. vm_compute. reflexivity. Qed.

Lemma share_image_enc n : generate_key_image (encode shares_out) (enc_scalar n) = Some (share_image n).
Proof. exact (image_enc shares_out _ (enc_scalar_reduced n)). Qed.

Lemma share_images_differ : share_image 3 <> share_image 4.
Proof.
  intros E. destruct (Hp_subgroup _ (encode_scalar shares_out)) as [CH _].
  apply (oracle_point _ (encode_scalar shares_out)). revert CH E. unfold share_image, image. generalize (Hp (encode shares_out)). intros P CP E.
  apply encode_inj in E; try (now apply ed_mul_on_curve). rewrite !le_val_enc_scalar in E.
  change (3 mod ell) with 3 in E. change (4 mod ell) with 4 in E.
  replace (ed_mul 4 P) with (ed_add (ed_mul 3 P) P) in E by (point_eq; try assumption; left; ring).
  assert (ed_add (ed_mul (-3) P) (ed_mul 3 P) = ed_add (ed_mul (-3) P) (ed_add (ed_mul 3 P) P)) as F by (f_equal; exact E).
  replace (ed_add (ed_mul (-3) P) (ed_mul 3 P)) with (ed_mul 0 P) in F by (point_eq; try assumption; left; ring).
  replace (ed_add (ed_mul (-3) P) (ed_add (ed_mul 3 P) P)) with (ed_mul 1 P) in F by (point_eq; try assumption; left; ring).
  now rewrite ed_mul_0, ed_mul_1 in F.
Qed.

Lemma shares_partial I : In I [share_image 4; share_image 3; share_image 4] ->
  exists k, In k [enc_scalar 3; enc_scalar 4] /\ generate_key_image (encode shares_out) k = Some I.
Proof.
  intros [<- | [<- | [<- | []]]]; eexists; (split; [|apply share_image_enc]); [right; left | left | right; left]; exact eq_refl.
Qed.

Lemma shares_others k I : In k [enc_scalar 4] -> generate_key_image (encode shares_out) k = Some I -> In I [share_image 4; share_image 3; share_image 4].
Proof. intros [<- | []] E. rewrite share_image_enc in E. apply some_inj in E. left. exact E. Qed.

Lemma shares_distinct j j' k k' I :
  nth_error [enc_scalar 3; enc_scalar 4] j = Some k -> nth_error [enc_scalar 3; enc_scalar 4] j' = Some k' ->
  generate_key_image (encode shares_out) k = Some I -> generate_key_image (encode shares_out) k' = Some I -> j = j'.
Proof.
  pose proof share_images_differ as N.
  destruct j as [|[|[|j]]]; try discriminate; destruct j' as [|[|[|j']]]; try discriminate; cbn [nth_error]; intros E E'; trivial;
    apply some_inj in E as <-; apply some_inj in E' as <-; rewrite !share_image_enc; congruence.
Qed.

Lemma shares_sum ks : foldM (fun t k => sc_add t k) (map enc_scalar ks) zero = Some (enc_scalar (lsum ks)).
Proof. rewrite zero_enc. exact (sum_scalars_enc ks 0). Qed.

Lemma three_not_null : enc_scalar 3 <> null_skey.
Proof. intros E. assert (le_val (enc_scalar 3) = 0) as Z by (rewrite E; reflexivity). rewrite le_val_enc_scalar in Z. discriminate. Qed.

Lemma shares_derivation_eq : generate_key_derivation (encode shares_tx) (enc_scalar 5) = Some (Some shares_derivation).
Proof. apply derivation_encode; [apply ed_mul_on_curve, base_point_on_curve | apply enc_scalar_reduced]. Qed.

Lemma shares_out_eq : derive_public_key shares_derivation 2 (encode shares_public) = Some (Some (encode shares_out)).
Proof. apply derive_public_encode; [apply encode_scalar | lia | apply ed_mul_on_curve, base_point_on_curve]. Qed.

Lemma shares_spend : get_subaddress_spend_public_key zero shares_account main_index = Some (Returns (encode shares_public)).
Proof. unfold get_subaddress_spend_public_key. cbn. exact eq_refl. Qed.

Lemma shares_own_sum : foldM (fun t k => sc_add t k) [enc_scalar 3] zero = Some (m_spend_secret_key shares_account).
Proof. exact (shares_sum [3]). Qed.

Lemma shares_total : foldM (fun t k => sc_add t k) ([enc_scalar 3] ++ [enc_scalar 4]) zero = Some (enc_scalar 7).
Proof. exact (shares_sum [3; 4]). Qed.

Lemma shares_public_eq : secret_key_to_public_key (enc_scalar 7) = Some (Some (encode shares_public)).
Proof. exact (secret_to_public_enc 7). Qed.

Lemma shares_not_empty : [enc_scalar 3] <> [].
Proof. discriminate. Qed.

Lemma multisig_key_image_correct_witness :
  exists x ki, secret_key_to_public_key x = Some (Some (encode shares_out)) /\ generate_key_image (encode shares_out) x = Some ki /\
    generate_multisig_composite_key_image zero shares_account (fun _ => Some main_index) (encode shares_out) (encode shares_tx) [] 2
      [share_image 4; share_image 3; share_image 4] = Some (Returns (Some ki)).
Proof.
  exact (multisig_key_image_correct zero shares_account [enc_scalar 3] [enc_scalar 4] (enc_scalar 7) (encode shares_public) (encode shares_tx) main_index 2
    (fun _ => Some main_index) shares_derivation (encode shares_public) (encode shares_out) [share_image 4; share_image 3; share_image 4]
    (enc_scalar_reduced 5) (Forall_cons _ (enc_scalar_reduced 3) (Forall_nil _)) (Forall_cons _ (enc_scalar_reduced 4) (Forall_nil _))
    shares_not_empty (@eq_refl _ (m_multisig_keys shares_account))
    shares_own_sum three_not_null shares_total shares_public_eq (@eq_refl _ (encode shares_public)) (encode_scalar shares_tx) shares_derivation_eq ltac:(lia)
    shares_spend eq_refl shares_out_eq shares_partial shares_others shares_distinct).
Defined.
End TwoShares.
