(* ===== verification/Bulletproofs.v ===== *)
(** * Bulletproofs

    Models bulletproofs.cc: the vectors of scalars and of points, the generators, the prover
    [bulletproof_PROVE] and the verifier [bulletproof_VERIFY] for amounts of 64 bits. The
    inversion of scalars calls the OpenSSL library, which is a parameter of the model
    ([BigNum], with the documented behaviour of its four functions). The static arrays of
    generators are an argument: [init_exponents] fills them at the first call, and the calls of
    the prover and the verifier start from any state of them. *)

From Stdlib Require Import ZArith Lia List Bool String Znumtheory.
From S2P Require Import Prelude Bytes Fe FeMul Primes ScReduce Sc Curve Ge GeBytes GeScalar GeBase GeDouble GeHash.
From S2P Require Import Keccak TreeHash Order Varint Random Encode KeyOps Signature RingSig RctTypes RctTable RctOps Borromean Linear.
Import ListNotations.

#[local] Open Scope Z_scope.
#[local] Open Scope list_scope.
#[local] Opaque ed_mul ed_add base_point encode enc_scalar point_code.

(** ** Numbers of OpenSSL *)

Class BigNum : Type := {
  BN_bin2bn : list Z -> Z;
  BN_bin2bn_spec : forall s, bytes s -> BN_bin2bn s = le_val (rev s);
  (** [None] is the null pointer, returned when there is no inverse. *)
  BN_mod_inverse : Z -> Z -> option Z;
  BN_mod_inverse_spec : forall a n, 0 <= a -> 1 < n ->
    match BN_mod_inverse a n with
    | Some i => 0 <= i < n /\ (a * i) mod n = 1
    | None => Z.gcd a n <> 1
    end;
  BN_num_bytes : Z -> nat;
  BN_num_bytes_spec : forall n k, 0 <= n < 256 ^ Z.of_nat k -> (BN_num_bytes n <= k)%nat;
  BN_bn2bin : Z -> list Z;
  BN_bn2bin_spec : forall n, 0 <= n ->
    bytes (BN_bn2bin n) /\ List.length (BN_bn2bin n) = BN_num_bytes n /\ le_val (rev (BN_bn2bin n)) = n;
}.

(** The static arrays. *)
Record exponents := Exponents {
  ex_Hi : list key;
  ex_Gi : list key;
  ex_Hprecomp : list (list ge_cached);
  ex_Gprecomp : list (list ge_cached);
  init_done : bool }.

Definition maxN : nat := 64.

Definition TWO : key := 2 :: repeat 0 31.

(** The bytes of the string bulletproof. *)
Definition salt : list Z := [98; 117; 108; 108; 101; 116; 112; 114; 111; 111; 102].

(** A loop into a fresh array whose body may throw. *)
Fixpoint omapM {A B : Type} (f : A -> option (outcome B)) (l : list A) : option (outcome (list B)) :=
  match l with
  | [] => Some (Returns [])
  | x :: l => let? y := f x in let? ys := omapM f l in Some (Returns (y :: ys))
  end.

(** [for (i = 0; i < a.size(); ++i) res[i] = op(a[i], b[i]);] *)
Definition zip_keys (op : key -> key -> option key) (a b : list key) : option (outcome (list key)) :=
  let! res := mapM (fun i => let! x := nth_error a i in let! y := nth_error b i in op x y) (seq 0 (List.length a)) in
  Some (Returns res).

Section Bulletproofs.
  Context {FH : FastHash} {RB : RandomBytes} {BN : BigNum}.

(** ** The code: generators *)

Definition get_exponent (base : key) (idx : Z) : option key :=
  let! v := write_varint idx in
  let hashed := base ++ salt ++ v in
  let! h := fast_hash hashed (List.length hashed) in
  hashToPoint h.

Definition init_step (ex : exponents) (i : nat) : option (outcome exponents) :=
  let! h := get_exponent rct_H (Z.of_nat i * 2) in
  let? hp := precomp h in
  let! g := get_exponent rct_H (Z.of_nat i * 2 + 1) in
  let? gp := precomp g in
  Some (Returns (Exponents (ex_Hi ex ++ [h]) (ex_Gi ex ++ [g]) (ex_Hprecomp ex ++ [hp]) (ex_Gprecomp ex ++ [gp]) false)).

Definition init_exponents (ex : exponents) : option (outcome exponents) :=
  if init_done ex then Some (Returns ex)
  else
    let? ex := ofold init_step (seq 0 maxN) (Exponents [] [] [] [] false) in
    Some (Returns (Exponents (ex_Hi ex) (ex_Gi ex) (ex_Hprecomp ex) (ex_Gprecomp ex) true)).

(** ** The code: vectors *)

Definition vector_exponent (ex : exponents) (a b : list key) : option (outcome key) :=
  let? _ := check_throw (List.length a =? List.length b)%nat "Incompatible sizes of a and b" in
  let? _ := check_throw (List.length a <=? maxN)%nat "Incompatible sizes of a and maxN" in
  ofold (fun res i =>
    let! x := nth_error a i in
    let! y := nth_error b i in
    let! gp := nth_error (ex_Gprecomp ex) i in
    let! hp := nth_error (ex_Hprecomp ex) i in
    let! term := addKeys3_dsmp x gp y hp in
    addKeys res term) (seq 0 (List.length a)) identity.

Definition vector_exponent_custom (A B a b : list key) : option (outcome key) :=
  let? _ := check_throw (List.length A =? List.length B)%nat "Incompatible sizes of A and B" in
  let? _ := check_throw (List.length a =? List.length b)%nat "Incompatible sizes of a and b" in
  let? _ := check_throw (List.length a =? List.length A)%nat "Incompatible sizes of a and A" in
  let? _ := check_throw (List.length a <=? maxN)%nat "Incompatible sizes of a and maxN" in
  ofold (fun res i =>
    let! Ai := nth_error A i in
    let! Bi := nth_error B i in
    let! x := nth_error a i in
    let! y := nth_error b i in
    let? Bcache := precomp Bi in
    let? term := addKeys3 x Ai y Bcache in
    addKeys res term) (seq 0 (List.length a)) identity.

Definition vector_powers (x : key) (n : nat) : option (list key) :=
  if (n =? 0)%nat then Some []
  else if (n =? 1)%nat then Some [identity]
  else
    foldM (fun res i =>
      let! p := nth_error res (i - 1) in
      let! q := sc_mul p x in
      Some (res ++ [q])) (seq 2 (n - 2)) [identity; x].

Definition inner_product (a b : list key) : option (outcome key) :=
  let? _ := check_throw (List.length a =? List.length b)%nat "Incompatible sizes of a and b" in
  ofold (fun res i =>
    let! x := nth_error a i in
    let! y := nth_error b i in
    let! res := sc_muladd x y res in
    Some (Returns res)) (seq 0 (List.length a)) zero.

Definition hadamard (a b : list key) : option (outcome (list key)) :=
  let? _ := check_throw (List.length a =? List.length b)%nat "Incompatible sizes of a and b" in
  zip_keys sc_mul a b.

Definition hadamard2 (a b : list key) : option (outcome (list key)) :=
  let? _ := check_throw (List.length a =? List.length b)%nat "Incompatible sizes of a and b" in
  omapM (fun i => let! x := nth_error a i in let! y := nth_error b i in addKeys x y) (seq 0 (List.length a)).

Definition vector_add (a b : list key) : option (outcome (list key)) :=
  let? _ := check_throw (List.length a =? List.length b)%nat "Incompatible sizes of a and b" in
  zip_keys sc_add a b.

Definition vector_subtract (a b : list key) : option (outcome (list key)) :=
  let? _ := check_throw (List.length a =? List.length b)%nat "Incompatible sizes of a and b" in
  zip_keys sc_sub a b.

Definition vector_scalar (a : list key) (x : key) : option (list key) := mapM (fun y => sc_mul y x) a.

Definition vector_scalar2 (a : list key) (x : key) : option (outcome (list key)) :=
  omapM (fun P => scalarmultKey P x) a.

Definition slice (a : list key) (start stop : nat) : option (outcome (list key)) :=
  let? _ := check_throw (start <? List.length a)%nat "Invalid start index" in
  let? _ := check_throw (stop <=? List.length a)%nat "Invalid stop index" in
  let? _ := check_throw (start <? stop)%nat "Invalid start/stop indices" in
  Some (Returns (firstn (stop - start) (skipn start a))).

Definition oneN : option (list key) := vector_powers identity maxN.
Definition twoN : option (list key) := vector_powers TWO maxN.
Definition ip12 : option (outcome key) :=
  let! oneN := oneN in
  let! twoN := twoN in
  inner_product oneN twoN.

(** ** The code: inverses and challenges *)

Definition switch_endianness (k : key) : key := rev k.

Definition invert (x : key) : option (outcome key) :=
  let X := BN_bin2bn (switch_endianness x) in
  let L := BN_bin2bn (switch_endianness curveOrder) in
  match BN_mod_inverse X L with
  | None => Some (Throws "Failed to invert")
  | Some inv =>
      let len := BN_num_bytes inv in
      let? _ := check_throw (len <=? 32)%nat "Invalid number length" in
      Some (Returns (rev (BN_bn2bin inv) ++ skipn len zero))
  end.

(** The new [hash_cache], which is also the value. *)
Definition hash_cache_mash (hash_cache : key) (mash : list key) : option key :=
  hash_to_scalar_keyV (hash_cache :: mash).

(** ** The code: the prover *)

(** One round of the loop: the elements of the two arrays at an index. *)
Definition prove_bit (sv : key) (i : nat) : option (key * key) :=
  let! b := nth_error sv (i / 8) in
  let aL := if Z.land b (Z.shiftl 1 (Z.of_nat i mod 8)) =? 0 then zero else identity in
  let! aR := sc_sub aL identity in
  Some (aL, aR).

(** The arrays of the inner product argument, the points [L] and [R] so far, and [hash_cache]. *)
Record ip_state := IpState {
  ip_G : list key;
  ip_H : list key;
  ip_a : list key;
  ip_b : list key;
  ip_L : list key;
  ip_R : list key;
  ip_cache : key }.

(** The body of the loop, with the halved [nprime]. *)
Definition prove_round (x_ip : key) (nprime : nat) (st : ip_state) : option (outcome ip_state) :=
  let? a1 := slice (ip_a st) 0 nprime in
  let? a2 := slice (ip_a st) nprime (List.length (ip_a st)) in
  let? b1 := slice (ip_b st) 0 nprime in
  let? b2 := slice (ip_b st) nprime (List.length (ip_b st)) in
  let? G1 := slice (ip_G st) 0 nprime in
  let? G2 := slice (ip_G st) nprime (List.length (ip_G st)) in
  let? H1 := slice (ip_H st) 0 nprime in
  let? H2 := slice (ip_H st) nprime (List.length (ip_H st)) in
  let? cL := inner_product a1 b2 in
  let? cR := inner_product a2 b1 in
  let? L := vector_exponent_custom G2 H1 a1 b2 in
  let! tmp := sc_mul cL x_ip in
  let? tH := scalarmultKey rct_H tmp in
  let? L := addKeys L tH in
  let? R := vector_exponent_custom G1 H2 a2 b1 in
  let! tmp := sc_mul cR x_ip in
  let? tH := scalarmultKey rct_H tmp in
  let? R := addKeys R tH in
  let! w := hash_cache_mash (ip_cache st) [L; R] in
  let? winv := invert w in
  let? G1 := vector_scalar2 G1 winv in
  let? G2 := vector_scalar2 G2 w in
  let? Gprime := hadamard2 G1 G2 in
  let? H1 := vector_scalar2 H1 w in
  let? H2 := vector_scalar2 H2 winv in
  let? Hprime := hadamard2 H1 H2 in
  let! a1 := vector_scalar a1 w in
  let! a2 := vector_scalar a2 winv in
  let? aprime := vector_add a1 a2 in
  let! b1 := vector_scalar b1 winv in
  let! b2 := vector_scalar b2 w in
  let? bprime := vector_add b1 b2 in
  Some (Returns (IpState Gprime Hprime aprime bprime (ip_L st ++ [L]) (ip_R st ++ [R]) w)).

(** [while (nprime > 1)]; [nprime] reaches 1 before the fuel ends. *)
Fixpoint prove_rounds (fuel : nat) (x_ip : key) (nprime : nat) (st : ip_state) : option (outcome ip_state) :=
  if (1 <? nprime)%nat then
    match fuel with
    | O => None
    | S fuel =>
        let nprime := (nprime / 2)%nat in
        let? st := prove_round x_ip nprime st in
        prove_rounds fuel x_ip nprime st
    end
  else Some (Returns st).

(** [Hprime[i] = scalarmultKey(Hi[i], yinvpow); yinvpow *= yinv;] *)
Definition prove_H (Hi : list key) (yinv : key) (st : list key * key) (i : nat) : option (outcome (list key * key)) :=
  let '(Hprime, yinvpow) := st in
  let! h := nth_error Hi i in
  let? h := scalarmultKey h yinvpow in
  let! yinvpow := sc_mul yinvpow yinv in
  Some (Returns (Hprime ++ [h], yinvpow)).

(** Paper lines 38 to 42: a vector commitment with a random mask. *)
Definition prove_commit (ex : exponents) (a b : list key) (r : rng) : option (outcome (key * key * rng)) :=
  let! '(k, r) := skGen r in
  let? ve := vector_exponent ex a b in
  let! kG := scalarmultBase k in
  let? P := addKeys ve kG in
  Some (Returns (k, P, r)).

(** The coefficients of the polynomial and the vectors they are made of. *)
Record bp_poly := BpPoly {
  po_t0 : key;
  po_t1 : key;
  po_t2 : key;
  po_yN : list key;
  po_zsq : key;
  po_2zsq : list key;
  po_aL : list key;
  po_aR : list key }.

(** Up to paper line 46. *)
Definition prove_poly (sv : key) (aL aR sL sR : list key) (y z : key) : option (outcome bp_poly) :=
  let! oneN := oneN in
  let! yN := vector_powers y 64 in
  let? ip1y := inner_product oneN yN in
  let! t0 := sc_muladd z ip1y zero in
  let! zsq := sc_mul z z in
  let! t0 := sc_muladd zsq sv t0 in
  let! k := sc_mulsub zsq ip1y zero in
  let! zcu := sc_mul zsq z in
  let? ip12 := ip12 in
  let! k := sc_mulsub zcu ip12 k in
  let! t0 := sc_add t0 k in
  let? HyNsR := hadamard yN sR in
  let! vpIz := vector_scalar oneN z in
  let! twoN := twoN in
  let! vp2zsq := vector_scalar twoN zsq in
  let? aL_vpIz := vector_subtract aL vpIz in
  let? aR_vpIz := vector_add aR vpIz in
  let? ip1 := inner_product aL_vpIz HyNsR in
  let! t1 := sc_add zero ip1 in
  let? v := hadamard yN aR_vpIz in
  let? v := vector_add v vp2zsq in
  let? ip2 := inner_product sL v in
  let! t1 := sc_add t1 ip2 in
  let? ip3 := inner_product sL HyNsR in
  let! t2 := sc_add zero ip3 in
  Some (Returns (BpPoly t0 t1 t2 yN zsq vp2zsq aL_vpIz aR_vpIz)).

(** Paper lines 47 and 48: the commitment to a coefficient. *)
Definition prove_coef (t tau : key) : option (outcome key) :=
  let? tH := scalarmultKey rct_H t in
  let! tG := scalarmultBase tau in
  addKeys tH tG.

(** Paper lines 54 to 57: the vectors at the challenge, and their inner product. *)
Definition prove_eval (po : bp_poly) (sL sR : list key) (x : key) : option (outcome (list key * list key * key)) :=
  let! v := vector_scalar sL x in
  let? l := vector_add (po_aL po) v in
  let! v := vector_scalar sR x in
  let? v := vector_add (po_aR po) v in
  let? v := hadamard (po_yN po) v in
  let? rv := vector_add v (po_2zsq po) in
  let? t := inner_product l rv in
  Some (Returns (l, rv, t)).

(** From paper line 13 on. *)
Definition prove_inner (ex : exponents) (y x_ip : key) (l rv : list key) : option (outcome ip_state) :=
  let? yinv := invert y in
  let? '(Hprime, _) := ofold (prove_H (ex_Hi ex) yinv) (seq 0 64) ([], identity) in
  prove_rounds 6 x_ip 64 (IpState (firstn 64 (ex_Gi ex)) Hprime l rv [] [] x_ip).

Definition bulletproof_PROVE (ex : exponents) (sv gamma : key) (r : rng) : option (outcome (Bulletproof * rng)) :=
  let? ex := init_exponents ex in
  let? V := addKeys2 gamma sv rct_H in
  let! bits := mapM (prove_bit sv) (seq 0 64) in
  let aL := map fst bits in
  let aR := map snd bits in
  let! hash_cache := hash_to_scalar_key V in
  let? '(alpha, A, r) := prove_commit ex aL aR r in
  let? '(sL, r) := skvGen 64 r in
  let? '(sR, r) := skvGen 64 r in
  let? '(rho, Sk, r) := prove_commit ex sL sR r in
  let! y := hash_cache_mash hash_cache [A; Sk] in
  let! z := hash_to_scalar_key y in
  let? po := prove_poly sv aL aR sL sR y z in
  let! '(tau1, r) := skGen r in
  let! '(tau2, r) := skGen r in
  let? T1 := prove_coef (po_t1 po) tau1 in
  let? T2 := prove_coef (po_t2 po) tau2 in
  let! x := hash_cache_mash z [z; T1; T2] in
  let! taux := sc_mul tau1 x in
  let! xsq := sc_mul x x in
  let! taux := sc_muladd tau2 xsq taux in
  let! taux := sc_muladd gamma (po_zsq po) taux in
  let! mu := sc_muladd x rho alpha in
  let? '(l, rv, t) := prove_eval po sL sR x in
  let! x_ip := hash_cache_mash x [x; taux; mu; t] in
  let? st := prove_inner ex y x_ip l rv in
  let! a := nth_error (ip_a st) 0 in
  let! b := nth_error (ip_b st) 0 in
  Some (Returns (BulletProof [V] A Sk T1 T2 taux mu (ip_L st) (ip_R st) a b t, r)).

(** [sv.bytes[i] = (v >> 8 * i) & 255] for the first 8 bytes *)
Definition amount_key (v : Z) : key :=
  map (fun i => Z.land (Z.shiftr v (8 * Z.of_nat i)) 255) (seq 0 8) ++ repeat 0 24.

Definition bulletproof_PROVE_amount (ex : exponents) (v : Z) (gamma : key) (r : rng) : option (outcome (Bulletproof * rng)) :=
  bulletproof_PROVE ex (amount_key v) gamma r.

(** ** The code: the verifier *)

(** The factor of one bit of the index. *)
Definition verify_factor (w winv : list key) (i : nat) (gh : key * key) (j : nat) : option (key * key) :=
  let '(g, h) := gh in
  let J := (List.length w - j - 1)%nat in
  let! wj := nth_error w J in
  let! wij := nth_error winv J in
  if Z.land (Z.of_nat i) (Z.shiftl 1 (Z.of_nat j)) =? 0 then
    let! g := sc_mul g wij in
    let! h := sc_mul h wj in
    Some (g, h)
  else
    let! g := sc_mul g wj in
    let! h := sc_mul h wij in
    Some (g, h).

(** The body of the loop over the generators: [inner_prod], [yinvpow] and [ypow]. *)
Definition verify_step (ex : exponents) (twoN : list key) (a b y yinv z zsq : key) (w winv : list key) (N : nat)
    (st : key * key * key) (i : nat) : option (outcome (key * key * key)) :=
  let '(inner_prod, yinvpow, ypow) := st in
  let! h_scalar := sc_mul b yinvpow in
  let! '(g_scalar, h_scalar) := foldM (verify_factor w winv i) (rev (seq 0 (List.length w))) (a, h_scalar) in
  let! g_scalar := sc_add g_scalar z in
  let! two := nth_error twoN i in
  let! tmp := sc_mul zsq two in
  let! tmp := sc_muladd z ypow tmp in
  let! h_scalar := sc_mulsub tmp yinvpow h_scalar in
  let! gp := nth_error (ex_Gprecomp ex) i in
  let! hp := nth_error (ex_Hprecomp ex) i in
  let! tmp := addKeys3_dsmp g_scalar gp h_scalar hp in
  let? inner_prod := addKeys inner_prod tmp in
  if negb (i =? N - 1)%nat then
    let! yinvpow := sc_mul yinvpow yinv in
    let! ypow := sc_mul ypow y in
    Some (Returns (inner_prod, yinvpow, ypow))
  else Some (Returns (inner_prod, yinvpow, ypow)).

(** [w[i] = hash_cache_mash(hash_cache, L[i], R[i]);] *)
Definition verify_challenge (L R : list key) (st : list key * key) (i : nat) : option (list key * key) :=
  let '(w, hash_cache) := st in
  let! l := nth_error L i in
  let! r := nth_error R i in
  let! h := hash_cache_mash hash_cache [l; r] in
  Some (w ++ [h], h).

(** [pprime += w[i]^2 L[i] + winv[i]^2 R[i];] *)
Definition verify_fold (L R w winv : list key) (pprime : key) (i : nat) : option (outcome key) :=
  let! wi := nth_error w i in
  let! wvi := nth_error winv i in
  let! tmp := sc_mul wi wi in
  let! tmp2 := sc_mul wvi wvi in
  let! l := nth_error L i in
  let! r := nth_error R i in
  let? cacheL := precomp l in
  let? cacheR := precomp r in
  let! tmp := addKeys3_dsmp tmp cacheL tmp2 cacheR in
  addKeys pprime tmp.

(** Paper line 61: whether the two sides are equal. *)
Definition verify_line61 (proof : Bulletproof) (V y z x : key) (N : nat) : option (outcome bool) :=
  let! tG := scalarmultBase (bp_taux proof) in
  let? tH := scalarmultKey rct_H (bp_t proof) in
  let? L61Left := addKeys tG tH in
  let! oneN := oneN in
  let! yN := vector_powers y N in
  let? ip1y := inner_product oneN yN in
  let! zsq := sc_mul z z in
  let! k := sc_mulsub zsq ip1y zero in
  let! zcu := sc_mul zsq z in
  let? ip12 := ip12 in
  let! k := sc_mulsub zcu ip12 k in
  let! tmp := sc_muladd z ip1y k in
  let? L61Right := scalarmultKey rct_H tmp in
  let? tmp := scalarmultKey V zsq in
  let? L61Right := addKeys L61Right tmp in
  let? tmp := scalarmultKey (bp_T1 proof) x in
  let? L61Right := addKeys L61Right tmp in
  let! xsq := sc_mul x x in
  let? tmp := scalarmultKey (bp_T2 proof) xsq in
  let? L61Right := addKeys L61Right tmp in
  Some (Returns (key_eqb L61Right L61Left)).

(** Paper lines 24 to 26: [pprime], from [P]. *)
Definition verify_pprime (proof : Bulletproof) (w winv : list key) (x_ip P : key) : option (outcome key) :=
  let! tmp := sc_sub zero (bp_mu proof) in
  let! mG := scalarmultBase tmp in
  let? pprime := addKeys P mG in
  let? pprime := ofold (verify_fold (bp_L proof) (bp_R proof) w winv) (seq 0 (List.length (bp_L proof))) pprime in
  let! tmp := sc_mul (bp_t proof) x_ip in
  let? tH := scalarmultKey rct_H tmp in
  addKeys pprime tH.

(** From paper line 62 on. *)
Definition verify_inner (ex : exponents) (proof : Bulletproof) (y z x x_ip : key) (N : nat) : option (outcome bool) :=
  let? xS := scalarmultKey (bp_S proof) x in
  let? P := addKeys (bp_A proof) xS in
  let! '(w, hash_cache) := foldM (verify_challenge (bp_L proof) (bp_R proof)) (seq 0 (List.length (bp_L proof))) ([], x_ip) in
  let? yinv := invert y in
  let? winv := omapM invert w in
  let! twoN := twoN in
  let! zsq := sc_mul z z in
  let? '(inner_prod, _, _) :=
    ofold (verify_step ex twoN (bp_a proof) (bp_b proof) y yinv z zsq w winv N) (seq 0 N) (identity, identity, identity) in
  let? pprime := verify_pprime proof w winv x_ip P in
  let! tmp := sc_mul (bp_a proof) (bp_b proof) in
  let! tmp := sc_mul tmp x_ip in
  let? tmp := scalarmultKey rct_H tmp in
  let? tmp := addKeys tmp inner_prod in
  Some (Returns (key_eqb pprime tmp)).

Definition bulletproof_VERIFY (ex : exponents) (proof : Bulletproof) : option (outcome bool) :=
  let? ex := init_exponents ex in
  if negb (List.length (bp_V proof) =? 1)%nat then Some (Returns false)
  else if negb (List.length (bp_L proof) =? List.length (bp_R proof))%nat then Some (Returns false)
  else if negb (0 <? List.length (bp_L proof))%nat then Some (Returns false)
  else if negb (List.length (bp_L proof) =? 6)%nat then Some (Returns false)
  else
    let! V := nth_error (bp_V proof) 0 in
    let N := (2 ^ List.length (bp_L proof))%nat in
    let! hash_cache := hash_to_scalar_key V in
    let! y := hash_cache_mash hash_cache [bp_A proof; bp_S proof] in
    let! z := hash_to_scalar_key y in
    let! x := hash_cache_mash z [z; bp_T1 proof; bp_T2 proof] in
    let! x_ip := hash_cache_mash x [x; bp_taux proof; bp_mu proof; bp_t proof] in
    let? ok := verify_line61 proof V y z x N in
    if negb ok then Some (Returns false)
    else verify_inner ex proof y z x x_ip N.
End Bulletproofs.

(** ** Keys as scalars *)

(** The key [k] stands for the number [v] modulo the order. *)
Definition sval (k : key) (v : Z) : Prop := scalar255 k /\ le_val k mod ell = v mod ell.

Create HintDb sval.

Lemma scalar255_scalar k : scalar255 k -> scalar k.
Proof. intros (Hb & Hl & _). now split. Qed.

Lemma sval_enc v : sval (enc_scalar v) v.
Proof. split; [apply reduced_255, enc_scalar_reduced|]. rewrite le_val_enc_scalar. apply Z.mod_mod. discriminate. Qed.

Lemma sval_val k : scalar255 k -> sval k (le_val k).
Proof. intros H. now split. Qed.

Lemma sval_scalar k v : sval k v -> scalar k.
Proof. intros [H _]. now apply scalar255_scalar. Qed.

#[export] Hint Resolve sval_enc sval_scalar : sval.

Lemma mod_add_cong a b a' b' m : a mod m = a' mod m -> b mod m = b' mod m -> (a + b) mod m = (a' + b') mod m.
Proof. intros Ea Eb. now rewrite Zplus_mod, Ea, Eb, <- Zplus_mod. Qed.

Lemma mod_sub_cong a b a' b' m : a mod m = a' mod m -> b mod m = b' mod m -> (a - b) mod m = (a' - b') mod m.
Proof. intros Ea Eb. now rewrite Zminus_mod, Ea, Eb, <- Zminus_mod. Qed.

Lemma mod_mul_cong a b a' b' m : a mod m = a' mod m -> b mod m = b' mod m -> (a * b) mod m = (a' * b') mod m.
Proof. intros Ea Eb. now rewrite Zmult_mod, Ea, Eb, <- Zmult_mod. Qed.

Lemma sc_add_val a b v w : sval a v -> sval b w -> sc_add a b = Some (enc_scalar (v + w)).
Proof.
  intros Ha Hb. rewrite sc_add_enc by eauto with sval. f_equal. apply enc_scalar_cong, mod_add_cong; [apply Ha | apply Hb].
Qed.

Lemma sc_sub_val a b v w : sval a v -> sval b w -> sc_sub a b = Some (enc_scalar (v - w)).
Proof.
  intros Ha Hb. rewrite sc_sub_enc by eauto with sval. f_equal. apply enc_scalar_cong, mod_sub_cong; [apply Ha | apply Hb].
Qed.

Lemma sc_mul_val a b v w : sval a v -> sval b w -> sc_mul a b = Some (enc_scalar (v * w)).
Proof.
  intros Ha Hb. rewrite (canonical_some _ _ (sc_mul_spec a b (sval_scalar _ _ Ha) (sval_scalar _ _ Hb))). f_equal.
  apply enc_scalar_cong, mod_mul_cong; [apply Ha | apply Hb].
Qed.

Lemma sc_muladd_val a b c u v w : sval a u -> sval b v -> sval c w -> sc_muladd a b c = Some (enc_scalar (w + u * v)).
Proof.
  intros Ha Hb Hc. rewrite (canonical_some _ _ (sc_muladd_spec a b c (sval_scalar _ _ Ha) (sval_scalar _ _ Hb) (sval_scalar _ _ Hc))).
  f_equal. apply enc_scalar_cong, mod_add_cong; [apply Hc | apply mod_mul_cong; [apply Ha | apply Hb]].
Qed.

Lemma sc_mulsub_val a b c u v w : sval a u -> sval b v -> sval c w -> sc_mulsub a b c = Some (enc_scalar (w - u * v)).
Proof.
  intros Ha Hb Hc. rewrite sc_mulsub_enc by eauto with sval. f_equal.
  apply enc_scalar_cong, mod_sub_cong; [apply Hc | apply mod_mul_cong; [apply Ha | apply Hb]].
Qed.

Lemma identity_enc : identity = enc_scalar 1.
Proof. destruct identity_scalar as [Hs E]. rewrite (enc_scalar_val identity Hs); rewrite E; reflexivity. Qed.

Lemma TWO_enc : TWO = enc_scalar 2.
Proof. Transparent enc_scalar. reflexivity. Opaque enc_scalar. Qed.

(** ** Multiples of points *)

Lemma mul_val P k v : in_subgroup P -> sval k v -> ed_mul (le_val k) P = ed_mul v P.
Proof. intros HP [_ E]. now apply ed_mul_mod. Qed.

Lemma scalarmultKey_val P k v : in_subgroup P -> sval k v -> scalarmultKey (encode P) k = Some (Returns (encode (ed_mul v P))).
Proof. intros HP Hk. rewrite scalarmultKey_enc by (apply HP || apply Hk). now rewrite (mul_val P k v). Qed.

Lemma scalarmultBase_val k v : sval k v -> scalarmultBase k = Some (encode (ed_mul v base_point)).
Proof. intros Hk. rewrite scalarmultBase_enc by eauto with sval. now rewrite (mul_val _ k v base_in_subgroup Hk). Qed.

Lemma scalarmultH_val k v : sval k v -> scalarmultKey rct_H k = Some (Returns (encode (ed_mul v H_point))).
Proof. intros Hk. rewrite H_encode. exact (scalarmultKey_val H_point k v H_in_subgroup Hk). Qed.

Lemma addKeys3_dsmp_enc a A b B Ai Bi :
  scalar255 a -> on_curve A -> odd_table A Ai -> scalar255 b -> on_curve B -> odd_table B Bi ->
  addKeys3_dsmp a Ai b Bi = Some (encode (lin (le_val a) A (le_val b) B)).
Proof.
  intros Ha HA HAi Hb HB HBi. apply returns_eq. unfold addKeys3_dsmp.
  eapply returns_bind; [now apply (double_precomp2_spec a Ai A b Bi B)|]. intros p Hp. now rewrite (tobytes_encode p _ Hp).
Qed.

Lemma lin_val P Q k l v w :
  in_subgroup P -> in_subgroup Q -> sval k v -> sval l w -> lin (le_val k) P (le_val l) Q = lin v P w Q.
Proof. intros HP HQ Hk Hl. unfold lin. now rewrite (mul_val P k v), (mul_val Q l w). Qed.

(** ** Vectors *)

Definition vec (n : nat) (f : nat -> Z) : list key := map (fun i => enc_scalar (f i)) (seq 0 n).

Definition pvec (n : nat) (P : nat -> point) : list key := map (fun i => encode (P i)) (seq 0 n).

Lemma length_vec n f : List.length (vec n f) = n.
Proof. unfold vec. now rewrite length_map, length_seq. Qed.

Lemma length_pvec n P : List.length (pvec n P) = n.
Proof. unfold pvec. now rewrite length_map, length_seq. Qed.

Lemma nth_error_map_seq {A} (f : nat -> A) n i : (i < n)%nat -> nth_error (map f (seq 0 n)) i = Some (f i).
Proof. intros Hi. rewrite nth_error_map, nth_error_seq. now rewrite (proj2 (Nat.ltb_lt i n) Hi). Qed.

Lemma nth_vec n f i : (i < n)%nat -> nth_error (vec n f) i = Some (enc_scalar (f i)).
Proof. exact (nth_error_map_seq (fun i => enc_scalar (f i)) n i). Qed.

Lemma nth_pvec n P i : (i < n)%nat -> nth_error (pvec n P) i = Some (encode (P i)).
Proof. exact (nth_error_map_seq (fun i => encode (P i)) n i). Qed.

Lemma map_seq_S {A} (f : nat -> A) n : map f (seq 0 (S n)) = map f (seq 0 n) ++ [f n].
Proof. now rewrite seq_S, map_app. Qed.

Lemma vec_ext n f g : (forall i, (i < n)%nat -> f i mod ell = g i mod ell) -> vec n f = vec n g.
Proof. intros H. apply map_ext_in. intros i Hi%in_seq. apply enc_scalar_cong, H. lia. Qed.

Lemma pvec_ext n P Q : (forall i, (i < n)%nat -> P i = Q i) -> pvec n P = pvec n Q.
Proof. intros H. apply map_ext_in. intros i Hi%in_seq. f_equal. apply H. lia. Qed.

(** Keys that are reduced are a vector. *)
Lemma reduced_vec ks : Forall reduced_scalar ks -> ks = vec (List.length ks) (fun i => le_val (nth i ks [])).
Proof.
  intros H. apply nth_error_ext. intros i. destruct (le_lt_dec (List.length ks) i) as [L|L].
  - rewrite !(proj2 (nth_error_None _ _)); [reflexivity | now rewrite length_vec | exact L].
  - rewrite nth_vec by exact L. rewrite (nth_error_nth' ks [] L). f_equal.
    pose proof (proj1 (Forall_forall _ _) H _ (nth_In ks [] L)) as [Hs Hl]. now apply enc_scalar_val.
Qed.

Lemma check_true {A} what (k : unit -> option (outcome A)) : obind (check_throw true what) k = k tt.
Proof. reflexivity. Qed.

Lemma slice_low {A} (f : nat -> A) n m : firstn n (map f (seq 0 (n + m))) = map f (seq 0 n).
Proof. rewrite seq_app, map_app, firstn_app, length_map, length_seq, Nat.sub_diag. cbn [firstn]. rewrite app_nil_r. apply firstn_all2. now rewrite length_map, length_seq. Qed.

Lemma slice_high {A} (f : nat -> A) n m : skipn n (map f (seq 0 (n + m))) = map (fun i => f (n + i)%nat) (seq 0 m).
Proof.
  rewrite seq_app, map_app, skipn_app, length_map, length_seq, Nat.sub_diag. cbn [skipn].
  rewrite skipn_all2 by (now rewrite length_map, length_seq). cbn [app].
  now rewrite Nat.add_0_l, seq_plus, map_map.
Qed.

(** The halves of an array of [2 n] elements. *)
Lemma slice_first (f : nat -> key) n :
  (0 < n)%nat -> slice (map f (seq 0 (n + n))) 0 n = Some (Returns (map f (seq 0 n))).
Proof.
  intros Hn. unfold slice. rewrite length_map, length_seq, (proj2 (Nat.ltb_lt 0 (n + n))), (proj2 (Nat.leb_le n (n + n))), (proj2 (Nat.ltb_lt 0 n)) by lia.
  rewrite !check_true, Nat.sub_0_r. cbn [skipn]. now rewrite slice_low.
Qed.

Lemma slice_second (f : nat -> key) n :
  (0 < n)%nat -> slice (map f (seq 0 (n + n))) n (List.length (map f (seq 0 (n + n)))) = Some (Returns (map (fun i => f (n + i)%nat) (seq 0 n))).
Proof.
  intros Hn. unfold slice. rewrite length_map, length_seq, (proj2 (Nat.ltb_lt n (n + n))), (proj2 (Nat.leb_le (n + n) (n + n))) by lia.
  rewrite !check_true, slice_high. replace (n + n - n)%nat with n by lia. do 2 f_equal. apply firstn_all2. now rewrite length_map, length_seq.
Qed.

Lemma zip_keys_vec op n f g h :
  (forall i, (i < n)%nat -> op (enc_scalar (f i)) (enc_scalar (g i)) = Some (enc_scalar (h i))) ->
  zip_keys op (vec n f) (vec n g) = Some (Returns (vec n h)).
Proof.
  intros H. unfold zip_keys. rewrite length_vec, (mapM_map _ (fun i => enc_scalar (h i))); [reflexivity|].
  intros i Hi%in_seq. rewrite !nth_vec by lia. cbn [bind]. apply H. lia.
Qed.

Lemma hadamard_vec n f g : hadamard (vec n f) (vec n g) = Some (Returns (vec n (fun i => f i * g i))).
Proof.
  unfold hadamard. rewrite !length_vec, Nat.eqb_refl, check_true. apply zip_keys_vec. intros i _. now apply sc_mul_val; apply sval_enc.
Qed.

Lemma vector_add_vec n f g : vector_add (vec n f) (vec n g) = Some (Returns (vec n (fun i => f i + g i))).
Proof.
  unfold vector_add. rewrite !length_vec, Nat.eqb_refl, check_true. apply zip_keys_vec. intros i _. now apply sc_add_val; apply sval_enc.
Qed.

Lemma vector_subtract_vec n f g : vector_subtract (vec n f) (vec n g) = Some (Returns (vec n (fun i => f i - g i))).
Proof.
  unfold vector_subtract. rewrite !length_vec, Nat.eqb_refl, check_true. apply zip_keys_vec. intros i _. now apply sc_sub_val; apply sval_enc.
Qed.

Lemma mapM_map2 {A B C} (g : A -> B) (f : B -> option C) (h : A -> C) l :
  (forall x, In x l -> f (g x) = Some (h x)) -> mapM f (map g l) = Some (map h l).
Proof.
  intros H. induction l as [|x l IH]; cbn [map mapM]; [reflexivity|]. rewrite (H x) by now left. cbn [bind].
  rewrite IH; [reflexivity|]. intros y Hy. apply H. now right.
Qed.

Lemma vector_scalar_vec n f k v : sval k v -> vector_scalar (vec n f) k = Some (vec n (fun i => f i * v)).
Proof. intros Hk. apply mapM_map2. intros i _. apply sc_mul_val; [apply sval_enc | exact Hk]. Qed.

Lemma omapM_map2 {A B C} (g : A -> B) (f : B -> option (outcome C)) (h : A -> C) l :
  (forall x, In x l -> f (g x) = Some (Returns (h x))) -> omapM f (map g l) = Some (Returns (map h l)).
Proof.
  intros H. induction l as [|x l IH]; cbn [map omapM]; [reflexivity|]. rewrite (H x) by now left. cbn [obind].
  rewrite IH; [reflexivity|]. intros y Hy. apply H. now right.
Qed.

Lemma vector_scalar2_vec n P k v :
  (forall i, (i < n)%nat -> in_subgroup (P i)) -> sval k v ->
  vector_scalar2 (pvec n P) k = Some (Returns (pvec n (fun i => ed_mul v (P i)))).
Proof. intros HP Hk. apply omapM_map2. intros i Hi%in_seq. apply scalarmultKey_val; [apply HP; lia | exact Hk]. Qed.

Lemma hadamard2_vec n P Q :
  (forall i, (i < n)%nat -> on_curve (P i)) -> (forall i, (i < n)%nat -> on_curve (Q i)) ->
  hadamard2 (pvec n P) (pvec n Q) = Some (Returns (pvec n (fun i => ed_add (P i) (Q i)))).
Proof.
  intros HP HQ. unfold hadamard2. rewrite !length_pvec, Nat.eqb_refl, check_true.
  pose proof (omapM_map2 (fun i : nat => i) (fun i => let! x := nth_error (pvec n P) i in let! y := nth_error (pvec n Q) i in addKeys x y)
    (fun i => encode (ed_add (P i) (Q i))) (seq 0 n)) as H. rewrite map_id in H. apply H.
  intros i Hi%in_seq. rewrite !nth_pvec by lia. cbn [bind]. apply addKeys_enc; [apply HP | apply HQ]; lia.
Qed.

(** A loop with a known value at each index. *)
Lemma ofold_value {A} (f : A -> nat -> option (outcome A)) (v : nat -> A) n :
  (forall i, (i < n)%nat -> f (v i) i = Some (Returns (v (S i)))) -> ofold f (seq 0 n) (v O) = Some (Returns (v n)).
Proof.
  intros H. apply oreturns_eq. apply (ofold_seq (fun i y => y = v i) f 0 n (v O)); [reflexivity|].
  intros i y Hi ->. apply oreturns_eq, H. lia.
Qed.

Lemma foldM_value {A} (f : A -> nat -> option A) (v : nat -> A) k n :
  (forall i, (k <= i < k + n)%nat -> f (v i) i = Some (v (S i))) -> foldM f (seq k n) (v k) = Some (v (k + n)%nat).
Proof.
  intros H. apply returns_eq. apply (foldM_seq (fun i y => y = v i)); [reflexivity|].
  intros i y Hi ->. now rewrite H.
Qed.

Lemma inner_product_vec n f g :
  inner_product (vec n f) (vec n g) = Some (Returns (enc_scalar (zsum n (fun i => f i * g i)))).
Proof.
  unfold inner_product. rewrite !length_vec, Nat.eqb_refl, check_true, zero_enc.
  apply (ofold_value _ (fun i => enc_scalar (zsum i (fun i => f i * g i))) n). intros i Hi.
  rewrite !nth_vec by exact Hi. cbn [bind]. rewrite (sc_muladd_val _ _ _ (f i) (g i) (zsum i (fun i => f i * g i))) by apply sval_enc.
  reflexivity.
Qed.

Lemma vector_powers_vec x n : (2 <= n)%nat -> vector_powers (enc_scalar x) n = Some (vec n (fun i => x ^ Z.of_nat i)).
Proof.
  intros Hn. unfold vector_powers. rewrite (proj2 (Nat.eqb_neq n 0)), (proj2 (Nat.eqb_neq n 1)) by lia.
  assert ([identity; enc_scalar x] = vec 2 (fun i => x ^ Z.of_nat i)) as ->.
  { unfold vec. cbn [seq map]. now rewrite Z.pow_0_r, Z.pow_1_r, identity_enc. }
  rewrite (foldM_value _ (fun k => vec k (fun i => x ^ Z.of_nat i)) 2 (n - 2)); [do 2 f_equal; lia|].
  intros i Hi. rewrite nth_vec by lia. cbn [bind]. rewrite (sc_mul_val _ _ (x ^ Z.of_nat (i - 1)) x) by apply sval_enc. cbn [bind].
  unfold vec. rewrite map_seq_S. do 3 f_equal. f_equal. replace (Z.of_nat i) with (Z.succ (Z.of_nat (i - 1))) by lia.
  rewrite Z.pow_succ_r by lia. ring.
Qed.

Lemma oneN_vec : oneN = Some (vec 64 (fun _ => 1)).
Proof.
  unfold oneN, maxN. rewrite identity_enc, vector_powers_vec by lia.
  rewrite (vec_ext 64 (fun i => 1 ^ Z.of_nat i) (fun _ => 1)); [reflexivity|]. intros i _. now rewrite Z.pow_1_l by lia.
Qed.

Lemma twoN_vec : twoN = Some (vec 64 (fun i => 2 ^ Z.of_nat i)).
Proof. unfold twoN. rewrite TWO_enc. apply vector_powers_vec. unfold maxN. lia. Qed.

(** The sum of the powers of two. *)
Definition sum_two : Z := zsum 64 (fun i => 2 ^ Z.of_nat i).

Lemma ip12_enc : ip12 = Some (Returns (enc_scalar sum_two)).
Proof.
  unfold ip12. rewrite oneN_vec, twoN_vec, !bind_Some, inner_product_vec. reflexivity.
Qed.

(** ** Inverses *)

(** The inverse modulo the order. *)
Definition inv (x : Z) : Z := Z.invmod x ell.

Lemma inv_ell x : x mod ell <> 0 -> (x * inv x) mod ell = 1.
Proof. unfold inv. intros Hx. rewrite Z.mul_comm. rewrite Z.invmod_prime by (exact ell_prime || exact Hx). reflexivity. Qed.

Lemma curveOrder_val : scalar curveOrder /\ le_val curveOrder = ell.
Proof.
  split; [|reflexivity]. split; [|reflexivity]. unfold curveOrder. repeat (constructor; [unfold is_byte; lia|]). constructor.
Qed.

Lemma bytes_rev s : bytes s -> bytes (rev s).
Proof. intros H. now apply Forall_rev. Qed.

Lemma inverse_unique x i : x mod ell <> 0 -> (x mod ell * i) mod ell = 1 -> i mod ell = inv x mod ell.
Proof.
  intros Hx E. pose proof (inv_ell x Hx) as E'. rewrite Z.mul_mod_idemp_l in E by discriminate.
  transitivity ((x * i * inv x) mod ell).
  - replace (x * i * inv x) with (x * inv x * i) by ring. rewrite <- Z.mul_mod_idemp_l, E' by discriminate. f_equal. ring.
  - rewrite <- Z.mul_mod_idemp_l, E by discriminate. f_equal. ring.
Qed.

Lemma le_val_padded a n : le_val (a ++ repeat 0 n) = le_val a.
Proof.
  rewrite le_val_app, le_val_zeros. ring.
Qed.

Lemma skipn_zeros k n : skipn k (repeat 0 n) = repeat 0 (n - k).
Proof. revert k. induction n as [|n IH]; intros [|k]; cbn [repeat skipn Nat.sub]; trivial. Qed.

Section Invert.
  Context {BN : BigNum}.

(** The inverse, or the exception when there is none. *)
Lemma invert_enc x :
  invert (enc_scalar x) = Some (if x mod ell =? 0 then Throws "Failed to invert" else Returns (enc_scalar (inv x))).
Proof.
  unfold invert, switch_endianness. destruct curveOrder_val as [[HLb HLl] HL]. destruct (enc_scalar_scalar x) as [Hb Hl].
  rewrite !BN_bin2bn_spec, !rev_involutive, HL, le_val_enc_scalar by now apply bytes_rev.
  pose proof ell_bounds as Bl. pose proof (Z.mod_pos_bound x ell ltac:(lia)) as Bx.
  pose proof (BN_mod_inverse_spec (x mod ell) ell ltac:(lia) ltac:(reflexivity)) as HI.
  destruct (Z.eqb_spec (x mod ell) 0) as [E0|N0]; destruct (BN_mod_inverse (x mod ell) ell) as [i|].
  - rewrite E0, Z.mul_0_l, Z.mod_0_l in HI by discriminate. destruct HI as [_ HI]. discriminate HI.
  - reflexivity.
  - destruct HI as [Bi Ei]. pose proof (BN_num_bytes_spec i 32) as Bn. destruct (BN_bn2bin_spec i ltac:(lia)) as (Bb & Bl32 & Bv).
    assert (BN_num_bytes i <= 32)%nat as L by (apply Bn; change (256 ^ Z.of_nat 32) with (2 ^ 256); lia).
    rewrite (proj2 (Nat.leb_le _ _) L), check_true. do 2 f_equal.
    assert (enc_scalar i = rev (BN_bn2bin i) ++ skipn (BN_num_bytes i) zero) as <-.
    { unfold zero. rewrite skipn_zeros. set (b := rev (BN_bn2bin i)). fold b in Bv. assert (List.length b = BN_num_bytes i) as Lb by (now unfold b; rewrite length_rev).
      symmetry. assert (i = le_val (b ++ repeat 0 (32 - BN_num_bytes i))) as E by (now rewrite le_val_padded). rewrite E at 2. apply enc_scalar_val; [|rewrite le_val_padded, Bv; apply Bi].
      split; [|rewrite length_app, repeat_length, Lb; lia]. apply bytes_app; [now apply bytes_rev|].
      apply Forall_forall. intros c Hc%repeat_spec. subst c. unfold is_byte. lia. }
    apply enc_scalar_cong. now apply inverse_unique.
  - exfalso. apply HI. rewrite Z.gcd_comm. apply Z.coprime_prime_small; [exact ell_prime | lia].
Qed.
End Invert.
