(* ===== verification/BpCorrect.v ===== *)
(** * Correctness of bulletproofs

    The generators; the inner product argument, round by round; the two equations that the
    verifier of bulletproofs.cc checks, with the folded generators computed by a recursion in
    place of the unrolled products of the code; and the completeness of the prover. *)

From Stdlib Require Import ZArith Lia List Bool String.
From S2P Require Import Prelude Bytes Fe FeMul Primes ScReduce Sc Curve Ge GeBytes GeScalar GeBase GeDouble GeHash.
From S2P Require Import Keccak TreeHash Order Varint Random Encode KeyOps Signature RingSig RctTypes RctTable RctOps Borromean Linear Bulletproofs.
Import ListNotations.

#[local] Open Scope Z_scope.
#[local] Open Scope list_scope.
#[local] Opaque ed_mul ed_add ed_opp base_point encode enc_scalar point_code H_point rct_H ell.
#[local] Opaque addKeys addKeys2 addKeys3 addKeys3_dsmp scalarmultKey scalarmultBase precomp hashToPoint.
#[local] Opaque sc_add sc_sub sc_mul sc_muladd sc_mulsub inner_product hadamard hadamard2 vector_add vector_subtract vector_scalar vector_scalar2 invert.

(** ** Generators *)

Section Generators.
  Context {FH : FastHash}.

Definition gen_hash (idx : Z) : key :=
  let hashed := rct_H ++ salt ++ match write_varint idx with Some v => v | None => [] end in
  match fast_hash hashed (List.length hashed) with Some h => h | None => [] end.

(** The points that [get_exponent] gives. *)
Definition gen (idx : Z) : point := Hp (gen_hash idx).

Definition gen_H (i : nat) : point := gen (Z.of_nat i * 2).
Definition gen_G (i : nat) : point := gen (Z.of_nat i * 2 + 1).

Lemma rct_H_scalar : scalar rct_H.
Proof. rewrite H_encode. apply encode_scalar. Qed.

Lemma salt_bytes : bytes salt.
Proof. repeat (constructor; [unfold is_byte; lia|]). constructor. Qed.

Lemma gen_hash_scalar idx : 0 <= idx < 2 ^ 64 -> scalar (gen_hash idx) /\ get_exponent rct_H idx = Some (encode (gen idx)).
Proof.
  intros Hi. unfold get_exponent, gen, gen_hash. destruct (write_varint_ok idx Hi) as (v & -> & Hv & _). cbn [bind].
  pose proof (fast_hash_total (rct_H ++ salt ++ v)) as H.
  specialize (H (bytes_app _ _ (proj1 rct_H_scalar) (bytes_app _ _ salt_bytes Hv))).
  destruct (fast_hash (rct_H ++ salt ++ v) _) as [h|]; [|contradiction]. cbn [bind returns] in *.
  split; [exact H|]. now apply hashToPoint_enc.
Qed.

Lemma gen_subgroup idx : 0 <= idx < 2 ^ 64 -> in_subgroup (gen idx).
Proof. intros Hi. apply Hp_subgroup, gen_hash_scalar, Hi. Qed.

Lemma gen_G_subgroup i : (i < 64)%nat -> in_subgroup (gen_G i).
Proof. intros Hi. apply gen_subgroup. lia. Qed.

Lemma gen_H_subgroup i : (i < 64)%nat -> in_subgroup (gen_H i).
Proof. intros Hi. apply gen_subgroup. lia. Qed.

(** The arrays hold the first [n] generators. *)
Definition filled (n : nat) (ex : exponents) : Prop :=
  ex_Hi ex = pvec n gen_H /\ ex_Gi ex = pvec n gen_G /\
  List.length (ex_Hprecomp ex) = n /\ List.length (ex_Gprecomp ex) = n /\
  forall i, (i < n)%nat -> odd_table (gen_H i) (nth i (ex_Hprecomp ex) []) /\ odd_table (gen_G i) (nth i (ex_Gprecomp ex) []).

(** The states of the static variables: not initialised, or initialised. *)
Definition exponents_ok (ex : exponents) : Prop := init_done ex = true -> filled 64 ex.

Lemma nth_snoc {A} (l : list A) x i d : nth i (l ++ [x]) d = if (i =? List.length l)%nat then x else nth i l d.
Proof.
  destruct (Nat.eqb_spec i (List.length l)) as [->|N]; [apply nth_middle|].
  destruct (le_lt_dec (List.length l) i) as [L|L]; [|now rewrite app_nth1].
  rewrite !nth_overflow; [reflexivity | lia | rewrite length_app; cbn; lia].
Qed.

Lemma init_step_spec ex i : (i < 64)%nat -> filled i ex -> oreturns (init_step ex i) (filled (S i)).
Proof.
  intros Hi (FH1 & FG1 & LH & LG & HT). unfold init_step.
  rewrite (proj2 (gen_hash_scalar (Z.of_nat i * 2) ltac:(lia))). cbn [bind]. fold (gen_H i).
  eapply oreturns_bind; [exact (precomp_enc _ (proj1 (gen_H_subgroup i Hi)))|]. intros hp Hh.
  rewrite (proj2 (gen_hash_scalar (Z.of_nat i * 2 + 1) ltac:(lia))). cbn [bind]. fold (gen_G i).
  eapply oreturns_bind; [exact (precomp_enc _ (proj1 (gen_G_subgroup i Hi)))|]. intros gp Hg.
  cbn. unfold filled. cbn [ex_Hi ex_Gi ex_Hprecomp ex_Gprecomp]. unfold pvec in *. rewrite !map_seq_S, FH1, FG1, !length_app, LH, LG.
  split; [reflexivity|]. split; [reflexivity|]. split; [cbn; lia|]. split; [cbn; lia|]. intros j Hj. rewrite !nth_snoc, LH, LG.
  destruct (Nat.eqb_spec j i) as [->|N]; [now split | apply HT; lia].
Qed.

Lemma init_exponents_spec ex :
  exponents_ok ex -> oreturns (init_exponents ex) (fun ex' => filled 64 ex' /\ init_done ex' = true).
Proof.
  intros Hok. unfold init_exponents. destruct (init_done ex) eqn:E; [cbn; auto|].
  eapply oreturns_bind.
  - apply (ofold_seq filled init_step 0 64 (Exponents [] [] [] [] false)); [|intros i y Hi; apply init_step_spec; lia].
    repeat split; intros; lia.
  - cbn beta. intros ex' F. cbn. split; [exact F | reflexivity].
Qed.

(** ** Sums over the generators *)

Section Exponent.
  Variable ex : exponents.
  Hypothesis Hex : filled 64 ex.

Lemma nth_precomp i : (i < 64)%nat -> exists gp hp,
  nth_error (ex_Gprecomp ex) i = Some gp /\ nth_error (ex_Hprecomp ex) i = Some hp /\ odd_table (gen_G i) gp /\ odd_table (gen_H i) hp.
Proof.
  destruct Hex as (_ & _ & LH & LG & HT). intros Hi. destruct (HT i Hi) as [Hh Hg].
  exists (nth i (ex_Gprecomp ex) []), (nth i (ex_Hprecomp ex) []). split; [apply nth_error_nth'; lia|]. split; [apply nth_error_nth'; lia|]. now split.
Qed.

(** One term of a sum over the generators. *)
Lemma exponent_term i gp hp a b v w :
  (i < 64)%nat -> odd_table (gen_G i) gp -> odd_table (gen_H i) hp -> sval a v -> sval b w ->
  addKeys3_dsmp a gp b hp = Some (encode (lin v (gen_G i) w (gen_H i))).
Proof.
  intros Hi Hg Hh Ha Hb. pose proof (gen_G_subgroup i Hi) as SG. pose proof (gen_H_subgroup i Hi) as SH.
  rewrite (addKeys3_dsmp_enc a (gen_G i) b (gen_H i)) by (apply SG || apply SH || apply Ha || apply Hb || assumption).
  now rewrite (lin_val _ _ a b v w).
Qed.

Lemma vector_exponent_vec n f g :
  (n <= 64)%nat ->
  vector_exponent ex (vec n f) (vec n g) = Some (Returns (encode (psum n (fun i => lin (f i) (gen_G i) (g i) (gen_H i))))).
Proof.
  intros Hn. unfold vector_exponent. rewrite !length_vec, Nat.eqb_refl, (proj2 (Nat.leb_le n maxN)), !check_true, encode_ed_0 by (unfold maxN; lia).
  apply (ofold_value _ (fun k => encode (psum k (fun i => lin (f i) (gen_G i) (g i) (gen_H i)))) n). intros i Hi.
  rewrite !nth_vec by exact Hi. destruct (nth_precomp i ltac:(lia)) as (gp & hp & -> & -> & Hg & Hh). cbn [bind].
  rewrite (exponent_term i gp hp _ _ (f i) (g i)) by (trivial; apply sval_enc || lia). cbn [bind]. apply addKeys_enc.
  - apply psum_on_curve. intros j Hj. apply lin_on_curve; [apply gen_G_subgroup | apply gen_H_subgroup]; lia.
  - apply lin_on_curve; [apply gen_G_subgroup | apply gen_H_subgroup]; lia.
Qed.
End Exponent.
End Generators.

Lemma vector_exponent_custom_vec n P Q f g :
  (n <= 64)%nat -> (forall i, (i < n)%nat -> in_subgroup (P i)) -> (forall i, (i < n)%nat -> in_subgroup (Q i)) ->
  vector_exponent_custom (pvec n P) (pvec n Q) (vec n f) (vec n g)
    = Some (Returns (encode (psum n (fun i => lin (f i) (P i) (g i) (Q i))))).
Proof.
  intros Hn HP HQ. unfold vector_exponent_custom.
  rewrite !length_vec, !length_pvec, !Nat.eqb_refl, (proj2 (Nat.leb_le n maxN)), !check_true, encode_ed_0 by (unfold maxN; lia).
  apply (ofold_value _ (fun k => encode (psum k (fun i => lin (f i) (P i) (g i) (Q i)))) n). intros i Hi.
  rewrite !nth_vec, !nth_pvec by exact Hi. cbn [bind]. pose proof (HP i Hi) as SP. pose proof (HQ i Hi) as SQ.
  destruct (oreturns_some _ _ (precomp_enc (Q i) (proj1 SQ))) as (t & -> & Ht). cbn [obind].
  rewrite (addKeys3_enc _ (P i) _ (Q i)) by (apply SP || apply SQ || apply sval_enc || exact Ht). cbn [obind].
  rewrite (lin_val _ _ _ _ (f i) (g i)) by (trivial; apply sval_enc). apply addKeys_enc.
  - apply psum_on_curve. intros j Hj. apply lin_on_curve; [apply HP | apply HQ]; lia.
  - apply lin_on_curve; [apply SP | apply SQ].
Qed.

(** ** Folded generators *)

(** Halves are combined with the factors of each round until one point is left. *)
Fixpoint fold_points (ws : list (Z * Z)) (P : nat -> point) : point :=
  match ws with
  | [] => P O
  | (u, v) :: ws => fold_points ws (fun i => lin u (P i) v (P (2 ^ List.length ws + i)%nat))
  end.

(** The factor of the point [i] in the folded one. *)
Fixpoint weight (ws : list (Z * Z)) (i : nat) : Z :=
  match ws with
  | [] => 1
  | (u, v) :: ws => let n := (2 ^ List.length ws)%nat in if (i <? n)%nat then u * weight ws i else v * weight ws (i - n)
  end.

Lemma pow_2_S n : (2 ^ S n = 2 ^ n + 2 ^ n)%nat.
Proof. cbn [Nat.pow]. lia. Qed.

Lemma fold_points_weight ws P :
  (forall i, (i < 2 ^ List.length ws)%nat -> on_curve (P i)) ->
  fold_points ws P = psum (2 ^ List.length ws) (fun i => ed_mul (weight ws i) (P i)).
Proof.
  revert P. induction ws as [|[u v] ws IH]; intros P HP.
  - cbn [fold_points psum List.length Nat.pow weight]. rewrite ed_mul_1, ed_add_0_l. reflexivity.
  - cbn [fold_points List.length]. cbn [List.length] in HP. rewrite pow_2_S in *. set (n := (2 ^ List.length ws)%nat) in *.
    assert (forall i, (i < n)%nat -> on_curve (P i) /\ on_curve (P (n + i)%nat)) as HP2 by (intros i Hi; split; apply HP; lia).
    rewrite IH by (intros i Hi; apply lin_on_curve; now apply HP2). fold n.
    rewrite psum_split by (intros i Hi; apply ed_mul_on_curve, HP; lia).
    rewrite <- psum_add by (intros i Hi; apply ed_mul_on_curve; now apply HP2).
    apply psum_ext. intros i Hi. cbn [weight]. fold n. rewrite (proj2 (Nat.ltb_lt i n) Hi), (proj2 (Nat.ltb_ge (n + i) n)) by lia.
    replace (n + i - n)%nat with i by lia. destruct (HP2 i Hi). point_eq; try assumption; left; ring.
Qed.

(** ** The products of the verifier *)

Lemma bit_half i m :
  (Z.land (Z.of_nat i) (Z.shiftl 1 (Z.of_nat m)) =? 0) = (i mod 2 ^ S m <? 2 ^ m)%nat.
Proof.
  assert (Z.of_nat (i mod 2 ^ S m) = Z.of_nat (2 ^ m) * Z.b2z (Z.testbit (Z.of_nat i) (Z.of_nat m)) + Z.of_nat (i mod 2 ^ m)) as E.
  { rewrite !Nat2Z.inj_mod, !Nat2Z.inj_pow. change (Z.of_nat 2) with 2. rewrite Nat2Z.inj_succ, Z.pow_succ_r, (Z.mul_comm 2) by lia.
    rewrite Z.rem_mul_r by (try apply Z.pow_nonzero; lia). rewrite Z.testbit_spec' by lia. ring. }
  pose proof (Nat.mod_upper_bound i (2 ^ m) ltac:(apply Nat.pow_nonzero; lia)) as B.
  assert (Z.land (Z.of_nat i) (Z.shiftl 1 (Z.of_nat m)) = Z.b2z (Z.testbit (Z.of_nat i) (Z.of_nat m)) * 2 ^ Z.of_nat m) as ->.
  { rewrite Z.shiftl_1_l. apply Z.bits_inj'. intros k Hk. rewrite Z.land_spec, Z.pow2_bits_eqb by lia.
    destruct (Z.eqb_spec (Z.of_nat m) k) as [<-|N].
    - rewrite andb_true_r. destruct (Z.testbit _ _); cbn [Z.b2z]; [rewrite Z.mul_1_l, Z.pow2_bits_eqb, Z.eqb_refl by lia; reflexivity | now rewrite Z.testbit_0_l].
    - rewrite andb_false_r. destruct (Z.testbit _ _); cbn [Z.b2z]; [rewrite Z.mul_1_l, Z.pow2_bits_eqb by lia; symmetry; now apply Z.eqb_neq | now rewrite Z.testbit_0_l]. }
  destruct (Z.testbit (Z.of_nat i) (Z.of_nat m)); cbn [Z.b2z] in *.
  - rewrite (proj2 (Nat.ltb_ge _ _)) by lia. apply Z.eqb_neq. rewrite Z.mul_1_l. apply Z.pow_nonzero; lia.
  - symmetry. rewrite Z.mul_0_l. apply Nat.ltb_lt. lia.
Qed.

Lemma mod_half i m :
  ((i mod 2 ^ S m <? 2 ^ m) = true -> i mod 2 ^ S m = i mod 2 ^ m)%nat /\
  ((i mod 2 ^ S m <? 2 ^ m) = false -> i mod 2 ^ S m - 2 ^ m = i mod 2 ^ m)%nat.
Proof.
  pose proof (Nat.mod_upper_bound i (2 ^ m) ltac:(apply Nat.pow_nonzero; lia)) as B.
  assert (i mod 2 ^ S m = i mod 2 ^ m + 2 ^ m * ((i / 2 ^ m) mod 2))%nat as ->.
  { rewrite Nat.pow_succ_r', Nat.mul_comm. apply Nat.Div0.mod_mul_r. }
  pose proof (Nat.mod_upper_bound (i / 2 ^ m) 2 ltac:(lia)) as B2. set (q := ((i / 2 ^ m) mod 2)%nat) in *.
  assert (q = 0 \/ q = 1)%nat as [-> | ->] by lia; split; intros E; [apply Nat.ltb_lt in E | apply Nat.ltb_ge in E | apply Nat.ltb_lt in E | apply Nat.ltb_ge in E]; lia.
Qed.

Definition g_pairs (ws : list Z) : list (Z * Z) := map (fun w => (inv w, w)) ws.
Definition h_pairs (ws : list Z) : list (Z * Z) := map (fun w => (w, inv w)) ws.

Lemma verify_factors ws i m g h :
  (m <= List.length ws)%nat ->
  foldM (verify_factor (map enc_scalar ws) (map (fun w => enc_scalar (inv w)) ws) i) (rev (seq 0 m)) (enc_scalar g, enc_scalar h)
    = let ws' := skipn (List.length ws - m) ws in
      Some (enc_scalar (g * weight (g_pairs ws') (i mod 2 ^ m)), enc_scalar (h * weight (h_pairs ws') (i mod 2 ^ m))).
Proof.
  revert g h. induction m as [|m IH]; intros g h Hm.
  - rewrite Nat.sub_0_r, skipn_all. cbn [seq rev foldM weight g_pairs h_pairs map]. now rewrite !Z.mul_1_r.
  - rewrite seq_S, rev_app_distr. cbn [rev app foldM]. cbn [verify_factor]. rewrite length_map, Nat.add_0_l.
    set (J := (List.length ws - m - 1)%nat). assert (J < List.length ws)%nat as HJ by (unfold J; lia).
    rewrite !nth_error_map, (nth_error_nth' ws 0 HJ). cbn [option_map bind]. set (w := nth J ws 0).
    replace (List.length ws - S m)%nat with J by (unfold J; lia).
    assert (skipn J ws = w :: skipn (List.length ws - m) ws) as ->.
    { replace (List.length ws - m)%nat with (S J) by (unfold J; lia). unfold w. clearbody J. clear -HJ. revert J HJ.
      induction ws as [|y ws IH]; cbn [List.length]; intros J HJ; [lia|]. destruct J as [|J]; [reflexivity|]. cbn [skipn nth].
      rewrite IH by lia. reflexivity. }
    cbn [g_pairs h_pairs map weight]. fold (g_pairs (skipn (List.length ws - m) ws)) (h_pairs (skipn (List.length ws - m) ws)).
    set (gp := g_pairs (skipn (List.length ws - m) ws)) in *. set (hp := h_pairs (skipn (List.length ws - m) ws)) in *.
    assert (List.length gp = m /\ List.length hp = m) as [-> ->] by (unfold gp, hp, g_pairs, h_pairs; rewrite !length_map, length_skipn; lia).
    rewrite bit_half. destruct (mod_half i m) as [M1 M2].
    destruct (i mod 2 ^ S m <? 2 ^ m)%nat; [specialize (M1 eq_refl); clear M2 | specialize (M2 eq_refl); clear M1].
    + rewrite (sc_mul_val _ _ g (inv w)), bind_Some, (sc_mul_val _ _ h w) by apply sval_enc. cbn [bind]. rewrite IH, M1 by lia. cbv zeta.
      fold gp hp. do 2 f_equal; f_equal; ring.
    + rewrite (sc_mul_val _ _ g w), bind_Some, (sc_mul_val _ _ h (inv w)) by apply sval_enc. cbn [bind]. rewrite IH, M2 by lia. cbv zeta.
      fold gp hp. do 2 f_equal; f_equal; ring.
Qed.

(** ** Challenges *)

Section Challenges.
  Context {FH : FastHash} {BN : BigNum}.

(** The challenge after [c] for the keys [ks]. *)
Definition challenge (c : Z) (ks : list key) : Z := Hs (List.concat (enc_scalar c :: ks)).

Lemma mash_enc c ks : Forall scalar ks -> hash_cache_mash (enc_scalar c) ks = Some (enc_scalar (challenge c ks)).
Proof. intros H. apply hash_keyV_enc. constructor; [apply enc_scalar_scalar | exact H]. Qed.

Lemma challenge_range c ks : 0 <= challenge c ks < ell.
Proof. apply Hs_range. Qed.

(** The challenges of the rounds. *)
Fixpoint round_challenges (c : Z) (Ls Rs : list point) : list Z :=
  match Ls, Rs with
  | L :: Ls, R :: Rs => let w := challenge c [encode L; encode R] in w :: round_challenges w Ls Rs
  | _, _ => []
  end.

Lemma length_rounds c Ls Rs : List.length Ls = List.length Rs -> List.length (round_challenges c Ls Rs) = List.length Ls.
Proof.
  revert c Rs. induction Ls as [|L Ls IH]; intros c [|R Rs] E; try discriminate E; [reflexivity|].
  cbn [round_challenges List.length]. cbv zeta. cbn [List.length]. f_equal. apply IH. now injection E.
Qed.

Lemma nth_error_middle {A} (l1 l2 : list A) x : nth_error (l1 ++ x :: l2) (List.length l1) = Some x.
Proof. rewrite nth_error_app2, Nat.sub_diag by lia. reflexivity. Qed.

Lemma verify_challenges Ls1 Rs1 Ls Rs w0 c :
  List.length Ls = List.length Rs -> List.length Ls1 = List.length Rs1 ->
  exists last, foldM (verify_challenge (map encode (Ls1 ++ Ls)) (map encode (Rs1 ++ Rs))) (seq (List.length Ls1) (List.length Ls)) (w0, enc_scalar c)
    = Some (w0 ++ map enc_scalar (round_challenges c Ls Rs), last).
Proof.
  revert Ls1 Rs1 Rs w0 c. induction Ls as [|L Ls IH]; intros Ls1 Rs1 [|R Rs] w0 c E E1; try discriminate E.
  - exists (enc_scalar c). cbn [List.length seq foldM round_challenges map]. now rewrite app_nil_r.
  - cbn [List.length seq foldM verify_challenge]. rewrite !nth_error_map, nth_error_middle, E1, nth_error_middle. cbn [option_map bind].
    rewrite mash_enc by (constructor; [apply encode_scalar | constructor; [apply encode_scalar | constructor]]). cbn [bind round_challenges].
    set (w := challenge c [encode L; encode R]). cbv zeta. injection E as E.
    destruct (IH (Ls1 ++ [L]) (Rs1 ++ [R]) Rs (w0 ++ [enc_scalar w]) w E ltac:(rewrite !length_app, E1; reflexivity)) as [last H].
    exists last. rewrite <- !app_assoc, length_app, E1 in H. cbn [List.length app] in H. rewrite Nat.add_1_r in H. rewrite H. cbn [map].
    reflexivity.
Qed.

(** A challenge without an inverse. *)
Definition has_zero (ws : list Z) : bool := existsb (fun w => w mod ell =? 0) ws.

Lemma invert_all ws :
  omapM invert (map enc_scalar ws) = Some (if has_zero ws then Throws "Failed to invert" else Returns (map (fun w => enc_scalar (inv w)) ws)).
Proof.
  induction ws as [|w ws IH]; [reflexivity|]. cbn [map omapM has_zero existsb]. rewrite invert_enc.
  destruct (w mod ell =? 0); cbn [obind orb]; [reflexivity|]. rewrite IH. now destruct (has_zero ws) eqn:E; unfold has_zero in E; rewrite E.
Qed.

(** ** The sums of the verifier *)

(** The points of the rounds with the squares of the challenges. *)
Fixpoint round_sum (ws : list Z) (Ls Rs : list point) : point :=
  match ws, Ls, Rs with
  | w :: ws, L :: Ls, R :: Rs => ed_add (lin ((w * w) mod ell) L ((inv w * inv w) mod ell) R) (round_sum ws Ls Rs)
  | _, _, _ => ed_0
  end.

Lemma round_sum_on_curve ws Ls Rs : Forall on_curve Ls -> Forall on_curve Rs -> on_curve (round_sum ws Ls Rs).
Proof.
  intros HL. revert ws Rs. induction HL as [|L Ls HL _ IH]; intros [|w ws] Rs HR; cbn [round_sum]; try apply ed_0_on_curve.
  destruct HR as [|R Rs HR HRs]; [apply ed_0_on_curve|]. apply ed_add_on_curve; [now apply lin_on_curve | now apply IH].
Qed.

Lemma verify_folds Ls1 Rs1 ws1 Ls Rs ws P :
  List.length Ls = List.length Rs -> List.length ws = List.length Ls -> List.length Ls1 = List.length Rs1 -> List.length ws1 = List.length Ls1 ->
  Forall on_curve Ls -> Forall on_curve Rs -> on_curve P ->
  ofold (verify_fold (map encode (Ls1 ++ Ls)) (map encode (Rs1 ++ Rs)) (map enc_scalar (ws1 ++ ws)) (map (fun w => enc_scalar (inv w)) (ws1 ++ ws)))
    (seq (List.length Ls1) (List.length Ls)) (encode P) = Some (Returns (encode (ed_add P (round_sum ws Ls Rs)))).
Proof.
  revert Ls1 Rs1 ws1 Rs ws P. induction Ls as [|L Ls IH]; intros Ls1 Rs1 ws1 [|R Rs] [|w ws] P E Ew E1 Ew1 HL HR HP; try discriminate E; try discriminate Ew.
  - cbn [List.length seq ofold round_sum]. now rewrite ed_add_0_r.
  - cbn [List.length seq ofold]. unfold verify_fold at 1. rewrite !nth_error_map, nth_error_middle, <- Ew1, nth_error_middle, Ew1, E1, nth_error_middle.
    cbn [option_map bind]. inversion HL as [|? ? CL CLs]. inversion HR as [|? ? CR CRs]. subst.
    rewrite (sc_mul_val _ _ w w), bind_Some, (sc_mul_val _ _ (inv w) (inv w)), bind_Some by apply sval_enc.
    destruct (oreturns_some _ _ (precomp_enc L CL)) as (tL & -> & HtL). destruct (oreturns_some _ _ (precomp_enc R CR)) as (tR & -> & HtR).
    cbn [obind]. rewrite (addKeys3_dsmp_enc _ L _ R) by (trivial; apply sval_enc). cbn [bind]. rewrite !le_val_enc_scalar.
    pose proof (lin_on_curve L R CL CR ((w * w) mod ell) ((inv w * inv w) mod ell)) as HT.
    rewrite addKeys_enc by assumption. cbn [obind].
    assert (ed_add P (round_sum (w :: ws) (L :: Ls) (R :: Rs)) =
      ed_add (ed_add P (lin ((w * w) mod ell) L ((inv w * inv w) mod ell) R)) (round_sum ws Ls Rs)) as ->.
    { cbn [round_sum]. symmetry. apply ed_add_assoc; trivial. now apply round_sum_on_curve. }
    injection E as E. injection Ew as Ew.
    specialize (IH (Ls1 ++ [L]) (Rs1 ++ [R]) (ws1 ++ [w]) Rs ws (ed_add P (lin ((w * w) mod ell) L ((inv w * inv w) mod ell) R)) E Ew
      ltac:(rewrite !length_app, E1; reflexivity) ltac:(rewrite !length_app, Ew1; reflexivity) CLs CRs ltac:(now apply ed_add_on_curve)).
    rewrite <- !app_assoc, length_app, E1 in IH. cbn [List.length app] in IH. rewrite Nat.add_1_r in IH. exact IH.
Qed.
End Challenges.

(** The first factor may multiply a key that is not reduced. *)
Lemma verify_factor_val ws i j kg g h :
  (j < List.length ws)%nat -> sval kg g ->
  verify_factor (map enc_scalar ws) (map (fun w => enc_scalar (inv w)) ws) i (kg, enc_scalar h) j
    = verify_factor (map enc_scalar ws) (map (fun w => enc_scalar (inv w)) ws) i (enc_scalar g, enc_scalar h) j.
Proof.
  intros Hj Hg. unfold verify_factor. rewrite !nth_error_map, length_map.
  rewrite (nth_error_nth' ws 0) by lia. cbn [option_map bind].
  rewrite !(sc_mul_val kg _ g _ Hg (sval_enc _)), !(sc_mul_val (enc_scalar g) _ g _ (sval_enc _) (sval_enc _)). reflexivity.
Qed.

Lemma verify_products ws i kg g h :
  (1 <= List.length ws)%nat -> (i < 2 ^ List.length ws)%nat -> sval kg g ->
  foldM (verify_factor (map enc_scalar ws) (map (fun w => enc_scalar (inv w)) ws) i) (rev (seq 0 (List.length (map enc_scalar ws)))) (kg, enc_scalar h)
    = Some (enc_scalar (g * weight (g_pairs ws) i), enc_scalar (h * weight (h_pairs ws) i)).
Proof.
  intros H1 Hi Hg. rewrite length_map. assert (List.length ws = S (List.length ws - 1)) as E by lia.
  pose proof (verify_factors ws i (List.length ws) g h (le_n _)) as F. rewrite Nat.sub_diag, (Nat.mod_small i) in F by exact Hi. cbn [skipn] in F.
  rewrite E, seq_S, rev_app_distr in F |- *. cbn [rev app foldM] in F |- *. rewrite (verify_factor_val ws i (0 + (List.length ws - 1)) kg g h) by (trivial; lia).
  exact F.
Qed.

Section Verify.
  Context {FH : FastHash} {BN : BigNum}.

(** What the verifier adds up for the generator [i]. *)
Definition verify_term (a b y z : Z) (ws : list Z) (i : nat) : point :=
  lin (a * weight (g_pairs ws) i + z) (gen_G i)
      (b * inv y ^ Z.of_nat i * weight (h_pairs ws) i - (z * z * 2 ^ Z.of_nat i + z * y ^ Z.of_nat i) * inv y ^ Z.of_nat i) (gen_H i).

Lemma verify_term_on_curve a b y z ws i : (i < 64)%nat -> on_curve (verify_term a b y z ws i).
Proof. intros Hi. apply lin_on_curve; [apply gen_G_subgroup | apply gen_H_subgroup]; exact Hi. Qed.

Lemma verify_steps ex ka kb a b y z ws :
  filled 64 ex -> sval ka a -> sval kb b -> List.length ws = 6%nat ->
  ofold (verify_step ex (vec 64 (fun i => 2 ^ Z.of_nat i)) ka kb (enc_scalar y) (enc_scalar (inv y)) (enc_scalar z) (enc_scalar (z * z))
      (map enc_scalar ws) (map (fun w => enc_scalar (inv w)) ws) 64) (seq 0 64) (identity, identity, identity)
    = Some (Returns (encode (psum 64 (verify_term a b y z ws)), enc_scalar (inv y ^ 63), enc_scalar (y ^ 63))).
Proof.
  intros Hex Ha Hb Lw.
  assert ((identity, identity, identity) = (encode (psum 0 (verify_term a b y z ws)), enc_scalar (inv y ^ Z.of_nat (Nat.min 0 63)), enc_scalar (y ^ Z.of_nat (Nat.min 0 63)))) as ->.
  { cbn [psum Nat.min]. rewrite <- encode_ed_0, !Z.pow_0_r, <- identity_enc. reflexivity. }
  apply (ofold_value _ (fun k => (encode (psum k (verify_term a b y z ws)), enc_scalar (inv y ^ Z.of_nat (Nat.min k 63)), enc_scalar (y ^ Z.of_nat (Nat.min k 63)))) 64).
  intros i Hi. unfold verify_step. rewrite (Nat.min_l i 63) by lia.
  rewrite (sc_mul_val kb _ b (inv y ^ Z.of_nat i) Hb), bind_Some by apply sval_enc.
  rewrite (verify_products ws i ka a) by (trivial; rewrite Lw; cbn; lia). cbn [bind].
  rewrite (sc_add_val _ _ (a * weight (g_pairs ws) i) z), bind_Some by apply sval_enc.
  rewrite nth_vec, bind_Some by exact Hi.
  rewrite (sc_mul_val _ _ (z * z) (2 ^ Z.of_nat i)), bind_Some by apply sval_enc.
  rewrite (sc_muladd_val _ _ _ z (y ^ Z.of_nat i) (z * z * 2 ^ Z.of_nat i)), bind_Some by apply sval_enc.
  rewrite (sc_mulsub_val _ _ _ (z * z * 2 ^ Z.of_nat i + z * y ^ Z.of_nat i) (inv y ^ Z.of_nat i) (b * inv y ^ Z.of_nat i * weight (h_pairs ws) i)), bind_Some by apply sval_enc.
  destruct (nth_precomp ex Hex i Hi) as (gp & hp & -> & -> & Hg & Hh). rewrite !bind_Some.
  rewrite (exponent_term i gp hp _ _ _ _ Hi Hg Hh (sval_enc _) (sval_enc _)), bind_Some. fold (verify_term a b y z ws i).
  rewrite addKeys_enc by (apply psum_on_curve; intros j Hj; apply verify_term_on_curve; lia) || (apply verify_term_on_curve; exact Hi).
  cbn [obind]. change (64 - 1)%nat with 63%nat. destruct (Nat.eqb_spec i 63) as [->|N]; cbn [negb psum]; [reflexivity|].
  rewrite (sc_mul_val _ _ (inv y ^ Z.of_nat i) (inv y)), bind_Some, (sc_mul_val _ _ (y ^ Z.of_nat i) y), bind_Some by apply sval_enc.
  rewrite (Nat.min_l (S i) 63), Nat2Z.inj_succ, !Z.pow_succ_r, !(Z.mul_comm _ (_ ^ Z.of_nat i)) by lia. reflexivity.
Qed.
(** *** The equations *)

Definition ch_y (V A S : point) : Z := challenge (Hs (encode V)) [encode A; encode S].
Definition ch_z (y : Z) : Z := Hs (enc_scalar y).
Definition ch_x (z : Z) (T1 T2 : point) : Z := challenge z [enc_scalar z; encode T1; encode T2].
Definition ch_ip (x : Z) (taux mu t : key) : Z := challenge x [enc_scalar x; taux; mu; t].

Definition delta (y z : Z) : Z := (z - z * z) * zsum 64 (fun i => y ^ Z.of_nat i) - z * z * z * sum_two.

(** The two sides of line 61 of the paper: the commitment to the polynomial at the challenge. *)
Definition line61_left (taux t : key) : point := ed_add (ed_mul (le_val taux) base_point) (ed_mul (le_val t) H_point).
Definition line61_right (y z x : Z) (V T1 T2 : point) : point :=
  ed_add (ed_add (ed_add (ed_mul (delta y z) H_point) (ed_mul ((z * z) mod ell) V)) (ed_mul x T1)) (ed_mul ((x * x) mod ell) T2).

(** The second generators with the powers of the inverse of [y]. *)
Definition scaled_H (y : Z) (i : nat) : point := ed_mul (inv y ^ Z.of_nat i) (gen_H i).

(** The public part of the vectors of the inner product. *)
Definition shift_term (y z : Z) (i : nat) : point :=
  lin (- z) (gen_G i) (z * y ^ Z.of_nat i + z * z * 2 ^ Z.of_nat i) (scaled_H y i).

(** The commitment to the vectors and their inner product, from the proof. *)
Definition ip_commitment (y z x : Z) (A S : point) (mu : key) : point :=
  ed_add (ed_add (ed_add A (ed_mul x S)) (ed_mul (- le_val mu) base_point)) (psum 64 (shift_term y z)).

(** The inner product argument: the commitment, folded with the points of the rounds, opens to
    [a] and [b] for the folded generators. *)
Definition ip_equation (y z x xip : Z) (ws : list Z) (A S : point) (Ls Rs : list point) (mu a b t : key) : Prop :=
  ed_add (ed_add (ip_commitment y z x A S mu) (round_sum ws Ls Rs)) (ed_mul (le_val t * xip) H_point)
  = ed_add (lin (le_val a) (fold_points (g_pairs ws) gen_G) (le_val b) (fold_points (h_pairs ws) (scaled_H y)))
      (ed_mul (le_val a * le_val b * xip) H_point).

Lemma shift_term_on_curve y z i : (i < 64)%nat -> on_curve (shift_term y z i).
Proof. intros Hi. apply lin_on_curve; [apply gen_G_subgroup, Hi | apply ed_mul_on_curve, gen_H_subgroup, Hi]. Qed.

(** The unrolled sum of the code is the one of the folded generators. *)
Lemma verify_sum a b y z ws :
  List.length ws = 6%nat ->
  ed_add (psum 64 (verify_term a b y z ws)) (psum 64 (shift_term y z))
    = lin a (fold_points (g_pairs ws) gen_G) b (fold_points (h_pairs ws) (scaled_H y)).
Proof.
  intros Lw.
  assert (2 ^ List.length (g_pairs ws) = 64 /\ 2 ^ List.length (h_pairs ws) = 64)%nat as [LG LH] by (unfold g_pairs, h_pairs; now rewrite !length_map, Lw).
  pose proof (fold_points_weight (g_pairs ws) gen_G) as FG. pose proof (fold_points_weight (h_pairs ws) (scaled_H y)) as FH1. rewrite LG in FG. rewrite LH in FH1.
  rewrite FG, FH1; [|intros i Hi; apply ed_mul_on_curve, gen_H_subgroup, Hi | intros i Hi; apply gen_G_subgroup, Hi]. clear FG FH1.
  assert (forall i, (i < 64)%nat -> on_curve (gen_G i) /\ on_curve (gen_H i)) as HC by (intros i Hi; split; [apply gen_G_subgroup | apply gen_H_subgroup]; exact Hi).
  assert (forall i k, (i < 64)%nat -> on_curve (ed_mul k (gen_G i)) /\ on_curve (ed_mul k (scaled_H y i))) as HM.
  { intros i k Hi. destruct (HC i Hi) as [C1 C2]. split; [exact (ed_mul_on_curve _ C1 k)|]. exact (ed_mul_on_curve _ (ed_mul_on_curve _ C2 _) k). }
  unfold lin. rewrite <- (psum_mul 64 a) by (intros i Hi; now apply HM). rewrite <- (psum_mul 64 b) by (intros i Hi; now apply HM).
  rewrite <- psum_add by (intros i Hi; (now apply verify_term_on_curve) || (now apply shift_term_on_curve)).
  rewrite <- psum_add by (intros i Hi; apply ed_mul_on_curve; now apply HM).
  apply psum_ext. intros i Hi. destruct (HC i Hi). unfold verify_term, shift_term, scaled_H. point_eq; try assumption; left; ring.
Qed.
(** The value that the verifier compares with the left side. *)
Lemma delta_eq y z ip : ip = zsum 64 (fun i => 1 * y ^ Z.of_nat i) -> 0 - z * z * ip - z * z * z * sum_two + z * ip = delta y z.
Proof.
  intros ->. unfold delta. rewrite (zsum_ext 64 (fun i => 1 * y ^ Z.of_nat i) (fun i => y ^ Z.of_nat i)) by (intros; ring).
  generalize sum_two (zsum 64 (fun i => y ^ Z.of_nat i)). intros. ring.
Qed.

(** The scalars of line 61. *)
Lemma line61_scalars {T} y z (K : key -> key -> option (outcome T)) :
  (let! oneN := oneN in
   let! yN := vector_powers (enc_scalar y) 64 in
   let? ip1y := inner_product oneN yN in
   let! zsq := sc_mul (enc_scalar z) (enc_scalar z) in
   let! k := sc_mulsub zsq ip1y zero in
   let! zcu := sc_mul zsq (enc_scalar z) in
   let? ip12 := ip12 in
   let! k := sc_mulsub zcu ip12 k in
   let! tmp := sc_muladd (enc_scalar z) ip1y k in
   K zsq tmp) = K (enc_scalar (z * z)) (enc_scalar (delta y z)).
Proof.
  rewrite oneN_vec, bind_Some, vector_powers_vec, bind_Some, inner_product_vec by lia. cbn [obind].
  set (ip := zsum 64 _). pose proof (delta_eq y z ip eq_refl) as Ed. clearbody ip.
  rewrite (sc_mul_val _ _ z z), bind_Some, zero_enc, (sc_mulsub_val _ _ _ (z * z) ip 0), bind_Some by apply sval_enc.
  rewrite (sc_mul_val _ _ (z * z) z), bind_Some, ip12_enc by apply sval_enc. cbn [obind].
  rewrite (sc_mulsub_val _ _ _ (z * z * z) sum_two (0 - z * z * ip)), bind_Some by apply sval_enc.
  now rewrite (sc_muladd_val _ _ _ z ip (0 - z * z * ip - z * z * z * sum_two)), bind_Some, Ed by apply sval_enc.
Qed.

Section Points.
  Variables (ex : exponents) (V A S T1 T2 : point) (Ls Rs : list point) (taux mu a b t : key).
  Hypothesis Hex : exponents_ok ex.
  Hypothesis HV : on_curve V.
  Hypothesis HA : on_curve A.
  Hypothesis HS : on_curve S.
  Hypothesis HT1 : on_curve T1.
  Hypothesis HT2 : on_curve T2.
  Hypothesis HLs : Forall on_curve Ls.
  Hypothesis HRs : Forall on_curve Rs.
  Hypothesis LL : List.length Ls = 6%nat.
  Hypothesis LR : List.length Rs = 6%nat.
  Hypothesis Htaux : scalar255 taux.
  Hypothesis Hmu : scalar255 mu.
  Hypothesis Ha : scalar255 a.
  Hypothesis Hb : scalar255 b.
  Hypothesis Ht : scalar255 t.

Definition proof_of : Bulletproof :=
  BulletProof [encode V] (encode A) (encode S) (encode T1) (encode T2) taux mu (map encode Ls) (map encode Rs) a b t.

Let y := ch_y V A S.
Let z := ch_z y.
Let x := ch_x z T1 T2.
Let xip := ch_ip x taux mu t.
Let ws := round_challenges xip Ls Rs.

Lemma enc_mod v : 0 <= v < ell -> le_val (enc_scalar v) = v.
Proof. intros Hv. rewrite le_val_enc_scalar. now apply Z.mod_small. Qed.

Lemma x_range : 0 <= x < ell.
Proof. apply challenge_range. Qed.

Lemma line61_enc :
  verify_line61 proof_of (encode V) (enc_scalar y) (enc_scalar z) (enc_scalar x) 64
    = Some (Returns (key_eqb (encode (line61_right y z x V T1 T2)) (encode (line61_left taux t)))).
Proof.
  pose proof (fun k v => @scalarmultH_val k v) as HH. unfold verify_line61, line61_left, line61_right. revert HH. generalize rct_H. intros rH HH. cbn [proof_of bp_T1 bp_T2 bp_taux bp_t]. pose proof x_range as Bx. clearbody x z y.
  rewrite scalarmultBase_enc, bind_Some by now apply scalar255_scalar. rewrite (HH t (le_val t)) by now apply sval_val. rewrite obind_Returns.
  rewrite addKeys_enc by auto with curve. rewrite obind_Returns.
  rewrite line61_scalars.
  rewrite (HH _ (delta y z)) by apply sval_enc. rewrite obind_Returns.
  rewrite (scalarmultKey_enc V) by (exact HV || apply sval_enc). rewrite obind_Returns. rewrite le_val_enc_scalar.
  rewrite addKeys_enc by auto with curve. rewrite obind_Returns. rewrite (scalarmultKey_enc T1) by (exact HT1 || apply sval_enc). rewrite obind_Returns.
  rewrite (enc_mod x Bx), addKeys_enc by auto with curve. rewrite obind_Returns.
  rewrite (sc_mul_val _ _ x x), bind_Some by apply sval_enc. rewrite (scalarmultKey_enc T2) by (exact HT2 || apply sval_enc). rewrite obind_Returns.
  rewrite le_val_enc_scalar, addKeys_enc by auto with curve. rewrite obind_Returns. reflexivity.
Qed.

(** The left side that the code compares. *)
Definition pprime_point : point :=
  ed_add (ed_add (ed_add (ed_add A (ed_mul x S)) (ed_mul (- le_val mu) base_point)) (round_sum ws Ls Rs)) (ed_mul (le_val t * xip) H_point).

Lemma length_ws : List.length ws = 6%nat.
Proof. unfold ws. rewrite length_rounds; lia. Qed.

Lemma pprime_enc :
  verify_pprime proof_of (map enc_scalar ws) (map (fun w => enc_scalar (inv w)) ws) (enc_scalar xip) (encode (ed_add A (ed_mul x S)))
    = Some (Returns (encode pprime_point)).
Proof.
  pose proof (fun k v => @scalarmultH_val k v) as HH. unfold verify_pprime, pprime_point. revert HH. generalize rct_H. intros rH HH. cbn [proof_of bp_mu bp_L bp_R bp_t]. pose proof length_ws as Lw. clearbody ws xip x.
  rewrite zero_enc, (sc_sub_val _ mu 0 (le_val mu)), bind_Some by (apply sval_enc || now apply sval_val).
  rewrite (scalarmultBase_val _ (0 - le_val mu)), bind_Some, Z.sub_0_l by apply sval_enc.
  rewrite addKeys_enc by auto with curve. cbn [obind]. rewrite length_map.
  pose proof (verify_folds [] [] [] Ls Rs ws (ed_add (ed_add A (ed_mul x S)) (ed_mul (- le_val mu) base_point)) ltac:(lia) ltac:(lia) eq_refl eq_refl HLs HRs
    ltac:(auto with curve)) as Ef. cbn [app List.length] in Ef. rewrite Ef. clear Ef. cbn [obind].
  pose proof (round_sum_on_curve ws Ls Rs HLs HRs) as CR.
  rewrite (sc_mul_val t _ (le_val t) xip), bind_Some by (apply sval_enc || now apply sval_val). rewrite (HH _ (le_val t * xip)) by apply sval_enc. cbn [obind].
  now rewrite addKeys_enc by auto with curve.
Qed.

Definition accepts_ip : bool :=
  key_eqb (encode pprime_point)
    (encode (ed_add (ed_mul (le_val a * le_val b * xip) H_point) (psum 64 (verify_term (le_val a) (le_val b) y z ws)))).

Lemma inner_enc ex' :
  filled 64 ex' ->
  verify_inner ex' proof_of (enc_scalar y) (enc_scalar z) (enc_scalar x) (enc_scalar xip) 64
    = Some (if (y mod ell =? 0) || has_zero ws then Throws "Failed to invert" else Returns accepts_ip).
Proof.
  intros F. pose proof pprime_enc as Ep. pose proof (fun k v => @scalarmultH_val k v) as HH. unfold verify_inner, accepts_ip. cbn [proof_of bp_S bp_A bp_L bp_R bp_a bp_b]. fold proof_of. pose proof x_range as Bx.
  pose proof length_ws as Lw. destruct (verify_challenges [] [] Ls Rs [] xip ltac:(lia) eq_refl) as [last Ew]. fold ws in Ew. cbn [app List.length] in Ew. revert Ep Ew.
  generalize pprime_point. clearbody ws xip x z y. intros pp Ep Ew. revert HH. generalize rct_H at 1 2. intros rH HH.
  rewrite (scalarmultKey_enc S) by (exact HS || apply sval_enc). cbn [obind]. rewrite (enc_mod x Bx), addKeys_enc by auto with curve. cbn [obind].
  rewrite length_map, Ew, bind_Some, invert_enc. destruct (y mod ell =? 0); cbn [obind orb]; [reflexivity|].
  rewrite invert_all. destruct (has_zero ws); cbn [obind]; [reflexivity|].
  rewrite twoN_vec, bind_Some, (sc_mul_val _ _ z z), bind_Some by apply sval_enc.
  rewrite (verify_steps ex' a b (le_val a) (le_val b) y z ws F (sval_val a Ha) (sval_val b Hb) Lw). cbn [obind]. rewrite Ep. cbn [obind].
  rewrite (sc_mul_val a b (le_val a) (le_val b)), bind_Some by now apply sval_val. rewrite (sc_mul_val _ _ (le_val a * le_val b) xip), bind_Some by apply sval_enc.
  rewrite (HH _ (le_val a * le_val b * xip)) by apply sval_enc. cbn [obind].
  rewrite addKeys_enc by (auto with curve || (apply psum_on_curve; intros i Hi; now apply verify_term_on_curve)). reflexivity.
Qed.

Lemma verify_enc :
  bulletproof_VERIFY ex proof_of = Some (
    if key_eqb (encode (line61_right y z x V T1 T2)) (encode (line61_left taux t)) then
      if (y mod ell =? 0) || has_zero ws then Throws "Failed to invert" else Returns accepts_ip
    else Returns false).
Proof.
  pose proof line61_enc as E1. pose proof inner_enc as E2. revert E1 E2. generalize accepts_ip. intros acc E1 E2.
  unfold bulletproof_VERIFY. destruct (oreturns_some _ _ (init_exponents_spec ex Hex)) as (ex' & -> & F & _). cbn [obind]. specialize (E2 ex' F).
  cbn [proof_of bp_V bp_A bp_S bp_T1 bp_T2 bp_taux bp_mu bp_L bp_R bp_t]. fold proof_of. rewrite !length_map, LL, LR. cbn [List.length Nat.eqb negb Nat.ltb Nat.leb].
  cbn [nth_error bind]. rewrite (hash_key_enc (encode V)) by apply encode_scalar. rewrite bind_Some.
  rewrite mash_enc by (repeat constructor; apply encode_scalar). rewrite bind_Some. fold (ch_y V A S). fold y.
  rewrite hash_key_enc, bind_Some by apply enc_scalar_scalar. fold (ch_z y). fold z.
  rewrite mash_enc, bind_Some by (repeat constructor; apply encode_scalar || apply enc_scalar_scalar). fold (ch_x z T1 T2). fold x.
  rewrite mash_enc, bind_Some by (repeat constructor; try apply enc_scalar_scalar; now apply scalar255_scalar). fold (ch_ip x taux mu t). fold xip.
  change (2 ^ 6)%nat with 64%nat. rewrite E1. cbn [obind]. destruct (key_eqb _ _); cbn [negb]; [exact E2 | reflexivity].
Qed.
(** The comparison of the code is the equation of the inner product argument. *)
Lemma accepts_ip_spec : accepts_ip = true <-> ip_equation y z x xip ws A S Ls Rs mu a b t.
Proof.
  unfold accepts_ip, ip_equation, ip_commitment, pprime_point. rewrite key_eqb_spec. pose proof (verify_sum (le_val a) (le_val b) y z ws length_ws) as E.
  pose proof (round_sum_on_curve ws Ls Rs HLs HRs) as CR. pose proof base_point_on_curve as CB. pose proof H_on_curve as CH.
  assert (on_curve (psum 64 (verify_term (le_val a) (le_val b) y z ws)) /\ on_curve (psum 64 (shift_term y z))) as [CV CD]
    by (split; apply psum_on_curve; intros i Hi; [now apply verify_term_on_curve | now apply shift_term_on_curve]).
  clearbody ws xip x z y. rewrite <- E. clear E. revert CR CB CH CV CD. generalize (round_sum ws Ls Rs), (psum 64 (verify_term (le_val a) (le_val b) y z ws)), (psum 64 (shift_term y z)), base_point, H_point.
  intros C W D B H CR CB CH CV CD. set (l := ed_add (ed_add (ed_add (ed_add A (ed_mul x S)) (ed_mul (- le_val mu) B)) C) (ed_mul (le_val t * xip) H)).
  set (r := ed_add (ed_mul (le_val a * le_val b * xip) H) W).
  assert (on_curve l /\ on_curve r) as [Cl Cr] by (unfold l, r; split; auto 8 with curve).
  match goal with |- _ <-> ?p = ?q => assert (p = ed_add D l /\ q = ed_add D r) as [-> ->] end.
  - unfold l, r. split; point_eq; try assumption; left; ring.
  - split; [|intros E; apply (ed_add_cancel D) in E; congruence]. intros E. apply encode_inj in E; congruence.
Qed.
End Points.

(** *** Keys that are not points *)

(** The key encodes a point of the curve. *)
Definition decodes (k : key) : Prop := exists P, on_curve P /\ k = encode P.

Lemma decodes_cases k : scalar k -> decodes k \/ ge_frombytes_vartime k = Some None.
Proof. intros Hk. destruct (point_cases k Hk) as [(P & HP & ->) | [N _]]; [left; exists P; auto | right; exact N]. Qed.

Lemma scalarmultKey_bad k a : ge_frombytes_vartime k = Some None -> scalarmultKey k a = Some (Throws "ge_frombytes_vartime failed").
Proof. intros E. Transparent scalarmultKey. unfold scalarmultKey. now rewrite E. Opaque scalarmultKey. Qed.

Lemma addKeys_bad k B : on_curve B -> ge_frombytes_vartime k = Some None -> addKeys k (encode B) = Some (Throws "ge_frombytes_vartime failed").
Proof.
  intros HB E. Transparent addKeys. unfold addKeys. destruct (frombytes_encode B HB) as (q & -> & _). now rewrite E. Opaque addKeys.
Qed.

Lemma precomp_bad k : ge_frombytes_vartime k = Some None -> precomp k = Some (Throws "ge_frombytes_vartime failed").
Proof. intros E. Transparent precomp. unfold precomp. now rewrite E. Opaque precomp. Qed.

(** The computation ends, and with a value only if [Q]. *)
Definition ends {T} (m : option (outcome T)) (Q : Prop) : Prop := exists o, m = Some o /\ (forall v, o = Returns v -> Q).

Lemma ends_throws {T} what (Q : Prop) : @ends T (Some (Throws what)) Q.
Proof. eexists. split; [reflexivity | discriminate]. Qed.

Lemma ends_returns {T} (v : T) (Q : Prop) : Q -> ends (Some (Returns v)) Q.
Proof. intros HQ. eexists. split; [reflexivity | auto]. Qed.

Lemma line61_ends proof V y z x :
  scalar V -> scalar (bp_T1 proof) -> scalar (bp_T2 proof) -> scalar255 (bp_taux proof) -> scalar255 (bp_t proof) ->
  ends (verify_line61 proof V (enc_scalar y) (enc_scalar z) (enc_scalar x) 64) (decodes V /\ decodes (bp_T1 proof) /\ decodes (bp_T2 proof)).
Proof.
  intros SV ST1 ST2 Htaux Ht. pose proof (fun k v => @scalarmultH_val k v) as HH. unfold verify_line61. revert HH. generalize rct_H. intros rH HH.
  rewrite scalarmultBase_enc, bind_Some by now apply scalar255_scalar. rewrite (HH _ (le_val (bp_t proof))), obind_Returns by now apply sval_val.
  rewrite addKeys_enc, obind_Returns, line61_scalars by auto with curve. rewrite (HH _ (delta y z)), obind_Returns by apply sval_enc.
  destruct (decodes_cases V SV) as [(P & HP & ->) | N]; [|rewrite scalarmultKey_bad by exact N; apply ends_throws].
  rewrite (scalarmultKey_enc P), obind_Returns by (exact HP || apply sval_enc). rewrite addKeys_enc, obind_Returns by auto with curve.
  destruct (decodes_cases _ ST1) as [(P1 & HP1 & E1) | N]; [|rewrite scalarmultKey_bad by exact N; apply ends_throws]. rewrite E1.
  rewrite (scalarmultKey_enc P1), obind_Returns by (exact HP1 || apply sval_enc). rewrite addKeys_enc, obind_Returns by auto with curve.
  rewrite (sc_mul_val _ _ x x), bind_Some by apply sval_enc.
  destruct (decodes_cases _ ST2) as [(P2 & HP2 & E2) | N]; [|rewrite scalarmultKey_bad by exact N; apply ends_throws]. rewrite E2.
  rewrite (scalarmultKey_enc P2), obind_Returns by (exact HP2 || apply sval_enc). rewrite addKeys_enc, obind_Returns by auto with curve.
  apply ends_returns. unfold decodes. eauto 10.
Qed.

Lemma challenges_end L R idx w0 c :
  Forall scalar L -> Forall scalar R -> (forall i, In i idx -> (i < List.length L)%nat /\ (i < List.length R)%nat) ->
  exists ws last, foldM (verify_challenge L R) idx (w0, enc_scalar c) = Some (w0 ++ map enc_scalar ws, last) /\ List.length ws = List.length idx.
Proof.
  intros HL HR. revert w0 c. induction idx as [|i idx IH]; intros w0 c Hi.
  - exists [], (enc_scalar c). cbn [foldM map List.length]. rewrite app_nil_r. now split.
  - destruct (Hi i ltac:(now left)) as [Li Ri]. cbn [foldM verify_challenge]. rewrite (nth_error_nth' L [] Li), (nth_error_nth' R [] Ri), !bind_Some.
    rewrite mash_enc, bind_Some by (constructor; [exact (proj1 (Forall_forall _ _) HL _ (nth_In L [] Li)) | constructor; [exact (proj1 (Forall_forall _ _) HR _ (nth_In R [] Ri)) | constructor]]).
    rewrite bind_Some. set (w := challenge c [nth i L []; nth i R []]).
    destruct (IH (w0 ++ [enc_scalar w]) w (fun j Hj => Hi j (or_intror Hj))) as (ws & last & E & Lw).
    exists (w :: ws), last. rewrite E, <- app_assoc. cbn [map app List.length]. now rewrite Lw.
Qed.

Lemma folds_end L R ws idx P :
  Forall scalar L -> Forall scalar R -> on_curve P ->
  (forall i, In i idx -> (i < List.length L)%nat /\ (i < List.length R)%nat /\ (i < List.length ws)%nat) ->
  ends (ofold (verify_fold L R (map enc_scalar ws) (map (fun w => enc_scalar (inv w)) ws)) idx (encode P))
    (forall i, In i idx -> decodes (nth i L []) /\ decodes (nth i R [])) /\
  (forall k, ofold (verify_fold L R (map enc_scalar ws) (map (fun w => enc_scalar (inv w)) ws)) idx (encode P) = Some (Returns k) -> decodes k).
Proof.
  intros HL HR. revert P. induction idx as [|i idx IH]; intros P HP Hi.
  - cbn [ofold]. split; [apply ends_returns; intros i []|]. intros k [= <-]. exists P. auto.
  - destruct (Hi i ltac:(now left)) as (Li & Ri & Wi). cbn [ofold]. unfold verify_fold at 1 3.
    rewrite !nth_error_map, (nth_error_nth' ws 0 Wi), (nth_error_nth' L [] Li), (nth_error_nth' R [] Ri). cbn [option_map]. rewrite !bind_Some.
    rewrite !(sc_mul_val _ _ _ _ (sval_enc _) (sval_enc _)), !bind_Some.
    pose proof (proj1 (Forall_forall _ _) HL _ (nth_In L [] Li)) as SL. pose proof (proj1 (Forall_forall _ _) HR _ (nth_In R [] Ri)) as SR.
    destruct (decodes_cases _ SL) as [(Q & HQ & EL) | N]; [|rewrite precomp_bad by exact N; split; [apply ends_throws | discriminate]]. rewrite EL.
    destruct (oreturns_some _ _ (precomp_enc Q HQ)) as (tQ & -> & HtQ). rewrite obind_Returns.
    destruct (decodes_cases _ SR) as [(Q' & HQ' & ER) | N]; [|rewrite precomp_bad by exact N; split; [apply ends_throws | discriminate]]. rewrite ER.
    destruct (oreturns_some _ _ (precomp_enc Q' HQ')) as (tQ' & -> & HtQ'). rewrite obind_Returns.
    rewrite (addKeys3_dsmp_enc _ Q _ Q'), bind_Some by (trivial; apply sval_enc). rewrite addKeys_enc, obind_Returns by auto with curve.
    match goal with |- context [ofold _ idx (encode ?P')] => destruct (IH P' ltac:(auto with curve) (fun j Hj => Hi j (or_intror Hj))) as [(o & E & Ho) Hk] end.
    split; [|exact Hk]. exists o. split; [exact E|]. intros v Ev j [<-|Hj]; [|now apply (Ho v)]. unfold decodes. eauto 6.
Qed.

Lemma pprime_ends proof ws xip P :
  scalar255 (bp_mu proof) -> scalar255 (bp_t proof) -> Forall scalar (bp_L proof) -> Forall scalar (bp_R proof) ->
  List.length (bp_R proof) = List.length (bp_L proof) -> List.length ws = List.length (bp_L proof) -> on_curve P ->
  ends (verify_pprime proof (map enc_scalar ws) (map (fun w => enc_scalar (inv w)) ws) (enc_scalar xip) (encode P))
    (forall i, (i < List.length (bp_L proof))%nat -> decodes (nth i (bp_L proof) []) /\ decodes (nth i (bp_R proof) [])).
Proof.
  intros Hmu Ht HL HR LR Lw HP. pose proof (fun k v => @scalarmultH_val k v) as HH. unfold verify_pprime. revert HH. generalize rct_H. intros rH HH.
  rewrite zero_enc, (sc_sub_val _ _ 0 _ (sval_enc 0) (sval_val _ Hmu)), bind_Some, (scalarmultBase_val _ _ (sval_enc _)), bind_Some.
  rewrite addKeys_enc, obind_Returns by auto with curve.
  match goal with |- context [ofold (verify_fold ?L ?R _ _) ?idx (encode ?Q)] => destruct (folds_end L R ws idx Q HL HR) as [(o & E & Ho) Hk] end.
  - auto with curve.
  - intros i Hi%in_seq. lia.
  - rewrite E in *. destruct o as [k|w]; [|apply ends_throws]. destruct (Hk k eq_refl) as (Q & HQ & ->). rewrite obind_Returns.
    rewrite (sc_mul_val _ _ _ xip (sval_val _ Ht) (sval_enc _)), bind_Some, (HH _ _ (sval_enc _)), obind_Returns, addKeys_enc by auto with curve.
    apply ends_returns. intros i Hi. apply (Ho _ eq_refl), in_seq. lia.
Qed.

Lemma inner_ends ex proof y z x xip :
  filled 64 ex -> scalar (bp_A proof) -> scalar (bp_S proof) -> Forall scalar (bp_L proof) -> Forall scalar (bp_R proof) ->
  List.length (bp_L proof) = 6%nat -> List.length (bp_R proof) = 6%nat -> scalar255 (bp_mu proof) -> scalar255 (bp_t proof) -> scalar255 (bp_a proof) -> scalar255 (bp_b proof) ->
  ends (verify_inner ex proof (enc_scalar y) (enc_scalar z) (enc_scalar x) (enc_scalar xip) 64)
    (decodes (bp_A proof) /\ decodes (bp_S proof) /\
     forall i, (i < List.length (bp_L proof))%nat -> decodes (nth i (bp_L proof) []) /\ decodes (nth i (bp_R proof) [])).
Proof.
  intros F SA SS HL HR LL LR Hmu Ht Ha Hb. pose proof (fun k v => @scalarmultH_val k v) as HH. unfold verify_inner. revert HH. generalize rct_H. intros rH HH.
  destruct (decodes_cases _ SS) as [(PS & HPS & ES) | N]; [|rewrite scalarmultKey_bad by exact N; apply ends_throws]. rewrite ES.
  rewrite (scalarmultKey_enc PS), obind_Returns by (exact HPS || apply sval_enc).
  destruct (decodes_cases _ SA) as [(PA & HPA & EA) | N]; [|rewrite addKeys_bad by (auto with curve || exact N); apply ends_throws]. rewrite EA.
  rewrite addKeys_enc, obind_Returns by auto with curve.
  destruct (challenges_end (bp_L proof) (bp_R proof) (seq 0 (List.length (bp_L proof))) [] xip HL HR) as (ws & last & -> & Lw); [intros i Hi%in_seq; lia|].
  rewrite length_seq in Lw. cbn [app]. rewrite bind_Some, invert_enc. destruct (y mod ell =? 0); [apply ends_throws|]. rewrite obind_Returns, invert_all.
  destruct (has_zero ws); [apply ends_throws|]. rewrite obind_Returns, twoN_vec, bind_Some, (sc_mul_val _ _ z z), bind_Some by apply sval_enc.
  rewrite (verify_steps ex _ _ _ _ y z ws F (sval_val _ Ha) (sval_val _ Hb) ltac:(lia)), obind_Returns.
  match goal with |- context [verify_pprime _ _ _ _ (encode ?Q)] =>
    destruct (pprime_ends proof ws xip Q Hmu Ht HL HR ltac:(lia) Lw ltac:(auto with curve)) as (o & E & Ho) end.
  rewrite E. destruct o as [k|w]; [|apply ends_throws]. rewrite obind_Returns, (sc_mul_val _ _ _ _ (sval_val _ Ha) (sval_val _ Hb)), bind_Some.
  rewrite (sc_mul_val _ _ _ xip (sval_enc _) (sval_enc _)), bind_Some, (HH _ _ (sval_enc _)), obind_Returns.
  rewrite addKeys_enc, obind_Returns by (auto with curve || (apply psum_on_curve; intros i Hi; now apply verify_term_on_curve)).
  apply ends_returns. unfold decodes at 1 2. split; [|split]; [eauto | eauto | exact (Ho k eq_refl)].
Qed.

(** ** What the verifier accepts *)

(** The equations of the paper for the points and scalars of a proof. *)
Definition bp_valid (V A S T1 T2 : point) (Ls Rs : list point) (taux mu a b t : key) : Prop :=
  let y := ch_y V A S in
  let z := ch_z y in
  let x := ch_x z T1 T2 in
  let xip := ch_ip x taux mu t in
  let ws := round_challenges xip Ls Rs in
  line61_left taux t = line61_right y z x V T1 T2 /\ y mod ell <> 0 /\ Forall (fun w => w mod ell <> 0) ws /\
  ip_equation y z x xip ws A S Ls Rs mu a b t.

(** A challenge that the verifier inverts is zero. *)
Definition bp_zero (V A S T1 T2 : point) (Ls Rs : list point) (taux mu t : key) : Prop :=
  let y := ch_y V A S in
  ch_y V A S mod ell = 0 \/ Exists (fun w => w mod ell = 0) (round_challenges (ch_ip (ch_x (ch_z y) T1 T2) taux mu t) Ls Rs).

Lemma has_zero_spec ws : has_zero ws = false <-> Forall (fun w => w mod ell <> 0) ws.
Proof.
  unfold has_zero. induction ws as [|w ws IH]; cbn [existsb]; [split; auto|]. rewrite orb_false_iff, IH, Z.eqb_neq.
  split; [intros [? ?]; now constructor | intros H; inversion H; auto].
Qed.

Lemma line61_on_curve y z x V T1 T2 taux t :
  on_curve V -> on_curve T1 -> on_curve T2 -> on_curve (line61_right y z x V T1 T2) /\ on_curve (line61_left taux t).
Proof. intros. unfold line61_right, line61_left. split; auto 8 with curve. Qed.

(** On encoded points, acceptance is the validity of the equations. *)
Lemma verify_valid ex V A S T1 T2 Ls Rs taux mu a b t :
  exponents_ok ex -> Forall on_curve [V; A; S; T1; T2] -> Forall on_curve Ls -> Forall on_curve Rs -> List.length Ls = 6%nat -> List.length Rs = 6%nat ->
  Forall scalar255 [taux; mu; a; b; t] ->
  bulletproof_VERIFY ex (proof_of V A S T1 T2 Ls Rs taux mu a b t) = Some (Returns true) <-> bp_valid V A S T1 T2 Ls Rs taux mu a b t.
Proof.
  intros Hex HP HLs HRs LL LR Hk. rewrite !Forall_cons_iff in HP, Hk. destruct HP as (HV & HA & HS & HT1 & HT2 & _), Hk as (Htaux & Hmu & Ha & Hb & Ht & _).
  rewrite (verify_enc ex V A S T1 T2 Ls Rs taux mu a b t) by assumption.
  pose proof (accepts_ip_spec V A S T1 T2 Ls Rs taux mu a b t HA HS HLs HRs LL LR) as Hacc. unfold bp_valid. cbv zeta.
  revert Hacc. generalize (accepts_ip V A S T1 T2 Ls Rs taux mu a b t). intros acc Hacc. rewrite <- Hacc, <- has_zero_spec, <- Z.eqb_neq.
  set (y := ch_y V A S) in *. set (z := ch_z y) in *. set (x := ch_x z T1 T2) in *. set (hz := has_zero _). clearbody hz y z x. clear Hacc.
  destruct (line61_on_curve y z x V T1 T2 taux t HV HT1 HT2) as [Cr Cl].
  destruct (key_eqb _ _) eqn:E; [apply key_eqb_spec, encode_inj in E; trivial; rewrite E|].
  - destruct (y mod ell =? 0), hz; cbn [orb]; split; intros H; try discriminate H; try (destruct H as (_ & H1 & H2 & H3); discriminate H1 || discriminate H2).
    + split; [reflexivity|]. split; [reflexivity|]. split; [reflexivity | congruence].
    + destruct H as (_ & _ & _ & ->). reflexivity.
  - split; [discriminate|]. intros [E1 _]. rewrite E1 in E. unfold key_eqb in E. now destruct (list_eq_dec Z.eq_dec _ _).
Qed.

Lemma decodes_list ks : Forall scalar ks -> (forall i, (i < List.length ks)%nat -> decodes (nth i ks [])) -> exists Ps, Forall on_curve Ps /\ ks = map encode Ps.
Proof.
  induction ks as [|k ks IH]; intros Hs H; [exists []; split; [constructor | reflexivity]|]. inversion Hs.
  destruct (H O ltac:(cbn; lia)) as (P & HP & EP). cbn [nth] in EP. destruct IH as (Ps & HPs & EPs); [assumption | intros i Hi; apply (H (Datatypes.S i)); cbn; lia|].
  exists (P :: Ps). split; [now constructor | cbn [map]; congruence].
Qed.

Lemma verify_ends ex proof :
  exponents_ok ex -> Forall scalar (bp_V proof ++ [bp_A proof; bp_S proof; bp_T1 proof; bp_T2 proof] ++ bp_L proof ++ bp_R proof) ->
  Forall scalar255 [bp_taux proof; bp_mu proof; bp_a proof; bp_b proof; bp_t proof] ->
  exists o, bulletproof_VERIFY ex proof = Some o /\
    (o = Returns true -> exists V A S T1 T2 Ls Rs, Forall on_curve [V; A; S; T1; T2] /\ Forall on_curve Ls /\ Forall on_curve Rs /\
       List.length Ls = 6%nat /\ List.length Rs = 6%nat /\
       proof = proof_of V A S T1 T2 Ls Rs (bp_taux proof) (bp_mu proof) (bp_a proof) (bp_b proof) (bp_t proof)).
Proof.
  intros Hex Hs Hk. rewrite !Forall_app, !Forall_cons_iff in Hs. rewrite !Forall_cons_iff in Hk.
  destruct Hs as (SV & (SA & SS & ST1 & ST2 & _) & SL & SR), Hk as (Htaux & Hmu & Ha & Hb & Ht & _). unfold bulletproof_VERIFY.
  destruct (oreturns_some _ _ (init_exponents_spec ex Hex)) as (ex' & -> & F & _). rewrite obind_Returns.
  assert (forall o : outcome bool, o = Returns false -> exists o', Some o = Some o' /\ (o' = Returns true -> exists V A S T1 T2 Ls Rs, Forall on_curve [V; A; S; T1; T2] /\ Forall on_curve Ls /\ Forall on_curve Rs /\
       List.length Ls = 6%nat /\ List.length Rs = 6%nat /\
       proof = proof_of V A S T1 T2 Ls Rs (bp_taux proof) (bp_mu proof) (bp_a proof) (bp_b proof) (bp_t proof))) as No by (intros o ->; eexists; split; [reflexivity | discriminate]).
  destruct (Nat.eqb_spec (List.length (bp_V proof)) 1) as [LV|]; cbn [negb]; [|now apply No].
  destruct (Nat.eqb_spec (List.length (bp_L proof)) (List.length (bp_R proof))) as [LR|]; cbn [negb]; [|now apply No].
  destruct (0 <? List.length (bp_L proof))%nat; cbn [negb]; [|now apply No].
  destruct (Nat.eqb_spec (List.length (bp_L proof)) 6) as [LL|]; cbn [negb]; [|now apply No]. rewrite LL.
  destruct (bp_V proof) as [|Vk [|? ?]] eqn:EV; try discriminate LV. cbn [nth_error]. rewrite bind_Some. apply Forall_inv in SV.
  rewrite hash_key_enc, bind_Some, mash_enc, bind_Some by (assumption || (repeat (constructor; [assumption|]); constructor)).
  rewrite hash_key_enc, bind_Some by apply enc_scalar_scalar.
  rewrite mash_enc, bind_Some by (constructor; [apply enc_scalar_scalar | repeat (constructor; [assumption|]); constructor]).
  rewrite mash_enc, bind_Some by (constructor; [apply enc_scalar_scalar | repeat (constructor; [now apply scalar255_scalar|]); constructor]).
  change (2 ^ 6)%nat with 64%nat. set (y := challenge _ [bp_A proof; _]). set (z := Hs (enc_scalar y)). set (x := challenge z _). set (xip := challenge x _). clearbody xip x z y.
  destruct (line61_ends proof Vk y z x SV ST1 ST2 Htaux Ht) as (o & -> & Ho). destruct o as [ok|w]; [|eexists; split; [reflexivity | discriminate]].
  destruct (Ho ok eq_refl) as ((V & HV & ->) & (T1 & HT1 & E1) & (T2 & HT2 & E2)). rewrite obind_Returns. destruct ok; cbn [negb]; [|now apply No].
  destruct (inner_ends ex' proof y z x xip F SA SS SL SR LL ltac:(lia) Hmu Ht Ha Hb) as (o & -> & Hi). exists o. split; [reflexivity|]. intros Eo.
  destruct (Hi true Eo) as ((A & HA & EA) & (S & HS & ES) & HLR).
  destruct (decodes_list (bp_L proof) SL (fun i Hi' => proj1 (HLR i Hi'))) as (Ls & HLs & EL).
  destruct (decodes_list (bp_R proof) SR (fun i Hi' => proj2 (HLR i ltac:(lia)))) as (Rs & HRs & ER).
  exists V, A, S, T1, T2, Ls, Rs. split; [repeat (constructor; [assumption|]); constructor|]. split; [exact HLs|]. split; [exact HRs|].
  rewrite EL in LL, LR. rewrite ER in LR. rewrite !length_map in *. split; [exact LL|]. split; [lia|].
  destruct proof as [k1 k2 k3 k4 k5 k6 k7 k8 k9 k10 k11 k12]. unfold proof_of. cbn [bp_V bp_A bp_S bp_T1 bp_T2 bp_taux bp_mu bp_L bp_R bp_a bp_b bp_t] in *. congruence.
Qed.
End Verify.


(** A proof that is not of six rounds for one commitment is refused. *)
Lemma verify_shape {FH : FastHash} {BN : BigNum} ex proof :
  exponents_ok ex -> List.length (bp_V proof) <> 1%nat \/ List.length (bp_L proof) <> 6%nat \/ List.length (bp_R proof) <> 6%nat ->
  bulletproof_VERIFY ex proof = Some (Returns false).
Proof.
  intros Hex H. unfold bulletproof_VERIFY. destruct (oreturns_some _ _ (init_exponents_spec ex Hex)) as (ex' & -> & _). rewrite obind_Returns.
  destruct (Nat.eqb_spec (List.length (bp_V proof)) 1) as [LV|]; cbn [negb]; [|reflexivity].
  destruct (Nat.eqb_spec (List.length (bp_L proof)) (List.length (bp_R proof))) as [LR|]; cbn [negb]; [|reflexivity].
  destruct (0 <? List.length (bp_L proof))%nat; cbn [negb]; [|reflexivity].
  destruct (Nat.eqb_spec (List.length (bp_L proof)) 6) as [LL|]; cbn [negb]; [lia | reflexivity].
Qed.

(** Keys that are all points, in the shape of a proof. *)
Lemma proof_points proof Qs :
  Forall on_curve Qs -> bp_V proof ++ [bp_A proof; bp_S proof; bp_T1 proof; bp_T2 proof] ++ bp_L proof ++ bp_R proof = map encode Qs ->
  List.length (bp_V proof) = 1%nat ->
  exists V A S T1 T2 Ls Rs, Forall on_curve [V; A; S; T1; T2] /\ Forall on_curve Ls /\ Forall on_curve Rs /\
    List.length Ls = List.length (bp_L proof) /\ List.length Rs = List.length (bp_R proof) /\
    proof = proof_of V A S T1 T2 Ls Rs (bp_taux proof) (bp_mu proof) (bp_a proof) (bp_b proof) (bp_t proof).
Proof.
  destruct proof as [Vk Ak Sk T1k T2k taux mu Lk Rk a b t]. cbn [bp_V bp_A bp_S bp_T1 bp_T2 bp_taux bp_mu bp_L bp_R bp_a bp_b bp_t].
  intros HQ E LV. destruct Vk as [|Vk [|? ?]]; try discriminate LV. cbn [app] in E.
  destruct Qs as [|V [|A [|S [|T1 [|T2 Qs]]]]]; try discriminate E. cbn [map] in E. injection E as -> -> -> -> -> E.
  rewrite !Forall_cons_iff in HQ. destruct HQ as (HV & HA & HS & H1 & H2 & HQ). symmetry in E. apply map_eq_app in E as (Ls & Rs & -> & <- & <-).
  apply Forall_app in HQ as [HL HR]. exists V, A, S, T1, T2, Ls, Rs. rewrite !length_map.
  split; [repeat (constructor; [assumption|]); constructor|]. repeat (split; [assumption || reflexivity|]). reflexivity.
Qed.

(** When the verifier throws. *)
Lemma verify_throws {FH : FastHash} {BN : BigNum} ex proof what :
  exponents_ok ex -> Forall scalar (bp_V proof ++ [bp_A proof; bp_S proof; bp_T1 proof; bp_T2 proof] ++ bp_L proof ++ bp_R proof) ->
  Forall scalar255 [bp_taux proof; bp_mu proof; bp_a proof; bp_b proof; bp_t proof] ->
  bulletproof_VERIFY ex proof = Some (Throws what) ->
  (exists k, In k (bp_V proof ++ [bp_A proof; bp_S proof; bp_T1 proof; bp_T2 proof] ++ bp_L proof ++ bp_R proof) /\ check_key k = Some false) \/
  (exists V A S T1 T2 Ls Rs, Forall on_curve [V; A; S; T1; T2] /\ Forall on_curve Ls /\ Forall on_curve Rs /\
     proof = proof_of V A S T1 T2 Ls Rs (bp_taux proof) (bp_mu proof) (bp_a proof) (bp_b proof) (bp_t proof) /\
     bp_zero V A S T1 T2 Ls Rs (bp_taux proof) (bp_mu proof) (bp_t proof)).
Proof.
  intros Hex Hs Hk E.
  destruct (points_cases _ Hs) as [(Qs & HQ & EQ) | (i & k & Ei & Nk)].
  2: { left. exists k. apply nth_error_In in Ei. split; [exact Ei|].
       destruct (point_cases k (proj1 (Forall_forall _ _) Hs k Ei)) as [(P & HP & EP) | [F _]]; [contradiction (Nk P HP EP) | unfold check_key; now rewrite F]. }
  right. destruct (Nat.eq_dec (List.length (bp_V proof)) 1) as [LV|N]; [|rewrite verify_shape in E by auto; discriminate E].
  destruct (Nat.eq_dec (List.length (bp_L proof)) 6) as [LL|N]; [|rewrite verify_shape in E by auto; discriminate E].
  destruct (Nat.eq_dec (List.length (bp_R proof)) 6) as [LR|N]; [|rewrite verify_shape in E by auto; discriminate E].
  destruct (proof_points proof Qs HQ EQ LV) as (V & A & S & T1 & T2 & Ls & Rs & HP & HL & HR & L1 & L2 & EP).
  exists V, A, S, T1, T2, Ls, Rs. repeat (split; [assumption|]). rewrite EP in E.
  rewrite !Forall_cons_iff in HP, Hk. destruct HP as (HV & HA & HS & HT1 & HT2 & _), Hk as (Htaux & Hmu & Ha & Hb & Ht & _).
  rewrite (verify_enc ex V A S T1 T2 Ls Rs) in E by (assumption || congruence). unfold bp_zero. apply some_inj in E. revert E.
  destruct (key_eqb _ _); [|discriminate].
  destruct (_ mod ell =? 0) eqn:Ey; cbn [orb]; [intros _; left; now apply Z.eqb_eq|].
  destruct (has_zero _) eqn:Ez; [intros _; right | discriminate].
  apply existsb_exists in Ez as (w & Hw & Zw). apply Exists_exists. exists w. split; [exact Hw | now apply Z.eqb_eq].
Qed.

(** C17: the bulletproof verifier: on a proof of keys of 32 bytes and scalars of 255 bits, from every
    state of the static arrays, [bulletproof_VERIFY] ends, with an answer or an exception. It
    answers true exactly when there are six rounds, all keys are points of the curve, the
    challenges are invertible, and the two equations of the paper hold: the commitment to the
    polynomial, and the inner product argument for the recursively folded generators. It answers
    false when there is not one commitment or not six rounds, and it throws only when a key is
    not a point, or when the challenge y or that of a round is zero. *)
Theorem bulletproof_ver_correct {FH : FastHash} {BN : BigNum} ex proof
  (keys := bp_V proof ++ [bp_A proof; bp_S proof; bp_T1 proof; bp_T2 proof] ++ bp_L proof ++ bp_R proof) :
  exponents_ok ex -> Forall scalar keys -> Forall scalar255 [bp_taux proof; bp_mu proof; bp_a proof; bp_b proof; bp_t proof] ->
  exists o, bulletproof_VERIFY ex proof = Some o /\
    (o = Returns true <-> exists V A S T1 T2 Ls Rs, Forall on_curve [V; A; S; T1; T2] /\ Forall on_curve Ls /\ Forall on_curve Rs /\
       List.length Ls = 6%nat /\ List.length Rs = 6%nat /\
       proof = proof_of V A S T1 T2 Ls Rs (bp_taux proof) (bp_mu proof) (bp_a proof) (bp_b proof) (bp_t proof) /\
       bp_valid V A S T1 T2 Ls Rs (bp_taux proof) (bp_mu proof) (bp_a proof) (bp_b proof) (bp_t proof)) /\
    (List.length (bp_V proof) <> 1%nat \/ List.length (bp_L proof) <> 6%nat \/ List.length (bp_R proof) <> 6%nat -> o = Returns false) /\
    (forall what, o = Throws what ->
       (exists k, In k keys /\ check_key k = Some false) \/
       (exists V A S T1 T2 Ls Rs, Forall on_curve [V; A; S; T1; T2] /\ Forall on_curve Ls /\ Forall on_curve Rs /\
          proof = proof_of V A S T1 T2 Ls Rs (bp_taux proof) (bp_mu proof) (bp_a proof) (bp_b proof) (bp_t proof) /\
          bp_zero V A S T1 T2 Ls Rs (bp_taux proof) (bp_mu proof) (bp_t proof))).
Proof.
  intros Hex Hs Hk. destruct (verify_ends ex proof Hex Hs Hk) as (o & E & Ho). exists o. split; [exact E|]. split; [|split].
  - destruct proof as [Vk Ak Sk T1k T2k taux mu Lk Rk a b t]. cbn [bp_taux bp_mu bp_a bp_b bp_t] in *. split.
    + intros ->. destruct (Ho eq_refl) as (V & A & S & T1 & T2 & Ls & Rs & HP & HL & HR & LL & LR & EP). exists V, A, S, T1, T2, Ls, Rs.
      repeat (split; [assumption|]). cbn [bp_taux bp_mu bp_a bp_b bp_t] in EP. rewrite EP in E. apply (verify_valid ex) in E; assumption.
    + intros (V & A & S & T1 & T2 & Ls & Rs & HP & HL & HR & LL & LR & EP & Hv). rewrite EP in E.
      apply (verify_valid ex V A S T1 T2 Ls Rs taux mu a b t Hex HP HL HR LL LR Hk) in Hv. congruence.
  - intros H. rewrite (verify_shape ex proof Hex H) in E. now apply some_inj in E.
  - intros what ->. exact (verify_throws ex proof what Hex Hs Hk E).
Qed.

(** *** Witness *)

Definition num_bytes (n : Z) : nat := if n =? 0 then O else Z.to_nat (Z.log2 n / 8 + 1).

Lemma num_bytes_least n k : 0 <= n < 256 ^ Z.of_nat k -> (num_bytes n <= k)%nat.
Proof.
  intros Hn. unfold num_bytes. destruct (Z.eqb_spec n 0) as [->|N]; [lia|]. change 256 with (2 ^ 8) in Hn. rewrite <- Z.pow_mul_r in Hn by lia.
  assert (Z.log2 n < 8 * Z.of_nat k) as L by (apply Z.log2_lt_pow2; lia). pose proof (Z.log2_nonneg n).
  pose proof (Z.div_lt_upper_bound (Z.log2 n) 8 (Z.of_nat k) ltac:(lia) L). pose proof (Z.div_pos (Z.log2 n) 8 ltac:(lia) ltac:(lia)). lia.
Qed.

Lemma num_bytes_enough n : 0 <= n -> n < 256 ^ Z.of_nat (num_bytes n).
Proof.
  intros Hn. unfold num_bytes. destruct (Z.eqb_spec n 0) as [->|N]; [reflexivity|]. change 256 with (2 ^ 8). rewrite <- Z.pow_mul_r by lia.
  apply Z.log2_lt_pow2; [lia|]. pose proof (Z.log2_nonneg n). pose proof (Z.div_pos (Z.log2 n) 8 ltac:(lia) ltac:(lia)).
  pose proof (Z.mod_pos_bound (Z.log2 n) 8 ltac:(lia)). pose proof (Z.div_mod (Z.log2 n) 8 ltac:(lia)). lia.
Qed.

Lemma bytes_of_number n :
  0 <= n -> bytes (rev (le_bytes (num_bytes n) n)) /\ List.length (rev (le_bytes (num_bytes n) n)) = num_bytes n /\
    le_val (rev (rev (le_bytes (num_bytes n) n))) = n.
Proof.
  intros Hn. split; [apply bytes_rev, bytes_le_bytes|]. split; [rewrite length_rev; apply length_le_bytes|].
  rewrite rev_involutive, le_val_le_bytes. apply Z.mod_small. split; [exact Hn | now apply num_bytes_enough].
Qed.

Lemma inverse_spec a n :
  0 <= a -> 1 < n -> match (if Z.gcd a n =? 1 then Some (Z.invmod a n) else None) with
    | Some i => 0 <= i < n /\ (a * i) mod n = 1 | None => Z.gcd a n <> 1 end.
Proof.
  intros _ Hn. destruct (Z.eqb_spec (Z.gcd a n) 1) as [E|N]; [|exact N]. split.
  - rewrite <- Z.mod_invmod. apply Z.mod_pos_bound. lia.
  - rewrite Z.mul_comm. apply Z.invmod_coprime; [lia | exact E].
Qed.

(** Numbers that behave as documented. *)
Definition reference_numbers : BigNum := {|
  BN_bin2bn := fun s => le_val (rev s);
  BN_bin2bn_spec := fun s _ => eq_refl;
  BN_mod_inverse := fun a n => if Z.gcd a n =? 1 then Some (Z.invmod a n) else None;
  BN_mod_inverse_spec := inverse_spec;
  BN_num_bytes := num_bytes;
  BN_num_bytes_spec := num_bytes_least;
  BN_bn2bin := fun n => rev (le_bytes (num_bytes n) n);
  BN_bn2bin_spec := bytes_of_number |}.

(** The static variables before the first call. *)
Definition unset_exponents : exponents := Exponents [] [] [] [] false.

Lemma unset_ok {FH : FastHash} : exponents_ok unset_exponents.
Proof. intros E. discriminate E. Qed.

Definition empty_proof (k : key) : Bulletproof := BulletProof [k] k k k k k k [k] [k] k k k.

Lemma Forall_repeat {A} (Q : A -> Prop) k n : Q k -> Forall Q (repeat k n).
Proof. intros Hk. apply Forall_forall. intros x Hx%repeat_spec. now subst x. Qed.

Lemma one_round : List.length (bp_L (empty_proof (enc_scalar 5))) <> 6%nat.
Proof. discriminate. Qed.

Lemma bulletproof_ver_correct_witness :
  exists o, @bulletproof_VERIFY keccak_fast_hash reference_numbers unset_exponents (empty_proof (enc_scalar 5)) = Some o /\ o = Returns false.
Proof.
  destruct (@bulletproof_ver_correct keccak_fast_hash reference_numbers unset_exponents (empty_proof (enc_scalar 5)) (@unset_ok keccak_fast_hash)
    (Forall_repeat scalar (enc_scalar 5) 7 (enc_scalar_scalar 5)) (Forall_repeat scalar255 (enc_scalar 5) 5 (reduced_255 _ (enc_scalar_reduced 5))))
    as (o & E & _ & F & _).
  exact (ex_intro _ o (conj E (F (or_intror (or_introl one_round))))).
Defined.
