(* ===== verification/BpProve.v ===== *)
(** * The prover of bulletproofs

    Every proof of [bulletproof_PROVE] is accepted by [bulletproof_VERIFY]: the vectors and the
    polynomial of the prover, the rounds of the inner product argument, and the two equations of
    the verifier for their results. *)

From Stdlib Require Import ZArith Lia List Bool String.
From S2P Require Import Prelude Bytes Fe FeMul Primes ScReduce Sc Curve Ge GeBytes GeScalar GeBase GeDouble GeHash.
From S2P Require Import Keccak TreeHash Order Varint Random Encode KeyOps Signature RingSig RctTypes RctTable RctOps Borromean Linear Bulletproofs BpCorrect.
Import ListNotations.

#[local] Open Scope Z_scope.
#[local] Open Scope list_scope.
#[local] Opaque ed_mul ed_add ed_opp base_point encode enc_scalar point_code H_point rct_H ell.
#[local] Opaque addKeys addKeys2 addKeys3 addKeys3_dsmp scalarmultKey scalarmultBase precomp hashToPoint.
#[local] Opaque sc_add sc_sub sc_mul sc_muladd sc_mulsub inner_product hadamard hadamard2 vector_add vector_subtract vector_scalar vector_scalar2 invert.
#[local] Opaque slice vector_exponent vector_exponent_custom vector_powers oneN twoN ip12 zero identity.

(** ** Bits *)

Lemma nth_error_le_bytes n v i : (i < n)%nat -> nth_error (le_bytes n v) i = Some ((v / 256 ^ Z.of_nat i) mod 256).
Proof.
  revert v i. induction n as [|n IH]; intros v i Hi; [lia|]. rewrite le_bytes_S. destruct i as [|i]; cbn [nth_error].
  - now rewrite Z.pow_0_r, Z.div_1_r.
  - rewrite IH by lia. rewrite Nat2Z.inj_succ, Z.pow_succ_r, Z.div_div by lia. reflexivity.
Qed.

Lemma byte_bit v i :
  0 <= v -> (Z.land ((v / 256 ^ Z.of_nat (i / 8)) mod 256) (Z.shiftl 1 (Z.of_nat i mod 8)) =? 0) = (bit v i =? 0).
Proof.
  intros Hv. set (k := Z.of_nat i mod 8). assert (0 <= k < 8) as Hk by (apply Z.mod_pos_bound; lia).
  assert (Z.of_nat i = 8 * Z.of_nat (i / 8) + k) as Ei by (unfold k; rewrite Nat2Z.inj_div; apply Z.div_mod; lia).
  set (b := (v / 256 ^ Z.of_nat (i / 8)) mod 256).
  assert (Z.testbit b k = Z.testbit v (Z.of_nat i)) as Eb.
  { unfold b. change 256 with (2 ^ 8). rewrite Z.mod_pow2_bits_low, <- Z.pow_mul_r, Z.div_pow2_bits by lia. f_equal. lia. }
  assert (bit v i = Z.b2z (Z.testbit b k)) as -> by (unfold bit; rewrite Eb, Z.testbit_spec' by lia; reflexivity).
  rewrite Z.shiftl_1_l. assert (Z.land b (2 ^ k) = Z.b2z (Z.testbit b k) * 2 ^ k) as ->.
  { apply Z.bits_inj'. intros j Hj. rewrite Z.land_spec, Z.pow2_bits_eqb by lia. destruct (Z.eqb_spec k j) as [<-|N].
    - rewrite andb_true_r. destruct (Z.testbit b k); cbn [Z.b2z]; [now rewrite Z.mul_1_l, Z.pow2_bits_true by lia | now rewrite Z.mul_0_l, Z.testbit_0_l].
    - rewrite andb_false_r. destruct (Z.testbit b k); cbn [Z.b2z]; [rewrite Z.mul_1_l, Z.pow2_bits_false by lia; reflexivity | now rewrite Z.mul_0_l, Z.testbit_0_l]. }
  assert (0 < 2 ^ k) by (apply Z.pow_pos_nonneg; lia). destruct (Z.testbit b k); cbn [Z.b2z]; [|reflexivity].
  rewrite Z.mul_1_l. transitivity false; [apply Z.eqb_neq; lia | reflexivity].
Qed.

Lemma prove_bit_enc v i : 0 <= v -> (i < 64)%nat -> prove_bit (le_bytes 32 v) i = Some (enc_scalar (bit v i), enc_scalar (bit v i - 1)).
Proof.
  intros Hv Hi. unfold prove_bit. assert (i / 8 < 32)%nat as L by (apply Nat.Div0.div_lt_upper_bound; lia).
  rewrite nth_error_le_bytes, bind_Some, byte_bit, identity_enc, zero_enc by assumption.
  destruct (bit_cases v i) as [-> | ->]; cbn [Z.eqb]; rewrite (sc_sub_val _ _ _ 1 (sval_enc _) (sval_enc _)), bind_Some; reflexivity.
Qed.

Lemma prove_bits v :
  0 <= v -> mapM (prove_bit (le_bytes 32 v)) (seq 0 64) = Some (map (fun i => (enc_scalar (bit v i), enc_scalar (bit v i - 1))) (seq 0 64)).
Proof. intros Hv. apply mapM_map. intros i Hi%in_seq. apply prove_bit_enc; [exact Hv | lia]. Qed.

Lemma zsum_bits v n : 0 <= v -> zsum n (fun i => bit v i * 2 ^ Z.of_nat i) = v mod 2 ^ Z.of_nat n.
Proof.
  intros Hv. induction n as [|n IH]; cbn [zsum]; [now rewrite Z.pow_0_r, Z.mod_1_r|]. rewrite mod_next, IH by exact Hv. reflexivity.
Qed.

Lemma amount_key_le v : 0 <= v < 2 ^ 64 -> amount_key v = le_bytes 32 v.
Proof.
  intros Hv. unfold amount_key. apply le_bytes_unique.
  - split; [|rewrite length_app, length_map, length_seq, repeat_length; reflexivity]. apply bytes_app.
    + apply Forall_forall. intros b Hb. apply in_map_iff in Hb as (i & <- & _). change 255 with (Z.ones 8). rewrite Z.land_ones by lia. apply Z.mod_pos_bound. lia.
    + apply Forall_forall. intros b Hb%repeat_spec. subst b. unfold is_byte. lia.
  - rewrite le_val_padded. assert (map (fun i => Z.land (Z.shiftr v (8 * Z.of_nat i)) 255) (seq 0 8) = le_bytes 8 v) as ->.
    { apply nth_error_ext. intros i. destruct (le_lt_dec 8 i) as [L|L].
      - rewrite !(proj2 (nth_error_None _ _)); [reflexivity | now rewrite length_le_bytes | now rewrite length_map, length_seq].
      - rewrite nth_error_map_seq, nth_error_le_bytes by exact L. change 255 with (Z.ones 8). rewrite Z.land_ones, Z.shiftr_div_pow2, Z.pow_mul_r by lia. reflexivity. }
    rewrite le_val_le_bytes. apply Z.mod_small. exact Hv.
Qed.

(** ** The polynomial *)

Section Poly.
  Variables (v y z x : Z) (sL sR : nat -> Z).

Let aL (i : nat) : Z := bit v i - 1 * z.
Let aR (i : nat) : Z := bit v i - 1 + 1 * z.
Let yp (i : nat) : Z := y ^ Z.of_nat i.
Let tz (i : nat) : Z := 2 ^ Z.of_nat i * (z * z).

Definition poly_1 : Z :=
  0 + zsum 64 (fun i => aL i * (yp i * sR i)) + zsum 64 (fun i => sL i * (yp i * aR i + tz i)).
Definition poly_2 : Z := 0 + zsum 64 (fun i => sL i * (yp i * sR i)).

Definition eval_l (i : nat) : Z := aL i + sL i * x.
Definition eval_r (i : nat) : Z := yp i * (aR i + sR i * x) + tz i.
Definition eval_t : Z := zsum 64 (fun i => eval_l i * eval_r i).

Lemma bit_square i : bit v i * (bit v i - 1) = 0.
Proof. destruct (bit_cases v i) as [-> | ->]; reflexivity. Qed.

Lemma eval_term i :
  eval_l i * eval_r i = z * z * (bit v i * 2 ^ Z.of_nat i) + (z - z * z) * y ^ Z.of_nat i - z * z * z * 2 ^ Z.of_nat i
    + x * (aL i * (yp i * sR i)) + x * (sL i * (yp i * aR i + tz i)) + x * x * (sL i * (yp i * sR i)).
Proof.
  unfold eval_l, eval_r, aL, aR, yp, tz. pose proof (bit_square i) as E. apply Z.sub_move_0_r.
  transitivity (bit v i * (bit v i - 1) * y ^ Z.of_nat i); [ring | rewrite E; ring].
Qed.

Lemma eval_sum n :
  zsum n (fun i => eval_l i * eval_r i) = z * z * zsum n (fun i => bit v i * 2 ^ Z.of_nat i)
    + ((z - z * z) * zsum n (fun i => y ^ Z.of_nat i) - z * z * z * zsum n (fun i => 2 ^ Z.of_nat i))
    + x * (0 + zsum n (fun i => aL i * (yp i * sR i)) + zsum n (fun i => sL i * (yp i * aR i + tz i)))
    + x * x * (0 + zsum n (fun i => sL i * (yp i * sR i))).
Proof. induction n as [|n IH]; cbn [zsum]; [ring|]. rewrite IH, eval_term. ring. Qed.

(** The value at the challenge, from the commitments to the coefficients. *)
Lemma eval_poly : 0 <= v < 2 ^ 64 -> eval_t = z * z * v + delta y z + x * poly_1 + x * x * poly_2.
Proof.
  intros Hv. unfold eval_t. rewrite eval_sum, zsum_bits, (Z.mod_small v) by (lia || exact Hv). unfold delta, sum_two, poly_1, poly_2. reflexivity.
Qed.

Definition the_poly : bp_poly -> Prop := fun po =>
  po_t1 po = enc_scalar poly_1 /\ po_t2 po = enc_scalar poly_2 /\ po_yN po = vec 64 yp /\ po_zsq po = enc_scalar (z * z) /\
  po_2zsq po = vec 64 tz /\ po_aL po = vec 64 aL /\ po_aR po = vec 64 aR.

Lemma prove_poly_spec :
  0 <= v < 2 ^ 64 ->
  oreturns (prove_poly (le_bytes 32 v) (vec 64 (fun i => bit v i)) (vec 64 (fun i => bit v i - 1)) (vec 64 sL) (vec 64 sR) (enc_scalar y) (enc_scalar z)) the_poly.
Proof.
  intros Hv. destruct (amount_scalar v Hv) as (H255 & Ev & _). pose proof (sval_val _ H255) as Hsv. rewrite Ev in Hsv.
  unfold prove_poly. rewrite oneN_vec, bind_Some, vector_powers_vec, bind_Some, inner_product_vec, obind_Returns by lia. set (ip := zsum 64 _). clearbody ip.
  rewrite zero_enc, (sc_muladd_val _ _ _ z ip 0), bind_Some, (sc_mul_val _ _ z z), bind_Some by apply sval_enc.
  rewrite (sc_muladd_val _ _ _ (z * z) v (0 + z * ip)), bind_Some by (apply sval_enc || exact Hsv).
  rewrite (sc_mulsub_val _ _ _ (z * z) ip 0), bind_Some, (sc_mul_val _ _ (z * z) z), bind_Some, ip12_enc, obind_Returns by apply sval_enc.
  rewrite (sc_mulsub_val _ _ _ (z * z * z) sum_two (0 - z * z * ip)), bind_Some by apply sval_enc.
  rewrite (sc_add_val _ _ (0 + z * ip + z * z * v) (0 - z * z * ip - z * z * z * sum_two)), bind_Some by apply sval_enc.
  rewrite hadamard_vec, obind_Returns, (vector_scalar_vec _ _ _ z), bind_Some, twoN_vec, bind_Some, (vector_scalar_vec _ _ _ (z * z)), bind_Some by apply sval_enc.
  rewrite vector_subtract_vec, obind_Returns, vector_add_vec, obind_Returns, inner_product_vec, obind_Returns. fold aL aR.
  rewrite (sc_add_val _ _ 0 _ (sval_enc _) (sval_enc _)), bind_Some, hadamard_vec, obind_Returns, vector_add_vec, obind_Returns, inner_product_vec, obind_Returns.
  rewrite (sc_add_val _ _ _ _ (sval_enc _) (sval_enc _)), bind_Some, inner_product_vec, obind_Returns, (sc_add_val _ _ 0 _ (sval_enc _) (sval_enc _)), bind_Some.
  cbn [oreturns returns]. unfold the_poly. cbn [po_t1 po_t2 po_yN po_zsq po_2zsq po_aL po_aR]. unfold poly_1, poly_2, yp, tz, aL, aR.
  split; [|split; [|split; [|split; [|split; [|split]]]]]; reflexivity.
Qed.

Lemma prove_eval_spec po :
  the_poly po -> prove_eval po (vec 64 sL) (vec 64 sR) (enc_scalar x) = Some (Returns (vec 64 eval_l, vec 64 eval_r, enc_scalar eval_t)).
Proof.
  intros (_ & _ & Ey & _ & E2 & El & Er). unfold prove_eval. rewrite Ey, E2, El, Er.
  rewrite (vector_scalar_vec _ _ _ x), bind_Some, vector_add_vec, obind_Returns by apply sval_enc.
  rewrite (vector_scalar_vec _ _ _ x), bind_Some, vector_add_vec, obind_Returns, hadamard_vec, obind_Returns, vector_add_vec, obind_Returns by apply sval_enc.
  rewrite inner_product_vec, obind_Returns. unfold eval_t, eval_l, eval_r. reflexivity.
Qed.
End Poly.

(** ** One round of the inner product argument *)

Lemma cong_by m X Y w i : (w * i) mod ell = 1 -> X = Y + (w * i - 1) * m -> X mod ell = Y mod ell.
Proof.
  intros E ->. assert ((w * i - 1) mod ell = 0) as E0 by (rewrite Zminus_mod, E; reflexivity).
  rewrite Zplus_mod, Zmult_mod, E0, Z.mul_0_l, Z.mod_0_l, Z.add_0_r, Z.mod_mod by discriminate. reflexivity.
Qed.

Lemma in_subgroup_add P Q : in_subgroup P -> in_subgroup Q -> in_subgroup (ed_add P Q).
Proof.
  intros [HP EP] [HQ EQ]. split; [auto with curve|]. rewrite ed_mul_distr, EP, EQ by assumption. apply ed_add_0_l.
Qed.

Lemma in_subgroup_lin a P b Q : in_subgroup P -> in_subgroup Q -> in_subgroup (lin a P b Q).
Proof. intros HP HQ. apply in_subgroup_add; now apply mul_in_subgroup. Qed.

(** Points of the subgroup. *)
Ltac subgroup :=
  repeat match goal with
  | |- in_subgroup (ed_add _ _) => apply in_subgroup_add
  | |- in_subgroup (lin _ _ _ _) => apply in_subgroup_lin
  | |- in_subgroup (ed_mul _ _) => apply mul_in_subgroup
  | |- in_subgroup base_point => exact base_in_subgroup
  | |- in_subgroup H_point => exact H_in_subgroup
  | H : in_subgroup ?P |- in_subgroup ?P => exact H
  end.

(** The commitment to two vectors and their product, at one index. *)
Definition ip_term (xip : Z) (a b : nat -> Z) (G H : nat -> point) (i : nat) : point :=
  ed_add (lin (a i) (G i) (b i) (H i)) (ed_mul (a i * b i * xip) H_point).

Definition cross_L (n : nat) (xip : Z) (a b : nat -> Z) (G H : nat -> point) (i : nat) : point :=
  ed_add (lin (a i) (G (n + i)%nat) (b (n + i)%nat) (H i)) (ed_mul (a i * b (n + i)%nat * xip) H_point).
Definition cross_R (n : nat) (xip : Z) (a b : nat -> Z) (G H : nat -> point) (i : nat) : point :=
  ed_add (lin (a (n + i)%nat) (G i) (b i) (H (n + i)%nat)) (ed_mul (a (n + i)%nat * b i * xip) H_point).

Definition half_a (n : nat) (w : Z) (a : nat -> Z) (i : nat) : Z := a i * w + a (n + i)%nat * inv w.
Definition half_b (n : nat) (w : Z) (b : nat -> Z) (i : nat) : Z := b i * inv w + b (n + i)%nat * w.
Definition half_G (n : nat) (w : Z) (G : nat -> point) (i : nat) : point := lin (inv w) (G i) w (G (n + i)%nat).
Definition half_H (n : nat) (w : Z) (H : nat -> point) (i : nat) : point := lin w (H i) (inv w) (H (n + i)%nat).

Lemma round_term n xip w a b G H i :
  w mod ell <> 0 -> in_subgroup (G i) -> in_subgroup (G (n + i)%nat) -> in_subgroup (H i) -> in_subgroup (H (n + i)%nat) ->
  ip_term xip (half_a n w a) (half_b n w b) (half_G n w G) (half_H n w H) i
    = ed_add (ed_add (ip_term xip a b G H i) (ip_term xip a b G H (n + i)))
        (lin (w * w) (cross_L n xip a b G H i) (inv w * inv w) (cross_R n xip a b G H i)).
Proof.
  intros Hw G1 G2 H1 H2. pose proof (inv_ell w Hw) as E. pose proof H_in_subgroup as SH.
  unfold ip_term, cross_L, cross_R, half_G, half_H, half_a, half_b. revert E. generalize (inv w). intros v E.
  destruct G1 as [CG1 EG1], G2 as [CG2 EG2], H1 as [CH1 EH1], H2 as [CH2 EH2], SH as [CSH ESH].
  point_eq; try assumption; right; (split; [now split|]).
  - apply (cong_by (a i) _ _ w v E). ring.
  - apply (cong_by (a (n + i)%nat) _ _ w v E). ring.
  - apply (cong_by (b i) _ _ w v E). ring.
  - apply (cong_by (b (n + i)%nat) _ _ w v E). ring.
  - apply (cong_by ((a i * b i + a (n + i)%nat * b (n + i)%nat) * xip) _ _ w v E). ring.
Qed.

Lemma ip_term_subgroup xip a b G H i : in_subgroup (G i) -> in_subgroup (H i) -> in_subgroup (ip_term xip a b G H i).
Proof. intros. unfold ip_term. subgroup. Qed.

(** A sum of terms with multiples of one point. *)
Lemma psum_products n xip P f Q :
  on_curve Q -> (forall i, (i < n)%nat -> on_curve (P i)) ->
  psum n (fun i => ed_add (P i) (ed_mul (f i * xip) Q)) = ed_add (psum n P) (ed_mul (zsum n f * xip) Q).
Proof.
  intros HQ HP. rewrite psum_add, (psum_zsum n (fun i => f i * xip)) by auto with curve. do 2 f_equal.
  rewrite (zsum_ext n _ (fun i => xip * f i)), zsum_mul by (intros; ring). ring.
Qed.

Section Round.
  Context {FH : FastHash} {BN : BigNum}.
  Variables (n : nat) (xip c : Z) (a b : nat -> Z) (G H : nat -> point) (Ls0 Rs0 : list key).
  Hypothesis Hn : (0 < n <= 32)%nat.
  Hypothesis HG : forall i, (i < n + n)%nat -> in_subgroup (G i).
  Hypothesis HH : forall i, (i < n + n)%nat -> in_subgroup (H i).

Definition round_L : point := psum n (cross_L n xip a b G H).
Definition round_R : point := psum n (cross_R n xip a b G H).

Lemma cross_subgroup i : (i < n)%nat -> in_subgroup (cross_L n xip a b G H i) /\ in_subgroup (cross_R n xip a b G H i).
Proof.
  intros Hi. assert (in_subgroup (G i) /\ in_subgroup (G (n + i)%nat) /\ in_subgroup (H i) /\ in_subgroup (H (n + i)%nat)) as (? & ? & ? & ?)
    by (repeat split; apply HG || apply HH; lia).
  unfold cross_L, cross_R. split; subgroup.
Qed.

Lemma round_LR_subgroup : in_subgroup round_L /\ in_subgroup round_R.
Proof. split; apply psum_subgroup; intros i Hi; now apply cross_subgroup. Qed.

(** The sum of the terms after the round. *)
Lemma round_sums w :
  w mod ell <> 0 ->
  psum n (ip_term xip (half_a n w a) (half_b n w b) (half_G n w G) (half_H n w H))
    = ed_add (psum (n + n) (ip_term xip a b G H)) (lin ((w * w) mod ell) round_L ((inv w * inv w) mod ell) round_R).
Proof.
  intros Hw. destruct round_LR_subgroup as [SL SR]. unfold lin. rewrite !ed_mul_residue by assumption. fold (lin (w * w) round_L (inv w * inv w) round_R).
  assert (forall i, (i < n)%nat -> in_subgroup (G i) /\ in_subgroup (G (n + i)%nat) /\ in_subgroup (H i) /\ in_subgroup (H (n + i)%nat)) as HS
    by (intros i Hi; repeat split; apply HG || apply HH; lia).
  assert (forall i, (i < n)%nat -> on_curve (ip_term xip a b G H i) /\ on_curve (ip_term xip a b G H (n + i))) as HT
    by (intros i Hi; destruct (HS i Hi) as (? & ? & ? & ?); split; now apply ip_term_subgroup).
  assert (forall i, (i < n)%nat -> on_curve (cross_L n xip a b G H i) /\ on_curve (cross_R n xip a b G H i)) as HC by (intros i Hi; split; apply cross_subgroup, Hi).
  rewrite (psum_ext n _ (fun i => ed_add (ed_add (ip_term xip a b G H i) (ip_term xip a b G H (n + i)))
    (lin (w * w) (cross_L n xip a b G H i) (inv w * inv w) (cross_R n xip a b G H i))))
    by (intros i Hi; destruct (HS i Hi) as (? & ? & ? & ?); now apply round_term).
  rewrite psum_add by (intros i Hi; destruct (HT i Hi), (HC i Hi); auto with curve). rewrite psum_add by (intros i Hi; now apply HT).
  rewrite psum_split by (intros i Hi; apply ip_term_subgroup; [apply HG | apply HH]; lia). f_equal. unfold lin.
  rewrite psum_add by (intros i Hi; destruct (HC i Hi); auto with curve). now rewrite !psum_mul by (intros i Hi; now apply HC).
Qed.

Lemma exponent_round {T} P Q f g d (K : key -> option (outcome T)) :
  (forall i, (i < n)%nat -> in_subgroup (P i)) -> (forall i, (i < n)%nat -> in_subgroup (Q i)) ->
  (let? L := vector_exponent_custom (pvec n P) (pvec n Q) (vec n f) (vec n g) in
   let! tmp := sc_mul (enc_scalar d) (enc_scalar xip) in
   let? tH := scalarmultKey rct_H tmp in
   let? L := addKeys L tH in
   K L) = K (encode (ed_add (psum n (fun i => lin (f i) (P i) (g i) (Q i))) (ed_mul (d * xip) H_point))).
Proof.
  intros HP HQ. pose proof (fun k v => @scalarmultH_val k v) as HK. revert HK. generalize rct_H. intros rH HK.
  rewrite vector_exponent_custom_vec, obind_Returns by (assumption || lia).
  rewrite (sc_mul_val _ _ d xip (sval_enc _) (sval_enc _)), bind_Some, (HK _ _ (sval_enc _)), obind_Returns.
  rewrite addKeys_enc, obind_Returns; [reflexivity | | auto with curve]. apply psum_on_curve. intros i Hi. destruct (HP i Hi), (HQ i Hi). auto with curve.
Qed.

Definition next_w : Z := challenge c [encode round_L; encode round_R].

(** The state after the round. *)
Definition next_state : ip_state :=
  IpState (pvec n (half_G n next_w G)) (pvec n (half_H n next_w H)) (vec n (half_a n next_w a)) (vec n (half_b n next_w b))
    (Ls0 ++ [encode round_L]) (Rs0 ++ [encode round_R]) (enc_scalar next_w).

Lemma round_L_products :
  round_L = ed_add (psum n (fun i => lin (a i) (G (n + i)%nat) (b (n + i)%nat) (H i))) (ed_mul (zsum n (fun i => a i * b (n + i)%nat) * xip) H_point) /\
  round_R = ed_add (psum n (fun i => lin (a (n + i)%nat) (G i) (b i) (H (n + i)%nat))) (ed_mul (zsum n (fun i => a (n + i)%nat * b i) * xip) H_point).
Proof.
  split; rewrite <- psum_products; try reflexivity; try exact H_on_curve; intros i Hi; apply lin_on_curve; apply HG || apply HH; lia.
Qed.

Lemma prove_round_enc :
  prove_round (enc_scalar xip) n (IpState (pvec (n + n) G) (pvec (n + n) H) (vec (n + n) a) (vec (n + n) b) Ls0 Rs0 (enc_scalar c))
    = Some (if next_w mod ell =? 0 then Throws "Failed to invert" else Returns next_state).
Proof.
  assert (forall i, (i < n)%nat -> in_subgroup (G i) /\ in_subgroup (G (n + i)%nat) /\ in_subgroup (H i) /\ in_subgroup (H (n + i)%nat)) as HS
    by (intros i Hi; repeat split; apply HG || apply HH; lia).
  unfold prove_round. cbn [ip_G ip_H ip_a ip_b ip_L ip_R ip_cache]. unfold vec at 1 2 3 4 5 6. unfold pvec at 1 2 3 4 5 6.
  rewrite !slice_first, !slice_second, !obind_Returns by lia.
  fold (vec n a) (vec n b) (pvec n G) (pvec n H) (vec n (fun i => a (n + i)%nat)) (vec n (fun i => b (n + i)%nat)) (pvec n (fun i => G (n + i)%nat)) (pvec n (fun i => H (n + i)%nat)).
  rewrite !inner_product_vec, !obind_Returns. rewrite exponent_round by (intros i Hi; now apply HS). rewrite exponent_round by (intros i Hi; now apply HS).
  destruct round_L_products as [<- <-]. rewrite mash_enc, bind_Some by (constructor; [apply encode_scalar | constructor; [apply encode_scalar | constructor]]).
  fold next_w. rewrite invert_enc. destruct (next_w mod ell =? 0); [reflexivity|]. rewrite obind_Returns.
  rewrite (vector_scalar2_vec n G _ (inv next_w)), obind_Returns by ((intros i Hi; now apply HS) || apply sval_enc).
  rewrite (vector_scalar2_vec n (fun i => G (n + i)%nat) _ next_w), obind_Returns by ((intros i Hi; now apply HS) || apply sval_enc).
  rewrite hadamard2_vec, obind_Returns by (intros i Hi; apply ed_mul_on_curve; now apply HS).
  rewrite (vector_scalar2_vec n H _ next_w), obind_Returns by ((intros i Hi; now apply HS) || apply sval_enc).
  rewrite (vector_scalar2_vec n (fun i => H (n + i)%nat) _ (inv next_w)), obind_Returns by ((intros i Hi; now apply HS) || apply sval_enc).
  rewrite hadamard2_vec, obind_Returns by (intros i Hi; apply ed_mul_on_curve; now apply HS).
  rewrite (vector_scalar_vec n a _ next_w), bind_Some, (vector_scalar_vec n (fun i => a (n + i)%nat) _ (inv next_w)), bind_Some, vector_add_vec, obind_Returns by apply sval_enc.
  rewrite (vector_scalar_vec n b _ (inv next_w)), bind_Some, (vector_scalar_vec n (fun i => b (n + i)%nat) _ next_w), bind_Some, vector_add_vec, obind_Returns by apply sval_enc.
  reflexivity.
Qed.
End Round.

(** ** The rounds *)

Section Rounds.
  Context {FH : FastHash} {RB : RandomBytes} {BN : BigNum}.

(** Keys whose hash is the scalar zero. *)
Definition zero_hash : Prop := exists ks, Forall scalar ks /\ hash_to_scalar_keyV ks = Some zero.

Lemma zero_challenge c ks : Forall scalar ks -> challenge c ks mod ell = 0 -> zero_hash.
Proof.
  intros Hk E. exists (enc_scalar c :: ks). split; [constructor; [apply enc_scalar_scalar | exact Hk]|].
  rewrite hash_keyV_enc, zero_enc by (constructor; [apply enc_scalar_scalar | exact Hk]). f_equal. now apply enc_scalar_cong.
Qed.

(** The results of the rounds: the last scalars and the points, which satisfy the equation. *)
Definition rounds_result (k : nat) (xip c : Z) (a b : nat -> Z) (G H : nat -> point) (Ls0 Rs0 : list key) (st : ip_state) : Prop :=
  exists Ls Rs a' b', ip_a st = [enc_scalar a'] /\ ip_b st = [enc_scalar b'] /\
    ip_L st = Ls0 ++ map encode Ls /\ ip_R st = Rs0 ++ map encode Rs /\ List.length Ls = k /\ List.length Rs = k /\
    Forall in_subgroup Ls /\ Forall in_subgroup Rs /\
    let ws := round_challenges c Ls Rs in
    Forall (fun w => w mod ell <> 0) ws /\
    ed_add (psum (2 ^ k) (ip_term xip a b G H)) (round_sum ws Ls Rs)
      = ed_add (lin a' (fold_points (g_pairs ws) G) b' (fold_points (h_pairs ws) H)) (ed_mul (a' * b' * xip) H_point).

Definition throws_or (o : outcome ip_state) (Q : ip_state -> Prop) : Prop :=
  match o with
  | Throws what => what = "Failed to invert"%string /\ zero_hash
  | Returns st => Q st
  end.

Lemma pow_32 k : (k <= 5)%nat -> (0 < 2 ^ k <= 32)%nat.
Proof. intros Hk. change 32%nat with (2 ^ 5)%nat. split; [apply Nat.neq_0_lt_0, Nat.pow_nonzero; lia | apply Nat.pow_le_mono_r; lia]. Qed.

Lemma prove_rounds_spec xip k : forall c a b G H Ls0 Rs0,
  (k <= 6)%nat -> (forall i, (i < 2 ^ k)%nat -> in_subgroup (G i)) -> (forall i, (i < 2 ^ k)%nat -> in_subgroup (H i)) ->
  exists o, prove_rounds k (enc_scalar xip) (2 ^ k) (IpState (pvec (2 ^ k) G) (pvec (2 ^ k) H) (vec (2 ^ k) a) (vec (2 ^ k) b) Ls0 Rs0 (enc_scalar c)) = Some o /\
    throws_or o (rounds_result k xip c a b G H Ls0 Rs0).
Proof.
  induction k as [|k IH]; intros c a b G H Ls0 Rs0 Hk HG HH.
  - eexists. split; [reflexivity|]. exists [], [], (a O), (b O). cbn [map round_challenges round_sum fold_points g_pairs h_pairs Nat.pow psum List.length].
    rewrite !app_nil_r. repeat (split; [reflexivity || constructor|]). rewrite ed_add_0_l, ed_add_0_r. reflexivity.
  - assert ((1 <? 2 ^ S k)%nat = true) as L1 by (apply Nat.ltb_lt; rewrite pow_2_S; pose proof (pow_32 k ltac:(lia)); lia).
    cbn [prove_rounds]. rewrite L1. assert (2 ^ S k / 2 = 2 ^ k)%nat as -> by (rewrite Nat.pow_succ_r', Nat.mul_comm; now apply Nat.div_mul).
    rewrite pow_2_S in *. set (n := (2 ^ k)%nat) in *. assert (0 < n <= 32)%nat as Hn by (apply pow_32; lia).
    rewrite (prove_round_enc n xip c a b G H Ls0 Rs0 Hn HG HH). set (w := next_w n xip c a b G H) in *. destruct (Z.eqb_spec (w mod ell) 0) as [E0|N0].
    + eexists. split; [reflexivity|]. split; [reflexivity|]. apply (zero_challenge c [encode (round_L n xip a b G H); encode (round_R n xip a b G H)]); [|exact E0].
      constructor; [apply encode_scalar | constructor; [apply encode_scalar | constructor]].
    + rewrite obind_Returns. unfold next_state. fold w. set (L := round_L n xip a b G H) in *. set (R := round_R n xip a b G H) in *.
      destruct (IH w (half_a n w a) (half_b n w b) (half_G n w G) (half_H n w H) (Ls0 ++ [encode L]) (Rs0 ++ [encode R]) ltac:(lia)) as (o & E & Ho).
      * intros i Hi. apply in_subgroup_lin; apply HG; lia.
      * intros i Hi. apply in_subgroup_lin; apply HH; lia.
      * exists o. split; [exact E|]. destruct o as [st|what]; [|exact Ho]. destruct Ho as (Ls & Rs & a' & b' & Ea & Eb & EL & ER & LL & LR & SL & SR & Hw & Eq).
        destruct (round_LR_subgroup n xip a b G H Hn HG HH) as [SL1 SR1]. fold L in SL1. fold R in SR1.
        exists (L :: Ls), (R :: Rs), a', b'. rewrite EL, ER, <- !app_assoc. cbn [map app List.length]. rewrite LL, LR.
        split; [exact Ea|]. split; [exact Eb|]. do 4 (split; [reflexivity|]). do 2 (split; [now constructor|]). cbn [round_challenges]. change (challenge c [encode L; encode R]) with w. cbv zeta in Eq |- *.
        split; [now constructor|]. cbn [round_sum g_pairs h_pairs map fold_points]. rewrite !length_map, length_rounds, LL by lia. fold n.
        fold (half_G n w G) (half_H n w H) (g_pairs (round_challenges w Ls Rs)) (h_pairs (round_challenges w Ls Rs)).
        rewrite <- Eq. fold n. rewrite (round_sums n xip a b G H Hn HG HH w N0). fold L R. rewrite pow_2_S. fold n. symmetry. apply ed_add_assoc.
        -- apply psum_on_curve. intros i Hi. apply ip_term_subgroup; [apply HG | apply HH]; exact Hi.
        -- apply lin_on_curve; [apply SL1 | apply SR1].
        -- apply round_sum_on_curve; eapply Forall_impl; try eassumption; now intros P [? _].
Qed.
End Rounds.

(** ** The equations of the prover *)

Lemma fold_points_subgroup ws : forall P, (forall i, (i < 2 ^ List.length ws)%nat -> in_subgroup (P i)) -> in_subgroup (fold_points ws P).
Proof.
  induction ws as [|[u v] ws IH]; intros P HP; cbn [fold_points]; [apply HP; cbn; lia|].
  cbn [List.length] in HP. rewrite pow_2_S in HP. apply IH. intros i Hi. apply in_subgroup_lin; apply HP; lia.
Qed.

Lemma pow_inv y i : y mod ell <> 0 -> (y ^ Z.of_nat i * inv y ^ Z.of_nat i) mod ell = 1.
Proof.
  intros Hy. rewrite <- Z.pow_mul_l. rewrite <- Z.mod_pow_l, inv_ell, Z.pow_1_l by (exact Hy || lia). reflexivity.
Qed.

Section Equations.
  Context {FH : FastHash}.
  Variables (v y z x : Z) (sL sR : nat -> Z).
  Hypothesis Hv : 0 <= v < 2 ^ 64.

Lemma poly_equation gamma tau1 tau2 t :
  t = eval_t v y z x sL sR ->
  line61_left (enc_scalar (tau1 * x + tau2 * (x * x) + gamma * (z * z))) (enc_scalar t)
    = line61_right y z x (pedersen gamma v) (lin (poly_1 v y z sL sR) H_point tau1 base_point) (lin (poly_2 y sL sR) H_point tau2 base_point).
Proof.
  intros ->. unfold line61_left, line61_right. rewrite (eval_poly v y z x sL sR Hv).
  rewrite (mul_val _ _ _ base_in_subgroup (sval_enc _)), (mul_val _ _ _ H_in_subgroup (sval_enc _)).
  assert (in_subgroup (pedersen gamma v)) as SV by (unfold pedersen; subgroup). assert (forall k tau, in_subgroup (lin k H_point tau base_point)) as ST by (intros; subgroup).
  rewrite !ed_mul_residue by (exact SV || apply ST). unfold pedersen. pose proof base_point_on_curve as CB. pose proof H_on_curve as CH. revert CB CH.
  generalize base_point, H_point, (poly_1 v y z sL sR), (poly_2 y sL sR), (delta y z). intros B H p1 p2 d CB CH. point_eq; try assumption; left; ring.
Qed.

(** The vectors at the challenge, from the two vector commitments and the public part. *)
Lemma vector_term i :
  y mod ell <> 0 -> (i < 64)%nat ->
  ed_add (ed_add (lin (bit v i) (gen_G i) (bit v i - 1) (gen_H i)) (ed_mul x (lin (sL i) (gen_G i) (sR i) (gen_H i)))) (shift_term y z i)
    = lin (eval_l v z x sL i) (gen_G i) (eval_r v y z x sR i) (scaled_H y i).
Proof.
  intros Hy Hi. pose proof (pow_inv y i Hy) as E. destruct (gen_G_subgroup i Hi) as [CG EG]. destruct (gen_H_subgroup i Hi) as [CH EH].
  unfold shift_term, scaled_H, eval_l, eval_r. revert E. generalize (inv y ^ Z.of_nat i), (y ^ Z.of_nat i), (2 ^ Z.of_nat i), (bit v i), (sL i), (sR i). intros u p q bt l r E.
  revert CG EG CH EH. generalize (gen_G i), (gen_H i). intros G H CG EG CH EH. point_eq; try assumption.
  - left. ring.
  - right. split; [now split|]. apply (cong_by (- (bt - 1 + r * x)) _ _ p u E). ring.
Qed.

Lemma commitment_equation alpha rho :
  y mod ell <> 0 ->
  ip_commitment y z x (ed_add (psum 64 (fun i => lin (bit v i) (gen_G i) (bit v i - 1) (gen_H i))) (ed_mul alpha base_point))
    (ed_add (psum 64 (fun i => lin (sL i) (gen_G i) (sR i) (gen_H i))) (ed_mul rho base_point)) (enc_scalar (alpha + x * rho))
  = psum 64 (fun i => lin (eval_l v z x sL i) (gen_G i) (eval_r v y z x sR i) (scaled_H y i)).
Proof.
  intros Hy. unfold ip_commitment.
  assert (forall i, (i < 64)%nat -> on_curve (lin (bit v i) (gen_G i) (bit v i - 1) (gen_H i)) /\ on_curve (lin (sL i) (gen_G i) (sR i) (gen_H i)) /\ on_curve (shift_term y z i)) as HC.
  { intros i Hi. destruct (gen_G_subgroup i Hi) as [CG _]. destruct (gen_H_subgroup i Hi) as [CH _]. split; [|split]; [auto with curve | auto with curve | now apply shift_term_on_curve]. }
  rewrite <- (psum_ext 64 _ _ (fun i Hi => vector_term i Hy Hi)).
  rewrite psum_add by (intros i Hi; destruct (HC i Hi) as (? & ? & ?); auto with curve).
  rewrite psum_add, psum_mul by (intros i Hi; destruct (HC i Hi) as (? & ? & ?); auto with curve).
  assert (on_curve (psum 64 (fun i => lin (bit v i) (gen_G i) (bit v i - 1) (gen_H i))) /\ on_curve (psum 64 (fun i => lin (sL i) (gen_G i) (sR i) (gen_H i))) /\
    on_curve (psum 64 (shift_term y z))) as (C1 & C2 & C3) by (split; [|split]; apply psum_on_curve; intros i Hi; apply HC; exact Hi).
  revert C1 C2 C3. generalize (psum 64 (fun i => lin (bit v i) (gen_G i) (bit v i - 1) (gen_H i))), (psum 64 (fun i => lin (sL i) (gen_G i) (sR i) (gen_H i))), (psum 64 (shift_term y z)).
  intros P1 P2 P3 C1 C2 C3. pose proof base_point_on_curve as CB. point_eq; try assumption; try (left; ring). right. split; [exact base_in_subgroup|].
  rewrite le_val_enc_scalar. set (m := alpha + x * rho). match goal with |- ?X mod _ = ?Y mod _ => replace X with (m - m mod ell) by (unfold m; ring); replace Y with 0 by ring end.
  rewrite Zminus_mod_idemp_r, Z.sub_diag. reflexivity.
Qed.
End Equations.

(** ** The code of the prover *)

Section Prove.
  Context {FH : FastHash} {RB : RandomBytes} {BN : BigNum}.

Lemma skGen_enc r : rng_ready r -> returns (skGen r) (fun '(k, r') => exists s, k = enc_scalar s /\ rng_ready r').
Proof.
  intros Hr. eapply returns_weaken; [now apply skGen_spec|]. intros [k r'] [[Hs Hl] Hr']. exists (le_val k). split; [now apply enc_scalar_val | exact Hr'].
Qed.

Lemma skvGen_enc r : rng_ready r -> oreturns (skvGen 64 r) (fun '(ks, r') => exists f, ks = vec 64 f /\ rng_ready r').
Proof.
  intros Hr. destruct (oreturns_some _ _ (skvGen_spec 64 r ltac:(lia) Hr)) as ([ks r'] & -> & L & F & Hr'). cbn.
  exists (fun i => le_val (nth i ks [])). split; [|exact Hr']. pose proof (reduced_vec ks F) as E. rewrite L in E. exact E.
Qed.

Lemma prove_commit_spec ex f g r :
  filled 64 ex -> rng_ready r ->
  oreturns (prove_commit ex (vec 64 f) (vec 64 g) r) (fun '(k, P, r') => exists s, k = enc_scalar s /\ rng_ready r' /\
    P = encode (ed_add (psum 64 (fun i => lin (f i) (gen_G i) (g i) (gen_H i))) (ed_mul s base_point))).
Proof.
  intros F Hr. unfold prove_commit. eapply returns_bind; [now apply skGen_enc|]. cbv beta. intros [k r'] (s & -> & Hr').
  rewrite (vector_exponent_vec ex F), obind_Returns, (scalarmultBase_val _ _ (sval_enc _)), bind_Some by lia.
  rewrite addKeys_enc, obind_Returns; [cbn; eauto | | auto with curve].
  apply psum_on_curve. intros i Hi. apply lin_on_curve; [apply gen_G_subgroup | apply gen_H_subgroup]; exact Hi.
Qed.

Lemma prove_coef_enc t tau : prove_coef (enc_scalar t) (enc_scalar tau) = Some (Returns (encode (lin t H_point tau base_point))).
Proof.
  pose proof (fun k v => @scalarmultH_val k v) as HK. unfold prove_coef. revert HK. generalize rct_H. intros rH HK. rewrite (HK _ _ (sval_enc _)), obind_Returns, (scalarmultBase_val _ _ (sval_enc _)), bind_Some.
  apply addKeys_enc; auto with curve.
Qed.

Lemma prove_H_loop ex y :
  filled 64 ex ->
  ofold (prove_H (ex_Hi ex) (enc_scalar (inv y))) (seq 0 64) ([], identity) = Some (Returns (pvec 64 (scaled_H y), enc_scalar (inv y ^ 64))).
Proof.
  intros (EH & _). rewrite EH. assert (([], identity) = (pvec 0 (scaled_H y), enc_scalar (inv y ^ Z.of_nat 0))) as -> by (rewrite Z.pow_0_r, <- identity_enc; reflexivity).
  apply (ofold_value _ (fun k => (pvec k (scaled_H y), enc_scalar (inv y ^ Z.of_nat k))) 64). intros i Hi. unfold prove_H. rewrite nth_pvec, bind_Some by exact Hi.
  rewrite (scalarmultKey_val _ _ _ (gen_H_subgroup i Hi) (sval_enc _)), obind_Returns, (sc_mul_val _ _ _ _ (sval_enc _) (sval_enc _)), bind_Some.
  unfold pvec. rewrite map_seq_S, Nat2Z.inj_succ, Z.pow_succ_r, (Z.mul_comm (inv y)) by lia. reflexivity.
Qed.

Lemma prove_inner_spec ex y xip l r :
  filled 64 ex -> y mod ell <> 0 ->
  exists o, prove_inner ex (enc_scalar y) (enc_scalar xip) (vec 64 l) (vec 64 r) = Some o /\
    throws_or o (rounds_result 6 xip xip l r gen_G (scaled_H y) [] []).
Proof.
  intros F Hy. unfold prove_inner. rewrite invert_enc. destruct (Z.eqb_spec (y mod ell) 0) as [E|_]; [contradiction|].
  rewrite obind_Returns, (prove_H_loop ex y F), obind_Returns. destruct F as (_ & EG & _). rewrite EG.
  rewrite firstn_all2 by (rewrite length_pvec; lia). change 64%nat with (2 ^ 6)%nat.
  apply (prove_rounds_spec xip 6 xip l r gen_G (scaled_H y) [] []); [lia | intros i Hi; apply gen_G_subgroup; exact Hi|].
  intros i Hi. apply mul_in_subgroup, gen_H_subgroup. exact Hi.
Qed.

(** The rounds give the equation of the verifier. *)
Lemma rounds_equation v y z x sL sR alpha rho xip st :
  y mod ell <> 0 ->
  let l := eval_l v z x sL in let r := eval_r v y z x sR in
  rounds_result 6 xip xip l r gen_G (scaled_H y) [] [] st ->
  exists Ls Rs a b, ip_a st = [enc_scalar a] /\ ip_b st = [enc_scalar b] /\ ip_L st = map encode Ls /\ ip_R st = map encode Rs /\
    List.length Ls = 6%nat /\ List.length Rs = 6%nat /\ Forall in_subgroup Ls /\ Forall in_subgroup Rs /\
    let ws := round_challenges xip Ls Rs in Forall (fun w => w mod ell <> 0) ws /\
    ip_equation y z x xip ws (ed_add (psum 64 (fun i => lin (bit v i) (gen_G i) (bit v i - 1) (gen_H i))) (ed_mul alpha base_point))
      (ed_add (psum 64 (fun i => lin (sL i) (gen_G i) (sR i) (gen_H i))) (ed_mul rho base_point))
      Ls Rs (enc_scalar (alpha + x * rho)) (enc_scalar a) (enc_scalar b) (enc_scalar (eval_t v y z x sL sR)).
Proof.
  intros Hy l r (Ls & Rs & a & b & Ea & Eb & EL & ER & LL & LR & SL & SR & Hw & Eq). exists Ls, Rs, a, b. cbn [app] in EL, ER.
  do 8 (split; [assumption|]). cbv zeta in *. split; [exact Hw|]. unfold ip_equation. rewrite (commitment_equation v y z x sL sR alpha rho Hy).
  set (ws := round_challenges xip Ls Rs) in *. assert (List.length ws = 6%nat) as Lw by (unfold ws; rewrite length_rounds; lia).
  assert (in_subgroup (fold_points (g_pairs ws) gen_G) /\ in_subgroup (fold_points (h_pairs ws) (scaled_H y))) as [SG SH].
  { split; apply fold_points_subgroup; unfold g_pairs, h_pairs; rewrite length_map, Lw; intros i Hi; [apply gen_G_subgroup, Hi | apply mul_in_subgroup, gen_H_subgroup, Hi]. }
  rewrite (lin_val _ _ _ _ a b SG SH (sval_enc _) (sval_enc _)).
  assert (ed_mul (le_val (enc_scalar a) * le_val (enc_scalar b) * xip) H_point = ed_mul (a * b * xip) H_point) as ->.
  { apply ed_mul_mod; [exact H_in_subgroup|]. rewrite !le_val_enc_scalar. apply mod_mul_cong; [|reflexivity]. apply mod_mul_cong; apply Z.mod_mod; discriminate. }
  assert (ed_mul (le_val (enc_scalar (eval_t v y z x sL sR)) * xip) H_point = ed_mul (eval_t v y z x sL sR * xip) H_point) as ->.
  { apply ed_mul_mod; [exact H_in_subgroup|]. rewrite !le_val_enc_scalar. apply mod_mul_cong; [|reflexivity]. apply Z.mod_mod; discriminate. }
  rewrite <- Eq. change (2 ^ 6)%nat with 64%nat. unfold ip_term. rewrite (psum_products 64 xip (fun i => lin (l i) (gen_G i) (r i) (scaled_H y i)) (fun i => l i * r i) H_point H_on_curve).
  - unfold eval_t. fold l r.
    assert (on_curve (psum 64 (fun i => lin (l i) (gen_G i) (r i) (scaled_H y i)))) as C1.
    { apply psum_on_curve. intros i Hi. apply lin_on_curve; [apply gen_G_subgroup, Hi | apply ed_mul_on_curve, gen_H_subgroup, Hi]. }
    assert (on_curve (round_sum ws Ls Rs)) as C2 by (apply round_sum_on_curve; eapply Forall_impl; try eassumption; now intros P [? _]).
    revert C1 C2. generalize (psum 64 (fun i => lin (l i) (gen_G i) (r i) (scaled_H y i))), (round_sum ws Ls Rs), (zsum 64 (fun i => l i * r i)). intros P1 P2 t C1 C2.
    pose proof H_on_curve as CH. point_eq; try assumption; left; ring.
  - intros i Hi. apply lin_on_curve; [apply gen_G_subgroup, Hi | apply ed_mul_on_curve, gen_H_subgroup, Hi].
Qed.
(** What the prover returns. *)
Definition proof_result (v : Z) (gamma : key) (o : outcome (Bulletproof * rng)) : Prop :=
  match o with
  | Throws what => what = "Failed to invert"%string /\ zero_hash
  | Returns (proof, r') => rng_ready r' /\ exists A S T1 T2 Ls Rs taux mu a b t,
      proof = proof_of (pedersen (le_val gamma) v) A S T1 T2 Ls Rs taux mu a b t /\
      Forall in_subgroup [A; S; T1; T2] /\ Forall in_subgroup Ls /\ Forall in_subgroup Rs /\ List.length Ls = 6%nat /\ List.length Rs = 6%nat /\
      Forall reduced_scalar [taux; mu; a; b; t] /\ bp_valid (pedersen (le_val gamma) v) A S T1 T2 Ls Rs taux mu a b t
  end.

Lemma vector_sum_subgroup f g s :
  in_subgroup (ed_add (psum 64 (fun i => lin (f i) (gen_G i) (g i) (gen_H i))) (ed_mul s base_point)).
Proof.
  subgroup. apply psum_subgroup. intros i Hi. apply in_subgroup_lin; [apply gen_G_subgroup, Hi | apply gen_H_subgroup, Hi].
Qed.

Lemma prove_spec ex v gamma r :
  exponents_ok ex -> 0 <= v < 2 ^ 64 -> scalar255 gamma -> rng_ready r ->
  exists o, bulletproof_PROVE ex (le_bytes 32 v) gamma r = Some o /\ proof_result v gamma o.
Proof.
  intros Hex Hv Hg Hr. unfold bulletproof_PROVE. destruct (oreturns_some _ _ (init_exponents_spec ex Hex)) as (ex' & -> & F & _). rewrite obind_Returns.
  destruct (amount_scalar v Hv) as (H255 & Ev & _). rewrite H_encode, (addKeys2_enc gamma _ H_point Hg H255 H_on_curve), obind_Returns, Ev, lin_comm. fold (pedersen (le_val gamma) v).
  set (V := pedersen (le_val gamma) v). rewrite prove_bits, bind_Some, !map_map by lia. cbn [fst snd]. fold (vec 64 (fun i => bit v i)) (vec 64 (fun i => bit v i - 1)).
  rewrite (hash_key_enc (encode V)), bind_Some by apply encode_scalar.
  destruct (oreturns_some _ _ (prove_commit_spec ex' (fun i => bit v i) (fun i => bit v i - 1) r F Hr)) as ([[ka A'] r1] & -> & alpha & -> & Hr1 & ->). rewrite obind_Returns.
  destruct (oreturns_some _ _ (skvGen_enc r1 Hr1)) as ([? r2] & -> & sL & -> & Hr2). rewrite obind_Returns.
  destruct (oreturns_some _ _ (skvGen_enc r2 Hr2)) as ([? r3] & -> & sR & -> & Hr3). rewrite obind_Returns.
  destruct (oreturns_some _ _ (prove_commit_spec ex' sL sR r3 F Hr3)) as ([[kr S'] r4] & -> & rho & -> & Hr4 & ->). rewrite obind_Returns.
  pose proof (vector_sum_subgroup (fun i => bit v i) (fun i => bit v i - 1) alpha) as SA. pose proof (vector_sum_subgroup sL sR rho) as SS.
  set (A := ed_add (psum 64 (fun i => lin (bit v i) (gen_G i) (bit v i - 1) (gen_H i))) (ed_mul alpha base_point)) in *.
  set (S := ed_add (psum 64 (fun i => lin (sL i) (gen_G i) (sR i) (gen_H i))) (ed_mul rho base_point)) in *.
  rewrite mash_enc, bind_Some by (repeat (constructor; [apply encode_scalar|]); constructor). fold (ch_y V A S). set (y := ch_y V A S).
  rewrite hash_key_enc, bind_Some by apply enc_scalar_scalar. fold (ch_z y). set (z := ch_z y).
  destruct (oreturns_some _ _ (prove_poly_spec v y z sL sR Hv)) as (po & -> & Hpo). rewrite obind_Returns.
  destruct (proj1 (returns_some _ _) (skGen_enc r4 Hr4)) as ([? r5] & -> & tau1 & -> & Hr5). rewrite bind_Some.
  destruct (proj1 (returns_some _ _) (skGen_enc r5 Hr5)) as ([? r6] & -> & tau2 & -> & Hr6). rewrite bind_Some.
  pose proof Hpo as (E1 & E2 & _ & Ez & _). rewrite E1, E2, Ez, !prove_coef_enc, !obind_Returns. clear E1 E2 Ez.
  set (T1 := lin (poly_1 v y z sL sR) H_point tau1 base_point). set (T2 := lin (poly_2 y sL sR) H_point tau2 base_point).
  rewrite mash_enc, bind_Some by (constructor; [apply enc_scalar_scalar | repeat (constructor; [apply encode_scalar|]); constructor]). fold (ch_x z T1 T2). set (x := ch_x z T1 T2).
  rewrite (sc_mul_val _ _ _ _ (sval_enc tau1) (sval_enc x)), bind_Some, (sc_mul_val _ _ _ _ (sval_enc x) (sval_enc x)), bind_Some.
  rewrite (sc_muladd_val _ _ _ _ _ _ (sval_enc tau2) (sval_enc _) (sval_enc _)), bind_Some, (sc_muladd_val _ _ _ _ _ _ (sval_val _ Hg) (sval_enc _) (sval_enc _)), bind_Some.
  rewrite (sc_muladd_val _ _ _ _ _ _ (sval_enc x) (sval_enc rho) (sval_enc alpha)), bind_Some, (prove_eval_spec v y z x sL sR po Hpo), obind_Returns.
  set (taux := enc_scalar (tau1 * x + tau2 * (x * x) + le_val gamma * (z * z))). set (mu := enc_scalar (alpha + x * rho)). set (t := enc_scalar (eval_t v y z x sL sR)).
  rewrite mash_enc, bind_Some by (repeat (constructor; [apply enc_scalar_scalar|]); constructor). fold (ch_ip x taux mu t). set (xip := ch_ip x taux mu t).
  destruct (Z.eq_dec (y mod ell) 0) as [E0|N0].
  - unfold prove_inner. rewrite invert_enc, E0, Z.eqb_refl. eexists. split; [reflexivity|]. split; [reflexivity|]. eapply zero_challenge; [|exact E0].
    repeat (constructor; [apply encode_scalar|]). constructor.
  - destruct (prove_inner_spec ex' y xip (eval_l v z x sL) (eval_r v y z x sR) F N0) as (o & -> & Ho). destruct o as [st|what]; [|eexists; split; [reflexivity | exact Ho]].
    destruct (rounds_equation v y z x sL sR alpha rho xip st N0 Ho) as (Ls & Rs & a & b & Ea & Eb & EL & ER & LL & LR & SL & SR & Hw & Eq). rewrite obind_Returns, Ea, Eb, EL, ER.
    cbn [nth_error]. rewrite !bind_Some. eexists. split; [reflexivity|]. cbn [proof_result]. split; [exact Hr6|].
    exists A, S, T1, T2, Ls, Rs, taux, mu, (enc_scalar a), (enc_scalar b), t. split; [reflexivity|].
    split; [constructor; [exact SA | constructor; [exact SS | constructor; [unfold T1; subgroup | constructor; [unfold T2; subgroup | constructor]]]]|].
    do 4 (split; [assumption|]). split; [repeat (constructor; [apply enc_scalar_reduced|]); constructor|].
    unfold bp_valid. cbv zeta. fold y z x xip. split; [exact (poly_equation v y z x sL sR Hv (le_val gamma) tau1 tau2 _ eq_refl)|].
    split; [exact N0|]. split; [exact Hw | exact Eq].
Qed.
End Prove.

(** The proof of an amount: its commitment, and that it is accepted; all its parts are keys. *)
Lemma prove_amount_spec {FH : FastHash} {RB : RandomBytes} {BN : BigNum} ex v gamma r :
  exponents_ok ex -> 0 <= v < 2 ^ 64 -> scalar255 gamma -> rng_ready r ->
  exists o, bulletproof_PROVE_amount ex v gamma r = Some o /\
    match o with
    | Throws what => what = "Failed to invert"%string /\ zero_hash
    | Returns (proof, r') => rng_ready r' /\ bp_V proof = [encode (pedersen (le_val gamma) v)] /\
        (forall ex', exponents_ok ex' -> bulletproof_VERIFY ex' proof = Some (Returns true)) /\
        Forall scalar ([bp_A proof; bp_S proof; bp_T1 proof; bp_T2 proof; bp_taux proof; bp_mu proof] ++
          bp_L proof ++ bp_R proof ++ [bp_a proof; bp_b proof; bp_t proof])
    end.
Proof.
  intros Hex Hv Hg Hr. unfold bulletproof_PROVE_amount. rewrite amount_key_le by exact Hv.
  destruct (prove_spec ex v gamma r Hex Hv Hg Hr) as (o & -> & Ho). exists o. split; [reflexivity|]. destruct o as [[proof r'] | what]; [|exact Ho].
  destruct Ho as (Hr' & A & S & T1 & T2 & Ls & Rs & taux & mu & a & b & t & -> & HP & HL & HR & LL & LR & Hk & Hvalid).
  split; [exact Hr'|]. split; [reflexivity|]. assert (forall P, in_subgroup P -> on_curve P) as Sub by (now intros P [? _]). split.
  - intros ex' Hex'. apply verify_valid; trivial; try (eapply Forall_impl; [|eassumption]; exact Sub).
    + constructor; [apply pedersen_on_curve | eapply Forall_impl; [exact Sub | exact HP]].
    + eapply Forall_impl; [exact reduced_255 | exact Hk].
  - assert (forall l, Forall scalar (map encode l)) as K by (intros l; apply Forall_forall; intros k (P & <- & _)%in_map_iff; apply encode_scalar).
    rewrite !Forall_cons_iff in Hk. unfold proof_of. cbn [bp_A bp_S bp_T1 bp_T2 bp_taux bp_mu bp_L bp_R bp_a bp_b bp_t app].
    repeat (constructor; [apply encode_scalar || apply Hk|]). rewrite !Forall_app. split; [apply K|]. split; [apply K|].
    repeat (constructor; [apply Hk|]). constructor.
Qed.

(** C16: bulletproofs are complete: for every amount of 64 bits, every mask and a working generator,
    from every state of the static arrays, [bulletproof_PROVE] returns a proof whose first key is
    the commitment to the amount with the mask, and [bulletproof_VERIFY] accepts the proof; the
    only other outcome is the exception of an inversion, and then some list of keys hashes to the
    scalar zero. *)
Theorem bulletproof_complete {FH : FastHash} {RB : RandomBytes} {BN : BigNum} ex v gamma r :
  exponents_ok ex -> 0 <= v < 2 ^ 64 -> scalar255 gamma -> rng_ready r ->
  (exists proof r' C, bulletproof_PROVE_amount ex v gamma r = Some (Returns (proof, r')) /\ rng_ready r' /\
     bp_V proof = [C] /\ commit v gamma = Some (Returns C) /\
     forall ex', exponents_ok ex' -> bulletproof_VERIFY ex' proof = Some (Returns true)) \/
  (bulletproof_PROVE_amount ex v gamma r = Some (Throws "Failed to invert") /\ zero_hash).
Proof.
  intros Hex Hv Hg Hr. destruct (prove_amount_spec ex v gamma r Hex Hv Hg Hr) as ([[proof r'] | what] & -> & Ho);
    [left | right; destruct Ho as [-> Hz]; auto].
  destruct Ho as (Hr' & HV & Hver & _). exists proof, r', (encode (pedersen (le_val gamma) v)).
  split; [reflexivity|]. split; [exact Hr'|]. split; [exact HV|]. split; [apply commit_enc; [exact Hv | now apply scalar255_scalar] | exact Hver].
Qed.

Lemma thousand : 0 <= 1000 < 2 ^ 64.
Proof. split; [discriminate | reflexivity]. Qed.

Lemma bulletproof_complete_witness :
  (exists proof r' C, bulletproof_PROVE_amount (RB := keccak_random) (BN := reference_numbers) unset_exponents 1000 (enc_scalar 7) seeded = Some (Returns (proof, r')) /\
     @rng_ready keccak_random r' /\ bp_V proof = [C] /\ commit 1000 (enc_scalar 7) = Some (Returns C) /\
     forall ex', exponents_ok ex' -> bulletproof_VERIFY (BN := reference_numbers) ex' proof = Some (Returns true)) \/
  (bulletproof_PROVE_amount (RB := keccak_random) (BN := reference_numbers) unset_exponents 1000 (enc_scalar 7) seeded = Some (Throws "Failed to invert") /\ zero_hash).
Proof.
  exact (bulletproof_complete (RB := keccak_random) (BN := reference_numbers) unset_exponents 1000 (enc_scalar 7) seeded unset_ok
    thousand (reduced_255 _ (enc_scalar_reduced 7)) seeded_ready).
Defined.
