(* ===== verification/RctSigs.v ===== *)
(** * RingCT transactions

    Models the protocol level of rctSigs.cpp: the choice of the range proofs, the hash that is
    signed ([get_pre_mlsag_hash], with the serialization of rctTypes.h by binary_archive.h),
    the signatures over the inputs, [genRct], [genRctSimple], [verRct], [verRctSimple], decoding
    of amounts and the share of a signer in a multisignature. The device is the default one.
    The static arrays of the bulletproofs are an argument, and where they are filled in between a
    result. The work of the thread pool is done in the order of the indices: the jobs write
    different entries and read nothing that another one writes, but for the static arrays, which
    are under a lock. The checks under [DBG] are not compiled. *)

From Stdlib Require Import ZArith Lia List Bool String.
From S2P Require Import Prelude Bytes Fe FeMul Primes ScReduce Sc Curve Ge GeBytes GeScalar GeBase GeDouble GeHash.
From S2P Require Import Keccak TreeHash Order Varint Random Encode KeyOps Signature RingSig RctTypes RctTable RctOps Borromean Mlsag Linear Bulletproofs.
Import ListNotations.

#[local] Open Scope Z_scope.
#[local] Open Scope list_scope.

(** ** The code: types *)

Definition is_simple (type : Z) : bool := (type =? RCTTypeSimple) || (type =? RCTTypeSimpleBulletproof).

Definition is_bulletproof (type : Z) : bool := (type =? RCTTypeSimpleBulletproof) || (type =? RCTTypeFullBulletproof).

Definition is_empty {A : Type} (l : list A) : bool := match l with [] => true | _ => false end.

Definition is_given {A : Type} (p : option A) : bool := match p with Some _ => true | None => false end.

(** ** The code: serialization *)

(** [FIELD(type)]: the low byte. *)
Definition serialize_uint8 (v : Z) : list Z := [Z.land v 255].

Definition serialize_ecdhTuple (t : ecdhTuple) : list Z := ecdh_mask t ++ ecdh_amount t.

(** The bytes written to the archive; [Some None] is [return false]. *)
Definition serialize_rctsig_base (rv : rctSigBase) (inputs outputs : nat) : option (option (list Z)) :=
  let type := rct_type rv in
  if type =? RCTTypeNull then Some (Some (serialize_uint8 type))
  else if negb (type =? RCTTypeFull) && negb (type =? RCTTypeFullBulletproof) && negb (type =? RCTTypeSimple)
    && negb (type =? RCTTypeSimpleBulletproof) then Some None
  else
    let! fee := write_varint (txnFee rv) in
    if (type =? RCTTypeSimple) && negb (List.length (pseudoOuts rv) =? inputs)%nat then Some None
    else if negb (List.length (ecdhInfo rv) =? outputs)%nat then Some None
    else if negb (List.length (outPk rv) =? outputs)%nat then Some None
    else
      Some (Some (serialize_uint8 type ++ fee ++
        (if type =? RCTTypeSimple then List.concat (pseudoOuts rv) else []) ++
        List.concat (map serialize_ecdhTuple (ecdhInfo rv)) ++ List.concat (map mask (outPk rv)))).

Section RctSigs.
  Context {FH : FastHash} {RB : RandomBytes} {BN : BigNum}.

(** ** The code: range proofs *)

(** The commitment, the mask, the proof, the static arrays and the generator. *)
Definition proveRangeBulletproof (ex : exponents) (amount : Z) (r : rng)
  : option (outcome (key * key * Bulletproof * exponents * rng)) :=
  let! '(mask, r) := skGen r in
  let? ex := init_exponents ex in
  let? '(proof, r) := bulletproof_PROVE_amount ex amount mask r in
  let? _ := check_throw (List.length (bp_V proof) =? 1)%nat "V has not exactly one element" in
  let! C := nth_error (bp_V proof) 0 in
  Some (Returns (C, mask, proof, ex, r)).

(** [try { return ...; } catch (...) { return false; }] *)
Definition catch_false (m : option (outcome bool)) : option bool :=
  let! o := m in Some (match o with Returns b => b | Throws _ => false end).

Definition verBulletproof (ex : exponents) (proof : Bulletproof) : option bool := catch_false (bulletproof_VERIFY ex proof).

(** ** The code: the hash that is signed *)

Definition bulletproof_keys (p : Bulletproof) : list key :=
  [bp_A p; bp_S p; bp_T1 p; bp_T2 p; bp_taux p; bp_mu p] ++ bp_L p ++ bp_R p ++ [bp_a p; bp_b p; bp_t p].

Definition rangeSig_keys (g : rangeSig) : option (list key) :=
  let! k0 := mapM (nth_error (s0 (asig g))) (seq 0 64) in
  let! k1 := mapM (nth_error (s1 (asig g))) (seq 0 64) in
  let! kC := mapM (nth_error (Ci g)) (seq 0 64) in
  Some (k0 ++ k1 ++ [ee (asig g)] ++ kC).

Definition mlsag_prehash (hashes : list key) : option key := cn_fast_hash_keyV hashes.

Definition get_pre_mlsag_hash (rv : rctSig) : option (outcome key) :=
  let b := base rv in
  let? _ := check_throw (negb (is_empty (mixRing b))) "Empty mixRing" in
  let! inputs :=
    (if is_simple (rct_type b) then Some (List.length (mixRing b))
     else let! col := nth_error (mixRing b) 0 in Some (List.length col)) in
  let outputs := List.length (ecdhInfo b) in
  let! blob := serialize_rctsig_base b inputs outputs in
  let? _ := check_throw (is_given blob) "Failed to serialize rctSigBase" in
  let! blob := blob in
  let! h := fast_hash blob (List.length blob) in
  let! kv :=
    (if is_bulletproof (rct_type b) then Some (List.concat (map bulletproof_keys (bulletproofs (prunable rv))))
     else let! kvs := mapM rangeSig_keys (rangeSigs (prunable rv)) in Some (List.concat kvs)) in
  let! hk := cn_fast_hash_keyV kv in
  let! prehash := mlsag_prehash [message b; h; hk] in
  Some (Returns prehash).

(** ** The code: signatures over the inputs *)

(** The column [M[i]] after the first loops: the addresses, and the sum of the commitments. *)
Definition sum_column (rows : nat) (pubs : list ctkey) : option (outcome (list key)) :=
  let! dests := mapM (fun j => let! p := nth_error pubs j in Some (dest p)) (seq 0 rows) in
  let? C := ofold (fun C j => let! p := nth_error pubs j in addKeys C (mask p)) (seq 0 rows) identity in
  Some (Returns (dests ++ [C])).

(** The commitments of the outputs and of the fee, subtracted from the last row. *)
Definition sub_outputs (rows : nat) (outPk : list ctkey) (txnFeeKey : key) (col : list key) : option (outcome (list key)) :=
  let! C := nth_error col rows in
  let? C := ofold (fun C o => subKeys C (mask o)) outPk C in
  let? C := subKeys C txnFeeKey in
  let! col := aset col rows C in
  Some (Returns col).

(** [pubs[i].size() == rows] for the columns after the first. *)
Definition ct_rectangular (pubs : list (list ctkey)) (rows : nat) : bool :=
  forallb (fun col => List.length col =? rows)%nat (tl pubs).

Definition proveRctMG (message : key) (pubs : list (list ctkey)) (inSk outSk outPk : list ctkey) (kLRki : option multisig_kLRki)
    (mscout : bool) (index : nat) (txnFeeKey : key) (r : rng) : option (outcome (mgSig * option key * rng)) :=
  let cols := List.length pubs in
  let? _ := check_throw (1 <=? cols)%nat "Empty pubs" in
  let! pubs0 := nth_error pubs 0 in
  let rows := List.length pubs0 in
  let? _ := check_throw (1 <=? rows)%nat "Empty pubs" in
  let? _ := check_throw (ct_rectangular pubs rows) "pubs is not rectangular" in
  let? _ := check_throw (List.length inSk =? rows)%nat "Bad inSk size" in
  let? _ := check_throw (List.length outSk =? List.length outPk)%nat "Bad outSk/outPk size" in
  let? _ := check_throw ((is_given kLRki && mscout) || (negb (is_given kLRki) && negb mscout)) "Only one of kLRki/mscout is present" in
  let? M := omapM (sum_column rows) pubs in
  let! last := foldM (fun s k => sc_add s (mask k)) inSk sc_0 in
  let? M := omapM (sub_outputs rows outPk txnFeeKey) M in
  let! last := foldM (fun s k => sc_sub s (mask k)) outSk last in
  MLSAG_Gen message M (map dest inSk ++ [last]) kLRki mscout index rows r.

(** The columns of [proveRctMGSimple] and [verRctMGSimple]. *)
Definition simple_column (Cout : key) (p : ctkey) : option (outcome (list key)) :=
  let? C := subKeys (mask p) Cout in
  Some (Returns [dest p; C]).

Definition proveRctMGSimple (message : key) (pubs : list ctkey) (inSk : ctkey) (a Cout : key) (kLRki : option multisig_kLRki)
    (mscout : bool) (index : nat) (r : rng) : option (outcome (mgSig * option key * rng)) :=
  let? _ := check_throw (1 <=? List.length pubs)%nat "Empty pubs" in
  let? _ := check_throw ((is_given kLRki && mscout) || (negb (is_given kLRki) && negb mscout)) "Only one of kLRki/mscout is present" in
  let! sk1 := sc_sub (mask inSk) a in
  let? M := omapM (simple_column Cout) pubs in
  MLSAG_Gen message M [dest inSk; sk1] kLRki mscout index 1 r.

Definition verRctMG (mg : mgSig) (pubs : list (list ctkey)) (outPk : list ctkey) (txnFeeKey message : key) : option (outcome bool) :=
  if negb (1 <=? List.length pubs)%nat then Some (Returns false)
  else
    let! pubs0 := nth_error pubs 0 in
    let rows := List.length pubs0 in
    if negb (1 <=? rows)%nat then Some (Returns false)
    else if negb (ct_rectangular pubs rows) then Some (Returns false)
    else
      let? M := omapM (sum_column rows) pubs in
      let? M := omapM (sub_outputs rows outPk txnFeeKey) M in
      MLSAG_Ver message M mg rows.

Definition verRctMGSimple (message : key) (mg : mgSig) (pubs : list ctkey) (C : key) : option bool :=
  catch_false
    (if negb (1 <=? List.length pubs)%nat then Some (Returns false)
     else
       let? M := omapM (simple_column C) pubs in
       MLSAG_Ver message M mg 1).

(** ** The code: rings of random keys *)

Definition getKeyFromBlockchain (r : rng) : option (ctkey * rng) :=
  let! '(m, r) := pkGen r in
  let! '(d, r) := pkGen r in
  Some (CtKey d m, r).

(** The column [rv[i]]: [inPk] at [index], random keys elsewhere. *)
Definition populate_column (inPk : list ctkey) (index : Z) (st : list (list ctkey) * rng) (i : nat) : option (list (list ctkey) * rng) :=
  let '(cols, r) := st in
  if Z.of_nat i =? index then Some (cols ++ [inPk], r)
  else
    let! '(col, r) := foldM (fun '(col, r) (_ : ctkey) => let! '(k, r) := getKeyFromBlockchain r in Some (col ++ [k], r)) inPk ([], r) in
    Some (cols ++ [col], r).

Definition populateFromBlockchain (inPk : list ctkey) (mixin : nat) (r : rng) : option (list (list ctkey) * Z * rng) :=
  let! '(index, r) := randXmrAmount (Z.of_nat mixin) r in
  let! '(rv, r) := foldM (populate_column inPk index) (seq 0 (mixin + 1)) ([], r) in
  Some (rv, index, r).

(** The argument [randXmrAmount(1000)] of a call is evaluated, and not used. *)
Definition populate_key (inPk : ctkey) (index : Z) (st : list ctkey * rng) (i : nat) : option (list ctkey * rng) :=
  let '(ring, r) := st in
  if Z.of_nat i =? index then Some (ring ++ [inPk], r)
  else
    let! '(_, r) := randXmrAmount 1000 r in
    let! '(k, r) := getKeyFromBlockchain r in
    Some (ring ++ [k], r).

Definition populateFromBlockchainSimple (inPk : ctkey) (mixin : nat) (r : rng) : option (list ctkey * Z * rng) :=
  let! '(index, r) := randXmrAmount (Z.of_nat mixin) r in
  let! '(ring, r) := foldM (populate_key inPk index) (seq 0 (mixin + 1)) ([], r) in
  Some (ring, index, r).

(** ** The code: making a signature *)

(** [outSk.resize(n)] *)
Definition resize_sk (n : nat) (outSk : list ctkey) : list ctkey :=
  firstn n outSk ++ repeat (CtKey zero zero) (n - List.length outSk).

(** What the loop over the outputs fills. *)
Record gen_state := GenState {
  gs_outPk : list ctkey;
  gs_rangeSigs : list rangeSig;
  gs_bulletproofs : list Bulletproof;
  gs_ecdhInfo : list ecdhTuple;
  gs_outSk : list ctkey;
  gs_ex : exponents;
  gs_rng : rng }.

(** The range proof of an output; the proof goes to one of the two lists. *)
Definition gen_range (bulletproof : bool) (amount : Z) (st : gen_state)
  : option (outcome (key * key * list rangeSig * list Bulletproof * exponents * rng)) :=
  if bulletproof then
    let? '(C, m, proof, ex, r) := proveRangeBulletproof (gs_ex st) amount (gs_rng st) in
    Some (Returns (C, m, gs_rangeSigs st, gs_bulletproofs st ++ [proof], ex, r))
  else
    let? '(C, m, sig, r) := proveRange amount (gs_rng st) in
    Some (Returns (C, m, gs_rangeSigs st ++ [sig], gs_bulletproofs st, gs_ex st, r)).

Definition gen_output (bulletproof : bool) (destinations : list key) (amounts : list Z) (amount_keys : list key)
    (st : gen_state) (i : nat) : option (outcome gen_state) :=
  let! destination := nth_error destinations i in
  let! amount := nth_error amounts i in
  let? '(C, m, sigs, proofs, ex, r) := gen_range bulletproof amount st in
  let! sk := nth_error (gs_outSk st) i in
  let! outSk := aset (gs_outSk st) i (CtKey (dest sk) m) in
  let! am := d2h amount in
  let! amount_key := nth_error amount_keys i in
  let! info := ecdhEncode (EcdhTuple m am zero) amount_key in
  Some (Returns (GenState (gs_outPk st ++ [CtKey destination C]) sigs proofs (gs_ecdhInfo st ++ [info]) outSk ex r)).

(** The signature, [outSk], the challenges of [msout], the static arrays and the generator. *)
Definition genRct (message : key) (inSk : list ctkey) (destinations : list key) (amounts : list Z) (mixRing : list (list ctkey))
    (amount_keys : list key) (kLRki : option multisig_kLRki) (msout : bool) (index : nat) (outSk : list ctkey) (bulletproof : bool)
    (ex : exponents) (r : rng) : option (outcome (rctSig * list ctkey * list key * exponents * rng)) :=
  let n := List.length destinations in
  let? _ := check_throw ((List.length amounts =? n) || (List.length amounts =? n + 1))%nat "Different number of amounts/destinations" in
  let? _ := check_throw (List.length amount_keys =? n)%nat "Different number of amount_keys/destinations" in
  let? _ := check_throw (index <? List.length mixRing)%nat "Bad index into mixRing" in
  let? _ := check_throw (forallb (fun col => List.length col =? List.length inSk)%nat mixRing) "Bad mixRing size" in
  let? _ := check_throw ((is_given kLRki && msout) || (negb (is_given kLRki) && negb msout)) "Only one of kLRki/msout is present" in
  let type := if bulletproof then RCTTypeFullBulletproof else RCTTypeFull in
  let? st := ofold (gen_output bulletproof destinations amounts amount_keys) (seq 0 n)
    (GenState [] [] [] [] (resize_sk n outSk) ex r) in
  let! fee := (if (n <? List.length amounts)%nat then nth_error amounts n else Some 0) in
  let! am := d2h fee in
  let? txnFeeKey := scalarmultH am in
  let rv := RctSig (RctSigBase type message mixRing [] (gs_ecdhInfo st) (gs_outPk st) fee)
    (RctSigPrunable (gs_rangeSigs st) (gs_bulletproofs st) [] []) in
  let? full_message := get_pre_mlsag_hash rv in
  let? '(mg, c, r) := proveRctMG full_message mixRing inSk (gs_outSk st) (gs_outPk st) kLRki msout index txnFeeKey (gs_rng st) in
  let rv := RctSig (base rv) (RctSigPrunable (gs_rangeSigs st) (gs_bulletproofs st) [mg] []) in
  Some (Returns (rv, gs_outSk st, match c with Some c => [c] | None => [] end, gs_ex st, r)).

Definition genRct_mixin (message : key) (inSk inPk : list ctkey) (destinations : list key) (amounts : list Z) (amount_keys : list key)
    (kLRki : option multisig_kLRki) (msout : bool) (mixin : nat) (ex : exponents) (r : rng)
  : option (outcome (rctSig * list key * exponents * rng)) :=
  let! '(mixRing, index, r) := populateFromBlockchain inPk mixin r in
  let? '(rv, _, c, ex, r) := genRct message inSk destinations amounts mixRing amount_keys kLRki msout (Z.to_nat index) [] false ex r in
  Some (Returns (rv, c, ex, r)).

(** [gen_output] and the sum of the masks. *)
Definition gen_output_simple (bulletproof : bool) (destinations : list key) (amounts : list Z) (amount_keys : list key)
    (st : gen_state * key) (i : nat) : option (outcome (gen_state * key)) :=
  let '(st, sumout) := st in
  let? st := gen_output bulletproof destinations amounts amount_keys st i in
  let! sk := nth_error (gs_outSk st) i in
  let! sumout := sc_add (mask sk) sumout in
  Some (Returns (st, sumout)).

(** The pseudo outputs but the last: the masks [a], the commitments, the sum of the masks and the
    generator. *)
Definition gen_pseudo (inamounts : list Z) (st : list key * list key * key * rng) (i : nat) : option (outcome (list key * list key * key * rng)) :=
  let '(a, outs, sumpouts, r) := st in
  let! '(ai, r) := skGen r in
  let! sumpouts := sc_add ai sumpouts in
  let! amount := nth_error inamounts i in
  let? C := genC ai amount in
  Some (Returns (a ++ [ai], outs ++ [C], sumpouts, r)).

(** The signature of one input. *)
Definition gen_mg (full_message : key) (mixRing : list (list ctkey)) (inSk : list ctkey) (a pouts : list key)
    (kLRki : option (list multisig_kLRki)) (msout : bool) (index : list nat) (st : list mgSig * list key * rng) (i : nat)
  : option (outcome (list mgSig * list key * rng)) :=
  let '(mgs, cs, r) := st in
  let! ring := nth_error mixRing i in
  let! sk := nth_error inSk i in
  let! ai := nth_error a i in
  let! C := nth_error pouts i in
  let! idx := nth_error index i in
  let! ki := (match kLRki with Some l => let! m := nth_error l i in Some (Some m) | None => Some None end) in
  let? '(mg, c, r) := proveRctMGSimple full_message ring sk ai C ki msout idx r in
  Some (Returns (mgs ++ [mg], cs ++ match c with Some c => [c] | None => [] end, r)).

Definition genRctSimple (message : key) (inSk : list ctkey) (destinations : list key) (inamounts outamounts : list Z) (txnFee : Z)
    (mixRing : list (list ctkey)) (amount_keys : list key) (kLRki : option (list multisig_kLRki)) (msout : bool) (index : list nat)
    (outSk : list ctkey) (bulletproof : bool) (ex : exponents) (r : rng)
  : option (outcome (rctSig * list ctkey * list key * exponents * rng)) :=
  let n := List.length destinations in
  let m := List.length inamounts in
  let? _ := check_throw (0 <? m)%nat "Empty inamounts" in
  let? _ := check_throw (m =? List.length inSk)%nat "Different number of inamounts/inSk" in
  let? _ := check_throw (List.length outamounts =? n)%nat "Different number of amounts/destinations" in
  let? _ := check_throw (List.length amount_keys =? n)%nat "Different number of amount_keys/destinations" in
  let? _ := check_throw (List.length index =? List.length inSk)%nat "Different number of index/inSk" in
  let? _ := check_throw (List.length mixRing =? List.length inSk)%nat "Different number of mixRing/inSk" in
  let! in_range := mapM (fun i => let! idx := nth_error index i in let! ring := nth_error mixRing i in
    Some (idx <? List.length ring)%nat) (seq 0 (List.length mixRing)) in
  let? _ := check_throw (forallb (fun b => b) in_range) "Bad index into mixRing" in
  let? _ := check_throw ((is_given kLRki && msout) || (negb (is_given kLRki) && negb msout)) "Only one of kLRki/msout is present" in
  let? _ := check_throw (match kLRki with Some l => (List.length l =? m)%nat | None => true end) "Mismatched kLRki/inamounts sizes" in
  let type := if bulletproof then RCTTypeSimpleBulletproof else RCTTypeSimple in
  let? '(st, sumout) := ofold (gen_output_simple bulletproof destinations outamounts amount_keys) (seq 0 n)
    (GenState [] [] [] [] (resize_sk n outSk) ex r, zero) in
  let? '(a, pouts, sumpouts, r) := ofold (gen_pseudo inamounts) (seq 0 (m - 1)) ([], [], zero, gs_rng st) in
  let! alast := sc_sub sumout sumpouts in
  let! amount := nth_error inamounts (m - 1) in
  let? C := genC alast amount in
  let a := a ++ [alast] in
  let pouts := pouts ++ [C] in
  let sig_base := RctSigBase type message mixRing (if bulletproof then [] else pouts) (gs_ecdhInfo st) (gs_outPk st) txnFee in
  let sig_prunable := fun mgs => RctSigPrunable (gs_rangeSigs st) (gs_bulletproofs st) mgs (if bulletproof then pouts else []) in
  let? full_message := get_pre_mlsag_hash (RctSig sig_base (sig_prunable [])) in
  let? '(mgs, cs, r) := ofold (gen_mg full_message mixRing inSk a pouts kLRki msout index) (seq 0 m) ([], [], r) in
  Some (Returns (RctSig sig_base (sig_prunable mgs), gs_outSk st, cs, gs_ex st, r)).

Definition genRctSimple_mixin (message : key) (inSk inPk : list ctkey) (destinations : list key) (inamounts outamounts : list Z)
    (amount_keys : list key) (kLRki : option (list multisig_kLRki)) (msout : bool) (txnFee : Z) (mixin : nat) (ex : exponents) (r : rng)
  : option (outcome (rctSig * list key * exponents * rng)) :=
  let! '(mixRing, index, r) := foldM (fun '(rings, idxs, r) pk =>
    let! '(ring, idx, r) := populateFromBlockchainSimple pk mixin r in Some (rings ++ [ring], idxs ++ [Z.to_nat idx], r)) inPk ([], [], r) in
  let? '(rv, _, c, ex, r) := genRctSimple message inSk destinations inamounts outamounts txnFee mixRing amount_keys kLRki msout index [] false ex r in
  Some (Returns (rv, c, ex, r)).

(** ** The code: verification *)

(** The job of the pool for output [i]. *)
Definition ver_output (ex : exponents) (rv : rctSig) (i : nat) : option bool :=
  if is_empty (rangeSigs (prunable rv)) then
    let! p := nth_error (bulletproofs (prunable rv)) i in
    verBulletproof ex p
  else
    let! o := nth_error (outPk (base rv)) i in
    let! g := nth_error (rangeSigs (prunable rv)) i in
    verRange (mask o) g.

Definition ver_outputs (ex : exponents) (rv : rctSig) : option bool :=
  let! results := mapM (ver_output ex rv) (seq 0 (List.length (outPk (base rv)))) in
  Some (forallb (fun b => b) results).

Definition verRct (ex : exponents) (rv : rctSig) (semantics : bool) : option bool :=
  let b := base rv in
  let p := prunable rv in
  let type := rct_type b in
  if negb ((type =? RCTTypeFull) || (type =? RCTTypeFullBulletproof)) then Some false
  else if semantics && negb (if (type =? RCTTypeFullBulletproof)%Z then List.length (outPk b) =? List.length (bulletproofs p)
      else List.length (outPk b) =? List.length (rangeSigs p))%nat then Some false
  else if semantics && negb (List.length (outPk b) =? List.length (ecdhInfo b))%nat then Some false
  else if semantics && negb (List.length (MGs p) =? 1)%nat then Some false
  else if semantics then ver_outputs ex rv
  else
    catch_false (
      let! am := d2h (txnFee b) in
      let? txnFeeKey := scalarmultH am in
      let! mg := nth_error (MGs p) 0 in
      let? h := get_pre_mlsag_hash rv in
      verRctMG mg (mixRing b) (outPk b) txnFeeKey h).

(** [verRct(rv)] *)
Definition verRct_both (ex : exponents) (rv : rctSig) : option bool :=
  let! ok := verRct ex rv true in
  if ok then verRct ex rv false else Some false.

(** [pseudoOuts], of the type of the signature. *)
Definition pseudo_outs (rv : rctSig) : list key :=
  if is_bulletproof (rct_type (base rv)) then p_pseudoOuts (prunable rv) else pseudoOuts (base rv).

(** [equalKeys(sumPseudoOuts, sumOutpks)] *)
Definition ver_sums (rv : rctSig) : option (outcome bool) :=
  let? sumOutpks := ofold (fun S o => addKeys S (mask o)) (outPk (base rv)) identity in
  let! am := d2h (txnFee (base rv)) in
  let? txnFeeKey := scalarmultH am in
  let? sumOutpks := addKeys txnFeeKey sumOutpks in
  let? sumPseudoOuts := ofold addKeys (pseudo_outs rv) identity in
  Some (Returns (equalKeys sumPseudoOuts sumOutpks)).

(** The job of the pool for input [i]. *)
Definition ver_input (message : key) (rv : rctSig) (i : nat) : option bool :=
  let! mg := nth_error (MGs (prunable rv)) i in
  let! ring := nth_error (mixRing (base rv)) i in
  let! C := nth_error (pseudo_outs rv) i in
  verRctMGSimple message mg ring C.

(** The sizes that are checked first. *)
Definition simple_sizes (rv : rctSig) (semantics : bool) : bool :=
  let b := base rv in
  let p := prunable rv in
  if semantics then
    (if rct_type b =? RCTTypeSimpleBulletproof then
       (List.length (outPk b) =? List.length (bulletproofs p))%nat && (List.length (p_pseudoOuts p) =? List.length (MGs p))%nat
         && is_empty (pseudoOuts b)
     else
       (List.length (outPk b) =? List.length (rangeSigs p))%nat && (List.length (pseudoOuts b) =? List.length (MGs p))%nat
         && is_empty (p_pseudoOuts p))
    && (List.length (outPk b) =? List.length (ecdhInfo b))%nat
  else if rct_type b =? RCTTypeSimpleBulletproof then (List.length (p_pseudoOuts p) =? List.length (mixRing b))%nat
  else (List.length (pseudoOuts b) =? List.length (mixRing b))%nat.

Definition verRctSimple (ex : exponents) (rv : rctSig) (semantics : bool) : option bool :=
  let type := rct_type (base rv) in
  if negb ((type =? RCTTypeSimple) || (type =? RCTTypeSimpleBulletproof)) then Some false
  else if negb (simple_sizes rv semantics) then Some false
  else if semantics then
    catch_false (
      let? eq := ver_sums rv in
      if negb eq then Some (Returns false)
      else let! ok := ver_outputs ex rv in Some (Returns ok))
  else
    catch_false (
      let? message := get_pre_mlsag_hash rv in
      let! results := mapM (ver_input message rv) (seq 0 (List.length (mixRing (base rv)))) in
      Some (Returns (forallb (fun b => b) results))).

(** [verRctSimple(rv)] *)
Definition verRctSimple_both (ex : exponents) (rv : rctSig) : option bool :=
  let! ok := verRctSimple ex rv true in
  if ok then verRctSimple ex rv false else Some false.

(** ** The code: decoding *)

(** The amount and the mask that is written; the type is checked by the callers. *)
Definition decode_output (rv : rctSig) (sk : key) (i : nat) : option (outcome (Z * key)) :=
  let b := base rv in
  let? _ := check_throw (i <? List.length (ecdhInfo b))%nat "Bad index" in
  let? _ := check_throw (List.length (outPk b) =? List.length (ecdhInfo b))%nat "Mismatched sizes of rv.outPk and rv.ecdhInfo" in
  let! info := nth_error (ecdhInfo b) i in
  let! info := ecdhDecode info sk in
  let! o := nth_error (outPk b) i in
  let? Ctmp := addKeys2 (ecdh_mask info) (ecdh_amount info) rct_H in
  let? _ := check_throw (equalKeys (mask o) Ctmp) "warning, amount decoded incorrectly, will be unable to spend" in
  let! v := h2d (ecdh_amount info) in
  Some (Returns (v, ecdh_mask info)).

(** On another type the result is [false], that is 0, and the mask is not written. *)
Definition decodeRct (rv : rctSig) (sk : key) (i : nat) (mask : key) : option (outcome (Z * key)) :=
  let type := rct_type (base rv) in
  if negb ((type =? RCTTypeFull) || (type =? RCTTypeFullBulletproof)) then Some (Returns (0, mask))
  else decode_output rv sk i.

Definition decodeRctSimple (rv : rctSig) (sk : key) (i : nat) (mask : key) : option (outcome (Z * key)) :=
  let type := rct_type (base rv) in
  if negb ((type =? RCTTypeSimple) || (type =? RCTTypeSimpleBulletproof)) then Some (Returns (0, mask))
  else decode_output rv sk i.

(** ** The code: multisignatures *)

(** [indices[n] < MGs[n].ss.size()] and [!MGs[n].ss[indices[n]].empty()]; [None] of the inner
    option is [return false]. *)
Definition check_line (mgs : list mgSig) (indices : list nat) (n : nat) : option bool :=
  let! idx := nth_error indices n in
  let! mg := nth_error mgs n in
  if negb (idx <? List.length (ss mg))%nat then Some false
  else let! row := nth_error (ss mg) idx in Some (negb (is_empty row)).

(** The share of the signer is added to the first scalar of the signing column. *)
Definition add_share (indices : list nat) (k c : list key) (secret_key : key) (mgs : list mgSig) (n : nat) : option (list mgSig) :=
  let! idx := nth_error indices n in
  let! cn := nth_error c n in
  let! kn := nth_error k n in
  let! diff := sc_mulsub cn secret_key kn in
  let! mg := nth_error mgs n in
  let! row := nth_error (ss mg) idx in
  let! s := nth_error row 0 in
  let! s := sc_add s diff in
  let! row := aset row 0 s in
  let! rows := aset (ss mg) idx row in
  aset mgs n (MgSig rows (cc mg) (II mg)).

(** [None] is [return false]; [msout] is the list [msout.c]. *)
Definition signMultisig (rv : rctSig) (indices : list nat) (k msout : list key) (secret_key : key) : option (option rctSig) :=
  let type := rct_type (base rv) in
  let p := prunable rv in
  if negb ((type =? RCTTypeFull) || (type =? RCTTypeSimple) || (type =? RCTTypeFullBulletproof) || (type =? RCTTypeSimpleBulletproof)) then Some None
  else if negb (List.length indices =? List.length k)%nat then Some None
  else if negb (List.length k =? List.length (MGs p))%nat then Some None
  else if negb (List.length k =? List.length msout)%nat then Some None
  else if ((type =? RCTTypeFull) || (type =? RCTTypeFullBulletproof)) && negb (List.length (MGs p) =? 1)%nat then Some None
  else
    let! ok := mapM (check_line (MGs p) indices) (seq 0 (List.length indices)) in
    if negb (forallb (fun b => b) ok) then Some None
    else
      let! mgs := foldM (add_share indices k msout secret_key) (seq 0 (List.length indices)) (MGs p) in
      Some (Some (RctSig (base rv) (RctSigPrunable (rangeSigs p) (bulletproofs p) mgs (p_pseudoOuts p)))).
End RctSigs.
