(* ===== verification/RctCorrect.v ===== *)
(** * Correctness of RingCT transactions

    Theorems about RctSigs.v: the signatures that [genRct] and [genRctSimple] make are accepted by
    [verRct] and [verRctSimple] and decode to the amounts, and an accepted signature whose
    commitments can be opened is balanced. *)

From Stdlib Require Import ZArith Lia List Bool String.
From S2P Require Import Prelude Bytes Fe FeMul Primes ScReduce Sc Curve Ge GeBytes GeScalar GeBase GeDouble GeHash.
From S2P Require Import Keccak TreeHash Order Varint Random Encode KeyOps Signature RingSig RctTypes RctTable RctOps Borromean Mlsag Linear Bulletproofs BpCorrect BpProve RctSigs.
Import ListNotations.

#[local] Open Scope Z_scope.
#[local] Open Scope list_scope.
#[local] Opaque ed_mul ed_add base_point encode enc_scalar point_code H_point rct_H.
#[local] Opaque addKeys subKeys addKeys2 scalarmultH scalarmultBase genC skGen sc_add sc_sub d2h proveRange verRange fast_hash.

Lemma check_throw_true {T} b what (k : unit -> option (outcome T)) : b = true -> obind (check_throw b what) k = k tt.
Proof. now intros ->. Qed.

Lemma omapM_map {A B C} (g : A -> B) (f : B -> option (outcome C)) (h : A -> C) l :
  (forall x, In x l -> f (g x) = Some (Returns (h x))) -> omapM f (map g l) = Some (Returns (map h l)).
Proof.
  intros H. induction l as [|x l IH]; cbn [map omapM]; [reflexivity|]. rewrite (H x), obind_Returns by now left.
  rewrite IH; [reflexivity|]. intros y Hy. apply H. now right.
Qed.

Lemma is_hash_scalar h : is_hash h -> scalar h.
Proof. exact (fun H => H). Qed.

Lemma keys_bytes ks : Forall scalar ks -> bytes (List.concat ks).
Proof. intros H. exact (proj1 (concat_keys ks H)). Qed.

Lemma map_seq_snoc {A} (f : nat -> A) n : map f (seq 0 (S n)) = map f (seq 0 n) ++ [f n].
Proof. rewrite seq_S, map_app. reflexivity. Qed.

Lemma mapM_app {A B} (f : A -> option B) l l' :
  mapM f (l ++ l') = (let! ys := mapM f l in let! zs := mapM f l' in Some (ys ++ zs)).
Proof.
  induction l as [|x l IH]; cbn [app mapM bind]; [now destruct (mapM f l')|]. destruct (f x) as [y|]; [|reflexivity]. rewrite !bind_Some, IH.
  destruct (mapM f l) as [ys|]; [|reflexivity]. rewrite !bind_Some. now destruct (mapM f l').
Qed.

Lemma mapM_nth_some {A B} (f : A -> option B) l ys i x :
  mapM f l = Some ys -> nth_error l i = Some x -> exists y, f x = Some y /\ nth_error ys i = Some y.
Proof.
  revert ys i. induction l as [|a l IH]; intros ys i E Hi; [destruct i; discriminate Hi|]. cbn [mapM] in E.
  destruct (f a) as [b|] eqn:Ea; [|discriminate E]. rewrite bind_Some in E. destruct (mapM f l) as [bs|]; [|discriminate E]. injection E as <-.
  destruct i as [|i]; [injection Hi as ->; now exists b | exact (IH bs i eq_refl Hi)].
Qed.

Section Rct.
  Context {FH : FastHash} {RB : RandomBytes} {BN : BigNum}.

(** ** Results, with the exception of a bulletproof *)

(** The code returns a value in [Q], or, where [bp] holds, throws because a hash is zero. *)
Definition produces {A : Type} (bp : bool) (m : option (outcome A)) (Q : A -> Prop) : Prop :=
  returns m (fun o => match o with
                      | Returns a => Q a
                      | Throws what => what = "Failed to invert"%string /\ bp = true /\ zero_hash
                      end).

Lemma produces_bind {A B} bp (m : option (outcome A)) (k : A -> option (outcome B)) P Q :
  produces bp m P -> (forall a, P a -> produces bp (k a) Q) -> produces bp (obind m k) Q.
Proof. destruct m as [[a|w]|]; cbn; auto. Qed.

Lemma produces_returns {A} bp (m : option (outcome A)) Q : oreturns m Q -> produces bp m Q.
Proof. destruct m as [[a|w]|]; cbn; auto; contradiction. Qed.

Lemma produces_fold {A} bp (I : nat -> A -> Prop) (f : A -> nat -> option (outcome A)) k n y :
  I k y -> (forall i y, (k <= i < k + n)%nat -> I i y -> produces bp (f y i) (I (S i))) ->
  produces bp (ofold f (seq k n) y) (I (k + n)%nat).
Proof.
  revert k y; induction n as [|n IH]; intros k y H0 Hs; cbn [seq ofold]; [now rewrite Nat.add_0_r|].
  apply (produces_bind _ _ _ (I (S k))); [apply Hs; [lia | exact H0]|].
  intros z Hz. rewrite Nat.add_succ_r. apply (IH (S k)); [exact Hz|]. intros; apply Hs; trivial; lia.
Qed.

(** ** Signatures over points *)

Lemma mlsag_accepts m Ps xx index ds rows r :
  scalar m -> ring rows Ps -> (ds <= rows)%nat -> (index < List.length Ps)%nat -> List.length xx = rows -> Forall reduced_scalar xx ->
  (forall j, (j < rows)%nat -> nth j (nth index Ps []) ed_0 = ed_mul (le_val (nth j xx [])) base_point) -> rng_ready r ->
  oreturns (MLSAG_Gen m (map (map encode) Ps) xx None false index ds r) (fun '(mg, out, r') =>
    out = None /\ rng_ready r' /\ MLSAG_Ver m (map (map encode) Ps) mg ds = Some (Returns true) /\ II mg = map encode (images ds index Ps xx)).
Proof.
  intros Hm HR Hd Hi Lx Rx Hk Hr. eapply returns_weaken; [exact (gen_spec m rows ds index Ps xx Hm HR Hd Hi Lx Rx Hk r Hr)|].
  intros [[[[ss cc II] out] r'] | w]; [|auto]. cbn [RctTypes.II RctTypes.ss RctTypes.cc]. intros (-> & -> & Ha & Fs & Fc & Hch & Hr').
  split; [reflexivity|]. split; [exact Hr'|]. split; [|reflexivity].
  rewrite (proj1 (ver_spec m ds rows (images ds index Ps xx) ss cc Ps Hm HR Ha Hd
    (eq_trans (length_map _ _) (length_seq _ _)) (images_on_curve index Ps xx ds) (proj1 Fc))) by now split.
  now rewrite Hch, Z.eqb_refl.
Qed.

(** Sums of encoded points. *)
Lemma add_points Ps S :
  Forall on_curve Ps -> on_curve S -> ofold addKeys (map encode Ps) (encode S) = Some (Returns (encode (fold_left ed_add Ps S))).
Proof.
  intros HP. revert S. induction HP as [|P Ps HP _ IH]; intros S HS; [reflexivity|]. cbn [map ofold fold_left].
  rewrite addKeys_enc, obind_Returns by assumption. apply IH. now apply ed_add_on_curve.
Qed.

Lemma ofold_map {A B C} (g : B -> C) (f : A -> C -> option (outcome A)) l y : ofold f (map g l) y = ofold (fun y x => f y (g x)) l y.
Proof. revert y. induction l as [|x l IH]; intros y; cbn [map ofold]; [reflexivity|]. destruct (f y (g x)) as [[z|w]|]; cbn [obind]; auto. Qed.

(** Sums of commitments. *)
Lemma add_commitments n a v x y :
  ofold addKeys (map (fun j => encode (pedersen (a j) (v j))) (seq 0 n)) (encode (pedersen x y))
    = Some (Returns (encode (pedersen (x + zsum n a) (y + zsum n v)))).
Proof.
  rewrite ofold_map. apply oreturns_eq. apply (ofold_seq (fun i C => C = encode (pedersen (x + zsum i a) (y + zsum i v)))).
  - cbn [zsum]. now rewrite !Z.add_0_r.
  - intros i C _ ->. rewrite addKeys_enc by apply pedersen_on_curve. unfold oreturns, returns. rewrite pedersen_add.
    cbn [zsum]. now rewrite !Z.add_assoc.
Qed.

Lemma sub_commitments n a v x y :
  ofold subKeys (map (fun j => encode (pedersen (a j) (v j))) (seq 0 n)) (encode (pedersen x y))
    = Some (Returns (encode (pedersen (x - zsum n a) (y - zsum n v)))).
Proof.
  rewrite ofold_map. apply oreturns_eq. apply (ofold_seq (fun i C => C = encode (pedersen (x - zsum i a) (y - zsum i v)))).
  - cbn [zsum]. now rewrite !Z.sub_0_r.
  - intros i C _ ->. rewrite subKeys_enc by apply pedersen_on_curve. unfold oreturns, returns. f_equal. unfold pedersen. cbn [zsum].
    pose proof base_point_on_curve. pose proof H_on_curve. point_eq; try assumption; left; ring.
Qed.

Lemma identity_pedersen : identity = encode (pedersen 0 0).
Proof. rewrite encode_ed_0, pedersen_0, ed_mul_0. reflexivity. Qed.

(** The commitment [v H] to a fee. *)
Lemma fee_bind {T} v (k : key -> option (outcome T)) :
  0 <= v < 2 ^ 64 -> (let! am := d2h v in let? bH := scalarmultH am in k bH) = k (encode (pedersen 0 v)).
Proof. intros Hv. rewrite amount_H_bind by exact Hv. unfold pedersen, lin. now rewrite ed_mul_0, ed_add_0_l. Qed.

(** ** One input *)

(** A public key with its commitment. *)
Definition ct_of (pc : point * point) : ctkey := CtKey (encode (fst pc)) (encode (snd pc)).

Definition simple_points (Cout : point) (pc : point * point) : list point := [fst pc; ed_add (snd pc) (ed_opp Cout)].

Definition on_curve2 (pc : point * point) : Prop := on_curve (fst pc) /\ on_curve (snd pc).

Lemma simple_columns Cout PCs :
  on_curve Cout -> Forall on_curve2 PCs ->
  omapM (simple_column (encode Cout)) (map ct_of PCs) = Some (Returns (map (map encode) (map (simple_points Cout) PCs))).
Proof.
  intros HC HP. rewrite map_map. apply omapM_map. intros [P C] Hin. destruct (proj1 (Forall_forall _ _) HP _ Hin) as [H1 H2].
  unfold simple_column, ct_of. cbn [mask dest fst snd] in *. rewrite subKeys_enc, obind_Returns by assumption. reflexivity.
Qed.

Lemma simple_ring Cout PCs : on_curve Cout -> (2 <= List.length PCs)%nat -> Forall on_curve2 PCs -> ring 2 (map (simple_points Cout) PCs).
Proof.
  intros HC H2 HP. split; [now rewrite length_map|]. split; [lia|]. apply Forall_forall. intros col (pc & <- & Hin)%in_map_iff.
  destruct (proj1 (Forall_forall _ _) HP _ Hin) as [HP1 HP2]. split; [reflexivity|].
  constructor; [exact HP1|]. constructor; [|constructor]. apply ed_add_on_curve; [exact HP2 | now apply ed_opp_on_curve].
Qed.

Lemma pedersen_sub a b v : ed_add (pedersen a v) (ed_opp (pedersen b v)) = ed_mul (a - b) base_point.
Proof. unfold pedersen. pose proof base_point_on_curve. pose proof H_on_curve. point_eq; try assumption; left; ring. Qed.

(** The owner of one key of the ring, with the opening of its commitment, signs for a commitment
    to the same amount. *)
Lemma simple_accepts m PCs sk a v index r :
  scalar m -> (2 <= List.length PCs)%nat -> Forall on_curve2 PCs -> (index < List.length PCs)%nat ->
  reduced_scalar (dest sk) -> reduced_scalar (mask sk) ->
  nth index PCs (ed_0, ed_0) = (ed_mul (le_val (dest sk)) base_point, pedersen (le_val (mask sk)) v) -> rng_ready r ->
  oreturns (proveRctMGSimple m (map ct_of PCs) sk (enc_scalar a) (encode (pedersen a v)) None false index r) (fun '(mg, out, r') =>
    out = None /\ rng_ready r' /\ verRctMGSimple m mg (map ct_of PCs) (encode (pedersen a v)) = Some true /\
    II mg = [encode (ed_mul (le_val (dest sk)) (Hp (encode (fst (nth index PCs (ed_0, ed_0))))))]).
Proof.
  intros Hm H2 HP Hi Rd Rm En Hr. pose proof (pedersen_on_curve a v) as HC. unfold proveRctMGSimple, verRctMGSimple.
  rewrite length_map, (proj2 (Nat.leb_le 1 _)) by lia. cbn [negb]. rewrite check_throw_true, check_throw_true by reflexivity.
  rewrite sc_sub_enc, bind_Some by (apply Rm || apply enc_scalar_scalar). rewrite simple_columns by assumption. rewrite obind_Returns.
  eapply returns_weaken; [apply (mlsag_accepts m (map (simple_points (pedersen a v)) PCs) _ index 1 2)|]; trivial; try lia.
  - now apply simple_ring.
  - now rewrite length_map.
  - constructor; [exact Rd|]. constructor; [apply enc_scalar_reduced | constructor].
  - intros j Hj. rewrite (nth_indep _ [] (simple_points (pedersen a v) (ed_0, ed_0))) by now rewrite length_map.
    rewrite map_nth, En. unfold simple_points. cbn [fst snd]. destruct j as [|[|j]]; [reflexivity | | lia]. cbn [nth].
    rewrite pedersen_sub, !le_val_enc_scalar. apply ed_mul_mod; [apply base_in_subgroup|]. now rewrite Z.mod_mod, Zminus_mod_idemp_r by discriminate.
  - intros [[[mg out] r'] | w]; [|auto]. intros (-> & Hr' & Hv & EI). split; [reflexivity|]. split; [exact Hr'|].
    rewrite obind_Returns, Hv. split; [reflexivity|]. rewrite EI. unfold images, image. cbn [seq map nth]. f_equal. f_equal. f_equal. f_equal. f_equal.
    rewrite (nth_indep _ [] (simple_points (pedersen a v) (ed_0, ed_0))) by now rewrite length_map. now rewrite map_nth.
Qed.

(** ** The hash that is signed *)

Definition sized_range (g : rangeSig) : Prop :=
  Forall scalar (s0 (asig g)) /\ List.length (s0 (asig g)) = 64%nat /\ Forall scalar (s1 (asig g)) /\ List.length (s1 (asig g)) = 64%nat /\
  scalar (ee (asig g)) /\ Forall scalar (Ci g) /\ List.length (Ci g) = 64%nat.

(** Signatures of a known type, with the sizes that the serialization asks for. *)
Definition hashable (rv : rctSig) : Prop :=
  let b := base rv in
  mixRing b <> [] /\ scalar (message b) /\ 0 <= txnFee b < 2 ^ 64 /\
  In (rct_type b) [RCTTypeFull; RCTTypeSimple; RCTTypeFullBulletproof; RCTTypeSimpleBulletproof] /\
  (rct_type b = RCTTypeSimple -> List.length (pseudoOuts b) = List.length (mixRing b) /\ Forall scalar (pseudoOuts b)) /\
  List.length (outPk b) = List.length (ecdhInfo b) /\
  Forall (fun t => scalar (ecdh_mask t) /\ scalar (ecdh_amount t)) (ecdhInfo b) /\ Forall (fun o => scalar (mask o)) (outPk b) /\
  (if is_bulletproof (rct_type b) then Forall (fun p => Forall scalar (bulletproof_keys p)) (bulletproofs (prunable rv))
   else Forall sized_range (rangeSigs (prunable rv))).

Lemma bytes_concat {A} (f : A -> list Z) l : Forall (fun x => bytes (f x)) l -> bytes (List.concat (map f l)).
Proof. induction 1 as [|x l H _ IH]; cbn [map List.concat]; [constructor|]. now apply Forall_app. Qed.

Lemma mapM_nth_error {A} (l : list A) n : List.length l = n -> mapM (nth_error l) (seq 0 n) = Some l.
Proof.
  intros <-. induction l as [|x l IH] using rev_ind; [reflexivity|].
  assert (forall k, (k <= List.length l)%nat -> mapM (nth_error (l ++ [x])) (seq 0 k) = mapM (nth_error l) (seq 0 k)) as K.
  { intros k Hk. induction k as [|k IHk]; [reflexivity|]. rewrite seq_S. cbn [Nat.add].
    rewrite !mapM_app, IHk by lia. cbn [mapM]. now rewrite nth_error_app1 by lia. }
  rewrite length_app, Nat.add_comm. cbn [List.length Nat.add]. rewrite seq_S, mapM_app, K, IH, bind_Some by lia. cbn [mapM Nat.add].
  rewrite nth_error_app2, Nat.sub_diag by lia. reflexivity.
Qed.

Lemma rangeSig_keys_spec g : sized_range g -> exists ks, rangeSig_keys g = Some ks /\ Forall scalar ks.
Proof.
  intros (F0 & L0 & F1 & L1 & Fe & FC & LC). unfold rangeSig_keys. rewrite !mapM_nth_error, !bind_Some by assumption.
  eexists. split; [reflexivity|]. rewrite !Forall_app. split; [assumption|]. split; [assumption|]. split; [now constructor | assumption].
Qed.

Lemma serialize_spec b inputs :
  0 <= txnFee b < 2 ^ 64 -> In (rct_type b) [RCTTypeFull; RCTTypeSimple; RCTTypeFullBulletproof; RCTTypeSimpleBulletproof] ->
  (rct_type b = RCTTypeSimple -> List.length (pseudoOuts b) = inputs /\ Forall scalar (pseudoOuts b)) ->
  List.length (outPk b) = List.length (ecdhInfo b) ->
  Forall (fun t => scalar (ecdh_mask t) /\ scalar (ecdh_amount t)) (ecdhInfo b) -> Forall (fun o => scalar (mask o)) (outPk b) ->
  exists blob, serialize_rctsig_base b inputs (List.length (ecdhInfo b)) = Some (Some blob) /\ bytes blob.
Proof.
  intros Hf Ht Hs Lo He Ho. unfold serialize_rctsig_base. destruct (write_varint_total (txnFee b) Hf) as [fee Ef]. rewrite Ef, Lo, Nat.eqb_refl.
  assert (bytes fee) as Bf by exact (proj1 (write_varint_shape 9 _ fee (proj1 Hf) Ef)).
  assert (bytes (List.concat (map serialize_ecdhTuple (ecdhInfo b)))) as Be.
  { apply bytes_concat. eapply Forall_impl; [|exact He]. intros t [[? _] [? _]]. now apply Forall_app. }
  assert (bytes (List.concat (map mask (outPk b)))) as Bo by (apply bytes_concat; eapply Forall_impl; [|exact Ho]; now intros o [? _]).
  revert Hs. destruct Ht as [<-|[<-|[<-|[<-|[]]]]]; intros Hs; cbn [Z.eqb Pos.eqb negb andb RCTTypeNull RCTTypeFull RCTTypeSimple RCTTypeFullBulletproof RCTTypeSimpleBulletproof];
    rewrite bind_Some; [| rewrite (proj1 (Hs eq_refl)), Nat.eqb_refl; cbn [negb] | |];
    (eexists; split; [reflexivity|]; unfold bytes; rewrite !Forall_app; split;
      [constructor; [unfold is_byte; cbn; lia | constructor]|]; split; [assumption|]; split; [|split; assumption]);
    try constructor. apply keys_bytes, (Hs eq_refl).
Qed.

Lemma hash_total ks : Forall scalar ks -> exists h, cn_fast_hash_keyV ks = Some h /\ scalar h.
Proof.
  intros H. destruct (concat_keys ks H) as [Hb Hl]. assert (returns (cn_fast_hash_keyV ks) scalar) as K.
  { unfold cn_fast_hash_keyV, rct_cn_fast_hash. destruct ks as [|k ks]; [exact (fast_hash_total [] (Forall_nil _))|].
    rewrite <- Hl. exact (fast_hash_total _ Hb). }
  now apply returns_some in K.
Qed.

(** The hash is computed, and it does not depend on the signatures. *)
Lemma pre_hash_spec rv : hashable rv -> oreturns (get_pre_mlsag_hash rv) scalar.
Proof.
  destruct rv as [b p]. intros (Hr & Hm & Hf & Ht & Hs & Lo & He & Ho & Hk). cbn [base prunable] in *. unfold get_pre_mlsag_hash. cbn [base prunable].
  destruct (mixRing b) as [|col cols] eqn:Em; [contradiction|]. rewrite check_throw_true by reflexivity.
  set (inputs := if is_simple (rct_type b) then _ else _).
  assert (exists n, inputs = Some n /\ (rct_type b = RCTTypeSimple -> n = List.length (mixRing b))) as (n & -> & Hn).
  { unfold inputs. destruct (is_simple (rct_type b)) eqn:E; eexists; (split; [reflexivity|]); intros Et; [now rewrite Em | rewrite Et in E; discriminate E]. }
  rewrite bind_Some.
  destruct (serialize_spec b n Hf Ht) as (blob & -> & Bb); trivial.
  { intros E. rewrite (Hn E), Em. exact (Hs E). }
  rewrite bind_Some, check_throw_true, bind_Some by reflexivity.
  eapply returns_bind; [exact (fast_hash_total blob Bb)|]. cbv beta. intros h Hh.
  assert (exists kv, (if is_bulletproof (rct_type b) then Some (List.concat (map bulletproof_keys (bulletproofs p)))
    else let! kvs := mapM rangeSig_keys (rangeSigs p) in Some (List.concat kvs)) = Some kv /\ Forall scalar kv) as (kv & -> & Hkv).
  { destruct (is_bulletproof (rct_type b)).
    - eexists. split; [reflexivity|]. apply Forall_concat, Forall_map. exact Hk.
    - clear -Hk. induction Hk as [|g gs Hg _ (kv & E & Hkv)]; [now exists []|]. destruct (rangeSig_keys_spec g Hg) as (ks & Ek & Fk). cbn [mapM]. rewrite Ek, bind_Some.
      destruct (mapM rangeSig_keys gs) as [kvs|]; [|discriminate E]. rewrite bind_Some in *. exists (ks ++ kv). injection E as <-.
      split; [reflexivity | now apply Forall_app]. }
  rewrite bind_Some. destruct (hash_total kv Hkv) as (hk & -> & Hhk). rewrite bind_Some. unfold mlsag_prehash.
  destruct (hash_total [message b; h; hk]) as (ph & -> & Hph); [|rewrite bind_Some; exact Hph].
  constructor; [exact Hm|]. constructor; [exact Hh|]. constructor; [exact Hhk | constructor].
Qed.

(** ** Masked amounts *)

Definition masked (a v : Z) (k : key) : ecdhTuple :=
  EcdhTuple (enc_scalar (a + Hs k)) (enc_scalar (v + Hs (enc_scalar (Hs k)))) zero.

Lemma sc_add_sum a b : sc_add (enc_scalar a) (enc_scalar b) = Some (enc_scalar (a + b)).
Proof. apply sc_add_val; apply sval_enc. Qed.

Lemma sc_sub_diff a b : sc_sub (enc_scalar a) (enc_scalar b) = Some (enc_scalar (a - b)).
Proof. apply sc_sub_val; apply sval_enc. Qed.

Lemma amount_enc v : 0 <= v < 2 ^ 64 -> d2h v = Some (enc_scalar v).
Proof.
  intros Hv. destruct (amount_scalar v Hv) as (_ & E & [Hs Hl]). rewrite d2h_spec by lia. f_equal. rewrite (enc_scalar_val _ Hs Hl). now rewrite E.
Qed.

Lemma ecdhEncode_enc a v k : scalar k -> ecdhEncode (EcdhTuple (enc_scalar a) (enc_scalar v) zero) k = Some (masked a v k).
Proof.
  intros Hk. unfold ecdhEncode. rewrite hash_key_enc, bind_Some, hash_key_enc, bind_Some by (exact Hk || apply enc_scalar_scalar).
  cbn [ecdh_mask ecdh_amount senderPk]. rewrite !sc_add_sum, !bind_Some. reflexivity.
Qed.

Lemma ecdhDecode_enc a v k : scalar k -> ecdhDecode (masked a v k) k = Some (EcdhTuple (enc_scalar a) (enc_scalar v) zero).
Proof.
  intros Hk. unfold ecdhDecode. rewrite hash_key_enc, bind_Some, hash_key_enc, bind_Some by (exact Hk || apply enc_scalar_scalar).
  unfold masked. cbn [ecdh_mask ecdh_amount senderPk]. rewrite !sc_sub_diff, !bind_Some. do 2 f_equal; f_equal; ring.
Qed.

(** The recipient decodes the amount and the mask. *)
Lemma decode_spec rv i a v k d :
  scalar k -> 0 <= v < 2 ^ 64 -> List.length (outPk (base rv)) = List.length (ecdhInfo (base rv)) ->
  nth_error (ecdhInfo (base rv)) i = Some (masked a v k) -> nth_error (outPk (base rv)) i = Some (CtKey d (encode (pedersen a v))) ->
  decode_output rv k i = Some (Returns (v, enc_scalar a)).
Proof.
  intros Hk Hv Lo Ei Eo. unfold decode_output. rewrite check_throw_true by (apply Nat.ltb_lt, nth_error_Some; congruence).
  rewrite check_throw_true by (rewrite Lo; apply Nat.eqb_refl). rewrite Ei, bind_Some, ecdhDecode_enc, bind_Some, Eo, bind_Some by exact Hk.
  cbn [ecdh_mask ecdh_amount mask].
  assert (addKeys2 (enc_scalar a) (enc_scalar v) rct_H = Some (Returns (encode (pedersen a v)))) as ->.
  { rewrite H_encode, addKeys2_enc by (apply reduced_255, enc_scalar_reduced || apply H_on_curve). rewrite lin_comm, !le_val_enc_scalar.
    fold (pedersen (a mod ell) (v mod ell)). now rewrite (pedersen_mod _ _ a v) by (apply Z.mod_mod; discriminate). }
  rewrite obind_Returns, check_throw_true by apply equalKeys_refl. destruct (enc_scalar_scalar v) as [Hb Hl].
  rewrite h2d_spec, bind_Some, le_val_enc_scalar by (trivial; rewrite Hl; lia). assert (2 ^ 64 < ell) by reflexivity.
  rewrite (Z.mod_small v ell), Z.mod_small by lia. reflexivity.
Qed.

(** ** Range proofs of the outputs *)

Definition good_range (C : key) (g : rangeSig) : Prop := verRange C g = Some true /\ sized_range g.

Definition good_proof (C : key) (p : Bulletproof) : Prop :=
  bp_V p = [C] /\ (forall ex, exponents_ok ex -> verBulletproof ex p = Some true) /\ Forall scalar (bulletproof_keys p).

(** The lists of proofs for the commitments [Cs]. *)
Definition good_proofs (bp : bool) (Cs : list key) (sigs : list rangeSig) (proofs : list Bulletproof) : Prop :=
  if bp then sigs = [] /\ Forall2 good_proof Cs proofs else proofs = [] /\ Forall2 good_range Cs sigs.

Lemma prove_bulletproof_spec ex v r :
  0 <= v < 2 ^ 64 -> exponents_ok ex -> rng_ready r ->
  produces true (proveRangeBulletproof ex v r) (fun '(C, m, p, ex', r') => exists a,
    C = encode (pedersen a v) /\ m = enc_scalar a /\ good_proof C p /\ exponents_ok ex' /\ rng_ready r').
Proof.
  intros Hv Hex Hr. unfold proveRangeBulletproof. destruct (proj1 (returns_some _ _) (skGen_spec r Hr)) as ([m r1] & -> & Rm & Hr1). rewrite bind_Some.
  destruct (oreturns_some _ _ (init_exponents_spec ex Hex)) as (ex' & -> & F & _). rewrite obind_Returns.
  assert (exponents_ok ex') as Hex' by (intros _; exact F).
  destruct (prove_amount_spec ex' v m r1 Hex' Hv (reduced_255 m Rm) Hr1) as ([[p r2] | w] & -> & Ho).
  2: { cbn. tauto. }
  destruct Ho as (Hr2 & EV & Hver & Hk). rewrite obind_Returns, EV. rewrite check_throw_true by reflexivity. cbn [nth_error]. rewrite bind_Some.
  cbn. exists (le_val m). split; [reflexivity|]. split; [apply enc_scalar_val; apply Rm|]. split; [|now split].
  split; [exact EV|]. split; [|exact Hk]. intros ex2 H2. unfold verBulletproof. now rewrite Hver.
Qed.

Lemma prove_range_spec v r :
  0 <= v < 2 ^ 64 -> rng_ready r ->
  oreturns (proveRange v r) (fun '(C, m, g, r') => exists a, C = encode (pedersen a v) /\ m = enc_scalar a /\ good_range C g /\ rng_ready r').
Proof.
  intros Hv Hr. eapply returns_weaken; [exact (proveRange_spec v r Hv Hr)|]. intros [[[[C m] g] r'] | w]; [|auto].
  intros (a & bb & Ps & -> & -> & -> & (L0 & L1 & _) & F0 & F1 & Fe & LP & HP & Hver & Hr'). exists a.
  split; [reflexivity|]. split; [reflexivity|]. split; [|exact Hr']. split; [exact Hver|]. unfold sized_range. cbn [asig Ci].
  assert (forall l, Forall reduced_scalar l -> Forall scalar l) as K by (intros l; apply Forall_impl; now intros k [? _]).
  split; [now apply K|]. split; [exact L0|]. split; [now apply K|]. split; [exact L1|]. split; [apply Fe|]. split; [|now rewrite length_map].
  apply Forall_map. apply Forall_forall. intros; apply encode_scalar.
Qed.

Lemma gen_range_spec bp v st Cs :
  0 <= v < 2 ^ 64 -> exponents_ok (gs_ex st) -> rng_ready (gs_rng st) -> good_proofs bp Cs (gs_rangeSigs st) (gs_bulletproofs st) ->
  produces bp (gen_range bp v st) (fun '(C, m, sigs, proofs, ex, r) => exists a,
    C = encode (pedersen a v) /\ m = enc_scalar a /\ exponents_ok ex /\ rng_ready r /\ good_proofs bp (Cs ++ [C]) sigs proofs).
Proof.
  intros Hv Hex Hr HC. unfold gen_range, good_proofs in *. destruct bp, HC as [E HC].
  - eapply produces_bind; [exact (prove_bulletproof_spec _ v _ Hv Hex Hr)|]. intros [[[[C m] p] ex] r] (a & EC & Em & Hp & Hex' & Hr').
    cbn. exists a. repeat (split; [assumption|]). apply Forall2_app; [exact HC|]. now constructor.
  - eapply produces_bind; [exact (produces_returns false _ _ (prove_range_spec v _ Hv Hr))|]. intros [[[C m] g] r] (a & EC & Em & Hp & Hr').
    cbn. exists a. repeat (split; [assumption|]). apply Forall2_app; [exact HC|]. now constructor.
Qed.

(** ** The loop over the outputs *)

(** The function [a], changed at [i]. *)
Definition put (a : nat -> Z) (i : nat) (x : Z) (j : nat) : Z := if (j =? i)%nat then x else a j.

Lemma put_map {A} (f : (nat -> Z) -> nat -> A) a i x :
  (forall a b j, a j = b j -> f a j = f b j) -> map (f (put a i x)) (seq 0 i) = map (f a) (seq 0 i).
Proof.
  intros Hf. apply map_ext_in. intros j Hj%in_seq. apply Hf. unfold put. now rewrite (proj2 (Nat.eqb_neq j i)) by lia.
Qed.

Lemma put_same a i x : put a i x i = x.
Proof. unfold put. now rewrite Nat.eqb_refl. Qed.

Lemma zsum_put a i x : zsum (S i) (put a i x) = zsum i a + x.
Proof.
  cbn [zsum]. rewrite put_same. f_equal. apply zsum_ext. intros j Hj. unfold put. now rewrite (proj2 (Nat.eqb_neq j i)) by lia.
Qed.

Section Outputs.
  Variables (bp : bool) (destinations : list key) (amounts : list Z) (amount_keys : list key).
Let n := List.length destinations.
  Hypothesis Lam : (n <= List.length amounts)%nat.
  Hypothesis Ham : Forall (fun v => 0 <= v < 2 ^ 64) amounts.
  Hypothesis Lak : List.length amount_keys = n.
  Hypothesis Hak : Forall scalar amount_keys.

Definition out_commit (a : nat -> Z) (j : nat) : key := encode (pedersen (a j) (nth j amounts 0)).

Definition out_key (a : nat -> Z) (j : nat) : ctkey := CtKey (nth j destinations []) (out_commit a j).

Definition out_info (a : nat -> Z) (j : nat) : ecdhTuple := masked (a j) (nth j amounts 0) (nth j amount_keys []).

(** The first [i] outputs are made, with the masks [a]. *)
Definition outputs_made (a : nat -> Z) (i : nat) (st : gen_state) : Prop :=
  gs_outPk st = map (out_key a) (seq 0 i) /\ gs_ecdhInfo st = map (out_info a) (seq 0 i) /\
  List.length (gs_outSk st) = n /\ (forall j, (j < i)%nat -> mask (nth j (gs_outSk st) (CtKey zero zero)) = enc_scalar (a j)) /\
  exponents_ok (gs_ex st) /\ rng_ready (gs_rng st) /\
  good_proofs bp (map (out_commit a) (seq 0 i)) (gs_rangeSigs st) (gs_bulletproofs st).

Lemma gen_output_spec a i st :
  (i < n)%nat -> outputs_made a i st ->
  produces bp (gen_output bp destinations amounts amount_keys st i) (fun st' => exists x, outputs_made (put a i x) (S i) st').
Proof.
  intros Hi (EO & EE & LS & HS & Hex & Hr & HG). unfold gen_output.
  rewrite (nth_error_nth' destinations []), bind_Some by exact Hi.
  destruct (Forall_nth_error _ amounts i 0 Ham ltac:(lia)) as [-> Hv]. rewrite bind_Some.
  eapply produces_bind; [exact (gen_range_spec bp (nth i amounts 0) st _ Hv Hex Hr HG)|].
  intros [[[[[C m] sigs] proofs] ex] r] (x & -> & -> & Hex' & Hr' & HG').
  rewrite (nth_error_nth' (gs_outSk st) (CtKey zero zero)), bind_Some by lia.
  destruct (proj1 (returns_some _ _) (aset_spec (gs_outSk st) i (CtKey (dest (nth i (gs_outSk st) (CtKey zero zero))) (enc_scalar x)) (CtKey zero zero) ltac:(lia)))
    as (sk' & -> & LS' & HS'). rewrite bind_Some, amount_enc, bind_Some by exact Hv.
  destruct (Forall_nth_error _ amount_keys i [] Hak ltac:(lia)) as [-> Hk]. rewrite bind_Some, ecdhEncode_enc, bind_Some by exact Hk.
  cbn [produces returns]. exists x. unfold outputs_made. cbn [gs_outPk gs_rangeSigs gs_bulletproofs gs_ecdhInfo gs_outSk gs_ex gs_rng].
  rewrite !map_seq_snoc, !put_map by (intros b c j E; unfold out_key, out_info, out_commit; now rewrite E).
  replace (out_commit (put a i x) i) with (encode (pedersen x (nth i amounts 0))) by (unfold out_commit; now rewrite put_same).
  replace (out_key (put a i x) i) with (CtKey (nth i destinations []) (encode (pedersen x (nth i amounts 0))))
    by (unfold out_key, out_commit; now rewrite put_same).
  replace (out_info (put a i x) i) with (masked x (nth i amounts 0) (nth i amount_keys [])) by (unfold out_info; now rewrite put_same).
  rewrite EO, EE.
  split; [reflexivity|]. split; [reflexivity|]. split; [lia|]. split; [|now split].
  intros j Hj. rewrite HS'. destruct (Nat.eqb_spec j i) as [->|N]; [now rewrite put_same|]. rewrite HS by lia. unfold put.
  now rewrite (proj2 (Nat.eqb_neq j i) N).
Qed.

Lemma resize_length outSk : List.length (resize_sk n outSk) = n.
Proof. unfold resize_sk. rewrite length_app, length_firstn, repeat_length. lia. Qed.

Lemma outputs_start outSk ex r : exponents_ok ex -> rng_ready r -> outputs_made (fun _ => 0) 0 (GenState [] [] [] [] (resize_sk n outSk) ex r).
Proof.
  intros Hex Hr. unfold outputs_made. cbn [gs_outPk gs_rangeSigs gs_bulletproofs gs_ecdhInfo gs_outSk gs_ex gs_rng seq map].
  split; [reflexivity|]. split; [reflexivity|]. split; [apply resize_length|]. split; [intros; lia|]. split; [exact Hex|]. split; [exact Hr|].
  unfold good_proofs. destruct bp; split; reflexivity || constructor.
Qed.

Lemma outputs_spec outSk ex r :
  exponents_ok ex -> rng_ready r ->
  produces bp (ofold (gen_output bp destinations amounts amount_keys) (seq 0 n) (GenState [] [] [] [] (resize_sk n outSk) ex r))
    (fun st => exists a, outputs_made a n st).
Proof.
  intros Hex Hr. apply (produces_fold bp (fun i st => exists a, outputs_made a i st)).
  - exists (fun _ => 0). now apply outputs_start.
  - intros i st Hi (a & Ha). eapply returns_weaken; [exact (gen_output_spec a i st ltac:(lia) Ha)|].
    intros [st' | w]; [|auto]. intros (x & Hx). now exists (put a i x).
Qed.

Lemma outputs_simple_spec outSk ex r :
  exponents_ok ex -> rng_ready r ->
  produces bp (ofold (gen_output_simple bp destinations amounts amount_keys) (seq 0 n) (GenState [] [] [] [] (resize_sk n outSk) ex r, zero))
    (fun '(st, sumout) => exists a, outputs_made a n st /\ sumout = enc_scalar (zsum n a)).
Proof.
  intros Hex Hr. apply (produces_fold bp (fun i '(st, sumout) => exists a, outputs_made a i st /\ sumout = enc_scalar (zsum i a))).
  - exists (fun _ => 0). split; [now apply outputs_start | apply zero_enc].
  - intros i [st sumout] Hi (a & Ha & ->). unfold gen_output_simple.
    eapply produces_bind; [exact (gen_output_spec a i st ltac:(lia) Ha)|]. intros st' (x & Hx).
    pose proof Hx as (_ & _ & LS & HS & _). rewrite (nth_error_nth' (gs_outSk st') (CtKey zero zero)), bind_Some by lia.
    rewrite (HS i (Nat.lt_succ_diag_r i)), put_same, sc_add_sum, bind_Some. cbn [produces returns]. exists (put a i x).
    split; [exact Hx|]. rewrite zsum_put. f_equal. ring.
Qed.
End Outputs.

(** ** Verification of the outputs *)

Lemma Forall2_nth {A B} (R : A -> B -> Prop) l l' i x : Forall2 R l l' -> nth_error l i = Some x -> exists y, nth_error l' i = Some y /\ R x y.
Proof.
  intros H. revert i. induction H as [|a b l l' Hab _ IH]; intros [|i] E; try discriminate E; [|exact (IH i E)].
  injection E as ->. now exists b.
Qed.

Lemma all_true {A} (f : A -> option bool) l :
  (forall x, In x l -> f x = Some true) -> (let! results := mapM f l in Some (forallb (fun b => b) results)) = Some true.
Proof. intros H. rewrite (mapM_map f (fun _ => true)), bind_Some by exact H. f_equal. apply forallb_forall. now intros b (_ & <- & _)%in_map_iff. Qed.

Lemma ver_outputs_accepts bp ex rv :
  exponents_ok ex -> good_proofs bp (map mask (outPk (base rv))) (rangeSigs (prunable rv)) (bulletproofs (prunable rv)) -> ver_outputs ex rv = Some true.
Proof.
  intros Hex HG. apply all_true. intros i Hi%in_seq.
  destruct (nth_error (outPk (base rv)) i) as [o|] eqn:Eo; [|apply nth_error_None in Eo; lia].
  assert (nth_error (map mask (outPk (base rv))) i = Some (mask o)) as Em by now rewrite nth_error_map, Eo.
  unfold ver_output, good_proofs in *. destruct bp, HG as [E HG]; destruct (Forall2_nth _ _ _ _ _ HG Em) as (p & Ep & Hp).
  - rewrite E. cbn [is_empty]. rewrite Ep, bind_Some. now apply Hp.
  - destruct (rangeSigs (prunable rv)) as [|g gs]; [destruct i; discriminate Ep|]. cbn [is_empty]. rewrite Eo, bind_Some, Ep, bind_Some. apply Hp.
Qed.

Lemma ver_sums_pedersen rv n m a v b w :
  0 <= txnFee (base rv) < 2 ^ 64 -> map mask (outPk (base rv)) = map (fun j => encode (pedersen (a j) (v j))) (seq 0 n) ->
  pseudo_outs rv = map (fun j => encode (pedersen (b j) (w j))) (seq 0 m) ->
  ver_sums rv = Some (Returns (equalKeys (encode (pedersen (zsum m b) (zsum m w))) (encode (pedersen (zsum n a) (txnFee (base rv) + zsum n v))))).
Proof.
  intros Hf Ho Hp. unfold ver_sums. rewrite <- (ofold_map mask addKeys), Ho, Hp, identity_pedersen, !add_commitments, !obind_Returns, !Z.add_0_l.
  rewrite fee_bind by exact Hf. rewrite addKeys_enc, obind_Returns, pedersen_add, Z.add_0_l by apply pedersen_on_curve. reflexivity.
Qed.

(** ** Pseudo outputs *)

Lemma genC_val b v : 0 <= v < 2 ^ 64 -> genC (enc_scalar b) v = Some (Returns (encode (pedersen b v))).
Proof.
  intros Hv. rewrite genC_enc, le_val_enc_scalar by (exact Hv || apply enc_scalar_scalar).
  now rewrite (pedersen_mod _ _ b v) by (reflexivity || (apply Z.mod_mod; discriminate)).
Qed.

Definition pseudo_made (inamounts : list Z) (b : nat -> Z) (i : nat) (a outs : list key) : Prop :=
  a = map (fun j => enc_scalar (b j)) (seq 0 i) /\ outs = map (out_commit inamounts b) (seq 0 i).

Lemma pseudo_snoc inamounts b i a outs x :
  pseudo_made inamounts b i a outs ->
  pseudo_made inamounts (put b i x) (S i) (a ++ [enc_scalar x]) (outs ++ [encode (pedersen x (nth i inamounts 0))]).
Proof.
  intros [-> ->]. unfold pseudo_made. rewrite !map_seq_snoc, (put_map (out_commit inamounts)) by (intros c d j E; unfold out_commit; now rewrite E).
  rewrite (put_map (fun c j => enc_scalar (c j))) by (intros c d j ->; reflexivity). unfold out_commit. now rewrite !put_same.
Qed.

Lemma pseudo_spec inamounts k r :
  Forall (fun v => 0 <= v < 2 ^ 64) inamounts -> (k <= List.length inamounts)%nat -> rng_ready r ->
  oreturns (ofold (gen_pseudo inamounts) (seq 0 k) ([], [], zero, r)) (fun '(a, outs, s, r') => exists b,
    pseudo_made inamounts b k a outs /\ s = enc_scalar (zsum k b) /\ rng_ready r').
Proof.
  intros Hv Hk Hr. apply (ofold_seq (fun i '(a, outs, s, r') => exists b, pseudo_made inamounts b i a outs /\ s = enc_scalar (zsum i b) /\ rng_ready r')).
  - exists (fun _ => 0). split; [split; reflexivity|]. split; [apply zero_enc | exact Hr].
  - intros i [[[a outs] s] r1] Hi (b & Hm & -> & Hr1). unfold gen_pseudo.
    destruct (proj1 (returns_some _ _) (skGen_enc r1 Hr1)) as ([? r2] & -> & x & -> & Hr2). rewrite bind_Some, sc_add_sum, bind_Some.
    destruct (Forall_nth_error _ inamounts i 0 Hv ltac:(lia)) as [-> Hvi]. rewrite bind_Some, genC_val, obind_Returns by exact Hvi.
    unfold oreturns, returns. exists (put b i x). split; [now apply pseudo_snoc|]. split; [|exact Hr2]. rewrite zsum_put. f_equal. ring.
Qed.

(** ** Keys that can be spent *)

Definition valid_pub (k : key) : Prop := scalar k /\ check_key k = Some true.

Definition ct0 : ctkey := CtKey zero zero.

(** A ring of at least two valid keys, the secret key of one of them, and the opening of its
    commitment to [v]. *)
Definition spendable (ring : list ctkey) (index : nat) (sk : ctkey) (v : Z) : Prop :=
  (2 <= List.length ring)%nat /\ (index < List.length ring)%nat /\ (forall p, In p ring -> valid_pub (dest p) /\ valid_pub (mask p)) /\
  reduced_scalar (dest sk) /\ reduced_scalar (mask sk) /\ scalarmultBase (dest sk) = Some (dest (nth index ring ct0)) /\
  commit v (mask sk) = Some (Returns (mask (nth index ring ct0))).

Lemma valid_point k : valid_pub k -> exists P, on_curve P /\ k = encode P.
Proof.
  intros [Hk Hc]. destruct (point_cases k Hk) as [(P & HP & ->) | [E _]]; [now exists P|]. unfold check_key in Hc. rewrite E in Hc. discriminate Hc.
Qed.

Lemma valid_ring ring : (forall p, In p ring -> valid_pub (dest p) /\ valid_pub (mask p)) -> exists PCs, ring = map ct_of PCs /\ Forall on_curve2 PCs.
Proof.
  induction ring as [|[d m] ring IH]; intros H; [exists []; now split|]. destruct IH as (PCs & -> & HP); [intros p Hp; apply H; now right|].
  destruct (H (CtKey d m) (or_introl eq_refl)) as [Hd Hm]. cbn [dest mask] in *.
  destruct (valid_point d Hd) as (P & H1 & ->), (valid_point m Hm) as (C & H2 & ->). exists ((P, C) :: PCs). split; [reflexivity|]. now constructor.
Qed.

Lemma spendable_points ring index sk v :
  0 <= v < 2 ^ 64 -> spendable ring index sk v ->
  exists PCs, ring = map ct_of PCs /\ (2 <= List.length PCs)%nat /\ (index < List.length PCs)%nat /\ Forall on_curve2 PCs /\
    reduced_scalar (dest sk) /\ reduced_scalar (mask sk) /\
    nth index PCs (ed_0, ed_0) = (ed_mul (le_val (dest sk)) base_point, pedersen (le_val (mask sk)) v).
Proof.
  intros Hv (H2 & Hi & Hp & Rd & Rm & Ed & Em). destruct (valid_ring ring Hp) as (PCs & -> & HP). rewrite length_map in *.
  exists PCs. repeat (split; [assumption || reflexivity|]).
  rewrite (nth_indep _ ct0 (ct_of (ed_0, ed_0))), map_nth in Ed, Em by now rewrite length_map.
  destruct (Forall_nth_error _ PCs index (ed_0, ed_0) HP Hi) as [_ [C1 C2]]. destruct (nth index PCs (ed_0, ed_0)) as [P C]. cbn [ct_of dest mask fst snd] in *.
  rewrite scalarmultBase_enc in Ed by apply Rd. rewrite commit_enc in Em by (exact Hv || apply Rm). f_equal; apply encode_inj; try congruence; try assumption.
  - apply ed_mul_on_curve, base_point_on_curve.
  - apply pedersen_on_curve.
Qed.

(** ** Simple signatures *)

Lemma zsum_nth l : zsum (List.length l) (fun j => nth j l 0) = fold_right Z.add 0 l.
Proof.
  induction l as [|x l IH] using rev_ind; [reflexivity|]. rewrite length_app, fold_right_app, Nat.add_comm. cbn [List.length Nat.add zsum fold_right].
  rewrite nth_middle, (zsum_ext _ _ (fun j => nth j l 0)), IH by (intros j Hj; now rewrite app_nth1).
  clear. induction l as [|y l IH]; cbn [fold_right]; lia.
Qed.

(** The hash does not depend on the signatures. *)
Lemma pre_hash_mgs b s p mgs q : get_pre_mlsag_hash (RctSig b (RctSigPrunable s p mgs q)) = get_pre_mlsag_hash (RctSig b (RctSigPrunable s p [] q)).
Proof. reflexivity. Qed.

Lemma good_proofs_hashable bp Cs sigs proofs :
  good_proofs bp Cs sigs proofs -> if bp then Forall (fun p => Forall scalar (bulletproof_keys p)) proofs else Forall sized_range sigs.
Proof. unfold good_proofs. destruct bp; intros [_ H]; clear -H; induction H as [|C p Cs ps Hp _ IH]; constructor; trivial; apply Hp. Qed.

Lemma good_proofs_length bp Cs sigs proofs : good_proofs bp Cs sigs proofs -> List.length (if bp then map (fun _ => tt) proofs else map (fun _ => tt) sigs) = List.length Cs.
Proof. unfold good_proofs. destruct bp; intros [_ H]; rewrite length_map; symmetry; exact (Forall2_length H). Qed.

Section Simple.
  Variables (inSk : list ctkey) (inamounts : list Z) (mixRing : list (list ctkey)) (index : list nat).
Let m := List.length inamounts.
  Hypothesis LI : List.length inSk = m.
  Hypothesis LX : List.length index = m.
  Hypothesis LM : List.length mixRing = m.
  Hypothesis Hv : Forall (fun v => 0 <= v < 2 ^ 64) inamounts.

(** The key image of input [i]. *)
Definition input_image (i : nat) : key :=
  let sk := dest (nth i inSk ct0) in
  encode (ed_mul (le_val sk) (Hp (dest (nth (nth i index 0%nat) (nth i mixRing []) ct0)))).

Definition input_accepted (h : key) (pouts : list key) (mgs : list mgSig) (j : nat) : Prop :=
  exists mg, nth_error mgs j = Some mg /\ verRctMGSimple h mg (nth j mixRing []) (nth j pouts []) = Some true.

Definition input_signed (h : key) (pouts : list key) (mgs : list mgSig) (j : nat) : Prop :=
  exists mg, nth_error mgs j = Some mg /\ verRctMGSimple h mg (nth j mixRing []) (nth j pouts []) = Some true /\ II mg = [input_image j].

Section Signed.
  Hypothesis Hsp : forall i, (i < m)%nat -> spendable (nth i mixRing []) (nth i index 0%nat) (nth i inSk ct0) (nth i inamounts 0).

Lemma gen_mg_spec h b a pouts mgs r i :
  scalar h -> pseudo_made inamounts b m a pouts -> (i < m)%nat -> List.length mgs = i -> rng_ready r ->
  oreturns (gen_mg h mixRing inSk a pouts None false index (mgs, [], r) i) (fun '(mgs', cs, r') =>
    cs = [] /\ rng_ready r' /\ exists mg, mgs' = mgs ++ [mg] /\ verRctMGSimple h mg (nth i mixRing []) (nth i pouts []) = Some true /\ II mg = [input_image i]).
Proof.
  intros Hh [-> ->] Hi Lm Hr. unfold gen_mg. destruct (Forall_nth_error _ inamounts i 0 Hv Hi) as [_ Hvi].
  rewrite (nth_error_nth' mixRing []), bind_Some, (nth_error_nth' inSk ct0), bind_Some by lia.
  rewrite !nth_error_map_seq, !bind_Some, (nth_error_nth' index 0%nat), !bind_Some by lia. rewrite (nth_map_seq (out_commit inamounts b)) by exact Hi.
  destruct (spendable_points _ _ _ _ Hvi (Hsp i Hi)) as (PCs & ER & H2 & Hx & HP & Rd & Rm & En). unfold input_image. rewrite ER.
  eapply oreturns_bind; [exact (simple_accepts h PCs (nth i inSk ct0) (b i) (nth i inamounts 0) (nth i index 0%nat) r Hh H2 HP Hx Rd Rm En Hr)|].
  intros [[mg out] r'] (-> & Hr' & Hver & EI). unfold oreturns, returns. split; [reflexivity|]. split; [exact Hr'|]. exists mg.
  split; [reflexivity|]. split; [exact Hver|]. rewrite EI. rewrite (nth_indep (map ct_of PCs) ct0 (ct_of (ed_0, ed_0))), map_nth by now rewrite length_map. reflexivity.
Qed.

Lemma gen_mgs_spec h b a pouts r :
  scalar h -> pseudo_made inamounts b m a pouts -> rng_ready r ->
  oreturns (ofold (gen_mg h mixRing inSk a pouts None false index) (seq 0 m) ([], [], r)) (fun '(mgs, cs, r') =>
    rng_ready r' /\ List.length mgs = m /\ cs = [] /\ forall j, (j < m)%nat -> input_signed h pouts mgs j).
Proof.
  intros Hh Hp Hr.
  apply (ofold_seq (fun i '(mgs, cs, r') => rng_ready r' /\ List.length mgs = i /\ cs = [] /\ forall j, (j < i)%nat -> input_signed h pouts mgs j)).
  - split; [exact Hr|]. split; [reflexivity|]. split; [reflexivity | intros; lia].
  - intros i [[mgs cs] r1] Hi (Hr1 & Lm & -> & Hs). eapply returns_weaken; [exact (gen_mg_spec h b a pouts mgs r1 i Hh Hp ltac:(lia) Lm Hr1)|].
    intros [[[mgs' cs'] r'] | w]; [|auto]. intros (-> & Hr' & mg & -> & Hver & EI). split; [exact Hr'|].
    rewrite length_app, Lm. split; [cbn; lia|]. split; [reflexivity|]. intros j Hj. unfold input_signed. destruct (Nat.eq_dec j i) as [->|N].
    + exists mg. rewrite nth_error_app2, Lm, Nat.sub_diag by lia. now split.
    + destruct (Hs j ltac:(lia)) as (mg' & E & H). exists mg'. rewrite nth_error_app1 by (apply nth_error_Some; congruence). now split.
Qed.
End Signed.

(** The signature that is made. *)
Definition simple_sig (bp : bool) (message : key) (pouts : list key) (st : gen_state) (fee : Z) (mgs : list mgSig) : rctSig :=
  RctSig (RctSigBase (if bp then RCTTypeSimpleBulletproof else RCTTypeSimple) message mixRing (if bp then [] else pouts) (gs_ecdhInfo st) (gs_outPk st) fee)
    (RctSigPrunable (gs_rangeSigs st) (gs_bulletproofs st) mgs (if bp then pouts else [])).

Section Made.
  Variables (bp : bool) (message : key) (destinations : list key) (outamounts : list Z) (amount_keys : list key) (fee : Z).
  Variables (a b : nat -> Z) (st : gen_state) (masks pouts : list key).
Let n := List.length destinations.
  Hypothesis Hm : scalar message.
  Hypothesis Hfee : 0 <= fee < 2 ^ 64.
  Hypothesis Hm1 : (1 <= m)%nat.
  Hypothesis LO : List.length outamounts = n.
  Hypothesis HO : Forall (fun v => 0 <= v < 2 ^ 64) outamounts.
  Hypothesis LK : List.length amount_keys = n.
  Hypothesis HK : Forall scalar amount_keys.
  Hypothesis Hst : outputs_made bp destinations outamounts amount_keys a n st.
  Hypothesis Hps : pseudo_made inamounts b m masks pouts.

Lemma simple_masks : map mask (gs_outPk st) = map (out_commit outamounts a) (seq 0 n).
Proof. destruct Hst as (-> & _). rewrite map_map. reflexivity. Qed.

Lemma simple_hashable mgs : hashable (simple_sig bp message pouts st fee mgs).
Proof.
  destruct Hst as (EO & EE & _ & _ & _ & _ & HG), Hps as [_ EP]. unfold hashable, simple_sig.
  cbn [base prunable rct_type RctTypes.mixRing RctTypes.message txnFee pseudoOuts ecdhInfo outPk rangeSigs bulletproofs].
  split; [intros ->; cbn in LM; lia|]. split; [exact Hm|]. split; [exact Hfee|]. split; [destruct bp; cbn; auto|].
  split; [destruct bp; [discriminate | intros _]|].
  { rewrite EP, length_map, length_seq. split; [now rewrite LM|]. apply Forall_map, Forall_forall. intros; apply encode_scalar. }
  split; [rewrite EO, EE, !length_map; reflexivity|].
  split; [rewrite EE; apply Forall_map, Forall_forall; intros; split; apply enc_scalar_scalar|].
  split; [rewrite EO; apply Forall_map, Forall_forall; intros; apply encode_scalar|].
  pose proof (good_proofs_hashable _ _ _ _ HG) as H. destruct bp; exact H.
Qed.

Lemma simple_semantics ex mgs :
  exponents_ok ex -> List.length mgs = m -> zsum m b = zsum n a ->
  zsum m (fun j => nth j inamounts 0) = fee + zsum n (fun j => nth j outamounts 0) ->
  verRctSimple ex (simple_sig bp message pouts st fee mgs) true = Some true.
Proof.
  intros Hex Lm Ea Ev. pose proof Hst as (EO & EE & _ & _ & _ & _ & HG). pose proof Hps as [_ EP]. unfold verRctSimple.
  replace (negb _) with false by (destruct bp; reflexivity).
  pose proof (good_proofs_length _ _ _ _ HG) as LG. rewrite length_map, length_seq in LG.
  assert (List.length pouts = m) as LP by (rewrite EP, length_map; apply length_seq).
  assert (List.length (gs_outPk st) = n /\ List.length (gs_ecdhInfo st) = n) as [LOut LE] by (rewrite EO, EE, !length_map, length_seq; auto).
  assert (simple_sizes (simple_sig bp message pouts st fee mgs) true = true) as ->.
  { unfold simple_sizes, simple_sig. cbn [base prunable rct_type pseudoOuts ecdhInfo outPk rangeSigs bulletproofs MGs p_pseudoOuts]. rewrite LOut, LE, Lm, Nat.eqb_refl.
    destruct bp; rewrite length_map in LG; cbn [Z.eqb Pos.eqb RCTTypeSimple RCTTypeSimpleBulletproof is_empty]; rewrite LG, LP, !Nat.eqb_refl; reflexivity. }
  cbn [negb]. rewrite (ver_sums_pedersen _ n m a (fun j => nth j outamounts 0) b (fun j => nth j inamounts 0)); [|exact Hfee | exact simple_masks|].
  - cbn [simple_sig base txnFee]. rewrite obind_Returns, Ea, Ev, equalKeys_refl. cbn [negb]. rewrite (ver_outputs_accepts bp), bind_Some; [reflexivity | exact Hex|].
    cbn [simple_sig base prunable outPk rangeSigs bulletproofs]. rewrite simple_masks. exact HG.
  - unfold pseudo_outs, simple_sig. cbn [base prunable rct_type pseudoOuts p_pseudoOuts]. rewrite EP. destruct bp; reflexivity.
Qed.

Lemma simple_signatures ex mgs h :
  get_pre_mlsag_hash (simple_sig bp message pouts st fee []) = Some (Returns h) -> (forall j, (j < m)%nat -> input_accepted h pouts mgs j) ->
  verRctSimple ex (simple_sig bp message pouts st fee mgs) false = Some true.
Proof.
  intros Eh Hmg. unfold verRctSimple. replace (negb _) with false by (destruct bp; reflexivity).
  assert (List.length pouts = m) as LP by (rewrite (proj2 Hps), length_map; apply length_seq).
  assert (simple_sizes (simple_sig bp message pouts st fee mgs) false = true) as ->.
  { unfold simple_sizes, simple_sig. cbn [base prunable rct_type pseudoOuts RctTypes.mixRing p_pseudoOuts]. 
    destruct bp; cbn [Z.eqb Pos.eqb RCTTypeSimple RCTTypeSimpleBulletproof]; rewrite LP, LM; apply Nat.eqb_refl. }
  assert (pseudo_outs (simple_sig bp message pouts st fee mgs) = pouts) as Epo by (destruct bp; reflexivity).
  cbn [negb]. unfold simple_sig at 1. rewrite pre_hash_mgs. fold (simple_sig bp message pouts st fee []). rewrite Eh, obind_Returns.
  rewrite (mapM_map _ (fun _ => true)), bind_Some.
  - unfold catch_false. rewrite bind_Some. f_equal. apply forallb_forall. now intros t (_ & <- & _)%in_map_iff.
  - intros j Hj%in_seq. cbn [simple_sig base RctTypes.mixRing] in Hj. rewrite LM in Hj. destruct (Hmg j ltac:(lia)) as (mg & E & Hver).
    unfold ver_input. rewrite Epo. cbn [simple_sig base prunable MGs RctTypes.mixRing]. rewrite E, bind_Some, (nth_error_nth' mixRing []), bind_Some by lia.
    rewrite (nth_error_nth' pouts []), bind_Some by lia. exact Hver.
Qed.

Lemma simple_decodes mgs i k :
  (i < n)%nat -> decodeRctSimple (simple_sig bp message pouts st fee mgs) (nth i amount_keys []) i k
    = Some (Returns (nth i outamounts 0, mask (nth i (gs_outSk st) ct0))).
Proof.
  intros Hi. destruct Hst as (EO & EE & _ & HS & _). unfold decodeRctSimple. replace (negb _) with false by (destruct bp; reflexivity).
  destruct (Forall_nth_error _ amount_keys i [] HK ltac:(lia)) as [_ Hk]. destruct (Forall_nth_error _ outamounts i 0 HO ltac:(lia)) as [_ Hvi].
  unfold ct0. rewrite HS by exact Hi. cbv iota. eapply (decode_spec _ i (a i) (nth i outamounts 0) (nth i amount_keys []) (nth i destinations [])); trivial; cbn [simple_sig base ecdhInfo outPk]; rewrite ?EO, ?EE.
  - now rewrite !length_map.
  - now rewrite nth_error_map_seq by exact Hi.
  - now rewrite nth_error_map_seq by exact Hi.
Qed.
End Made.

Lemma indices_in_range :
  (forall i, (i < m)%nat -> (nth i index 0 < List.length (nth i mixRing []))%nat) ->
  mapM (fun i => let! idx := nth_error index i in let! ring := nth_error mixRing i in Some (idx <? List.length ring)%nat)
  (seq 0 (List.length mixRing)) = Some (map (fun _ => true) (seq 0 (List.length mixRing))).
Proof.
  intros Hidx. apply mapM_map. intros i Hi%in_seq. rewrite (nth_error_nth' index 0%nat), bind_Some, (nth_error_nth' mixRing []), bind_Some by lia.
  f_equal. apply Nat.ltb_lt. apply Hidx. lia.
Qed.

(** The whole of [genRctSimple], with what the loop over the inputs makes. *)
Lemma gen_simple_spec (kLRki : option (list multisig_kLRki)) (msout : bool) (Q : key -> list key -> list mgSig -> list key -> Prop) bp message destinations
    outamounts amount_keys fee outSk ex r :
  let n := List.length destinations in
  (forall i, (i < m)%nat -> (nth i index 0 < List.length (nth i mixRing []))%nat) ->
  (match kLRki with Some l => msout = true /\ List.length l = m | None => msout = false end) ->
  (forall h b a pouts r, scalar h -> pseudo_made inamounts b m a pouts -> rng_ready r ->
     oreturns (ofold (gen_mg h mixRing inSk a pouts kLRki msout index) (seq 0 m) ([], [], r)) (fun '(mgs, cs, r') =>
       rng_ready r' /\ List.length mgs = m /\ Q h pouts mgs cs)) ->
  scalar message -> (1 <= m)%nat -> 0 <= fee < 2 ^ 64 -> List.length outamounts = n -> Forall (fun v => 0 <= v < 2 ^ 64) outamounts ->
  List.length amount_keys = n -> Forall scalar amount_keys -> exponents_ok ex -> rng_ready r ->
  produces bp (genRctSimple message inSk destinations inamounts outamounts fee mixRing amount_keys kLRki msout index outSk bp ex r)
    (fun '(rv, sks, cs, ex', r') => exists a b st masks pouts mgs h,
       rv = simple_sig bp message pouts st fee mgs /\ sks = gs_outSk st /\ exponents_ok ex' /\ rng_ready r' /\
       outputs_made bp destinations outamounts amount_keys a n st /\ pseudo_made inamounts b m masks pouts /\ zsum m b = zsum n a /\
       get_pre_mlsag_hash (simple_sig bp message pouts st fee []) = Some (Returns h) /\
       List.length mgs = m /\ Q h pouts mgs cs).
Proof.
  intros n Hidx Hkl Hloop Hm Hm1 Hf LO HO LK HK Hex Hr. unfold genRctSimple. fold n m.
  rewrite check_throw_true by (apply Nat.ltb_lt; lia). rewrite LI, LX, LM, LO, LK, !Nat.eqb_refl. do 5 rewrite check_throw_true by reflexivity.
  pose proof (indices_in_range Hidx) as HX. rewrite LM in HX. rewrite HX, bind_Some. clear HX.
  rewrite check_throw_true by (apply forallb_forall; now intros t (_ & <- & _)%in_map_iff).
  do 2 rewrite check_throw_true by (destruct kLRki as [l|]; [destruct Hkl as [-> Ll]; rewrite ?Ll, ?Nat.eqb_refl | rewrite ?Hkl]; reflexivity).
  eapply produces_bind; [exact (outputs_simple_spec bp destinations outamounts amount_keys ltac:(lia) HO LK HK outSk ex r Hex Hr)|].
  intros [st sumout] (a & Hst & ->). pose proof Hst as (_ & _ & _ & _ & Hex' & Hr1 & _).
  eapply produces_bind; [exact (produces_returns bp _ _ (pseudo_spec inamounts (m - 1) (gs_rng st) Hv ltac:(lia) Hr1))|].
  intros [[[masks pouts] s] r2] (b & Hps & -> & Hr2). rewrite sc_sub_diff, bind_Some.
  destruct (Forall_nth_error _ inamounts (m - 1) 0 Hv ltac:(lia)) as [-> Hvl]. rewrite bind_Some, genC_val, obind_Returns by exact Hvl.
  set (x := zsum (List.length destinations) a - zsum (m - 1) b). pose proof (pseudo_snoc inamounts b (m - 1) masks pouts x Hps) as Hps'.
  assert (zsum m (put b (m - 1) x) = zsum n a) as Esum.
  { replace m with (S (m - 1)) at 1 by lia. rewrite zsum_put. unfold x, n. ring. }
  replace (S (m - 1)) with m in Hps' by lia. cbv zeta.
  set (masks' := masks ++ [enc_scalar x]) in *. set (pouts' := pouts ++ [encode (pedersen x (nth (m - 1) inamounts 0))]) in *.
  assert (hashable (simple_sig bp message pouts' st fee [])) as HH by (eapply simple_hashable; eassumption).
  destruct (oreturns_some _ _ (pre_hash_spec _ HH)) as (h & Eh & Hh). change (RctSig _ _) with (simple_sig bp message pouts' st fee []) at 1.
  rewrite Eh, obind_Returns.
  eapply produces_bind; [exact (produces_returns bp _ _ (Hloop h _ masks' pouts' r2 Hh Hps' Hr2))|].
  intros [[mgs cs] r3] (Hr3 & Lm & Hmg). cbn [produces returns]. exists a, (put b (m - 1) x), st, masks', pouts', mgs, h.
  repeat (split; [reflexivity || assumption|]). exact Hmg.
Qed.
End Simple.

(** C1: simple RingCT signatures are complete: for inputs whose keys and commitments the sender can
    open, in rings of at least two valid keys, and outputs with the same sum of amounts less the
    fee, [genRctSimple] returns with either kind of range proof; [verRctSimple] accepts the
    result, both parts, from every state of the static arrays; every recipient decodes the amount
    and the mask, which open the commitment of the output; and the signature of each input carries
    the key image of its key. The only exception, with bulletproofs, shows keys that hash to zero. *)
Theorem genRctSimple_complete {BD : Build} message inSk destinations inamounts outamounts fee mixRing amount_keys index outSk bulletproof ex r :
  let m := List.length inamounts in
  let n := List.length destinations in
  scalar message -> (1 <= m)%nat -> List.length inSk = m -> List.length index = m -> List.length mixRing = m ->
  List.length outamounts = n -> List.length amount_keys = n -> Forall scalar amount_keys ->
  Forall (fun v => 0 <= v < 2 ^ 64) (fee :: inamounts ++ outamounts) ->
  (forall i, (i < m)%nat -> spendable (nth i mixRing []) (nth i index 0%nat) (nth i inSk ct0) (nth i inamounts 0)) ->
  fold_right Z.add 0 inamounts = fee + fold_right Z.add 0 outamounts -> exponents_ok ex -> rng_ready r ->
  (exists rv sks ex' r',
     genRctSimple message inSk destinations inamounts outamounts fee mixRing amount_keys None false index outSk bulletproof ex r
       = Some (Returns (rv, sks, [], ex', r')) /\ exponents_ok ex' /\ rng_ready r' /\
     (forall ex2, exponents_ok ex2 -> verRctSimple_both ex2 rv = Some true) /\
     (forall i, (i < n)%nat -> (forall k, decodeRctSimple rv (nth i amount_keys []) i k = Some (Returns (nth i outamounts 0, mask (nth i sks ct0)))) /\
        commit (nth i outamounts 0) (mask (nth i sks ct0)) = Some (Returns (mask (nth i (outPk (base rv)) ct0)))) /\
     (forall i, (i < m)%nat -> exists mg image, nth_error (MGs (prunable rv)) i = Some mg /\ II mg = [image] /\
        generate_key_image (dest (nth (nth i index 0%nat) (nth i mixRing []) ct0)) (dest (nth i inSk ct0)) = Some image)) \/
  (genRctSimple message inSk destinations inamounts outamounts fee mixRing amount_keys None false index outSk bulletproof ex r
     = Some (Throws "Failed to invert") /\ bulletproof = true /\ zero_hash).
Proof.
  intros m n Hm Hm1 LI LX LM LO LK HK HV Hsp Hsum Hex Hr. rewrite Forall_cons_iff, Forall_app in HV. destruct HV as (Hf & HI & HO).
  pose proof (gen_simple_spec inSk inamounts mixRing index LI LX LM HI None false
    (fun h pouts mgs cs => cs = [] /\ forall j, (j < m)%nat -> input_signed inSk mixRing index h pouts mgs j) bulletproof message destinations outamounts amount_keys fee outSk ex r
    (fun i Hi => proj1 (proj2 (Hsp i Hi))) eq_refl) as H. cbv zeta in H.
  specialize (H (fun h b a pouts r Hh Hp Hr => gen_mgs_spec inSk inamounts mixRing index LI LX LM HI Hsp h b a pouts r Hh Hp Hr) Hm Hm1 Hf LO HO LK HK Hex Hr).
  destruct (genRctSimple _ _ _ _ _ _ _ _ _ _ _ _ _ _ _) as [[[[[[rv sks] cs] ex'] r'] | w]|]; [left | right | contradiction H].
  2: { destruct H as (-> & ? & ?). auto. }
  destruct H as (a & b & st & masks & pouts & mgs & h & -> & -> & Hex' & Hr' & Hst & Hps & Esum & Eh & Lm & -> & Hmg).
  exists (simple_sig mixRing bulletproof message pouts st fee mgs), (gs_outSk st), ex', r'. split; [reflexivity|]. split; [exact Hex'|]. split; [exact Hr'|].
  assert (zsum m (fun j => nth j inamounts 0) = fee + zsum n (fun j => nth j outamounts 0)) as Ev.
  { rewrite <- LO. unfold m. rewrite !zsum_nth. exact Hsum. }
  split; [|split].
  - intros ex2 H2. unfold verRctSimple_both. erewrite simple_semantics, bind_Some by eassumption. eapply simple_signatures; try eassumption.
    intros j Hj. destruct (Hmg j Hj) as (mg & E & Hver & _). exists mg. now split.
  - intros i Hi. split; [intros k; eapply simple_decodes; eassumption|]. destruct Hst as (EO & _ & _ & HS & _).
    cbn [simple_sig base outPk]. unfold ct0. rewrite HS, EO by exact Hi. rewrite (nth_map_seq (out_key destinations outamounts a)) by exact Hi. cbn [out_key mask].
    destruct (Forall_nth_error _ outamounts i 0 HO ltac:(lia)) as [_ Hvi]. rewrite commit_enc, le_val_enc_scalar by (exact Hvi || apply enc_scalar_scalar).
    unfold out_commit. now rewrite (pedersen_mod _ _ (a i) (nth i outamounts 0)) by (reflexivity || (apply Z.mod_mod; discriminate)).
  - intros i Hi. destruct (Hmg i Hi) as (mg & E & _ & EI). exists mg, (input_image inSk mixRing index i). split; [exact E|]. split; [exact EI|].
    destruct (Hsp i Hi) as (_ & Hx & Hp & Rd & _). apply key_image_encode; [|exact Rd]. apply (Hp _ (nth_In _ ct0 Hx)).
Qed.

(** ** Balance *)

(** Masks and amounts of 64 bits that open the commitments. *)
Definition opens (Cs : list key) (os : list (key * Z)) : Prop :=
  Forall2 (fun C o => scalar (fst o) /\ 0 <= snd o < 2 ^ 64 /\ commit (snd o) (fst o) = Some (Returns C)) Cs os.

Definition sum_masks (os : list (key * Z)) : Z := fold_right Z.add 0 (map (fun o => le_val (fst o)) os).

Definition sum_amounts (os : list (key * Z)) : Z := fold_right Z.add 0 (map snd os).

Lemma zsum_map {A} (f : A -> Z) l d : zsum (List.length l) (fun j => f (nth j l d)) = fold_right Z.add 0 (map f l).
Proof.
  rewrite <- zsum_nth, length_map. apply zsum_ext. intros j Hj. rewrite (nth_indep _ 0 (f d)) by now rewrite length_map. now rewrite map_nth.
Qed.

Lemma opens_points Cs os :
  opens Cs os -> Cs = map (fun j => encode (pedersen (le_val (fst (nth j os ([], 0)))) (snd (nth j os ([], 0))))) (seq 0 (List.length os)).
Proof.
  intros H. induction H as [|C [k v] Cs os (Hk & Hv & E) _ IH]; [reflexivity|]. cbn [List.length seq map]. rewrite <- seq_shift, map_map. cbn [nth fst snd] in *.
  f_equal; [|exact IH]. rewrite commit_enc in E by assumption. congruence.
Qed.

Lemma opens_bound Cs os : opens Cs os -> 0 <= sum_amounts os <= Z.of_nat (List.length os) * (2 ^ 64 - 1).
Proof.
  intros H. unfold sum_amounts. induction H as [|C [k v] Cs os (_ & Hv & _) _ IH]; [cbn; lia|]. cbn [map fold_right List.length snd] in *. lia.
Qed.

(** C2: an accepted simple signature creates no money: if the pseudo outputs and the outputs of a
    signature whose semantics [verRctSimple] accepts can be opened to amounts of 64 bits, at most
    2^64 each, the amounts of the inputs add up to those of the outputs and the fee, or the
    openings yield the discrete logarithm of [H]; and the range proofs of all outputs have been
    accepted. *)
Theorem verRctSimple_balanced ex rv ins outs :
  0 <= txnFee (base rv) < 2 ^ 64 -> verRctSimple ex rv true = Some true ->
  opens (pseudo_outs rv) ins -> opens (map mask (outPk (base rv))) outs ->
  Z.of_nat (List.length ins) <= 2 ^ 64 -> Z.of_nat (List.length outs) <= 2 ^ 64 ->
  (sum_amounts ins = txnFee (base rv) + sum_amounts outs \/
   scalarmultBase (enc_scalar (H_log (sum_masks ins) (sum_amounts ins) (sum_masks outs) (txnFee (base rv) + sum_amounts outs))) = Some rct_H) /\
  forall i, (i < List.length (outPk (base rv)))%nat -> ver_output ex rv i = Some true.
Proof.
  intros Hf Hver Hin Hout Li Lo. unfold verRctSimple in Hver. destruct (negb _); [discriminate Hver|]. destruct (negb _); [discriminate Hver|].
  rewrite (ver_sums_pedersen rv _ _ _ _ _ _ Hf (opens_points _ _ Hout) (opens_points _ _ Hin)), obind_Returns in Hver.
  rewrite !(zsum_map (fun o => le_val (fst o))), !(zsum_map snd) in Hver. fold (sum_masks ins) (sum_masks outs) (sum_amounts ins) (sum_amounts outs) in Hver.
  destruct (equalKeys _ _) eqn:E; cbn [negb] in Hver; [|discriminate Hver]. split.
  - apply equalKeys_spec in E; [|exact (eq_trans (proj2 (encode_scalar _)) (eq_sym (proj2 (encode_scalar _))))].
    apply encode_inj in E; try apply pedersen_on_curve. pose proof (opens_bound _ _ Hin). pose proof (opens_bound _ _ Hout).
    assert (2 ^ 130 < ell) as Le by reflexivity.
    assert (0 <= sum_amounts ins < ell /\ 0 <= txnFee (base rv) + sum_amounts outs < ell) as [B1 B2] by lia.
    destruct (pedersen_binding _ _ _ _ B1 B2 E) as [[Ev _] | Lg]; [now left | right].
    rewrite scalarmultBase_enc, le_val_enc_scalar, H_encode by apply enc_scalar_scalar. rewrite ed_mul_residue by apply base_in_subgroup. now rewrite <- Lg.
  - unfold ver_outputs in Hver. destruct (mapM _ _) as [results|] eqn:Em; [|discriminate Hver]. cbn [bind catch_false] in Hver.
    injection Hver as Hall. intros i Hi. destruct (mapM_nth_some _ _ _ i i Em) as (b & Eb & Hb).
    { rewrite nth_error_seq. now rewrite (proj2 (Nat.ltb_lt _ _) Hi). }
    rewrite Eb. f_equal. exact (proj1 (forallb_forall _ _) Hall b (nth_error_In _ _ Hb)).
Qed.
End Rct.

(** *** Witnesses *)

#[local] Existing Instance debug_build.

Definition paid_commitment : key := encode (pedersen (le_val (enc_scalar 7)) 1000).

Definition two_ring : list ctkey := [CtKey (encode base_point) (encode base_point); CtKey (encode five_G) paid_commitment].

Lemma valid_encode P : on_curve P -> valid_pub (encode P).
Proof. intros HP. split; [apply encode_scalar | now apply check_key_encode]. Qed.

Lemma spendable_of (P Q C : key) sk v :
  valid_pub P -> valid_pub Q -> valid_pub C -> reduced_scalar (dest sk) -> reduced_scalar (mask sk) ->
  scalarmultBase (dest sk) = Some Q -> commit v (mask sk) = Some (Returns C) -> spendable [CtKey P P; CtKey Q C] 1 sk v.
Proof.
  intros HP HQ HC Rd Rm Ed Ec. split; [cbn; lia|]. split; [cbn; lia|]. split; [intros p [<-|[<-|[]]]; now split|]. now split.
Qed.

Lemma two_ring_spendable : spendable two_ring 1 (CtKey five (enc_scalar 7)) 1000.
Proof.
  exact (spendable_of (encode base_point) (encode five_G) paid_commitment (CtKey five (enc_scalar 7)) 1000
    (valid_encode _ base_point_on_curve) (valid_encode _ (proj1 five_G_subgroup)) (valid_encode _ (pedersen_on_curve _ 1000))
    (enc_scalar_reduced 5) (enc_scalar_reduced 7) (scalarmultBase_enc five (enc_scalar_scalar 5))
    (commit_enc 1000 (enc_scalar 7) thousand (enc_scalar_scalar 7))).
Qed.

Lemma one_spendable (ring : list ctkey) idx sk v :
  spendable ring idx sk v -> forall i, (i < 1)%nat -> spendable (nth i [ring] []) (nth i [idx] 0%nat) (nth i [sk] ct0) (nth i [v] 0).
Proof. intros H i Hi. destruct i; [exact H | lia]. Qed.

Lemma paid_amounts : Forall (fun v => 0 <= v < 2 ^ 64) [100; 1000; 900].
Proof. repeat constructor; discriminate. Qed.

Lemma genRctSimple_complete_witness :
  (exists rv sks ex' r',
     genRctSimple (RB := keccak_random) (BN := reference_numbers) ones32 [CtKey five (enc_scalar 7)] [ones32] [1000] [900] 100 [two_ring] [enc_scalar 3] None false [1%nat] [] false unset_exponents seeded
       = Some (Returns (rv, sks, [], ex', r')) /\ exponents_ok ex' /\ @rng_ready keccak_random r' /\
     (forall ex2, exponents_ok ex2 -> verRctSimple_both (BN := reference_numbers) ex2 rv = Some true) /\
     (forall i, (i < 1)%nat -> (forall k, decodeRctSimple rv (nth i [enc_scalar 3] []) i k = Some (Returns (nth i [900] 0, mask (nth i sks ct0)))) /\
        commit (nth i [900] 0) (mask (nth i sks ct0)) = Some (Returns (mask (nth i (outPk (base rv)) ct0)))) /\
     (forall i, (i < 1)%nat -> exists mg image, nth_error (MGs (prunable rv)) i = Some mg /\ II mg = [image] /\
        generate_key_image (dest (nth (nth i [1%nat] 0%nat) (nth i [two_ring] []) ct0)) (dest (nth i [CtKey five (enc_scalar 7)] ct0)) = Some image)) \/
  (genRctSimple (RB := keccak_random) (BN := reference_numbers) ones32 [CtKey five (enc_scalar 7)] [ones32] [1000] [900] 100 [two_ring] [enc_scalar 3] None false [1%nat] [] false unset_exponents seeded
     = Some (Throws "Failed to invert") /\ false = true /\ zero_hash).
Proof.
  exact (genRctSimple_complete (RB := keccak_random) (BN := reference_numbers) ones32 [CtKey five (enc_scalar 7)] [ones32] [1000] [900] 100 [two_ring] [enc_scalar 3]
    [1%nat] [] false unset_exponents seeded ones32_scalar (le_n 1) eq_refl eq_refl eq_refl eq_refl eq_refl (Forall_cons _ (enc_scalar_scalar 3) (Forall_nil _))
    paid_amounts (one_spendable two_ring 1 (CtKey five (enc_scalar 7)) 1000 two_ring_spendable) eq_refl unset_ok seeded_ready).
Defined.

(** A signature that only pays the fee. *)
Definition fee_only : rctSig :=
  RctSig (RctSigBase RCTTypeSimple ones32 [] [encode (pedersen (le_val (enc_scalar 0)) 100)] [] [] 100) (RctSigPrunable [] [] [MgSig [] [] []] []).

Lemma hundred : 0 <= 100 < 2 ^ 64.
Proof. split; [discriminate | reflexivity]. Qed.

Lemma pedersen_zero_mask v : pedersen (le_val (enc_scalar 0)) v = pedersen 0 v.
Proof. now rewrite le_val_enc_scalar. Qed.

Lemma fee_only_accepted : verRctSimple (BN := reference_numbers) unset_exponents fee_only true = Some true.
Proof.
  unfold verRctSimple. change (negb _) with false at 1. change (negb (simple_sizes fee_only true)) with false. cbv iota.
  rewrite (ver_sums_pedersen fee_only 0 1 (fun _ => 0) (fun _ => 0) (fun _ => le_val (enc_scalar 0)) (fun _ => 100) hundred eq_refl eq_refl), obind_Returns.
  cbn [zsum fee_only base txnFee]. rewrite !Z.add_0_l, Z.add_0_r, pedersen_zero_mask, equalKeys_refl. reflexivity.
Qed.

Lemma fee_only_opens : opens (pseudo_outs fee_only) [(enc_scalar 0, 100)].
Proof.
  constructor; [|constructor]. cbn [fst snd]. split; [apply enc_scalar_scalar|]. split; [exact hundred|].
  exact (commit_enc 100 (enc_scalar 0) hundred (enc_scalar_scalar 0)).
Qed.

Lemma verRctSimple_balanced_witness :
  (sum_amounts [(enc_scalar 0, 100)] = 100 + sum_amounts [] \/
   scalarmultBase (enc_scalar (H_log (sum_masks [(enc_scalar 0, 100)]) (sum_amounts [(enc_scalar 0, 100)]) (sum_masks []) (100 + sum_amounts []))) = Some rct_H) /\
  forall i, (i < List.length (outPk (base fee_only)))%nat -> ver_output (BN := reference_numbers) unset_exponents fee_only i = Some true.
Proof.
  exact (verRctSimple_balanced (BN := reference_numbers) unset_exponents fee_only [(enc_scalar 0, 100)] [] hundred fee_only_accepted fee_only_opens
    (Forall2_nil _) (fun E => ltac:(discriminate E)) (fun E => ltac:(discriminate E))).
Defined.
