(* ===== verification/RctFull.v ===== *)
(** * Full RingCT signatures

    Completeness of [genRct], which signs for all inputs of a transaction with one multilayered
    signature whose last row is the difference of the commitments: the inputs of a column are
    spent together. *)

From Stdlib Require Import ZArith Lia List Bool String.
From S2P Require Import Prelude Bytes Fe FeMul Primes ScReduce Sc Curve Ge GeBytes GeScalar GeBase GeDouble GeHash.
From S2P Require Import Keccak TreeHash Order Varint Random Encode KeyOps Signature RingSig RctTypes RctTable RctOps Borromean Mlsag Linear Bulletproofs BpCorrect BpProve RctSigs RctCorrect.
Import ListNotations.

#[local] Open Scope Z_scope.
#[local] Open Scope list_scope.
#[local] Opaque ed_mul ed_add base_point encode enc_scalar point_code H_point rct_H.
#[local] Opaque addKeys subKeys addKeys2 scalarmultH scalarmultBase genC skGen sc_add sc_sub d2h proveRange verRange fast_hash.

Section Full.
  Context {FH : FastHash} {RB : RandomBytes} {BN : BigNum}.

(** ** Columns *)

Definition sub_all (S : point) (Ps : list point) : point := fold_left (fun S P => ed_add S (ed_opp P)) Ps S.

Lemma fold_add_on_curve Ps S : Forall on_curve Ps -> on_curve S -> on_curve (fold_left ed_add Ps S).
Proof. intros HP. revert S. induction HP as [|P Ps HP _ IH]; intros S HS; [exact HS|]. apply IH. now apply ed_add_on_curve. Qed.

Lemma sub_all_on_curve Ps S : Forall on_curve Ps -> on_curve S -> on_curve (sub_all S Ps).
Proof. intros HP. revert S. induction HP as [|P Ps HP _ IH]; intros S HS; [exact HS|]. apply IH. apply ed_add_on_curve; [exact HS | now apply ed_opp_on_curve]. Qed.

Lemma sub_points Ps S :
  Forall on_curve Ps -> on_curve S -> ofold subKeys (map encode Ps) (encode S) = Some (Returns (encode (sub_all S Ps))).
Proof.
  intros HP. revert S. induction HP as [|P Ps HP _ IH]; intros S HS; [reflexivity|]. cbn [map ofold sub_all fold_left].
  rewrite subKeys_enc, obind_Returns by assumption. apply IH. apply ed_add_on_curve; [exact HS | now apply ed_opp_on_curve].
Qed.

(** The last row: the commitments of the column, less those of the outputs and of the fee. *)
Definition last_row (outs : list point) (F : point) (PCs : list (point * point)) : point :=
  ed_add (sub_all (fold_left ed_add (map snd PCs) ed_0) outs) (ed_opp F).

Definition full_points (outs : list point) (F : point) (PCs : list (point * point)) : list point :=
  map fst PCs ++ [last_row outs F PCs].

Lemma ofold_nth {A B} (f : A -> B -> option (outcome A)) (l : list B) y :
  ofold (fun y j => let! x := nth_error l j in f y x) (seq 0 (List.length l)) y = ofold f l y.
Proof.
  revert y. induction l as [|x l IH]; intros y; [reflexivity|]. cbn [List.length seq ofold nth_error]. rewrite bind_Some.
  destruct (f y x) as [[z|w]|]; [|reflexivity|reflexivity]. rewrite !obind_Returns, <- IH, <- seq_shift, ofold_map. reflexivity.
Qed.

Lemma mapM_ext {A B} (f g : A -> option B) l : (forall x, f x = g x) -> mapM f l = mapM g l.
Proof. intros H. induction l as [|x l IH]; cbn [mapM]; [reflexivity|]. now rewrite H, IH. Qed.

Lemma mapM_nth {A B} (g : A -> B) (l : list A) : mapM (fun j => let! p := nth_error l j in Some (g p)) (seq 0 (List.length l)) = Some (map g l).
Proof.
  pose proof (mapM_nth_error (map g l) (List.length l) (length_map _ _)) as E. rewrite <- E. apply mapM_ext.
  intros j. rewrite nth_error_map. now destruct (nth_error l j).
Qed.

Lemma sum_column_points rows PCs :
  List.length PCs = rows -> Forall on_curve2 PCs ->
  sum_column rows (map ct_of PCs) = Some (Returns (map encode (map fst PCs ++ [fold_left ed_add (map snd PCs) ed_0]))).
Proof.
  intros <- HP. unfold sum_column. rewrite <- (length_map ct_of PCs) at 1. rewrite (mapM_nth dest), bind_Some.
  rewrite <- (length_map ct_of PCs) at 1. rewrite (ofold_nth (fun C p => addKeys C (mask p))).
  rewrite <- (ofold_map mask addKeys), map_map. cbn [ct_of mask]. rewrite <- (map_map snd encode), encode_ed_0.
  rewrite add_points, obind_Returns by (apply ed_0_on_curve || (apply Forall_map; eapply Forall_impl; [|exact HP]; now intros pc [_ ?])).
  rewrite map_app, !map_map. reflexivity.
Qed.

Lemma sub_outputs_points rows (outPk : list ctkey) outs F PCs :
  List.length PCs = rows -> Forall on_curve2 PCs -> map mask outPk = map encode outs -> Forall on_curve outs -> on_curve F ->
  sub_outputs rows outPk (encode F) (map encode (map fst PCs ++ [fold_left ed_add (map snd PCs) ed_0]))
    = Some (Returns (map encode (full_points outs F PCs))).
Proof.
  intros <- HP Eo HO HF. unfold sub_outputs, full_points, last_row. rewrite !map_app. cbn [map].
  assert (List.length (map encode (map fst PCs)) = List.length PCs) as L by now rewrite !length_map.
  rewrite nth_error_app2, L, Nat.sub_diag by (rewrite L; lia). cbn [nth_error]. rewrite bind_Some, <- (ofold_map mask subKeys), Eo.
  assert (on_curve (fold_left ed_add (map snd PCs) ed_0)) as HS.
  { apply fold_add_on_curve; [|apply ed_0_on_curve]. apply Forall_map. eapply Forall_impl; [|exact HP]. now intros pc [_ ?]. }
  rewrite sub_points, obind_Returns, subKeys_enc, obind_Returns by (trivial; now apply sub_all_on_curve).
  rewrite <- L, aset_last, bind_Some. reflexivity.
Qed.

Lemma full_ring rows outs F PCss :
  (2 <= List.length PCss)%nat -> Forall (fun PCs => List.length PCs = rows /\ Forall on_curve2 PCs) PCss -> Forall on_curve outs -> on_curve F ->
  ring (rows + 1) (map (full_points outs F) PCss).
Proof.
  intros H2 HP HO HF. split; [now rewrite length_map|]. split; [lia|]. apply Forall_map. eapply Forall_impl; [|exact HP].
  intros PCs [L H]. unfold full_points. rewrite length_app, length_map, L. split; [reflexivity|]. apply Forall_app. split.
  - apply Forall_map. eapply Forall_impl; [|exact H]. now intros pc [? _].
  - constructor; [|constructor]. apply ed_add_on_curve; [|now apply ed_opp_on_curve]. apply sub_all_on_curve; [exact HO|].
    apply fold_add_on_curve; [|apply ed_0_on_curve]. apply Forall_map. eapply Forall_impl; [|exact H]. now intros pc [_ ?].
Qed.

Lemma full_columns rows (outPk : list ctkey) outs F PCss :
  Forall (fun PCs => List.length PCs = rows /\ Forall on_curve2 PCs) PCss -> map mask outPk = map encode outs -> Forall on_curve outs -> on_curve F ->
  exists M, omapM (sum_column rows) (map (map ct_of) PCss) = Some (Returns M) /\
    omapM (sub_outputs rows outPk (encode F)) M = Some (Returns (map (map encode) (map (full_points outs F) PCss))).
Proof.
  intros HP Eo HO HF. exists (map (fun PCs => map encode (map fst PCs ++ [fold_left ed_add (map snd PCs) ed_0])) PCss). split.
  - apply omapM_map. intros PCs Hin. destruct (proj1 (Forall_forall _ _) HP _ Hin). now apply sum_column_points.
  - rewrite map_map. apply omapM_map. intros PCs Hin. destruct (proj1 (Forall_forall _ _) HP _ Hin). now apply sub_outputs_points.
Qed.

(** ** Sums of commitments and masks *)

Lemma fold_pedersen n a v : fold_left ed_add (map (fun j => pedersen (a j) (v j)) (seq 0 n)) ed_0 = pedersen (zsum n a) (zsum n v).
Proof.
  induction n as [|n IH]; [cbn; rewrite pedersen_0, ed_mul_0; reflexivity|]. rewrite map_seq_snoc, fold_left_app, IH. cbn [fold_left zsum]. apply pedersen_add.
Qed.

Lemma sub_pedersen n a v x y : sub_all (pedersen x y) (map (fun j => pedersen (a j) (v j)) (seq 0 n)) = pedersen (x - zsum n a) (y - zsum n v).
Proof.
  unfold sub_all. induction n as [|n IH]; [cbn; now rewrite !Z.sub_0_r|]. rewrite map_seq_snoc, fold_left_app, IH. cbn [fold_left zsum]. unfold pedersen.
  pose proof base_point_on_curve. pose proof H_on_curve. point_eq; try assumption; left; ring.
Qed.

Lemma add_masks l x : Forall (fun k => scalar (mask k)) l -> foldM (fun s k => sc_add s (mask k)) l (enc_scalar x) = Some (enc_scalar (x + zsum (List.length l) (fun j => le_val (mask (nth j l ct0))))).
Proof.
  rewrite (zsum_map (fun k => le_val (mask k))). intros H. revert x. induction H as [|k l Hk _ IH]; intros x; cbn [foldM map fold_right]; [now rewrite Z.add_0_r|].
  rewrite sc_add_enc, bind_Some, le_val_enc_scalar, IH by (exact Hk || apply enc_scalar_scalar). f_equal. apply enc_scalar_cong.
  rewrite <- Z.add_assoc, Zplus_mod_idemp_l. reflexivity.
Qed.

Lemma sub_masks l x : Forall (fun k => scalar (mask k)) l -> foldM (fun s k => sc_sub s (mask k)) l (enc_scalar x) = Some (enc_scalar (x - zsum (List.length l) (fun j => le_val (mask (nth j l ct0))))).
Proof.
  rewrite (zsum_map (fun k => le_val (mask k))). intros H. revert x. induction H as [|k l Hk _ IH]; intros x; cbn [foldM map fold_right]; [now rewrite Z.sub_0_r|].
  rewrite sc_sub_enc, bind_Some, le_val_enc_scalar, IH by (exact Hk || apply enc_scalar_scalar). f_equal. apply enc_scalar_cong.
  now rewrite <- Z.sub_add_distr, Zminus_mod_idemp_l.
Qed.

Lemma zsum_residue n a : zsum n (fun j => le_val (enc_scalar (a j))) mod ell = zsum n a mod ell.
Proof. apply zsum_mod. intros i _. rewrite le_val_enc_scalar. apply Z.mod_mod. discriminate. Qed.

(** ** The signature over a column *)

Definition column_image (PCs : list (point * point)) (inSk : list ctkey) (j : nat) : key :=
  encode (ed_mul (le_val (dest (nth j inSk ct0))) (Hp (encode (fst (nth j PCs (ed_0, ed_0)))))).

Section Column.
  Variables (h : key) (PCss : list (list (point * point))) (inSk outSk outPk : list ctkey) (index : nat) (ins : nat -> Z) (a v : nat -> Z) (fee : Z).
Let rows := List.length inSk.
Let n := List.length outSk.
  Hypothesis Hh : scalar h.
  Hypothesis H2 : (2 <= List.length PCss)%nat.
  Hypothesis H1 : (1 <= rows)%nat.
  Hypothesis HP : Forall (fun PCs => List.length PCs = rows /\ Forall on_curve2 PCs) PCss.
  Hypothesis Hi : (index < List.length PCss)%nat.
  Hypothesis Hsk : Forall (fun k => reduced_scalar (dest k) /\ reduced_scalar (mask k)) inSk.
  Hypothesis Hcol : forall j, (j < rows)%nat -> nth j (nth index PCss []) (ed_0, ed_0) =
    (ed_mul (le_val (dest (nth j inSk ct0))) base_point, pedersen (le_val (mask (nth j inSk ct0))) (ins j)).
  Hypothesis Lout : List.length outPk = n.
  Hypothesis Eout : map mask outPk = map encode (map (fun j => pedersen (a j) (v j)) (seq 0 n)).
  Hypothesis Eosk : forall j, (j < n)%nat -> mask (nth j outSk ct0) = enc_scalar (a j).
  Hypothesis Hbal : zsum rows ins = zsum n v + fee.

Let outs := map (fun j => pedersen (a j) (v j)) (seq 0 n).
Let F := pedersen 0 fee.
Let secret := zsum rows (fun j => le_val (mask (nth j inSk ct0))) - zsum n (fun j => le_val (mask (nth j outSk ct0))).

Lemma outs_on_curve : Forall on_curve outs.
Proof. apply Forall_map, Forall_forall. intros; apply pedersen_on_curve. Qed.

Lemma signing_column : List.length (nth index PCss []) = rows /\ Forall on_curve2 (nth index PCss []).
Proof. exact (proj2 (Forall_nth_error _ PCss index [] HP Hi)). Qed.

Lemma signing_last : last_row outs F (nth index PCss []) = ed_mul (le_val (enc_scalar secret)) base_point.
Proof.
  destruct signing_column as [L _]. unfold last_row.
  assert (map snd (nth index PCss []) = map (fun j => pedersen (le_val (mask (nth j inSk ct0))) (ins j)) (seq 0 rows)) as ->.
  { apply (nth_ext _ _ (snd (ed_0, ed_0)) (snd (ed_0, ed_0))); [now rewrite !length_map, length_seq|]. rewrite length_map, L. intros j Hj.
    rewrite map_nth, Hcol, nth_map_seq by exact Hj. reflexivity. }
  rewrite fold_pedersen. unfold outs. rewrite sub_pedersen, Hbal. unfold F. replace (zsum n v + fee - zsum n v) with fee by ring. rewrite pedersen_sub, le_val_enc_scalar.
  apply ed_mul_mod; [apply base_in_subgroup|]. rewrite Z.mod_mod by discriminate. unfold secret. rewrite Z.sub_0_r.
  rewrite Zminus_mod, <- (zsum_residue n a), <- Zminus_mod. f_equal. f_equal. apply zsum_ext. intros j Hj. now rewrite Eosk.
Qed.

Lemma ct_rectangular_true : ct_rectangular (map (map ct_of) PCss) rows = true.
Proof.
  apply forallb_forall. intros col Hc. apply Nat.eqb_eq.
  assert (In col (map (map ct_of) PCss)) as Hin by (destruct PCss; [contradiction | now right]).
  apply in_map_iff in Hin as (PCs & <- & Hin). rewrite length_map. apply (proj1 (Forall_forall _ _) HP PCs Hin).
Qed.

Lemma first_column : exists col, nth_error (map (map ct_of) PCss) 0 = Some col /\ List.length col = rows.
Proof.
  destruct PCss as [|PCs rest]; [cbn in H2; lia|]. eexists. split; [reflexivity|]. rewrite length_map. now inversion HP.
Qed.

Lemma full_accepts r :
  rng_ready r ->
  oreturns (proveRctMG h (map (map ct_of) PCss) inSk outSk outPk None false index (encode F) r) (fun '(mg, out, r') =>
    out = None /\ rng_ready r' /\ verRctMG mg (map (map ct_of) PCss) outPk (encode F) h = Some (Returns true) /\
    II mg = map (column_image (nth index PCss []) inSk) (seq 0 rows)).
Proof.
  intros Hr. destruct first_column as (col & E0 & L0). destruct signing_column as [L HC].
  destruct (full_columns rows outPk outs F PCss HP Eout outs_on_curve (pedersen_on_curve _ _)) as (M & EM1 & EM2).
  unfold proveRctMG, verRctMG. rewrite length_map, (proj2 (Nat.leb_le 1 _)) by lia. cbn [negb]. rewrite check_throw_true by reflexivity.
  rewrite E0, !bind_Some, L0, (proj2 (Nat.leb_le 1 _) H1), ct_rectangular_true. cbn [negb]. do 2 rewrite check_throw_true by reflexivity.
  fold rows n. rewrite Lout, !Nat.eqb_refl. do 3 rewrite check_throw_true by reflexivity. rewrite EM1, !obind_Returns.
  rewrite sc_0_enc, add_masks, bind_Some, EM2, !obind_Returns by (eapply Forall_impl; [|exact Hsk]; now intros k [_ [? _]]).
  rewrite sub_masks, bind_Some, Z.add_0_l.
  2: { apply Forall_forall. intros k Hk. destruct (In_nth _ _ ct0 Hk) as (j & Hj & <-). rewrite Eosk by exact Hj. apply enc_scalar_scalar. }
  fold rows n secret.
  eapply returns_weaken; [apply (mlsag_accepts h (map (full_points outs F) PCss) _ index rows (rows + 1))|]; trivial; try lia.
  - apply full_ring; trivial; [apply outs_on_curve | apply pedersen_on_curve].
  - now rewrite length_map.
  - rewrite length_app, length_map. reflexivity.
  - apply Forall_app. split; [|constructor; [apply enc_scalar_reduced | constructor]]. apply Forall_map. eapply Forall_impl; [|exact Hsk]. now intros k [? _].
  - intros j Hj. rewrite (nth_indep _ [] (full_points outs F [])) by now rewrite length_map. rewrite map_nth. unfold full_points.
    destruct (Nat.eq_dec j rows) as [->|N].
    + rewrite !app_nth2 by (rewrite length_map; fold rows; lia). rewrite !length_map, L. fold rows. rewrite Nat.sub_diag. cbn [nth]. exact signing_last.
    + rewrite !app_nth1 by (rewrite length_map; fold rows; lia). change ed_0 with (fst (ed_0, ed_0)) at 1. rewrite map_nth, Hcol by lia.
      cbn [fst]. rewrite (nth_indep _ [] (dest ct0)) by (rewrite length_map; fold rows; lia). now rewrite map_nth.
  - intros [[[mg out] r'] | w]; [|auto]. intros (-> & Hr' & Hver & EI). split; [reflexivity|]. split; [exact Hr'|]. split.
    { rewrite bind_Some, L0, (proj2 (Nat.leb_le 1 _) H1), ct_rectangular_true. cbn [negb]. now rewrite EM1, obind_Returns, EM2, obind_Returns. }
    rewrite EI. unfold images. rewrite map_map.
    apply map_ext_in. intros j Hj%in_seq. unfold image, column_image. rewrite (nth_indep _ [] (full_points outs F [])) by now rewrite length_map.
    rewrite map_nth. unfold full_points. rewrite !app_nth1 by (rewrite length_map; fold rows; lia).
    rewrite (nth_indep _ [] (dest ct0)) by (rewrite length_map; fold rows; lia). rewrite map_nth. change ed_0 with (fst (ed_0, ed_0)) at 1. now rewrite map_nth.
Qed.
End Column.

(** ** Columns that can be spent *)

(** A matrix of at least two columns of valid keys, the secret keys of one column, and the openings
    of its commitments to the amounts [ins]. *)
Definition spendable_column (mixRing : list (list ctkey)) (index : nat) (inSk : list ctkey) (ins : list Z) : Prop :=
  (2 <= List.length mixRing)%nat /\ (index < List.length mixRing)%nat /\ (1 <= List.length inSk)%nat /\ List.length ins = List.length inSk /\
  (forall col, In col mixRing -> List.length col = List.length inSk /\ forall p, In p col -> valid_pub (dest p) /\ valid_pub (mask p)) /\
  Forall (fun k => reduced_scalar (dest k) /\ reduced_scalar (mask k)) inSk /\
  forall j, (j < List.length inSk)%nat ->
    scalarmultBase (dest (nth j inSk ct0)) = Some (dest (nth j (nth index mixRing []) ct0)) /\
    commit (nth j ins 0) (mask (nth j inSk ct0)) = Some (Returns (mask (nth j (nth index mixRing []) ct0))).

Lemma valid_matrix rows mixRing :
  (forall col, In col mixRing -> List.length col = rows /\ forall p, In p col -> valid_pub (dest p) /\ valid_pub (mask p)) ->
  exists PCss, mixRing = map (map ct_of) PCss /\ Forall (fun PCs => List.length PCs = rows /\ Forall on_curve2 PCs) PCss.
Proof.
  induction mixRing as [|col cols IH]; intros H; [exists []; now split|]. destruct IH as (PCss & -> & HP); [intros c Hc; apply H; now right|].
  destruct (H col (or_introl eq_refl)) as [L Hv]. destruct (valid_ring col Hv) as (PCs & -> & HC). rewrite length_map in L.
  exists (PCs :: PCss). split; [reflexivity|]. constructor; [now split | exact HP].
Qed.

Lemma nth_ct_of PCss index j rows :
  Forall (fun PCs => List.length PCs = rows /\ Forall on_curve2 PCs) PCss -> (index < List.length PCss)%nat -> (j < rows)%nat ->
  nth j (nth index (map (map ct_of) PCss) []) ct0 = ct_of (nth j (nth index PCss []) (ed_0, ed_0)) /\ on_curve2 (nth j (nth index PCss []) (ed_0, ed_0)).
Proof.
  intros HP Hi Hj. destruct (Forall_nth_error _ PCss index [] HP Hi) as [_ [L HC]]. change (@nil ctkey) with (map ct_of []). rewrite map_nth.
  rewrite (nth_indep _ ct0 (ct_of (ed_0, ed_0))) by (rewrite length_map; lia). rewrite map_nth. split; [reflexivity|].
  exact (proj2 (Forall_nth_error _ _ j (ed_0, ed_0) HC ltac:(lia))).
Qed.

Lemma column_points mixRing index inSk ins :
  Forall (fun v => 0 <= v < 2 ^ 64) ins -> spendable_column mixRing index inSk ins ->
  exists PCss, mixRing = map (map ct_of) PCss /\ Forall (fun PCs => List.length PCs = List.length inSk /\ Forall on_curve2 PCs) PCss /\
    forall j, (j < List.length inSk)%nat -> nth j (nth index PCss []) (ed_0, ed_0) =
      (ed_mul (le_val (dest (nth j inSk ct0))) base_point, pedersen (le_val (mask (nth j inSk ct0))) (nth j ins 0)).
Proof.
  intros Hins (H2 & Hi & _ & Lins & Hcols & Hsk & Hj). destruct (valid_matrix _ _ Hcols) as (PCss & -> & HP). rewrite length_map in *.
  exists PCss. split; [reflexivity|]. split; [exact HP|]. intros j Hlt. destruct (Hj j Hlt) as [Ed Em].
  destruct (nth_ct_of PCss index j _ HP Hi Hlt) as [En [C1 C2]]. rewrite En in Ed, Em. destruct (nth j (nth index PCss []) (ed_0, ed_0)) as [P C].
  cbn [ct_of dest mask fst snd] in *. destruct (Forall_nth_error _ inSk j ct0 Hsk Hlt) as [_ [Rd Rm]].
  destruct (Forall_nth_error _ ins j 0 Hins ltac:(lia)) as [_ Hv]. rewrite scalarmultBase_enc in Ed by apply Rd. rewrite commit_enc in Em by (exact Hv || apply Rm).
  f_equal; apply encode_inj; try congruence; try assumption; [apply ed_mul_on_curve, base_point_on_curve | apply pedersen_on_curve].
Qed.

(** ** The signature that is made *)

Definition full_sig (bp : bool) (message : key) (mixRing : list (list ctkey)) (st : gen_state) (fee : Z) (mgs : list mgSig) : rctSig :=
  RctSig (RctSigBase (if bp then RCTTypeFullBulletproof else RCTTypeFull) message mixRing [] (gs_ecdhInfo st) (gs_outPk st) fee)
    (RctSigPrunable (gs_rangeSigs st) (gs_bulletproofs st) mgs []).

Section Made.
  Variables (bp : bool) (message : key) (mixRing : list (list ctkey)) (destinations : list key) (amounts : list Z) (amount_keys : list key).
  Variables (a : nat -> Z) (st : gen_state).
Let n := List.length destinations.
Let fee := nth n amounts 0.
  Hypothesis Hm : scalar message.
  Hypothesis Hring : mixRing <> [].
  Hypothesis LA : (n <= List.length amounts)%nat.
  Hypothesis HA : Forall (fun v => 0 <= v < 2 ^ 64) amounts.
  Hypothesis LK : List.length amount_keys = n.
  Hypothesis HK : Forall scalar amount_keys.
  Hypothesis Hst : outputs_made bp destinations amounts amount_keys a n st.

Lemma full_fee : 0 <= fee < 2 ^ 64.
Proof.
  unfold fee. destruct (Nat.lt_ge_cases n (List.length amounts)) as [L|L]; [exact (proj2 (Forall_nth_error _ amounts n 0 HA L))|].
  rewrite nth_overflow by exact L. split; [discriminate | reflexivity].
Qed.

Lemma full_masks : map mask (gs_outPk st) = map (out_commit amounts a) (seq 0 n).
Proof. destruct Hst as (-> & _). rewrite map_map. reflexivity. Qed.

Lemma full_hashable mgs : hashable (full_sig bp message mixRing st fee mgs).
Proof.
  destruct Hst as (EO & EE & _ & _ & _ & _ & HG). unfold hashable, full_sig.
  cbn [base prunable rct_type RctTypes.mixRing RctTypes.message txnFee pseudoOuts ecdhInfo outPk rangeSigs bulletproofs].
  split; [exact Hring|]. split; [exact Hm|]. split; [exact full_fee|]. split; [destruct bp; cbn; auto|].
  split; [destruct bp; discriminate|]. split; [rewrite EO, EE, !length_map; reflexivity|].
  split; [rewrite EE; apply Forall_map, Forall_forall; intros; split; apply enc_scalar_scalar|].
  split; [rewrite EO; apply Forall_map, Forall_forall; intros; apply encode_scalar|].
  pose proof (good_proofs_hashable _ _ _ _ HG) as H. destruct bp; exact H.
Qed.

Lemma full_semantics ex mg : exponents_ok ex -> verRct ex (full_sig bp message mixRing st fee [mg]) true = Some true.
Proof.
  intros Hex. pose proof Hst as (EO & EE & _ & _ & _ & _ & HG). unfold verRct. replace (negb _) with false by (destruct bp; reflexivity).
  pose proof (good_proofs_length _ _ _ _ HG) as LG. rewrite length_map, length_seq in LG.
  assert (List.length (gs_outPk st) = n /\ List.length (gs_ecdhInfo st) = n) as [LOut LE] by (rewrite EO, EE, !length_map, length_seq; auto).
  cbn [full_sig base prunable rct_type outPk ecdhInfo rangeSigs bulletproofs MGs andb]. rewrite LOut, LE, Nat.eqb_refl.
  assert ((if (if bp then RCTTypeFullBulletproof else RCTTypeFull) =? RCTTypeFullBulletproof
           then (n =? List.length (gs_bulletproofs st))%nat else (n =? List.length (gs_rangeSigs st))%nat) = true) as ->.
  { destruct bp; rewrite length_map in LG; cbn [Z.eqb Pos.eqb RCTTypeFull RCTTypeFullBulletproof]; rewrite LG; apply Nat.eqb_refl. }
  cbn [negb List.length Nat.eqb andb]. apply (ver_outputs_accepts bp); [exact Hex|]. cbn [full_sig base prunable outPk rangeSigs bulletproofs]. rewrite full_masks. exact HG.
Qed.

Lemma full_signature ex mg h :
  get_pre_mlsag_hash (full_sig bp message mixRing st fee []) = Some (Returns h) ->
  verRctMG mg mixRing (gs_outPk st) (encode (pedersen 0 fee)) h = Some (Returns true) ->
  verRct ex (full_sig bp message mixRing st fee [mg]) false = Some true.
Proof.
  intros Eh Hver. unfold verRct. replace (negb _) with false by (destruct bp; reflexivity). cbn [andb].
  change (get_pre_mlsag_hash (full_sig bp message mixRing st fee [mg])) with (get_pre_mlsag_hash (full_sig bp message mixRing st fee [])). rewrite Eh. cbn [full_sig base prunable txnFee MGs RctTypes.mixRing outPk nth_error].
  rewrite fee_bind, bind_Some, obind_Returns, Hver by exact full_fee. reflexivity.
Qed.

Lemma full_decodes mgs i k :
  (i < n)%nat -> decodeRct (full_sig bp message mixRing st fee mgs) (nth i amount_keys []) i k
    = Some (Returns (nth i amounts 0, mask (nth i (gs_outSk st) ct0))).
Proof.
  intros Hi. destruct Hst as (EO & EE & _ & HS & _). unfold decodeRct. replace (negb _) with false by (destruct bp; reflexivity).
  destruct (Forall_nth_error _ amount_keys i [] HK ltac:(lia)) as [_ Hk]. destruct (Forall_nth_error _ amounts i 0 HA ltac:(lia)) as [_ Hvi].
  unfold ct0. rewrite HS by exact Hi. cbv iota. apply (decode_spec _ i (a i) (nth i amounts 0) (nth i amount_keys []) (nth i destinations [])); trivial;
    cbn [full_sig base ecdhInfo outPk]; rewrite ?EO, ?EE; [now rewrite !length_map | |]; now rewrite nth_error_map_seq by exact Hi.
Qed.
End Made.

(** The whole of [genRct]. *)
Lemma gen_full_spec bp message inSk ins destinations amounts mixRing amount_keys index outSk ex r :
  let n := List.length destinations in
  scalar message -> (List.length amounts = n \/ List.length amounts = n + 1)%nat -> List.length amount_keys = n -> Forall scalar amount_keys ->
  Forall (fun v => 0 <= v < 2 ^ 64) (ins ++ amounts) -> spendable_column mixRing index inSk ins ->
  fold_right Z.add 0 ins = fold_right Z.add 0 amounts -> exponents_ok ex -> rng_ready r ->
  produces bp (genRct message inSk destinations amounts mixRing amount_keys None false index outSk bp ex r)
    (fun '(rv, sks, cs, ex', r') => exists a st mg h,
       rv = full_sig bp message mixRing st (nth n amounts 0) [mg] /\ sks = gs_outSk st /\ cs = [] /\ exponents_ok ex' /\ rng_ready r' /\
       outputs_made bp destinations amounts amount_keys a n st /\
       get_pre_mlsag_hash (full_sig bp message mixRing st (nth n amounts 0) []) = Some (Returns h) /\
       verRctMG mg mixRing (gs_outPk st) (encode (pedersen 0 (nth n amounts 0))) h = Some (Returns true) /\
       II mg = map (fun j => encode (ed_mul (le_val (dest (nth j inSk ct0))) (Hp (dest (nth j (nth index mixRing []) ct0))))) (seq 0 (List.length inSk))).
Proof.
  intros n Hm LA LK HK HV Hsp Hsum Hex Hr. apply Forall_app in HV as [HI HA]. pose proof Hsp as (H2 & Hi & H1 & Lins & Hcols & Hsk & _).
  destruct (column_points mixRing index inSk ins HI Hsp) as (PCss & EM & HP & Hcol). unfold genRct. fold n.
  rewrite check_throw_true by (apply orb_true_iff; rewrite !Nat.eqb_eq; lia). rewrite LK, Nat.eqb_refl, check_throw_true by reflexivity.
  rewrite check_throw_true by now apply Nat.ltb_lt. rewrite check_throw_true by (apply forallb_forall; intros col Hc; apply Nat.eqb_eq, (Hcols col Hc)).
  rewrite check_throw_true by reflexivity.
  eapply produces_bind; [exact (outputs_spec bp destinations amounts amount_keys ltac:(lia) HA LK HK outSk ex r Hex Hr)|]. fold n.
  intros st (a & Hst). pose proof Hst as (EO & EE & LS & HS & Hex' & Hr1 & HG). fold n in LS.
  assert ((if (n <? List.length amounts)%nat then nth_error amounts n else Some 0) = Some (nth n amounts 0)) as ->.
  { destruct (Nat.ltb_spec n (List.length amounts)); [now apply nth_error_nth' | now rewrite nth_overflow]. }
  assert (0 <= nth n amounts 0 < 2 ^ 64) as Hf by exact (full_fee destinations amounts HA).
  rewrite bind_Some, fee_bind by exact Hf. cbv zeta. change (RctSig _ _) with (full_sig bp message mixRing st (nth n amounts 0) []) at 1.
  assert (hashable (full_sig bp message mixRing st (nth n amounts 0) [])) as HH.
  { apply (full_hashable bp message mixRing destinations amounts amount_keys a st Hm); trivial. intros ->. cbn in H2. lia. }
  destruct (oreturns_some _ _ (pre_hash_spec _ HH)) as (h & Eh & Hh). rewrite Eh, obind_Returns.
  assert (zsum (List.length inSk) (fun j => nth j ins 0) = zsum n (fun j => nth j amounts 0) + nth n amounts 0) as Hbal.
  { rewrite <- Lins, zsum_nth, Hsum, <- zsum_nth. destruct LA as [LA|LA]; rewrite LA; [rewrite (nth_overflow amounts) by lia; ring|].
    rewrite Nat.add_comm. cbn [Nat.add zsum]. reflexivity. }
  assert (map mask (gs_outPk st) = map encode (map (fun j => pedersen (a j) (nth j amounts 0)) (seq 0 (List.length (gs_outSk st))))) as Eout.
  { rewrite LS, map_map. exact (full_masks bp destinations amounts amount_keys a st Hst). }
  rewrite EM in H2, Hi |- *. rewrite length_map in H2, Hi.
  eapply produces_bind; [apply produces_returns, (full_accepts h PCss inSk (gs_outSk st) (gs_outPk st) index (fun j => nth j ins 0) a (fun j => nth j amounts 0) (nth n amounts 0)); trivial|].
  - rewrite LS, EO, length_map. apply length_seq.
  - intros j Hj. apply HS. lia.
  - now rewrite LS.
  - rewrite <- EM. intros [[mg out] r'] (-> & Hr' & Hver & EI). cbn [produces returns]. exists a, st, mg, h. repeat (split; [reflexivity || assumption|]).
    rewrite EI. apply map_ext_in. intros j Hj%in_seq. unfold column_image. rewrite EM. destruct (nth_ct_of PCss index j _ HP Hi ltac:(lia)) as [-> _]. reflexivity.
Qed.

(** C3: full RingCT signatures are complete: for a matrix of valid keys, one column of which the
    sender can open with the amounts [ins], and amounts of the same sum (the last one is the fee
    if there is one more than destinations), [genRct] returns with either kind of range proof;
    [verRct] accepts both parts; every recipient decodes the amount and the mask; and the
    signature carries the key images of the column in order. The only exception, with
    bulletproofs, shows keys that hash to zero. *)
Theorem genRct_complete {BD : Build} message inSk ins destinations amounts mixRing amount_keys index outSk bulletproof ex r :
  let n := List.length destinations in
  scalar message -> (List.length amounts = n \/ List.length amounts = n + 1)%nat -> List.length amount_keys = n -> Forall scalar amount_keys ->
  Forall (fun v => 0 <= v < 2 ^ 64) (ins ++ amounts) -> spendable_column mixRing index inSk ins ->
  fold_right Z.add 0 ins = fold_right Z.add 0 amounts -> exponents_ok ex -> rng_ready r ->
  (exists rv sks ex' r',
     genRct message inSk destinations amounts mixRing amount_keys None false index outSk bulletproof ex r
       = Some (Returns (rv, sks, [], ex', r')) /\ exponents_ok ex' /\ rng_ready r' /\
     (forall ex2, exponents_ok ex2 -> verRct_both ex2 rv = Some true) /\
     (forall i, (i < n)%nat -> (forall k, decodeRct rv (nth i amount_keys []) i k = Some (Returns (nth i amounts 0, mask (nth i sks ct0)))) /\
        commit (nth i amounts 0) (mask (nth i sks ct0)) = Some (Returns (mask (nth i (outPk (base rv)) ct0)))) /\
     (exists mg, MGs (prunable rv) = [mg] /\
        mapM (fun j => generate_key_image (dest (nth j (nth index mixRing []) ct0)) (dest (nth j inSk ct0))) (seq 0 (List.length inSk)) = Some (II mg))) \/
  (genRct message inSk destinations amounts mixRing amount_keys None false index outSk bulletproof ex r
     = Some (Throws "Failed to invert") /\ bulletproof = true /\ zero_hash).
Proof.
  intros n Hm LA LK HK HV Hsp Hsum Hex Hr. subst n.
  pose proof (gen_full_spec bulletproof message inSk ins destinations amounts mixRing amount_keys index outSk ex r Hm LA LK HK HV Hsp Hsum Hex Hr) as H.
  destruct (genRct _ _ _ _ _ _ _ _ _ _ _ _ _) as [[[[[[rv sks] cs] ex'] r'] | w]|]; [left | right | contradiction H].
  2: { destruct H as (-> & ? & ?). auto. }
  destruct H as (a & st & mg & h & -> & -> & -> & Hex' & Hr' & Hst & Eh & Hver & EI). apply Forall_app in HV as [_ HA].
  exists (full_sig bulletproof message mixRing st (nth (List.length destinations) amounts 0) [mg]), (gs_outSk st), ex', r'. split; [reflexivity|]. split; [exact Hex'|]. split; [exact Hr'|].
  destruct Hsp as (_ & Hi & _ & _ & Hcols & Hsk & _). split; [|split].
  - intros ex2 E2. unfold verRct_both. erewrite full_semantics, bind_Some by eassumption. eapply full_signature; eassumption.
  - intros i Hlt. assert (List.length destinations <= List.length amounts)%nat as LA' by (destruct LA; lia). split; [intros k; eapply full_decodes; eassumption|]. destruct Hst as (EO & _ & _ & HS & _).
    cbn [full_sig base outPk]. unfold ct0. rewrite HS, EO by exact Hlt. rewrite (nth_map_seq (out_key destinations amounts a)) by exact Hlt. cbn [out_key mask].
    destruct (Forall_nth_error _ amounts i 0 HA ltac:(lia)) as [_ Hvi]. rewrite commit_enc, le_val_enc_scalar by (exact Hvi || apply enc_scalar_scalar).
    unfold out_commit. now rewrite (pedersen_mod _ _ (a i) (nth i amounts 0)) by (reflexivity || (apply Z.mod_mod; discriminate)).
  - exists mg. split; [reflexivity|]. rewrite EI. apply mapM_map. intros j Hj%in_seq. destruct (Forall_nth_error _ inSk j ct0 Hsk ltac:(lia)) as [_ [Rd _]].
    apply key_image_encode; [|exact Rd]. destruct (Hcols (nth index mixRing []) (nth_In _ _ Hi)) as [L Hp].
    assert (j < List.length (nth index mixRing []))%nat as Hlt by lia. apply (Hp _ (nth_In _ ct0 Hlt)).
Qed.
End Full.

(** *** Witnesses *)

#[local] Existing Instance debug_build.

Lemma one_row_spendable (P Q C : key) sk v :
  spendable [CtKey P P; CtKey Q C] 1 sk v -> spendable_column [[CtKey P P]; [CtKey Q C]] 1 [sk] [v].
Proof.
  intros (_ & _ & Hp & Rd & Rm & Ed & Em). split; [cbn; lia|]. split; [cbn; lia|]. split; [cbn; lia|]. split; [reflexivity|]. split.
  - intros col [<-|[<-|[]]]; (split; [reflexivity|]); intros p [<-|[]]; apply Hp; cbn; auto.
  - split; [constructor; [now split | constructor]|]. intros j Hj. destruct j; [now split | cbn in Hj; lia].
Qed.

Definition two_rows : list (list ctkey) := [[CtKey (encode base_point) (encode base_point)]; [CtKey (encode five_G) paid_commitment]].

Lemma two_rows_spendable : spendable_column two_rows 1 [CtKey five (enc_scalar 7)] [1000].
Proof. exact (one_row_spendable (encode base_point) (encode five_G) paid_commitment _ _ two_ring_spendable). Qed.

Lemma full_amounts : Forall (fun v => 0 <= v < 2 ^ 64) ([1000] ++ [900; 100]).
Proof. repeat constructor; discriminate. Qed.

Lemma genRct_complete_witness :
  (exists rv sks ex' r',
     genRct (RB := keccak_random) (BN := reference_numbers) ones32 [CtKey five (enc_scalar 7)] [ones32] [900; 100] two_rows [enc_scalar 3] None false 1 [] true unset_exponents seeded
       = Some (Returns (rv, sks, [], ex', r')) /\ exponents_ok ex' /\ @rng_ready keccak_random r' /\
     (forall ex2, exponents_ok ex2 -> verRct_both (BN := reference_numbers) ex2 rv = Some true) /\
     (forall i, (i < 1)%nat -> (forall k, decodeRct rv (nth i [enc_scalar 3] []) i k = Some (Returns (nth i [900; 100] 0, mask (nth i sks ct0)))) /\
        commit (nth i [900; 100] 0) (mask (nth i sks ct0)) = Some (Returns (mask (nth i (outPk (base rv)) ct0)))) /\
     (exists mg, MGs (prunable rv) = [mg] /\
        mapM (fun j => generate_key_image (dest (nth j (nth 1 two_rows []) ct0)) (dest (nth j [CtKey five (enc_scalar 7)] ct0))) (seq 0 1) = Some (II mg))) \/
  (genRct (RB := keccak_random) (BN := reference_numbers) ones32 [CtKey five (enc_scalar 7)] [ones32] [900; 100] two_rows [enc_scalar 3] None false 1 [] true unset_exponents seeded
     = Some (Throws "Failed to invert") /\ true = true /\ zero_hash).
Proof.
  exact (genRct_complete (RB := keccak_random) (BN := reference_numbers) ones32 [CtKey five (enc_scalar 7)] [1000] [ones32] [900; 100] two_rows [enc_scalar 3]
    1 [] true unset_exponents seeded ones32_scalar (or_intror eq_refl) eq_refl (Forall_cons _ (enc_scalar_scalar 3) (Forall_nil _))
    full_amounts two_rows_spendable eq_refl unset_ok seeded_ready).
Defined.
