(* ===== verification/RctMultisig.v ===== *)
(** * Multisignatures over RingCT transactions

    [genRctSimple] with shares of the keys and of the scalars, followed by [signMultisig] of the
    other signers, makes a signature that is accepted: the first answer of the signing column of
    each input collects the shares [k - c x] of all signers, with the challenge [c] that the first
    signer writes to [msout]. *)

From Stdlib Require Import ZArith Lia List Bool String.
From S2P Require Import Prelude Bytes Fe FeMul Primes ScReduce Sc Curve Ge GeBytes GeScalar GeBase GeDouble GeHash.
From S2P Require Import Keccak TreeHash Order Varint Random Encode KeyOps Signature RingSig RctTypes RctTable RctOps Borromean Mlsag Linear Bulletproofs BpCorrect BpProve RctSigs RctCorrect.
Import ListNotations.

#[local] Open Scope Z_scope.
#[local] Open Scope list_scope.
#[local] Opaque ed_mul ed_add base_point encode enc_scalar point_code H_point rct_H.
#[local] Opaque addKeys subKeys addKeys2 scalarmultH scalarmultBase genC skGen sc_add sc_sub sc_mulsub d2h proveRange verRange fast_hash.

Section Multisig.
  Context {FH : FastHash} {RB : RandomBytes} {BN : BigNum}.

(** ** Collecting shares *)

(** [mg] is [mg0] with the first answer of column [idx] replaced by [v]. *)
Definition partial (mg0 : mgSig) (idx : nat) (v : Z) (mg : mgSig) : Prop :=
  cc mg = cc mg0 /\ II mg = II mg0 /\ List.length (ss mg) = List.length (ss mg0) /\
  forall i, nth i (ss mg) [] = if (i =? idx)%nat then enc_scalar v :: tl (nth idx (ss mg0) []) else nth i (ss mg0) [].

Lemma partial_start mg0 idx s t :
  nth idx (ss mg0) [] = s :: t -> reduced_scalar s -> partial mg0 idx (le_val s) mg0.
Proof.
  intros E Rs. split; [reflexivity|]. split; [reflexivity|]. split; [reflexivity|]. intros i. destruct (Nat.eqb_spec i idx) as [->|]; [|reflexivity].
  rewrite E. cbn [tl]. f_equal. apply enc_scalar_val; apply Rs.
Qed.

Lemma partial_cong mg0 idx v w mg : v mod ell = w mod ell -> partial mg0 idx v mg -> partial mg0 idx w mg.
Proof.
  intros E (H1 & H2 & H3 & H4). repeat (split; [assumption|]). intros i. rewrite H4. now rewrite (enc_scalar_cong v w E).
Qed.

Lemma aset_nth_error {A} (l : list A) i x :
  (i < List.length l)%nat -> exists l', aset l i x = Some l' /\ List.length l' = List.length l /\
    forall j, nth_error l' j = if (j =? i)%nat then Some x else nth_error l j.
Proof.
  revert i. induction l as [|y l IH]; intros i Hi; cbn [List.length] in Hi; [lia|]. destruct i as [|i]; cbn [aset].
  - exists (x :: l). split; [reflexivity|]. split; [reflexivity|]. now intros [|j].
  - destruct (IH i ltac:(lia)) as (l' & -> & L & H). exists (y :: l'). split; [reflexivity|]. split; [cbn; lia|]. intros [|j]; [reflexivity | apply H].
Qed.

(** One share of one input. *)
Lemma add_share_spec indices k c x mgs n mg0 idx v mg cn kn :
  nth_error indices n = Some idx -> nth_error c n = Some (enc_scalar cn) -> nth_error k n = Some kn -> scalar kn -> scalar x ->
  nth_error mgs n = Some mg -> (idx < List.length (ss mg0))%nat -> partial mg0 idx v mg ->
  exists mgs' mg', add_share indices k c x mgs n = Some mgs' /\ List.length mgs' = List.length mgs /\
    (forall j, nth_error mgs' j = if (j =? n)%nat then Some mg' else nth_error mgs j) /\
    partial mg0 idx (v + (le_val kn - cn * le_val x)) mg'.
Proof.
  intros Ei Ec Ek Hk Hx Em Hlt (Hcc & HI & HL & Hn). unfold add_share. rewrite Ei, bind_Some, Ec, bind_Some, Ek, bind_Some.
  rewrite sc_mulsub_enc, bind_Some, Em, bind_Some by (apply enc_scalar_scalar || assumption).
  rewrite (nth_error_nth' (ss mg) []), bind_Some, Hn, Nat.eqb_refl by lia. cbn [nth_error]. rewrite bind_Some, le_val_enc_scalar, sc_add_sum, bind_Some. cbn [aset]. rewrite bind_Some.
  destruct (proj1 (returns_some _ _) (aset_spec (ss mg) idx (enc_scalar (v + (le_val kn - cn mod ell * le_val x)) :: tl (nth idx (ss mg0) [])) [] ltac:(lia)))
    as (rows & -> & LR & HR). rewrite bind_Some.
  assert (n < List.length mgs)%nat as Hn' by (apply nth_error_Some; congruence).
  destruct (aset_nth_error mgs n (MgSig rows (cc mg) (II mg)) Hn') as (mgs' & -> & Lm & Hm).
  exists mgs', (MgSig rows (cc mg) (II mg)). split; [reflexivity|]. split; [exact Lm|]. split; [exact Hm|].
  apply (partial_cong _ _ (v + (le_val kn - cn mod ell * le_val x))).
  - rewrite <- Zplus_mod_idemp_r, <- Zminus_mod_idemp_r, Zmult_mod_idemp_l, Zminus_mod_idemp_r, Zplus_mod_idemp_r. reflexivity.
  - split; [exact Hcc|]. split; [exact HI|]. cbn [ss]. split; [lia|]. intros i. rewrite HR. destruct (Nat.eqb_spec i idx) as [->|N]; [reflexivity|].
    rewrite Hn. now rewrite (proj2 (Nat.eqb_neq i idx) N).
Qed.

(** The signatures of the inputs, with the first answers [v]. *)
Definition collected (m : nat) (idx : nat -> nat) (mg0 : nat -> mgSig) (v : nat -> Z) (mgs : list mgSig) : Prop :=
  List.length mgs = m /\ forall n, (n < m)%nat -> (idx n < List.length (ss (mg0 n)))%nat /\
    exists mg, nth_error mgs n = Some mg /\ partial (mg0 n) (idx n) (v n) mg.

Section Sign.
  Variables (m : nat) (idx : nat -> nat) (mg0 : nat -> mgSig) (c : nat -> Z) (indices : list nat) (cs k : list key) (x : key).
  Hypothesis Lk : List.length k = m.
  Hypothesis Hk : Forall scalar k.
  Hypothesis Hx : scalar x.
  Hypothesis Ei : indices = map idx (seq 0 m).
  Hypothesis Ec : cs = map (fun n => enc_scalar (c n)) (seq 0 m).

Definition with_share (v : nat -> Z) (n : nat) : Z := v n + (le_val (nth n k []) - c n * le_val x).

Lemma add_shares_spec v mgs :
  collected m idx mg0 v mgs ->
  returns (foldM (add_share indices k cs x) (seq 0 m) mgs) (collected m idx mg0 (with_share v)).
Proof.
  intros HC. eapply returns_weaken; [apply (foldM_seq (fun i mgs => collected m idx mg0 (fun n => if (n <? i)%nat then with_share v n else v n) mgs))|].
  - exact HC.
  - intros i y Hi [Ly Hy]. destruct (Hy i ltac:(lia)) as (Hlt & mg & Em & Hp). rewrite Nat.ltb_irrefl in Hp.
    destruct (Forall_nth_error _ k i [] Hk ltac:(lia)) as [Ek Hki].
    destruct (add_share_spec indices k cs x y i (mg0 i) (idx i) (v i) mg (c i) (nth i k [])) as (y' & mg' & -> & Ly' & Hy' & Hp'); trivial.
    { rewrite Ei. apply nth_error_map_seq. lia. }
    { rewrite Ec. rewrite nth_error_map_seq by lia. reflexivity. }
    cbn [returns]. split; [lia|]. intros n Hn. destruct (Hy n Hn) as (Hlt' & mgn & En & Hpn). split; [exact Hlt'|]. rewrite Hy'.
    destruct (Nat.eqb_spec n i) as [->|N].
    + exists mg'. split; [reflexivity|]. rewrite (proj2 (Nat.ltb_lt i (S i))) by lia. exact Hp'.
    + exists mgn. split; [exact En|]. destruct (Nat.ltb_spec n (S i)), (Nat.ltb_spec n i); try lia; exact Hpn.
  - intros mgs' [L H]. split; [exact L|]. intros n Hn. destruct (H n Hn) as (Hlt & mg & E & Hp). split; [exact Hlt|]. exists mg. split; [exact E|].
    now rewrite (proj2 (Nat.ltb_lt _ _)) in Hp by lia.
Qed.

Lemma check_lines v mgs : collected m idx mg0 v mgs -> mapM (check_line mgs indices) (seq 0 m) = Some (map (fun _ => true) (seq 0 m)).
Proof.
  intros [L H]. apply mapM_map. intros n Hn%in_seq. destruct (H n ltac:(lia)) as (Hlt & mg & E & _ & _ & HL & Hr). unfold check_line.
  rewrite Ei, nth_error_map_seq, bind_Some, E, bind_Some by lia. rewrite (proj2 (Nat.ltb_lt (idx n) _)) by lia. cbn [negb].
  rewrite (nth_error_nth' (ss mg) []), bind_Some, Hr, Nat.eqb_refl by lia. reflexivity.
Qed.

Lemma sign_spec rv v :
  In (rct_type (base rv)) [RCTTypeSimple; RCTTypeSimpleBulletproof] -> collected m idx mg0 v (MGs (prunable rv)) ->
  exists mgs, signMultisig rv indices k cs x =
      Some (Some (RctSig (base rv) (RctSigPrunable (rangeSigs (prunable rv)) (bulletproofs (prunable rv)) mgs (p_pseudoOuts (prunable rv))))) /\
    collected m idx mg0 (with_share v) mgs.
Proof.
  intros Ht HC. destruct (proj1 (returns_some _ _) (add_shares_spec v _ HC)) as (mgs & Em & Hm). exists mgs. split; [|exact Hm]. unfold signMultisig.
  assert (List.length indices = m /\ List.length cs = m) as [Li Lc] by (rewrite Ei, Ec, !length_map, length_seq; auto).
  rewrite Li, Lc, Lk, (proj1 HC), !Nat.eqb_refl. cbn [negb]. rewrite (check_lines v _ HC), bind_Some.
  rewrite (proj2 (forallb_forall (fun b => b) _)) by now intros t (_ & <- & _)%in_map_iff. cbn [negb]. rewrite Em, bind_Some.
  destruct Ht as [<-|[<-|[]]]; reflexivity.
Qed.
End Sign.

(** The signers after the first: a secret share, and a scalar for each input. *)
Fixpoint sign_all (rv : rctSig) (indices : list nat) (cs : list key) (signers : list (key * list key)) : option (option rctSig) :=
  match signers with
  | [] => Some (Some rv)
  | (x, k) :: signers =>
      let! o := signMultisig rv indices k cs x in
      match o with
      | Some rv => sign_all rv indices cs signers
      | None => Some None
      end
  end.

Definition secret_shares (signers : list (key * list key)) : Z := fold_right Z.add 0 (map (fun s => le_val (fst s)) signers).

Definition scalar_shares (n : nat) (signers : list (key * list key)) : Z := fold_right Z.add 0 (map (fun s => le_val (nth n (snd s) [])) signers).

Lemma sign_all_spec m idx mg0 c indices cs rv v signers :
  Forall (fun s => scalar (fst s) /\ List.length (snd s) = m /\ Forall scalar (snd s)) signers ->
  indices = map idx (seq 0 m) -> cs = map (fun n => enc_scalar (c n)) (seq 0 m) ->
  In (rct_type (base rv)) [RCTTypeSimple; RCTTypeSimpleBulletproof] -> collected m idx mg0 v (MGs (prunable rv)) ->
  exists mgs, sign_all rv indices cs signers =
      Some (Some (RctSig (base rv) (RctSigPrunable (rangeSigs (prunable rv)) (bulletproofs (prunable rv)) mgs (p_pseudoOuts (prunable rv))))) /\
    collected m idx mg0 (fun n => v n + (scalar_shares n signers - c n * secret_shares signers)) mgs.
Proof.
  intros Hs Ei Ec. revert rv v. induction Hs as [|[x k] signers (Hx & Lk & Hk) _ IH]; intros rv v Ht HC; cbn [sign_all].
  - exists (MGs (prunable rv)). destruct rv as [b [sigs proofs mgs pouts]]. split; [reflexivity|]. destruct HC as [L H]. split; [exact L|].
    intros n Hn. destruct (H n Hn) as (Hlt & mg & E & Hp). split; [exact Hlt|]. exists mg. split; [exact E|]. unfold scalar_shares, secret_shares. cbn [map fold_right].
    now rewrite Z.mul_0_r, Z.sub_0_r, Z.add_0_r.
  - cbn [fst snd] in *. destruct (sign_spec m idx mg0 c indices cs k x Lk Hk Hx Ei Ec rv v Ht HC) as (mgs & -> & HC'). rewrite bind_Some.
    destruct (IH (RctSig (base rv) (RctSigPrunable (rangeSigs (prunable rv)) (bulletproofs (prunable rv)) mgs (p_pseudoOuts (prunable rv)))) _ Ht HC') as (mgs' & -> & [L H]).
    exists mgs'. split; [reflexivity|]. split; [exact L|]. intros n Hn. destruct (H n Hn) as (Hlt & mg & E & Hp). split; [exact Hlt|]. exists mg. split; [exact E|].
    eapply partial_cong; [|exact Hp]. f_equal. unfold with_share, scalar_shares, secret_shares. cbn [map fold_right fst snd]. ring.
Qed.

(** ** One input *)

Lemma nth_tl {A} (l : list A) j d : nth j (tl l) d = nth (S j) l d.
Proof. destruct l; [now destruct j | reflexivity]. Qed.

(** A signature closed at its column is accepted when the first answer is completed. *)
Lemma closed_accepted h Ps xx index K c alphas mg w mg' :
  scalar h -> ring 2 Ps -> (index < List.length Ps)%nat -> closed_by h 2 1 index Ps xx alphas c mg ->
  nth 0 alphas [] = enc_scalar K -> le_val (nth 1 (nth index (ss mg) []) []) = (le_val (nth 1 alphas []) - c * le_val (nth 1 xx [])) mod ell ->
  partial mg index w mg' -> w mod ell = (K - c * le_val (nth 0 xx [])) mod ell ->
  MLSAG_Ver h (map (map encode) Ps) mg' 1 = Some (Returns true).
Proof.
  intros Hh HR Hi (Bc & HI & Ls & Fs & Fc & Hclose) EK E1 (Ecc & EII & EL & Hn) Ew. set (row := enc_scalar w :: tl (nth index (ss mg) [])).
  assert (List.length (nth index (ss mg) []) = 2%nat /\ Forall reduced_scalar (nth index (ss mg) [])) as [Lr Rr] by (apply (Forall_nth_error _ _ index [] Fs); lia).
  assert (List.length row = 2%nat /\ Forall reduced_scalar row) as [Lrow Rrow].
  { unfold row. destruct (nth index (ss mg) []) as [|s t]; [discriminate Lr|]. cbn [tl]. split; [exact Lr|]. constructor; [apply enc_scalar_reduced | now inversion Rr]. }
  assert (Forall (fun r => List.length r = 2%nat /\ Forall reduced_scalar r) (ss mg')) as F'.
  { apply Forall_forall. intros r' Hr'. destruct (In_nth _ _ [] Hr') as (i & Hlt & <-). rewrite Hn. fold row. destruct (i =? index)%nat; [now split|].
    apply (Forall_nth_error _ _ i [] Fs). lia. }
  assert (Forall (Forall reduced_scalar) (ss mg')) as R' by (eapply Forall_impl; [|exact F']; now intros r' [_ ?]).
  assert (answers 2 Ps (ss mg')) as HA.
  { split; [lia|]. eapply Forall_impl; [|exact F']. intros r' [? Hr']. split; [assumption|]. eapply Forall_impl; [|exact Hr']. now intros k [? _]. }
  destruct mg' as [ss' cc' II']. cbn [ss cc II] in *. subst cc' II'. rewrite HI.
  rewrite (proj1 (ver_spec h 1 2 (images 1 index Ps xx) ss' (cc mg) Ps Hh HR HA ltac:(lia) eq_refl (images_on_curve index Ps xx 1) (proj1 Fc))) by now split.
  rewrite (Hclose row ss'), Z.eqb_refl; [reflexivity | | exact Hn].
  intros [|[|j]] Hj; [| |lia]; unfold row; cbn [nth].
  - rewrite EK, !le_val_enc_scalar, Zminus_mod_idemp_l. exact Ew.
  - rewrite nth_tl. exact E1.
Qed.

(** The first signer of an input. *)
Lemma simple_shares h PCs sk a v index k1 K X r :
  scalar h -> (2 <= List.length PCs)%nat -> Forall on_curve2 PCs -> (index < List.length PCs)%nat ->
  reduced_scalar (dest sk) -> reduced_scalar (mask sk) -> reduced_scalar k1 ->
  nth index PCs (ed_0, ed_0) = (ed_mul X base_point, pedersen (le_val (mask sk)) v) -> rng_ready r ->
  let P := fst (nth index PCs (ed_0, ed_0)) in
  oreturns (proveRctMGSimple h (map ct_of PCs) sk (enc_scalar a) (encode (pedersen a v))
      (Some (Multisig_kLRki k1 (encode (ed_mul K base_point)) (encode (ed_mul K (Hp (encode P)))) (encode (ed_mul X (Hp (encode P)))))) true index r)
    (fun '(mg, out, r') => exists c, out = Some (enc_scalar c) /\ rng_ready r' /\ (index < List.length (ss mg))%nat /\
       partial mg index (le_val k1 - c * le_val (dest sk)) mg /\
       forall w mg', partial mg index w mg' -> w mod ell = (K - c * X) mod ell -> verRctMGSimple h mg' (map ct_of PCs) (encode (pedersen a v)) = Some true).
Proof.
  intros Hh H2 HP Hi Rd Rm Rk En Hr P. pose proof (pedersen_on_curve a v) as HC. unfold proveRctMGSimple, verRctMGSimple.
  rewrite length_map, (proj2 (Nat.leb_le 1 _)) by lia. cbn [negb]. rewrite check_throw_true, check_throw_true by reflexivity.
  rewrite sc_sub_enc, bind_Some by (apply Rm || apply enc_scalar_scalar). rewrite simple_columns by assumption. rewrite obind_Returns.
  set (Ps := map (simple_points (pedersen a v)) PCs). set (y1 := enc_scalar (le_val (mask sk) - le_val (enc_scalar a))).
  assert (ring 2 Ps) as HR by now apply simple_ring. assert (index < List.length Ps)%nat as Hi' by (unfold Ps; now rewrite length_map).
  assert (nth index Ps [] = [P; ed_add (snd (nth index PCs (ed_0, ed_0))) (ed_opp (pedersen a v))]) as EP.
  { unfold Ps. rewrite (nth_indep _ [] (simple_points (pedersen a v) (ed_0, ed_0))) by now rewrite length_map. now rewrite map_nth. }
  assert (ed_mul (le_val (enc_scalar X)) (Hp (encode P)) = ed_mul X (Hp (encode P))) as EI.
  { rewrite le_val_enc_scalar. apply ed_mul_residue, Hp_subgroup, encode_scalar. }
  eapply returns_weaken; [|].
  { pose proof (share_spec h 2 1 index Ps [enc_scalar X; y1] Hh HR ltac:(lia) Hi') as K1.
    specialize (K1 eq_refl).
    unfold image in K1. rewrite EP in K1. cbn [nth] in K1. rewrite EI in K1. apply K1; trivial.
    - intros j Hj. rewrite En. destruct j as [|[|j]]; [| |lia]; cbn [nth].
      + unfold P. rewrite En. cbn [fst]. rewrite le_val_enc_scalar. symmetry. apply ed_mul_residue, base_in_subgroup.
      + cbn [snd]. unfold y1. rewrite pedersen_sub, !le_val_enc_scalar. apply ed_mul_mod; [apply base_in_subgroup|].
        now rewrite Z.mod_mod, Zminus_mod_idemp_r by discriminate.
    - constructor; [exact Rd|]. constructor; [apply enc_scalar_reduced | constructor].
    - intros [|j] Hj; [lia | reflexivity]. }
  intros [[[mg out] r'] | w]; [|auto]. intros (c & alphas & -> & Hr' & Hcl & EK & E0 & E1). exists c. split; [reflexivity|]. split; [exact Hr'|].
  pose proof Hcl as (_ & _ & Ls & Fs & _). split; [lia|]. split.
  - destruct (Forall_nth_error _ _ index [] Fs ltac:(lia)) as [_ [Lr Rr]]. destruct (nth index (ss mg) []) as [|s t] eqn:Es; [discriminate Lr|].
    apply (partial_cong _ _ (le_val s)); [cbn [nth] in E0; rewrite E0; apply Z.mod_mod; discriminate|].
    apply (partial_start _ _ _ _ Es). now inversion Rr.
  - intros w mg' Hp Ew. rewrite obind_Returns. rewrite (closed_accepted h Ps [enc_scalar X; y1] index K c alphas mg w mg'); trivial.
    + apply E1. lia.
    + cbn [nth]. rewrite Ew, le_val_enc_scalar, <- (Zminus_mod_idemp_r _ (c * (X mod ell))), Zmult_mod_idemp_r, Zminus_mod_idemp_r. reflexivity.
Qed.

(** ** All inputs *)

(** The ring can be spent with the secret [X] shared among the signers, of which [sk] holds one
    share; [kl] has one share of the scalar [K], its commitments and the key image of [X]. *)
Definition shared_input {BD : Build} (ring : list ctkey) (idx : nat) (sk : ctkey) (v : Z) (kl : multisig_kLRki) (X K : Z) : Prop :=
  let pub := dest (nth idx ring ct0) in
  spendable ring idx (CtKey (enc_scalar X) (mask sk)) v /\ reduced_scalar (dest sk) /\ reduced_scalar (ms_k kl) /\
  scalarmultBase (enc_scalar K) = Some (ms_L kl) /\
  (exists H, hashToPoint pub = Some H /\ scalarmultKey H (enc_scalar K) = Some (Returns (ms_R kl))) /\
  generate_key_image pub (enc_scalar X) = Some (ms_ki kl).

Lemma shared_points {BD : Build} ring idx sk v kl X K :
  0 <= v < 2 ^ 64 -> shared_input ring idx sk v kl X K ->
  exists PCs, ring = map ct_of PCs /\ (2 <= List.length PCs)%nat /\ (idx < List.length PCs)%nat /\ Forall on_curve2 PCs /\
    reduced_scalar (dest sk) /\ reduced_scalar (mask sk) /\ reduced_scalar (ms_k kl) /\
    nth idx PCs (ed_0, ed_0) = (ed_mul X base_point, pedersen (le_val (mask sk)) v) /\
    let P := fst (nth idx PCs (ed_0, ed_0)) in
    kl = Multisig_kLRki (ms_k kl) (encode (ed_mul K base_point)) (encode (ed_mul K (Hp (encode P)))) (encode (ed_mul X (Hp (encode P)))).
Proof.
  intros Hv (Hsp & Rd & Rk & EL & (Hk & EH & ER) & EK). destruct (spendable_points _ _ _ _ Hv Hsp) as (PCs & -> & H2 & Hi & HP & _ & Rm & En). cbn [dest mask] in *.
  assert (ed_mul (le_val (enc_scalar X)) base_point = ed_mul X base_point) as EX by (rewrite le_val_enc_scalar; apply ed_mul_residue, base_in_subgroup).
  rewrite EX in En. exists PCs. repeat (split; [assumption || reflexivity|]). cbv zeta.
  rewrite (nth_indep (map ct_of PCs) ct0 (ct_of (ed_0, ed_0))), map_nth in EH, EK by now rewrite length_map. cbn [ct_of dest] in EH, EK.
  set (P := fst (nth idx PCs (ed_0, ed_0))) in *. pose proof (Hp_subgroup _ (encode_scalar P)) as HS.
  rewrite hashToPoint_enc in EH by apply encode_scalar. injection EH as <-.
  rewrite scalarmultKey_enc in ER by (apply HS || apply reduced_255, enc_scalar_reduced).
  rewrite key_image_encode in EK by (apply encode_scalar || apply enc_scalar_reduced). rewrite scalarmultBase_enc in EL by apply enc_scalar_scalar.
  rewrite !le_val_enc_scalar in *. rewrite (ed_mul_residue base_point K base_in_subgroup) in EL. rewrite (ed_mul_residue _ K HS) in ER. rewrite (ed_mul_residue _ X HS) in EK.
  destruct kl as [k L R ki]. cbn [ms_k ms_L ms_R ms_ki] in *. congruence.
Qed.

Section Inputs.
  Context {BD : Build}.
  Variables (inSk : list ctkey) (inamounts : list Z) (mixRing : list (list ctkey)) (index : list nat) (kls : list multisig_kLRki) (X K : nat -> Z).
Let m := List.length inamounts.
  Hypothesis LI : List.length inSk = m.
  Hypothesis LX : List.length index = m.
  Hypothesis LM : List.length mixRing = m.
  Hypothesis LK : List.length kls = m.
  Hypothesis Hv : Forall (fun v => 0 <= v < 2 ^ 64) inamounts.
  Variable kl0 : multisig_kLRki.
  Hypothesis Hsh : forall i, (i < m)%nat -> shared_input (nth i mixRing []) (nth i index 0%nat) (nth i inSk ct0) (nth i inamounts 0) (nth i kls kl0) (X i) (K i).

(** What the first signer leaves for input [j]. *)
Definition input_shared (h : key) (pouts : list key) (c : nat -> Z) (mgs : list mgSig) (j : nat) : Prop :=
  exists mg, nth_error mgs j = Some mg /\ (nth j index 0 < List.length (ss mg))%nat /\
    partial mg (nth j index 0%nat) (le_val (ms_k (nth j kls kl0)) - c j * le_val (dest (nth j inSk ct0))) mg /\
    forall w mg', partial mg (nth j index 0%nat) w mg' -> w mod ell = (K j - c j * X j) mod ell ->
      verRctMGSimple h mg' (nth j mixRing []) (nth j pouts []) = Some true.

Lemma gen_shares_spec h b a pouts r :
  scalar h -> pseudo_made inamounts b m a pouts -> rng_ready r ->
  oreturns (ofold (gen_mg h mixRing inSk a pouts (Some kls) true index) (seq 0 m) ([], [], r)) (fun '(mgs, cs, r') =>
    rng_ready r' /\ List.length mgs = m /\ exists c, cs = map (fun n => enc_scalar (c n)) (seq 0 m) /\ forall j, (j < m)%nat -> input_shared h pouts c mgs j).
Proof.
  intros Hh [Ea Ep] Hr. apply (ofold_seq (fun i '(mgs, cs, r') => rng_ready r' /\ List.length mgs = i /\
    exists c, cs = map (fun n => enc_scalar (c n)) (seq 0 i) /\ forall j, (j < i)%nat -> input_shared h pouts c mgs j)).
  - split; [exact Hr|]. split; [reflexivity|]. exists (fun _ => 0). split; [reflexivity | intros; lia].
  - intros i [[mgs cs] r1] Hi (Hr1 & Lm & c & -> & Hc). unfold gen_mg. destruct (Forall_nth_error _ inamounts i 0 Hv ltac:(lia)) as [_ Hvi].
    rewrite Ea, Ep, (nth_error_nth' mixRing []), bind_Some, (nth_error_nth' inSk ct0), bind_Some by lia.
    rewrite !nth_error_map_seq, !bind_Some, (nth_error_nth' index 0%nat), !bind_Some, (nth_error_nth' kls kl0), !bind_Some by lia.
    destruct (shared_points _ _ _ _ _ _ _ Hvi (Hsh i ltac:(lia))) as (PCs & ER & H2 & Hx & HP & Rd & Rm & Rk & En & Ekl). rewrite ER. cbv zeta in Ekl. rewrite Ekl.
    eapply oreturns_bind; [exact (simple_shares h PCs (nth i inSk ct0) (b i) (nth i inamounts 0) (nth i index 0%nat) _ (K i) (X i) r1 Hh H2 HP Hx Rd Rm Rk En Hr1)|].
    intros [[mg out] r'] (cn & -> & Hr' & Hlt & Hp & Hver). unfold oreturns, returns. split; [exact Hr'|]. split; [rewrite length_app; cbn; lia|].
    exists (put c i cn). rewrite map_seq_snoc, (put_map (fun c n => enc_scalar (c n))), put_same by (intros c1 c2 j ->; reflexivity). split; [reflexivity|].
    intros j Hj. unfold input_shared. destruct (Nat.eq_dec j i) as [->|N].
    + exists mg. rewrite nth_error_app2, Lm, Nat.sub_diag, put_same by lia. split; [reflexivity|]. split; [exact Hlt|]. split; [exact Hp|].
      intros w mg' Hpw Ew. rewrite ER, (nth_map_seq (out_commit inamounts b)) by lia. exact (Hver w mg' Hpw Ew).
    + destruct (Hc j ltac:(lia)) as (mg' & E & H). exists mg'. rewrite nth_error_app1 by (apply nth_error_Some; congruence). split; [exact E|].
      unfold put. rewrite (proj2 (Nat.eqb_neq j i) N), <- Ep. exact H.
Qed.
End Inputs.

(** C4: multisignatures are complete: the secrets of the inputs and the scalars of their
    commitments are sums of shares, one held by the sender and one by each of the other signers;
    [genRctSimple] with the shares of the sender returns a signature and challenges with which the
    calls of [signMultisig] by the other signers, one after the other, all succeed; the resulting
    signature is accepted by both parts of [verRctSimple], and the recipients decode the amounts.
    The only exception, with bulletproofs, shows keys that hash to zero. *)
Theorem multisig_complete {BD : Build} message inSk destinations inamounts outamounts fee mixRing amount_keys kls kl0 index outSk bulletproof ex r signers :
  let m := List.length inamounts in
  let n := List.length destinations in
  scalar message -> (1 <= m)%nat -> List.length inSk = m -> List.length index = m -> List.length mixRing = m -> List.length kls = m ->
  List.length outamounts = n -> List.length amount_keys = n -> Forall scalar amount_keys ->
  Forall (fun v => 0 <= v < 2 ^ 64) (fee :: inamounts ++ outamounts) ->
  Forall (fun s => scalar (fst s) /\ List.length (snd s) = m /\ Forall scalar (snd s)) signers ->
  (forall i, (i < m)%nat -> shared_input (nth i mixRing []) (nth i index 0%nat) (nth i inSk ct0) (nth i inamounts 0) (nth i kls kl0)
     (le_val (dest (nth i inSk ct0)) + secret_shares signers) (le_val (ms_k (nth i kls kl0)) + scalar_shares i signers)) ->
  fold_right Z.add 0 inamounts = fee + fold_right Z.add 0 outamounts -> exponents_ok ex -> rng_ready r ->
  (exists rv sks cs ex' r' rv',
     genRctSimple message inSk destinations inamounts outamounts fee mixRing amount_keys (Some kls) true index outSk bulletproof ex r
       = Some (Returns (rv, sks, cs, ex', r')) /\ exponents_ok ex' /\ rng_ready r' /\
     sign_all rv index cs signers = Some (Some rv') /\
     (forall ex2, exponents_ok ex2 -> verRctSimple_both ex2 rv' = Some true) /\
     (forall i k, (i < n)%nat -> decodeRctSimple rv' (nth i amount_keys []) i k = Some (Returns (nth i outamounts 0, mask (nth i sks ct0))))) \/
  (genRctSimple message inSk destinations inamounts outamounts fee mixRing amount_keys (Some kls) true index outSk bulletproof ex r
     = Some (Throws "Failed to invert") /\ bulletproof = true /\ zero_hash).
Proof.
  intros m n Hm Hm1 LI LX LM LK LO LA HA HV HS Hsh Hsum Hex Hr. rewrite Forall_cons_iff, Forall_app in HV. destruct HV as (Hf & HI & HO).
  set (X := fun i => le_val (dest (nth i inSk ct0)) + secret_shares signers) in *. set (K := fun i => le_val (ms_k (nth i kls kl0)) + scalar_shares i signers) in *.
  pose proof (gen_simple_spec inSk inamounts mixRing index LI LX LM HI (Some kls) true
    (fun h pouts mgs cs => exists c, cs = map (fun n => enc_scalar (c n)) (seq 0 m) /\ forall j, (j < m)%nat -> input_shared inSk mixRing index kls X K kl0 h pouts c mgs j)
    bulletproof message destinations outamounts amount_keys fee outSk ex r (fun i Hi => proj1 (proj2 (proj1 (Hsh i Hi)))) (conj eq_refl LK)) as H. cbv zeta in H.
  specialize (H (fun h b a pouts r Hh Hp Hr => gen_shares_spec inSk inamounts mixRing index kls X K LI LX LM LK HI kl0 Hsh h b a pouts r Hh Hp Hr) Hm Hm1 Hf LO HO LA HA Hex Hr).
  destruct (genRctSimple _ _ _ _ _ _ _ _ _ _ _ _ _ _ _) as [[[[[[rv sks] cs] ex'] r'] | w]|]; [left | right | contradiction H].
  2: { destruct H as (-> & ? & ?). auto. }
  destruct H as (a & b & st & masks & pouts & mgs & h & -> & -> & Hex' & Hr' & Hst & Hps & Esum & Eh & Lm & c & -> & Hc).
  set (mg0 := fun j => nth j mgs (MgSig [] [] [])).
  assert (collected m (fun j => nth j index 0%nat) mg0 (fun j => le_val (ms_k (nth j kls kl0)) - c j * le_val (dest (nth j inSk ct0))) mgs) as HC.
  { split; [exact Lm|]. intros j Hj. destruct (Hc j Hj) as (mg & E & Hlt & Hp & _). unfold mg0. rewrite (nth_error_nth _ _ _ E). split; [exact Hlt|]. now exists mg. }
  assert (index = map (fun j => nth j index 0%nat) (seq 0 m)) as Ei.
  { apply (nth_ext _ _ 0%nat 0%nat); [now rewrite length_map, length_seq|]. intros j Hj. now rewrite (nth_map_seq (fun j => nth j index 0%nat)) by lia. }
  destruct (sign_all_spec m _ mg0 c index _ (simple_sig mixRing bulletproof message pouts st fee mgs) _ signers HS Ei eq_refl
    ltac:(destruct bulletproof; cbn; auto) HC) as (mgs' & E' & Lm' & HC').
  exists (simple_sig mixRing bulletproof message pouts st fee mgs), (gs_outSk st), (map (fun n => enc_scalar (c n)) (seq 0 m)), ex', r',
    (simple_sig mixRing bulletproof message pouts st fee mgs').
  split; [reflexivity|]. split; [exact Hex'|]. split; [exact Hr'|]. split; [exact E'|].
  assert (zsum m (fun j => nth j inamounts 0) = fee + zsum n (fun j => nth j outamounts 0)) as Ev.
  { rewrite <- LO. unfold m. rewrite !zsum_nth. exact Hsum. }
  split; [|intros i k Hi; eapply simple_decodes; eassumption].
  intros ex2 H2. unfold verRctSimple_both. erewrite simple_semantics, bind_Some by eassumption. eapply simple_signatures; try eassumption.
  intros j Hj. destruct (HC' j Hj) as (_ & mg & E & Hp). destruct (Hc j Hj) as (mg1 & E1 & _ & _ & Hver). exists mg. split; [exact E|].
  unfold mg0 in Hp. rewrite (nth_error_nth _ _ _ E1) in Hp. apply (Hver _ _ Hp). f_equal. unfold X, K. ring.
Qed.
End Multisig.

(** *** Witnesses *)

#[local] Existing Instance debug_build.

Lemma shared_of {FH : FastHash} P X K sk k v :
  let pub := encode (ed_mul (le_val (enc_scalar X)) base_point) in
  on_curve P -> reduced_scalar (dest sk) -> reduced_scalar (mask sk) -> reduced_scalar k -> 0 <= v < 2 ^ 64 ->
  shared_input [CtKey (encode P) (encode P); CtKey pub (encode (pedersen (le_val (mask sk)) v))] 1 sk v
    (Multisig_kLRki k (encode (ed_mul (le_val (enc_scalar K)) base_point)) (encode (ed_mul (le_val (enc_scalar K)) (Hp pub)))
       (encode (ed_mul (le_val (enc_scalar X)) (Hp pub)))) X K.
Proof.
  intros pub HP Rd Rm Rk Hv. assert (on_curve (ed_mul (le_val (enc_scalar X)) base_point)) as HQ by apply ed_mul_on_curve, base_point_on_curve.
  split; [|split; [exact Rd|]; split; [exact Rk|]; split; [apply scalarmultBase_enc, enc_scalar_scalar|]; split].
  - apply spendable_of; cbn [dest mask]; try assumption; try (apply valid_encode; assumption || apply pedersen_on_curve); try apply enc_scalar_reduced.
    + apply scalarmultBase_enc, enc_scalar_scalar.
    + apply commit_enc; [exact Hv | apply Rm].
  - exists (encode (Hp pub)). split; [apply hashToPoint_enc, encode_scalar|].
    apply scalarmultKey_enc; [apply Hp_subgroup, encode_scalar | apply reduced_255, enc_scalar_reduced].
  - apply key_image_encode; [apply encode_scalar | apply enc_scalar_reduced].
Qed.

Lemma one_shared {FH : FastHash} ring idx sk v kl kl0 s :
  shared_input ring idx sk v kl (le_val (dest sk) + secret_shares s) (le_val (ms_k kl) + scalar_shares 0 s) ->
  forall i, (i < 1)%nat -> shared_input (nth i [ring] []) (nth i [idx] 0%nat) (nth i [sk] ct0) (nth i [v] 0) (nth i [kl] kl0)
    (le_val (dest (nth i [sk] ct0)) + secret_shares s) (le_val (ms_k (nth i [kl] kl0)) + scalar_shares i s).
Proof. intros H i Hi. destruct i; [exact H | lia]. Qed.

(** A second signer, with the secret 3 and the scalar 4. *)
Definition cosigner : list (key * list key) := [(enc_scalar 3, [enc_scalar 4])].

Definition total_secret : Z := le_val (enc_scalar 2) + secret_shares cosigner.

Definition total_scalar : Z := le_val (enc_scalar 11) + scalar_shares 0 cosigner.

Definition shared_pub : key := encode (ed_mul (le_val (enc_scalar total_secret)) base_point).

Definition shared_ring : list ctkey := [CtKey (encode base_point) (encode base_point); CtKey shared_pub paid_commitment].

Definition shared_kl : multisig_kLRki :=
  Multisig_kLRki (enc_scalar 11) (encode (ed_mul (le_val (enc_scalar total_scalar)) base_point)) (encode (ed_mul (le_val (enc_scalar total_scalar)) (Hp shared_pub)))
    (encode (ed_mul (le_val (enc_scalar total_secret)) (Hp shared_pub))).

Lemma shared_ring_ok : shared_input shared_ring 1 (CtKey (enc_scalar 2) (enc_scalar 7)) 1000 shared_kl total_secret total_scalar.
Proof.
  exact (shared_of base_point total_secret total_scalar (CtKey (enc_scalar 2) (enc_scalar 7)) (enc_scalar 11) 1000 base_point_on_curve
    (enc_scalar_reduced 2) (enc_scalar_reduced 7) (enc_scalar_reduced 11) thousand).
Qed.

Lemma cosigner_ok : Forall (fun s : key * list key => scalar (fst s) /\ List.length (snd s) = 1%nat /\ Forall scalar (snd s)) cosigner.
Proof. constructor; [|constructor]. split; [apply enc_scalar_scalar|]. split; [reflexivity|]. constructor; [apply enc_scalar_scalar | constructor]. Qed.

Lemma multisig_complete_witness :
  (exists rv sks cs ex' r' rv',
     genRctSimple (RB := keccak_random) (BN := reference_numbers) ones32 [CtKey (enc_scalar 2) (enc_scalar 7)] [ones32] [1000] [900] 100 [shared_ring] [enc_scalar 3] (Some [shared_kl]) true [1%nat] [] false unset_exponents seeded
       = Some (Returns (rv, sks, cs, ex', r')) /\ exponents_ok ex' /\ @rng_ready keccak_random r' /\
     sign_all rv [1%nat] cs cosigner = Some (Some rv') /\
     (forall ex2, exponents_ok ex2 -> verRctSimple_both (BN := reference_numbers) ex2 rv' = Some true) /\
     (forall i k, (i < 1)%nat -> decodeRctSimple rv' (nth i [enc_scalar 3] []) i k = Some (Returns (nth i [900] 0, mask (nth i sks ct0))))) \/
  (genRctSimple (RB := keccak_random) (BN := reference_numbers) ones32 [CtKey (enc_scalar 2) (enc_scalar 7)] [ones32] [1000] [900] 100 [shared_ring] [enc_scalar 3] (Some [shared_kl]) true [1%nat] [] false unset_exponents seeded
     = Some (Throws "Failed to invert") /\ false = true /\ zero_hash).
Proof.
  exact (multisig_complete (RB := keccak_random) (BN := reference_numbers) ones32 [CtKey (enc_scalar 2) (enc_scalar 7)] [ones32] [1000] [900] 100 [shared_ring] [enc_scalar 3]
    [shared_kl] shared_kl [1%nat] [] false unset_exponents seeded cosigner ones32_scalar (le_n 1) eq_refl eq_refl eq_refl eq_refl eq_refl eq_refl
    (Forall_cons _ (enc_scalar_scalar 3) (Forall_nil _)) paid_amounts cosigner_ok
    (one_shared shared_ring 1 (CtKey (enc_scalar 2) (enc_scalar 7)) 1000 shared_kl shared_kl cosigner shared_ring_ok) eq_refl unset_ok seeded_ready).
Defined.
